(* ===== verification/_CoqProject ===== *)
-Q . S2P
Prelude.v
JsMap.v
JsString.v
Graph.v
Capabilities.v
TeamTypes.v
TeamPayout.v
TeamPayoutStages.v
TeamPayoutSpec.v
TeamValidation.v
TeamValidationSpec.v
TeamAudit.v
TeamCheckpoints.v
TeamCheckpointsSpec.v
TeamEngine.v
TeamEngineInv.v
TeamEngineSafety.v
TeamEngineSpec.v
WorkflowValidation.v
TeamWorkflow.v
RollingWindow.v
PolicyTypes.v
PolicyGlob.v
PolicyEngine.v
PolicyBudgetSpec.v
PolicyEngineSpec.v
PolicyBreakerSpec.v
PolicyRulesSpec.v
PolicyOverlaySpec.v
PriorityQueue.v
DeadLetterQueue.v
BudgetState.v
JobGovernor.v
JobGovernorSpec.v
ToolTurns.v
ToolTurnsSpec.v
ToolTurnsRepair.v
Cron.v
CronSpec.v
CronScheduler.v
Encoding.v
WorkflowMutations.v
WorkflowMutationsSpec.v
MemoryBackend.v
Connection.v
ConnectionSpec.v
ConnectionRuns.v
Approvals.v
ApprovalsSpec.v
ApprovalsDenials.v
JsRegex.v
ToolGovernance.v
EffectPolicy.v
EffectPolicySpec.v
Transitions.v
Projection.v
ProjectionJson.v
ProjectionOrder.v
ProjectionSpec.v
Replay.v
ReplaySpec.v
ReplayBackfill.v
ReplayBackfillSpec.v
ReplayDemo.v
TaskDiscovery.v
TaskExecutor.v
TaskExecutorMoves.v
TaskExecutorSpec.v
TaskExecutorSafety.v
Kernel.v
KernelSchedule.v
PipelineExecutor.v
PipelineExecutorSpec.v
KeyedQueue.v
Mailbox.v
MailboxSpec.v
EffectLedger.v
EffectLedgerSpec.v
GovernanceAudit.v
GovernanceAuditSpec.v
