(* ===== verification/Prelude.v ===== *)
(** * A verification development for the agenc-core runtime

    agenc-core is a TypeScript runtime for software agents that take part in
    an on-chain task market. The development models the parts of
    src/runtime/src that decide about money, permissions, limits and the fate
    of tasks, as functions of Rocq that compute, and proves what makes them
    correct.

    ** The parts of the program and how they interact

    - Team contracts (team). [TeamContractEngine] (engine.ts) keeps the
      contracts: a normalised and validated template (validation.ts), the
      roster, the checkpoints with their dependencies, the status and the final
      payout (payout.ts). It writes an event for every change to an audit store
      (audit.ts), calls the client's hooks under a re-entrancy flag, and uses
      the capability masks of agents (agent/capabilities.ts). The adapter
      (workflow-adapter.ts) turns a running contract into a workflow.
    - Workflows (workflow): the validation of a task graph, the order in which
      its tasks are submitted (validation.ts), and the mutations by which
      workflows are varied (mutations.ts). [CanonicalExecutionKernel]
      (execution-kernel.ts) runs a graph of planner steps: it starts a step
      when the contracts of the steps it depends on are met, up to a limit.
      [PipelineExecutor] (pipeline.ts) runs a list of steps with retries and
      approvals, and resumes it from the checkpoint before each step.
      [EffectLedger] (effect-ledger.ts, effect-storage.ts, effects.ts) records
      what a tool is about to change and what came of it, and undoes it with the
      actions that compensation.ts builds from snapshots of the touched paths.
    - Policy (policy). [PolicyEngine] (engine.ts) allows or denies every tool
      call and transaction of an agent: allow and deny lists with glob patterns
      (glob.ts), risk, network, write and secret rules, rolling budgets, and a
      circuit breaker. The policy in force for a tenant or a project is a merge
      of bundles (bundles.ts). tool-governance.ts classifies a tool call and
      builds the action that the engine judges. The governance audit log
      (governance-audit-log.ts) keeps signed records of what was decided, each
      linked to the one before, in memory or in the backend.
    - Approvals (gateway). [ApprovalEngine] (approvals.ts) holds a tool call
      back until somebody approves it; the effect policy
      (effect-approval-policy.ts, safety-tiering.ts) says which calls need
      that, and which are denied.
    - Worker mailbox (gateway, utils). [PersistentWorkerMailbox]
      (persistent-worker-mailbox.ts) carries messages between a parent session
      and its workers in the backend; [KeyedAsyncQueue] (keyed-async-queue.ts)
      keeps the changes of one session apart.
    - Tasks (task). [TaskDiscovery] (discovery.ts, filters.ts) reports tasks
      that match a filter; [TaskExecutor] (executor.ts) queues them in a heap
      (priority-queue.ts), claims, executes and submits them under a limit of
      concurrent tasks, with retries, timers, a checkpoint after each stage and
      a dead letter queue (dlq.ts). The governor of compiled jobs
      (compiled-job-execution-governor.ts) limits concurrency and rates by the
      sliding windows of the budget state service (policy/budget-state.ts).
    - Connection (connection): the manager of RPC endpoints with retry,
      failover, coalescing and health tracking (manager.ts, retry.ts).
    - Replay (replay, eval). On-chain events are projected to a timeline
      (eval/projector.ts) whose lifecycles are checked
      (eval/transition-validator.ts), stored (replay/*-store.ts) and backfilled
      from the chain (replay/backfill.ts) or captured live (replay/bridge.ts).
    - Smaller parts: the validation and repair of tool turns for language
      models (llm/tool-turn-validator.ts), the cron scheduler
      (gateway/scheduler.ts), the in-memory backend (memory/in-memory), the
      encodings of agent ids and proof hashes (utils/encoding.ts).

    ** Which file models which part

    - Prelude, JsMap, JsString, JsRegex, RollingWindow, Graph: what
      several parts share. Prelude: the error monad [result], the state monad
      with exceptions [ST] (a throw keeps the state it was thrown in), numbers,
      stable sorting, generic list lemmas, tactics and the hint databases.
      JsMap: [Map] and object records, in insertion order. JsString: the
      string methods the code calls, and the values of tool arguments. JsRegex:
      a matcher for the regular expressions that the source contains. Graph:
      the three-colour depth-first search that team/validation.ts and
      workflow/validation.ts both contain. RollingWindow: the contract of a
      budget over a rolling window.
    - Capabilities: agent/capabilities.ts.
    - TeamTypes (types.ts, errors.ts), TeamPayout (payout.ts), TeamValidation
      (validation.ts), TeamAudit (audit.ts, the interface [TeamAuditStore] as
      a class with its laws, and [InMemoryTeamAuditStore] as an instance),
      TeamCheckpoints and TeamEngine (engine.ts), TeamWorkflow
      (workflow-adapter.ts). The engine is a [Record] of its contracts, its
      store, its clock and its flag; each public method is one definition with
      the name of the method.
    - WorkflowValidation (workflow/types.ts, validation.ts), WorkflowMutations
      (mutations.ts), Kernel (execution-kernel.ts, execution-kernel-*.ts,
      completion-state.ts), PipelineExecutor (pipeline.ts, and from
      migrations.ts the checkpoints of pipelines), EffectLedger (effects.ts,
      compensation.ts, effect-storage.ts, effect-ledger.ts).
    - PolicyTypes (types.ts, bundles.ts), PolicyGlob (glob.ts),
      PolicyEngine (engine.ts), ToolGovernance (tool-governance.ts),
      GovernanceAudit (governance-audit-log.ts).
    - Approvals (gateway/approvals.ts), EffectPolicy (safety-tiering.ts,
      effect-approval-policy.ts), KeyedQueue (utils/keyed-async-queue.ts),
      Mailbox (persistent-worker-mailbox.ts, its messages of
      runtime-contract/types.ts).
    - PriorityQueue (priority-queue.ts), DeadLetterQueue (dlq.ts), BudgetState
      (budget-state.ts), JobGovernor (compiled-job-execution-governor.ts),
      TaskDiscovery (discovery.ts, filters.ts), TaskExecutor (executor.ts).
    - Connection (connection/manager.ts, retry.ts).
    - Transitions (eval/transition-validator.ts), Projection (eval/projector.ts),
      Replay (replay/types.ts, trace.ts, record.ts, pda-utils.ts and the
      in-memory and file stores), ReplayBackfill (backfill.ts, bridge.ts, over
      the class [TimelineStore] of the store interface).
    - ToolTurns (llm/tool-turn-validator.ts), Cron and CronScheduler
      (gateway/scheduler.ts), MemoryBackend (memory/in-memory/backend.ts),
      Encoding (utils/encoding.ts).

    Asynchronous code (Approvals, Connection, CronScheduler, TaskDiscovery,
    TaskExecutor, ReplayBackfill, Kernel, PipelineExecutor, KeyedQueue,
    Mailbox) is a state machine:
    what the code does between two awaits is one definition, a settled promise,
    a timer or a call is an event, and the theorems quantify over all sequences
    of events.

    The files whose names end in Stages, Spec, Inv, Safety, Moves, Schedule,
    Runs, Repair, Denials, Order, Json or Demo hold the
    theorems about the files of the same stem, and the runs that instantiate
    them.

    ** What the theorems show

    Each statement, and the comment above it, names the conditions it needs;
    the examples beside it show what happens without them.

    - Payout (TeamPayoutSpec): the reward is conserved; when the computation
      succeeds; who is paid; the exact penalties; each share by weight is its
      proportional quota rounded down or up.
    - Team engine (TeamEngineSpec, TeamCheckpointsSpec): over every state
      reachable by the public methods, calls that throw and hooks included,
      the roster is consistent, statuses are truthful, a completed checkpoint
      was justified, a finalised payout is the one the record calls for, the
      audit trail is ordered, and a contract only moves forward. An active
      contract is never stuck. The two propagation loops terminate, with what
      they compute. Hooks cannot re-enter.
    - Templates and workflows (TeamValidationSpec, WorkflowValidation,
      TeamWorkflow, WorkflowMutationsSpec): validation accepts exactly the
      well-formed inputs, normalisation is idempotent, the topological sort is
      one, the adapter's workflow of a running contract is always accepted, and
      every candidate of a mutation is a valid workflow.
    - Execution kernel (KernelSchedule): the graphs that are
      ordered are the well-formed ones; a running step has its dependencies met
      and the limits hold; every run ends; when each step has one result, the
      outcome is that of a single pass in dependency order, whatever the order
      in which the steps settle.
    - Pipeline executor (PipelineExecutorSpec): a pipeline interrupted and
      resumed any number of times returns the results of its steps run one
      after the other, repeats only the step at which it was interrupted, and
      every call ends.
    - Effects (EffectLedgerSpec): the compensation of a file effect leaves the
      changed path as it was before the tool, or reports the host's refusal, for
      files whose content was captured; until anything expires, the ledger
      keeps one record per idempotency key, with one numbered attempt for each
      begin. The ledger is generic over its storage, a plain map or one whose
      entries expire.
    - Policy (PolicyRulesSpec, PolicyEngineSpec, PolicyBreakerSpec,
      PolicyOverlaySpec, PolicyGlob): when an action is allowed; the three
      rolling budgets hold over every window, along any calls; the breaker
      bounds denials and is obeyed; overlays restrict, with the condition
      under which they do; glob matching is the glob relation.
    - Approvals (ApprovalsSpec, ApprovalsDenials, EffectPolicySpec): a gated
      call proceeds only if somebody entitled approved it or no rule asks for
      that, also with the effect policy plugged in; requests are decided once,
      and settle when the handlers that the code awaits are done (their end is
      an event of its own); a denial blocks until it is cleared; which calls the automatic mode lets
      through.
    - Governance audit (GovernanceAuditSpec): over calls, restarts and failing
      writes the log verifies, where a write may fail at any call at which no
      record is deleted; under legal hold or in archive mode no record is
      lost, and the durable log is the log in memory, for scopes without
      undefined fields and one configuration; on any backend, what
      verifies without new signatures is an unbroken part of what the log wrote,
      or a collision of the hash functions is shown; what the redaction takes
      out of an event has no influence on any part of its record.
    - Worker mailbox (KeyedQueue, MailboxSpec): the queue runs the operations of
      a key one at a time in the order of the calls; overlapping calls, failing
      writes and restarts leave what the saved calls make one by one; every
      message of trimmed texts is kept, claimed once per repair, and not after
      it was handled.
    - Executor (TaskExecutorSpec, TaskExecutorSafety, on the one-step lemma of
      TaskExecutorMoves): the limit of concurrent tasks holds and no slot is
      left idle; each task is, as often as it was reported, open, completed or
      dead-lettered; a new executor on the checkpoint store of a crashed one
      resumes every checkpoint, and those are the tasks that were in progress
      with a claim; pipelines
      take a bounded number of answers; with a polling discovery the assumption
      on arrivals holds by itself (TaskDiscovery).
    - Queues and limits (PriorityQueue, DeadLetterQueue, BudgetState,
      JobGovernorSpec): the heap refines a bounded bag; the bounded queue
      keeps the newest entries; readings of sliding windows are exact; the
      governor keeps its concurrency and rate limits.
    - Connection (ConnectionSpec, ConnectionRuns): a write is sent at most
      twice, reads are bounded, every request settles.
    - Replay (ProjectionSpec, ProjectionOrder, ProjectionJson, ReplaySpec,
      ReplayBackfillSpec): a projection reports each event once, whatever the
      order of its inputs, and a strict projection fails exactly when some event does not fit the
      lifecycle of its task, dispute or speculation;
      the file store refines the in-memory store, restarts included; a backfill
      stores every event, as its key tells events apart, exactly once over
      crashes and failed writes, and completes.
    - The rest (ToolTurnsSpec, ToolTurnsRepair, CronSpec, CronScheduler,
      MemoryBackend, Encoding): the validator decides
      the protocol and the repair restores it; the next run is the first match, as long
      as the clocks of the zone do not change, and runs do not overlap; the key-value store refines a map whose entries
      expire; encodings round-trip.

    ** Bounds, fuel and parameters

    - A [bigint] is a [Z]. A JavaScript number is a [Z] where the code
      computes with integers only, and a [number] ([NInt] or [NOther]) where
      the code itself tests for integers. Sums of numbers are taken to be
      exact, which holds below 2^53.
    - Recursion that is not structural has fuel, and a theorem that it is
      enough: [hasCycle_total] (Graph; one more than the nodes),
      [refresh_terminates_settled] (each pass settles a checkpoint or is the
      last), [block_exact] (each checkpoint enters the queue at most once),
      [topologicalSort_correct], [queue_refines_bag] (the length of the heap),
      [mutation_candidates_valid] (twice the edges for the descendants),
      [requests_settle] (the endpoints left), [backfill_completes] (the pages
      left), [drainLoop_spec] (the length of the queue), [search_spec] (the
      steps and one more, for the search of the kernel).
    - What is not in the repository is a parameter: the host's collation
      (class [Collation], with the laws of a consistent comparator), Node's
      path functions (class [NodePath]), its files (class [FileSystem], with the
      laws [FileSystemLaws]), the regular expressions of users
      ([regex_test]), the URL parser, SHA-256, HMAC, base58 and the quoting of
      JSON strings (injective, and closed by its quote), the clock, identifiers
      and random numbers (arguments), the chain (answers of events, or the
      pages of a fetcher), the hooks and the audit store of the client, and the
      local time zone (its two conversions). Each has a concrete instance in the
      witnesses.
    - Strings are sequences of code units below 256. Opaque values (metadata,
      public keys, byte arrays) are carried as strings. Error values keep
      their class and their kind, and the interpolated text only where the
      program reads it again.

    ** What is not modelled

    Logging, metrics and display; the packages that talk to model providers,
    to the file system and to sockets (most of gateway, llm, tools, channels,
    mcp, ui), the transactions of task/operations.ts, compiled jobs, and the
    on-chain program, whose source is not in the repository. The SQLite and
    Redis stores. [TeamWorkflowAdapter.launch] only hands the built workflow to
    a callback. Next in the plan: workflow/optimizer.ts;
    llm/run-budget.ts; gateway/session.ts; the stores over SQLite; and the tenant,
    project and run scopes of the rolling budgets. *)
From stdpp Require Export base tactics option list strings gmap.
From Stdlib Require Export ZArith Lia Sorted Permutation.

(** ** Results of fallible code

    TypeScript code that may [throw] is modelled by [result E A]; the error
    type of each component lists the error classes the component throws. *)

Inductive result (E A : Type) : Type :=
| Ok (a : A)
| Err (e : E).
Arguments Ok {E A} _.
Arguments Err {E A} _.

#[export] Instance result_ret {E} : MRet (result E) := fun A a => Ok a.
#[export] Instance result_bind {E} : MBind (result E) := fun A B k r =>
  match r with Ok a => k a | Err e => Err e end.

Definition is_Ok {E A} (r : result E A) : bool :=
  match r with Ok _ => true | Err _ => false end.

(** [throw_if c e] is the statement [if (c) throw e]. *)
Definition throw_if {E} (c : bool) (e : E) : result E unit :=
  if c then Err e else Ok tt.

(** [try { ... } catch (e) { throw f(e) }]. *)
Definition map_err {E E' A} (f : E -> E') (r : result E A) : result E' A :=
  match r with Ok a => Ok a | Err e => Err (f e) end.

(** A [for] loop over a list whose body may throw. *)
Fixpoint foldM {E A B} (f : B -> A -> result E B) (b : B) (l : list A) : result E B :=
  match l with
  | [] => Ok b
  | a :: l' => b' ← f b a; foldM f b' l'
  end.

(** [array.map] with a callback that may throw. *)
Fixpoint mapR {E A B} (f : A -> result E B) (l : list A) : result E (list B) :=
  match l with
  | [] => Ok []
  | a :: l' => b ← f a; bs ← mapR f l'; Ok (b :: bs)
  end.

(** ** Effects: state passing with exceptions

    A method that mutates the object it belongs to and may throw. A throw
    keeps the mutations done before it, as in the source. *)

Definition ST (S E A : Type) : Type := S -> S * result E A.

#[export] Instance st_ret {S E} : MRet (ST S E) := fun A a s => (s, Ok a).
#[export] Instance st_bind {S E} : MBind (ST S E) := fun A B k m s =>
  match m s with
  | (s', Ok a) => k a s'
  | (s', Err e) => (s', Err e)
  end.

Definition st_get {S E} : ST S E S := fun s => (s, Ok s).
Definition st_put {S E} (s : S) : ST S E unit := fun _ => (s, Ok tt).
Definition st_modify {S E} (f : S -> S) : ST S E unit := fun s => (f s, Ok tt).
Definition st_throw {S E A} (e : E) : ST S E A := fun s => (s, Err e).
Definition st_lift {S E A} (r : result E A) : ST S E A := fun s => (s, r).
Definition st_throw_if {S E} (c : bool) (e : E) : ST S E unit :=
  if c then st_throw e else mret tt.

(** A [for] loop over a list whose body mutates the state and may throw. *)
Fixpoint st_forM {S E A} (f : A -> ST S E unit) (l : list A) : ST S E unit :=
  match l with
  | [] => mret tt
  | a :: l' => f a ;; st_forM f l'
  end.

(** ** JavaScript numbers

    [NInt z] is a number with [Number.isInteger]; [NOther] stands for every
    other number (a fraction, [NaN], an infinity). The code modelled here
    tests [Number.isInteger] before it computes with a number of a payout or
    team configuration, so nothing finer is observed of [NOther]. *)

Inductive number := NInt (z : Z) | NOther.

Definition isInteger (n : number) : bool :=
  match n with NInt _ => true | NOther => false end.

(** [BigInt(n)] of an integer number. *)
Definition toBigInt (n : number) : Z := match n with NInt z => z | NOther => 0 end.

(** [a + b]; what is added to a number that is not an integer is never
    observed as one. *)
Definition number_add (a b : number) : number :=
  match a, b with NInt x, NInt y => NInt (x + y)%Z | _, _ => NOther end.

#[export] Instance number_eq_dec : EqDecision number.
Proof. solve_decision. Defined.

(** ** Tactics *)

Create HintDb s2core.
Create Rewrite HintDb s2rw.


(** Split every [match]/[if] scrutinee of a hypothesis that is an equation
    between a monadic computation and a known outcome. *)
Ltac simpl_bind H :=
  unfold mbind, mret, result_bind, result_ret, st_bind, st_ret in H; cbn beta iota in H.

Ltac inv_result H :=
  simpl_bind H;
  repeat match type of H with
  | context [match ?x with _ => _ end] =>
      let E := fresh "E" in destruct x eqn:E; try discriminate H; cbn beta iota in H
  end.

(** [f x; rest = Ok r] gives [f x = Ok a] and [rest = Ok r]. *)
Lemma bind_Ok {E A B} (m : result E A) (k : A -> result E B) b :
  (m ≫= k) = Ok b <-> exists a, m = Ok a /\ k a = Ok b.
Proof.
  unfold mbind, result_bind. destruct m; split.
  - eauto.
  - intros (? & [= ->] & ?); done.
  - discriminate.
  - intros (? & ? & ?); discriminate.
Qed.

Lemma bind_Err {E A B} (m : result E A) (k : A -> result E B) e :
  (m ≫= k) = Err e <-> m = Err e \/ exists a, m = Ok a /\ k a = Err e.
Proof.
  unfold mbind, result_bind. destruct m; split.
  - eauto.
  - intros [?|(? & [= ->] & ?)]; done.
  - intros [= ->]; auto.
  - intros [?|(? & ? & ?)]; congruence.
Qed.

Lemma throw_if_Ok {E} c (e : E) u : throw_if c e = Ok u <-> c = false.
Proof. destruct c, u; simpl; split; congruence. Qed.

Lemma throw_if_Err {E} c (e e' : E) : throw_if c e = Err e' <-> c = true /\ e = e'.
Proof. destruct c; simpl; split; intros; naive_solver. Qed.

(** Break a successful monadic computation into the steps it ran. *)
Ltac bind_ok :=
  repeat match goal with
  | H : (let _ := _ in _) = Ok _ |- _ => cbv zeta in H
  | H : (_ ≫= _) = Ok _ |- _ =>
      let a := fresh "r" in let H1 := fresh "H" in
      apply bind_Ok in H; destruct H as (a & H1 & H)
  | H : throw_if _ _ = Ok _ |- _ => apply throw_if_Ok in H
  | H : mret _ = Ok _ |- _ => injection H as H
  | H : Ok _ = Ok _ |- _ => injection H as H
  | H : Err _ = Ok _ |- _ => discriminate H
  end.

(** ** Folds that may throw *)

Lemma foldM_app {E A B} (f : B -> A -> result E B) b l1 l2 :
  foldM f b (l1 ++ l2) = (b' ← foldM f b l1; foldM f b' l2).
Proof.
  revert b; induction l1 as [|a l1 IH]; intros b; [done|]; simpl.
  unfold mbind, result_bind in *. destruct (f b a); [apply IH|done].
Qed.

(** An invariant of the accumulator, with the prefix already consumed. *)
Lemma foldM_inv {E A B} (P : list A -> B -> Prop) (f : B -> A -> result E B) b l r :
  P [] b ->
  (forall pre x suf acc acc', l = pre ++ x :: suf -> P pre acc -> f acc x = Ok acc' ->
     P (pre ++ [x]) acc') ->
  foldM f b l = Ok r -> P l r.
Proof.
  intros H0 Hstep.
  cut (forall l2 l1 b, l = l1 ++ l2 -> P l1 b -> foldM f b l2 = Ok r -> P (l1 ++ l2) r).
  { intros H; exact (H l [] b eq_refl H0). }
  clear H0 b. induction l2 as [|x l2 IH]; intros l1 b Hl Hb HF; simpl in HF.
  - injection HF as <-. by rewrite app_nil_r.
  - apply bind_Ok in HF as (b' & Hf & HF).
    rewrite cons_middle, app_assoc in Hl |- *. eapply IH; [done| |done].
    eapply Hstep; [|done..]. by rewrite <-app_assoc in Hl.
Qed.

(** A loop succeeds iff each step's condition, which may depend on the prefix
    already consumed, holds. *)
Lemma foldM_iff {E A B} (I : list A -> B -> Prop) (p : list A -> A -> Prop)
    (f : B -> A -> result E B) b l :
  I [] b ->
  (forall pre x acc, I pre acc -> p pre x -> exists acc', f acc x = Ok acc' /\ I (pre ++ [x]) acc') ->
  (forall pre x acc acc', I pre acc -> f acc x = Ok acc' -> p pre x) ->
  (forall pre x suf, l = pre ++ x :: suf -> p pre x) <-> exists r, foldM f b l = Ok r /\ I l r.
Proof.
  intros H0 Hok Hp.
  cut (forall l2 l1 b, I l1 b ->
    (forall pre x suf, l2 = pre ++ x :: suf -> p (l1 ++ pre) x) <->
    exists r, foldM f b l2 = Ok r /\ I (l1 ++ l2) r).
  { intros Hc. by apply (Hc l []). }
  clear H0 b l. induction l2 as [|a l2 IH]; intros l1 b Hb; simpl.
  { rewrite app_nil_r. split; [by eexists|]. by intros _ [|] ? ?. }
  split.
  - intros Hall. destruct (Hok l1 a b Hb) as (b' & Hf & Hb').
    { specialize (Hall [] a l2 eq_refl). by rewrite app_nil_r in Hall. }
    rewrite Hf. simpl. rewrite cons_middle, app_assoc. apply IH; [done|].
    intros pre x suf ->. rewrite <-app_assoc. by apply (Hall (a :: pre) x suf).
  - intros (r & HF & Hr). apply bind_Ok in HF as (b' & Hf & HF).
    assert (p l1 a) as Ha by (by eapply Hp).
    destruct (Hok l1 a b Hb Ha) as (b'' & Hf' & Hb''). rewrite Hf in Hf'. injection Hf' as <-.
    rewrite cons_middle, app_assoc in Hr.
    assert (exists r, foldM f b' l2 = Ok r /\ I ((l1 ++ [a]) ++ l2) r) as Hex by eauto.
    pose proof (proj2 (IH (l1 ++ [a]) b' Hb'') Hex) as Hpre.
    intros [|c pre] x suf [= -> ->]; [by rewrite app_nil_r|].
    specialize (Hpre pre x suf eq_refl). by rewrite <-app_assoc in Hpre.
Qed.

(** A loop that can throw one error only: it throws iff some element is bad for
    the prefix before it. *)
Lemma foldM_cases {E A B} (I : list A -> B -> Prop) (bad : list A -> A -> Prop) (e : E)
    (f : B -> A -> result E B) b l :
  I [] b ->
  (forall pre x acc, I pre acc ->
    (exists acc', f acc x = Ok acc' /\ I (pre ++ [x]) acc') /\ ~ bad pre x \/ f acc x = Err e /\ bad pre x) ->
  (exists r, foldM f b l = Ok r /\ I l r) /\ (forall pre x suf, l = pre ++ x :: suf -> ~ bad pre x) \/
  foldM f b l = Err e /\ exists pre x suf, l = pre ++ x :: suf /\ bad pre x.
Proof.
  intros H0 Hs. induction l as [|x l IH] using rev_ind.
  { left. split; [by exists b|]. by intros [|] ? ?. }
  rewrite foldM_app. destruct IH as [[(r & -> & Hr) Hn]|[-> (pre & y & suf & -> & Hy)]].
  - destruct (Hs l x r Hr) as [[(r' & Hf & Hr') Hb]|[Hf Hb]]; cbn; rewrite Hf; cbn.
    + left. split; [by exists r'|]. intros pre y suf Heq. destruct suf as [|z suf _] using rev_ind.
      * by apply app_inj_tail in Heq as [-> ->].
      * rewrite app_comm_cons, app_assoc in Heq. apply app_inj_tail in Heq as [-> _]. by eapply Hn.
    + right. split; [done|]. by exists l, x, [].
  - right. split; [done|]. exists pre, y, (suf ++ [x]). split; [by rewrite <- app_assoc|done].
Qed.

(** A loop succeeds iff each of its steps does, when the outcome of a step is
    decided by the element under an invariant of the accumulator. *)
Lemma foldM_is_Ok {E A B} (I : B -> Prop) (p : A -> bool) (f : B -> A -> result E B) b l :
  I b ->
  (forall acc x, x ∈ l -> I acc -> is_Ok (f acc x) = p x) ->
  (forall acc x acc', x ∈ l -> I acc -> f acc x = Ok acc' -> I acc') ->
  is_Ok (foldM f b l) = forallb p l.
Proof.
  revert b; induction l as [|a l IH]; intros b Hb Hp Hi; simpl; [done|].
  specialize (Hp b a ltac:(constructor) Hb) as Ha. unfold mbind, result_bind.
  destruct (f b a) as [b'|] eqn:E1; simpl in Ha; rewrite <-Ha; [|done].
  apply IH.
  - eapply Hi; [constructor|done..].
  - intros; apply Hp; [by constructor|done].
  - intros; eapply Hi; [by constructor|done..].
Qed.

Lemma is_Ok_bind {E A B} (m : result E A) (k : A -> result E B) :
  is_Ok (m ≫= k) = match m with Ok a => is_Ok (k a) | Err _ => false end.
Proof. by destruct m. Qed.

Lemma is_Ok_true {E A} (m : result E A) : is_Ok m = true <-> exists a, m = Ok a.
Proof. destruct m; split; naive_solver. Qed.

Lemma mapR_Forall2 {E A B} (f : A -> result E B) l r :
  mapR f l = Ok r <-> Forall2 (fun a b => f a = Ok b) l r.
Proof.
  revert r; induction l as [|a l IH]; intros r; simpl.
  - split; [intros [= <-]; constructor | inversion 1; done].
  - split.
    + intros H. bind_ok. subst. constructor; [done|]. by apply IH.
    + inversion 1 as [|? b ? bs Hf Hr]; subst. apply IH in Hr.
      by rewrite Hf; cbn; rewrite Hr.
Qed.

Lemma existsb_false {A} (p : A -> bool) l :
  existsb p l = false <-> Forall (fun x => p x = false) l.
Proof.
  induction l as [|a l IH]; simpl; [split; [constructor|done]|].
  rewrite orb_false_iff, IH. split; [intros []; by constructor|by inversion 1].
Qed.

(** [list.includes(s)], and [set.has(s)] of a set kept as a list. *)
Definition has (l : list string) (s : string) : bool := existsb (String.eqb s) l.

Lemma has_true l k : has l k = true <-> k ∈ l.
Proof.
  unfold has. rewrite existsb_exists, list_elem_of_In. split.
  - intros (x & Hx & ->%String.eqb_eq). done.
  - intros Hk. exists k. split; [done|apply String.eqb_refl].
Qed.

Lemma has_false l k : has l k = false <-> k ∉ l.
Proof. by rewrite <-has_true, not_true_iff_false. Qed.

Lemma foldl_ext {A B} (f g : B -> A -> B) b l :
  (forall b a, f b a = g b a) -> foldl f b l = foldl g b l.
Proof. intros Hfg. revert b; induction l; intros b; simpl; [done|]. by rewrite Hfg. Qed.

Lemma elem_filter_bool {A} (p : A -> bool) (l : list A) x : x ∈ List.filter p l <-> x ∈ l /\ p x = true.
Proof. by rewrite !list_elem_of_In, filter_In. Qed.

(** Distinctness read from the prefixes of a list. *)
Lemma NoDup_prefixes {A} (l : list A) :
  NoDup l <-> forall pre x suf, l = pre ++ x :: suf -> x ∉ pre.
Proof.
  split.
  - intros HND pre x suf ->. apply NoDup_app in HND as (_ & Hd & _). intros Hx.
    eapply Hd; [done|constructor].
  - induction l as [|a l IH] using rev_ind; intros Hp; [constructor|].
    apply NoDup_app. split_and!.
    + apply IH. intros pre x suf ->. apply (Hp pre x (suf ++ [a])). by rewrite <-app_assoc.
    + intros x Hx ->%list_elem_of_singleton. by eapply (Hp l a []).
    + apply NoDup_singleton.
Qed.

Lemma NoDup_map_prefixes {A B} (g : A -> B) (l : list A) :
  NoDup (map g l) <-> forall pre x suf, l = pre ++ x :: suf -> g x ∉ map g pre.
Proof.
  rewrite NoDup_prefixes. split.
  - intros H pre x suf ->. apply (H _ _ (map g suf)). by rewrite map_app.
  - intros H pre x suf Heq. apply map_eq_app in Heq as (l1 & l2 & -> & <- & H2).
    apply map_eq_cons in H2 as (y & l3 & -> & <- & _). by eapply H.
Qed.

Lemma Forall_prefixes {A} (P : A -> Prop) (l : list A) :
  Forall P l <-> forall pre x suf, l = pre ++ x :: suf -> P x.
Proof.
  rewrite Forall_forall. split.
  - intros H pre x suf ->. apply H, elem_of_app. right. constructor.
  - intros H x (pre & suf & ->)%list_elem_of_split. by eapply H.
Qed.

(** ** Sums *)

(** [values.reduce((sum, v) => sum + v, 0n)]. *)
Definition sumZ (l : list Z) : Z := foldr Z.add 0%Z l.

Lemma sumZ_app l1 l2 : sumZ (l1 ++ l2) = (sumZ l1 + sumZ l2)%Z.
Proof. induction l1; simpl; lia. Qed.

Lemma sumZ_perm l1 l2 : l1 ≡ₚ l2 -> sumZ l1 = sumZ l2.
Proof. induction 1; simpl; lia. Qed.

#[export] Instance sumZ_proper : Proper ((≡ₚ) ==> (=)) sumZ.
Proof. intros l1 l2; apply sumZ_perm. Qed.

Lemma sumZ_nonneg l : Forall (fun z => 0 <= z)%Z l -> (0 <= sumZ l)%Z.
Proof. induction 1; simpl; lia. Qed.

Lemma sumZ_elem_le l x : Forall (fun z => 0 <= z)%Z l -> x ∈ l -> (x <= sumZ l)%Z.
Proof.
  intros HF; induction HF as [|y l Hy HF IH]; [by intros ?%not_elem_of_nil|].
  intros [->|Hx]%elem_of_cons; simpl; pose proof (sumZ_nonneg _ HF); [lia|].
  specialize (IH Hx); lia.
Qed.

Lemma sumZ_map_ext {A} (f g : A -> Z) l :
  (forall x, x ∈ l -> f x = g x) -> sumZ (map f l) = sumZ (map g l).
Proof.
  induction l as [|a l IH]; intros H; [done|]; simpl.
  rewrite H by constructor. rewrite IH; [done|]. intros; apply H; by constructor.
Qed.

Lemma sumZ_map_add {A} (f g : A -> Z) l :
  sumZ (map (fun x => f x + g x)%Z l) = (sumZ (map f l) + sumZ (map g l))%Z.
Proof. induction l; simpl; lia. Qed.

Lemma sumZ_map_mul {A} (c : Z) (f : A -> Z) l :
  sumZ (map (fun x => c * f x)%Z l) = (c * sumZ (map f l))%Z.
Proof. induction l; simpl; lia. Qed.

Lemma sumZ_const {A} c (l : list A) :
  sumZ (map (fun _ => c) l) = (c * Z.of_nat (length l))%Z.
Proof. induction l; simpl; lia. Qed.

(** ** Array.prototype.sort

    The specification asks for a stable sort by the comparator; a stable sort
    by a consistent comparator is unique, so insertion sort models it. *)

Section Sort.
Context {A : Type} (cmp : A -> A -> comparison).

Fixpoint insert_by (x : A) (l : list A) : list A :=
  match l with
  | [] => [x]
  | y :: ys => match cmp x y with Gt => y :: insert_by x ys | _ => x :: l end
  end.

Definition sort_by (l : list A) : list A := foldr insert_by [] l.

Lemma insert_by_perm x l : insert_by x l ≡ₚ x :: l.
Proof.
  induction l as [|y l IH]; simpl; [done|].
  destruct (cmp x y); [done..|]. rewrite IH. apply Permutation_swap.
Qed.

Lemma sort_by_perm l : sort_by l ≡ₚ l.
Proof. induction l; simpl; [done|]. by rewrite insert_by_perm, IHl. Qed.

Lemma sort_by_elem_of x l : x ∈ sort_by l <-> x ∈ l.
Proof. by rewrite sort_by_perm. Qed.

Lemma sort_by_length l : length (sort_by l) = length l.
Proof. by rewrite sort_by_perm. Qed.

Lemma sort_by_NoDup l : NoDup (sort_by l) <-> NoDup l.
Proof. by rewrite sort_by_perm. Qed.

(** The output is ordered by any transitive relation the comparator decides. *)
Lemma sort_by_sorted (R : A -> A -> Prop) `{!Transitive R} l :
  (forall x y, cmp x y <> Gt -> R x y) ->
  (forall x y, cmp x y = Gt -> R y x) ->
  StronglySorted R (sort_by l).
Proof.
  intros Hle Hgt. induction l as [|x l IH]; [constructor|]. simpl.
  induction IH as [|y l' Hl' IHl' HF]; simpl; [repeat constructor|].
  destruct (cmp x y) eqn:E.
  3: { constructor; [done|].
       rewrite insert_by_perm. constructor; [by apply Hgt|done]. }
  all: assert (R x y) by (apply Hle; congruence); constructor;
    [by constructor|]; constructor; [done|];
    eapply Forall_impl; [exact HF|]; intros z Hz; simpl in *; by transitivity y.
Qed.

(** A list already in order is left as it is. *)
Lemma sort_by_id l : StronglySorted (fun x y => cmp x y <> Gt) l -> sort_by l = l.
Proof.
  induction 1 as [|x l Hl IH HF]; simpl; [done|]. rewrite IH.
  destruct HF as [|y l Hxy HF]; simpl; [done|]. by destruct (cmp x y).
Qed.
End Sort.

#[export] Hint Rewrite @sort_by_length @sort_by_elem_of : s2rw.
#[export] Hint Resolve sumZ_nonneg : s2core.
