(* ===== verification/JsMap.v ===== *)
(** * Insertion-ordered maps

    A JavaScript [Map] and an object used as a [Record<string, V>] are kept as
    the list of their entries in insertion order: the code iterates over them,
    and writing an existing key keeps its position. Reading a key of an object
    is reading an own property: keys that name a property inherited from
    [Object.prototype] are outside the model. *)
From S2P Require Import Prelude.

Abbreviation jsmap V := (list (string * V)).

Section JsMap.
Context {V : Type}.
Implicit Types (m : jsmap V) (k : string) (v : V).

(** [m.get(k)] / [m[k]]. *)
Fixpoint mget m k : option V :=
  match m with
  | [] => None
  | (k', v) :: m' => if String.eqb k k' then Some v else mget m' k
  end.

(** [m.has(k)]. *)
Definition mhas m k : bool := match mget m k with Some _ => true | None => false end.

(** [m.set(k, v)] / [m[k] = v]. *)
Fixpoint mset k v m : jsmap V :=
  match m with
  | [] => [(k, v)]
  | (k', v') :: m' => if String.eqb k k' then (k', v) :: m' else (k', v') :: mset k v m'
  end.

(** [m.delete(k)]. *)
Definition mdel k m : jsmap V := List.filter (fun kv => negb (String.eqb kv.1 k)) m.

Definition mkeys m : list string := map fst m.
Definition mvals m : list V := map snd m.

(** [Object.fromEntries(l)] / [new Map(l)]. *)
Definition mof (l : list (string * V)) : jsmap V :=
  foldl (fun m kv => mset kv.1 kv.2 m) [] l.

Lemma mget_mset m k k' v :
  mget (mset k v m) k' = if String.eqb k' k then Some v else mget m k'.
Proof.
  induction m as [|[k1 v1] m IH]; simpl; [done|].
  destruct (String.eqb_spec k k1) as [->|Hne]; simpl.
  - by destruct (String.eqb_spec k' k1).
  - destruct (String.eqb_spec k' k1) as [->|]; [|done].
    by destruct (String.eqb_spec k1 k) as [->|].
Qed.

Lemma mget_mset_eq m k v : mget (mset k v m) k = Some v.
Proof. by rewrite mget_mset, String.eqb_refl. Qed.

Lemma mget_mset_ne m k k' v : k <> k' -> mget (mset k v m) k' = mget m k'.
Proof. intros; rewrite mget_mset. by destruct (String.eqb_spec k' k). Qed.

Lemma mget_Some_elem m k v : mget m k = Some v -> (k, v) ∈ m.
Proof.
  induction m as [|[k1 v1] m IH]; simpl; [done|].
  destruct (String.eqb_spec k k1) as [->|]; [intros [= ->]; constructor|].
  constructor; auto.
Qed.

Lemma mget_None_keys m k : mget m k = None <-> k ∉ mkeys m.
Proof.
  unfold mkeys. induction m as [|[k1 v1] m IH]; simpl.
  - split; [intros _ []%not_elem_of_nil | done].
  - rewrite not_elem_of_cons. destruct (String.eqb_spec k k1); naive_solver.
Qed.

Lemma mget_is_Some_keys m k : is_Some (mget m k) <-> k ∈ mkeys m.
Proof.
  rewrite <-not_eq_None_Some, mget_None_keys. split.
  - intros H. by destruct (decide (k ∈ mkeys m)).
  - tauto.
Qed.

Lemma mhas_true m k : mhas m k = true <-> k ∈ mkeys m.
Proof.
  unfold mhas. rewrite <-mget_is_Some_keys.
  destruct (mget m k); split; [eauto|done|done|]. by intros [? ?].
Qed.

Lemma mhas_false m k : mhas m k = false <-> mget m k = None.
Proof. unfold mhas. by destruct (mget m k). Qed.

Lemma elem_mget m k v : NoDup (mkeys m) -> (k, v) ∈ m -> mget m k = Some v.
Proof.
  unfold mkeys. induction m as [|[k1 v1] m IH]; simpl; intros HND.
  - by intros ?%not_elem_of_nil.
  - apply NoDup_cons in HND as [Hk HND]. intros [[= -> ->]|Hin]%elem_of_cons.
    + by rewrite String.eqb_refl.
    + destruct (String.eqb_spec k k1) as [->|]; [|auto].
      destruct Hk. by apply (list_elem_of_fmap_2 fst) in Hin.
Qed.

Lemma mkeys_mset m k v :
  mkeys (mset k v m) = if mhas m k then mkeys m else mkeys m ++ [k].
Proof.
  unfold mhas, mkeys. induction m as [|[k1 v1] m IH]; simpl; [done|].
  destruct (String.eqb_spec k k1) as [->|]; simpl; [done|].
  rewrite IH. by destruct (mget m k).
Qed.

Lemma mkeys_mset_in m k v : k ∈ mkeys m -> mkeys (mset k v m) = mkeys m.
Proof. intros H%mhas_true. by rewrite mkeys_mset, H. Qed.

Lemma elem_mkeys_mset m k k' v : k' ∈ mkeys (mset k v m) <-> k' = k \/ k' ∈ mkeys m.
Proof.
  rewrite <-!mget_is_Some_keys, mget_mset.
  destruct (String.eqb_spec k' k); naive_solver.
Qed.

Lemma mset_NoDup m k v : NoDup (mkeys m) -> NoDup (mkeys (mset k v m)).
Proof.
  intros H. rewrite mkeys_mset. destruct (mhas m k) eqn:E; [done|].
  apply NoDup_app; repeat split; [done| |by apply NoDup_singleton].
  intros x Hx ->%list_elem_of_singleton. apply mhas_true in Hx. congruence.
Qed.

Lemma mof_NoDup l : NoDup (mkeys (mof l)).
Proof.
  unfold mof. cut (forall m, NoDup (mkeys m) ->
    NoDup (mkeys (foldl (fun m kv => mset kv.1 kv.2 m) m l))).
  { intros H; apply H. constructor. }
  induction l; simpl; eauto using mset_NoDup.
Qed.

Lemma mget_mdel m k k' : mget (mdel k m) k' = if String.eqb k' k then None else mget m k'.
Proof.
  unfold mdel. induction m as [|[k1 v1] m IH]; simpl; [by destruct (String.eqb _ _)|].
  destruct (String.eqb_spec k1 k); simpl; rewrite IH; clear IH;
    destruct (String.eqb_spec k' k), (String.eqb_spec k' k1); congruence.
Qed.

Lemma mget_mvals m k v : mget m k = Some v -> v ∈ mvals m.
Proof. intros ?%mget_Some_elem. by apply (list_elem_of_fmap_2 snd) in H. Qed.

Lemma elem_mvals m v : NoDup (mkeys m) -> v ∈ mvals m -> exists k, mget m k = Some v.
Proof.
  intros HND ([k v'] & -> & Hin)%list_elem_of_fmap. exists k. by apply elem_mget.
Qed.

(** Writing a key in place changes at most that key's value. *)
Lemma Forall_mset (P : string * V -> Prop) m k v :
  Forall P m -> P (k, v) -> Forall P (mset k v m).
Proof.
  induction m as [|[k1 v1] m IH]; simpl; intros HF HP; [by repeat constructor|].
  inversion HF; subst.
  destruct (String.eqb_spec k k1) as [->|]; constructor; auto.
Qed.
End JsMap.

(** ** Mapping over the values *)

Definition mmap {V W} (f : V -> W) (m : jsmap V) : jsmap W := map (fun kv => (kv.1, f kv.2)) m.

Lemma mkeys_mmap {V W} (f : V -> W) m : mkeys (mmap f m) = mkeys m.
Proof. unfold mkeys, mmap. by rewrite map_map. Qed.

Lemma mget_mmap {V W} (f : V -> W) m k : mget (mmap f m) k = f <$> mget m k.
Proof. induction m as [|[k1 v1] m IH]; simpl; [done|]. by destruct (String.eqb k k1). Qed.

Lemma mmap_mset {V W} (f : V -> W) m k v : mmap f (mset k v m) = mset k (f v) (mmap f m).
Proof.
  induction m as [|[k1 v1] m IH]; simpl; [done|].
  destruct (String.eqb k k1); simpl; by rewrite ?IH.
Qed.

Lemma mset_id {V} (m : jsmap V) k v : mget m k = Some v -> mset k v m = m.
Proof.
  induction m as [|[k1 v1] m IH]; simpl; [done|].
  destruct (String.eqb_spec k k1); [by intros [= ->]|]. intros. by rewrite IH.
Qed.

Lemma mset_mset {V} (m : jsmap V) k v v' : mset k v (mset k v' m) = mset k v m.
Proof.
  induction m as [|[k1 v1] m IH]; simpl; [by rewrite String.eqb_refl|].
  destruct (String.eqb k k1) eqn:E; simpl; rewrite E; by rewrite ?IH.
Qed.

(** Two maps with the same keys in the same order and the same values. *)
Lemma mget_ext {V} (m m' : jsmap V) :
  NoDup (mkeys m) -> mkeys m = mkeys m' -> (forall k, mget m k = mget m' k) -> m = m'.
Proof.
  revert m'. induction m as [|[k v] m IH]; intros [|[k' v'] m'] HND Hk Hg; try done.
  injection Hk as <- Hk. apply NoDup_cons in HND as [Hnk HND].
  specialize (Hg k) as Hgk. simpl in Hgk. rewrite String.eqb_refl in Hgk. injection Hgk as ->.
  f_equal. apply IH; [done|done|]. intros x. destruct (decide (x = k)) as [Heq|Hne].
  - subst x. rewrite !(proj2 (mget_None_keys _ _)); [done| |done].
    change (map fst m) with (mkeys m) in Hk. change (map fst m') with (mkeys m') in Hk. by rewrite <-Hk.
  - specialize (Hg x). simpl in Hg. by destruct (String.eqb_spec x k).
Qed.

(** ** Rebuilding a map in another key order *)

Lemma mget_perm {V} (m m' : jsmap V) :
  NoDup (mkeys m) -> NoDup (mkeys m') -> (forall k, mget m k = mget m' k) -> m ≡ₚ m'.
Proof.
  intros Hm Hm' Hg. apply NoDup_Permutation.
  1,2: apply NoDup_ListNoDup; by eapply NoDup_fmap_1.
  intros [k v]. rewrite <-!list_elem_of_In. split; intros Hin%elem_mget; try done;
    apply mget_Some_elem; congruence.
Qed.

(** [for (const k of keys) out[k] = m.get(k)!]. *)
Definition mcopy {V} (m : jsmap V) (keys : list string) : jsmap V :=
  foldl (fun out k => match mget m k with Some c => mset k c out | None => out end) [] keys.

Lemma mget_mcopy {V} (m : jsmap V) keys k :
  mget (mcopy m keys) k = if decide (k ∈ keys) then mget m k else None.
Proof.
  unfold mcopy. induction keys as [|x keys IH] using rev_ind.
  { by destruct (decide (k ∈ [])) as [?%not_elem_of_nil|]. }
  rewrite foldl_snoc. destruct (decide (k = x)) as [->|Hne].
  - rewrite decide_True by set_solver. destruct (mget m x) eqn:Hx; [by rewrite mget_mset_eq|].
    rewrite IH. by case_decide.
  - replace (mget (match mget m x with Some c => mset x c _ | None => _ end) k)
      with (mget (foldl (fun out k => match mget m k with Some c => mset k c out | None => out end) [] keys) k).
    + rewrite IH. do 2 case_decide; set_solver.
    + destruct (mget m x); [|done]. by rewrite mget_mset_ne.
Qed.

Lemma mcopy_NoDup {V} (m : jsmap V) keys : NoDup (mkeys (mcopy m keys)).
Proof.
  unfold mcopy. induction keys as [|x keys IH] using rev_ind; [constructor|].
  rewrite foldl_snoc. destruct (mget m x); [by apply mset_NoDup|done].
Qed.

Lemma mcopy_perm {V} (m : jsmap V) keys :
  NoDup (mkeys m) -> keys ≡ₚ mkeys m -> mcopy m keys ≡ₚ m.
Proof.
  intros Hm Hk. apply mget_perm; [apply mcopy_NoDup|done|]. intros k. rewrite mget_mcopy.
  case_decide as Hd; [done|]. symmetry. apply mget_None_keys. by rewrite <-Hk.
Qed.

(** ** Amounts *)

(** [m[k] ?? 0n]. *)
Definition mget0 (m : jsmap Z) k : Z := default 0%Z (mget m k).

(** The total of a map of amounts. *)
Definition msum (m : jsmap Z) : Z := sumZ (mvals m).

Lemma msum_mset m k v : msum (mset k v m) = (msum m - mget0 m k + v)%Z.
Proof.
  unfold msum, mget0, mvals. induction m as [|[k1 v1] m IH]; simpl; [lia|].
  destruct (String.eqb_spec k k1); simpl; lia.
Qed.

Lemma msum_madd m k v : msum (mset k (mget0 m k + v)%Z m) = (msum m + v)%Z.
Proof. rewrite msum_mset. lia. Qed.

Lemma msum_keys m : NoDup (mkeys m) -> msum m = sumZ (map (mget0 m) (mkeys m)).
Proof.
  intros HND. unfold msum, mvals, mkeys. rewrite map_map.
  apply sumZ_map_ext. intros [k v] Hin. unfold mget0. simpl.
  by rewrite (elem_mget m k v).
Qed.

#[export] Hint Resolve mset_NoDup mof_NoDup : s2core.
#[export] Hint Rewrite @mget_mset_eq : s2rw.

(** ** Maps built key by key *)

Lemma mset_fresh {V} (m : jsmap V) k v : k ∉ mkeys m -> mset k v m = m ++ [(k, v)].
Proof.
  unfold mkeys. induction m as [|[k1 v1] m IH]; simpl; [done|].
  intros [Hne Hk]%not_elem_of_cons. destruct (String.eqb_spec k k1); [done|]. by rewrite IH.
Qed.

(** Writing distinct fresh keys appends their entries in order. *)
Lemma mset_fold_fresh {V A} (key : A -> string) (f : A -> V) (m : jsmap V) l :
  NoDup (map key l) -> (forall x, x ∈ l -> key x ∉ mkeys m) ->
  foldl (fun m x => mset (key x) (f x) m) m l = m ++ map (fun x => (key x, f x)) l.
Proof.
  revert m; induction l as [|a l IH]; intros m HND Hk; simpl; [by rewrite app_nil_r|].
  apply NoDup_cons in HND as [Ha HND].
  rewrite mset_fresh by (apply Hk; constructor). rewrite IH, <-app_assoc; [done|done|].
  intros x Hx. unfold mkeys. rewrite map_app. simpl.
  rewrite not_elem_of_app, list_elem_of_singleton. split; [by apply Hk; constructor|].
  intros Heq. apply Ha. rewrite <-Heq. by apply (list_elem_of_fmap_2 key).
Qed.

Lemma mof_id {V} (l : jsmap V) : NoDup (mkeys l) -> mof l = l.
Proof.
  intros HND. unfold mof.
  rewrite (mset_fold_fresh fst snd []); [|done|intros x _ []%not_elem_of_nil].
  rewrite app_nil_l. transitivity (map id l); [|apply map_id]. apply map_ext. by intros [].
Qed.

(** ** Non-negative amounts *)

Definition mnonneg (m : jsmap Z) : Prop := Forall (fun kv => 0 <= kv.2)%Z m.

Lemma mnonneg_mset m k v : mnonneg m -> (0 <= v)%Z -> mnonneg (mset k v m).
Proof. intros; by apply Forall_mset. Qed.

Lemma mnonneg_get m k : mnonneg m -> (0 <= mget0 m k)%Z.
Proof.
  intros H. unfold mget0. destruct (mget m k) as [v|] eqn:E; simpl; [|lia].
  apply mget_Some_elem in E. unfold mnonneg in H. rewrite Forall_forall in H. by apply H in E.
Qed.

Lemma mnonneg_sum m : mnonneg m -> (0 <= msum m)%Z.
Proof. intros H. apply sumZ_nonneg. unfold mvals. by apply Forall_map. Qed.

Lemma mget0_mset m k k' v :
  mget0 (mset k v m) k' = if String.eqb k' k then v else mget0 m k'.
Proof. unfold mget0. rewrite mget_mset. by destruct (String.eqb k' k). Qed.

Lemma mget0_notin m k : k ∉ mkeys m -> mget0 m k = 0%Z.
Proof. intros H%mget_None_keys. unfold mget0. by rewrite H. Qed.

#[export] Hint Resolve mnonneg_mset mnonneg_get mnonneg_sum : s2core.

(** ** Deletion *)

Lemma mdel_notin {V} (m : jsmap V) k : k ∉ mkeys m -> mdel k m = m.
Proof.
  intros Hk. apply List.forallb_filter_id, forallb_forall. intros [k' v] Hin%list_elem_of_In. cbn [fst].
  apply negb_true_iff, String.eqb_neq. intros ->. apply Hk. apply list_elem_of_fmap. by exists (k, v).
Qed.

Lemma mmap_mdel {V W} (f : V -> W) m k : mmap f (mdel k m) = mdel k (mmap f m).
Proof.
  unfold mmap, mdel. induction m as [|[k' v] m IH]; [done|]. cbn [List.filter map fst].
  destruct (negb _); cbn [map]; by rewrite IH.
Qed.

Lemma msum_mdel m k : NoDup (mkeys m) -> msum (mdel k m) = (msum m - mget0 m k)%Z.
Proof.
  induction m as [|[k' v] m IH]; [done|]. intros [Hk Hnd]%NoDup_cons. cbn [fst] in Hk.
  unfold mdel in *. cbn [List.filter fst]. unfold mget0 in *. cbn [mget]. rewrite (String.eqb_sym k' k).
  destruct (String.eqb_spec k k') as [->|Hne]; cbn [negb].
  - rewrite (mdel_notin m k' Hk : List.filter _ m = m). unfold msum, mvals, sumZ. cbn [map foldr snd]. simpl. ring.
  - specialize (IH Hnd). unfold msum, mvals, sumZ in *. cbn [map foldr snd]. rewrite IH. lia.
Qed.

Lemma mdel_NoDup {V} (m : jsmap V) k : NoDup (mkeys m) -> NoDup (mkeys (mdel k m)).
Proof.
  unfold mkeys, mdel. induction m as [|[k' v] m IH]; [done|]. intros [Hk Hnd]%NoDup_cons. cbn [List.filter fst].
  destruct (negb _); [|auto]. cbn [map]. constructor; [|auto].
  intros Hin. apply Hk. apply list_elem_of_fmap in Hin as (kv & Heq & [Hin _]%elem_filter_bool).
  apply list_elem_of_fmap. by exists kv.
Qed.
#[export] Hint Resolve mdel_NoDup : s2core.

Lemma elem_mkeys_mdel {V} (m : jsmap V) k k' : k' ∈ mkeys (mdel k m) <-> k' ∈ mkeys m /\ k' <> k.
Proof.
  rewrite <- !mget_is_Some_keys, mget_mdel. destruct (String.eqb_spec k' k); split; [by intros []|by intros [_ ?]|done|by intros [? _]].
Qed.

(** A [Set] of strings in insertion order, and [s.add(x)]. *)
Definition set_add (l : list string) (x : string) : list string := if has l x then l else (l ++ [x])%list.

Lemma elem_set_add l x y : y ∈ set_add l x <-> y ∈ l \/ y = x.
Proof.
  unfold set_add. destruct (has l x) eqn:Hx; [|by rewrite elem_of_app, list_elem_of_singleton].
  apply has_true in Hx. split; [by left|intros [?| ->]; done].
Qed.

Lemma elem_foldl_set_add l xs y : y ∈ foldl set_add l xs <-> y ∈ l \/ y ∈ xs.
Proof.
  revert l. induction xs as [|x xs IH]; intros l; cbn; [by rewrite elem_of_nil; tauto|].
  rewrite IH, elem_set_add, elem_of_cons. tauto.
Qed.
