(* ===== verification/JsString.v ===== *)
(** * JavaScript strings

    Strings are sequences of code units. The model covers the strings whose
    code units are below 256 (Latin-1): one [ascii] per code unit. The methods
    below are those the modelled code calls. [localeCompare] depends on the
    host's collation: it is the operation of the class [Collation], whose laws
    are those of a consistent comparator; [rootCollation] instantiates it. *)
From Stdlib Require Import Ascii.
From stdpp Require Import pretty.
From S2P Require Import Prelude JsMap.

(** ** Characters *)

Definition code (c : ascii) : Z := Z.of_N (N_of_ascii c).
Definition chr (z : Z) : ascii := ascii_of_N (Z.to_N z).

(** The white space and line terminators of ECMAScript below 256. *)
Definition is_space (c : ascii) : bool :=
  let n := code c in
  ((9 <=? n) && (n <=? 13) || (n =? 32) || (n =? 160))%Z.

Definition lower_char (c : ascii) : ascii :=
  let n := code c in
  if (((65 <=? n) && (n <=? 90)) || ((192 <=? n) && (n <=? 214))
      || ((216 <=? n) && (n <=? 222)))%Z
  then chr (n + 32) else c.

(** A property of all characters, by evaluation. *)
Lemma forall_ascii (p : ascii -> bool) : forallb p (map ascii_of_nat (seq 0 256)) = true -> forall c, p c = true.
Proof.
  rewrite forallb_forall. intros H c. apply H. rewrite <-(ascii_nat_embedding c). apply in_map, in_seq.
  pose proof (nat_ascii_bounded c). lia.
Qed.

(** ** String methods *)

Fixpoint smap (f : ascii -> ascii) (s : string) : string :=
  match s with EmptyString => EmptyString | String c s' => String (f c) (smap f s') end.

Fixpoint sall (p : ascii -> bool) (s : string) : bool :=
  match s with EmptyString => true | String c s' => p c && sall p s' end.

Definition toLowerCase (s : string) : string := smap lower_char s.

Fixpoint trimStart (s : string) : string :=
  match s with
  | String c s' => if is_space c then trimStart s' else s
  | EmptyString => EmptyString
  end.

Fixpoint trimEnd (s : string) : string :=
  match s with
  | EmptyString => EmptyString
  | String c s' =>
      match trimEnd s' with
      | EmptyString => if is_space c then EmptyString else String c EmptyString
      | t => String c t
      end
  end.

Definition trim (s : string) : string := trimEnd (trimStart s).

Definition isEmpty (s : string) : bool := match s with EmptyString => true | _ => false end.

(** [s.startsWith(p)]. *)
Fixpoint startsWith (s p : string) {struct p} : bool :=
  match p, s with
  | EmptyString, _ => true
  | String a p', String b s' => Ascii.eqb a b && startsWith s' p'
  | String _ _, EmptyString => false
  end.

(** [s.slice(n)] for [0 <= n]. *)
Fixpoint sdrop (n : nat) (s : string) : string :=
  match n, s with
  | O, _ => s
  | S n', String _ s' => sdrop n' s'
  | S _, EmptyString => EmptyString
  end.

(** [s.slice(0, n)] for [0 <= n]. *)
Fixpoint stake (n : nat) (s : string) : string :=
  match n, s with
  | S n', String c s' => String c (stake n' s')
  | _, _ => EmptyString
  end.

(** [s.endsWith(p)]. *)
Definition endsWith (s p : string) : bool :=
  (String.length p <=? String.length s)%nat &&
  String.eqb (sdrop (String.length s - String.length p) s) p.

(** [s.indexOf(p)], relative to the start of [s]. *)
Fixpoint indexOf (s p : string) : option nat :=
  if startsWith s p then Some 0 else
  match s with
  | EmptyString => None
  | String _ s' => option_map S (indexOf s' p)
  end.

(** [s.includes(p)]. *)
Definition includes (s p : string) : bool := match indexOf s p with Some _ => true | None => false end.

(** [s.split(d)] with a separator of one character. *)
Fixpoint split (d : ascii) (s : string) : list string :=
  match s with
  | EmptyString => [EmptyString]
  | String c s' =>
      if Ascii.eqb c d then EmptyString :: split d s'
      else match split d s' with
           | w :: ws => String c w :: ws
           | [] => [String c EmptyString]
           end
  end.

(** [s.includes(c)] with a string of one character. *)
Fixpoint includesChar (c : ascii) (s : string) : bool :=
  match s with EmptyString => false | String a s' => Ascii.eqb a c || includesChar c s' end.

(** ** Digits *)

Definition isDigit (c : ascii) : bool := ((48 <=? code c) && (code c <=? 57))%Z.

(** The digits at the start of a string, read in base ten. *)
Fixpoint parseDigits (acc : Z) (seen : bool) (s : string) : option Z :=
  match s with
  | String c rest =>
      if isDigit c then parseDigits (10 * acc + (code c - 48))%Z true rest
      else if seen then Some acc else None
  | EmptyString => if seen then Some acc else None
  end.

(** ** Collation *)

(** [a.localeCompare(b)] as a consistent comparator. *)
Class Collation := {
  localeCompare : string -> string -> comparison;
  localeCompare_opp a b : localeCompare b a = CompOpp (localeCompare a b);
  localeCompare_trans a b c :
    localeCompare a b <> Gt -> localeCompare b c <> Gt -> localeCompare a c <> Gt;
}.

(** [list.sort((a, b) => a.localeCompare(b))]. *)
Definition sort_strings `{Collation} (l : list string) : list string :=
  sort_by localeCompare l.

Definition collation_le `{Collation} (a b : string) : Prop := localeCompare a b <> Gt.

#[export] Instance collation_le_trans `{Collation} : Transitive collation_le.
Proof. intros a b c; apply localeCompare_trans. Qed.

Lemma collation_gt_le `{Collation} a b : localeCompare a b = Gt -> collation_le b a.
Proof. unfold collation_le. intros E. rewrite localeCompare_opp, E. done. Qed.

(** Sorting any list by an id field. *)
Definition sort_on `{Collation} {A} (f : A -> string) (l : list A) : list A :=
  sort_by (fun a b => localeCompare (f a) (f b)) l.

Lemma sort_on_sorted `{Collation} {A} (f : A -> string) l :
  StronglySorted (fun a b => collation_le (f a) (f b)) (sort_on f l).
Proof.
  apply sort_by_sorted.
  - intros x y z; apply localeCompare_trans.
  - done.
  - intros x y; apply collation_gt_le.
Qed.

(** The order of the CLDR root collation on the characters ids are made of,
    [_ - :] before digits before letters; other characters follow by code. *)
Definition weight (c : ascii) : Z :=
  let n := code c in
  if Z.eqb n 95 then 0 else if Z.eqb n 45 then 1 else if Z.eqb n 58 then 2 else 3 + n.

Fixpoint lex_compare (a b : string) : comparison :=
  match a, b with
  | EmptyString, EmptyString => Eq
  | EmptyString, _ => Lt
  | _, EmptyString => Gt
  | String c a', String d b' =>
      match Z.compare (weight c) (weight d) with
      | Eq => lex_compare a' b'
      | o => o
      end
  end.

Lemma lex_compare_opp a b : lex_compare b a = CompOpp (lex_compare a b).
Proof.
  revert b; induction a as [|c a IH]; intros [|d b]; simpl; try done.
  rewrite Z.compare_antisym. destruct (Z.compare _ _); simpl; auto.
Qed.

Lemma lex_compare_trans a b c :
  lex_compare a b <> Gt -> lex_compare b c <> Gt -> lex_compare a c <> Gt.
Proof.
  revert b c; induction a as [|x a IH]; intros [|y b] [|z c]; simpl; try done.
  destruct (Z.compare_spec (weight x) (weight y)) as [Hxy|Hxy|Hxy],
    (Z.compare_spec (weight y) (weight z)) as [Hyz|Hyz|Hyz],
    (Z.compare_spec (weight x) (weight z)); try lia; try done. apply IH.
Qed.

#[export] Instance rootCollation : Collation | 100 := {|
  localeCompare := lex_compare;
  localeCompare_opp := lex_compare_opp;
  localeCompare_trans := lex_compare_trans;
|}.

(** ** Lemmas *)

Lemma string_app_nil s : ("" +:+ s)%string = s.
Proof. done. Qed.

Lemma string_app_cons c s t : (String c s +:+ t)%string = String c (s +:+ t).
Proof. done. Qed.

#[export] Hint Rewrite string_app_nil string_app_cons : s2rw.

Lemma string_app_assoc (a b c : string) : ((a +:+ b) +:+ c = a +:+ (b +:+ c))%string.
Proof. induction a as [|x a IH]; [done|]. rewrite !string_app_cons. by rewrite IH. Qed.

Lemma sall_smap p f s : (forall c, p (f c) = true) -> sall p (smap f s) = true.
Proof. intros H; induction s; simpl; [done|]. by rewrite H. Qed.

Lemma startsWith_spec s p : startsWith s p = true <-> exists t, s = (p +:+ t)%string.
Proof.
  revert s; induction p as [|a p IH]; intros s; simpl.
  - split; [eauto|done].
  - destruct s as [|b s]; simpl; [split; [done|by intros [? ?]]|].
    rewrite andb_true_iff, Ascii.eqb_eq, IH. split.
    + intros [-> [t ->]]. eauto.
    + intros [t [= -> ->]]; eauto.
Qed.

Lemma sdrop_app p t : sdrop (String.length p) (p +:+ t) = t.
Proof. induction p; simpl; auto. Qed.

Lemma startsWith_app p t : startsWith (p +:+ t) p = true.
Proof. apply startsWith_spec; eauto. Qed.

Lemma string_length_app a b :
  String.length (a +:+ b) = (String.length a + String.length b)%nat.
Proof. induction a; simpl; auto. Qed.

Lemma endsWith_spec s p : endsWith s p = true <-> exists t, s = (t +:+ p)%string.
Proof.
  unfold endsWith. rewrite andb_true_iff, Nat.leb_le, String.eqb_eq. split.
  - intros [Hl H]. exists (stake (String.length s - String.length p) s).
    transitivity (stake (String.length s - String.length p) s +:+
                  sdrop (String.length s - String.length p) s); [|by rewrite H].
    generalize (String.length s - String.length p)%nat; clear.
    induction s; intros [|n]; simpl; [done..|].
    rewrite (IHs n) at 1. done.
  - intros [t ->]. rewrite string_length_app. split; [lia|].
    replace (_ + _ - _)%nat with (String.length t) by lia. apply sdrop_app.
Qed.

(** [indexOf] finds the leftmost occurrence. *)
Lemma indexOf_Some s p n :
  indexOf s p = Some n ->
  exists a b, s = (a +:+ p +:+ b)%string /\ String.length a = n /\
    forall a' b', s = (a' +:+ p +:+ b')%string -> (n <= String.length a')%nat.
Proof.
  revert n; induction s as [|c s IH]; intros n; simpl.
  - destruct p; simpl; [|done]. intros [= <-]. exists ""%string, ""%string.
    repeat split; auto. lia.
  - destruct (startsWith (String c s) p) eqn:E.
    + intros [= <-]. apply startsWith_spec in E as [t Ht].
      exists ""%string, t. repeat split; auto. lia.
    + destruct (indexOf s p) as [m|] eqn:Em; simpl; [|done]. intros [= <-].
      destruct (IH _ eq_refl) as (a & b & -> & Hl & Hmin).
      exists (String c a), b. repeat split; simpl; [lia|].
      intros [|d a'] b' Heq; autorewrite with s2rw in Heq; cbn.
      * exfalso. rewrite Heq, startsWith_app in E. done.
      * injection Heq as -> Heq. apply Hmin in Heq. lia.
Qed.

Lemma indexOf_None s p : indexOf s p = None -> forall a b, s <> (a +:+ p +:+ b)%string.
Proof.
  induction s as [|c s IH]; simpl.
  - destruct p; [done|]. intros _ [|] b; done.
  - destruct (startsWith (String c s) p) eqn:E; [done|].
    destruct (indexOf s p) eqn:Em; [done|]. intros _ [|d a] b Heq; autorewrite with s2rw in Heq.
    + rewrite Heq, startsWith_app in E. done.
    + injection Heq as -> Heq. by apply (IH eq_refl a b).
Qed.

(** [trim] is idempotent. *)
Lemma trimEnd_idem s : trimEnd (trimEnd s) = trimEnd s.
Proof.
  induction s as [|c s IH]; [done|]. cbn [trimEnd]. destruct (trimEnd s) as [|d t] eqn:E.
  - destruct (is_space c) eqn:Ec; [done|]. cbn. by rewrite Ec.
  - cbn [trimEnd] in *. by rewrite IH.
Qed.

Lemma trimStart_trimEnd s : trimStart s = s -> trimStart (trimEnd s) = trimEnd s.
Proof.
  destruct s as [|c s]; [done|]. cbn [trimStart]. destruct (is_space c) eqn:Ec.
  - intros E. exfalso. assert (forall s, (String.length (trimStart s) <= String.length s)%nat) as Hl.
    { clear. induction s as [|d s IH]; simpl; [lia|]. destruct (is_space d); simpl in *; lia. }
    specialize (Hl s). rewrite E in Hl. simpl in Hl. lia.
  - intros _. cbn [trimEnd]. destruct (trimEnd s); cbn [trimStart]; rewrite Ec; [|done].
    cbn. by rewrite Ec.
Qed.

Lemma trimStart_idem s : trimStart (trimStart s) = trimStart s.
Proof.
  induction s as [|c s IH]; [done|]. cbn [trimStart]. destruct (is_space c) eqn:E; [done|].
  cbn [trimStart]. by rewrite E.
Qed.

Lemma trim_idem s : trim (trim s) = trim s.
Proof.
  unfold trim. rewrite trimStart_trimEnd by apply trimStart_idem. apply trimEnd_idem.
Qed.

Lemma sort_on_id `{Collation} {A} (f : A -> string) l : sort_on f (sort_on f l) = sort_on f l.
Proof. apply sort_by_id, sort_on_sorted. Qed.

Lemma sort_on_perm `{Collation} {A} (f : A -> string) l : sort_on f l ≡ₚ l.
Proof. apply sort_by_perm. Qed.

(** ** The text of a number *)

(** The characters of a number. *)
Definition numberChar (c : Ascii.ascii) : bool := (((48 <=? code c) && (code c <=? 57)) || (code c =? 45))%Z.

Lemma pretty_N_go_chars x : forall s, sall numberChar s = true -> sall numberChar (pretty_N_go x s) = true.
Proof.
  induction (N.lt_wf_0 x) as [x _ IH]; intros s Hs. assert (x = 0 \/ 0 < x)%N as [-> |Hx] by lia; [done|].
  rewrite pretty_N_go_step by done. apply IH; [by apply N.div_lt|]. cbn. rewrite Hs, andb_true_r. unfold pretty_N_char. by repeat case_match.
Qed.

Lemma pretty_Z_chars (z : Z) : sall numberChar (pretty z) = true /\ pretty z <> ""%string.
Proof.
  assert (Hp : forall p, sall numberChar (pretty (N.pos p)) = true /\ pretty (N.pos p) <> ""%string).
  { intros p. unfold pretty, pretty_N. case_decide; [done|]. split; [by apply pretty_N_go_chars|].
    intros He. assert (Hi : pretty (N.pos p) = pretty_N_go (N.pos p) ""%string) by (unfold pretty, pretty_N; by case_decide).
    rewrite He in Hi. rewrite pretty_N_go_step in He by lia.
    assert (Hl : forall x s, (String.length s <= String.length (pretty_N_go x s))%nat).
    { intros x. induction (N.lt_wf_0 x) as [x _ IH]; intros s. assert (x = 0 \/ 0 < x)%N as [-> |Hx] by lia; [done|].
      rewrite pretty_N_go_step by done. etrans; [|apply IH; by apply N.div_lt]. cbn. lia. }
    specialize (Hl (N.pos p `div` 10)%N (String (pretty_N_char (N.pos p `mod` 10)) ""%string)). rewrite He in Hl. cbn in Hl. lia. }
  unfold pretty, pretty_Z. destruct z as [|p|p]; [done|apply Hp|]. destruct (Hp p) as [H1 _]. split; [|done]. cbn. apply H1.
Qed.

Lemma trimStart_first s : match s with EmptyString => True | String c _ => is_space c = false end -> trimStart s = s.
Proof. destruct s as [|c s]; [done|]. cbn. by intros ->. Qed.

Lemma trimEnd_nospace s : sall (fun c => negb (is_space c)) s = true -> trimEnd s = s.
Proof.
  induction s as [|c s IH]; [done|]. cbn. intros [Hc Hs]%andb_true_iff. rewrite (IH Hs). destruct s; [|done]. by destruct (is_space c).
Qed.

(** * Tool arguments

    The untyped arguments of a tool call, by what the sources read of them. *)
From Stdlib Require Import QArith_base.

(** The structure of a value; [JOther] stands for numbers, booleans and
    [undefined]. *)
Inductive JsShape :=
| JText (s : string)
| JItems (l : list JsShape)
| JFields (m : list (string * JsShape))
| JNull
| JOther.

(** A tool argument: its structure, its text [String(v)], and its number
    [Number(v)] unless that is [NaN]. *)
Record ArgValue := { shape : JsShape; asText : string; asNumber : option Q }.

Definition Args : Type := jsmap ArgValue.

(** [args[key]]. *)
Definition argShape (args : Args) (key : string) : JsShape := default JOther (shape <$> mget args key).
