(* ===== verification/Graph.v ===== *)
(** * Depth-first cycle detection

    The three-colour DFS that [validateNoCycles] (src/runtime/src/team/validation.ts)
    and [validateWorkflow] (src/runtime/src/workflow/validation.ts) both contain,
    over an adjacency map. Recursion is bounded by fuel; [None] is running out of
    it, which [hasCycle_total] excludes. *)
From S2P Require Import Prelude JsMap.

Inductive Color := WHITE | GRAY | BLACK.

#[export] Instance Color_eq_dec : EqDecision Color.
Proof. solve_decision. Defined.

(** [color.get(n) ?? WHITE]. *)
Definition colorOf (color : jsmap Color) (n : string) : Color := default WHITE (mget color n).

(** [adjacency.get(n) ?? []]. *)
Definition successors (adj : jsmap (list string)) (n : string) : list string :=
  default [] (mget adj n).

(** The loop over the successors of a node, [visit] being the recursive call. *)
Fixpoint dfs_children (visit : string -> jsmap Color -> option (bool * jsmap Color))
    (children : list string) (color : jsmap Color) : option (bool * jsmap Color) :=
  match children with
  | [] => Some (false, color)
  | next :: rest =>
      match colorOf color next with
      | GRAY => Some (true, color)
      | WHITE =>
          match visit next color with
          | Some (false, color') => dfs_children visit rest color'
          | r => r
          end
      | BLACK => dfs_children visit rest color
      end
  end.

Fixpoint dfs (fuel : nat) (adj : jsmap (list string)) (nodeId : string) (color : jsmap Color)
    : option (bool * jsmap Color) :=
  match fuel with
  | O => None
  | S fuel' =>
      match dfs_children (dfs fuel' adj) (successors adj nodeId) (mset nodeId GRAY color) with
      | Some (false, color') => Some (false, mset nodeId BLACK color')
      | r => r
      end
  end.

(** The loop over the nodes: [Some true] when a back edge was found. *)
Fixpoint detect (fuel : nat) (adj : jsmap (list string)) (nodes : list string)
    (color : jsmap Color) : option bool :=
  match nodes with
  | [] => Some false
  | n :: rest =>
      match colorOf color n with
      | WHITE =>
          match dfs fuel adj n color with
          | None => None
          | Some (true, _) => Some true
          | Some (false, color') => detect fuel adj rest color'
          end
      | _ => detect fuel adj rest color
      end
  end.

Definition initialColors (nodes : list string) : jsmap Color :=
  foldl (fun c n => mset n WHITE c) [] nodes.

(** The whole detection; a DFS never nests deeper than the number of nodes. *)
Definition hasCycle (adj : jsmap (list string)) (nodes : list string) : option bool :=
  detect (S (length nodes)) adj nodes (initialColors nodes).

(** ** Correctness *)

Lemma colorOf_mset col k c k' : colorOf (mset k c col) k' = if String.eqb k' k then c else colorOf col k'.
Proof. unfold colorOf. rewrite mget_mset. by destruct (String.eqb k' k). Qed.

Section Correctness.
Context (adj : jsmap (list string)) (nodes : list string).

(** There is an edge from [u] to [v]. *)
Definition edge (u v : string) : Prop := v ∈ successors adj u.

Context (Hclosed : forall u v, edge u v -> v ∈ nodes).

Definition whites (col : jsmap Color) : nat :=
  length (List.filter (fun n => bool_decide (colorOf col n = WHITE)) nodes).

(** ** Termination *)

(** No node turns white again. *)
Definition darker (col col' : jsmap Color) : Prop :=
  forall n, colorOf col' n = WHITE -> colorOf col n = WHITE.

#[local] Instance darker_trans : Transitive darker.
Proof. intros a b c Hab Hbc n Hn. by apply Hab, Hbc. Qed.

(** Close the goals of the calls that return at once. *)
Ltac visited := eexists _, _; split; [reflexivity|first [assumption|by intros ?]].

Lemma darker_mset col k c : c <> WHITE -> darker col (mset k c col).
Proof. intros Hc n. rewrite colorOf_mset. by destruct (String.eqb n k). Qed.

Lemma whites_darker col col' : darker col col' -> (whites col' <= whites col)%nat.
Proof.
  intros Hd. unfold whites. clear Hclosed.
  induction nodes as [|n l IH]; simpl; [lia|]. specialize (Hd n).
  repeat case_bool_decide; simpl; try lia. naive_solver.
Qed.

Lemma whites_mset col k c :
  c <> WHITE -> k ∈ nodes -> colorOf col k = WHITE ->
  (whites (mset k c col) < whites col)%nat.
Proof.
  intros Hc Hin Hk. unfold whites. clear Hclosed.
  pose proof (darker_mset col k c Hc) as Hd.
  assert (forall l, length (List.filter (fun n => bool_decide (colorOf (mset k c col) n = WHITE)) l) <=
                    length (List.filter (fun n => bool_decide (colorOf col n = WHITE)) l))%nat as Hle.
  { induction l as [|n l IH]; simpl; [lia|]. specialize (Hd n).
    repeat case_bool_decide; simpl; try lia. naive_solver. }
  induction nodes as [|n l IH]; [by apply not_elem_of_nil in Hin|]. simpl.
  apply elem_of_cons in Hin as [->|Hin].
  - rewrite colorOf_mset, String.eqb_refl.
    rewrite bool_decide_eq_false_2, bool_decide_eq_true_2 by done. simpl.
    specialize (Hle l). lia.
  - specialize (IH Hin). specialize (Hd n).
    repeat case_bool_decide; simpl; try lia. naive_solver.
Qed.

Lemma dfs_children_total (visit : string -> jsmap Color -> option (bool * jsmap Color)) bound cs col :
  (forall n c, n ∈ cs -> colorOf c n = WHITE -> (whites c <= bound)%nat ->
     exists b c', visit n c = Some (b, c') /\ darker c c') ->
  (whites col <= bound)%nat ->
  exists b col', dfs_children visit cs col = Some (b, col') /\ darker col col'.
Proof.
  revert col; induction cs as [|n cs IH]; intros col Hv Hw; simpl; [visited|].
  destruct (colorOf col n) eqn:Ec.
  - destruct (Hv n col ltac:(constructor) Ec Hw) as (b & c' & -> & Hd).
    destruct b; [visited|].
    destruct (IH c') as (b & c'' & -> & Hd').
    + intros; apply Hv; [by constructor|done..].
    + pose proof (whites_darker _ _ Hd). lia.
    + exists b, c''. split; [done|]. by transitivity c'.
  - visited.
  - apply IH; [|done]. intros; apply Hv; [by constructor|done..].
Qed.

Lemma dfs_total fuel n col :
  n ∈ nodes -> colorOf col n = WHITE -> (whites col <= fuel)%nat ->
  exists b col', dfs fuel adj n col = Some (b, col') /\ darker col col'.
Proof.
  revert n col; induction fuel as [|fuel IH]; intros n col Hn Hw Hf.
  { pose proof (whites_mset col n BLACK ltac:(done) Hn Hw). lia. }
  simpl. pose proof (whites_mset col n GRAY ltac:(done) Hn Hw) as Hlt.
  destruct (dfs_children_total (dfs fuel adj) fuel (successors adj n) (mset n GRAY col))
    as (b & c' & -> & Hd).
  - intros m c Hm Hc Hwc. apply IH; [by eapply Hclosed|done..].
  - lia.
  - assert (darker col c') by (transitivity (mset n GRAY col); [by apply darker_mset|done]).
    destruct b; [visited|]. eexists _, _. split; [done|].
    transitivity c'; [done|]. by apply darker_mset.
Qed.

Lemma detect_total_aux fuel ns col :
  ns ⊆ nodes -> (whites col <= fuel)%nat -> exists b, detect fuel adj ns col = Some b.
Proof.
  revert col; induction ns as [|n ns IH]; intros col Hsub Hf; simpl; [eauto|].
  assert (ns ⊆ nodes) by (intros x Hx; apply Hsub; by constructor).
  destruct (colorOf col n) eqn:Ec; [|by apply IH..].
  destruct (dfs_total fuel n col) as (b & c' & -> & Hd); [apply Hsub; constructor|done..|].
  destruct b; [eauto|]. apply IH; [done|]. pose proof (whites_darker _ _ Hd). lia.
Qed.

Lemma hasCycle_total : exists b, hasCycle adj nodes = Some b.
Proof.
  apply detect_total_aux; [done|]. unfold whites.
  etransitivity; [apply List.filter_length_le|]. lia.
Qed.

(** ** Soundness *)

(** Successors of a finished node were finished before it. *)
Definition topo (L : list string) : Prop :=
  forall L1 u L2, L = L1 ++ u :: L2 -> forall v, edge u v -> v ∈ L2.

Definition finished (col : jsmap Color) (L : list string) : Prop :=
  topo L /\ forall n, colorOf col n = BLACK <-> n ∈ L.

(** What a DFS call changes when it finds no back edge. *)
Definition grays_kept (col col' : jsmap Color) : Prop :=
  forall n, colorOf col' n = GRAY <-> colorOf col n = GRAY.
Definition blacks_kept (col col' : jsmap Color) : Prop :=
  forall n, colorOf col n = BLACK -> colorOf col' n = BLACK.

Definition visit_spec (n : string) (col : jsmap Color) (r : option (bool * jsmap Color)) : Prop :=
  match r with
  | None => True
  | Some (true, _) => exists x, tc edge x x
  | Some (false, col') =>
      grays_kept col col' /\ blacks_kept col col' /\ colorOf col' n = BLACK /\
      exists L, finished col' L
  end.

Lemma dfs_children_spec visit u cs col L :
  (forall n c L, n ∈ cs -> colorOf c n = WHITE -> finished c L ->
     (forall g, colorOf c g = GRAY -> tc edge g n) -> visit_spec n c (visit n c)) ->
  (forall v, v ∈ cs -> edge u v) ->
  (forall g, colorOf col g = GRAY -> g = u \/ tc edge g u) ->
  finished col L ->
  match dfs_children visit cs col with
  | None => True
  | Some (true, _) => exists x, tc edge x x
  | Some (false, col') =>
      grays_kept col col' /\ blacks_kept col col' /\
      (forall v, v ∈ cs -> colorOf col' v = BLACK) /\ exists L, finished col' L
  end.
Proof.
  revert col L; induction cs as [|n cs IH]; intros col L Hv He Hg Hfin; simpl.
  { split_and!; [by intros m|by intros m| |eauto]. by intros v ?%not_elem_of_nil. }
  assert (edge u n) as Hun by (apply He; constructor).
  assert (forall v, v ∈ cs -> edge u v) as He' by (intros; apply He; by constructor).
  assert (forall n c L, n ∈ cs -> colorOf c n = WHITE -> finished c L ->
     (forall g, colorOf c g = GRAY -> tc edge g n) -> visit_spec n c (visit n c)) as Hv'
    by (intros; eapply Hv; [by constructor|done..]).
  assert (forall g, colorOf col g = GRAY -> tc edge g n) as Hgn.
  { intros g [->|Ht]%Hg; [by apply tc_once|]. eapply tc_r; eauto. }
  destruct (colorOf col n) eqn:Ec.
  - specialize (Hv n col L ltac:(constructor) Ec Hfin Hgn).
    destruct (visit n col) as [[[] col']|]; simpl in Hv; [done| |done].
    destruct Hv as (Hgk & Hbk & Hbn & L' & Hfin').
    specialize (IH col' L' Hv' He' ltac:(intros g ?%Hgk; auto) Hfin').
    destruct (dfs_children visit cs col') as [[[] col'']|]; [done| |done].
    destruct IH as (Hgk' & Hbk' & Hbs & HL). split_and!; [| | |done].
    + intros m. rewrite (Hgk' m). apply Hgk.
    + intros m ?. by apply Hbk', Hbk.
    + intros v [->|Hin]%elem_of_cons; [by apply Hbk'|auto].
  - exists n. by apply Hgn.
  - specialize (IH col L Hv' He' Hg Hfin).
    destruct (dfs_children visit cs col) as [[[] col'']|]; [done| |done].
    destruct IH as (Hgk' & Hbk' & Hbs & HL). split_and!; [done..| |done].
    intros v [->|Hin]%elem_of_cons; [by apply Hbk'|auto].
Qed.

Lemma finished_gray col L n : colorOf col n = WHITE -> finished col L -> finished (mset n GRAY col) L.
Proof.
  intros Hn [Ht Hb]. split; [done|]. intros m. rewrite colorOf_mset, <-Hb.
  destruct (String.eqb_spec m n) as [->|]; [|done]. rewrite Hn. done.
Qed.

Lemma dfs_spec fuel n col L :
  colorOf col n = WHITE -> finished col L -> (forall g, colorOf col g = GRAY -> tc edge g n) ->
  visit_spec n col (dfs fuel adj n col).
Proof.
  revert n col L; induction fuel as [|fuel IH]; intros n col L Hw Hfin Hg; simpl; [done|].
  pose proof (dfs_children_spec (dfs fuel adj) n (successors adj n) (mset n GRAY col) L) as Hcs.
  destruct (dfs_children _ _ _) as [[[] col']|] eqn:Ed; simpl.
  - apply Hcs; [by intros; eapply IH|done| |by apply finished_gray].
    intros g. rewrite colorOf_mset. destruct (String.eqb_spec g n); auto.
  - destruct Hcs as (Hgk & Hbk & Hbs & L' & Ht & Hb);
      [by intros; eapply IH|done| |by apply finished_gray|].
    { intros g. rewrite colorOf_mset. destruct (String.eqb_spec g n); auto. }
    split_and!.
    + intros m. rewrite colorOf_mset. specialize (Hgk m). rewrite colorOf_mset in Hgk.
      destruct (String.eqb_spec m n) as [e|]; [|done]. rewrite e, Hw. done.
    + intros m Hm. rewrite colorOf_mset. destruct (String.eqb_spec m n); [done|].
      apply Hbk. rewrite colorOf_mset. by destruct (String.eqb_spec m n).
    + by rewrite colorOf_mset, String.eqb_refl.
    + exists (n :: L'). split.
      * intros [|a L1] u L2 Heq v Hv; simplify_eq/=.
        -- apply Hb, Hbs, Hv.
        -- by eapply Ht.
      * intros m. rewrite colorOf_mset, elem_of_cons, <-Hb.
        destruct (String.eqb_spec m n); naive_solver.
  - done.
Qed.

Lemma topo_acyclic L x : topo L -> x ∈ L -> ~ tc edge x x.
Proof.
  intros Ht Hx. assert (forall u v, tc edge u v -> forall L1 L2, L = L1 ++ u :: L2 -> v ∈ L2) as Hp.
  { induction 1 as [u v He|u w v He Hwv IH]; intros L1 L2 Heq; [by eapply Ht|].
    pose proof (Ht _ _ _ Heq _ He) as Hw. apply list_elem_of_split in Hw as (M1 & M2 & ->).
    specialize (IH (L1 ++ u :: M1) M2). rewrite <-app_assoc in IH.
    apply elem_of_app. right. constructor. by apply IH. }
  intros Hc. apply list_elem_of_split in Hx as (L1 & L2 & Heq).
  assert (exists L1 L2, L = L1 ++ x :: L2 /\ x ∉ L2) as (M1 & M2 & HM & Hni).
  { clear -Heq. revert L1 Heq. induction L2 as [L2 IH] using (induction_ltof1 _ length).
    intros L1 ->. destruct (decide (x ∈ L2)) as [Hin|Hni]; [|by eexists _, _].
    apply list_elem_of_split in Hin as (M1 & M2 & ->).
    apply (IH M2) with (L1 := L1 ++ x :: M1); [|by rewrite <-app_assoc].
    unfold ltof. rewrite length_app. simpl. lia. }
  apply Hni. by eapply Hp.
Qed.

Lemma detect_spec fuel ns col L :
  finished col L -> (forall g, colorOf col g <> GRAY) ->
  match detect fuel adj ns col with
  | None => True
  | Some true => exists x, tc edge x x
  | Some false => exists L', topo L' /\ forall n, n ∈ ns -> n ∈ L'
  end.
Proof.
  revert col L. cut (forall col L K, finished col L -> (forall g, colorOf col g <> GRAY) ->
    (forall n, n ∈ K -> n ∈ L) ->
    match detect fuel adj ns col with
    | None => True
    | Some true => exists x, tc edge x x
    | Some false => exists L', topo L' /\ forall n, n ∈ K ++ ns -> n ∈ L'
    end).
  { intros Hc col L Hfin Hg. apply (Hc col L []); try done. by intros n ?%not_elem_of_nil. }
  induction ns as [|n ns IH]; intros col L K Hfin Hg HK; simpl.
  { exists L. rewrite app_nil_r. split; [apply Hfin|done]. }
  rewrite cons_middle, app_assoc. destruct (colorOf col n) eqn:Ec.
  - pose proof (dfs_spec fuel n col L Ec Hfin ltac:(intros g ?%Hg; done)) as Hd.
    destruct (dfs fuel adj n col) as [[[] col']|]; [done| |done].
    destruct Hd as (Hgk & Hbk & Hbn & L' & Hfin'). apply (IH col' L'); [done| |].
    + intros g ?%Hgk. by eapply Hg.
    + intros m Hm. apply elem_of_app in Hm as [Hm|Hm]; [|apply list_elem_of_singleton in Hm as ->; by apply Hfin'].
      by apply Hfin', Hbk, Hfin, HK.
  - by apply Hg in Ec.
  - apply (IH col L); [done..|]. intros m Hm. apply elem_of_app in Hm as [Hm|Hm]; [auto|apply list_elem_of_singleton in Hm as ->].
    by apply Hfin.
Qed.

Lemma initialColors_white n : colorOf (initialColors nodes) n = WHITE.
Proof.
  unfold initialColors. cut (forall c, (forall m, colorOf c m = WHITE) -> forall l,
    colorOf (foldl (fun c n => mset n WHITE c) c l) n = WHITE).
  { intros Hc. apply Hc. done. }
  intros c Hc l. revert c Hc. induction l as [|a l IH]; intros c Hc; simpl; [done|].
  apply IH. intros m. rewrite colorOf_mset. by destruct (String.eqb m a).
Qed.

(** The detection is exact: it reports a cycle iff the graph has one. *)
Lemma hasCycle_spec :
  (hasCycle adj nodes = Some true /\ exists x, tc edge x x) \/
  (hasCycle adj nodes = Some false /\ forall x, x ∈ nodes -> ~ tc edge x x).
Proof.
  destruct hasCycle_total as [b Hb]. rewrite Hb. unfold hasCycle in Hb.
  pose proof (detect_spec (S (length nodes)) nodes (initialColors nodes) []) as Hd.
  rewrite Hb in Hd. destruct b.
  - left. split; [done|]. apply Hd; [|intros g; by rewrite initialColors_white].
    split; [by intros [|] ? ?|]. intros m. rewrite initialColors_white.
    split; [done|by intros ?%not_elem_of_nil].
  - right. split; [done|]. destruct Hd as (L & Ht & HL).
    + split; [by intros [|] ? ?|]. intros m. rewrite initialColors_white.
      split; [done|by intros ?%not_elem_of_nil].
    + intros g. by rewrite initialColors_white.
    + intros x Hx%HL. by eapply topo_acyclic.
Qed.
End Correctness.
