(* ===== verification/Capabilities.v ===== *)
(** * Agent capabilities (src/runtime/src/agent/capabilities.ts)

    Capability bitmasks are [bigint]s: [Z] with [Z.land]/[Z.lor]. *)
From S2P Require Import Prelude.
#[local] Open Scope Z_scope.

(** [CapabilityName], in the order of the keys of [Capability]. *)
Inductive CapabilityName :=
| COMPUTE | INFERENCE | STORAGE | NETWORK | SENSOR
| ACTUATOR | COORDINATOR | ARBITER | VALIDATOR | AGGREGATOR.

#[export] Instance CapabilityName_eq_dec : EqDecision CapabilityName.
Proof. solve_decision. Defined.

Definition capability_bit (n : CapabilityName) : Z :=
  match n with
  | COMPUTE => 0 | INFERENCE => 1 | STORAGE => 2 | NETWORK => 3 | SENSOR => 4
  | ACTUATOR => 5 | COORDINATOR => 6 | ARBITER => 7 | VALIDATOR => 8 | AGGREGATOR => 9
  end.

Definition Capability (n : CapabilityName) : Z := Z.shiftl 1 (capability_bit n).

Definition ALL_CAPABILITY_NAMES : list CapabilityName :=
  [COMPUTE; INFERENCE; STORAGE; NETWORK; SENSOR;
   ACTUATOR; COORDINATOR; ARBITER; VALIDATOR; AGGREGATOR].

Definition ALL_CAPABILITIES : list Z := map Capability ALL_CAPABILITY_NAMES.

Definition combineCapabilities (caps : list Z) : Z := foldl Z.lor 0 caps.

Definition hasCapability (agentCaps required : Z) : bool :=
  Z.eqb (Z.land agentCaps required) required.

Definition hasAllCapabilities (agentCaps : Z) (required : list Z) : bool :=
  forallb (hasCapability agentCaps) required.

Definition hasAnyCapability (agentCaps : Z) (caps : list Z) : bool :=
  existsb (hasCapability agentCaps) caps.

Definition getCapabilityNames (caps : Z) : list CapabilityName :=
  List.filter (fun n => hasCapability caps (Capability n)) ALL_CAPABILITY_NAMES.

Definition parseCapabilities (names : list CapabilityName) : Z :=
  combineCapabilities (map Capability names).

Definition countCapabilities (caps : Z) : nat := length (getCapabilityNames caps).

(** ** Lemmas *)

Lemma combine_testbit caps i :
  Z.testbit (combineCapabilities caps) i = existsb (fun c => Z.testbit c i) caps.
Proof.
  unfold combineCapabilities.
  cut (forall acc, Z.testbit (foldl Z.lor acc caps) i =
                   Z.testbit acc i || existsb (fun c => Z.testbit c i) caps).
  { intros H. by rewrite H, Z.testbit_0_l. }
  induction caps as [|c caps IH]; intros acc; simpl; [by rewrite orb_false_r|].
  by rewrite IH, Z.lor_spec, orb_assoc.
Qed.

(** A mask has a required mask iff every bit of the latter is set in it. *)
Lemma hasCapability_spec a r :
  hasCapability a r = true <->
  forall i, 0 <= i -> Z.testbit r i = true -> Z.testbit a i = true.
Proof.
  unfold hasCapability. rewrite Z.eqb_eq. split.
  - intros H i Hi Hr. rewrite <-H, Z.land_spec in Hr. by apply andb_true_iff in Hr as [? ?].
  - intros H. apply Z.bits_inj'. intros i Hi. rewrite Z.land_spec.
    specialize (H i Hi). destruct (Z.testbit r i); [by rewrite H|apply andb_false_r].
Qed.

Lemma capability_testbit n i : 0 <= i -> Z.testbit (Capability n) i = (i =? capability_bit n).
Proof.
  intros Hi. unfold Capability. rewrite Z.shiftl_1_l, Z.pow2_bits_eqb by (destruct n; simpl; lia).
  apply Z.eqb_sym.
Qed.

Lemma hasCapability_bit caps n :
  hasCapability caps (Capability n) = Z.testbit caps (capability_bit n).
Proof.
  apply eq_true_iff_eq. rewrite hasCapability_spec.
  assert (0 <= capability_bit n) by (destruct n; simpl; lia). split.
  - intros H'. apply H'; [done|]. rewrite capability_testbit by done. apply Z.eqb_refl.
  - intros Hb i Hi. rewrite capability_testbit by done. by intros ->%Z.eqb_eq.
Qed.

Lemma getCapabilityNames_elem caps n :
  In n (getCapabilityNames caps) <-> hasCapability caps (Capability n) = true.
Proof.
  unfold getCapabilityNames. rewrite filter_In. split; [tauto|]. intros; split; [|done].
  destruct n; simpl; tauto.
Qed.

(** ** Properties *)

(** Listing the names of a capability mask and parsing them back keeps
    exactly the ten defined bits of the mask: a mask made of defined
    capabilities survives the round trip, undefined bits are dropped. *)
Theorem capabilities_roundtrip (caps : Z) :
  parseCapabilities (getCapabilityNames caps) = Z.land caps 1023.
Proof.
  apply Z.bits_inj'. intros i Hi. unfold parseCapabilities.
  rewrite combine_testbit, Z.land_spec. change 1023 with (Z.ones 10).
  rewrite Z.testbit_ones_nonneg by lia. apply eq_true_iff_eq.
  rewrite existsb_exists, andb_true_iff, Z.ltb_lt. split.
  - intros (c & (n & <- & Hn)%in_map_iff & Hc).
    rewrite capability_testbit in Hc by done. apply Z.eqb_eq in Hc as ->.
    apply getCapabilityNames_elem in Hn. rewrite hasCapability_bit in Hn.
    split; [done|]. destruct n; simpl; lia.
  - intros [Hb Hlt].
    assert (exists n, capability_bit n = i) as [n <-].
    { assert (i = 0 \/ i = 1 \/ i = 2 \/ i = 3 \/ i = 4 \/ i = 5 \/ i = 6 \/ i = 7 \/ i = 8 \/ i = 9)
        as Hcases by lia.
      repeat destruct Hcases as [->|Hcases]; [exists COMPUTE|exists INFERENCE|exists STORAGE
        |exists NETWORK|exists SENSOR|exists ACTUATOR|exists COORDINATOR|exists ARBITER
        |exists VALIDATOR|subst; exists AGGREGATOR]; done. }
    exists (Capability n). split; [|rewrite capability_testbit by done; apply Z.eqb_refl].
    apply in_map, getCapabilityNames_elem. by rewrite hasCapability_bit.
Qed.
