(* ===== verification/TeamTypes.v ===== *)
(** * Team contract data (src/runtime/src/team/types.ts, errors.ts)

    The domain types of team contracts, the id canonicalisation and the id
    validation. Opaque [metadata] values are carried as strings. *)
From S2P Require Import Prelude JsMap JsString.

(** The classes an operation of the team package throws; the string is the
    fixed part of the message. [PlainError] is [Error], [TypeError] an error
    raised by the language itself. *)
Inductive team_error :=
| TeamContractValidationError (msg : string)
| TeamContractStateError (msg : string)
| TeamPayoutError (msg : string)
| TeamWorkflowTopologyError (msg : string)
| PlainError (msg : string)
| TypeError (msg : string).

#[export] Instance team_error_eq_dec : EqDecision team_error.
Proof. solve_decision. Defined.

(** [toError(error).message]. *)
Definition error_message (e : team_error) : string :=
  match e with
  | TeamContractValidationError m | TeamContractStateError m | TeamPayoutError m
  | TeamWorkflowTopologyError m | PlainError m | TypeError m => m
  end.

Inductive TeamContractStatus := draft | active | completed | failed | cancelled.

#[export] Instance TeamContractStatus_eq_dec : EqDecision TeamContractStatus.
Proof. solve_decision. Defined.

Inductive TeamCheckpointStatus := cpPending | cpReady | cpCompleted | cpFailed | cpBlocked.

#[export] Instance TeamCheckpointStatus_eq_dec : EqDecision TeamCheckpointStatus.
Proof. solve_decision. Defined.

Record TeamRoleTemplate := {
  role_id : string;
  requiredCapabilities : Z;
  minMembers : option number;
  maxMembers : option number;
}.

Record TeamCheckpointTemplate := {
  cp_id : string;
  cp_roleId : string;
  cp_label : string;
  cp_dependsOn : option (list string);
  cp_required : option bool;
}.

(** [TeamPayoutConfig]: the mode with its own field, and the fields of
    [BasePayoutConfig]. *)
Inductive PayoutMode :=
| Fixed (rolePayoutBps : jsmap number)
| Weighted (roleWeights : jsmap number)
| Milestone (milestonePayoutBps : jsmap number).

Record TeamPayoutConfig := {
  payout_mode : PayoutMode;
  roleFailurePenaltyBps : option (jsmap number);
  redistributePenalties : option bool;
}.

Record TeamTemplate := {
  template_id : string;
  template_name : string;
  roles : list TeamRoleTemplate;
  checkpoints : list TeamCheckpointTemplate;
  payout : TeamPayoutConfig;
  template_metadata : option string;
}.

Record TeamMemberInput := {
  mi_id : string;
  mi_capabilities : Z;
  mi_roles : option (list string);
  mi_metadata : option string;
}.

Record TeamMember := {
  member_id : string;
  member_capabilities : Z;
  member_roles : list string;
  member_active : bool;
  joinedAt : Z;
  leftAt : option Z;
  member_metadata : option string;
}.

Record TeamCheckpointState := {
  cs_id : string;
  cs_roleId : string;
  cs_label : string;
  cs_dependsOn : list string;
  cs_required : bool;
  cs_status : TeamCheckpointStatus;
  completedBy : option string;
  cs_completedAt : option Z;
  outputDigest : option string;
  failedBy : option string;
  failedAt : option Z;
  failureReason : option string;
}.

Inductive PayoutModeName := fixed | weighted | milestone.

Definition mode_name (m : PayoutMode) : PayoutModeName :=
  match m with Fixed _ => fixed | Weighted _ => weighted | Milestone _ => milestone end.

Record TeamPayoutResult := {
  result_mode : PayoutModeName;
  totalRewardLamports : Z;
  rolePayouts : jsmap Z;
  memberPayouts : jsmap Z;
  rolePenalties : jsmap Z;
  redistributedLamports : Z;
  unallocatedLamports : Z;
}.

(** [TeamAuditEvent], its [type] and [payload] together. *)
Inductive TeamAuditPayload :=
| contract_created (creatorId templateId : string) (roleCount checkpointCount : nat)
| member_joined (memberId : string) (capabilityMask : Z)
| member_left (memberId : string)
| role_assigned (memberId roleId : string)
| run_started (activeMembers : nat)
| checkpoint_completed (checkpointId roleId memberId : string)
| checkpoint_failed (checkpointId roleId memberId reason : string)
| contract_cancelled (reason : string)
| payout_finalized (totalReward unallocated : Z).

Record TeamAuditEvent := {
  ev_sequence : Z;
  ev_contractId : string;
  ev_atMs : Z;
  ev_payload : TeamAuditPayload;
}.

Record RoleFailureAttribution := {
  rf_contractId : string;
  rf_roleId : string;
  rf_checkpointId : string;
  rf_memberId : string;
  rf_reason : string;
  rf_atMs : Z;
}.

(** ** Ids *)

Definition MAX_TEAM_ID_LENGTH : nat := 64.

(** [TEAM_ID_PATTERN]: [^[a-z0-9:_-]+$]. *)
Definition team_id_char (c : Ascii.ascii) : bool :=
  let n := code c in
  (((97 <=? n) && (n <=? 122)) || ((48 <=? n) && (n <=? 57))
   || (n =? 58) || (n =? 95) || (n =? 45))%Z.

Definition TEAM_ID_PATTERN_test (s : string) : bool := negb (isEmpty s) && sall team_id_char s.

Definition canonicalizeTeamId (value : string) : string := toLowerCase (trim value).

(** [None] is the [null] the function returns for a valid id. *)
Definition validateTeamId (value : string) : option string :=
  if (String.length value =? 0)%nat then Some "must not be empty"%string
  else if (MAX_TEAM_ID_LENGTH <? String.length value)%nat then
    Some "must be <= 64 characters"%string
  else if negb (TEAM_ID_PATTERN_test value) then Some "must match [a-z0-9:_-]"%string
  else None.

(** The two functions [normalizeIdOrThrow]: the engine's throws a
    [TeamContractValidationError], the one of validation.ts an [Error]. *)
Definition normalizeId_with (wrap : string -> team_error) (raw : string)
    : result team_error string :=
  let canonical := canonicalizeTeamId raw in
  match validateTeamId canonical with
  | Some e => Err (wrap e)
  | None => Ok canonical
  end.

Definition engine_normalizeIdOrThrow := normalizeId_with TeamContractValidationError.
Definition validation_normalizeIdOrThrow := normalizeId_with PlainError.

(** ** Lemmas *)

Definition valid_id (s : string) : Prop := validateTeamId s = None.

Lemma valid_id_chars s : valid_id s -> sall team_id_char s = true /\ s <> ""%string.
Proof.
  unfold valid_id, validateTeamId, TEAM_ID_PATTERN_test.
  destruct s as [|c s]; [done|]. cbn [isEmpty String.length Nat.eqb negb andb].
  destruct (_ <? _)%nat; [done|]. destruct (sall _ _); [|done]. done.
Qed.

Lemma id_char_lower c : team_id_char c = true -> lower_char c = c.
Proof. destruct c as [[] [] [] [] [] [] [] []]; vm_compute; congruence. Qed.

Lemma id_char_not_space c : team_id_char c = true -> is_space c = false.
Proof. destruct c as [[] [] [] [] [] [] [] []]; vm_compute; congruence. Qed.

Lemma trimEnd_id s : sall team_id_char s = true -> trimEnd s = s.
Proof.
  induction s as [|c s IH]; simpl; [done|]. intros [Hc Hs]%andb_true_iff.
  rewrite (IH Hs). destruct s; [|done]. by rewrite id_char_not_space.
Qed.

Lemma canonicalize_id s : sall team_id_char s = true -> canonicalizeTeamId s = s.
Proof.
  intros H. unfold canonicalizeTeamId, trim.
  assert (trimStart s = s) as ->.
  { destruct s as [|c s]; [done|]. simpl in *. apply andb_true_iff in H as [Hc _].
    by rewrite id_char_not_space. }
  rewrite trimEnd_id by done. unfold toLowerCase.
  induction s as [|c s IH]; simpl in *; [done|]. apply andb_true_iff in H as [Hc Hs].
  by rewrite id_char_lower, IH.
Qed.

Lemma normalizeId_Ok wrap raw id :
  normalizeId_with wrap raw = Ok id <-> id = canonicalizeTeamId raw /\ valid_id id.
Proof.
  unfold normalizeId_with, valid_id. destruct (validateTeamId _) eqn:E; split; naive_solver.
Qed.

Lemma normalizeId_valid wrap raw id : normalizeId_with wrap raw = Ok id -> valid_id id.
Proof. intros H%normalizeId_Ok. tauto. Qed.

(** A valid id is a fixed point of the normalisation. *)
Lemma normalizeId_fixpoint wrap id : valid_id id -> normalizeId_with wrap id = Ok id.
Proof.
  intros H. apply normalizeId_Ok. split; [|done].
  by rewrite canonicalize_id by (apply valid_id_chars, H).
Qed.

#[export] Hint Resolve normalizeId_valid normalizeId_fixpoint : s2core.
