(* ===== verification/TeamPayout.v ===== *)
(** * Team payout (src/runtime/src/team/payout.ts)

    [computeTeamPayout] splits a reward between the roles of a team contract
    (fixed basis points, weights, or completed milestones), applies the
    failure penalties, redistributes them, and splits each role's amount
    between its members. Lamport amounts are [bigint]s: [Z], with the
    truncating division of [bigint] ([Z.quot], [Z.rem]). *)
From S2P Require Import Prelude JsMap JsString TeamTypes.
#[local] Open Scope Z_scope.

Record TeamPayoutComputationInput := {
  in_totalRewardLamports : Z;
  in_template : TeamTemplate;
  in_checkpoints : jsmap TeamCheckpointState;
  in_roleAssignments : jsmap (list string);
}.

Notation R := (result team_error).

(** [assertBps]. *)
Definition bps_ok (n : number) : bool :=
  match n with NInt z => (0 <=? z) && (z <=? 10000) | NOther => false end.

Definition assertBps (n : number) : R unit :=
  throw_if (negb (bps_ok n)) (TeamPayoutError "must be an integer between 0 and 10000").

(** [sumNumbers]: with a non-integer among the values the sum is [NOther],
    which is neither 10000 nor below 1: the code then throws the same error
    class from the check of the values that follows the check of the sum. *)
Definition sumNumbers (values : list number) : number := foldl number_add (NInt 0) values.

Definition initializeRoleMap (roleIds : list string) (initial : Z) : jsmap Z :=
  foldl (fun out r => mset r initial out) [] roleIds.

Definition initializeNumericRoleMap (roleIds : list string) (source : jsmap number)
    : jsmap number :=
  foldl (fun out r => mset r (default (NInt 0) (mget source r)) out) [] roleIds.

Definition mergeAmounts (target delta : jsmap Z) : jsmap Z :=
  foldl (fun t kv => mset kv.1 (mget0 t kv.1 + kv.2) t) target delta.

Definition toBigIntMap (source : jsmap number) : jsmap Z :=
  foldl (fun out kv => mset kv.1 (toBigInt kv.2) out) [] source.

Section Payout.
Context `{Collation}.

(** ** Allocation by largest remainder *)

Definition remainder_cmp (a b : string * Z) : comparison :=
  if a.2 =? b.2 then localeCompare a.1 b.1 else if a.2 >? b.2 then Lt else Gt.

(** The first loop of [allocate]: [result], [remainders], [allocated]. *)
Definition allocate_base (total denominator : Z) (weights : jsmap Z) (keys : list string)
    : jsmap Z * list (string * Z) * Z :=
  foldl (fun '(result, remainders, allocated) key =>
      let numerator := total * mget0 weights key in
      let base := Z.quot numerator denominator in
      let remainder := Z.rem numerator denominator in
      (mset key base result, remainders ++ [(key, remainder)], allocated + base))
    ([], [], 0) keys.

(** The second loop: one extra lamport per slot, until the slots or the
    non-zero remainders are exhausted. *)
Fixpoint distribute_extra (extraSlots : nat) (remainders : list (string * Z))
    (result : jsmap Z) : jsmap Z :=
  match extraSlots, remainders with
  | S n, (key, remainder) :: rest =>
      if remainder =? 0 then result
      else distribute_extra n rest (mset key (mget0 result key + 1) result)
  | _, _ => result
  end.

Definition allocate (total : Z) (weights : jsmap Z) (denominator : Z) : R (jsmap Z) :=
  let keys := sort_strings (mkeys weights) in
  throw_if (existsb (fun key => mget0 weights key <? 0) keys)
    (TeamPayoutError "allocation weight must be non-negative") ;;
  let '(result, remainders, allocated) := allocate_base total denominator weights keys in
  let leftover := total - allocated in
  throw_if (leftover <? 0)
    (TeamPayoutError "allocation overflow: allocated amount exceeds total") ;;
  let remainders := sort_by remainder_cmp remainders in
  Ok (distribute_extra (Z.to_nat leftover) remainders result).

Definition allocateByRatio (total : Z) (numerators : jsmap Z) (denominator : Z) : R (jsmap Z) :=
  throw_if (denominator <=? 0) (TeamPayoutError "allocation denominator must be positive") ;;
  allocate total numerators denominator.

Definition allocateByWeights (total : Z) (weights : jsmap Z) : R (jsmap Z) :=
  let totalWeight := msum weights in
  throw_if (totalWeight <=? 0)
    (TeamPayoutError "allocation requires at least one positive weight") ;;
  allocate total weights totalWeight.

(** ** The stages of [computeTeamPayout] *)

Definition isCompleted (c : TeamCheckpointState) : bool := bool_decide (cs_status c = cpCompleted).
Definition isFailed (c : TeamCheckpointState) : bool := bool_decide (cs_status c = cpFailed).

(** [failedRoles]. *)
Definition failedRoles (checkpoints : list TeamCheckpointState) : list string :=
  map cs_roleId (List.filter isFailed checkpoints).

(** The loop over the checkpoints of the [milestone] case: [realizedBps] and
    [realizedRoleBps]. *)
Definition realized (milestoneBps : jsmap number) (roleIds : list string)
    (checkpoints : list TeamCheckpointState) : R (Z * jsmap Z) :=
  foldM (fun '(realizedBps, realizedRoleBps) c =>
      if negb (isCompleted c) then Ok (realizedBps, realizedRoleBps) else
      let bps := default (NInt 0) (mget milestoneBps (cs_id c)) in
      assertBps bps ;;
      match mget realizedRoleBps (cs_roleId c) with
      | None => Err (TypeError "cannot add a bigint to undefined")
      | Some v => Ok (realizedBps + toBigInt bps,
                      mset (cs_roleId c) (v + toBigInt bps) realizedRoleBps)
      end)
    (0, initializeRoleMap roleIds 0) checkpoints.

(** The [switch] on the payout mode: [rolePayouts] and [unallocatedLamports]. *)
Definition allocateRoles (total : Z) (mode : PayoutMode) (roleIds : list string)
    (checkpoints : list TeamCheckpointState) : R (jsmap Z * Z) :=
  let rolePayouts := initializeRoleMap roleIds 0 in
  match mode with
  | Fixed rolePayoutBps =>
      let bpsByRole := initializeNumericRoleMap roleIds rolePayoutBps in
      throw_if (negb (bool_decide (sumNumbers (mvals bpsByRole) = NInt 10000)))
        (TeamPayoutError "fixed payout bps") ;;
      throw_if (existsb (fun b => negb (bps_ok b)) (mvals bpsByRole))
        (TeamPayoutError "fixed payout bps") ;;
      allocated ← allocateByRatio total (toBigIntMap bpsByRole) 10000;
      Ok (mergeAmounts rolePayouts allocated, 0)
  | Weighted roleWeights =>
      let weightsByRole := initializeNumericRoleMap roleIds roleWeights in
      throw_if (match sumNumbers (mvals weightsByRole) with NInt z => z <=? 0 | NOther => false end)
        (TeamPayoutError "role weight") ;;
      throw_if (existsb (fun w => match w with NInt z => z <? 0 | NOther => true end)
                 (mvals weightsByRole))
        (TeamPayoutError "role weight") ;;
      allocated ← allocateByWeights total (toBigIntMap weightsByRole);
      Ok (mergeAmounts rolePayouts allocated, 0)
  | Milestone milestonePayoutBps =>
      '(realizedBps, realizedRoleBps) ← realized milestonePayoutBps roleIds checkpoints;
      throw_if (realizedBps >? 10000) (TeamPayoutError "milestone payout bps cannot exceed 10000") ;;
      if realizedBps =? 0 then Ok (rolePayouts, total) else
      let accountedTotal := Z.quot (total * realizedBps) 10000 in
      allocated ← allocateByRatio accountedTotal realizedRoleBps realizedBps;
      Ok (mergeAmounts rolePayouts allocated, total - accountedTotal)
  end.

(** The penalty loop: [rolePayouts], [rolePenalties], [penaltyPool]. *)
Definition applyPenalties (penalties : jsmap number) (failedR roleIds : list string)
    (rolePayouts : jsmap Z) : R (jsmap Z * jsmap Z * Z) :=
  foldM (fun '(rolePayouts, rolePenalties, penaltyPool) roleId =>
      let penaltyBps := default (NInt 0) (mget penalties roleId) in
      assertBps penaltyBps ;;
      if negb (has failedR roleId) || (toBigInt penaltyBps =? 0)
      then Ok (rolePayouts, rolePenalties, penaltyPool) else
      let penalty := Z.quot (mget0 rolePayouts roleId * toBigInt penaltyBps) 10000 in
      Ok (mset roleId (mget0 rolePayouts roleId - penalty) rolePayouts,
          mset roleId penalty rolePenalties, penaltyPool + penalty))
    (rolePayouts, initializeRoleMap roleIds 0, 0) roleIds.

(** The redistribution of the penalty pool: [rolePayouts],
    [redistributedLamports], [unallocatedLamports]. *)
Definition redistribute (redistributePenalties : option bool) (failedR roleIds : list string)
    (rolePayouts : jsmap Z) (penaltyPool unallocated : Z) : R (jsmap Z * Z * Z) :=
  if negb (penaltyPool >? 0) then Ok (rolePayouts, 0, unallocated) else
  if bool_decide (redistributePenalties = Some false)
  then Ok (rolePayouts, 0, unallocated + penaltyPool) else
  let eligibleWeights := foldl (fun w roleId =>
      if has failedR roleId || (mget0 rolePayouts roleId <=? 0) then w
      else mset roleId (mget0 rolePayouts roleId) w) [] roleIds in
  if (length eligibleWeights =? 0)%nat
  then Ok (rolePayouts, 0, unallocated + penaltyPool) else
  redistributed ← allocateByWeights penaltyPool eligibleWeights;
  Ok (foldl (fun '(rp, red) kv => (mset kv.1 (mget0 rp kv.1 + kv.2) rp, red + kv.2))
        (rolePayouts, 0) redistributed, unallocated).

(** The weights of a role's members: completed checkpoints of the role, or
    equal shares when nobody completed one. *)
Definition contributionWeights (checkpoints : list TeamCheckpointState) (roleId : string)
    (members : list string) : jsmap Z :=
  foldl (fun w c =>
      if negb (String.eqb (cs_roleId c) roleId) || negb (isCompleted c) then w else
      match completedBy c with
      | None => w
      | Some m => if isEmpty m then w
                  else if mhas w m then mset m (mget0 w m + 1) w else w
      end)
    (initializeRoleMap members 0) checkpoints.

Definition effectiveWeights (checkpoints : list TeamCheckpointState) (roleId : string)
    (members : list string) : jsmap Z :=
  let weights := contributionWeights checkpoints roleId members in
  if msum weights >? 0
  then foldl (fun w m => if mget0 weights m >? 0 then mset m (mget0 weights m) w else w) [] members
  else initializeRoleMap members 1.

(** The loop over the roles: [memberPayouts] and [unallocatedLamports]. *)
Definition payMembers (checkpoints : list TeamCheckpointState)
    (roleAssignments : jsmap (list string)) (roleIds : list string)
    (rolePayouts : jsmap Z) (unallocated : Z) : R (jsmap Z * Z) :=
  foldM (fun '(memberPayouts, unallocated) roleId =>
      let roleAmount := mget0 rolePayouts roleId in
      if roleAmount =? 0 then Ok (memberPayouts, unallocated) else
      let members := sort_strings (default [] (mget roleAssignments roleId)) in
      match members with
      | [] => Ok (memberPayouts, unallocated + roleAmount)
      | _ =>
          allocations ← allocateByWeights roleAmount (effectiveWeights checkpoints roleId members);
          Ok (mergeAmounts memberPayouts allocations, unallocated)
      end)
    ([], unallocated) roleIds.

Definition computeTeamPayout (input : TeamPayoutComputationInput) : R TeamPayoutResult :=
  let total := in_totalRewardLamports input in
  let config := payout (in_template input) in
  throw_if (total <? 0) (TeamPayoutError "total reward must be non-negative") ;;
  let roleIds := sort_strings (map role_id (roles (in_template input))) in
  let checkpoints := mvals (in_checkpoints input) in
  let failedR := failedRoles checkpoints in
  '(rolePayouts, unallocated) ← allocateRoles total (payout_mode config) roleIds checkpoints;
  '(rolePayouts, rolePenalties, penaltyPool) ←
    applyPenalties (default [] (roleFailurePenaltyBps config)) failedR roleIds rolePayouts;
  '(rolePayouts, redistributed, unallocated) ←
    redistribute (redistributePenalties config) failedR roleIds rolePayouts penaltyPool unallocated;
  '(memberPayouts, unallocated) ←
    payMembers checkpoints (in_roleAssignments input) roleIds rolePayouts unallocated;
  Ok {| result_mode := mode_name (payout_mode config);
        totalRewardLamports := total;
        rolePayouts := rolePayouts;
        memberPayouts := memberPayouts;
        rolePenalties := rolePenalties;
        redistributedLamports := redistributed;
        unallocatedLamports := unallocated |}.
End Payout.
