(* ===== verification/TeamPayoutStages.v ===== *)
(** * Correctness of the payout computation

    Lemmas on the allocation by largest remainder: it succeeds on
    non-negative weights, hands out the whole amount, and each share is its
    quota rounded down or up. *)
From S2P Require Import Prelude JsMap JsString TeamTypes TeamPayout.
#[local] Open Scope Z_scope.

Section PayoutProofs.
Context `{Collation}.

(** ** Map helpers *)

Lemma msum_merge t d : msum (mergeAmounts t d) = msum t + msum d.
Proof.
  unfold mergeAmounts. revert t; induction d as [|[k v] d IH]; intros t; simpl.
  - unfold msum at 3; simpl; lia.
  - rewrite IH, msum_madd. unfold msum, mvals; simpl; lia.
Qed.

Lemma mnonneg_merge t d : mnonneg t -> mnonneg d -> mnonneg (mergeAmounts t d).
Proof.
  unfold mergeAmounts. revert t; induction d as [|[k v] d IH]; intros t Ht Hd; simpl; [done|].
  inversion Hd; subst; simpl in *. apply IH; [|done].
  apply mnonneg_mset; [done|]. pose proof (mnonneg_get t k Ht). lia.
Qed.

Lemma mkeys_merge t d : mkeys d ⊆ mkeys t -> mkeys (mergeAmounts t d) = mkeys t.
Proof.
  unfold mergeAmounts. revert t; induction d as [|[k v] d IH]; intros t Hd; simpl; [done|].
  assert (k ∈ mkeys t) by (apply Hd; constructor).
  rewrite IH; rewrite mkeys_mset_in; try done.
  intros x Hx. apply Hd. by constructor.
Qed.

Lemma initializeRoleMap_eq l c : NoDup l -> initializeRoleMap l c = map (fun k => (k, c)) l.
Proof.
  intros HND. unfold initializeRoleMap.
  rewrite (mset_fold_fresh id (fun _ => c) []); [done| |intros x _ []%not_elem_of_nil].
  by rewrite map_id.
Qed.

Lemma initializeRoleMap_keys l c : NoDup l -> mkeys (initializeRoleMap l c) = l.
Proof. intros. rewrite initializeRoleMap_eq by done. unfold mkeys. rewrite map_map. apply map_id. Qed.

Lemma initializeRoleMap_sum l : NoDup l -> msum (initializeRoleMap l 0) = 0.
Proof.
  intros. rewrite initializeRoleMap_eq by done. unfold msum, mvals. rewrite map_map. simpl.
  rewrite sumZ_const. lia.
Qed.

Lemma initializeRoleMap_nonneg l c : 0 <= c -> mnonneg (initializeRoleMap l c).
Proof.
  intros Hc. unfold initializeRoleMap.
  cut (forall m, mnonneg m -> mnonneg (foldl (fun out r => mset r c out) m l)).
  { intros Hm; apply Hm; constructor. }
  induction l; simpl; auto with s2core.
Qed.

Lemma initializeNumericRoleMap_eq l src : NoDup l ->
initializeNumericRoleMap l src = map (fun k => (k, default (NInt 0) (mget src k))) l.
Proof.
  intros HND. unfold initializeNumericRoleMap.
  rewrite (mset_fold_fresh id (fun r => default (NInt 0) (mget src r)) []);
    [done| |intros x _ []%not_elem_of_nil].
  by rewrite map_id.
Qed.

Lemma toBigIntMap_eq src : NoDup (mkeys src) ->
toBigIntMap src = map (fun kv => (kv.1, toBigInt kv.2)) src.
Proof.
  intros HND. unfold toBigIntMap.
  by rewrite (mset_fold_fresh fst (fun kv => toBigInt kv.2) []);
    [| |intros x _ []%not_elem_of_nil].
Qed.

Lemma sumNumbers_ints l z :
sumNumbers l = NInt z -> z = sumZ (map toBigInt l).
Proof.
  unfold sumNumbers.
  cut (forall acc, foldl number_add acc l = NInt z ->
         exists a, acc = NInt a /\ z = a + sumZ (map toBigInt l)).
  { intros Hc E. apply Hc in E as (a & [= <-] & ->). lia. }
  induction l as [|n l IH]; intros acc; simpl.
  - intros ->. exists z. split; [done|lia].
  - intros (a & Ha & ->)%IH. destruct acc, n; simpl in *; simplify_eq.
    eexists; split; [done|]. lia.
Qed.

Lemma sumNumbers_int l :
Forall (fun n => isInteger n = true) l -> exists z, sumNumbers l = NInt z.
Proof.
  unfold sumNumbers. generalize 0. intros a HF. revert a.
  induction HF as [|[z|] l Hz HF IH]; intros a; simpl; [eauto|apply IH|done].
Qed.

(** ** The largest-remainder allocation *)

Definition quota (total denominator : Z) (weights : jsmap Z) k : Z :=
Z.quot (total * mget0 weights k) denominator.
Definition frac (total denominator : Z) (weights : jsmap Z) k : Z :=
Z.rem (total * mget0 weights k) denominator.

Lemma allocate_base_eq t d w keys : NoDup keys ->
allocate_base t d w keys =
  (map (fun k => (k, quota t d w k)) keys, map (fun k => (k, frac t d w k)) keys,
   sumZ (map (quota t d w) keys)).
Proof.
  intros HND. unfold allocate_base.
  cut (forall res rems s, (forall k, k ∈ keys -> k ∉ mkeys res) ->
    foldl (fun '(result, remainders, allocated) key =>
      (mset key (Z.quot (t * mget0 w key) d) result,
       remainders ++ [(key, Z.rem (t * mget0 w key) d)],
       allocated + Z.quot (t * mget0 w key) d)) (res, rems, s) keys =
    (res ++ map (fun k => (k, quota t d w k)) keys, rems ++ map (fun k => (k, frac t d w k)) keys,
     s + sumZ (map (quota t d w) keys))).
  { intros Hc. apply Hc. intros k _ []%not_elem_of_nil. }
  induction keys as [|k keys IH]; intros res rems s Hf; simpl.
  - by rewrite !app_nil_r, Z.add_0_r.
  - apply NoDup_cons in HND as [Hk HND]. rewrite IH; [|done|].
    + rewrite mset_fresh by (apply Hf; constructor). rewrite <-!app_assoc. simpl.
      unfold quota, frac. f_equal. lia.
    + intros k' Hk'. rewrite elem_mkeys_mset. intros [->|Hin]; [done|].
      by eapply Hf; [|exact Hin]; constructor.
Qed.

Lemma distribute_extra_sum n rems res :
(n <= length rems)%nat -> Forall (fun kv => kv.2 <> 0) (take n rems) ->
msum (distribute_extra n rems res) = msum res + Z.of_nat n.
Proof.
  revert rems res; induction n as [|n IH]; intros [|[k r] rems] res Hl HF; simpl in *; try lia.
  inversion HF as [|? ? Hr HF']; subst; simpl in *.
  destruct (Z.eqb_spec r 0); [done|]. rewrite IH, msum_madd by (done || lia). lia.
Qed.

(** A key gains at most one lamport, and only with a non-zero remainder. *)
Lemma distribute_extra_get n rems res k :
NoDup (mkeys rems) ->
exists b, mget0 (distribute_extra n rems res) k = mget0 res k + b /\
  (b = 0 \/ b = 1 /\ mget0 rems k <> 0).
Proof.
  revert rems res; induction n as [|n IH]; intros [|[k1 r] rems] res HND; simpl.
  1-3: exists 0; split; [lia|auto].
  apply NoDup_cons in HND as [Hk HND].
  destruct (Z.eqb_spec r 0); [exists 0; split; [lia|auto]|].
  destruct (IH rems (mset k1 (mget0 res k1 + 1) res) HND) as (b & -> & Hb).
  rewrite mget0_mset. unfold mget0 at 4. simpl.
  destruct (String.eqb_spec k k1) as [->|Hne]; simpl.
  - exists (1 + b). split; [lia|]. destruct Hb as [->|[-> Hb]]; [right; split; [lia|done]|].
    destruct Hb. by apply mget0_notin.
  - exists b. split; [done|]. done.
Qed.

Lemma distribute_extra_keys n rems res :
mkeys rems ⊆ mkeys res -> mkeys (distribute_extra n rems res) = mkeys res.
Proof.
  revert rems res; induction n as [|n IH]; intros [|[k1 r] rems] res Hsub; simpl; try done.
  destruct (r =? 0); [done|].
  assert (k1 ∈ mkeys res) by (apply Hsub; constructor).
  rewrite IH; rewrite mkeys_mset_in; try done. intros x Hx; apply Hsub; by constructor.
Qed.

(** Remainders below the denominator that add up to [n] denominators: at
  least [n] of them are not zero. *)
Lemma nonzero_count (d : Z) (l : list Z) (n : nat) :
0 < d -> Forall (fun r => 0 <= r < d) l -> sumZ l = d * Z.of_nat n ->
(n <= length (List.filter (fun r => negb (Z.eqb r 0)) l))%nat.
Proof.
  intros Hd HF Hs.
  assert (sumZ l <= (d - 1) * Z.of_nat (length (List.filter (fun r => negb (Z.eqb r 0)) l))) as Hb.
  { clear Hs. induction HF as [|r l Hr HF IH]; simpl; [lia|].
    destruct (Z.eqb_spec r 0); simpl; nia. }
  destruct (Nat.le_gt_cases n (length (List.filter (fun r => negb (Z.eqb r 0)) l))); [done|].
  exfalso. nia.
Qed.

(** In a list sorted by decreasing remainder the non-zero ones come first. *)
Lemma sorted_nonzero_prefix (l : list (string * Z)) n :
StronglySorted (fun a b => b.2 <= a.2) l -> Forall (fun kv => 0 <= kv.2) l ->
(n <= length (List.filter (fun r => negb (Z.eqb r 0)) (map snd l)))%nat ->
Forall (fun kv => kv.2 <> 0) (take n l).
Proof.
  revert n; induction l as [|[k r] l IH]; intros [|n] HS HF Hn; simpl in *; try constructor.
  - inversion HS as [|? ? HS' Hall]; inversion HF as [|? ? Hr HF']; subst; simpl in *.
    destruct (Z.eqb_spec r 0) as [->|]; simpl in *; [|done].
    exfalso. assert (List.filter (fun r => negb (Z.eqb r 0)) (map snd l) = []) as E.
    { clear -Hall HF'. induction l as [|[k r] l IH]; simpl; [done|].
      inversion Hall; inversion HF'; subst; simpl in *.
      assert (r = 0) as -> by lia. simpl. by apply IH. }
    rewrite E in Hn. simpl in Hn. lia.
  - inversion HS as [|? ? HS' Hall]; inversion HF as [|? ? Hr HF']; subst; simpl in *.
    apply IH; [done..|]. destruct (Z.eqb_spec r 0); simpl in *; lia.
Qed.

Lemma remainder_sorted l :
StronglySorted (fun a b : string * Z => b.2 <= a.2) (sort_by remainder_cmp l).
Proof.
  apply sort_by_sorted; [intros x y z; lia| |]; intros x y; unfold remainder_cmp;
    destruct (Z.eqb_spec x.2 y.2), (Z.gtb_spec x.2 y.2); try (intros; lia); done.
Qed.

Lemma filter_nonzero_perm l1 l2 : l1 ≡ₚ l2 ->
length (List.filter (fun r => negb (Z.eqb r 0)) l1) =
length (List.filter (fun r => negb (Z.eqb r 0)) l2).
Proof. induction 1; simpl; repeat destruct (negb _); simpl; congruence. Qed.

(** What [allocate] promises: the shares add up to the total and each is the
  exact quota rounded down or up. *)
Definition fair_shares (total denominator : Z) (weights shares : jsmap Z) : Prop :=
mkeys shares ≡ₚ mkeys weights /\ mnonneg shares /\
forall k, total * mget0 weights k - denominator < mget0 shares k * denominator
          /\ mget0 shares k * denominator < total * mget0 weights k + denominator.

Section Allocate.
Context (total denominator : Z) (weights : jsmap Z).
Context (HND : NoDup (mkeys weights)) (Hw : mnonneg weights).
Context (Ht : 0 <= total) (Hd : 0 < denominator).

Let keys := sort_strings (mkeys weights).
Let q := quota total denominator weights.
Let f := frac total denominator weights.

Lemma q_f_spec k : total * mget0 weights k = denominator * q k + f k /\ 0 <= f k < denominator
                   /\ 0 <= q k.
Proof.
    pose proof (mnonneg_get weights k Hw) as Hk. unfold q, f, quota, frac.
    assert (0 <= total * mget0 weights k) by nia. repeat split.
    - apply Z.quot_rem'.
    - apply Z.rem_bound_pos; lia.
    - apply Z.rem_bound_pos; lia.
    - by apply Z.quot_pos.
Qed.

Lemma keys_NoDup : NoDup keys.
Proof. by apply sort_by_NoDup. Qed.

Lemma sum_weights : sumZ (map (mget0 weights) keys) = msum weights.
Proof. rewrite msum_keys by done. unfold keys, sort_strings. by rewrite sort_by_perm. Qed.

Lemma sum_q_f : denominator * sumZ (map q keys) + sumZ (map f keys) = total * msum weights.
Proof.
    rewrite <-sum_weights, <-!sumZ_map_mul, <-sumZ_map_add.
    apply sumZ_map_ext. intros k _. by destruct (q_f_spec k) as [-> _].
Qed.

Lemma no_negative_weight :
  existsb (fun key => mget0 weights key <? 0) keys = false.
Proof.
    apply not_true_is_false. intros (k & _ & Hk)%existsb_exists.
    pose proof (mnonneg_get weights k Hw). lia.
Qed.

Let base := map (fun k => (k, q k)) keys.
Let rems := sort_by remainder_cmp (map (fun k => (k, f k)) keys).

Lemma base_keys : mkeys base = keys.
Proof. unfold base, mkeys. rewrite map_map. apply map_id. Qed.

Lemma rems_keys : mkeys rems ≡ₚ keys.
Proof. unfold rems, mkeys. rewrite sort_by_perm, map_map. by rewrite map_id. Qed.

Lemma base_get k : mget0 base k = if has keys k then q k else 0.
Proof.
    destruct (has keys k) eqn:E.
    - apply existsb_exists in E as (k' & Hin & ->%String.eqb_eq). unfold mget0.
      rewrite (elem_mget base k' (q k')); [done| |].
      + rewrite base_keys. apply keys_NoDup.
      + apply list_elem_of_fmap. exists k'. split; [done|]. by apply list_elem_of_In.
    - apply mget0_notin. rewrite base_keys. intros Hin%list_elem_of_In.
      assert (has keys k = true); [|congruence].
      apply existsb_exists. exists k. split; [done|apply String.eqb_refl].
Qed.

Lemma rems_get k : k ∈ keys -> mget0 rems k = f k.
Proof.
    intros Hin. unfold mget0. rewrite (elem_mget rems k (f k)); [done| |].
    - rewrite rems_keys. apply keys_NoDup.
    - unfold rems. rewrite sort_by_elem_of. apply list_elem_of_fmap. eauto.
Qed.

Lemma notin_weight k : has keys k = false -> mget0 weights k = 0.
Proof.
    intros E. apply mget0_notin. intros Hin.
    assert (has keys k = true); [|congruence].
    apply existsb_exists. exists k. split; [|apply String.eqb_refl].
    apply list_elem_of_In. unfold keys, sort_strings. by rewrite sort_by_elem_of.
Qed.

Lemma shares_fair n : fair_shares total denominator weights (distribute_extra n rems base).
Proof.
    assert (mkeys rems ⊆ mkeys base) by (rewrite base_keys; intros x; by rewrite rems_keys).
    assert (forall k, exists b, mget0 (distribute_extra n rems base) k = q k + b /\
              0 <= b /\ (b = 0 \/ b = 1 /\ f k <> 0)) as Hget.
    { intros k. destruct (distribute_extra_get n rems base k) as (b & -> & Hb).
      { rewrite rems_keys. apply keys_NoDup. }
      rewrite base_get. destruct (has keys k) eqn:E.
      - exists b. split; [done|]. apply existsb_exists in E as (k' & Hin & ->%String.eqb_eq).
        rewrite rems_get in Hb by (by apply list_elem_of_In). lia.
      - assert (mget0 rems k = 0) as Hr.
        { apply mget0_notin. rewrite rems_keys. intros Hin%list_elem_of_In.
          assert (has keys k = true); [|congruence].
          apply existsb_exists. exists k. split; [done|apply String.eqb_refl]. }
        exists 0. destruct (q_f_spec k) as (Hq & Hf & Hq0).
        rewrite (notin_weight k E) in Hq. assert (q k = 0) by nia. lia. }
    split; [|split].
    - rewrite distribute_extra_keys by done. rewrite base_keys. apply sort_by_perm.
    - apply Forall_forall. intros [k v] Hin%elem_mget.
      + destruct (Hget k) as (b & Hb & Hb0 & _). unfold mget0 in Hb. rewrite Hin in Hb.
        simpl in *. destruct (q_f_spec k) as (_ & _ & ?). lia.
      + rewrite distribute_extra_keys, base_keys by done. apply keys_NoDup.
    - intros k. destruct (Hget k) as (b & -> & _ & Hb).
      destruct (q_f_spec k) as (-> & Hf & Hq). destruct Hb as [->|[-> Hf0]]; nia.
Qed.

Lemma allocate_shares :
  msum weights = denominator ->
  exists shares, allocate total weights denominator = Ok shares /\ msum shares = total /\
    fair_shares total denominator weights shares.
Proof.
    intros Hsum. unfold allocate. fold keys. rewrite no_negative_weight.
    rewrite (allocate_base_eq _ _ _ _ keys_NoDup). fold q f base.
    pose proof sum_q_f as Hqf. rewrite Hsum in Hqf.
    assert (Forall (fun r => 0 <= r < denominator) (map f keys)) as Hfr.
    { apply Forall_map, Forall_true. intros k. apply q_f_spec. }
    assert (0 <= sumZ (map f keys)) as Hf0.
    { apply sumZ_nonneg. eapply Forall_impl; [exact Hfr|]. simpl. lia. }
    set (leftover := total - sumZ (map q keys)) in *.
    assert (0 <= leftover) by (unfold leftover; nia).
    destruct (Z.ltb_spec leftover 0); [lia|]. cbn.
    eexists. split; [reflexivity|]. split; [|apply shares_fair].
    assert (msum base = sumZ (map q keys)) as Hbase
      by (unfold msum, mvals, base; by rewrite map_map).
    assert (Hcount : (Z.to_nat leftover <=
      length (List.filter (fun r => negb (Z.eqb r 0)) (map snd rems)))%nat).
    { erewrite filter_nonzero_perm by (unfold rems; by rewrite sort_by_perm).
      rewrite map_map. apply (nonzero_count denominator); [done|done|].
      rewrite Z2Nat.id by done. unfold leftover.
      change (map (fun x => (x, f x).2) keys) with (map f keys). nia. }
    fold rems. rewrite distribute_extra_sum.
    - rewrite Hbase, Z2Nat.id by done. unfold leftover. lia.
    - etransitivity; [exact Hcount|]. etransitivity; [apply filter_length_le|].
      by rewrite length_map.
    - apply sorted_nonzero_prefix; [apply remainder_sorted| |done].
      unfold rems. rewrite sort_by_perm. apply Forall_map, Forall_true.
      intros k. destruct (q_f_spec k) as (_ & ? & _). simpl. lia.
Qed.
End Allocate.

Lemma allocateByWeights_shares total w :
NoDup (mkeys w) -> mnonneg w -> 0 <= total -> 0 < msum w ->
exists shares, allocateByWeights total w = Ok shares /\ msum shares = total /\
  fair_shares total (msum w) w shares.
Proof.
  intros HND Hw Ht Hs. unfold allocateByWeights. destruct (Z.leb_spec (msum w) 0); [lia|].
  cbn. by apply allocate_shares.
Qed.

Lemma allocateByRatio_shares total w d :
NoDup (mkeys w) -> mnonneg w -> 0 <= total -> 0 < d -> msum w = d ->
exists shares, allocateByRatio total w d = Ok shares /\ msum shares = total /\
  fair_shares total d w shares.
Proof.
  intros HND Hw Ht Hd Hs. unfold allocateByRatio. destruct (Z.leb_spec d 0); [lia|].
  cbn. by apply allocate_shares.
Qed.
End PayoutProofs.

(** * Conservation of the reward

    Each stage of [computeTeamPayout] keeps the invariant that the role
    amounts, the penalty pool and the unallocated lamports add up to the
    reward; what the penalties and the redistribution do to each role. *)
From S2P Require Import Prelude JsMap JsString TeamTypes TeamPayout.
#[local] Open Scope Z_scope.

Section Stages.
Context `{Collation}.
Context (roleIds : list string) (HND : NoDup roleIds).

(** One non-negative amount per role, in the order of [roleIds]. *)
Definition amounts (rp : jsmap Z) : Prop := mkeys rp = roleIds /\ mnonneg rp.

Lemma amounts_init : amounts (initializeRoleMap roleIds 0).
Proof. split; [by apply initializeRoleMap_keys|by apply initializeRoleMap_nonneg]. Qed.

Lemma amounts_mset rp k v : amounts rp -> k ∈ roleIds -> 0 <= v -> amounts (mset k v rp).
Proof. intros [Hk Hn] Hin Hv. split; [rewrite mkeys_mset_in|]; [done|by rewrite Hk|auto with s2core]. Qed.

Lemma amounts_merge rp d :
  amounts rp -> mkeys d ⊆ roleIds -> mnonneg d -> amounts (mergeAmounts rp d).
Proof. intros [Hk Hn] Hd Hdn. split; [rewrite mkeys_merge; [done|by rewrite Hk]|by apply mnonneg_merge]. Qed.

Lemma amounts_sum rp : amounts rp -> msum rp = sumZ (map (mget0 rp) roleIds).
Proof. intros [Hk _]. rewrite msum_keys, Hk; [done|]. by rewrite Hk. Qed.

(** ** Splitting the reward between the roles *)

Lemma numericMap_weights src :
  let m := initializeNumericRoleMap roleIds src in
  mkeys (toBigIntMap m) = roleIds /\ msum (toBigIntMap m) = sumZ (map toBigInt (mvals m)) /\
  mvals (toBigIntMap m) = map toBigInt (mvals m).
Proof.
  cbn zeta. rewrite initializeNumericRoleMap_eq by done. rewrite toBigIntMap_eq.
  2: { unfold mkeys. rewrite map_map. simpl. by rewrite map_id. }
  unfold msum, mkeys, mvals. rewrite !map_map. simpl. by rewrite map_id.
Qed.

Lemma mnonneg_vals m : Forall (fun z => 0 <= z) (mvals m) -> mnonneg m.
Proof. unfold mvals, mnonneg. apply (proj1 (Forall_map snd (fun z => 0 <= z) m)). Qed.

Lemma merge_shares total d w shares :
  mkeys w = roleIds -> msum shares = total -> fair_shares total d w shares ->
  amounts (mergeAmounts (initializeRoleMap roleIds 0) shares) /\
  msum (mergeAmounts (initializeRoleMap roleIds 0) shares) = total.
Proof.
  intros Hk Hs (Hkeys & Hn & _). split.
  - apply amounts_merge; [apply amounts_init| |done]. intros k. by rewrite Hkeys, Hk.
  - rewrite msum_merge, initializeRoleMap_sum by done. lia.
Qed.

Lemma bps_ok_int n : bps_ok n = true -> exists z, n = NInt z /\ 0 <= z <= 10000.
Proof. destruct n; simpl; [|done]. intros [? ?]%andb_true_iff. eexists. split; [done|]. lia. Qed.

Lemma realized_inv ms cps b m :
  realized ms roleIds cps = Ok (b, m) -> amounts m /\ msum m = b /\ 0 <= b.
Proof.
  unfold realized. intros HF.
  apply (foldM_inv (fun _ '(b, m) => amounts m /\ msum m = b /\ 0 <= b)) in HF; [done| |].
  { split; [apply amounts_init|]. by rewrite initializeRoleMap_sum. }
  clear -HND. intros _ c _ [b m] [b' m'] _ (Hm & Hs & Hb).
  destruct (isCompleted c); simpl; [|by intros [= <- <-]].
  intros HF. apply bind_Ok in HF as (? & Hbps & HF). unfold assertBps in Hbps.
  apply throw_if_Ok, negb_false_iff, bps_ok_int in Hbps as (z & Hz & Hr). rewrite Hz in HF.
  destruct (mget m (cs_roleId c)) as [v|] eqn:Ev; [|done]. injection HF as <- <-. simpl.
  assert (mget0 m (cs_roleId c) = v) as Hv by (unfold mget0; by rewrite Ev).
  pose proof (mnonneg_get m (cs_roleId c) (proj2 Hm)). repeat split.
  - rewrite mkeys_mset_in; [apply Hm|]. apply mget_is_Some_keys. eauto.
  - apply mnonneg_mset; [apply Hm|lia].
  - rewrite msum_mset. lia.
  - lia.
Qed.

Lemma allocateRoles_inv total mode cps rp u :
  0 <= total -> allocateRoles total mode roleIds cps = Ok (rp, u) ->
  amounts rp /\ 0 <= u /\ msum rp + u = total.
Proof.
  intros Ht HA. destruct mode as [src|src|src]; unfold allocateRoles in HA.
  - destruct (numericMap_weights src) as (Hk & Hs & Hv). bind_ok. subst.
    apply negb_false_iff, bool_decide_eq_true, sumNumbers_ints in H0 as Hsum.
    apply existsb_false in H1.
    assert (mnonneg (toBigIntMap (initializeNumericRoleMap roleIds src))) as Hn.
    { apply mnonneg_vals. rewrite Hv. apply Forall_map. eapply Forall_impl; [exact H1|].
      intros n (z & -> & ?)%negb_false_iff%bps_ok_int. simpl. lia. }
    destruct (allocateByRatio_shares total (toBigIntMap (initializeNumericRoleMap roleIds src)) 10000)
      as (shares & Heq & Hss & Hfair); [by rewrite Hk|done|done|lia|lia|].
    rewrite Heq in H2. injection H2 as <-.
    destruct (merge_shares total 10000 _ shares Hk Hss Hfair). split; [done|lia].
  - destruct (numericMap_weights src) as (Hk & Hs & Hv). bind_ok. subst.
    apply existsb_false in H1.
    destruct (sumNumbers_int (mvals (initializeNumericRoleMap roleIds src))) as [z Es].
    { eapply Forall_impl; [exact H1|]. by intros [z|]. }
    rewrite Es in H0. apply sumNumbers_ints in Es.
    assert (mnonneg (toBigIntMap (initializeNumericRoleMap roleIds src))) as Hn.
    { apply mnonneg_vals. rewrite Hv. apply Forall_map. eapply Forall_impl; [exact H1|].
      intros [y|]; simpl; lia. }
    destruct (allocateByWeights_shares total (toBigIntMap (initializeNumericRoleMap roleIds src)))
      as (shares & Heq & Hss & Hfair); [by rewrite Hk|done|done|lia|].
    rewrite Heq in H2. injection H2 as <-.
    destruct (merge_shares total _ _ shares Hk Hss Hfair). split; [done|lia].
  - apply bind_Ok in HA as ([b m] & Hr & HA). apply realized_inv in Hr as (Hm & Hs & Hb).
    bind_ok. destruct (Z.eqb_spec b 0).
    + injection HA as <- <-. split; [apply amounts_init|].
      rewrite initializeRoleMap_sum by done. lia.
    + bind_ok. subst rp u.
      assert (0 <= Z.quot (total * b) 10000) by (apply Z.quot_pos; nia).
      assert (Z.quot (total * b) 10000 <= total).
      { rewrite Z.quot_div_nonneg by nia. apply Z.div_le_upper_bound; nia. }
      destruct (allocateByRatio_shares (Z.quot (total * b) 10000) m b)
        as (shares & Heq & Hss & Hfair); try done; try lia; [by destruct Hm as [-> _]|apply Hm|].
      rewrite Heq in H1. injection H1 as <-.
      destruct (merge_shares _ _ m shares (proj1 Hm) Hss Hfair). split; [done|lia].
Qed.

(** ** Penalties *)

Lemma elem_pre_suf {A} (l pre suf : list A) x : l = pre ++ x :: suf -> x ∈ l.
Proof. intros ->. apply elem_of_app. right. constructor. Qed.

Lemma applyPenalties_inv pens failedR rp rp' pen pool :
  amounts rp -> applyPenalties pens failedR roleIds rp = Ok (rp', pen, pool) ->
  amounts rp' /\ amounts pen /\ 0 <= pool /\ msum rp' + pool = msum rp /\ msum pen = pool.
Proof.
  intros Hrp HF. unfold applyPenalties in HF.
  apply (foldM_inv (fun pre '(rp', pen, pool) => amounts rp' /\ amounts pen /\ 0 <= pool /\
    msum rp' + pool = msum rp /\ msum pen = pool /\
    forall k, k ∉ pre -> mget0 pen k = 0)) in HF; [naive_solver| |].
  { split_and!; try done; [apply amounts_init|lia|by apply initializeRoleMap_sum|].
    intros k _. unfold mget0. destruct (mget _ k) as [v|] eqn:E; [|done].
    rewrite initializeRoleMap_eq in E by done. apply mget_Some_elem in E.
    by apply list_elem_of_fmap in E as (? & [= <- <-] & _). }
  clear HF. intros pre r suf [[a b] c] [[a' b'] c'] Hl (Ha & Hb & Hc & Hs & Hps & Hz) HF.
  apply bind_Ok in HF as (? & Hbps & HF). unfold assertBps in Hbps.
  apply throw_if_Ok, negb_false_iff, bps_ok_int in Hbps as (z & Hbps & Hr). rewrite Hbps in HF.
  assert (r ∈ roleIds) as Hin by (by eapply elem_pre_suf).
  assert (r ∉ pre) as Hpre.
  { rewrite Hl in HND. apply NoDup_app in HND as (_ & Hd & _). intros Hr'. eapply Hd; [done|].
    constructor. }
  pose proof (mnonneg_get a r (proj2 Ha)) as Hga. simpl in HF.
  destruct (_ || _); injection HF as <- <- <-.
  - split_and!; try done. intros k Hk. apply Hz.
    intros ?. apply Hk, elem_of_app. auto.
  - assert (0 <= Z.quot (mget0 a r * z) 10000) by (apply Z.quot_pos; nia).
    assert (Z.quot (mget0 a r * z) 10000 <= mget0 a r).
    { rewrite Z.quot_div_nonneg by nia. apply Z.div_le_upper_bound; nia. }
    split; [apply amounts_mset; done || lia|]. split; [apply amounts_mset; done || lia|].
    rewrite !msum_mset, (Hz r Hpre). split; [lia|]. split; [lia|]. split; [lia|].
    intros k Hk. rewrite mget0_mset.
    destruct (String.eqb_spec k r) as [->|]; [|apply Hz; intros ?; apply Hk, elem_of_app; auto].
    destruct Hk. apply elem_of_app. right. constructor.
Qed.

(** What a role is charged. *)
Definition penaltyOf (pens : jsmap number) (failedR : list string) (rp : jsmap Z) (k : string) : Z :=
  if has failedR k then Z.quot (mget0 rp k * toBigInt (default (NInt 0) (mget pens k))) 10000 else 0.

Lemma applyPenalties_get pens failedR rp rp' pen pool :
  applyPenalties pens failedR roleIds rp = Ok (rp', pen, pool) ->
  forall k, k ∈ roleIds -> mget0 pen k = penaltyOf pens failedR rp k /\
    mget0 rp' k = mget0 rp k - penaltyOf pens failedR rp k.
Proof.
  intros HF k Hk. unfold applyPenalties in HF.
  set (P := fun (pre : list string) (acc : jsmap Z * jsmap Z * Z) =>
    if bool_decide (k ∈ pre)
    then mget0 acc.1.2 k = penaltyOf pens failedR rp k /\ mget0 acc.1.1 k = mget0 rp k - penaltyOf pens failedR rp k
    else mget0 acc.1.2 k = 0 /\ mget0 acc.1.1 k = mget0 rp k).
  assert (P roleIds (rp', pen, pool)) as HP; [|unfold P in HP; by rewrite bool_decide_true in HP].
  refine (foldM_inv P _ _ _ _ _ _ HF).
  - unfold P. rewrite bool_decide_false by apply not_elem_of_nil. split; [|done]. simpl.
    unfold mget0. destruct (mget _ k) as [v|] eqn:E; [|done].
    rewrite initializeRoleMap_eq in E by done. apply mget_Some_elem in E.
    by apply list_elem_of_fmap in E as (? & [= <- <-] & _).
  - clear HF. intros pre x suf [[a b] c] [[a' b'] c'] Hl Hpre HF. apply bind_Ok in HF as (? & _ & HF).
    unfold P in *. cbn [fst snd] in *. destruct (decide (k = x)) as [<-|Hne].
    + assert (k ∉ pre) as Hx.
      { rewrite Hl in HND. apply NoDup_app in HND as (_ & Hd & _). intros Hr'. eapply Hd; [done|]. constructor. }
      rewrite bool_decide_false in Hpre by done. destruct Hpre as [Hb Ha].
      rewrite bool_decide_true by (apply elem_of_app; right; constructor). unfold penaltyOf.
      destruct (has failedR k); simpl in HF; [|injection HF as <- <- _; lia].
      destruct (Z.eqb_spec (toBigInt (default (NInt 0) (mget pens k))) 0) as [Hz|Hz]; injection HF as <- <- _.
      * rewrite Hz, Z.mul_0_r. change (Z.quot 0 10000) with 0. lia.
      * rewrite !mget0_mset, String.eqb_refl, Ha. lia.
    + assert (bool_decide (k ∈ pre ++ [x]) = bool_decide (k ∈ pre)) as ->.
      { apply bool_decide_ext. rewrite elem_of_app, list_elem_of_singleton. naive_solver. }
      assert (mget0 a' k = mget0 a k /\ mget0 b' k = mget0 b k) as [-> ->]; [|done].
      destruct (_ || _); injection HF as <- <- _; [done|].
      rewrite !mget0_mset, (proj2 (String.eqb_neq k x)) by done. done.
Qed.

(** ** Redistribution *)

Definition positive_map (m : jsmap Z) : Prop :=
  NoDup (mkeys m) /\ Forall (fun kv => 0 < kv.2) m.

Lemma positive_mset m k v : positive_map m -> 0 < v -> positive_map (mset k v m).
Proof. intros [? ?] ?. split; [auto with s2core|by apply Forall_mset]. Qed.

Lemma positive_nonneg m : positive_map m -> mnonneg m.
Proof. intros [_ HF]. eapply Forall_impl; [exact HF|]. simpl. lia. Qed.

Lemma positive_sum m : positive_map m -> m <> [] -> 0 < msum m.
Proof.
  intros Hp Hne. destruct m as [|[k v] m]; [done|]. destruct Hp as [_ HF].
  inversion HF as [|? ? Hv HF']; subst. unfold msum; simpl in *.
  assert (0 <= msum m); [|unfold msum in *; lia].
  apply mnonneg_sum. eapply Forall_impl; [exact HF'|]. simpl. lia.
Qed.

Lemma eligible_inv (f : string -> bool) (g : string -> Z) :
  (forall k, f k = false -> 0 < g k) ->
  let m := foldl (fun w r => if f r then w else mset r (g r) w) [] roleIds in
  positive_map m /\ mkeys m ⊆ roleIds.
Proof.
  intros Hg. cut (forall l w, l ⊆ roleIds -> positive_map w -> mkeys w ⊆ roleIds ->
    let m := foldl (fun w r => if f r then w else mset r (g r) w) w l in
    positive_map m /\ mkeys m ⊆ roleIds).
  { intros Hc. apply Hc; [done| |intros x []%not_elem_of_nil]. split; constructor. }
  induction l as [|r l IH]; intros w Hsub Hw Hk; simpl; [done|].
  assert (l ⊆ roleIds) by (intros x Hx; apply Hsub; by constructor).
  assert (r ∈ roleIds) by (apply Hsub; constructor).
  destruct (f r) eqn:Ef; apply IH; try done.
  - apply positive_mset; auto.
  - intros x [->|Hx]%elem_mkeys_mset; auto.
Qed.

Lemma redistribute_fold rp l red :
  foldl (fun '(rp, red) kv => (mset kv.1 (mget0 rp kv.1 + kv.2) rp, red + kv.2)) (rp, red) l =
  (mergeAmounts rp l, red + msum l).
Proof.
  unfold mergeAmounts. revert rp red; induction l as [|[k v] l IH]; intros rp red; simpl.
  - unfold msum; simpl. by rewrite Z.add_0_r.
  - rewrite IH. f_equal. unfold msum, mvals; simpl. lia.
Qed.

Lemma redistribute_inv flag failedR rp pool u rp' red u' :
  amounts rp -> 0 <= pool -> 0 <= u ->
  redistribute flag failedR roleIds rp pool u = Ok (rp', red, u') ->
  amounts rp' /\ 0 <= red /\ 0 <= u' /\ msum rp' + u' = msum rp + pool + u /\
  (red = 0 \/ red = pool).
Proof.
  intros Hrp Hp Hu HF. unfold redistribute in HF.
  destruct (Z.gtb_spec pool 0); [|injection HF as <- <- <-; split_and!; done || lia].
  simpl in HF. case_bool_decide; [injection HF as <- <- <-; split_and!; done || lia|].
  match type of HF with context [(length ?e =? 0)%nat] => set (elig := e) in HF end.
  destruct (eligible_inv (fun r => has failedR r || (mget0 rp r <=? 0)) (mget0 rp)) as [He Hk].
  { intros k ?%orb_false_iff. lia. }
  fold elig in He, Hk. destruct elig as [|e0 elig'] eqn:Ee.
  { simpl in HF. injection HF as <- <- <-; split_and!; done || lia. }
  rewrite <-Ee in *. cbn [length Nat.eqb] in HF.
  assert (length elig =? 0 = false)%nat as Hl by (rewrite Ee; done). rewrite Hl in HF.
  destruct (allocateByWeights_shares pool elig) as (shares & Heq & Hss & Hsk & Hsn & _).
  { apply He. } { by apply positive_nonneg. } { lia. }
  { apply positive_sum; [done|]. by rewrite Ee. }
  rewrite Heq in HF. cbn in HF. rewrite redistribute_fold in HF. injection HF as <- <- <-.
  split; [apply amounts_merge; [done| |done]; intros x; rewrite Hsk; apply Hk|].
  rewrite msum_merge. lia.
Qed.

Lemma mergeAmounts_get rp d k :
  mnonneg d -> mget0 rp k <= mget0 (mergeAmounts rp d) k /\ (k ∉ mkeys d -> mget0 (mergeAmounts rp d) k = mget0 rp k).
Proof.
  unfold mergeAmounts. intros Hd. revert rp. induction Hd as [|[x v] d Hv _ IH]; intros rp; simpl; [done|].
  destruct (IH (mset x (mget0 rp x + v) rp)) as [H1 H2]. rewrite mget0_mset in H1, H2. simpl in Hv.
  destruct (String.eqb_spec k x) as [Heq|Hne]; [subst x|].
  - split; [lia|]. intros Hn. destruct Hn. constructor.
  - split; [done|]. intros Hn. apply H2. intros Hd'. apply Hn. by constructor.
Qed.

(** Redistribution only adds, and nothing to a failed role. *)
Lemma redistribute_get flag failedR rp pool u rp' red u' k :
  amounts rp -> redistribute flag failedR roleIds rp pool u = Ok (rp', red, u') ->
  mget0 rp k <= mget0 rp' k /\ (has failedR k = true -> mget0 rp' k = mget0 rp k).
Proof.
  intros Hrp HF. unfold redistribute in HF.
  destruct (Z.gtb_spec pool 0) as [Hp|]; [|injection HF as <- _ _; split; [lia|done]].
  simpl in HF. case_bool_decide; [injection HF as <- _ _; split; [lia|done]|].
  match type of HF with context [(length ?e =? 0)%nat] => set (elig := e) in HF end.
  destruct (eligible_inv (fun r => has failedR r || (mget0 rp r <=? 0)) (mget0 rp)) as [He _].
  { intros k' ?%orb_false_iff. lia. }
  assert (has failedR k = true -> k ∉ mkeys elig) as Hfk.
  { intros Hf. unfold elig. assert (k ∉ mkeys ([] : jsmap Z)) as Hn by apply not_elem_of_nil. revert Hn.
    generalize ([] : jsmap Z). generalize roleIds. intros l. induction l as [|r l IH]; intros m Hn; simpl; [done|].
    apply IH. destruct (has failedR r) eqn:Hr; simpl; [done|]. destruct (mget0 rp r <=? 0); [done|].
    intros [->|Hin]%elem_mkeys_mset; congruence. }
  fold elig in He. destruct elig as [|e0 elig'] eqn:Ee; [injection HF as <- _ _; split; [lia|done]|].
  rewrite <-Ee in *. assert (length elig =? 0 = false)%nat as Hl by (rewrite Ee; done). rewrite Hl in HF.
  destruct (allocateByWeights_shares pool elig) as (shares & Heq & Hss & Hsk & Hsn & _).
  { apply He. } { by apply positive_nonneg. } { lia. } { apply positive_sum; [done|]. by rewrite Ee. }
  rewrite Heq in HF. cbn in HF. rewrite redistribute_fold in HF. injection HF as <- _ _.
  destruct (mergeAmounts_get rp shares k Hsn) as [H1 H2]. split; [done|]. intros Hf. apply H2. rewrite Hsk. by apply Hfk.
Qed.
End Stages.

(** ** Splitting a role's amount between its members *)

Section Members.
Context `{Collation}.
Implicit Types members : list string.

Lemma mkeys_merge_elem t d k :
  k ∈ mkeys (mergeAmounts t d) -> k ∈ mkeys t \/ k ∈ mkeys d.
Proof.
  unfold mergeAmounts. revert t; induction d as [|[k1 v] d IH]; intros t; simpl; [auto|].
  intros [Hk|Hk]%IH; [|right; by constructor].
  apply elem_mkeys_mset in Hk as [->|]; [right; constructor|auto].
Qed.

Lemma initializeRoleMap_get members c k :
  mget (initializeRoleMap members c) k = if has members k then Some c else None.
Proof.
  unfold initializeRoleMap.
  cut (forall m, mget (foldl (fun out r => mset r c out) m members) k =
         if has members k then Some c else mget m k).
  { intros Hc. apply Hc. }
  induction members as [|a members IH]; intros m; simpl; [done|].
  rewrite IH, mget_mset. unfold has at 2; simpl. fold (has members k).
  by destruct (String.eqb_spec k a), (has members k).
Qed.

Definition weights_of members (w : jsmap Z) : Prop :=
  NoDup (mkeys w) /\ mnonneg w /\ forall k, k ∈ mkeys w <-> k ∈ members.

Lemma initializeRoleMap_weights members c : 0 <= c -> weights_of members (initializeRoleMap members c).
Proof.
  intros Hc. split_and!; [|by apply initializeRoleMap_nonneg|].
  - unfold initializeRoleMap.
    cut (forall m, NoDup (mkeys m) -> NoDup (mkeys (foldl (fun out r => mset r c out) m members))).
    { intros Hm. apply Hm. constructor. }
    induction members as [|a members IH]; intros m Hm; simpl; [done|]. apply IH. auto with s2core.
  - intros k. rewrite <-mget_is_Some_keys, initializeRoleMap_get, <-has_true.
    by destruct (has members k); split; intros; naive_solver.
Qed.

Lemma contributionWeights_inv cps r members : weights_of members (contributionWeights cps r members).
Proof.
  unfold contributionWeights. cut (forall w, weights_of members w -> weights_of members
    (foldl (fun w c => if negb (String.eqb (cs_roleId c) r) || negb (isCompleted c) then w else
      match completedBy c with None => w | Some m => if isEmpty m then w
        else if mhas w m then mset m (mget0 w m + 1) w else w end) w cps)).
  { intros Hc. apply Hc, initializeRoleMap_weights. lia. }
  induction cps as [|c cps IH]; intros w Hw; simpl; [done|]. apply IH.
  destruct (_ || _); [done|]. destruct (completedBy c) as [m|]; [|done].
  destruct (isEmpty m); [done|]. destruct (mhas w m) eqn:Em; [|done].
  destruct Hw as (HND & Hn & Hk). pose proof (mnonneg_get w m Hn). split_and!.
  - auto with s2core.
  - apply mnonneg_mset; [done|lia].
  - intros k. rewrite mkeys_mset, Em. apply Hk.
Qed.

Lemma mnonneg_sum_pos m :
  NoDup (mkeys m) -> 0 < msum m -> exists k, k ∈ mkeys m /\ 0 < mget0 m k.
Proof.
  intros HND Hs. rewrite msum_keys in Hs by done. revert Hs. generalize (mkeys m). clear HND.
  induction l as [|k l IH]; simpl; [lia|]. intros Hs.
  destruct (Z.ltb_spec 0 (mget0 m k)); [exists k; split; [constructor|done]|].
  destruct IH as (k' & Hin & Hk'); [lia|]. exists k'. split; [by constructor|done].
Qed.

Lemma effectiveWeights_inv cps r members :
  members <> [] ->
  let w := effectiveWeights cps r members in
  positive_map w /\ w <> [] /\ mkeys w ⊆ members.
Proof.
  intros Hne. unfold effectiveWeights. cbn zeta.
  destruct (contributionWeights_inv cps r members) as (HND & Hn & Hk).
  set (w := contributionWeights cps r members) in *. destruct (Z.gtb_spec (msum w) 0) as [Hs|Hs].
  - destruct (eligible_inv members (fun m => negb (mget0 w m >? 0)) (mget0 w)) as [Hp Hsub].
    { intros k Hk'%negb_false_iff. lia. }
    rewrite (foldl_ext _ (fun w0 m => if mget0 w m >? 0 then mset m (mget0 w m) w0 else w0))
      in Hp, Hsub by (intros; by destruct (_ >? _)).
    split_and!; [done| |done].
    destruct (mnonneg_sum_pos w HND ltac:(lia)) as (k & Hin%Hk & Hpos). intros E.
    cut (forall l w0, k ∈ l -> k ∈ mkeys (foldl (fun w0 m =>
      if mget0 w m >? 0 then mset m (mget0 w m) w0 else w0) w0 l)).
    { intros Hc. specialize (Hc members [] Hin). rewrite E in Hc. by apply not_elem_of_nil in Hc. }
    clear -Hpos. assert (forall l w0, k ∈ mkeys w0 -> k ∈ mkeys (foldl (fun w0 m =>
      if mget0 w m >? 0 then mset m (mget0 w m) w0 else w0) w0 l)) as Hmono.
    { induction l; intros w0 Hw0; simpl; [done|]. apply IHl.
      destruct (_ >? _); [|done]. apply elem_mkeys_mset. auto. }
    induction l as [|a l IH]; intros w0; [by intros ?%not_elem_of_nil|].
    intros [->|Hin]%elem_of_cons; simpl; [|by apply IH].
    destruct (Z.gtb_spec (mget0 w a) 0); [|lia]. apply Hmono, elem_mkeys_mset. auto.
  - destruct (initializeRoleMap_weights members 1 ltac:(lia)) as (HND1 & _ & Hk1). split_and!.
    + split; [done|]. apply Forall_forall. intros [k v] Hin%elem_mget; [|done].
      rewrite initializeRoleMap_get in Hin. destruct (has members k); [|done].
      injection Hin as <-. simpl. lia.
    + intros E. rewrite E in Hk1. destruct members as [|a ?]; [done|].
      assert (a ∈ mkeys ([] : jsmap Z)) as Ha by (apply Hk1; constructor).
      by apply not_elem_of_nil in Ha.
    + intros k. apply Hk1.
Qed.

(** The completed checkpoints of role [r] that member [k] completed. *)
Definition contributions (cps : list TeamCheckpointState) (r k : string) : list TeamCheckpointState :=
  List.filter (fun c => String.eqb (cs_roleId c) r && isCompleted c &&
    bool_decide (completedBy c = Some k) && negb (isEmpty k)) cps.

Lemma contributionWeights_get cps r members k :
  mget0 (contributionWeights cps r members) k =
    if has members k then Z.of_nat (length (contributions cps r k)) else 0.
Proof.
  unfold contributionWeights. cut (forall w, weights_of members w ->
    mget0 (foldl (fun w c => if negb (String.eqb (cs_roleId c) r) || negb (isCompleted c) then w else
      match completedBy c with None => w | Some m => if isEmpty m then w
        else if mhas w m then mset m (mget0 w m + 1) w else w end) w cps) k =
    mget0 w k + if has members k then Z.of_nat (length (contributions cps r k)) else 0).
  { intros Hc. rewrite Hc by (apply initializeRoleMap_weights; lia).
    unfold mget0 at 1. rewrite initializeRoleMap_get. by destruct (has members k). }
  induction cps as [|c cps IH]; intros w Hw; simpl; [by destruct (has members k); lia|].
  set (w' := if _ || _ then w else _).
  assert (weights_of members w') as Hw'.
  { unfold w'. destruct (_ || _); [done|]. destruct (completedBy c) as [m|]; [|done].
    destruct (isEmpty m); [done|]. destruct (mhas w m) eqn:Em; [|done].
    destruct Hw as (HND & Hn & Hk). pose proof (mnonneg_get w m Hn).
    split_and!; [auto with s2core|apply mnonneg_mset; [done|lia]|].
    intros k'. rewrite mkeys_mset, Em. apply Hk. }
  rewrite (IH w' Hw'). unfold contributions; cbn [List.filter]; fold (contributions cps r k). unfold w'.
  destruct (String.eqb (cs_roleId c) r), (isCompleted c); simpl; try done.
  destruct (completedBy c) as [m|]; [|by rewrite bool_decide_false].
  destruct (decide (m = k)) as [->|Hne].
  - rewrite bool_decide_true by done. destruct (isEmpty k); simpl; [done|].
    assert (mhas w k = has members k) as ->.
    { apply eq_bool_prop_intro. rewrite !Is_true_true, mhas_true, has_true. apply Hw. }
    destruct (has members k); [|lia]. rewrite mget0_mset, String.eqb_refl. lia.
  - rewrite bool_decide_false by congruence. simpl. destruct (isEmpty m), (mhas w m); try done.
    by rewrite mget0_mset, (proj2 (String.eqb_neq k m)) by done.
Qed.

(** Who shares a role's amount: a member who completed one of the role's
    checkpoints, or any member if none of them did. *)
Definition entitled (cps : list TeamCheckpointState) (r : string) members (k : string) : Prop :=
  k ∈ members /\ (contributions cps r k <> [] \/ forall m, m ∈ members -> contributions cps r m = []).

Lemma effectiveWeights_entitled cps r members k :
  k ∈ mkeys (effectiveWeights cps r members) -> entitled cps r members k.
Proof.
  unfold effectiveWeights. destruct (contributionWeights_inv cps r members) as (HND & Hn & Hk).
  pose proof (contributionWeights_get cps r members) as Hg.
  set (w := contributionWeights cps r members) in *. destruct (Z.gtb_spec (msum w) 0) as [Hs|Hs].
  - cut (forall l w0, k ∈ mkeys (foldl (fun w0 m =>
      if mget0 w m >? 0 then mset m (mget0 w m) w0 else w0) w0 l) -> k ∈ mkeys w0 \/ 0 < mget0 w k).
    { intros Hc [[]%not_elem_of_nil|Hpos]%Hc. rewrite Hg in Hpos.
      destruct (has members k) eqn:Ek; [|lia]. split; [by apply has_true|]. left. intros E.
      rewrite E in Hpos. simpl in Hpos. lia. }
    induction l as [|a l IH]; intros w0; simpl; [auto|]. intros [Hin|?]%IH; [|auto].
    destruct (Z.gtb_spec (mget0 w a) 0); [|auto]. apply elem_mkeys_mset in Hin as [->|]; [right; lia|auto].
  - intros Hin. apply initializeRoleMap_weights in Hin; [|lia]. split; [done|]. right. intros m Hm.
    destruct (contributions cps r m) as [|c l] eqn:E; [done|]. exfalso.
    assert (0 < mget0 w m) as Hpos by (rewrite Hg, (proj2 (has_true _ _) Hm), E; simpl; lia).
    rewrite (msum_keys w HND) in Hs. apply Hk in Hm.
    assert (mget0 w m <= sumZ (map (mget0 w) (mkeys w))); [|lia].
    apply sumZ_elem_le; [|by apply list_elem_of_fmap; eauto].
    apply Forall_map, Forall_forall. intros k' _. by apply mnonneg_get.
Qed.

Lemma payMembers_inv cps ra roleIds rp u mp u' :
  mnonneg rp -> 0 <= u -> payMembers cps ra roleIds rp u = Ok (mp, u') ->
  mnonneg mp /\ u <= u' /\ msum mp + u' = sumZ (map (mget0 rp) roleIds) + u /\
  forall k, k ∈ mkeys mp ->
    exists r, r ∈ roleIds /\ 0 < mget0 rp r /\ entitled cps r (default [] (mget ra r)) k.
Proof.
  intros Hrp Hu HF. unfold payMembers in HF.
  apply (foldM_inv (fun pre '(mp, u') => mnonneg mp /\ u <= u' /\
    msum mp + u' = sumZ (map (mget0 rp) pre) + u /\
    forall k, k ∈ mkeys mp ->
    exists r, r ∈ roleIds /\ 0 < mget0 rp r /\ entitled cps r (default [] (mget ra r)) k)) in HF; [done| |].
  { split_and!; [constructor|lia|done|by intros k []%not_elem_of_nil]. }
  clear HF. intros pre r suf [a b] [a' b'] Hl%elem_pre_suf (Ha & Hb & Hs & Hk) HF.
  rewrite map_app, sumZ_app. simpl. pose proof (mnonneg_get rp r Hrp) as Hr.
  destruct (Z.eqb_spec (mget0 rp r) 0); [injection HF as <- <-; split_and!; done || lia|].
  destruct (sort_strings _) as [|m0 ms] eqn:Em.
  { injection HF as <- <-; split_and!; done || lia. }
  rewrite <-Em in *. apply bind_Ok in HF as (al & Hal & HF). injection HF as <- <-.
  destruct (effectiveWeights_inv cps r (m0 :: ms)) as (Hp & Hne & Hsub); [done|].
  rewrite <-Em in Hp, Hne, Hsub.
  destruct (allocateByWeights_shares (mget0 rp r) _ (proj1 Hp) (positive_nonneg _ Hp) Hr
    (positive_sum _ Hp Hne)) as (shares & Heq & Hss & Hsk & Hsn & _).
  rewrite Heq in Hal. injection Hal as <-. split_and!.
  - by apply mnonneg_merge.
  - lia.
  - rewrite msum_merge. lia.
  - intros k [?|Hin]%mkeys_merge_elem; [auto|]. exists r. split_and!; [done|lia|].
    rewrite Hsk in Hin. apply effectiveWeights_entitled in Hin. unfold entitled, sort_strings in *.
    setoid_rewrite sort_by_elem_of in Hin. done.
Qed.
End Members.
