(* ===== verification/TeamPayoutSpec.v ===== *)
(** * Properties of the payout computation

    When [computeTeamPayout] succeeds, and what a successful computation
    promises about the reward. *)
From S2P Require Import Prelude JsMap JsString TeamTypes TeamPayout TeamPayoutStages.
#[local] Open Scope Z_scope.

Section Success.
Context `{Collation}.
Context (roleIds : list string) (HND : NoDup roleIds).

(** The configuration values the modes read for the roles of the template. *)
Definition role_values (src : jsmap number) : list number :=
  map (fun r => default (NInt 0) (mget src r)) roleIds.

Definition nonneg_int (n : number) : bool :=
  match n with NInt z => 0 <=? z | NOther => false end.

(** A payout mode [computeTeamPayout] accepts. *)
Definition mode_ok (mode : PayoutMode) (cps : list TeamCheckpointState) : bool :=
  match mode with
  | Fixed src => forallb bps_ok (role_values src)
                 && (sumZ (map toBigInt (role_values src)) =? 10000)
  | Weighted src => forallb nonneg_int (role_values src)
                    && (0 <? sumZ (map toBigInt (role_values src)))
  | Milestone src =>
      let done := List.filter isCompleted cps in
      let bps c := default (NInt 0) (mget src (cs_id c)) in
      forallb (fun c => bps_ok (bps c) && has roleIds (cs_roleId c)) done
      && (sumZ (map (fun c => toBigInt (bps c)) done) <=? 10000)
  end.

Definition penalties_ok (pens : jsmap number) : bool :=
  forallb (fun r => bps_ok (default (NInt 0) (mget pens r))) roleIds.

Lemma numericMap_vals src : mvals (initializeNumericRoleMap roleIds src) = role_values src.
Proof. rewrite initializeNumericRoleMap_eq by done. unfold mvals. by rewrite map_map. Qed.

Lemma sumNumbers_eq l :
  forallb isInteger l = true -> sumNumbers l = NInt (sumZ (map toBigInt l)).
Proof.
  intros Hl. destruct (sumNumbers_int l) as [z Hz].
  - apply Forall_forall. intros n Hn%list_elem_of_In. rewrite forallb_forall in Hl. auto.
  - rewrite Hz. by apply sumNumbers_ints in Hz as ->.
Qed.

Lemma forallb_impl {A} (p q : A -> bool) l :
  (forall x, p x = true -> q x = true) -> forallb p l = true -> forallb q l = true.
Proof. rewrite !forallb_forall. eauto. Qed.

Lemma existsb_negb {A} (p : A -> bool) l : existsb (fun x => negb (p x)) l = negb (forallb p l).
Proof. induction l; simpl; [done|]. by rewrite IHl, negb_andb. Qed.

Lemma realized_is_Ok src cps :
  is_Ok (realized src roleIds cps) =
  forallb (fun c => negb (isCompleted c) ||
    (bps_ok (default (NInt 0) (mget src (cs_id c))) && has roleIds (cs_roleId c))) cps.
Proof.
  unfold realized. apply (foldM_is_Ok (fun '(_, m) => mkeys m = roleIds)).
  - by apply initializeRoleMap_keys.
  - intros [b m] c _ Hm. destruct (isCompleted c); [|done]. simpl. unfold assertBps.
    rewrite is_Ok_bind. destruct (bps_ok _); simpl; [|done].
    destruct (mget m (cs_roleId c)) eqn:E; simpl; symmetry.
    + apply has_true. rewrite <-Hm. apply mget_is_Some_keys. eauto.
    + apply has_false. rewrite <-Hm. by apply mget_None_keys.
  - intros [b m] c [b' m'] _ Hm. destruct (isCompleted c); [|by intros [= <- <-]]. simpl.
    intros HF. apply bind_Ok in HF as (? & _ & HF).
    destruct (mget m (cs_roleId c)) eqn:E; [|done]. injection HF as <- <-.
    rewrite mkeys_mset_in; [done|]. apply mget_is_Some_keys. eauto.
Qed.

Lemma realized_value src cps b m :
  realized src roleIds cps = Ok (b, m) ->
  b = sumZ (map (fun c => toBigInt (default (NInt 0) (mget src (cs_id c))))
        (List.filter isCompleted cps)).
Proof.
  unfold realized. intros HF.
  apply (foldM_inv (fun pre '(b, _) => b =
    sumZ (map (fun c => toBigInt (default (NInt 0) (mget src (cs_id c))))
      (List.filter isCompleted pre)))) in HF; [done|done|].
  clear HF. intros pre c _ [a m'] [a' m''] _ -> HF. rewrite List.filter_app, map_app, sumZ_app. simpl.
  destruct (isCompleted c); simpl in *; [|injection HF as <- _; lia].
  apply bind_Ok in HF as (? & _ & HF). destruct (mget m' _); [|done]. injection HF as <- _. lia.
Qed.

Lemma allocateRoles_is_Ok total mode cps :
  0 <= total -> is_Ok (allocateRoles total mode roleIds cps) = mode_ok mode cps.
Proof.
  intros Ht. destruct mode as [src|src|src]; unfold allocateRoles, mode_ok.
  - destruct (numericMap_weights roleIds HND src) as (Hk & Hs & Hv).
    rewrite numericMap_vals in Hs, Hv |- *. rewrite existsb_negb, !is_Ok_bind.
    destruct (forallb bps_ok (role_values src)) eqn:Eb.
    + rewrite sumNumbers_eq by (eapply forallb_impl; [|exact Eb]; by intros [z|]).
      case_bool_decide as E; simpl; [|symmetry; apply Z.eqb_neq; congruence].
      injection E as E. rewrite E. simpl. unfold mbind, result_bind.
      destruct (allocateByRatio_shares total (toBigIntMap (initializeNumericRoleMap roleIds src)) 10000)
        as (sh & -> & _); [by rewrite Hk| |done|lia|lia|done].
      apply mnonneg_vals. rewrite Hv. apply Forall_map, Forall_forall.
      intros n Hn%list_elem_of_In. rewrite forallb_forall in Eb.
      apply Eb, bps_ok_int in Hn as (z & -> & ?). simpl; lia.
    + destruct (negb _); [done|]. by rewrite ?is_Ok_bind.
  - destruct (numericMap_weights roleIds HND src) as (Hk & Hs & Hv).
    rewrite numericMap_vals in Hs, Hv |- *.
    replace (existsb _ (role_values src)) with (negb (forallb nonneg_int (role_values src))).
    2: { rewrite <-existsb_negb. generalize (role_values src). clear.
         induction l as [|[z|] l IH]; simpl; [done| |done]. rewrite IH. f_equal. lia. }
    rewrite !is_Ok_bind. destruct (forallb nonneg_int (role_values src)) eqn:Eb.
    + rewrite sumNumbers_eq by (eapply forallb_impl; [|exact Eb]; by intros [z|]).
      destruct (Z.leb_spec (sumZ (map toBigInt (role_values src))) 0); simpl;
        [symmetry; apply Z.ltb_ge; lia|]. unfold mbind, result_bind.
      destruct (allocateByWeights_shares total (toBigIntMap (initializeNumericRoleMap roleIds src)))
        as (sh & -> & _); [by rewrite Hk| |done|lia|symmetry; apply Z.ltb_lt; lia].
      apply mnonneg_vals. rewrite Hv. apply Forall_map, Forall_forall.
      intros n Hn%list_elem_of_In. rewrite forallb_forall in Eb.
      apply Eb in Hn. destruct n; simpl in *; lia.
    + destruct (match _ with NInt _ => _ | NOther => _ end); [done|]. by rewrite ?is_Ok_bind.
  - rewrite is_Ok_bind. pose proof (realized_is_Ok src cps) as Hok.
    replace (forallb _ (List.filter isCompleted cps)) with (is_Ok (realized src roleIds cps)).
    2: { rewrite Hok. clear. induction cps as [|c cps IH]; simpl; [done|].
         destruct (isCompleted c); simpl; by rewrite IH. }
    destruct (realized src roleIds cps) as [[b m]|] eqn:Er; [|done]. simpl.
    apply realized_value in Er as Hb. rewrite <-Hb.
    apply (realized_inv roleIds HND) in Er as (Hm & Hs & Hb0). rewrite is_Ok_bind, Z.gtb_ltb.
    destruct (Z.ltb_spec 10000 b); simpl; [symmetry; apply Z.leb_gt; lia|].
    rewrite (proj2 (Z.leb_le b 10000)) by lia. destruct (Z.eqb_spec b 0); [done|].
    unfold mbind, result_bind.
    destruct (allocateByRatio_shares (Z.quot (total * b) 10000) m b) as (sh & -> & _);
      try done; try lia; [by destruct Hm as [-> _]|apply Hm|apply Z.quot_pos; nia].
Qed.

Lemma applyPenalties_is_Ok pens failedR rp :
  is_Ok (applyPenalties pens failedR roleIds rp) = penalties_ok pens.
Proof.
  apply (foldM_is_Ok (fun _ => True)); [done| |done].
  intros [[a b] c] r _ _. rewrite is_Ok_bind. unfold assertBps.
  destruct (bps_ok _); simpl; [|done]. by destruct (_ || _).
Qed.

Lemma redistribute_is_Ok flag failedR rp pool u :
  amounts roleIds rp -> 0 <= pool ->
  is_Ok (redistribute flag failedR roleIds rp pool u) = true.
Proof.
  intros Hrp Hp. unfold redistribute. destruct (negb _); [done|]. case_bool_decide; [done|].
  destruct (eligible_inv roleIds (fun r => has failedR r || (mget0 rp r <=? 0)) (mget0 rp))
    as [He Hk]. { intros k ?%orb_false_iff. lia. }
  match goal with |- context [(length ?e =? 0)%nat] => set (elig := e) in * end.
  destruct (Nat.eqb_spec (length elig) 0); [done|]. rewrite is_Ok_bind.
  destruct (allocateByWeights_shares pool elig) as (sh & -> & _); [apply He| |done| |done].
  - by apply positive_nonneg.
  - apply positive_sum; [done|]. by intros ->.
Qed.

Lemma payMembers_is_Ok cps ra rp u :
  mnonneg rp -> is_Ok (payMembers cps ra roleIds rp u) = true.
Proof.
  intros Hrp. unfold payMembers. rewrite (foldM_is_Ok (fun _ => True) (fun _ => true));
    [|done| |done]; [by apply forallb_forall|].
  intros [a b] r _ _. destruct (_ =? 0); [done|].
  destruct (sort_strings _) as [|m0 ms] eqn:Em; [done|]. rewrite is_Ok_bind.
  destruct (effectiveWeights_inv cps r (m0 :: ms)) as (Hp & Hne & _); [done|].
  destruct (allocateByWeights_shares (mget0 rp r) _ (proj1 Hp) (positive_nonneg _ Hp)
    (mnonneg_get rp r Hrp) (positive_sum _ Hp Hne)) as (sh & -> & _). done.
Qed.
End Success.

(** ** Properties *)

Section Properties.
Context `{Collation}.

(** The roles of the template have distinct ids, as validation ensures. *)
Definition distinct_roles (t : TeamTemplate) : Prop := NoDup (map role_id (roles t)).

(** The inputs [computeTeamPayout] accepts. *)
Definition payout_input_ok (input : TeamPayoutComputationInput) : bool :=
  let t := in_template input in
  let ids := map role_id (roles t) in
  (0 <=? in_totalRewardLamports input)
  && mode_ok (sort_strings ids) (payout_mode (payout t)) (mvals (in_checkpoints input))
  && penalties_ok (sort_strings ids) (default [] (roleFailurePenaltyBps (payout t))).

(** The stages of a successful computation, with what each of them keeps. *)
Lemma payout_stages input r :
  distinct_roles (in_template input) -> computeTeamPayout input = Ok r ->
  let ids := sort_strings (map role_id (roles (in_template input))) in
  0 <= in_totalRewardLamports input /\ amounts ids (rolePayouts r) /\
  amounts ids (rolePenalties r) /\ mnonneg (memberPayouts r) /\
  0 <= unallocatedLamports r /\ 0 <= redistributedLamports r /\
  msum (memberPayouts r) + unallocatedLamports r = in_totalRewardLamports input /\
  (redistributedLamports r = 0 \/ redistributedLamports r = msum (rolePenalties r)) /\
  (forall k, k ∈ mkeys (memberPayouts r) ->
     exists role, role ∈ map role_id (roles (in_template input)) /\ 0 < mget0 (rolePayouts r) role /\
       entitled (mvals (in_checkpoints input)) role (default [] (mget (in_roleAssignments input) role)) k).
Proof.
  intros HND HC ids.
  assert (NoDup ids) as HNDi by (by apply sort_by_NoDup). unfold computeTeamPayout in HC.
  fold ids in HC. apply bind_Ok in HC as (? & Ht & HC). apply throw_if_Ok in Ht.
  assert (0 <= in_totalRewardLamports input) as Ht' by lia.
  apply bind_Ok in HC as ([rp u] & H1 & HC). apply bind_Ok in HC as ([[rp2 pen] pool] & H2 & HC).
  apply bind_Ok in HC as ([[rp3 red] u2] & H3 & HC). apply bind_Ok in HC as ([mp u3] & H4 & HC).
  injection HC as <-. cbn [rolePayouts rolePenalties memberPayouts unallocatedLamports
    redistributedLamports].
  apply allocateRoles_inv in H1 as (A1 & Hu & S1); [|done..].
  apply applyPenalties_inv in H2 as (A2 & Ap & Hp & S2 & Sp); [|done..].
  apply redistribute_inv in H3 as (A3 & Hr & Hu2 & S3 & Hred); [|done..].
  apply payMembers_inv in H4 as (Hm & Hu3 & S4 & Hk); [|apply A3|done].
  rewrite <-(amounts_sum ids HNDi rp3 A3) in S4.
  split_and!; try done; try lia.
  intros k (role & Hin & Hrole)%Hk. exists role. split; [|done].
  unfold ids, sort_strings in Hin. by rewrite sort_by_elem_of in Hin.
Qed.

(** C1. Conservation: whatever the payout mode, penalties and assignments, a
    computed payout gives every lamport of the reward either to a member or to
    the reported unallocated amount, and no share is negative. *)
Theorem payout_conserves_reward (input : TeamPayoutComputationInput) (r : TeamPayoutResult) :
  distinct_roles (in_template input) -> computeTeamPayout input = Ok r ->
  msum (memberPayouts r) + unallocatedLamports r = in_totalRewardLamports input /\
  mnonneg (memberPayouts r) /\ 0 <= unallocatedLamports r.
Proof. intros HND HC. by destruct (payout_stages input r HND HC) as (_ & _ & _ & ? & ? & _ & ? & _). Qed.

(** C4. [computeTeamPayout] returns a payout exactly for the inputs with a
    non-negative reward, a well-formed mode (fixed basis points that are
    integers in range adding up to 10000, non-negative integer weights with a
    positive sum, or milestone basis points in range of at most 10000 realised
    on known roles) and failure penalties in range; in particular it never
    fails on its internal allocation checks. *)
Theorem payout_succeeds_iff (input : TeamPayoutComputationInput) :
  distinct_roles (in_template input) ->
  is_Ok (computeTeamPayout input) = payout_input_ok input.
Proof.
  intros HND. unfold computeTeamPayout, payout_input_ok.
  set (ids := sort_strings (map role_id (roles (in_template input)))).
  assert (NoDup ids) as HNDi by (by apply sort_by_NoDup).
  rewrite is_Ok_bind. destruct (Z.ltb_spec (in_totalRewardLamports input) 0) as [Hlt|Hge].
  { simpl. by destruct (Z.leb_spec 0 (in_totalRewardLamports input)); [lia|]. }
  rewrite (proj2 (Z.leb_le 0 (in_totalRewardLamports input))) by lia. simpl.
  rewrite <-(allocateRoles_is_Ok ids HNDi (in_totalRewardLamports input)) by lia.
  rewrite is_Ok_bind.
  destruct (allocateRoles _ _ _ _) as [[rp u]|] eqn:E1; [|done].
  apply allocateRoles_inv in E1 as (A1 & Hu & _); [|done|lia]. cbn [is_Ok andb].
  rewrite <-(applyPenalties_is_Ok ids _ (failedRoles (mvals (in_checkpoints input))) rp).
  rewrite is_Ok_bind.
  destruct (applyPenalties _ _ _ _) as [[[rp2 pen] pool]|] eqn:E2; [|done].
  apply applyPenalties_inv in E2 as (A2 & _ & Hp & _); [|done..].
  rewrite is_Ok_bind.
  pose proof (redistribute_is_Ok ids (redistributePenalties (payout (in_template input)))
    (failedRoles (mvals (in_checkpoints input))) rp2 pool u A2 Hp) as H3.
  destruct (redistribute _ _ _ _ _ _) as [[[rp3 red] u2]|] eqn:E3; [|done].
  apply redistribute_inv in E3 as (A3 & _); [|done..]. rewrite is_Ok_bind.
  pose proof (payMembers_is_Ok ids (mvals (in_checkpoints input)) (in_roleAssignments input)
    rp3 u2 (proj2 A3)) as H4.
  by destruct (payMembers _ _ _ _ _) as [[mp u3]|].
Qed.

(** Who is paid: a member receives something only through a role of the
    template with a positive amount that the member is assigned to, and only if
    the member completed a checkpoint of that role, or no member of the role
    did. *)
Theorem payout_pays_assigned_members (input : TeamPayoutComputationInput) (r : TeamPayoutResult) k :
  distinct_roles (in_template input) -> computeTeamPayout input = Ok r ->
  k ∈ mkeys (memberPayouts r) ->
  exists role, let members := default [] (mget (in_roleAssignments input) role) in
    role ∈ map role_id (roles (in_template input)) /\ 0 < mget0 (rolePayouts r) role /\ k ∈ members /\
    (contributions (mvals (in_checkpoints input)) role k <> [] \/
     forall m, m ∈ members -> contributions (mvals (in_checkpoints input)) role m = []).
Proof.
  intros HND HC. destruct (payout_stages input r HND HC) as (_ & _ & _ & _ & _ & _ & _ & _ & Hk).
  apply Hk.
Qed.

(** The failure penalties: on top of the amounts [allocateRoles] gives the
    roles, a role with a failed checkpoint loses exactly its configured basis
    points, rounded down, and gains nothing from the redistribution; a role
    without one has no penalty and never ends below its allocation; the
    redistributed amount is nothing or the whole of the penalties, and every
    role's payout and penalty is non-negative. *)
Theorem payout_penalties (input : TeamPayoutComputationInput) (r : TeamPayoutResult) :
  let t := in_template input in
  let cps := mvals (in_checkpoints input) in
  let ids := sort_strings (map role_id (roles t)) in
  let pens := default [] (roleFailurePenaltyBps (payout t)) in
  distinct_roles t -> computeTeamPayout input = Ok r ->
  mkeys (rolePayouts r) = ids /\ mnonneg (rolePayouts r) /\ mnonneg (rolePenalties r) /\
  (redistributedLamports r = 0 \/ redistributedLamports r = msum (rolePenalties r)) /\
  exists alloc un,
    allocateRoles (in_totalRewardLamports input) (payout_mode (payout t)) ids cps = Ok (alloc, un) /\
    forall k, k ∈ ids ->
      mget0 (rolePenalties r) k = penaltyOf pens (failedRoles cps) alloc k /\
      (has (failedRoles cps) k = true ->
         mget0 (rolePayouts r) k = mget0 alloc k - penaltyOf pens (failedRoles cps) alloc k) /\
      (has (failedRoles cps) k = false -> mget0 alloc k <= mget0 (rolePayouts r) k).
Proof.
  intros t cps ids pens HND HC.
  destruct (payout_stages input r HND HC) as (_ & [HK Hn] & [_ Hn'] & _ & _ & _ & _ & Hred & _).
  split_and!; [done..|]. clear HK Hn Hn' Hred.
  assert (NoDup ids) as HNDi by (by apply sort_by_NoDup). unfold computeTeamPayout in HC.
  apply bind_Ok in HC as (? & Ht%throw_if_Ok & HC).
  apply bind_Ok in HC as ([alloc un] & H1 & HC). apply bind_Ok in HC as ([[rp2 pen] pool] & H2 & HC).
  apply bind_Ok in HC as ([[rp3 red] u2] & H3 & HC). apply bind_Ok in HC as ([mp u3] & _ & HC).
  injection HC as <-. cbn [rolePayouts rolePenalties]. exists alloc, un. split; [done|]. intros k Hk.
  apply allocateRoles_inv in H1 as (A1 & _ & _); [|done|lia].
  destruct (applyPenalties_get ids HNDi _ _ _ _ _ _ H2 k Hk) as [Hpen Hrp].
  apply applyPenalties_inv in H2 as (A2 & _); [|done..].
  destruct (redistribute_get ids _ _ _ _ _ _ _ _ k A2 H3) as [Hle Hfail].
  fold cps t pens in Hpen, Hrp, Hfail. split_and!; [done| |].
  - intros Hf. rewrite Hfail, Hrp; done.
  - intros Hf. revert Hrp. unfold penaltyOf. rewrite Hf. lia.
Qed.

(** Fairness of the split by weights: the shares add up to the amount
    split, and each is its exact proportional quota rounded down or up, so a
    weight of zero receives nothing. *)
Theorem allocateByWeights_quota (total : Z) (w : jsmap Z) :
  NoDup (mkeys w) -> mnonneg w -> 0 <= total -> 0 < msum w ->
  exists shares, allocateByWeights total w = Ok shares /\ msum shares = total /\
    forall k, total * mget0 w k - msum w < mget0 shares k * msum w < total * mget0 w k + msum w
              /\ (mget0 w k = 0 -> mget0 shares k = 0).
Proof.
  intros HND Hw Ht Hs. destruct (allocateByWeights_shares total w HND Hw Ht Hs)
    as (sh & Heq & Hsum & _ & Hn & Hq). exists sh. split_and!; [done..|]. intros k.
  specialize (Hq k). split; [done|]. intros Hz. rewrite Hz in Hq.
  pose proof (mnonneg_get sh k Hn). nia.
Qed.
End Properties.

(** ** Witnesses: two roles, one failed checkpoint with a 25% penalty *)

Definition ex_role (id : string) : TeamRoleTemplate :=
  {| role_id := id; requiredCapabilities := 1; minMembers := Some (NInt 1);
     maxMembers := Some (NInt 2) |}.

Definition ex_checkpoint (id role : string) (st : TeamCheckpointStatus) (by_ : option string)
    : string * TeamCheckpointState :=
  (id, {| cs_id := id; cs_roleId := role; cs_label := id; cs_dependsOn := []; cs_required := true;
          cs_status := st; completedBy := by_; cs_completedAt := None; outputDigest := None;
          failedBy := None; failedAt := None; failureReason := None |}).

Definition ex_template : TeamTemplate :=
  {| template_id := "t"; template_name := "team"; roles := [ex_role "dev"; ex_role "qa"];
     checkpoints := [];
     payout := {| payout_mode := Fixed [("dev", NInt 7000); ("qa", NInt 3000)]%string;
                  roleFailurePenaltyBps := Some [("qa", NInt 2500)]%string;
                  redistributePenalties := None |};
     template_metadata := None |}.

Definition ex_input : TeamPayoutComputationInput :=
  {| in_totalRewardLamports := 1003; in_template := ex_template;
     in_checkpoints := [ex_checkpoint "build" "dev" cpCompleted (Some "ann"%string);
                        ex_checkpoint "test" "qa" cpFailed None];
     in_roleAssignments := [("dev", ["bob"; "ann"]); ("qa", ["cy"; "dan"])]%string |}.

Definition ex_result : TeamPayoutResult :=
  {| result_mode := fixed; totalRewardLamports := 1003;
     rolePayouts := [("dev", 777); ("qa", 226)]%string;
     memberPayouts := [("ann", 777); ("cy", 113); ("dan", 113)]%string;
     rolePenalties := [("dev", 0); ("qa", 75)]%string;
     redistributedLamports := 75; unallocatedLamports := 0 |}.

Lemma ex_distinct : distinct_roles ex_template.
Proof. apply NoDup_ListNoDup. repeat constructor; simpl; intuition discriminate. Qed.

Lemma ex_computes : computeTeamPayout ex_input = Ok ex_result.
Proof. vm_compute. reflexivity. Qed.

Lemma payout_conserves_reward_witness :
  msum (memberPayouts ex_result) + unallocatedLamports ex_result = 1003 /\
  mnonneg (memberPayouts ex_result) /\ 0 <= unallocatedLamports ex_result.
Proof. exact (payout_conserves_reward ex_input ex_result ex_distinct ex_computes). Defined.

Lemma payout_succeeds_iff_witness : is_Ok (computeTeamPayout ex_input) = payout_input_ok ex_input.
Proof. exact (payout_succeeds_iff ex_input ex_distinct). Defined.

(** Nobody of "qa" completed a checkpoint, so "cy" shares its amount. *)
Lemma payout_pays_assigned_members_witness :
  exists role, let members := default [] (mget (in_roleAssignments ex_input) role) in
    role ∈ map role_id (roles ex_template) /\ 0 < mget0 (rolePayouts ex_result) role /\
    "cy"%string ∈ members /\
    (contributions (mvals (in_checkpoints ex_input)) role "cy" <> [] \/
     forall m, m ∈ members -> contributions (mvals (in_checkpoints ex_input)) role m = []).
Proof.
  apply (payout_pays_assigned_members ex_input ex_result "cy" ex_distinct ex_computes).
  simpl. apply elem_of_cons; right. apply elem_of_cons; left. reflexivity.
Defined.

(** The failed role is left with 301 - 75 of its allocation, the other gains. *)
Lemma payout_penalties_witness :
  mget0 (rolePayouts ex_result) "qa" = 226 /\
  exists alloc un,
    allocateRoles 1003 (payout_mode (payout ex_template)) ["dev"; "qa"]%string
      (mvals (in_checkpoints ex_input)) = Ok (alloc, un) /\
    mget0 (rolePayouts ex_result) "qa" = mget0 alloc "qa" - mget0 (rolePenalties ex_result) "qa" /\
    mget0 alloc "dev" <= mget0 (rolePayouts ex_result) "dev".
Proof.
  split; [reflexivity|].
  destruct (payout_penalties ex_input ex_result ex_distinct ex_computes)
    as (_ & _ & _ & _ & alloc & un & HA & HK).
  change (sort_strings _) with ["dev"; "qa"]%string in HA, HK. exists alloc, un. split; [exact HA|]. split.
  - destruct (HK "qa"%string) as (-> & Hf & _); [set_solver|]. by apply Hf.
  - destruct (HK "dev"%string) as (_ & _ & Hs); [set_solver|]. by apply Hs.
Defined.

Lemma allocateByWeights_quota_witness :
  exists shares, allocateByWeights 10 [("a", 1); ("b", 2); ("c", 0)]%string = Ok shares /\
    msum shares = 10 /\
    forall k, 10 * mget0 [("a", 1); ("b", 2); ("c", 0)]%string k - 3 < mget0 shares k * 3
              < 10 * mget0 [("a", 1); ("b", 2); ("c", 0)]%string k + 3
              /\ (mget0 [("a", 1); ("b", 2); ("c", 0)]%string k = 0 -> mget0 shares k = 0).
Proof.
  apply (allocateByWeights_quota 10 [("a", 1); ("b", 2); ("c", 0)]%string).
  - apply NoDup_ListNoDup. repeat constructor; simpl; intuition discriminate.
  - repeat constructor; simpl; lia.
  - lia.
  - vm_compute. reflexivity.
Defined.
