(* ===== verification/TeamValidation.v ===== *)
(** * Team template normalisation and validation (src/runtime/src/team/validation.ts)

    [normalizeTeamTemplate] canonicalises every id of a template and sorts its
    parts; [validateTeamTemplate] checks a normalised template. Both throw
    plain [Error]s. *)
From S2P Require Import Prelude JsMap JsString Graph TeamTypes TeamPayout.
#[local] Open Scope Z_scope.

Notation normalizeIdOrThrow := validation_normalizeIdOrThrow.

(** [normalizeNumericRecord] on a record that is present. *)
Definition normalizeEntry (acc : list string * jsmap number) (entry : string * number)
    : R (list string * jsmap number) :=
  let '(seen, entries) := acc in
  let '(rawKey, rawValue) := entry in
  key ← normalizeIdOrThrow rawKey;
  throw_if (has seen key) (PlainError "duplicate key after normalization") ;;
  throw_if (match rawValue with NInt z => z <? 0 | NOther => true end)
    (PlainError "value must be a non-negative integer") ;;
  Ok (seen ++ [key], entries ++ [(key, rawValue)]).

Definition normalizeEntries `{Collation} (source : jsmap number) : R (jsmap number) :=
  '(_, entries) ← foldM normalizeEntry ([], []) source;
  Ok (mof (sort_on fst entries)).

Definition normalizeNumericRecord `{Collation} (source : option (jsmap number))
    : R (option (jsmap number)) :=
  match source with
  | None => Ok None
  | Some s => e ← normalizeEntries s; Ok (Some e)
  end.

Definition normalizeRequiredNumericRecord `{Collation} (source : jsmap number) : R (jsmap number) :=
  r ← normalizeNumericRecord (Some source); Ok (default [] r).

Definition normalizePayoutConfig `{Collation} (config : TeamPayoutConfig) : R TeamPayoutConfig :=
  penalties ← normalizeNumericRecord (roleFailurePenaltyBps config);
  mode ← match payout_mode config with
         | Fixed s => r ← normalizeRequiredNumericRecord s; Ok (Fixed r)
         | Weighted s => r ← normalizeRequiredNumericRecord s; Ok (Weighted r)
         | Milestone s => r ← normalizeRequiredNumericRecord s; Ok (Milestone r)
         end;
  Ok {| payout_mode := mode; roleFailurePenaltyBps := penalties;
        redistributePenalties := redistributePenalties config |}.

(** The callback of [input.roles.map], with the set [roleIds] of ids seen. *)
Definition normalizeRole (acc : list string * list TeamRoleTemplate) (role : TeamRoleTemplate)
    : R (list string * list TeamRoleTemplate) :=
  let '(roleIds, out) := acc in
  normalizedId ← normalizeIdOrThrow (role_id role);
  throw_if (has roleIds normalizedId) (PlainError "duplicate role id after normalization") ;;
  Ok (roleIds ++ [normalizedId],
      out ++ [{| role_id := normalizedId;
                 requiredCapabilities := requiredCapabilities role;
                 minMembers := Some (default (NInt 1) (minMembers role));
                 maxMembers := Some (default (NInt 1) (maxMembers role)) |}]).

(** The loop over [normalizedDependsOn] with the set [dedupe]. *)
Definition rejectDuplicates (deps : list string) : R (list string) :=
  foldM (fun dedupe d =>
      throw_if (has dedupe d) (PlainError "duplicate dependency") ;; Ok (dedupe ++ [d]))
    [] deps.

Definition normalizeCheckpoint `{Collation} (acc : list string * list TeamCheckpointTemplate)
    (cp : TeamCheckpointTemplate) : R (list string * list TeamCheckpointTemplate) :=
  let '(checkpointIds, out) := acc in
  normalizedId ← normalizeIdOrThrow (cp_id cp);
  throw_if (has checkpointIds normalizedId)
    (PlainError "duplicate checkpoint id after normalization") ;;
  normalizedDependsOn ← mapR normalizeIdOrThrow (default [] (cp_dependsOn cp));
  rejectDuplicates normalizedDependsOn ;;
  roleId ← normalizeIdOrThrow (cp_roleId cp);
  Ok (checkpointIds ++ [normalizedId],
      out ++ [{| cp_id := normalizedId; cp_roleId := roleId; cp_label := trim (cp_label cp);
                 cp_dependsOn := Some (sort_strings normalizedDependsOn);
                 cp_required := Some (default true (cp_required cp)) |}]).

Definition normalizeTeamTemplate `{Collation} (input : TeamTemplate) : R TeamTemplate :=
  id ← normalizeIdOrThrow (template_id input);
  let name := trim (template_name input) in
  throw_if (String.length name =? 0)%nat (PlainError "template name must not be empty") ;;
  '(_, rs) ← foldM normalizeRole ([], []) (roles input);
  '(_, cps) ← foldM normalizeCheckpoint ([], []) (checkpoints input);
  p ← normalizePayoutConfig (payout input);
  Ok {| template_id := id; template_name := name;
        roles := sort_on role_id rs; checkpoints := sort_on cp_id cps;
        payout := p; template_metadata := template_metadata input |}.

(** ** Validation *)

(** [!Number.isInteger(n) || (n ?? 0) < low]. *)
Definition bad_count (n : option number) (low : Z) : bool :=
  match n with Some (NInt z) => z <? low | _ => true end.

(** [(n ?? 0)] of a count that is an integer. *)
Definition count_of (n : option number) : Z := match n with Some (NInt z) => z | _ => 0 end.

Definition validateRole (roleIds : list string) (role : TeamRoleTemplate) : R (list string) :=
  throw_if (has roleIds (role_id role)) (PlainError "duplicate role id") ;;
  throw_if (bad_count (minMembers role) 0) (PlainError "invalid minMembers") ;;
  throw_if (bad_count (maxMembers role) 1) (PlainError "invalid maxMembers") ;;
  throw_if (count_of (minMembers role) >? count_of (maxMembers role))
    (PlainError "minMembers cannot exceed maxMembers") ;;
  Ok (roleIds ++ [role_id role]).

(** The loop over the dependencies of a checkpoint, with [incomingCount]. *)
Definition validateDependency (requireSingleParent : bool) (all checkpointIds : list string)
    (id : string) (incomingCount : jsmap Z) (dependency : string) : R (jsmap Z) :=
  throw_if (String.eqb dependency id) (PlainError "cannot depend on itself") ;;
  throw_if (negb (has checkpointIds dependency) && negb (has all dependency))
    (PlainError "depends on unknown checkpoint") ;;
  let incomingCount := mset id (mget0 incomingCount id + 1) incomingCount in
  throw_if (requireSingleParent && (mget0 incomingCount id >? 1))
    (PlainError "has multiple incoming dependencies") ;;
  Ok incomingCount.

Definition validateCheckpoint (requireSingleParent : bool) (roleIds all : list string)
    (acc : list string * jsmap Z) (cp : TeamCheckpointTemplate) : R (list string * jsmap Z) :=
  let '(checkpointIds, incomingCount) := acc in
  throw_if (has checkpointIds (cp_id cp)) (PlainError "duplicate checkpoint id") ;;
  let checkpointIds := checkpointIds ++ [cp_id cp] in
  throw_if (negb (has roleIds (cp_roleId cp))) (PlainError "references unknown role") ;;
  let deps := default [] (cp_dependsOn cp) in
  throw_if (requireSingleParent && (1 <? length deps)%nat)
    (PlainError "single-parent topology required") ;;
  incomingCount ←
    foldM (validateDependency requireSingleParent all checkpointIds (cp_id cp)) incomingCount deps;
  throw_if (String.length (cp_label cp) =? 0)%nat (PlainError "label must not be empty") ;;
  Ok (checkpointIds, incomingCount).

(** [validateNoCycles]: the adjacency map, then the DFS. *)
Definition adjacency (cps : list TeamCheckpointTemplate) : jsmap (list string) :=
  foldl (fun adj cp =>
      foldl (fun adj dependency =>
          match mget adj dependency with
          | Some l => mset dependency (l ++ [cp_id cp]) adj
          | None => adj
          end) adj (default [] (cp_dependsOn cp)))
    (foldl (fun adj cp => mset (cp_id cp) [] adj) [] cps) cps.

Definition validateNoCycles (cps : list TeamCheckpointTemplate) : R unit :=
  match hasCycle (adjacency cps) (map cp_id cps) with
  | Some false => Ok tt
  | _ => Err (PlainError "checkpoint dependency graph contains a cycle")
  end.

Definition validatePayoutReferences (t : TeamTemplate) : R unit :=
  let roleIds := map role_id (roles t) in
  let checkpointIds := map cp_id (checkpoints t) in
  throw_if (existsb (fun r => negb (has roleIds r))
             (mkeys (default [] (roleFailurePenaltyBps (payout t)))))
    (PlainError "failure penalty references unknown role") ;;
  match payout_mode (payout t) with
  | Fixed m => throw_if (existsb (fun r => negb (has roleIds r)) (mkeys m))
                 (PlainError "fixed payout references unknown role")
  | Weighted m => throw_if (existsb (fun r => negb (has roleIds r)) (mkeys m))
                    (PlainError "weighted payout references unknown role")
  | Milestone m => throw_if (existsb (fun c => negb (has checkpointIds c)) (mkeys m))
                     (PlainError "milestone payout references unknown checkpoint")
  end.

Definition validateTeamTemplate (requireSingleParent : bool) (t : TeamTemplate) : R unit :=
  throw_if (length (roles t) =? 0)%nat (PlainError "template must define at least one role") ;;
  throw_if (length (checkpoints t) =? 0)%nat
    (PlainError "template must define at least one checkpoint") ;;
  roleIds ← foldM validateRole [] (roles t);
  foldM (validateCheckpoint requireSingleParent roleIds (map cp_id (checkpoints t)))
    ([], []) (checkpoints t) ;;
  validateNoCycles (checkpoints t) ;;
  validatePayoutReferences t.
