(* ===== verification/TeamValidationSpec.v ===== *)
(** * Correctness of template validation

    [validateTeamTemplate] accepts exactly the templates described by
    [valid_template]. *)
From S2P Require Import Prelude JsMap JsString Graph TeamTypes TeamPayout TeamPayoutStages TeamValidation.
#[local] Open Scope Z_scope.

Definition deps (c : TeamCheckpointTemplate) : list string := default [] (cp_dependsOn c).

(** [v] is a checkpoint that depends on [u]. *)
Definition dependency_edge (cps : list TeamCheckpointTemplate) (u v : string) : Prop :=
  exists c, c ∈ cps /\ cp_id c = v /\ u ∈ deps c.

Definition role_counts_ok (r : TeamRoleTemplate) : Prop :=
  exists lo hi, minMembers r = Some (NInt lo) /\ maxMembers r = Some (NInt hi) /\
                0 <= lo <= hi /\ 1 <= hi.

Definition checkpoint_ok (single : bool) (roleIds ids : list string) (c : TeamCheckpointTemplate)
    : Prop :=
  cp_roleId c ∈ roleIds /\ cp_label c <> ""%string /\
  (forall d, d ∈ deps c -> d <> cp_id c /\ d ∈ ids) /\
  (single = true -> (length (deps c) <= 1)%nat).

Definition payout_refs_ok (t : TeamTemplate) : Prop :=
  mkeys (default [] (roleFailurePenaltyBps (payout t))) ⊆ map role_id (roles t) /\
  match payout_mode (payout t) with
  | Fixed m | Weighted m => mkeys m ⊆ map role_id (roles t)
  | Milestone m => mkeys m ⊆ map cp_id (checkpoints t)
  end.

(** The templates a contract can be created from. *)
Record valid_template (single : bool) (t : TeamTemplate) : Prop := {
  vt_roles : roles t <> [];
  vt_checkpoints : checkpoints t <> [];
  vt_role_ids : NoDup (map role_id (roles t));
  vt_counts : Forall role_counts_ok (roles t);
  vt_cp_ids : NoDup (map cp_id (checkpoints t));
  vt_cps : Forall (checkpoint_ok single (map role_id (roles t)) (map cp_id (checkpoints t)))
             (checkpoints t);
  vt_acyclic : forall x, ~ tc (dependency_edge (checkpoints t)) x x;
  vt_payout : payout_refs_ok t;
}.

(** ** Roles *)

Lemma role_counts_bool r :
  bad_count (minMembers r) 0 = false -> bad_count (maxMembers r) 1 = false ->
  (count_of (minMembers r) >? count_of (maxMembers r)) = false -> role_counts_ok r.
Proof.
  unfold role_counts_ok. destruct (minMembers r) as [[lo|]|]; simpl; try done.
  destruct (maxMembers r) as [[hi|]|]; simpl; try done. intros. exists lo, hi. split_and!; done || lia.
Qed.

Lemma validateRoles_iff rs r :
  foldM validateRole [] rs = Ok r <->
  r = map role_id rs /\ NoDup (map role_id rs) /\ Forall role_counts_ok rs.
Proof.
  pose proof (foldM_iff (fun pre acc => acc = map role_id pre)
    (fun pre x => role_id x ∉ map role_id pre /\ role_counts_ok x) validateRole [] rs) as Hiff.
  rewrite NoDup_map_prefixes, Forall_prefixes. destruct Hiff as [H1 H2].
  - done.
  - intros pre x acc -> [Hf (lo & hi & Hlo & Hhi & ? & ?)]. eexists. split; [|by rewrite map_app].
    unfold validateRole. rewrite (proj2 (has_false _ _) Hf), Hlo, Hhi. simpl.
    destruct (Z.ltb_spec lo 0), (Z.ltb_spec hi 1), (Z.gtb_spec lo hi); try lia. done.
  - intros pre x acc acc' -> HF. unfold validateRole in HF. bind_ok.
    split; [by apply has_false|by apply role_counts_bool].
  - split.
    + intros HF. assert (r = map role_id rs) as Hr.
      { apply (foldM_inv (fun pre acc => acc = map role_id pre)) in HF; [done|done|].
        intros pre x _ acc acc' _ -> Hx. unfold validateRole in Hx. bind_ok. subst.
        by rewrite map_app. }
      split; [done|]. assert (exists r, foldM validateRole [] rs = Ok r /\ r = map role_id rs) as Hex
        by eauto. specialize (H2 Hex). split; intros; by eapply H2.
    + intros (-> & Ha & Hb). destruct H1 as (r & HF & ->); [|done].
      intros pre x suf Heq. split; [by eapply Ha|by eapply Hb].
Qed.

(** ** Checkpoints *)

Lemma validateDependency_Ok single all ids id inc d inc' :
  validateDependency single all ids id inc d = Ok inc' <->
  d <> id /\ (d ∈ ids \/ d ∈ all) /\ (single = true -> mget0 inc id <= 0) /\
  inc' = mset id (mget0 inc id + 1) inc.
Proof.
  unfold validateDependency. rewrite mget0_mset, String.eqb_refl. split.
  - intros HV. bind_ok. split_and!; [by apply String.eqb_neq| | |done].
    + apply andb_false_iff in H0 as [H0|H0]; apply negb_false_iff, has_true in H0; auto.
    + intros ->. simpl in H1. lia.
  - intros (Hne & Hin & Hs & ->). rewrite (proj2 (String.eqb_neq d id) Hne). cbn.
    replace (negb (has ids d) && negb (has all d)) with false.
    2: { symmetry. apply andb_false_iff. rewrite !negb_false_iff, !has_true. done. }
    replace (single && (mget0 inc id + 1 >? 1)) with false; [done|].
    destruct single; [|done]. specialize (Hs eq_refl). simpl. lia.
Qed.

Lemma validateDependencies_iff single all ids id inc ds :
  (exists inc', foldM (validateDependency single all ids id) inc ds = Ok inc') <->
  Forall (fun d => d <> id /\ (d ∈ ids \/ d ∈ all)) ds /\
  (single = true -> ds = [] \/ mget0 inc id + Z.of_nat (length ds) <= 1).
Proof.
  revert inc; induction ds as [|d ds IH]; intros inc; simpl.
  { split; [|by eauto]. intros _. split; [constructor|auto]. }
  split.
  - intros (inc' & HF). apply bind_Ok in HF as (i1 & H1 & HF).
    apply validateDependency_Ok in H1 as (Hne & Hin & Hs & ->).
    destruct (proj1 (IH _) (ex_intro _ _ HF)) as [Ha Hb]. split; [by constructor|].
    intros ->. right. specialize (Hb eq_refl). specialize (Hs eq_refl).
    rewrite mget0_mset, String.eqb_refl in Hb. destruct Hb as [->|Hb]; simpl; lia.
  - intros [[[Hne Hin] HF]%Forall_cons Hs].
    rewrite (proj2 (validateDependency_Ok single all ids id inc d
      (mset id (mget0 inc id + 1) inc))); [|split_and!; try done].
    + cbn. apply IH. split; [done|]. intros ->. destruct (Hs eq_refl) as [?|Hle]; [done|].
      rewrite mget0_mset, String.eqb_refl. destruct ds; [auto|]. right. simpl in *. lia.
    + intros ->. destruct (Hs eq_refl); [done|]. lia.
Qed.

(** The accumulator after a prefix: its ids, and no count for other ids. *)
Definition cp_acc (pre : list TeamCheckpointTemplate) (acc : list string * jsmap Z) : Prop :=
  acc.1 = map cp_id pre /\ forall k, k ∉ map cp_id pre -> mget0 acc.2 k = 0.

Lemma validateDependency_other single all ids id inc ds inc' k :
  foldM (validateDependency single all ids id) inc ds = Ok inc' -> k <> id ->
  mget0 inc' k = mget0 inc k.
Proof.
  intros HF Hk. apply (foldM_inv (fun _ acc => mget0 acc k = mget0 inc k)) in HF; [done|done|].
  intros pre x suf acc acc' _ Hacc Hx. apply validateDependency_Ok in Hx as (_ & _ & _ & ->).
  rewrite mget0_mset. by destruct (String.eqb_spec k id).
Qed.

Lemma validateCheckpoint_iff single rids all pre acc c :
  map cp_id pre ⊆ all -> cp_id c ∈ all -> cp_acc pre acc ->
  (exists acc', validateCheckpoint single rids all acc c = Ok acc' /\ cp_acc (pre ++ [c]) acc') <->
  cp_id c ∉ map cp_id pre /\ checkpoint_ok single rids all c.
Proof.
  destruct acc as [seen inc]. intros Hsub Hall [Hseen Hinc]; simpl in *; subst seen.
  pose proof (validateDependencies_iff single all (map cp_id pre ++ [cp_id c]) (cp_id c) inc (deps c))
    as Hdeps. unfold checkpoint_ok. split.
  - intros (acc' & HV & _). bind_ok. apply has_false in H.
    destruct (proj1 Hdeps (ex_intro _ _ H2)) as [Hd Hs]. clear Hdeps HV. split_and!; [done|..].
    + by apply has_true, negb_false_iff.
    + intros E. by rewrite E in H3.
    + rewrite Forall_forall in Hd. intros d Hin. destruct (Hd d Hin) as [Hne [Hp|Ha]];
        (split; [done|]); [|done].
      apply elem_of_app in Hp as [Hp|Hp]; [auto|]. by apply list_elem_of_singleton in Hp.
    + intros ->. simpl in H1. apply Nat.ltb_ge in H1. done.
  - intros (Hf & Hr & Hl & Hd & Hs). unfold validateCheckpoint.
    rewrite (proj2 (has_false _ _) Hf), (proj2 (has_true _ _) Hr). fold (deps c).
    replace (single && (1 <? length (deps c))%nat) with false.
    2: { destruct single; [|done]. symmetry. apply Nat.ltb_ge. auto. }
    cbn. destruct (proj2 Hdeps) as (inc' & HF).
    { split.
      - apply Forall_forall. intros d Hin. destruct (Hd d Hin). auto.
      - intros ->. rewrite (Hinc _ Hf). specialize (Hs eq_refl). right. lia. }
    rewrite HF. cbn. destruct (cp_label c); [done|]. cbn. eexists. split; [reflexivity|].
    split; simpl; [by rewrite map_app|]. intros k Hk. rewrite map_app in Hk. simpl in Hk.
    apply not_elem_of_app in Hk as [Hk1 Hk2]. rewrite list_elem_of_singleton in Hk2.
    rewrite (validateDependency_other _ _ _ _ _ _ _ _ HF Hk2). by apply Hinc.
Qed.

(** The loop over any suffix of the checkpoints. *)
Lemma validateCheckpoints_suffix single rids all pre suf acc :
  map cp_id (pre ++ suf) ⊆ all -> cp_acc pre acc ->
  is_Ok (foldM (validateCheckpoint single rids all) acc suf) = true <->
  (forall p x q, suf = p ++ x :: q -> cp_id x ∉ map cp_id (pre ++ p)) /\
  Forall (checkpoint_ok single rids all) suf.
Proof.
  revert pre acc; induction suf as [|c suf IH]; intros pre acc Hsub Hacc; simpl.
  { split; [intros _|done]. split; [by intros [|] ? ?|constructor]. }
  rewrite map_app in Hsub; simpl in Hsub.
  assert (map cp_id pre ⊆ all) as Hpre by (intros k Hk; apply Hsub, elem_of_app; auto).
  assert (cp_id c ∈ all) as Hc by (apply Hsub, elem_of_app; right; constructor).
  pose proof (validateCheckpoint_iff single rids all pre acc c Hpre Hc Hacc) as Hiff.
  rewrite is_Ok_bind. split.
  - destruct (validateCheckpoint single rids all acc c) as [acc'|] eqn:E; [|done]. intros HF.
    assert (cp_acc (pre ++ [c]) acc') as Hacc'.
    { clear -E Hacc. destruct acc as [seen inc], Hacc as [Hs Hi]; simpl in *; subst seen.
      unfold validateCheckpoint in E. bind_ok. subst acc'. split; simpl; [by rewrite map_app|].
      intros k Hk. rewrite map_app in Hk. simpl in Hk.
      apply not_elem_of_app in Hk as [Hk1 Hk2]. rewrite list_elem_of_singleton in Hk2.
      rewrite (validateDependency_other _ _ _ _ _ _ _ _ H2 Hk2). by apply Hi. }
    destruct (proj1 Hiff) as [Hf Hok]; [eauto|].
    apply (IH (pre ++ [c])) in HF as [Hp HF]; [|by rewrite <-app_assoc, map_app|done].
    split; [|by constructor]. intros [|d p] x q [= -> ->]; [by rewrite app_nil_r|].
    specialize (Hp p x q eq_refl). by rewrite <-app_assoc in Hp.
  - intros [Hp [Hok HF]%Forall_cons]. destruct (proj2 Hiff) as (acc' & -> & Hacc').
    { split; [|done]. specialize (Hp [] c suf eq_refl). by rewrite app_nil_r in Hp. }
    apply (IH (pre ++ [c])); [by rewrite <-app_assoc, map_app|done|]. split; [|done].
    intros p x q ->. rewrite <-app_assoc. by apply (Hp (c :: p) x q).
Qed.

Lemma validateCheckpoints_iff single rids cps :
  is_Ok (foldM (validateCheckpoint single rids (map cp_id cps)) ([], []) cps) = true <->
  NoDup (map cp_id cps) /\ Forall (checkpoint_ok single rids (map cp_id cps)) cps.
Proof.
  rewrite (validateCheckpoints_suffix single rids (map cp_id cps) [] cps);
    [by rewrite NoDup_map_prefixes|done|]. split; [done|]. intros k _. done.
Qed.

(** ** Cycles *)

Lemma adjacency_step adj c ds u v :
  v ∈ successors (foldl (fun adj d => match mget adj d with
        | Some l => mset d (l ++ [c]) adj | None => adj end) adj ds) u <->
  v ∈ successors adj u \/ (v = c /\ u ∈ ds /\ u ∈ mkeys adj).
Proof.
  revert adj; induction ds as [|d ds IH]; intros adj; simpl.
  { split; [auto|]. intros [?|(_ & []%not_elem_of_nil & _)]; done. }
  rewrite IH. destruct (mget adj d) as [l|] eqn:Ed.
  - assert (d ∈ mkeys adj) as Hd by (apply mget_is_Some_keys; eauto).
    rewrite mkeys_mset_in by done. unfold successors. rewrite mget_mset, elem_of_cons.
    destruct (String.eqb_spec u d) as [->|]; [|naive_solver].
    rewrite Ed. simpl. rewrite elem_of_app, list_elem_of_singleton. naive_solver.
  - apply mget_None_keys in Ed. rewrite elem_of_cons. split; [naive_solver|].
    intros [?|(-> & [->|?] & ?)]; [auto|done|auto].
Qed.

Lemma adjacency_keys_step (adj : jsmap (list string)) c ds :
  mkeys (foldl (fun adj d => match mget adj d with
    | Some l => mset d (l ++ [c]) adj | None => adj end) adj ds) = mkeys adj.
Proof.
  revert adj; induction ds as [|d ds IH]; intros adj; simpl; [done|]. rewrite IH.
  destruct (mget adj d) eqn:Ed; [|done]. apply mkeys_mset_in, mget_is_Some_keys. eauto.
Qed.

Lemma adjacency_init cps u v :
  let a := foldl (fun (adj : jsmap (list string)) cp => mset (cp_id cp) [] adj) [] cps in
  (u ∈ mkeys a <-> u ∈ map cp_id cps) /\ v ∉ successors a u.
Proof.
  cut (forall a : jsmap (list string), v ∉ successors a u ->
    let a' := foldl (fun (adj : jsmap (list string)) cp => mset (cp_id cp) [] adj) a cps in
    (u ∈ mkeys a' <-> u ∈ mkeys a \/ u ∈ map cp_id cps) /\ v ∉ successors a' u).
  { intros Hc. destruct (Hc []) as [Hk Hv]; [by intros ?%not_elem_of_nil|]. split; [|done].
    rewrite Hk. split; [intros [[]%not_elem_of_nil|]; done|auto]. }
  induction cps as [|c cps IH]; intros a Hv; simpl.
  { split; [|done]. split; [auto|intros [?|[]%not_elem_of_nil]; done]. }
  destruct (IH (mset (cp_id c) [] a)) as [Hk Hv'].
  - unfold successors. rewrite mget_mset. destruct (String.eqb u (cp_id c)); [|done].
    by intros ?%not_elem_of_nil.
  - split; [|done]. rewrite Hk, elem_mkeys_mset, elem_of_cons. naive_solver.
Qed.

(** The adjacency map holds the dependencies on known checkpoints. *)
Lemma adjacency_edge cps u v :
  edge (adjacency cps) u v <-> u ∈ map cp_id cps /\ dependency_edge cps u v.
Proof.
  unfold edge, adjacency. destruct (adjacency_init cps u v) as [Hk Hv].
  set (a0 := foldl _ [] cps) in *. rewrite <-Hk.
  cut (forall l a, mkeys a = mkeys a0 ->
    v ∈ successors (foldl (fun adj cp => foldl (fun adj d => match mget adj d with
        | Some l => mset d (l ++ [cp_id cp]) adj | None => adj end) adj (default [] (cp_dependsOn cp))) a l) u
    <-> v ∈ successors a u \/ (u ∈ mkeys a0 /\ exists c, c ∈ l /\ cp_id c = v /\ u ∈ deps c)).
  { intros Hc. rewrite (Hc cps a0 eq_refl). unfold dependency_edge. tauto. }
  clear Hk Hv. induction l as [|c l IH]; intros a Ha; simpl.
  { split; [auto|]. intros [?|(_ & ? & []%not_elem_of_nil & _)]; done. }
  rewrite IH by (by rewrite adjacency_keys_step).
  rewrite adjacency_step, Ha. fold (deps c). split.
  - intros [[?|(-> & ? & ?)]|(? & c' & ? & ? & ?)]; [auto|right..].
    + split; [done|]. exists c. split; [constructor|done].
    + split; [done|]. exists c'. split; [by constructor|done].
  - intros [?|(? & c' & [->|?]%elem_of_cons & <- & ?)]; [auto|auto|right; eauto].
Qed.

Lemma validateNoCycles_iff cps :
  (forall c d, c ∈ cps -> d ∈ deps c -> d ∈ map cp_id cps) ->
  validateNoCycles cps = Ok tt <-> forall x, ~ tc (dependency_edge cps) x x.
Proof.
  intros Hd.
  assert (forall u v, edge (adjacency cps) u v <-> dependency_edge cps u v) as He.
  { intros u v. rewrite adjacency_edge. split; [tauto|]. intros Huv. split; [|done].
    destruct Huv as (c & Hc & _ & Hu). by eapply Hd. }
  assert (forall u v, tc (edge (adjacency cps)) u v <-> tc (dependency_edge cps) u v) as Htc.
  { intros u v. split; (induction 1; [apply tc_once|eapply tc_l]); eauto; by apply He. }
  unfold validateNoCycles. destruct (hasCycle_spec (adjacency cps) (map cp_id cps))
    as [[-> (x & Hx)]|[-> Hac]].
  - intros u v (c & Hc & <- & _)%He. by apply (list_elem_of_fmap_2 cp_id).
  - split; [done|]. intros Hno. destruct (Hno x). by apply Htc.
  - split; [|done]. intros _ x Hx.
    assert (x ∈ map cp_id cps) as Hin.
    { clear -Hx Hd. inversion Hx as [? ? (c & Hc & _ & Hu)|? ? ? (c & Hc & _ & Hu)]; subst;
        by eapply Hd. }
    by apply (Hac x Hin), Htc.
Qed.

(** ** The whole validation *)

Lemma existsb_not_has l ks : existsb (fun r => negb (has l r)) ks = false <-> ks ⊆ l.
Proof.
  rewrite existsb_false, Forall_forall. split; intros Hk k Hin; specialize (Hk k Hin);
    [by apply has_true, negb_false_iff|by apply negb_false_iff, has_true].
Qed.

Lemma validatePayoutReferences_iff t : validatePayoutReferences t = Ok tt <-> payout_refs_ok t.
Proof.
  unfold validatePayoutReferences, payout_refs_ok.
  rewrite <-(existsb_not_has (map role_id (roles t))).
  destruct (existsb _ (mkeys (default [] _))); [by split; [|intros [? _]]|]. cbn.
  destruct (payout_mode (payout t)); rewrite throw_if_Ok, existsb_not_has; tauto.
Qed.

Lemma validate_valid (single : bool) (t : TeamTemplate) :
  validateTeamTemplate single t = Ok tt <-> valid_template single t.
Proof.
  unfold validateTeamTemplate. split.
  - intros HV. apply bind_Ok in HV as (? & Hr0 & HV). apply bind_Ok in HV as (? & Hc0 & HV).
    apply bind_Ok in HV as (rids & Hr & HV). apply bind_Ok in HV as (? & Hc & HV).
    apply bind_Ok in HV as ([] & Hn & Hp). apply throw_if_Ok in Hr0, Hc0.
    apply validateRoles_iff in Hr as (-> & Hr1 & Hr2).
    assert (is_Ok (foldM (validateCheckpoint single (map role_id (roles t))
      (map cp_id (checkpoints t))) ([], []) (checkpoints t)) = true) as Hcok by (by rewrite Hc).
    apply validateCheckpoints_iff in Hcok as [Hc1 Hc2].
    constructor; try done.
    + intros E. by rewrite E in Hr0.
    + intros E. by rewrite E in Hc0.
    + apply validateNoCycles_iff; [|done]. rewrite Forall_forall in Hc2.
      intros c d Hin Hd. by apply (Hc2 c Hin).
    + by apply validatePayoutReferences_iff.
  - intros [Hr0 Hc0 Hr1 Hr2 Hc1 Hc2 Hac Hp].
    destruct (roles t) as [|r0 rs] eqn:Er; [done|]. destruct (checkpoints t) as [|c0 cs] eqn:Ec; [done|].
    cbn [length Nat.eqb throw_if mbind result_bind]. rewrite <-Er, <-Ec in *.
    rewrite (proj2 (validateRoles_iff (roles t) _)) by (split_and!; done). cbn.
    pose proof (proj2 (validateCheckpoints_iff single (map role_id (roles t)) (checkpoints t))
      (conj Hc1 Hc2)) as Hcok. apply is_Ok_true in Hcok as [acc ->]. cbn.
    rewrite (proj2 (validateNoCycles_iff (checkpoints t) ltac:(rewrite Forall_forall in Hc2;
      intros c d Hin Hd; by apply (Hc2 c Hin))) Hac). cbn.
    by apply validatePayoutReferences_iff.
Qed.

(** Validation accepts exactly the well-formed templates: at least one
    role and one checkpoint, distinct ids, integer member bounds with
    [0 <= min <= max] and [1 <= max], checkpoints with a label and a known role
    that depend on other known checkpoints (on at most one when a single parent
    is required), no dependency cycle, and payout entries that name known roles
    or checkpoints. *)
Theorem validateTeamTemplate_iff (single : bool) (t : TeamTemplate) :
  validateTeamTemplate single t = Ok tt <-> valid_template single t.
Proof. apply validate_valid. Qed.

(** * Template normalisation

    What a normalised template looks like, and that normalising it again
    changes nothing. *)
From S2P Require Import Prelude JsMap JsString Graph TeamTypes TeamPayout TeamPayoutStages TeamValidation.
#[local] Open Scope Z_scope.

Section Normalize.
Context `{Collation}.

Definition normal_role (r : TeamRoleTemplate) : Prop :=
  valid_id (role_id r) /\ is_Some (minMembers r) /\ is_Some (maxMembers r).

Definition normal_checkpoint (c : TeamCheckpointTemplate) : Prop :=
  valid_id (cp_id c) /\ valid_id (cp_roleId c) /\ trim (cp_label c) = cp_label c /\
  is_Some (cp_required c) /\
  exists ds, cp_dependsOn c = Some ds /\ Forall valid_id ds /\ NoDup ds /\ sort_strings ds = ds.

Definition normal_record (m : jsmap number) : Prop :=
  Forall (fun kv => valid_id kv.1 /\ exists z, kv.2 = NInt z /\ 0 <= z) m /\ NoDup (mkeys m) /\
  sort_on fst m = m.

Definition normal_mode (m : PayoutMode) : Prop :=
  match m with Fixed r | Weighted r | Milestone r => normal_record r end.

Definition normal_payout (p : TeamPayoutConfig) : Prop :=
  normal_mode (payout_mode p) /\
  match roleFailurePenaltyBps p with Some r => normal_record r | None => True end.

Record normal_template (t : TeamTemplate) : Prop := {
  nt_id : valid_id (template_id t);
  nt_name : trim (template_name t) = template_name t /\ template_name t <> ""%string;
  nt_roles : Forall normal_role (roles t) /\ NoDup (map role_id (roles t)) /\
             sort_on role_id (roles t) = roles t;
  nt_checkpoints : Forall normal_checkpoint (checkpoints t) /\
             NoDup (map cp_id (checkpoints t)) /\ sort_on cp_id (checkpoints t) = checkpoints t;
  nt_payout : normal_payout (payout t);
}.

(** A loop that normalises the elements one by one and rejects ids already
    seen: every element of its output is normal, and ids are distinct. *)
Lemma collect_normal {A} (key : A -> string) (P : A -> Prop)
    (f : list string * list A -> A -> R (list string * list A)) l ids out :
  (forall seen o x seen' o', f (seen, o) x = Ok (seen', o') ->
     exists y, o' = o ++ [y] /\ seen' = seen ++ [key y] /\ P y /\ key y ∉ seen) ->
  foldM f ([], []) l = Ok (ids, out) -> Forall P out /\ NoDup (map key out).
Proof.
  intros Hf HF.
  apply (foldM_inv (fun _ '(seen, o) => seen = map key o /\ Forall P o /\ NoDup (map key o))) in HF;
    [tauto|by repeat constructor|].
  intros _ x _ [seen o] [seen' o'] _ (-> & HP & HND) Hx.
  apply Hf in Hx as (y & -> & -> & Hy & Hk). rewrite map_app. split_and!; [done| |].
  - apply Forall_app. by repeat constructor.
  - apply NoDup_app. split_and!; [done| |apply NoDup_singleton].
    by intros z Hz ->%list_elem_of_singleton.
Qed.

(** Conversely the loop copies a list of normal elements with distinct ids. *)
Lemma collect_id {A} (key : A -> string) (P : A -> Prop)
    (f : list string * list A -> A -> R (list string * list A)) l :
  (forall seen o x, P x -> key x ∉ seen -> f (seen, o) x = Ok (seen ++ [key x], o ++ [x])) ->
  Forall P l -> NoDup (map key l) -> foldM f ([], []) l = Ok (map key l, l).
Proof.
  intros Hf HP HND.
  cut (forall o, NoDup (map key (o ++ l)) ->
         foldM f (map key o, o) l = Ok (map key (o ++ l), o ++ l)).
  { intros Hc. by apply (Hc []). }
  clear HND. induction HP as [|x l Hx HP IH]; intros o HND; simpl; [by rewrite app_nil_r|].
  rewrite Hf; [|done|].
  - cbn. specialize (IH (o ++ [x])). rewrite <-app_assoc, (map_app key o [x]) in IH. by apply IH.
  - rewrite map_app in HND. apply NoDup_app in HND as (_ & Hd & _). intros Hin.
    eapply Hd; [done|]. constructor.
Qed.

Lemma normalizeRole_normal seen o x seen' o' :
  normalizeRole (seen, o) x = Ok (seen', o') ->
  exists y, o' = o ++ [y] /\ seen' = seen ++ [role_id y] /\ normal_role y /\ role_id y ∉ seen.
Proof.
  unfold normalizeRole. intros HN. bind_ok. simplify_eq. eexists. split_and!; [reflexivity|reflexivity| |].
  - unfold normal_role; simpl. split_and!; eauto with s2core.
  - by apply has_false.
Qed.

Lemma normalizeRole_id seen o x :
  normal_role x -> role_id x ∉ seen -> normalizeRole (seen, o) x = Ok (seen ++ [role_id x], o ++ [x]).
Proof.
  intros (Hv & [mi Hmi] & [ma Hma]) Hs. unfold normalizeRole, validation_normalizeIdOrThrow.
  rewrite normalizeId_fixpoint by done. cbn. rewrite (proj2 (has_false _ _) Hs), Hmi, Hma. cbn.
  destruct x; simpl in *; by subst.
Qed.

Lemma rejectDuplicates_iff ds r : rejectDuplicates ds = Ok r <-> r = ds /\ NoDup ds.
Proof.
  pose proof (foldM_iff (fun pre acc => acc = pre) (fun pre x => x ∉ pre)
    (fun dedupe d => throw_if (has dedupe d) (PlainError "duplicate dependency") ;;
       Ok (dedupe ++ [d])) [] ds) as Hiff. rewrite NoDup_prefixes.
  destruct Hiff as [H1 H2]; [done| | |].
  - intros pre x acc -> Hx. eexists. split; [|done]. by rewrite (proj2 (has_false _ _) Hx).
  - intros pre x acc acc' -> HF. bind_ok. by apply has_false.
  - unfold rejectDuplicates. split.
    + intros HF. assert (r = ds) as ->; [|split; [done|]; apply H2; eauto].
      apply (foldM_inv (fun pre acc => acc = pre)) in HF; [done|done|].
      intros pre x _ acc acc' _ -> HF'. by bind_ok.
    + intros [-> Hd]. by destruct (H1 Hd) as (r & HF & ->).
Qed.

Lemma normalizeIds_Ok l r :
  mapR normalizeIdOrThrow l = Ok r -> Forall valid_id r.
Proof.
  intros HF%mapR_Forall2. induction HF; constructor; eauto with s2core.
Qed.

Lemma normalizeIds_id l : Forall valid_id l -> mapR normalizeIdOrThrow l = Ok l.
Proof.
  intros HF. apply mapR_Forall2. induction HF; constructor; [|done].
  by apply normalizeId_fixpoint.
Qed.

Lemma normalizeCheckpoint_normal seen o x seen' o' :
  normalizeCheckpoint (seen, o) x = Ok (seen', o') ->
  exists y, o' = o ++ [y] /\ seen' = seen ++ [cp_id y] /\ normal_checkpoint y /\ cp_id y ∉ seen.
Proof.
  unfold normalizeCheckpoint. intros HN. bind_ok.
  match goal with Hd : mapR _ _ = Ok _ |- _ => apply normalizeIds_Ok in Hd as Hvd end.
  match goal with Hr : rejectDuplicates _ = Ok _ |- _ => apply rejectDuplicates_iff in Hr as [-> Hnd] end.
  simplify_eq. eexists. split_and!; [reflexivity|reflexivity| |].
  - unfold normal_checkpoint; simpl. split_and!; eauto using trim_idem with s2core.
    eexists. split; [done|]. unfold sort_strings. split_and!.
    + by rewrite sort_by_perm.
    + by rewrite sort_by_NoDup.
    + apply sort_by_id. apply (sort_on_sorted id).
  - by apply has_false.
Qed.

Lemma normalizeCheckpoint_id seen o x :
  normal_checkpoint x -> cp_id x ∉ seen ->
  normalizeCheckpoint (seen, o) x = Ok (seen ++ [cp_id x], o ++ [x]).
Proof.
  intros (Hi & Hr & Hl & [req Hreq] & ds & Hds & Hv & Hnd & Hs) Hseen.
  unfold normalizeCheckpoint.
  assert (forall id, valid_id id -> normalizeIdOrThrow id = Ok id) as Hid
    by (intros; by apply normalizeId_fixpoint).
  rewrite (Hid _ Hi), (Hid _ Hr), Hds. unfold mbind, result_bind. cbn [default from_option id].
  rewrite (proj2 (has_false _ _) Hseen), (normalizeIds_id ds Hv),
    (proj2 (rejectDuplicates_iff ds ds)) by done. cbn.
  rewrite Hs, Hl, Hreq. destruct x; simpl in *; by subst.
Qed.

(** ** Payout records *)

Definition normal_entry (kv : string * number) : Prop :=
  valid_id kv.1 /\ exists z, kv.2 = NInt z /\ 0 <= z.

Lemma normalizeEntries_normal s e : normalizeEntries s = Ok e -> normal_record e.
Proof.
  unfold normalizeEntries. intros HN. apply bind_Ok in HN as ([seen es] & HF & HN). injection HN as <-.
  apply (collect_normal fst normal_entry normalizeEntry) in HF as [Hn Hnd].
  - assert (NoDup (mkeys (sort_on fst es))) as Hnd'.
    { unfold mkeys. by rewrite sort_on_perm. }
    rewrite mof_id by done. split_and!; [by rewrite sort_on_perm|done|apply sort_on_id].
  - clear. intros seen o [k v] seen' o' HE. unfold normalizeEntry in HE. bind_ok. simplify_eq.
    eexists (_, v). split_and!; [reflexivity|reflexivity| |by apply has_false].
    split; [eauto with s2core|]. destruct v as [z|]; [|done]. exists z. split; [done|]. lia.
Qed.

Lemma normalizeEntries_id s : normal_record s -> normalizeEntries s = Ok s.
Proof.
  intros (Hn & Hnd & Hs). unfold normalizeEntries.
  pose proof (collect_id fst normal_entry normalizeEntry s) as Hc.
  rewrite Hc; [|clear|done|done].
  - cbn. by rewrite Hs, mof_id.
  - intros seen o [k v] (Hv & z & Hz & Hpos) Hseen. simpl in *.
    unfold validation_normalizeIdOrThrow. rewrite normalizeId_fixpoint by done. cbn.
    rewrite (proj2 (has_false _ _) Hseen), Hz, (proj2 (Z.ltb_ge z 0)) by done. done.
Qed.

Lemma normalizeRequired_normal s e : normalizeRequiredNumericRecord s = Ok e -> normal_record e.
Proof.
  unfold normalizeRequiredNumericRecord, normalizeNumericRecord. intros HN. bind_ok.
  simplify_eq. simpl. by eapply normalizeEntries_normal.
Qed.

Lemma normalizeRequired_id s : normal_record s -> normalizeRequiredNumericRecord s = Ok s.
Proof.
  intros Hs. unfold normalizeRequiredNumericRecord, normalizeNumericRecord.
  by rewrite (normalizeEntries_id s Hs).
Qed.

Lemma normalizePayoutConfig_normal c c' : normalizePayoutConfig c = Ok c' -> normal_payout c'.
Proof.
  unfold normalizePayoutConfig. intros HN. apply bind_Ok in HN as (pens & Hp & HN).
  apply bind_Ok in HN as (mode & Hm & HN). injection HN as <-. split; simpl.
  - destruct (payout_mode c); apply bind_Ok in Hm as (r & Hr & Hm); injection Hm as <-; simpl;
      by eapply normalizeRequired_normal.
  - unfold normalizeNumericRecord in Hp. destruct (roleFailurePenaltyBps c).
    + bind_ok. subst. by eapply normalizeEntries_normal.
    + by injection Hp as <-.
Qed.

Lemma normalizePayoutConfig_id c : normal_payout c -> normalizePayoutConfig c = Ok c.
Proof.
  destruct c as [mode pens red]. intros [Hm Hp]; simpl in *. unfold normalizePayoutConfig; simpl.
  assert (normalizeNumericRecord pens = Ok pens) as ->.
  { destruct pens; [|done]. simpl. by rewrite normalizeEntries_id. }
  unfold mbind, result_bind.
  destruct mode; simpl in Hm; by rewrite (normalizeRequired_id _ Hm).
Qed.

(** ** The whole template *)

Lemma normalizeTeamTemplate_normal t t' : normalizeTeamTemplate t = Ok t' -> normal_template t'.
Proof.
  unfold normalizeTeamTemplate. intros HN. apply bind_Ok in HN as (i & Hi & HN).
  apply bind_Ok in HN as (? & Hn & HN). apply throw_if_Ok in Hn.
  apply bind_Ok in HN as ([ids rs] & Hr & HN). apply bind_Ok in HN as ([cids cps] & Hc & HN).
  apply bind_Ok in HN as (p & Hp & HN). injection HN as <-.
  apply (collect_normal role_id normal_role) in Hr as [Hr1 Hr2]; [|apply normalizeRole_normal].
  apply (collect_normal cp_id normal_checkpoint) in Hc as [Hc1 Hc2];
    [|apply normalizeCheckpoint_normal].
  constructor; simpl.
  - eauto with s2core.
  - split; [apply trim_idem|]. intros E. by rewrite E in Hn.
  - split_and!; [by rewrite sort_on_perm|by rewrite sort_on_perm|apply sort_on_id].
  - split_and!; [by rewrite sort_on_perm|by rewrite sort_on_perm|apply sort_on_id].
  - by eapply normalizePayoutConfig_normal.
Qed.

Lemma normalizeTeamTemplate_fixpoint t : normal_template t -> normalizeTeamTemplate t = Ok t.
Proof.
  intros [Hi [Hn Hn0] (Hr1 & Hr2 & Hr3) (Hc1 & Hc2 & Hc3) Hp].
  unfold normalizeTeamTemplate, validation_normalizeIdOrThrow at 1.
  rewrite normalizeId_fixpoint by done. cbn. rewrite Hn. destruct t as [i n rs cs p m]; simpl in *.
  destruct n as [|c n]; [done|]. cbn.
  rewrite (collect_id role_id normal_role normalizeRole rs normalizeRole_id Hr1 Hr2). cbn.
  rewrite (collect_id cp_id normal_checkpoint normalizeCheckpoint cs normalizeCheckpoint_id Hc1 Hc2).
  cbn. rewrite normalizePayoutConfig_id by done. cbn. by rewrite Hr3, Hc3.
Qed.

(** Normalisation is idempotent: normalising a template that came out of
    [normalizeTeamTemplate] succeeds and returns it unchanged, so ids, labels,
    orders and defaults are in canonical form after one pass. *)
Theorem normalizeTeamTemplate_idempotent (t t' : TeamTemplate) :
  normalizeTeamTemplate t = Ok t' -> normalizeTeamTemplate t' = Ok t'.
Proof. intros HN. by eapply normalizeTeamTemplate_fixpoint, normalizeTeamTemplate_normal. Qed.
End Normalize.

(** ** Witness *)

Definition ex_raw_template : TeamTemplate :=
  {| template_id := " Team:A "; template_name := "  Builders ";
     roles := [{| role_id := "QA"; requiredCapabilities := 2; minMembers := None; maxMembers := None |};
               {| role_id := " dev"; requiredCapabilities := 1; minMembers := None;
                  maxMembers := Some (NInt 2) |}];
     checkpoints := [{| cp_id := "Test"; cp_roleId := "qa"; cp_label := " run tests ";
                        cp_dependsOn := Some ["BUILD"%string]; cp_required := None |};
                     {| cp_id := "build"; cp_roleId := "DEV"; cp_label := "build";
                        cp_dependsOn := None; cp_required := Some false |}];
     payout := {| payout_mode := Fixed [("QA", NInt 4000); ("dev", NInt 6000)]%string;
                  roleFailurePenaltyBps := None; redistributePenalties := None |};
     template_metadata := None |}.

Definition ex_normal_template : TeamTemplate :=
  {| template_id := "team:a"; template_name := "Builders";
     roles := [{| role_id := "dev"; requiredCapabilities := 1; minMembers := Some (NInt 1);
                  maxMembers := Some (NInt 2) |};
               {| role_id := "qa"; requiredCapabilities := 2; minMembers := Some (NInt 1);
                  maxMembers := Some (NInt 1) |}];
     checkpoints := [{| cp_id := "build"; cp_roleId := "dev"; cp_label := "build";
                        cp_dependsOn := Some []; cp_required := Some false |};
                     {| cp_id := "test"; cp_roleId := "qa"; cp_label := "run tests";
                        cp_dependsOn := Some ["build"%string]; cp_required := Some true |}];
     payout := {| payout_mode := Fixed [("dev", NInt 6000); ("qa", NInt 4000)]%string;
                  roleFailurePenaltyBps := None; redistributePenalties := None |};
     template_metadata := None |}.

Lemma normalizeTeamTemplate_idempotent_witness :
  normalizeTeamTemplate ex_normal_template = Ok ex_normal_template.
Proof.
  apply (normalizeTeamTemplate_idempotent ex_raw_template). vm_compute. reflexivity.
Defined.
