(* ===== verification/TeamAudit.v ===== *)
(** * Audit store (src/runtime/src/team/audit.ts)

    The interface [TeamAuditStore] the engine writes its events to, the laws
    the engine's audit theorem needs of it, and [InMemoryTeamAuditStore], the
    bounded store the engine uses by default, which meets them. *)
From S2P Require Import Prelude JsMap TeamTypes.

(** The interface. [append] may throw (the engine catches it). *)
Class TeamAuditStore (St : Type) := {
  append : TeamAuditEvent -> St -> St * result team_error unit;
  list_events : string -> St -> list TeamAuditEvent;
  clear : string -> St -> St;
}.

(** What a client may rely on: an append touches only its own contract's
    events, adds the event at the end, and may evict the oldest ones; a failed
    append adds nothing; clear empties one contract's events. *)
Class TeamAuditStoreLaws (St : Type) `{!TeamAuditStore St} : Prop := {
  append_frame ev s c :
    c <> ev_contractId ev -> list_events c (append ev s).1 = list_events c s;
  append_suffix ev s s' :
    append ev s = (s', Ok tt) ->
    exists k, list_events (ev_contractId ev) s' = drop k (list_events (ev_contractId ev) s ++ [ev]);
  append_failed ev s s' e c :
    append ev s = (s', Err e) -> list_events c s' = list_events c s;
  clear_spec c c' s :
    list_events c' (clear c s) = if String.eqb c' c then [] else list_events c' s;
}.

(** ** InMemoryTeamAuditStore *)

Module InMemoryTeamAuditStore.
Record t := {
  events : jsmap (list TeamAuditEvent);
  maxEventsPerContract : nat;
}.

(** [constructor]: [config.maxEventsPerContract ?? 5_000]. *)
Definition constructor (config : option nat) : t :=
  {| events := []; maxEventsPerContract := default 5000 config |}.

(** [while (bucket.length > max) bucket.shift()]. *)
Fixpoint evict (max : nat) (bucket : list TeamAuditEvent) : list TeamAuditEvent :=
  match bucket with
  | [] => []
  | _ :: rest => if (max <? length bucket)%nat then evict max rest else bucket
  end.

Definition append_event (event : TeamAuditEvent) (store : t) : t :=
  let bucket := default [] (mget (events store) (ev_contractId event)) in
  let bucket := evict (maxEventsPerContract store) (bucket ++ [event]) in
  {| events := mset (ev_contractId event) bucket (events store);
     maxEventsPerContract := maxEventsPerContract store |}.

Definition list_of (contractId : string) (store : t) : list TeamAuditEvent :=
  default [] (mget (events store) contractId).

Definition clear_of (contractId : string) (store : t) : t :=
  {| events := mdel contractId (events store);
     maxEventsPerContract := maxEventsPerContract store |}.

#[global] Instance store : TeamAuditStore t := {|
  append event s := (append_event event s, Ok tt);
  list_events := list_of;
  clear := clear_of;
|}.

(** The eviction loop drops exactly the surplus oldest events. *)
Lemma evict_drop max bucket : evict max bucket = drop (length bucket - max) bucket.
Proof.
  induction bucket as [|e bucket IH]; [done|]. cbn [evict].
  destruct (Nat.ltb_spec max (length (e :: bucket))) as [Hlt|Hge].
  - rewrite IH. cbn [length] in *. by replace (S (length bucket) - max)%nat
      with (S (length bucket - max)) by lia.
  - by replace (length (e :: bucket) - max)%nat with 0%nat by lia.
Qed.

Lemma list_of_append ev s c :
  list_of c (append_event ev s) =
  if String.eqb c (ev_contractId ev)
  then drop (S (length (list_of c s)) - maxEventsPerContract s) (list_of c s ++ [ev])
  else list_of c s.
Proof.
  unfold list_of, append_event; simpl. rewrite mget_mset.
  destruct (String.eqb_spec c (ev_contractId ev)) as [->|]; [|done]. simpl.
  rewrite evict_drop, length_app. simpl. by rewrite Nat.add_1_r.
Qed.

#[global] Instance laws : TeamAuditStoreLaws t.
Proof.
  split; unfold append, list_events, clear, store.
  - intros ev s c Hne. cbn [fst]. rewrite list_of_append. by destruct (String.eqb_spec c (ev_contractId ev)).
  - intros ev s s' [= <-]. rewrite list_of_append, String.eqb_refl. eauto.
  - by intros.
  - intros c c' s. unfold list_of, clear_of; simpl. rewrite mget_mdel.
    by destruct (String.eqb c' c).
Qed.

Lemma max_foldl s evs :
  maxEventsPerContract (foldl (fun s e => append_event e s) s evs) = maxEventsPerContract s.
Proof. revert s. induction evs as [|e evs IH]; intros s; simpl; [done|]. by rewrite IH. Qed.

(** Appending the events [evs] to an empty store keeps, for each
    contract, exactly its newest [max] events, in the order they were
    appended, whatever events of other contracts are interleaved. *)
Theorem inMemory_keeps_newest (max : nat) (evs : list TeamAuditEvent) (c : string) :
  let own := List.filter (fun e => String.eqb c (ev_contractId e)) evs in
  list_of c (foldl (fun s e => append_event e s) (constructor (Some max)) evs) =
  drop (length own - max) own.
Proof.
  cbv zeta. induction evs as [|e evs IH] using rev_ind; [done|].
  rewrite foldl_snoc, List.filter_app, list_of_append, IH, max_foldl. simpl.
  destruct (String.eqb_spec c (ev_contractId e)); [|by rewrite app_nil_r].
  set (own := List.filter _ evs). rewrite length_drop, length_app. cbn [length constructor maxEventsPerContract default from_option id].
  destruct (decide (max <= length own)%nat).
  - rewrite <-drop_app_le, drop_drop by lia. f_equal. lia.
  - replace (length own - max)%nat with 0%nat by lia. rewrite drop_0. f_equal. lia.
Qed.
End InMemoryTeamAuditStore.
