(* ===== verification/TeamCheckpoints.v ===== *)
(** * Checkpoint propagation (src/runtime/src/team/engine.ts)

    The checkpoint map of a contract and the two loops that propagate status
    changes over the dependency graph: [refreshCheckpointReadiness], which runs
    until nothing changes, and [blockDependentCheckpoints], a breadth-first
    search from a failed checkpoint. *)
From S2P Require Import Prelude JsMap TeamTypes TeamPayout TeamPayoutStages.
#[local] Open Scope Z_scope.

Abbreviation Checkpoints := (jsmap TeamCheckpointState).

Definition with_status (st : TeamCheckpointStatus) (c : TeamCheckpointState) : TeamCheckpointState :=
  {| cs_id := cs_id c; cs_roleId := cs_roleId c; cs_label := cs_label c;
     cs_dependsOn := cs_dependsOn c; cs_required := cs_required c; cs_status := st;
     completedBy := completedBy c; cs_completedAt := cs_completedAt c;
     outputDigest := outputDigest c; failedBy := failedBy c; failedAt := failedAt c;
     failureReason := failureReason c |}.

(** [dep?.status === st] *)
Definition dep_is (cps : Checkpoints) (st : TeamCheckpointStatus) (depId : string) : bool :=
  match mget cps depId with Some dep => bool_decide (cs_status dep = st) | None => false end.

Definition hasFailedDependency (cps : Checkpoints) (dependsOn : list string) : bool :=
  existsb (fun d => dep_is cps cpFailed d || dep_is cps cpBlocked d) dependsOn.

Definition dependenciesComplete (cps : Checkpoints) (dependsOn : list string) : bool :=
  forallb (dep_is cps cpCompleted) dependsOn.

(** One iteration of the [for] loop of [refreshCheckpointReadiness]. *)
Definition refreshOne (acc : Checkpoints * bool) (key : string) : Checkpoints * bool :=
  let '(cps, changed) := acc in
  match mget cps key with
  | None => (cps, changed)
  | Some c =>
      match cs_status c with
      | cpCompleted | cpFailed | cpBlocked => (cps, changed)
      | cpPending | cpReady =>
          if hasFailedDependency cps (cs_dependsOn c)
          then (mset key (with_status cpBlocked c) cps, true)
          else
            let nextStatus :=
              if dependenciesComplete cps (cs_dependsOn c) then cpReady else cpPending in
            if bool_decide (cs_status c <> nextStatus)
            then (mset key (with_status nextStatus c) cps, true)
            else (cps, changed)
      end
  end.

Definition refreshPass (cps : Checkpoints) : Checkpoints * bool :=
  foldl refreshOne (cps, false) (mkeys cps).

(** The [while (changed)] loop. *)
Fixpoint refreshLoop (fuel : nat) (cps : Checkpoints) : option Checkpoints :=
  match fuel with
  | O => None
  | S fuel =>
      let '(cps', changed) := refreshPass cps in
      if changed then refreshLoop fuel cps' else Some cps'
  end.

Definition refreshCheckpointReadiness (cps : Checkpoints) : option Checkpoints :=
  refreshLoop (S (2 * length cps)) cps.

Definition areDependenciesCompleted (cps : Checkpoints) (dependencies : list string) : bool :=
  forallb (fun d => match mget cps d with
                    | None => false
                    | Some dep => negb (bool_decide (cs_status dep <> cpCompleted))
                    end) dependencies.

Definition areAllRequiredCheckpointsCompleted (cps : Checkpoints) : bool :=
  forallb (fun c => negb (cs_required c) || bool_decide (cs_status c = cpCompleted)) (mvals cps).

(** One iteration of the [for] loop of [blockDependentCheckpoints]. *)
Definition blockOne (current : string) (acc : list string * list string * Checkpoints)
    (key : string) : list string * list string * Checkpoints :=
  let '(queue, seen, cps) := acc in
  match mget cps key with
  | None => (queue, seen, cps)
  | Some c =>
      if negb (has (cs_dependsOn c) current) then (queue, seen, cps)
      else if has seen (cs_id c) then (queue, seen, cps)
      else
        let cps :=
          match cs_status c with
          | cpCompleted | cpFailed => cps
          | _ => mset key (with_status cpBlocked c) cps
          end in
        (queue ++ [cs_id c], seen ++ [cs_id c], cps)
  end.

(** The [while (queue.length > 0)] loop. *)
Fixpoint blockLoop (fuel : nat) (queue seen : list string) (cps : Checkpoints)
    : option Checkpoints :=
  match queue with
  | [] => Some cps
  | current :: queue =>
      match fuel with
      | O => None
      | S fuel =>
          let '(queue, seen, cps) := foldl (blockOne current) (queue, seen, cps) (mkeys cps) in
          blockLoop fuel queue seen cps
      end
  end.

Definition blockDependentCheckpoints (cps : Checkpoints) (failedCheckpointId : string)
    : option Checkpoints :=
  blockLoop (S (length cps)) [failedCheckpointId] [failedCheckpointId] cps.

(** ** Shape: everything but the statuses *)

Definition shape (cps : Checkpoints) : Checkpoints := mmap (with_status cpPending) cps.

Lemma shape_mset cps k c st :
  mget cps k = Some c -> shape (mset k (with_status st c) cps) = shape cps.
Proof.
  intros Hc. unfold shape. rewrite mmap_mset. apply mset_id. by rewrite mget_mmap, Hc.
Qed.

Lemma shape_keys cps cps' : shape cps = shape cps' -> mkeys cps = mkeys cps'.
Proof. intros Hs. rewrite <-(mkeys_mmap (with_status cpPending)). fold (shape cps). rewrite Hs. apply mkeys_mmap. Qed.

Lemma shape_get cps cps' k c :
  shape cps = shape cps' -> mget cps k = Some c ->
  mget cps' k = Some (with_status (from_option cs_status cpPending (mget cps' k)) c).
Proof.
  intros Hs Hc. assert (mget (shape cps) k = mget (shape cps') k) as Hg by congruence.
  unfold shape in Hg. rewrite !mget_mmap, Hc in Hg. destruct (mget cps' k) as [c'|]; [|done].
  simpl in *. f_equal. injection Hg. destruct c, c'. unfold with_status. simpl. congruence.
Qed.
