(* ===== verification/TeamCheckpointsSpec.v ===== *)
(** * Checkpoint propagation: what the two loops compute

    [settled]: every checkpoint's status is the one its dependencies call for.
    The readiness loop terminates on every map and settles it; the blocking
    search terminates and blocks exactly the open transitive dependents of the
    failed checkpoint. *)
From S2P Require Import Prelude JsMap TeamTypes TeamPayout TeamPayoutStages TeamCheckpoints.
#[local] Open Scope Z_scope.

(** ** Settled checkpoint maps *)

Definition partly_settled (cps : Checkpoints) : Prop :=
  forall k c, mget cps k = Some c ->
    (cs_status c = cpCompleted -> dependenciesComplete cps (cs_dependsOn c) = true) /\
    (cs_status c = cpBlocked -> hasFailedDependency cps (cs_dependsOn c) = true).

Definition settled (cps : Checkpoints) : Prop :=
  forall k c, mget cps k = Some c ->
    match cs_status c with
    | cpCompleted => dependenciesComplete cps (cs_dependsOn c) = true
    | cpReady => dependenciesComplete cps (cs_dependsOn c) = true /\
                 hasFailedDependency cps (cs_dependsOn c) = false
    | cpPending => dependenciesComplete cps (cs_dependsOn c) = false /\
                   hasFailedDependency cps (cs_dependsOn c) = false
    | cpBlocked => hasFailedDependency cps (cs_dependsOn c) = true
    | cpFailed => True
    end.

Definition open_status (st : TeamCheckpointStatus) : bool :=
  match st with cpPending | cpReady => true | _ => false end.

Lemma settled_partly cps : settled cps -> partly_settled cps.
Proof. intros Hs k c Hc. specialize (Hs k c Hc). destruct (cs_status c); split; intros; done. Qed.

(** How a map evolves under the readiness loop: only open checkpoints change
    status, and only to another open status or to blocked. *)
Record evolves (cps cps' : Checkpoints) : Prop := {
  ev_shape : shape cps' = shape cps;
  ev_completed d : dep_is cps' cpCompleted d = dep_is cps cpCompleted d;
  ev_failed d : dep_is cps' cpFailed d = dep_is cps cpFailed d;
  ev_blocked d : dep_is cps cpBlocked d = true -> dep_is cps' cpBlocked d = true;
}.

#[export] Instance evolves_preorder : PreOrder evolves.
Proof.
  split; [by split|]. intros a b c [] []. split; eauto; etransitivity; eauto.
Qed.

Lemma dep_is_mset cps k c st s d :
  dep_is (mset k (with_status st c) cps) s d =
  if String.eqb d k then bool_decide (st = s) else dep_is cps s d.
Proof. unfold dep_is. rewrite mget_mset. by destruct (String.eqb d k). Qed.

Lemma dep_is_get cps k c s : mget cps k = Some c -> dep_is cps s k = bool_decide (cs_status c = s).
Proof. intros Hc. unfold dep_is. by rewrite Hc. Qed.

Lemma evolves_complete cps cps' ds :
  evolves cps cps' -> dependenciesComplete cps' ds = dependenciesComplete cps ds.
Proof.
  intros He. unfold dependenciesComplete. induction ds; simpl; [done|].
  by rewrite (ev_completed _ _ He), IHds.
Qed.

Lemma evolves_failed cps cps' ds :
  evolves cps cps' -> hasFailedDependency cps ds = true -> hasFailedDependency cps' ds = true.
Proof.
  intros He. unfold hasFailedDependency. rewrite !existsb_exists.
  intros (d & Hd & Hb). exists d. split; [done|]. rewrite (ev_failed _ _ He).
  apply orb_true_iff in Hb as [->|Hb]; [done|]. rewrite (ev_blocked _ _ He) by done. by rewrite orb_true_r.
Qed.

Lemma mset_evolves cps k c st :
  mget cps k = Some c -> open_status (cs_status c) = true -> st <> cpCompleted -> st <> cpFailed ->
  evolves cps (mset k (with_status st c) cps).
Proof.
  intros Hc Ho H1 H2. split; [by eapply shape_mset|..]; intros d; rewrite dep_is_mset;
    destruct (String.eqb_spec d k) as [->|]; try done; rewrite (dep_is_get _ _ _ _ Hc);
    by destruct (cs_status c), st.
Qed.

(** ** One step of the readiness loop *)

Definition changes (cps : Checkpoints) (k : string) (cps' : Checkpoints) : Prop :=
  exists c st, mget cps k = Some c /\ open_status (cs_status c) = true /\ st <> cs_status c /\
    cps' = mset k (with_status st c) cps /\
    match st with
    | cpBlocked => hasFailedDependency cps (cs_dependsOn c) = true
    | cpReady => dependenciesComplete cps (cs_dependsOn c) = true
    | cpPending => dependenciesComplete cps (cs_dependsOn c) = false
    | _ => False
    end.

Definition quiet (cps : Checkpoints) (k : string) : Prop :=
  forall c, mget cps k = Some c -> open_status (cs_status c) = true ->
    hasFailedDependency cps (cs_dependsOn c) = false /\
    cs_status c = if dependenciesComplete cps (cs_dependsOn c) then cpReady else cpPending.

Lemma refreshOne_cases cps ch k :
  (refreshOne (cps, ch) k = (cps, ch) /\ quiet cps k) \/
  (exists cps', refreshOne (cps, ch) k = (cps', true) /\ changes cps k cps').
Proof.
  unfold refreshOne, quiet, changes. destruct (mget cps k) as [c|] eqn:Hc; [|by left].
  assert (open_status (cs_status c) = false -> (cps, ch) = (cps, ch) /\ forall c', Some c = Some c' ->
    open_status (cs_status c') = true -> hasFailedDependency cps (cs_dependsOn c') = false /\
    cs_status c' = if dependenciesComplete cps (cs_dependsOn c') then cpReady else cpPending) as Hcl.
  { intros Hf. split; [done|]. intros c' [= <-]. by rewrite Hf. }
  destruct (cs_status c) eqn:Hs; try (left; by apply Hcl); clear Hcl;
    (destruct (hasFailedDependency cps (cs_dependsOn c)) eqn:Hf;
     [right; eexists; split; [reflexivity|]; exists c, cpBlocked; by rewrite Hs|]);
    destruct (dependenciesComplete cps (cs_dependsOn c)) eqn:Hd; simpl;
    first [ left; split; [done|]; intros c' [= <-] _; by rewrite Hf, Hd, Hs
          | right; eexists; split; [reflexivity|]; exists c; eexists; rewrite Hs;
            split_and!; [done|done| |reflexivity|]; simpl; done ].
Qed.

Lemma changes_evolves cps k cps' : changes cps k cps' -> evolves cps cps'.
Proof.
  intros (c & st & Hc & Ho & _ & -> & Hst). apply mset_evolves; [done..| |]; by intros ->.
Qed.

(** ** Termination: every change lowers the weight of the map *)

Definition weight (dc : list string -> bool) (c : TeamCheckpointState) : Z :=
  match cs_status c with
  | cpPending => if dc (cs_dependsOn c) then 2 else 1
  | cpReady => if dc (cs_dependsOn c) then 1 else 2
  | _ => 0
  end.

Definition total_weight (dc : list string -> bool) (cps : Checkpoints) : Z :=
  msum (mmap (weight dc) cps).

Lemma weight_bounds dc cps : 0 <= total_weight dc cps <= 2 * Z.of_nat (length cps).
Proof.
  unfold total_weight, msum, mvals. induction cps as [|[k c] cps IH]; simpl; [lia|].
  assert (0 <= weight dc c <= 2) by (unfold weight; destruct (cs_status c), (dc (cs_dependsOn c)); lia). lia.
Qed.

Lemma changes_weight dc cps k cps' :
  (forall ds, dc ds = dependenciesComplete cps ds) -> changes cps k cps' ->
  total_weight dc cps' < total_weight dc cps.
Proof.
  intros Hdc (c & st & Hc & Ho & Hne & -> & Hst). unfold total_weight.
  rewrite mmap_mset, msum_mset. unfold mget0. rewrite mget_mmap, Hc. simpl.
  assert (weight dc (with_status st c) < weight dc c); [|lia].
  unfold weight; simpl. rewrite !Hdc.
  destruct (cs_status c), st; simpl in *; try done; rewrite ?Hst; try lia;
    destruct (dependenciesComplete cps (cs_dependsOn c)); lia.
Qed.

Lemma refreshFold_spec dc ks cps ch cps' ch' :
  (forall ds, dc ds = dependenciesComplete cps ds) ->
  foldl refreshOne (cps, ch) ks = (cps', ch') ->
  evolves cps cps' /\
  ((cps' = cps /\ ch' = ch /\ forall k, k ∈ ks -> quiet cps k) \/
   (ch' = true /\ total_weight dc cps' < total_weight dc cps)).
Proof.
  revert cps ch. induction ks as [|k ks IH]; intros cps ch Hdc HF; cbn [foldl] in HF.
  { injection HF as <- <-. split; [done|]. left. split_and!; [done..|]. by intros k ?%not_elem_of_nil. }
  destruct (refreshOne_cases cps ch k) as [[Hr Hq]|(cps1 & Hr & Hch)]; rewrite Hr in HF.
  - apply IH in HF as [He [(-> & -> & Hks)|HF]]; [..|done]; (split; [done|]); [left|by right].
    split_and!; [done..|]. intros k' [->|Hk']%elem_of_cons; auto.
  - pose proof (changes_evolves _ _ _ Hch) as He1. pose proof (changes_weight dc _ _ _ Hdc Hch) as Hw.
    apply IH in HF as [He [(-> & -> & _)|[-> Hw']]].
    + split; [done|]. by right.
    + split; [by etransitivity|]. right. split; [done|lia].
    + intros ds. by rewrite (evolves_complete cps cps1).
Qed.

Lemma refreshLoop_spec dc fuel cps :
  (forall ds, dc ds = dependenciesComplete cps ds) ->
  total_weight dc cps < Z.of_nat fuel ->
  exists cps', refreshLoop fuel cps = Some cps' /\ evolves cps cps' /\
    forall k, k ∈ mkeys cps' -> quiet cps' k.
Proof.
  revert cps. induction fuel as [|fuel IH]; intros cps Hdc Hw.
  { pose proof (weight_bounds dc cps). lia. }
  cbn [refreshLoop]. destruct (refreshPass cps) as [cps1 ch] eqn:HP.
  apply (refreshFold_spec dc) in HP as [He [(-> & -> & Hq)|[-> Hlt]]]; [..|done].
  - eauto.
  - destruct (IH cps1) as (cps' & Hr & He' & Hq); [|lia|].
    + intros ds. by rewrite (evolves_complete cps cps1).
    + exists cps'. split_and!; [done| |done]. by etransitivity.
Qed.

Lemma refresh_spec cps :
  exists cps', refreshCheckpointReadiness cps = Some cps' /\ evolves cps cps' /\
    forall k, k ∈ mkeys cps' -> quiet cps' k.
Proof.
  apply (refreshLoop_spec (dependenciesComplete cps)); [done|].
  pose proof (weight_bounds (dependenciesComplete cps) cps). lia.
Qed.

(** ** The readiness loop settles the map *)

Lemma changes_partly cps k cps' : changes cps k cps' -> partly_settled cps -> partly_settled cps'.
Proof.
  intros Hch Hp. pose proof (changes_evolves _ _ _ Hch) as He.
  assert (forall k c, mget cps k = Some c ->
    (cs_status c = cpCompleted -> dependenciesComplete cps' (cs_dependsOn c) = true) /\
    (cs_status c = cpBlocked -> hasFailedDependency cps' (cs_dependsOn c) = true)) as Hp'.
  { intros k' c' [H1 H2]%Hp. rewrite (evolves_complete _ _ _ He). eauto using evolves_failed. }
  destruct Hch as (c & st & Hc & Ho & Hne & -> & Hst).
  intros k' c'. rewrite mget_mset. destruct (String.eqb_spec k' k) as [->|]; [|apply Hp'].
  intros [= <-]. simpl. split; [by intros ->|]. intros ->. by eapply evolves_failed.
Qed.

Lemma refreshFold_partly ks acc :
  partly_settled acc.1 -> partly_settled (foldl refreshOne acc ks).1.
Proof.
  revert acc. induction ks as [|k ks IH]; intros [cps ch] Hp; [done|]. cbn [foldl]. apply IH.
  destruct (refreshOne_cases cps ch k) as [[-> _]|(cps1 & -> & Hch)]; [done|].
  by eapply changes_partly.
Qed.

Lemma refreshLoop_partly fuel cps cps' :
  refreshLoop fuel cps = Some cps' -> partly_settled cps -> partly_settled cps'.
Proof.
  revert cps. induction fuel as [|fuel IH]; intros cps; cbn [refreshLoop]; [done|].
  destruct (refreshPass cps) as [cps1 ch] eqn:HP. intros HF Hp.
  assert (partly_settled cps1) as Hp1.
  { apply (refreshFold_partly (mkeys cps) (cps, false)) in Hp. unfold refreshPass in HP. by rewrite HP in Hp. }
  destruct ch; [by eapply IH|]. by injection HF as <-.
Qed.

Lemma refresh_settles cps :
  partly_settled cps ->
  exists cps', refreshCheckpointReadiness cps = Some cps' /\ evolves cps cps' /\ settled cps'.
Proof.
  intros Hp. destruct (refresh_spec cps) as (cps' & Hr & He & Hq).
  exists cps'. split_and!; [done|done|]. apply refreshLoop_partly in Hr; [|done].
  intros k c Hc. destruct (Hr k c Hc) as [H1 H2]. specialize (Hq k).
  rewrite <-mget_is_Some_keys in Hq. specialize (Hq (mk_is_Some _ _ Hc) c Hc).
  destruct (cs_status c); simpl in Hq; auto; destruct (Hq eq_refl) as [Hf Hs];
    by destruct (dependenciesComplete cps' (cs_dependsOn c)).
Qed.

(** C8. The readiness loop terminates on every checkpoint map whose completed
    and blocked checkpoints are justified, within the passes its fuel allows,
    and leaves a settled map: a ready checkpoint has all its dependencies
    completed, a pending one waits for one, a blocked one has a failed or
    blocked dependency. Only statuses change: no checkpoint becomes or stops
    being completed or failed, and none is unblocked. *)
Theorem refresh_terminates_settled (cps : Checkpoints) :
  partly_settled cps ->
  exists cps', refreshCheckpointReadiness cps = Some cps' /\ settled cps' /\
    shape cps' = shape cps /\
    forall d, dep_is cps' cpCompleted d = dep_is cps cpCompleted d /\
              dep_is cps' cpFailed d = dep_is cps cpFailed d /\
              (dep_is cps cpBlocked d = true -> dep_is cps' cpBlocked d = true).
Proof.
  intros (cps' & Hr & [H1 H2 H3 H4] & Hs)%refresh_settles. exists cps'. split_and!; auto.
Qed.

(** ** The blocking search *)

(** Keys are the checkpoints' ids. *)
Definition ids_ok (cps : Checkpoints) : Prop :=
  NoDup (mkeys cps) /\ forall k c, mget cps k = Some c -> cs_id c = k.

(** [depends cps d k]: checkpoint [k] has [d] among its dependencies. *)
Definition dependsb (cps : Checkpoints) (d k : string) : bool :=
  match mget cps k with Some c => has (cs_dependsOn c) d | None => false end.
Definition depends (cps : Checkpoints) (d k : string) : Prop := dependsb cps d k = true.

Definition block_status (c : TeamCheckpointState) : TeamCheckpointState :=
  match cs_status c with cpCompleted | cpFailed => c | _ => with_status cpBlocked c end.

(** The map in which the open or blocked checkpoints of [X] are blocked. *)
Definition blockSet (X : list string) (cps : Checkpoints) : Checkpoints :=
  map (fun kv => (kv.1, if has X kv.1 then block_status kv.2 else kv.2)) cps.

Lemma has_app l1 l2 s : has (l1 ++ l2) s = has l1 s || has l2 s.
Proof. unfold has. by rewrite existsb_app. Qed.

Lemma mget_blockSet X cps k :
  mget (blockSet X cps) k = (fun c => if has X k then block_status c else c) <$> mget cps k.
Proof.
  induction cps as [|[k1 c1] cps IH]; simpl; [done|].
  by destruct (String.eqb_spec k k1) as [->|].
Qed.

Lemma mkeys_blockSet X cps : mkeys (blockSet X cps) = mkeys cps.
Proof. unfold mkeys, blockSet. by rewrite map_map. Qed.

Lemma blockSet_nil cps : blockSet [] cps = cps.
Proof. unfold blockSet. induction cps as [|[k c] cps IH]; [done|]. cbn. by f_equal. Qed.

Lemma block_status_static c :
  cs_id (block_status c) = cs_id c /\ cs_dependsOn (block_status c) = cs_dependsOn c.
Proof. unfold block_status. by destruct (cs_status c). Qed.

Lemma blockSet_snoc X cps k c :
  NoDup (mkeys cps) -> mget cps k = Some c -> has X k = false ->
  blockSet (X ++ [k]) cps =
  match cs_status c with
  | cpCompleted | cpFailed => blockSet X cps
  | _ => mset k (with_status cpBlocked c) (blockSet X cps)
  end.
Proof.
  intros Hnd Hc Hk.
  assert (blockSet (X ++ [k]) cps = mset k (block_status c) (blockSet X cps)) as ->.
  { apply mget_ext.
    - by rewrite mkeys_blockSet.
    - rewrite mkeys_mset_in, !mkeys_blockSet; [done|]. rewrite mkeys_blockSet, <-mget_is_Some_keys. eauto.
    - intros k'. rewrite mget_mset, !mget_blockSet, has_app. unfold has at 2. simpl.
      rewrite orb_false_r. destruct (String.eqb_spec k' k) as [->|]; [by rewrite Hc, orb_true_r|].
      by rewrite orb_false_r. }
  unfold block_status. assert (mget (blockSet X cps) k = Some c) as Hg by (by rewrite mget_blockSet, Hc, Hk).
  destruct (cs_status c); try done; by apply mset_id.
Qed.

(** The dependents of [current] found by one run of the inner loop. *)
Definition found (cps : Checkpoints) (seen : list string) (current : string) (keys : list string)
    : list string :=
  List.filter (fun k => dependsb cps current k && negb (has seen k)) keys.

Lemma blockInner_spec cps current f queue X keys :
  ids_ok cps -> NoDup keys ->
  foldl (blockOne current) (queue, f :: X, blockSet X cps) keys =
  let new := found cps (f :: X) current keys in
  (queue ++ new, f :: X ++ new, blockSet (X ++ new) cps).
Proof.
  intros [Hnd Hid] Hk. cbv zeta. induction keys as [|k keys IH] using rev_ind.
  { cbn. by rewrite !app_nil_r. }
  apply NoDup_app in Hk as (Hk & Hdis & _).
  rewrite foldl_snoc, (IH Hk). unfold found at 4 5 6. rewrite List.filter_app.
  set (new := found cps (f :: X) current keys). change (List.filter _ keys) with new.
  assert (k ∉ new) as Hnew.
  { intros Hin. unfold new, found in Hin. rewrite list_elem_of_In, filter_In, <-list_elem_of_In in Hin.
    destruct Hin as [Hin _]. eapply Hdis; [done|constructor]. }
  unfold blockOne. rewrite mget_blockSet. cbn [List.filter]. unfold dependsb.
  destruct (mget cps k) as [c|] eqn:Hc; [|by rewrite !app_nil_r]. cbn [fmap option_fmap option_map].
  set (cc := if has (X ++ new) k then block_status c else c).
  assert (cs_id cc = k /\ cs_dependsOn cc = cs_dependsOn c) as [Hcid ->].
  { unfold cc. destruct (block_status_static c) as [H1 H2]. pose proof (Hid _ _ Hc).
    destruct (has (X ++ new) k); split; congruence. }
  rewrite Hcid. assert (has (f :: X ++ new) k = has (f :: X) k) as ->.
  { change (f :: X ++ new) with ((f :: X) ++ new). rewrite has_app.
    by rewrite (proj2 (has_false new k) Hnew), orb_false_r. }
  destruct (has (cs_dependsOn c) current); cbn [negb andb]; [|by rewrite !app_nil_r].
  destruct (has (f :: X) k) eqn:Hseen; cbn [negb andb]; [by rewrite !app_nil_r|].
  assert (has (X ++ new) k = false) as HX.
  { rewrite has_app, (proj2 (has_false new k) Hnew), orb_false_r.
    unfold has in *. simpl in Hseen. by apply orb_false_iff in Hseen as [_ ?]. }
  rewrite (app_assoc X new [k]), (blockSet_snoc _ _ _ _ Hnd Hc HX).
  unfold cc. rewrite HX. by rewrite <-(app_assoc queue).
Qed.

(** Transitive dependents of [f]. *)
Definition dependents (cps : Checkpoints) (f : string) : string -> Prop := tc (depends cps) f.

Record search_inv (cps : Checkpoints) (f : string) (done queue X : list string) : Prop := {
  si_split : f :: X = done ++ queue;
  si_nodup : NoDup (f :: X);
  si_keys : forall x, x ∈ X -> x ∈ mkeys cps;
  si_reach : forall x, x ∈ X -> dependents cps f x;
  si_closed : forall d k, d ∈ done -> depends cps d k -> k ∈ f :: X;
}.

Lemma found_spec cps seen current k :
  k ∈ found cps seen current (mkeys cps) <-> depends cps current k /\ k ∉ seen.
Proof.
  unfold found, depends. rewrite list_elem_of_In, filter_In, <-list_elem_of_In, andb_true_iff, negb_true_iff, has_false.
  split; [tauto|]. intros [Hd Hs]. split; [|done]. apply mget_is_Some_keys.
  unfold dependsb in Hd. destruct (mget cps k); [eauto|done].
Qed.

Lemma search_step cps f dn current queue X :
  ids_ok cps -> search_inv cps f dn (current :: queue) X ->
  let new := found cps (f :: X) current (mkeys cps) in
  search_inv cps f (dn ++ [current]) (queue ++ new) (X ++ new).
Proof.
  intros [Hnd Hid] [Hsp HND Hk Hre Hcl] new.
  assert (f = current \/ dependents cps f current) as Hcur.
  { assert (current ∈ f :: X) as Hin by (rewrite Hsp; set_solver).
    apply elem_of_cons in Hin as [->|Hin]; auto. }
  assert (forall k, k ∈ new <-> depends cps current k /\ k ∉ f :: X) as Hnew by apply found_spec.
  split.
  - change (f :: X ++ new) with ((f :: X) ++ new). rewrite Hsp, <-!app_assoc. done.
  - change (f :: X ++ new) with ((f :: X) ++ new). apply NoDup_app. split_and!; [done| |].
    + intros x Hx [_ Hn]%Hnew. done.
    + by apply NoDup_ListNoDup, List.NoDup_filter, NoDup_ListNoDup.
  - intros x [Hx|Hx]%elem_of_app; [by apply Hk|]. apply Hnew in Hx as [Hx _].
    apply mget_is_Some_keys. unfold depends, dependsb in Hx. destruct (mget cps x); [eauto|done].
  - intros x [Hx|Hx]%elem_of_app; [by apply Hre|]. apply Hnew in Hx as [Hx _].
    destruct Hcur as [->|Hcur]; [by apply tc_once|]. by eapply tc_r.
  - intros d k [Hd|Hd]%elem_of_app Hdk.
    + specialize (Hcl _ _ Hd Hdk). set_solver.
    + apply list_elem_of_singleton in Hd as ->. destruct (decide (k ∈ f :: X)) as [|Hn]; [set_solver|].
      assert (k ∈ new) by (by apply Hnew). set_solver.
Qed.

Lemma blockLoop_spec cps f fuel dn queue X :
  ids_ok cps -> search_inv cps f dn queue X ->
  (length (mkeys cps) + length queue <= fuel + length X)%nat ->
  exists X', blockLoop fuel queue (f :: X) (blockSet X cps) = Some (blockSet X' cps) /\
    exists dn', search_inv cps f dn' [] X'.
Proof.
  intros Hok. revert dn queue X. induction fuel as [|fuel IH]; intros dn [|current queue] X Hi Hf.
  - eexists; split; [reflexivity|]; eauto.
  - assert (length X <= length (mkeys cps))%nat; [|simpl in *; lia].
    apply submseteq_length, NoDup_submseteq; [|apply Hi].
    by apply si_nodup, NoDup_cons in Hi as [_ ?].
  - eexists; split; [reflexivity|]; eauto.
  - cbn [blockLoop]. rewrite mkeys_blockSet, (blockInner_spec cps current f queue X _ Hok (proj1 Hok)).
    cbv zeta. eapply IH; [by apply search_step|]. rewrite !length_app. simpl in Hf. lia.
Qed.

Lemma block_spec cps f :
  ids_ok cps ->
  exists X, blockDependentCheckpoints cps f = Some (blockSet X cps) /\
    forall k, k ∈ X <-> dependents cps f k /\ k <> f.
Proof.
  intros Hok. unfold blockDependentCheckpoints.
  assert (search_inv cps f [] [f] []) as Hi.
  { split; [done|apply NoDup_singleton|..]; intros; set_solver. }
  destruct (blockLoop_spec cps f (S (length cps)) [] [f] [] Hok Hi) as (X & HB & dn & [Hsp HND _ Hre Hcl]).
  { unfold mkeys. rewrite length_map. simpl. lia. }
  rewrite blockSet_nil in HB. exists X. split; [done|]. rewrite app_nil_r in Hsp. subst dn.
  apply NoDup_cons in HND as [HfX _]. intros k. split.
  - intros Hk. split; [by apply Hre|]. by intros ->.
  - intros [Hk Hne]. assert (forall a b, tc (depends cps) a b -> a ∈ f :: X -> b ∈ f :: X) as Hc.
    { clear -Hcl. induction 1; eauto. }
    assert (k ∈ f :: X) as Hin by (eapply Hc; [exact Hk|constructor]).
    by apply elem_of_cons in Hin as [->|Hin].
Qed.

(** C9. The blocking search terminates and blocks exactly the transitive
    dependents of the failed checkpoint that are neither completed nor failed;
    no other checkpoint changes. *)
Theorem block_exact (cps : Checkpoints) (f : string) :
  ids_ok cps ->
  exists cps', blockDependentCheckpoints cps f = Some cps' /\ mkeys cps' = mkeys cps /\
    forall k c, mget cps k = Some c ->
      (dependents cps f k -> k <> f -> mget cps' k = Some (block_status c)) /\
      (~ (dependents cps f k /\ k <> f) -> mget cps' k = Some c).
Proof.
  intros (X & HB & HX)%(block_spec _ f). exists (blockSet X cps).
  split_and!; [done|apply mkeys_blockSet|]. intros k c Hc. rewrite mget_blockSet, Hc. simpl. split.
  - intros Hd Hne. by rewrite (proj2 (has_true X k) (proj2 (HX k) (conj Hd Hne))).
  - rewrite <-HX. intros Hn. by rewrite (proj2 (has_false X k) Hn).
Qed.

(** ** Failing a checkpoint keeps the map settled *)

Lemma hasFailed_true cps ds :
  hasFailedDependency cps ds = true <->
  exists d, d ∈ ds /\ (dep_is cps cpFailed d = true \/ dep_is cps cpBlocked d = true).
Proof.
  unfold hasFailedDependency. rewrite existsb_exists.
  split; intros (d & Hd & Hb); exists d; rewrite list_elem_of_In, orb_true_iff in *; auto.
Qed.

Lemma hasFailed_mono cps cps' ds :
  (forall d, dep_is cps cpFailed d = true \/ dep_is cps cpBlocked d = true ->
             dep_is cps' cpFailed d = true \/ dep_is cps' cpBlocked d = true) ->
  hasFailedDependency cps ds = true -> hasFailedDependency cps' ds = true.
Proof. intros Hm. rewrite !hasFailed_true. intros (d & Hd & Hb). eauto. Qed.

Lemma complete_true cps ds :
  dependenciesComplete cps ds = true <-> forall d, d ∈ ds -> dep_is cps cpCompleted d = true.
Proof.
  unfold dependenciesComplete. rewrite forallb_forall.
  split; intros Hf d Hd; apply Hf; by apply list_elem_of_In.
Qed.

Section Fail.
Variables (cps : Checkpoints) (f : string) (fc : TeamCheckpointState).
Hypothesis Hok : ids_ok cps.
Hypothesis Hset : settled cps.
Hypothesis Hf : mget cps f = Some fc.
Hypothesis Hnc : cs_status fc <> cpCompleted.

(** A dependent of a checkpoint that is not completed is not completed. *)
Lemma dependents_not_completed k : dependents cps f k -> dep_is cps cpCompleted k = false.
Proof.
  unfold dependents. intros Hd. apply tc_rtc in Hd.
  assert (dep_is cps cpCompleted f = false) as H0.
  { rewrite (dep_is_get _ _ _ _ Hf). by apply bool_decide_eq_false. }
  clear Hok. revert k Hd. apply (rtc_ind_r (fun k => dep_is cps cpCompleted k = false)); [done|].
  intros d k _ Hdk IH. unfold depends, dependsb in Hdk. unfold dep_is at 1.
  destruct (mget cps k) as [c|] eqn:Hc; [|done]. apply bool_decide_eq_false. intros Hs.
  specialize (Hset _ _ Hc). rewrite Hs in Hset. rewrite complete_true in Hset.
  rewrite (Hset d) in IH; [done|]. by apply has_true.
Qed.

(** The failed checkpoint, its other fields set by the caller. *)
Variable fc' : TeamCheckpointState.
Hypothesis Hfc : cs_dependsOn fc' = cs_dependsOn fc /\ cs_id fc' = cs_id fc /\ cs_status fc' = cpFailed.

Lemma fail_depends d k : dependsb (mset f fc' cps) d k = dependsb cps d k.
Proof.
  unfold dependsb. rewrite mget_mset. destruct (String.eqb_spec k f) as [->|]; [|done].
  rewrite Hf. by destruct Hfc as (-> & _).
Qed.

Lemma fail_dependents k : dependents (mset f fc' cps) f k <-> dependents cps f k.
Proof.
  unfold dependents, depends.
  split; apply (tc_congruence id); intros d k'; by rewrite fail_depends.
Qed.

Lemma fail_ids_ok : ids_ok (mset f fc' cps).
Proof.
  destruct Hok as [Hnd Hid]. split; [by apply mset_NoDup|]. intros k c. rewrite mget_mset.
  destruct (String.eqb_spec k f) as [->|]; [|by apply Hid]. intros [= <-].
  destruct Hfc as (_ & -> & _). by apply Hid.
Qed.

Section Blocked.
Variable X : list string.
Hypothesis HX : forall k, k ∈ X <-> dependents cps f k /\ k <> f.
Let cps2 := blockSet X (mset f fc' cps).

Lemma fail_get k :
  mget cps2 k = if String.eqb k f then Some fc' else
                if has X k then block_status <$> mget cps k else mget cps k.
Proof.
  unfold cps2. rewrite mget_blockSet, mget_mset. destruct (String.eqb_spec k f) as [->|].
  - simpl. assert (has X f = false) as ->; [|done]. apply has_false. by intros [_ ?]%HX.
  - destruct (has X k); [done|]. by destruct (mget cps k).
Qed.

Lemma fail_completed d : dep_is cps2 cpCompleted d = dep_is cps cpCompleted d.
Proof.
  unfold dep_is at 1. rewrite fail_get. destruct (String.eqb_spec d f) as [->|].
  - destruct Hfc as (_ & _ & ->). rewrite (dep_is_get _ _ _ _ Hf).
    by destruct (cs_status fc).
  - destruct (has X d) eqn:HdX; [|done]. apply has_true, HX in HdX as [Hd _].
    pose proof (dependents_not_completed d Hd) as Hn. unfold dep_is in *.
    destruct (mget cps d) as [c|]; [|done]. simpl. rewrite Hn.
    unfold block_status. destruct (cs_status c) eqn:E; simpl; try done; by rewrite E.
Qed.

Lemma fail_bad d :
  (dep_is cps2 cpFailed d = true \/ dep_is cps2 cpBlocked d = true) <->
  (dep_is cps cpFailed d = true \/ dep_is cps cpBlocked d = true) \/ d = f \/ d ∈ X.
Proof.
  unfold dep_is at 1 2. rewrite fail_get. destruct (String.eqb_spec d f) as [->|Hne].
  { destruct Hfc as (_ & _ & ->). simpl. split; auto. }
  destruct (has X d) eqn:HdX.
  - apply has_true in HdX as HdX'. split; [auto|intros _].
    apply HX in HdX' as [Hd _]. pose proof (dependents_not_completed d Hd) as Hn.
    apply tc_rtc, rtc_inv_r in Hd as [Heq|(d' & _ & Hd')]; [congruence|].
    unfold depends, dependsb in Hd'. unfold dep_is in Hn. destruct (mget cps d) as [c|]; [|done]. simpl.
    unfold block_status. destruct (cs_status c) eqn:E; simpl in *; rewrite ?E; auto.
  - apply has_false in HdX. unfold dep_is. split; [auto|]. by intros [?|[?|?]].
Qed.

Lemma fail_settled_aux : settled cps2.
Proof.
  intros k c. rewrite fail_get. destruct (String.eqb_spec k f) as [->|Hne].
  { intros [= <-]. by destruct Hfc as (_ & _ & ->). }
  assert (forall ds, dependenciesComplete cps2 ds = dependenciesComplete cps ds) as Hco.
  { intros ds. unfold dependenciesComplete. induction ds; simpl; [done|]. by rewrite fail_completed, IHds. }
  assert (forall ds, hasFailedDependency cps ds = true -> hasFailedDependency cps2 ds = true) as Hmo.
  { intros ds. apply hasFailed_mono. intros d Hd. apply fail_bad. auto. }
  destruct (has X k) eqn:HkX.
  - apply has_true in HkX as HkX'. apply HX in HkX' as [Hd _].
    destruct (mget cps k) as [c0|] eqn:Hc0; [|done]. simpl. intros [= <-].
    pose proof (dependents_not_completed k Hd) as Hn. unfold dep_is in Hn. rewrite Hc0 in Hn.
    assert (hasFailedDependency cps2 (cs_dependsOn c0) = true) as Hbad.
    { apply hasFailed_true. unfold dependents in Hd.
      assert (exists d, (d = f \/ dependents cps f d) /\ depends cps d k) as (d & Hfd & Hdk).
      { apply tc_rtc, rtc_inv_r in Hd as [?|(d & Hfd & Hdk)]; [congruence|]. exists d. split; [|done].
        apply rtc_tc in Hfd as [->|?]; auto. }
      exists d. split.
      - unfold depends, dependsb in Hdk. rewrite Hc0 in Hdk. by apply has_true.
      - apply fail_bad. right. destruct (decide (d = f)) as [|Hdf]; [auto|]. right. apply HX.
        by destruct Hfd. }
    unfold block_status. destruct (cs_status c0) eqn:E; simpl; rewrite ?E; done.
  - apply has_false in HkX. intros Hc. pose proof (Hset _ _ Hc) as Hsc.
    assert (forall d, d ∈ cs_dependsOn c -> d <> f /\ d ∉ X) as Hout.
    { intros d Hd. assert (depends cps d k) as Hdk.
      { unfold depends, dependsb. rewrite Hc. by apply has_true. }
      split; intros Hx; apply HkX, HX; (split; [|done]).
      - subst d. by apply tc_once.
      - apply HX in Hx as [Hx _]. by eapply tc_r. }
    assert (hasFailedDependency cps2 (cs_dependsOn c) = hasFailedDependency cps (cs_dependsOn c)) as ->.
    { apply eq_true_iff_eq. rewrite !hasFailed_true.
      split; intros (d & Hd & Hb); exists d; (split; [done|]); [|apply fail_bad; auto].
      destruct (Hout d Hd). apply fail_bad in Hb as [?|[?|?]]; done. }
    by rewrite Hco.
Qed.
End Blocked.

Lemma fail_settled :
  exists X, blockDependentCheckpoints (mset f fc' cps) f = Some (blockSet X (mset f fc' cps)) /\
    (forall k, k ∈ X <-> dependents cps f k /\ k <> f) /\
    settled (blockSet X (mset f fc' cps)).
Proof.
  destruct (block_spec (mset f fc' cps) f fail_ids_ok) as (X & HB & HX).
  assert (forall k, k ∈ X <-> dependents cps f k /\ k <> f) as HX' by (intros; rewrite HX, fail_dependents; done).
  exists X. split_and!; [done|done|]. by apply fail_settled_aux.
Qed.
End Fail.

(** Completing an open checkpoint whose dependencies are completed leaves a
    map the readiness loop can settle. *)
Lemma complete_partly cps k c c' :
  settled cps -> mget cps k = Some c -> open_status (cs_status c) = true ->
  dependenciesComplete cps (cs_dependsOn c) = true ->
  cs_dependsOn c' = cs_dependsOn c -> cs_status c' = cpCompleted ->
  partly_settled (mset k c' cps).
Proof.
  intros Hs Hc Ho Hd Hds Hst.
  assert (forall ds, dependenciesComplete cps ds = true -> dependenciesComplete (mset k c' cps) ds = true) as Hco.
  { intros ds. rewrite !complete_true. intros Hds' d Hin. specialize (Hds' d Hin).
    unfold dep_is in *. rewrite mget_mset. destruct (String.eqb d k); [by rewrite Hst|done]. }
  assert (forall ds, hasFailedDependency cps ds = true -> hasFailedDependency (mset k c' cps) ds = true) as Hfa.
  { intros ds. apply hasFailed_mono. intros d. unfold dep_is. rewrite mget_mset.
    destruct (String.eqb_spec d k) as [->|]; [|done]. rewrite Hc.
    destruct (cs_status c); simpl in *; try done; by intros [?|?]. }
  intros k' c1. rewrite mget_mset. destruct (String.eqb_spec k' k) as [->|].
  - intros [= <-]. rewrite Hst, Hds. split; [auto|done].
  - intros Hc1. specialize (settled_partly cps Hs k' c1 Hc1) as [H1 H2]. auto.
Qed.

(** ** Examples *)

Definition ex_checkpoint (id : string) (deps : list string) (st : TeamCheckpointStatus) : TeamCheckpointState :=
  {| cs_id := id; cs_roleId := "dev"; cs_label := id; cs_dependsOn := deps; cs_required := true;
     cs_status := st; completedBy := None; cs_completedAt := None; outputDigest := None; failedBy := None;
     failedAt := None; failureReason := None |}.

(** A plan that is done, a build that waits for it and a release that waits for
    the build, and a demo that waits for a failed draft. *)
Definition ex_checkpoints : Checkpoints :=
  [("release", ex_checkpoint "release" ["build"] cpPending); ("build", ex_checkpoint "build" ["plan"] cpPending);
   ("plan", ex_checkpoint "plan" [] cpCompleted); ("demo", ex_checkpoint "demo" ["draft"] cpPending);
   ("draft", ex_checkpoint "draft" [] cpFailed)].

(** What holds of every entry of a map holds of what it looks up. *)
Lemma lookup_Forall (Q : string -> TeamCheckpointState -> Prop) (cps : Checkpoints) :
  Forall (fun kv => Q kv.1 kv.2) cps -> forall k c, mget cps k = Some c -> Q k c.
Proof. intros HF k c Hc%mget_Some_elem. rewrite Forall_forall in HF. exact (HF _ Hc). Qed.

Lemma refresh_terminates_settled_witness :
  option_map (map (fun kv => (kv.1, cs_status kv.2))) (refreshCheckpointReadiness ex_checkpoints) =
    Some [("release", cpPending); ("build", cpReady); ("plan", cpCompleted); ("demo", cpBlocked); ("draft", cpFailed)] /\
  exists cps', refreshCheckpointReadiness ex_checkpoints = Some cps' /\ settled cps'.
Proof.
  split; [vm_compute; reflexivity|].
  destruct (refresh_terminates_settled ex_checkpoints) as (cps' & Hr & Hs & _); [|exists cps'; by split].
  refine (lookup_Forall (fun _ c =>
    (cs_status c = cpCompleted -> dependenciesComplete ex_checkpoints (cs_dependsOn c) = true) /\
    (cs_status c = cpBlocked -> hasFailedDependency ex_checkpoints (cs_dependsOn c) = true)) _ _).
  repeat (apply Forall_cons; split; [split; vm_compute; congruence|]). constructor.
Defined.

Lemma block_exact_witness :
  exists cps', blockDependentCheckpoints ex_checkpoints "build" = Some cps' /\
    mget cps' "release" = Some (ex_checkpoint "release" ["build"] cpBlocked) /\
    mget cps' "build" = Some (ex_checkpoint "build" ["plan"] cpPending).
Proof.
  destruct (block_exact ex_checkpoints "build") as (cps' & HB & _ & HX).
  { split; [apply (bool_decide_unpack _); vm_compute; exact I|]. apply (lookup_Forall (fun k c => cs_id c = k)). by repeat constructor. }
  exists cps'. split; [done|]. split.
  - destruct (HX "release" _ eq_refl) as [H1 _]. apply H1; [|discriminate]. apply tc_once. by vm_compute.
  - destruct (HX "build" _ eq_refl) as [_ H2]. apply H2. by intros [_ ?].
Defined.
