(* ===== verification/TeamEngine.v ===== *)
(** * Team contract engine (src/runtime/src/team/engine.ts)

    [TeamContractEngine]: the contracts it keeps, the clock, the audit store,
    the hooks with their re-entrancy flag, and every public operation. A
    method is a computation in [ST Engine team_error]: a throw keeps what was
    mutated before it. A contract record is mutated in place by the source; the
    model keeps the current record in a local variable and writes it back to
    the map ([save]) at each point where the source may throw, call a hook, or
    return. *)
From S2P Require Import Prelude JsMap JsString Capabilities TeamTypes TeamPayout TeamValidation TeamAudit TeamCheckpoints.
#[local] Open Scope Z_scope.

Record TeamContractRecord := {
  r_id : string;
  r_creatorId : string;
  r_template : TeamTemplate;
  r_status : TeamContractStatus;
  r_members : jsmap TeamMember;
  r_roleAssignments : jsmap (list string);
  r_checkpoints : Checkpoints;
  r_startedAt : option Z;
  r_completedAt : option Z;
  r_cancelledAt : option Z;
  r_finalizedPayout : option TeamPayoutResult;
  r_auditSequence : Z;
}.

(** Assignments to the fields of a record. *)
Definition set_status v (r : TeamContractRecord) : TeamContractRecord :=
  {| r_id := r_id r; r_creatorId := r_creatorId r; r_template := r_template r; r_status := v;
     r_members := r_members r; r_roleAssignments := r_roleAssignments r;
     r_checkpoints := r_checkpoints r; r_startedAt := r_startedAt r;
     r_completedAt := r_completedAt r; r_cancelledAt := r_cancelledAt r;
     r_finalizedPayout := r_finalizedPayout r; r_auditSequence := r_auditSequence r |}.
Definition set_members v (r : TeamContractRecord) : TeamContractRecord :=
  {| r_id := r_id r; r_creatorId := r_creatorId r; r_template := r_template r;
     r_status := r_status r; r_members := v; r_roleAssignments := r_roleAssignments r;
     r_checkpoints := r_checkpoints r; r_startedAt := r_startedAt r;
     r_completedAt := r_completedAt r; r_cancelledAt := r_cancelledAt r;
     r_finalizedPayout := r_finalizedPayout r; r_auditSequence := r_auditSequence r |}.
Definition set_roleAssignments v (r : TeamContractRecord) : TeamContractRecord :=
  {| r_id := r_id r; r_creatorId := r_creatorId r; r_template := r_template r;
     r_status := r_status r; r_members := r_members r; r_roleAssignments := v;
     r_checkpoints := r_checkpoints r; r_startedAt := r_startedAt r;
     r_completedAt := r_completedAt r; r_cancelledAt := r_cancelledAt r;
     r_finalizedPayout := r_finalizedPayout r; r_auditSequence := r_auditSequence r |}.
Definition set_checkpoints v (r : TeamContractRecord) : TeamContractRecord :=
  {| r_id := r_id r; r_creatorId := r_creatorId r; r_template := r_template r;
     r_status := r_status r; r_members := r_members r;
     r_roleAssignments := r_roleAssignments r; r_checkpoints := v;
     r_startedAt := r_startedAt r; r_completedAt := r_completedAt r;
     r_cancelledAt := r_cancelledAt r; r_finalizedPayout := r_finalizedPayout r;
     r_auditSequence := r_auditSequence r |}.
Definition set_startedAt v (r : TeamContractRecord) : TeamContractRecord :=
  {| r_id := r_id r; r_creatorId := r_creatorId r; r_template := r_template r;
     r_status := r_status r; r_members := r_members r;
     r_roleAssignments := r_roleAssignments r; r_checkpoints := r_checkpoints r;
     r_startedAt := v; r_completedAt := r_completedAt r; r_cancelledAt := r_cancelledAt r;
     r_finalizedPayout := r_finalizedPayout r; r_auditSequence := r_auditSequence r |}.
Definition set_completedAt v (r : TeamContractRecord) : TeamContractRecord :=
  {| r_id := r_id r; r_creatorId := r_creatorId r; r_template := r_template r;
     r_status := r_status r; r_members := r_members r;
     r_roleAssignments := r_roleAssignments r; r_checkpoints := r_checkpoints r;
     r_startedAt := r_startedAt r; r_completedAt := v; r_cancelledAt := r_cancelledAt r;
     r_finalizedPayout := r_finalizedPayout r; r_auditSequence := r_auditSequence r |}.
Definition set_cancelledAt v (r : TeamContractRecord) : TeamContractRecord :=
  {| r_id := r_id r; r_creatorId := r_creatorId r; r_template := r_template r;
     r_status := r_status r; r_members := r_members r;
     r_roleAssignments := r_roleAssignments r; r_checkpoints := r_checkpoints r;
     r_startedAt := r_startedAt r; r_completedAt := r_completedAt r; r_cancelledAt := v;
     r_finalizedPayout := r_finalizedPayout r; r_auditSequence := r_auditSequence r |}.
Definition set_finalizedPayout v (r : TeamContractRecord) : TeamContractRecord :=
  {| r_id := r_id r; r_creatorId := r_creatorId r; r_template := r_template r;
     r_status := r_status r; r_members := r_members r;
     r_roleAssignments := r_roleAssignments r; r_checkpoints := r_checkpoints r;
     r_startedAt := r_startedAt r; r_completedAt := r_completedAt r;
     r_cancelledAt := r_cancelledAt r; r_finalizedPayout := v;
     r_auditSequence := r_auditSequence r |}.
Definition set_auditSequence v (r : TeamContractRecord) : TeamContractRecord :=
  {| r_id := r_id r; r_creatorId := r_creatorId r; r_template := r_template r;
     r_status := r_status r; r_members := r_members r;
     r_roleAssignments := r_roleAssignments r; r_checkpoints := r_checkpoints r;
     r_startedAt := r_startedAt r; r_completedAt := r_completedAt r;
     r_cancelledAt := r_cancelledAt r; r_finalizedPayout := r_finalizedPayout r;
     r_auditSequence := v |}.

Definition set_member_roles v (m : TeamMember) : TeamMember :=
  {| member_id := member_id m; member_capabilities := member_capabilities m; member_roles := v;
     member_active := member_active m; joinedAt := joinedAt m; leftAt := leftAt m;
     member_metadata := member_metadata m |}.

Record TeamContractSnapshot := {
  sn_id : string;
  sn_creatorId : string;
  sn_template : TeamTemplate;
  sn_status : TeamContractStatus;
  sn_members : list TeamMember;
  sn_roleAssignments : jsmap (list string);
  sn_checkpoints : Checkpoints;
  sn_startedAt : option Z;
  sn_completedAt : option Z;
  sn_cancelledAt : option Z;
  sn_finalizedPayout : option TeamPayoutResult;
}.

(** The private fields of the engine that change; [tick] counts the calls of
    [now()]. *)
Record Engine (St : Type) := {
  contracts : jsmap TeamContractRecord;
  inHook : bool;
  auditStore : St;
  tick : nat;
}.
Arguments Build_Engine {St}.
Arguments contracts {St}.
Arguments inHook {St}.
Arguments auditStore {St}.
Arguments tick {St}.

Record TeamEngineHooks (St : Type) := {
  onRoleFailure : option (RoleFailureAttribution -> ST (Engine St) team_error unit);
  onAuditError : option (team_error -> TeamAuditEvent -> ST (Engine St) team_error unit);
}.
Arguments onRoleFailure {St}.
Arguments onAuditError {St}.

(** The construction options of the engine: [now], [hooks], the topology rule. *)
Record EngineConfig (St : Type) := {
  clock : nat -> Z;
  hooks : TeamEngineHooks St;
  requireSingleParentTopology : bool;
}.
Arguments clock {St}.
Arguments hooks {St}.
Arguments requireSingleParentTopology {St}.

Notation normalizeIdOrThrow := engine_normalizeIdOrThrow.

(** ** Helpers without state *)

Fixpoint adjacentDuplicate (sorted : list string) : bool :=
  match sorted with
  | a :: ((b :: _) as rest) => String.eqb b a || adjacentDuplicate rest
  | _ => false
  end.

Definition uniqueSorted `{Collation} (values : list string) : R (list string) :=
  let sorted := sort_strings values in
  throw_if (adjacentDuplicate sorted) (TeamContractValidationError "duplicate value") ;;
  Ok sorted.

Definition normalizeMemberInput `{Collation} (input : TeamMemberInput) : R TeamMemberInput :=
  id ← normalizeIdOrThrow (mi_id input);
  rs ← mapR normalizeIdOrThrow (default [] (mi_roles input));
  rs ← uniqueSorted rs;
  throw_if (mi_capabilities input <? 0)
    (TeamContractValidationError "member capabilities must be a non-negative bigint") ;;
  Ok {| mi_id := id; mi_capabilities := mi_capabilities input; mi_roles := Some rs;
        mi_metadata := mi_metadata input |}.

Definition wrapValidationError {A} (r : R A) : R A :=
  map_err (fun e => TeamContractValidationError (error_message e)) r.

Definition cloneTemplate (t : TeamTemplate) : TeamTemplate :=
  {| template_id := template_id t; template_name := template_name t; roles := roles t;
     checkpoints := map (fun c =>
       {| cp_id := cp_id c; cp_roleId := cp_roleId c; cp_label := cp_label c;
          cp_dependsOn := Some (default [] (cp_dependsOn c)); cp_required := cp_required c |})
       (checkpoints t);
     payout := payout t; template_metadata := template_metadata t |}.

(** The state [createContract] gives a checkpoint of the template. *)
Definition initialCheckpoint (cp : TeamCheckpointTemplate) : TeamCheckpointState :=
  {| cs_id := cp_id cp; cs_roleId := cp_roleId cp; cs_label := cp_label cp;
     cs_dependsOn := default [] (cp_dependsOn cp); cs_required := default true (cp_required cp);
     cs_status := if (length (default [] (cp_dependsOn cp)) =? 0)%nat then cpReady else cpPending;
     completedBy := None; cs_completedAt := None; outputDigest := None;
     failedBy := None; failedAt := None; failureReason := None |}.

Definition checkpointRecord `{Collation} (r : TeamContractRecord) : Checkpoints :=
  mcopy (r_checkpoints r) (sort_strings (mkeys (r_checkpoints r))).

Definition roleAssignmentRecord `{Collation} (r : TeamContractRecord) : jsmap (list string) :=
  foldl (fun out k => mset k (sort_strings (default [] (mget (r_roleAssignments r) k))) out)
    [] (sort_strings (mkeys (r_roleAssignments r))).

Definition toSnapshot `{Collation} (r : TeamContractRecord) : TeamContractSnapshot :=
  {| sn_id := r_id r; sn_creatorId := r_creatorId r; sn_template := r_template r;
     sn_status := r_status r; sn_members := sort_on member_id (mvals (r_members r));
     sn_roleAssignments := roleAssignmentRecord r; sn_checkpoints := checkpointRecord r;
     sn_startedAt := r_startedAt r; sn_completedAt := r_completedAt r;
     sn_cancelledAt := r_cancelledAt r; sn_finalizedPayout := r_finalizedPayout r |}.

(** ** The engine *)

Section Engine.
Context `{Collation} {St : Type} `{!TeamAuditStore St} (cfg : EngineConfig St).

Notation M := (ST (Engine St) team_error).

Definition now : M Z := fun s =>
  (Build_Engine (contracts s) (inHook s) (auditStore s) (S (tick s)), Ok (clock cfg (tick s))).

(** Write the local copy of a record back to the object it stands for. *)
Definition save (r : TeamContractRecord) : M unit := fun s =>
  (Build_Engine (mset (r_id r) r (contracts s)) (inHook s) (auditStore s) (tick s), Ok tt).

Definition set_inHook (b : bool) (s : Engine St) : Engine St :=
  Build_Engine (contracts s) b (auditStore s) (tick s).

Definition invokeHook (callback : M unit) : M unit := fun s =>
  if inHook s then (s, Ok tt)
  else (set_inHook false (callback (set_inHook true s)).1, Ok tt).

Definition assertNotInHook : M unit := fun s =>
  (s, throw_if (inHook s)
        (TeamContractStateError "re-entrant engine mutation from hook is not allowed")).

Definition getContractRecordOrThrow (contractId : string) : M TeamContractRecord :=
  id ← st_lift (normalizeIdOrThrow contractId);
  s ← st_get;
  match mget (contracts s) id with
  | None => st_throw (TeamContractStateError "contract not found")
  | Some record => mret record
  end.

Definition assertStatus (record : TeamContractRecord) (expected : TeamContractStatus) : M unit :=
  st_throw_if (bool_decide (r_status record <> expected))
    (TeamContractStateError "cannot operate in this state").

(** The [append] call of [recordAuditEvent] with its [catch]. *)
Definition appendEvent (event : TeamAuditEvent) : M unit := fun s =>
  let '(store, outcome) := append event (auditStore s) in
  let s := Build_Engine (contracts s) (inHook s) store (tick s) in
  match outcome with
  | Ok _ => (s, Ok tt)
  | Err e => invokeHook (match onAuditError (hooks cfg) with
                         | Some hook => hook e event
                         | None => mret tt
                         end) s
  end.

Definition recordAuditEvent (record : TeamContractRecord) (payload : TeamAuditPayload)
    : M TeamContractRecord :=
  atMs ← now;
  let event := {| ev_sequence := r_auditSequence record; ev_contractId := r_id record;
                  ev_atMs := atMs; ev_payload := payload |} in
  let record := set_auditSequence (r_auditSequence record + 1) record in
  save record ;;
  appendEvent event ;;
  mret record.

Definition createContract (contractId creatorId : string) (template : TeamTemplate)
    : M TeamContractSnapshot :=
  assertNotInHook ;;
  contractId ← st_lift (normalizeIdOrThrow contractId);
  creatorId ← st_lift (normalizeIdOrThrow creatorId);
  s ← st_get;
  st_throw_if (mhas (contracts s) contractId) (TeamContractStateError "contract already exists") ;;
  normalizedTemplate ← st_lift (normalizeTeamTemplate template);
  st_lift (wrapValidationError
    (validateTeamTemplate (requireSingleParentTopology cfg) normalizedTemplate)) ;;
  let cps := foldl (fun m cp => mset (cp_id cp) (initialCheckpoint cp) m) []
               (checkpoints normalizedTemplate) in
  let roleAssignments := foldl (fun m role => mset (role_id role) [] m) []
                           (roles normalizedTemplate) in
  let record := {|
    r_id := contractId; r_creatorId := creatorId; r_template := cloneTemplate normalizedTemplate;
    r_status := draft; r_members := []; r_roleAssignments := roleAssignments;
    r_checkpoints := cps; r_startedAt := None; r_completedAt := None; r_cancelledAt := None;
    r_finalizedPayout := None; r_auditSequence := 1 |} in
  save record ;;
  record ← recordAuditEvent record
    (contract_created creatorId (template_id normalizedTemplate)
       (length (roles normalizedTemplate)) (length (checkpoints normalizedTemplate)));
  mret (toSnapshot record).

(** [assigned.length >= max], [assigned.length < min] with a JS number; counts
    of a validated template are integers. *)
Definition length_ge {A} (l : list A) (n : number) : bool :=
  match n with NInt z => z <=? Z.of_nat (length l) | NOther => false end.
Definition length_lt {A} (l : list A) (n : number) : bool :=
  match n with NInt z => Z.of_nat (length l) <? z | NOther => false end.
Definition length_gt {A} (l : list A) (n : number) : bool :=
  match n with NInt z => z <? Z.of_nat (length l) | NOther => false end.

(** The engine always passes [emitAudit = true]. *)
Definition assignRoleInternal (memberId : string) (record : TeamContractRecord) (roleId : string)
    : M TeamContractRecord :=
  match mget (r_members record) memberId with
  | None => st_throw (TeamContractStateError "member is not active")
  | Some member =>
    st_throw_if (negb (member_active member)) (TeamContractStateError "member is not active") ;;
    match List.find (fun candidate => String.eqb (role_id candidate) roleId)
            (roles (r_template record)) with
    | None => st_throw (TeamContractValidationError "unknown role")
    | Some role =>
      st_throw_if (negb (hasCapability (member_capabilities member) (requiredCapabilities role)))
        (TeamContractValidationError "member does not satisfy required capabilities for role") ;;
      let assigned := default [] (mget (r_roleAssignments record) roleId) in
      if has assigned memberId then mret record else
      st_throw_if (length_ge assigned (default (NInt 1) (maxMembers role)))
        (TeamContractStateError "role is full") ;;
      let assigned := sort_strings (assigned ++ [memberId]) in
      let record := set_roleAssignments (mset roleId assigned (r_roleAssignments record)) record in
      save record ;;
      memberRoles ← st_lift (uniqueSorted (sort_strings (member_roles member ++ [roleId])));
      let record :=
        set_members (mset memberId (set_member_roles memberRoles member) (r_members record)) record in
      save record ;;
      recordAuditEvent record (role_assigned memberId roleId)
    end
  end.

(** The loop over the requested roles. *)
Fixpoint assignRoles (memberId : string) (record : TeamContractRecord) (roleIds : list string)
    : M TeamContractRecord :=
  match roleIds with
  | [] => mret record
  | roleId :: rest =>
      record ← assignRoleInternal memberId record roleId;
      assignRoles memberId record rest
  end.

Definition joinContract (contractId : string) (input : TeamMemberInput) : M TeamContractSnapshot :=
  assertNotInHook ;;
  record ← getContractRecordOrThrow contractId;
  assertStatus record draft ;;
  member ← st_lift (normalizeMemberInput input);
  st_throw_if (mhas (r_members record) (mi_id member))
    (TeamContractStateError "member already exists in contract") ;;
  joined ← now;
  let memberRecord := {|
    member_id := mi_id member; member_capabilities := mi_capabilities member; member_roles := [];
    member_active := true; joinedAt := joined; leftAt := None;
    member_metadata := mi_metadata member |} in
  let record := set_members (mset (mi_id member) memberRecord (r_members record)) record in
  save record ;;
  record ← recordAuditEvent record (member_joined (mi_id member) (mi_capabilities member));
  record ← assignRoles (mi_id member) record (default [] (mi_roles member));
  mret (toSnapshot record).

(** The loop of [leaveContract] over [member.roles]. *)
Definition removeFromRoles (memberId : string) (assignments : jsmap (list string))
    (roleIds : list string) : jsmap (list string) :=
  foldl (fun m roleId =>
      mset roleId (List.filter (fun assigned => negb (String.eqb assigned memberId))
                     (default [] (mget m roleId))) m)
    assignments roleIds.

Definition leaveContract (contractId memberId : string) : M TeamContractSnapshot :=
  assertNotInHook ;;
  record ← getContractRecordOrThrow contractId;
  assertStatus record draft ;;
  canonicalMemberId ← st_lift (normalizeIdOrThrow memberId);
  match mget (r_members record) canonicalMemberId with
  | None => st_throw (TeamContractStateError "member is not active")
  | Some member =>
    st_throw_if (negb (member_active member)) (TeamContractStateError "member is not active") ;;
    let record := set_roleAssignments
      (removeFromRoles canonicalMemberId (r_roleAssignments record) (member_roles member)) record in
    left_at ← now;
    let member := {|
      member_id := member_id member; member_capabilities := member_capabilities member;
      member_roles := []; member_active := false; joinedAt := joinedAt member;
      leftAt := Some left_at; member_metadata := member_metadata member |} in
    let record := set_members (mset canonicalMemberId member (r_members record)) record in
    save record ;;
    record ← recordAuditEvent record (member_left canonicalMemberId);
    mret (toSnapshot record)
  end.

Definition assignRole (contractId memberId roleId : string) : M TeamContractSnapshot :=
  assertNotInHook ;;
  record ← getContractRecordOrThrow contractId;
  assertStatus record draft ;;
  memberId ← st_lift (normalizeIdOrThrow memberId);
  roleId ← st_lift (normalizeIdOrThrow roleId);
  record ← assignRoleInternal memberId record roleId;
  mret (toSnapshot record).

(** The staffing check of [startRun] for one role. *)
Definition checkStaffing (record : TeamContractRecord) (_ : unit) (role : TeamRoleTemplate) : R unit :=
  let assigned := default [] (mget (r_roleAssignments record) (role_id role)) in
  throw_if (length_lt assigned (default (NInt 1) (minMembers role)))
    (TeamContractStateError "role requires at least minMembers members") ;;
  throw_if (length_gt assigned (default (NInt 1) (maxMembers role)))
    (TeamContractStateError "role allows at most maxMembers members").

(** The loop always returns ([refresh_spec]). *)
Definition refresh (record : TeamContractRecord) : TeamContractRecord :=
  set_checkpoints (default (r_checkpoints record)
    (refreshCheckpointReadiness (r_checkpoints record))) record.

Definition startRun (contractId : string) : M TeamContractSnapshot :=
  assertNotInHook ;;
  record ← getContractRecordOrThrow contractId;
  assertStatus record draft ;;
  st_lift (foldM (checkStaffing record) tt (roles (r_template record))) ;;
  st_lift (wrapValidationError
    (validateTeamTemplate (requireSingleParentTopology cfg) (r_template record))) ;;
  started ← now;
  let record := refresh (set_startedAt (Some started) (set_status active record)) in
  save record ;;
  record ← recordAuditEvent record
    (run_started (length (List.filter member_active (mvals (r_members record)))));
  mret (toSnapshot record).

Definition cancelContract (contractId : string) (reason : option string) : M TeamContractSnapshot :=
  assertNotInHook ;;
  record ← getContractRecordOrThrow contractId;
  match r_status record with
  | cancelled => mret (toSnapshot record)
  | completed | failed =>
      st_throw (TeamContractStateError "cannot cancel contract in terminal state")
  | draft | active =>
      t ← now;
      let record := set_completedAt (Some t) (set_cancelledAt (Some t) (set_status cancelled record)) in
      save record ;;
      record ← recordAuditEvent record (contract_cancelled (default "cancelled"%string reason));
      mret (toSnapshot record)
  end.

Definition assertMemberCanActOnRole (record : TeamContractRecord) (memberId roleId : string)
    : M unit :=
  match mget (r_members record) memberId with
  | None => st_throw (TeamContractStateError "member is not active")
  | Some member =>
      st_throw_if (negb (member_active member)) (TeamContractStateError "member is not active") ;;
      st_throw_if (negb (has (default [] (mget (r_roleAssignments record) roleId)) memberId))
        (TeamContractStateError "member is not assigned to role")
  end.

(** [input.outputDigest?.trim() || null]. *)
Definition digestOf (outputDigest : option string) : option string :=
  match outputDigest with
  | Some d => if isEmpty (trim d) then None else Some (trim d)
  | None => None
  end.

Definition completedCheckpoint (memberId : string) (at_ : Z) (digest : option string)
    (c : TeamCheckpointState) : TeamCheckpointState :=
  {| cs_id := cs_id c; cs_roleId := cs_roleId c; cs_label := cs_label c;
     cs_dependsOn := cs_dependsOn c; cs_required := cs_required c; cs_status := cpCompleted;
     completedBy := Some memberId; cs_completedAt := Some at_; outputDigest := digest;
     failedBy := failedBy c; failedAt := failedAt c; failureReason := failureReason c |}.

Definition completeCheckpoint (contractId checkpointId memberId : string)
    (outputDigest : option string) : M TeamContractSnapshot :=
  assertNotInHook ;;
  record ← getContractRecordOrThrow contractId;
  assertStatus record active ;;
  checkpointId ← st_lift (normalizeIdOrThrow checkpointId);
  memberId ← st_lift (normalizeIdOrThrow memberId);
  match mget (r_checkpoints record) checkpointId with
  | None => st_throw (TeamContractStateError "checkpoint not found")
  | Some checkpoint =>
    match cs_status checkpoint with
    | cpCompleted => mret (toSnapshot record)
    | cpFailed | cpBlocked =>
        st_throw (TeamContractStateError "checkpoint cannot be completed from status")
    | cpPending | cpReady =>
      assertMemberCanActOnRole record memberId (cs_roleId checkpoint) ;;
      st_throw_if (negb (areDependenciesCompleted (r_checkpoints record) (cs_dependsOn checkpoint)))
        (TeamContractStateError "checkpoint dependencies are not fully completed") ;;
      t ← now;
      let checkpoint := completedCheckpoint memberId t (digestOf outputDigest) checkpoint in
      let record :=
        refresh (set_checkpoints (mset checkpointId checkpoint (r_checkpoints record)) record) in
      save record ;;
      record ← recordAuditEvent record
        (checkpoint_completed checkpointId (cs_roleId checkpoint) memberId);
      if areAllRequiredCheckpointsCompleted (r_checkpoints record) then
        t ← now;
        let record := set_completedAt (Some t) (set_status completed record) in
        save record ;;
        mret (toSnapshot record)
      else mret (toSnapshot record)
    end
  end.

Definition failedCheckpoint (memberId : string) (at_ : Z) (reason : string)
    (c : TeamCheckpointState) : TeamCheckpointState :=
  {| cs_id := cs_id c; cs_roleId := cs_roleId c; cs_label := cs_label c;
     cs_dependsOn := cs_dependsOn c; cs_required := cs_required c; cs_status := cpFailed;
     completedBy := completedBy c; cs_completedAt := cs_completedAt c;
     outputDigest := outputDigest c; failedBy := Some memberId; failedAt := Some at_;
     failureReason := Some reason |}.

(** [blockDependentCheckpoints(record, id)]; the loop always returns ([block_spec]). *)
Definition block (record : TeamContractRecord) (checkpointId : string) : TeamContractRecord :=
  set_checkpoints (default (r_checkpoints record)
    (blockDependentCheckpoints (r_checkpoints record) checkpointId)) record.

Definition failCheckpoint (contractId checkpointId memberId reason : string)
    : M TeamContractSnapshot :=
  assertNotInHook ;;
  record ← getContractRecordOrThrow contractId;
  assertStatus record active ;;
  checkpointId ← st_lift (normalizeIdOrThrow checkpointId);
  memberId ← st_lift (normalizeIdOrThrow memberId);
  let reason := trim reason in
  st_throw_if (String.length reason =? 0)%nat
    (TeamContractValidationError "failure reason must not be empty") ;;
  match mget (r_checkpoints record) checkpointId with
  | None => st_throw (TeamContractStateError "checkpoint not found")
  | Some checkpoint =>
    match cs_status checkpoint with
    | cpFailed => mret (toSnapshot record)
    | cpCompleted => st_throw (TeamContractStateError "checkpoint is already completed")
    | cpPending | cpReady | cpBlocked =>
      assertMemberCanActOnRole record memberId (cs_roleId checkpoint) ;;
      failedAt ← now;
      let checkpoint := failedCheckpoint memberId failedAt reason checkpoint in
      let record := block
        (set_checkpoints (mset checkpointId checkpoint (r_checkpoints record)) record) checkpointId in
      let record :=
        if cs_required checkpoint
        then set_completedAt (Some failedAt) (set_status failed record) else record in
      save record ;;
      let failure := {| rf_contractId := r_id record; rf_roleId := cs_roleId checkpoint;
                        rf_checkpointId := checkpointId; rf_memberId := memberId;
                        rf_reason := reason; rf_atMs := failedAt |} in
      record ← recordAuditEvent record
        (checkpoint_failed checkpointId (cs_roleId checkpoint) memberId reason);
      invokeHook (match onRoleFailure (hooks cfg) with
                  | Some hook => hook failure
                  | None => mret tt
                  end) ;;
      mret (toSnapshot record)
    end
  end.

(** The part of [finalizePayout] that moves an active contract to completed. *)
Definition closeForPayout (record : TeamContractRecord) : M TeamContractRecord :=
  match r_status record with
  | active =>
      st_throw_if (negb (areAllRequiredCheckpointsCompleted (r_checkpoints record)))
        (TeamContractStateError "cannot finalize payout while required checkpoints remain incomplete") ;;
      t ← now;
      let record := set_completedAt (Some t) (set_status completed record) in
      save record ;;
      mret record
  | _ => mret record
  end.

Definition finalizePayout (contractId : string) (totalReward : Z) : M TeamPayoutResult :=
  assertNotInHook ;;
  record ← getContractRecordOrThrow contractId;
  st_throw_if (bool_decide (r_status record = cancelled))
    (TeamContractStateError "cannot finalize payout for cancelled contract") ;;
  match r_finalizedPayout record with
  | Some payout => mret payout
  | None =>
    st_throw_if (bool_decide (r_status record = draft))
      (TeamContractStateError "cannot finalize payout before run start") ;;
    record ← closeForPayout record;
    st_throw_if (totalReward <? 0) (TeamPayoutError "total reward must be non-negative") ;;
    payout ← st_lift (computeTeamPayout {|
      in_totalRewardLamports := totalReward; in_template := r_template record;
      in_checkpoints := checkpointRecord record;
      in_roleAssignments := roleAssignmentRecord record |});
    let record := set_finalizedPayout (Some payout) record in
    save record ;;
    recordAuditEvent record (payout_finalized totalReward (unallocatedLamports payout)) ;;
    mret payout
  end.

Definition getContract (contractId : string) : M (option TeamContractSnapshot) :=
  id ← st_lift (normalizeIdOrThrow contractId);
  s ← st_get;
  mret (toSnapshot <$> mget (contracts s) id).

Definition listAuditEvents (contractId : string) : M (list TeamAuditEvent) :=
  id ← st_lift (normalizeIdOrThrow contractId);
  s ← st_get;
  mret (list_events id (auditStore s)).
End Engine.
