(* ===== verification/TeamEngineInv.v ===== *)
(** * Team contracts: the invariant of a record and how a record may change

    [rec_inv] is what holds of every contract record the engine keeps;
    [rec_le] is how a record may change over its life. The lemmas show that
    each record update of the engine respects both. *)
From S2P Require Import Prelude JsMap JsString Capabilities TeamTypes TeamPayout TeamPayoutStages TeamValidation TeamValidationSpec TeamCheckpoints TeamCheckpointsSpec TeamAudit TeamEngine.
#[local] Open Scope Z_scope.

(** ** The roster *)

Definition assigned (assign : jsmap (list string)) (roleId : string) : list string :=
  default [] (mget assign roleId).

(** A member assigned to a role is active, has the capabilities the role
    requires, and lists the role; a role is never over-full. *)
Definition role_ok (members : jsmap TeamMember) (assign : jsmap (list string))
    (role : TeamRoleTemplate) : Prop :=
  NoDup (assigned assign (role_id role)) /\
  length_gt (assigned assign (role_id role)) (default (NInt 1) (maxMembers role)) = false /\
  forall m, m ∈ assigned assign (role_id role) ->
    exists mem, mget members m = Some mem /\ member_active mem = true /\
      hasCapability (member_capabilities mem) (requiredCapabilities role) = true /\
      role_id role ∈ member_roles mem.

Definition member_ok (assign : jsmap (list string)) (k : string) (m : TeamMember) : Prop :=
  member_id m = k /\ NoDup (member_roles m) /\ (member_active m = false -> member_roles m = []) /\
  forall r, r ∈ member_roles m -> k ∈ assigned assign r.

Record roster_ok (t : TeamTemplate) (members : jsmap TeamMember) (assign : jsmap (list string))
    : Prop := {
  ro_nodup : NoDup (mkeys members);
  ro_member : forall k m, mget members k = Some m -> member_ok assign k m;
  ro_keys : mkeys assign = map role_id (roles t);
  ro_role : forall role, role ∈ roles t -> role_ok members assign role;
}.

Lemma assigned_mset assign r l r' :
  assigned (mset r l assign) r' = if String.eqb r' r then l else assigned assign r'.
Proof. unfold assigned. rewrite mget_mset. by destruct (String.eqb r' r). Qed.

Lemma roster_join t members assign k m :
  roster_ok t members assign -> mget members k = None ->
  member_id m = k -> member_roles m = [] -> roster_ok t (mset k m members) assign.
Proof.
  intros [Hn Hm Hk Hr] Hfresh Hid Hroles. split; [by apply mset_NoDup| |done|].
  - intros k' m'. rewrite mget_mset. destruct (String.eqb_spec k' k) as [->|]; [|apply Hm].
    intros [= <-]. split_and!; [done|rewrite Hroles; constructor|done|]. rewrite Hroles.
    by intros r ?%not_elem_of_nil.
  - intros role Hrole. destruct (Hr role Hrole) as (H1 & H2 & H3). split_and!; [done|done|].
    intros x (mem & Hg & ?)%H3. exists mem. split; [|done]. rewrite mget_mset_ne; [done|]. congruence.
Qed.

Lemma length_ge_snoc {A} (l l' : list A) x n :
  l' ≡ₚ l ++ [x] -> length_ge l n = false -> length_gt l' n = false.
Proof.
  intros Hp. unfold length_ge, length_gt. destruct n as [z|]; [|done].
  rewrite Hp, length_app. simpl. intros Hlt%Z.leb_gt. apply Z.ltb_ge. lia.
Qed.

Section Roster.
Context `{Collation}.

Lemma roster_assign t members assign k m role :
  NoDup (map role_id (roles t)) ->
  roster_ok t members assign -> mget members k = Some m -> member_active m = true ->
  role ∈ roles t -> hasCapability (member_capabilities m) (requiredCapabilities role) = true ->
  k ∉ assigned assign (role_id role) ->
  length_ge (assigned assign (role_id role)) (default (NInt 1) (maxMembers role)) = false ->
  roster_ok t
    (mset k (set_member_roles (sort_strings (sort_strings (member_roles m ++ [role_id role]))) m) members)
    (mset (role_id role) (sort_strings (assigned assign (role_id role) ++ [k])) assign).
Proof.
  intros Hids [Hn Hm Hk Hr] Hg Hact Hrole Hcap Hnew Hlen.
  assert (forall l, sort_strings l ≡ₚ l) as Hsp by (intros; apply sort_on_perm).
  assert (forall r x, x ∈ assigned assign r -> x ∈ assigned (mset (role_id role)
     (sort_strings (assigned assign (role_id role) ++ [k])) assign) r) as Hmono.
  { intros r x Hx. rewrite assigned_mset. destruct (String.eqb_spec r (role_id role)) as [->|]; [|done].
    rewrite Hsp. set_solver. }
  split.
  - by apply mset_NoDup.
  - intros k' m'. rewrite mget_mset. destruct (String.eqb_spec k' k) as [->|].
    + intros [= <-]. destruct (Hm k m Hg) as (H1 & H2 & H3 & H4). split_and!; simpl; [done| |congruence|].
      * rewrite !Hsp. apply NoDup_app. split_and!; [done| |apply NoDup_singleton].
        intros x Hx ->%list_elem_of_singleton. by apply Hnew, H4.
      * intros r. rewrite !Hsp. intros [Hx|Hx]%elem_of_app; [by apply Hmono, H4|].
        apply list_elem_of_singleton in Hx as ->. rewrite assigned_mset, String.eqb_refl, Hsp. set_solver.
    + intros Hg'. destruct (Hm k' m' Hg') as (H1 & H2 & H3 & H4). split_and!; auto.
  - rewrite mkeys_mset_in; [done|]. rewrite Hk. by apply list_elem_of_fmap_2.
  - intros role' Hrole'. destruct (Hr role' Hrole') as (H1 & H2 & H3). unfold role_ok.
    assert (forall x, x ∈ assigned assign (role_id role') -> exists mem,
      mget (mset k (set_member_roles (sort_strings (sort_strings (member_roles m ++ [role_id role]))) m)
        members) x = Some mem /\ member_active mem = true /\
      hasCapability (member_capabilities mem) (requiredCapabilities role') = true /\
      role_id role' ∈ member_roles mem) as Hold.
    { intros x (mem & Hx & Ha & Hc & Hin)%H3. rewrite mget_mset.
      destruct (String.eqb_spec x k) as [->|]; [|eauto]. eexists. split; [reflexivity|]. simpl.
      replace mem with m in * by congruence. split_and!; [done|done|]. rewrite !Hsp. set_solver. }
    rewrite assigned_mset. destruct (String.eqb_spec (role_id role') (role_id role)) as [Heq|]; [|done].
    assert (role' = role) as ->.
    { apply list_elem_of_lookup in Hrole as [i Hi]. apply list_elem_of_lookup in Hrole' as [j Hj].
      assert (i = j) as ->; [|congruence]. eapply NoDup_lookup; [exact Hids|..];
        rewrite list_lookup_fmap; [by rewrite Hi|]. rewrite Hj. by simpl; f_equal. }
    split_and!.
    + rewrite Hsp. apply NoDup_app. split_and!; [done| |apply NoDup_singleton].
      by intros x Hx ->%list_elem_of_singleton.
    + by eapply length_ge_snoc; [apply Hsp|].
    + intros x. rewrite Hsp. intros [Hx|Hx]%elem_of_app; [by apply Hold|].
      apply list_elem_of_singleton in Hx as ->. rewrite mget_mset_eq. eexists.
      split_and!; [reflexivity|done|done|]. simpl. rewrite !Hsp. set_solver.
Qed.
End Roster.

(** *** Leaving *)

Definition without (k : string) (l : list string) : list string :=
  List.filter (fun x => negb (String.eqb x k)) l.

Lemma elem_of_without k l x : x ∈ without k l <-> x ∈ l /\ x <> k.
Proof.
  unfold without. rewrite list_elem_of_In, filter_In, <-list_elem_of_In, negb_true_iff.
  by rewrite String.eqb_neq.
Qed.

Lemma without_notin k l : k ∉ l -> without k l = l.
Proof.
  induction l as [|x l IH]; [done|]. intros [Hx Hl]%not_elem_of_cons. simpl.
  destruct (String.eqb_spec x k) as [->|]; [done|]. simpl. by rewrite IH.
Qed.

Lemma remove_snoc k assign rs r :
  removeFromRoles k assign (rs ++ [r]) =
  mset r (without k (assigned (removeFromRoles k assign rs) r)) (removeFromRoles k assign rs).
Proof. unfold removeFromRoles at 1. by rewrite foldl_snoc. Qed.

Lemma assigned_remove k assign rs r :
  assigned (removeFromRoles k assign rs) r =
  if has rs r then without k (assigned assign r) else assigned assign r.
Proof.
  induction rs as [|r' rs IH] using rev_ind; [done|].
  rewrite remove_snoc, assigned_mset, has_app. unfold has at 2. simpl. rewrite orb_false_r.
  destruct (String.eqb_spec r r') as [->|]; [|by rewrite orb_false_r].
  rewrite orb_true_r, IH. destruct (has rs r'); [|done].
  apply without_notin. by intros [_ ?]%elem_of_without.
Qed.

Lemma mkeys_remove k assign rs :
  (forall r, r ∈ rs -> r ∈ mkeys assign) -> mkeys (removeFromRoles k assign rs) = mkeys assign.
Proof.
  induction rs as [|r' rs IH] using rev_ind; [done|]. intros Hin.
  rewrite remove_snoc, mkeys_mset_in; rewrite IH; [done|..]; intros; apply Hin; set_solver.
Qed.

Lemma assigned_key assign r x : x ∈ assigned assign r -> r ∈ mkeys assign.
Proof.
  unfold assigned. rewrite <-mget_is_Some_keys. destruct (mget assign r); [eauto|].
  by intros ?%not_elem_of_nil.
Qed.

Lemma roster_leave t members assign k m m' :
  roster_ok t members assign -> mget members k = Some m ->
  member_id m' = k -> member_active m' = false -> member_roles m' = [] ->
  roster_ok t (mset k m' members) (removeFromRoles k assign (member_roles m)).
Proof.
  intros [Hn Hm Hk Hr] Hg Hid Hact Hroles. destruct (Hm k m Hg) as (_ & _ & _ & Hmine).
  assert (forall r x, x ∈ assigned (removeFromRoles k assign (member_roles m)) r <->
            x ∈ assigned assign r /\ (r ∈ member_roles m -> x <> k)) as Hel.
  { intros r x. rewrite assigned_remove. destruct (has (member_roles m) r) eqn:E.
    - apply has_true in E. rewrite elem_of_without. tauto.
    - apply has_false in E. tauto. }
  split.
  - by apply mset_NoDup.
  - intros k' m0. rewrite mget_mset. destruct (String.eqb_spec k' k) as [->|].
    + intros [= <-]. unfold member_ok. rewrite Hroles. split_and!; [done|constructor|done|].
      by intros r ?%not_elem_of_nil.
    + intros Hg'. destruct (Hm k' m0 Hg') as (H1 & H2 & H3 & H4). split_and!; [done..|].
      intros r Hin. apply Hel. split; [by apply H4|done].
  - rewrite mkeys_remove; [done|]. intros r Hin. by eapply assigned_key, Hmine.
  - intros role Hrole. destruct (Hr role Hrole) as (H1 & H2 & H3). split_and!.
    + rewrite assigned_remove. destruct (has _ _); [|done].
      by apply NoDup_ListNoDup, List.NoDup_filter, NoDup_ListNoDup.
    + rewrite assigned_remove. destruct (has _ _); [|done]. unfold length_gt in *.
      destruct (default (NInt 1) (maxMembers role)); [|done]. apply Z.ltb_ge. apply Z.ltb_ge in H2.
      pose proof (List.filter_length_le (fun x => negb (String.eqb x k)) (assigned assign (role_id role))).
      unfold without. lia.
    + intros x [Hx Hne]%Hel. apply H3 in Hx as (mem & Hx & Ha & Hc & Hin).
      exists mem. split; [|done]. rewrite mget_mset_ne; [done|]. intros <-.
      apply Hne; [|done]. by replace m with mem by congruence.
Qed.

(** ** The checkpoints *)

(** The fields fixed by the template. *)
Definition static (c : TeamCheckpointState) :=
  (cs_id c, cs_roleId c, cs_label c, cs_dependsOn c, cs_required c).

(** A completed (failed) checkpoint names a member of its role. *)
Definition author_ok (assign : jsmap (list string)) (c : TeamCheckpointState) : Prop :=
  match cs_status c with
  | cpCompleted => (exists m, completedBy c = Some m /\ m ∈ assigned assign (cs_roleId c)) /\
                   failedBy c = None
  | cpFailed => completedBy c = None /\
                exists m, failedBy c = Some m /\ m ∈ assigned assign (cs_roleId c)
  | _ => completedBy c = None /\ failedBy c = None
  end.

Record checkpoints_ok (t : TeamTemplate) (assign : jsmap (list string)) (cps : Checkpoints)
    : Prop := {
  co_static : mmap static cps = map (fun cp => (cp_id cp, static (initialCheckpoint cp))) (checkpoints t);
  co_settled : settled cps;
  co_author : forall k c, mget cps k = Some c -> author_ok assign c;
}.

Lemma mmap_shape cps cps' : shape cps = shape cps' -> mmap static cps = mmap static cps'.
Proof.
  intros Hs. assert (forall l, mmap static l = mmap static (shape l)) as Hm.
  { intros l. unfold shape, mmap. rewrite map_map. by apply map_ext. }
  by rewrite (Hm cps), (Hm cps'), Hs.
Qed.

Lemma static_mset cps k c c' :
  mget cps k = Some c -> static c' = static c -> mmap static (mset k c' cps) = mmap static cps.
Proof. intros Hc Hs. rewrite mmap_mset, Hs. apply mset_id. by rewrite mget_mmap, Hc. Qed.

Lemma co_keys t assign cps :
  checkpoints_ok t assign cps -> mkeys cps = map cp_id (checkpoints t).
Proof.
  intros [Hs _ _]. rewrite <-(mkeys_mmap static), Hs. unfold mkeys. rewrite map_map. done.
Qed.

Lemma co_ids t assign cps :
  NoDup (map cp_id (checkpoints t)) -> checkpoints_ok t assign cps -> ids_ok cps.
Proof.
  intros Hnd Hc. pose proof (co_keys _ _ _ Hc) as Hk. split; [by rewrite Hk|].
  intros k c Hg. assert (mget (mmap static cps) k = Some (static c)) as Hg' by (by rewrite mget_mmap, Hg).
  rewrite (co_static _ _ _ Hc) in Hg'. apply mget_Some_elem, list_elem_of_fmap in Hg' as (cp & Heq & _).
  injection Heq. intros. unfold initialCheckpoint in *. simpl in *. congruence.
Qed.

(** What keeps a checkpoint that is already completed or failed as it is. *)
Definition keeps_closed (cps cps' : Checkpoints) : Prop :=
  forall k c, mget cps k = Some c -> cs_status c = cpCompleted \/ cs_status c = cpFailed ->
    mget cps' k = Some c.

#[export] Instance keeps_closed_preorder : PreOrder keeps_closed.
Proof. split; [by intros cps k c|]. intros a b c H1 H2 k x Hk Hs. eauto. Qed.

Lemma with_status_same c : with_status (cs_status c) c = c.
Proof. by destruct c. Qed.

Lemma evolves_get cps cps' k c' :
  evolves cps cps' -> mget cps' k = Some c' ->
  exists c, mget cps k = Some c /\ c' = with_status (cs_status c') c /\
    (cs_status c = cpCompleted <-> cs_status c' = cpCompleted) /\
    (cs_status c = cpFailed <-> cs_status c' = cpFailed).
Proof.
  intros [Hs H1 H2 _] Hc'. pose proof (shape_get _ _ _ _ Hs Hc') as Hg.
  destruct (mget cps k) as [c|] eqn:Hc; [|done]. exists c. simpl in Hg. injection Hg as Hg.
  specialize (H1 k). specialize (H2 k). unfold dep_is in *. rewrite Hc, Hc' in *.
  split_and!; [done| |by destruct (cs_status c), (cs_status c')..].
  rewrite Hg. destruct c'. done.
Qed.

Lemma evolves_closed cps cps' : evolves cps cps' -> keeps_closed cps cps'.
Proof.
  intros He k c Hc Hst. pose proof (shape_get _ _ _ _ (eq_sym (ev_shape _ _ He)) Hc) as Hg.
  destruct (evolves_get _ _ _ _ He Hg) as (c0 & Hc0 & _ & H1 & H2). replace c0 with c in * by congruence.
  simpl in *. rewrite Hg. f_equal. rewrite <-(with_status_same c) at 2. f_equal.
  destruct Hst as [E|E]; [rewrite (proj1 H1 E)|rewrite (proj1 H2 E)]; done.
Qed.

Lemma evolves_author assign cps cps' :
  evolves cps cps' -> (forall k c, mget cps k = Some c -> author_ok assign c) ->
  forall k c, mget cps' k = Some c -> author_ok assign c.
Proof.
  intros He Ha k c' (c & Hc & -> & H1 & H2)%(evolves_get _ _ _ _ He). specialize (Ha k c Hc).
  unfold author_ok in *. simpl. destruct (cs_status c'), (cs_status c); simpl in *; try done;
    naive_solver.
Qed.

Lemma blockSet_closed X cps : keeps_closed cps (blockSet X cps).
Proof.
  intros k c Hc Hst. rewrite mget_blockSet, Hc. simpl. destruct (has X k); [|done].
  unfold block_status. by destruct Hst as [-> | ->].
Qed.

Lemma block_status_author assign c : author_ok assign c -> author_ok assign (block_status c).
Proof. unfold author_ok, block_status. destruct (cs_status c) eqn:E; simpl; rewrite ?E; done. Qed.

Lemma blockSet_author assign X cps :
  (forall k c, mget cps k = Some c -> author_ok assign c) ->
  forall k c, mget (blockSet X cps) k = Some c -> author_ok assign c.
Proof.
  intros Ha k c'. rewrite mget_blockSet. destruct (mget cps k) as [c|] eqn:Hc; [|done]. simpl.
  intros [= <-]. specialize (Ha k c Hc). destruct (has X k); [by apply block_status_author|done].
Qed.

Lemma blockSet_static X cps : mmap static (blockSet X cps) = mmap static cps.
Proof.
  unfold mmap, blockSet. rewrite map_map. apply map_ext. intros [k c]. simpl. f_equal.
  destruct (has X k); [|done]. unfold block_status. by destruct (cs_status c).
Qed.

(** ** The record *)

Definition staffed (t : TeamTemplate) (assign : jsmap (list string)) : Prop :=
  forall role, role ∈ roles t ->
    length_lt (assigned assign (role_id role)) (default (NInt 1) (minMembers role)) = false.

Definition status_ok (r : TeamContractRecord) : Prop :=
  let cps := r_checkpoints r in
  match r_status r with
  | draft => (forall k c, mget cps k = Some c -> open_status (cs_status c) = true) /\
             r_startedAt r = None /\ r_completedAt r = None /\ r_cancelledAt r = None
  | active => is_Some (r_startedAt r) /\ r_completedAt r = None /\ r_cancelledAt r = None /\
              staffed (r_template r) (r_roleAssignments r) /\
              forall k c, mget cps k = Some c -> cs_required c = true -> cs_status c <> cpFailed
  | completed => is_Some (r_startedAt r) /\ is_Some (r_completedAt r) /\ r_cancelledAt r = None /\
                 staffed (r_template r) (r_roleAssignments r) /\
                 forall k c, mget cps k = Some c -> cs_required c = true -> cs_status c = cpCompleted
  | failed => is_Some (r_startedAt r) /\ is_Some (r_completedAt r) /\ r_cancelledAt r = None /\
              staffed (r_template r) (r_roleAssignments r) /\
              exists k c, mget cps k = Some c /\ cs_required c = true /\ cs_status c = cpFailed
  | cancelled => is_Some (r_completedAt r) /\ is_Some (r_cancelledAt r)
  end.

Section Record_.
Context `{Collation} (single : bool).

(** The payout a record was finalised with is the one its frozen checkpoints
    and roster determine. *)
Definition payout_ok (r : TeamContractRecord) : Prop :=
  forall p, r_finalizedPayout r = Some p ->
    (r_status r = completed \/ r_status r = failed) /\
    computeTeamPayout {|
      in_totalRewardLamports := totalRewardLamports p; in_template := r_template r;
      in_checkpoints := checkpointRecord r; in_roleAssignments := roleAssignmentRecord r |} = Ok p.

Record rec_inv (r : TeamContractRecord) : Prop := {
  ri_normal : normal_template (r_template r);
  ri_valid : valid_template single (r_template r);
  ri_roster : roster_ok (r_template r) (r_members r) (r_roleAssignments r);
  ri_checkpoints : checkpoints_ok (r_template r) (r_roleAssignments r) (r_checkpoints r);
  ri_status : status_ok r;
  ri_payout : payout_ok r;
  ri_sequence : 1 <= r_auditSequence r;
}.
End Record_.

(** ** How a record may change *)

Inductive status_step : TeamContractStatus -> TeamContractStatus -> Prop :=
| status_start : status_step draft active
| status_cancel_draft : status_step draft cancelled
| status_complete : status_step active completed
| status_fail : status_step active failed
| status_cancel : status_step active cancelled.

Definition terminal (st : TeamContractStatus) : Prop :=
  st = completed \/ st = failed \/ st = cancelled.

Record rec_le (r r' : TeamContractRecord) : Prop := {
  rl_id : r_id r' = r_id r;
  rl_creator : r_creatorId r' = r_creatorId r;
  rl_template : r_template r' = r_template r;
  rl_status : rtc status_step (r_status r) (r_status r');
  rl_members : forall k, k ∈ mkeys (r_members r) -> k ∈ mkeys (r_members r');
  rl_roster : r_status r <> draft -> r_members r' = r_members r /\
                                     r_roleAssignments r' = r_roleAssignments r;
  rl_closed : keeps_closed (r_checkpoints r) (r_checkpoints r');
  rl_frozen : terminal (r_status r) -> r_checkpoints r' = r_checkpoints r;
  rl_payout : forall p, r_finalizedPayout r = Some p -> r_finalizedPayout r' = Some p;
  rl_sequence : r_auditSequence r <= r_auditSequence r';
}.

Lemma status_not_draft st st' : rtc status_step st st' -> st <> draft -> st' <> draft.
Proof. induction 1 as [|a b c Hab _ IH]; [done|]. intros _. apply IH. by destruct Hab. Qed.

Lemma status_terminal st st' : rtc status_step st st' -> terminal st -> st' = st.
Proof.
  intros Hr Ht. destruct Hr as [|a b c Hab _]; [done|].
  destruct Hab; destruct Ht as [?|[?|?]]; done.
Qed.

#[export] Instance rec_le_preorder : PreOrder rec_le.
Proof.
  split; [by split|]. intros a b c [] []. split; try (etransitivity; eassumption); try congruence; eauto.
  - intros Hd. pose proof (status_not_draft _ _ rl_status0 Hd).
    destruct rl_roster0, rl_roster1; try done. split; congruence.
  - intros Ht. pose proof (status_terminal _ _ rl_status0 Ht) as Hs.
    rewrite rl_frozen1, rl_frozen0; [done|done|]. by rewrite Hs.
Qed.

(** * Team contracts: each update of a record respects its invariant

    One lemma per record update of engine.ts: from a record with [rec_inv] and
    the guards the operation has checked, the updated record has [rec_inv] and
    is reached by [rec_le]. *)
From S2P Require Import Prelude JsMap JsString Capabilities TeamTypes TeamPayout TeamPayoutStages TeamValidation TeamValidationSpec TeamCheckpoints TeamCheckpointsSpec TeamAudit TeamEngine.
#[local] Open Scope Z_scope.

(** The parts of the invariant an update does not touch. *)
Ltac keep_part Hi :=
  first [ exact (ri_normal _ _ Hi) | exact (ri_valid _ _ Hi) | exact (ri_roster _ _ Hi)
        | exact (ri_checkpoints _ _ Hi) | exact (ri_sequence _ _ Hi) ].

Section Steps.
Context `{Collation} (single : bool).
Notation rec_inv := (rec_inv single).
Implicit Types r : TeamContractRecord.

Definition step_ok r r' : Prop := rec_inv r' /\ rec_le r r'.

Lemma step_refl r : rec_inv r -> step_ok r r.
Proof. by split. Qed.

Lemma step_audit r : rec_inv r -> step_ok r (set_auditSequence (r_auditSequence r + 1) r).
Proof.
  intros [Hn Hv Hr Hc Hs Hp Hq]. split; split; simpl; try done; lia.
Qed.

Lemma payout_none r : rec_inv r -> r_status r <> completed -> r_status r <> failed ->
  r_finalizedPayout r = None.
Proof.
  intros Hi H1 H2. destruct (r_finalizedPayout r) as [p|] eqn:E; [|done].
  destruct (ri_payout _ _ Hi p E) as [[?|?] _]; done.
Qed.

Lemma no_payout_ok r : r_finalizedPayout r = None -> payout_ok r.
Proof. intros E p. by rewrite E. Qed.

(** Draft records: no checkpoint is completed or failed, so the roster may
    change without touching what the checkpoints record. *)
Lemma draft_checkpoints r assign :
  rec_inv r -> r_status r = draft -> checkpoints_ok (r_template r) assign (r_checkpoints r).
Proof.
  intros Hi Hd. destruct (ri_checkpoints _ _ Hi) as [H1 H2 H3]. split; [done|done|].
  intros k c Hc. pose proof (ri_status _ _ Hi) as Hs. unfold status_ok in Hs. rewrite Hd in Hs.
  specialize (H3 k c Hc). destruct Hs as [Ho _]. specialize (Ho k c Hc).
  unfold author_ok in *. by destruct (cs_status c).
Qed.

Lemma step_roster r members assign :
  rec_inv r -> r_status r = draft -> roster_ok (r_template r) members assign ->
  (forall k, k ∈ mkeys (r_members r) -> k ∈ mkeys members) ->
  step_ok r (set_members members (set_roleAssignments assign r)).
Proof.
  intros Hi Hd Hro Hm. split; split; simpl; try keep_part Hi; try done.
  - by apply draft_checkpoints.
  - pose proof (ri_status _ _ Hi) as Hs. unfold status_ok in *. simpl. by rewrite Hd in *.
  - apply no_payout_ok. simpl. apply payout_none; [done|by rewrite Hd..].
Qed.

Lemma step_start r t cps' :
  rec_inv r -> r_status r = draft -> staffed (r_template r) (r_roleAssignments r) ->
  refreshCheckpointReadiness (r_checkpoints r) = Some cps' ->
  step_ok r (set_checkpoints cps' (set_startedAt (Some t) (set_status active r))).
Proof.
  intros Hi Hd Hst HR. destruct (ri_checkpoints _ _ Hi) as [H1 H2 H3].
  destruct (refresh_settles _ (settled_partly _ H2)) as (cps'' & HR' & He & Hset).
  assert (cps'' = cps') as -> by congruence.
  pose proof (ri_status _ _ Hi) as Hs. unfold status_ok in Hs. rewrite Hd in Hs.
  destruct Hs as (Ho & Hsa & Hco & Hca).
  split; split; simpl; try keep_part Hi; try done.
  - split; [|done|by apply (evolves_author _ _ _ He)]. rewrite <-H1. by apply mmap_shape, He.
  - unfold status_ok; simpl. split_and!; [eauto|done..|].
    intros k c' (c & Hc & _ & _ & Hf)%(evolves_get _ _ _ _ He) _ E. apply Hf in E.
    specialize (Ho k c Hc). by rewrite E in Ho.
  - apply no_payout_ok. simpl. apply payout_none; [done|by rewrite Hd..].
  - rewrite Hd. apply rtc_once. constructor.
  - by apply evolves_closed.
  - rewrite Hd. by intros [?|[?|?]].
Qed.

Lemma step_cancel r t :
  rec_inv r -> r_status r = draft \/ r_status r = active ->
  step_ok r (set_completedAt (Some t) (set_cancelledAt (Some t) (set_status cancelled r))).
Proof.
  intros Hi Hd. split; split; simpl; try keep_part Hi; try done.
  - apply no_payout_ok. simpl. apply payout_none; [done|by destruct Hd as [-> | ->]..].
  - apply rtc_once. destruct Hd as [-> | ->]; constructor.
Qed.

Lemma step_complete r k c c' cps' :
  rec_inv r -> r_status r = active -> mget (r_checkpoints r) k = Some c ->
  open_status (cs_status c) = true ->
  dependenciesComplete (r_checkpoints r) (cs_dependsOn c) = true ->
  static c' = static c -> cs_status c' = cpCompleted -> author_ok (r_roleAssignments r) c' ->
  refreshCheckpointReadiness (mset k c' (r_checkpoints r)) = Some cps' ->
  step_ok r (set_checkpoints cps' r).
Proof.
  intros Hi Ha Hc Ho Hd Hst Hs' Hau HR. destruct (ri_checkpoints _ _ Hi) as [H1 H2 H3].
  assert (partly_settled (mset k c' (r_checkpoints r))) as Hp.
  { eapply complete_partly; try done. unfold static in Hst. congruence. }
  destruct (refresh_settles _ Hp) as (cps'' & HR' & He & Hset).
  assert (cps'' = cps') as -> by congruence.
  assert (keeps_closed (r_checkpoints r) cps') as Hkc.
  { transitivity (mset k c' (r_checkpoints r)); [|by apply evolves_closed].
    intros k' x Hx Hstx. rewrite mget_mset_ne; [done|]. intros <-.
    replace x with c in * by congruence. by destruct Hstx as [E|E]; rewrite E in Ho. }
  pose proof (ri_status _ _ Hi) as Hs. unfold status_ok in Hs. rewrite Ha in Hs.
  destruct Hs as (Hsa & Hco & Hca & Hstaff & Hnf).
  split; split; simpl; try keep_part Hi; try done.
  - split; [|done|].
    + rewrite <-H1, <-(static_mset _ _ _ _ Hc Hst). by apply mmap_shape, He.
    + apply (evolves_author _ _ _ He). intros k' x. rewrite mget_mset.
      destruct (String.eqb k' k); [by intros [= <-]|apply H3].
  - unfold status_ok; simpl. rewrite Ha. split_and!; [done..|].
    intros k' x (x0 & Hx0 & Heq & _ & Hf)%(evolves_get _ _ _ _ He) Hreq E. apply Hf in E.
    rewrite Heq in Hreq. simpl in Hreq. rewrite mget_mset in Hx0.
    destruct (String.eqb k' k); [injection Hx0 as <-; congruence|]. by eapply Hnf.
  - apply no_payout_ok. simpl. apply payout_none; [done|by rewrite Ha..].
  - rewrite Ha. by intros [?|[?|?]].
Qed.

Lemma allRequired_true cps :
  areAllRequiredCheckpointsCompleted cps = true ->
  forall k c, mget cps k = Some c -> cs_required c = true -> cs_status c = cpCompleted.
Proof.
  unfold areAllRequiredCheckpointsCompleted. rewrite forallb_forall. intros Hall k c Hc Hreq.
  specialize (Hall c). rewrite <-list_elem_of_In in Hall. specialize (Hall (mget_mvals _ _ _ Hc)).
  rewrite Hreq in Hall. simpl in Hall. by apply bool_decide_eq_true in Hall.
Qed.

Lemma step_finish r t :
  rec_inv r -> r_status r = active ->
  areAllRequiredCheckpointsCompleted (r_checkpoints r) = true ->
  step_ok r (set_completedAt (Some t) (set_status completed r)).
Proof.
  intros Hi Ha Hall. pose proof (ri_status _ _ Hi) as Hs. unfold status_ok in Hs. rewrite Ha in Hs.
  destruct Hs as (Hsa & Hco & Hca & Hstaff & Hnf). split; split; simpl; try keep_part Hi; try done.
  - unfold status_ok; simpl. split_and!; [done|eauto|done..|by apply allRequired_true].
  - apply no_payout_ok. simpl. apply payout_none; [done|by rewrite Ha..].
  - rewrite Ha. apply rtc_once. constructor.
Qed.

Lemma step_fail r k c c' t :
  rec_inv r -> r_status r = active -> mget (r_checkpoints r) k = Some c ->
  cs_status c <> cpCompleted -> cs_status c <> cpFailed ->
  static c' = static c -> cs_status c' = cpFailed -> author_ok (r_roleAssignments r) c' ->
  let r1 := block (set_checkpoints (mset k c' (r_checkpoints r)) r) k in
  step_ok r (if cs_required c' then set_completedAt (Some t) (set_status failed r1) else r1).
Proof.
  intros Hi Ha Hc Hn1 Hn2 Hst Hs' Hau r1. destruct (ri_checkpoints _ _ Hi) as [H1 H2 H3].
  pose proof (co_ids _ _ _ (vt_cp_ids _ _ (ri_valid _ _ Hi)) (ri_checkpoints _ _ Hi)) as Hids.
  destruct (fail_settled (r_checkpoints r) k c Hids H2 Hc Hn1 c') as (X & HB & HX & Hset).
  { unfold static in Hst. split_and!; congruence. }
  assert (r1 = set_checkpoints (blockSet X (mset k c' (r_checkpoints r))) r) as ->.
  { unfold r1, block. simpl. by rewrite HB. }
  clear HB. set (cps' := blockSet X (mset k c' (r_checkpoints r))) in *.
  assert (k ∉ X) as HkX by (intros [_ ?]%HX; done).
  assert (mget cps' k = Some c') as Hk.
  { unfold cps'. rewrite mget_blockSet, mget_mset_eq. simpl. by rewrite (proj2 (has_false X k) HkX). }
  assert (keeps_closed (r_checkpoints r) cps') as Hkc.
  { transitivity (mset k c' (r_checkpoints r)); [|apply blockSet_closed].
    intros k' x Hx Hstx. rewrite mget_mset_ne; [done|]. intros <-.
    replace x with c in * by congruence. by destruct Hstx. }
  assert (checkpoints_ok (r_template r) (r_roleAssignments r) cps') as Hco.
  { split; [|done|].
    - unfold cps'. by rewrite blockSet_static, (static_mset _ _ _ _ Hc Hst).
    - apply blockSet_author. intros k' x. rewrite mget_mset.
      destruct (String.eqb k' k); [by intros [= <-]|apply H3]. }
  pose proof (ri_status _ _ Hi) as Hs. unfold status_ok in Hs. rewrite Ha in Hs.
  destruct Hs as (Hsa & Hcoa & Hca & Hstaff & Hnf).
  destruct (cs_required c') eqn:Hreq; split; split; simpl; try keep_part Hi; try done.
  - unfold status_ok; simpl. split_and!; [done|eauto|done..|]. eauto.
  - apply no_payout_ok. simpl. apply payout_none; [done|by rewrite Ha..].
  - rewrite Ha. apply rtc_once. constructor.
  - rewrite Ha. by intros [?|[?|?]].
  - unfold status_ok; simpl. rewrite Ha. split_and!; [done..|]. intros k' x Hx Hrx E.
    unfold cps' in Hx. rewrite mget_blockSet, mget_mset in Hx.
    destruct (String.eqb_spec k' k) as [->|].
    + rewrite (proj2 (has_false X k) HkX) in Hx. simpl in Hx. congruence.
    + destruct (mget (r_checkpoints r) k') as [x0|] eqn:Hx0; [|done]. simpl in Hx. injection Hx as <-.
      specialize (Hnf k' x0 Hx0). destruct (has X k'); [|by apply Hnf].
      revert Hrx E Hnf. unfold block_status. clear. destruct (cs_status x0) eqn:E0; simpl; intros H1 H2 H3; try done; congruence || by apply H3.
  - apply no_payout_ok. simpl. apply payout_none; [done|by rewrite Ha..].
  - rewrite Ha. by intros [?|[?|?]].
Qed.

Lemma payout_total input p : computeTeamPayout input = Ok p ->
  totalRewardLamports p = in_totalRewardLamports input.
Proof.
  unfold computeTeamPayout. intros HC. apply bind_Ok in HC as (_ & _ & HC). cbv zeta in HC.
  do 4 (apply bind_Ok in HC as (? & _ & HC); repeat case_match). injection HC as <-. done.
Qed.

Lemma step_payout r total p :
  rec_inv r -> r_status r = completed \/ r_status r = failed -> r_finalizedPayout r = None ->
  computeTeamPayout {|
      in_totalRewardLamports := total; in_template := r_template r;
      in_checkpoints := checkpointRecord r; in_roleAssignments := roleAssignmentRecord r |} = Ok p ->
  step_ok r (set_finalizedPayout (Some p) r).
Proof.
  intros Hi Hst Hnone HC. split; split; simpl; try keep_part Hi; try done.
  - exact (ri_status _ _ Hi).
  - intros p' [= <-]. split; [done|]. rewrite <-HC. f_equal. by rewrite (payout_total _ _ HC).
  - by rewrite Hnone.
Qed.

(** ** Creation *)

Lemma cloneTemplate_id t : normal_template t -> cloneTemplate t = t.
Proof.
  intros [_ _ _ (Hc & _) _]. destruct t as [i n rs cs p m]; unfold cloneTemplate; simpl in *. f_equal.
  induction Hc as [|c cs (_ & _ & _ & _ & ds & Hds & _) _ IH]; simpl; [done|].
  rewrite IH, Hds. simpl. destruct c; simpl in *. by rewrite <-Hds.
Qed.

(** The maps [createContract] builds. *)
Definition initialCheckpoints (t : TeamTemplate) : Checkpoints :=
  foldl (fun m cp => mset (cp_id cp) (initialCheckpoint cp) m) [] (checkpoints t).
Definition initialAssignments (t : TeamTemplate) : jsmap (list string) :=
  foldl (fun m role => mset (role_id role) [] m) [] (roles t).

Lemma initialCheckpoints_map t : NoDup (map cp_id (checkpoints t)) ->
  initialCheckpoints t = map (fun cp => (cp_id cp, initialCheckpoint cp)) (checkpoints t).
Proof.
  intros Hnd. unfold initialCheckpoints.
  rewrite (mset_fold_fresh cp_id initialCheckpoint []); [done|done|by intros x _ ?%not_elem_of_nil].
Qed.

Lemma initialAssignments_map t : NoDup (map role_id (roles t)) ->
  initialAssignments t = map (fun role => (role_id role, [])) (roles t).
Proof.
  intros Hnd. unfold initialAssignments.
  rewrite (mset_fold_fresh role_id (fun _ => []) []); [done|done|by intros x _ ?%not_elem_of_nil].
Qed.

Lemma initial_get t k c : NoDup (map cp_id (checkpoints t)) ->
  mget (initialCheckpoints t) k = Some c -> exists cp, c = initialCheckpoint cp.
Proof.
  intros Hnd. rewrite (initialCheckpoints_map t Hnd).
  intros (cp & Heq & _)%mget_Some_elem%list_elem_of_fmap. injection Heq as -> ->. eauto.
Qed.

Lemma initial_open cp : open_status (cs_status (initialCheckpoint cp)) = true.
Proof. simpl. by destruct (length _ =? 0)%nat. Qed.

Lemma initial_dep t d st : NoDup (map cp_id (checkpoints t)) -> open_status st = false ->
  dep_is (initialCheckpoints t) st d = false.
Proof.
  intros Hnd Ho. unfold dep_is. destruct (mget _ d) as [c|] eqn:Hc; [|done].
  apply initial_get in Hc as [cp ->]; [|done]. pose proof (initial_open cp).
  apply bool_decide_eq_false. congruence.
Qed.

Lemma initial_settled t : NoDup (map cp_id (checkpoints t)) -> settled (initialCheckpoints t).
Proof.
  intros Hnd k c [cp ->]%initial_get; [|done]. unfold initialCheckpoint at 1; simpl.
  destruct (default [] (cp_dependsOn cp)) as [|d ds]; [done|]. cbn [length Nat.eqb]. split.
  - unfold dependenciesComplete. cbn [forallb]. by rewrite initial_dep.
  - unfold hasFailedDependency. apply existsb_false, Forall_forall. intros x _. by rewrite !initial_dep.
Qed.

Lemma initial_inv id creator t q :
  normal_template t -> valid_template single t -> 1 <= q ->
  rec_inv {|
    r_id := id; r_creatorId := creator; r_template := t;
    r_status := draft; r_members := []; r_roleAssignments := initialAssignments t;
    r_checkpoints := initialCheckpoints t; r_startedAt := None; r_completedAt := None;
    r_cancelledAt := None; r_finalizedPayout := None; r_auditSequence := q |}.
Proof.
  intros Hn Hv Hq. pose proof (vt_cp_ids _ _ Hv) as Hcp. pose proof (vt_role_ids _ _ Hv) as Hro.
  assert (forall rid, assigned (initialAssignments t) rid = []) as Hempty.
  { intros rid. unfold assigned. destruct (mget _ rid) as [l|] eqn:E; [|done].
    rewrite initialAssignments_map in E by done.
    apply mget_Some_elem, list_elem_of_fmap in E as (role & Heq & _). by injection Heq as -> ->. }
  split; simpl; [done|done| | | |by apply no_payout_ok|done].
  - split; [constructor|done| |].
    + rewrite initialAssignments_map by done. unfold mkeys. by rewrite map_map.
    + intros role Hrole. unfold role_ok. rewrite Hempty. split_and!; [constructor| |by intros m ?%not_elem_of_nil].
      pose proof (vt_counts _ _ Hv) as Hco. rewrite Forall_forall in Hco.
      destruct (Hco role Hrole) as (lo & hi & _ & Hhi & ? & ?). rewrite Hhi. simpl. apply Z.ltb_ge. lia.
  - split; [|by apply initial_settled|].
    + rewrite initialCheckpoints_map by done. unfold mmap. by rewrite map_map.
    + intros k c [cp ->]%initial_get; [|done]. unfold author_ok.
      pose proof (initial_open cp). by destruct (cs_status (initialCheckpoint cp)).
  - unfold status_ok; simpl. split_and!; try done.
    intros k c [cp ->]%initial_get; [|done]. apply initial_open.
Qed.
End Steps.
