(* ===== verification/TeamEngineSafety.v ===== *)
(** * Team contracts: every operation keeps the engine's invariant

    A small program logic for the engine monad, the triple of each helper and
    of each public operation, the commands a client may run, and the states
    they reach. *)
From S2P Require Import Prelude JsMap JsString Capabilities TeamTypes TeamPayout TeamPayoutStages TeamValidation TeamValidationSpec TeamCheckpoints TeamCheckpointsSpec TeamAudit TeamEngine TeamEngineInv.
#[local] Open Scope Z_scope.

(** ** The audit trail of a contract *)

(** The listed events of contract [id] carry strictly increasing sequence
    numbers below the next one, [n]. *)
Definition events_ok (id : string) (n : Z) (l : list TeamAuditEvent) : Prop :=
  StronglySorted Z.lt (map ev_sequence l) /\
  Forall (fun e => ev_contractId e = id /\ 1 <= ev_sequence e < n) l.

Lemma events_mono id n n' l : n <= n' -> events_ok id n l -> events_ok id n' l.
Proof.
  intros Hn [H1 H2]. split; [done|]. eapply Forall_impl; [exact H2|].
  intros e [??]. split; [done|]. lia.
Qed.

Lemma events_drop id n k l : events_ok id n l -> events_ok id n (drop k l).
Proof.
  intros [H1 H2]. split; [|by apply Forall_drop]. clear H2. revert k.
  induction l as [|e l IH]; intros [|k]; simpl; try done. apply IH. by inversion H1.
Qed.

Lemma sorted_snoc (l : list Z) x : StronglySorted Z.lt l -> Forall (fun y => y < x) l ->
  StronglySorted Z.lt (l ++ [x]).
Proof.
  induction 1 as [|y l Hs IH Hy]; intros HF; simpl; [repeat constructor|].
  inversion HF; subst. constructor; [by apply IH|]. apply Forall_app. split; [done|by repeat constructor].
Qed.

Lemma events_snoc id n l ev :
  events_ok id n l -> ev_sequence ev = n -> ev_contractId ev = id -> 1 <= n ->
  events_ok id (n + 1) (l ++ [ev]).
Proof.
  intros [H1 H2] Hs Hc Hn. split.
  - rewrite map_app. simpl. apply sorted_snoc; [done|]. apply Forall_map.
    eapply Forall_impl; [exact H2|]. simpl. lia.
  - apply Forall_app. split.
    + eapply Forall_impl; [exact H2|]. intros e [? ?]. split; [done|lia].
    + repeat constructor; [done|lia..].
Qed.

Section Safety.
Context `{Collation} {St : Type} `{!TeamAuditStore St} `{!TeamAuditStoreLaws St}
  (cfg : EngineConfig St).
Notation M := (ST (Engine St) team_error).
Notation single := (requireSingleParentTopology cfg).

(** ** Hooks

    A callback that runs while [inHook] is set and leaves the engine as it is:
    what a hook can do through the engine's own interface, see
    [hook_program_transparent]. *)
Definition transparent (m : M unit) : Prop := forall s, inHook s = true -> (m s).1 = s.

Definition hooks_ok : Prop :=
  (forall h f, onRoleFailure (hooks cfg) = Some h -> transparent (h f)) /\
  (forall h e ev, onAuditError (hooks cfg) = Some h -> transparent (h e ev)).

(** ** The engine invariant, relative to an earlier state [s0] *)

Definition contracts_ok (s : Engine St) : Prop :=
  forall id r, mget (contracts s) id = Some r -> r_id r = id /\ rec_inv single r.

Definition grows (s0 s : Engine St) : Prop :=
  forall id r0, mget (contracts s0) id = Some r0 ->
    exists r, mget (contracts s) id = Some r /\ rec_le r0 r.

Definition next_sequence (s : Engine St) (id : string) : Z :=
  match mget (contracts s) id with Some r => r_auditSequence r | None => 1 end.

Definition audit_ok (s : Engine St) : Prop :=
  forall id, events_ok id (next_sequence s id) (list_events id (auditStore s)).

Context (s0 : Engine St).

Record Inv (s : Engine St) : Prop := {
  inv_hook : inHook s = false;
  inv_contracts : contracts_ok s;
  inv_audit : audit_ok s;
  inv_grows : grows s0 s;
}.

(** The record [r] is the current content of its contract. *)
Definition at_ (r : TeamContractRecord) (s : Engine St) : Prop :=
  Inv s /\ mget (contracts s) (r_id r) = Some r.

(** [triple P m Q]: from [P], whether [m] returns or throws the invariant
    holds, and when it returns [Q] does. *)
Definition triple {A} (P : Engine St -> Prop) (m : M A) (Q : A -> Engine St -> Prop) : Prop :=
  forall s, P s -> Inv (m s).1 /\ forall a, (m s).2 = Ok a -> Q a (m s).1.

Lemma triple_bind {A B} P (m : M A) Q (k : A -> M B) Q' :
  triple P m Q -> (forall a, triple (Q a) (k a) Q') -> triple P (m ≫= k) Q'.
Proof.
  intros Hm Hk s HP. destruct (Hm s HP) as [HI HQ].
  unfold mbind, st_bind. destruct (m s) as [s' [a|e]]; simpl in *; [|done].
  by apply Hk, HQ.
Qed.

Lemma triple_ret {A} (P : Engine St -> Prop) (a : A) (Q : A -> Engine St -> Prop) :
  (forall s, P s -> Inv s /\ Q a s) -> triple P (mret a) Q.
Proof. intros HP s [HI HQ]%HP. split; [done|]. by intros a' [= <-]. Qed.

Lemma triple_throw {A} P e Q : (forall s, P s -> Inv s) -> triple P (st_throw e : M A) Q.
Proof. intros HP s Hs. split; [by apply HP|done]. Qed.

Lemma triple_lift {A} P (m : result team_error A) : (forall s, P s -> Inv s) ->
  triple P (st_lift m) (fun a s => P s /\ m = Ok a).
Proof. intros HP s Hs. unfold st_lift; simpl. split; [by apply HP|]. by intros a ->. Qed.

Lemma triple_throw_if P c e : (forall s, P s -> Inv s) ->
  triple P (st_throw_if c e) (fun _ s => P s /\ c = false).
Proof. intros HP s Hs. destruct c; simpl; (split; [by apply HP|]); done. Qed.

Lemma triple_pure {A} P (φ : Prop) (m : M A) Q : (φ -> triple P m Q) -> triple (fun s => P s /\ φ) m Q.
Proof. intros Ht s [HP Hφ]. by apply Ht. Qed.

Lemma triple_weaken {A} P P' (m : M A) Q : (forall s, P s -> P' s) -> triple P' m Q -> triple P m Q.
Proof. intros HP Ht s Hs. by apply Ht, HP. Qed.

Lemma at_inv r s : at_ r s -> Inv s.
Proof. by intros []. Qed.

Lemma at_rec r s : at_ r s -> rec_inv single r.
Proof. intros [HI Hr]. by destruct (inv_contracts _ HI _ _ Hr). Qed.

Lemma triple_rec {A} r (m : M A) Q : (rec_inv single r -> triple (at_ r) m Q) -> triple (at_ r) m Q.
Proof. intros Ht s Hs. by apply Ht; [eapply at_rec|]. Qed.

(** ** The helpers *)

Lemma triple_get r {A} (k : Engine St -> M A) Q :
  (forall s, triple (at_ r) (k s) Q) -> triple (at_ r) (st_get ≫= k) Q.
Proof.
  intros Hk. apply (triple_bind _ _ (fun _ => at_ r)); [|done].
  intros s Hs. split; [apply Hs|done].
Qed.

Lemma triple_now r : triple (at_ r) (now cfg) (fun _ => at_ r).
Proof.
  intros s [[H1 H2 H3 H4] Hr]. assert (Inv (now cfg s).1) as HI by (by split).
  split; [done|]. intros t _. by split.
Qed.

Lemma save_inv r s : Inv s -> rec_inv single r ->
  (forall r0, mget (contracts s0) (r_id r) = Some r0 -> rec_le r0 r) ->
  next_sequence s (r_id r) <= r_auditSequence r -> at_ r (save r s).1.
Proof.
  intros [H1 H2 Ha H3] Hr Hle Hseq. split; [split; simpl|].
  - done.
  - intros id r'. simpl. rewrite mget_mset. destruct (String.eqb_spec id (r_id r)) as [->|]; [|apply H2].
    by intros [= <-].
  - intros id. specialize (Ha id). unfold next_sequence in *. simpl. rewrite mget_mset.
    destruct (String.eqb_spec id (r_id r)) as [->|]; [|done]. by eapply events_mono.
  - intros id r0 Hr0. simpl. rewrite mget_mset. destruct (String.eqb_spec id (r_id r)) as [->|].
    + eexists. split; [reflexivity|]. by apply Hle.
    + by apply H3.
  - simpl. by rewrite mget_mset_eq.
Qed.

Lemma triple_save r r' : step_ok single r r' -> triple (at_ r) (save r') (fun _ => at_ r').
Proof.
  intros [Hi Hle] s [HI Hr].
  assert (at_ r' (save r' s).1) as Hat; [|by split; [apply Hat|]].
  apply save_inv; [done|done|..]; rewrite (rl_id _ _ Hle).
  - intros r0 Hr0.
    destruct (inv_grows _ HI _ _ Hr0) as (r1 & Hr1 & Hle1). replace r1 with r in * by congruence.
    by transitivity r.
  - unfold next_sequence. rewrite Hr. apply Hle.
Qed.

Lemma invokeHook_id (m : M unit) s : transparent m -> inHook s = false -> (invokeHook m s).1 = s.
Proof.
  intros Hm Hs. unfold invokeHook. rewrite Hs. simpl. rewrite Hm by done. destruct s; simpl in *. by subst.
Qed.

Hypothesis Hhooks : hooks_ok.

Lemma mret_transparent : transparent (mret tt).
Proof. by intros s. Qed.

Lemma appendEvent_contracts ev s : inHook s = false ->
  contracts (appendEvent cfg ev s).1 = contracts s /\ inHook (appendEvent cfg ev s).1 = false /\
  (appendEvent cfg ev s).2 = Ok tt /\
  auditStore (appendEvent cfg ev s).1 = (append ev (auditStore s)).1.
Proof.
  intros Hs. unfold appendEvent. destruct (append ev (auditStore s)) as [st [u|e]]; [done|].
  set (h := match onAuditError (hooks cfg) with Some _ => _ | None => _ end).
  assert (transparent h) as Hh.
  { unfold h. destruct Hhooks as [_ H2]. destruct (onAuditError (hooks cfg)) eqn:E;
      [by eapply H2|apply mret_transparent]. }
  rewrite invokeHook_id; [|done|done]. unfold invokeHook; simpl. by rewrite Hs.
Qed.

Lemma append_events ev s n c :
  events_ok c n (list_events c s) -> n <= ev_sequence ev -> 1 <= ev_sequence ev ->
  c = ev_contractId ev -> events_ok c (ev_sequence ev + 1) (list_events c (append ev s).1).
Proof.
  intros He Hn H1 ->. destruct (append ev s) as [s' [[]|e]] eqn:Ha; simpl.
  - apply append_suffix in Ha as [k ->]. apply events_drop, events_snoc; [|done..].
    eapply events_mono; [|exact He]. done.
  - rewrite (append_failed _ _ _ _ _ Ha). eapply events_mono; [|done]. lia.
Qed.

Lemma triple_hook r (m : M unit) : transparent m -> triple (at_ r) (invokeHook m) (fun _ => at_ r).
Proof.
  intros Hm s Hs. rewrite invokeHook_id; [|done|apply Hs]. split; [apply Hs|]. by intros.
Qed.

Lemma triple_audit r payload :
  triple (at_ r) (recordAuditEvent cfg r payload)
    (fun r' s => at_ r' s /\ r' = set_auditSequence (r_auditSequence r + 1) r).
Proof.
  unfold recordAuditEvent. eapply triple_bind; [apply triple_now|]. intros t. cbv zeta.
  apply triple_rec. intros Hi. set (r' := set_auditSequence _ r).
  set (ev := {| ev_sequence := r_auditSequence r |}).
  intros s Hs. destruct (triple_save r r' (step_audit single r Hi) s Hs) as [HI1 Hat].
  specialize (Hat tt eq_refl). destruct Hs as [HI Hr]. set (s1 := (save r' s).1) in *.
  destruct (appendEvent_contracts ev s1 (inv_hook _ HI1)) as (Hc & Hh & Hok & Hst).
  assert (at_ r' (appendEvent cfg ev s1).1) as Hat'.
  { split; [|rewrite Hc; apply Hat]. split; [done| | |]; unfold contracts_ok, grows, audit_ok, next_sequence;
      rewrite ?Hc; [apply HI1| |apply HI1].
    intros id. rewrite Hst. pose proof (inv_audit _ HI id) as He. unfold next_sequence in He.
    destruct (decide (id = r_id r)) as [->|Hne].
    - rewrite Hr in He. destruct Hat as [_ Hg]. change (r_id r') with (r_id r) in Hg. rewrite Hg.
      change (r_auditSequence r') with (ev_sequence ev + 1).
      eapply append_events; [exact He|simpl; lia|apply Hi|done].
    - rewrite append_frame by done. unfold s1. simpl. by rewrite mget_mset_ne. }
  assert ((save r' ;; (appendEvent cfg ev ;; mret r')) s = ((appendEvent cfg ev s1).1, Ok r')) as ->.
  { unfold mbind, st_bind. change (save r' s) with (s1, Ok tt : result team_error unit).
    cbv beta iota. clear -Hok. destruct (appendEvent cfg ev s1) as [s2 o]. simpl in Hok. subst o. done. }
  simpl. split; [apply Hat'|]. by intros ? [= <-].
Qed.

Lemma triple_notInHook P : (forall s, P s -> Inv s) -> triple P assertNotInHook (fun _ => P).
Proof.
  intros HP s Hs. unfold assertNotInHook. simpl. split; [by apply HP|done].
Qed.

Lemma triple_getRecord_id id :
  triple Inv (getContractRecordOrThrow id)
    (fun r s => at_ r s /\ (rec_inv single r /\ normalizeIdOrThrow id = Ok (r_id r))).
Proof.
  intros s HI. unfold getContractRecordOrThrow, mbind, st_bind, st_lift, st_get.
  destruct (normalizeIdOrThrow id) as [k|] eqn:Hk; simpl; [|done].
  destruct (mget (contracts s) k) as [r|] eqn:Hr; simpl; [|done].
  split; [done|]. intros a [= <-]. destruct (inv_contracts _ HI _ _ Hr) as [Hid Hi].
  split; [|by rewrite Hid]. split; [done|]. by rewrite Hid.
Qed.

Lemma triple_getRecord id :
  triple Inv (getContractRecordOrThrow id) (fun r s => at_ r s /\ rec_inv single r).
Proof.
  intros s HI. destruct (triple_getRecord_id id s HI) as [HI' HQ]. split; [done|].
  intros r (Hat & Hi & _)%HQ. done.
Qed.

Lemma triple_status r st :
  triple (at_ r) (assertStatus r st) (fun _ s => at_ r s /\ r_status r = st).
Proof.
  intros s Hs. unfold assertStatus. case_bool_decide as Hd; simpl.
  - split; [by apply Hs|done].
  - split; [by apply Hs|]. intros _ _. split; [done|]. by destruct (r_status r), st.
Qed.

(** ** The operations *)

Ltac t_step :=
  lazymatch goal with
  | |- triple (fun s => _ s /\ _) _ _ => apply triple_pure; intros ?
  | |- triple _ (assertNotInHook ≫= _) _ => eapply triple_bind; [apply triple_notInHook; done|intros []]
  | |- triple _ (getContractRecordOrThrow _ ≫= _) _ =>
      eapply triple_bind; [apply triple_getRecord|intros ?r; cbv beta]
  | |- triple _ (assertStatus _ _ ≫= _) _ => eapply triple_bind; [apply triple_status|intros ?; cbv beta]
  | |- triple _ (now _ ≫= _) _ => eapply triple_bind; [apply triple_now|intros ?t; cbv beta zeta]
  | |- triple _ (st_lift _ ≫= _) _ =>
      eapply triple_bind; [apply triple_lift; apply at_inv|intros ?x; cbv beta zeta]
  | |- triple _ (st_throw_if _ _ ≫= _) _ =>
      eapply triple_bind; [apply triple_throw_if; apply at_inv|intros ?; cbv beta zeta]
  | |- triple _ (save _ ≫= _) _ => eapply triple_bind; [apply triple_save|intros ?; cbv beta]
  | |- triple _ (recordAuditEvent _ _ _ ≫= _) _ =>
      eapply triple_bind; [apply triple_audit|intros ?r'; cbv beta; apply triple_pure; intros ->]
  | |- triple _ (st_throw _) _ => apply triple_throw; apply at_inv
  | |- triple _ (mret _) _ => apply triple_ret; let Hs := fresh in intros ? Hs; split; [apply Hs|done]
  end.

Definition any {A} : A -> Engine St -> Prop := fun _ _ => True.

Lemma uniqueSorted_NoDup l : NoDup l -> uniqueSorted l = Ok (sort_strings l).
Proof.
  intros Hnd. unfold uniqueSorted. assert (NoDup (sort_strings l)) as Hs by (by apply sort_by_NoDup).
  assert (adjacentDuplicate (sort_strings l) = false) as ->; [|done].
  induction Hs as [|a l' Ha Hs IH]; [done|]. destruct l' as [|b l']; [done|]. simpl in *.
  rewrite IH, orb_false_r. apply String.eqb_neq. intros ->. apply Ha. constructor.
Qed.

(** Two writes of the same record with a computation that succeeds between. *)
Lemma triple_save_twice {A B} P r1 (v : B) (f : B -> TeamContractRecord) (k : B -> M A) Q :
  r_id r1 = r_id (f v) -> triple P (save (f v) ;; k v) Q ->
  triple P (save r1 ;; (x ← st_lift (Ok v); save (f x) ;; k x)) Q.
Proof.
  intros Hid Ht s Hs. specialize (Ht s Hs). revert Ht.
  unfold mbind, st_bind, st_lift, save. simpl. by rewrite Hid, mset_mset.
Qed.

Lemma find_role t rid role :
  List.find (fun c => String.eqb (role_id c) rid) (roles t) = Some role ->
  role ∈ roles t /\ role_id role = rid.
Proof. intros [Hin He]%List.find_some. split; [by apply list_elem_of_In|by apply String.eqb_eq]. Qed.

Lemma triple_assignRole m r rid :
  r_status r = draft ->
  triple (at_ r) (assignRoleInternal cfg m r rid) (fun r' s => at_ r' s /\ r_status r' = draft).
Proof.
  intros Hd. apply triple_rec. intros Hi. unfold assignRoleInternal.
  destruct (mget (r_members r) m) as [mem|] eqn:Hm; [|t_step]. do 2 t_step.
  destruct (List.find _ _) as [role|] eqn:Hf; [|t_step]. do 2 t_step.
  apply find_role in Hf as [Hrole Hrid]. subst rid.
  match goal with Ha : negb (member_active _) = false |- _ => apply negb_false_iff in Ha end.
  match goal with Ha : negb (hasCapability _ _) = false |- _ => apply negb_false_iff in Ha end.
  destruct (has _ m) eqn:Hh.
  { apply triple_ret. intros s Hs. split; [apply Hs|]. by split. }
  do 2 t_step. fold (assigned (r_roleAssignments r) (role_id role)) in *. apply has_false in Hh.
  pose proof (ri_roster _ _ Hi) as Hro. destruct (ro_member _ _ _ Hro _ _ Hm) as (_ & Hnd & _ & Hmine).
  assert (uniqueSorted (sort_strings (member_roles mem ++ [role_id role])) =
          Ok (sort_strings (sort_strings (member_roles mem ++ [role_id role])))) as Hus.
  { apply uniqueSorted_NoDup, sort_by_NoDup, NoDup_app. split_and!; [done| |apply NoDup_singleton].
    intros x Hx ->%list_elem_of_singleton. by apply Hh, Hmine. }
  rewrite Hus. set (ra := set_roleAssignments _ r).
  apply (triple_save_twice _ ra _
    (fun mr => set_members (mset m (set_member_roles mr mem) (r_members ra)) ra)
    (fun mr => recordAuditEvent cfg
      (set_members (mset m (set_member_roles mr mem) (r_members ra)) ra) _)); [done|].
  t_step.
  - subst ra. simpl. eapply (step_roster single r); [done|done| |].
    + eapply roster_assign; try done. apply (vt_role_ids _ _ (ri_valid _ _ Hi)).
    + intros k Hk. apply elem_mkeys_mset. auto.
  - intros s Hs. destruct (triple_audit _ (role_assigned m (role_id role)) s Hs) as [HI HQ].
    split; [done|]. intros r' [Hat ->]%HQ. done.
Qed.

Lemma triple_assignRoles m r rids :
  r_status r = draft -> triple (at_ r) (assignRoles cfg m r rids) (fun r' s => at_ r' s /\ r_status r' = draft).
Proof.
  revert r. induction rids as [|rid rids IH]; intros r Hd; simpl.
  { apply triple_ret. intros s Hs. split; [apply Hs|by split]. }
  eapply triple_bind; [by apply triple_assignRole|]. intros r'. cbv beta. t_step. by apply IH.
Qed.

Lemma triple_join id input : triple Inv (joinContract cfg id input) any.
Proof.
  unfold joinContract. repeat t_step.
  - match goal with Hx : mhas _ _ = false |- _ => apply mhas_false in Hx end.
    match goal with |- step_ok _ ?r (set_members ?m ?r) =>
      change (set_members m r) with (set_members m (set_roleAssignments (r_roleAssignments r) r)) end.
    apply step_roster; [done|done| |].
    + by apply roster_join; [apply (ri_roster single)|..].
    + intros k Hk. apply elem_mkeys_mset. auto.
  - eapply triple_bind; [by apply triple_assignRoles|]. intros r'. cbv beta. repeat t_step.
Qed.

Lemma triple_leave id m : triple Inv (leaveContract cfg id m) any.
Proof.
  unfold leaveContract. repeat t_step. destruct (mget _ _) as [mem|] eqn:Hm; repeat t_step.
  match goal with |- step_ok _ ?r (set_members ?m (set_roleAssignments ?a ?r)) =>
    apply (step_roster single r m a); [done|done| |] end.
  - simpl. eapply roster_leave; try done; [by apply (ri_roster single)|].
    by destruct (ro_member _ _ _ (ri_roster single _ ltac:(eassumption)) _ _ Hm).
  - intros k Hk. apply elem_mkeys_mset. auto.
Qed.

Lemma triple_assign id m rid : triple Inv (assignRole cfg id m rid) any.
Proof.
  unfold assignRole. repeat t_step. eapply triple_bind; [by apply triple_assignRole|].
  intros r'. cbv beta. repeat t_step.
Qed.

Lemma checkStaffing_staffed r :
  foldM (checkStaffing r) tt (roles (r_template r)) = Ok tt ->
  staffed (r_template r) (r_roleAssignments r).
Proof.
  intros HF. refine (foldM_inv (fun pre _ => forall role, role ∈ pre -> length_lt
    (assigned (r_roleAssignments r) (role_id role)) (default (NInt 1) (minMembers role)) = false)
    _ _ _ _ _ _ HF); [by intros ? ?%not_elem_of_nil|].
  clear. intros pre x _ [] [] _ IH HS role [Hin|Hin]%elem_of_app; [by apply IH|].
  apply list_elem_of_singleton in Hin as ->. unfold checkStaffing in HS. bind_ok. done.
Qed.

Lemma triple_start id : triple Inv (startRun cfg id) any.
Proof.
  unfold startRun. repeat t_step. unfold refresh; simpl.
  match goal with Hi : rec_inv _ ?r |- _ => destruct (refresh_spec (r_checkpoints r)) as (cps & HR & _) end.
  rewrite HR. simpl. apply step_start; [done|done| |done].
  apply checkStaffing_staffed. by match goal with Hx : foldM _ _ _ = Ok ?x |- _ => destruct x end.
Qed.

Lemma triple_cancel id reason : triple Inv (cancelContract cfg id reason) any.
Proof.
  unfold cancelContract. repeat t_step.
  destruct (r_status _) eqn:Hs; repeat t_step; apply step_cancel; auto.
Qed.

Lemma triple_canAct r m rid :
  triple (at_ r) (assertMemberCanActOnRole r m rid)
    (fun _ s => at_ r s /\ m ∈ assigned (r_roleAssignments r) rid).
Proof.
  unfold assertMemberCanActOnRole. destruct (mget _ m) as [mem|]; [|t_step]. do 2 t_step.
  intros s Hs. unfold st_throw_if. destruct (has _ m) eqn:Hh; simpl; (split; [apply Hs|]); [|done].
  intros _ _. split; [done|]. by apply has_true.
Qed.

Lemma areDependencies_complete cps ds :
  areDependenciesCompleted cps ds = dependenciesComplete cps ds.
Proof.
  unfold areDependenciesCompleted, dependenciesComplete. induction ds as [|d ds IH]; simpl; [done|].
  rewrite IH. f_equal. unfold dep_is. destruct (mget cps d) as [c|]; [|done]. by destruct (cs_status c).
Qed.

Lemma open_author assign c : open_status (cs_status c) = true \/ cs_status c = cpBlocked ->
  author_ok assign c -> completedBy c = None /\ failedBy c = None.
Proof. unfold author_ok. destruct (cs_status c); simpl; intros [?|?]; done. Qed.

(** After the guards of [completeCheckpoint]. *)
Lemma triple_complete_tail r k c m digest :
  rec_inv single r -> r_status r = active -> mget (r_checkpoints r) k = Some c ->
  open_status (cs_status c) = true ->
  triple (at_ r)
    (assertMemberCanActOnRole r m (cs_roleId c) ;;
     st_throw_if (negb (areDependenciesCompleted (r_checkpoints r) (cs_dependsOn c)))
        (TeamContractStateError "checkpoint dependencies are not fully completed") ;;
     t ← now cfg;
     let checkpoint := completedCheckpoint m t (digestOf digest) c in
     let record := refresh (set_checkpoints (mset k checkpoint (r_checkpoints r)) r) in
     save record ;;
     record ← recordAuditEvent cfg record (checkpoint_completed k (cs_roleId checkpoint) m);
     if areAllRequiredCheckpointsCompleted (r_checkpoints record) then
       t ← now cfg;
       let record := set_completedAt (Some t) (set_status completed record) in
       save record ;; mret (toSnapshot record)
     else mret (toSnapshot record)) any.
Proof.
  intros Hi Ha Hc Ho. eapply triple_bind; [apply triple_canAct|]. intros ?. cbv beta. do 4 t_step.
  match goal with Hx : negb _ = false |- _ => apply negb_false_iff in Hx; rewrite areDependencies_complete in Hx end.
  set (c' := completedCheckpoint m t (digestOf digest) c).
  destruct (refresh_spec (mset k c' (r_checkpoints r))) as (cps & HR & _).
  assert (refresh (set_checkpoints (mset k c' (r_checkpoints r)) r) = set_checkpoints cps r) as ->.
  { unfold refresh; simpl. by rewrite HR. }
  t_step.
  - apply (step_complete single r k c c' cps); try done. unfold author_ok; simpl. split; [eauto|].
    by destruct (open_author _ c (or_introl Ho) (co_author _ _ _ (ri_checkpoints _ _ Hi) _ _ Hc)).
  - t_step. destruct (areAllRequiredCheckpointsCompleted _) eqn:Hall; [|t_step].
    apply triple_rec. intros Hi'. repeat t_step. by apply step_finish.
Qed.

Lemma triple_complete id k m digest : triple Inv (completeCheckpoint cfg id k m digest) any.
Proof.
  unfold completeCheckpoint. repeat t_step. destruct (mget _ _) as [c|] eqn:Hc; [|t_step].
  destruct (cs_status c) eqn:Hs; try t_step; (apply triple_complete_tail; [done..|by rewrite Hs]).
Qed.

(** After the guards of [failCheckpoint]. *)
Lemma triple_fail_tail r k c m reason :
  rec_inv single r -> r_status r = active -> mget (r_checkpoints r) k = Some c ->
  cs_status c <> cpCompleted -> cs_status c <> cpFailed ->
  triple (at_ r)
    (assertMemberCanActOnRole r m (cs_roleId c) ;;
      failedAt ← now cfg;
      let checkpoint := failedCheckpoint m failedAt reason c in
      let record := block (set_checkpoints (mset k checkpoint (r_checkpoints r)) r) k in
      let record :=
        if cs_required checkpoint
        then set_completedAt (Some failedAt) (set_status failed record) else record in
      save record ;;
      let failure := {| rf_contractId := r_id record; rf_roleId := cs_roleId checkpoint;
                        rf_checkpointId := k; rf_memberId := m;
                        rf_reason := reason; rf_atMs := failedAt |} in
      record ← recordAuditEvent cfg record (checkpoint_failed k (cs_roleId checkpoint) m reason);
      invokeHook (match onRoleFailure (hooks cfg) with
                  | Some hook => hook failure
                  | None => mret tt
                  end) ;;
      mret (toSnapshot record)) any.
Proof.
  intros Hi Ha Hc H1 H2. eapply triple_bind; [apply triple_canAct|]. intros ?. cbv beta. do 3 t_step.
  - apply (step_fail single r k c (failedCheckpoint m t reason c)); try done.
    unfold author_ok; simpl. split; [|eauto].
    assert (open_status (cs_status c) = true \/ cs_status c = cpBlocked) as Ho
      by (destruct (cs_status c); auto).
    by destruct (open_author _ c Ho (co_author _ _ _ (ri_checkpoints _ _ Hi) _ _ Hc)).
  - cbv zeta. t_step. eapply triple_bind; [apply triple_hook|intros ?; cbv beta; t_step].
    destruct Hhooks as [Hh _]. destruct (onRoleFailure (hooks cfg)) eqn:E;
      [by eapply Hh|apply mret_transparent].
Qed.

Lemma triple_fail id k m reason : triple Inv (failCheckpoint cfg id k m reason) any.
Proof.
  unfold failCheckpoint. repeat t_step. cbv zeta. repeat t_step.
  destruct (mget _ _) as [c|] eqn:Hc; [|t_step].
  destruct (cs_status c) eqn:Hs; try t_step; (apply triple_fail_tail; [done..|congruence|congruence]).
Qed.

Lemma triple_close r :
  rec_inv single r -> r_status r <> draft -> r_status r <> cancelled -> r_finalizedPayout r = None ->
  triple (at_ r) (closeForPayout cfg r)
    (fun r' s => at_ r' s /\ (r_status r' = completed \/ r_status r' = failed) /\
                 r_finalizedPayout r' = None /\ r_id r' = r_id r).
Proof.
  intros Hi Hd Hc Hp. unfold closeForPayout. destruct (r_status r) eqn:Hs; try done.
  - repeat t_step; [apply step_finish; try done|]; [by apply negb_false_iff|].
    apply triple_ret. intros s Hat. split; [apply Hat|]. simpl. auto.
  - apply triple_ret. intros s Hat. split; [apply Hat|]. auto.
  - apply triple_ret. intros s Hat. split; [apply Hat|]. auto.
Qed.

Definition finalized (id : string) (p : TeamPayoutResult) (s : Engine St) : Prop :=
  exists r, at_ r s /\ r_finalizedPayout r = Some p /\ normalizeIdOrThrow id = Ok (r_id r).

Lemma triple_finalize id total : triple Inv (finalizePayout cfg id total) (finalized id).
Proof.
  unfold finalizePayout. t_step. eapply triple_bind; [apply triple_getRecord_id|]. intros r. cbv beta.
  apply triple_pure. intros [Hi Hid]. do 2 t_step.
  match goal with Hx : bool_decide _ = false |- _ => apply bool_decide_eq_false in Hx end.
  destruct (r_finalizedPayout _) as [p|] eqn:Hp.
  { apply triple_ret. intros s Hs. split; [apply Hs|]. by exists r. }
  do 2 t_step.
  match goal with Hx : bool_decide _ = false |- _ => apply bool_decide_eq_false in Hx end.
  eapply triple_bind; [by apply triple_close|]. intros r'. cbv beta. t_step.
  match goal with Hx : _ /\ r_finalizedPayout r' = None /\ _ |- _ => destruct Hx as (Hst & Hn & Hid') end.
  apply triple_rec. intros Hi'. do 5 t_step; [by eapply step_payout|]. t_step.
  apply triple_ret. intros s Hs. split; [apply Hs|]. eexists. split; [exact Hs|]. simpl. by rewrite Hid'.
Qed.

Definition fresh_id (id : string) (s : Engine St) : Prop := Inv s /\ mget (contracts s) id = None.

Lemma triple_fresh {A} id (k : M A) Q : triple (fresh_id id) k Q ->
  triple Inv (s ← st_get; st_throw_if (mhas (contracts s) id)
    (TeamContractStateError "contract already exists") ;; k) Q.
Proof.
  intros Ht s HI. unfold mbind, st_bind, st_get, st_throw_if. simpl.
  destruct (mhas (contracts s) id) eqn:Hh; simpl; [done|]. apply Ht. split; [done|]. by apply mhas_false.
Qed.

Lemma triple_save_fresh r : rec_inv single r -> triple (fresh_id (r_id r)) (save r) (fun _ => at_ r).
Proof.
  intros Hi s [HI Hf]. assert (at_ r (save r s).1) as Hat; [|by split; [apply Hat|]].
  apply save_inv; [done|done|..].
  - intros r0 (r1 & Hr1 & _)%(inv_grows _ HI). congruence.
  - unfold next_sequence. rewrite Hf. apply Hi.
Qed.

Lemma triple_create id creator t : triple Inv (createContract cfg id creator t) any.
Proof.
  unfold createContract. t_step.
  eapply triple_bind; [by apply triple_lift|]. intros id'. cbv beta. t_step.
  eapply triple_bind; [by apply triple_lift|]. intros creator'. cbv beta. t_step.
  apply triple_fresh.
  eapply triple_bind; [apply triple_lift; by intros ? []|]. intros t'. cbv beta. apply triple_pure. intros Hn.
  eapply triple_bind; [apply triple_lift; by intros ? []|]. intros []. cbv beta. apply triple_pure. intros Hv.
  assert (valid_template single t') as Hvalid.
  { apply validate_valid. unfold wrapValidationError in Hv. by destruct (validateTeamTemplate _ _) as [[]|]. }
  apply normalizeTeamTemplate_normal in Hn. rewrite (cloneTemplate_id t' Hn). cbv zeta.
  match goal with |- triple _ (save ?r ≫= _) _ =>
    apply (triple_bind _ _ (fun _ => at_ r)); [apply (triple_save_fresh r); by apply initial_inv|] end.
  intros ?. cbv beta.
  repeat t_step.
Qed.
End Safety.

(** ** Commands and reachable states *)

Inductive command :=
| CreateContract (contractId creatorId : string) (template : TeamTemplate)
| JoinContract (contractId : string) (member : TeamMemberInput)
| LeaveContract (contractId memberId : string)
| AssignRole (contractId memberId roleId : string)
| StartRun (contractId : string)
| CancelContract (contractId : string) (reason : option string)
| CompleteCheckpoint (contractId checkpointId memberId : string) (outputDigest : option string)
| FailCheckpoint (contractId checkpointId memberId reason : string)
| FinalizePayout (contractId : string) (totalReward : Z).

Definition forget {S E A} (m : ST S E A) : ST S E unit := m ;; mret tt.

Section Reach.
Context `{Collation} {St : Type} `{!TeamAuditStore St} `{!TeamAuditStoreLaws St}
  (cfg : EngineConfig St).

(** The call of a public method, its result dropped. *)
Definition exec (c : command) : ST (Engine St) team_error unit :=
  match c with
  | CreateContract id creator t => forget (createContract cfg id creator t)
  | JoinContract id m => forget (joinContract cfg id m)
  | LeaveContract id m => forget (leaveContract cfg id m)
  | AssignRole id m r => forget (assignRole cfg id m r)
  | StartRun id => forget (startRun cfg id)
  | CancelContract id reason => forget (cancelContract cfg id reason)
  | CompleteCheckpoint id k m d => forget (completeCheckpoint cfg id k m d)
  | FailCheckpoint id k m reason => forget (failCheckpoint cfg id k m reason)
  | FinalizePayout id total => forget (finalizePayout cfg id total)
  end.

Definition initial (store : St) : Engine St := Build_Engine [] false store 0.

(** The states of an engine after any calls, successful or not. *)
Inductive reachable : Engine St -> Prop :=
| reach_init store : (forall id, list_events id store = []) -> reachable (initial store)
| reach_step c s : reachable s -> reachable (exec c s).1.

Lemma forget_fst {A} (m : ST (Engine St) team_error A) s : (forget m s).1 = (m s).1.
Proof. unfold forget, mbind, st_bind. by destruct (m s) as [s' [a|e]]. Qed.

Lemma exec_inv s0 c s : hooks_ok cfg -> Inv cfg s0 s -> Inv cfg s0 (exec c s).1.
Proof.
  intros Hh HI. destruct c; simpl; rewrite forget_fst.
  - by apply triple_create.
  - by apply triple_join.
  - by apply triple_leave.
  - by apply triple_assign.
  - by apply triple_start.
  - by apply triple_cancel.
  - by apply triple_complete.
  - by apply triple_fail.
  - by apply triple_finalize.
Qed.

Lemma reachable_inv s : hooks_ok cfg -> reachable s -> Inv cfg s s.
Proof.
  intros Hh. induction 1 as [store Hempty|c s _ IH].
  - split; [done|by intros id r| |by intros id r]. intros id. simpl. rewrite Hempty. by repeat constructor.
  - pose proof (exec_inv s c s Hh IH) as [H1 H2 H3 H4]. split; [done|done|done|]. intros id r Hr. by exists r.
Qed.
End Reach.
