(* ===== verification/TeamEngineSpec.v ===== *)
(** * Team contracts: the theorems about the engine

    What holds of every contract in every state an engine can reach, how a
    call may change a contract, progress, idempotence of the payout, the
    re-entrancy guard and the audit trail. *)
From S2P Require Import Prelude JsMap JsString Capabilities TeamTypes TeamPayout TeamPayoutStages TeamPayoutSpec TeamValidation TeamValidationSpec TeamCheckpoints TeamCheckpointsSpec TeamAudit TeamEngine TeamEngineInv TeamEngineSafety.
#[local] Open Scope Z_scope.

Section Spec.
Context `{Collation} {St : Type} `{!TeamAuditStore St} `{!TeamAuditStoreLaws St}
  (cfg : EngineConfig St).
Notation M := (ST (Engine St) team_error).

(** ** Hooks *)

(** What a hook can be made of: calls of the engine's own methods with their
    outcome ignored or propagated, reads, and errors. *)
Inductive hook_program : M unit -> Prop :=
| hp_ret : hook_program (mret tt)
| hp_throw e : hook_program (st_throw e)
| hp_call c : hook_program (exec cfg c)
| hp_read id (k : option TeamContractSnapshot -> M unit) :
    (forall x, hook_program (k x)) -> hook_program (getContract id ≫= k)
| hp_events id (k : list TeamAuditEvent -> M unit) :
    (forall x, hook_program (k x)) -> hook_program (listAuditEvents id ≫= k)
| hp_seq m1 m2 : hook_program m1 -> hook_program m2 -> hook_program (m1 ;; m2)
| hp_try m1 m2 : hook_program m1 -> hook_program m2 -> hook_program (fun s => m2 (m1 s).1).

Lemma exec_in_hook c s : inHook s = true ->
  exec cfg c s =
  (s, Err (TeamContractStateError "re-entrant engine mutation from hook is not allowed")).
Proof.
  intros Hs. destruct c; unfold exec, forget, createContract, joinContract, leaveContract, assignRole,
    startRun, cancelContract, completeCheckpoint, failCheckpoint, finalizePayout, mbind, st_bind,
    assertNotInHook; by rewrite Hs.
Qed.

(** Every public mutation called while a hook runs throws and changes nothing. *)
Theorem reentrant_call_rejected (c : command) (s : Engine St) :
  inHook s = true ->
  exec cfg c s =
  (s, Err (TeamContractStateError "re-entrant engine mutation from hook is not allowed")).
Proof. apply exec_in_hook. Qed.

(** Whatever a hook does through the engine's methods, it leaves the engine as
    it found it. *)
Theorem hook_program_transparent (m : M unit) (s : Engine St) :
  hook_program m -> inHook s = true -> (m s).1 = s.
Proof.
  intros Hm Hs. induction Hm as [|e|c|id k _ IH|id k _ IH|m1 m2 _ IH1 _ IH2|m1 m2 _ IH1 _ IH2].
  - done.
  - done.
  - by rewrite exec_in_hook.
  - unfold getContract, mbind, st_bind, st_lift, st_get. destruct (normalizeIdOrThrow id); simpl; [apply IH|done].
  - unfold listAuditEvents, mbind, st_bind, st_lift, st_get.
    destruct (normalizeIdOrThrow id); simpl; [apply IH|done].
  - unfold mbind, st_bind. destruct (m1 s) as [s' [u|e]]; simpl in *; subst s'; done.
  - by rewrite IH1.
Qed.

(** ** Invariants *)

Lemma reachable_record s id r :
  hooks_ok cfg -> reachable cfg s -> mget (contracts s) id = Some r ->
  r_id r = id /\ rec_inv (requireSingleParentTopology cfg) r.
Proof. intros Hh Hr Hg. exact (inv_contracts _ _ _ (reachable_inv cfg s Hh Hr) id r Hg). Qed.

Lemma role_of_assigned (sp : bool) r rid m : rec_inv sp r -> m ∈ assigned (r_roleAssignments r) rid ->
  exists role mem, role ∈ roles (r_template r) /\ role_id role = rid /\
    mget (r_members r) m = Some mem /\ member_active mem = true /\
    hasCapability (member_capabilities mem) (requiredCapabilities role) = true /\
    rid ∈ member_roles mem.
Proof.
  intros Hi Hm. pose proof (ri_roster _ _ Hi) as Hro. apply assigned_key in Hm as Hk.
  rewrite (ro_keys _ _ _ Hro) in Hk. apply list_elem_of_fmap in Hk as (role & -> & Hrole).
  destruct (ro_role _ _ _ Hro role Hrole) as (_ & _ & H3). apply H3 in Hm as (mem & ? & ? & ? & ?).
  by exists role, mem.
Qed.

(** C3. In every reachable state a completed checkpoint has all its dependencies
    completed and was completed by an active member of the checkpoint's role
    who has the capabilities the role requires. *)
Theorem completed_checkpoint_justified (s : Engine St) id r k c :
  hooks_ok cfg -> reachable cfg s -> mget (contracts s) id = Some r ->
  mget (r_checkpoints r) k = Some c -> cs_status c = cpCompleted ->
  (forall d, d ∈ cs_dependsOn c -> exists cd,
     mget (r_checkpoints r) d = Some cd /\ cs_status cd = cpCompleted) /\
  exists m mem role, completedBy c = Some m /\ mget (r_members r) m = Some mem /\
    member_active mem = true /\ role ∈ roles (r_template r) /\ role_id role = cs_roleId c /\
    hasCapability (member_capabilities mem) (requiredCapabilities role) = true.
Proof.
  intros Hh Hr Hg Hc Hs. destruct (reachable_record s id r Hh Hr Hg) as [_ Hi].
  destruct (ri_checkpoints _ _ Hi) as [_ Hset Hau]. split.
  - specialize (Hset k c Hc). rewrite Hs, complete_true in Hset. intros d Hd. specialize (Hset d Hd).
    unfold dep_is in Hset. destruct (mget (r_checkpoints r) d) as [cd|]; [|done].
    exists cd. split; [done|]. by apply bool_decide_eq_true in Hset.
  - specialize (Hau k c Hc). unfold author_ok in Hau. rewrite Hs in Hau.
    destruct Hau as [(m & Hby & Hin) _].
    destruct (role_of_assigned _ _ _ _ Hi Hin) as (role & mem & ? & ? & ? & ? & ? & _).
    by exists m, mem, role.
Qed.

(** C7. In every reachable state the roster is consistent: a role has at most its
    maximum of distinct members, each of them active, capable and listing the
    role; and a member is assigned to every role it lists. *)
Theorem roster_consistent (s : Engine St) id r :
  hooks_ok cfg -> reachable cfg s -> mget (contracts s) id = Some r ->
  (forall role, role ∈ roles (r_template r) -> role_ok (r_members r) (r_roleAssignments r) role) /\
  (forall m mem, mget (r_members r) m = Some mem -> member_ok (r_roleAssignments r) m mem).
Proof.
  intros Hh Hr Hg. destruct (reachable_record s id r Hh Hr Hg) as [_ Hi].
  by destruct (ri_roster _ _ Hi).
Qed.

(** In every reachable state the status of a contract is truthful: completed
    means every required checkpoint is completed, failed means a required
    checkpoint failed, active means none did, draft means no checkpoint is
    closed; a contract past the draft, unless cancelled, has its minimum staff;
    and every checkpoint status is the one the dependencies call for. *)
Theorem status_truthful (s : Engine St) id r :
  hooks_ok cfg -> reachable cfg s -> mget (contracts s) id = Some r ->
  status_ok r /\ settled (r_checkpoints r).
Proof.
  intros Hh Hr Hg. destruct (reachable_record s id r Hh Hr Hg) as [_ Hi].
  split; [apply Hi|apply (co_settled _ _ _ (ri_checkpoints _ _ Hi))].
Qed.

(** Any call from a reachable state, whether it returns or throws, only
    extends the history of every contract ([rec_le]): no contract disappears or
    changes its template, statuses move along draft, active, then one of
    completed, failed and cancelled, and stay there; a closed checkpoint is
    never rewritten; the roster is frozen once the run starts; a finalised
    payout never changes. *)
Theorem calls_extend_history (s : Engine St) (c : command) :
  hooks_ok cfg -> reachable cfg s -> grows s (exec cfg c s).1.
Proof. intros Hh Hr. apply (exec_inv cfg s c s Hh (reachable_inv cfg s Hh Hr)). Qed.

(** C2. In every reachable state a finalised payout belongs to a completed or
    failed contract, is the one [computeTeamPayout] gives for the contract's
    present checkpoints and roster, and hands out exactly the total reward:
    member payouts and the unallocated rest are non-negative and add up to it. *)
Theorem finalized_payout_exact (s : Engine St) id r p :
  hooks_ok cfg -> reachable cfg s -> mget (contracts s) id = Some r ->
  r_finalizedPayout r = Some p ->
  (r_status r = completed \/ r_status r = failed) /\
  computeTeamPayout {|
      in_totalRewardLamports := totalRewardLamports p; in_template := r_template r;
      in_checkpoints := checkpointRecord r; in_roleAssignments := roleAssignmentRecord r |} = Ok p /\
  msum (memberPayouts p) + unallocatedLamports p = totalRewardLamports p /\
  mnonneg (memberPayouts p) /\ 0 <= unallocatedLamports p.
Proof.
  intros Hh Hr Hg Hp. destruct (reachable_record s id r Hh Hr Hg) as [_ Hi].
  destruct (ri_payout _ _ Hi p Hp) as [Hst HC]. split; [done|]. split; [done|].
  apply payout_stages in HC as (_ & _ & _ & ? & ? & _ & ? & _); [done|].
  exact (vt_role_ids _ _ (ri_valid _ _ Hi)).
Qed.

(** The audit trail of a contract, read from any store that keeps the
    interface's laws, carries strictly increasing sequence numbers below the
    contract's next one; the re-entrancy flag is always reset. *)
Theorem audit_trail_ordered (s : Engine St) id :
  hooks_ok cfg -> reachable cfg s ->
  inHook s = false /\ events_ok id (next_sequence s id) (list_events id (auditStore s)).
Proof. intros Hh Hr. pose proof (reachable_inv cfg s Hh Hr) as [H1 _ H2 _]. split; [done|apply H2]. Qed.

(** ** Progress *)

Lemma static_template t assign cps k c :
  checkpoints_ok t assign cps -> mget cps k = Some c ->
  exists cp, cp ∈ checkpoints t /\ cp_id cp = k /\ static c = static (initialCheckpoint cp).
Proof.
  intros [Hst _ _] Hc. assert (mget (mmap static cps) k = Some (static c)) as Hg by (by rewrite mget_mmap, Hc).
  rewrite Hst in Hg. apply mget_Some_elem, list_elem_of_fmap in Hg as (cp & Heq & Hin).
  exists cp. split; [done|]. split; [by apply (f_equal fst) in Heq|by apply (f_equal snd) in Heq].
Qed.

Lemma depends_edge t assign cps d k :
  checkpoints_ok t assign cps -> depends cps d k -> dependency_edge (checkpoints t) d k.
Proof.
  intros Hc Hd. unfold depends, dependsb in Hd. destruct (mget cps k) as [c|] eqn:Hg; [|done].
  destruct (static_template _ _ _ _ _ Hc Hg) as (cp & Hin & Hk & Hs). exists cp.
  split_and!; [done|done|]. apply has_true in Hd. unfold static in Hs. simpl in Hs.
  assert (cs_dependsOn c = default [] (cp_dependsOn cp)) as Heq by congruence. by rewrite Heq in Hd.
Qed.

Lemma known_dependency sp r k c d :
  rec_inv sp r -> mget (r_checkpoints r) k = Some c -> d ∈ cs_dependsOn c ->
  is_Some (mget (r_checkpoints r) d).
Proof.
  intros Hi Hc Hd. apply mget_is_Some_keys. rewrite (co_keys _ _ _ (ri_checkpoints _ _ Hi)).
  destruct (static_template _ _ _ _ _ (ri_checkpoints _ _ Hi) Hc) as (cp & Hin & _ & Hs).
  pose proof (vt_cps _ _ (ri_valid _ _ Hi)) as Hv. rewrite Forall_forall in Hv.
  assert (cs_dependsOn c = default [] (cp_dependsOn cp)) as Heq by (unfold static in Hs; simpl in Hs; congruence).
  rewrite Heq in Hd. by apply (Hv cp Hin).
Qed.

Lemma depends_wf sp r k : rec_inv sp r -> sn (fun x y => depends (r_checkpoints r) y x) k.
Proof.
  intros Hi. apply tc_finite_sn.
  - intros x Hx. eapply (vt_acyclic _ _ (ri_valid _ _ Hi) x).
    assert (forall a b, tc (fun x y => depends (r_checkpoints r) y x) a b ->
      tc (dependency_edge (checkpoints (r_template r))) b a) as Hflip; [|by apply Hflip].
    intros a b Hab. induction Hab as [a b Hab|a b c Hab _ IH].
    + apply tc_once. by eapply depends_edge; [apply Hi|].
    + eapply tc_r; [exact IH|]. by eapply depends_edge; [apply Hi|].
  - exists (mkeys (r_checkpoints r)). intros y Hy.
    assert (exists x, depends (r_checkpoints r) y x) as [x Hx].
    { apply tc_nsteps in Hy as (n & Hn & Hs). destruct n as [|n]; [lia|].
      apply nsteps_inv_r in Hs as (x & _ & Hx). eauto. }
    clear Hy. unfold depends, dependsb in Hx. destruct (mget (r_checkpoints r) x) as [c|] eqn:Hc; [|done].
    apply mget_is_Some_keys. by eapply known_dependency, has_true.
Qed.

(** While a checkpoint is still open, some checkpoint is ready. *)
Lemma some_ready sp r k c :
  rec_inv sp r -> mget (r_checkpoints r) k = Some c -> open_status (cs_status c) = true ->
  exists k' c', mget (r_checkpoints r) k' = Some c' /\ cs_status c' = cpReady.
Proof.
  intros Hi Hc Ho. revert c Hc Ho. induction (depends_wf sp r k Hi) as [k _ IH]. intros c Hc Ho.
  pose proof (co_settled _ _ _ (ri_checkpoints _ _ Hi) k c Hc) as Hs.
  destruct (cs_status c) eqn:Est; try done; [|by exists k, c]. destruct Hs as [Hd Hf].
  assert (exists d, d ∈ cs_dependsOn c /\ dep_is (r_checkpoints r) cpCompleted d = false) as (d & Hin & Hnd).
  { unfold dependenciesComplete in Hd. clear -Hd. induction (cs_dependsOn c) as [|d ds IHd]; [done|].
    simpl in Hd. destruct (dep_is (r_checkpoints r) cpCompleted d) eqn:E.
    - destruct (IHd Hd) as (d' & ? & ?). exists d'. split; [by constructor|done].
    - exists d. split; [constructor|done]. }
  destruct (known_dependency _ _ _ _ _ Hi Hc Hin) as [cd Hcd].
  assert (depends (r_checkpoints r) d k) as Hdk.
  { unfold depends, dependsb. rewrite Hc. by apply has_true. }
  apply (IH d Hdk cd Hcd). unfold hasFailedDependency in Hf. rewrite existsb_false, Forall_forall in Hf.
  specialize (Hf d Hin). unfold dep_is in *. rewrite Hcd in *. by destruct (cs_status cd).
Qed.

(** A call of [recordAuditEvent] always returns. *)
Lemma audit_run r payload s : hooks_ok cfg -> inHook s = false ->
  exists s', recordAuditEvent cfg r payload s = (s', Ok (set_auditSequence (r_auditSequence r + 1) r)) /\
    contracts s' = mset (r_id r) (set_auditSequence (r_auditSequence r + 1) r) (contracts s) /\
    inHook s' = false.
Proof.
  intros Hh Hs. unfold recordAuditEvent, mbind, st_bind, now, save. simpl.
  match goal with |- context [appendEvent cfg ?ev ?s1] =>
    destruct (appendEvent_contracts cfg Hh ev s1 Hs) as (Hc & Hi & Ho & _);
    destruct (appendEvent cfg ev s1) as [s2 o] end.
  simpl in *. subst o. eauto.
Qed.

(** ** Running an operation whose guards hold *)

Lemma bind_run {A B} (m : M A) (k : A -> M B) s s' a : m s = (s', Ok a) -> (m ≫= k) s = k a s'.
Proof. intros Hm. unfold mbind, st_bind. by rewrite Hm. Qed.

Lemma bind_fail {A B} (m : M A) (k : A -> M B) s s' e : m s = (s', Err e) -> (m ≫= k) s = (s', Err e).
Proof. intros Hm. unfold mbind, st_bind. by rewrite Hm. Qed.

Lemma run_notInHook (s : Engine St) : inHook s = false -> assertNotInHook s = (s, Ok tt).
Proof. intros Hs. unfold assertNotInHook. by rewrite Hs. Qed.

Lemma run_getRecord raw id r (s : Engine St) : normalizeIdOrThrow raw = Ok id -> mget (contracts s) id = Some r ->
  getContractRecordOrThrow raw s = (s, Ok r).
Proof.
  intros Hn Hr. unfold getContractRecordOrThrow, mbind, st_bind, st_lift, st_get. rewrite Hn. simpl.
  by rewrite Hr.
Qed.

Lemma run_status r st (s : Engine St) : r_status r = st -> assertStatus r st s = (s, Ok tt).
Proof. intros Hs. unfold assertStatus. rewrite bool_decide_false; [done|]. by intros ?. Qed.

Lemma run_lift {A} (m : R A) a (s : Engine St) : m = Ok a -> (st_lift m : M A) s = (s, Ok a).
Proof. by intros ->. Qed.

Lemma run_throw_if c e (s : Engine St) : c = false -> (st_throw_if c e : M unit) s = (s, Ok tt).
Proof. by intros ->. Qed.

Lemma run_canAct r m rid mem (s : Engine St) : mget (r_members r) m = Some mem -> member_active mem = true ->
  m ∈ assigned (r_roleAssignments r) rid -> assertMemberCanActOnRole r m rid s = (s, Ok tt).
Proof.
  intros Hm Ha Hin. unfold assertMemberCanActOnRole. rewrite Hm, Ha.
  rewrite (bind_run _ _ _ _ tt) by done. apply run_throw_if. apply negb_false_iff, has_true, Hin.
Qed.

(** [completeCheckpoint] on an open checkpoint whose dependencies are
    completed, called for a member of its role. *)
Lemma complete_run cid id r kraw k c mraw m digest s :
  hooks_ok cfg -> reachable cfg s -> normalizeIdOrThrow cid = Ok id ->
  mget (contracts s) id = Some r -> r_status r = active ->
  normalizeIdOrThrow kraw = Ok k -> mget (r_checkpoints r) k = Some c ->
  open_status (cs_status c) = true -> dependenciesComplete (r_checkpoints r) (cs_dependsOn c) = true ->
  normalizeIdOrThrow mraw = Ok m -> m ∈ assigned (r_roleAssignments r) (cs_roleId c) ->
  exists s' snap r' c', completeCheckpoint cfg cid kraw mraw digest s = (s', Ok snap) /\
    mget (contracts s') id = Some r' /\ mget (r_checkpoints r') k = Some c' /\
    cs_status c' = cpCompleted /\ completedBy c' = Some m /\
    r_status r' = (if areAllRequiredCheckpointsCompleted (r_checkpoints r') then completed else active).
Proof.
  intros Hh Hre Hcid Hr Ha Hk Hc Ho Hd Hm Hin. destruct (reachable_record s id r Hh Hre Hr) as [Hid Hi].
  pose proof (inv_hook _ _ _ (reachable_inv cfg s Hh Hre)) as Hhk.
  destruct (role_of_assigned _ _ _ _ Hi Hin) as (role & mem & _ & _ & Hmem & Hact & _).
  unfold completeCheckpoint.
  rewrite (bind_run _ _ _ _ _ (run_notInHook s Hhk)), (bind_run _ _ _ _ _ (run_getRecord _ _ _ _ Hcid Hr)),
    (bind_run _ _ _ _ _ (run_status r active s Ha)), (bind_run _ _ _ _ _ (run_lift _ _ s Hk)),
    (bind_run _ _ _ _ _ (run_lift _ _ s Hm)), Hc.
  set (t0 := clock cfg (tick s)). set (c1 := completedCheckpoint m t0 (digestOf digest) c).
  destruct (refresh_spec (mset k c1 (r_checkpoints r))) as (cps & HR & He & _).
  assert (mget cps k = Some c1) as Hck.
  { apply (evolves_closed _ _ He); [by rewrite mget_mset_eq|by left]. }
  assert (refresh (set_checkpoints (mset k c1 (r_checkpoints r)) r) = set_checkpoints cps r) as Href.
  { unfold refresh; simpl. by rewrite HR. }
  assert (forall X (a b d : X), match cs_status c with
    | cpPending | cpReady => a | cpCompleted => b | cpFailed | cpBlocked => d end = a) as Hopen
    by (by destruct (cs_status c)).
  rewrite Hopen, (bind_run _ _ _ _ _ (run_canAct r m (cs_roleId c) mem s Hmem Hact Hin)),
    (bind_run _ _ _ _ _ (run_throw_if _ _ s (proj2 (negb_false_iff _)
       (eq_trans (areDependencies_complete _ _) Hd)))).
  rewrite (bind_run _ _ s (now cfg s).1 t0 eq_refl). cbv zeta. fold c1. rewrite Href.
  rewrite (bind_run _ _ _ _ tt eq_refl).
  match goal with |- context [recordAuditEvent cfg ?r1 ?p ≫= ?kk] =>
    match goal with |- context [(recordAuditEvent cfg r1 p ≫= kk) ?s1] =>
      destruct (audit_run r1 p s1 Hh Hhk) as (s2 & Hrun & Hcon & _);
      rewrite (bind_run _ kk _ _ _ Hrun) end end.
  cbv beta. simpl in Hcon. rewrite mset_mset in Hcon.
  destruct (areAllRequiredCheckpointsCompleted _) eqn:Hall.
  - rewrite (bind_run _ _ s2 (now cfg s2).1 _ eq_refl). cbv zeta.
    rewrite (bind_run _ _ _ _ tt eq_refl). do 2 eexists. eexists. exists c1.
    split; [reflexivity|]. simpl. rewrite <-Hid, mget_mset_eq. split; [reflexivity|]. simpl.
    simpl in Hall. by rewrite Hall.
  - do 2 eexists. eexists. exists c1. split; [reflexivity|]. rewrite Hcon, <-Hid, mget_mset_eq.
    split; [reflexivity|]. simpl in *. by rewrite Hall.
Qed.

(** C40. An active contract does not get stuck: while one of its checkpoints is
    still open, some checkpoint is ready, and any member of its role can
    complete it: the call returns, records the member, and moves the contract
    to completed exactly when every required checkpoint then is. *)
Theorem active_contract_progress (s : Engine St) cid id r k0 c0 :
  hooks_ok cfg -> reachable cfg s -> normalizeIdOrThrow cid = Ok id ->
  mget (contracts s) id = Some r -> r_status r = active ->
  mget (r_checkpoints r) k0 = Some c0 -> open_status (cs_status c0) = true ->
  exists k c, mget (r_checkpoints r) k = Some c /\ cs_status c = cpReady /\
    forall mraw m digest, normalizeIdOrThrow mraw = Ok m ->
      m ∈ assigned (r_roleAssignments r) (cs_roleId c) ->
      exists s' snap r' c', completeCheckpoint cfg cid k mraw digest s = (s', Ok snap) /\
        mget (contracts s') id = Some r' /\ mget (r_checkpoints r') k = Some c' /\
        cs_status c' = cpCompleted /\ completedBy c' = Some m /\
        r_status r' =
          (if areAllRequiredCheckpointsCompleted (r_checkpoints r') then completed else active).
Proof.
  intros Hh Hre Hcid Hr Ha Hc0 Ho. destruct (reachable_record s id r Hh Hre Hr) as [_ Hi].
  destruct (some_ready _ r k0 c0 Hi Hc0 Ho) as (k & c & Hc & Hst). exists k, c.
  split_and!; [done|done|]. intros mraw m digest Hm Hin. eapply (complete_run cid id r k k c); try done.
  - destruct (static_template _ _ _ _ _ (ri_checkpoints _ _ Hi) Hc) as (cp & Hcp & <- & _).
    destruct (nt_checkpoints _ (ri_normal _ _ Hi)) as [Hn _]. rewrite Forall_forall in Hn.
    destruct (Hn cp Hcp) as [Hv _]. by apply normalizeId_fixpoint.
  - by rewrite Hst.
  - pose proof (co_settled _ _ _ (ri_checkpoints _ _ Hi) k c Hc) as Hs. rewrite Hst in Hs. by destruct Hs.
Qed.

(** Finalising is idempotent: after a call of [finalizePayout] that returned,
    every further call for the contract, with any reward, returns the same
    payout and changes nothing. *)
Theorem finalizePayout_idempotent (s s' : Engine St) cid total total' p :
  hooks_ok cfg -> reachable cfg s -> finalizePayout cfg cid total s = (s', Ok p) ->
  finalizePayout cfg cid total' s' = (s', Ok p).
Proof.
  intros Hh Hre HF. pose proof (reachable_inv cfg s Hh Hre) as HI.
  destruct (triple_finalize cfg s Hh cid total s HI) as [HI' HQ]. rewrite HF in HI', HQ. simpl in *.
  destruct (HQ p eq_refl) as (r & [_ Hr] & Hp & Hid).
  destruct (inv_contracts _ _ _ HI' _ _ Hr) as [_ Hi]. destruct (ri_payout _ _ Hi p Hp) as [Hst _].
  unfold finalizePayout. rewrite (bind_run _ _ _ _ _ (run_notInHook s' (inv_hook _ _ _ HI'))),
    (bind_run _ _ _ _ _ (run_getRecord _ _ _ _ Hid Hr)).
  rewrite (bind_run _ _ s' s' tt); [by rewrite Hp|]. apply run_throw_if. by destruct Hst as [-> | ->].
Qed.
End Spec.

(** ** Witnesses *)

Section Witness.
Abbreviation Store := InMemoryTeamAuditStore.t.

Definition ex_base : EngineConfig Store :=
  {| clock := Z.of_nat; hooks := {| onRoleFailure := None; onAuditError := None |};
     requireSingleParentTopology := true |}.

(** A hook that tries to cancel the contract it is told about. *)
Definition ex_cfg : EngineConfig Store :=
  {| clock := Z.of_nat;
     hooks := {| onRoleFailure := Some (fun f => exec ex_base (CancelContract (rf_contractId f) None));
                 onAuditError := None |};
     requireSingleParentTopology := true |}.

Lemma ex_hooks_ok : hooks_ok ex_cfg.
Proof.
  split; [|done]. intros h f [= <-] s Hs. exact (f_equal fst (exec_in_hook ex_base (CancelContract (rf_contractId f) None) s Hs)).
Qed.

Definition ex_run (cs : list command) : Engine Store :=
  foldl (fun s c => (exec ex_cfg c s).1) (initial (InMemoryTeamAuditStore.constructor (Some 3%nat))) cs.

Lemma ex_run_reachable cs : reachable ex_cfg (ex_run cs).
Proof.
  unfold ex_run. cut (forall s, reachable ex_cfg s ->
    reachable ex_cfg (foldl (fun s c => (exec ex_cfg c s).1) s cs)).
  { intros Hc. apply Hc. by apply reach_init. }
  induction cs as [|c cs IH]; intros s Hs; simpl; [done|]. apply IH. by constructor.
Qed.

Definition ex_staff : list command :=
  [CreateContract "Job" "alice" ex_raw_template;
   JoinContract "job" {| mi_id := "Dev-1"; mi_capabilities := 1; mi_roles := Some ["dev"%string]; mi_metadata := None |};
   JoinContract "job" {| mi_id := "qa-1"; mi_capabilities := 2; mi_roles := Some ["qa"%string]; mi_metadata := None |};
   StartRun "job"].

Definition ex_built : list command :=
  ex_staff ++ [CompleteCheckpoint "job" "build" "dev-1" (Some "sha")%string].

Definition ex_done : list command :=
  ex_built ++ [CompleteCheckpoint "job" "test" "qa-1" None; FinalizePayout "job" 1000].

Definition ex_failed : list command :=
  ex_built ++ [FailCheckpoint "job" "test" "qa-1" "red"].

Definition record_of (s : Engine Store) : TeamContractRecord :=
  default (Build_TeamContractRecord "" "" ex_raw_template draft [] [] [] None None None None 1)
    (mget (contracts s) "job").
Definition checkpoint_of (r : TeamContractRecord) (k : string) : TeamCheckpointState :=
  default (initialCheckpoint (Build_TeamCheckpointTemplate "" "" "" None None)) (mget (r_checkpoints r) k).

Lemma reentrant_call_rejected_witness :
  let s := Build_Engine (contracts (ex_run ex_staff)) true (auditStore (ex_run ex_staff)) 9 in
  exec ex_cfg (StartRun "job") s =
  (s, Err (TeamContractStateError "re-entrant engine mutation from hook is not allowed")).
Proof. intros s. apply (reentrant_call_rejected ex_cfg (StartRun "job") s). reflexivity. Defined.

Lemma hook_program_transparent_witness :
  let s := Build_Engine (contracts (ex_run ex_staff)) true (auditStore (ex_run ex_staff)) 9 in
  ((exec ex_cfg (CancelContract "job" None) ;; exec ex_cfg (StartRun "job")) s).1 = s.
Proof.
  intros s. apply (hook_program_transparent ex_cfg); [|reflexivity]. apply hp_seq; apply hp_call.
Defined.

Lemma completed_checkpoint_justified_witness :
  completedBy (checkpoint_of (record_of (ex_run ex_done)) "test") = Some "qa-1"%string /\
  forall d, d ∈ ["build"%string] -> exists cd,
    mget (r_checkpoints (record_of (ex_run ex_done))) d = Some cd /\ cs_status cd = cpCompleted.
Proof.
  split; [vm_compute; reflexivity|].
  apply (completed_checkpoint_justified ex_cfg (ex_run ex_done) "job" (record_of (ex_run ex_done)) "test"
    (checkpoint_of (record_of (ex_run ex_done)) "test") ex_hooks_ok (ex_run_reachable ex_done));
    vm_compute; reflexivity.
Defined.

Lemma roster_consistent_witness :
  r_status (record_of (ex_run ex_done)) = completed /\
  forall m mem, mget (r_members (record_of (ex_run ex_done))) m = Some mem ->
    member_ok (r_roleAssignments (record_of (ex_run ex_done))) m mem.
Proof.
  split; [vm_compute; reflexivity|].
  apply (roster_consistent ex_cfg (ex_run ex_done) "job" (record_of (ex_run ex_done)) ex_hooks_ok
    (ex_run_reachable ex_done)). vm_compute. reflexivity.
Defined.

Lemma status_truthful_witness :
  r_status (record_of (ex_run ex_failed)) = failed /\ settled (r_checkpoints (record_of (ex_run ex_failed))).
Proof.
  split; [vm_compute; reflexivity|].
  apply (status_truthful ex_cfg (ex_run ex_failed) "job" (record_of (ex_run ex_failed)) ex_hooks_ok
    (ex_run_reachable ex_failed)). vm_compute. reflexivity.
Defined.

Lemma calls_extend_history_witness :
  grows (ex_run ex_staff) (exec ex_cfg (FailCheckpoint "job" "build" "dev-1" "broken") (ex_run ex_staff)).1.
Proof. apply (calls_extend_history ex_cfg); [apply ex_hooks_ok|apply ex_run_reachable]. Defined.

Lemma finalized_payout_exact_witness : exists p,
  r_finalizedPayout (record_of (ex_run ex_done)) = Some p /\
  msum (memberPayouts p) + unallocatedLamports p = 1000.
Proof.
  destruct (r_finalizedPayout (record_of (ex_run ex_done))) as [p|] eqn:E; [|vm_compute in E; discriminate].
  exists p. split; [reflexivity|].
  assert (totalRewardLamports p = 1000) as Ht by (vm_compute in E; injection E as <-; reflexivity).
  rewrite <-Ht.
  apply (finalized_payout_exact ex_cfg (ex_run ex_done) "job" (record_of (ex_run ex_done)) p ex_hooks_ok
    (ex_run_reachable ex_done)); [vm_compute; reflexivity|exact E].
Defined.

Lemma audit_trail_ordered_witness :
  events_ok "job" (next_sequence (ex_run ex_done) "job")
    (list_events "job" (auditStore (ex_run ex_done))).
Proof. apply (audit_trail_ordered ex_cfg); [apply ex_hooks_ok|apply ex_run_reachable]. Defined.

Lemma active_contract_progress_witness : exists k c,
  mget (r_checkpoints (record_of (ex_run ex_built))) k = Some c /\ cs_status c = cpReady.
Proof.
  destruct (active_contract_progress ex_cfg (ex_run ex_built) "job" "job" (record_of (ex_run ex_built)) "test"
    (checkpoint_of (record_of (ex_run ex_built)) "test") ex_hooks_ok (ex_run_reachable ex_built))
    as (k & c & Hk & Hc & _); try (vm_compute; reflexivity).
  exists k, c. split; [exact Hk|exact Hc].
Defined.

Lemma finalizePayout_idempotent_witness : exists p,
  finalizePayout ex_cfg "job" 7 (ex_run ex_done) = (ex_run ex_done, Ok p).
Proof.
  destruct (finalizePayout ex_cfg "job" 5 (ex_run ex_done)) as [s' [p|e]] eqn:E;
    [|vm_compute in E; discriminate].
  assert (s' = ex_run ex_done) as Hs by (vm_compute in E |- *; injection E as <- _; reflexivity).
  exists p. rewrite <-Hs at 2. rewrite <-Hs.
  apply (finalizePayout_idempotent ex_cfg (ex_run ex_done) s' "job" 5 7 p); [apply ex_hooks_ok|
    apply ex_run_reachable|exact E].
Defined.

(** ** Observations *)

(** A join whose requested role is refused throws, and the member stays in
    the contract without the role. *)
Lemma join_keeps_member_on_error :
  let input := {| mi_id := "eve"; mi_capabilities := 0; mi_roles := Some ["dev"%string];
                  mi_metadata := None |} in
  let '(s', outcome) := joinContract ex_cfg "job" input (ex_run (take 1 ex_staff)) in
  outcome = Err (TeamContractValidationError
                   "member does not satisfy required capabilities for role") /\
  mkeys (r_members (record_of s')) = ["eve"%string].
Proof. vm_compute. done. Qed.

Definition ex_short_template : TeamTemplate :=
  {| template_id := "t"; template_name := "t"; roles := roles ex_raw_template;
     checkpoints := checkpoints ex_raw_template;
     payout := {| payout_mode := Fixed [("dev", NInt 6000)]%string;
                  roleFailurePenaltyBps := None; redistributePenalties := None |};
     template_metadata := None |}.

(** A fixed split that does not add up to 10000 basis points is accepted when
    the contract is created; the completed contract can then never be paid. *)
Lemma fixed_split_checked_only_at_payout :
  let s := ex_run (CreateContract "job" "alice" ex_short_template :: tail ex_done) in
  r_status (record_of s) = completed /\ r_finalizedPayout (record_of s) = None /\
  (finalizePayout ex_cfg "job" 1000 s).2 =
    Err (TeamPayoutError "fixed payout bps").
Proof. vm_compute. done. Qed.
End Witness.
