(* ===== verification/WorkflowValidation.v ===== *)
(** * Workflow definitions (src/runtime/src/workflow/types.ts, validation.ts)

    The workflow DAG a caller submits, [validateWorkflow] and
    [topologicalSort]. Byte arrays and public keys are opaque strings, but for
    [description], which the team adapter builds. *)
From S2P Require Import Prelude JsMap JsString Graph.
#[local] Open Scope Z_scope.

(** [OnChainDependencyType], by its numbers. *)
Definition dep_None : Z := 0.
Definition dep_Data : Z := 1.
Definition dep_Ordering : Z := 2.
Definition dep_Proof : Z := 3.

Record TaskTemplate := {
  task_name : string;
  task_requiredCapabilities : Z;
  task_description : list Z;
  task_rewardAmount : Z;
  task_maxWorkers : number;
  task_deadline : number;
  task_taskType : number;
  task_constraintHash : option string;
  task_minReputation : option number;
  task_rewardMint : option string;
}.

Record WorkflowEdge := {
  edge_from : string;
  edge_to : string;
  edge_dependencyType : Z;
}.

Record WorkflowDefinition := {
  wf_id : string;
  wf_defaultRewardMint : option string;
  wf_tasks : list TaskTemplate;
  wf_edges : list WorkflowEdge;
}.

Inductive workflow_error :=
| WorkflowValidationError (msg : string)
| WorkflowTypeError (msg : string).

Notation WR := (result workflow_error).

(** ** validateWorkflow *)

Definition checkTask (names : list string) (task : TaskTemplate) : WR (list string) :=
  throw_if (isEmpty (trim (task_name task)))
    (WorkflowValidationError "Task name must be a non-empty string") ;;
  throw_if (has names (task_name task)) (WorkflowValidationError "Duplicate task name") ;;
  Ok (names ++ [task_name task]).

Definition checkEdge (names : list string) (_ : unit) (e : WorkflowEdge) : WR unit :=
  throw_if (negb (has names (edge_from e)))
    (WorkflowValidationError "Edge references unknown task in from field") ;;
  throw_if (negb (has names (edge_to e)))
    (WorkflowValidationError "Edge references unknown task in to field") ;;
  throw_if (String.eqb (edge_from e) (edge_to e)) (WorkflowValidationError "Self-loop detected") ;;
  throw_if (negb (edge_dependencyType e =? dep_Data) && negb (edge_dependencyType e =? dep_Ordering)
            && negb (edge_dependencyType e =? dep_Proof))
    (WorkflowValidationError "Invalid dependency type").

Definition checkParent (childSeen : list string) (e : WorkflowEdge) : WR (list string) :=
  throw_if (has childSeen (edge_to e)) (WorkflowValidationError "Multi-parent detected") ;;
  Ok (childSeen ++ [edge_to e]).

(** The adjacency list: [adj.get(edge.from)!.push(edge.to)]. *)
Definition pushChild (adj : jsmap (list string)) (e : WorkflowEdge) : WR (jsmap (list string)) :=
  match mget adj (edge_from e) with
  | None => Err (WorkflowTypeError "push of undefined")
  | Some l => Ok (mset (edge_from e) (l ++ [edge_to e]) adj)
  end.

Definition emptyAdjacency (names : list string) : jsmap (list string) :=
  foldl (fun adj name => mset name [] adj) [] names.

Definition validateWorkflow (definition : WorkflowDefinition) : WR unit :=
  throw_if (length (wf_tasks definition) =? 0)%nat
    (WorkflowValidationError "Workflow must have at least one task") ;;
  names ← foldM checkTask [] (wf_tasks definition);
  foldM (checkEdge names) tt (wf_edges definition) ;;
  foldM checkParent [] (wf_edges definition) ;;
  adj ← foldM pushChild (emptyAdjacency names) (wf_edges definition);
  match hasCycle adj names with
  | Some false => Ok tt
  | _ => Err (WorkflowValidationError "Cycle detected in workflow edges")
  end.

(** ** topologicalSort *)

(** [inDegree.get(n)!] as a number: [undefined + 1] is [NaN]. *)
Definition degreeOf (inDegree : jsmap number) (n : string) : number :=
  default NOther (mget inDegree n).

Definition addEdge (acc : jsmap (list string) * jsmap number) (e : WorkflowEdge)
    : WR (jsmap (list string) * jsmap number) :=
  let '(adj, inDegree) := acc in
  adj ← pushChild adj e;
  Ok (adj, mset (edge_to e) (number_add (degreeOf inDegree (edge_to e)) (NInt 1)) inDegree).

(** One iteration of the loop over the children of [node]. *)
Definition visitChild (acc : list string * jsmap number) (child : string)
    : list string * jsmap number :=
  let '(queue, inDegree) := acc in
  let newDegree := number_add (degreeOf inDegree child) (NInt (-1)) in
  let inDegree := mset child newDegree inDegree in
  (if bool_decide (newDegree = NInt 0) then queue ++ [child] else queue, inDegree).

(** The [while (queue.length > 0)] loop. *)
Fixpoint kahn `{Collation} (fuel : nat) (adj : jsmap (list string)) (queue : list string)
    (inDegree : jsmap number) (sorted : list string) : option (list string) :=
  match fuel with
  | O => None
  | S fuel =>
      match sort_strings queue with
      | [] => Some sorted
      | node :: queue =>
          let '(queue, inDegree) := foldl visitChild (queue, inDegree) (successors adj node) in
          kahn fuel adj queue inDegree (sorted ++ [node])
      end
  end.

(** [Ok None] is running out of fuel. *)
Definition topologicalSort `{Collation} (definition : WorkflowDefinition) : WR (option (list string)) :=
  let names := sort_strings (map task_name (wf_tasks definition)) in
  let inDegree := foldl (fun m name => mset name (NInt 0) m) [] names in
  '(adj, inDegree) ← foldM addEdge (emptyAdjacency names, inDegree) (wf_edges definition);
  let adj := mmap sort_strings adj in
  let queue := sort_strings (List.filter (fun n => bool_decide (degreeOf inDegree n = NInt 0)) names) in
  Ok (kahn (S (length names)) adj queue inDegree []).

(** ** Workflow validation: which definitions are accepted *)

(** There is an edge from [u] to [v]. *)
Definition wedge (edges : list WorkflowEdge) (u v : string) : Prop :=
  exists e, e ∈ edges /\ edge_from e = u /\ edge_to e = v.

Definition edge_ok (names : list string) (e : WorkflowEdge) : Prop :=
  edge_from e ∈ names /\ edge_to e ∈ names /\ edge_from e <> edge_to e /\
  (edge_dependencyType e = dep_Data \/ edge_dependencyType e = dep_Ordering \/
   edge_dependencyType e = dep_Proof).

Definition names_of (d : WorkflowDefinition) : list string := map task_name (wf_tasks d).

(** A forest of named tasks. *)
Record valid_workflow (d : WorkflowDefinition) : Prop := {
  vw_nonempty : wf_tasks d <> [];
  vw_named : Forall (fun t => trim (task_name t) <> ""%string) (wf_tasks d);
  vw_distinct : NoDup (names_of d);
  vw_edges : Forall (edge_ok (names_of d)) (wf_edges d);
  vw_parent : NoDup (map edge_to (wf_edges d));
  vw_acyclic : forall x, ~ tc (wedge (wf_edges d)) x x;
}.

(** The out-edges of [u], in order. *)
Definition children (edges : list WorkflowEdge) (u : string) : list string :=
  map edge_to (List.filter (fun e => String.eqb (edge_from e) u) edges).

Lemma elem_children edges u v : v ∈ children edges u <-> wedge edges u v.
Proof.
  unfold children, wedge. rewrite list_elem_of_fmap. split.
  - intros (e & -> & Hin). rewrite list_elem_of_In, filter_In, <-list_elem_of_In in Hin.
    destruct Hin as [Hin Hf%String.eqb_eq]. eauto.
  - intros (e & Hin & <- & <-). exists e. split; [done|].
    rewrite list_elem_of_In, filter_In, <-list_elem_of_In, String.eqb_refl. done.
Qed.

Lemma emptyAdjacency_get names u :
  mget (emptyAdjacency names) u = if has names u then Some [] else None.
Proof.
  unfold emptyAdjacency. induction names as [|n names IH] using rev_ind; [done|].
  rewrite foldl_snoc, mget_mset, IH. unfold has. rewrite existsb_app. simpl. rewrite orb_false_r.
  destruct (String.eqb_spec u n); [by rewrite orb_true_r|by rewrite orb_false_r].
Qed.

Lemma emptyAdjacency_keys names u : u ∈ mkeys (emptyAdjacency names) <-> u ∈ names.
Proof.
  rewrite <-mget_is_Some_keys, emptyAdjacency_get, <-has_true.
  destruct (has names u); split; intros Hs; by first [done|destruct Hs].
Qed.

Lemma pushChild_fold edges adj :
  (forall e, e ∈ edges -> edge_from e ∈ mkeys adj) ->
  exists adj', foldM pushChild adj edges = Ok adj' /\ mkeys adj' = mkeys adj /\
    forall u, successors adj' u = successors adj u ++ if has (mkeys adj) u then children edges u else [].
Proof.
  revert adj. induction edges as [|e edges IH]; intros adj Hin.
  { exists adj. split_and!; [done|done|]. intros u. cbn. destruct (has _ u); by rewrite app_nil_r. }
  assert (edge_from e ∈ mkeys adj) as He by (apply Hin; constructor).
  destruct (proj2 (mget_is_Some_keys adj (edge_from e)) He) as [l Hl].
  set (adj1 := mset (edge_from e) (l ++ [edge_to e]) adj). cbn [foldM].
  assert (pushChild adj e = Ok adj1) as -> by (unfold pushChild; by rewrite Hl).
  unfold mbind, result_bind.
  assert (mkeys adj1 = mkeys adj) as Hk by (by apply mkeys_mset_in).
  destruct (IH adj1) as (adj' & HF & Hk' & Hs).
  { intros e' He'. rewrite Hk. apply Hin. by constructor. }
  exists adj'. split_and!; [done|congruence|]. intros u. rewrite Hs, Hk. unfold successors at 1, adj1.
  rewrite mget_mset. destruct (String.eqb_spec u (edge_from e)) as [->|Hne].
  - rewrite (proj2 (has_true _ _) He). unfold successors. rewrite Hl. simpl. unfold children. simpl.
    rewrite String.eqb_refl. simpl. by rewrite <-app_assoc.
  - unfold children. simpl. destruct (String.eqb_spec (edge_from e) u); [congruence|]. done.
Qed.

Lemma adjacency_successors names edges :
  (forall e, e ∈ edges -> edge_from e ∈ names) ->
  exists adj, foldM pushChild (emptyAdjacency names) edges = Ok adj /\
    (forall u, u ∈ mkeys adj <-> u ∈ names) /\ forall u, successors adj u = children edges u.
Proof.
  intros Hin. destruct (pushChild_fold edges (emptyAdjacency names)) as (adj & HF & Hk & Hs).
  { intros e He. by apply emptyAdjacency_keys, Hin. }
  exists adj. split_and!; [done|intros u; by rewrite Hk, emptyAdjacency_keys|]. intros u.
  rewrite Hs. unfold successors. rewrite emptyAdjacency_get.
  destruct (has (mkeys (emptyAdjacency names)) u) eqn:Hh.
  - by destruct (has names u).
  - rewrite app_nil_r. apply has_false in Hh. rewrite emptyAdjacency_keys in Hh.
    rewrite (proj2 (has_false names u) Hh). simpl. symmetry.
    destruct (children edges u) as [|v l] eqn:E; [done|].
    assert (v ∈ children edges u) as Hv by (rewrite E; constructor).
    apply elem_children in Hv as (e & He & <- & _). by destruct Hh; apply Hin.
Qed.

Lemma checkTasks_iff tasks names :
  foldM checkTask [] tasks = Ok names <->
  names = map task_name tasks /\ NoDup (map task_name tasks) /\
  Forall (fun t => trim (task_name t) <> ""%string) tasks.
Proof.
  pose proof (foldM_iff (fun pre acc => acc = map task_name pre)
    (fun pre x => task_name x ∉ map task_name pre /\ trim (task_name x) <> ""%string)
    checkTask [] tasks) as Hiff. rewrite NoDup_map_prefixes, Forall_prefixes.
  destruct Hiff as [H1 H2]; [done| | |].
  - intros pre x acc -> [Hf Hn]. eexists. split; [|by rewrite map_app]. unfold checkTask.
    rewrite (proj2 (has_false _ _) Hf). by destruct (trim (task_name x)).
  - intros pre x acc acc' -> HF. unfold checkTask in HF. bind_ok. split; [by apply has_false|].
    by destruct (trim (task_name x)).
  - split.
    + intros HF. assert (names = map task_name tasks) as ->.
      { apply (foldM_inv (fun pre acc => acc = map task_name pre)) in HF; [done|done|].
        intros pre x _ acc acc' _ -> Hx. unfold checkTask in Hx. bind_ok. subst. by rewrite map_app. }
      split; [done|]. split; intros pre x suf Hs; by eapply H2; eauto.
    + intros (-> & Hd & Hn). destruct H1 as (r & HF & ->); [|done]. eauto.
Qed.

Lemma checkEdges_iff names edges :
  foldM (checkEdge names) tt edges = Ok tt <-> Forall (edge_ok names) edges.
Proof.
  rewrite Forall_prefixes. pose proof (foldM_iff (fun _ (_ : unit) => True)
    (fun _ x => edge_ok names x) (checkEdge names) tt edges) as Hiff.
  assert (forall e, checkEdge names tt e = Ok tt <-> edge_ok names e) as He.
  { intros e. unfold checkEdge, edge_ok. rewrite <-!has_true. split.
    - intros HC. bind_ok. rewrite negb_false_iff in *.
      match goal with Hx : String.eqb _ _ = false |- _ => apply String.eqb_neq in Hx end.
      split_and!; [done..|]. lia.
    - intros (-> & -> & Hne & Ht). rewrite (proj2 (String.eqb_neq _ _) Hne).
      unfold dep_Data, dep_Ordering, dep_Proof in *. by destruct Ht as [-> | [-> | ->]]. }
  rewrite Hiff; [|done| |].
  - split; [by exists tt|]. by intros ([] & ? & _).
  - intros pre x [] _ Hx. exists tt. split; [by apply He|done].
  - intros pre x [] [] _. apply He.
Qed.

Lemma checkParents_iff edges :
  (exists r, foldM checkParent [] edges = Ok r) <-> NoDup (map edge_to edges).
Proof.
  rewrite NoDup_map_prefixes. pose proof (foldM_iff (fun pre acc => acc = map edge_to pre)
    (fun pre x => edge_to x ∉ map edge_to pre) checkParent [] edges) as Hiff.
  rewrite Hiff; [|done| |].
  - split; [|intros (r & ? & _); eauto]. intros [r HF]. exists r. split; [done|].
    apply (foldM_inv (fun pre acc => acc = map edge_to pre)) in HF; [done|done|].
    intros pre x _ acc acc' _ -> Hx. unfold checkParent in Hx. bind_ok. subst. by rewrite map_app.
  - intros pre x acc -> Hx. eexists. unfold checkParent. rewrite (proj2 (has_false _ _) Hx).
    split; [done|]. by rewrite map_app.
  - intros pre x acc acc' -> HF. unfold checkParent in HF. bind_ok. by apply has_false.
Qed.

Lemma hasCycle_wedge names edges adj :
  (forall u, successors adj u = children edges u) ->
  (forall e, e ∈ edges -> edge_from e ∈ names /\ edge_to e ∈ names) ->
  hasCycle adj names = Some false <-> forall x, ~ tc (wedge edges) x x.
Proof.
  intros Hs Hin. assert (forall u v, edge adj u v <-> wedge edges u v) as He.
  { intros u v. unfold edge. by rewrite Hs, elem_children. }
  assert (forall u v, tc (edge adj) u v <-> tc (wedge edges) u v) as Htc.
  { intros u v. split; apply (tc_congruence id); intros x y; apply He. }
  destruct (hasCycle_spec adj names) as [[-> [x Hx]]|[-> Hx]].
  - intros u v (e & Hine & _ & <-)%He. by apply Hin.
  - split; [done|]. intros Hno. exfalso. by apply (Hno x), Htc.
  - split; [|done]. intros _ x Hxx. apply (Hx x); [|by apply Htc].
    assert (forall a b, tc (wedge edges) a b -> exists y, wedge edges a y) as Hout by (destruct 1; eauto).
    destruct (Hout x x Hxx) as (y & e & Hine & <- & _). by apply Hin.
Qed.

Lemma validateWorkflow_valid (d : WorkflowDefinition) :
  validateWorkflow d = Ok tt <-> valid_workflow d.
Proof.
  unfold validateWorkflow. split.
  - intros HV. apply bind_Ok in HV as (? & H0 & HV). apply throw_if_Ok in H0.
    apply bind_Ok in HV as (names & Hn & HV). apply checkTasks_iff in Hn as (-> & Hd & Hnm).
    apply bind_Ok in HV as ([] & He & HV). apply checkEdges_iff in He as Hedges.
    apply bind_Ok in HV as (seen & Hp & HV).
    assert (NoDup (map edge_to (wf_edges d))) as Hpar by (apply checkParents_iff; eauto).
    rewrite Forall_forall in Hedges.
    destruct (adjacency_successors (map task_name (wf_tasks d)) (wf_edges d)) as (adj & HA & _ & Hs).
    { intros e Hine. by apply Hedges. }
    rewrite HA in HV. cbn in HV.
    assert (hasCycle adj (map task_name (wf_tasks d)) = Some false) as Hc
      by (by destruct (hasCycle _ _) as [[]|]).
    rewrite (hasCycle_wedge _ _ _ Hs) in Hc by (intros e Hine; by destruct (Hedges e Hine) as (? & ? & _)).
    split; [by intros E; rewrite E in H0|done|done|by apply Forall_forall|done|done].
  - intros [H0 Hnm Hd Hedges Hpar Hac].
    destruct (wf_tasks d) as [|t0 ts] eqn:Et; [done|]. cbn [length Nat.eqb throw_if mbind result_bind].
    unfold names_of in *. rewrite Et in *. rewrite (proj2 (checkTasks_iff (t0 :: ts) _)) by (split_and!; done).
    unfold mbind, result_bind. rewrite (proj2 (checkEdges_iff _ _) Hedges).
    destruct (proj2 (checkParents_iff _) Hpar) as [seen ->]. rewrite Forall_forall in Hedges.
    destruct (adjacency_successors (map task_name (t0 :: ts)) (wf_edges d)) as (adj & -> & _ & Hs).
    { intros e Hine. by apply Hedges. }
    rewrite (proj2 (hasCycle_wedge (map task_name (t0 :: ts)) _ _ Hs
      ltac:(intros e Hine; by destruct (Hedges e Hine) as (? & ? & _))) Hac). done.
Qed.

(** [validateWorkflow] accepts exactly the forests: at least one task,
    distinct non-blank names, edges between known, different tasks with one of
    the three on-chain dependency types, at most one parent per task, and no
    cycle. *)
Theorem validateWorkflow_iff (d : WorkflowDefinition) :
  validateWorkflow d = Ok tt <-> valid_workflow d.
Proof. apply validateWorkflow_valid. Qed.

(** * Topological order of a workflow

    [topologicalSort] (Kahn's algorithm with a sorted queue) on an acyclic
    workflow returns every task once, parents before children. *)

Fixpoint occ (x : string) (l : list string) : Z :=
  match l with [] => 0 | y :: l => (if String.eqb x y then 1 else 0) + occ x l end.

Lemma occ_app x l1 l2 : occ x (l1 ++ l2) = occ x l1 + occ x l2.
Proof. induction l1 as [|y l1 IH]; simpl; lia. Qed.

Lemma occ_nonneg x l : 0 <= occ x l.
Proof. induction l as [|y l IH]; simpl; [lia|]. destruct (String.eqb x y); lia. Qed.

Lemma occ_perm x l l' : l ≡ₚ l' -> occ x l = occ x l'.
Proof. induction 1; simpl; lia. Qed.

Lemma occ_pos x l : x ∈ l <-> 0 < occ x l.
Proof.
  induction l as [|y l IH]; simpl.
  - split; [by intros ?%not_elem_of_nil|lia].
  - rewrite elem_of_cons, IH. pose proof (occ_nonneg x l).
    destruct (String.eqb_spec x y); split; intros Hx; [lia|by left| |right; lia].
    destruct Hx; [done|lia].
Qed.

(** A sorted list is topological when the parents of each element come before it. *)
Definition topological (edges : list WorkflowEdge) (l : list string) : Prop :=
  forall pre x suf, l = pre ++ x :: suf -> forall u, wedge edges u x -> u ∈ pre.

Section Kahn.
Context `{Collation} (edges : list WorkflowEdge) (names : list string) (adj : jsmap (list string)).
Context (Hadj : forall u, successors adj u ≡ₚ children edges u).
Context (Hin : forall e, e ∈ edges -> edge_from e ∈ names /\ edge_to e ∈ names).
Context (Hnd : NoDup names).

(** The number of edges into [n] from nodes that are not yet sorted. *)
Definition pending (sorted : list string) (n : string) : Z :=
  occ n (map edge_to (List.filter (fun e => negb (has sorted (edge_from e))) edges)).

Lemma pending_snoc sorted u n :
  u ∉ sorted -> pending (sorted ++ [u]) n = pending sorted n - occ n (children edges u).
Proof.
  intros Hu. unfold pending, children. clear Hin Hadj. induction edges as [|e es IH]; simpl; [done|].
  assert (has (sorted ++ [u]) (edge_from e) = has sorted (edge_from e) || String.eqb (edge_from e) u) as ->.
  { unfold has. rewrite existsb_app. simpl. by rewrite orb_false_r. }
  destruct (String.eqb_spec (edge_from e) u) as [->|].
  - rewrite (proj2 (has_false _ _) Hu). simpl. lia.
  - rewrite orb_false_r. destruct (has sorted (edge_from e)); simpl; lia.
Qed.

Lemma pending_zero sorted n :
  pending sorted n = 0 <-> forall u, wedge edges u n -> u ∈ sorted.
Proof.
  unfold pending. set (l := map edge_to _). pose proof (occ_nonneg n l).
  assert (n ∈ l <-> exists u, wedge edges u n /\ u ∉ sorted) as Hl.
  { unfold l. rewrite list_elem_of_fmap. split.
    - intros (e & -> & He). rewrite list_elem_of_In, filter_In, <-list_elem_of_In, negb_true_iff, has_false in He.
      exists (edge_from e). split; [exists e|]; naive_solver.
    - intros (u & (e & He & <- & <-) & Hu). exists e. split; [done|].
      rewrite list_elem_of_In, filter_In, <-list_elem_of_In, negb_true_iff, has_false. done. }
  rewrite occ_pos in Hl. split.
  - intros Hz u Hu. destruct (decide (u ∈ sorted)); [done|]. exfalso.
    assert (0 < occ n l); [apply Hl; eauto|lia].
  - intros Hall. destruct (decide (occ n l = 0)); [done|].
    assert (0 < occ n l) as (u & Hu & Hn)%Hl by lia. by destruct Hn; apply Hall.
Qed.

(** ** The loop over the children *)

Lemma inner_spec sorted q0 deg0 l :
  (forall n, n ∈ names -> mget deg0 n = Some (NInt (pending sorted n))) ->
  (forall n, n ∈ l -> n ∈ names) -> (forall n, occ n l <= pending sorted n) ->
  exists new deg, foldl visitChild (q0, deg0) l = (q0 ++ new, deg) /\ NoDup new /\
    (forall n, n ∈ new <-> n ∈ l /\ occ n l = pending sorted n) /\
    forall n, n ∈ names -> mget deg n = Some (NInt (pending sorted n - occ n l)).
Proof.
  intros H0. induction l as [|x l IH] using rev_ind; intros Hl Ho.
  { exists [], deg0. rewrite app_nil_r. split_and!; [done|constructor| |].
    - intros n. split; [by intros ?%not_elem_of_nil|]. by intros [?%not_elem_of_nil _].
    - intros n Hn. simpl. by rewrite Z.sub_0_r, H0. }
  assert (forall n, occ n (l ++ [x]) = occ n l + if String.eqb n x then 1 else 0) as Hocc.
  { intros n. rewrite occ_app. simpl. lia. }
  destruct IH as (new & deg & HF & Hndn & Hnew & Hdeg).
  { intros n Hn. apply Hl. set_solver. }
  { intros n. specialize (Ho n). rewrite Hocc in Ho. destruct (String.eqb n x); lia. }
  assert (x ∈ names) as Hx by (apply Hl; set_solver).
  assert (x ∉ new) as Hxn.
  { intros [_ Heq]%Hnew. specialize (Ho x). rewrite Hocc, String.eqb_refl in Ho. lia. }
  rewrite foldl_snoc, HF. unfold visitChild, degreeOf. rewrite (Hdeg x Hx). simpl.
  set (z := pending sorted x - occ x l + -1).
  assert (z = pending sorted x - occ x (l ++ [x])) as Hz.
  { unfold z. rewrite Hocc, String.eqb_refl. lia. }
  exists (new ++ if bool_decide (NInt z = NInt 0) then [x] else []), (mset x (NInt z) deg).
  split_and!.
  - case_bool_decide; [by rewrite app_assoc|by rewrite app_nil_r].
  - case_bool_decide; [|by rewrite app_nil_r]. apply NoDup_app. split_and!; [done| |apply NoDup_singleton].
    by intros y Hy ->%list_elem_of_singleton.
  - intros n. rewrite !elem_of_app, Hnew, Hocc, list_elem_of_singleton.
    destruct (String.eqb_spec n x) as [->|Hne].
    + assert (x ∈ (if bool_decide (NInt z = NInt 0) then [x] else []) <-> z = 0) as ->.
      { case_bool_decide as Hb; [rewrite list_elem_of_singleton; split; [congruence|done]|].
        split; [by intros ?%not_elem_of_nil|congruence]. }
      rewrite Hz, Hocc, String.eqb_refl. split; [|intros [_ ?]; right; lia].
      intros [[_ Heq]|?]; [|split; [by right|lia]]. specialize (Ho x).
      rewrite Hocc, String.eqb_refl in Ho. lia.
    + rewrite Z.add_0_r. assert (n ∉ (if bool_decide (NInt z = NInt 0) then [x] else [])) as Hno.
      { case_bool_decide; [by rewrite list_elem_of_singleton|apply not_elem_of_nil]. }
      split; [intros [?|?]; [tauto|done]|]. intros [[?|?] ?]; [tauto|done].
  - intros n Hn. rewrite mget_mset, Hocc. destruct (String.eqb_spec n x) as [->|].
    + rewrite Hz, Hocc, String.eqb_refl. do 2 f_equal.
    + rewrite Z.add_0_r. by apply Hdeg.
Qed.

(** ** The outer loop *)

Record outer_inv (sorted queue : list string) (deg : jsmap number) : Prop := {
  oi_nodup : NoDup (sorted ++ queue);
  oi_names : forall n, n ∈ sorted ++ queue -> n ∈ names;
  oi_deg : forall n, n ∈ names -> mget deg n = Some (NInt (pending sorted n));
  oi_free : forall n, n ∈ names -> (n ∈ sorted ++ queue <-> pending sorted n = 0);
  oi_topo : topological edges sorted;
}.

Lemma occ_children sorted u n : u ∉ sorted -> occ n (children edges u) <= pending sorted n.
Proof.
  intros Hu. pose proof (pending_snoc sorted u n Hu).
  pose proof (occ_nonneg n (map edge_to (List.filter (fun e => negb (has (sorted ++ [u]) (edge_from e))) edges))).
  unfold pending in *. lia.
Qed.

Lemma topological_snoc sorted u :
  topological edges sorted -> (forall v, wedge edges v u -> v ∈ sorted) -> topological edges (sorted ++ [u]).
Proof.
  intros Ht Hu pre x suf Heq v Hv. destruct suf as [|y suf _] using rev_ind.
  - apply app_inj_tail in Heq as [-> ->]. by apply Hu.
  - rewrite app_comm_cons, app_assoc in Heq. apply app_inj_tail in Heq as [Heq _]. by eapply Ht.
Qed.

Lemma outer_step sorted u queue deg :
  outer_inv sorted (u :: queue) deg ->
  let '(queue', deg') := foldl visitChild (queue, deg) (successors adj u) in
  outer_inv (sorted ++ [u]) queue' deg'.
Proof.
  intros [Hn1 Hn2 Hd Hf Ht]. apply NoDup_app in Hn1 as Hs. destruct Hs as (Hs1 & Hs2 & Hs3).
  apply NoDup_cons in Hs3 as [Huq Hq].
  assert (u ∉ sorted) as Hu by (intros Hx; eapply Hs2; [exact Hx|constructor]).
  assert (pending sorted u = 0) as Hpu by (apply Hf; [apply Hn2|]; set_solver).
  destruct (inner_spec sorted queue deg (successors adj u) Hd) as (new & deg' & -> & Hnn & Hnew & Hdeg).
  { intros n. rewrite (Hadj u), elem_children. intros (e & He & _ & <-). by apply Hin. }
  { intros n. rewrite (occ_perm _ _ _ (Hadj u)). by apply occ_children. }
  assert (forall n, pending (sorted ++ [u]) n = pending sorted n - occ n (successors adj u)) as Hp.
  { intros n. by rewrite pending_snoc, (occ_perm _ _ _ (Hadj u)). }
  assert (forall n, n ∈ new -> 0 < pending sorted n) as Hpos.
  { intros n [Hi Ho]%Hnew. apply occ_pos in Hi. lia. }
  assert (forall n, n ∈ new -> n ∈ names) as Hnewn.
  { intros n [Hi _]%Hnew. rewrite (Hadj u), elem_children in Hi. destruct Hi as (e & He & _ & <-). by apply Hin. }
  assert (forall n, n ∈ new -> n ∉ sorted ++ u :: queue) as Hfresh.
  { intros n Hi Hx. pose proof (Hpos n Hi). apply Hf in Hx; [lia|by apply Hnewn]. }
  split.
  - rewrite <-app_assoc. simpl. change (sorted ++ u :: queue ++ new) with (sorted ++ (u :: queue) ++ new).
    rewrite app_assoc. apply NoDup_app. split_and!; [done| |done]. intros x Hx Hxn. by apply (Hfresh x).
  - intros n Hx. rewrite <-app_assoc, !elem_of_app in Hx. destruct Hx as [Hx|[Hx|[Hx|Hx]]];
      [apply Hn2; set_solver..|by apply Hnewn].
  - intros n Hx. rewrite Hp. by apply Hdeg.
  - intros n Hx. rewrite Hp. pose proof (occ_nonneg n (successors adj u)) as Hon.
    assert (n ∈ (sorted ++ [u]) ++ queue ++ new <-> n ∈ sorted ++ u :: queue \/ n ∈ new) as -> by set_solver.
    rewrite (Hf n Hx), Hnew, occ_pos. rewrite (occ_perm _ _ _ (Hadj u)) in *.
    pose proof (occ_children sorted u n Hu). lia.
  - apply topological_snoc; [done|]. by apply pending_zero.
Qed.

Lemma outer_sort sorted queue deg :
  outer_inv sorted queue deg -> outer_inv sorted (sort_strings queue) deg.
Proof.
  assert (sort_strings queue ≡ₚ queue) as Hp by apply sort_on_perm.
  intros [H1 H2 H3 H4 H5]. split; [by rewrite Hp| | |setoid_rewrite Hp|]; try done.
  intros n. rewrite Hp. apply H2.
Qed.

Lemma kahn_spec fuel sorted queue deg :
  outer_inv sorted queue deg -> (length names < fuel + length sorted)%nat ->
  exists l deg', kahn fuel adj queue deg sorted = Some l /\ outer_inv l [] deg'.
Proof.
  revert sorted queue deg. induction fuel as [|fuel IH]; intros sorted queue deg Hi Hf.
  { assert (length (sorted ++ queue) <= length names)%nat as Hle; [|rewrite length_app in Hle; lia].
    apply submseteq_length, NoDup_submseteq; apply Hi. }
  cbn [kahn]. apply outer_sort in Hi. destruct (sort_strings queue) as [|u rest]; [eauto|].
  apply outer_step in Hi. destruct (foldl visitChild _ _) as [q d]. apply IH with (1 := Hi).
  rewrite length_app. simpl. lia.
Qed.

Lemma all_sorted l deg :
  (forall x, ~ tc (wedge edges) x x) -> outer_inv l [] deg -> forall n, n ∈ names -> n ∈ l.
Proof.
  intros Hac [_ _ _ Hf _] n.
  assert (sn (fun x y => wedge edges y x) n) as Hsn.
  { assert (forall a b, tc (fun x y => wedge edges y x) a b -> tc (wedge edges) b a) as Hflip.
    { intros a b Hab. induction Hab as [a b Hab|a b c Hab _ IH]; [by apply tc_once|by eapply tc_r]. }
    apply tc_finite_sn; [intros x Hx; by apply (Hac x), Hflip|].
    exists names. intros y Hy. apply tc_nsteps in Hy as ([|m] & Hm & Hs); [lia|].
    apply nsteps_inv_r in Hs as (x & _ & e & He & <- & _). by apply Hin. }
  induction Hsn as [n _ IH]. intros Hn. rewrite app_nil_r in Hf. apply Hf, pending_zero; [done|].
  intros u Hu. apply IH; [done|]. destruct Hu as (e & He & <- & _). by apply Hin.
Qed.
End Kahn.

Lemma addEdge_fold (edges : list WorkflowEdge) adj deg (names : list string) :
  (forall e, e ∈ edges -> edge_from e ∈ mkeys adj /\ edge_to e ∈ names) ->
  (forall n, n ∈ names -> exists z, mget deg n = Some (NInt z)) ->
  exists adj' deg', foldM pushChild adj edges = Ok adj' /\
    foldM addEdge (adj, deg) edges = Ok (adj', deg') /\
    forall n z, n ∈ names -> mget deg n = Some (NInt z) ->
      mget deg' n = Some (NInt (z + occ n (map edge_to edges))).
Proof.
  revert adj deg. induction edges as [|e es IH]; intros adj deg Hin Hd.
  { exists adj, deg. split_and!; [done|done|]. intros n z _ Hz. simpl. by rewrite Z.add_0_r. }
  destruct (Hin e) as [Hf Ht]; [constructor|]. apply mget_is_Some_keys in Hf as [l Hl].
  destruct (Hd _ Ht) as [z0 Hz0].
  set (adj1 := mset (edge_from e) (l ++ [edge_to e]) adj).
  set (deg1 := mset (edge_to e) (NInt (z0 + 1)) deg).
  assert (pushChild adj e = Ok adj1) as HP by (unfold pushChild; by rewrite Hl).
  assert (addEdge (adj, deg) e = Ok (adj1, deg1)) as HA.
  { unfold addEdge, degreeOf. rewrite HP, Hz0. done. }
  destruct (IH adj1 deg1) as (adj' & deg' & HF1 & HF2 & Hdeg).
  - intros e' He'. destruct (Hin e'); [by constructor|]. split; [|done].
    unfold adj1. apply elem_mkeys_mset. auto.
  - intros n Hn. unfold deg1. rewrite mget_mset. destruct (String.eqb n (edge_to e)); eauto.
  - exists adj', deg'. cbn [foldM]. rewrite HP, HA. split_and!; [done|done|].
    intros n z Hn Hz. cbn [map occ]. unfold deg1 in Hdeg. specialize (Hdeg n).
    rewrite mget_mset in Hdeg. destruct (String.eqb_spec n (edge_to e)) as [Heq|]; [subst n|].
    + assert (z = z0) as -> by congruence. rewrite (Hdeg (z0 + 1)); [|done|done]. do 2 f_equal. lia.
    + rewrite (Hdeg z); [|done|done]. do 2 f_equal.
Qed.

Lemma zeroDegrees_get (names : list string) n : n ∈ names ->
  mget (foldl (fun m name => mset name (NInt 0) m) [] names) n = Some (NInt 0).
Proof.
  induction names as [|x names IH] using rev_ind; [by intros ?%not_elem_of_nil|].
  rewrite foldl_snoc, mget_mset. destruct (String.eqb_spec n x); [done|].
  intros [Hn|Hn]%elem_of_app; [by apply IH|]. by apply list_elem_of_singleton in Hn.
Qed.

Lemma pending_nil edges n : pending edges [] n = occ n (map edge_to edges).
Proof.
  unfold pending. do 2 f_equal. induction edges as [|e es IH]; [done|]. cbn. f_equal. exact IH.
Qed.

(** On every workflow that validation accepts, the topological sort
    terminates and returns each task name exactly once, with every parent
    before its children: the submission order is always defined and respects
    the dependencies. *)
Theorem topologicalSort_correct `{Collation} (d : WorkflowDefinition) :
  valid_workflow d ->
  exists l, topologicalSort d = Ok (Some l) /\ l ≡ₚ names_of d /\ topological (wf_edges d) l.
Proof.
  intros [_ _ Hnd Hedges _ Hac]. unfold topologicalSort. fold (names_of d).
  set (names := sort_strings (names_of d)).
  assert (names ≡ₚ names_of d) as Hp by apply sort_on_perm.
  assert (forall e, e ∈ wf_edges d -> edge_from e ∈ names /\ edge_to e ∈ names) as Hin.
  { intros e He. rewrite Forall_forall in Hedges. rewrite Hp. by destruct (Hedges e He) as (? & ? & _). }
  destruct (adjacency_successors names (wf_edges d)) as (adj & HA & _ & Hs).
  { intros e He. by apply Hin. }
  destruct (addEdge_fold (wf_edges d) (emptyAdjacency names)
    (foldl (fun m name => mset name (NInt 0) m) [] names) names) as (adj' & deg & HF1 & HF2 & Hdeg).
  { intros e He. rewrite emptyAdjacency_keys. by apply Hin. }
  { intros n Hn. exists 0. by apply zeroDegrees_get. }
  assert (adj' = adj) as -> by congruence. rewrite HF2. unfold mbind, result_bind.
  assert (forall n, n ∈ names -> mget deg n = Some (NInt (pending (wf_edges d) [] n))) as Hd0.
  { intros n Hn. rewrite pending_nil. rewrite (Hdeg n 0 Hn (zeroDegrees_get _ _ Hn)). do 2 f_equal. }
  assert (NoDup names) as Hndn by (by rewrite Hp).
  set (q := List.filter (fun n => bool_decide (degreeOf deg n = NInt 0)) names).
  assert (forall n, n ∈ q <-> n ∈ names /\ pending (wf_edges d) [] n = 0) as Hq.
  { intros n. unfold q. rewrite list_elem_of_In, filter_In, <-list_elem_of_In, bool_decide_eq_true.
    split; intros [Hn Hz]; (split; [done|]); unfold degreeOf in *; rewrite (Hd0 n Hn) in *; simpl in *; congruence. }
  assert (forall u, successors (mmap sort_strings adj) u ≡ₚ children (wf_edges d) u) as Hadj.
  { intros u. unfold successors. rewrite mget_mmap. specialize (Hs u). unfold successors in Hs.
    destruct (mget adj u) as [l|]; simpl in *; rewrite <-Hs; [apply sort_on_perm|done]. }
  assert (outer_inv (wf_edges d) names [] (sort_strings q) deg) as Hout.
  { apply outer_sort. split; simpl.
    - by apply NoDup_ListNoDup, List.NoDup_filter, NoDup_ListNoDup.
    - by intros n [? _]%Hq.
    - done.
    - intros n Hn. rewrite Hq. tauto.
    - intros [|? ?] ? ?; done. }
  destruct (kahn_spec _ _ _ Hadj Hin Hndn (S (length names)) [] (sort_strings q) deg Hout)
    as (l & deg' & HK & Hi); [simpl; lia|].
  exists l. rewrite HK. split; [done|]. pose proof (all_sorted _ _ Hin _ _ Hac Hi) as Hall.
  destruct Hi as [H1 H2 _ _ Ht]. rewrite app_nil_r in H1, H2. split; [|done]. rewrite <-Hp.
  apply NoDup_Permutation; [by apply NoDup_ListNoDup|by apply NoDup_ListNoDup|].
  intros n. rewrite <-!list_elem_of_In. split; auto.
Qed.

(** ** Witness *)

Definition ex_task (n : string) : TaskTemplate :=
  {| task_name := n; task_requiredCapabilities := 1; task_description := []; task_rewardAmount := 0;
     task_maxWorkers := NInt 1; task_deadline := NInt 0; task_taskType := NInt 0;
     task_constraintHash := None; task_minReputation := None; task_rewardMint := None |}.

Definition ex_workflow : WorkflowDefinition :=
  {| wf_id := "w"; wf_defaultRewardMint := None;
     wf_tasks := map ex_task ["test"; "build"; "fetch"; "docs"]%string;
     wf_edges := [{| edge_from := "build"; edge_to := "test"; edge_dependencyType := 2 |};
                  {| edge_from := "fetch"; edge_to := "build"; edge_dependencyType := 1 |}] |}.

Lemma topologicalSort_correct_witness :
  exists l, topologicalSort ex_workflow = Ok (Some l) /\ l ≡ₚ names_of ex_workflow /\
    topological (wf_edges ex_workflow) l.
Proof.
  apply (topologicalSort_correct ex_workflow). apply validateWorkflow_valid. vm_compute. reflexivity.
Defined.
