(* ===== verification/TeamWorkflow.v ===== *)
(** * Workflows of team contracts (src/runtime/src/team/workflow-adapter.ts)

    [TeamWorkflowAdapter.build] turns the snapshot of a running contract into
    a workflow definition: a task per checkpoint, an edge per dependency. *)
From S2P Require Import Prelude JsMap JsString Capabilities TeamTypes TeamPayout TeamPayoutStages TeamValidation TeamValidationSpec TeamCheckpoints TeamCheckpointsSpec TeamAudit TeamEngine TeamEngineInv WorkflowValidation.
#[local] Open Scope Z_scope.

Record TeamWorkflowBuildOptions := {
  opt_workflowId : option string;
  opt_defaultRewardMint : option string;
  opt_dependencyType : option Z;
  opt_maxWorkersPerTask : option number;
  opt_deadline : option number;
  opt_taskType : option number;
  opt_totalRewardLamports : option Z;
}.

Record TeamWorkflowBuildResult := {
  definition : WorkflowDefinition;
  checkpointTaskName : jsmap string;
  taskRole : jsmap string;
}.

(** The last loop of [distributeCheckpointRewards]. *)
Fixpoint shareOut (base remainder : Z) (cps : list TeamCheckpointState) (rewards : jsmap Z) : jsmap Z :=
  match cps with
  | [] => rewards
  | c :: rest =>
      let plus := if remainder >? 0 then 1 else 0 in
      let remainder := if remainder >? 0 then remainder - 1 else remainder in
      shareOut base remainder rest (mset (cs_id c) (base + plus) rewards)
  end.

Definition distributeCheckpointRewards (cps : list TeamCheckpointState) (total : Z) : jsmap Z :=
  if (total <=? 0) || (length cps =? 0)%nat
  then foldl (fun m c => mset (cs_id c) 0 m) [] cps
  else
    let count := Z.of_nat (length cps) in
    shareOut (Z.quot total count) (Z.rem total count) cps [].

(** [new TextEncoder().encode] of a Latin-1 string. *)
Fixpoint utf8 (s : string) : list Z :=
  match s with
  | EmptyString => []
  | String c rest =>
      let n := code c in
      (if n <? 128 then [n]
       else [Z.lor 192 (Z.shiftr n 6); Z.lor 128 (Z.land n 63)]) ++ utf8 rest
  end.

Definition encodeDescription (label : string) : list Z :=
  let encoded := take 64 (utf8 (trim label)) in
  encoded ++ repeat 0 (64 - length encoded).

Section Adapter.
Context `{Collation}.

(** The callback of [checkpoints.map]; [new Map(roles.map(...))] keeps the last
    role of an id. *)
Definition taskOf (opts : TeamWorkflowBuildOptions) (roleById : jsmap TeamRoleTemplate)
    (rewards : jsmap Z) (c : TeamCheckpointState) : R TaskTemplate :=
  match mget roleById (cs_roleId c) with
  | None => Err (TeamWorkflowTopologyError "checkpoint references unknown role")
  | Some role => Ok {|
      task_name := cs_id c;
      task_requiredCapabilities := requiredCapabilities role;
      task_description := encodeDescription (cs_label c);
      task_rewardAmount := default 0 (mget rewards (cs_id c));
      task_maxWorkers := default (NInt 1) (opt_maxWorkersPerTask opts);
      task_deadline := default (NInt 0) (opt_deadline opts);
      task_taskType := default (NInt 0) (opt_taskType opts);
      task_constraintHash := None; task_minReputation := None; task_rewardMint := None |}
  end.

(** The loop that pushes the edges: [checkpoint.dependsOn[0]]. *)
Definition edgeOf (dependencyType : Z) (c : TeamCheckpointState) : list WorkflowEdge :=
  match cs_dependsOn c with
  | d :: _ => if isEmpty d then [] else
      [{| edge_from := d; edge_to := cs_id c; edge_dependencyType := dependencyType |}]
  | [] => []
  end.

Definition edge_cmp (a b : WorkflowEdge) : comparison :=
  match localeCompare (edge_from a) (edge_from b) with
  | Eq => localeCompare (edge_to a) (edge_to b)
  | c => c
  end.

Definition workflow_message (e : workflow_error) : string :=
  match e with WorkflowValidationError m | WorkflowTypeError m => m end.

Definition build (contract : TeamContractSnapshot) (opts : TeamWorkflowBuildOptions)
    : R TeamWorkflowBuildResult :=
  throw_if (bool_decide (sn_status contract = draft))
    (TeamContractStateError "cannot build workflow from a draft contract; start the run first") ;;
  map_err (fun e => TeamWorkflowTopologyError (error_message e))
    (validateTeamTemplate true (sn_template contract)) ;;
  let cps := sort_on cs_id (mvals (sn_checkpoints contract)) in
  let roleById := mof (map (fun role => (role_id role, role)) (roles (sn_template contract))) in
  let rewards := distributeCheckpointRewards cps (default 0 (opt_totalRewardLamports opts)) in
  tasks ← mapR (taskOf opts roleById rewards) cps;
  let dependencyType := default dep_Ordering (opt_dependencyType opts) in
  let edges := sort_by edge_cmp (concat (map (edgeOf dependencyType) cps)) in
  let definition := {|
    wf_id := default ("team-" ++ sn_id contract ++ "-workflow")%string (opt_workflowId opts);
    wf_defaultRewardMint := opt_defaultRewardMint opts; wf_tasks := tasks; wf_edges := edges |} in
  match validateWorkflow definition with
  | Err e => Err (TeamWorkflowTopologyError (workflow_message e))
  | Ok _ => Ok {|
      definition := definition;
      checkpointTaskName := foldl (fun m c => mset (cs_id c) (cs_id c) m) [] cps;
      taskRole := foldl (fun m c => mset (cs_id c) (cs_roleId c) m) [] cps |}
  end.
End Adapter.

(** * Workflows of team contracts: the adapter never fails on a running contract *)
From S2P Require Import Prelude JsMap JsString Capabilities TeamTypes TeamPayout TeamPayoutStages TeamValidation TeamValidationSpec TeamCheckpoints TeamCheckpointsSpec TeamAudit TeamEngine TeamEngineInv TeamEngineSafety TeamEngineSpec WorkflowValidation.
#[local] Open Scope Z_scope.

(** ** Rewards *)

Lemma shareOut_spec base rem cps m :
  NoDup (map cs_id cps) -> (forall c, c ∈ cps -> cs_id c ∉ mkeys m) ->
  0 <= rem <= Z.of_nat (length cps) ->
  msum (shareOut base rem cps m) = msum m + base * Z.of_nat (length cps) + rem /\
  forall k, mget (shareOut base rem cps m) k =
            mget m k \/ exists v, mget (shareOut base rem cps m) k = Some v /\ base <= v <= base + 1.
Proof.
  revert rem m. induction cps as [|c cps IH]; intros rem m Hnd Hf Hr.
  { simpl in *. split; [lia|auto]. }
  simpl in Hnd. apply NoDup_cons in Hnd as [Hc Hnd]. cbn [shareOut]. set (plus := if rem >? 0 then 1 else 0).
  assert (plus = 1 /\ (rem >? 0) = true /\ 0 < rem \/ plus = 0 /\ (rem >? 0) = false /\ rem = 0) as Hp.
  { unfold plus. destruct (Z.gtb_spec rem 0); [left|right]; split_and!; lia. }
  set (m1 := mset (cs_id c) (base + plus) m).
  assert (msum m1 = msum m + base + plus) as Hm1.
  { unfold m1. rewrite msum_mset, mget0_notin; [lia|]. apply Hf. constructor. }
  set (rem' := if rem >? 0 then rem - 1 else rem).
  destruct (IH rem' m1) as [Hs Hg]; [done| |unfold rem'; cbn [length] in Hr|].
  - intros c' Hc'. unfold m1. rewrite elem_mkeys_mset. intros [Heq|Hin].
    + apply Hc. rewrite <-Heq. by apply list_elem_of_fmap_2.
    + eapply Hf; [|exact Hin]. by constructor.
  - destruct Hp as [(_ & -> & ?)|(_ & -> & ?)]; lia.
  - split.
    + rewrite Hs, Hm1. unfold rem'. cbn [length]. destruct Hp as [(-> & -> & ?)|(-> & -> & ?)]; lia.
    + intros k. destruct (Hg k) as [Hk|?]; [|by right]. rewrite Hk. unfold m1. rewrite mget_mset.
      destruct (String.eqb k (cs_id c)); [|by left]. right. eexists. split; [done|].
      destruct Hp as [(-> & _)|(-> & _)]; lia.
Qed.

Lemma shareOut_keys base rem cps m :
  NoDup (map cs_id cps) -> (forall c, c ∈ cps -> cs_id c ∉ mkeys m) ->
  mkeys (shareOut base rem cps m) = mkeys m ++ map cs_id cps.
Proof.
  revert rem m. induction cps as [|c cps IH]; intros rem m Hnd Hf; [by rewrite app_nil_r|].
  simpl in Hnd. apply NoDup_cons in Hnd as [Hc Hnd]. cbn [shareOut].
  assert (cs_id c ∉ mkeys m) as Hcm by (apply Hf; constructor).
  assert (forall v, mkeys (mset (cs_id c) v m) = mkeys m ++ [cs_id c]) as Hk.
  { intros v. unfold mkeys. rewrite mset_fresh by done. by rewrite map_app. }
  rewrite IH; [|done|].
  - rewrite Hk, <-app_assoc. done.
  - intros c' Hc'. rewrite Hk, elem_of_app, list_elem_of_singleton. intros [Hin|Heq].
    + eapply Hf; [|exact Hin]. by constructor.
    + apply Hc. rewrite <-Heq. by apply list_elem_of_fmap_2.
Qed.

Lemma distribute_keys cps total :
  NoDup (map cs_id cps) -> mkeys (distributeCheckpointRewards cps total) = map cs_id cps.
Proof.
  intros Hnd. unfold distributeCheckpointRewards. destruct (_ || _).
  - rewrite (mset_fold_fresh cs_id (fun _ => 0) []); [|done|by intros ? _ ?%not_elem_of_nil].
    unfold mkeys. simpl. by rewrite map_map.
  - rewrite shareOut_keys; [done|done|by intros ? _ ?%not_elem_of_nil].
Qed.

Lemma zero_rewards cps k : mget0 (foldl (fun m c => mset (cs_id c) 0 m) [] cps) k = 0.
Proof.
  induction cps as [|c cps IH] using rev_ind; [done|]. rewrite foldl_snoc, mget0_mset.
  by destruct (String.eqb k (cs_id c)).
Qed.

Lemma zero_sum cps : msum (foldl (fun m c => mset (cs_id c) 0 m) [] cps) = 0.
Proof.
  induction cps as [|c cps IH] using rev_ind; [done|].
  rewrite foldl_snoc, msum_mset, IH, zero_rewards. lia.
Qed.

Lemma distribute_sum cps total :
  NoDup (map cs_id cps) -> cps <> [] -> msum (distributeCheckpointRewards cps total) = Z.max 0 total.
Proof.
  intros Hnd Hne. unfold distributeCheckpointRewards.
  destruct (Z.leb_spec total 0) as [Hle|Hgt]; simpl; [rewrite zero_sum; lia|].
  destruct cps as [|c0 cs]; [done|]. cbn [length Nat.eqb]. set (cps := c0 :: cs) in *.
  assert (0 < Z.of_nat (S (length cs))) as Hpos by lia.
  pose proof (Z.rem_bound_pos total (Z.of_nat (S (length cs))) ltac:(lia) Hpos).
  pose proof (Z.quot_rem total (Z.of_nat (S (length cs))) ltac:(lia)) as Hqr.
  destruct (shareOut_spec (Z.quot total (Z.of_nat (S (length cs)))) (Z.rem total (Z.of_nat (S (length cs))))
    cps []) as [Hs _]; [done|by intros ? _ ?%not_elem_of_nil|cbn [length cps]; lia|].
  rewrite Hs. unfold msum, mvals. cbn [length cps map sumZ foldr]. lia.
Qed.

(** The rewards of the checkpoints of a contract add up to the total
    (to nothing when it is negative), and no two of them differ by more than
    one lamport. *)
Theorem rewards_split_total (cps : list TeamCheckpointState) (total : Z) :
  NoDup (map cs_id cps) -> cps <> [] ->
  msum (distributeCheckpointRewards cps total) = Z.max 0 total /\
  exists base, forall k v, mget (distributeCheckpointRewards cps total) k = Some v ->
    base <= v <= base + 1.
Proof.
  intros Hnd Hne. split; [by apply distribute_sum|]. unfold distributeCheckpointRewards.
  destruct (_ || _) eqn:Hz.
  { exists 0. intros k v Hv. pose proof (zero_rewards cps k) as Hz0.
    unfold mget0 in Hz0. rewrite Hv in Hz0. simpl in Hz0. lia. }
  apply orb_false_iff in Hz as [Ht _]. assert (0 < Z.of_nat (length cps)) by (destruct cps; [done|simpl; lia]).
  pose proof (Z.rem_bound_pos total (Z.of_nat (length cps)) ltac:(lia) ltac:(lia)).
  eexists. intros k v Hv.
  destruct (shareOut_spec (Z.quot total (Z.of_nat (length cps))) (Z.rem total (Z.of_nat (length cps)))
    cps []) as [_ Hg]; [done|by intros ? _ ?%not_elem_of_nil|lia|].
  destruct (Hg k) as [Hk|(v' & Hk & ?)]; [by rewrite Hv in Hk|]. rewrite Hv in Hk. injection Hk as <-. done.
Qed.

(** ** The definition built *)

Section Build.
Context `{Collation}.

Lemma checkpointRecord_perm r :
  ids_ok (r_checkpoints r) -> sort_on cs_id (mvals (checkpointRecord r)) ≡ₚ mvals (r_checkpoints r).
Proof.
  intros [Hnd _]. rewrite sort_on_perm. unfold mvals.
  apply Permutation_map, mcopy_perm; [done|]. apply sort_on_perm.
Qed.

Lemma ids_vals cps : ids_ok cps -> map cs_id (mvals cps) = mkeys cps.
Proof.
  intros [Hnd Hid]. unfold mvals, mkeys. rewrite map_map. apply map_ext_in. intros [k c] Hin.
  apply Hid. apply elem_mget; [done|]. by apply list_elem_of_In.
Qed.

Lemma elem_edges dt cps e :
  e ∈ concat (map (edgeOf dt) cps) <->
  exists c d ds, c ∈ cps /\ cs_dependsOn c = d :: ds /\ d <> ""%string /\
    e = {| edge_from := d; edge_to := cs_id c; edge_dependencyType := dt |}.
Proof.
  rewrite list_elem_of_In, in_concat. setoid_rewrite in_map_iff. split.
  - intros (l & (c & <- & Hc) & He). unfold edgeOf in He.
    destruct (cs_dependsOn c) as [|d ds] eqn:Hd; [done|]. destruct d as [|a d]; [done|]. simpl in He.
    destruct He as [<-|[]]. exists c. do 2 eexists. split_and!; [by apply list_elem_of_In|done..].
  - intros (c & d & ds & Hc & Hd & Hne & ->). exists (edgeOf dt c). split.
    + exists c. split; [done|]. by apply list_elem_of_In.
    + unfold edgeOf. rewrite Hd. destruct d; [done|]. by left.
Qed.

Lemma edges_to_nodup dt cps : NoDup (map cs_id cps) -> NoDup (map edge_to (concat (map (edgeOf dt) cps))).
Proof.
  induction cps as [|c cps IH]; intros Hnd; [constructor|]. simpl in *. apply NoDup_cons in Hnd as [Hc Hnd].
  rewrite map_app. apply NoDup_app. split_and!.
  - unfold edgeOf. destruct (cs_dependsOn c); [constructor|]. destruct (isEmpty _); [constructor|apply NoDup_singleton].
  - intros x Hx Hx'. apply list_elem_of_fmap in Hx' as (e & -> & He).
    apply elem_edges in He as (c' & d & ds & Hc' & _ & _ & ->). simpl in Hx.
    assert (cs_id c' = cs_id c) as Heq.
    { unfold edgeOf in Hx. destruct (cs_dependsOn c); [by apply not_elem_of_nil in Hx|].
      destruct (isEmpty _); [by apply not_elem_of_nil in Hx|]. by apply list_elem_of_singleton in Hx. }
    apply Hc. rewrite <-Heq. by apply list_elem_of_fmap_2.
  - by apply IH.
Qed.

Section Contract.
Context (r : TeamContractRecord) (Hi : rec_inv true r).

Lemma contract_ids : ids_ok (r_checkpoints r).
Proof. exact (co_ids _ _ _ (vt_cp_ids _ _ (ri_valid _ _ Hi)) (ri_checkpoints _ _ Hi)). Qed.

(** A dependency of a checkpoint is a non-empty id of another checkpoint, and
    it is the only one. *)
Lemma contract_dependency c d ds :
  c ∈ mvals (r_checkpoints r) -> cs_dependsOn c = d :: ds ->
  d ∈ mkeys (r_checkpoints r) /\ d <> cs_id c /\ ds = [] /\ d <> ""%string.
Proof.
  intros Hc Hd. destruct contract_ids as [Hnd Hid]. apply elem_mvals in Hc as [k Hk]; [|done].
  destruct (static_template _ _ _ _ _ (ri_checkpoints _ _ Hi) Hk) as (cp & Hcp & Hcpk & Hst).
  pose proof (vt_cps _ _ (ri_valid _ _ Hi)) as Hv. rewrite Forall_forall in Hv.
  destruct (Hv cp Hcp) as (_ & _ & Hdep & Hlen).
  assert (deps cp = d :: ds) as Hds by (unfold static in Hst; simpl in Hst; unfold deps; congruence).
  destruct (Hdep d) as [Hne Hin]; [rewrite Hds; constructor|].
  rewrite <-(co_keys _ _ _ (ri_checkpoints _ _ Hi)) in Hin. split; [done|]. split.
  { rewrite (Hid _ _ Hk), <-Hcpk. done. }
  split.
  { specialize (Hlen eq_refl). rewrite Hds in Hlen. destruct ds; [done|]. simpl in Hlen. lia. }
  rewrite (co_keys _ _ _ (ri_checkpoints _ _ Hi)) in Hin. apply list_elem_of_fmap in Hin as (cd & -> & Hcd).
  destruct (nt_checkpoints _ (ri_normal _ _ Hi)) as [Hn _]. rewrite Forall_forall in Hn.
  destruct (Hn cd Hcd) as [Hval _]. by apply valid_id_chars in Hval as [_ ?].
Qed.

Lemma contract_role c : c ∈ mvals (r_checkpoints r) ->
  exists role, role ∈ roles (r_template r) /\ role_id role = cs_roleId c.
Proof.
  intros Hc. destruct contract_ids as [Hnd Hid]. apply elem_mvals in Hc as [k Hk]; [|done].
  destruct (static_template _ _ _ _ _ (ri_checkpoints _ _ Hi) Hk) as (cp & Hcp & _ & Hst).
  pose proof (vt_cps _ _ (ri_valid _ _ Hi)) as Hv. rewrite Forall_forall in Hv.
  destruct (Hv cp Hcp) as (Hr & _). apply list_elem_of_fmap in Hr as (role & Heq & Hin).
  exists role. split; [done|]. unfold static in Hst. simpl in Hst. congruence.
Qed.

Lemma tasks_total opts rewards cps :
  (forall c, c ∈ cps -> c ∈ mvals (r_checkpoints r)) ->
  exists tasks, mapR (taskOf opts (mof (map (fun role => (role_id role, role)) (roles (r_template r)))) rewards)
      cps = Ok tasks /\
    map task_name tasks = map cs_id cps /\
    map task_rewardAmount tasks = map (fun c => default 0 (mget rewards (cs_id c))) cps.
Proof.
  induction cps as [|c cps IH]; intros Hin; [by exists []|].
  destruct IH as (ts & HM & Hn & Hr); [intros; apply Hin; by constructor|].
  destruct (contract_role c) as (role & Hrole & Hid); [apply Hin; constructor|].
  set (roleById := mof _) in *.
  assert (mget roleById (cs_roleId c) = Some role) as Hget.
  { assert (NoDup (mkeys (map (fun role => (role_id role, role)) (roles (r_template r))))) as Hnd.
    { unfold mkeys. rewrite map_map. exact (vt_role_ids _ _ (ri_valid _ _ Hi)). }
    unfold roleById. rewrite mof_id by done. apply elem_mget; [done|]. rewrite <-Hid.
    by apply (list_elem_of_fmap_2 (fun role => (role_id role, role))). }
  assert (exists t, taskOf opts roleById rewards c = Ok t /\ task_name t = cs_id c /\
    task_rewardAmount t = default 0 (mget rewards (cs_id c))) as (t & Ht & Htn & Htr).
  { unfold taskOf. rewrite Hget. eexists. split_and!; reflexivity. }
  exists (t :: ts). cbn [mapR map]. rewrite Ht. unfold mbind, result_bind. rewrite HM.
  split_and!; [done|by rewrite Hn, Htn|by rewrite Hr, Htr].
Qed.

(** The edges built are exactly the dependencies. *)
Lemma edges_depend dt cps u v :
  cps ≡ₚ mvals (r_checkpoints r) ->
  wedge (sort_by edge_cmp (concat (map (edgeOf dt) cps))) u v <-> depends (r_checkpoints r) u v.
Proof.
  intros Hp. destruct contract_ids as [Hnd Hid]. unfold wedge, depends, dependsb. split.
  - intros (e & He & <- & <-). rewrite sort_by_elem_of in He.
    apply elem_edges in He as (c & d & ds & Hc & Hd & _ & ->). simpl. rewrite Hp in Hc.
    apply elem_mvals in Hc as [k Hk]; [|done]. rewrite (Hid _ _ Hk), Hk. apply has_true. rewrite Hd. constructor.
  - destruct (mget (r_checkpoints r) v) as [c|] eqn:Hc; [|done]. intros Hu%has_true.
    apply mget_mvals in Hc as Hv. destruct (cs_dependsOn c) as [|d ds] eqn:Hd; [by apply not_elem_of_nil in Hu|].
    destruct (contract_dependency c d ds Hv Hd) as (_ & _ & -> & Hne).
    apply list_elem_of_singleton in Hu as ->.
    exists {| edge_from := d; edge_to := cs_id c; edge_dependencyType := dt |}.
    split; [|split; [reflexivity|exact (Hid _ _ Hc)]].
    apply sort_by_elem_of, elem_edges. exists c, d, []. rewrite Hp. split_and!; try done.
Qed.

Lemma built_valid opts tasks cps :
  cps ≡ₚ mvals (r_checkpoints r) -> map task_name tasks = map cs_id cps ->
  default dep_Ordering (opt_dependencyType opts) ∈ [dep_Data; dep_Ordering; dep_Proof] ->
  forall wid mint, valid_workflow {| wf_id := wid; wf_defaultRewardMint := mint; wf_tasks := tasks;
    wf_edges := sort_by edge_cmp
      (concat (map (edgeOf (default dep_Ordering (opt_dependencyType opts))) cps)) |}.
Proof.
  intros Hp Hn Hdt wid mint. set (dt := default dep_Ordering _) in *.
  pose proof contract_ids as Hids. destruct Hids as [Hnd Hid].
  assert (map cs_id cps ≡ₚ mkeys (r_checkpoints r)) as Hpk
    by (by rewrite Hp, (ids_vals _ contract_ids)).
  assert (forall n, n ∈ map task_name tasks <-> n ∈ mkeys (r_checkpoints r)) as Hnames
    by (intros n; by rewrite Hn, Hpk).
  split; unfold names_of; simpl.
  - intros ->. simpl in Hn. destruct cps; [|done]. apply Permutation_nil_l in Hpk.
    rewrite (co_keys _ _ _ (ri_checkpoints _ _ Hi)) in Hpk.
    apply (vt_checkpoints _ _ (ri_valid _ _ Hi)). by destruct (checkpoints (r_template r)).
  - apply Forall_forall. intros t Ht. assert (task_name t ∈ map task_name tasks) as Hin by (by apply list_elem_of_fmap_2).
    apply Hnames in Hin. rewrite (co_keys _ _ _ (ri_checkpoints _ _ Hi)) in Hin.
    apply list_elem_of_fmap in Hin as (cp & Heq & Hcp). rewrite Heq.
    destruct (nt_checkpoints _ (ri_normal _ _ Hi)) as [Hnc _]. rewrite Forall_forall in Hnc.
    destruct (Hnc cp Hcp) as [Hval _]. apply valid_id_chars in Hval as [Hch Hne]. intros E.
    apply canonicalize_id in Hch. unfold canonicalizeTeamId in Hch. rewrite E in Hch. by rewrite <-Hch in Hne.
  - by rewrite Hn, Hpk.
  - apply Forall_forall. intros e He. apply sort_by_elem_of, elem_edges in He
      as (c & d & ds & Hc & Hd & Hne & ->). unfold edge_ok. simpl. rewrite !Hnames.
    rewrite Hp in Hc. destruct (contract_dependency c d ds Hc Hd) as (Hk & Hdc & _).
    split_and!; [done| |done|].
    + rewrite <-(ids_vals _ contract_ids). by apply list_elem_of_fmap_2.
    + set_solver.
  - rewrite sort_by_perm. apply edges_to_nodup. by rewrite Hpk.
  - intros x Hx. apply (vt_acyclic _ _ (ri_valid _ _ Hi) x). revert Hx. apply (tc_congruence id).
    intros u v Huv. apply (edges_depend dt cps u v Hp) in Huv. by eapply depends_edge; [apply Hi|].
Qed.

Lemma build_contract opts :
  r_status r <> draft ->
  default dep_Ordering (opt_dependencyType opts) ∈ [dep_Data; dep_Ordering; dep_Proof] ->
  exists res, build (toSnapshot r) opts = Ok res /\ valid_workflow (definition res) /\
    names_of (definition res) ≡ₚ mkeys (r_checkpoints r) /\
    (forall u v, wedge (wf_edges (definition res)) u v <-> depends (r_checkpoints r) u v) /\
    sumZ (map task_rewardAmount (wf_tasks (definition res))) =
      Z.max 0 (default 0 (opt_totalRewardLamports opts)).
Proof.
  intros Hs Hdt. unfold build. simpl. rewrite bool_decide_false by done.
  rewrite (proj2 (validate_valid true (r_template r)) (ri_valid _ _ Hi)).
  unfold mbind, result_bind. cbn [throw_if map_err].
  set (cps := sort_on cs_id (mvals (checkpointRecord r))).
  assert (cps ≡ₚ mvals (r_checkpoints r)) as Hp by apply checkpointRecord_perm, contract_ids.
  set (rewards := distributeCheckpointRewards cps (default 0 (opt_totalRewardLamports opts))).
  destruct (tasks_total opts rewards cps) as (tasks & -> & Hn & Hr); [intros c; by rewrite Hp|].
  pose proof (built_valid opts tasks cps Hp Hn Hdt) as Hv. set (edges := sort_by edge_cmp _) in *.
  rewrite (proj2 (validateWorkflow_valid _) (Hv _ _)). eexists. split; [reflexivity|]. simpl.
  assert (map cs_id cps ≡ₚ mkeys (r_checkpoints r)) as Hpk
    by (by rewrite Hp, (ids_vals _ contract_ids)).
  assert (NoDup (map cs_id cps)) as Hnd by (rewrite Hpk; apply contract_ids).
  split_and!; [apply Hv|unfold names_of; simpl; by rewrite Hn|intros u v; by apply edges_depend|].
  rewrite Hr. assert (cps <> []) as Hne.
  { intros E. rewrite E in Hpk. apply Permutation_nil_l in Hpk.
    rewrite (co_keys _ _ _ (ri_checkpoints _ _ Hi)) in Hpk.
    apply (vt_checkpoints _ _ (ri_valid _ _ Hi)). by destruct (checkpoints (r_template r)). }
  rewrite <-(distribute_sum cps _ Hnd Hne). fold rewards. rewrite msum_keys.
  - unfold rewards. rewrite (distribute_keys cps _ Hnd), map_map. done.
  - unfold rewards. by rewrite (distribute_keys cps _ Hnd).
Qed.
End Contract.

(** From any contract an engine with single-parent topology has started,
    [build] succeeds (for an on-chain dependency type): the definition is one
    that [validateWorkflow] accepts, its tasks are the checkpoints, its edges
    exactly the dependencies, and the task rewards add up to the total. *)
Theorem build_running_contract {St} `{!TeamAuditStore St} `{!TeamAuditStoreLaws St}
    (cfg : EngineConfig St) (s : Engine St) id r opts :
  hooks_ok cfg -> reachable cfg s -> requireSingleParentTopology cfg = true ->
  mget (contracts s) id = Some r -> r_status r <> draft ->
  default dep_Ordering (opt_dependencyType opts) ∈ [dep_Data; dep_Ordering; dep_Proof] ->
  exists res, build (toSnapshot r) opts = Ok res /\ valid_workflow (definition res) /\
    names_of (definition res) ≡ₚ mkeys (r_checkpoints r) /\
    (forall u v, wedge (wf_edges (definition res)) u v <-> depends (r_checkpoints r) u v) /\
    sumZ (map task_rewardAmount (wf_tasks (definition res))) =
      Z.max 0 (default 0 (opt_totalRewardLamports opts)).
Proof.
  intros Hh Hre Hsp Hg Hst Hdt. destruct (reachable_record cfg s id r Hh Hre Hg) as [_ Hi].
  rewrite Hsp in Hi. by apply build_contract.
Qed.
End Build.

(** ** Witnesses *)

Lemma rewards_split_total_witness :
  msum (distributeCheckpointRewards (mvals (r_checkpoints (record_of (ex_run ex_staff)))) 7) = 7.
Proof.
  apply (rewards_split_total (mvals (r_checkpoints (record_of (ex_run ex_staff)))) 7).
  - apply (bool_decide_unpack _). vm_compute. exact I.
  - vm_compute. discriminate.
Defined.

Definition ex_options : TeamWorkflowBuildOptions :=
  Build_TeamWorkflowBuildOptions None None None None None None (Some 7).

Lemma build_running_contract_witness :
  exists res, build (toSnapshot (record_of (ex_run ex_staff))) ex_options = Ok res /\
    valid_workflow (definition res).
Proof.
  destruct (build_running_contract ex_cfg (ex_run ex_staff) "job" (record_of (ex_run ex_staff)) ex_options
    ex_hooks_ok (ex_run_reachable ex_staff)) as (res & Hb & Hv & _).
  - reflexivity.
  - vm_compute. reflexivity.
  - vm_compute. discriminate.
  - apply (bool_decide_unpack _). vm_compute. exact I.
  - exists res. split; [exact Hb|exact Hv].
Defined.
