(* ===== verification/RollingWindow.v ===== *)
(** * Rolling windows

    Lists of timed samples, the contract of a budget over a rolling window, and
    the proof that a bucket which is pruned to the window on every use still
    enforces it over every window. The policy engine and the budget state
    service keep such buckets. *)
From S2P Require Import Prelude.
#[local] Open Scope Z_scope.

(** The samples of a bucket (time, amount) from [cutoff] on, and their total. *)
Definition inWindow (cutoff : Z) (bucket : list (Z * Z)) : list (Z * Z) :=
  List.filter (fun event => cutoff <=? event.1) bucket.
Definition totalOf (bucket : list (Z * Z)) : Z := foldl (fun sum event => sum + event.2) 0 bucket.

Lemma totalOf_cons e l : totalOf (e :: l) = e.2 + totalOf l.
Proof.
  unfold totalOf. simpl. generalize e.2. intros z.
  cut (forall a b, foldl (fun sum (ev : Z * Z) => sum + ev.2) (a + b) l =
                   a + foldl (fun sum (ev : Z * Z) => sum + ev.2) b l).
  { intros Hc. replace (0 + z) with (z + 0) by lia. apply Hc. }
  induction l as [|x l IH]; intros a b; simpl; [done|]. rewrite <-IH. f_equal. lia.
Qed.

Lemma totalOf_app l l' : totalOf (l ++ l') = totalOf l + totalOf l'.
Proof. induction l as [|e l IH]; [done|]. rewrite <-app_comm_cons, !totalOf_cons, IH. lia. Qed.

Definition nonneg_amounts (l : list (Z * Z)) : Prop := Forall (fun e => 0 <= e.2) l.

Lemma nonneg_filter p l : nonneg_amounts l -> nonneg_amounts (List.filter p l).
Proof. induction 1 as [|e l He _ IH]; simpl; [constructor|]. destruct (p e); [by constructor|done]. Qed.

Lemma totalOf_nonneg l : nonneg_amounts l -> 0 <= totalOf l.
Proof. induction 1 as [|e l He _ IH]; [done|]. rewrite totalOf_cons. lia. Qed.

(** A filter that keeps less has a smaller total. *)
Lemma totalOf_filter_le (p q : Z * Z -> bool) l :
  nonneg_amounts l -> (forall e, e ∈ l -> p e = true -> q e = true) ->
  totalOf (List.filter p l) <= totalOf (List.filter q l).
Proof.
  induction 1 as [|e l He Hl IH]; intros Hpq; [done|]. simpl.
  assert (totalOf (List.filter p l) <= totalOf (List.filter q l)) as IH'.
  { apply IH. intros x Hx. apply Hpq. by constructor. }
  specialize (Hpq e ltac:(constructor)).
  destruct (p e), (q e); rewrite ?totalOf_cons; try lia.
Qed.

(** The amount of the history [H] inside the window of length [w] that ends at [τ]. *)
Definition spentIn (w τ : Z) (H : list (Z * Z)) : Z :=
  totalOf (List.filter (fun e => (τ - w <=? e.1) && (e.1 <=? τ)) H).

(** The contract of a rolling budget: no window holds more than the limit. *)
Definition within (limit w : Z) (H : list (Z * Z)) : Prop :=
  forall τ, spentIn w τ H <= Z.max 0 limit.

(** The bucket [B] kept of the history [H] at time [T]: nothing that a window
    ending at [T] or later can see is missing. *)
Record tracks (w : Z) (H B : list (Z * Z)) (T : Z) : Prop := {
  tr_past : Forall (fun e => e.1 <= T) H;
  tr_nonneg : nonneg_amounts H;
  tr_bucket : exists c, c <= T - w /\ B = inWindow c H;
}.

Lemma inWindow_inWindow c c' l : c <= c' -> inWindow c' (inWindow c l) = inWindow c' l.
Proof.
  intros Hc. unfold inWindow. induction l as [|e l IH]; simpl; [done|].
  destruct (Z.leb_spec c e.1), (Z.leb_spec c' e.1); simpl; rewrite ?IH; try done; try lia.
  - destruct (Z.leb_spec c' e.1); [done|lia].
  - destruct (Z.leb_spec c' e.1); [lia|done].
Qed.

Lemma tracks_later w H B T T' : T <= T' -> tracks w H B T -> tracks w H B T'.
Proof.
  intros Hle [H1 H2 (c & Hc & ->)]. split; [|done|exists c; split; [lia|done]].
  eapply Forall_impl; [exact H1|]. simpl. lia.
Qed.

Lemma tracks_recent w H B T : tracks w H B T -> inWindow (T - w) B = inWindow (T - w) H.
Proof. intros [_ _ (c & Hc & ->)]. by apply inWindow_inWindow. Qed.

Lemma tracks_prune w H B T : tracks w H B T -> tracks w H (inWindow (T - w) B) T.
Proof.
  intros Ht. rewrite (tracks_recent _ _ _ _ Ht). destruct Ht as [H1 H2 _]. split; [done|done|].
  exists (T - w). split; [lia|done].
Qed.

Lemma inWindow_snoc c l t amt : c <= t -> inWindow c (l ++ [(t, amt)]) = inWindow c l ++ [(t, amt)].
Proof.
  intros Hc. unfold inWindow. rewrite List.filter_app. simpl. by rewrite (proj2 (Z.leb_le c t)).
Qed.

Lemma tracks_charge w H B T amt :
  0 <= w -> 0 <= amt -> tracks w H B T -> tracks w (H ++ [(T, amt)]) (inWindow (T - w) B ++ [(T, amt)]) T.
Proof.
  intros Hw Ha Ht. rewrite (tracks_recent _ _ _ _ Ht). destruct Ht as [H1 H2 _]. split.
  - apply Forall_app. split; [done|]. repeat constructor. simpl. lia.
  - apply Forall_app. split; [done|]. repeat constructor. done.
  - exists (T - w). split; [lia|]. rewrite inWindow_snoc; [done|lia].
Qed.

(** Charging what the current window still allows keeps every window within
    the limit. *)
Lemma within_snoc limit w H T amt :
  nonneg_amounts H -> totalOf (inWindow (T - w) H) + amt <= limit ->
  within limit w H -> within limit w (H ++ [(T, amt)]).
Proof.
  intros H2 Hle HW τ. unfold spentIn. rewrite List.filter_app, totalOf_app.
  specialize (HW τ). unfold spentIn in HW. simpl.
  destruct (Z.leb_spec T τ) as [HTτ|HTτ]; cbn [andb].
  2: { rewrite andb_false_r. simpl. unfold totalOf at 2. simpl. lia. }
  destruct (Z.leb_spec (τ - w) T) as [Hw|Hw]; cbn [andb].
  - rewrite totalOf_cons. unfold totalOf at 2. simpl.
    assert (totalOf (List.filter (fun e => (τ - w <=? e.1) && (e.1 <=? τ)) H) <= totalOf (inWindow (T - w) H)).
    { apply totalOf_filter_le; [done|]. intros e _ [Ha Hb]%andb_true_iff. lia. }
    lia.
  - unfold totalOf at 2. simpl. lia.
Qed.

(** Charging what the pruned bucket still allows keeps every window within the limit. *)
Lemma within_charge limit w H B T amt :
  tracks w H B T -> totalOf (inWindow (T - w) B) + amt <= limit ->
  within limit w H -> within limit w (H ++ [(T, amt)]).
Proof.
  intros Ht Hle. rewrite (tracks_recent _ _ _ _ Ht) in Hle. apply within_snoc; [apply Ht|done].
Qed.

Lemma within_nil limit w : within limit w [].
Proof. intros τ. unfold spentIn, totalOf. simpl. lia. Qed.
