(* ===== verification/PolicyTypes.v ===== *)
(** * Policy data and bundles (src/runtime/src/policy/types.ts, bundles.ts)

    The actions the policy engine judges, its rules, and its decisions.
    Timestamps, windows, limits and token counts are finite numbers kept as
    [Z]; a risk score is a finite double, an integer multiple of 2^-1074, and is
    kept as that multiple, since the code only compares risk scores. Token counts
    and times are integers, and their sums and differences are taken to be
    exact. Fields of [RuntimePolicyConfig] that the engine does not read
    (simulationMode, audit, credentialCatalog) are left out. *)
From S2P Require Import Prelude JsMap JsString.
#[local] Open Scope Z_scope.

Inductive PolicyActionType :=
| tool_call | task_discovery | task_claim | task_execution | tx_submission | custom.

Definition type_name (t : PolicyActionType) : string :=
  match t with
  | tool_call => "tool_call" | task_discovery => "task_discovery" | task_claim => "task_claim"
  | task_execution => "task_execution" | tx_submission => "tx_submission" | custom => "custom"
  end.

Inductive PolicyAccess := read | write.

Inductive PolicyClass :=
| read_only | reversible_side_effect | destructive_side_effect
| irreversible_financial_action | credential_secret_access.

Definition class_name (c : PolicyClass) : string :=
  match c with
  | read_only => "read_only"
  | reversible_side_effect => "reversible_side_effect"
  | destructive_side_effect => "destructive_side_effect"
  | irreversible_financial_action => "irreversible_financial_action"
  | credential_secret_access => "credential_secret_access"
  end.

Inductive CircuitBreakerMode := normal | pause_discovery | halt_submissions | safe_mode.

#[export] Instance PolicyActionType_eq_dec : EqDecision PolicyActionType.
Proof. solve_decision. Defined.
#[export] Instance PolicyAccess_eq_dec : EqDecision PolicyAccess.
Proof. solve_decision. Defined.
#[export] Instance CircuitBreakerMode_eq_dec : EqDecision CircuitBreakerMode.
Proof. solve_decision. Defined.

(** The labels of the evaluation scopes. *)
Inductive Scope := sc_global | sc_tenant | sc_project | sc_run.

#[export] Instance Scope_eq_dec : EqDecision Scope.
Proof. solve_decision. Defined.

Record PolicyEvaluationScope := {
  tenantId : option string;
  projectId : option string;
  runId : option string;
}.

(** An element of an untyped metadata array: a string or something else. *)
Inductive metaValue := MStr (s : string) | MOther.

Record PolicyAction := {
  a_type : PolicyActionType;
  a_name : string;
  a_access : PolicyAccess;
  a_policyClass : option PolicyClass;
  a_riskScore : option Z;
  a_spendLamports : option Z;
  a_tokenCount : option Z;
  a_elapsedRuntimeMs : option Z;
  a_elapsedRuntimeMsByScope : Scope -> option Z;
  a_processCount : option Z;
  a_processCountByScope : Scope -> option Z;
  a_scope : option PolicyEvaluationScope;
  a_networkHosts : option (list metaValue);
  a_writePaths : option (list metaValue);
}.

(** [PolicyBudgetRule], [SpendBudgetRule], [TokenBudgetRule]: a limit over a
    rolling window. *)
Record BudgetRule := { limit : Z; windowMs : Z }.

Record RuntimeBudgetRule := { maxElapsedMs : Z }.
Record ProcessBudgetRule := { maxConcurrent : Z }.

Record NetworkAccessRule := {
  allowHosts : option (list string);
  denyHosts : option (list string);
}.

Record WriteScopeRule := {
  allowRoots : option (list string);
  denyRoots : option (list string);
}.

Record PolicyClassRule := {
  class_deny : option bool;
  class_maxRiskScore : option Z;
}.

(** [ScopedXxxBudgetRules]. *)
Record Scoped (A : Type) := {
  s_tenant : option A;
  s_project : option A;
  s_run : option A;
}.
Arguments Build_Scoped {A}.
Arguments s_tenant {A}.
Arguments s_project {A}.
Arguments s_run {A}.

Record CircuitBreakerConfig := {
  cb_enabled : option bool;
  cb_threshold : Z;
  cb_windowMs : Z;
  cb_mode : CircuitBreakerMode;
}.

Record RuntimePolicyBundleConfig := {
  enabled : option bool;
  allowActions : option (list string);
  denyActions : option (list string);
  toolAllowList : option (list string);
  toolDenyList : option (list string);
  credentialAllowList : option (list string);
  networkAccess : option NetworkAccessRule;
  writeScope : option WriteScopeRule;
  actionBudgets : option (jsmap BudgetRule);
  spendBudget : option BudgetRule;
  tokenBudget : option BudgetRule;
  runtimeBudget : option RuntimeBudgetRule;
  processBudget : option ProcessBudgetRule;
  scopedActionBudgets : option (Scoped (jsmap BudgetRule));
  scopedSpendBudgets : option (Scoped BudgetRule);
  scopedTokenBudgets : option (Scoped BudgetRule);
  scopedRuntimeBudgets : option (Scoped RuntimeBudgetRule);
  scopedProcessBudgets : option (Scoped ProcessBudgetRule);
  maxRiskScore : option Z;
  policyClassRules : option (jsmap PolicyClassRule);
  circuitBreaker : option CircuitBreakerConfig;
}.

(** The bundle [{}]. *)
Definition emptyBundle : RuntimePolicyBundleConfig :=
  Build_RuntimePolicyBundleConfig None None None None None None None None None None None None None
    None None None None None None None None.

(** [interface RuntimePolicyConfig extends RuntimePolicyBundleConfig]. *)
Record RuntimePolicyConfig := {
  bundle : RuntimePolicyBundleConfig;
  defaultTenantId : option string;
  defaultProjectId : option string;
  tenantBundles : option (jsmap RuntimePolicyBundleConfig);
  projectBundles : option (jsmap RuntimePolicyBundleConfig);
}.

Inductive ViolationCode :=
| circuit_breaker_active | tool_denied | action_denied | action_budget_exceeded
| spend_budget_exceeded | token_budget_exceeded | runtime_budget_exceeded
| process_budget_exceeded | risk_threshold_exceeded | policy_class_denied
| policy_class_risk_exceeded | network_access_denied | write_scope_denied.

Inductive ViolationDetails :=
| NoDetails
| ClassDetails (c : PolicyClass)
| ClassRiskDetails (c : PolicyClass) (max score : Z)
| RiskDetails (max score : Z)
| HostDetails (host : string)
| PathDetails (path : string)
| BudgetDetails (scope : Scope) (scopeValue : option string) (limit windowMs observed : Z)
| AmountDetails (scope : Scope) (scopeValue : option string) (limit current attempted : Z)
| SampleDetails (scope : Scope) (scopeValue : option string) (max observed : Z).

Record PolicyViolation := {
  v_code : ViolationCode;
  v_message : string;
  v_actionType : PolicyActionType;
  v_actionName : string;
  v_details : ViolationDetails;
}.

Record PolicyDecision := {
  d_allowed : bool;
  d_mode : CircuitBreakerMode;
  d_violations : list PolicyViolation;
}.

Record PolicyEngineState := {
  ps_mode : CircuitBreakerMode;
  ps_circuitBreakerReason : option string;
  ps_trippedAtMs : option Z;
  ps_recentViolations : nat;
}.

(** ** Policy bundles (bundles.ts)

    Merging a base bundle with a tenant or project overlay, and the policy in
    force for an evaluation scope. Copies of immutable rules are the rules
    themselves. *)

Definition intersectOptionalLists (current next : option (list string)) : option (list string) :=
  match current with
  | None | Some [] => next
  | Some c =>
      match next with
      | None | Some [] => Some c
      | Some n => Some (List.filter (fun value => has n value) c)
      end
  end.

(** [Array.from(new Set(l))]. *)
Definition dedupe (l : list string) : list string :=
  foldl (fun seen x => if has seen x then seen else seen ++ [x]) [] l.

Definition unionOptionalLists (current next : option (list string)) : option (list string) :=
  match current, next with
  | None, None => None
  | _, _ => Some (dedupe (default [] current ++ default [] next))
  end.

(** [current?.field] *)
Definition field {A B} (f : A -> option B) (o : option A) : option B := o ≫= f.

Definition mergeNetworkAccess (current next : option NetworkAccessRule) : option NetworkAccessRule :=
  match current, next with
  | None, None => None
  | _, _ => Some {|
      allowHosts := intersectOptionalLists (field allowHosts current) (field allowHosts next);
      denyHosts := unionOptionalLists (field denyHosts current) (field denyHosts next) |}
  end.

Definition mergeWriteScope (current next : option WriteScopeRule) : option WriteScopeRule :=
  match current, next with
  | None, None => None
  | _, _ => Some {|
      allowRoots := intersectOptionalLists (field allowRoots current) (field allowRoots next);
      denyRoots := unionOptionalLists (field denyRoots current) (field denyRoots next) |}
  end.

(** [mergeBudgetRule], [mergeSpendBudgetRule] and [mergeTokenBudgetRule] are
    this function at the three kinds of limit. *)
Definition mergeBudgetRule (current next : option BudgetRule) : option BudgetRule :=
  match current, next with
  | None, _ => next
  | _, None => current
  | Some c, Some n => Some {| limit := Z.min (limit c) (limit n);
                              windowMs := Z.max (windowMs c) (windowMs n) |}
  end.

Definition mergeRuntimeBudgetRule (current next : option RuntimeBudgetRule) : option RuntimeBudgetRule :=
  match current, next with
  | None, _ => next
  | _, None => current
  | Some c, Some n => Some {| maxElapsedMs := Z.min (maxElapsedMs c) (maxElapsedMs n) |}
  end.

Definition mergeProcessBudgetRule (current next : option ProcessBudgetRule) : option ProcessBudgetRule :=
  match current, next with
  | None, _ => next
  | _, None => current
  | Some c, Some n => Some {| maxConcurrent := Z.min (maxConcurrent c) (maxConcurrent n) |}
  end.

Definition mergeBudgetMaps (current next : option (jsmap BudgetRule)) : option (jsmap BudgetRule) :=
  match current, next with
  | None, None => None
  | _, _ =>
      let merged := foldl (fun m kv => mset kv.1 kv.2 m) [] (default [] current) in
      Some (foldl (fun m kv =>
              match mergeBudgetRule (mget m kv.1) (Some kv.2) with
              | Some rule => mset kv.1 rule m
              | None => m
              end) merged (default [] next))
  end.

(** [x === undefined ? y : y === undefined ? x : Math.min(x, y)]. *)
Definition minOptional (x y : option Z) : option Z :=
  match x, y with
  | None, _ => y
  | _, None => x
  | Some a, Some b => Some (Z.min a b)
  end.

(** [Boolean(x)] of an optional flag. *)
Definition truthy (b : option bool) : bool := default false b.

Definition mergeClassRule (existing incoming : option PolicyClassRule) : PolicyClassRule :=
  {| class_deny := Some (truthy (field class_deny existing) || truthy (field class_deny incoming));
     class_maxRiskScore :=
       minOptional (field class_maxRiskScore existing) (field class_maxRiskScore incoming) |}.

Definition mergePolicyClassRules (current next : option (jsmap PolicyClassRule))
    : option (jsmap PolicyClassRule) :=
  match current, next with
  | None, None => None
  | _, _ =>
      let keys := dedupe (mkeys (default [] current) ++ mkeys (default [] next)) in
      Some (foldl (fun merged key =>
              let existing := mget (default [] current) key in
              let incoming := mget (default [] next) key in
              match existing, incoming with
              | None, None => merged
              | _, _ => mset key (mergeClassRule existing incoming) merged
              end) [] keys)
  end.

(** The five functions [mergeScopedXxxBudgets]. *)
Definition mergeScoped {A} (merge : option A -> option A -> option A) (current next : option (Scoped A))
    : option (Scoped A) :=
  match current, next with
  | None, None => None
  | _, _ => Some {|
      s_tenant := merge (field s_tenant current) (field s_tenant next);
      s_project := merge (field s_project current) (field s_project next);
      s_run := merge (field s_run current) (field s_run next) |}
  end.

Definition mergeScopedActionBudgets := mergeScoped mergeBudgetMaps.
Definition mergeScopedSpendBudgets := mergeScoped mergeBudgetRule.
Definition mergeScopedTokenBudgets := mergeScoped mergeBudgetRule.
Definition mergeScopedRuntimeBudgets := mergeScoped mergeRuntimeBudgetRule.
Definition mergeScopedProcessBudgets := mergeScoped mergeProcessBudgetRule.

Definition mergePolicyBundles (base overlay : option RuntimePolicyBundleConfig)
    : RuntimePolicyBundleConfig :=
  let b := default emptyBundle base in
  let o := default emptyBundle overlay in
  {| enabled := Some (truthy (enabled b) || truthy (enabled o));
     allowActions := intersectOptionalLists (allowActions b) (allowActions o);
     denyActions := unionOptionalLists (denyActions b) (denyActions o);
     toolAllowList := intersectOptionalLists (toolAllowList b) (toolAllowList o);
     toolDenyList := unionOptionalLists (toolDenyList b) (toolDenyList o);
     credentialAllowList := intersectOptionalLists (credentialAllowList b) (credentialAllowList o);
     networkAccess := mergeNetworkAccess (networkAccess b) (networkAccess o);
     writeScope := mergeWriteScope (writeScope b) (writeScope o);
     actionBudgets := mergeBudgetMaps (actionBudgets b) (actionBudgets o);
     spendBudget := mergeBudgetRule (spendBudget b) (spendBudget o);
     tokenBudget := mergeBudgetRule (tokenBudget b) (tokenBudget o);
     runtimeBudget := mergeRuntimeBudgetRule (runtimeBudget b) (runtimeBudget o);
     processBudget := mergeProcessBudgetRule (processBudget b) (processBudget o);
     scopedActionBudgets := mergeScopedActionBudgets (scopedActionBudgets b) (scopedActionBudgets o);
     scopedSpendBudgets := mergeScopedSpendBudgets (scopedSpendBudgets b) (scopedSpendBudgets o);
     scopedTokenBudgets := mergeScopedTokenBudgets (scopedTokenBudgets b) (scopedTokenBudgets o);
     scopedRuntimeBudgets := mergeScopedRuntimeBudgets (scopedRuntimeBudgets b) (scopedRuntimeBudgets o);
     scopedProcessBudgets := mergeScopedProcessBudgets (scopedProcessBudgets b) (scopedProcessBudgets o);
     maxRiskScore := minOptional (maxRiskScore b) (maxRiskScore o);
     policyClassRules := mergePolicyClassRules (policyClassRules b) (policyClassRules o);
     circuitBreaker := match circuitBreaker o with Some c => Some c | None => circuitBreaker b end |}.

Record ResolvedPolicyContext := {
  rc_tenantId : option string;
  rc_projectId : option string;
  rc_policy : RuntimePolicyBundleConfig;
}.

(** A string that is present and not empty. *)
Definition nonEmpty (s : option string) : option string :=
  match s with Some s' => if isEmpty s' then None else Some s' | None => None end.

(** [a ?? b] *)
Definition coalesce {A} (a b : option A) : option A := match a with Some _ => a | None => b end.

(** The callers always pass a policy. *)
Definition resolvePolicyContext (policy : RuntimePolicyConfig) (scope : option PolicyEvaluationScope)
    : ResolvedPolicyContext :=
  let tenant := coalesce (field tenantId scope) (defaultTenantId policy) in
  let project := coalesce (field projectId scope) (defaultProjectId policy) in
  let resolved := mergePolicyBundles (Some (bundle policy)) None in
  let resolved :=
    match nonEmpty tenant with
    | Some t => mergePolicyBundles (Some resolved) (tenantBundles policy ≫= fun m => mget m t)
    | None => resolved
    end in
  let resolved :=
    match nonEmpty project with
    | Some p => mergePolicyBundles (Some resolved) (projectBundles policy ≫= fun m => mget m p)
    | None => resolved
    end in
  {| rc_tenantId := tenant; rc_projectId := project; rc_policy := resolved |}.
