(* ===== verification/PolicyGlob.v ===== *)
(** * Glob matching (src/runtime/src/policy/glob.ts)

    [matchGlob] and [matchToolPattern]. The host's regular expressions are a
    parameter: [regex_test source value] is [new RegExp(source).test(value)],
    [None] when the construction throws. A pattern with alternatives is split
    at the bars, so the recursive call gets a pattern without a bar: the model
    defines the call without the alternation branch first. *)
From Stdlib Require Import Ascii.
From S2P Require Import Prelude JsString.
#[local] Open Scope string_scope.

Definition bar : ascii := "|".
Definition star : ascii := "*".
Definition slash : ascii := "/".
Definition lparen : ascii := "(".
Definition rparen : ascii := ")".

(** [pattern.length > 2 && startsWith("/") && endsWith("/")]. *)
Definition isRegex (pattern : string) : bool :=
  (2 <? String.length pattern)%nat && startsWith pattern "/" && endsWith pattern "/".

(** [pattern.slice(1, -1)]. *)
Definition inner (pattern : string) : string := stake (String.length pattern - 2) (sdrop 1 pattern).

(** The loop over the inner segments; [None] is [return false]. *)
Fixpoint walk (value : string) (cursor : nat) (parts : list string) : option nat :=
  match parts with
  | [] => Some cursor
  | part :: rest =>
      if isEmpty part then walk value cursor rest
      else match indexOf (sdrop cursor value) part with
           | None => None
           | Some next => walk value (cursor + next + String.length part) rest
           end
  end.

(** The multi-segment part of [matchGlob]. *)
Definition matchSegments (parts : list string) (value : string) : bool :=
  let first := default "" (head parts) in
  let last := default "" (list.last parts) in
  if negb (startsWith value first) then false
  else if negb (endsWith value last) then false
  else match walk value (String.length first) (removelast (tail parts)) with
       | None => false
       | Some cursor =>
           (Z.of_nat cursor <=? Z.of_nat (String.length value) - Z.of_nat (String.length last))%Z
           || (length parts =? 1)%nat
       end.

Section Regex.
Context (regex_test : string -> string -> option bool).

(** [matchGlob] on a pattern without [|]. *)
Definition matchGlobAtom (pattern value : string) : bool :=
  if isEmpty pattern && isEmpty value then true
  else if isEmpty pattern then false
  else if String.eqb pattern "*" then true
  else if isRegex pattern then default false (regex_test (inner pattern) value)
  else if negb (includesChar star pattern) then String.eqb value pattern
  else matchSegments (split star pattern) value.

Definition matchGlob (pattern value : string) : bool :=
  if isEmpty pattern && isEmpty value then true
  else if isEmpty pattern then false
  else if String.eqb pattern "*" then true
  else if isRegex pattern then default false (regex_test (inner pattern) value)
  else if includesChar bar pattern then
    existsb (fun entry => matchGlobAtom entry value) (map trim (split bar pattern))
  else if negb (includesChar star pattern) then String.eqb value pattern
  else matchSegments (split star pattern) value.

(** [matchPlain] and [matchArgPattern]. *)
Definition matchPlain (pattern candidate : string) : bool :=
  if String.eqb pattern "*" then true
  else if endsWith pattern "*" then startsWith candidate (stake (String.length pattern - 1) pattern)
  else String.eqb candidate pattern.

Definition matchArgPattern (pattern arg : string) : bool :=
  if isEmpty pattern || String.eqb pattern "*" then true
  else if endsWith pattern "*" then startsWith arg (stake (String.length pattern - 1) pattern)
  else String.eqb arg pattern.

(** The two groups of the regular expression of the [Tool(arg-pattern)] form:
    one or more characters that are no parenthesis, an opening parenthesis, any
    characters of one line, and a closing parenthesis at the end. *)
Definition is_newline (c : ascii) : bool := (Z.eqb (code c) 10 || Z.eqb (code c) 13)%bool.

Definition parenMatch (pattern : string) : option (string * string) :=
  match indexOf pattern "(" with
  | None => None
  | Some i =>
      let toolName := stake i pattern in
      let rest := sdrop (S i) pattern in
      let argPattern := stake (String.length rest - 1) rest in
      if isEmpty toolName || includesChar rparen toolName || negb (endsWith rest ")")
         || negb (sall (fun c => negb (is_newline c)) argPattern)
      then None else Some (toolName, argPattern)
  end.

(** [matchToolPattern] on a pattern that is not an alternation. *)
Definition matchToolAtom (pattern name : string) (arg : option string) : bool :=
  if isEmpty pattern then false
  else if isRegex pattern then
    match regex_test (inner pattern) name with
    | None => false
    | Some true => true
    | Some false =>
        match arg with
        | Some a => if isEmpty a then false else default false (regex_test (inner pattern) a)
        | None => false
        end
    end
  else match parenMatch pattern with
       | Some (toolName, argPattern) =>
           if negb (String.eqb (trim toolName) name) then false
           else matchArgPattern (trim argPattern) (default "" arg)
       | None => matchPlain pattern name
       end.

Definition matchToolPattern (pattern name : string) (arg : option string) : bool :=
  if negb (isEmpty pattern) && negb (isRegex pattern)
     && includesChar bar pattern && negb (includesChar lparen pattern)
  then existsb (fun entry => matchToolAtom entry name arg) (map trim (split bar pattern))
  else matchToolAtom pattern name arg.
End Regex.

(** ** What a glob means *)

(** A [*] stands for any string, every other character for itself. *)
Inductive glob : string -> string -> Prop :=
| glob_nil : glob "" ""
| glob_star p x v : glob p v -> glob (String star p) (x +:+ v)
| glob_char c p v : c <> star -> glob p v -> glob (String c p) (String c v).

(** The segments in order, any text between them. *)
Fixpoint fits (parts : list string) (v : string) : Prop :=
  match parts with
  | [] => False
  | [p] => v = p
  | p :: rest => exists x w, v = p +:+ x +:+ w /\ fits rest w
  end.

Lemma fits_cons p q rest v :
  fits (p :: q :: rest) v <-> exists x w, v = p +:+ x +:+ w /\ fits (q :: rest) w.
Proof. done. Qed.

Lemma split_nonempty d s : exists p ps, split d s = p :: ps.
Proof.
  destruct s as [|c s]; simpl; [eauto|]. destruct (Ascii.eqb c d); [eauto|].
  destruct (split d s); eauto.
Qed.

Lemma glob_fits p v : glob p v <-> fits (split star p) v.
Proof.
  split.
  - induction 1 as [|p x v _ IH|c p v Hc _ IH]; simpl; [done| |].
    + destruct (split_nonempty star p) as (q & qs & Hs). rewrite Hs in *. exists x, v. done.
    + rewrite (proj2 (Ascii.eqb_neq c star) Hc).
      destruct (split_nonempty star p) as (q & [|q' qs] & Hs); rewrite Hs in *.
      * simpl in *. by subst.
      * destruct IH as (x & w & -> & Hw). exists x, w. split; [by autorewrite with s2rw|done].
  - revert v. induction p as [|c p IH]; intros v; simpl.
    + intros ->. constructor.
    + destruct (Ascii.eqb_spec c star) as [->|Hc].
      * destruct (split_nonempty star p) as (q & qs & Hs). rewrite Hs in *.
        intros (x & w & -> & Hw). rewrite string_app_nil. apply glob_star. by apply IH.
      * destruct (split_nonempty star p) as (q & [|q' qs] & Hs); rewrite Hs in *.
        -- simpl. intros ->. constructor; [done|]. by apply IH.
        -- intros (x & w & -> & Hw). autorewrite with s2rw. constructor; [done|].
           apply IH. by exists x, w.
Qed.

(** ** The left-to-right walk is complete *)

(** [mids] and then [last] occur in order in [w], [last] at its end. *)
Definition tailfits (mids : list string) (last w : string) : Prop :=
  exists x w', w = x +:+ w' /\ fits (mids ++ [last]) w'.

Lemma string_app_nil_r s : s +:+ "" = s.
Proof. induction s; autorewrite with s2rw; congruence. Qed.

Lemma tailfits_nil last w : tailfits [] last w <-> endsWith w last = true.
Proof. rewrite endsWith_spec. unfold tailfits. simpl. naive_solver. Qed.

Lemma tailfits_prefix mids last x w : tailfits mids last w -> tailfits mids last (x +:+ w).
Proof.
  intros (y & w' & -> & Hw). exists (x +:+ y), w'. split; [by rewrite string_app_assoc|done].
Qed.

Lemma fits_snoc m mids last w :
  fits ((m :: mids) ++ [last]) w <-> exists y u, w = m +:+ y +:+ u /\ fits (mids ++ [last]) u.
Proof. simpl. by destruct (mids ++ [last])%list as [|q qs] eqn:E; [destruct mids|]. Qed.

Lemma tailfits_cons m mids last w :
  tailfits (m :: mids) last w <-> exists a b, w = a +:+ (m +:+ b) /\ tailfits mids last b.
Proof.
  unfold tailfits. setoid_rewrite fits_snoc. split.
  - intros (x & w' & -> & y & u & -> & Hu). exists x, (y +:+ u). split; [done|]. eauto.
  - intros (a & b & -> & y & u & -> & Hu). exists a, (m +:+ y +:+ u). split; [done|]. eauto.
Qed.

Lemma sdrop_add n m s : sdrop (n + m) s = sdrop m (sdrop n s).
Proof. revert s; induction n as [|n IH]; intros s; simpl; [done|]. destruct s; [by destruct m|]. apply IH. Qed.

(** Taking the leftmost occurrence loses no match. *)
Lemma tailfits_greedy m mids last w :
  tailfits (m :: mids) last w <->
  exists n, indexOf w m = Some n /\ tailfits mids last (sdrop (n + String.length m) w).
Proof.
  rewrite tailfits_cons. split.
  - intros (a & b & Hw & Hb). destruct (indexOf w m) as [n|] eqn:Hn.
    + exists n. split; [done|]. destruct (indexOf_Some _ _ _ Hn) as (a0 & b0 & Hw0 & Hl & Hmin).
      specialize (Hmin a b Hw). rewrite Hw0 at 1. rewrite <-Hl, sdrop_add, sdrop_app, sdrop_app.
      assert (exists x, b0 = x +:+ b) as [x ->]; [|by apply tailfits_prefix].
      rewrite Hw0 in Hw. clear -Hw Hmin Hl. subst n.
      exists (stake (String.length a - String.length a0) b0).
      assert (String.length a0 <= String.length a)%nat as Hle by lia. clear Hmin.
      assert (b = sdrop (String.length a - String.length a0) b0) as ->.
      { transitivity (sdrop (String.length a + String.length m) (a +:+ (m +:+ b)));
          [by rewrite sdrop_add, !sdrop_app|]. rewrite <-Hw.
        replace (String.length a + String.length m)%nat
          with (String.length a0 + String.length m + (String.length a - String.length a0))%nat by lia.
        by rewrite !sdrop_add, !sdrop_app. }
      generalize (String.length a - String.length a0)%nat. clear. induction b0 as [|c b0 IH]; intros [|n];
        simpl; autorewrite with s2rw; congruence.
    + exfalso. by apply (indexOf_None _ _ Hn a b).
  - intros (n & Hn & Ht). destruct (indexOf_Some _ _ _ Hn) as (a & b & Hw & Hl & _).
    exists a, b. split; [done|]. rewrite Hw, <-Hl, sdrop_add, sdrop_app, sdrop_app in Ht. done.
Qed.

Lemma indexOf_empty s : indexOf s "" = Some 0%nat.
Proof. by destruct s. Qed.

Lemma walk_spec mids last v cursor :
  tailfits mids last (sdrop cursor v) <->
  exists c, walk v cursor mids = Some c /\ endsWith (sdrop c v) last = true.
Proof.
  revert cursor. induction mids as [|m mids IH]; intros cursor; simpl.
  - rewrite tailfits_nil. naive_solver.
  - rewrite tailfits_greedy. destruct (isEmpty m) eqn:Em.
    + destruct m; [|done]. rewrite indexOf_empty, <-IH. simpl. naive_solver.
    + destruct (indexOf (sdrop cursor v) m) as [n|]; [|naive_solver].
      rewrite <-Nat.add_assoc, <-IH, sdrop_add. naive_solver.
Qed.

Lemma sdrop_length n s : String.length (sdrop n s) = (String.length s - n)%nat.
Proof. revert s; induction n as [|n IH]; intros [|c s]; simpl; auto. Qed.

Lemma endsWith_sdrop c v last :
  (c <= String.length v)%nat ->
  endsWith (sdrop c v) last = true <->
  endsWith v last = true /\ (c + String.length last <= String.length v)%nat.
Proof.
  intros Hc. unfold endsWith. rewrite sdrop_length, !andb_true_iff, !Nat.leb_le, !String.eqb_eq.
  rewrite <-sdrop_add. split.
  - intros [Hl He]. replace (c + (String.length v - c - String.length last))%nat
      with (String.length v - String.length last)%nat in He by lia. split_and!; [lia|done|lia].
  - intros [[Hl He] Hle]. replace (c + (String.length v - c - String.length last))%nat
      with (String.length v - String.length last)%nat by lia. split; [lia|done].
Qed.

Lemma indexOf_bound s p n : indexOf s p = Some n -> (n + String.length p <= String.length s)%nat.
Proof.
  intros (a & b & -> & <- & _)%indexOf_Some. rewrite !string_length_app. lia.
Qed.

Lemma walk_bound v mids cursor c :
  (cursor <= String.length v)%nat -> walk v cursor mids = Some c -> (c <= String.length v)%nat.
Proof.
  revert cursor. induction mids as [|m mids IH]; intros cursor Hc; simpl; [by intros [= <-]|].
  destruct (isEmpty m); [by apply IH|]. destruct (indexOf _ m) as [n|] eqn:Hn; [|done].
  apply indexOf_bound in Hn. rewrite sdrop_length in Hn. apply IH. lia.
Qed.

Lemma matchSegments_spec p mids last v :
  matchSegments ((p :: mids) ++ [last]) v = true <-> fits ((p :: mids) ++ [last]) v.
Proof.
  rewrite fits_snoc. unfold matchSegments. rewrite last_snoc.
  cbn [app head tail default from_option id]. rewrite removelast_last.
  assert ((exists x w, v = p +:+ x +:+ w /\ fits (mids ++ [last]) w) <->
    startsWith v p = true /\ tailfits mids last (sdrop (String.length p) v)) as ->.
  { rewrite startsWith_spec. unfold tailfits. split.
    - intros (x & w & -> & Hw). rewrite sdrop_app. split; eauto.
    - intros ([t ->] & x & w & Ht & Hw). rewrite sdrop_app in Ht. subst. eauto. }
  rewrite walk_spec. destruct (startsWith v p) eqn:Hs; cbn [negb]; [|naive_solver].
  assert (String.length p <= String.length v)%nat as Hpv.
  { apply startsWith_spec in Hs as [t ->]. rewrite string_length_app. lia. }
  assert ((length (p :: mids ++ [last])%list =? 1)%nat = false) as ->.
  { simpl. rewrite length_app. simpl. by destruct (length mids). }
  destruct (walk v (String.length p) mids) as [c|] eqn:Hw.
  - apply walk_bound in Hw as Hc; [|done]. rewrite orb_false_r.
    destruct (endsWith v last) eqn:He; cbn [negb]; split.
    + intros Hle. split; [done|]. exists c. split; [done|]. apply endsWith_sdrop; [done|]. split; [done|lia].
    + intros (_ & c' & [= <-] & [_ ?]%endsWith_sdrop); [lia|done].
    + done.
    + intros (_ & c' & [= <-] & [? _]%endsWith_sdrop); [congruence|done].
  - destruct (endsWith v last); cbn [negb]; naive_solver.
Qed.

Lemma split_star_two p : includesChar star p = true ->
  exists a mids last, split star p = ((a :: mids) ++ [last])%list.
Proof.
  intros Hp. assert (exists a b ps, split star p = a :: b :: ps) as (a & b & ps & ->).
  { revert Hp. induction p as [|c p IH]; simpl; [done|]. destruct (Ascii.eqb c star) eqn:E.
    - intros _. destruct (split_nonempty star p) as (a & ps & ->). eauto.
    - simpl. intros (a & b & ps & ->)%IH. eauto. }
  exists a, (removelast (b :: ps)), (List.last (b :: ps) "").
  rewrite <-app_comm_cons. f_equal. by apply app_removelast_last.
Qed.

Lemma no_star_glob p v : includesChar star p = false -> glob p v <-> v = p.
Proof.
  revert v. induction p as [|c p IH]; intros v; simpl.
  - intros _. split; [by inversion 1|intros ->; constructor].
  - intros [Hc Hp]%orb_false_iff. apply Ascii.eqb_neq in Hc. split.
    + inversion 1; subst; [done|]. f_equal. by apply IH.
    + intros ->. constructor; [done|]. by apply IH.
Qed.

(** The alternatives of a pattern contain no bar. *)
Lemma split_no_sep d s e : e ∈ split d s -> includesChar d e = false.
Proof.
  revert e. induction s as [|c s IH]; intros e; simpl; [by intros ->%list_elem_of_singleton|].
  destruct (Ascii.eqb c d) eqn:E.
  - intros [->|He]%elem_of_cons; [done|by apply IH].
  - destruct (split_nonempty d s) as (w & ws & Hs). rewrite Hs in *.
    intros [->|He]%elem_of_cons; [|apply IH; by constructor]. simpl. rewrite E. apply IH. constructor.
Qed.

Lemma includesChar_trimStart c s : includesChar c s = false -> includesChar c (trimStart s) = false.
Proof.
  induction s as [|a s IH]; simpl; [done|]. intros [Ha Hs]%orb_false_iff.
  destruct (is_space a); [by apply IH|]. simpl. by rewrite Ha.
Qed.

Lemma includesChar_trimEnd c s : includesChar c s = false -> includesChar c (trimEnd s) = false.
Proof.
  induction s as [|a s IH]; simpl; [done|]. intros [Ha Hs]%orb_false_iff. specialize (IH Hs).
  destruct (trimEnd s); [|simpl in *; by rewrite Ha]. destruct (is_space a); [done|]. simpl. by rewrite Ha.
Qed.

Lemma matchGlob_atom rt e v : includesChar bar e = false -> matchGlobAtom rt e v = matchGlob rt e v.
Proof. intros He. unfold matchGlob. by rewrite He. Qed.

(** On every pattern that is not a regular expression, [matchGlob] is
    the glob relation, [*] standing for any text: the left-to-right walk over
    the segments misses no match and finds no false one; a pattern with bars
    matches iff [matchGlob] does for one of its trimmed alternatives. *)
Theorem matchGlob_exact (regex_test : string -> string -> option bool) (pattern value : string) :
  isRegex pattern = false ->
  matchGlob regex_test pattern value = true <->
  if includesChar bar pattern
  then exists entry, entry ∈ map trim (split bar pattern) /\ matchGlob regex_test entry value = true
  else glob pattern value.
Proof.
  intros Hr. destruct (includesChar bar pattern) eqn:Hb.
  { unfold matchGlob at 1. rewrite Hr, Hb. destruct pattern as [|c pattern]; [done|]. cbn [isEmpty andb].
    destruct (String.eqb_spec (String c pattern) "*") as [E|_]; [by rewrite E in Hb|].
    rewrite existsb_exists. split; intros (e & He & Hm); exists e.
    all: rewrite list_elem_of_In in *; split; [done|]; rewrite <-Hm; first [apply matchGlob_atom|symmetry; apply matchGlob_atom].
    all: rewrite <-list_elem_of_In in He; apply list_elem_of_fmap in He as (e0 & -> & He0%split_no_sep).
    all: by apply includesChar_trimEnd, includesChar_trimStart. }
  unfold matchGlob. rewrite Hr, Hb.
  destruct (isEmpty pattern) eqn:Ep.
  { destruct pattern; [|done]. destruct value; simpl; split; try done; [constructor|by inversion 1]. }
  cbn [andb]. destruct (String.eqb_spec pattern "*") as [->|_].
  { split; [intros _|done]. rewrite <-(string_app_nil_r value). apply (glob_star "" value ""). constructor. }
  destruct (includesChar star pattern) eqn:Hs; cbn [negb].
  - destruct (split_star_two _ Hs) as (a & mids & last & Hsp). rewrite glob_fits, Hsp. apply matchSegments_spec.
  - rewrite String.eqb_eq. symmetry. by apply no_star_glob.
Qed.

Lemma matchGlob_exact_witness :
  matchGlob (fun _ _ => None) "*.example.*" "api.example.com" = true /\
  glob "*.example.*" "api.example.com".
Proof.
  split; [vm_compute; reflexivity|].
  apply (matchGlob_exact (fun _ _ => None) "*.example.*" "api.example.com"); vm_compute; reflexivity.
Defined.
