(* ===== verification/PolicyEngine.v ===== *)
(** * Policy engine (src/runtime/src/policy/engine.ts)

    [PolicyEngine]: its policy, circuit breaker, rolling event buckets, and
    every check of [evaluateInternal]. [tick] counts the calls of [now()], whose
    values are the parameter [clock]. Node's path functions and the host's
    regular expressions are parameters. Logging and metrics are left out;
    [notified] records the calls of the [onViolation] callback, which is taken
    to return. Violations keep their code, their action and their detail
    fields; the names interpolated in their messages are left out. *)
From S2P Require Import Prelude JsMap JsString PolicyTypes RollingWindow PolicyGlob.
#[local] Open Scope Z_scope.

(** node:path, as far as the engine uses it. *)
Class NodePath := {
  isAbsolute : string -> bool;
  resolvePath : string -> string;
  relativePath : string -> string -> string;
}.

Record PolicyEngine := {
  pe_policy : RuntimePolicyConfig;
  pe_mode : CircuitBreakerMode;
  pe_reason : option string;
  pe_trippedAtMs : option Z;
  pe_actionEvents : jsmap (list Z);
  pe_spendEvents : jsmap (list (Z * Z));
  pe_tokenEvents : jsmap (list (Z * Z));
  pe_violationEvents : list Z;
  pe_notified : list PolicyViolation;
  pe_tick : nat;
}.

(** Assignments to the fields of the engine. *)
Definition with_policy p (e : PolicyEngine) : PolicyEngine :=
  {| pe_policy := p; pe_mode := pe_mode e; pe_reason := pe_reason e;
     pe_trippedAtMs := pe_trippedAtMs e; pe_actionEvents := pe_actionEvents e;
     pe_spendEvents := pe_spendEvents e; pe_tokenEvents := pe_tokenEvents e;
     pe_violationEvents := pe_violationEvents e; pe_notified := pe_notified e;
     pe_tick := pe_tick e |}.
Definition with_mode m reason at_ (e : PolicyEngine) : PolicyEngine :=
  {| pe_policy := pe_policy e; pe_mode := m; pe_reason := reason; pe_trippedAtMs := at_;
     pe_actionEvents := pe_actionEvents e; pe_spendEvents := pe_spendEvents e;
     pe_tokenEvents := pe_tokenEvents e; pe_violationEvents := pe_violationEvents e;
     pe_notified := pe_notified e; pe_tick := pe_tick e |}.
Definition with_actionEvents ev (e : PolicyEngine) : PolicyEngine :=
  {| pe_policy := pe_policy e; pe_mode := pe_mode e; pe_reason := pe_reason e;
     pe_trippedAtMs := pe_trippedAtMs e; pe_actionEvents := ev; pe_spendEvents := pe_spendEvents e;
     pe_tokenEvents := pe_tokenEvents e; pe_violationEvents := pe_violationEvents e;
     pe_notified := pe_notified e; pe_tick := pe_tick e |}.
Definition with_spendEvents ev (e : PolicyEngine) : PolicyEngine :=
  {| pe_policy := pe_policy e; pe_mode := pe_mode e; pe_reason := pe_reason e;
     pe_trippedAtMs := pe_trippedAtMs e; pe_actionEvents := pe_actionEvents e; pe_spendEvents := ev;
     pe_tokenEvents := pe_tokenEvents e; pe_violationEvents := pe_violationEvents e;
     pe_notified := pe_notified e; pe_tick := pe_tick e |}.
Definition with_tokenEvents ev (e : PolicyEngine) : PolicyEngine :=
  {| pe_policy := pe_policy e; pe_mode := pe_mode e; pe_reason := pe_reason e;
     pe_trippedAtMs := pe_trippedAtMs e; pe_actionEvents := pe_actionEvents e;
     pe_spendEvents := pe_spendEvents e; pe_tokenEvents := ev;
     pe_violationEvents := pe_violationEvents e; pe_notified := pe_notified e;
     pe_tick := pe_tick e |}.
Definition with_violations ev notified (e : PolicyEngine) : PolicyEngine :=
  {| pe_policy := pe_policy e; pe_mode := pe_mode e; pe_reason := pe_reason e;
     pe_trippedAtMs := pe_trippedAtMs e; pe_actionEvents := pe_actionEvents e;
     pe_spendEvents := pe_spendEvents e; pe_tokenEvents := pe_tokenEvents e;
     pe_violationEvents := ev; pe_notified := notified; pe_tick := pe_tick e |}.
Definition with_tick n (e : PolicyEngine) : PolicyEngine :=
  {| pe_policy := pe_policy e; pe_mode := pe_mode e; pe_reason := pe_reason e;
     pe_trippedAtMs := pe_trippedAtMs e; pe_actionEvents := pe_actionEvents e;
     pe_spendEvents := pe_spendEvents e; pe_tokenEvents := pe_tokenEvents e;
     pe_violationEvents := pe_violationEvents e; pe_notified := pe_notified e; pe_tick := n |}.

Definition buildViolation (c : ViolationCode) (a : PolicyAction) (message : string)
    (details : ViolationDetails) : PolicyViolation :=
  {| v_code := c; v_message := message; v_actionType := a_type a; v_actionName := a_name a;
     v_details := details |}.

(** ** Checks without state *)

Definition checkCircuitMode (mode : CircuitBreakerMode) (a : PolicyAction) : option PolicyViolation :=
  match mode with
  | normal => None
  | pause_discovery =>
      if bool_decide (a_type a = task_discovery)
      then Some (buildViolation circuit_breaker_active a "Discovery is paused by circuit breaker" NoDetails)
      else None
  | halt_submissions =>
      if bool_decide (a_type a = tx_submission)
      then Some (buildViolation circuit_breaker_active a "Submissions are halted by circuit breaker" NoDetails)
      else None
  | safe_mode =>
      if bool_decide (a_access a = write)
      then Some (buildViolation circuit_breaker_active a "Safe mode blocks write actions" NoDetails)
      else None
  end.

(** [list && list.length > 0 && !list.includes(name)]. *)
Definition notAllowed (allowList : option (list string)) (name : string) : bool :=
  match allowList with Some (x :: l) => negb (has (x :: l) name) | _ => false end.

Definition checkToolRules (a : PolicyAction) (p : RuntimePolicyBundleConfig) : option PolicyViolation :=
  if negb (bool_decide (a_type a = tool_call)) then None
  else if has (default [] (toolDenyList p)) (a_name a)
  then Some (buildViolation tool_denied a "Tool is denied by policy" NoDetails)
  else if notAllowed (toolAllowList p) (a_name a)
  then Some (buildViolation tool_denied a "Tool is not in allow-list" NoDetails)
  else None.

Definition checkActionRules (a : PolicyAction) (p : RuntimePolicyBundleConfig) : option PolicyViolation :=
  if has (default [] (denyActions p)) (a_name a)
  then Some (buildViolation action_denied a "Action is denied by policy" NoDetails)
  else if notAllowed (allowActions p) (a_name a)
  then Some (buildViolation action_denied a "Action is not in allow-list" NoDetails)
  else None.

Definition checkPolicyClass (a : PolicyAction) (p : RuntimePolicyBundleConfig) : option PolicyViolation :=
  match a_policyClass a with
  | None => None
  | Some c =>
      match mget (default [] (policyClassRules p)) (class_name c) with
      | None => None
      | Some rule =>
          if truthy (class_deny rule)
          then Some (buildViolation policy_class_denied a "Policy class is denied by policy" (ClassDetails c))
          else match class_maxRiskScore rule, a_riskScore a with
               | Some m, Some r =>
                   if r >? m
                   then Some (buildViolation policy_class_risk_exceeded a "Policy class risk exceeds max"
                                (ClassRiskDetails c m r))
                   else None
               | _, _ => None
               end
      end
  end.

Definition checkRisk (a : PolicyAction) (p : RuntimePolicyBundleConfig) : option PolicyViolation :=
  match maxRiskScore p, a_riskScore a with
  | Some m, Some r =>
      if r <=? m then None
      else Some (buildViolation risk_threshold_exceeded a "Risk score exceeds max" (RiskDetails m r))
  | _, _ => None
  end.

(** The strings of a metadata array that are not blank. *)
Definition nonBlank (s : string) : bool := (0 <? String.length (trim s))%nat.
Definition stringsOf (values : option (list metaValue)) : list string :=
  concat (map (fun v => match v with MStr s => if nonBlank s then [s] else [] | MOther => [] end)
            (default [] values)).

(** [rule.xs?.filter((entry) => entry.trim().length > 0)]. *)
Definition nonBlanks (l : option (list string)) : option (list string) :=
  (fun l => List.filter nonBlank l) <$> l.

Section Engine.
Context `{NodePath} (regex_test : string -> string -> option bool) (clock : nat -> Z).

Definition globMatch (pattern value : string) : bool :=
  matchGlob regex_test (toLowerCase (trim pattern)) (toLowerCase (trim value)).

Definition findDeniedHost (hosts : list string) (rule : NetworkAccessRule) : option string :=
  match nonBlanks (denyHosts rule) with
  | None | Some [] => None
  | Some patterns => List.find (fun host => existsb (fun pattern => globMatch pattern host) patterns) hosts
  end.

Definition checkNetworkAccess (a : PolicyAction) (p : RuntimePolicyBundleConfig) : option PolicyViolation :=
  match networkAccess p with
  | None => None
  | Some rule =>
      match stringsOf (a_networkHosts a) with
      | [] => None
      | hosts =>
          match findDeniedHost hosts rule with
          | Some host =>
              Some (buildViolation network_access_denied a "Network access to host is denied by policy"
                      (HostDetails host))
          | None =>
              match nonBlanks (allowHosts rule) with
              | None | Some [] => None
              | Some patterns =>
                  match List.find (fun host => negb (existsb (fun pattern => globMatch pattern host) patterns))
                          hosts with
                  | Some host =>
                      Some (buildViolation network_access_denied a
                              "Network access to host is outside the allowed host set" (HostDetails host))
                  | None => None
                  end
              end
          end
      end
  end.

Definition pathMatchesRoot (candidate root : string) : bool :=
  let rel := relativePath (resolvePath root) (resolvePath candidate) in
  String.eqb rel "" || (negb (startsWith rel "..") && negb (startsWith rel "../")).

(** One iteration of the loop of [findWriteScopeViolation]: the message. *)
Definition writePathViolation (rule : WriteScopeRule) (candidate : string) : option string :=
  if negb (isAbsolute candidate)
  then Some "Write path is relative and cannot be validated against policy.writeScope"%string
  else if existsb (pathMatchesRoot candidate) (default [] (nonBlanks (denyRoots rule)))
  then Some "Write path is denied by policy.writeScope"%string
  else match nonBlanks (allowRoots rule) with
       | None | Some [] => None
       | Some roots =>
           if existsb (pathMatchesRoot candidate) roots then None
           else Some "Write path is outside the allowed write roots"%string
       end.

Fixpoint findWriteScopeViolation (rule : WriteScopeRule) (paths : list string) : option (string * string) :=
  match paths with
  | [] => None
  | candidate :: rest =>
      match writePathViolation rule candidate with
      | Some message => Some (message, candidate)
      | None => findWriteScopeViolation rule rest
      end
  end.

Definition checkWriteScope (a : PolicyAction) (p : RuntimePolicyBundleConfig) : option PolicyViolation :=
  match writeScope p with
  | None => None
  | Some rule =>
      match findWriteScopeViolation rule (stringsOf (a_writePaths a)) with
      | None => None
      | Some (message, path) => Some (buildViolation write_scope_denied a message (PathDetails path))
      end
  end.

(** ** Scopes *)

(** The scopes of an action: global, then those with a non-empty id. *)
Definition scopesOf (rc : ResolvedPolicyContext) (a : PolicyAction) : list (Scope * option string) :=
  (sc_global, None) ::
  match nonEmpty (rc_tenantId rc) with Some t => [(sc_tenant, Some t)] | None => [] end ++
  match nonEmpty (rc_projectId rc) with Some p => [(sc_project, Some p)] | None => [] end ++
  match nonEmpty (field runId (a_scope a)) with Some r => [(sc_run, Some r)] | None => [] end.

Definition scopeKey (scope : Scope) (value : option string) : string :=
  match scope with
  | sc_global => "global"
  | sc_tenant => "tenant:" ++ default "" value
  | sc_project => "project:" ++ default "" value
  | sc_run => "run:" ++ default "" value
  end%string.

(** The budget a scope of the policy sets. *)
Definition scopedBudget {A} (global : option A) (scoped : option (Scoped A)) (scope : Scope) : option A :=
  match scope with
  | sc_global => global
  | sc_tenant => field s_tenant scoped
  | sc_project => field s_project scoped
  | sc_run => field s_run scoped
  end.

Definition exactKey (a : PolicyAction) : string := (type_name (a_type a) ++ ":" ++ a_name a)%string.
Definition wildcardKey (a : PolicyAction) : string := (type_name (a_type a) ++ ":*")%string.

Definition actionBudgetOf (a : PolicyAction) (m : option (jsmap BudgetRule)) : option BudgetRule :=
  coalesce (m ≫= fun m => mget m (exactKey a)) (m ≫= fun m => mget m (wildcardKey a)).

(** ** Budgets *)

Definition now (e : PolicyEngine) : PolicyEngine * Z :=
  (with_tick (S (pe_tick e)) e, clock (pe_tick e)).

Definition consumeActionBudget (a : PolicyAction) (eventKey : string) (budget : option BudgetRule)
    (consume : bool) (scope : Scope) (value : option string) (e : PolicyEngine)
    : PolicyEngine * option PolicyViolation :=
  match budget with
  | None => (e, None)
  | Some b =>
      let '(e, t) := now e in
      let cutoff := t - windowMs b in
      let bucket := default [] (mget (pe_actionEvents e) eventKey) in
      let recent := List.filter (fun timestamp => cutoff <=? timestamp) bucket in
      let save l e := if consume then with_actionEvents (mset eventKey l (pe_actionEvents e)) e else e in
      if limit b <=? Z.of_nat (length recent)
      then (save recent e,
            Some (buildViolation action_budget_exceeded a "Action budget exceeded"
                    (BudgetDetails scope value (limit b) (windowMs b) (Z.of_nat (length recent)))))
      else (save (recent ++ [t]) e, None)
  end.

Definition consumeSpendBudget (a : PolicyAction) (eventKey : string) (budget : option BudgetRule)
    (consume : bool) (scope : Scope) (value : option string) (e : PolicyEngine)
    : PolicyEngine * option PolicyViolation :=
  match budget, a_spendLamports a with
  | Some b, Some spend =>
      let '(e, t) := now e in
      let bucket := inWindow (t - windowMs b) (default [] (mget (pe_spendEvents e) eventKey)) in
      let currentSpend := totalOf bucket in
      if currentSpend + spend >? limit b
      then (e, Some (buildViolation spend_budget_exceeded a "Spend budget exceeded"
                       (AmountDetails scope value (limit b) currentSpend spend)))
      else (if consume then with_spendEvents (mset eventKey (bucket ++ [(t, spend)]) (pe_spendEvents e)) e
            else e, None)
  | _, _ => (e, None)
  end.

Definition consumeTokenBudget (a : PolicyAction) (eventKey : string) (budget : option BudgetRule)
    (consume : bool) (scope : Scope) (value : option string) (e : PolicyEngine)
    : PolicyEngine * option PolicyViolation :=
  match budget, a_tokenCount a with
  | Some b, Some tokens =>
      let '(e, t) := now e in
      let bucket := inWindow (t - windowMs b) (default [] (mget (pe_tokenEvents e) eventKey)) in
      let currentTokens := totalOf bucket in
      if currentTokens + tokens >? limit b
      then (e, Some (buildViolation token_budget_exceeded a "Token budget exceeded"
                       (AmountDetails scope value (limit b) currentTokens tokens)))
      else (if consume then with_tokenEvents (mset eventKey (bucket ++ [(t, tokens)]) (pe_tokenEvents e)) e
            else e, None)
  | _, _ => (e, None)
  end.

(** The loop over the scopes that stops at the first violation. *)
Fixpoint forScopes (check : Scope -> option string -> PolicyEngine -> PolicyEngine * option PolicyViolation)
    (scopes : list (Scope * option string)) (e : PolicyEngine) : PolicyEngine * option PolicyViolation :=
  match scopes with
  | [] => (e, None)
  | (scope, value) :: rest =>
      let '(e, v) := check scope value e in
      match v with Some v => (e, Some v) | None => forScopes check rest e end
  end.

Definition checkAndConsumeActionBudget (a : PolicyAction) (p : RuntimePolicyBundleConfig)
    (rc : ResolvedPolicyContext) (consume : bool) (e : PolicyEngine)
    : PolicyEngine * option PolicyViolation :=
  forScopes (fun scope value =>
      consumeActionBudget a (scopeKey scope value ++ ":" ++ exactKey a)%string
        (actionBudgetOf a (scopedBudget (actionBudgets p) (scopedActionBudgets p) scope))
        consume scope value)
    (scopesOf rc a) e.

Definition checkAndConsumeSpendBudget (a : PolicyAction) (p : RuntimePolicyBundleConfig)
    (rc : ResolvedPolicyContext) (consume : bool) (e : PolicyEngine)
    : PolicyEngine * option PolicyViolation :=
  match a_spendLamports a with
  | None => (e, None)
  | Some _ =>
      forScopes (fun scope value =>
          consumeSpendBudget a (scopeKey scope value)
            (scopedBudget (spendBudget p) (scopedSpendBudgets p) scope) consume scope value)
        (scopesOf rc a) e
  end.

Definition checkAndConsumeTokenBudget (a : PolicyAction) (p : RuntimePolicyBundleConfig)
    (rc : ResolvedPolicyContext) (consume : bool) (e : PolicyEngine)
    : PolicyEngine * option PolicyViolation :=
  match a_tokenCount a with
  | None => (e, None)
  | Some _ =>
      forScopes (fun scope value =>
          consumeTokenBudget a (scopeKey scope value)
            (scopedBudget (tokenBudget p) (scopedTokenBudgets p) scope) consume scope value)
        (scopesOf rc a) e
  end.

(** [resolveScopedNumericValue]; samples are finite numbers. *)
Definition resolveScopedNumericValue (base : option Z) (scoped : Scope -> option Z) (scope : Scope)
    : option Z :=
  match scoped scope with Some v => Some v | None => base end.

Definition enforceRuntimeBudget (a : PolicyAction) (budget : option RuntimeBudgetRule) (scope : Scope)
    (value : option string) : option PolicyViolation :=
  match budget, resolveScopedNumericValue (a_elapsedRuntimeMs a) (a_elapsedRuntimeMsByScope a) scope with
  | Some b, Some observed =>
      if observed <=? maxElapsedMs b then None
      else Some (buildViolation runtime_budget_exceeded a "Runtime budget exceeded"
                   (SampleDetails scope value (maxElapsedMs b) observed))
  | _, _ => None
  end.

Definition enforceProcessBudget (a : PolicyAction) (budget : option ProcessBudgetRule) (scope : Scope)
    (value : option string) : option PolicyViolation :=
  match budget, resolveScopedNumericValue (a_processCount a) (a_processCountByScope a) scope with
  | Some b, Some observed =>
      if observed <=? maxConcurrent b then None
      else Some (buildViolation process_budget_exceeded a "Managed-process budget exceeded"
                   (SampleDetails scope value (maxConcurrent b) observed))
  | _, _ => None
  end.

(** The first violation among the scopes. *)
Fixpoint firstViolation (check : Scope -> option string -> option PolicyViolation)
    (scopes : list (Scope * option string)) : option PolicyViolation :=
  match scopes with
  | [] => None
  | (scope, value) :: rest =>
      match check scope value with Some v => Some v | None => firstViolation check rest end
  end.

Definition checkRuntimeBudget (a : PolicyAction) (p : RuntimePolicyBundleConfig)
    (rc : ResolvedPolicyContext) : option PolicyViolation :=
  match a_elapsedRuntimeMs a with
  | None => None
  | Some _ =>
      firstViolation (fun scope value =>
          enforceRuntimeBudget a (scopedBudget (runtimeBudget p) (scopedRuntimeBudgets p) scope) scope value)
        (scopesOf rc a)
  end.

Definition checkProcessBudget (a : PolicyAction) (p : RuntimePolicyBundleConfig)
    (rc : ResolvedPolicyContext) : option PolicyViolation :=
  match a_processCount a with
  | None => None
  | Some _ =>
      firstViolation (fun scope value =>
          enforceProcessBudget a (scopedBudget (processBudget p) (scopedProcessBudgets p) scope) scope value)
        (scopesOf rc a)
  end.

(** ** Violations and the circuit breaker *)

Definition pruneViolations (e : PolicyEngine) : PolicyEngine :=
  match circuitBreaker (bundle (pe_policy e)) with
  | None => with_violations [] (pe_notified e) e
  | Some cfg =>
      let '(e, t) := now e in
      with_violations (List.filter (fun timestamp => t - cb_windowMs cfg <=? timestamp) (pe_violationEvents e))
        (pe_notified e) e
  end.

Definition recordViolation (v : PolicyViolation) (e : PolicyEngine) : PolicyEngine :=
  let '(e, t) := now e in
  with_violations (pe_violationEvents e ++ [t]) (pe_notified e ++ [v]) e.

Definition maybeAutoTripCircuitBreaker (e : PolicyEngine) : PolicyEngine :=
  match circuitBreaker (bundle (pe_policy e)) with
  | None => e
  | Some cfg =>
      if negb (truthy (cb_enabled cfg)) then e
      else if negb (bool_decide (pe_mode e = normal)) then e
      else
        let e := pruneViolations e in
        if Z.of_nat (length (pe_violationEvents e)) <? cb_threshold cfg then e
        else let '(e, t) := now e in with_mode (cb_mode cfg) (Some "auto_threshold"%string) (Some t) e
  end.

Definition option_list {A} (o : option A) : list A := match o with Some x => [x] | None => [] end.

(** The checks of [evaluateInternal] under an enabled policy, in order. *)
Definition runChecks (a : PolicyAction) (rc : ResolvedPolicyContext) (consume : bool) (e : PolicyEngine)
    : PolicyEngine * list PolicyViolation :=
  let p := rc_policy rc in
  let static := option_list (checkToolRules a p) ++ option_list (checkActionRules a p) ++
    option_list (checkPolicyClass a p) ++ option_list (checkRisk a p) ++
    option_list (checkNetworkAccess a p) ++ option_list (checkWriteScope a p) in
  let '(e, v1) := checkAndConsumeActionBudget a p rc consume e in
  let '(e, v2) := checkAndConsumeSpendBudget a p rc consume e in
  let '(e, v3) := checkAndConsumeTokenBudget a p rc consume e in
  (e, static ++ option_list v1 ++ option_list v2 ++ option_list v3 ++
      option_list (checkRuntimeBudget a p rc) ++ option_list (checkProcessBudget a p rc)).

Definition evaluateInternal (a : PolicyAction) (consumeBudgets : bool) (e : PolicyEngine)
    : PolicyEngine * PolicyDecision :=
  let e := pruneViolations e in
  let rc := resolvePolicyContext (pe_policy e) (a_scope a) in
  let modeViolation := option_list (checkCircuitMode (pe_mode e) a) in
  let '(e, checked) :=
    if truthy (enabled (rc_policy rc)) then runChecks a rc consumeBudgets e else (e, []) in
  let violations := modeViolation ++ checked in
  let e := match violations with
           | [] => e
           | v :: _ => maybeAutoTripCircuitBreaker (recordViolation v e)
           end in
  (e, {| d_allowed := match violations with [] => true | _ => false end;
         d_mode := pe_mode e; d_violations := violations |}).

Definition evaluate (a : PolicyAction) := evaluateInternal a true.
Definition simulate (a : PolicyAction) := evaluateInternal a false.

(** [PolicyViolationError]: the decision it carries. *)
Definition evaluateOrThrow (a : PolicyAction) (e : PolicyEngine)
    : PolicyEngine * result PolicyDecision unit :=
  let '(e, d) := evaluate a e in
  (e, if d_allowed d then Ok tt else Err d).

(** ** The other methods *)

Definition setPolicy (p : RuntimePolicyConfig) (e : PolicyEngine) : PolicyEngine :=
  with_policy {| bundle :=
      let b := bundle p in
      {| enabled := Some (truthy (enabled b)); allowActions := allowActions b; denyActions := denyActions b;
         toolAllowList := toolAllowList b; toolDenyList := toolDenyList b;
         credentialAllowList := credentialAllowList b; networkAccess := networkAccess b;
         writeScope := writeScope b; actionBudgets := actionBudgets b; spendBudget := spendBudget b;
         tokenBudget := tokenBudget b; runtimeBudget := runtimeBudget b; processBudget := processBudget b;
         scopedActionBudgets := scopedActionBudgets b; scopedSpendBudgets := scopedSpendBudgets b;
         scopedTokenBudgets := scopedTokenBudgets b; scopedRuntimeBudgets := scopedRuntimeBudgets b;
         scopedProcessBudgets := scopedProcessBudgets b; maxRiskScore := maxRiskScore b;
         policyClassRules := policyClassRules b; circuitBreaker := circuitBreaker b |};
    defaultTenantId := defaultTenantId p; defaultProjectId := defaultProjectId p;
    tenantBundles := tenantBundles p; projectBundles := projectBundles p |} e.

Definition setMode (m : CircuitBreakerMode) (reason : option string) (e : PolicyEngine) : PolicyEngine :=
  let '(e, t) := now e in with_mode m (Some (default "manual"%string reason)) (Some t) e.

Definition clearMode (e : PolicyEngine) : PolicyEngine := with_mode normal None None e.

Definition getState (e : PolicyEngine) : PolicyEngine * PolicyEngineState :=
  let e := pruneViolations e in
  (e, {| ps_mode := pe_mode e; ps_circuitBreakerReason := pe_reason e;
         ps_trippedAtMs := pe_trippedAtMs e;
         ps_recentViolations := length (pe_violationEvents e) |}).
End Engine.

(** The engine [new PolicyEngine({ policy })] starts as. *)
Definition newPolicyEngine (p : RuntimePolicyConfig) : PolicyEngine :=
  setPolicy p {| pe_policy := p; pe_mode := normal; pe_reason := None; pe_trippedAtMs := None;
     pe_actionEvents := []; pe_spendEvents := []; pe_tokenEvents := []; pe_violationEvents := [];
     pe_notified := []; pe_tick := 0 |}.
