(* ===== verification/PolicyBudgetSpec.v ===== *)
(** * Rolling budgets are never exceeded

    The refinement of the contract of RollingWindow.v: along any calls, the
    action, spend and token buckets of the policy engine follow it. What an
    evaluation charges, and what it leaves alone. *)
From S2P Require Import Prelude JsMap JsString PolicyTypes RollingWindow PolicyGlob PolicyEngine.
#[local] Open Scope Z_scope.

(** The scopes after the global one: their keys are not the global key. *)
Definition localScopes (rc : ResolvedPolicyContext) (a : PolicyAction) : list (Scope * option string) :=
  List.tl (scopesOf rc a).

Lemma localScopes_not_global rc a scope value : (scope, value) ∈ localScopes rc a -> scope <> sc_global.
Proof.
  unfold localScopes, scopesOf. simpl. rewrite !elem_of_app.
  intros [Hin|[Hin|Hin]]; destruct (nonEmpty _); set_solver.
Qed.

(** ** Runs of the engine *)

Section Runs.
Context `{NP : NodePath} (regex_test : string -> string -> option bool) (clock : nat -> Z).
Hypothesis clock_mono : forall i j, (i <= j)%nat -> clock i <= clock j.

(** The calls of the engine's methods that leave the policy in place. *)
Inductive call :=
| Evaluate (a : PolicyAction)
| Simulate (a : PolicyAction)
| SetMode (m : CircuitBreakerMode) (reason : option string)
| ClearMode
| GetState.

(** A call of a run: the clock when it starts, and whether it was an action
    that was allowed. *)
Record evaluation := {
  ev_call : call;
  ev_start : Z;
  ev_allowed : bool;
}.

Definition exec (c : call) (e : PolicyEngine) : PolicyEngine * bool :=
  match c with
  | Evaluate a => let '(e', d) := evaluate regex_test clock a e in (e', d_allowed d)
  | Simulate a => let '(e', d) := simulate regex_test clock a e in (e', d_allowed d)
  | SetMode m reason => (setMode clock m reason e, false)
  | ClearMode => (clearMode e, false)
  | GetState => ((getState clock e).1, false)
  end.

Fixpoint run (calls : list call) (e : PolicyEngine) : list evaluation * PolicyEngine :=
  match calls with
  | [] => ([], e)
  | c :: rest =>
      let '(e', ok) := exec c e in
      let '(evs, e'') := run rest e' in
      ({| ev_call := c; ev_start := clock (pe_tick e); ev_allowed := ok |} :: evs, e'')
  end.

(** A budget the engine enforces: the bucket it keeps and what an action is
    charged. [step_spec] is the engine's side, proved below for each budget. *)
Section Budget.
Context (view : PolicyEngine -> list (Z * Z)) (amount : PolicyAction -> option Z) (lim w : Z).
Context (valid : PolicyEngine -> Prop) (Hw : 0 <= w).

(** The charge of a call: only [evaluate] consumes budgets. *)
Definition charge (c : call) : option Z := match c with Evaluate a => amount a | _ => None end.

Definition step_spec (c : call) : Prop :=
  forall e, valid e ->
    let '(e', ok) := exec c e in
    valid e' /\ (pe_tick e <= pe_tick e')%nat /\
    match charge c with
    | None => view e' = view e
    | Some amt => exists i, (pe_tick e <= i < pe_tick e')%nat /\
        let recent := inWindow (clock i - w) (view e) in
        (totalOf recent + amt <= lim /\ view e' = recent ++ [(clock i, amt)]) \/
        (ok = false /\ (view e' = recent \/ view e' = view e))
    end.

(** What the allowed calls of a run were charged in total. *)
Definition allowedAmount (evs : list evaluation) : Z :=
  totalOf (map (fun ev => (ev_start ev, if ev_allowed ev then default 0 (charge (ev_call ev)) else 0)) evs).

Definition chargeable (calls : list call) : Prop :=
  Forall (fun c => step_spec c /\ forall amt, charge c = Some amt -> 0 <= amt) calls.

(** Along a run the history grows by the charges, and those of the allowed
    evaluations are among them. *)
Lemma run_history calls e H :
  chargeable calls -> valid e -> tracks w H (view e) (clock (pe_tick e)) -> within lim w H ->
  let '(evs, e') := run calls e in
  valid e' /\ (pe_tick e <= pe_tick e')%nat /\
  exists H', tracks w (H ++ H') (view e') (clock (pe_tick e')) /\ within lim w (H ++ H') /\
    Forall (fun x => clock (pe_tick e) <= x.1 <= clock (pe_tick e')) H' /\
    allowedAmount evs <= totalOf H'.
Proof.
  intros Hc. revert e H. induction Hc as [|c calls [Hs Hpos] _ IH]; intros e H Hv Ht HW; simpl.
  { split_and!; [done|lia|]. exists []. rewrite app_nil_r. split_and!; [done|done|constructor|done]. }
  specialize (Hs e Hv). destruct (exec c e) as [e1 ok]. destruct Hs as (Hv1 & Htick & Hstep).
  assert (exists H1, tracks w (H ++ H1) (view e1) (clock (pe_tick e1)) /\ within lim w (H ++ H1) /\
    Forall (fun x => clock (pe_tick e) <= x.1 <= clock (pe_tick e1)) H1 /\
    (if ok then default 0 (charge c) else 0) <= totalOf H1) as (H1 & Ht1 & HW1 & HF1 & Ha1).
  { assert (clock (pe_tick e) <= clock (pe_tick e1)) as Hcl by (by apply clock_mono).
    destruct (charge c) as [amt|] eqn:Hch.
    - assert (0 <= amt) as Hamt by (by apply Hpos).
      destruct Hstep as (i & Hi & Hcase).
      assert (clock (pe_tick e) <= clock i <= clock (pe_tick e1)) as Hci by (split; apply clock_mono; lia).
      apply (tracks_later w H _ _ (clock i)) in Ht; [|lia].
      destruct Hcase as [[Hle Hview]|[Hden Hview]].
      + exists [(clock i, amt)]. rewrite Hview. split_and!.
        * apply (tracks_later w _ _ (clock i)); [lia|]. by apply tracks_charge.
        * by eapply within_charge.
        * repeat constructor; simpl; lia.
        * rewrite totalOf_cons. unfold totalOf. simpl. destruct ok; lia.
      + exists []. rewrite app_nil_r, Hden. split_and!; [|done|constructor|done].
        apply (tracks_later w _ _ (clock i)); [lia|].
        destruct Hview as [-> | ->]; [by apply tracks_prune|done].
    - exists []. rewrite app_nil_r, Hstep. split_and!; [|done|constructor|by destruct ok].
      by eapply tracks_later. }
  specialize (IH e1 (H ++ H1) Hv1 Ht1 HW1). destruct (run calls e1) as [evs e2].
  destruct IH as (Hv2 & Htick2 & H2 & Ht2 & HW2 & HF2 & Ha2). split; [done|]. split; [lia|].
  exists (H1 ++ H2). rewrite app_assoc. split_and!; [done|done| |].
  - pose proof (clock_mono _ _ Htick). pose proof (clock_mono _ _ Htick2).
    apply Forall_app. split; (eapply Forall_impl; [eassumption|]); simpl; lia.
  - unfold allowedAmount in *. cbn [map]. rewrite totalOf_cons, totalOf_app. simpl. lia.
Qed.

(** In any part [mid] of a run that lasts no longer than the window, the
    allowed evaluations were charged at most the limit. *)
Lemma segment_bounded pre mid e0 :
  chargeable (pre ++ mid) -> valid e0 -> view e0 = [] ->
  let '(_, e1) := run pre e0 in
  let '(evs, e2) := run mid e1 in
  clock (pe_tick e2) - clock (pe_tick e1) <= w -> allowedAmount evs <= Z.max 0 lim.
Proof.
  intros Hc Hv Hempty. apply Forall_app in Hc as [Hpre Hmid].
  assert (tracks w [] (view e0) (clock (pe_tick e0))) as Ht0.
  { rewrite Hempty. split; [constructor|constructor|]. exists (clock (pe_tick e0) - w). split; [lia|done]. }
  pose proof (within_nil lim w) as HW0.
  pose proof (run_history pre e0 [] Hpre Hv Ht0 HW0) as Hr. destruct (run pre e0) as [ev0 e1].
  destruct Hr as (Hv1 & _ & H1 & Ht1 & HW1 & _). simpl in Ht1, HW1.
  pose proof (run_history mid e1 H1 Hmid Hv1 Ht1 HW1) as Hr. destruct (run mid e1) as [evs e2].
  destruct Hr as (_ & _ & H2 & Ht2 & HW2 & HF2 & Ha). intros Hlen.
  etransitivity; [exact Ha|]. etransitivity; [|apply (HW2 (clock (pe_tick e2)))].
  unfold spentIn. rewrite List.filter_app, totalOf_app.
  assert (List.filter (fun e => (clock (pe_tick e2) - w <=? e.1) && (e.1 <=? clock (pe_tick e2))) H2 = H2) as ->.
  { clear -HF2 Hlen. induction HF2 as [|x l Hx _ IH]; simpl; [done|].
    rewrite (proj2 (Z.leb_le (clock (pe_tick e2) - w) x.1)), (proj2 (Z.leb_le x.1 (clock (pe_tick e2)))) by lia.
    simpl. by rewrite IH. }
  assert (0 <= totalOf (List.filter (fun e => (clock (pe_tick e2) - w <=? e.1) && (e.1 <=? clock (pe_tick e2))) H1)).
  { apply totalOf_nonneg. destruct Ht1 as [_ Hn _]. by apply nonneg_filter. }
  lia.
Qed.
End Budget.

(** ** What an evaluation leaves alone *)

(** A view of the engine that only looks at the event buckets. *)
Definition bucketView {A} (view : PolicyEngine -> A) : Prop :=
  forall e e', pe_actionEvents e' = pe_actionEvents e -> pe_spendEvents e' = pe_spendEvents e ->
    pe_tokenEvents e' = pe_tokenEvents e -> view e' = view e.

(** [e'] follows [e] without a change of the policy or of the view. *)
Definition keeps {A} (view : PolicyEngine -> A) (e e' : PolicyEngine) : Prop :=
  pe_policy e' = pe_policy e /\ (pe_tick e <= pe_tick e')%nat /\ view e' = view e.

#[export] Instance keeps_refl {A} (view : PolicyEngine -> A) : Reflexive (keeps view).
Proof. intros e. split_and!; [done|lia|done]. Qed.

#[export] Instance keeps_trans {A} (view : PolicyEngine -> A) : Transitive (keeps view).
Proof. intros e1 e2 e3 (P & T & V) (P' & T' & V'). split_and!; [congruence|lia|congruence]. Qed.

Lemma forScopes_keeps {A} (view : PolicyEngine -> A) check scopes :
  (forall scope value e, (scope, value) ∈ scopes -> keeps view e (check scope value e).1) ->
  forall e, keeps view e (forScopes check scopes e).1.
Proof.
  induction scopes as [|[scope value] rest IH]; intros Hc e; simpl; [done|].
  pose proof (Hc scope value e ltac:(constructor)) as Hk.
  destruct (check scope value e) as [e1 [v|]]; [exact Hk|]. etransitivity; [exact Hk|].
  apply IH. intros s v e' Hin. apply Hc. by constructor.
Qed.

Section View.
Context {A : Type} (view : PolicyEngine -> A) (Hview : bucketView view).

Lemma prune_keeps e : keeps view e (pruneViolations clock e).
Proof.
  unfold pruneViolations, now. destruct (circuitBreaker _); split_and!; simpl; try done; try lia; by apply Hview.
Qed.

Lemma record_keeps v e : keeps view e (maybeAutoTripCircuitBreaker clock (recordViolation clock v e)).
Proof.
  transitivity (recordViolation clock v e).
  { split_and!; simpl; [done|lia|by apply Hview]. }
  generalize (recordViolation clock v e) as e0. intros e0. unfold maybeAutoTripCircuitBreaker.
  destruct (circuitBreaker _) as [cfg|]; [|done]. destruct (negb (truthy _)); [done|].
  destruct (negb _); [done|]. destruct (_ <? _); [apply prune_keeps|].
  etransitivity; [apply prune_keeps|]. split_and!; simpl; [done|lia|by apply Hview].
Qed.

(** An evaluation is the checks between two parts that keep the buckets. *)
Lemma evaluate_checks a consume e :
  let rc := resolvePolicyContext (pe_policy e) (a_scope a) in
  let '(e', d) := evaluateInternal regex_test clock a consume e in
  exists e1 e2 vs, keeps view e e1 /\ keeps view e2 e' /\
    (if truthy (enabled (rc_policy rc)) then runChecks regex_test clock a rc consume e1 else (e1, [])) = (e2, vs) /\
    (d_allowed d = true -> vs = []).
Proof.
  unfold evaluateInternal. pose proof (prune_keeps e) as Hk. set (e1 := pruneViolations clock e) in *.
  replace (pe_policy e) with (pe_policy e1) by apply Hk. cbv zeta.
  destruct (if truthy _ then _ else _) as [e2 vs] eqn:He.
  exists e1, e2, vs. split_and!; [done| |done|].
  - destruct (option_list _ ++ vs); [done|apply record_keeps].
  - simpl. intros Ha. destruct (option_list _), vs; simpl in Ha; try done.
Qed.

Lemma tick_keeps n e : (pe_tick e <= n)%nat -> keeps view e (with_tick n e).
Proof. intros Hn. split_and!; [done|done|by apply Hview]. Qed.

Lemma consumeAction_keeps a key budget consume scope value e :
  (consume = true -> forall l e, view (with_actionEvents (mset key l (pe_actionEvents e)) e) = view e) ->
  keeps view e (consumeActionBudget clock a key budget consume scope value e).1.
Proof.
  intros Hkey. unfold consumeActionBudget, now. destruct budget as [b|]; [|done].
  transitivity (with_tick (S (pe_tick e)) e); [apply tick_keeps; lia|].
  destruct (limit b <=? _), consume; cbn [fst]; try done; (split_and!; [done|done|by apply Hkey]).
Qed.

Lemma consumeSpend_keeps a key budget consume scope value e :
  (consume = true -> forall l e, view (with_spendEvents (mset key l (pe_spendEvents e)) e) = view e) ->
  keeps view e (consumeSpendBudget clock a key budget consume scope value e).1.
Proof.
  intros Hkey. unfold consumeSpendBudget, now. destruct budget as [b|], (a_spendLamports a) as [n|]; try done.
  transitivity (with_tick (S (pe_tick e)) e); [apply tick_keeps; lia|].
  destruct (_ >? _), consume; cbn [fst]; try done; (split_and!; [done|done|by apply Hkey]).
Qed.

Lemma consumeToken_keeps a key budget consume scope value e :
  (consume = true -> forall l e, view (with_tokenEvents (mset key l (pe_tokenEvents e)) e) = view e) ->
  keeps view e (consumeTokenBudget clock a key budget consume scope value e).1.
Proof.
  intros Hkey. unfold consumeTokenBudget, now. destruct budget as [b|], (a_tokenCount a) as [n|]; try done.
  transitivity (with_tick (S (pe_tick e)) e); [apply tick_keeps; lia|].
  destruct (_ >? _), consume; cbn [fst]; try done; (split_and!; [done|done|by apply Hkey]).
Qed.

End View.

(** Consuming nothing leaves every bucket alone. *)
Definition buckets (e : PolicyEngine) := (pe_actionEvents e, pe_spendEvents e, pe_tokenEvents e).

Lemma buckets_view : bucketView buckets.
Proof. intros e e' H1 H2 H3. unfold buckets. congruence. Qed.

(** The checks keep a view that no scope of theirs writes. *)
Lemma actionChecks_keep {A} (view : PolicyEngine -> A) a p rc consume e : bucketView view ->
  (consume = true -> forall scope value, (scope, value) ∈ scopesOf rc a ->
     forall l e, view (with_actionEvents (mset (scopeKey scope value ++ ":" ++ exactKey a)%string l
                         (pe_actionEvents e)) e) = view e) ->
  keeps view e (checkAndConsumeActionBudget clock a p rc consume e).1.
Proof.
  intros Hv Hk. apply forScopes_keeps. intros scope value e' Hin.
  apply consumeAction_keeps; [done|]. intros Hc. by apply Hk.
Qed.

Lemma spendChecks_keep {A} (view : PolicyEngine -> A) a p rc consume e : bucketView view ->
  (consume = true -> forall scope value, (scope, value) ∈ scopesOf rc a ->
     forall l e, view (with_spendEvents (mset (scopeKey scope value) l (pe_spendEvents e)) e) = view e) ->
  keeps view e (checkAndConsumeSpendBudget clock a p rc consume e).1.
Proof.
  intros Hv Hk. unfold checkAndConsumeSpendBudget. destruct (a_spendLamports a); [|done].
  apply forScopes_keeps. intros scope value e' Hin. apply consumeSpend_keeps; [done|]. intros Hc. by apply Hk.
Qed.

Lemma tokenChecks_keep {A} (view : PolicyEngine -> A) a p rc consume e : bucketView view ->
  (consume = true -> forall scope value, (scope, value) ∈ scopesOf rc a ->
     forall l e, view (with_tokenEvents (mset (scopeKey scope value) l (pe_tokenEvents e)) e) = view e) ->
  keeps view e (checkAndConsumeTokenBudget clock a p rc consume e).1.
Proof.
  intros Hv Hk. unfold checkAndConsumeTokenBudget. destruct (a_tokenCount a); [|done].
  apply forScopes_keeps. intros scope value e' Hin. apply consumeToken_keeps; [done|]. intros Hc. by apply Hk.
Qed.

(** The three budget checks of [runChecks], in order. *)
Lemma runChecks_split a rc consume e :
  exists e1 e2 v1 v2 v3 other,
    checkAndConsumeActionBudget clock a (rc_policy rc) rc consume e = (e1, v1) /\
    checkAndConsumeSpendBudget clock a (rc_policy rc) rc consume e1 = (e2, v2) /\
    checkAndConsumeTokenBudget clock a (rc_policy rc) rc consume e2 =
      ((runChecks regex_test clock a rc consume e).1, v3) /\
    (runChecks regex_test clock a rc consume e).2 ≡ₚ
      option_list v1 ++ option_list v2 ++ option_list v3 ++ other.
Proof.
  unfold runChecks.
  destruct (checkAndConsumeActionBudget _ _ _ _ _ _) as [e1 v1] eqn:E1.
  destruct (checkAndConsumeSpendBudget _ _ _ _ _ e1) as [e2 v2] eqn:E2.
  destruct (checkAndConsumeTokenBudget _ _ _ _ _ e2) as [e3 v3] eqn:E3.
  eexists e1, e2, v1, v2, v3, _. split_and!; [done|done|exact E3|].
  cbn [snd]. rewrite Permutation_app_comm, <-!app_assoc. reflexivity.
Qed.

(** ** The three budgets *)

Lemma inWindow_stamps c (l : list Z) :
  inWindow c (map (fun t => (t, 1)) l) = map (fun t => (t, 1)) (List.filter (fun t => c <=? t) l).
Proof. induction l as [|t l IH]; simpl; [done|]. destruct (c <=? t); simpl; by rewrite IH. Qed.

Lemma totalOf_stamps (l : list Z) : totalOf (map (fun t => (t, 1)) l) = Z.of_nat (length l).
Proof. induction l as [|t l IH]; [done|]. cbn [map]. rewrite totalOf_cons, IH. simpl. lia. Qed.

Lemma scopeKey_global_inj scope value : scopeKey scope value = "global"%string -> scope = sc_global.
Proof. destruct scope; [done|discriminate..]. Qed.

Lemma actionKey_inj scope value x y :
  (scopeKey scope value ++ ":" ++ x)%string = ("global:" ++ y)%string -> scope = sc_global /\ x = y.
Proof.
  destruct scope; [|discriminate..]. intros Heq. split; [done|].
  cbv [scopeKey String.append] in Heq. by injection Heq.
Qed.

(** Consuming nothing, and the other methods, keep every bucket. *)
Lemma mode_keeps {A} (view : PolicyEngine -> A) m reason e :
  bucketView view -> keeps view e (setMode clock m reason e).
Proof. intros Hv. split_and!; simpl; [done|lia|by apply Hv]. Qed.

Lemma clear_keeps {A} (view : PolicyEngine -> A) e : bucketView view -> keeps view e (clearMode e).
Proof. intros Hv. split_and!; simpl; [done|lia|by apply Hv]. Qed.

Section Enforced.
Context (P : RuntimePolicyConfig).

(** The bundle that governs an action under the policy [P]. *)
Definition governing (a : PolicyAction) : RuntimePolicyBundleConfig :=
  rc_policy (resolvePolicyContext P (a_scope a)).

(** The samples of the global bucket of an action key, of the spend and of the
    token bucket, and what an action is charged to each. *)
Definition actionView (K : string) (e : PolicyEngine) : list (Z * Z) :=
  map (fun t => (t, 1)) (default [] (mget (pe_actionEvents e) ("global:" ++ K)%string)).
Definition spendView (e : PolicyEngine) : list (Z * Z) := default [] (mget (pe_spendEvents e) "global"%string).
Definition tokenView (e : PolicyEngine) : list (Z * Z) := default [] (mget (pe_tokenEvents e) "global"%string).
Definition actionAmount (K : string) (a : PolicyAction) : option Z :=
  if String.eqb (exactKey a) K then Some 1 else None.

Lemma actionView_bucket K : bucketView (actionView K).
Proof. intros e e' H1 _ _. unfold actionView. by rewrite H1. Qed.
Lemma spendView_bucket : bucketView spendView.
Proof. intros e e' _ H2 _. unfold spendView. by rewrite H2. Qed.
Lemma tokenView_bucket : bucketView tokenView.
Proof. intros e e' _ _ H3. unfold tokenView. by rewrite H3. Qed.

Lemma actionView_other K key l e : key <> ("global:" ++ K)%string ->
  actionView K (with_actionEvents (mset key l (pe_actionEvents e)) e) = actionView K e.
Proof. intros Hne. unfold actionView. simpl. by rewrite mget_mset_ne. Qed.
Lemma spendView_other key l e : key <> "global"%string ->
  spendView (with_spendEvents (mset key l (pe_spendEvents e)) e) = spendView e.
Proof. intros Hne. unfold spendView. simpl. by rewrite mget_mset_ne. Qed.
Lemma tokenView_other key l e : key <> "global"%string ->
  tokenView (with_tokenEvents (mset key l (pe_tokenEvents e)) e) = tokenView e.
Proof. intros Hne. unfold tokenView. simpl. by rewrite mget_mset_ne. Qed.

(** The outcome of charging [amt] to a bucket whose view is [view]: what
    [step_spec] asks of an evaluation. *)
Definition charged (view : PolicyEngine -> list (Z * Z)) (b : BudgetRule) (amt : Z)
    (e e' : PolicyEngine) (v : option PolicyViolation) : Prop :=
  exists i, (pe_tick e <= i < pe_tick e')%nat /\
    let recent := inWindow (clock i - windowMs b) (view e) in
    (totalOf recent + amt <= limit b /\ view e' = recent ++ [(clock i, amt)]) \/
    (is_Some v /\ (view e' = recent \/ view e' = view e)).

Lemma charged_keeps view b amt e0 e e' e'' v v' :
  keeps view e0 e -> charged view b amt e e' v -> keeps view e' e'' -> (is_Some v -> is_Some v') ->
  charged view b amt e0 e'' v'.
Proof.
  intros (_ & T0 & V0) (i & Hi & Hc) (_ & T1 & V1) Hv. exists i. split; [lia|].
  rewrite V0, V1 in *. naive_solver.
Qed.

(** The global scope comes first: its charge, then scopes that keep the view. *)
Lemma forScopes_charged view b amt check rc a e :
  charged view b amt e (check sc_global None e).1 (check sc_global None e).2 ->
  (forall scope value e, scope <> sc_global -> keeps view e (check scope value e).1) ->
  charged view b amt e (forScopes check (scopesOf rc a) e).1 (forScopes check (scopesOf rc a) e).2.
Proof.
  intros Hg Hl. change (scopesOf rc a) with ((sc_global, @None string) :: localScopes rc a).
  cbn [forScopes]. destruct (check sc_global None e) as [e1 [v|]]; cbn [fst snd] in Hg; [exact Hg|].
  refine (charged_keeps _ _ _ _ _ _ _ _ _ (reflexivity e) Hg _ _).
  - apply forScopes_keeps. intros scope value e' Hin. apply Hl. exact (localScopes_not_global _ _ _ _ Hin).
  - by intros [? [=]].
Qed.

Lemma consumeAction_charged a K b e value :
  exactKey a = K ->
  let r := consumeActionBudget clock a ("global:" ++ K)%string (Some b) true sc_global value e in
  charged (actionView K) b 1 e r.1 r.2.
Proof.
  intros <-. unfold consumeActionBudget, now, charged. exists (pe_tick e). cbv zeta.
  assert (forall c, inWindow c (actionView (exactKey a) e) = map (fun t => (t, 1)) (List.filter (fun t => c <=? t)
    (default [] (mget (pe_actionEvents e) ("global:" ++ exactKey a)%string)))) as Hrec
    by (intros c; apply inWindow_stamps).
  rewrite !Hrec, totalOf_stamps. cbn [pe_actionEvents with_tick].
  set (recent := List.filter _ _). destruct (Z.leb_spec (limit b) (Z.of_nat (length recent))) as [Hl|Hl]; simpl.
  - split; [lia|]. right. split; [by eexists|]. left. unfold actionView. simpl. by rewrite mget_mset_eq.
  - split; [lia|]. left. split; [lia|]. unfold actionView. simpl. rewrite mget_mset_eq. simpl.
    by rewrite map_app.
Qed.

Lemma consumeSpend_charged a b amt e value :
  a_spendLamports a = Some amt ->
  let r := consumeSpendBudget clock a "global"%string (Some b) true sc_global value e in
  charged spendView b amt e r.1 r.2.
Proof.
  intros Ha. unfold consumeSpendBudget, now, charged. rewrite Ha. exists (pe_tick e). cbv zeta.
  change (default [] (mget (pe_spendEvents _) _)) with (spendView e).
  simpl. set (recent := inWindow _ _). destruct (Z.gtb_spec (totalOf recent + amt) (limit b)); simpl.
  - split; [lia|]. right. split; [by eexists|]. by right.
  - split; [lia|]. left. split; [lia|]. unfold spendView. simpl. by rewrite mget_mset_eq.
Qed.

Lemma consumeToken_charged a b amt e value :
  a_tokenCount a = Some amt ->
  let r := consumeTokenBudget clock a "global"%string (Some b) true sc_global value e in
  charged tokenView b amt e r.1 r.2.
Proof.
  intros Ha. unfold consumeTokenBudget, now, charged. rewrite Ha. exists (pe_tick e). cbv zeta.
  change (default [] (mget (pe_tokenEvents _) _)) with (tokenView e).
  simpl. set (recent := inWindow _ _). destruct (Z.gtb_spec (totalOf recent + amt) (limit b)); simpl.
  - split; [lia|]. right. split; [by eexists|]. by right.
  - split; [lia|]. left. split; [lia|]. unfold tokenView. simpl. by rewrite mget_mset_eq.
Qed.

(** An evaluation keeps a view that its checks keep. *)
Lemma evaluate_keeps {A} (view : PolicyEngine -> A) a consume e :
  bucketView view ->
  (forall p rc e, keeps view e (checkAndConsumeActionBudget clock a p rc consume e).1) ->
  (forall p rc e, keeps view e (checkAndConsumeSpendBudget clock a p rc consume e).1) ->
  (forall p rc e, keeps view e (checkAndConsumeTokenBudget clock a p rc consume e).1) ->
  keeps view e (evaluateInternal regex_test clock a consume e).1.
Proof.
  intros Hv H1 H2 H3. pose proof (evaluate_checks view Hv a consume e) as Hc. cbv zeta in Hc.
  set (rc := resolvePolicyContext _ _) in Hc.
  destruct (evaluateInternal _ _ a consume e) as [e' d]. destruct Hc as (e1 & e2 & vs & K1 & K2 & Hr & _).
  transitivity e1; [done|]. transitivity e2; [|done].
  destruct (truthy _); [|by injection Hr as -> _].
  destruct (runChecks_split a rc consume e1) as (e3 & e4 & v1 & v2 & v3 & other & E1 & E2 & E3 & _).
  rewrite Hr in E3. transitivity e3; [specialize (H1 (rc_policy rc) rc e1); by rewrite E1 in H1|].
  transitivity e4; [specialize (H2 (rc_policy rc) rc e3); by rewrite E2 in H2|].
  specialize (H3 (rc_policy rc) rc e4). by rewrite E3 in H3.
Qed.

Lemma evaluate_policy a e :
  let e' := (evaluate regex_test clock a e).1 in
  pe_policy e' = pe_policy e /\ (pe_tick e <= pe_tick e')%nat.
Proof.
  destruct (evaluate_keeps (fun _ => tt) a true e) as (Hp & Ht & _); [by intros ?| | | |done]; intros p rc e';
    [apply actionChecks_keep|apply spendChecks_keep|apply tokenChecks_keep]; by intros ?.
Qed.

(** An evaluation under an enabled bundle charges what its checks charge. *)
Lemma evaluate_charged view b amt a consume e :
  bucketView view -> pe_policy e = P -> truthy (enabled (governing a)) = true ->
  (forall rc e, rc_policy rc = governing a ->
     exists v, charged view b amt e (runChecks regex_test clock a rc consume e).1 v /\
       (is_Some v -> (runChecks regex_test clock a rc consume e).2 <> [])) ->
  let '(e', d) := evaluateInternal regex_test clock a consume e in
  exists v, charged view b amt e e' v /\ (is_Some v -> d_allowed d = false).
Proof.
  intros Hv HP Hen Hrun. pose proof (evaluate_checks view Hv a consume e) as Hc. cbv zeta in Hc.
  destruct (evaluateInternal _ _ a consume e) as [e' d]. destruct Hc as (e1 & e2 & vs & K1 & K2 & Hr & Hd).
  rewrite HP in Hr. fold (governing a) in Hr. rewrite Hen in Hr.
  destruct (Hrun _ e1 eq_refl) as (v & Hch & Hne). rewrite Hr in Hch, Hne. cbn [fst snd] in Hch, Hne.
  exists v. split; [exact (charged_keeps _ _ _ _ _ _ _ _ _ K1 Hch K2 (fun x => x))|].
  intros Hs. destruct (d_allowed d); [|done]. by destruct (Hne Hs (Hd eq_refl)).
Qed.

Lemma violations_found v1 v2 v3 (other vs : list PolicyViolation) :
  vs ≡ₚ option_list v1 ++ option_list v2 ++ option_list v3 ++ other ->
  is_Some v1 \/ is_Some v2 \/ is_Some v3 -> vs <> [].
Proof.
  intros Hp Hs ->. apply Permutation_nil in Hp. destruct v1, v2, v3; simpl in Hp; try done.
  by destruct Hs as [[? [=]]|[[? [=]]|[? [=]]]].
Qed.

Lemma action_evaluated K b a e :
  pe_policy e = P -> exactKey a = K -> truthy (enabled (governing a)) = true ->
  actionBudgetOf a (actionBudgets (governing a)) = Some b ->
  let '(e', d) := evaluateInternal regex_test clock a true e in
  exists v, charged (actionView K) b 1 e e' v /\ (is_Some v -> d_allowed d = false).
Proof.
  intros HP HK Hen Hb. apply evaluate_charged; [apply actionView_bucket|done|done|]. clear e HP. intros rc e Hrc.
  destruct (runChecks_split a rc true e) as (e1 & e2 & v1 & v2 & v3 & other & E1 & E2 & E3 & Hperm).
  exists v1. split; [|intros Hs; eapply violations_found; [exact Hperm|by left]].
  assert (charged (actionView K) b 1 e e1 v1) as Hch.
  { unfold checkAndConsumeActionBudget in E1. change e1 with (e1, v1).1. change v1 with (e1, v1).2 at 2.
    rewrite <-E1. apply forScopes_charged.
    - cbn [scopedBudget]. rewrite Hrc, Hb. subst K. by apply (consumeAction_charged a).
    - intros scope value e' Hsc. apply consumeAction_keeps; [apply actionView_bucket|]. intros _ l e''.
      apply actionView_other. by intros [? _]%actionKey_inj. }
  refine (charged_keeps _ _ _ _ _ _ _ _ _ (reflexivity e) Hch _ (fun x => x)).
  transitivity e2.
  - change e2 with (e2, v2).1. rewrite <-E2. apply spendChecks_keep; [apply actionView_bucket|done].
  - change (runChecks _ _ _ _ _ _).1 with ((runChecks regex_test clock a rc true e).1, v3).1. rewrite <-E3.
    apply tokenChecks_keep; [apply actionView_bucket|done].
Qed.

Lemma spend_evaluated b amt a e :
  pe_policy e = P -> a_spendLamports a = Some amt -> truthy (enabled (governing a)) = true ->
  spendBudget (governing a) = Some b ->
  let '(e', d) := evaluateInternal regex_test clock a true e in
  exists v, charged spendView b amt e e' v /\ (is_Some v -> d_allowed d = false).
Proof.
  intros HP Ha Hen Hb. apply evaluate_charged; [apply spendView_bucket|done|done|]. clear e HP. intros rc e Hrc.
  destruct (runChecks_split a rc true e) as (e1 & e2 & v1 & v2 & v3 & other & E1 & E2 & E3 & Hperm).
  exists v2. split; [|intros Hs; eapply violations_found; [exact Hperm|by right; left]].
  assert (charged spendView b amt e1 e2 v2) as Hch.
  { unfold checkAndConsumeSpendBudget in E2. rewrite Ha in E2. change e2 with (e2, v2).1. change v2 with (e2, v2).2 at 2.
    rewrite <-E2. apply forScopes_charged.
    - cbn [scopedBudget scopeKey]. rewrite Hrc, Hb. by apply consumeSpend_charged.
    - intros scope value e' Hsc. apply consumeSpend_keeps; [apply spendView_bucket|]. intros _ l e''.
      apply spendView_other. by intros ?%scopeKey_global_inj. }
  refine (charged_keeps _ _ _ _ _ _ _ _ _ _ Hch _ (fun x => x)).
  - change e1 with (e1, v1).1. rewrite <-E1. apply actionChecks_keep; [apply spendView_bucket|done].
  - change (runChecks _ _ _ _ _ _).1 with ((runChecks regex_test clock a rc true e).1, v3).1. rewrite <-E3.
    apply tokenChecks_keep; [apply spendView_bucket|done].
Qed.

Lemma token_evaluated b amt a e :
  pe_policy e = P -> a_tokenCount a = Some amt -> truthy (enabled (governing a)) = true ->
  tokenBudget (governing a) = Some b ->
  let '(e', d) := evaluateInternal regex_test clock a true e in
  exists v, charged tokenView b amt e e' v /\ (is_Some v -> d_allowed d = false).
Proof.
  intros HP Ha Hen Hb. apply evaluate_charged; [apply tokenView_bucket|done|done|]. clear e HP. intros rc e Hrc.
  destruct (runChecks_split a rc true e) as (e1 & e2 & v1 & v2 & v3 & other & E1 & E2 & E3 & Hperm).
  exists v3. split; [|intros Hs; eapply violations_found; [exact Hperm|by right; right]].
  set (e3 := (runChecks _ _ _ _ _ _).1) in *.
  assert (charged tokenView b amt e2 e3 v3) as Hch.
  { unfold checkAndConsumeTokenBudget in E3. rewrite Ha in E3. change e3 with (e3, v3).1. change v3 with (e3, v3).2 at 2.
    rewrite <-E3. apply forScopes_charged.
    - cbn [scopedBudget scopeKey]. rewrite Hrc, Hb. by apply consumeToken_charged.
    - intros scope value e' Hsc. apply consumeToken_keeps; [apply tokenView_bucket|]. intros _ l e''.
      apply tokenView_other. by intros ?%scopeKey_global_inj. }
  refine (charged_keeps _ _ _ _ _ _ _ _ _ _ Hch (reflexivity e3) (fun x => x)).
  transitivity e1.
  - change e1 with (e1, v1).1. rewrite <-E1. apply actionChecks_keep; [apply tokenView_bucket|done].
  - change e2 with (e2, v2).1. rewrite <-E2. apply spendChecks_keep; [apply tokenView_bucket|done].
Qed.

Lemma simulate_keeps {A} (view : PolicyEngine -> A) a e :
  bucketView view -> keeps view e (simulate regex_test clock a e).1.
Proof.
  intros Hv. apply evaluate_keeps; [done| | |]; intros p rc e';
    [apply actionChecks_keep|apply spendChecks_keep|apply tokenChecks_keep]; done.
Qed.

(** The engine's side of [step_spec], from what it does on a charged and on an
    uncharged evaluation. *)
Lemma engine_step view amount b c :
  bucketView view ->
  (forall a, c = Evaluate a -> amount a = None -> forall e, keeps view e (evaluate regex_test clock a e).1) ->
  (forall a amt, c = Evaluate a -> amount a = Some amt -> forall e, pe_policy e = P ->
     let '(e', d) := evaluate regex_test clock a e in
     exists v, charged view b amt e e' v /\ (is_Some v -> d_allowed d = false)) ->
  step_spec view amount (limit b) (windowMs b) (fun e => pe_policy e = P) c.
Proof.
  intros Hv Hnone Hsome e HP. destruct c as [a|a|m r| |]; cbn [exec charge].
  - pose proof (evaluate_policy a e) as (Hpol & Htick).
    specialize (Hnone a). specialize (Hsome a). destruct (evaluate _ _ a e) as [e' d] eqn:He. cbn [fst] in Hpol, Htick.
    split; [by rewrite Hpol|]. split; [done|]. destruct (amount a) as [amt|].
    + specialize (Hsome amt eq_refl eq_refl e HP). rewrite He in Hsome.
      destruct Hsome as (v & (i & Hi & Hc) & Hd). exists i. split; [done|]. naive_solver.
    + specialize (Hnone eq_refl eq_refl e). rewrite He in Hnone. apply Hnone.
  - pose proof (simulate_keeps view a e Hv) as (Hp & Ht & Hview).
    destruct (simulate _ _ a e) as [e' d]. split_and!; [by etransitivity|done|done].
  - destruct (mode_keeps view m r e Hv) as (Hp & Ht & Hview). split_and!; [by etransitivity|done|done].
  - destruct (clear_keeps view e Hv) as (Hp & Ht & Hview). split_and!; [by etransitivity|done|done].
  - destruct (prune_keeps view Hv e) as (Hp & Ht & Hview). split_and!; [by etransitivity|done|done].
Qed.
End Enforced.
End Runs.
