(* ===== verification/PolicyEngineSpec.v ===== *)
(** * The policy engine's budgets hold over every window

    The three rolling budgets of [PolicyEngine] refine the contract of
    PolicyBudgetSpec.v along any sequence of method calls: evaluations,
    simulations, mode changes and state reads, in any order. *)
From S2P Require Import Prelude JsMap JsString PolicyTypes RollingWindow PolicyGlob PolicyEngine PolicyBudgetSpec.
#[local] Open Scope Z_scope.

Section Claims.
Context `{NP : NodePath} (regex_test : string -> string -> option bool) (clock : nat -> Z).
Hypothesis clock_mono : forall i j, (i <= j)%nat -> clock i <= clock j.

(** What the allowed evaluations of the calls [mid], made after the calls
    [pre] of a new engine, were charged, with the clock before and after. *)
Definition chargedIn (amount : PolicyAction -> option Z) (P : RuntimePolicyConfig) (pre mid : list call)
    : Z * Z * Z :=
  let '(_, e1) := run regex_test clock pre (newPolicyEngine P) in
  let '(evs, e2) := run regex_test clock mid e1 in
  (allowedAmount amount evs, clock (pe_tick e1), clock (pe_tick e2)).

(** The bundle in force for an action under a new engine's policy. *)
Definition inForce (P : RuntimePolicyConfig) (a : PolicyAction) : RuntimePolicyBundleConfig :=
  governing (pe_policy (newPolicyEngine P)) a.

Lemma chargedIn_bounded view amount b P pre mid :
  bucketView view -> 0 <= windowMs b -> view (newPolicyEngine P) = [] ->
  (forall c, c ∈ pre ++ mid -> step_spec regex_test clock view amount (limit b) (windowMs b)
     (fun e => pe_policy e = pe_policy (newPolicyEngine P)) c) ->
  (forall a amt, Evaluate a ∈ pre ++ mid -> amount a = Some amt -> 0 <= amt) ->
  let '(total, start, stop) := chargedIn amount P pre mid in
  stop - start <= windowMs b -> total <= Z.max 0 (limit b).
Proof.
  intros Hv Hw Hempty Hstep Hpos. unfold chargedIn.
  pose proof (segment_bounded regex_test clock clock_mono view amount (limit b) (windowMs b)
    (fun e => pe_policy e = pe_policy (newPolicyEngine P)) Hw pre mid (newPolicyEngine P)) as Hseg.
  destruct (run _ _ pre _) as [ev0 e1]. destruct (run _ _ mid e1) as [evs e2]. apply Hseg; [|done|done].
  apply Forall_forall. intros c Hc. split; [by apply Hstep|]. intros amt Hamt.
  destruct c as [a|a|m r| |]; simpl in Hamt; try done. by eapply Hpos.
Qed.

(** Action budgets. Take any calls of a new engine (evaluations,
    simulations, mode changes, state reads) in which every evaluation of the
    action key [K] is governed by the enabled global rule [b]. In any stretch of
    them that lasts no longer than the rule's window, at most [limit b]
    evaluations of [K] are allowed. *)
Theorem action_budget_enforced P K b pre mid :
  0 <= windowMs b ->
  (forall a, Evaluate a ∈ pre ++ mid -> exactKey a = K ->
     truthy (enabled (inForce P a)) = true /\ actionBudgetOf a (actionBudgets (inForce P a)) = Some b) ->
  let '(total, start, stop) := chargedIn (actionAmount K) P pre mid in
  stop - start <= windowMs b -> total <= Z.max 0 (limit b).
Proof.
  intros Hw Hgov. eapply (chargedIn_bounded (actionView K)); [apply actionView_bucket|done|done| |].
  - intros c Hc. apply engine_step; [apply actionView_bucket| |].
    + intros a -> Ha e. apply evaluate_keeps; [apply actionView_bucket| | |]; intros p rc e'.
      * apply actionChecks_keep; [apply actionView_bucket|]. intros _ scope value _ l e''.
        apply actionView_other. intros [_ Heq]%actionKey_inj. unfold actionAmount in Ha.
        by rewrite Heq, String.eqb_refl in Ha.
      * apply spendChecks_keep; [apply actionView_bucket|done].
      * apply tokenChecks_keep; [apply actionView_bucket|done].
    + intros a amt -> Ha e HP. unfold actionAmount in Ha. destruct (String.eqb_spec (exactKey a) K) as [HK|]; [|done].
      injection Ha as <-. destruct (Hgov a Hc HK) as [Hen Hb].
      exact (action_evaluated regex_test clock _ K b a e HP HK Hen Hb).
  - intros a amt _ Ha. unfold actionAmount in Ha. destruct (String.eqb _ _); [|done]. injection Ha as <-. lia.
Qed.

(** C5. Spend budgets. As for actions: when every evaluation with a spend is
    governed by the enabled global rule [b] and no spend is negative, the
    lamports of the allowed evaluations in any stretch no longer than the window
    sum to at most [limit b]. *)
Theorem spend_budget_enforced P b pre mid :
  0 <= windowMs b ->
  (forall a amt, Evaluate a ∈ pre ++ mid -> a_spendLamports a = Some amt ->
     0 <= amt /\ truthy (enabled (inForce P a)) = true /\ spendBudget (inForce P a) = Some b) ->
  let '(total, start, stop) := chargedIn a_spendLamports P pre mid in
  stop - start <= windowMs b -> total <= Z.max 0 (limit b).
Proof.
  intros Hw Hgov. eapply (chargedIn_bounded spendView); [apply spendView_bucket|done|done| |].
  - intros c Hc. apply engine_step; [apply spendView_bucket| |].
    + intros a -> Ha e. apply evaluate_keeps; [apply spendView_bucket| | |]; intros p rc e'.
      * apply actionChecks_keep; [apply spendView_bucket|done].
      * unfold checkAndConsumeSpendBudget. by rewrite Ha.
      * apply tokenChecks_keep; [apply spendView_bucket|done].
    + intros a amt -> Ha e HP. destruct (Hgov a amt Hc Ha) as (_ & Hen & Hb).
      exact (spend_evaluated regex_test clock _ b amt a e HP Ha Hen Hb).
  - intros a amt Hin Ha. by destruct (Hgov a amt Hin Ha).
Qed.

(** Token budgets. As for spends, with the token counts of the actions. *)
Theorem token_budget_enforced P b pre mid :
  0 <= windowMs b ->
  (forall a amt, Evaluate a ∈ pre ++ mid -> a_tokenCount a = Some amt ->
     0 <= amt /\ truthy (enabled (inForce P a)) = true /\ tokenBudget (inForce P a) = Some b) ->
  let '(total, start, stop) := chargedIn a_tokenCount P pre mid in
  stop - start <= windowMs b -> total <= Z.max 0 (limit b).
Proof.
  intros Hw Hgov. eapply (chargedIn_bounded tokenView); [apply tokenView_bucket|done|done| |].
  - intros c Hc. apply engine_step; [apply tokenView_bucket| |].
    + intros a -> Ha e. apply evaluate_keeps; [apply tokenView_bucket| | |]; intros p rc e'.
      * apply actionChecks_keep; [apply tokenView_bucket|done].
      * apply spendChecks_keep; [apply tokenView_bucket|done].
      * unfold checkAndConsumeTokenBudget. by rewrite Ha.
    + intros a amt -> Ha e HP. destruct (Hgov a amt Hc Ha) as (_ & Hen & Hb).
      exact (token_evaluated regex_test clock _ b amt a e HP Ha Hen Hb).
  - intros a amt Hin Ha. by destruct (Hgov a amt Hin Ha).
Qed.
End Claims.

(** ** Examples *)

#[local] Instance ex_path : NodePath := {|
  isAbsolute s := startsWith s "/";
  resolvePath s := s;
  relativePath from to := if String.eqb from to then "" else to;
|}.
Definition ex_regex (source value : string) : option bool := Some (String.eqb source value).
Definition ex_clock (n : nat) : Z := Z.of_nat n.

Lemma ex_clock_mono i j : (i <= j)%nat -> ex_clock i <= ex_clock j.
Proof. unfold ex_clock. lia. Qed.

(** An action of 40 lamports and 40 tokens, and a policy with budgets of two
    deployments, 100 lamports and 90 tokens in any window of 20 ms. *)
Definition ex_deploy : PolicyAction :=
  {| a_type := tool_call; a_name := "deploy"; a_access := write; a_policyClass := None; a_riskScore := None;
     a_spendLamports := Some 40; a_tokenCount := Some 40; a_elapsedRuntimeMs := None;
     a_elapsedRuntimeMsByScope := fun _ => None; a_processCount := None;
     a_processCountByScope := fun _ => None; a_scope := None; a_networkHosts := None; a_writePaths := None |}.

Definition ex_policy : RuntimePolicyConfig :=
  {| bundle := Build_RuntimePolicyBundleConfig (Some true) None None None None None None None
       (Some [("tool_call:deploy", {| limit := 2; windowMs := 20 |})])
       (Some {| limit := 100; windowMs := 20 |}) (Some {| limit := 90; windowMs := 20 |})
       None None None None None None None None None
       (Some {| cb_enabled := Some true; cb_threshold := 2; cb_windowMs := 20; cb_mode := safe_mode |});
     defaultTenantId := None; defaultProjectId := None; tenantBundles := None; projectBundles := None |}.

Definition ex_calls : list call :=
  [Evaluate ex_deploy; Simulate ex_deploy; Evaluate ex_deploy; GetState; Evaluate ex_deploy].

Lemma ex_calls_deploy a : Evaluate a ∈ [] ++ ex_calls -> a = ex_deploy.
Proof. unfold ex_calls. simpl. rewrite !elem_of_cons, elem_of_nil. naive_solver. Qed.

Lemma action_budget_enforced_witness :
  chargedIn ex_regex ex_clock (actionAmount "tool_call:deploy") ex_policy [] ex_calls = (2, 0, 19) /\
  2 <= Z.max 0 2.
Proof.
  match goal with |- ?c /\ _ => assert c as Hc by (vm_compute; reflexivity) end. split; [exact Hc|].
  pose proof (action_budget_enforced ex_regex ex_clock ex_clock_mono ex_policy "tool_call:deploy"
           {| limit := 2; windowMs := 20 |} [] ex_calls) as Hb.
  rewrite Hc in Hb. apply Hb.
  - simpl. lia.
  - intros a ->%ex_calls_deploy _. split; vm_compute; reflexivity.
  - cbn [windowMs]. lia.
Defined.

Lemma spend_budget_enforced_witness :
  chargedIn ex_regex ex_clock a_spendLamports ex_policy [] ex_calls = (80, 0, 19) /\ 80 <= Z.max 0 100.
Proof.
  match goal with |- ?c /\ _ => assert c as Hc by (vm_compute; reflexivity) end. split; [exact Hc|].
  pose proof (spend_budget_enforced ex_regex ex_clock ex_clock_mono ex_policy
           {| limit := 100; windowMs := 20 |} [] ex_calls) as Hb.
  rewrite Hc in Hb. apply Hb.
  - simpl. lia.
  - intros a amt ->%ex_calls_deploy [= <-]. split_and!; [lia|vm_compute; reflexivity..].
  - cbn [windowMs]. lia.
Defined.

Lemma token_budget_enforced_witness :
  chargedIn ex_regex ex_clock a_tokenCount ex_policy [] ex_calls = (80, 0, 19) /\ 80 <= Z.max 0 90.
Proof.
  match goal with |- ?c /\ _ => assert c as Hc by (vm_compute; reflexivity) end. split; [exact Hc|].
  pose proof (token_budget_enforced ex_regex ex_clock ex_clock_mono ex_policy
           {| limit := 90; windowMs := 20 |} [] ex_calls) as Hb.
  rewrite Hc in Hb. apply Hb.
  - simpl. lia.
  - intros a amt ->%ex_calls_deploy [= <-]. split_and!; [lia|vm_compute; reflexivity..].
  - cbn [windowMs]. lia.
Defined.
