(* ===== verification/PolicyBreakerSpec.v ===== *)
(** * The circuit breaker

    How many evaluations can be denied before the breaker of the policy leaves
    the normal mode, along any sequence of evaluations, simulations and state
    reads. *)
From S2P Require Import Prelude JsMap JsString PolicyTypes RollingWindow PolicyGlob PolicyEngine PolicyBudgetSpec PolicyEngineSpec.
#[local] Open Scope Z_scope.

Section Breaker.
Context `{NP : NodePath} (regex_test : string -> string -> option bool) (clock : nat -> Z).
Hypothesis clock_mono : forall i j, (i <= j)%nat -> clock i <= clock j.

(** ** The checks leave the breaker alone *)

Definition breakerState (e : PolicyEngine) := (pe_mode e, pe_violationEvents e, pe_notified e).

Lemma runChecks_breaker a rc consume e : keeps breakerState e (runChecks regex_test clock a rc consume e).1.
Proof.
  destruct (runChecks_split regex_test clock a rc consume e)
    as (e1 & e2 & v1 & v2 & v3 & other & E1 & E2 & E3 & _).
  transitivity e1; [|transitivity e2].
  - change e1 with (e1, v1).1. rewrite <-E1. apply forScopes_keeps. intros scope value e' _.
    unfold consumeActionBudget, now. destruct (actionBudgetOf _ _) as [b|]; [|done].
    destruct (_ <=? _), consume; split_and!; simpl; (done || lia).
  - change e2 with (e2, v2).1. rewrite <-E2. unfold checkAndConsumeSpendBudget.
    destruct (a_spendLamports a) as [n|] eqn:Ha; [|done]. apply forScopes_keeps. intros scope value e' _.
    unfold consumeSpendBudget, now. rewrite Ha. destruct (scopedBudget _ _ _) as [b|]; [|done].
    destruct (_ >? _), consume; split_and!; simpl; (done || lia).
  - match goal with |- keeps _ _ ?x => change x with (x, v3).1 end. rewrite <-E3. unfold checkAndConsumeTokenBudget.
    destruct (a_tokenCount a) as [n|] eqn:Ha; [|done]. apply forScopes_keeps. intros scope value e' _.
    unfold consumeTokenBudget, now. rewrite Ha. destruct (scopedBudget _ _ _) as [b|]; [|done].
    destruct (_ >? _), consume; split_and!; simpl; (done || lia).
Qed.

(** An evaluation prunes the violations, runs the checks, and then records a
    violation and consults the breaker if there was one. *)
Lemma evaluate_stages a consume e :
  let '(e', d) := evaluateInternal regex_test clock a consume e in
  exists e2, keeps breakerState (pruneViolations clock e) e2 /\ d_mode d = pe_mode e' /\
    ((d_allowed d = true /\ d_violations d = [] /\ e' = e2) \/
     (d_allowed d = false /\ exists v rest, d_violations d = v :: rest /\
        e' = maybeAutoTripCircuitBreaker clock (recordViolation clock v e2))).
Proof.
  unfold evaluateInternal. cbv zeta. set (e1 := pruneViolations clock e).
  destruct (if truthy _ then _ else _) as [e2 vs] eqn:He. exists e2. split; [|split; [done|]].
  - destruct (truthy _); [|by injection He as -> _].
    pose proof (runChecks_breaker a (resolvePolicyContext (pe_policy e1) (a_scope a)) consume e1) as Hk.
    by rewrite He in Hk.
  - destruct (option_list _ ++ vs) as [|v rest]; [by left|]. right. split; [done|]. by exists v, rest.
Qed.

(** ** Denials in the normal mode *)

Section Window.
Context (cfg : CircuitBreakerConfig) (T0 : Z).

Definition breakerOf (e : PolicyEngine) : Prop :=
  circuitBreaker (bundle (pe_policy e)) = Some cfg /\ T0 <= clock (pe_tick e).

(** The violations recorded since [T0]. *)
Definition since (e : PolicyEngine) : nat := length (List.filter (fun t => T0 <=? t) (pe_violationEvents e)).

Lemma filter_since c l : c <= T0 ->
  List.filter (fun t => T0 <=? t) (List.filter (fun t => c <=? t) l) = List.filter (fun t => T0 <=? t) l.
Proof.
  intros Hc. induction l as [|t l IH]; simpl; [done|].
  destruct (Z.leb_spec c t), (Z.leb_spec T0 t); simpl; rewrite ?IH; try done; try lia.
  - by rewrite (proj2 (Z.leb_le T0 t)).
  - destruct (Z.leb_spec T0 t); [lia|done].
Qed.

Lemma prune_since e :
  breakerOf e -> clock (pe_tick e) <= T0 + cb_windowMs cfg ->
  let e' := pruneViolations clock e in
  breakerOf e' /\ since e' = since e /\ pe_mode e' = pe_mode e /\ pe_tick e' = S (pe_tick e).
Proof.
  intros [Hcb HT] Hle. unfold pruneViolations. rewrite Hcb. unfold now. split_and!; [|simpl|done|done].
  - split; [done|]. simpl. etransitivity; [exact HT|]. apply clock_mono. lia.
  - unfold since. simpl. rewrite filter_since; [done|lia].
Qed.

Lemma record_since v e : breakerOf e -> let e' := recordViolation clock v e in
  breakerOf e' /\ since e' = S (since e) /\ pe_mode e' = pe_mode e /\ pe_tick e' = S (pe_tick e).
Proof.
  intros [Hcb HT]. simpl. split_and!; [|unfold since; simpl|done|done].
  - split; [done|]. simpl. etransitivity; [exact HT|]. apply clock_mono. lia.
  - rewrite List.filter_app, length_app. simpl. rewrite (proj2 (Z.leb_le _ _) HT). simpl. lia.
Qed.

Lemma since_le e : (since e <= length (pe_violationEvents e))%nat.
Proof.
  unfold since. induction (pe_violationEvents e) as [|t l IH]; simpl; [lia|]. destruct (T0 <=? t); simpl; lia.
Qed.

(** The breaker keeps the violations, and stays in the normal mode only below
    the threshold. *)
Lemma trip_since e :
  truthy (cb_enabled cfg) = true -> cb_mode cfg <> normal -> breakerOf e ->
  let e' := maybeAutoTripCircuitBreaker clock e in
  (clock (pe_tick e') <= T0 + cb_windowMs cfg) ->
  breakerOf e' /\ since e' = since e /\ (pe_tick e <= pe_tick e')%nat /\
  (pe_mode e' = normal -> Z.of_nat (since e) < cb_threshold cfg).
Proof.
  intros Hen Hmode Hb. pose proof (proj1 Hb) as Hcb. unfold maybeAutoTripCircuitBreaker. rewrite Hcb, Hen. simpl.
  destruct (bool_decide_reflect (pe_mode e = normal)) as [Hn|Hn]; simpl; [|intros _; split_and!; [done|done|lia|done]].
  assert (pe_tick (pruneViolations clock e) = S (pe_tick e)) as Hpt by (unfold pruneViolations; by rewrite Hcb).
  pose proof (clock_mono (pe_tick e) (S (pe_tick e))) as Hc1.
  pose proof (clock_mono (S (pe_tick e)) (S (S (pe_tick e)))) as Hc2.
  destruct (Z.ltb_spec (Z.of_nat (length (pe_violationEvents (pruneViolations clock e)))) (cb_threshold cfg)) as [Hlt|Hge].
  - rewrite Hpt. intros Hle. destruct (prune_since e Hb ltac:(lia)) as (Hb' & Hs & _ & Ht).
    split_and!; [done|done|lia|]. intros _. pose proof (since_le (pruneViolations clock e)). lia.
  - simpl. rewrite Hpt. intros Hle. destruct (prune_since e Hb ltac:(lia)) as ([Hb1 Hb2] & Hs & _ & Ht).
    split_and!; [|done|lia|done]. split; [done|]. simpl. rewrite ?Hpt. pose proof (proj2 Hb). lia.
Qed.

(** What a call adds to the denials. *)
Definition denial (c : call) (ok : bool) : nat :=
  match c with Evaluate _ | Simulate _ => if ok then 0 else 1 | _ => 0 end.

(** Below the threshold, or nothing denied yet. *)
Definition belowThreshold (n : nat) : Prop := n = 0%nat \/ Z.of_nat n < cb_threshold cfg.

Record watched (n : nat) (e : PolicyEngine) : Prop := {
  w_breaker : breakerOf e;
  w_since : (n <= since e)%nat;
  w_mode : pe_mode e = normal -> belowThreshold n;
}.

Lemma evaluate_watched a consume n e :
  truthy (cb_enabled cfg) = true -> cb_mode cfg <> normal -> watched n e ->
  let '(e', d) := evaluateInternal regex_test clock a consume e in
  clock (pe_tick e') <= T0 + cb_windowMs cfg ->
  watched (n + if d_allowed d then 0 else 1) e' /\ (pe_tick e <= pe_tick e')%nat.
Proof.
  intros Hen Hmode [Hb Hs Hm]. pose proof (evaluate_stages a consume e) as Hst.
  destruct (evaluateInternal _ _ a consume e) as [e' d]. destruct Hst as (e2 & (Hp & Ht & Hk) & _ & Hcase).
  assert (pe_tick (pruneViolations clock e) = S (pe_tick e)) as Hpt
    by (unfold pruneViolations; by rewrite (proj1 Hb)).
  injection Hk as Hk1 Hk2 _. intros Hle.
  assert (clock (pe_tick e2) <= clock (pe_tick e') /\ (pe_tick e2 <= pe_tick e')%nat) as [Hc2 Ht2].
  { assert (pe_tick e2 <= pe_tick e')%nat; [|split; [by apply clock_mono|done]].
    destruct Hcase as [(_ & _ & ->)|(_ & v & rest & _ & ->)]; [done|].
    by apply (record_keeps clock (fun _ => tt)). }
  destruct (prune_since e Hb) as (Hb1 & Hs1 & Hm1 & _).
  { etransitivity; [apply (clock_mono _ (pe_tick e2)); lia|lia]. }
  assert (breakerOf e2) as Hb2.
  { destruct Hb1 as [Hb1 HT]. split; [by rewrite Hp|]. etransitivity; [exact HT|]. by apply clock_mono. }
  assert (since e2 = since e) as Hs2 by (unfold since in *; rewrite Hk2; exact Hs1).
  destruct Hcase as [(-> & _ & ->)|(-> & v & rest & _ & He')].
  - split; [|lia]. rewrite Nat.add_0_r. split; [done|lia|]. rewrite Hk1, Hm1. done.
  - destruct (record_since v e2 Hb2) as (Hb3 & Hs3 & _ & Ht3). rewrite He' in Hle |- *.
    destruct (trip_since _ Hen Hmode Hb3 Hle) as (Hb4 & Hs4 & Ht4 & Hm4).
    split; [|rewrite He' in Ht2; lia]. split; [done|lia|]. intros Hn. right. specialize (Hm4 Hn). lia.
Qed.

(** The calls that leave the mode to the breaker. *)
Definition hands_off (c : call) : bool := match c with SetMode _ _ | ClearMode => false | _ => true end.

Lemma exec_watched c n e :
  truthy (cb_enabled cfg) = true -> cb_mode cfg <> normal -> hands_off c = true -> watched n e ->
  let '(e', ok) := exec regex_test clock c e in
  clock (pe_tick e') <= T0 + cb_windowMs cfg -> watched (n + denial c ok) e'.
Proof.
  intros Hen Hmode Hh Hw. destruct c as [a|a|m r| |]; try done; cbn [exec denial].
  - pose proof (evaluate_watched a true n e Hen Hmode Hw) as He. unfold evaluate.
    destruct (evaluateInternal _ _ a true e) as [e' d]. intros Hle. by destruct (He Hle).
  - pose proof (evaluate_watched a false n e Hen Hmode Hw) as He. unfold simulate.
    destruct (evaluateInternal _ _ a false e) as [e' d]. intros Hle. by destruct (He Hle).
  - unfold getState. cbn [fst]. intros Hle. destruct Hw as [Hb Hs Hm].
    assert (pe_tick (pruneViolations clock e) = S (pe_tick e)) as Hpt
      by (unfold pruneViolations; by rewrite (proj1 Hb)).
    destruct (prune_since e Hb) as (Hb1 & Hs1 & Hm1 & _).
    { etransitivity; [apply (clock_mono _ (S (pe_tick e))); lia|by rewrite <-Hpt]. }
    rewrite Nat.add_0_r. split; [done|lia|by rewrite Hm1].
Qed.
End Window.

Lemma exec_tick c e : (pe_tick e <= pe_tick (exec regex_test clock c e).1)%nat.
Proof.
  destruct c as [a|a|m r| |]; cbn [exec].
  - destruct (evaluate_policy regex_test clock a e) as [_ Ht]. by destruct (evaluate _ _ a e).
  - destruct (simulate_keeps regex_test clock (fun _ => tt) a e) as (_ & Ht & _); [done|].
    by destruct (simulate _ _ a e).
  - simpl. lia.
  - simpl. lia.
  - by apply (prune_keeps clock (fun _ => tt)).
Qed.

Lemma run_tick calls e : (pe_tick e <= pe_tick (run regex_test clock calls e).2)%nat.
Proof.
  revert e. induction calls as [|c calls IH]; intros e; simpl; [lia|]. pose proof (exec_tick c e) as Ht.
  destruct (exec _ _ c e) as [e1 ok]. specialize (IH e1). destruct (run _ _ calls e1) as [evs e2]. simpl in *. lia.
Qed.

(** The denied evaluations of a run. *)
Definition denials (evs : list evaluation) : nat :=
  foldr (fun ev n => (denial (ev_call ev) (ev_allowed ev) + n)%nat) 0%nat evs.

Lemma run_watched cfg T0 calls n e :
  truthy (cb_enabled cfg) = true -> cb_mode cfg <> normal -> Forall (fun c => hands_off c = true) calls ->
  watched cfg T0 n e ->
  let '(evs, e') := run regex_test clock calls e in
  clock (pe_tick e') <= T0 + cb_windowMs cfg -> watched cfg T0 (n + denials evs) e'.
Proof.
  intros Hen Hmode Hh. revert n e. induction Hh as [|c calls Hc _ IH]; intros n e Hw; simpl.
  { intros _. by rewrite Nat.add_0_r. }
  pose proof (exec_watched cfg T0 c n e Hen Hmode Hc Hw) as He. destruct (exec _ _ c e) as [e1 ok].
  specialize (IH (n + denial c ok)%nat e1). pose proof (run_tick calls e1) as Ht.
  destruct (run _ _ calls e1) as [evs e2]. simpl in *. intros Hle.
  rewrite Nat.add_assoc. apply IH; [|done]. apply He. etransitivity; [by apply clock_mono|done].
Qed.

(** The circuit breaker bounds denials. Start from any engine whose policy
    has an enabled breaker, and make any evaluations, simulations and state
    reads that together last no longer than the breaker's window. If the engine
    is then still in the normal mode, either nothing was denied or fewer than
    [threshold] evaluations and simulations were. *)
Theorem breaker_bounds_denials cfg calls e :
  circuitBreaker (bundle (pe_policy e)) = Some cfg -> truthy (cb_enabled cfg) = true ->
  cb_mode cfg <> normal -> Forall (fun c => hands_off c = true) calls ->
  let '(evs, e') := run regex_test clock calls e in
  clock (pe_tick e') - clock (pe_tick e) <= cb_windowMs cfg ->
  pe_mode e' = normal -> denials evs = 0%nat \/ Z.of_nat (denials evs) < cb_threshold cfg.
Proof.
  intros Hcb Hen Hmode Hh.
  pose proof (run_watched cfg (clock (pe_tick e)) calls 0 e Hen Hmode Hh) as Hr.
  destruct (run _ _ calls e) as [evs e']. intros Hle Hn. simpl in Hr.
  apply (w_mode cfg (clock (pe_tick e)) _ e'); [|done]. apply Hr; [|lia]. split; [by split|lia|by left].
Qed.

(** ** A tripped breaker *)

(** What a mode forbids. *)
Definition forbids (m : CircuitBreakerMode) (a : PolicyAction) : Prop :=
  match m with
  | normal => False
  | pause_discovery => a_type a = task_discovery
  | halt_submissions => a_type a = tx_submission
  | safe_mode => a_access a = write
  end.

Lemma checkCircuitMode_forbids m a : is_Some (checkCircuitMode m a) <-> forbids m a.
Proof.
  destruct m; simpl; [split; [by intros [? [=]]|done]| | |]; case_bool_decide as Hd;
    (split; [intros [? He]; try discriminate He; done|intros Hf; try done; by eexists]).
Qed.

Lemma prune_mode e : pe_mode (pruneViolations clock e) = pe_mode e.
Proof. unfold pruneViolations. by destruct (circuitBreaker _). Qed.

Lemma trip_latched e : pe_mode e <> normal -> maybeAutoTripCircuitBreaker clock e = e.
Proof.
  intros Hm. unfold maybeAutoTripCircuitBreaker. destruct (circuitBreaker _) as [cfg|]; [|done].
  destruct (negb (truthy _)); [done|]. by rewrite bool_decide_false.
Qed.

Lemma evaluate_latched a consume e :
  let '(e', d) := evaluateInternal regex_test clock a consume e in
  (pe_mode e <> normal -> pe_mode e' = pe_mode e) /\ (forbids (pe_mode e) a -> d_allowed d = false).
Proof.
  pose proof (evaluate_stages a consume e) as Hst.
  destruct (evaluateInternal _ _ a consume e) as [e' d] eqn:He. split.
  - intros Hm. destruct Hst as (e2 & (_ & _ & Hk) & _ & Hcase). injection Hk as Hk _ _. rewrite prune_mode in Hk.
    destruct Hcase as [(_ & _ & ->)|(_ & v & rest & _ & ->)]; [done|].
    rewrite trip_latched; simpl; congruence.
  - intros [v Hv]%checkCircuitMode_forbids. unfold evaluateInternal in He. rewrite prune_mode, Hv in He. cbv zeta in He.
    destruct (if truthy _ then _ else _) as [e2 vs]. by injection He as _ <-.
Qed.

(** A tripped breaker stays tripped and is obeyed. From an engine in any
    other mode than normal, evaluations, simulations and state reads leave the
    mode as it is, whatever the policy says, and allow no action the mode
    forbids: discovery when discovery is paused, submissions when they are
    halted, writes in safe mode. Only [setMode] and [clearMode] end it. *)
Theorem tripped_breaker_obeyed calls e :
  pe_mode e <> normal -> Forall (fun c => hands_off c = true) calls ->
  let '(evs, e') := run regex_test clock calls e in
  pe_mode e' = pe_mode e /\
  Forall (fun ev => forall a, ev_call ev = Evaluate a \/ ev_call ev = Simulate a ->
            forbids (pe_mode e) a -> ev_allowed ev = false) evs.
Proof.
  intros Hm Hh. revert e Hm. induction Hh as [|c calls Hc _ IH]; intros e Hm; simpl; [by split; [|constructor]|].
  assert (let '(e1, ok) := exec regex_test clock c e in pe_mode e1 = pe_mode e /\
    forall a, c = Evaluate a \/ c = Simulate a -> forbids (pe_mode e) a -> ok = false) as Hstep.
  { destruct c as [a|a|m r| |]; try done; cbn [exec].
    - pose proof (evaluate_latched a true e) as He. unfold evaluate.
      destruct (evaluateInternal _ _ a true e) as [e1 d]. destruct He as [H1 H2]. split; [by apply H1|].
      intros a' [[= <-]|[=]]. done.
    - pose proof (evaluate_latched a false e) as He. unfold simulate.
      destruct (evaluateInternal _ _ a false e) as [e1 d]. destruct He as [H1 H2]. split; [by apply H1|].
      intros a' [[=]|[= <-]]. done.
    - unfold getState. simpl. split; [apply prune_mode|]. by intros a' [[=]|[=]]. }
  destruct (exec _ _ c e) as [e1 ok]. destruct Hstep as [Hmode Hok].
  specialize (IH e1 ltac:(by rewrite Hmode)). destruct (run _ _ calls e1) as [evs e2]. rewrite Hmode in IH.
  destruct IH as [IH1 IH2]. split; [done|]. by constructor.
Qed.
End Breaker.

#[local] Existing Instance ex_path.

Lemma breaker_bounds_denials_witness :
  let '(evs, e') := run ex_regex ex_clock ex_calls (newPolicyEngine ex_policy) in
  (denials evs, pe_mode e') = (1%nat, normal) /\ (denials evs = 0%nat \/ Z.of_nat (denials evs) < 2).
Proof.
  pose proof (breaker_bounds_denials ex_regex ex_clock ex_clock_mono
    {| cb_enabled := Some true; cb_threshold := 2; cb_windowMs := 20; cb_mode := safe_mode |}
    ex_calls (newPolicyEngine ex_policy)) as Hb.
  match type of Hb with context [run ?r ?c ?l ?e] =>
    assert (match run r c l e with (evs, e') => (denials evs, pe_mode e', pe_tick e') end =
            (1%nat, normal, 19%nat)) as Hr by (vm_compute; reflexivity) end.
  destruct (run _ _ _ _) as [evs e']. injection Hr as H1 H2 H3. rewrite H1, H2, H3 in *.
  split; [done|]. apply Hb; [done|done|discriminate|by repeat constructor|vm_compute; discriminate|done].
Defined.

(** Three more attempts trip the breaker, which then blocks a write that no
    budget would stop. *)
Definition ex_tripped : PolicyEngine :=
  (run ex_regex ex_clock (ex_calls ++ [Simulate ex_deploy]) (newPolicyEngine ex_policy)).2.

Lemma tripped_breaker_obeyed_witness :
  pe_mode ex_tripped = safe_mode /\
  let '(evs, e') := run ex_regex ex_clock [GetState; Evaluate ex_deploy] ex_tripped in
  pe_mode e' = safe_mode /\ Forall (fun ev => forall a, ev_call ev = Evaluate a \/ ev_call ev = Simulate a ->
            a_access a = write -> ev_allowed ev = false) evs.
Proof.
  assert (pe_mode ex_tripped = safe_mode) as Hm by (vm_compute; reflexivity). split; [exact Hm|].
  pose proof (tripped_breaker_obeyed ex_regex ex_clock [GetState; Evaluate ex_deploy] ex_tripped) as Hb.
  destruct (run _ _ _ ex_tripped) as [evs e']. rewrite Hm in Hb. apply Hb; [discriminate|by repeat constructor].
Defined.
