(* ===== verification/PolicyRulesSpec.v ===== *)
(** * What the policy's rules allow

    A declarative reading of the stateless rules, the proof that the checks of
    the engine decide it, and the sense in which an overlay restricts the
    bundle it is merged with. *)
From S2P Require Import Prelude JsMap JsString PolicyTypes RollingWindow PolicyGlob PolicyEngine PolicyBudgetSpec PolicyEngineSpec PolicyBreakerSpec.
#[local] Open Scope Z_scope.

Lemma option_list_nil {A} (o : option A) : option_list o = [] <-> o = None.
Proof. by destruct o. Qed.

Lemma find_None_iff {A} (f : A -> bool) l : List.find f l = None <-> forall x, x ∈ l -> f x = false.
Proof.
  induction l as [|x l IH]; simpl; [split; [by intros _ y ?%elem_of_nil|done]|].
  destruct (f x) eqn:Hf.
  - split; [done|]. intros Hall. specialize (Hall x ltac:(constructor)). congruence.
  - rewrite IH. split; [|intros Hall y Hy; apply Hall; by constructor].
    intros Hall y [->|Hy]%elem_of_cons; [done|by apply Hall].
Qed.

Lemma existsb_elem {A} (f : A -> bool) (l : list A) : existsb f l = true <-> exists x, x ∈ l /\ f x = true.
Proof. rewrite existsb_exists. by setoid_rewrite list_elem_of_In. Qed.

Section Rules.
Context `{NP : NodePath} (regex_test : string -> string -> option bool).

(** A name against a pair of lists: not denied, and on the allow list unless
    that is empty. *)
Definition listAllows (allow deny : option (list string)) (name : string) : Prop :=
  name ∉ default [] deny /\ (default [] allow <> [] -> name ∈ default [] allow).

Definition classAllows (rule : PolicyClassRule) (risk : option Z) : Prop :=
  truthy (class_deny rule) = false /\
  forall m r, class_maxRiskScore rule = Some m -> risk = Some r -> r <= m.

(** A host or path against the non-blank patterns of a rule. *)
Definition patternsAllow (test : string -> bool) (allow deny : option (list string)) : Prop :=
  (forall x, x ∈ default [] (nonBlanks deny) -> test x = false) /\
  (default [] (nonBlanks allow) <> [] -> exists x, x ∈ default [] (nonBlanks allow) /\ test x = true).

Record rulesAllow (p : RuntimePolicyBundleConfig) (a : PolicyAction) : Prop := {
  ra_tool : a_type a = tool_call -> listAllows (toolAllowList p) (toolDenyList p) (a_name a);
  ra_action : listAllows (allowActions p) (denyActions p) (a_name a);
  ra_class : forall c rule, a_policyClass a = Some c ->
    mget (default [] (policyClassRules p)) (class_name c) = Some rule -> classAllows rule (a_riskScore a);
  ra_risk : forall m r, maxRiskScore p = Some m -> a_riskScore a = Some r -> r <= m;
  ra_hosts : forall rule host, networkAccess p = Some rule -> host ∈ stringsOf (a_networkHosts a) ->
    patternsAllow (fun pattern => globMatch regex_test pattern host) (allowHosts rule) (denyHosts rule);
  ra_paths : forall rule path, writeScope p = Some rule -> path ∈ stringsOf (a_writePaths a) ->
    isAbsolute path = true /\ patternsAllow (pathMatchesRoot path) (allowRoots rule) (denyRoots rule);
}.

(** ** The checks decide it *)

Lemma notAllowed_false allow name :
  notAllowed allow name = false <-> (default [] allow <> [] -> name ∈ default [] allow).
Proof.
  destruct allow as [[|x l]|]; [split; [by intros _ []|done]| |split; [by intros _ []|done]].
  unfold notAllowed. change (default [] (Some (x :: l))) with (x :: l).
  rewrite negb_false_iff, has_true. split; [done|]. intros Ha. by apply Ha.
Qed.

Lemma listAllows_checks {A} (allow deny : option (list string)) name (v1 v2 : A) :
  (if has (default [] deny) name then Some v1 else if notAllowed allow name then Some v2 else None) = None
  <-> listAllows allow deny name.
Proof.
  unfold listAllows. destruct (has (default [] deny) name) eqn:Hd.
  - apply has_true in Hd. split; [done|by intros []].
  - apply has_false in Hd. rewrite <-notAllowed_false. destruct (notAllowed allow name); split; try done. by intros [].
Qed.

Lemma checkToolRules_iff a p : checkToolRules a p = None <->
  (a_type a = tool_call -> listAllows (toolAllowList p) (toolDenyList p) (a_name a)).
Proof.
  unfold checkToolRules. case_bool_decide as Ht; simpl.
  - rewrite listAllows_checks. split; [done|]. intros Ha. by apply Ha.
  - by split.
Qed.

Lemma checkPolicyClass_iff a p : checkPolicyClass a p = None <->
  forall c rule, a_policyClass a = Some c ->
    mget (default [] (policyClassRules p)) (class_name c) = Some rule -> classAllows rule (a_riskScore a).
Proof.
  unfold checkPolicyClass, classAllows. destruct (a_policyClass a) as [c|]; [|by split].
  destruct (mget _ _) as [rule|] eqn:Hr; [|split; [intros _ c' rule' [= <-]; congruence|done]].
  trans (truthy (class_deny rule) = false /\
    forall m r, class_maxRiskScore rule = Some m -> a_riskScore a = Some r -> r <= m).
  2: { split; [intros Hc c' rule' [= <-] Hr'; rewrite Hr in Hr'; by injection Hr' as <-|].
       intros Hc. by apply (Hc c rule). }
  destruct (truthy (class_deny rule)); [by split; [|intros []]|].
  destruct (class_maxRiskScore rule) as [m|]; [|by split; [split; [|intros ?? [=]]|]].
  destruct (a_riskScore a) as [r|]; [|by split; [split; [|intros ??? [=]]|]].
  destruct (Z.gtb_spec r m).
  - split; [done|]. intros [_ Hm]. specialize (Hm m r eq_refl eq_refl). lia.
  - split; [|done]. intros _. split; [done|]. intros m' r' [= <-] [= <-]. lia.
Qed.

Lemma checkRisk_iff a p : checkRisk a p = None <->
  forall m r, maxRiskScore p = Some m -> a_riskScore a = Some r -> r <= m.
Proof.
  unfold checkRisk. destruct (maxRiskScore p) as [m|]; [|by split; [intros _ ?? [=]|]].
  destruct (a_riskScore a) as [r|]; [|by split; [intros _ ??? [=]|]].
  destruct (Z.leb_spec r m); split; try done.
  - by intros _ m' r' [= <-] [= <-].
  - intros Hm. specialize (Hm m r eq_refl eq_refl). lia.
Qed.

Lemma checkActionRules_iff a p : checkActionRules a p = None <->
  listAllows (allowActions p) (denyActions p) (a_name a).
Proof. apply listAllows_checks. Qed.

(** Non-empty pattern lists, as the code tests them. *)
Lemma nonBlanks_cases (l : option (list string)) :
  (default [] (nonBlanks l) = [] /\ (nonBlanks l = None \/ nonBlanks l = Some [])) \/
  (exists x xs, nonBlanks l = Some (x :: xs)).
Proof. destruct (nonBlanks l) as [[|x xs]|]; [by left; auto|right; by eauto|by left; auto]. Qed.

Lemma existsb_none {A} (f : A -> bool) (l : list A) : existsb f l = false <-> forall x, x ∈ l -> f x = false.
Proof. by rewrite existsb_false, Forall_forall. Qed.

Lemma findDeniedHost_None hosts rule : findDeniedHost regex_test hosts rule = None <->
  forall host x, host ∈ hosts -> x ∈ default [] (nonBlanks (denyHosts rule)) -> globMatch regex_test x host = false.
Proof.
  unfold findDeniedHost. destruct (nonBlanks_cases (denyHosts rule)) as [[Hd [Hn|Hn]]|(y & ys & Hn)]; rewrite Hn in *.
  - split; [by intros _ host x _ ?%elem_of_nil|done].
  - split; [by intros _ host x _ ?%elem_of_nil|done].
  - rewrite find_None_iff. setoid_rewrite existsb_none. change (default [] (Some (y :: ys))) with (y :: ys).
    split; [intros Ha host x Hh Hx; by apply Ha|intros Ha host Hh x Hx; by apply Ha].
Qed.

Lemma allowHosts_None hosts rule :
  match nonBlanks (allowHosts rule) with
  | None | Some [] => None
  | Some patterns =>
      List.find (fun host => negb (existsb (fun x => globMatch regex_test x host) patterns)) hosts
  end = None <->
  forall host, host ∈ hosts -> default [] (nonBlanks (allowHosts rule)) <> [] ->
    exists x, x ∈ default [] (nonBlanks (allowHosts rule)) /\ globMatch regex_test x host = true.
Proof.
  destruct (nonBlanks_cases (allowHosts rule)) as [[Hd [Hn|Hn]]|(y & ys & Hn)]; rewrite Hn in *; try (by split).
  rewrite find_None_iff. change (default [] (Some (y :: ys))) with (y :: ys).
  setoid_rewrite negb_false_iff. setoid_rewrite existsb_elem.
  split; [intros Ha host Hh _; by apply Ha|intros Ha host Hh; by apply Ha].
Qed.

Lemma checkNetworkAccess_iff a p : checkNetworkAccess regex_test a p = None <->
  forall rule host, networkAccess p = Some rule -> host ∈ stringsOf (a_networkHosts a) ->
    patternsAllow (fun pattern => globMatch regex_test pattern host) (allowHosts rule) (denyHosts rule).
Proof.
  unfold checkNetworkAccess. destruct (networkAccess p) as [rule|]; [|by split].
  trans (forall host, host ∈ stringsOf (a_networkHosts a) ->
    patternsAllow (fun pattern => globMatch regex_test pattern host) (allowHosts rule) (denyHosts rule)).
  2: { split; [by intros Ha rule' host [= <-]; apply Ha|intros Ha host; by apply Ha]. }
  trans (findDeniedHost regex_test (stringsOf (a_networkHosts a)) rule = None /\
    match nonBlanks (allowHosts rule) with
    | None | Some [] => None
    | Some patterns =>
        List.find (fun host => negb (existsb (fun x => globMatch regex_test x host) patterns))
          (stringsOf (a_networkHosts a))
    end = None).
  - destruct (stringsOf _) as [|h hs].
    + split; [|done]. intros _. split; [rewrite findDeniedHost_None; by intros host x ?%elem_of_nil|].
      by destruct (nonBlanks (allowHosts rule)) as [[|]|].
    + destruct (findDeniedHost _ _ _); [by split; [|intros []]|].
      destruct (nonBlanks (allowHosts rule)) as [[|x xs]|]; [by split| |by split].
      destruct (List.find _ _); [by split; [|intros []]|by split].
  - rewrite findDeniedHost_None, allowHosts_None. unfold patternsAllow.
    split; [intros [Hd Ha] host Hh; split; [intros x; by apply Hd|by apply Ha]|].
    intros Hp. split; [intros host x Hh; by apply (Hp host Hh)|intros host Hh; by apply (Hp host Hh)].
Qed.

Lemma writePathViolation_iff rule path : writePathViolation rule path = None <->
  isAbsolute path = true /\ patternsAllow (pathMatchesRoot path) (allowRoots rule) (denyRoots rule).
Proof.
  unfold writePathViolation, patternsAllow. destruct (isAbsolute path); simpl; [|by split; [|intros []]].
  destruct (existsb _ (default [] (nonBlanks (denyRoots rule)))) eqn:Hd.
  - split; [done|]. intros (_ & Hn & _). apply existsb_elem in Hd as (x & Hx & Hm). rewrite Hn in Hm; done.
  - rewrite existsb_none in Hd.
    destruct (nonBlanks_cases (allowRoots rule)) as [[Ha [Hn|Hn]]|(y & ys & Hn)]; rewrite Hn in *; try (by split).
    change (default [] (Some (y :: ys))) with (y :: ys). destruct (existsb _ (y :: ys)) eqn:He.
    + rewrite existsb_elem in He. by split.
    + split; [done|]. intros (_ & _ & Ha). destruct Ha as (x & Hx & Hm); [done|].
      rewrite existsb_none in He. by rewrite He in Hm.
Qed.

Lemma checkWriteScope_iff a p : checkWriteScope a p = None <->
  forall rule path, writeScope p = Some rule -> path ∈ stringsOf (a_writePaths a) ->
    isAbsolute path = true /\ patternsAllow (pathMatchesRoot path) (allowRoots rule) (denyRoots rule).
Proof.
  unfold checkWriteScope. destruct (writeScope p) as [rule|]; [|by split].
  trans (findWriteScopeViolation rule (stringsOf (a_writePaths a)) = None).
  { destruct (findWriteScopeViolation _ _) as [[]|]; by split. }
  trans (forall path, path ∈ stringsOf (a_writePaths a) -> writePathViolation rule path = None).
  - induction (stringsOf (a_writePaths a)) as [|x l IH]; simpl; [by split; [intros _ y ?%elem_of_nil|]|].
    destruct (writePathViolation rule x) as [m|] eqn:Hx.
    + split; [done|]. intros Ha. specialize (Ha x ltac:(constructor)). congruence.
    + rewrite IH. split; [intros Ha y [->|Hy]%elem_of_cons; auto|intros Ha y Hy; apply Ha; by constructor].
  - setoid_rewrite writePathViolation_iff.
    split; [by intros Ha rule' path [= <-]; apply Ha|intros Ha path; by apply Ha].
Qed.

(** The violations of the stateless checks, in order. *)
Definition staticViolations (a : PolicyAction) (p : RuntimePolicyBundleConfig) : list PolicyViolation :=
  option_list (checkToolRules a p) ++ option_list (checkActionRules a p) ++
  option_list (checkPolicyClass a p) ++ option_list (checkRisk a p) ++
  option_list (checkNetworkAccess regex_test a p) ++ option_list (checkWriteScope a p).

Lemma staticViolations_iff a p : staticViolations a p = [] <-> rulesAllow p a.
Proof.
  unfold staticViolations. rewrite !app_nil, !option_list_nil.
  rewrite checkToolRules_iff, checkActionRules_iff, checkPolicyClass_iff, checkRisk_iff,
    checkNetworkAccess_iff, checkWriteScope_iff.
  split; [intros (H1 & H2 & H3 & H4 & H5 & H6); by split|intros []; by split_and!].
Qed.

(** ** The decision *)

Context (clock : nat -> Z).

(** The elapsed runtime and the process count stay within the budget of every
    scope of the action. *)
Record samplesAllow (p : RuntimePolicyBundleConfig) (rc : ResolvedPolicyContext) (a : PolicyAction) : Prop := {
  sa_runtime : forall base scope value b observed,
    a_elapsedRuntimeMs a = Some base -> (scope, value) ∈ scopesOf rc a ->
    scopedBudget (runtimeBudget p) (scopedRuntimeBudgets p) scope = Some b ->
    resolveScopedNumericValue (Some base) (a_elapsedRuntimeMsByScope a) scope = Some observed ->
    observed <= maxElapsedMs b;
  sa_process : forall base scope value b observed,
    a_processCount a = Some base -> (scope, value) ∈ scopesOf rc a ->
    scopedBudget (processBudget p) (scopedProcessBudgets p) scope = Some b ->
    resolveScopedNumericValue (Some base) (a_processCountByScope a) scope = Some observed ->
    observed <= maxConcurrent b;
}.

Lemma firstViolation_None check (scopes : list (Scope * option string)) :
  firstViolation check scopes = None <-> forall scope value, (scope, value) ∈ scopes -> check scope value = None.
Proof.
  induction scopes as [|[s v] l IH]; simpl; [by split; [intros _ ?? ?%elem_of_nil|]|].
  destruct (check s v) as [x|] eqn:Hx.
  - split; [done|]. intros Ha. specialize (Ha s v ltac:(constructor)). congruence.
  - rewrite IH. split; [intros Ha s' v' [[= -> ->]|Hin]%elem_of_cons; [done|by apply Ha]|].
    intros Ha s' v' Hin. apply Ha. by constructor.
Qed.

Lemma sampleViolations_iff p rc a :
  option_list (checkRuntimeBudget a p rc) ++ option_list (checkProcessBudget a p rc) = [] <-> samplesAllow p rc a.
Proof.
  rewrite app_nil, !option_list_nil. unfold checkRuntimeBudget, checkProcessBudget. split.
  - intros [Hr Hp]. split; intros base scope value b observed Ha Hin Hb Ho.
    + rewrite Ha, firstViolation_None in Hr. specialize (Hr scope value Hin).
      unfold enforceRuntimeBudget in Hr. rewrite Hb, Ha, Ho in Hr.
      destruct (Z.leb_spec observed (maxElapsedMs b)); [lia|done].
    + rewrite Ha, firstViolation_None in Hp. specialize (Hp scope value Hin).
      unfold enforceProcessBudget in Hp. rewrite Hb, Ha, Ho in Hp.
      destruct (Z.leb_spec observed (maxConcurrent b)); [lia|done].
  - intros [Hr Hp]. split.
    + destruct (a_elapsedRuntimeMs a) as [base|] eqn:Ha; [|done]. apply firstViolation_None. intros scope value Hin.
      unfold enforceRuntimeBudget. rewrite Ha. destruct (scopedBudget _ _ _) as [b|] eqn:Hb; [|done].
      destruct (resolveScopedNumericValue _ _ _) as [o|] eqn:Ho; [|done].
      specialize (Hr base scope value b o eq_refl Hin Hb Ho). by rewrite (proj2 (Z.leb_le _ _) Hr).
    + destruct (a_processCount a) as [base|] eqn:Ha; [|done]. apply firstViolation_None. intros scope value Hin.
      unfold enforceProcessBudget. rewrite Ha. destruct (scopedBudget _ _ _) as [b|] eqn:Hb; [|done].
      destruct (resolveScopedNumericValue _ _ _) as [o|] eqn:Ho; [|done].
      specialize (Hp base scope value b o eq_refl Hin Hb Ho). by rewrite (proj2 (Z.leb_le _ _) Hp).
Qed.

Definition budgetCode (c : ViolationCode) : Prop :=
  c = action_budget_exceeded \/ c = spend_budget_exceeded \/ c = token_budget_exceeded.

Lemma forScopes_code (Q : PolicyViolation -> Prop) check scopes e v :
  (forall scope value e v, (check scope value e).2 = Some v -> Q v) ->
  (forScopes check scopes e).2 = Some v -> Q v.
Proof.
  intros Hc. revert e. induction scopes as [|[s x] l IH]; intros e; simpl; [done|].
  pose proof (Hc s x e) as Hs. destruct (check s x e) as [e1 [v1|]]; simpl in *; [|apply IH].
  intros [= <-]. by apply Hs.
Qed.

Lemma actionBudget_code a p rc consume e v :
  (checkAndConsumeActionBudget clock a p rc consume e).2 = Some v -> budgetCode (v_code v).
Proof.
  apply (forScopes_code (fun v => budgetCode (v_code v))). intros scope value e' v'. unfold consumeActionBudget, now.
  destruct (actionBudgetOf _ _) as [b|]; [|done]. destruct (_ <=? _); [|done]. intros [= <-]. by left.
Qed.

Lemma spendBudget_code a p rc consume e v :
  (checkAndConsumeSpendBudget clock a p rc consume e).2 = Some v -> budgetCode (v_code v).
Proof.
  unfold checkAndConsumeSpendBudget. destruct (a_spendLamports a) eqn:Ha; [|done].
  apply (forScopes_code (fun v => budgetCode (v_code v))). intros scope value e' v'. unfold consumeSpendBudget, now. rewrite Ha.
  destruct (scopedBudget _ _ _) as [b|]; [|done]. destruct (_ >? _); [|done]. intros [= <-]. by right; left.
Qed.

Lemma tokenBudget_code a p rc consume e v :
  (checkAndConsumeTokenBudget clock a p rc consume e).2 = Some v -> budgetCode (v_code v).
Proof.
  unfold checkAndConsumeTokenBudget. destruct (a_tokenCount a) eqn:Ha; [|done].
  apply (forScopes_code (fun v => budgetCode (v_code v))). intros scope value e' v'. unfold consumeTokenBudget, now. rewrite Ha.
  destruct (scopedBudget _ _ _) as [b|]; [|done]. destruct (_ >? _); [|done]. intros [= <-]. by right; right.
Qed.

(** The violations [runChecks] finds: those of the rules, those of the rolling
    budgets, those of the samples. *)
Lemma runChecks_violations a rc consume e :
  exists budget, (runChecks regex_test clock a rc consume e).2 =
    staticViolations a (rc_policy rc) ++ budget ++
    option_list (checkRuntimeBudget a (rc_policy rc) rc) ++ option_list (checkProcessBudget a (rc_policy rc) rc) /\
    Forall (fun v => budgetCode (v_code v)) budget.
Proof.
  unfold runChecks.
  pose proof (actionBudget_code a (rc_policy rc) rc consume e) as C1.
  destruct (checkAndConsumeActionBudget _ _ _ _ _ _) as [e1 v1].
  pose proof (spendBudget_code a (rc_policy rc) rc consume e1) as C2.
  destruct (checkAndConsumeSpendBudget _ _ _ _ _ e1) as [e2 v2].
  pose proof (tokenBudget_code a (rc_policy rc) rc consume e2) as C3.
  destruct (checkAndConsumeTokenBudget _ _ _ _ _ e2) as [e3 v3]. cbn [snd] in *.
  exists (option_list v1 ++ option_list v2 ++ option_list v3). split.
  - unfold staticViolations. by rewrite <-!app_assoc.
  - rewrite !Forall_app. split_and!; [destruct v1|destruct v2|destruct v3]; simpl; auto.
Qed.

(** C6. When an action is allowed. [evaluate] and [simulate] allow an action
    exactly when the mode does not forbid it, the rules and samples of the
    bundle in force (if enabled) allow it, and the decision reports no exhausted
    rolling budget: deny lists win, non-empty allow lists are exhaustive, risk
    scores stay below the bounds of the bundle and of the action's class, hosts
    and absolute write paths match the patterns and roots. *)
Theorem evaluate_decision_iff a consume e :
  let rc := resolvePolicyContext (pe_policy e) (a_scope a) in
  let d := (evaluateInternal regex_test clock a consume e).2 in
  d_allowed d = true <->
  ~ forbids (pe_mode e) a /\
  (truthy (enabled (rc_policy rc)) = true -> rulesAllow (rc_policy rc) a /\ samplesAllow (rc_policy rc) rc a) /\
  Forall (fun v => ~ budgetCode (v_code v)) (d_violations d).
Proof.
  unfold evaluateInternal. cbv zeta. set (e1 := pruneViolations clock e).
  replace (pe_policy e) with (pe_policy e1) by (unfold e1, pruneViolations; by destruct (circuitBreaker _)).
  replace (pe_mode e) with (pe_mode e1) by apply prune_mode.
  set (rc := resolvePolicyContext (pe_policy e1) (a_scope a)).
  rewrite <-checkCircuitMode_forbids, <-eq_None_not_Some, <-option_list_nil.
  destruct (if truthy _ then _ else _) as [e2 vs] eqn:He. cbn [snd d_allowed d_violations].
  trans (option_list (checkCircuitMode (pe_mode e1) a) = [] /\ vs = []).
  { rewrite <-app_nil. destruct (option_list _ ++ vs); by split. }
  destruct (truthy (enabled (rc_policy rc))).
  2: { injection He as _ <-. split; [|naive_solver]. intros [Hm _]. rewrite Hm. by split_and!. }
  destruct (runChecks_violations a rc consume e1) as (budget & Hv & Hb). rewrite He in Hv. cbn [snd] in Hv.
  rewrite <-staticViolations_iff, <-sampleViolations_iff. split.
  - intros [Hm Hvs]. rewrite Hvs in Hv |- *. rewrite Hm. symmetry in Hv.
    apply app_nil in Hv as [Hs Hv]. apply app_nil in Hv as [_ Hv]. by split_and!.
  - intros (Hm & Hr & Hf). split; [done|]. destruct (Hr eq_refl) as [Hs Hv']. rewrite Hs, Hv', app_nil_r in Hv.
    simpl in Hv. rewrite Hm, Hv in Hf. rewrite Hv. clear -Hb Hf. destruct budget as [|v l]; [done|].
    by inversion Hb; inversion Hf.
Qed.
End Rules.
