(* ===== verification/PolicyOverlaySpec.v ===== *)
(** * Overlays restrict

    Merging a bundle with a tenant or project overlay (bundles.ts): what the
    merged bundle allows, both parts allow, as long as no pair of allow lists
    has an empty intersection; and a merged rolling budget enforces both. *)
From S2P Require Import Prelude JsMap JsString PolicyTypes RollingWindow PolicyGlob PolicyEngine PolicyBudgetSpec PolicyEngineSpec PolicyBreakerSpec PolicyRulesSpec.
#[local] Open Scope Z_scope.

(** ** Lists *)

Lemma elem_dedupe x l : x ∈ dedupe l <-> x ∈ l.
Proof.
  assert (forall seen, x ∈ foldl (fun seen x => if has seen x then seen else seen ++ [x]) seen l <->
    x ∈ seen \/ x ∈ l) as Hg; [|unfold dedupe; rewrite Hg, elem_of_nil; naive_solver].
  induction l as [|y l IH]; intros seen; simpl.
  - rewrite elem_of_nil. naive_solver.
  - rewrite IH, elem_of_cons. destruct (has seen y) eqn:Hy.
    + apply has_true in Hy. naive_solver.
    + rewrite elem_of_app, list_elem_of_singleton. naive_solver.
Qed.

Lemma elem_union x l1 l2 :
  x ∈ default [] (unionOptionalLists l1 l2) <-> x ∈ default [] l1 \/ x ∈ default [] l2.
Proof.
  destruct l1 as [l1|], l2 as [l2|]; unfold unionOptionalLists; simpl;
    rewrite ?elem_dedupe, ?elem_of_app, ?elem_of_nil; naive_solver.
Qed.

Lemma elem_intersect x l1 l2 :
  x ∈ default [] (intersectOptionalLists l1 l2) ->
  (default [] l1 <> [] -> x ∈ default [] l1) /\ (default [] l2 <> [] -> x ∈ default [] l2).
Proof.
  destruct l1 as [[|y1 l1]|], l2 as [[|y2 l2]|]; unfold intersectOptionalLists;
    cbn [default from_option]; try (intros Hx; split; intros Hn; done).
  intros Hx%list_elem_of_In%filter_In. destruct Hx as [H1%list_elem_of_In H2%has_true]. by split.
Qed.

Lemma nonBlanks_default l : default [] (nonBlanks l) = List.filter nonBlank (default [] l).
Proof. by destruct l. Qed.

Lemma elem_nonBlanks x l : x ∈ default [] (nonBlanks l) <-> nonBlank x = true /\ x ∈ default [] l.
Proof.
  rewrite nonBlanks_default, !list_elem_of_In, filter_In. naive_solver.
Qed.

(** The allow list in force is not lost: if the intersection restricts nothing,
    neither list did. *)
Definition keepsRestriction (eff : option (list string) -> list string) (l1 l2 : option (list string)) : Prop :=
  eff (intersectOptionalLists l1 l2) = [] -> eff l1 = [] /\ eff l2 = [].

Definition plain (l : option (list string)) : list string := default [] l.
Definition patterns (l : option (list string)) : list string := default [] (nonBlanks l).

Lemma listAllows_merge a1 d1 a2 d2 name :
  keepsRestriction plain a1 a2 ->
  listAllows (intersectOptionalLists a1 a2) (unionOptionalLists d1 d2) name ->
  listAllows a1 d1 name /\ listAllows a2 d2 name.
Proof.
  intros Hk [Hd Ha]. rewrite elem_union in Hd. unfold keepsRestriction, plain in Hk.
  assert ((default [] a1 <> [] -> name ∈ default [] a1) /\ (default [] a2 <> [] -> name ∈ default [] a2)) as [H1 H2].
  { destruct (decide (default [] (intersectOptionalLists a1 a2) = [])) as [He|He].
    - destruct (Hk He). by split.
    - apply elem_intersect. by apply Ha. }
  split; split; naive_solver.
Qed.

Lemma patternsAllow_merge test a1 d1 a2 d2 :
  keepsRestriction patterns a1 a2 ->
  patternsAllow test (intersectOptionalLists a1 a2) (unionOptionalLists d1 d2) ->
  patternsAllow test a1 d1 /\ patternsAllow test a2 d2.
Proof.
  intros Hk [Hd Ha]. unfold keepsRestriction, patterns in Hk.
  assert (forall x, x ∈ default [] (nonBlanks d1) \/ x ∈ default [] (nonBlanks d2) -> test x = false) as Hd'.
  { intros x Hx. apply Hd. rewrite !elem_nonBlanks in *. rewrite elem_union. naive_solver. }
  assert (forall l, default [] (nonBlanks l) <> [] -> default [] l <> []) as Hne.
  { intros l Hl Hn. apply Hl. by rewrite nonBlanks_default, Hn. }
  split; (split; [intros x Hx; apply Hd'; auto|]); intros Hn;
    (destruct Ha as (x & Hx & Ht); [intros He; by destruct (Hk He)|]); exists x; (split; [|done]);
    apply elem_nonBlanks in Hx as [Hb Hx]; apply elem_nonBlanks; (split; [done|]);
    apply elem_intersect in Hx as [Hx1 Hx2]; auto.
Qed.

(** ** Class rules *)

Lemma mget_fold_keys {V} (f : string -> option V) keys m k :
  mget (foldl (fun m key => match f key with Some v => mset key v m | None => m end) m keys) k =
  if has keys k then match f k with Some v => Some v | None => mget m k end else mget m k.
Proof.
  revert m. induction keys as [|x keys IH]; intros m; [done|]. cbn [foldl]. rewrite IH.
  change (has (x :: keys) k) with (String.eqb k x || has keys k).
  destruct (String.eqb_spec k x) as [->|Hne]; simpl.
  - destruct (f x) as [v|] eqn:Hf; [rewrite mget_mset_eq; by destruct (has keys x)|by destruct (has keys x)].
  - assert (mget (match f x with Some v => mset x v m | None => m end) k = mget m k) as ->; [|done].
    destruct (f x); [|done]. by rewrite mget_mset_ne.
Qed.

Lemma mergePolicyClassRules_get c n k :
  mget (default [] (mergePolicyClassRules c n)) k =
  match mget (default [] c) k, mget (default [] n) k with
  | None, None => None
  | x, y => Some (mergeClassRule x y)
  end.
Proof.
  assert (forall c n : jsmap PolicyClassRule,
    mget (foldl (fun merged key => match mget c key, mget n key with
            | None, None => merged
            | _, _ => mset key (mergeClassRule (mget c key) (mget n key)) merged end) [] (dedupe (mkeys c ++ mkeys n))) k =
    match mget c k, mget n k with None, None => None | x, y => Some (mergeClassRule x y) end) as Hg.
  { clear. intros c n.
    set (f key := match mget c key, mget n key with None, None => None | x, y => Some (mergeClassRule x y) end).
    transitivity (f k); [|done].
    transitivity (mget (foldl (fun m key => match f key with Some v => mset key v m | None => m end) []
      (dedupe (mkeys c ++ mkeys n))) k).
    { f_equal. apply foldl_ext. intros m key. unfold f. by destruct (mget c key) eqn:E1, (mget n key) eqn:E2. }
    rewrite mget_fold_keys. destruct (has _ k) eqn:Hk; [by destruct (f k)|].
    rewrite has_false, elem_dedupe, elem_of_app in Hk. unfold f.
    rewrite (proj2 (mget_None_keys c k)), (proj2 (mget_None_keys n k)) by naive_solver. done. }
  destruct c as [c|], n as [n|]; [exact (Hg c n)|exact (Hg c [])|exact (Hg [] n)|done].
Qed.

Lemma minOptional_le x y m r : minOptional x y = m ->
  (forall b, m = Some b -> r <= b) -> (forall b, x = Some b -> r <= b) /\ (forall b, y = Some b -> r <= b).
Proof.
  intros <- Hm. destruct x as [x|], y as [y|]; simpl in Hm; split; intros b [= <-]; try (by apply Hm).
  - specialize (Hm _ eq_refl). lia.
  - specialize (Hm _ eq_refl). lia.
Qed.

Lemma classAllows_merge x y risk :
  classAllows (mergeClassRule x y) risk ->
  (forall r, x = Some r -> classAllows r risk) /\ (forall r, y = Some r -> classAllows r risk).
Proof.
  intros [Hd Hm]. cbn [mergeClassRule class_deny class_maxRiskScore] in *. unfold truthy at 1 in Hd. simpl in Hd.
  apply orb_false_iff in Hd as [Hx Hy].
  assert (forall r, risk = Some r ->
    (forall b, field class_maxRiskScore x = Some b -> r <= b) /\
    (forall b, field class_maxRiskScore y = Some b -> r <= b)) as Hr.
  { intros r Hrisk. eapply minOptional_le; [done|]. intros b Hb. by eapply Hm. }
  split; intros rule ->; (split; [done|]); intros m r Hc Hrisk; destruct (Hr r Hrisk); auto.
Qed.

(** What holds of a merged rule holds of both parts. *)
Definition both {R} (Q : R -> Prop) (x y : option R) : Prop :=
  (forall r, x = Some r -> Q r) /\ (forall r, y = Some r -> Q r).

Lemma classRules_merge c n k risk :
  (forall r, mget (default [] (mergePolicyClassRules c n)) k = Some r -> classAllows r risk) ->
  both (fun r => classAllows r risk) (mget (default [] c) k) (mget (default [] n) k).
Proof.
  rewrite mergePolicyClassRules_get. intros Ha.
  destruct (mget (default [] c) k), (mget (default [] n) k); try (by apply classAllows_merge, Ha); by split.
Qed.

Lemma networkAccess_merge (test : string -> bool) b o :
  keepsRestriction patterns (field allowHosts b) (field allowHosts o) ->
  (forall r, mergeNetworkAccess b o = Some r -> patternsAllow test (allowHosts r) (denyHosts r)) ->
  both (fun r => patternsAllow test (allowHosts r) (denyHosts r)) b o.
Proof.
  intros Hk Ha. assert (b = None /\ o = None \/
    patternsAllow test (field allowHosts b) (field denyHosts b) /\
    patternsAllow test (field allowHosts o) (field denyHosts o)) as [[-> ->]|[Hb Ho]]; [|by split|].
  - destruct b as [b|], o as [o|]; try (by left);
      right; apply (patternsAllow_merge _ _ _ _ _ Hk); by apply (Ha _ eq_refl).
  - split; intros r ->; done.
Qed.

Lemma writeScope_merge (Q : Prop) (test : string -> bool) b o :
  keepsRestriction patterns (field allowRoots b) (field allowRoots o) ->
  (forall r, mergeWriteScope b o = Some r -> Q /\ patternsAllow test (allowRoots r) (denyRoots r)) ->
  both (fun r => Q /\ patternsAllow test (allowRoots r) (denyRoots r)) b o.
Proof.
  intros Hk Ha. assert (b = None /\ o = None \/
    Q /\ patternsAllow test (field allowRoots b) (field denyRoots b) /\
    patternsAllow test (field allowRoots o) (field denyRoots o)) as [[-> ->]|(HQ & Hb & Ho)]; [|by split|].
  - destruct b as [b|], o as [o|]; try (by left); right; destruct (Ha _ eq_refl) as [HQ Hp];
      (split; [done|]); by apply (patternsAllow_merge _ _ _ _ _ Hk).
  - split; intros r ->; done.
Qed.

(** ** Bundles *)

Section Overlay.
Context `{NP : NodePath} (regex_test : string -> string -> option bool).

Definition listsOverlap (b o : RuntimePolicyBundleConfig) : Prop :=
  keepsRestriction plain (toolAllowList b) (toolAllowList o) /\
  keepsRestriction plain (allowActions b) (allowActions o) /\
  keepsRestriction patterns (field allowHosts (networkAccess b)) (field allowHosts (networkAccess o)) /\
  keepsRestriction patterns (field allowRoots (writeScope b)) (field allowRoots (writeScope o)).

(** Overlays restrict. If no pair of allow lists of a bundle and its
    overlay has an intersection that restricts nothing while one of the two
    does, then every action the rules of the merged bundle allow is allowed by
    the rules of the bundle and by the rules of the overlay. *)
Theorem overlay_restricts b o a :
  listsOverlap b o ->
  rulesAllow regex_test (mergePolicyBundles (Some b) (Some o)) a ->
  rulesAllow regex_test b a /\ rulesAllow regex_test o a.
Proof.
  intros (K1 & K2 & K3 & K4) [Ht Ha Hc Hr Hh Hp].
  destruct (listAllows_merge _ _ _ _ _ K2 Ha) as [Ha1 Ha2].
  pose proof (fun T => listAllows_merge _ _ _ _ _ K1 (Ht T)) as Ht'.
  pose proof (fun c E => classRules_merge _ _ _ _ (fun r => Hc c r E)) as Hc'.
  pose proof (fun r E => minOptional_le _ _ _ r eq_refl (fun m Hm => Hr m r Hm E)) as Hr'.
  pose proof (fun host Hin => networkAccess_merge _ _ _ K3 (fun r E => Hh r host E Hin)) as Hh'.
  pose proof (fun path Hin => writeScope_merge _ _ _ _ K4 (fun r E => Hp r path E Hin)) as Hp'.
  split; split; try done.
  - intros T. apply (Ht' T).
  - intros c rule Hcl. destruct (Hc' c Hcl) as [H1 H2]. auto.
  - intros m r Hm Hrisk. destruct (Hr' r Hrisk) as [H1 H2]. auto.
  - intros rule host Hn Hin. destruct (Hh' host Hin) as [H1 H2]. auto.
  - intros rule path Hn Hin. destruct (Hp' path Hin) as [H1 H2]. auto.
  - intros T. apply (Ht' T).
  - intros c rule Hcl. destruct (Hc' c Hcl) as [H1 H2]. auto.
  - intros m r Hm Hrisk. destruct (Hr' r Hrisk) as [H1 H2]. auto.
  - intros rule host Hn Hin. destruct (Hh' host Hin) as [H1 H2]. auto.
  - intros rule path Hn Hin. destruct (Hp' path Hin) as [H1 H2]. auto.
Qed.
End Overlay.

(** ** Budgets *)

(** A history of charges respects an optional rule. *)
Definition respects (H : list (Z * Z)) (r : option BudgetRule) : Prop :=
  forall x, r = Some x -> within (limit x) (windowMs x) H.

Lemma within_looser l w l' w' H :
  nonneg_amounts H -> l <= l' -> w' <= w -> within l w H -> within l' w' H.
Proof.
  intros Hn Hl Hw HW τ. specialize (HW τ). etransitivity; [|etransitivity; [exact HW|lia]].
  apply totalOf_filter_le; [done|]. intros e _. rewrite !andb_true_iff. lia.
Qed.

Lemma mergeBudgetRule_respects H x y : nonneg_amounts H ->
  respects H (mergeBudgetRule x y) -> respects H x /\ respects H y.
Proof.
  intros Hn Hm. destruct x as [x|], y as [y|]; simpl in Hm; try (by split).
  specialize (Hm _ eq_refl). simpl in Hm.
  split; intros z [= <-]; (eapply within_looser; [done| | |exact Hm]); lia.
Qed.

Lemma mergeBudgetMaps_get c n k : NoDup (mkeys (default [] c)) -> NoDup (mkeys (default [] n)) ->
  mget (default [] (mergeBudgetMaps c n)) k = mergeBudgetRule (mget (default [] c) k) (mget (default [] n) k).
Proof.
  assert (forall c n : jsmap BudgetRule, NoDup (mkeys n) ->
    mget (foldl (fun m kv => match mergeBudgetRule (mget m kv.1) (Some kv.2) with
                             | Some rule => mset kv.1 rule m | None => m end) c n) k =
    mergeBudgetRule (mget c k) (mget n k)) as Hg.
  { clear. intros c n. revert c. induction n as [|[x r] n IH]; intros c Hnd; simpl.
    { by destruct (mget c k). }
    inversion Hnd as [|? ? Hnin Hnd']; subst.
    assert (exists rule, mergeBudgetRule (mget c x) (Some r) = Some rule) as [rule Hrule]
      by (destruct (mget c x); simpl; eauto).
    rewrite Hrule, IH by done. rewrite mget_mset. simpl.
    destruct (String.eqb_spec k x) as [Heq|Hne]; [subst k|done].
    rewrite (proj2 (mget_None_keys n x)) by done. rewrite <-Hrule. by destruct (mget c x). }
  intros Hc Hn. assert (foldl (fun m kv => mset kv.1 kv.2 m) [] (default [] c) = default [] c) as Hid.
  { exact (mof_id _ Hc). }
  destruct c as [c|], n as [n|]; cbn [mergeBudgetMaps default from_option id] in *;
    rewrite ?Hid; try (by apply Hg); done.
Qed.

(** Merged budgets enforce both parts. Any history of non-negative charges
    that stays within the spend, token or action budget of a merged bundle over
    every window stays within the budget of the bundle and within that of the
    overlay, over every window of theirs. *)
Theorem merged_budgets_enforce_both b o K H :
  nonneg_amounts H ->
  NoDup (mkeys (default [] (actionBudgets b))) -> NoDup (mkeys (default [] (actionBudgets o))) ->
  let m := mergePolicyBundles (Some b) (Some o) in
  (respects H (spendBudget m) -> respects H (spendBudget b) /\ respects H (spendBudget o)) /\
  (respects H (tokenBudget m) -> respects H (tokenBudget b) /\ respects H (tokenBudget o)) /\
  (respects H (mget (default [] (actionBudgets m)) K) ->
     respects H (mget (default [] (actionBudgets b)) K) /\ respects H (mget (default [] (actionBudgets o)) K)).
Proof.
  intros Hn Hb Ho m. split_and!; [by apply mergeBudgetRule_respects..|].
  intros Hm. apply mergeBudgetRule_respects; [done|]. rewrite <-mergeBudgetMaps_get by done. exact Hm.
Qed.

(** ** Examples *)

#[local] Existing Instance ex_path.

(** A bundle that only sets the list of allowed tools, and a use of a tool. *)
Definition ex_tools (l : list string) : RuntimePolicyBundleConfig :=
  Build_RuntimePolicyBundleConfig (Some true) None None (Some l) None None None None None None None
    None None None None None None None None None None.

Definition ex_use (tool : string) (spend : option Z) (tenant : option string) : PolicyAction :=
  {| a_type := tool_call; a_name := tool; a_access := read; a_policyClass := None; a_riskScore := None;
     a_spendLamports := spend; a_tokenCount := None; a_elapsedRuntimeMs := None;
     a_elapsedRuntimeMsByScope := fun _ => None; a_processCount := None;
     a_processCountByScope := fun _ => None;
     a_scope := Some {| tenantId := tenant; projectId := None; runId := None |};
     a_networkHosts := None; a_writePaths := None |}.

Lemma overlay_restricts_witness :
  rulesAllow ex_regex (ex_tools ["fetch"; "grep"]) (ex_use "grep" None None) /\
  rulesAllow ex_regex (ex_tools ["grep"; "edit"]) (ex_use "grep" None None).
Proof.
  apply overlay_restricts.
  - split_and!; intros H; vm_compute in H; try discriminate H; by split.
  - apply staticViolations_iff. vm_compute. reflexivity.
Defined.

(** The hypothesis of [overlay_restricts] is needed: the intersection of two
    disjoint allow lists is the empty list, which the checks read as "no
    restriction", so the merged bundle allows a tool that neither part does. *)
Lemma disjoint_allow_lists_allow_all :
  let b := ex_tools ["fetch"] in
  let o := ex_tools ["grep"] in
  rulesAllow ex_regex (mergePolicyBundles (Some b) (Some o)) (ex_use "deploy" None None) /\
  ~ rulesAllow ex_regex b (ex_use "deploy" None None) /\ ~ rulesAllow ex_regex o (ex_use "deploy" None None).
Proof. cbv zeta. rewrite <-!staticViolations_iff. vm_compute. by split_and!. Qed.

Definition ex_spends (l w : Z) : RuntimePolicyBundleConfig :=
  Build_RuntimePolicyBundleConfig (Some true) None None None None None None None None
    (Some {| limit := l; windowMs := w |}) None None None None None None None None None None None.

Lemma merged_budgets_enforce_both_witness :
  let H := [(0, 40); (30, 60)] in
  respects H (Some {| limit := 100; windowMs := 20 |}) /\ respects H (Some {| limit := 150; windowMs := 50 |}).
Proof.
  cbv zeta. apply (merged_budgets_enforce_both (ex_spends 100 20) (ex_spends 150 50) "k").
  - repeat constructor; simpl; lia.
  - constructor.
  - constructor.
  - intros x [= <-]. intros τ. unfold spentIn. cbn [limit windowMs].
    etransitivity; [apply (totalOf_filter_le _ (fun _ => true))|vm_compute; discriminate];
      [repeat constructor; simpl; lia|done].
Defined.

(** The buckets of the global scope are shared between tenants: an evaluation
    under a shorter window prunes samples that the longer window of a tenant's
    overlay still counts, and the tenant spends 200 lamports in 100 ms under an
    overlay that allows 100 in any 100 ms. *)
Lemma shared_bucket_pruned_by_shorter_window :
  let P := {| bundle := ex_spends 1000 10; defaultTenantId := None; defaultProjectId := None;
              tenantBundles := Some [("acme", ex_spends 100 100)]; projectBundles := None |} in
  let calls := [Evaluate (ex_use "pay" (Some 100) (Some "acme")); Evaluate (ex_use "pay" (Some 0) None);
                Evaluate (ex_use "pay" (Some 100) (Some "acme"))] in
  let '(evs, _) := run ex_regex (fun n => 50 * Z.of_nat n) calls (newPolicyEngine P) in
  map ev_start evs = [0; 50; 100] /\ map ev_allowed evs = [true; true; true].
Proof. vm_compute. done. Qed.

(** [simulate] records violations: the second denied simulation trips the
    breaker of [ex_policy] (two denials in 20 ms), without any evaluation. *)
Lemma simulate_trips_breaker :
  let calls := [Simulate (ex_use "deploy" (Some 101) None); Simulate (ex_use "deploy" (Some 101) None)] in
  pe_mode (run ex_regex ex_clock calls (newPolicyEngine ex_policy)).2 = safe_mode.
Proof. vm_compute. done. Qed.
