(* ===== verification/PriorityQueue.v ===== *)
(** * Priority queue (src/runtime/src/task/priority-queue.ts)

    [PriorityQueue]: a binary max-heap in an array, with a capacity. A score is
    a finite number, kept as an integer because the code only compares scores.
    Reading a property of an array element that is not there throws
    ([PQTypeError]); a loop that would not end runs out of fuel
    ([PQDiverges]). *)
From S2P Require Import Prelude.
#[local] Open Scope nat_scope.

Inductive pq_error := PQTypeError | PQDiverges.

Record HeapEntry (T : Type) := { item : T; score : Z }.
Arguments Build_HeapEntry {T}.
Arguments item {T}.
Arguments score {T}.

Section PriorityQueue.
Context {T : Type}.

Abbreviation heap := (list (HeapEntry T)).
Abbreviation Q := (result pq_error).

(** [this.heap[i]], of which a property is read. *)
Definition at_ (h : heap) (i : nat) : Q (HeapEntry T) :=
  match h !! i with Some e => Ok e | None => Err PQTypeError end.

Definition swap (h : heap) (i j : nat) : Q heap :=
  tmp ← at_ h i;
  b ← at_ h j;
  Ok (<[j := tmp]> (<[i := b]> h)).

Fixpoint siftUpLoop (fuel : nat) (h : heap) (index : nat) : Q heap :=
  match index with
  | O => Ok h
  | S pred =>
      match fuel with
      | O => Err PQDiverges
      | S fuel =>
          let parent := Nat.shiftr pred 1 in
          e ← at_ h index;
          p ← at_ h parent;
          if (score e <=? score p)%Z then Ok h
          else h' ← swap h index parent; siftUpLoop fuel h' parent
      end
  end.

Definition siftUp (h : heap) (index : nat) : Q heap := siftUpLoop index h index.

(** The larger of [largest] and its rival at [i], when the rival is there. *)
Definition larger (h : heap) (i largest : nat) : Q nat :=
  if i <? length h then
    r ← at_ h i;
    l ← at_ h largest;
    Ok (if (score r >? score l)%Z then i else largest)
  else Ok largest.

Fixpoint siftDownLoop (fuel : nat) (h : heap) (index : nat) : Q heap :=
  match fuel with
  | O => Err PQDiverges
  | S fuel =>
      l ← larger h (2 * index + 1) index;
      largest ← larger h (2 * index + 2) l;
      if largest =? index then Ok h
      else h' ← swap h index largest; siftDownLoop fuel h' largest
  end.

Definition siftDown (h : heap) (index : nat) : Q heap := siftDownLoop (S (length h)) h index.

(** [for (let i = n - 1; i >= 0; i--) this.siftDown(i)]. *)
Fixpoint heapifyLoop (n : nat) (h : heap) : Q heap :=
  match n with
  | O => Ok h
  | S i => h' ← siftDown h i; heapifyLoop i h'
  end.

Definition heapify (h : heap) : Q heap := heapifyLoop (length h / 2) h.

(** The loop of [findMinIndex] over [i .. i + n - 1]. *)
Fixpoint findMinLoop (h : heap) (i n minIdx : nat) : Q nat :=
  match n with
  | O => Ok minIdx
  | S n =>
      e ← at_ h i;
      m ← at_ h minIdx;
      findMinLoop h (S i) n (if (score e <? score m)%Z then i else minIdx)
  end.

Definition findMinIndex (h : heap) : Q nat :=
  let start := length h / 2 in
  findMinLoop h (S start) (length h - S start) start.

(** ** The public methods; [capacity] is [None] for [Infinity] *)

Definition full (capacity : option Z) (h : heap) : bool :=
  match capacity with Some c => (c <=? Z.of_nat (length h))%Z | None => false end.

Definition push (capacity : option Z) (x : T) (s : Z) (h : heap) : Q heap :=
  if full capacity h then
    minIdx ← findMinIndex h;
    m ← at_ h minIdx;
    if (s <=? score m)%Z then Ok h
    else
      h ← siftUp (<[minIdx := Build_HeapEntry x s]> h) minIdx;
      siftDown h minIdx
  else
    let h := h ++ [Build_HeapEntry x s] in
    siftUp h (length h - 1).

Definition pop (h : heap) : Q (heap * option T) :=
  match h with
  | [] => Ok (h, None)
  | [top] => Ok ([], Some (item top))
  | top :: _ =>
      last ← at_ h (length h - 1);
      h' ← siftDown (take (length h - 1) (<[0 := last]> h)) 0;
      Ok (h', Some (item top))
  end.

Definition peek (h : heap) : option T := match h with e :: _ => Some (item e) | [] => None end.
Definition size (h : heap) : nat := length h.
Definition clear (h : heap) : heap := [].

(** [Array.prototype.sort] is stable: [sort_by] with [b.score - a.score]. *)
Definition getTopN (n : nat) (h : heap) : list (HeapEntry T) :=
  take n (sort_by (fun a b => Z.compare (score b) (score a)) h).

Definition rescore (scorer : T -> Z) (h : heap) : Q heap :=
  heapify (map (fun e => Build_HeapEntry (item e) (scorer (item e))) h).

Definition getScores (h : heap) : list Z := map score h.
End PriorityQueue.

(** * The priority queue implements a bounded priority bag

    The heap invariant, that every method keeps it and terminates without an
    exception, and the refinement of an abstract bag of entries: [pop] removes
    an entry of the highest score, a full [push] evicts one of the lowest. *)
From stdpp Require Import sorting.
From S2P Require Import Prelude.
#[local] Open Scope nat_scope.

Section Heap.
Context {T : Type}.
Implicit Types (h : list (HeapEntry T)) (i j k n : nat).

(** The score at an index (0 outside the array). *)
Definition sc h i : Z := from_option score 0%Z (h !! i).

Definition parent i : nat := (i - 1) / 2.

Lemma parent_shift i : Nat.shiftr i 1 = parent (S i).
Proof. unfold parent. rewrite Nat.shiftr_div_pow2. f_equal. lia. Qed.

Lemma parent_lt i : 0 < i -> parent i < i.
Proof. unfold parent. intros Hi. apply Nat.Div0.div_lt_upper_bound. lia. Qed.

(** A child's parent. *)
Lemma parent_iff i k : 0 < i -> parent i = k <-> i = 2 * k + 1 \/ i = 2 * k + 2.
Proof.
  unfold parent. intros Hi. pose proof (Nat.div_mod_eq (i - 1) 2). pose proof (Nat.mod_upper_bound (i - 1) 2). lia.
Qed.

Lemma at_Ok h i : i < length h -> exists e, at_ h i = Ok e /\ h !! i = Some e /\ score e = sc h i.
Proof.
  intros [e He]%lookup_lt_is_Some. exists e. unfold at_, sc. by rewrite He.
Qed.

(** Swapping two entries. *)
Lemma swap_Ok h i j : i < length h -> j < length h -> i <> j ->
  exists h', swap h i j = Ok h' /\ h' ≡ₚ h /\
    forall k, sc h' k = if k =? i then sc h j else if k =? j then sc h i else sc h k.
Proof.
  intros Hi Hj Hne. destruct (at_Ok h i Hi) as (a & Ea & La & Sa), (at_Ok h j Hj) as (b & Eb & Lb & Sb).
  unfold swap. rewrite Ea, Eb. unfold mbind, result_bind.
  set (h' := <[j:=a]> (<[i:=b]> h)).
  assert (forall k, h' !! k = if k =? i then Some b else if k =? j then Some a else h !! k) as Hl.
  { intros k. unfold h'. destruct (Nat.eqb_spec k i) as [->|Hki]; [|destruct (Nat.eqb_spec k j) as [->|Hkj]].
    - rewrite list_lookup_insert_ne by done. rewrite list_lookup_insert_eq by done. done.
    - rewrite list_lookup_insert_eq; [done|]. by rewrite length_insert.
    - by rewrite !list_lookup_insert_ne. }
  exists h'. split_and!; [done| |].
  - apply Permutation_inj. split; [unfold h'; by rewrite !length_insert|].
    exists (fun k => if k =? i then j else if k =? j then i else k). split.
    + intros x y. destruct (Nat.eqb_spec x i), (Nat.eqb_spec y i), (Nat.eqb_spec x j), (Nat.eqb_spec y j); lia.
    + intros k. rewrite Hl. destruct (Nat.eqb_spec k i); [done|]. by destruct (Nat.eqb_spec k j).
  - intros k. unfold sc at 1. rewrite Hl. destruct (Nat.eqb_spec k i); [by simpl|].
    destruct (Nat.eqb_spec k j); [by simpl|done].
Qed.

(** ** The heap invariant

    [heap_from lo h]: every entry whose parent is at [lo] or later is at most
    its parent. *)
Definition heap_from (lo : nat) h : Prop :=
  forall i, 0 < i < length h -> lo <= parent i -> (sc h i <= sc h (parent i))%Z.

Definition heap_ok h : Prop := heap_from 0 h.

(** *** Sifting up *)

(** A heap but for the entry at [k], which may exceed its parent. *)
Definition heap_up k h : Prop :=
  (forall i, 0 < i < length h -> i <> k -> (sc h i <= sc h (parent i))%Z) /\
  (forall i, 0 < i < length h -> parent i = k -> 0 < k -> (sc h i <= sc h (parent k))%Z).

Lemma heap_up_swap h h' k :
  0 < k < length h -> heap_up k h -> (sc h (parent k) < sc h k)%Z -> length h' = length h ->
  (forall i, sc h' i = if i =? k then sc h (parent k) else if i =? parent k then sc h k else sc h i) ->
  heap_up (parent k) h'.
Proof.
  intros Hk [H1 H2] Hgt Hlen Hs. pose proof (parent_lt k ltac:(lia)) as Hp.
  split; rewrite Hlen.
  - intros i Hi Hne. rewrite !Hs. destruct (Nat.eqb_spec i k) as [->|Hik].
    + destruct (Nat.eqb_spec (parent k) k); [lia|]. rewrite Nat.eqb_refl. lia.
    + destruct (Nat.eqb_spec i (parent k)); [done|]. specialize (H1 i Hi Hik).
      destruct (Nat.eqb_spec (parent i) k) as [Hpi|Hpi]; [specialize (H2 i Hi Hpi); lia|].
      destruct (Nat.eqb_spec (parent i) (parent k)) as [Hpp|Hpp]; [rewrite Hpp in H1; lia|done].
  - intros i Hi Hpi Hpos. rewrite !Hs. pose proof (parent_lt (parent k) Hpos) as Hpp.
    pose proof (H1 (parent k) ltac:(lia) ltac:(lia)) as Hpk.
    destruct (Nat.eqb_spec (parent (parent k)) k); [lia|].
    destruct (Nat.eqb_spec (parent (parent k)) (parent k)); [lia|].
    destruct (Nat.eqb_spec i k) as [->|Hik]; [done|].
    destruct (Nat.eqb_spec i (parent k)); [pose proof (parent_lt i); lia|].
    specialize (H1 i Hi Hik). rewrite Hpi in H1. lia.
Qed.

Lemma siftUpLoop_ok fuel h k : k <= fuel -> k < length h -> heap_up k h ->
  exists h', siftUpLoop fuel h k = Ok h' /\ h' ≡ₚ h /\ heap_ok h'.
Proof.
  revert k h. induction fuel as [|fuel IH]; intros k h Hf Hk Hup.
  - assert (k = 0) as -> by lia. exists h. split_and!; [done|done|]. intros i Hi _. apply Hup; lia.
  - destruct k as [|k]; cbn [siftUpLoop].
    { exists h. split_and!; [done|done|]. intros i Hi _. apply Hup; lia. }
    rewrite parent_shift. pose proof (parent_lt (S k) ltac:(lia)) as Hp.
    destruct (at_Ok h (S k) Hk) as (e & -> & _ & Se), (at_Ok h (parent (S k)) ltac:(lia)) as (p & -> & _ & Sp).
    unfold mbind, result_bind. rewrite Se, Sp.
    destruct (Z.leb_spec (sc h (S k)) (sc h (parent (S k)))) as [Hle|Hgt].
    + exists h. split_and!; [done|done|]. intros i Hi _.
      destruct (decide (i = S k)) as [->|Hne]; [done|by apply Hup].
    + destruct (swap_Ok h (S k) (parent (S k))) as (h' & -> & Hperm & Hs); [done|lia|lia|].
      assert (length h' = length h) as Hlen by (by rewrite Hperm).
      destruct (IH (parent (S k)) h') as (h2 & -> & Hperm2 & Hok2); [lia|lia| |].
      { by apply (heap_up_swap h h' (S k)); [lia|done|lia|done|]. }
      exists h2. split_and!; [done|by rewrite Hperm2|done].
Qed.

Lemma siftUp_ok h k : k < length h -> heap_up k h ->
  exists h', siftUp h k = Ok h' /\ h' ≡ₚ h /\ heap_ok h'.
Proof. by apply siftUpLoop_ok. Qed.

(** *** Sifting down *)

(** From [lo] on a heap but for the entry at [k], which may be below its children. *)
Definition heap_down lo k h : Prop :=
  (forall i, 0 < i < length h -> lo <= parent i -> parent i <> k -> (sc h i <= sc h (parent i))%Z) /\
  (forall i, 0 < i < length h -> parent i = k -> 0 < k -> lo <= parent k -> (sc h i <= sc h (parent k))%Z).

(** The rival wins only if it is there and larger. *)
Lemma larger_Ok h i l : l < length h -> exists m, larger h i l = Ok m /\ m < length h /\
  (m = i /\ i < length h \/ m = l) /\ (sc h l <= sc h m)%Z /\ (i < length h -> (sc h i <= sc h m)%Z) /\
  (m = l \/ (sc h l < sc h m)%Z).
Proof.
  intros Hl. unfold larger. destruct (Nat.ltb_spec i (length h)) as [Hi|Hi].
  - destruct (at_Ok h i Hi) as (r & -> & _ & Sr), (at_Ok h l Hl) as (e & -> & _ & Se).
    unfold mbind, result_bind. rewrite Sr, Se. destruct (Z.gtb_spec (sc h i) (sc h l)).
    + exists i. split_and!; auto; lia.
    + exists l. split_and!; auto; lia.
  - exists l. split_and!; auto; lia.
Qed.

Lemma largest_Ok h k : k < length h ->
  exists m, (l ← larger h (2 * k + 1) k; larger h (2 * k + 2) l) = Ok m /\ m < length h /\
    (m = k \/ parent m = k /\ 0 < m /\ (sc h k < sc h m)%Z) /\
    forall i, 0 < i < length h -> parent i = k -> (sc h i <= sc h m)%Z.
Proof.
  intros Hk. destruct (larger_Ok h (2 * k + 1) k Hk) as (l & -> & Hl & Cl & Gl & Il & Sl).
  unfold mbind, result_bind. destruct (larger_Ok h (2 * k + 2) l Hl) as (m & -> & Hm & Cm & Gm & Im & Sm).
  exists m. split_and!; [done|done| |].
  - assert (forall x, x = 2 * k + 1 \/ x = 2 * k + 2 -> parent x = k /\ 0 < x) as Hc.
    { intros x Hx. split; [apply parent_iff; lia|lia]. }
    destruct (decide (m = k)) as [|Hne]; [by left|]. right.
    assert (m = 2 * k + 1 \/ m = 2 * k + 2) as Hmc by lia. destruct (Hc m Hmc). split_and!; [done|done|].
    destruct Sm as [->|Sm]; [destruct Sl; [lia|done]|lia].
  - intros i Hi Hp. apply parent_iff in Hp; [|lia]. destruct Hp as [Hp|Hp]; subst i; [|apply Im; lia].
    etransitivity; [apply Il; lia|done].
Qed.

Lemma heap_down_swap lo h h' k m :
  heap_down lo k h -> m < length h -> parent m = k -> 0 < m -> (sc h k < sc h m)%Z ->
  (forall i, 0 < i < length h -> parent i = k -> (sc h i <= sc h m)%Z) -> length h' = length h ->
  (forall i, sc h' i = if i =? k then sc h m else if i =? m then sc h k else sc h i) ->
  heap_down lo m h'.
Proof.
  intros [H1 H2] Hm Hpm Hpos Hlt Hmax Hlen Hs. pose proof (parent_lt m Hpos) as Hkm. rewrite Hpm in Hkm.
  split; rewrite Hlen.
  - intros i Hi Hlo Hne. rewrite !Hs. pose proof (parent_lt i ltac:(lia)) as Hpi.
    destruct (Nat.eqb_spec (parent i) k) as [Hpk|Hpk].
    + destruct (Nat.eqb_spec i k); [lia|]. destruct (Nat.eqb_spec i m); [lia|]. by apply Hmax.
    + destruct (Nat.eqb_spec (parent i) m); [done|]. destruct (Nat.eqb_spec i k) as [->|Hik].
      * apply H2; [lia|done|lia|done].
      * destruct (Nat.eqb_spec i m) as [->|]; [done|]. by apply H1.
  - intros i Hi Hpi _ Hlo. rewrite !Hs, Hpm, Nat.eqb_refl. rewrite Hpm in Hlo. pose proof (parent_lt i ltac:(lia)).
    destruct (Nat.eqb_spec i k); [lia|]. destruct (Nat.eqb_spec i m); [lia|].
    specialize (H1 i Hi). rewrite Hpi in H1. apply H1; lia.
Qed.

Lemma siftDownLoop_ok fuel lo h k :
  length h - k < fuel -> k < length h -> heap_down lo k h ->
  exists h', siftDownLoop fuel h k = Ok h' /\ h' ≡ₚ h /\ heap_from lo h'.
Proof.
  revert h k. induction fuel as [|fuel IH]; intros h k Hf Hk Hd; [lia|]. cbn [siftDownLoop].
  destruct (largest_Ok h k Hk) as (m & Hm & Hlt & Hcase & Hmax).
  unfold mbind, result_bind in Hm |- *. destruct (larger h (2 * k + 1) k) as [l|]; [|done]. rewrite Hm.
  destruct (Nat.eqb_spec m k) as [->|Hne].
  - exists h. split_and!; [done|done|]. intros i Hi Hlo.
    destruct (decide (parent i = k)) as [Hp|Hp]; [rewrite Hp; by apply Hmax|by apply Hd].
  - destruct Hcase as [|(Hpm & Hpos & Hgt)]; [done|]. pose proof (parent_lt m Hpos) as Hkm.
    destruct (swap_Ok h k m) as (h' & -> & Hperm & Hs); [done|done|lia|].
    assert (length h' = length h) as Hlen by (by rewrite Hperm).
    destruct (IH h' m) as (h2 & -> & Hperm2 & Hok2); [lia|lia|by apply (heap_down_swap lo h h' k m)|].
    exists h2. split_and!; [done|by rewrite Hperm2|done].
Qed.

Lemma siftDown_ok lo h k : k < length h -> heap_down lo k h ->
  exists h', siftDown h k = Ok h' /\ h' ≡ₚ h /\ heap_from lo h'.
Proof. intros Hk. apply siftDownLoop_ok; lia. Qed.

(** Sifting down in a heap changes nothing. *)
Lemma siftDown_noop h k : k < length h -> heap_ok h -> siftDown h k = Ok h.
Proof.
  intros Hk Hok. unfold siftDown. cbn [siftDownLoop]. destruct (largest_Ok h k Hk) as (m & Hm & Hlt & Hcase & _).
  unfold mbind, result_bind in Hm |- *. destruct (larger h (2 * k + 1) k) as [l|]; [|done]. rewrite Hm.
  destruct Hcase as [->|(Hp & Hpos & Hgt)]; [by rewrite Nat.eqb_refl|].
  specialize (Hok m ltac:(lia) ltac:(lia)). rewrite Hp in Hok. lia.
Qed.

(** *** Building a heap *)

Lemma heapifyLoop_ok n h : n <= length h -> heap_from n h ->
  exists h', heapifyLoop n h = Ok h' /\ h' ≡ₚ h /\ heap_ok h'.
Proof.
  revert h. induction n as [|n IH]; intros h Hn Hf; cbn [heapifyLoop]; [by exists h|].
  destruct (siftDown_ok n h n) as (h1 & -> & Hp1 & Hf1); [lia| |].
  { split; [intros i Hi Hlo Hne; apply Hf; lia|]. intros i Hi Hp Hpos Hlo. pose proof (parent_lt n Hpos). lia. }
  destruct (IH h1) as (h2 & Hh & Hp2 & Hok); [rewrite Hp1; lia|done|].
  exists h2. split_and!; [exact Hh|by rewrite Hp2|done].
Qed.

Lemma heapify_ok h : exists h', heapify h = Ok h' /\ h' ≡ₚ h /\ heap_ok h'.
Proof.
  apply heapifyLoop_ok; [apply Nat.Div0.div_le_upper_bound; lia|]. intros i Hi Hlo. exfalso.
  pose proof (proj1 (parent_iff i (parent i) ltac:(lia)) eq_refl) as Hp.
  pose proof (Nat.div_mod_eq (length h) 2). pose proof (Nat.mod_upper_bound (length h) 2). lia.
Qed.

(** ** The extremes of a heap *)

(** The root is a maximum. *)
Lemma heap_max h i : heap_ok h -> i < length h -> (sc h i <= sc h 0)%Z.
Proof.
  intros Hok. induction i as [i IH] using lt_wf_ind. intros Hi. destruct (decide (i = 0)) as [->|Hne]; [done|].
  pose proof (parent_lt i ltac:(lia)). etransitivity; [apply Hok; lia|]. apply IH; lia.
Qed.

(** Every entry is at least some entry of the second half. *)
Lemma heap_leaf h i : heap_ok h -> i < length h ->
  exists j, length h / 2 <= j < length h /\ (sc h j <= sc h i)%Z.
Proof.
  intros Hok. remember (length h - i) as d eqn:Hd. revert i Hd. induction d as [d IH] using lt_wf_ind. intros i Hd Hi.
  destruct (decide (length h / 2 <= i)) as [|Hlt]; [by exists i|].
  pose proof (Nat.div_mod_eq (length h) 2).
  assert (parent (2 * i + 1) = i) as Hp by (apply parent_iff; lia).
  pose proof (Hok (2 * i + 1) ltac:(lia) ltac:(lia)) as Hc. rewrite Hp in Hc.
  destruct (IH (length h - (2 * i + 1)) ltac:(lia) (2 * i + 1) eq_refl ltac:(lia)) as (j & Hj & Hle).
  exists j. split; [done|lia].
Qed.

Lemma findMinLoop_ok h i n m : i + n <= length h -> m < length h ->
  exists m', findMinLoop h i n m = Ok m' /\ (m' = m \/ i <= m' < i + n) /\ m' < length h /\
    (sc h m' <= sc h m)%Z /\ forall j, i <= j < i + n -> (sc h m' <= sc h j)%Z.
Proof.
  revert i m. induction n as [|n IH]; intros i m Hin Hm; cbn [findMinLoop].
  { exists m. split_and!; auto; [done|lia]. }
  destruct (at_Ok h i ltac:(lia)) as (e & -> & _ & Se), (at_Ok h m Hm) as (em & -> & _ & Sm).
  unfold mbind, result_bind. rewrite Se, Sm.
  destruct (IH (S i) (if (sc h i <? sc h m)%Z then i else m)) as (m' & -> & Hc & Hl & Hle & Hall).
  { lia. } { destruct (_ <? _)%Z; lia. }
  exists m'. destruct (Z.ltb_spec (sc h i) (sc h m)); (split_and!; [done|lia|done|lia|]); intros j Hj;
    (destruct (decide (j = i)) as [->|]; [lia|apply Hall; lia]).
Qed.

Lemma findMinIndex_ok h : heap_ok h -> 0 < length h ->
  exists m, findMinIndex h = Ok m /\ length h / 2 <= m < length h /\
    forall j, j < length h -> (sc h m <= sc h j)%Z.
Proof.
  intros Hok Hpos. unfold findMinIndex. pose proof (Nat.Div0.div_lt_upper_bound (length h) 2 (length h) ltac:(lia)).
  destruct (findMinLoop_ok h (S (length h / 2)) (length h - S (length h / 2)) (length h / 2))
    as (m & -> & Hc & Hl & Hle & Hall); [lia|lia|].
  exists m. split_and!; [done|lia|lia|]. intros j Hj. destruct (heap_leaf h j Hok Hj) as (x & Hx & Hxj).
  etransitivity; [|exact Hxj]. destruct (decide (x = length h / 2)) as [->|]; [done|apply Hall; lia].
Qed.

(** ** The bag of entries *)

Inductive op :=
| Push (x : T) (s : Z)
| Pop
| Peek
| Clear
| Rescore (scorer : T -> Z).

Definition exec (capacity : option Z) (o : op) h : result pq_error (list (HeapEntry T) * option T) :=
  match o with
  | Push x s => h' ← push capacity x s h; Ok (h', None)
  | Pop => pop h
  | Peek => Ok (h, peek h)
  | Clear => Ok (clear h, None)
  | Rescore f => h' ← rescore f h; Ok (h', None)
  end.

Definition is_max (e : HeapEntry T) (m : list (HeapEntry T)) : Prop := forall x, x ∈ m -> (score x <= score e)%Z.
Definition is_min (e : HeapEntry T) (m : list (HeapEntry T)) : Prop := forall x, x ∈ m -> (score e <= score x)%Z.

(** What each method does to the bag [m] of entries, and what it returns. *)
Inductive bag_step (capacity : option Z) : op -> list (HeapEntry T) -> option T -> list (HeapEntry T) -> Prop :=
| bs_push x s m : full capacity m = false -> bag_step capacity (Push x s) m None (Build_HeapEntry x s :: m)
| bs_drop x s m : full capacity m = true -> is_min (Build_HeapEntry x s) m -> bag_step capacity (Push x s) m None m
| bs_evict x s m e m' : full capacity m = true -> m ≡ₚ e :: m' -> is_min e m -> (score e < s)%Z ->
    bag_step capacity (Push x s) m None (Build_HeapEntry x s :: m')
| bs_pop_empty : bag_step capacity Pop [] None []
| bs_pop m e m' : m ≡ₚ e :: m' -> is_max e m -> bag_step capacity Pop m (Some (item e)) m'
| bs_peek_empty : bag_step capacity Peek [] None []
| bs_peek m e m' : m ≡ₚ e :: m' -> is_max e m -> bag_step capacity Peek m (Some (item e)) m
| bs_clear m : bag_step capacity Clear m None []
| bs_rescore f m : bag_step capacity (Rescore f) m None
    (map (fun e => Build_HeapEntry (item e) (f (item e))) m).

(** The steps only depend on the bag, not on the order of its list. *)
Lemma bag_step_perm cap o m1 out m1' m2 :
  m1 ≡ₚ m2 -> bag_step cap o m1 out m1' -> exists m2', bag_step cap o m2 out m2' /\ m2' ≡ₚ m1'.
Proof.
  intros Hp Hb. assert (full cap m2 = full cap m1) as Hfull by (unfold full; destruct cap; [by rewrite Hp|done]).
  destruct Hb as [x s m Hf|x s m Hf Hm|x s m e m' Hf He Hm Hlt| |m e m' He Hm| |m e m' He Hm|m|f m].
  - exists (Build_HeapEntry x s :: m2). split; [constructor; congruence|by rewrite Hp].
  - exists m2. split; [|done]. constructor; [congruence|]. intros y. rewrite <-Hp. apply Hm.
  - exists (Build_HeapEntry x s :: m'). split; [|done].
    apply (bs_evict cap x s m2 e); [congruence|by rewrite <-Hp| |done]. intros y. rewrite <-Hp. apply Hm.
  - apply Permutation_nil_l in Hp as <-. exists []. split; [constructor|done].
  - exists m'. split; [|done]. constructor; [by rewrite <-Hp|]. intros y. rewrite <-Hp. apply Hm.
  - apply Permutation_nil_l in Hp as <-. exists []. split; [constructor|done].
  - exists m2. split; [|done]. apply (bs_peek cap m2 e m'); [by rewrite <-Hp|]. intros y. rewrite <-Hp. apply Hm.
  - exists []. split; [constructor|done].
  - exists (map (fun e => Build_HeapEntry (item e) (f (item e))) m2). split; [constructor|].
    by apply Permutation_map.
Qed.

(** *** The methods on a heap *)

Lemma sc_elem h e : e ∈ h -> exists i, i < length h /\ sc h i = score e.
Proof.
  intros [i Hi]%list_elem_of_lookup. exists i. split; [by eapply lookup_lt_Some|]. unfold sc. by rewrite Hi.
Qed.

Lemma heap_root e h : heap_ok (e :: h) -> is_max e (e :: h).
Proof.
  intros Hok x (i & Hi & <-)%sc_elem. change (score e) with (sc (e :: h) 0). by apply heap_max.
Qed.

Lemma pop_ok h : heap_ok h -> exists h' out, pop h = Ok (h', out) /\ heap_ok h' /\
  (h = [] /\ out = None /\ h' = [] \/
   exists e, out = Some (item e) /\ h ≡ₚ e :: h' /\ is_max e h).
Proof.
  intros Hok. destruct h as [|top rest].
  { exists [], None. split_and!; [done|done|by left]. }
  pose proof (heap_root _ _ Hok) as Hmax.
  destruct rest as [|z r _] using rev_ind.
  { exists [], (Some (item top)). split_and!; [done|intros i Hi; simpl in *; lia|]. right. by exists top. }
  assert (exists h', siftDown (z :: r) 0 = Ok h' /\ h' ≡ₚ z :: r /\ heap_ok h') as (h' & Hs & Hp & Hok').
  { apply siftDown_ok; [simpl; lia|]. split; [|intros i _ _ ?; lia]. intros i Hi _ Hne. simpl in Hi.
    assert (forall j, 0 < j < S (length r) -> sc (z :: r) j = sc (top :: r ++ [z]) j) as Hsc.
    { intros [|j] Hj; [lia|]. unfold sc. simpl. by rewrite lookup_app_l by lia. }
    pose proof (parent_lt i ltac:(lia)). rewrite !Hsc by lia. apply Hok; [simpl; rewrite length_app; simpl; lia|lia]. }
  exists h', (Some (item top)). split_and!; [|done|].
  - assert (pop (top :: r ++ [z]) = (last ← at_ (top :: r ++ [z]) (length (top :: r ++ [z]) - 1);
      h' ← siftDown (take (length (top :: r ++ [z]) - 1) (<[0:=last]> (top :: r ++ [z]))) 0;
      Ok (h', Some (item top)))) as -> by (by destruct r).
    assert (length (top :: r ++ [z]) - 1 = S (length r)) as -> by (simpl; rewrite length_app; simpl; lia).
    assert (at_ (top :: r ++ [z]) (S (length r)) = Ok z) as ->.
    { unfold at_. simpl. by rewrite lookup_app_r, Nat.sub_diag. }
    unfold mbind, result_bind. simpl. rewrite take_app_length. by rewrite Hs.
  - right. exists top. split_and!; [done| |done]. rewrite Hp. constructor. symmetry. apply Permutation_cons_append.
Qed.

Lemma push_room_ok x s h : heap_ok h -> exists h', siftUp (h ++ [Build_HeapEntry x s]) (length h) = Ok h' /\
  heap_ok h' /\ h' ≡ₚ Build_HeapEntry x s :: h.
Proof.
  intros Hok. destruct (siftUp_ok (h ++ [Build_HeapEntry x s]) (length h)) as (h' & Hs & Hp & Hok').
  - rewrite length_app. simpl. lia.
  - assert (forall j, j < length h -> sc (h ++ [Build_HeapEntry x s]) j = sc h j) as Hsc.
    { intros j Hj. unfold sc. by rewrite lookup_app_l. }
    split; rewrite length_app; simpl.
    + intros i Hi Hne. pose proof (parent_lt i ltac:(lia)). rewrite !Hsc by lia. apply Hok; lia.
    + intros i Hi Hpi. pose proof (parent_lt i ltac:(lia)). lia.
  - exists h'. split_and!; [done|done|]. rewrite Hp. symmetry. apply Permutation_cons_append.
Qed.

Lemma replace_perm h i (e e' : HeapEntry T) : h !! i = Some e ->
  exists rest, h ≡ₚ e :: rest /\ <[i:=e']> h ≡ₚ e' :: rest.
Proof.
  intros Hi. exists (take i h ++ drop (S i) h). split.
  - rewrite <-(take_drop_middle h i e Hi) at 1. by rewrite Permutation_middle.
  - rewrite insert_take_drop by (by eapply lookup_lt_Some). by rewrite Permutation_middle.
Qed.

Lemma push_ok cap x s h : (forall c, cap = Some c -> (1 <= c)%Z) -> heap_ok h ->
  exists h' m', push cap x s h = Ok h' /\ heap_ok h' /\ bag_step cap (Push x s) h None m' /\ h' ≡ₚ m'.
Proof.
  intros Hcap Hok. unfold push. destruct (full cap h) eqn:Hf.
  2: { rewrite length_app. simpl. replace (length h + 1 - 1) with (length h) by lia.
       destruct (push_room_ok x s h Hok) as (h' & -> & Hok' & Hp).
       exists h', (Build_HeapEntry x s :: h). split_and!; [done|done|by constructor|done]. }
  assert (0 < length h) as Hpos.
  { unfold full in Hf. destruct cap as [c|]; [|done]. specialize (Hcap c eq_refl). lia. }
  destruct (findMinIndex_ok h Hok Hpos) as (k & -> & Hk & Hmin). unfold mbind, result_bind.
  destruct (at_Ok h k ltac:(lia)) as (e & -> & Le & Se). rewrite Se.
  assert (is_min e h) as He by (intros y (i & Hi & <-)%sc_elem; rewrite Se; by apply Hmin).
  destruct (Z.leb_spec s (sc h k)) as [Hle|Hgt].
  { exists h, h. split_and!; [done|done| |done]. constructor; [done|]. intros y Hy. simpl. specialize (He y Hy). lia. }
  set (h1 := <[k:=Build_HeapEntry x s]> h).
  assert (length h1 = length h) as Hlen by apply length_insert.
  assert (forall j, j <> k -> sc h1 j = sc h j) as Hsc.
  { intros j Hj. unfold sc, h1. by rewrite list_lookup_insert_ne. }
  pose proof (Nat.div_mod_eq (length h) 2) as Hdm. pose proof (Nat.mod_upper_bound (length h) 2 ltac:(lia)) as Hmb.
  destruct (siftUp_ok h1 k) as (h2 & -> & Hp & Hok2); [lia| |].
  { assert (forall i, 0 < i < length h1 -> parent i <> k) as Hleaf.
    { intros i Hi Hpi. apply parent_iff in Hpi; lia. }
    split; [|intros i Hi Hpi; by destruct (Hleaf i Hi)]. intros i Hi Hne.
    rewrite !Hsc by (done || by apply Hleaf). apply Hok; lia. }
  exists h2. destruct (replace_perm h k e (Build_HeapEntry x s) Le) as (rest & Hr1 & Hr2).
  exists (Build_HeapEntry x s :: rest). split_and!; [|done| |by rewrite Hp].
  - apply siftDown_noop; [rewrite Hp; lia|done].
  - apply (bs_evict cap x s h e rest); [done|done|done|lia].
Qed.

(** Every method returns on a heap, keeps it a heap and makes a step of the bag. *)
Lemma exec_ok cap o h : (forall c, cap = Some c -> (1 <= c)%Z) -> heap_ok h ->
  exists h' out m', exec cap o h = Ok (h', out) /\ heap_ok h' /\ bag_step cap o h out m' /\ h' ≡ₚ m'.
Proof.
  intros Hcap Hok. destruct o as [x s| | | |f]; cbn [exec].
  - destruct (push_ok cap x s h Hcap Hok) as (h' & m' & -> & Hok' & Hb & Hp). by exists h', None, m'.
  - destruct (pop_ok h Hok) as (h' & out & -> & Hok' & Hcase). exists h', out, h'. split_and!; [done|done| |done].
    destruct Hcase as [(-> & -> & ->)|(e & -> & Hp & Hm)]; by econstructor.
  - exists h, (peek h), h. split_and!; [done|done| |done]. destruct h as [|e h]; [constructor|].
    simpl. apply (bs_peek cap (e :: h) e h); [done|by apply heap_root].
  - exists [], None, []. split_and!; [done|intros i Hi; simpl in *; lia|constructor|done].
  - unfold rescore. destruct (heapify_ok (map (fun e => Build_HeapEntry (item e) (f (item e))) h))
      as (h' & -> & Hp & Hok'). eexists h', None, _. split_and!; [done|done|constructor|done].
Qed.

(** ** Runs *)

Fixpoint run (cap : option Z) (ops : list op) h : result pq_error (list (HeapEntry T) * list (option T)) :=
  match ops with
  | [] => Ok (h, [])
  | o :: ops =>
      '(h', out) ← exec cap o h;
      '(h'', outs) ← run cap ops h';
      Ok (h'', out :: outs)
  end.

Inductive bag_run (cap : option Z) : list op -> list (HeapEntry T) -> list (option T) -> list (HeapEntry T) -> Prop :=
| br_nil m : bag_run cap [] m [] m
| br_cons o ops m out m1 outs m2 :
    bag_step cap o m out m1 -> bag_run cap ops m1 outs m2 -> bag_run cap (o :: ops) m (out :: outs) m2.

Lemma bag_step_size cap o m out m' : bag_step cap o m out m' ->
  forall c, cap = Some c -> (Z.of_nat (length m) <= c)%Z -> (Z.of_nat (length m') <= c)%Z.
Proof.
  intros Hb c ->. destruct Hb as [x s m Hf|x s m Hf Hm|x s m e m' Hf He Hm Hlt| |m e m' He Hm| |m e m' He Hm|m|f m];
    rewrite ?length_map; try done; try (apply Permutation_length in He); simpl in *; lia.
Qed.

Lemma run_refines cap ops h m : (forall c, cap = Some c -> (1 <= c)%Z) -> heap_ok h -> h ≡ₚ m ->
  exists h' outs m', run cap ops h = Ok (h', outs) /\ heap_ok h' /\ bag_run cap ops m outs m' /\ h' ≡ₚ m' /\
    forall c, cap = Some c -> (Z.of_nat (length m) <= c)%Z -> (Z.of_nat (length m') <= c)%Z.
Proof.
  intros Hcap. revert h m. induction ops as [|o ops IH]; intros h m Hok Hp; simpl.
  { exists h, [], m. split_and!; [done|done|constructor|done|done]. }
  destruct (exec_ok cap o h Hcap Hok) as (h1 & out & m1 & -> & Hok1 & Hb & Hp1). unfold mbind, result_bind.
  destruct (bag_step_perm cap o h out m1 m Hp Hb) as (m1' & Hb' & Hp1').
  destruct (IH h1 m1' Hok1) as (h2 & outs & m2 & -> & Hok2 & Hr & Hp2 & Hs); [by rewrite Hp1, Hp1'|].
  exists h2, (out :: outs), m2. split_and!; [done|done|by econstructor|done|].
  intros c Hc Hm. apply Hs; [done|]. by eapply bag_step_size.
Qed.

(** C39. The priority queue is a bounded priority bag. For a capacity of at least
    one, any sequence of calls on a new queue returns without an exception,
    leaves a heap within the capacity, and returns what the abstract bag of
    entries would: [pop] takes an entry of the highest score, [push] on a full
    queue drops the new entry or evicts one of the lowest score. *)
Theorem queue_refines_bag cap ops :
  (forall c, cap = Some c -> (1 <= c)%Z) ->
  exists h outs m, run cap ops [] = Ok (h, outs) /\ bag_run cap ops [] outs m /\ h ≡ₚ m /\ heap_ok h /\
    forall c, cap = Some c -> (Z.of_nat (length h) <= c)%Z.
Proof.
  intros Hcap. destruct (run_refines cap ops [] [] Hcap) as (h & outs & m & Hr & Hok & Hb & Hp & Hs); [|done|].
  { intros i Hi. simpl in Hi. lia. }
  exists h, outs, m. split_and!; [done|done|done|done|]. intros c Hc. rewrite Hp. apply Hs; [done|].
  specialize (Hcap c Hc). simpl. lia.
Qed.

(** [pop] until the queue is empty. *)
Fixpoint drain (n : nat) h : result pq_error (list T) :=
  match n with
  | O => Ok []
  | S n =>
      '(h', out) ← pop h;
      match out with
      | None => Ok []
      | Some x => xs ← drain n h'; Ok (x :: xs)
      end
  end.

Definition descending (l : list (HeapEntry T)) : Prop := StronglySorted (fun a b => (score b <= score a)%Z) l.

(** Draining a heap serves every entry once, by descending score, as the
    sorting of [getTopN] lists them. *)
Theorem drain_descending h : heap_ok h ->
  exists l, drain (length h) h = Ok (map item l) /\ l ≡ₚ h /\ descending l /\
    map score l = map score (getTopN (length h) h).
Proof.
  intros Hok. assert (exists l, drain (length h) h = Ok (map item l) /\ l ≡ₚ h /\ descending l)
    as (l & Hd & Hp & Hs).
  { remember (length h) as n eqn:Hn. revert h Hok Hn. induction n as [|n IH]; intros h Hok Hn; simpl.
    { exists []. split_and!; [done| |constructor]. by destruct h. }
    destruct (pop_ok h Hok) as (h' & out & -> & Hok' & Hcase). unfold mbind, result_bind.
    destruct Hcase as [(-> & _ & _)|(e & -> & Hp & Hm)]; [done|].
    assert (n = length h') as Hn' by (apply Permutation_length in Hp; simpl in Hp; lia).
    destruct (IH h' Hok' Hn') as (l & -> & Hl & Hs). exists (e :: l). split_and!; [done|by rewrite Hp, Hl|].
    constructor; [done|]. apply Forall_forall. intros x Hx. apply Hm. rewrite Hp, <-Hl. by constructor. }
  exists l. split_and!; [done|done|done|].
  set (cmp := fun a b : HeapEntry T => Z.compare (score b) (score a)).
  assert (descending (sort_by cmp h)) as Hs'.
  { apply sort_by_sorted.
    - intros x y z ? ?. lia.
    - intros x y Hxy. unfold cmp in Hxy. destruct (Z.compare_spec (score y) (score x)); [lia|lia|done].
    - intros x y Hxy. unfold cmp in Hxy. apply Z.compare_gt_iff in Hxy. lia. }
  unfold getTopN. fold cmp. rewrite take_ge by (by rewrite sort_by_length).
  apply (StronglySorted_unique_strong (fun a b => (b <= a)%Z)); [lia| | |].
  - clear -Hs. unfold descending in Hs. induction Hs as [|x l Hl IH HF]; simpl; constructor; [done|].
    apply Forall_map. eapply Forall_impl; [exact HF|done].
  - clear -Hs'. induction Hs' as [|x l Hl IH HF]; simpl; constructor; [done|].
    apply Forall_map. eapply Forall_impl; [exact HF|done].
  - apply Permutation_map. by rewrite sort_by_perm.
Qed.
End Heap.

(** ** Examples *)

Lemma queue_refines_bag_witness :
  run (Some 2%Z) [Push "a" 1; Push "b" 5; Push "c" 3; Pop; Push "d" 2; Peek; Rescore (fun _ => 0%Z); Pop; Pop; Pop] [] =
    Ok ([], [None; None; None; Some "b"; None; Some "c"; None; Some "c"; Some "d"; None]) /\
  exists h outs m, run (Some 2%Z) [Push "a" 1%Z; Push "b" 5%Z; Push "c" 3%Z] [] = Ok (h, outs) /\
    bag_run (Some 2%Z) [Push "a" 1%Z; Push "b" 5%Z; Push "c" 3%Z] [] outs m /\ h ≡ₚ m.
Proof.
  split; [vm_compute; reflexivity|].
  destruct (queue_refines_bag (Some 2%Z) [Push "a" 1%Z; Push "b" 5%Z; Push "c" 3%Z])
    as (h & outs & m & Hr & Hb & Hp & _); [intros c [= <-]; lia|]. exists h, outs, m. by split_and!.
Defined.

Lemma drain_descending_witness :
  exists l, drain 3 [Build_HeapEntry "b" 5%Z; Build_HeapEntry "a" 1%Z; Build_HeapEntry "c" 3%Z] = Ok (map item l) /\
    descending l.
Proof.
  destruct (drain_descending [Build_HeapEntry "b" 5%Z; Build_HeapEntry "a" 1%Z; Build_HeapEntry "c" 3%Z])
    as (l & Hd & _ & Hs & _); [|exists l; by split].
  intros i Hi _. simpl in Hi. assert (i = 1 \/ i = 2) as [-> | ->] by lia; vm_compute; discriminate.
Defined.

(** A queue of capacity zero accepts no entry: [push] throws on the missing
    minimum. *)
Lemma zero_capacity_push_throws : push (Some 0%Z) "a" 1%Z [] = Err PQTypeError.
Proof. reflexivity. Qed.
