(* ===== verification/DeadLetterQueue.v ===== *)
(** * Dead letter queue (src/runtime/src/task/dlq.ts)

    [DeadLetterQueue]: failed tasks, oldest first, with a size limit. The task
    and the metadata of an entry are carried, never looked at. *)
From S2P Require Import Prelude.
#[local] Open Scope nat_scope.

Inductive DeadLetterStage := stage_claim | stage_execute | stage_submit.

Record DeadLetterEntry (Task Meta : Type) := {
  taskPda : string;
  task : Task;
  error : string;
  errorCode : option string;
  failedAt : Z;
  stage : DeadLetterStage;
  attempts : Z;
  retryable : bool;
  metadata : option Meta;
}.
Arguments taskPda {Task Meta}.

Section DeadLetterQueue.
Context {Task Meta : Type}.
Abbreviation Entry := (DeadLetterEntry Task Meta).
Implicit Types (entries : list Entry) (pda : string).

Definition DEFAULT_MAX_SIZE : Z := 1000.

(** [config?.maxSize ?? DEFAULT_DLQ_CONFIG.maxSize] *)
Definition maxSizeOf (config : option Z) : Z := default DEFAULT_MAX_SIZE config.

Definition add (maxSize : Z) (e : Entry) entries : list Entry :=
  let entries := if (maxSize <=? Z.of_nat (length entries))%Z then tail entries else entries in
  entries ++ [e].

Definition getAll entries : list Entry := entries.

Definition has_pda pda (e : Entry) : bool := String.eqb (taskPda e) pda.

Definition getByTaskId pda entries : option Entry := List.find (has_pda pda) entries.

(** [entries.findIndex((e) => e.taskPda === taskPda)] *)
Fixpoint findIndex pda entries : option nat :=
  match entries with
  | [] => None
  | e :: rest => if has_pda pda e then Some 0 else S <$> findIndex pda rest
  end.

(** [entries.splice(index, 1)]: the removed entry and what is left. *)
Definition splice1 (index : nat) entries : option Entry * list Entry :=
  (entries !! index, take index entries ++ drop (S index) entries).

Definition retry pda entries : option Entry * list Entry :=
  match findIndex pda entries with None => (None, entries) | Some index => splice1 index entries end.

Definition remove pda entries : bool * list Entry :=
  match findIndex pda entries with None => (false, entries) | Some index => (true, (splice1 index entries).2) end.

Definition size entries : nat := length entries.
Definition clear entries : list Entry := [].

(** ** Lookups *)

(** The index found is that of the oldest entry of the task. *)
Lemma findIndex_spec pda entries :
  match findIndex pda entries with
  | None => forall e, e ∈ entries -> taskPda e <> pda
  | Some i => exists l e l', entries = l ++ e :: l' /\ length l = i /\ taskPda e = pda /\
                forall x, x ∈ l -> taskPda x <> pda
  end.
Proof.
  induction entries as [|e rest IH]; simpl; [by intros e ?%elem_of_nil|]. unfold has_pda.
  destruct (String.eqb_spec (taskPda e) pda) as [He|He].
  { exists [], e, rest. split_and!; [done|done|done|by intros x ?%elem_of_nil]. }
  destruct (findIndex pda rest) as [i|]; simpl.
  - destruct IH as (l & e' & l' & -> & <- & He' & Hl). exists (e :: l), e', l'. split_and!; [done|done|done|].
    intros x [->|Hx]%elem_of_cons; auto.
  - intros x [->|Hx]%elem_of_cons; auto.
Qed.

Lemma splice1_app l (e : Entry) l' : splice1 (length l) (l ++ e :: l') = (Some e, l ++ l').
Proof.
  unfold splice1. rewrite list_lookup_middle by done. rewrite take_app_length.
  rewrite drop_app_ge by lia. by replace (S (length l) - length l) with 1 by lia.
Qed.

(** Retrying a dead-lettered task returns its oldest entry and takes exactly
    that entry out of the queue, with the others in place; [getByTaskId] reads
    the same entry, [remove] leaves the same queue and reports whether there
    was one; an unknown task changes nothing. *)
Theorem retry_takes_oldest pda entries :
  (exists l e l', entries = l ++ e :: l' /\ taskPda e = pda /\ (forall x, x ∈ l -> taskPda x <> pda) /\
     retry pda entries = (Some e, l ++ l') /\ remove pda entries = (true, l ++ l') /\
     getByTaskId pda entries = Some e) \/
  ((forall e, e ∈ entries -> taskPda e <> pda) /\ retry pda entries = (None, entries) /\
   remove pda entries = (false, entries) /\ getByTaskId pda entries = None).
Proof.
  pose proof (findIndex_spec pda entries) as Hf. unfold retry, remove.
  destruct (findIndex pda entries) as [i|] eqn:Hi.
  - left. destruct Hf as (l & e & l' & -> & <- & He & Hl). exists l, e, l'. rewrite !splice1_app.
    split_and!; try done. unfold getByTaskId. clear Hi. induction l as [|x l IH]; simpl; unfold has_pda at 1.
    + by rewrite He, String.eqb_refl.
    + destruct (String.eqb_spec (taskPda x) pda) as [Hx|_]; [|apply IH; intros y Hy; apply Hl; by constructor].
      by destruct (Hl x ltac:(constructor)).
  - right. split_and!; try done. unfold getByTaskId. clear Hi. induction entries as [|x l IH]; simpl; [done|].
    unfold has_pda at 1. destruct (String.eqb_spec (taskPda x) pda) as [Hx|_].
    + by destruct (Hf x ltac:(constructor)).
    + apply IH. intros y Hy. apply Hf. by constructor.
Qed.

(** ** Eviction *)

Definition addAll (maxSize : Z) (es : list Entry) entries : list Entry :=
  foldl (fun q e => add maxSize e q) entries es.

(** With a limit of at least one, adding the entries [es] to an empty queue
    keeps exactly the newest ones up to the limit, oldest first. *)
Theorem dlq_keeps_newest (maxSize : Z) (es : list Entry) :
  (1 <= maxSize)%Z ->
  getAll (addAll maxSize es []) = drop (length es - Z.to_nat maxSize) es.
Proof.
  intros Hm. unfold getAll, addAll. induction es as [|e es IH] using rev_ind; [done|].
  rewrite foldl_app. simpl. rewrite IH. unfold add. rewrite length_drop, length_app. simpl.
  destruct (Z.leb_spec maxSize (Z.of_nat (length es - (length es - Z.to_nat maxSize)))) as [Hle|Hlt].
  - rewrite drop_app_le by lia.
    replace (length es + 1 - Z.to_nat maxSize) with (S (length es - Z.to_nat maxSize)) by lia.
    f_equal. transitivity (drop 1 (drop (length es - Z.to_nat maxSize) es)); [by destruct (drop _ es)|].
    rewrite drop_drop. f_equal. lia.
  - replace (length es - Z.to_nat maxSize) with 0 by lia.
    replace (length es + 1 - Z.to_nat maxSize) with 0 by lia. done.
Qed.
End DeadLetterQueue.

(** ** Examples *)

Definition ex_entry (pda : string) : DeadLetterEntry unit unit :=
  {| taskPda := pda; task := tt; error := "timeout"; errorCode := None; failedAt := 0; stage := stage_claim;
     attempts := 3; retryable := true; metadata := None |}.

Lemma dlq_keeps_newest_witness :
  getAll (addAll 2 [ex_entry "a"; ex_entry "b"; ex_entry "c"] []) = [ex_entry "b"; ex_entry "c"].
Proof. rewrite dlq_keeps_newest; [reflexivity|lia]. Defined.

(** A limit of zero does not disable the queue: it keeps one entry. *)
Lemma zero_limit_keeps_one : size (addAll 0 [ex_entry "a"; ex_entry "b"] []) = 1.
Proof. reflexivity. Qed.
