(* ===== verification/BudgetState.v ===== *)
(** * Budget state (src/runtime/src/policy/budget-state.ts)

    [BudgetStateService]: sliding windows of tool calls, tokens, lamports and
    runtime per session. Amounts and times are integers whose sums are exact.
    The theorem: pruning on every record never loses a sample a reader can
    see. *)
From S2P Require Import Prelude JsMap RollingWindow.
#[local] Open Scope Z_scope.

Record SlidingWindowState := { samples : list (Z * Z); sw_windowMs : Z }.

Definition createSlidingWindow (w : Z) : SlidingWindowState := {| samples := []; sw_windowMs := w |}.

Definition recordSample (st : SlidingWindowState) (amount nowMs : Z) : SlidingWindowState :=
  let cutoff := nowMs - sw_windowMs st in
  let trimmed := List.filter (fun s => cutoff <=? s.1) (samples st) in
  {| samples := trimmed ++ [(nowMs, amount)]; sw_windowMs := sw_windowMs st |}.

Definition windowTotal (st : SlidingWindowState) (nowMs : Z) : Z :=
  let cutoff := nowMs - sw_windowMs st in
  foldl (fun total sample => if cutoff <=? sample.1 then total + sample.2 else total) 0 (samples st).

Record BudgetLedger := {
  lg_toolCallRate : SlidingWindowState;
  lg_tokenSpend : SlidingWindowState;
  lg_lamportSpend : SlidingWindowState;
  lg_runtimeMs : SlidingWindowState;
}.

Record BudgetStateConfig := {
  rateWindowMs : option Z;
  tokenWindowMs : option Z;
  lamportWindowMs : option Z;
  runtimeWindowMs : option Z;
}.

Definition createBudgetLedger (config : BudgetStateConfig) : BudgetLedger :=
  {| lg_toolCallRate := createSlidingWindow (default 60000 (rateWindowMs config));
     lg_tokenSpend := createSlidingWindow (default (60 * 60 * 1000) (tokenWindowMs config));
     lg_lamportSpend := createSlidingWindow (default (60 * 60 * 1000) (lamportWindowMs config));
     lg_runtimeMs := createSlidingWindow (default (60 * 60 * 1000) (runtimeWindowMs config)) |}.

(** The service: its configuration and [bySession]. *)
Record BudgetStateService := { bs_config : BudgetStateConfig; bySession : jsmap BudgetLedger }.

Definition newBudgetStateService (config : BudgetStateConfig) : BudgetStateService :=
  {| bs_config := config; bySession := [] |}.

Definition set_session (sessionId : string) (l : BudgetLedger) (s : BudgetStateService) : BudgetStateService :=
  {| bs_config := bs_config s; bySession := mset sessionId l (bySession s) |}.

(** [ensure]: the ledger of the session, created and stored if there is none. *)
Definition ensure (sessionId : string) (s : BudgetStateService) : BudgetStateService * BudgetLedger :=
  match mget (bySession s) sessionId with
  | Some ledger => (s, ledger)
  | None => let ledger := createBudgetLedger (bs_config s) in (set_session sessionId ledger s, ledger)
  end.

Definition recordToolCall (sessionId : string) (nowMs : Z) (s : BudgetStateService) : BudgetStateService :=
  let '(s, l) := ensure sessionId s in
  set_session sessionId
    {| lg_toolCallRate := recordSample (lg_toolCallRate l) 1 nowMs; lg_tokenSpend := lg_tokenSpend l;
       lg_lamportSpend := lg_lamportSpend l; lg_runtimeMs := lg_runtimeMs l |} s.

Definition recordTokens (sessionId : string) (tokens nowMs : Z) (s : BudgetStateService) : BudgetStateService :=
  let '(s, l) := ensure sessionId s in
  set_session sessionId
    {| lg_toolCallRate := lg_toolCallRate l; lg_tokenSpend := recordSample (lg_tokenSpend l) tokens nowMs;
       lg_lamportSpend := lg_lamportSpend l; lg_runtimeMs := lg_runtimeMs l |} s.

Definition recordLamports (sessionId : string) (lamports nowMs : Z) (s : BudgetStateService) : BudgetStateService :=
  let '(s, l) := ensure sessionId s in
  set_session sessionId
    {| lg_toolCallRate := lg_toolCallRate l; lg_tokenSpend := lg_tokenSpend l;
       lg_lamportSpend := recordSample (lg_lamportSpend l) lamports nowMs; lg_runtimeMs := lg_runtimeMs l |} s.

Definition recordRuntimeMs (sessionId : string) (ms nowMs : Z) (s : BudgetStateService) : BudgetStateService :=
  let '(s, l) := ensure sessionId s in
  set_session sessionId
    {| lg_toolCallRate := lg_toolCallRate l; lg_tokenSpend := lg_tokenSpend l;
       lg_lamportSpend := lg_lamportSpend l; lg_runtimeMs := recordSample (lg_runtimeMs l) ms nowMs |} s.

(** The four readers. *)
Definition readWindow (w : BudgetLedger -> SlidingWindowState) (sessionId : string) (nowMs : Z)
    (s : BudgetStateService) : Z :=
  match mget (bySession s) sessionId with None => 0 | Some ledger => windowTotal (w ledger) nowMs end.

Definition toolCallRate := readWindow lg_toolCallRate.
Definition tokenSpend := readWindow lg_tokenSpend.
Definition lamportSpend := readWindow lg_lamportSpend.
Definition runtimeMs := readWindow lg_runtimeMs.

Definition reset (sessionId : string) (s : BudgetStateService) : BudgetStateService :=
  {| bs_config := bs_config s; bySession := mdel sessionId (bySession s) |}.

Definition resetAll (s : BudgetStateService) : BudgetStateService :=
  {| bs_config := bs_config s; bySession := [] |}.

(** ** Windows lose nothing *)

Lemma windowTotal_totalOf st nowMs : windowTotal st nowMs = totalOf (inWindow (nowMs - sw_windowMs st) (samples st)).
Proof.
  unfold windowTotal, totalOf, inWindow. generalize 0. induction (samples st) as [|x l IH]; intros z; simpl; [done|].
  destruct (_ <=? x.1); simpl; apply IH.
Qed.

(** The samples kept of the history [H] at time [T]: all those a window that
    ends at [T] or later can reach. *)
Definition kept (H : list (Z * Z)) (T : Z) (st : SlidingWindowState) : Prop :=
  exists c, c <= T - sw_windowMs st /\ samples st = inWindow c H.

Lemma kept_later H T T' st : T <= T' -> kept H T st -> kept H T' st.
Proof. intros Hle (c & Hc & Hs). exists c. split; [lia|done]. Qed.

Lemma kept_record H T amount nowMs st :
  0 <= sw_windowMs st -> T <= nowMs -> kept H T st -> kept (H ++ [(nowMs, amount)]) nowMs (recordSample st amount nowMs).
Proof.
  intros Hw Hle (c & Hc & Hs). exists (nowMs - sw_windowMs st). simpl. split; [lia|].
  rewrite inWindow_snoc by lia. f_equal. change (inWindow (nowMs - sw_windowMs st) (samples st) =
    inWindow (nowMs - sw_windowMs st) H). rewrite Hs. apply inWindow_inWindow. lia.
Qed.

Lemma kept_total H T nowMs st : T <= nowMs -> kept H T st ->
  windowTotal st nowMs = totalOf (inWindow (nowMs - sw_windowMs st) H).
Proof. intros Hle (c & Hc & Hs). rewrite windowTotal_totalOf, Hs, inWindow_inWindow; [done|lia]. Qed.

(** ** Calls of the service *)

Inductive kind := ToolCalls | Tokens | Lamports | Runtime.

#[export] Instance kind_eq_dec : EqDecision kind.
Proof. solve_decision. Defined.

Inductive call :=
| Record_ (sessionId : string) (k : kind) (amount nowMs : Z)
| Reset (sessionId : string)
| ResetAll.

(** A record of a tool call counts one. *)
Definition charge_of (k : kind) (amount : Z) : Z := match k with ToolCalls => 1 | _ => amount end.

Definition exec (c : call) (s : BudgetStateService) : BudgetStateService :=
  match c with
  | Record_ sid ToolCalls _ t => recordToolCall sid t s
  | Record_ sid Tokens n t => recordTokens sid n t s
  | Record_ sid Lamports n t => recordLamports sid n t s
  | Record_ sid Runtime n t => recordRuntimeMs sid n t s
  | Reset sid => reset sid s
  | ResetAll => resetAll s
  end.

Definition window_of (k : kind) (l : BudgetLedger) : SlidingWindowState :=
  match k with
  | ToolCalls => lg_toolCallRate l | Tokens => lg_tokenSpend l
  | Lamports => lg_lamportSpend l | Runtime => lg_runtimeMs l
  end.

Definition read (k : kind) (sid : string) (nowMs : Z) (s : BudgetStateService) : Z :=
  match k with
  | ToolCalls => toolCallRate sid nowMs s | Tokens => tokenSpend sid nowMs s
  | Lamports => lamportSpend sid nowMs s | Runtime => runtimeMs sid nowMs s
  end.

(** What was recorded for a session since its last reset. *)
Definition note (sid : string) (k : kind) (H : list (Z * Z)) (c : call) : list (Z * Z) :=
  match c with
  | Record_ sid' k' n t =>
      if String.eqb sid sid' && bool_decide (k = k') then H ++ [(t, charge_of k' n)] else H
  | Reset sid' => if String.eqb sid sid' then [] else H
  | ResetAll => []
  end.

Definition recorded (sid : string) (k : kind) (calls : list call) : list (Z * Z) := foldl (note sid k) [] calls.

(** The clock after a call, read when the call records something. *)
Definition clock_after (T : Z) (c : call) : Z := match c with Record_ _ _ _ t => t | _ => T end.

(** Clock readings never go back, from [T] through the calls to [stop]. *)
Fixpoint ordered (T : Z) (calls : list call) (stop : Z) : Prop :=
  match calls with
  | [] => T <= stop
  | c :: rest => T <= clock_after T c /\ ordered (clock_after T c) rest stop
  end.

Definition windowLength (config : BudgetStateConfig) (k : kind) : Z :=
  sw_windowMs (window_of k (createBudgetLedger config)).

(** A ledger that keeps the histories of its session. *)
Definition ledger_ok (config : BudgetStateConfig) (H : kind -> list (Z * Z)) (T : Z) (l : BudgetLedger) : Prop :=
  forall k, kept (H k) T (window_of k l) /\ sw_windowMs (window_of k l) = windowLength config k.

Definition service_ok (config : BudgetStateConfig) (H : string -> kind -> list (Z * Z)) (T : Z)
    (s : BudgetStateService) : Prop :=
  bs_config s = config /\
  forall sid, match mget (bySession s) sid with
              | Some l => ledger_ok config (H sid) T l
              | None => forall k, H sid k = []
              end.

Lemma fresh_ledger config T : ledger_ok config (fun _ => []) T (createBudgetLedger config).
Proof.
  intros k. split; [|done]. exists (T - sw_windowMs (window_of k (createBudgetLedger config))).
  split; [lia|by destruct k].
Qed.

Lemma service_later config H T T' s : T <= T' -> service_ok config H T s -> service_ok config H T' s.
Proof.
  intros HT [Hc Hs]. split; [done|]. intros sid. specialize (Hs sid).
  destruct (mget (bySession s) sid) as [l|]; [|done]. intros k. destruct (Hs k) as [Hk Hl].
  split; [by apply (kept_later _ T)|done].
Qed.

Lemma fresh_service config T : service_ok config (fun _ _ => []) T (newBudgetStateService config).
Proof. split; [done|]. by intros sid. Qed.

(** A record changes one window of one session. *)
Lemma record_shape sid k n t s :
  let l := (ensure sid s).2 in
  exists l', bySession (exec (Record_ sid k n t) s) = mset sid l' (bySession (ensure sid s).1) /\
    bs_config (exec (Record_ sid k n t) s) = bs_config s /\
    forall k', window_of k' l' =
      if bool_decide (k' = k) then recordSample (window_of k l) (charge_of k n) t else window_of k' l.
Proof.
  unfold ensure, exec, recordToolCall, recordTokens, recordLamports, recordRuntimeMs, ensure.
  destruct (mget (bySession s) sid) as [l|] eqn:Hl, k; eexists; (split; [simpl; reflexivity|]);
    (split; [done|]); intros []; simpl; done.
Qed.

Lemma ensure_ok config H T sid s :
  service_ok config H T s ->
  ledger_ok config (H sid) T (ensure sid s).2 /\
  forall sid', sid' <> sid -> mget (bySession (ensure sid s).1) sid' = mget (bySession s) sid'.
Proof.
  intros [Hc Hs]. unfold ensure. specialize (Hs sid). destruct (mget (bySession s) sid) as [l|] eqn:Hl; simpl.
  - split; [exact Hs|done].
  - split; [|intros sid' Hne; by rewrite mget_mset_ne].
    intros k. rewrite Hs, Hc. apply fresh_ledger.
Qed.

Lemma bs_exec_ok config H T c s :
  (forall k, 0 <= windowLength config k) -> T <= clock_after T c -> service_ok config H T s ->
  service_ok config (fun sid k => note sid k (H sid k) c) (clock_after T c) (exec c s).
Proof.
  intros Hw HT Hs. destruct c as [sid k n t|sid|]; cbn [clock_after] in *.
  - destruct (ensure_ok config H T sid s Hs) as [Hl Hother].
    destruct (record_shape sid k n t s) as (l' & Hmap & Hcfg & Hwin). destruct Hs as [Hc Hs].
    split; [by rewrite Hcfg|]. intros sid'. rewrite Hmap, mget_mset. unfold note.
    destruct (String.eqb_spec sid' sid) as [Heq|Hne]; [subst sid'|].
    + intros k'. rewrite Hwin. destruct (Hl k') as [Hk' Hlen]. cbn [andb].
      case_bool_decide as Hkk; [subst k'|].
      * split; [|done]. apply (kept_record _ T); [rewrite Hlen; apply Hw|done|done].
      * split; [|done]. by apply (kept_later _ T).
    + rewrite Hother by done. specialize (Hs sid'). cbn [andb]. destruct (mget (bySession s) sid') as [l|]; [|done].
      intros k'. destruct (Hs k') as [Hk' Hlen]. split; [|done]. by apply (kept_later _ T).
  - destruct Hs as [Hc Hs]. split; [done|]. intros sid'. simpl. rewrite mget_mdel. specialize (Hs sid').
    by destruct (String.eqb sid' sid).
  - destruct Hs as [Hc Hs]. split; [done|]. intros sid'. done.
Qed.

Lemma run_ok config calls H T s stop :
  (forall k, 0 <= windowLength config k) -> ordered T calls stop -> service_ok config H T s ->
  exists T', T' <= stop /\ service_ok config (fun sid k => foldl (note sid k) (H sid k) calls) T'
    (foldl (fun s c => exec c s) s calls).
Proof.
  intros Hw. revert H T s. induction calls as [|c calls IH]; intros H T s Ho Hs; simpl in *; [by exists T|].
  destruct Ho as [HT Ho]. exact (IH _ _ (exec c s) Ho (bs_exec_ok config H T c s Hw HT Hs)).
Qed.

Lemma service_read config H T s sid k nowMs :
  T <= nowMs -> service_ok config H T s ->
  read k sid nowMs s = totalOf (inWindow (nowMs - windowLength config k) (H sid k)).
Proof.
  intros HT [Hc Hs]. specialize (Hs sid). transitivity (readWindow (window_of k) sid nowMs s); [by destruct k|].
  unfold readWindow. destruct (mget (bySession s) sid) as [l|]; [|by rewrite Hs].
  destruct (Hs k) as [Hk Hlen]. by rewrite (kept_total _ T _ _ HT Hk), Hlen.
Qed.

Lemma service_ok_ext config H H' T s :
  (forall sid k, H sid k = H' sid k) -> service_ok config H T s -> service_ok config H' T s.
Proof.
  intros Heq [Hc Hs]. split; [done|]. intros sid. specialize (Hs sid).
  destruct (mget (bySession s) sid) as [l|]; intros k; rewrite <-Heq; apply Hs.
Qed.

(** Budget readings are exact. After any calls of a new service whose clock
    readings never go back, each reader returns exactly what was recorded for
    the session and kind since its last reset inside the window that ends now:
    pruning on every record forgets nothing that still counts, and sessions and
    kinds do not disturb each other. *)
Theorem budget_readings_exact config calls T sid k nowMs :
  (forall k, 0 <= windowLength config k) -> ordered T calls nowMs ->
  read k sid nowMs (foldl (fun s c => exec c s) (newBudgetStateService config) calls) =
  totalOf (inWindow (nowMs - windowLength config k) (recorded sid k calls)).
Proof.
  intros Hw Ho.
  destruct (run_ok config calls (fun _ _ => []) T (newBudgetStateService config) nowMs Hw Ho) as (T' & HT & Hs);
    [apply fresh_service|].
  exact (service_read config _ T' _ sid k nowMs HT Hs).
Qed.

Lemma budget_readings_exact_witness :
  let calls := [Record_ "s" ToolCalls 9 0; Record_ "s" Tokens 50 10; Record_ "t" Tokens 7 20; Reset "t";
                Record_ "s" Tokens 60 100] in
  let s := foldl (fun s c => exec c s) (newBudgetStateService (Build_BudgetStateConfig (Some 30) (Some 90) None None)) calls in
  (read ToolCalls "s" 100 s, read Tokens "t" 100 s, read Tokens "s" 100 s) = (0, 0, 110) /\
  read Tokens "s" 101 s = totalOf (inWindow (101 - 90) (recorded "s" Tokens calls)).
Proof.
  cbv zeta. split; [vm_compute; reflexivity|].
  apply (budget_readings_exact (Build_BudgetStateConfig (Some 30) (Some 90) None None) _ 0 "s" Tokens 101).
  - intros []; vm_compute; discriminate.
  - simpl. lia.
Defined.
