(* ===== verification/JobGovernor.v ===== *)
(** * Compiled-job execution governor
      (src/runtime/src/task/compiled-job-execution-governor.ts)

    The limits of the governor, read from a base configuration and from
    environment variables, and the governor itself: concurrency by leases and
    rates by the sliding windows of the budget state service. A lease is the
    position of its [released] flag in [gv_leases]. *)
From Stdlib Require Import Ascii.
From S2P Require Import Prelude JsMap JsString RollingWindow BudgetState.
#[local] Open Scope Z_scope.

Record RateLimit := { rl_limit : Z; rl_windowMs : Z }.

Record Controls := {
  maxConcurrentRuns : option Z;
  maxConcurrentRunsByJobType : option (jsmap Z);
  executionRateLimit : option RateLimit;
  executionRateLimitByJobType : option (jsmap RateLimit);
}.

(** ** Reading the limits *)

(** A configuration value: a number, a string, or something else. *)
Inductive jsvalue := VNum (n : number) | VStr (s : string) | VOther.

Definition MAX_SAFE_INTEGER : Z := 2 ^ 53 - 1.

(** [Number.parseInt(s, 10)] of a trimmed string: [None] for [NaN]. *)
Definition parseInt (s : string) : option Z :=
  match s with
  | String "-"%char rest => Z.opp <$> parseDigits 0 false rest
  | String "+"%char rest => parseDigits 0 false rest
  | _ => parseDigits 0 false s
  end.

Definition positiveSafe (z : Z) : option Z :=
  if (z <=? MAX_SAFE_INTEGER) && (0 <? z) then Some z else None.

Definition resolvePositiveInteger (v : jsvalue) : option Z :=
  match v with
  | VNum (NInt z) => positiveSafe z
  | VNum NOther => None
  | VStr s => parseInt (trim s) ≫= positiveSafe
  | VOther => None
  end.

(** [const [a, b] = s.split(sep)], with a missing element as [None]. *)
Definition split2 (sep : ascii) (s : string) : option string * option string :=
  let parts := split sep s in (parts !! 0%nat, parts !! 1%nat).

Definition ofOption (s : option string) : jsvalue := match s with Some s => VStr s | None => VOther end.

Definition parseRateLimitString (value : string) : option RateLimit :=
  let '(limitRaw, windowRaw) := split2 "/"%char value in
  match resolvePositiveInteger (ofOption limitRaw), resolvePositiveInteger (ofOption windowRaw) with
  | Some l, Some w => Some {| rl_limit := l; rl_windowMs := w |}
  | _, _ => None
  end.

Definition parseJobTypeMap {A} (parseValue : string -> option A) (value : string) : jsmap A :=
  foldl (fun result entry =>
      let '(jobTypeRaw, rawValue) := split2 "="%char entry in
      let jobType := default ""%string (trim <$> jobTypeRaw) in
      let raw := default ""%string rawValue in
      if isEmpty jobType || isEmpty raw then result
      else match parseValue (trim raw) with
           | Some parsed => mset jobType parsed result
           | None => result
           end)
    [] (split ","%char value).

(** A limit map as configured: absent, a record, or a string. *)
Inductive limitMap (A : Type) := LMNone | LMRecord (m : jsmap A) | LMString (s : string).
Arguments LMNone {A}.
Arguments LMRecord {A}.
Arguments LMString {A}.

(** The loop over [Object.entries(value)]. *)
Definition normalizeMap {A B} (parse : A -> option B) (m : jsmap A) : jsmap B :=
  foldl (fun result kv => match parse kv.2 with Some parsed => mset (trim kv.1) parsed result | None => result end)
    [] m.

Definition normalizePositiveIntegerMap (value : limitMap jsvalue) : jsmap Z :=
  match value with
  | LMString s => parseJobTypeMap (fun raw => resolvePositiveInteger (VStr raw)) s
  | LMNone => []
  | LMRecord m => normalizeMap resolvePositiveInteger m
  end.

(** A rate limit as configured: absent, an object, or a string. *)
Inductive rateValue := RVNone | RVObject (limit windowMs : jsvalue) | RVString (s : string).

Definition normalizeRateLimit (value : rateValue) : option RateLimit :=
  match value with
  | RVString s => parseRateLimitString s
  | RVNone => None
  | RVObject l w =>
      match resolvePositiveInteger l, resolvePositiveInteger w with
      | Some l, Some w => Some {| rl_limit := l; rl_windowMs := w |}
      | _, _ => None
      end
  end.

Definition normalizeRateLimitMap (value : limitMap rateValue) : jsmap RateLimit :=
  match value with
  | LMString s => parseJobTypeMap parseRateLimitString s
  | LMNone => []
  | LMRecord m => normalizeMap normalizeRateLimit m
  end.

(** The base configuration ([undefined] where absent) and the environment. *)
Record BaseControls := {
  base_maxConcurrentRuns : option jsvalue;
  base_maxConcurrentRunsByJobType : limitMap jsvalue;
  base_executionRateLimit : rateValue;
  base_executionRateLimitByJobType : limitMap rateValue;
}.

Record Env := {
  AGENC_COMPILED_JOB_MAX_CONCURRENT : option string;
  AGENC_COMPILED_JOB_MAX_CONCURRENT_BY_TYPE : option string;
  AGENC_COMPILED_JOB_RATE_LIMIT : option string;
  AGENC_COMPILED_JOB_RATE_LIMIT_BY_TYPE : option string;
}.

Definition readCompiledJobExecutionBudgetControlsFromEnv (env : option Env) : Controls :=
  match env with
  | None => {| maxConcurrentRuns := None; maxConcurrentRunsByJobType := None; executionRateLimit := None;
               executionRateLimitByJobType := None |}
  | Some env =>
      {| maxConcurrentRuns := resolvePositiveInteger (ofOption (AGENC_COMPILED_JOB_MAX_CONCURRENT env));
         maxConcurrentRunsByJobType :=
           (fun s => normalizePositiveIntegerMap (LMString s)) <$> AGENC_COMPILED_JOB_MAX_CONCURRENT_BY_TYPE env;
         executionRateLimit :=
           normalizeRateLimit (match AGENC_COMPILED_JOB_RATE_LIMIT env with Some s => RVString s | None => RVNone end);
         executionRateLimitByJobType :=
           (fun s => normalizeRateLimitMap (LMString s)) <$> AGENC_COMPILED_JOB_RATE_LIMIT_BY_TYPE env |}
  end.

(** Numbers as configuration values. *)
Definition rateObject (r : RateLimit) : rateValue :=
  RVObject (VNum (NInt (rl_limit r))) (VNum (NInt (rl_windowMs r))).

Definition resolveCompiledJobExecutionBudgetControls (base : BaseControls) (env : option Env) : Controls :=
  let envControls := readCompiledJobExecutionBudgetControlsFromEnv env in
  {| maxConcurrentRuns :=
       match base_maxConcurrentRuns base with
       | Some v => resolvePositiveInteger v
       | None => maxConcurrentRuns envControls ≫= fun z => resolvePositiveInteger (VNum (NInt z))
       end;
     maxConcurrentRunsByJobType := Some (normalizePositiveIntegerMap
       match base_maxConcurrentRunsByJobType base with
       | LMNone => match maxConcurrentRunsByJobType envControls with
                   | Some m => LMRecord (mmap (fun z => VNum (NInt z)) m)
                   | None => LMNone
                   end
       | v => v
       end);
     executionRateLimit :=
       match base_executionRateLimit base with
       | RVNone => executionRateLimit envControls ≫= fun r => normalizeRateLimit (rateObject r)
       | v => normalizeRateLimit v
       end;
     executionRateLimitByJobType := Some (normalizeRateLimitMap
       match base_executionRateLimitByJobType base with
       | LMNone => match executionRateLimitByJobType envControls with
                   | Some m => LMRecord (mmap rateObject m)
                   | None => LMNone
                   end
       | v => v
       end) |}.

(** ** The governor *)

Record Governor := {
  gv_globalRate : option BudgetStateService;
  gv_perJobRate : jsmap BudgetStateService;
  gv_activeByJobType : jsmap Z;
  gv_activeGlobal : Z;
  gv_leases : list (string * bool);
}.

Definition rateConfig (r : RateLimit) : BudgetStateConfig :=
  {| rateWindowMs := Some (rl_windowMs r); tokenWindowMs := None; lamportWindowMs := None; runtimeWindowMs := None |}.

Definition GLOBAL_RATE_BUCKET : string := "__compiled_job_global__".

Definition createGovernor (controls : Controls) : Governor :=
  {| gv_globalRate := (fun r => newBudgetStateService (rateConfig r)) <$> executionRateLimit controls;
     gv_perJobRate := []; gv_activeByJobType := []; gv_activeGlobal := 0; gv_leases := [] |}.

Inductive DenyReason :=
| execution_global_concurrency_limit | execution_job_type_concurrency_limit
| execution_global_rate_limit | execution_job_type_rate_limit.

Inductive Decision := Denied (reason : DenyReason) | Granted (lease : nat).

Definition perJobLimit (controls : Controls) (jobType : string) : option Z :=
  maxConcurrentRunsByJobType controls ≫= fun m => mget m jobType.
Definition perJobRateLimit (controls : Controls) (jobType : string) : option RateLimit :=
  executionRateLimitByJobType controls ≫= fun m => mget m jobType.

(** [getPerJobRateState]: the service of the job type, created if needed. *)
Definition getPerJobRateState (controls : Controls) (jobType : string) (states : jsmap BudgetStateService)
    : jsmap BudgetStateService * option BudgetStateService :=
  match perJobRateLimit controls jobType with
  | None => (states, None)
  | Some r =>
      match mget states jobType with
      | Some st => (states, Some st)
      | None => let st := newBudgetStateService (rateConfig r) in (mset jobType st states, Some st)
      end
  end.

(** [limit !== undefined && count >= limit]. *)
Definition reached (limit : option Z) (count : Z) : bool :=
  match limit with Some l => l <=? count | None => false end.

(** The rate of a service that is there against the limit that is there. *)
Definition rateReached (limit : option RateLimit) (rate : option Z) : bool :=
  match limit, rate with Some l, Some r => rl_limit l <=? r | _, _ => false end.

Definition with_perJobRate (states : jsmap BudgetStateService) (g : Governor) : Governor :=
  {| gv_globalRate := gv_globalRate g; gv_perJobRate := states; gv_activeByJobType := gv_activeByJobType g;
     gv_activeGlobal := gv_activeGlobal g; gv_leases := gv_leases g |}.

Definition acquire (controls : Controls) (jobType : string) (nowMs : Z) (g : Governor) : Governor * Decision :=
  if reached (maxConcurrentRuns controls) (gv_activeGlobal g)
  then (g, Denied execution_global_concurrency_limit) else
  let activeForJobType := default 0 (mget (gv_activeByJobType g) jobType) in
  if reached (perJobLimit controls jobType) activeForJobType
  then (g, Denied execution_job_type_concurrency_limit) else
  let globalRate := toolCallRate GLOBAL_RATE_BUCKET nowMs <$> gv_globalRate g in
  if rateReached (executionRateLimit controls) globalRate
  then (g, Denied execution_global_rate_limit) else
  let '(states, perJobState) := getPerJobRateState controls jobType (gv_perJobRate g) in
  let perJobRate := toolCallRate jobType nowMs <$> perJobState in
  if rateReached (perJobRateLimit controls jobType) perJobRate
  then (with_perJobRate states g, Denied execution_job_type_rate_limit) else
  let states := match perJobState with
                | Some st => mset jobType (recordToolCall jobType nowMs st) states
                | None => states
                end in
  ({| gv_globalRate := recordToolCall GLOBAL_RATE_BUCKET nowMs <$> gv_globalRate g;
      gv_perJobRate := states;
      gv_activeByJobType := mset jobType (activeForJobType + 1) (gv_activeByJobType g);
      gv_activeGlobal := gv_activeGlobal g + 1;
      gv_leases := gv_leases g ++ [(jobType, false)] |}, Granted (length (gv_leases g))).

Definition release (lease : nat) (g : Governor) : Governor :=
  match gv_leases g !! lease with
  | Some (jobType, false) =>
      let current := default 0 (mget (gv_activeByJobType g) jobType) in
      {| gv_globalRate := gv_globalRate g; gv_perJobRate := gv_perJobRate g;
         gv_activeByJobType :=
           if current <=? 1 then mdel jobType (gv_activeByJobType g)
           else mset jobType (current - 1) (gv_activeByJobType g);
         gv_activeGlobal := Z.max 0 (gv_activeGlobal g - 1);
         gv_leases := <[lease := (jobType, true)]> (gv_leases g) |}
  | _ => g
  end.

Example resolve_example :
  resolveCompiledJobExecutionBudgetControls
    {| base_maxConcurrentRuns := None; base_maxConcurrentRunsByJobType := LMNone; base_executionRateLimit := RVNone;
       base_executionRateLimitByJobType := LMRecord [(" web ", RVObject (VNum (NInt 3)) (VStr "500"));
                                                    ("bad", RVString "x/1")] |}
    (Some {| AGENC_COMPILED_JOB_MAX_CONCURRENT := Some " 4x";
             AGENC_COMPILED_JOB_MAX_CONCURRENT_BY_TYPE := Some "web=2, data = 7 ,=3,none,zero=0";
             AGENC_COMPILED_JOB_RATE_LIMIT := Some "10/60000"; AGENC_COMPILED_JOB_RATE_LIMIT_BY_TYPE := None |}) =
  {| maxConcurrentRuns := Some 4; maxConcurrentRunsByJobType := Some [("web", 2); ("data", 7)];
     executionRateLimit := Some {| rl_limit := 10; rl_windowMs := 60000 |};
     executionRateLimitByJobType := Some [("web", {| rl_limit := 3; rl_windowMs := 500 |})] |}.
Proof. reflexivity. Qed.
