(* ===== verification/JobGovernorSpec.v ===== *)
(** * The governor keeps its limits

    Along any sequence of acquisitions and releases the counters of the
    governor are the leases held, within the concurrency limits, and the grants
    respect the rate limits over every window. *)
From S2P Require Import Prelude JsMap JsString RollingWindow BudgetState JobGovernor.
#[local] Open Scope Z_scope.

(** ** Leases held *)

(** The leases of the job types [p] that are not released. *)
Definition held (p : string -> bool) (leases : list (string * bool)) : Z :=
  sumZ (map (fun l : string * bool => if negb l.2 && p l.1 then 1 else 0) leases).

Lemma held_app p l l' : held p (l ++ l') = held p l + held p l'.
Proof. unfold held. by rewrite map_app, sumZ_app. Qed.

Lemma held_cons p x l : held p (x :: l) = (if negb x.2 && p x.1 then 1 else 0) + held p l.
Proof. done. Qed.

Lemma held_nonneg p l : 0 <= held p l.
Proof. apply sumZ_nonneg, Forall_map, Forall_forall. intros x _. simpl. destruct (_ && _); lia. Qed.

Lemma held_release p leases i j :
  leases !! i = Some (j, false) ->
  held p (<[i := (j, true)]> leases) = held p leases - (if p j then 1 else 0).
Proof.
  intros Hi. rewrite insert_take_drop by (by eapply lookup_lt_Some).
  transitivity (held p (take i leases ++ (j, false) :: drop (S i) leases) - (if p j then 1 else 0)).
  - rewrite !held_app, !held_cons. simpl. destruct (p j); lia.
  - by rewrite (take_drop_middle leases i (j, false) Hi).
Qed.

(** The counters agree with the leases. *)
Record counted (g : Governor) : Prop := {
  ct_global : gv_activeGlobal g = held (fun _ => true) (gv_leases g);
  ct_job : forall j, default 0 (mget (gv_activeByJobType g) j) = held (String.eqb j) (gv_leases g);
}.

Lemma held_job_le j leases : held (String.eqb j) leases <= held (fun _ => true) leases.
Proof.
  unfold held. induction leases as [|[k r] l IH]; simpl; [lia|]. destruct r, (String.eqb j k); simpl; lia.
Qed.

Lemma release_counted i g : counted g -> counted (release i g).
Proof.
  intros [Hg Hj]. unfold release. destruct (gv_leases g !! i) as [[j []]|] eqn:Hi; [done| |done].
  split; cbn [gv_activeGlobal gv_leases gv_activeByJobType].
  - rewrite (held_release _ _ _ _ Hi), Hg. pose proof (held_nonneg (fun _ => true) (<[i:=(j, true)]> (gv_leases g))).
    rewrite (held_release _ _ _ _ Hi) in *. lia.
  - intros j'. rewrite (held_release _ _ _ _ Hi). specialize (Hj j') as Hj'.
    destruct (String.eqb_spec j' j) as [Heq|Hne]; [subst j'|].
    + pose proof (held_nonneg (String.eqb j) (<[i:=(j, true)]> (gv_leases g))) as Hn.
      rewrite (held_release _ _ _ _ Hi), String.eqb_refl in Hn.
      destruct (Z.leb_spec (default 0 (mget (gv_activeByJobType g) j)) 1).
      * rewrite mget_mdel, String.eqb_refl. simpl. lia.
      * rewrite mget_mset_eq. simpl. lia.
    + destruct (_ <=? 1); [|by rewrite mget_mset_ne, Hj'; [lia|]].
      rewrite mget_mdel, (proj2 (String.eqb_neq j' j)) by done. lia.
Qed.

(** What a granted acquisition does to the counters and leases. *)
Lemma acquire_cases controls j t g :
  let '(g', d) := acquire controls j t g in
  (exists r, d = Denied r /\ gv_activeGlobal g' = gv_activeGlobal g /\
     gv_activeByJobType g' = gv_activeByJobType g /\ gv_leases g' = gv_leases g) \/
  (d = Granted (length (gv_leases g)) /\ gv_activeGlobal g' = gv_activeGlobal g + 1 /\
   gv_activeByJobType g' = mset j (default 0 (mget (gv_activeByJobType g) j) + 1) (gv_activeByJobType g) /\
   gv_leases g' = gv_leases g ++ [(j, false)] /\
   reached (maxConcurrentRuns controls) (gv_activeGlobal g) = false /\
   reached (perJobLimit controls j) (default 0 (mget (gv_activeByJobType g) j)) = false).
Proof.
  unfold acquire. destruct (reached (maxConcurrentRuns controls) _); [left; by eexists|].
  destruct (reached (perJobLimit controls j) _); [left; by eexists|].
  destruct (rateReached (executionRateLimit controls) _); [left; by eexists|].
  destruct (getPerJobRateState _ _ _) as [states st].
  destruct (rateReached (perJobRateLimit controls j) _); [left; by eexists|]. right. by split_and!.
Qed.

Lemma acquire_counted controls j t g : counted g -> counted (acquire controls j t g).1.
Proof.
  intros [Hg Hj]. pose proof (acquire_cases controls j t g) as Ha. destruct (acquire controls j t g) as [g' d]. simpl.
  destruct Ha as [(r & _ & H1 & H2 & H3)|(_ & H1 & H2 & H3 & _)]; split; rewrite ?H1, ?H2, ?H3; try done.
  - rewrite held_app. rewrite held_cons. change (held _ []) with 0. simpl. lia.
  - intros j'. rewrite held_app, mget_mset. rewrite held_cons. change (held _ []) with 0. simpl. specialize (Hj j').
    destruct (String.eqb_spec j' j) as [Heq|Hne]; [subst j'; simpl; lia|lia].
Qed.

(** ** Runs *)

Inductive gop := Acquire (jobType : string) (nowMs : Z) | Release (lease : nat).

(** The new state and the grants: job type and time. *)
Definition gexec (controls : Controls) (o : gop) (g : Governor) : Governor * list (string * Z) :=
  match o with
  | Acquire j t =>
      let '(g', d) := acquire controls j t g in
      (g', match d with Granted _ => [(j, t)] | Denied _ => [] end)
  | Release i => (release i g, [])
  end.

Fixpoint grun (controls : Controls) (ops : list gop) (g : Governor) : Governor * list (string * Z) :=
  match ops with
  | [] => (g, [])
  | o :: ops =>
      let '(g', grants) := gexec controls o g in
      let '(g'', grants') := grun controls ops g' in
      (g'', grants ++ grants')
  end.

(** The concurrency limits: no more leases held than allowed. *)
Definition within_concurrency (controls : Controls) (g : Governor) : Prop :=
  (forall c, maxConcurrentRuns controls = Some c -> held (fun _ => true) (gv_leases g) <= Z.max 0 c) /\
  (forall j c, perJobLimit controls j = Some c -> held (String.eqb j) (gv_leases g) <= Z.max 0 c).

Lemma release_leases i g :
  gv_leases (release i g) = gv_leases g \/
  exists j, gv_leases g !! i = Some (j, false) /\ gv_leases (release i g) = <[i := (j, true)]> (gv_leases g).
Proof. unfold release. destruct (gv_leases g !! i) as [[j []]|]; eauto. Qed.

Lemma gexec_concurrency controls o g :
  counted g -> within_concurrency controls g ->
  counted (gexec controls o g).1 /\ within_concurrency controls (gexec controls o g).1.
Proof.
  intros Hc [H1 H2]. destruct o as [j t|i]; cbn [gexec].
  - pose proof (acquire_counted controls j t g Hc) as Hc'. pose proof (acquire_cases controls j t g) as Ha.
    destruct (acquire controls j t g) as [g' d]. cbn [fst] in *. split; [done|].
    destruct Ha as [(r & _ & _ & _ & H3)|(_ & _ & _ & H3 & Hr1 & Hr2)]; unfold within_concurrency; rewrite H3; [done|].
    destruct Hc as [Hg Hj]. split.
    + intros c Hlim. rewrite held_app. rewrite held_cons. change (held _ []) with 0. simpl. rewrite Hlim in Hr1. simpl in Hr1. lia.
    + intros j' c Hlim. rewrite held_app. rewrite held_cons. change (held _ []) with 0. simpl. specialize (H2 j' c Hlim).
      destruct (String.eqb_spec j' j) as [Heq|]; [subst j'|lia]. rewrite Hlim in Hr2. simpl in Hr2.
      rewrite Hj in Hr2. lia.
  - split; [by apply release_counted|]. cbn [fst]. unfold within_concurrency.
    destruct (release_leases i g) as [->|(j & Hi & ->)]; [done|]. split.
    + intros c Hlim. rewrite (held_release _ _ _ _ Hi). specialize (H1 c Hlim). lia.
    + intros j' c Hlim. rewrite (held_release _ _ _ _ Hi). specialize (H2 j' c Hlim). destruct (String.eqb j' j); lia.
Qed.

Lemma grun_concurrency controls ops g :
  counted g -> within_concurrency controls g ->
  counted (grun controls ops g).1 /\ within_concurrency controls (grun controls ops g).1.
Proof.
  revert g. induction ops as [|o ops IH]; intros g Hc Hw; simpl; [done|].
  destruct (gexec_concurrency controls o g Hc Hw) as [Hc' Hw']. destruct (gexec controls o g) as [g1 gr1].
  specialize (IH g1 Hc' Hw'). destruct (grun controls ops g1) as [g2 gr2]. exact IH.
Qed.

(** Concurrency. After any acquisitions and releases of a new governor,
    releases of unknown or already released leases included, the governor's
    counters are exactly the leases held, and no more leases are held in total
    or for a job type than the limits allow. *)
Theorem governor_concurrency controls ops :
  let g := (grun controls ops (createGovernor controls)).1 in
  counted g /\ within_concurrency controls g.
Proof.
  apply grun_concurrency; [by split|]. unfold within_concurrency, held. simpl. split; intros; lia.
Qed.

(** ** Rates *)

(** The grants as samples of one, and those of a job type. *)
Definition stamps (grants : list (string * Z)) : list (Z * Z) := map (fun gr => (gr.2, 1)) grants.
Definition grantsOf (j : string) (grants : list (string * Z)) : list (string * Z) :=
  List.filter (fun gr => String.eqb j gr.1) grants.

Lemma stamps_nonneg grants : nonneg_amounts (stamps grants).
Proof. apply Forall_map, Forall_forall. intros x _. simpl. lia. Qed.

(** A service whose window of tool calls of [bucket] keeps the history [H]. *)
Definition history (bucket : string) (H : list (Z * Z)) : string -> kind -> list (Z * Z) :=
  fun sid k => if String.eqb sid bucket && bool_decide (k = ToolCalls) then H else [].
Definition rate_ok (r : RateLimit) (bucket : string) (H : list (Z * Z)) (T : Z) (s : BudgetStateService) : Prop :=
  service_ok (rateConfig r) (history bucket H) T s.

Lemma fresh_rate r bucket T : rate_ok r bucket [] T (newBudgetStateService (rateConfig r)).
Proof.
  apply (service_ok_ext _ (fun _ _ => [])); [|apply fresh_service]. intros sid k. unfold history. by destruct (_ && _).
Qed.

Lemma rate_read r bucket H T t s :
  T <= t -> rate_ok r bucket H T s -> toolCallRate bucket t s = totalOf (inWindow (t - rl_windowMs r) H).
Proof.
  intros HT Hr. change (toolCallRate bucket t s) with (read ToolCalls bucket t s).
  rewrite (service_read _ _ _ _ _ _ _ HT Hr). unfold history. by rewrite String.eqb_refl.
Qed.

Lemma rate_record r bucket H T t s :
  0 <= rl_windowMs r -> T <= t -> rate_ok r bucket H T s ->
  rate_ok r bucket (H ++ [(t, 1)]) t (recordToolCall bucket t s).
Proof.
  intros Hw HT Hr. refine (service_ok_ext _ _ _ _ _ _ (bs_exec_ok (rateConfig r) _ T (Record_ bucket ToolCalls 1 t) s _ HT Hr)).
  - intros sid k. unfold note, history. by destruct (String.eqb sid bucket), k.
  - intros []; done.
Qed.

(** A rate limit and the history it governs. *)
Definition rated_by (r : RateLimit) (bucket : string) (H : list (Z * Z)) (T : Z) (s : option BudgetStateService) : Prop :=
  within (rl_limit r) (rl_windowMs r) H /\
  match s with Some s => rate_ok r bucket H T s | None => H = [] end.

Record rated (controls : Controls) (grants : list (string * Z)) (T : Z) (g : Governor) : Prop := {
  rt_global : forall r, executionRateLimit controls = Some r ->
    is_Some (gv_globalRate g) /\ rated_by r GLOBAL_RATE_BUCKET (stamps grants) T (gv_globalRate g);
  rt_job : forall j r, perJobRateLimit controls j = Some r ->
    rated_by r j (stamps (grantsOf j grants)) T (mget (gv_perJobRate g) j);
}.

Lemma rated_by_later r bucket H T T' s : T <= T' -> rated_by r bucket H T s -> rated_by r bucket H T' s.
Proof. intros HT [Hw Hs]. split; [done|]. destruct s; [by apply (service_later _ _ T)|done]. Qed.

Lemma rated_later controls grants T T' g : T <= T' -> rated controls grants T g -> rated controls grants T' g.
Proof.
  intros HT [Hg Hj]. split.
  - intros r Hr. destruct (Hg r Hr). split; [done|]. by apply (rated_by_later _ _ _ T).
  - intros j r Hr. apply (rated_by_later _ _ _ T); [done|]. by apply Hj.
Qed.

(** A grant below the limit. *)
Lemma rated_by_grant r bucket H T t s :
  0 <= rl_windowMs r -> nonneg_amounts H -> T <= t -> rated_by r bucket H T (Some s) ->
  toolCallRate bucket t s < rl_limit r ->
  rated_by r bucket (H ++ [(t, 1)]) t (Some (recordToolCall bucket t s)).
Proof.
  intros Hw Hn HT [Hin Hr] Hlt. rewrite (rate_read _ _ _ _ _ _ HT Hr) in Hlt.
  split; [apply within_snoc; [done|lia|done]|by apply (rate_record _ _ _ T)].
Qed.

(** The limits of the controls make sense. *)
Record controls_ok (controls : Controls) : Prop := {
  co_global : forall r, executionRateLimit controls = Some r -> 0 <= rl_windowMs r;
  co_job : forall j r, perJobRateLimit controls j = Some r -> 0 <= rl_windowMs r;
}.

Lemma grantsOf_snoc j j' t grants :
  stamps (grantsOf j (grants ++ [(j', t)])) =
  (stamps (grantsOf j grants) ++ if String.eqb j j' then [(t, 1)] else [])%list.
Proof.
  unfold grantsOf, stamps. rewrite List.filter_app, map_app. simpl. by destruct (String.eqb j j').
Qed.

(** [getPerJobRateState] gives the service of a rated job type and changes no other. *)
Lemma getPerJob_rated controls j r H T states :
  perJobRateLimit controls j = Some r -> rated_by r j H T (mget states j) ->
  let '(states', st) := getPerJobRateState controls j states in
  exists s, st = Some s /\ mget states' j = Some s /\ rated_by r j H T (Some s) /\
    forall j', j' <> j -> mget states' j' = mget states j'.
Proof.
  intros Hr Hs. unfold getPerJobRateState. rewrite Hr. destruct (mget states j) as [s|] eqn:Hm; [by exists s|].
  exists (newBudgetStateService (rateConfig r)). split_and!; [done|apply mget_mset_eq| |].
  - destruct Hs as [Hw ->]. split; [done|apply fresh_rate].
  - intros j' Hne. by rewrite mget_mset_ne.
Qed.

Lemma getPerJob_other controls j states j' :
  j' <> j -> mget (getPerJobRateState controls j states).1 j' = mget states j'.
Proof.
  intros Hne. unfold getPerJobRateState. destruct (perJobRateLimit controls j); [|done].
  destruct (mget states j); [done|]. by apply mget_mset_ne.
Qed.

Lemma acquire_rated controls j t grants T g :
  controls_ok controls -> T <= t -> rated controls grants T g ->
  let '(g', d) := acquire controls j t g in
  rated controls (grants ++ match d with Granted _ => [(j, t)] | Denied _ => [] end) t g'.
Proof.
  intros Hok HT Hr. apply (rated_later _ _ _ t _ HT) in Hr. unfold acquire.
  destruct (reached (maxConcurrentRuns controls) _); [by rewrite app_nil_r|].
  destruct (reached (perJobLimit controls j) _); [by rewrite app_nil_r|].
  destruct (rateReached (executionRateLimit controls) _) eqn:Hgr; [by rewrite app_nil_r|].
  pose proof (getPerJob_other controls j (gv_perJobRate g)) as Hother.
  destruct Hr as [Hg Hj].
  pose proof (fun r Hr => getPerJob_rated controls j r _ t (gv_perJobRate g) Hr (Hj j r Hr)) as Hown.
  destruct (getPerJobRateState controls j (gv_perJobRate g)) as [states st] eqn:Hst. cbn [fst] in Hother.
  destruct (rateReached (perJobRateLimit controls j) _) eqn:Hjr.
  { rewrite app_nil_r. split; [done|]. intros j' r' Hr'. cbn [gv_perJobRate with_perJobRate].
    destruct (String.eqb_spec j' j) as [Heq|Hne]; [subst j'|rewrite Hother by done; by apply Hj].
    destruct (Hown r' Hr') as (s & -> & Hm & Hs & _). by rewrite Hm. }
  split; cbn [gv_globalRate gv_perJobRate].
  - intros r Hr. destruct (Hg r Hr) as [[s Hsome] Hs]. rewrite Hsome in *. rewrite Hr in Hgr. simpl in Hgr |- *.
    split; [done|]. unfold stamps. rewrite map_app. apply (rated_by_grant _ _ _ t);
      [by apply (co_global controls)|apply stamps_nonneg|lia|done|lia].
  - intros j' r' Hr'. rewrite grantsOf_snoc. destruct (String.eqb_spec j' j) as [Heq|Hne].
    + subst j'. destruct (Hown r' Hr') as (s & -> & Hm & Hs & _). rewrite Hr' in Hjr. simpl in Hjr.
      rewrite mget_mset_eq. apply (rated_by_grant _ _ _ t);
        [by eapply (co_job controls)|apply stamps_nonneg|lia|done|lia].
    + rewrite app_nil_r. destruct st as [s|]; [rewrite mget_mset_ne by done|]; rewrite Hother by done; by apply Hj.
Qed.

(** Clock readings never go back. *)
Fixpoint ordered_ops (T : Z) (ops : list gop) : Prop :=
  match ops with
  | [] => True
  | Acquire _ t :: ops => T <= t /\ ordered_ops t ops
  | Release _ :: ops => ordered_ops T ops
  end.

Lemma release_rated controls grants T i g : rated controls grants T g -> rated controls grants T (release i g).
Proof.
  intros [Hg Hj]. unfold release. destruct (gv_leases g !! i) as [[j []]|]; by split.
Qed.

Lemma grun_rated controls ops grants T g :
  controls_ok controls -> ordered_ops T ops -> rated controls grants T g ->
  exists T', rated controls (grants ++ (grun controls ops g).2) T' (grun controls ops g).1.
Proof.
  intros Hok. revert grants T g. induction ops as [|[j t|i] ops IH]; intros grants T g Ho Hr; simpl.
  - exists T. by rewrite app_nil_r.
  - destruct Ho as [HT Ho]. pose proof (acquire_rated controls j t grants T g Hok HT Hr) as Ha.
    destruct (acquire controls j t g) as [g1 d]. specialize (IH _ t g1 Ho Ha).
    destruct (grun controls ops g1) as [g2 gr]. cbn [fst snd] in *. by rewrite app_assoc.
  - specialize (IH grants T (release i g) Ho (release_rated _ _ _ i _ Hr)).
    by destruct (grun controls ops (release i g)) as [g2 gr].
Qed.

(** Rates. After any acquisitions and releases of a new governor whose clock
    readings never go back, the grants respect the global rate limit and the
    rate limit of each job type over every window: no window of the limit's
    length holds more grants than the limit. *)
Theorem governor_rates controls ops T :
  controls_ok controls -> ordered_ops T ops ->
  let grants := (grun controls ops (createGovernor controls)).2 in
  (forall r, executionRateLimit controls = Some r -> within (rl_limit r) (rl_windowMs r) (stamps grants)) /\
  (forall j r, perJobRateLimit controls j = Some r ->
     within (rl_limit r) (rl_windowMs r) (stamps (grantsOf j grants))).
Proof.
  intros Hok Ho. destruct (grun_rated controls ops [] T (createGovernor controls) Hok Ho) as (T' & [Hg Hj]).
  - split.
    + intros r Hr. simpl. rewrite Hr. simpl. split; [done|]. split; [apply within_nil|apply fresh_rate].
    + intros j r Hr. split; [apply within_nil|done].
  - split; [intros r Hr; by apply (Hg r Hr)|intros j r Hr; by apply (Hj j r Hr)].
Qed.

(** ** Resolved limits *)

Definition positive_safe (z : Z) : Prop := 1 <= z <= MAX_SAFE_INTEGER.

Lemma positiveSafe_Some z z' : positiveSafe z = Some z' -> z' = z /\ positive_safe z.
Proof.
  unfold positiveSafe. destruct (Z.leb_spec z MAX_SAFE_INTEGER), (Z.ltb_spec 0 z); simpl; try done.
  intros [= ->]. split; [done|]. unfold positive_safe. lia.
Qed.

Lemma resolvePositiveInteger_Some v z : resolvePositiveInteger v = Some z -> positive_safe z.
Proof.
  destruct v as [[n|]|s|]; simpl; try done.
  - intros [-> Hp]%positiveSafe_Some. done.
  - destruct (parseInt (trim s)) as [n|]; [|done]. simpl. intros [-> Hp]%positiveSafe_Some. done.
Qed.

Definition rate_positive (r : RateLimit) : Prop := positive_safe (rl_limit r) /\ positive_safe (rl_windowMs r).

Lemma normalizeRateLimit_Some v r : normalizeRateLimit v = Some r -> rate_positive r.
Proof.
  assert (forall a b, match resolvePositiveInteger a, resolvePositiveInteger b with
    | Some l, Some w => Some {| rl_limit := l; rl_windowMs := w |} | _, _ => None end = Some r -> rate_positive r) as Hab.
  { intros a b. destruct (resolvePositiveInteger a) eqn:Ea; [|done]. destruct (resolvePositiveInteger b) eqn:Eb; [|done].
    intros [= <-]. split; by eapply resolvePositiveInteger_Some. }
  destruct v as [|a b|s]; simpl; [done|apply Hab|]. unfold parseRateLimitString. destruct (split2 _ s). apply Hab.
Qed.

(** Every entry of a map built by [mset] satisfies what every inserted one does. *)
Lemma fold_mset_Forall {A B} (Q : B -> Prop) (f : jsmap B -> A -> jsmap B) (l : list A) m :
  (forall m a, Forall (fun kv => Q kv.2) m -> Forall (fun kv => Q kv.2) (f m a)) ->
  Forall (fun kv => Q kv.2) m -> Forall (fun kv => Q kv.2) (foldl f m l).
Proof. intros Hf. revert m. induction l as [|a l IH]; intros m Hm; simpl; [done|]. by apply IH, Hf. Qed.

Lemma parseJobTypeMap_Forall {B} (Q : B -> Prop) parse s :
  (forall raw b, parse raw = Some b -> Q b) -> Forall (fun kv => Q kv.2) (parseJobTypeMap parse s).
Proof.
  intros Hp. apply fold_mset_Forall; [|constructor]. intros m a Hm. destruct (split2 _ a) as [x y]. cbv zeta.
  destruct (_ || _); [done|]. destruct (parse _) as [b|] eqn:Hb; [|done].
  apply Forall_mset; [done|]. simpl. by eapply Hp.
Qed.

Lemma normalizeMap_Forall {A B} (Q : B -> Prop) (parse : A -> option B) m :
  (forall a b, parse a = Some b -> Q b) -> Forall (fun kv => Q kv.2) (normalizeMap parse m).
Proof.
  intros Hp. apply fold_mset_Forall; [|constructor]. intros m' a Hm. destruct (parse a.2) as [b|] eqn:Hb; [|done].
  apply Forall_mset; [done|]. simpl. by eapply Hp.
Qed.

(** Whatever the base configuration and the environment hold, every limit and
    every window of the resolved controls is a positive safe integer: malformed,
    zero, negative and oversized values are dropped, never used. *)
Theorem resolved_controls_positive base env :
  let c := resolveCompiledJobExecutionBudgetControls base env in
  (forall n, maxConcurrentRuns c = Some n -> positive_safe n) /\
  (forall j n, perJobLimit c j = Some n -> positive_safe n) /\
  (forall r, executionRateLimit c = Some r -> rate_positive r) /\
  (forall j r, perJobRateLimit c j = Some r -> rate_positive r).
Proof.
  cbv zeta. split_and!.
  - intros n. simpl. destruct (base_maxConcurrentRuns base); [apply resolvePositiveInteger_Some|].
    destruct (maxConcurrentRuns _) as [z|]; [|done]. cbn [mbind option_bind].
    apply (resolvePositiveInteger_Some (VNum (NInt z))).
  - intros j n Hn. unfold perJobLimit in Hn. simpl in Hn. apply mget_Some_elem in Hn.
    revert Hn. apply (proj1 (Forall_forall (fun kv => positive_safe kv.2) _)).
    match goal with |- context [normalizePositiveIntegerMap ?v] => destruct v as [|m|s] end.
    + constructor.
    + apply normalizeMap_Forall, resolvePositiveInteger_Some.
    + apply parseJobTypeMap_Forall. intros raw. apply resolvePositiveInteger_Some.
  - intros r. unfold resolveCompiledJobExecutionBudgetControls. cbv zeta.
    set (e := readCompiledJobExecutionBudgetControlsFromEnv env). cbn [executionRateLimit].
    destruct (base_executionRateLimit base); [|apply normalizeRateLimit_Some..].
    destruct (executionRateLimit e) as [z|]; [|done]. apply (normalizeRateLimit_Some (rateObject z)).
  - intros j r Hr. unfold perJobRateLimit in Hr. simpl in Hr. apply mget_Some_elem in Hr.
    revert Hr. apply (proj1 (Forall_forall (fun kv => rate_positive kv.2) _)).
    match goal with |- context [normalizeRateLimitMap ?v] => destruct v as [|m|s] end.
    + constructor.
    + apply normalizeMap_Forall, normalizeRateLimit_Some.
    + apply parseJobTypeMap_Forall. intros raw. apply (normalizeRateLimit_Some (RVString raw)).
Qed.

(** ** Examples *)

Definition ex_controls : Controls :=
  {| maxConcurrentRuns := Some 3; maxConcurrentRunsByJobType := Some [("web", 1)];
     executionRateLimit := Some {| rl_limit := 3; rl_windowMs := 100 |};
     executionRateLimitByJobType := Some [("data", {| rl_limit := 1; rl_windowMs := 50 |})] |}.

Definition ex_ops : list gop :=
  [Acquire "web" 0; Acquire "web" 1; Acquire "data" 2; Release 0; Release 0; Acquire "data" 10; Acquire "web" 20;
   Acquire "ops" 30; Release 1; Acquire "data" 102].

Lemma governor_rates_witness :
  (grun ex_controls ex_ops (createGovernor ex_controls)).2 = [("web", 0); ("data", 2); ("web", 20); ("data", 102)] /\
  within 3 100 (stamps (grun ex_controls ex_ops (createGovernor ex_controls)).2).
Proof.
  split; [vm_compute; reflexivity|].
  apply (governor_rates ex_controls ex_ops 0) with (r := {| rl_limit := 3; rl_windowMs := 100 |}).
  - split; [intros r [= <-]; vm_compute; discriminate|]. intros j r Hr. unfold perJobRateLimit in Hr. simpl in Hr.
    destruct (String.eqb j "data"); [|done]. injection Hr as <-. simpl. lia.
  - simpl. lia.
  - reflexivity.
Defined.
