(* ===== verification/ToolTurns.v ===== *)
(** * Tool turns of a conversation (src/runtime/src/llm/tool-turn-validator.ts)

    A conversation with a model is a list of messages; an assistant message may
    call tools, and the results must follow it. [findToolTurnValidationIssue]
    reports the first message that breaks this protocol,
    [repairToolTurnSequence] patches a conversation that lost messages. Sets and
    maps of ids are kept in insertion order. An issue keeps its code and its
    index; its explanatory text is left out. Fields of a message the code only
    carries ([phase], [runtimeOnly]) are one opaque string. *)
From S2P Require Import Prelude JsMap JsString.

Inductive MessageRole := system | user | assistant | tool.

#[export] Instance MessageRole_eq_dec : EqDecision MessageRole.
Proof. solve_decision. Defined.

Inductive LLMContentPart := PText (text : string) | PImage (url : string).
Inductive LLMContent := CString (s : string) | CParts (parts : list LLMContentPart).

Record LLMToolCall := {
  call_id : option string;
  call_name : option string;
  call_arguments : string;
}.

Record LLMMessage := {
  role : MessageRole;
  content : LLMContent;
  toolCalls : option (list LLMToolCall);
  toolCallId : option string;
  toolName : option string;
  carried : string;
}.

Inductive ToolTurnValidationCode :=
| assistant_tool_call_id_missing
| assistant_tool_call_id_duplicate
| assistant_tool_calls_started_before_results
| tool_message_missing_tool_call_id
| tool_result_without_assistant_call
| tool_result_unknown_id
| tool_result_duplicate
| tool_result_missing.

Record ToolTurnValidationIssue := makeIssue {
  issue_code : ToolTurnValidationCode;
  issue_index : option nat;
}.

(** [msg.role === "assistant" && msg.toolCalls && msg.toolCalls.length > 0]:
    the calls of such a message. *)
Definition callsOf (msg : LLMMessage) : option (list LLMToolCall) :=
  match role msg, toolCalls msg with
  | assistant, Some (c :: cs) => Some (c :: cs)
  | _, _ => None
  end.

Definition isTool (msg : LLMMessage) : bool := bool_decide (role msg = tool).

(** [id?.trim()], with the empty string read as missing. *)
Definition trimmedId (id : option string) : option string :=
  match id with
  | Some s => if isEmpty (trim s) then None else Some (trim s)
  | None => None
  end.

(** ** Validation *)

Record TurnState := {
  pending : list string;
  issued : list string;
  resolved : list string;
  allowLeading : bool;
}.

(** The loop over [msg.toolCalls]: [ids] and [issuedToolCallIds]. *)
Fixpoint collectIds (calls : list LLMToolCall) (ids issued : list string)
    : result ToolTurnValidationCode (list string * list string) :=
  match calls with
  | [] => Ok (ids, issued)
  | toolCall :: rest =>
      match trimmedId (call_id toolCall) with
      | None => Err assistant_tool_call_id_missing
      | Some id =>
          if has ids id || has issued id then Err assistant_tool_call_id_duplicate
          else collectIds rest (ids ++ [id]) (issued ++ [id])
      end
  end.

Definition remove_id (id : string) (l : list string) : list string :=
  List.filter (fun x => negb (String.eqb x id)) l.

(** One iteration of the loop over the messages. A set that is [null] and an
    empty one are treated alike by the code. *)
Definition checkMessage (st : TurnState) (msg : LLMMessage)
    : result ToolTurnValidationCode TurnState :=
  match callsOf msg with
  | Some calls =>
      if negb (bool_decide (pending st = [])) then Err assistant_tool_calls_started_before_results
      else
        '(ids, issued') ← collectIds calls [] (issued st);
        Ok {| pending := ids; issued := issued'; resolved := resolved st; allowLeading := false |}
  | None =>
    if isTool msg then
      match trimmedId (toolCallId msg) with
      | None => Err tool_message_missing_tool_call_id
      | Some id =>
          if has (resolved st) id then Err tool_result_duplicate
          else if bool_decide (pending st = []) then
            if allowLeading st
            then Ok {| pending := pending st; issued := issued st;
                       resolved := resolved st ++ [id]; allowLeading := true |}
            else Err tool_result_without_assistant_call
          else if negb (has (pending st) id) then Err tool_result_unknown_id
          else Ok {| pending := remove_id id (pending st); issued := issued st;
                     resolved := resolved st ++ [id]; allowLeading := allowLeading st |}
      end
    else if negb (bool_decide (pending st = [])) then Err tool_result_missing
    else Ok {| pending := pending st; issued := issued st; resolved := resolved st;
               allowLeading := allowLeading st && bool_decide (role msg = system) |}
  end.

Fixpoint checkMessages (i : nat) (st : TurnState) (messages : list LLMMessage)
    : option ToolTurnValidationIssue :=
  match messages with
  | [] => if negb (bool_decide (pending st = [])) then Some (makeIssue tool_result_missing None) else None
  | msg :: rest =>
      match checkMessage st msg with
      | Err code => Some (makeIssue code (Some i))
      | Ok st => checkMessages (S i) st rest
      end
  end.

Definition findToolTurnValidationIssue (messages : list LLMMessage) (allowLeadingToolResults : bool)
    : option ToolTurnValidationIssue :=
  checkMessages 0 {| pending := []; issued := []; resolved := [];
                     allowLeading := allowLeadingToolResults |} messages.

(** [validateToolTurnSequence]: the error is [LLMMessageValidationError] with
    the code and index of the issue. *)
Definition validateToolTurnSequence (messages : list LLMMessage) (allowLeadingToolResults : bool)
    : result ToolTurnValidationIssue unit :=
  match findToolTurnValidationIssue messages allowLeadingToolResults with
  | None => Ok tt
  | Some issue => Err issue
  end.

(** ** Repair *)

Definition missing_text : string := "[missing tool result inserted during transcript recovery]".

Definition missingResult (id name : string) : LLMMessage :=
  {| role := tool; content := CString missing_text; toolCalls := None; toolCallId := Some id;
     toolName := Some name; carried := "" |}.

Record RepairState := {
  repaired : list LLMMessage;
  r_issued : list string;
  r_resolved : list string;
  pendingCalls : jsmap string;
}.

Definition flushPendingToolResults (st : RepairState) : RepairState :=
  {| repaired := repaired st ++ map (fun kv => missingResult kv.1 kv.2) (pendingCalls st);
     r_issued := r_issued st;
     r_resolved := foldl set_add (r_resolved st) (mkeys (pendingCalls st));
     pendingCalls := [] |}.

(** The [filter] of the aggressive mode, which also records the ids it keeps. *)
Fixpoint uniqueCalls (calls : list LLMToolCall) (issued : list string)
    : list LLMToolCall * list string :=
  match calls with
  | [] => ([], issued)
  | toolCall :: rest =>
      match trimmedId (call_id toolCall) with
      | None => uniqueCalls rest issued
      | Some id =>
          if has issued id then uniqueCalls rest issued
          else let '(kept, issued') := uniqueCalls rest (issued ++ [id]) in (toolCall :: kept, issued')
      end
  end.

Definition hasText (c : LLMContent) : bool :=
  match c with
  | CString s => negb (isEmpty (trim s))
  | CParts parts => existsb (fun p => match p with PText t => negb (isEmpty (trim t)) | PImage _ => true end) parts
  end.

Definition with_toolCalls (calls : option (list LLMToolCall)) (msg : LLMMessage) : LLMMessage :=
  {| role := role msg; content := content msg; toolCalls := calls; toolCallId := toolCallId msg;
     toolName := toolName msg; carried := carried msg |}.

(** [toolCall.id!.trim()]: a call without an id makes it throw a [TypeError]. *)
Definition callEntry (toolCall : LLMToolCall) : result unit (string * string) :=
  match call_id toolCall with
  | None => Err tt
  | Some id => Ok (trim id, default "unknown"%string (call_name toolCall))
  end.

(** The [while] loop that collects the consecutive orphans after the first. *)
Fixpoint orphansAfter (st : RepairState) (messages : list LLMMessage) : list LLMMessage :=
  match messages with
  | [] => []
  | msg :: rest =>
      if negb (isTool msg) then [] else
      match trimmedId (toolCallId msg) with
      | None => []
      | Some nextId =>
          if mhas (pendingCalls st) nextId || has (r_resolved st) nextId then []
          else msg :: orphansAfter st rest
      end
  end.

Definition syntheticCall (orphan : LLMMessage) : string * string :=
  (default ""%string (toolCallId orphan), default "unknown"%string (toolName orphan)).

Definition syntheticMessage (orphans : list LLMMessage) : LLMMessage :=
  {| role := assistant; content := CString "";
     toolCalls := Some (map (fun o => {| call_id := Some (syntheticCall o).1;
                                         call_name := Some (syntheticCall o).2;
                                         call_arguments := "{}" |}) orphans);
     toolCallId := None; toolName := None; carried := "" |}.

(** The final [for] over the orphaned block. *)
Definition settleOrphan (st : RepairState) (orphan : LLMMessage) : RepairState :=
  match trimmedId (toolCallId orphan) with
  | None => st
  | Some id => {| repaired := repaired st; r_issued := set_add (r_issued st) id;
                  r_resolved := set_add (r_resolved st) id;
                  pendingCalls := mdel id (pendingCalls st) |}
  end.

Definition adoptOrphans (st : RepairState) (orphans : list LLMMessage) : RepairState :=
  foldl settleOrphan
    {| repaired := repaired st ++ syntheticMessage orphans :: orphans; r_issued := r_issued st;
       r_resolved := r_resolved st; pendingCalls := mof (map syntheticCall orphans) |} orphans.

Definition push (msg : LLMMessage) (st : RepairState) : RepairState :=
  {| repaired := repaired st ++ [msg]; r_issued := r_issued st; r_resolved := r_resolved st;
     pendingCalls := pendingCalls st |}.

(** The branch for an assistant message with tool calls. *)
Definition repairCalls (aggressive : bool) (st : RepairState) (msg : LLMMessage)
    (calls : list LLMToolCall) : result unit RepairState :=
  let st := flushPendingToolResults st in
  let '(unique, issued) := if aggressive then uniqueCalls calls (r_issued st) else (calls, r_issued st) in
  let st := {| repaired := repaired st; r_issued := issued; r_resolved := r_resolved st;
               pendingCalls := pendingCalls st |} in
  if (length unique =? 0)%nat then
    Ok (if hasText (content msg) then push (with_toolCalls None msg) st else st)
  else
    entries ← mapR callEntry unique;
    Ok (push (with_toolCalls (Some unique) msg)
          {| repaired := repaired st; r_issued := r_issued st; r_resolved := r_resolved st;
             pendingCalls := mof entries |}).

(** The loop; [skip] counts the messages that an orphaned block has consumed. *)
Fixpoint repairMessages (aggressive : bool) (skip : nat) (st : RepairState)
    (messages : list LLMMessage) : result unit RepairState :=
  match messages with
  | [] => Ok (if aggressive then flushPendingToolResults st else st)
  | msg :: rest =>
    match skip with
    | S skip => repairMessages aggressive skip st rest
    | O =>
      match callsOf msg with
      | Some calls => st ← repairCalls aggressive st msg calls; repairMessages aggressive 0 st rest
      | None =>
        if isTool msg then
          match trimmedId (toolCallId msg) with
          | None => repairMessages aggressive 0 st rest
          | Some id =>
              if aggressive && has (r_resolved st) id then repairMessages aggressive 0 st rest
              else if negb (mhas (pendingCalls st) id) then
                let orphans := orphansAfter st rest in
                repairMessages aggressive (length orphans) (adoptOrphans st (msg :: orphans)) rest
              else
                repairMessages aggressive 0
                  {| repaired := repaired st ++ [msg]; r_issued := r_issued st;
                     r_resolved := set_add (r_resolved st) id;
                     pendingCalls := mdel id (pendingCalls st) |} rest
          end
        else
          let st := if negb (bool_decide (role msg = system)) && aggressive
                    then flushPendingToolResults st else st in
          repairMessages aggressive 0 (push msg st) rest
      end
    end
  end.

Definition repairToolTurnSequence (messages : list LLMMessage) (repairMissingResults : bool)
    : result unit (list LLMMessage) :=
  match findToolTurnValidationIssue messages false with
  | None => Ok messages
  | Some _ =>
      st ← repairMessages repairMissingResults 0
             {| repaired := []; r_issued := []; r_resolved := []; pendingCalls := [] |} messages;
      Ok (repaired st)
  end.
