(* ===== verification/ToolTurnsSpec.v ===== *)
(** * Tool turns: the protocol as a grammar

    [conversation] is the grammar of well-formed conversations; the validator
    accepts exactly its words and reports the first message no conversation
    can contain. *)
From S2P Require Import Prelude JsMap JsString ToolTurns.

(** ** The grammar *)

Definition plain (m : LLMMessage) : Prop := callsOf m = None /\ isTool m = false.

Definition turn_ids : list LLMToolCall -> list string -> Prop :=
  Forall2 (fun c id => trimmedId (call_id c) = Some id).

Definition results_for : list LLMMessage -> list string -> Prop :=
  Forall2 (fun m id => isTool m = true /\ trimmedId (toolCallId m) = Some id).

(** Well-formed conversations in which the ids of [seen] are used up: plain
    messages, and turns of an assistant message whose calls have distinct unused
    ids, followed at once by one result per call, in any order. *)
Inductive conversation (seen : list string) : list LLMMessage -> Prop :=
| conv_nil : conversation seen []
| conv_plain m rest : plain m -> conversation seen rest -> conversation seen (m :: rest)
| conv_turn m calls ids results rids rest :
    callsOf m = Some calls -> turn_ids calls ids -> NoDup ids ->
    (forall id, id ∈ ids -> id ∉ seen) ->
    results_for results rids -> rids ≡ₚ ids ->
    conversation (seen ++ ids) rest -> conversation seen (m :: results ++ rest).

(** A conversation that may start with results of calls that are not there,
    among system messages. *)
Inductive leading_conversation (seen : list string) : list LLMMessage -> Prop :=
| lead_start msgs : conversation seen msgs -> leading_conversation seen msgs
| lead_result m id rest :
    isTool m = true -> trimmedId (toolCallId m) = Some id -> id ∉ seen ->
    leading_conversation (seen ++ [id]) rest -> leading_conversation seen (m :: rest)
| lead_system m rest :
    plain m -> role m = system -> leading_conversation seen rest ->
    leading_conversation seen (m :: rest).

(** What is left of a conversation in the middle of a turn that still waits
    for the results of [P]. *)
Definition conv_from (P seen : list string) (msgs : list LLMMessage) : Prop :=
  exists results rids rest, msgs = results ++ rest /\ results_for results rids /\
    rids ≡ₚ P /\ conversation seen rest.

Definition same_ids (l l' : list string) : Prop := forall x, x ∈ l <-> x ∈ l'.

Lemma conversation_same seen seen' msgs :
  same_ids seen seen' -> conversation seen msgs -> conversation seen' msgs.
Proof.
  intros Hs Hc. revert seen' Hs.
  induction Hc as [seen|seen m rest Hm _ IH|seen m calls ids res rids rest Hm Hi HN Hf Hr Hp _ IH];
    intros seen' Hs.
  - constructor.
  - constructor; auto.
  - apply (conv_turn seen' m calls ids res rids rest); [done..| |done|done|].
    + intros id Hid Hin. by apply (Hf id Hid), Hs.
    + apply IH. intros x. rewrite !elem_of_app, (Hs x). done.
Qed.

Lemma conv_from_same P P' seen seen' msgs :
  P ≡ₚ P' -> same_ids seen seen' -> conv_from P seen msgs -> conv_from P' seen' msgs.
Proof.
  intros HP Hs (res & rids & rest & -> & Hr & Hp & Hc). exists res, rids, rest.
  split_and!; [done|done|by rewrite Hp|by eapply conversation_same].
Qed.

Lemma conv_from_nil seen msgs : conv_from [] seen msgs <-> conversation seen msgs.
Proof.
  split.
  - intros (res & rids & rest & -> & Hr & ->%Permutation_nil_r & Hc).
    by apply Forall2_nil_inv_r in Hr as ->.
  - intros Hc. exists [], [], msgs. split_and!; [done|constructor|done|done].
Qed.

Lemma tool_no_calls m : isTool m = true -> callsOf m = None.
Proof. unfold isTool, callsOf. intros H%bool_decide_eq_true. by rewrite H. Qed.

Lemma callsOf_not_tool m calls : callsOf m = Some calls -> isTool m = false.
Proof. intros H. destruct (isTool m) eqn:E; [|done]. apply tool_no_calls in E. congruence. Qed.

(** Waiting for results, the next message is one of them. *)
Lemma conv_from_cons_pending P seen m msgs :
  P <> [] -> conv_from P seen (m :: msgs) ->
  exists id, isTool m = true /\ trimmedId (toolCallId m) = Some id /\ id ∈ P /\
    forall P', P ≡ₚ id :: P' -> conv_from P' seen msgs.
Proof.
  intros HP (res & rids & rest & Heq & Hr & Hp & Hc).
  destruct Hr as [|m' id res rids [Ht Hid] Hr].
  { symmetry in Hp. apply Permutation_nil_r in Hp. done. }
  injection Heq as -> ->. exists id. split_and!; [done..| |].
  - rewrite <-Hp. constructor.
  - intros P' HP'. exists res, rids, rest. split_and!; [done|done| |done].
    apply (Permutation_cons_inv (a := id)). by rewrite Hp, HP'.
Qed.

Lemma conv_from_pending_cons P P' seen m id msgs :
  isTool m = true -> trimmedId (toolCallId m) = Some id -> P ≡ₚ id :: P' ->
  conv_from P' seen msgs -> conv_from P seen (m :: msgs).
Proof.
  intros Ht Hid HP (res & rids & rest & -> & Hr & Hp & Hc).
  exists (m :: res), (id :: rids), rest. split_and!; [done|by constructor|by rewrite Hp, HP|done].
Qed.

Lemma conv_plain_inv seen m msgs : callsOf m = None -> conversation seen (m :: msgs) ->
  plain m /\ conversation seen msgs.
Proof. intros Hm Hc. inversion Hc; subst; [done|congruence]. Qed.

Lemma conv_calls_inv seen m calls msgs : callsOf m = Some calls -> conversation seen (m :: msgs) ->
  exists ids, turn_ids calls ids /\ NoDup ids /\ (forall id, id ∈ ids -> id ∉ seen) /\
    conv_from ids (seen ++ ids) msgs.
Proof.
  intros Hm Hc. inversion Hc as [|? ? [Hp _]|? calls' ids res rids rest Hm' Hi HN Hf Hr Hp Hc']; subst; [congruence|].
  rewrite Hm in Hm'. injection Hm' as <-. exists ids. split_and!; [done..|]. by exists res, rids, rest.
Qed.

(** ** The validator accepts exactly the conversations *)

Lemma collectIds_spec calls ids issued0 ids' issued' :
  collectIds calls ids issued0 = Ok (ids', issued') <->
  exists new, turn_ids calls new /\ NoDup new /\ (forall id, id ∈ new -> id ∉ ids /\ id ∉ issued0) /\
    ids' = ids ++ new /\ issued' = issued0 ++ new.
Proof.
  revert ids issued0. induction calls as [|c calls IH]; intros ids issued0; cbn [collectIds].
  - split.
    + intros [= <- <-]. exists []. rewrite !app_nil_r.
      split_and!; [constructor|constructor|by intros ? []%not_elem_of_nil|done|done].
    + intros (new & Hn & _ & _ & -> & ->). apply Forall2_nil_inv_l in Hn as ->. by rewrite !app_nil_r.
  - destruct (trimmedId (call_id c)) as [id|] eqn:Hid.
    2:{ split; [done|]. intros (new & Hn & _). inversion Hn; congruence. }
    destruct (has ids id || has issued0 id) eqn:Hd.
    { split; [done|]. intros (new & Hn & _ & Hf & _).
      inversion Hn as [|? id' ? new' Hid' Hn']; subst. assert (id' = id) as -> by congruence.
      destruct (Hf id) as [H1 H2]; [constructor|].
      apply orb_true_iff in Hd as [Hd|Hd]; apply has_true in Hd; done. }
    apply orb_false_iff in Hd as [Hd1%has_false Hd2%has_false]. rewrite IH. split.
    + intros (new & Hn & HN & Hf & -> & ->). exists (id :: new). rewrite <-!app_assoc.
      split_and!; [by constructor| |intros x [->|Hx]%elem_of_cons; [done|]|done|done].
      * constructor; [|done]. intros Hx. destruct (Hf id Hx) as [[]%not_elem_of_app _]. set_solver.
      * destruct (Hf x Hx). set_solver.
    + intros (new & Hn & HN & Hf & -> & ->).
      inversion Hn as [|? id' ? new' Hid' Hn']; subst. assert (id' = id) as -> by congruence.
      apply NoDup_cons in HN as [HN1 HN]. exists new'. rewrite <-!app_assoc.
      split_and!; [done|done| |done|done]. intros x Hx. destruct (Hf x); [by constructor|].
      assert (x <> id) by congruence. set_solver.
Qed.

Lemma collectIds_inv calls issued0 r : collectIds calls [] issued0 = Ok r ->
  turn_ids calls r.1 /\ NoDup r.1 /\ (forall id, id ∈ r.1 -> id ∉ issued0) /\ r.2 = issued0 ++ r.1.
Proof.
  destruct r as [ids i]. rewrite collectIds_spec. intros (new & ? & ? & Hf & -> & ->). simpl.
  split_and!; [done..| |done]. intros id Hid. by apply Hf.
Qed.

Lemma remove_id_perm id l : NoDup l -> id ∈ l -> l ≡ₚ id :: remove_id id l.
Proof.
  intros HN Hin. induction HN as [|x l Hx HN IH]; [by apply not_elem_of_nil in Hin|].
  unfold remove_id. simpl. destruct (String.eqb_spec x id) as [->|Hne]; simpl.
  - f_equiv. clear -Hx. induction l as [|y l IH]; simpl; [done|].
    apply not_elem_of_cons in Hx as [Hne Hx]. destruct (String.eqb_spec y id); simpl; [congruence|].
    f_equiv. by apply IH.
  - rewrite Permutation_swap. f_equiv. apply IH. by apply elem_of_cons in Hin as [|].
Qed.

Lemma elem_remove_id id x l : x ∈ remove_id id l <-> x ∈ l /\ x <> id.
Proof.
  unfold remove_id. rewrite !list_elem_of_In, filter_In, negb_true_iff, String.eqb_neq. done.
Qed.

Lemma remove_id_NoDup id l : NoDup l -> NoDup (remove_id id l).
Proof. rewrite !NoDup_ListNoDup. apply List.NoDup_filter. Qed.

Definition disjoint_ids (l l' : list string) : Prop := forall x, x ∈ l -> x ∉ l'.

Definition turn_inv (st : TurnState) : Prop := NoDup (pending st) /\ pending st ⊆ issued st.

Definition seen_of (st : TurnState) : list string := issued st ++ resolved st.

(** What the validator still accepts from a state. *)
Definition accepts (st : TurnState) (msgs : list LLMMessage) : Prop :=
  disjoint_ids (pending st) (resolved st) /\ conv_from (pending st) (seen_of st) msgs.

Lemma checkMessage_inv st m st' :
  turn_inv st -> allowLeading st = false -> checkMessage st m = Ok st' ->
  turn_inv st' /\ allowLeading st' = false.
Proof.
  destruct st as [P I R a]. unfold turn_inv, checkMessage. cbn [pending issued resolved allowLeading].
  intros [HN HPI] ->. destruct (callsOf m).
  - case_bool_decide; [|done]. cbn [negb]. intros HF. apply bind_Ok in HF as ([ids j] & HF & [= <-]).
    apply collectIds_inv in HF as (_ & ? & _ & Hj). cbn in *. subst j. split_and!; [done|set_solver|done].
  - destruct (isTool m); [|case_bool_decide; [intros [= <-]; done|done]].
    destruct (trimmedId _) as [id|]; [|done]. destruct (has R id); [done|]. case_bool_decide; [done|].
    destruct (has P id) eqn:HPid; [|done]. intros [= <-]. cbn.
    split_and!; [by apply remove_id_NoDup| |done]. intros x [Hx _]%elem_remove_id. by apply HPI.
Qed.

(** One step of the validator against the grammar, by kind of message. *)
Lemma check_calls st m calls msgs :
  turn_inv st -> callsOf m = Some calls ->
  accepts st (m :: msgs) <-> exists st', checkMessage st m = Ok st' /\ accepts st' msgs.
Proof.
  destruct st as [P I R a]. unfold turn_inv, accepts, seen_of, checkMessage.
  cbn [pending issued resolved]. intros [HN HPI] Hm. rewrite Hm. apply callsOf_not_tool in Hm as Hnt.
  case_bool_decide as HP; cbn [negb].
  2:{ split; [|by intros (? & ? & _)]. intros [_ (? & Ht & _)%(conv_from_cons_pending _ _ _ _ HP)]. congruence. }
  subst P. rewrite conv_from_nil. split.
  - intros [_ (ids & Hi & HNi & Hf & Hc)%(conv_calls_inv _ _ _ _ Hm)]. eexists. split.
    { rewrite (proj2 (collectIds_spec calls [] I ids (I ++ ids))); [done|]. exists ids.
      split_and!; [done|done| |done|done]. intros id Hid. specialize (Hf id Hid). set_solver. }
    cbn. split; [intros x Hx Hin; apply (Hf x Hx); set_solver|].
    eapply conv_from_same; [done| |done]. intros x. set_solver.
  - intros (st' & HF & Hd & Hc). apply bind_Ok in HF as ([ids i] & HF & [= <-]).
    apply collectIds_inv in HF as (Hi & HNi & Hf & Hi2). cbn in *. subst i.
    split; [by intros ? ?%not_elem_of_nil|]. destruct Hc as (res & rids & rest & -> & Hr & Hp & Hc).
    apply (conv_turn _ m calls ids res rids rest); [done..| |done|done|].
    { intros id Hid [?|?]%elem_of_app; [by eapply Hf|by eapply Hd]. }
    eapply conversation_same; [|done]. intros x. set_solver.
Qed.

Lemma check_plain st m msgs :
  plain m -> accepts st (m :: msgs) <-> exists st', checkMessage st m = Ok st' /\ accepts st' msgs.
Proof.
  destruct st as [P I R a]. unfold accepts, seen_of, checkMessage. cbn [pending issued resolved].
  intros [Hm Ht]. rewrite Hm, Ht. case_bool_decide as HP; cbn [negb].
  - subst P. rewrite conv_from_nil. split.
    + intros [Hd [_ Hc]%(conv_plain_inv _ _ _ Hm)]. eexists. split; [done|]. split; [done|by apply conv_from_nil].
    + intros (st' & [= <-] & Hd & Hc). split; [done|]. constructor; [done|by apply conv_from_nil].
  - split; [|by intros (? & ? & _)]. intros [_ (? & Ht' & _)%(conv_from_cons_pending _ _ _ _ HP)]. congruence.
Qed.

Lemma check_result st m msgs :
  turn_inv st -> allowLeading st = false -> isTool m = true ->
  accepts st (m :: msgs) <-> exists st', checkMessage st m = Ok st' /\ accepts st' msgs.
Proof.
  destruct st as [P I R a]. unfold turn_inv, accepts, seen_of, checkMessage.
  cbn [pending issued resolved allowLeading]. intros [HN HPI] -> Ht.
  apply tool_no_calls in Ht as Hm. rewrite Hm, Ht.
  assert (conv_from P (I ++ R) (m :: msgs) -> exists id, P <> [] /\ trimmedId (toolCallId m) = Some id /\ id ∈ P /\
    forall P', P ≡ₚ id :: P' -> conv_from P' (I ++ R) msgs) as Hinv.
  { intros Hc. destruct (decide (P = [])) as [->|HP].
    - apply conv_from_nil, conv_plain_inv in Hc as [[_ ?] _]; congruence.
    - apply conv_from_cons_pending in Hc as (id & _ & ? & ? & ?); eauto. }
  destruct (trimmedId (toolCallId m)) as [id|] eqn:Hid.
  2:{ split; [|by intros (? & ? & _)]. intros [_ (? & _ & ? & _)%Hinv]. done. }
  destruct (has R id) eqn:HR.
  { apply has_true in HR. split; [|by intros (? & ? & _)]. intros [Hd (? & _ & [= <-] & Hin & _)%Hinv]. by destruct (Hd id). }
  apply has_false in HR. case_bool_decide as HP.
  { split; [|by intros (? & ? & _)]. intros [_ (? & ? & _)%Hinv]. done. }
  destruct (has P id) eqn:HPid; cbn [negb].
  2:{ apply has_false in HPid. split; [|by intros (? & ? & _)]. intros [_ (? & _ & [= <-] & ? & _)%Hinv]. done. }
  apply has_true in HPid. pose proof (remove_id_perm id P HN HPid) as Hperm.
  assert (same_ids (I ++ R) (I ++ R ++ [id])) as Hs by (intros x; set_solver). split.
  - intros [Hd (? & _ & [= <-] & _ & Hc)%Hinv]. eexists. split; [done|]. cbn. split.
    { intros x [Hx Hne]%elem_remove_id [?|Hx']%elem_of_app; [by apply (Hd x)|]. by apply list_elem_of_singleton in Hx'. }
    eapply conv_from_same; [done|exact Hs|by apply Hc].
  - intros (st' & [= <-] & Hd & Hc). cbn in *. split.
    { intros x Hx Hin. destruct (decide (x = id)) as [->|Hne]; [done|].
      apply (Hd x); [by apply elem_remove_id|set_solver]. }
    eapply conv_from_pending_cons; [done|done|exact Hperm|].
    eapply conv_from_same; [done| |exact Hc]. intros x. by rewrite (Hs x).
Qed.

Lemma checkMessages_spec i st msgs :
  turn_inv st -> allowLeading st = false -> checkMessages i st msgs = None <-> accepts st msgs.
Proof.
  revert i st. induction msgs as [|m msgs IH]; intros i st Hi Ha; cbn [checkMessages].
  - unfold accepts. case_bool_decide as HP; cbn [negb]; rewrite ?HP, ?conv_from_nil.
    + split; [|done]. intros _. split; [by intros ? ?%not_elem_of_nil|constructor].
    + split; [done|]. intros [_ (res & rids & rest & Heq & Hr & Hp & _)].
      symmetry in Heq. apply app_eq_nil in Heq as [-> ->]. apply Forall2_nil_inv_l in Hr as ->.
      symmetry in Hp. by apply Permutation_nil_r in Hp.
  - assert (accepts st (m :: msgs) <-> exists st', checkMessage st m = Ok st' /\ accepts st' msgs) as ->.
    { destruct (callsOf m) eqn:Hm; [by eapply check_calls|].
      destruct (isTool m) eqn:Ht; [by apply check_result|by apply check_plain]. }
    destruct (checkMessage st m) as [st'|] eqn:E; [|split; [done|by intros (? & ? & _)]].
    destruct (checkMessage_inv st m st' Hi Ha E) as [Hi' Ha']. rewrite (IH (S i) st' Hi' Ha'). split.
    + eauto.
    + by intros (? & [= <-] & ?).
Qed.

(** Before the first turn, results without a call may be allowed. *)
Definition leading_state (R : list string) (allow : bool) : TurnState :=
  {| pending := []; issued := []; resolved := R; allowLeading := allow |}.

Lemma leading_state_inv R b : turn_inv (leading_state R b).
Proof. split; [constructor|done]. Qed.

Lemma accepts_leading R b msgs : accepts (leading_state R b) msgs <-> conversation R msgs.
Proof.
  unfold accepts. rewrite conv_from_nil. split; [by intros [_ ?]|]. intros ?. split; [|done].
  by intros ? ?%not_elem_of_nil.
Qed.

Lemma leading_cons_inv R m msgs :
  isTool m = false -> leading_conversation R (m :: msgs) ->
  conversation R (m :: msgs) \/ (role m = system /\ leading_conversation R msgs).
Proof. intros Ht Hl. inversion Hl; subst; [auto|congruence|auto]. Qed.

Lemma checkMessages_leading i R msgs :
  checkMessages i (leading_state R true) msgs = None <-> leading_conversation R msgs.
Proof.
  revert i R. induction msgs as [|m msgs IH]; intros i R; cbn [checkMessages].
  { split; [|done]. intros _. constructor. constructor. }
  destruct (isTool m) eqn:Ht.
  - apply tool_no_calls in Ht as Hm. unfold checkMessage at 1. rewrite Hm, Ht.
    cbn [resolved pending allowLeading issued leading_state]. split.
    + destruct (trimmedId (toolCallId m)) as [id|] eqn:Hid; [|done].
      destruct (has R id) eqn:HR; [done|]. cbn. intros Hn. apply (IH (S i) (R ++ [id])) in Hn.
      eapply lead_result; [done..|by apply has_false|done].
    + intros Hl. inversion Hl as [? Hc|? id ? _ Hid HR Hl'|? ? [_ ?]]; subst; [|rewrite Hid|congruence].
      * apply conv_plain_inv in Hc as [[_ ?] _]; congruence.
      * apply has_false in HR. rewrite HR. by apply (IH (S i) (R ++ [id])).
  - assert (checkMessages i (leading_state R false) (m :: msgs) = None <-> conversation R (m :: msgs)) as Hfalse.
    { rewrite checkMessages_spec; [apply accepts_leading|apply leading_state_inv|done]. }
    cbn [checkMessages] in Hfalse.
    destruct (decide (role m = system /\ callsOf m = None)) as [[Hs Hm]|Hns].
    + unfold checkMessage at 1. rewrite Hm, Ht. cbn. rewrite (bool_decide_true _ Hs). rewrite (IH (S i) R). split.
      * intros Hl. apply lead_system; done.
      * intros [Hc|[_ Hl]]%leading_cons_inv; [|done|done].
        apply conv_plain_inv in Hc as [_ Hc]; [by constructor|done].
    + assert (checkMessage (leading_state R true) m = checkMessage (leading_state R false) m) as ->.
      { unfold checkMessage. destruct (callsOf m); [done|]. rewrite Ht. cbn. rewrite bool_decide_false by tauto. done. }
      rewrite Hfalse. split; [by constructor|]. intros [Hc|[Hs _]]%leading_cons_inv; [done| |done].
      exfalso. apply Hns. split; [done|]. unfold callsOf. by rewrite Hs.
Qed.

Lemma find_none messages :
  findToolTurnValidationIssue messages false = None <-> conversation [] messages.
Proof.
  unfold findToolTurnValidationIssue.
  rewrite checkMessages_spec; [apply (accepts_leading [] false)|apply (leading_state_inv [] false)|done].
Qed.

(** The validator decides the protocol: it finds no issue exactly in the
    well-formed conversations, with leading results when they are allowed. *)
Theorem validator_decides_protocol (messages : list LLMMessage) (allow : bool) :
  findToolTurnValidationIssue messages allow = None <->
  if allow then leading_conversation [] messages else conversation [] messages.
Proof. destruct allow; [apply (checkMessages_leading 0 [] messages)|apply find_none]. Qed.

(** ** The issue is the first one *)

Fixpoint runMessages (st : TurnState) (msgs : list LLMMessage) : option TurnState :=
  match msgs with
  | [] => Some st
  | m :: rest => match checkMessage st m with Ok st => runMessages st rest | Err _ => None end
  end.

Lemma checkMessages_app i st pre suf st' :
  runMessages st pre = Some st' -> checkMessages i st (pre ++ suf) = checkMessages (i + length pre) st' suf.
Proof.
  revert i st. induction pre as [|m pre IH]; intros i st; cbn [runMessages app checkMessages length].
  - intros [= ->]. by rewrite Nat.add_0_r.
  - destruct (checkMessage st m); [|done]. intros H. rewrite (IH (S i) _ H). f_equal. lia.
Qed.

Lemma checkMessages_index i st msgs code n :
  checkMessages i st msgs = Some (makeIssue code (Some n)) ->
  exists pre m suf st', msgs = pre ++ m :: suf /\ n = i + length pre /\
    runMessages st pre = Some st' /\ checkMessage st' m = Err code.
Proof.
  revert i st. induction msgs as [|m msgs IH]; intros i st; cbn [checkMessages]; [by case_bool_decide|].
  destruct (checkMessage st m) as [st1|c] eqn:E.
  - intros (pre & m' & suf & st' & -> & -> & Hr & He)%IH. exists (m :: pre), m', suf, st'.
    cbn. rewrite E. split_and!; [done|lia|done|done].
  - intros [= -> ->]. exists [], m, msgs, st. cbn. split_and!; [done|lia|done|done].
Qed.

(** Without leading results, every id that waits can still be answered. *)
Definition answerable (st : TurnState) : Prop :=
  turn_inv st /\ allowLeading st = false /\ disjoint_ids (pending st) (resolved st) /\
  resolved st ⊆ issued st /\ Forall (fun id => trim id = id /\ id <> ""%string) (pending st).

Lemma trimmedId_trim o id : trimmedId o = Some id -> trim id = id /\ id <> ""%string.
Proof.
  destruct o as [s|]; [|done]. cbn. destruct (trim s) eqn:E; [done|]. cbn. intros [= <-].
  rewrite <-E. split; [apply trim_idem|]. by rewrite E.
Qed.

Lemma answerable_step st m st' : answerable st -> checkMessage st m = Ok st' -> answerable st'.
Proof.
  intros (Hi & Ha & Hd & HR & HF) E. destruct (checkMessage_inv _ _ _ Hi Ha E) as [Hi' Ha'].
  split; [done|]. split; [done|]. revert E. unfold checkMessage.
  destruct (callsOf m).
  - case_bool_decide as HP; [|done]. cbn [negb]. intros E. apply bind_Ok in E as ([ids j] & E & [= <-]).
    apply collectIds_inv in E as (Ht & ? & Hf & Hj). cbn in *. subst j. split_and!.
    + intros x Hx Hin. apply (Hf x Hx). by apply HR.
    + set_solver.
    + clear -Ht. induction Ht as [|? ? ? ? Hx]; constructor; [by eapply trimmedId_trim|done].
  - destruct (isTool m).
    + destruct (trimmedId _) as [id|]; [|done]. destruct (has (resolved st) id); [done|].
      rewrite Ha. case_bool_decide; [done|]. destruct (has (pending st) id) eqn:HPid; [|done].
      apply has_true in HPid. intros [= <-]. cbn. split_and!.
      * intros x [Hx Hne]%elem_remove_id [?|Hx']%elem_of_app; [by apply (Hd x)|].
        by apply list_elem_of_singleton in Hx'.
      * destruct Hi as [_ HPI]. specialize (HPI id HPid). set_solver.
      * apply Forall_forall. intros x [Hx _]%elem_remove_id. by eapply Forall_forall in HF.
    + case_bool_decide; [|done]. intros [= <-]. cbn. done.
Qed.

Lemma runMessages_answerable st msgs st' : answerable st -> runMessages st msgs = Some st' -> answerable st'.
Proof.
  revert st. induction msgs as [|m msgs IH]; intros st Ha; cbn [runMessages]; [by intros [= <-]|].
  destruct (checkMessage st m) eqn:E; [|done]. apply IH. by eapply answerable_step.
Qed.

Lemma answerable_accepts st : answerable st -> exists suf, accepts st suf.
Proof.
  intros (_ & _ & Hd & _ & HF). exists (map (fun id => missingResult id "") (pending st)). split; [done|].
  exists (map (fun id => missingResult id "") (pending st)), (pending st), []. split_and!.
  - by rewrite app_nil_r.
  - clear Hd. induction HF as [|id l [Ht Hne] HF IH]; constructor; [|done]. split; [done|].
    cbn. rewrite Ht. by destruct id.
  - done.
  - constructor.
Qed.

(** An issue is reported at the first message that breaks the protocol: the
    messages before it are the beginning of some well-formed conversation, and
    with it they are the beginning of none. An issue without an index says that
    the conversation is well-formed so far but ends in the middle of a turn. *)
Theorem issue_is_first_violation (messages : list LLMMessage) (issue : ToolTurnValidationIssue) :
  findToolTurnValidationIssue messages false = Some issue ->
  match issue_index issue with
  | Some n => n < length messages /\ (exists suf, conversation [] (take n messages ++ suf)) /\
              forall suf, ~ conversation [] (take (S n) messages ++ suf)
  | None => issue_code issue = tool_result_missing /\ ~ conversation [] messages /\
            exists suf, conversation [] (messages ++ suf)
  end.
Proof.
  unfold findToolTurnValidationIssue. intros HF.
  assert (answerable (leading_state [] false)) as H0.
  { split; [apply leading_state_inv|]. split_and!; [done|by intros ? ?%not_elem_of_nil|done|constructor]. }
  assert (forall pre st', runMessages (leading_state [] false) pre = Some st' ->
    exists suf, conversation [] (pre ++ suf)) as Hext.
  { intros pre st' Hr. pose proof (runMessages_answerable _ _ _ H0 Hr) as Ha.
    destruct (answerable_accepts st' Ha) as [suf Hacc]. exists suf.
    apply find_none. unfold findToolTurnValidationIssue.
    change {| pending := []; issued := []; resolved := []; allowLeading := false |} with (leading_state [] false).
    rewrite (checkMessages_app _ _ _ _ _ Hr). destruct Ha as (? & ? & _). by apply checkMessages_spec. }
  destruct issue as [code [n|]]; cbn [issue_index issue_code].
  - apply checkMessages_index in HF as (pre & m & suf & st' & -> & -> & Hr & He). cbn [Nat.add].
    rewrite take_app_length, length_app. split_and!; [simpl; lia|by eapply Hext|].
    intros suf' Hc. apply find_none in Hc.
    unfold findToolTurnValidationIssue in Hc.
    replace (take (S (length pre)) (pre ++ m :: suf)) with (pre ++ [m]) in Hc.
    2:{ rewrite <-Nat.add_1_r, take_app_add. done. }
    rewrite <-app_assoc in Hc. rewrite (checkMessages_app _ _ _ _ _ Hr) in Hc. cbn in Hc. by rewrite He in Hc.
  - assert (exists st', runMessages (leading_state [] false) messages = Some st' /\ code = tool_result_missing) as (st' & Hr & ->).
    { revert HF. change {| pending := []; issued := []; resolved := []; allowLeading := false |} with (leading_state [] false).
      generalize (leading_state [] false), 0. clear. induction messages as [|m msgs IH]; intros st i; cbn.
      - case_bool_decide; [done|]. intros [= <-]. eauto.
      - destruct (checkMessage st m); [|done]. apply IH. }
    split_and!; [done| |by eapply Hext].
    intros Hc. apply find_none in Hc. unfold findToolTurnValidationIssue in Hc. congruence.
Qed.
