(* ===== verification/ToolTurnsRepair.v ===== *)
(** * Tool turns: what the repair restores

    [repairable] describes the conversations that lost messages which the
    aggressive repair makes well-formed again; the limits of the repair are
    shown on examples. *)
From S2P Require Import Prelude JsMap JsString ToolTurns ToolTurnsSpec.

(** What may follow a turn whose results are not all there. *)
Definition ends_turn (rest : list LLMMessage) : Prop :=
  match rest with [] => True | m :: _ => isTool m = false /\ role m <> system end.

Definition no_result_next (rest : list LLMMessage) : Prop :=
  match rest with [] => True | m :: _ => isTool m = false end.

(** Conversations that lost messages: turns may lack results if a system
    message does not come next, and results may lack their call if they have
    distinct unused ids without surrounding blanks. *)
Inductive repairable (seen : list string) : list LLMMessage -> Prop :=
| rp_nil : repairable seen []
| rp_plain m rest : plain m -> repairable seen rest -> repairable seen (m :: rest)
| rp_turn m calls ids results rids rest :
    callsOf m = Some calls -> turn_ids calls ids -> NoDup ids ->
    (forall id, id ∈ ids -> id ∉ seen) ->
    results_for results rids -> NoDup rids -> rids ⊆ ids -> (ids ⊆ rids \/ ends_turn rest) ->
    repairable (seen ++ ids) rest -> repairable seen (m :: results ++ rest)
| rp_orphans results rids rest :
    results <> [] -> results_for results rids -> map toolCallId results = map Some rids ->
    NoDup rids -> (forall id, id ∈ rids -> id ∉ seen) -> no_result_next rest ->
    repairable (seen ++ rids) rest -> repairable seen (results ++ rest).

Lemma flush_nothing st : pendingCalls st = [] -> flushPendingToolResults st = st.
Proof.
  destruct st as [r i rs p]. unfold flushPendingToolResults. cbn. intros ->. cbn. by rewrite app_nil_r.
Qed.

(** A message that ends a turn flushes before anything else. *)
Lemma repair_flush st rest : ends_turn rest ->
  repairMessages true 0 st rest = repairMessages true 0 (flushPendingToolResults st) rest.
Proof.
  destruct rest as [|m rest]; cbn [repairMessages ends_turn].
  - intros _. by rewrite (flush_nothing (flushPendingToolResults st)).
  - intros [Ht Hs]. destruct (callsOf m) as [calls|].
    + unfold repairCalls. by rewrite (flush_nothing (flushPendingToolResults st)).
    + rewrite Ht, (bool_decide_false _ Hs). cbn [negb andb].
      by rewrite (flush_nothing (flushPendingToolResults st)).
Qed.

Lemma uniqueCalls_all calls ids issued0 :
  turn_ids calls ids -> NoDup ids -> (forall id, id ∈ ids -> id ∉ issued0) ->
  uniqueCalls calls issued0 = (calls, issued0 ++ ids).
Proof.
  intros Ht. revert issued0. induction Ht as [|c id calls ids Hc Ht IH]; intros issued0 HN Hf.
  { by rewrite app_nil_r. }
  cbn [uniqueCalls]. rewrite Hc. apply NoDup_cons in HN as [Hn HN].
  rewrite (proj2 (has_false issued0 id)) by (apply Hf; constructor).
  rewrite IH; [by rewrite <-app_assoc|done|]. intros x Hx. specialize (Hf x ltac:(by constructor)). set_solver.
Qed.

Lemma callEntries calls ids : turn_ids calls ids ->
  exists entries, mapR callEntry calls = Ok entries /\ mkeys entries = ids.
Proof.
  induction 1 as [|c id calls ids Hc _ (entries & He & Hk)]; [by exists []|].
  assert (callEntry c = Ok (id, default "unknown"%string (call_name c))) as Hce.
  { unfold callEntry. destruct (call_id c) as [s|]; [|done]. cbn in Hc.
    destruct (isEmpty (trim s)); [done|]. by injection Hc as <-. }
  cbn [mapR]. rewrite Hce. unfold mbind, result_bind. rewrite He.
  eexists. split; [done|]. unfold mkeys in *. cbn. by rewrite Hk.
Qed.

Lemma mkeys_mdel {V} k (m : jsmap V) : mkeys (mdel k m) = remove_id k (mkeys m).
Proof.
  unfold mkeys, mdel, remove_id. induction m as [|[a v] m IH]; simpl; [done|].
  destruct (String.eqb a k); simpl; congruence.
Qed.

(** The results that are there, one after the other. *)
Lemma repair_results results rids rest st :
  results_for results rids -> NoDup rids -> rids ⊆ mkeys (pendingCalls st) ->
  NoDup (mkeys (pendingCalls st)) -> disjoint_ids (mkeys (pendingCalls st)) (r_resolved st) ->
  exists st', repairMessages true 0 st (results ++ rest) = repairMessages true 0 st' rest /\
    repaired st' = repaired st ++ results /\ r_issued st' = r_issued st /\
    same_ids (r_resolved st') (r_resolved st ++ rids) /\
    rids ++ mkeys (pendingCalls st') ≡ₚ mkeys (pendingCalls st).
Proof.
  intros Hr. revert st. induction Hr as [|m id results rids [Ht Hid] Hr IH]; intros st HN Hsub HNp Hd.
  { exists st. rewrite !app_nil_r. split_and!; try done. }
  apply NoDup_cons in HN as [Hn HN]. assert (id ∈ mkeys (pendingCalls st)) as Hin by (apply Hsub; constructor).
  cbn [app repairMessages]. rewrite (tool_no_calls m Ht), Ht, Hid.
  rewrite (proj2 (has_false (r_resolved st) id)) by (by apply Hd). cbn [andb].
  rewrite (proj2 (mhas_true (pendingCalls st) id) Hin). cbn [negb].
  match goal with |- context [repairMessages true 0 ?s _] => set (st1 := s) end.
  pose proof (remove_id_perm id _ HNp Hin) as Hperm.
  destruct (IH st1) as (st' & -> & Hrep & Hiss & Hres & Hp).
  - done.
  - unfold st1; cbn [pendingCalls r_resolved repaired r_issued]. rewrite mkeys_mdel. intros x Hx. apply elem_remove_id. split; [apply Hsub; by constructor|congruence].
  - unfold st1; cbn [pendingCalls r_resolved repaired r_issued]. rewrite mkeys_mdel. by apply remove_id_NoDup.
  - unfold st1; cbn [pendingCalls r_resolved repaired r_issued]. rewrite mkeys_mdel. intros x [Hx Hne]%elem_remove_id [?| ->]%elem_set_add; [by apply (Hd x)|done].
  - exists st'. split_and!; [done| |done| |].
    + rewrite Hrep. unfold st1; cbn [pendingCalls r_resolved repaired r_issued]. by rewrite <-app_assoc.
    + intros x. rewrite (Hres x). unfold st1; cbn [pendingCalls r_resolved repaired r_issued]. rewrite !elem_of_app, elem_set_add. set_solver.
    + rewrite Hperm. unfold st1 in Hp; cbn [pendingCalls] in Hp. rewrite mkeys_mdel in Hp. cbn [app]. by f_equiv.
Qed.

Lemma repair_skip l rest st :
  repairMessages true (length l) st (l ++ rest) = repairMessages true 0 st rest.
Proof. induction l as [|m l IH]; [done|]. cbn. apply IH. Qed.

Lemma orphansAfter_all st results rids rest :
  results_for results rids -> pendingCalls st = [] -> disjoint_ids rids (r_resolved st) ->
  no_result_next rest -> orphansAfter st (results ++ rest) = results.
Proof.
  intros Hr Hp Hd Hn. induction Hr as [|m id results rids [Ht Hid] Hr IH]; cbn [app orphansAfter].
  - destruct rest as [|m rest]; [done|]. cbn in *. by rewrite Hn.
  - rewrite Ht, Hid, Hp. cbn [negb mhas mget]. rewrite (proj2 (has_false (r_resolved st) id)) by (apply Hd; constructor).
    cbn [orb]. rewrite IH; [done|]. intros x Hx. apply Hd. by constructor.
Qed.

Lemma settle_all orphans rids st :
  results_for orphans rids -> NoDup rids -> mkeys (pendingCalls st) = rids ->
  exists st', foldl settleOrphan st orphans = st' /\ repaired st' = repaired st /\ pendingCalls st' = [] /\
    same_ids (r_issued st') (r_issued st ++ rids) /\ same_ids (r_resolved st') (r_resolved st ++ rids).
Proof.
  intros Hr. revert st. induction Hr as [|m id orphans rids [_ Hid] Hr IH]; intros st HN Hk.
  { exists st. rewrite !app_nil_r. split_and!; try done. by apply map_eq_nil in Hk. }
  cbn [foldl]. unfold settleOrphan at 2. rewrite Hid. apply NoDup_cons in HN as [Hn HN].
  match goal with |- context [foldl settleOrphan ?s _] => set (st1 := s) end.
  destruct (IH st1 HN) as (st' & -> & Hrep & Hp & Hi & Hres).
  { unfold st1; cbn [pendingCalls r_resolved repaired r_issued]. rewrite mkeys_mdel, Hk. unfold remove_id. cbn. rewrite String.eqb_refl. cbn.
    clear -Hn. induction rids as [|x l IH]; [done|]. cbn. apply not_elem_of_cons in Hn as [Hne Hn].
    destruct (String.eqb_spec x id); [congruence|]. cbn. by rewrite IH. }
  exists st'. split_and!; [done|done|done| |]; intros x; [rewrite (Hi x)|rewrite (Hres x)];
    unfold st1; cbn [pendingCalls r_resolved repaired r_issued]; rewrite !elem_of_app, elem_set_add; set_solver.
Qed.

Lemma synthetic_turn orphans rids :
  orphans <> [] -> results_for orphans rids -> map toolCallId orphans = map Some rids ->
  exists calls, callsOf (syntheticMessage orphans) = Some calls /\ turn_ids calls rids.
Proof.
  intros Hne Hr Hm. exists (default [] (toolCalls (syntheticMessage orphans))).
  split; [by destruct orphans|]. clear Hne. cbn [syntheticMessage toolCalls default].
  induction Hr as [|m id l rids [_ Hid] Hr IH]; [constructor|].
  injection Hm as Hm Hms. constructor; [|by apply IH]. cbn. by rewrite <-Hid, Hm.
Qed.

Lemma synthetic_keys orphans rids :
  map toolCallId orphans = map Some rids -> mkeys (map syntheticCall orphans) = rids.
Proof.
  revert rids. induction orphans as [|o orphans IH]; intros [|id rids] Hm; try done.
  injection Hm as Hm Hms. cbn. rewrite Hm. cbn. f_equal. by apply IH.
Qed.

Lemma mof_keys {V} (l : jsmap V) : NoDup (mkeys l) -> mkeys (mof l) = mkeys l.
Proof. intros HN. by rewrite mof_id. Qed.

Definition at_boundary (seen : list string) (st : RepairState) : Prop :=
  pendingCalls st = [] /\ same_ids (r_issued st) seen /\ same_ids (r_resolved st) seen.

Definition repairs_to (seen : list string) (st : RepairState) (msgs : list LLMMessage) : Prop :=
  exists st' out, repairMessages true 0 st msgs = Ok st' /\ repaired st' = repaired st ++ out /\
    conversation seen out /\ sublist msgs out.

Lemma repair_turn_step seen st m calls ids results rids rest :
  callsOf m = Some calls -> turn_ids calls ids -> NoDup ids -> (forall id, id ∈ ids -> id ∉ seen) ->
  results_for results rids -> NoDup rids -> rids ⊆ ids -> (ids ⊆ rids \/ ends_turn rest) ->
  at_boundary seen st ->
  (forall st, at_boundary (seen ++ ids) st -> repairs_to (seen ++ ids) st rest) ->
  repairs_to seen st (m :: results ++ rest).
Proof.
  intros Hm Hi HN Hf Hr HNr Hsub Hend (Hp & Hiss & Hres) IH. unfold repairs_to.
  destruct (callEntries calls ids Hi) as (entries & He & Hke).
  cbn [repairMessages]. rewrite Hm. unfold repairCalls. rewrite (flush_nothing st Hp).
  rewrite (uniqueCalls_all calls ids (r_issued st) Hi HN); [|intros id Hid Hin; by apply (Hf id Hid), Hiss].
  replace (length calls =? 0)%nat with false; [|by destruct calls; [unfold callsOf in Hm; destruct (role m), (toolCalls m) as [[|]|]|]].
  cbn zeta. unfold mbind, result_bind. cbn [repaired r_issued r_resolved pendingCalls]. rewrite He.
  assert (with_toolCalls (Some calls) m = m) as ->.
  { revert Hm. unfold callsOf, with_toolCalls. destruct m as [ro co [[|c cs]|] ti tn ca], ro; cbn; try done. by intros [= <-]. }
  match goal with |- context [repairMessages true 0 ?s _] => set (st1 := s) end.
  assert (mkeys (pendingCalls st1) = ids) as Hk1 by (cbn [st1 push pendingCalls]; rewrite mof_keys; by rewrite Hke).
  destruct (repair_results results rids rest st1) as (st2 & -> & Hrep2 & Hiss2 & Hres2 & Hp2).
  { done. } { done. } { by rewrite Hk1. } { by rewrite Hk1. }
  { rewrite Hk1. intros x Hx Hin. by apply (Hf x Hx), Hres. }
  rewrite Hk1 in Hp2. set (left := mkeys (pendingCalls st2)) in *.
  assert (repairMessages true 0 st2 rest = repairMessages true 0 (flushPendingToolResults st2) rest) as ->.
  { destruct Hend as [Hall|Hend]; [|by apply repair_flush]. rewrite (flush_nothing st2); [done|].
    apply (fmap_nil_inv fst). change (left = []). destruct left as [|x l]; [done|]. exfalso.
    assert (NoDup (rids ++ x :: l)) as HNa by (by rewrite Hp2). apply NoDup_app in HNa as (_ & Hd & _).
    apply (Hd x); [|constructor]. apply Hall. rewrite <-Hp2. apply elem_of_app. right. constructor. }
  destruct (IH (flushPendingToolResults st2)) as (st' & out & -> & Hrep & Hc & Hs).
  { split; [done|]. split; intros x; cbn.
    - rewrite Hiss2. cbn. rewrite !elem_of_app, (Hiss x). done.
    - rewrite elem_foldl_set_add, (Hres2 x). cbn. fold left. rewrite !elem_of_app, (Hres x), <-Hp2, elem_of_app. tauto. }
  set (fill := map (fun kv => missingResult kv.1 kv.2) (pendingCalls st2)) in *.
  exists st', (m :: (results ++ fill) ++ out). split_and!; [done| | |].
  - rewrite Hrep. cbn. rewrite Hrep2. cbn. by rewrite <-!app_assoc.
  - apply (conv_turn seen m calls ids (results ++ fill) (rids ++ left)); try done.
    apply Forall2_app; [done|]. unfold fill, left.
    assert (Forall (fun k => trimmedId (Some k) = Some k) (mkeys (pendingCalls st2))) as HT.
    { apply Forall_forall. intros k Hk. assert (k ∈ ids) as Hki by (rewrite <-Hp2; set_solver).
      clear -Hi Hki. induction Hi as [|c id ? ? Hc _ IH']; [by apply not_elem_of_nil in Hki|].
      apply elem_of_cons in Hki as [->|Hki]; [|by apply IH']. destruct (trimmedId_trim _ _ Hc) as [Ht Hne].
      cbn. rewrite Ht. by destruct id. }
    clear -HT. induction (pendingCalls st2) as [|[k v] l IH']; [constructor|]. inversion HT; subst.
    constructor; [done|by apply IH'].
  - apply sublist_skip. rewrite <-app_assoc. apply sublist_app; [done|]. by apply sublist_inserts_l.
Qed.

Lemma repair_orphans_step seen st results rids rest :
  results <> [] -> results_for results rids -> map toolCallId results = map Some rids ->
  NoDup rids -> (forall id, id ∈ rids -> id ∉ seen) -> no_result_next rest ->
  at_boundary seen st ->
  (forall st, at_boundary (seen ++ rids) st -> repairs_to (seen ++ rids) st rest) ->
  repairs_to seen st (results ++ rest).
Proof.
  intros Hne Hr Hids HN Hf Hnext (Hp & Hiss & Hres) IH. unfold repairs_to.
  destruct (synthetic_turn results rids Hne Hr Hids) as (calls & Hm & Hi).
  destruct Hr as [|o id results rids [Ht Hid] Hr]; [done|].
  cbn [app repairMessages]. rewrite (tool_no_calls o Ht), Ht, Hid, Hp.
  rewrite (proj2 (has_false (r_resolved st) id)).
  2:{ intros Hin. apply (Hf id); [constructor|by apply Hres]. }
  cbn [andb mhas mget negb]. rewrite (orphansAfter_all st results rids rest Hr Hp).
  2:{ intros x Hx Hin. apply (Hf x); [by constructor|by apply Hres]. } 2:{ done. }
  rewrite repair_skip. unfold adoptOrphans.
  match goal with |- context [foldl settleOrphan ?s _] => set (st1 := s) end.
  destruct (settle_all (o :: results) (id :: rids) st1) as (st2 & -> & Hrep2 & Hp2 & Hi2 & Hr2).
  { by constructor. } { done. }
  { unfold st1. cbn [pendingCalls]. pose proof (synthetic_keys _ _ Hids) as Hk. rewrite mof_keys; by rewrite Hk. }
  destruct (IH st2) as (st' & out & -> & Hrep & Hc & Hs).
  { split; [done|]. split; intros x; [rewrite (Hi2 x)|rewrite (Hr2 x)]; unfold st1; cbn [r_issued r_resolved];
      rewrite !elem_of_app; [rewrite (Hiss x)|rewrite (Hres x)]; done. }
  exists st', (syntheticMessage (o :: results) :: (o :: results) ++ out). split_and!; [done| | |].
  - rewrite Hrep, Hrep2. unfold st1. cbn [repaired]. by rewrite <-app_assoc.
  - apply (conv_turn seen _ calls (id :: rids) (o :: results) (id :: rids)); try done. by constructor.
  - apply sublist_cons. cbn. apply sublist_skip, sublist_app; done.
Qed.

Lemma repair_boundary seen st msgs : repairable seen msgs -> at_boundary seen st -> repairs_to seen st msgs.
Proof.
  intros Hr. revert st. induction Hr as [seen|seen m rest [Hm Ht] _ IH|seen m calls ids results rids rest|
    seen results rids rest]; intros st Hst.
  - exists (flushPendingToolResults st), []. rewrite flush_nothing by apply Hst.
    split_and!; [cbn; by rewrite flush_nothing by apply Hst|by rewrite app_nil_r|constructor|constructor].
  - unfold repairs_to. cbn [repairMessages]. rewrite Hm, Ht.
    replace (if _ && _ then flushPendingToolResults st else st) with st.
    2:{ destruct (_ && _); [|done]. symmetry. apply flush_nothing, Hst. }
    destruct (IH (push m st) Hst) as (st' & out & -> & Hrep & Hc & Hs).
    exists st', (m :: out). split_and!; [done| |by constructor|by apply sublist_skip].
    rewrite Hrep. cbn. by rewrite <-app_assoc.
  - by eapply repair_turn_step.
  - by eapply repair_orphans_step.
Qed.

(** C37. Repair restores the protocol: of a conversation that lost results or
    calls in the ways [repairable] describes, the aggressive repair makes a
    well-formed conversation in which every message of the input is kept, in
    order. *)
Theorem repair_restores_protocol (messages : list LLMMessage) :
  repairable [] messages ->
  exists out, repairToolTurnSequence messages true = Ok out /\ conversation [] out /\ sublist messages out.
Proof.
  intros Hr. unfold repairToolTurnSequence. destruct (findToolTurnValidationIssue messages false) eqn:E.
  - destruct (repair_boundary [] {| repaired := []; r_issued := []; r_resolved := []; pendingCalls := [] |} messages Hr)
      as (st' & out & HF & Hrep & Hc & Hs); [split; done|].
    unfold mbind, result_bind. rewrite HF, Hrep. eauto.
  - apply find_none in E. exists messages. split_and!; [done|done|reflexivity].
Qed.

(** A well-formed conversation that lost one assistant message, the case the
    repair was written for, is repairable. *)
Lemma conversation_repairable seen msgs : conversation seen msgs -> repairable seen msgs.
Proof.
  induction 1 as [|? ? ? ? ? IH|? ? ? ids ? rids ? ? ? ? ? ? Hp ? IH].
  - constructor.
  - by constructor.
  - eapply rp_turn; try done; [by rewrite Hp|by rewrite Hp|left; by rewrite Hp].
Qed.

Definition ids_trimmed (msgs : list LLMMessage) : Prop :=
  Forall (fun m => isTool m = true -> toolCallId m = trimmedId (toolCallId m)) msgs.

Lemma results_ids results rids :
  results_for results rids -> ids_trimmed results -> map toolCallId results = map Some rids.
Proof.
  induction 1 as [|m id results rids [Ht Hid] _ IH]; [done|]. intros [Hm Hms]%Forall_cons.
  cbn. rewrite IH by done. f_equal. by rewrite (Hm Ht).
Qed.

Lemma conversation_next seen msgs : conversation seen msgs -> no_result_next msgs.
Proof.
  intros Hc. destruct Hc as [|m rest [_ Ht] _|m calls ids results rids rest Hm]; [done|done|].
  by eapply callsOf_not_tool.
Qed.

Lemma lost_call_repairable seen pre m calls suf :
  conversation seen (pre ++ m :: suf) -> callsOf m = Some calls -> ids_trimmed (pre ++ suf) ->
  repairable seen (pre ++ suf).
Proof.
  intros Hc Hm. remember (pre ++ m :: suf) as msgs eqn:Heq. revert pre Heq.
  induction Hc as [seen|seen m' rest Hp Hc IH|seen m' calls' ids results rids rest Hm' Hi HN Hf Hr Hpm Hc IH];
    intros pre Heq Htr.
  - by destruct pre.
  - destruct pre as [|x pre]; injection Heq as -> ->; [by destruct Hp as [? _]; congruence|].
    apply Forall_cons in Htr as [_ Htr]. apply rp_plain; [done|by apply IH].
  - destruct pre as [|x pre]; injection Heq as -> Heq.
    + subst suf. cbn [app] in *. apply Forall_app in Htr as [Htr _].
      apply (rp_orphans seen results rids rest); [|done|exact (results_ids _ _ Hr Htr)|by rewrite Hpm| | |].
      * intros ->. apply Forall2_nil_inv_l in Hr as ->. apply Permutation_nil_l in Hpm as <-.
        apply Forall2_nil_inv_r in Hi as ->. unfold callsOf in Hm'. by destruct (role m), (toolCalls m) as [[|]|].
      * intros id Hid. apply Hf. by rewrite <-Hpm.
      * by eapply conversation_next.
      * apply conversation_repairable. eapply conversation_same; [|done]. intros y. rewrite !elem_of_app, Hpm. done.
    + assert (exists pre', pre = results ++ pre' /\ rest = pre' ++ m :: suf) as (pre' & -> & ->).
      { clear -Hr Heq Hm. revert pre Heq. induction Hr as [|r ? results ? [Ht _] _ IH]; intros pre Heq; [by exists pre|].
        destruct pre as [|z pre]; injection Heq as -> Heq; [apply callsOf_not_tool in Hm; congruence|].
        destruct (IH pre Heq) as (pre' & -> & ->). by exists pre'. }
      cbn [app] in *. apply Forall_cons in Htr as [_ Htr]. rewrite <-app_assoc in *.
      apply Forall_app in Htr as [_ Htr].
      eapply rp_turn; try done; [by rewrite Hpm|by rewrite Hpm|left; by rewrite Hpm|by apply IH].
Qed.

(** ** Witnesses and limits *)

Definition ex_call (id : string) : LLMToolCall :=
  {| call_id := Some id; call_name := Some "search"%string; call_arguments := "{}" |}.
Definition ex_say (r : MessageRole) : LLMMessage :=
  {| role := r; content := CString "hi"; toolCalls := None; toolCallId := None; toolName := None; carried := "" |}.
Definition ex_ask (ids : list string) : LLMMessage :=
  {| role := assistant; content := CString ""; toolCalls := Some (map ex_call ids); toolCallId := None;
     toolName := None; carried := "" |}.
Definition ex_answer (id : string) : LLMMessage :=
  {| role := tool; content := CString "42"; toolCalls := None; toolCallId := Some id;
     toolName := Some "search"%string; carried := "" |}.

Example validator_example :
  findToolTurnValidationIssue [ex_say user; ex_ask ["a"; "b"]; ex_answer "b"; ex_answer " a "; ex_say assistant] false = None /\
  findToolTurnValidationIssue [ex_answer "z"; ex_ask ["a"]; ex_answer "a"] true = None /\
  findToolTurnValidationIssue [ex_ask ["a"]; ex_say user] false = Some (makeIssue tool_result_missing (Some 1)).
Proof. by vm_compute. Qed.

Lemma issue_is_first_violation_witness :
  2 < 4 /\ (exists suf, conversation [] ([ex_ask ["a"]; ex_answer "a"] ++ suf)) /\
  forall suf, ~ conversation [] ([ex_ask ["a"]; ex_answer "a"; ex_answer "a"] ++ suf).
Proof.
  exact (issue_is_first_violation [ex_ask ["a"]; ex_answer "a"; ex_answer "a"; ex_say user]
    (makeIssue tool_result_duplicate (Some 2)) ltac:(vm_compute; reflexivity)).
Defined.

(** The call of [b] was lost, and the result of [c] never came. *)
Lemma repair_restores_protocol_witness :
  repairable [] [ex_say user; ex_answer "b"; ex_say assistant; ex_ask ["c"]; ex_say user] /\
  exists out, repairToolTurnSequence [ex_say user; ex_answer "b"; ex_say assistant; ex_ask ["c"]; ex_say user] true = Ok out /\
    conversation [] out /\ sublist [ex_say user; ex_answer "b"; ex_say assistant; ex_ask ["c"]; ex_say user] out.
Proof.
  assert (repairable [] [ex_say user; ex_answer "b"; ex_say assistant; ex_ask ["c"]; ex_say user]) as Hr.
  { apply rp_plain; [done|].
    apply (rp_orphans _ [ex_answer "b"] ["b"%string]); [done|repeat constructor|done|apply NoDup_singleton|set_solver|done|].
    apply rp_plain; [done|].
    apply (rp_turn _ (ex_ask ["c"]) [ex_call "c"] ["c"%string] [] [] [ex_say user]);
      [done|repeat constructor|apply NoDup_singleton|set_solver|constructor|constructor|set_solver|by right|].
    apply rp_plain; [done|constructor]. }
  split; [exact Hr|]. exact (repair_restores_protocol _ Hr).
Defined.

(** Where the repair fails: the system message between a call and its missing
    result stays between them. *)
Lemma repair_keeps_system_gap :
  match repairToolTurnSequence [ex_ask ["a"]; ex_say system] true with
  | Ok out => findToolTurnValidationIssue out false = Some (makeIssue tool_result_missing (Some 1))
  | Err _ => False
  end.
Proof. by vm_compute. Qed.

(** An orphan whose id has surrounding blanks gets a second, invented result. *)
Lemma repair_duplicates_untrimmed :
  match repairToolTurnSequence [ex_answer " a "] true with
  | Ok out => findToolTurnValidationIssue out false = Some (makeIssue tool_result_duplicate (Some 2))
  | Err _ => False
  end.
Proof. by vm_compute. Qed.

(** An orphan in the middle of a turn makes the turn lose its open calls. *)
Lemma repair_drops_open_calls :
  match repairToolTurnSequence [ex_ask ["a"; "b"]; ex_answer "z"; ex_answer "a"] true with
  | Ok out => findToolTurnValidationIssue out false <> None
  | Err _ => False
  end.
Proof. by vm_compute. Qed.
