(* ===== verification/Cron.v ===== *)
(** * Cron schedules (src/runtime/src/gateway/scheduler.ts)

    The cron parser, the matching of a date against a schedule and the search
    for the next match. A [Date] is its time value in milliseconds. The host's
    time zone is a parameter, the two conversions [LocalTime] and [UTC] of
    ECMAScript, with whatever offsets and daylight saving the host has; a number
    is the zone of that constant offset. The calendar is the proleptic Gregorian
    calendar of ECMAScript. A digit string is read exactly;
    the host rounds numbers above 2^53, which are out of bounds either way. *)
From Stdlib Require Import Ascii.
From S2P Require Import Prelude JsString.
#[local] Open Scope Z_scope.

Record CronSchedule := {
  minute : list Z;
  hour : list Z;
  dayOfMonth : list Z;
  month : list Z;
  dayOfWeek : list Z;
}.

Definition MS_PER_MINUTE : Z := 60000.
Definition MS_PER_DAY : Z := 86400000.
Definition MAX_LOOKAHEAD_DAYS : nat := 366.

Inductive cron_error :=
| EmptySegment | RangeOutOfBounds | RangeLowAboveHigh | InvalidFieldValue | ValueOutOfBounds
| InvalidStep | StepTooLarge | WrongFieldCount | NoMatchInLookahead
| JobExists | JobNotFound | ScheduleFailed (e : cron_error) | EnableFailed (e : cron_error).

Notation R := (result cron_error).

(** ** Parsing *)

(** [/^\d+$/.test(s)], with the number [parseInt(s, 10)] then reads. *)
Definition allDigits (s : string) : option Z :=
  if negb (isEmpty s) && sall isDigit s then parseDigits 0 false s else None.

(** The longest prefix of digits, and the rest. *)
Fixpoint spanDigits (s : string) : string * string :=
  match s with
  | String c rest =>
      if isDigit c then let '(ds, r) := spanDigits rest in (String c ds, r) else (EmptyString, s)
  | EmptyString => (EmptyString, EmptyString)
  end.

(** [s.match(/^(\d+)-(\d+)(\/(\d+))?$/)]: groups 1, 2 and 4. *)
Definition rangeMatch (s : string) : option (Z * Z * option string) :=
  let '(a, r1) := spanDigits s in
  match allDigits a, r1 with
  | Some low, String "-"%char r2 =>
      let '(b, r3) := spanDigits r2 in
      match allDigits b, r3 with
      | Some high, EmptyString => Some (low, high, None)
      | Some high, String "/"%char step =>
          match allDigits step with Some _ => Some (low, high, Some step) | None => None end
      | _, _ => None
      end
  | _, _ => None
  end.

Definition hasZ (l : list Z) (z : Z) : bool := existsb (Z.eqb z) l.

(** [results.add(i)]. *)
Definition addZ (l : list Z) (z : Z) : list Z := if hasZ l z then l else l ++ [z].

(** [for (let i = low; i <= high; i += step) results.add(i)]. *)
Fixpoint addSteps (fuel : nat) (i high step : Z) (results : list Z) : list Z :=
  match fuel with
  | O => results
  | S fuel => if i <=? high then addSteps fuel (i + step) high step (addZ results i) else results
  end.

Definition addRange (low high step : Z) (results : list Z) : list Z :=
  addSteps (Z.to_nat (high - low + 1)) low high step results.

Definition parseStepValue (raw : string) (max : Z) : R Z :=
  match allDigits raw with
  | None => Err InvalidStep
  | Some step =>
      if step <=? 0 then Err InvalidStep
      else if step >? max then Err StepTooLarge else Ok step
  end.

(** One segment of a field. *)
Definition parseSegment (min max : Z) (results : list Z) (segment : string) : R (list Z) :=
  let trimmed := trim segment in
  if isEmpty trimmed then Err EmptySegment
  else if String.eqb trimmed "*" then Ok (addRange min max 1 results)
  else if startsWith trimmed "*/" then
    step ← parseStepValue (sdrop 2 trimmed) max;
    Ok (addRange min max step results)
  else match rangeMatch trimmed with
  | Some (low, high, step) =>
      if (low <? min) || (high >? max) then Err RangeOutOfBounds
      else if low >? high then Err RangeLowAboveHigh
      else
        step ← match step with Some raw => parseStepValue raw max | None => Ok 1 end;
        Ok (addRange low high step results)
  | None =>
      match allDigits trimmed with
      | None => Err InvalidFieldValue
      | Some value =>
          if (value <? min) || (value >? max) then Err ValueOutOfBounds
          else Ok (addZ results value)
      end
  end.

Definition sortZ (l : list Z) : list Z := sort_by Z.compare l.

Definition parseField (token : string) (min max : Z) : R (list Z) :=
  results ← foldM (parseSegment min max) [] (split ","%char token);
  Ok (sortZ results).

(** [s.replace(/\s+/g, " ")]. *)
Fixpoint collapseSpaces (inSpace : bool) (s : string) : string :=
  match s with
  | EmptyString => EmptyString
  | String c rest =>
      if is_space c
      then if inSpace then collapseSpaces true rest else String " " (collapseSpaces true rest)
      else String c (collapseSpaces false rest)
  end.

(** Sunday is 0 and 7. *)
Definition normalizeDow (rawDow : list Z) : list Z :=
  sortZ (if hasZ rawDow 7 then addZ (List.filter (fun d => negb (d =? 7)) rawDow) 0 else rawDow).

Definition parseCron (expression : string) : R CronSchedule :=
  let trimmed := collapseSpaces false (trim expression) in
  match split " "%char trimmed with
  | [f0; f1; f2; f3; f4] =>
      minute ← parseField f0 0 59;
      hour ← parseField f1 0 23;
      dayOfMonth ← parseField f2 1 31;
      month ← parseField f3 1 12;
      rawDow ← parseField f4 0 7;
      Ok {| minute := minute; hour := hour; dayOfMonth := dayOfMonth; month := month;
            dayOfWeek := normalizeDow rawDow |}
  | _ => Err WrongFieldCount
  end.

(** ** Dates *)

(** Year, month (1 to 12) and day of the month of a day number, counted from
    1 January 1970. *)
Definition civil (day : Z) : Z * Z * Z :=
  let z := day + 719468 in
  let era := z / 146097 in
  let doe := z mod 146097 in
  let yoe := (doe - doe / 1460 + doe / 36524 - doe / 146096) / 365 in
  let doy := doe - (365 * yoe + yoe / 4 - yoe / 100) in
  let mp := (5 * doy + 2) / 153 in
  let d := doy - (153 * mp + 2) / 5 + 1 in
  let m := if mp <? 10 then mp + 3 else mp - 9 in
  (yoe + era * 400 + (if m <=? 2 then 1 else 0), m, d).

(** The time zone of the host: the local time of a time value, and the time
    value of a local time. *)
Record TimeZone := { localTime : Z -> Z; utcTime : Z -> Z }.

(** A local time that is a constant number of milliseconds ahead of UTC. *)
Definition fixedZone (offset : Z) : TimeZone := {| localTime t := t + offset; utcTime l := l - offset |}.

Coercion fixedZone : Z >-> TimeZone.

Section Cron.
Context (tz : TimeZone).

Definition localDay (t : Z) : Z := localTime tz t / MS_PER_DAY.
Definition timeOfDay (t : Z) : Z := localTime tz t mod MS_PER_DAY.

Definition getMinutes (t : Z) : Z := timeOfDay t / MS_PER_MINUTE mod 60.
Definition getHours (t : Z) : Z := timeOfDay t / 3600000.
(** [date.getMonth() + 1]. *)
Definition getMonth1 (t : Z) : Z := (civil (localDay t)).1.2.
Definition getDate (t : Z) : Z := (civil (localDay t)).2.
Definition getDay (t : Z) : Z := (localDay t + 4) mod 7.

(** [date.setHours(h, m, 0, 0)] and [date.setSeconds(0, 0)]. *)
Definition setHours (h m t : Z) : Z := utcTime tz (localDay t * MS_PER_DAY + h * 3600000 + m * MS_PER_MINUTE).
Definition setSeconds0 (t : Z) : Z := utcTime tz (localTime tz t - localTime tz t mod MS_PER_MINUTE).

(** ** Matching *)

Definition isWildcard (field : list Z) (min max : Z) : bool :=
  Z.of_nat (length field) =? max - min + 1.

(** The choice between the two day fields, in [cronMatches] and in
    [nextCronMatch]. *)
Definition dayMatches (schedule : CronSchedule) (t : Z) : bool :=
  let domWild := isWildcard (dayOfMonth schedule) 1 31 in
  let dowWild := isWildcard (dayOfWeek schedule) 0 6 in
  if domWild && dowWild then true
  else if domWild then hasZ (dayOfWeek schedule) (getDay t)
  else if dowWild then hasZ (dayOfMonth schedule) (getDate t)
  else hasZ (dayOfMonth schedule) (getDate t) || hasZ (dayOfWeek schedule) (getDay t).

Definition cronMatches (schedule : CronSchedule) (t : Z) : bool :=
  if negb (hasZ (minute schedule) (getMinutes t)) then false
  else if negb (hasZ (hour schedule) (getHours t)) then false
  else if negb (hasZ (month schedule) (getMonth1 t)) then false
  else dayMatches schedule t.

(** ** The next match *)

(** The loops over the hours and minutes of a day; [candidate] is in the day. *)
Fixpoint searchMinutes (schedule : CronSchedule) (start h : Z) (minutes : list Z) (candidate : Z)
    : Z * option Z :=
  match minutes with
  | [] => (candidate, None)
  | m :: rest =>
      let candidate := setHours h m candidate in
      if candidate <? start then searchMinutes schedule start h rest candidate
      else if negb (hasZ (month schedule) (getMonth1 candidate))
      then searchMinutes schedule start h rest candidate
      else if cronMatches schedule candidate then (candidate, Some candidate)
      else searchMinutes schedule start h rest candidate
  end.

Fixpoint searchHours (schedule : CronSchedule) (start : Z) (hours : list Z) (candidate : Z)
    : option Z :=
  match hours with
  | [] => None
  | h :: rest =>
      let '(candidate, found) := searchMinutes schedule start h (minute schedule) candidate in
      match found with
      | Some t => Some t
      | None => searchHours schedule start rest candidate
      end
  end.

(** The loop over the days, from [dayOffset] on. *)
Fixpoint searchDays (schedule : CronSchedule) (start : Z) (days : nat) (dayOffset : Z) : option Z :=
  match days with
  | O => None
  | S days =>
      let candidate := setHours 0 0 (start + dayOffset * MS_PER_DAY) in
      let found :=
        if negb (hasZ (month schedule) (getMonth1 candidate)) then None
        else if negb (dayMatches schedule candidate) then None
        else searchHours schedule start (hour schedule) candidate in
      match found with
      | Some t => Some t
      | None => searchDays schedule start days (dayOffset + 1)
      end
  end.

Definition startAfter (after : Z) : Z := setSeconds0 after + MS_PER_MINUTE.

Definition nextCronMatch (schedule : CronSchedule) (after : Z) : R Z :=
  match searchDays schedule (startAfter after) MAX_LOOKAHEAD_DAYS 0 with
  | Some t => Ok t
  | None => Err NoMatchInLookahead
  end.
End Cron.

Example cron_example :
  parseCron " */20  8-10/2 1,15 * 1-5 " =
    Ok {| minute := [0; 20; 40]; hour := [8; 10]; dayOfMonth := [1; 15];
          month := [1; 2; 3; 4; 5; 6; 7; 8; 9; 10; 11; 12]; dayOfWeek := [1; 2; 3; 4; 5] |} /\
  civil 0 = (1970, 1, 1) /\ civil 19782 = (2024, 2, 29) /\ civil (-1) = (1969, 12, 31).
Proof. by vm_compute. Qed.
