(* ===== verification/CronSpec.v ===== *)
(** * The calendar of the cron model

    [civil] turns a day number into a date. The proof that it is the Gregorian
    calendar: day 0 is 1 January 1970, and each day is followed by the next
    date, by splitting the cycle of 400 years into years from March to
    February. *)
From S2P Require Import Prelude Cron.
#[local] Open Scope Z_scope.

Definition leap (y : Z) : bool := (y mod 4 =? 0) && (negb (y mod 100 =? 0) || (y mod 400 =? 0)).

Definition daysIn (y m : Z) : Z :=
  if m =? 2 then if leap y then 29 else 28
  else if (m =? 4) || (m =? 6) || (m =? 9) || (m =? 11) then 30 else 31.

Definition nextDate (c : Z * Z * Z) : Z * Z * Z :=
  let '(y, m, d) := c in
  if d <? daysIn y m then (y, m, d + 1) else if m <? 12 then (y, m + 1, 1) else (y + 1, 1, 1).

Definition shiftYears (k : Z) (c : Z * Z * Z) : Z * Z * Z := (c.1.1 + k, c.1.2, c.2).

Lemma civil_era doe era : 0 <= doe < 146097 ->
  civil (doe + era * 146097 - 719468) = shiftYears (400 * era) (civil (doe - 719468)).
Proof.
  intros Hd. unfold civil, shiftYears.
  replace (doe + era * 146097 - 719468 + 719468) with (doe + era * 146097) by lia.
  replace (doe - 719468 + 719468) with doe by lia.
  rewrite Z.mod_add, Z.div_add by lia. rewrite (Z.mod_small doe 146097), (Z.div_small doe 146097) by lia.
  cbn [fst snd]. match goal with |- (?a, _, _) = (?b, _, _) => assert (a = b) as -> by lia end. done.
Qed.

Lemma nextDate_shift k c : nextDate (shiftYears (400 * k) c) = shiftYears (400 * k) (nextDate c).
Proof.
  destruct c as [[y m] d]. unfold nextDate, shiftYears. cbn [fst snd].
  assert (daysIn (y + 400 * k) m = daysIn y m) as ->.
  { assert (forall n, n = 4 \/ n = 100 \/ n = 400 -> (y + 400 * k) mod n = y mod n) as Hm.
    { intros n [->|[->| ->]]; Z.to_euclidean_division_equations; lia. }
    unfold daysIn, leap. by rewrite !Hm by auto. }
  destruct (d <? daysIn y m); [done|]. destruct (m <? 12); cbn [fst snd]; [done|]. f_equal. f_equal. lia.
Qed.

(** The year of the cycle (from March), the day of that year, and the month and
    day of the month of a day of the year. *)
Definition cycleYear (doe : Z) : Z := (doe - doe / 1460 + doe / 36524 - doe / 146096) / 365.
Definition yearStart (y : Z) : Z := 365 * y + y / 4 - y / 100 + y / 400.
Definition monthDay (doy : Z) : Z * Z :=
  let mp := (5 * doy + 2) / 153 in
  (if mp <? 10 then mp + 3 else mp - 9, doy - (153 * mp + 2) / 5 + 1).

Lemma civil_parts doe : 0 <= doe < 146097 ->
  civil (doe - 719468) =
    let y := cycleYear doe in
    let '(m, d) := monthDay (doe - (365 * y + y / 4 - y / 100)) in (y + (if m <=? 2 then 1 else 0), m, d).
Proof.
  intros Hd. unfold civil. replace (doe - 719468 + 719468) with doe by lia.
  rewrite (Z.mod_small doe 146097), (Z.div_small doe 146097) by lia. fold (cycleYear doe). cbn zeta.
  unfold monthDay. by rewrite Z.mul_0_l, Z.add_0_r.
Qed.

Definition yearCheck (y : Z) : bool :=
  (cycleYear (yearStart y) =? y) && (cycleYear (yearStart (y + 1) - 1) =? y).

Fixpoint allBelow (n : nat) (p : Z -> bool) : bool :=
  match n with O => true | S n => p (Z.of_nat n) && allBelow n p end.

Lemma allBelow_spec n p z : allBelow n p = true -> 0 <= z < Z.of_nat n -> p z = true.
Proof.
  induction n as [|n IH]; [lia|]. cbn [allBelow]. intros [Hp Hn]%andb_true_iff Hz.
  destruct (Z.eq_dec z (Z.of_nat n)) as [->|]; [done|]. apply IH; [done|lia].
Qed.

Lemma years_checked y : 0 <= y < 400 -> yearCheck y = true.
Proof. apply (allBelow_spec 400). vm_compute. reflexivity. Qed.

Lemma cycleYear_mono a b : 0 <= a -> a <= b -> b < 146097 -> cycleYear a <= cycleYear b.
Proof.
  intros Ha Hab Hb. unfold cycleYear. apply Z.div_le_mono; [lia|].
  assert (forall k, 0 <= a + k -> a + k < 146096 ->
    (a + k) - (a + k) / 1460 + (a + k) / 36524 - (a + k) / 146096 <=
    (a + k + 1) - (a + k + 1) / 1460 + (a + k + 1) / 36524 - (a + k + 1) / 146096) as Hstep.
  { intros k Hk1 Hk2. Z.to_euclidean_division_equations. lia. }
  replace b with (a + Z.of_nat (Z.to_nat (b - a))) in Hb |- * by lia.
  induction (Z.to_nat (b - a)) as [|n IH]; [rewrite Z.add_0_r; lia|].
  etransitivity; [apply IH; lia|]. replace (a + Z.of_nat (S n)) with (a + Z.of_nat n + 1) by lia. apply Hstep; lia.
Qed.

(** The days of the cycle year [y] are those from its start to the next start. *)
Lemma cycleYear_spec y doe : 0 <= y < 400 -> yearStart y <= doe < yearStart (y + 1) -> cycleYear doe = y.
Proof.
  intros Hy Hdoe. pose proof (years_checked y Hy) as [H1%Z.eqb_eq H2%Z.eqb_eq]%andb_true_iff.
  assert (0 <= yearStart y) by (unfold yearStart; Z.to_euclidean_division_equations; lia).
  assert (yearStart (y + 1) <= 146097) by (unfold yearStart; Z.to_euclidean_division_equations; lia).
  pose proof (cycleYear_mono (yearStart y) doe). pose proof (cycleYear_mono doe (yearStart (y + 1) - 1)). lia.
Qed.

Lemma cycleYear_exists doe : 0 <= doe < 146097 ->
  exists y, 0 <= y < 400 /\ yearStart y <= doe < yearStart (y + 1).
Proof.
  intros Hd. cut (forall n, (n <= 400)%nat -> doe < yearStart (Z.of_nat n) ->
    exists y, 0 <= y < 400 /\ yearStart y <= doe < yearStart (y + 1)).
  { intros Hc. apply (Hc 400%nat); [lia|]. change (yearStart (Z.of_nat 400)) with 146097. lia. }
  induction n as [|n IH]; intros Hn Hlt; [change (yearStart (Z.of_nat 0)) with 0 in Hlt; lia|].
  destruct (Z.lt_ge_cases doe (yearStart (Z.of_nat n))); [apply IH; [lia|done]|].
  exists (Z.of_nat n). replace (Z.of_nat n + 1) with (Z.of_nat (S n)) by lia. lia.
Qed.

(** A day of a year (from March) and the next, or the turn of the year. *)
Definition dayCheck (leapNext : bool) (doy : Z) : bool :=
  let '(m, d) := monthDay doy in
  let len := if m =? 2 then if leapNext then 29 else 28
             else if (m =? 4) || (m =? 6) || (m =? 9) || (m =? 11) then 30 else 31 in
  let next := if d <? len then (m, d + 1) else if m <? 12 then (m + 1, 1) else (1, 1) in
  let last := if leapNext then 365 else 364 in
  (1 <=? m) && (m <=? 12) && (1 <=? d) && (d <=? 31) &&
  bool_decide (next = (if doy =? last then (3, 1) else monthDay (doy + 1))) &&
  Bool.eqb (if (d <? len) || (m <? 12) then m <=? 2 else true)
    (if doy =? last then true else (monthDay (doy + 1)).1 <=? 2).

Lemma days_checked (b : bool) doy : 0 <= doy <= (if b then 365 else 364) -> dayCheck b doy = true.
Proof.
  destruct b; intros Hd.
  - apply (allBelow_spec 366 (dayCheck true)); [vm_compute; reflexivity|lia].
  - apply (allBelow_spec 365 (dayCheck false)); [vm_compute; reflexivity|lia].
Qed.

Lemma yearStart_len y : 0 <= y < 400 ->
  yearStart (y + 1) - yearStart y = if leap (y + 1) then 366 else 365.
Proof.
  intros Hy. unfold yearStart, leap.
  destruct (Z.eqb_spec ((y + 1) mod 4) 0), (Z.eqb_spec ((y + 1) mod 100) 0), (Z.eqb_spec ((y + 1) mod 400) 0);
    cbn; Z.to_euclidean_division_equations; lia.
Qed.

Lemma civil_doy y doy : 0 <= y < 400 -> 0 <= doy < (if leap (y + 1) then 366 else 365) ->
  civil (yearStart y + doy - 719468) =
    (y + (if (monthDay doy).1 <=? 2 then 1 else 0), (monthDay doy).1, (monthDay doy).2).
Proof.
  intros Hy Hd. pose proof (yearStart_len y Hy) as Hl.
  assert (0 <= yearStart y) by (unfold yearStart; Z.to_euclidean_division_equations; lia).
  assert (yearStart (y + 1) <= 146097) by (unfold yearStart; Z.to_euclidean_division_equations; lia).
  rewrite civil_parts by lia. rewrite (cycleYear_spec y) by lia. cbn zeta.
  replace (yearStart y + doy - (365 * y + y / 4 - y / 100)) with doy.
  2:{ unfold yearStart. rewrite (Z.div_small y 400) by lia. lia. }
  by destruct (monthDay doy).
Qed.

Lemma civil_next_doy y doy : 0 <= y < 400 -> 0 <= doy < (if leap (y + 1) then 366 else 365) ->
  civil (yearStart y + doy - 719468 + 1) = nextDate (civil (yearStart y + doy - 719468)) /\
  1 <= (civil (yearStart y + doy - 719468)).1.2 <= 12 /\ 1 <= (civil (yearStart y + doy - 719468)).2 <= 31.
Proof.
  intros Hy Hd. pose proof (yearStart_len y Hy) as Hl.
  assert (dayCheck (leap (y + 1)) doy = true) as Hc by (apply days_checked; destruct (leap (y + 1)); lia).
  rewrite (civil_doy y doy Hy Hd).
  assert (civil (yearStart y + doy - 719468 + 1) =
    if doy =? (if leap (y + 1) then 365 else 364) then (y + 1, 3, 1)
    else (y + (if (monthDay (doy + 1)).1 <=? 2 then 1 else 0), (monthDay (doy + 1)).1, (monthDay (doy + 1)).2)) as ->.
  { destruct (Z.eqb_spec doy (if leap (y + 1) then 365 else 364)) as [He|Hne].
    - replace (yearStart y + doy - 719468 + 1) with (yearStart (y + 1) + 0 - 719468) by (destruct (leap (y + 1)); lia).
      destruct (Z.eq_dec y 399) as [->|]; [reflexivity|].
      rewrite civil_doy; [change (monthDay 0) with (3, 1); cbn; by rewrite Z.add_0_r|lia|destruct (leap (y + 1 + 1)); lia].
    - replace (yearStart y + doy - 719468 + 1) with (yearStart y + (doy + 1) - 719468) by lia.
      apply civil_doy; [done|]. destruct (leap (y + 1)); lia. }
  revert Hc. unfold dayCheck. generalize (monthDay (doy + 1)). destruct (monthDay doy) as [m d]. intros [m' d'].
  cbn [fst snd].
  rewrite !andb_true_iff, bool_decide_eq_true, Bool.eqb_true_iff. intros [[[[[? ?] ?] ?] Hnext] Hinc].
  split; [|lia]. unfold nextDate, daysIn.
  replace (if m =? 2 then if leap (y + (if m <=? 2 then 1 else 0)) then 29 else 28 else _)
    with (if m =? 2 then if leap (y + 1) then 29 else 28
          else if (m =? 4) || (m =? 6) || (m =? 9) || (m =? 11) then 30 else 31).
  2:{ destruct (Z.eqb_spec m 2) as [->|]; done. }
  destruct (doy =? _), (d <? _), (m <? 12) eqn:E12; cbn [orb] in *;
    simplify_eq; rewrite <-?Hinc; try lia; try reflexivity.
  all: try (rewrite Hinc; f_equal; f_equal; lia).
  destruct (Z.leb_spec m 2); [lia|]. f_equal. f_equal. lia.
Qed.

(** The calendar of the model is the Gregorian one: it starts right and each
    day is followed by the next. *)
Lemma civil_next day :
  civil 0 = (1970, 1, 1) /\ civil (day + 1) = nextDate (civil day) /\
  1 <= (civil day).1.2 <= 12 /\ 1 <= (civil day).2 <= 31.
Proof.
  split; [reflexivity|]. set (doe := (day + 719468) mod 146097). set (era := (day + 719468) / 146097).
  assert (0 <= doe < 146097) as Hdoe by (apply Z.mod_pos_bound; lia).
  assert (day = doe + era * 146097 - 719468) as Hday.
  { unfold doe, era. pose proof (Z.div_mod (day + 719468) 146097). lia. }
  destruct (cycleYear_exists doe Hdoe) as (y & Hy & Hys). pose proof (yearStart_len y Hy) as Hl.
  destruct (civil_next_doy y (doe - yearStart y) Hy) as (Hn & Hm & Hd); [lia|].
  replace (yearStart y + (doe - yearStart y)) with doe in * by lia.
  assert (civil day = shiftYears (400 * era) (civil (doe - 719468))) as Hc by (rewrite Hday; by apply civil_era).
  rewrite Hc. split; [|done]. rewrite nextDate_shift, <-Hn.
  destruct (Z.eq_dec doe 146096) as [He|Hne].
  - replace (day + 1) with (0 + (era + 1) * 146097 - 719468) by lia. rewrite civil_era by lia.
    rewrite He. replace (146096 - 719468 + 1) with (0 + 1 * 146097 - 719468) by lia. rewrite civil_era by lia.
    unfold shiftYears. cbn [fst snd]. f_equal. f_equal. lia.
  - replace (day + 1) with ((doe + 1) + era * 146097 - 719468) by lia. rewrite civil_era by lia.
    do 2 f_equal. lia.
Qed.

(** * Cron schedules: the next match is the next match

    A parsed schedule is well-formed; the search of [nextCronMatch] over days,
    hours and minutes finds the first whole minute after the given time that
    matches, and fails only if none does in the days it looks at; every
    well-formed schedule is the reading of some expression. *)
From Stdlib Require Import Ascii.
From S2P Require Import Prelude JsString Cron.
#[local] Open Scope Z_scope.

Lemma hasZ_true l z : hasZ l z = true <-> z ∈ l.
Proof.
  unfold hasZ. rewrite existsb_exists, list_elem_of_In. split.
  - intros (x & Hx & ->%Z.eqb_eq). done.
  - intros Hz. exists z. split; [done|apply Z.eqb_refl].
Qed.

Lemma hasZ_false l z : hasZ l z = false <-> z ∉ l.
Proof. by rewrite <-hasZ_true, not_true_iff_false. Qed.

(** ** Parsed schedules *)

(** A field as the parser leaves it. *)
Definition field_ok (min max : Z) (l : list Z) : Prop :=
  l <> [] /\ NoDup l /\ StronglySorted Z.le l /\ Forall (fun v => min <= v <= max) l.

Record schedule_ok (s : CronSchedule) : Prop := {
  ok_minute : field_ok 0 59 (minute s);
  ok_hour : field_ok 0 23 (hour s);
  ok_dom : field_ok 1 31 (dayOfMonth s);
  ok_month : field_ok 1 12 (month s);
  ok_dow : field_ok 0 6 (dayOfWeek s);
}.

(** The values collected by the segments so far. *)
Definition values_ok (min max : Z) (l : list Z) : Prop :=
  NoDup l /\ Forall (fun v => min <= v <= max) l.

Lemma addZ_elem l z x : x ∈ addZ l z <-> x ∈ l \/ x = z.
Proof.
  unfold addZ. destruct (hasZ l z) eqn:E; [apply hasZ_true in E; set_solver|].
  rewrite elem_of_app, list_elem_of_singleton. done.
Qed.

Lemma addZ_ok min max l z : min <= z <= max -> values_ok min max l -> values_ok min max (addZ l z).
Proof.
  intros Hz [HN HF]. unfold addZ. destruct (hasZ l z) eqn:E; [done|]. apply hasZ_false in E. split.
  - apply NoDup_app. split_and!; [done|by intros x Hx ->%list_elem_of_singleton|apply NoDup_singleton].
  - apply Forall_app. split; [done|by apply Forall_singleton].
Qed.

Lemma addSteps_ok min max fuel i high step l :
  min <= i -> high <= max -> 0 < step -> values_ok min max l ->
  values_ok min max (addSteps fuel i high step l) /\ (forall x, x ∈ l -> x ∈ addSteps fuel i high step l).
Proof.
  intros Hi Hh Hs. revert i l Hi. induction fuel as [|fuel IH]; intros i l Hi Hl; cbn [addSteps]; [done|].
  destruct (Z.leb_spec i high); [|done]. destruct (IH (i + step) (addZ l i)) as [H1 H2]; [lia|by apply addZ_ok; [lia|]|].
  split; [done|]. intros x Hx. apply H2, addZ_elem. by left.
Qed.

Lemma addRange_ok min max low high step l :
  min <= low -> low <= high <= max -> 0 < step -> values_ok min max l ->
  values_ok min max (addRange low high step l) /\ low ∈ addRange low high step l /\
  (forall x, x ∈ l -> x ∈ addRange low high step l).
Proof.
  intros Hl Hh Hs Hv. unfold addRange. replace (Z.to_nat (high - low + 1)) with (S (Z.to_nat (high - low))) by lia.
  cbn [addSteps]. destruct (Z.leb_spec low high); [|lia].
  destruct (addSteps_ok min max (Z.to_nat (high - low)) (low + step) high step (addZ l low)) as [H1 H2];
    [lia|lia|done|by apply addZ_ok; [lia|]|].
  split_and!; [done|apply H2, addZ_elem; by right|]. intros x Hx. apply H2, addZ_elem. by left.
Qed.

Lemma parseStepValue_pos raw max step : parseStepValue raw max = Ok step -> 0 < step.
Proof.
  unfold parseStepValue. destruct (allDigits raw) as [v|]; [|done].
  destruct (Z.leb_spec v 0); [done|]. destruct (v >? max); [done|]. by intros [= <-].
Qed.

Lemma parseSegment_ok min max l seg l' :
  min <= max -> values_ok min max l -> parseSegment min max l seg = Ok l' ->
  values_ok min max l' /\ l' <> [] /\ (forall x, x ∈ l -> x ∈ l').
Proof.
  intros Hmm Hl. unfold parseSegment.
  assert (forall low high step, min <= low -> low <= high <= max -> 0 < step ->
    values_ok min max (addRange low high step l) /\ addRange low high step l <> [] /\
    (forall x, x ∈ l -> x ∈ addRange low high step l)) as Hrange.
  { intros low high step H1 H2 H3. destruct (addRange_ok min max low high step l H1 H2 H3 Hl) as (? & Hin & ?).
    split_and!; [done|by intros E; rewrite E in Hin; apply not_elem_of_nil in Hin|done]. }
  destruct (isEmpty (trim seg)); [done|]. destruct (String.eqb _ _).
  { intros [= <-]. apply Hrange; lia. }
  destruct (startsWith _ _).
  { intros HF. apply bind_Ok in HF as (step & Hstep%parseStepValue_pos & [= <-]). apply Hrange; lia. }
  destruct (rangeMatch _) as [[[low high] step]|].
  - destruct (Z.ltb_spec low min); [done|]. destruct (Z.gtb_spec high max); [done|]. cbn [orb].
    destruct (Z.gtb_spec low high); [done|]. intros HF. apply bind_Ok in HF as (st & Hst & [= <-]).
    apply Hrange; [lia|lia|]. destruct step; [by eapply parseStepValue_pos|]. by injection Hst as <-.
  - destruct (allDigits _) as [v|]; [|done]. destruct (Z.ltb_spec v min); [done|].
    destruct (Z.gtb_spec v max); [done|]. cbn [orb]. intros [= <-].
    split_and!; [apply addZ_ok; [lia|done]| |intros x Hx; apply addZ_elem; by left].
    intros E. assert (v ∈ addZ l v) as Hv by (apply addZ_elem; by right). rewrite E in Hv.
    by apply not_elem_of_nil in Hv.
Qed.

Lemma sortZ_sorted l : StronglySorted Z.le (sortZ l).
Proof.
  apply sort_by_sorted; [intros x y z; lia| |].
  - intros x y Hxy. apply Z.compare_ngt_iff in Hxy. lia.
  - intros x y Hxy%Z.compare_gt_iff. lia.
Qed.

Lemma sortZ_field min max l : l <> [] -> values_ok min max l -> field_ok min max (sortZ l).
Proof.
  intros Hne [HN HF]. split_and!.
  - intros E. assert (sortZ l ≡ₚ l) as Hp by apply sort_by_perm. rewrite E in Hp.
    by apply Permutation_nil_l in Hp.
  - by apply sort_by_NoDup.
  - apply sortZ_sorted.
  - unfold sortZ. by rewrite sort_by_perm.
Qed.

Lemma parseField_ok token min max l : min <= max -> parseField token min max = Ok l -> field_ok min max l.
Proof.
  intros Hmm HF. apply bind_Ok in HF as (res & HF & [= <-]).
  assert (values_ok min max res /\ res <> []) as [Hv Hne]; [|by apply sortZ_field].
  revert HF. assert (split ","%char token <> []) as Hs.
  { destruct token as [|c t]; cbn; [done|]. destruct (Ascii.eqb c _); [done|]. by destruct (split _ t). }
  destruct (split ","%char token) as [|seg segs]; [done|]. cbn [foldM]. intros HF.
  apply bind_Ok in HF as (l1 & H1 & HF).
  apply parseSegment_ok in H1 as (Hv1 & Hne1 & _); [|done|split; [apply NoDup_nil_2|constructor]].
  clear Hs seg. revert l1 Hv1 Hne1 HF. induction segs as [|seg segs IH]; intros l1 Hv1 Hne1 HF; cbn in HF.
  - by injection HF as <-.
  - apply bind_Ok in HF as (l2 & H2 & HF). apply parseSegment_ok in H2 as (Hv2 & Hne2 & _); [|done|done].
    by eapply IH.
Qed.

Lemma normalizeDow_ok l : field_ok 0 7 l -> field_ok 0 6 (normalizeDow l).
Proof.
  intros (Hne & HN & _ & HF). unfold normalizeDow. destruct (hasZ l 7) eqn:E7.
  - assert (values_ok 0 6 (List.filter (fun d => negb (d =? 7)) l)) as Hv.
    { split; [rewrite NoDup_ListNoDup; apply List.NoDup_filter; by rewrite <-NoDup_ListNoDup|].
      apply Forall_forall. intros x Hx. rewrite list_elem_of_In, filter_In, <-list_elem_of_In in Hx.
      destruct Hx as [Hx Hn]. apply (proj1 (Forall_forall _ _) HF) in Hx. lia. }
    apply sortZ_field; [|apply addZ_ok; [lia|done]]. intros Ea.
    assert (0 ∈ addZ (List.filter (fun d => negb (d =? 7)) l) 0) as H0 by (apply addZ_elem; by right).
    rewrite Ea in H0. by apply not_elem_of_nil in H0.
  - apply hasZ_false in E7. apply sortZ_field; [done|]. split; [done|]. apply Forall_forall. intros x Hx.
    assert (x <> 7) by congruence. apply (proj1 (Forall_forall _ _) HF) in Hx. lia.
Qed.

Lemma parseCron_ok expression s : parseCron expression = Ok s -> schedule_ok s.
Proof.
  unfold parseCron. destruct (split _ _) as [|f0 [|f1 [|f2 [|f3 [|f4 [|]]]]]]; try done.
  intros HF. apply bind_Ok in HF as (mi & H0 & HF). apply bind_Ok in HF as (ho & H1 & HF).
  apply bind_Ok in HF as (dom & H2 & HF). apply bind_Ok in HF as (mo & H3 & HF).
  apply bind_Ok in HF as (dow & H4 & [= <-]).
  constructor; cbn; [by eapply parseField_ok..|]. by eapply normalizeDow_ok, parseField_ok.
Qed.

(** ** Local times *)

Ltac divmod := cbn [localTime utcTime fixedZone] in *; unfold MS_PER_DAY, MS_PER_MINUTE in *; Z.to_euclidean_division_equations; lia.

Definition dayOK (z : TimeZone) (s : CronSchedule) (t : Z) : bool := hasZ (month s) (getMonth1 z t) && dayMatches z s t.

Lemma cronMatches_eq (z : TimeZone) s t :
  cronMatches z s t = hasZ (minute s) (getMinutes z t) && hasZ (hour s) (getHours z t) && dayOK z s t.
Proof.
  unfold cronMatches, dayOK. destruct (hasZ (minute s) _); [|done]. destruct (hasZ (hour s) _); [|done].
  by destruct (hasZ (month s) _).
Qed.

Section Search.
Context (tz : Z) (s : CronSchedule) (Hs : schedule_ok s).

Definition moment (d h m : Z) : Z := d * MS_PER_DAY + h * 3600000 + m * MS_PER_MINUTE - tz.

(** A time on a whole minute of the local clock. *)
Definition whole_minute (t : Z) : Prop := (t + tz) mod MS_PER_MINUTE = 0.

Lemma moment_parts d h m : 0 <= h <= 23 -> 0 <= m <= 59 ->
  localDay tz (moment d h m) = d /\ getHours tz (moment d h m) = h /\
  getMinutes tz (moment d h m) = m /\ whole_minute (moment d h m).
Proof.
  intros Hh Hm. unfold getHours, getMinutes, whole_minute, timeOfDay, localDay, moment. split_and!; divmod.
Qed.

Lemma whole_moment t : whole_minute t ->
  t = moment (localDay tz t) (getHours tz t) (getMinutes tz t) /\
  0 <= getHours tz t <= 23 /\ 0 <= getMinutes tz t <= 59.
Proof.
  unfold getHours, getMinutes, whole_minute, timeOfDay, localDay, moment. intros Ht. split_and!; divmod.
Qed.

Lemma moment_le d h m h' m' :
  0 <= m <= 59 -> 0 <= m' <= 59 -> h < h' \/ (h = h' /\ m <= m') -> moment d h m <= moment d h' m'.
Proof. unfold moment, MS_PER_MINUTE. lia. Qed.

Lemma setHours_moment h m t : setHours tz h m t = moment (localDay tz t) h m.
Proof. done. Qed.

Lemma startAfter_spec after :
  after < startAfter tz after /\ whole_minute (startAfter tz after) /\
  forall t, whole_minute t -> after < t -> startAfter tz after <= t.
Proof. unfold startAfter, setSeconds0, whole_minute. split_and!; intros; divmod. Qed.

(** ** What the search of a day finds *)

Lemma dayOK_day t t' : localDay tz t = localDay tz t' -> dayOK tz s t = dayOK tz s t'.
Proof. intros H. unfold dayOK, dayMatches, getMonth1, getDate, getDay. by rewrite H. Qed.

Lemma minute_range m : m ∈ minute s -> 0 <= m <= 59.
Proof. intros Hm. destruct Hs as [(_ & _ & _ & HF) _ _ _ _]. by eapply Forall_forall in HF. Qed.

Lemma hour_range h : h ∈ hour s -> 0 <= h <= 23.
Proof. intros Hh. destruct Hs as [_ (_ & _ & _ & HF) _ _ _]. by eapply Forall_forall in HF. Qed.

(** The first of the given minutes of an hour, from [start] on. *)
Lemma searchMinutes_spec start h ms c :
  0 <= h <= 23 -> Forall (fun m => 0 <= m <= 59) ms -> StronglySorted Z.le ms ->
  exists c' found, searchMinutes tz s start h ms c = (c', found) /\ localDay tz c' = localDay tz c /\
  match found with
  | Some t => exists m, m ∈ ms /\ t = moment (localDay tz c) h m /\ start <= t /\ cronMatches tz s t = true /\
      forall m', m' ∈ ms -> start <= moment (localDay tz c) h m' ->
        cronMatches tz s (moment (localDay tz c) h m') = true -> m <= m'
  | None => forall m, m ∈ ms -> start <= moment (localDay tz c) h m ->
      cronMatches tz s (moment (localDay tz c) h m) = false
  end.
Proof.
  intros Hh HF HS. revert c HF. induction HS as [|m ms HS IH Hle]; intros c HF; cbn [searchMinutes].
  { exists c, None. split_and!; [done|done|]. by intros m []%not_elem_of_nil. }
  apply Forall_cons in HF as [Hm HF]. rewrite setHours_moment. set (D := localDay tz c) in *.
  destruct (moment_parts D h m Hh Hm) as (Hday & _).
  destruct (IH (moment D h m) HF) as (c' & found & Hrun & Hc' & Hfound). rewrite Hday in Hc', Hfound.
  assert (forall b, cronMatches tz s (moment D h m) = b -> (b = true -> start <= moment D h m -> False) ->
    match found with
    | Some t => exists m1, m1 ∈ m :: ms /\ t = moment D h m1 /\ start <= t /\ cronMatches tz s t = true /\
        forall m', m' ∈ m :: ms -> start <= moment D h m' -> cronMatches tz s (moment D h m') = true -> m1 <= m'
    | None => forall m1, m1 ∈ m :: ms -> start <= moment D h m1 -> cronMatches tz s (moment D h m1) = false
    end) as Hskip.
  { intros b Hb Hno. destruct found as [t|].
    - destruct Hfound as (m1 & Hin & -> & Hst & Hmt & Hmin). exists m1.
      split_and!; [by constructor|done..|]. intros m' [->|Hin']%elem_of_cons; [|by apply Hmin].
      intros Hst' Hmt'. exfalso. subst b. by apply Hno.
    - intros m1 [->|Hin]%elem_of_cons; [|by apply Hfound]. intros Hst'. subst b.
      destruct (cronMatches tz s (moment D h m)); [|done]. by destruct Hno. }
  destruct (Z.ltb_spec (moment D h m) start) as [Hlt|Hge].
  { exists c', found. split_and!; [done|done|]. eapply Hskip; [done|lia]. }
  destruct (hasZ (month s) (getMonth1 tz (moment D h m))) eqn:Emo; cbn [negb].
  2:{ exists c', found. split_and!; [done|done|]. eapply Hskip; [done|]. rewrite cronMatches_eq.
      unfold dayOK. rewrite Emo. cbn. by rewrite andb_false_r. }
  destruct (cronMatches tz s (moment D h m)) eqn:Ecm.
  - exists (moment D h m), (Some (moment D h m)). split_and!; [done|done|]. exists m.
    split_and!; [constructor|done..|]. intros m' [->|Hin]%elem_of_cons _ _; [lia|].
    by eapply Forall_forall in Hle.
  - exists c', found. split_and!; [done|done|]. eapply (Hskip false); [done|by intros [=]].
Qed.

(** The first matching time of a day, from [start] on, over the given hours. *)
Lemma searchHours_spec start hs c :
  Forall (fun h => 0 <= h <= 23) hs -> StronglySorted Z.lt hs ->
  match searchHours tz s start hs c with
  | Some t => exists h m, h ∈ hs /\ m ∈ minute s /\ t = moment (localDay tz c) h m /\ start <= t /\
      cronMatches tz s t = true /\
      forall h' m', h' ∈ hs -> m' ∈ minute s -> start <= moment (localDay tz c) h' m' ->
        cronMatches tz s (moment (localDay tz c) h' m') = true -> t <= moment (localDay tz c) h' m'
  | None => forall h m, h ∈ hs -> m ∈ minute s -> start <= moment (localDay tz c) h m ->
      cronMatches tz s (moment (localDay tz c) h m) = false
  end.
Proof.
  intros HF HS. revert c HF. induction HS as [|h hs HS IH Hlt]; intros c HF; cbn [searchHours].
  { by intros h m []%not_elem_of_nil. }
  apply Forall_cons in HF as [Hh HF]. destruct Hs as [(_ & _ & HSm & HFm) _ _ _ _].
  destruct (searchMinutes_spec start h (minute s) c Hh HFm HSm) as (c' & found & -> & Hc' & Hfound).
  specialize (IH c' HF). rewrite Hc' in IH. destruct found as [t|].
  - destruct Hfound as (m & Hm & -> & Hst & Hmt & Hmin). exists h, m. split_and!; [constructor|done..|].
    intros h' m' [->|Hh']%elem_of_cons Hm' Hst' Hmt'; apply moment_le; try (by apply minute_range).
    + right. split; [done|]. by apply Hmin.
    + left. by eapply Forall_forall in Hlt.
  - destruct (searchHours tz s start hs c') as [t|].
    + destruct IH as (h1 & m1 & Hh1 & Hm1 & -> & Hst & Hmt & Hmin). exists h1, m1.
      split_and!; [by constructor|done..|]. intros h' m' [->|Hh']%elem_of_cons Hm' Hst' Hmt'; [|by apply Hmin].
      by rewrite Hfound in Hmt'.
    + intros h' m' [->|Hh']%elem_of_cons Hm' Hst'; [by apply Hfound|by apply IH].
Qed.

Lemma cronMatches_parts t : cronMatches tz s t = true -> getHours tz t ∈ hour s /\ getMinutes tz t ∈ minute s.
Proof. rewrite cronMatches_eq. intros [[?%hasZ_true ?%hasZ_true]%andb_true_iff _]%andb_true_iff. done. Qed.

Lemma sorted_strict l : NoDup l -> StronglySorted Z.le l -> StronglySorted Z.lt l.
Proof.
  intros HN HS. induction HS as [|x l HS IH HF]; [constructor|]. apply NoDup_cons in HN as [Hx HN].
  constructor; [by apply IH|]. apply Forall_forall. intros y Hy. assert (x <> y) by congruence.
  eapply Forall_forall in HF; [|done]. lia.
Qed.

Definition no_match (start : Z) (P : Z -> Prop) : Prop :=
  forall t, whole_minute t -> start <= t -> P t -> cronMatches tz s t = false.

Lemma searchDay_spec start c :
  match (if negb (hasZ (month s) (getMonth1 tz c)) then None
         else if negb (dayMatches tz s c) then None else searchHours tz s start (hour s) c) with
  | Some t => whole_minute t /\ start <= t /\ localDay tz t = localDay tz c /\ cronMatches tz s t = true /\
      no_match start (fun t' => localDay tz t' = localDay tz c /\ t' < t)
  | None => no_match start (fun t => localDay tz t = localDay tz c)
  end.
Proof.
  destruct (dayOK tz s c) eqn:Eday.
  2:{ assert (no_match start (fun t => localDay tz t = localDay tz c)) as Hno.
      { intros t _ _ Hd. by rewrite cronMatches_eq, (dayOK_day t c Hd), Eday, andb_false_r. }
      unfold dayOK in Eday. destruct (hasZ (month s) _); [|done]. cbn in *. by rewrite Eday. }
  apply andb_true_iff in Eday as [-> ->]. cbn [negb].
  destruct Hs as [_ (_ & HNh & HSh & HFh) _ _ _].
  pose proof (searchHours_spec start (hour s) c HFh (sorted_strict _ HNh HSh)) as Hsearch.
  assert (forall t', whole_minute t' -> localDay tz t' = localDay tz c -> cronMatches tz s t' = true ->
    t' = moment (localDay tz c) (getHours tz t') (getMinutes tz t')) as Hmom.
  { intros t' Hw Hd _. destruct (whole_moment t' Hw) as [He _]. by rewrite Hd in He. }
  destruct (searchHours tz s start (hour s) c) as [t|].
  - destruct Hsearch as (h & m & Hh & Hm & -> & Hst & Hmt & Hmin).
    destruct (moment_parts (localDay tz c) h m (hour_range h Hh) (minute_range m Hm)) as (Hd & _ & _ & Hw).
    split_and!; [done..|]. intros t' Hw' Hst' [Hd' Hlt]. destruct (cronMatches tz s t') eqn:Et'; [|done].
    destruct (cronMatches_parts t' Et') as [Hh' Hm']. pose proof (Hmom t' Hw' Hd' Et') as He.
    specialize (Hmin _ _ Hh' Hm'). rewrite <-He in Hmin. specialize (Hmin Hst' Et'). lia.
  - intros t' Hw' Hst' Hd'. destruct (cronMatches tz s t') eqn:Et'; [|done].
    destruct (cronMatches_parts t' Et') as [Hh' Hm']. pose proof (Hmom t' Hw' Hd' Et') as He.
    specialize (Hsearch _ _ Hh' Hm'). rewrite <-He in Hsearch. rewrite <-Et'. by apply Hsearch.
Qed.

Lemma localDay_offset start k : localDay tz (setHours tz 0 0 (start + k * MS_PER_DAY)) = localDay tz start + k.
Proof. unfold setHours, localDay. divmod. Qed.

(** The time that is found is on a day of the search. *)
Lemma searchDays_range start days off t : searchDays tz s start days off = Some t -> localDay tz t < localDay tz start + off + Z.of_nat days.
Proof.
  revert off. induction days as [|days IH]; intros off; cbn [searchDays]; [done|].
  set (c := setHours tz 0 0 (start + off * MS_PER_DAY)).
  pose proof (localDay_offset start off) as Hc. fold c in Hc.
  pose proof (searchDay_spec start c) as Hday. destruct (if negb _ then None else _) as [t'|].
  - intros [= <-]. destruct Hday as (_ & _ & Hd & _). lia.
  - intros Hf%IH. lia.
Qed.

Lemma searchDays_spec start days off :
  0 <= off -> no_match start (fun t => localDay tz t < localDay tz start + off) ->
  match searchDays tz s start days off with
  | Some t => whole_minute t /\ start <= t /\ cronMatches tz s t = true /\ no_match start (fun t' => t' < t)
  | None => no_match start (fun t => localDay tz t < localDay tz start + off + Z.of_nat days)
  end.
Proof.
  revert off. induction days as [|days IH]; intros off Hoff Hno; cbn [searchDays].
  { intros t Hw Hst Hd. apply Hno; [done|done|lia]. }
  set (c := setHours tz 0 0 (start + off * MS_PER_DAY)).
  pose proof (localDay_offset start off) as Hc. fold c in Hc.
  pose proof (searchDay_spec start c) as Hday. rewrite Hc in Hday. destruct (if negb _ then None else _) as [t|].
  - destruct Hday as (Hw & Hst & Hd & Hmt & Hmin). split_and!; [done..|]. intros t' Hw' Hst' Hlt.
    destruct (Z.lt_trichotomy (localDay tz t') (localDay tz start + off)) as [Hl|[He|Hg]].
    + by apply Hno.
    + by apply Hmin.
    + exfalso. clear -Hg Hd Hlt. unfold localDay in *. divmod.
  - specialize (IH (off + 1) ltac:(lia)).
    replace (localDay tz start + off + Z.of_nat (S days)) with (localDay tz start + (off + 1) + Z.of_nat days) by lia.
    apply IH. intros t Hw Hst Hd. destruct (Z.eq_dec (localDay tz t) (localDay tz start + off)).
    + by apply Hday.
    + apply Hno; [done|done|lia].
Qed.

(** The whole minutes after [after], from its day on to the end of the [n]th day
    of the search. *)
Definition among (n : nat) (after t : Z) : Prop :=
  whole_minute t /\ after < t /\ localDay tz t < localDay tz (startAfter tz after) + Z.of_nat n.

(** What the search over the first [n] days finds. *)
Lemma searchDays_first n after :
  match searchDays tz s (startAfter tz after) n 0 with
  | Some t => among n after t /\ cronMatches tz s t = true /\ forall t', among n after t' -> cronMatches tz s t' = true -> t <= t'
  | None => forall t', among n after t' -> cronMatches tz s t' = false
  end.
Proof.
  destruct (startAfter_spec after) as (Hlt & _ & Hleast).
  assert (no_match (startAfter tz after) (fun t => localDay tz t < localDay tz (startAfter tz after) + 0)) as H0.
  { intros t _ Hst Hd. exfalso. unfold localDay in Hd. divmod. }
  pose proof (searchDays_spec (startAfter tz after) n 0 ltac:(lia) H0) as Hsearch.
  pose proof (searchDays_range (startAfter tz after) n 0) as Hrange.
  destruct (searchDays _ _ _ _ _) as [t|].
  - destruct Hsearch as (Hw & Hst & Hmt & Hmin). specialize (Hrange t eq_refl). split_and!; [split_and!; [done|lia|lia]|done|].
    intros t' (Hw' & Ha & _) Hm. destruct (Z.le_gt_cases t t') as [|Hgt]; [done|].
    rewrite (Hmin t' Hw' ltac:(by apply Hleast) Hgt) in Hm. done.
  - intros t' (Hw' & Ha & Hd). apply Hsearch; [done|by apply Hleast|lia].
Qed.
End Search.

(** ** The standard reading of a schedule *)

Definition full (min max : Z) (l : list Z) : Prop := forall v, min <= v <= max -> v ∈ l.

Lemma seqZ_elem n a v : v ∈ map (fun k => a + Z.of_nat k) (seq 0 n) <-> a <= v < a + Z.of_nat n.
Proof.
  rewrite list_elem_of_In, in_map_iff. split.
  - intros (k & <- & Hk%in_seq). lia.
  - intros Hv. exists (Z.to_nat (v - a)). split; [lia|]. apply in_seq. lia.
Qed.

Lemma isWildcard_full min max l : min <= max -> field_ok min max l ->
  isWildcard l min max = true <-> full min max l.
Proof.
  intros Hmm (_ & HN & _ & HF). unfold isWildcard, full. rewrite Z.eqb_eq.
  set (all := map (fun k => min + Z.of_nat k) (seq 0 (Z.to_nat (max - min + 1)))).
  assert (length all = Z.to_nat (max - min + 1)) as Hlen by (unfold all; by rewrite length_map, length_seq).
  assert (forall v, v ∈ all <-> min <= v <= max) as Hall by (intros v; unfold all; rewrite seqZ_elem; lia).
  assert (NoDup all) as HNa.
  { unfold all. apply NoDup_fmap_2_strong; [intros; lia|apply NoDup_ListNoDup, seq_NoDup]. }
  assert (l ⊆+ all) as Hsub.
  { apply NoDup_submseteq; [done|]. intros v Hv. apply Hall. by eapply Forall_forall in HF. }
  split.
  - intros Hl v Hv. apply submseteq_length_Permutation in Hsub; [|lia]. by rewrite Hsub, Hall.
  - intros Hfull. assert (all ⊆+ l) as Hsub'%submseteq_length.
    { apply NoDup_submseteq; [done|]. intros v Hv%Hall. by apply Hfull. }
    apply submseteq_length in Hsub. lia.
Qed.

(** A time matches if its minute, hour and month are listed, and its day is
    listed by both day fields, or by one of them if both leave out a day. *)
Definition matches (tz : TimeZone) (s : CronSchedule) (t : Z) : Prop :=
  getMinutes tz t ∈ minute s /\ getHours tz t ∈ hour s /\ getMonth1 tz t ∈ month s /\
  (getDate tz t ∈ dayOfMonth s /\ getDay tz t ∈ dayOfWeek s \/
   ~ full 1 31 (dayOfMonth s) /\ ~ full 0 6 (dayOfWeek s) /\
   (getDate tz t ∈ dayOfMonth s \/ getDay tz t ∈ dayOfWeek s)).

Lemma cronMatches_standard tz s t : schedule_ok s -> cronMatches tz s t = true <-> matches tz s t.
Proof.
  intros Hs. unfold matches. rewrite cronMatches_eq, !andb_true_iff. unfold dayOK.
  rewrite andb_true_iff, !hasZ_true.
  pose proof (isWildcard_full 1 31 (dayOfMonth s) ltac:(lia) (ok_dom s Hs)) as Hdom.
  pose proof (isWildcard_full 0 6 (dayOfWeek s) ltac:(lia) (ok_dow s Hs)) as Hdow.
  assert (1 <= getDate tz t <= 31) as Hd.
  { unfold getDate. by destruct (civil_next (localDay tz t)) as (_ & _ & _ & ?). }
  assert (0 <= getDay tz t <= 6) as Hw by (unfold getDay; pose proof (Z.mod_pos_bound (localDay tz t + 4) 7); lia).
  unfold dayMatches.
  destruct (isWildcard (dayOfMonth s) 1 31), (isWildcard (dayOfWeek s) 0 6); cbn [andb];
    rewrite ?orb_true_iff, ?hasZ_true.
  - assert (full 1 31 (dayOfMonth s)) as F1 by (by apply Hdom). assert (full 0 6 (dayOfWeek s)) as F2 by (by apply Hdow).
    specialize (F1 _ Hd). specialize (F2 _ Hw). tauto.
  - assert (full 1 31 (dayOfMonth s)) as F1 by (by apply Hdom). pose proof (F1 _ Hd). tauto.
  - assert (full 0 6 (dayOfWeek s)) as F2 by (by apply Hdow). pose proof (F2 _ Hw). tauto.
  - assert (~ full 1 31 (dayOfMonth s)) by (intros F%Hdom; done).
    assert (~ full 0 6 (dayOfWeek s)) by (intros F%Hdow; done). tauto.
Qed.

(** ** Time zones *)

(** A search over more days. *)
Lemma searchDays_app (z : TimeZone) s start n m off :
  searchDays z s start (n + m) off =
  match searchDays z s start n off with Some t => Some t | None => searchDays z s start m (off + Z.of_nat n) end.
Proof.
  revert off. induction n as [|n IH]; intros off; cbn [searchDays Nat.add]; [by rewrite Z.add_0_r|].
  destruct (if negb _ then None else _); [done|]. rewrite IH. by replace (off + Z.of_nat (S n)) with (off + 1 + Z.of_nat n) by lia.
Qed.

(** In any zone, what is found matches and is not before the start. *)
Lemma searchMinutes_sound (z : TimeZone) s start h ms c c' t : searchMinutes z s start h ms c = (c', Some t) -> start <= t /\ cronMatches z s t = true.
Proof.
  revert c. induction ms as [|m ms IH]; intros c; cbn [searchMinutes]; [done|].
  destruct (Z.ltb_spec (setHours z h m c) start); [apply IH|]. destruct (negb _); [apply IH|].
  destruct (cronMatches z s (setHours z h m c)) eqn:E; [|apply IH]. by intros [= <- <-].
Qed.

Lemma searchHours_sound (z : TimeZone) s start hs c t : searchHours z s start hs c = Some t -> start <= t /\ cronMatches z s t = true.
Proof.
  revert c. induction hs as [|h hs IH]; intros c; cbn [searchHours]; [done|].
  destruct (searchMinutes z s start h (minute s) c) as [c' [t'|]] eqn:E; [|apply IH]. intros [= <-]. by eapply searchMinutes_sound.
Qed.

Lemma searchDays_sound (z : TimeZone) s start days off t : searchDays z s start days off = Some t -> start <= t /\ cronMatches z s t = true.
Proof.
  revert off. induction days as [|days IH]; intros off; cbn [searchDays]; [done|].
  destruct (if negb _ then None else _) as [t'|] eqn:E; [|apply IH]. intros [= <-].
  destruct (negb _); [done|]. destruct (negb _); [done|]. by eapply searchHours_sound.
Qed.

(** The zone has a constant offset from [low] to [high]. *)
Definition steady (z : TimeZone) (offset low high : Z) : Prop :=
  forall t, low <= t < high -> localTime z t = t + offset /\ utcTime z (t + offset) = t.

(** The start of the local day of a time. *)
Definition dayStart (offset t : Z) : Z := localDay offset t * MS_PER_DAY - offset.

Section steady.
Context (z : TimeZone) (offset : Z) (s : CronSchedule) (Hs : schedule_ok s) (low high : Z) (Hz : steady z offset low high).

Lemma steady_local t : low <= t < high -> localTime z t = localTime offset t.
Proof. intros Ht. by apply Hz. Qed.

Lemma steady_utc l : low <= l - offset < high -> utcTime z l = utcTime offset l.
Proof. intros Hl. destruct (Hz _ Hl) as [_ Hu]. by rewrite Z.sub_add in Hu. Qed.

Lemma cronMatches_local t : localTime z t = localTime offset t -> cronMatches z s t = cronMatches offset s t.
Proof. intros H. rewrite !cronMatches_eq. unfold dayOK, dayMatches, getMinutes, getHours, getMonth1, getDate, getDay, localDay, timeOfDay. by rewrite H. Qed.

Lemma matches_local t : localTime z t = localTime offset t -> matches z s t <-> matches offset s t.
Proof. intros H. by rewrite <- !cronMatches_standard, cronMatches_local. Qed.

(** The times of a day that lies in the steady period. *)
Definition dayIn (d : Z) : Prop := low <= d * MS_PER_DAY - offset /\ (d + 1) * MS_PER_DAY - offset <= high.

Lemma steady_day t : dayIn (localDay offset t) -> low <= t < high.
Proof. unfold dayIn, localDay. divmod. Qed.

Lemma setHours_steady h m t : dayIn (localDay offset t) -> 0 <= h <= 23 -> 0 <= m <= 59 ->
  setHours z h m t = setHours offset h m t /\ localDay offset (setHours offset h m t) = localDay offset t.
Proof.
  intros Hd Hh Hm. destruct (moment_parts offset (localDay offset t) h m Hh Hm) as [Hp _]. rewrite <- setHours_moment in Hp. split; [|done].
  unfold setHours, localDay at 1. rewrite (steady_local t (steady_day t Hd)). apply steady_utc. rewrite <- Hp in Hd. exact (steady_day _ Hd).
Qed.

Lemma searchMinutes_steady start h ms c : dayIn (localDay offset c) -> 0 <= h <= 23 -> Forall (fun m => 0 <= m <= 59) ms ->
  searchMinutes z s start h ms c = searchMinutes offset s start h ms c.
Proof.
  intros Hd Hh HF. revert c Hd. induction HF as [|m ms Hm _ IH]; intros c Hd; cbn [searchMinutes]; [done|].
  destruct (setHours_steady h m c Hd Hh Hm) as [-> Hl]. rewrite <- Hl in Hd. specialize (IH _ Hd). pose proof (steady_local _ (steady_day _ Hd)) as Hloc.
  unfold getMonth1 at 1, localDay at 1. rewrite Hloc, IH, (cronMatches_local _ Hloc). done.
Qed.

Lemma searchHours_steady start hs c : dayIn (localDay offset c) -> Forall (fun h => 0 <= h <= 23) hs ->
  searchHours z s start hs c = searchHours offset s start hs c.
Proof.
  intros Hd HF. revert c Hd. induction HF as [|h hs Hh _ IH]; intros c Hd; cbn [searchHours]; [done|].
  destruct (ok_minute s Hs) as (_ & _ & HS & HF). rewrite searchMinutes_steady by done.
  destruct (searchMinutes_spec offset s start h (minute s) c Hh HF HS) as (c' & found & -> & Hc & _). destruct found; [done|]. apply IH. by rewrite Hc.
Qed.

(** The search goes over the days as if the offset never changed. *)
Lemma searchDays_steady start days off : low <= dayStart offset start -> 0 <= off -> dayStart offset start + (off + Z.of_nat days) * MS_PER_DAY <= high ->
  searchDays z s start days off = searchDays offset s start days off.
Proof.
  intros Hlow. revert off. induction days as [|days IH]; intros off Hoff Hhigh; cbn [searchDays]; [done|].
  rewrite IH by lia. set (c0 := start + off * MS_PER_DAY).
  assert (Hc0 : localDay offset c0 = localDay offset start + off) by (unfold c0, localDay; divmod).
  assert (Hd : dayIn (localDay offset c0)) by (rewrite Hc0; unfold dayIn, dayStart in *; unfold MS_PER_DAY in *; lia).
  destruct (setHours_steady 0 0 c0 Hd ltac:(lia) ltac:(lia)) as [-> Hl]. set (c := setHours offset 0 0 c0) in *. clearbody c. rewrite <- Hl in Hd.
  pose proof (steady_local c (steady_day c Hd)) as Hloc. destruct (ok_hour s Hs) as (_ & _ & _ & HF). rewrite searchHours_steady by done.
  unfold dayMatches, getMonth1, getDate, getDay. unfold localDay. by rewrite Hloc.
Qed.

Lemma startAfter_steady after : low <= dayStart offset after -> after < high -> startAfter z after = startAfter offset after.
Proof.
  intros Hlow Hhigh. unfold startAfter, setSeconds0. assert (Ht : low <= after < high) by (unfold dayStart, localDay in Hlow; divmod).
  rewrite (steady_local after Ht). rewrite steady_utc; [done|]. unfold dayStart, localDay in Hlow. divmod.
Qed.
End steady.

(** C38. The next run of a parsed schedule matches it in the standard sense of
    cron (both day fields restricted: either may match) and is not before the
    minute that the search starts at, in any time zone. And it is the first
    match, as far as the zone keeps its offset: if the offset is constant from
    the start of the local day of the given time over the first [n] days of the
    search, at most 366, then the result is the first of the whole minutes
    after the given time in these days that match; none of them matches if the
    search fails, or if it goes on to a later day (it never does for 366). Where
    the offset changes the search may miss a day, as the examples show. *)
Theorem next_run_is_first_match (z : TimeZone) (expression : string) (s : CronSchedule) (after : Z) :
  parseCron expression = Ok s ->
  (forall t, nextCronMatch z s after = Ok t -> startAfter z after <= t /\ matches z s t) /\
  (forall offset n, (n <= MAX_LOOKAHEAD_DAYS)%nat ->
    steady z offset (dayStart offset after) (dayStart offset (startAfter offset after) + Z.of_nat n * MS_PER_DAY) ->
    match nextCronMatch z s after with
    | Ok t => among offset n after t /\ (forall t', among offset n after t' -> matches z s t' -> t <= t') \/
        (n < MAX_LOOKAHEAD_DAYS)%nat /\ forall t', among offset n after t' -> ~ matches z s t'
    | Err e => e = NoMatchInLookahead /\ forall t', among offset n after t' -> ~ matches z s t'
    end).
Proof.
  intros Hs%parseCron_ok. split.
  { intros t. unfold nextCronMatch. destruct (searchDays _ _ _ _ _) as [t'|] eqn:E; [|done]. intros [= <-].
    apply searchDays_sound in E as [? ?]. split; [done|]. by apply cronMatches_standard. }
  intros offset n Hn Hz. destruct (startAfter_spec offset after) as (Hlt & _ & Hleast).
  destruct n as [|n].
  { assert (Hno : forall t', ~ among offset 0 after t').
    { intros t' (Hw & Ha & Hd). specialize (Hleast t' Hw Ha). unfold localDay in Hd. divmod. }
    destruct (nextCronMatch z s after) as [t|e] eqn:E; [right; split; [unfold MAX_LOOKAHEAD_DAYS; lia|by intros ? ?%Hno]|].
    split; [|by intros ? ?%Hno]. unfold nextCronMatch in E. by destruct (searchDays _ _ _ _ _); simplify_eq. }
  assert (Hstart : startAfter z after = startAfter offset after).
  { eapply startAfter_steady; [exact Hz|done|]. unfold dayStart, localDay. divmod. }
  assert (Hlow : dayStart offset after <= dayStart offset (startAfter offset after)) by (unfold dayStart, localDay; divmod).
  assert (Hlocal : forall t', among offset (S n) after t' -> matches z s t' <-> cronMatches offset s t' = true).
  { intros t' (_ & Ha & Hd). rewrite (matches_local z offset s Hs), cronMatches_standard; [done|done|]. apply Hz.
    unfold dayStart, localDay in *. divmod. }
  pose proof (searchDays_first offset s Hs (S n) after) as Hfirst. unfold nextCronMatch.
  assert (Hk : exists k, MAX_LOOKAHEAD_DAYS = (S n + k)%nat) by (exists (MAX_LOOKAHEAD_DAYS - S n)%nat; lia).
  destruct Hk as [k Hk]. clear Hn. set (most := MAX_LOOKAHEAD_DAYS) in *. clearbody most. subst most.
  rewrite searchDays_app, Hstart. rewrite (searchDays_steady z offset s Hs _ _ Hz) by (lia || done).
  destruct (searchDays offset s (startAfter offset after) (S n) 0) as [t|].
  { left. destruct Hfirst as (Ha & _ & Hmin). split; [done|]. intros t' Ht' Hm. apply Hmin; [done|]. by apply Hlocal. }
  assert (Hnone : forall t', among offset (S n) after t' -> ~ matches z s t').
  { intros t' Ht' Hm. apply Hlocal in Hm; [|done]. by rewrite (Hfirst t' Ht') in Hm. }
  destruct k as [|k]; [by split|]. destruct (searchDays z s _ (S k) _) as [t|]; [right; split; [lia|done]|by split].
Qed.

Lemma steady_fixed (offset low high : Z) : steady offset offset low high.
Proof. intros t _. cbn. lia. Qed.

(** 1 January 2024 is a Monday: the next working day at 8:00 from Saturday
    evening, two hours ahead of UTC. *)
Lemma next_run_is_first_match_witness : exists s, parseCron "0 8 * * 1-5" = Ok s /\
  nextCronMatch 7200000 s 1703966400000 = Ok 1704088800000 /\ matches 7200000 s 1704088800000 /\
  forall t', whole_minute 7200000 t' -> 1703966400000 < t' < 1704088800000 -> ~ matches 7200000 s t'.
Proof.
  destruct (parseCron "0 8 * * 1-5") as [s|] eqn:Hp; [|vm_compute in Hp; discriminate Hp]. exists s. split; [reflexivity|].
  assert (nextCronMatch 7200000 s 1703966400000 = Ok 1704088800000) as Hn by (vm_compute in Hp; injection Hp as <-; vm_compute; reflexivity).
  destruct (next_run_is_first_match 7200000 "0 8 * * 1-5" s 1703966400000 Hp) as [H1 H2].
  specialize (H2 7200000 MAX_LOOKAHEAD_DAYS (Nat.le_refl _) (steady_fixed _ _ _)). rewrite Hn in H2.
  split; [exact Hn|]. split; [apply (H1 _ Hn)|]. destruct H2 as [[(_ & _ & Hd) H2]|[Hlt _]]; [|by apply Nat.lt_irrefl in Hlt].
  intros t' Hw [Ha Hb] Hm. apply (Z.lt_irrefl t'). apply (Z.lt_le_trans _ 1704088800000); [exact Hb|]. apply H2; [|exact Hm].
  split; [exact Hw|]. split; [exact Ha|]. eapply Z.le_lt_trans; [|exact Hd]. apply Z.div_le_mono; [reflexivity|]. cbn. apply Z.add_le_mono_r, Z.lt_le_incl, Hb.
Defined.

(** Zones whose clocks go forward or back by an hour at a moment. The local
    times that are left out are read with the offset before, and of the local
    times that come twice the first is meant, as ECMAScript has it. *)
Definition springForward (change : Z) : TimeZone := {|
  localTime t := if t <? change then t else t + 3600000;
  utcTime l := if l <? change + 3600000 then l else l - 3600000 |}.

Definition fallBack (change : Z) : TimeZone := {|
  localTime t := if t <? change then t + 3600000 else t;
  utcTime l := if l <? change + 3600000 then l - 3600000 else l |}.

(** The clocks go forward at 1:00 on 31 March 2024. From 23:30 on 30 March the
    next 8:00 is 7:00 UTC on 31 March, which matches; but 24 hours later it is
    0:31 on 1 April, and the search finds the 8:00 of that day. *)
Example short_day_skipped :
  match parseCron "0 8 * * *" with
  | Ok s => nextCronMatch (springForward 1711846800000) s 1711841400000 = Ok 1711954800000 /\
      cronMatches (springForward 1711846800000) s 1711868400000 = true
  | Err _ => False
  end.
Proof. split; vm_compute; reflexivity. Qed.

(** The clocks go back at 2:00 on 27 October 2024. At the second 1:30 the search
    for the next 1:45 starts at the first 1:31, and finds a time in the past. *)
Example repeated_hour_goes_back :
  match parseCron "45 1 * * *" with
  | Ok s => nextCronMatch (fallBack 1729990800000) s 1729992600000 = Ok 1729989900000
  | Err _ => False
  end.
Proof. vm_compute. reflexivity. Qed.

(** Until midnight the offset of that zone is constant: the search for the rest
    of the day finds the first match. *)
Example short_day_before :
  let z := springForward 1711846800000 in
  match parseCron "30 20 * * *" with
  | Ok s => steady z 0 (dayStart 0 1711800000000) (dayStart 0 (startAfter 0 1711800000000) + Z.of_nat 1 * MS_PER_DAY) /\
      nextCronMatch z s 1711800000000 = Ok 1711830600000
  | Err _ => False
  end.
Proof.
  cbv zeta. assert (E : dayStart 0 (startAfter 0 1711800000000) + Z.of_nat 1 * MS_PER_DAY = 1711843200000) by (vm_compute; reflexivity).
  destruct (parseCron "30 20 * * *") as [s|] eqn:Hp; [|vm_compute in Hp; discriminate Hp]. split.
  - rewrite E. intros t [_ Ht]. cbn [localTime utcTime springForward]. destruct (Z.ltb_spec t 1711846800000), (Z.ltb_spec (t + 0) (1711846800000 + 3600000)); lia.
  - vm_compute in Hp. injection Hp as <-. vm_compute. reflexivity.
Qed.

(** 29 February is beyond the lookahead in most years: the search fails. *)
Lemma leap_day_not_found :
  match parseCron "0 0 29 2 *" with
  | Ok s => nextCronMatch 0 s 1709251200000 = Err NoMatchInLookahead
  | Err _ => False
  end.
Proof. vm_compute. reflexivity. Qed.
