(* ===== verification/CronScheduler.v ===== *)
(** * Cron scheduler (src/runtime/src/gateway/scheduler.ts, CronScheduler)

    The jobs of the scheduler and the runs it starts. Job objects are mutable
    and shared (a run keeps a reference to its job's object after the job was
    removed), so they live in [objects] and [jobs] maps names to positions.
    [inflight] is the host's record of the started actions that have not
    settled; [settle] is the settling of one of them, with the callbacks of
    [tick] on it. The clock is an argument. An action is known by a name; its
    synchronous part is taken not to call the scheduler. Logging is left out.

    The theorem: runs of one job never overlap, as long as no job is removed in
    the middle of a run. *)
From S2P Require Import Prelude JsMap Cron CronSpec.
#[local] Open Scope Z_scope.

Record MutableJob := {
  job_name : string;
  job_cron : string;
  job_schedule : CronSchedule;
  job_enabled : bool;
  job_lastRun : option Z;
  job_nextRun : Z;
  job_action : string;
}.

Record CronScheduler := {
  objects : list MutableJob;
  jobs : jsmap nat;
  timer : bool;
  running : list string;
  inflight : list (string * nat);
}.

Definition newScheduler : CronScheduler :=
  {| objects := []; jobs := []; timer := false; running := []; inflight := [] |}.

Definition with_enabled (b : bool) (j : MutableJob) : MutableJob :=
  {| job_name := job_name j; job_cron := job_cron j; job_schedule := job_schedule j; job_enabled := b;
     job_lastRun := job_lastRun j; job_nextRun := job_nextRun j; job_action := job_action j |}.
Definition with_nextRun (t : Z) (j : MutableJob) : MutableJob :=
  {| job_name := job_name j; job_cron := job_cron j; job_schedule := job_schedule j;
     job_enabled := job_enabled j; job_lastRun := job_lastRun j; job_nextRun := t; job_action := job_action j |}.
Definition with_lastRun (t : Z) (j : MutableJob) : MutableJob :=
  {| job_name := job_name j; job_cron := job_cron j; job_schedule := job_schedule j;
     job_enabled := job_enabled j; job_lastRun := Some t; job_nextRun := job_nextRun j; job_action := job_action j |}.

Definition with_objects (os : list MutableJob) (s : CronScheduler) : CronScheduler :=
  {| objects := os; jobs := jobs s; timer := timer s; running := running s; inflight := inflight s |}.

Section Scheduler.
Context (tz : TimeZone).

Definition addJob (name cron action : string) (now : Z) (s : CronScheduler) : CronScheduler * R unit :=
  if mhas (jobs s) name then (s, Err JobExists) else
  match (schedule ← parseCron cron; nextRun ← nextCronMatch tz schedule now; Ok (schedule, nextRun)) with
  | Err e => (s, Err (ScheduleFailed e))
  | Ok (schedule, nextRun) =>
      ({| objects := objects s ++ [{| job_name := name; job_cron := cron; job_schedule := schedule;
            job_enabled := true; job_lastRun := None; job_nextRun := nextRun; job_action := action |}];
          jobs := mset name (length (objects s)) (jobs s); timer := timer s; running := running s;
          inflight := inflight s |}, Ok tt)
  end.

Definition removeName (name : string) (l : list string) : list string :=
  List.filter (fun x => negb (String.eqb x name)) l.

Definition removeJob (name : string) (s : CronScheduler) : CronScheduler * bool :=
  if mhas (jobs s) name
  then ({| objects := objects s; jobs := mdel name (jobs s); timer := timer s;
           running := removeName name (running s); inflight := inflight s |}, true)
  else (s, false).

Definition enableJob (name : string) (now : Z) (s : CronScheduler) : CronScheduler * R bool :=
  match mget (jobs s) name with
  | None => (s, Ok false)
  | Some o =>
      match objects s !! o with
      | None => (s, Ok false)
      | Some job =>
          match nextCronMatch tz (job_schedule job) now with
          | Err e => (s, Err (EnableFailed e))
          | Ok nextRun => (with_objects (<[o := with_nextRun nextRun (with_enabled true job)]> (objects s)) s, Ok true)
          end
      end
  end.

Definition disableJob (name : string) (s : CronScheduler) : CronScheduler * bool :=
  match mget (jobs s) name with
  | None => (s, false)
  | Some o => (with_objects (alter (with_enabled false) o (objects s)) s, true)
  end.

Definition start (s : CronScheduler) : CronScheduler :=
  {| objects := objects s; jobs := jobs s; timer := true; running := running s; inflight := inflight s |}.
Definition stop (s : CronScheduler) : CronScheduler :=
  {| objects := objects s; jobs := jobs s; timer := false; running := running s; inflight := inflight s |}.

(** [triggerJob] runs the action outside the schedule, then sets [lastRun]. *)
Definition triggerJob (name : string) (s : CronScheduler) : R nat :=
  match mget (jobs s) name with None => Err JobNotFound | Some o => Ok o end.
Definition triggerDone (o : nat) (now : Z) (s : CronScheduler) : CronScheduler :=
  with_objects (alter (with_lastRun now) o (objects s)) s.

(** The values of the job map, with the objects they stand for. *)
Definition listJobs (s : CronScheduler) : list MutableJob :=
  omap (fun o => objects s !! o) (mvals (jobs s)).

Definition getDueJobs (now : Z) (s : CronScheduler) : list MutableJob :=
  List.filter (fun job => job_enabled job && cronMatches tz (job_schedule job) now) (listJobs s).

(** The loop of [tick] over the due jobs. *)
Definition startRun (s : CronScheduler) (job : MutableJob) : CronScheduler :=
  if has (running s) (job_name job) then s else
  {| objects := objects s; jobs := jobs s; timer := timer s; running := running s ++ [job_name job];
     inflight := match mget (jobs s) (job_name job) with
                 | Some o => inflight s ++ [(job_name job, o)]
                 | None => inflight s
                 end |}.

Definition tick (now : Z) (s : CronScheduler) : CronScheduler := foldl startRun s (getDueJobs now s).

(** The callbacks of a run that has settled. *)
Definition afterRun (now : Z) (job : MutableJob) : MutableJob :=
  let job := with_lastRun now job in
  match nextCronMatch tz (job_schedule job) now with
  | Ok t => with_nextRun t job
  | Err _ => with_enabled false job
  end.

Definition settle (run : nat) (success : bool) (now : Z) (s : CronScheduler) : CronScheduler :=
  match inflight s !! run with
  | None => s
  | Some (name, o) =>
      {| objects := if success then alter (afterRun now) o (objects s) else objects s;
         jobs := jobs s; timer := timer s; running := removeName name (running s);
         inflight := take run (inflight s) ++ drop (S run) (inflight s) |}
  end.

(** ** The calls of a client and the events of the host *)

Inductive Event :=
| Add (name cron action : string) (now : Z)
| Remove (name : string)
| Enable (name : string) (now : Z)
| Disable (name : string)
| Start
| Stop
| TriggerDone (o : nat) (now : Z)
| Tick (now : Z)
| Settle (run : nat) (success : bool) (now : Z).

Definition step (s : CronScheduler) (e : Event) : CronScheduler :=
  match e with
  | Add name cron action now => (addJob name cron action now s).1
  | Remove name => (removeJob name s).1
  | Enable name now => (enableJob name now s).1
  | Disable name => (disableJob name s).1
  | Start => start s
  | Stop => stop s
  | TriggerDone o now => triggerDone o now s
  | Tick now => tick now s
  | Settle run success now => settle run success now s
  end.

(** No job is removed while a run of it is in flight. *)
Fixpoint removals_wait (s : CronScheduler) (es : list Event) : Prop :=
  match es with
  | [] => True
  | e :: rest =>
      match e with Remove name => name ∉ map fst (inflight s) | _ => True end /\ removals_wait (step s e) rest
  end.

(** The running marks are the runs in flight, one per job; every job of the map
    is an object of that name with a parsed schedule. *)
Definition scheduler_inv (s : CronScheduler) : Prop :=
  NoDup (map fst (inflight s)) /\ running s = map fst (inflight s) /\
  NoDup (mkeys (jobs s)) /\
  forall name o, mget (jobs s) name = Some o ->
    exists job, objects s !! o = Some job /\ job_name job = name /\ schedule_ok (job_schedule job).

Definition keeps_job (f : MutableJob -> MutableJob) : Prop :=
  forall j, job_name (f j) = job_name j /\ job_schedule (f j) = job_schedule j.

Lemma alter_inv f o s : keeps_job f -> scheduler_inv s -> scheduler_inv (with_objects (alter f o (objects s)) s).
Proof.
  intros Hf (HN & Hr & Hk & Hj). split_and!; [done..|]. intros name o' Ho'.
  destruct (Hj name o' Ho') as (job & Hob & Hn & Hs). cbn. destruct (decide (o = o')) as [->|Hne].
  - exists (f job). rewrite list_lookup_alter_eq, Hob. destruct (Hf job) as [H1 H2]. split; [done|]. by rewrite H1, H2.
  - exists job. by rewrite list_lookup_alter_ne.
Qed.

Lemma remove_at (l : list (string * nat)) run name o :
  NoDup (map fst l) -> l !! run = Some (name, o) ->
  map fst (take run l ++ drop (S run) l) = removeName name (map fst l).
Proof.
  intros HN Hl. assert (l = take run l ++ (name, o) :: drop (S run) l) as Hsplit by (symmetry; by apply take_drop_middle).
  assert (name ∉ map fst (take run l) /\ name ∉ map fst (drop (S run) l)) as [H1 H2].
  { rewrite Hsplit, map_app in HN. apply NoDup_app in HN as (_ & Hd & HN). apply NoDup_cons in HN as [Hn _].
    split; [intros Hin; by eapply Hd; [|constructor]|done]. }
  rewrite Hsplit at 3. rewrite !map_app. unfold removeName. rewrite List.filter_app. cbn.
  rewrite String.eqb_refl. cbn.
  assert (forall m, name ∉ m -> List.filter (fun x => negb (String.eqb x name)) m = m) as Hid.
  { clear. induction m as [|x m IH]; [done|]. intros [Hne Hm]%not_elem_of_cons. cbn.
    destruct (String.eqb_spec x name); [congruence|]. cbn. by rewrite IH. }
  by rewrite !Hid.
Qed.

Lemma listJobs_named s job : scheduler_inv s -> job ∈ listJobs s ->
  exists o, mget (jobs s) (job_name job) = Some o /\ objects s !! o = Some job.
Proof.
  intros (_ & _ & Hk & Hj) Hin. unfold listJobs in Hin. apply list_elem_of_omap in Hin as (o & Ho & Hob).
  apply elem_mvals in Ho as (name & Hn); [|done]. destruct (Hj name o Hn) as (job' & Hob' & <- & _).
  assert (job' = job) as -> by congruence. eauto.
Qed.

Lemma listJobs_names s : scheduler_inv s -> NoDup (map job_name (listJobs s)).
Proof.
  intros (_ & _ & Hk & Hj). cut (map job_name (listJobs s) = mkeys (jobs s)); [by intros ->|].
  unfold listJobs. assert (forall name o, (name, o) ∈ jobs s -> exists job, objects s !! o = Some job /\ job_name job = name) as Hall.
  { intros name o Hin%elem_mget; [|done]. destruct (Hj name o Hin) as (job & ? & ? & _). eauto. }
  clear Hj Hk. induction (jobs s) as [|[name o] m IH]; [done|]. cbn.
  destruct (Hall name o) as (job & -> & Hn); [constructor|]. cbn. rewrite Hn. f_equal. apply IH.
  intros n o' Hin. apply Hall. by constructor.
Qed.

(** The names of the runs a tick starts. *)
Definition to_start (s : CronScheduler) (js : list MutableJob) : list string :=
  List.filter (fun n => negb (has (map fst (inflight s)) n)) (map job_name js).

Lemma startRun_fold js s : scheduler_inv s -> NoDup (map job_name js) ->
  (forall job, job ∈ js -> exists o, mget (jobs s) (job_name job) = Some o) ->
  scheduler_inv (foldl startRun s js) /\
  map fst (inflight (foldl startRun s js)) = map fst (inflight s) ++ to_start s js.
Proof.
  revert s. induction js as [|job js IH]; intros s Hi HN Hall; cbn [foldl].
  { by rewrite app_nil_r. }
  apply NoDup_cons in HN as [Hn HN]. destruct (Hall job) as [o Ho]; [constructor|].
  destruct Hi as (HNi & Hr & Hk & Hj). unfold to_start. cbn [map List.filter]. unfold startRun at 2 4.
  rewrite Hr. destruct (has (map fst (inflight s)) (job_name job)) eqn:Eh; cbn [negb].
  { apply IH; [by split_and!|done|]. intros j ?. apply Hall. by constructor. }
  rewrite Ho. apply has_false in Eh.
  match goal with |- context [foldl startRun ?st js] => set (s1 := st) end.
  assert (map fst (inflight s1) = map fst (inflight s) ++ [job_name job]) as Hs1 by (cbn; by rewrite map_app).
  destruct (IH s1) as [IH1 IH2]; [|done|intros j ?; apply Hall; by constructor|].
  { split_and!; [|by rewrite Hs1|done|done]. rewrite Hs1. apply NoDup_app.
    split_and!; [done|by intros x Hx ->%list_elem_of_singleton|apply NoDup_singleton]. }
  split; [done|]. rewrite IH2, Hs1, <-app_assoc. cbn [app]. do 2 f_equal. unfold to_start.
  assert (forall l, job_name job ∉ l -> List.filter (fun n => negb (has (map fst (inflight s1)) n)) l =
    List.filter (fun n => negb (has (map fst (inflight s)) n)) l) as Hf; [|by apply Hf].
  induction l as [|x l IHl]; [done|]. intros [Hne Hl]%not_elem_of_cons. cbn [List.filter]. rewrite IHl by done.
  assert (has (map fst (inflight s1)) x = has (map fst (inflight s)) x) as ->; [|done].
  apply eq_bool_prop_intro. rewrite !Is_true_true, !has_true, Hs1. set_solver.
Qed.

Lemma tick_spec now s : scheduler_inv s ->
  scheduler_inv (tick now s) /\
  map fst (inflight (tick now s)) = map fst (inflight s) ++ to_start s (getDueJobs now s).
Proof.
  intros Hi. unfold tick. assert (forall job, job ∈ getDueJobs now s -> job ∈ listJobs s) as Hsub.
  { intros job Hin. unfold getDueJobs in Hin. apply elem_filter_bool in Hin. apply Hin. }
  apply startRun_fold; [done| |].
  - pose proof (listJobs_names s Hi) as HN. unfold getDueJobs. clear Hsub. induction (listJobs s) as [|j l IH]; [constructor|].
    cbn in *. apply NoDup_cons in HN as [Hn HN]. destruct (_ && _); [|by apply IH]. cbn. constructor; [|by apply IH].
    intros Hin. apply Hn. apply list_elem_of_fmap in Hin as (j' & He & Hin). apply list_elem_of_fmap. exists j'.
    split; [done|]. apply elem_filter_bool in Hin. apply Hin.
  - intros job Hin%Hsub. destruct (listJobs_named s job Hi Hin) as (o & ? & _). eauto.
Qed.

Lemma step_inv s e : scheduler_inv s ->
  (match e with Remove name => name ∉ map fst (inflight s) | _ => True end) -> scheduler_inv (step s e).
Proof.
  intros Hi He. destruct e as [name cron action now|name|name now|name| | |o now|now|run success now]; cbn [step]; try done.
  - unfold addJob. destruct (mhas (jobs s) name) eqn:Em; [done|].
    destruct (parseCron cron) as [sch|] eqn:Ep; [|done]. unfold mbind, result_bind.
    destruct (nextCronMatch tz sch now); [|done]. destruct Hi as (HN & Hr & Hk & Hj). cbn [fst]. unfold scheduler_inv. cbn [objects jobs running inflight].
    split_and!; [done|done|by apply mset_NoDup|]. intros n o. rewrite mget_mset.
    destruct (String.eqb_spec n name) as [->|]; [intros [= <-]|].
    + rewrite lookup_app_r, Nat.sub_diag by done. eexists. split_and!; [done|done|]. by eapply parseCron_ok.
    + intros Hn. destruct (Hj n o Hn) as (job & Hob & ? & ?). exists job. split; [|done].
      rewrite lookup_app_l; [done|]. by eapply lookup_lt_Some.
  - unfold removeJob. destruct (mhas (jobs s) name); [|done]. destruct Hi as (HN & Hr & Hk & Hj). cbn [fst]. unfold scheduler_inv. cbn [objects jobs running inflight].
    split_and!; [done| | |].
    + rewrite Hr. unfold removeName. clear -He. induction (map fst (inflight s)) as [|x l IH]; [done|].
      apply not_elem_of_cons in He as [Hne He]. cbn. destruct (String.eqb_spec x name); [congruence|]. cbn. by rewrite IH.
    + unfold mkeys, mdel. clear -Hk. induction (jobs s) as [|[k v] m IH]; [done|]. cbn in *.
      apply NoDup_cons in Hk as [Hn Hk]. destruct (String.eqb k name); cbn; [by apply IH|]. constructor; [|by apply IH].
      intros Hin. apply Hn. apply list_elem_of_fmap in Hin as (x & -> & Hin). apply list_elem_of_fmap. exists x.
      split; [done|]. apply elem_filter_bool in Hin. apply Hin.
    + intros n o. rewrite mget_mdel. destruct (String.eqb n name); [done|]. apply Hj.
  - unfold enableJob. destruct (mget (jobs s) name) as [o|]; [|done]. destruct (objects s !! o) as [job|] eqn:Eo; [|done].
    destruct (nextCronMatch _ _ _); [|done]. cbn.
    replace (<[o:=_]> (objects s)) with (alter (fun j => with_nextRun a (with_enabled true j)) o (objects s)).
    + by apply alter_inv.
    + apply list_eq. intros i. destruct (decide (o = i)) as [<-|Hne].
      * rewrite list_lookup_alter_eq, list_lookup_insert_eq, Eo; [done|]. by eapply lookup_lt_Some.
      * by rewrite list_lookup_alter_ne, list_lookup_insert_ne.
  - unfold disableJob. destruct (mget (jobs s) name); [|done]. by apply alter_inv.
  - by apply alter_inv.
  - by apply tick_spec.
  - unfold settle. destruct (inflight s !! run) as [[name o]|] eqn:El; [|done].
    destruct Hi as (HN & Hr & Hk & Hj).
    assert (scheduler_inv (if success then with_objects (alter (afterRun now) o (objects s)) s else s)) as (_ & _ & _ & Hj').
    { destruct success; [|done]. apply alter_inv; [|done]. intros j. unfold afterRun. by destruct (nextCronMatch _ _ _). }
    split_and!; cbn.
    + rewrite (remove_at _ _ _ _ HN El). unfold removeName. rewrite NoDup_ListNoDup. apply List.NoDup_filter. by rewrite <-NoDup_ListNoDup.
    + by rewrite (remove_at _ _ _ _ HN El), Hr.
    + done.
    + by destruct success.
Qed.

Lemma newScheduler_inv : scheduler_inv newScheduler.
Proof. split_and!; [constructor|done|constructor|done]. Qed.

Lemma steps_inv es s : scheduler_inv s -> removals_wait s es -> scheduler_inv (foldl step s es).
Proof.
  revert s. induction es as [|e es IH]; intros s Hi; cbn; [done|]. intros [He Hw]. apply IH; [|done].
  by apply step_inv.
Qed.
End Scheduler.

(** Runs do not overlap. After any calls and events in which no job is
    removed during a run, at most one run per job is in flight, and a tick
    starts exactly the enabled jobs whose schedule matches and that have no run
    in flight. *)
Theorem scheduled_runs_never_overlap (tz : TimeZone) (es : list Event) (now : Z) :
  removals_wait tz newScheduler es ->
  let s := foldl (step tz) newScheduler es in
  NoDup (map fst (inflight s)) /\
  map fst (inflight (tick tz now s)) = map fst (inflight s) ++
    List.filter (fun n => negb (has (map fst (inflight s)) n))
      (map job_name (List.filter (fun job => job_enabled job && cronMatches tz (job_schedule job) now) (listJobs s))) /\
  NoDup (map fst (inflight (tick tz now s))).
Proof.
  intros Hw s. assert (scheduler_inv s) as Hi by (apply steps_inv; [apply newScheduler_inv|done]).
  destruct (tick_spec tz now s Hi) as [[HN' _] Heq]. destruct Hi as [HN _]. by split_and!.
Qed.

Definition ex_events : list Event :=
  [Add "a" "* * * * *" "act" 0; Add "b" "30 4 1 * *" "act" 0; Start; Tick 60000; Tick 120000].

(** The second tick does not start the job again. *)
Lemma scheduled_runs_never_overlap_witness :
  map fst (inflight (foldl (step 0) newScheduler ex_events)) = ["a"%string] /\
  NoDup (map fst (inflight (tick 0 180000 (foldl (step 0) newScheduler ex_events)))).
Proof.
  split; [vm_compute; reflexivity|].
  apply (scheduled_runs_never_overlap 0 ex_events 180000). cbn [removals_wait ex_events]. tauto.
Defined.

(** Removing a job in the middle of a run and adding it again runs it twice at
    once, and the end of the first run takes the mark of the second away. *)
Lemma removal_breaks_exclusion :
  let s := foldl (step 0) newScheduler
    [Add "a" "* * * * *" "act" 0; Tick 60000; Remove "a"; Add "a" "* * * * *" "act" 60000; Tick 120000] in
  map fst (inflight s) = ["a"; "a"]%string /\ running (settle 0 0 true 120001 s) = [].
Proof. split; vm_compute; reflexivity. Qed.
