(* ===== verification/Encoding.v ===== *)
(** * Encodings (src/runtime/src/utils/encoding.ts)

    Hex strings, agent ids, proof hashes and the FNV-1a hash. A [Uint8Array] is
    a list of integers from 0 to 255; a 32-bit number keeps its sign as in
    JavaScript ([ToInt32]), and [Math.imul], [^] and [>>>] are written out.
    Node's SHA-256 is a parameter: [None] stands for a host without it. *)
From Stdlib Require Import Ascii QArith_base.
From S2P Require Import Prelude JsString.
#[local] Open Scope Z_scope.

Inductive encoding_error := InvalidHexLength | InvalidHexCharacters.

Definition bytes_ok (l : list Z) : Prop := Forall (fun b => 0 <= b < 256) l.

(** ** Hexadecimal strings *)

Definition hexDigit (n : Z) : ascii := chr (if n <? 10 then 48 + n else 87 + n).

(** [b.toString(16).padStart(2, "0")] of a byte. *)
Definition hexByte (b : Z) : string := String (hexDigit (b / 16)) (String (hexDigit (b mod 16)) EmptyString).

Definition bytesToHex (bytes : list Z) (prefix : bool) : string :=
  let hex := foldr (fun b s => (hexByte b +:+ s)%string) ""%string bytes in
  if prefix then ("0x" +:+ hex)%string else hex.

(** The value of a hexadecimal digit. *)
Definition hexVal (c : ascii) : option Z :=
  let n := code c in
  if (48 <=? n) && (n <=? 57) then Some (n - 48)
  else if (65 <=? n) && (n <=? 70) then Some (n - 55)
  else if (97 <=? n) && (n <=? 102) then Some (n - 87)
  else None.

Definition isHex (c : ascii) : bool := match hexVal c with Some _ => true | None => false end.

(** The loop over the pairs of digits. *)
Fixpoint hexPairs (s : string) : list Z :=
  match s with
  | String a (String b rest) => (16 * default 0 (hexVal a) + default 0 (hexVal b)) :: hexPairs rest
  | _ => []
  end.

Definition hexToBytes (hex : string) : result encoding_error (list Z) :=
  let cleanHex := if startsWith hex "0x" then sdrop 2 hex else hex in
  throw_if (negb (Nat.even (String.length cleanHex))) InvalidHexLength ;;
  throw_if (negb (sall isHex cleanHex)) InvalidHexCharacters ;;
  Ok (hexPairs cleanHex).

Definition agentIdToString (agentId : list Z) : string := bytesToHex agentId false.

Definition agentIdToShortString (agentId : list Z) (chars : Z) : string :=
  let hex := bytesToHex agentId false in
  let maxChars := Z.of_nat (String.length hex) / 2 in
  let safeChars := Z.to_nat (Z.max 1 (Z.min chars maxChars)) in
  (stake safeChars hex +:+ "..." +:+ sdrop (String.length hex - safeChars) hex)%string.

(** [result |= a[i] ^ b[i]] over all positions. *)
Definition agentIdsEqual (a b : list Z) : bool :=
  if negb (length a =? length b)%nat then false
  else foldl (fun result ab => Z.lor result (Z.lxor ab.1 ab.2)) 0 (zip a b) =? 0.

(** ** 32-bit arithmetic *)

Definition toInt32 (z : Z) : Z :=
  let m := z mod 2 ^ 32 in if m <? 2 ^ 31 then m else m - 2 ^ 32.
Definition imul (a b : Z) : Z := toInt32 (a * b).
Definition xor32 (a b : Z) : Z := Z.lxor (toInt32 a) (toInt32 b).
(** [z >>> n]. *)
Definition ushr (z n : Z) : Z := Z.shiftr (z mod 2 ^ 32) n.

Definition FNV_OFFSET_BASIS : Z := 2166136261.
Definition FNV_PRIME : Z := 16777619.

Fixpoint fnv1aLoop (hash : Z) (input : string) : Z :=
  match input with
  | EmptyString => hash
  | String c rest => fnv1aLoop (imul (xor32 hash (code c)) FNV_PRIME) rest
  end.

Definition fnv1aHash (input : string) : Z := ushr (fnv1aLoop FNV_OFFSET_BASIS input) 0.

(** [z.toString(16)] of a non-negative number. *)
Fixpoint toString16 (fuel : nat) (z : Z) (acc : string) : string :=
  match fuel with
  | O => acc
  | S fuel =>
      let acc := String (hexDigit (z mod 16)) acc in
      if z / 16 =? 0 then acc else toString16 fuel (z / 16) acc
  end.

Fixpoint padStart (n : nat) (c : ascii) (s : string) : string :=
  match n with
  | O => s
  | S n => if (String.length s <? S n)%nat
           then String c (padStart n c s) else s
  end.

(** A 32-bit number has at most eight hexadecimal digits. *)
Definition fnv1aHashHex (input : string) : string := padStart 8 "0" (toString16 8 (fnv1aHash input) "").

(** The quotient as a rational number. *)
Definition fnv1aHashUnit (input : string) : Q := Qmake (fnv1aHash input) 4294967295.

(** ** Agent ids *)

(** [new TextEncoder().encode(str)]: UTF-8. *)
Fixpoint encodeUtf8 (s : string) : list Z :=
  match s with
  | EmptyString => []
  | String c rest =>
      (if code c <? 128 then [code c] else [Z.lor 192 (Z.shiftr (code c) 6); Z.lor 128 (Z.land (code c) 63)])
      ++ encodeUtf8 rest
  end.

Definition zeros (n : nat) : list Z := repeat 0 n.

(** [result[pos] ^= v & 0xff] on a byte array. *)
Definition xorByte (pos : nat) (v : Z) (result : list Z) : list Z :=
  alter (fun b => Z.lxor b (Z.land v 255)) pos result.

(** The mixing loop of the fallback: [h1], [h2], [result]. *)
Fixpoint mixLoop (i : nat) (encoded : list Z) (h1 h2 : Z) (result : list Z) : Z * Z * list Z :=
  match encoded with
  | [] => (h1, h2, result)
  | b :: rest =>
      let h1 := imul (xor32 h1 b) FNV_PRIME in
      let h2 := imul (xor32 h2 b) 2246822507 in
      let pos := (i mod 32)%nat in
      let result := xorByte pos (ushr h1 24) result in
      let result := xorByte ((pos + 8) mod 32)%nat (ushr h1 16) result in
      let result := xorByte ((pos + 16) mod 32)%nat (ushr h2 8) result in
      let result := xorByte ((pos + 24) mod 32)%nat (toInt32 h2) result in
      mixLoop (S i) rest h1 h2 result
  end.

(** The final pass over the 32 bytes, from [i] on. *)
Fixpoint finalPass (n i : nat) (h1 : Z) (result : list Z) : list Z :=
  match n with
  | O => result
  | S n =>
      let h1 := imul (xor32 h1 (default 0 (result !! i))) FNV_PRIME in
      finalPass n (S i) h1 (xorByte i (ushr h1 (Z.of_nat (i mod 24))) result)
  end.

Definition fallbackHash (encoded : list Z) : list Z :=
  let '(h1, _, result) := mixLoop 0 encoded 2166136261 16777619 (zeros 32) in
  finalPass 32 0 h1 result.

Section AgentIds.
Context (sha256 : option (list Z -> list Z)).

Definition agentIdFromString (str : string) : list Z :=
  let encoded := encodeUtf8 str in
  if (length encoded <=? 32)%nat then encoded ++ zeros (32 - length encoded)
  else match sha256 with
       | Some hash => hash encoded
       | None => fallbackHash encoded
       end.
End AgentIds.

(** ** Proof hashes *)

Definition BYTES_PER_ELEMENT : nat := 8.
Definition MAX_OUTPUT_ELEMENTS : nat := 4.

(** The inner loop of [bigintsToProofHash]: [n] bytes, the lowest first. *)
Fixpoint le_bytes (n : nat) (remaining : Z) : list Z :=
  match n with
  | O => []
  | S n => Z.land remaining 255 :: le_bytes n (Z.shiftr remaining 8)
  end.

Definition bigintsToProofHash (output : list Z) : list Z :=
  let used := take MAX_OUTPUT_ELEMENTS output in
  flat_map (le_bytes BYTES_PER_ELEMENT) used ++ zeros (32 - 8 * length used).

(** The inner loop of [proofHashToBigints], from byte [j] on. *)
Fixpoint le_value (j : nat) (bytes : list Z) (value : Z) : Z :=
  match bytes with
  | [] => value
  | b :: rest => le_value (S j) rest (Z.lor value (Z.shiftl b (Z.of_nat j * 8)))
  end.

(** The hash is taken to have its 32 bytes. *)
Definition proofHashToBigints (hash : list Z) : list Z :=
  map (fun i => le_value 0 (take BYTES_PER_ELEMENT (drop (i * BYTES_PER_ELEMENT) hash)) 0)
    (seq 0 MAX_OUTPUT_ELEMENTS).

Example encoding_example :
  bytesToHex [1; 171; 255] true = "0x01abff"%string /\ hexToBytes "0X1"%string = Err InvalidHexLength /\
  hexToBytes "0xAbFf"%string = Ok [171; 255] /\ fnv1aHash "hello" = 1335831723 /\
  fnv1aHashHex "hello" = "4f9f2cab"%string /\
  proofHashToBigints (bigintsToProofHash [1; 2 ^ 64 + 5; -1]) = [1; 5; 2 ^ 64 - 1; 0].
Proof. by vm_compute. Qed.

(** * Encodings: round trips, ranges, and the hash as specified

    Hex strings and proof hashes decode to what was encoded, agent ids are 32
    bytes and are compared exactly, and the hash on signed 32-bit numbers is
    FNV-1a modulo 2^32. *)
From Stdlib Require Import Ascii QArith_base.
From S2P Require Import Prelude JsString.
#[local] Open Scope Z_scope.

(** ** Hexadecimal strings *)

(** A property of the integers below a bound, by evaluation. *)
Lemma forall_below k (p : Z -> bool) : forallb p (map Z.of_nat (seq 0 k)) = true ->
  forall z, 0 <= z < Z.of_nat k -> p z = true.
Proof.
  rewrite forallb_forall. intros Hp z Hz. apply Hp. rewrite <-(Z2Nat.id z) by lia. apply in_map, in_seq. lia.
Qed.

Lemma hexDigit_val n : 0 <= n < 16 -> hexVal (hexDigit n) = Some n /\ Ascii.eqb (hexDigit n) "x" = false.
Proof.
  intros Hn. pose proof (forall_below 16 (fun n =>
    match hexVal (hexDigit n) with Some m => m =? n | None => false end && negb (Ascii.eqb (hexDigit n) "x"))
    ltac:(vm_compute; reflexivity) n Hn) as Hc. cbn beta in Hc. apply andb_true_iff in Hc as [Hv Hx].
  split; [|by apply negb_true_iff in Hx]. destruct (hexVal (hexDigit n)) as [m|]; [|done]. f_equal. lia.
Qed.

Lemma byte_nibbles b : 0 <= b < 256 -> 0 <= b / 16 < 16 /\ 0 <= b mod 16 < 16 /\ 16 * (b / 16) + b mod 16 = b.
Proof. intros Hb. Z.to_euclidean_division_equations. lia. Qed.

Lemma bytesToHex_cons b l : bytesToHex (b :: l) false = String (hexDigit (b / 16)) (String (hexDigit (b mod 16)) (bytesToHex l false)).
Proof. done. Qed.

Lemma bytesToHex_digits l : bytes_ok l ->
  sall isHex (bytesToHex l false) = true /\ Nat.even (String.length (bytesToHex l false)) = true /\
  hexPairs (bytesToHex l false) = l.
Proof.
  induction 1 as [|b l Hb _ (IH1 & IH2 & IH3)]; [done|]. rewrite bytesToHex_cons.
  destruct (byte_nibbles b Hb) as (H1 & H2 & H3). destruct (hexDigit_val _ H1) as [E1 _], (hexDigit_val _ H2) as [E2 _].
  cbn [sall String.length hexPairs Nat.even]. unfold isHex at 1 2. rewrite E1, E2, IH1, IH2, IH3. cbn [default andb].
  split_and!; [done|done|]. cbn. by rewrite H3.
Qed.

Lemma bytesToHex_no_prefix l : bytes_ok l -> startsWith (bytesToHex l false) "0x" = false.
Proof.
  intros Hl. destruct Hl as [|b l Hb _]; [done|]. rewrite bytesToHex_cons. cbn [startsWith].
  destruct (byte_nibbles b Hb) as (_ & H2 & _). destruct (hexDigit_val _ H2) as [_ E2].
  rewrite Ascii.eqb_sym, (Ascii.eqb_sym "x"), E2. apply andb_false_r.
Qed.

Lemma hexVal_range c v : hexVal c = Some v -> 0 <= v < 16 /\ hexDigit v = lower_char c.
Proof.
  pose proof (forall_ascii (fun c => match hexVal c with
    | Some v => (0 <=? v) && (v <? 16) && Ascii.eqb (hexDigit v) (lower_char c) | None => true end)
    ltac:(vm_compute; reflexivity) c) as Hc.
  intros Hv. cbn beta in Hc. rewrite Hv in Hc. rewrite !andb_true_iff, Ascii.eqb_eq in Hc.
  destruct Hc as [[? ?] ?]. split; [lia|done].
Qed.

Lemma hexPairs_lower s : sall isHex s = true -> Nat.even (String.length s) = true ->
  bytes_ok (hexPairs s) /\ bytesToHex (hexPairs s) false = toLowerCase s.
Proof.
  remember (String.length s) as n eqn:Hn. revert s Hn. induction n as [n IH] using lt_wf_ind.
  intros [|a [|b s]] -> Hh He; cbn [sall String.length Nat.even] in *; [by split; [constructor|]|done|].
  apply andb_true_iff in Hh as [Ha [Hb Hs]%andb_true_iff]. unfold isHex in Ha, Hb.
  destruct (hexVal a) as [va|] eqn:Ea; [|done]. destruct (hexVal b) as [vb|] eqn:Eb; [|done].
  destruct (hexVal_range _ _ Ea) as [Ra La], (hexVal_range _ _ Eb) as [Rb Lb].
  destruct (IH (String.length s) ltac:(lia) s eq_refl Hs He) as [IH1 IH2].
  assert (hexPairs (String a (String b s)) = 16 * va + vb :: hexPairs s) as -> by (cbn [hexPairs]; by rewrite Ea, Eb).
  split; [constructor; [lia|done]|].
  rewrite bytesToHex_cons, IH2. unfold toLowerCase. cbn [smap].
  replace ((16 * va + vb) / 16) with va by (Z.to_euclidean_division_equations; lia).
  replace ((16 * va + vb) mod 16) with vb by (Z.to_euclidean_division_equations; lia).
  by rewrite La, Lb.
Qed.

(** Hex round trips: every byte array is read back from its hex string, with
    or without the prefix; and every string that is read gives bytes whose hex
    string is the digits of the string in lower case. *)
Theorem hex_roundtrip :
  (forall (bytes : list Z) (prefix : bool), bytes_ok bytes -> hexToBytes (bytesToHex bytes prefix) = Ok bytes) /\
  (forall (hex : string) (bytes : list Z), hexToBytes hex = Ok bytes -> bytes_ok bytes /\
     bytesToHex bytes false = toLowerCase (if startsWith hex "0x" then sdrop 2 hex else hex)).
Proof.
  split.
  - intros bytes prefix Hb. destruct (bytesToHex_digits bytes Hb) as (H1 & H2 & H3). unfold hexToBytes.
    assert ((if startsWith (bytesToHex bytes prefix) "0x" then sdrop 2 (bytesToHex bytes prefix)
             else bytesToHex bytes prefix) = bytesToHex bytes false) as ->.
    { destruct prefix; [done|]. by rewrite bytesToHex_no_prefix. }
    rewrite H1, H2. unfold throw_if, mbind, result_bind. cbn [negb]. by rewrite H3.
  - intros hex bytes HF. unfold hexToBytes in HF. bind_ok. subst. apply hexPairs_lower; by apply negb_false_iff.
Qed.

(** ** Agent ids *)

Lemma lor_zero a b : Z.lor a b = 0 <-> a = 0 /\ b = 0.
Proof. apply Z.lor_eq_0_iff. Qed.

Lemma agentIdsEqual_spec a b : agentIdsEqual a b = true <-> a = b.
Proof.
  unfold agentIdsEqual. destruct (Nat.eqb_spec (length a) (length b)) as [Hl|Hl]; cbn [negb].
  2:{ split; [done|]. by intros ->. }
  rewrite Z.eqb_eq. cut (forall r, foldl (fun result ab => Z.lor result (Z.lxor ab.1 ab.2)) r (zip a b) = 0 <-> r = 0 /\ a = b).
  { intros Hc. rewrite Hc. tauto. }
  revert b Hl. induction a as [|x a IH]; intros [|y b] Hl r; try done; cbn [zip zip_with foldl].
  - tauto.
  - cbn in Hl. rewrite (IH b) by lia. cbn [fst snd]. rewrite lor_zero, Z.lxor_eq_0_iff. split.
    + intros [[-> ->] ->]. done.
    + intros [-> [= -> ->]]. done.
Qed.

Lemma lxor_mod a b n : 0 <= n -> Z.lxor a b mod 2 ^ n = Z.lxor (a mod 2 ^ n) (b mod 2 ^ n).
Proof.
  intros Hn. apply Z.bits_inj'. intros i Hi. rewrite Z.lxor_spec, !Z.testbit_mod_pow2, Z.lxor_spec by lia.
  by destruct (i <? n).
Qed.

Lemma byte_mod b : 0 <= b < 256 <-> b mod 2 ^ 8 = b.
Proof.
  change 256 with (2 ^ 8). split; [intros; by apply Z.mod_small|]. intros <-. apply Z.mod_pos_bound. lia.
Qed.

Lemma land_255 v : Z.land v 255 = v mod 2 ^ 8.
Proof. change 255 with (Z.ones 8). by apply Z.land_ones. Qed.

Lemma xorByte_ok pos v l : bytes_ok l -> bytes_ok (xorByte pos v l) /\ length (xorByte pos v l) = length l.
Proof.
  intros Hl. unfold xorByte. split; [|apply length_alter]. revert pos. induction Hl as [|b l Hb Hl IH]; intros pos.
  - destruct pos; constructor.
  - destruct pos as [|pos]; constructor; [|done|done|apply IH].
    apply byte_mod. apply byte_mod in Hb. by rewrite lxor_mod, Hb, land_255, Z.mod_mod by lia.
Qed.

Lemma encodeUtf8_ok s : bytes_ok (encodeUtf8 s).
Proof.
  induction s as [|c s IH]; [constructor|]. cbn [encodeUtf8]. apply Forall_app. split; [|done].
  pose proof (forall_ascii (fun c => forallb (fun b => (0 <=? b) && (b <? 256))
    (if code c <? 128 then [code c] else [Z.lor 192 (Z.shiftr (code c) 6); Z.lor 128 (Z.land (code c) 63)]))
    ltac:(vm_compute; reflexivity) c) as Hc. cbn beta in Hc. rewrite forallb_forall in Hc.
  apply Forall_forall. intros b Hb. apply list_elem_of_In, Hc in Hb. lia.
Qed.

Lemma mixLoop_ok i enc h1 h2 l : bytes_ok l ->
  bytes_ok (mixLoop i enc h1 h2 l).2 /\ length (mixLoop i enc h1 h2 l).2 = length l.
Proof.
  revert i h1 h2 l. induction enc as [|b enc IH]; intros i h1 h2 l Hl; [done|]. cbn [mixLoop].
  match goal with |- context [mixLoop _ enc _ _ (xorByte ?p4 ?v4 (xorByte ?p3 ?v3 (xorByte ?p2 ?v2 (xorByte ?p1 ?v1 l))))] =>
    destruct (xorByte_ok p1 v1 l Hl) as [B1 L1]; destruct (xorByte_ok p2 v2 _ B1) as [B2 L2];
    destruct (xorByte_ok p3 v3 _ B2) as [B3 L3]; destruct (xorByte_ok p4 v4 _ B3) as [B4 L4] end.
  match goal with |- bytes_ok (mixLoop ?j _ ?a1 ?a2 ?l4).2 /\ _ => destruct (IH j a1 a2 l4 B4) as [IH1 IH2] end.
  split; [done|]. by rewrite IH2, L4, L3, L2, L1.
Qed.

Lemma finalPass_ok n i h1 l : bytes_ok l -> bytes_ok (finalPass n i h1 l) /\ length (finalPass n i h1 l) = length l.
Proof.
  revert i h1 l. induction n as [|n IH]; intros i h1 l Hl; [done|]. cbn [finalPass].
  match goal with |- context [finalPass n ?j ?h (xorByte ?p ?v l)] =>
    destruct (xorByte_ok p v l Hl) as [B1 L1]; destruct (IH j h _ B1) as [IH1 IH2] end.
  split; [done|]. by rewrite IH2.
Qed.

Lemma zeros_ok n : bytes_ok (zeros n).
Proof. induction n; constructor; [lia|done]. Qed.

(** An agent id is 32 bytes, whatever the string and whether or not the
    host has SHA-256 (32 bytes long where it does), and two ids compare equal
    exactly when they are. *)
Theorem agent_id_is_32_bytes (sha256 : option (list Z -> list Z)) (str : string) (a b : list Z) :
  (forall hash, sha256 = Some hash -> forall l, bytes_ok (hash l) /\ length (hash l) = 32%nat) ->
  bytes_ok (agentIdFromString sha256 str) /\ length (agentIdFromString sha256 str) = 32%nat /\
  (agentIdsEqual a b = true <-> a = b).
Proof.
  intros Hsha. rewrite agentIdsEqual_spec. unfold agentIdFromString.
  destruct (Nat.leb_spec (length (encodeUtf8 str)) 32) as [Hle|Hgt].
  - split_and!; [apply Forall_app; split; [apply encodeUtf8_ok|apply zeros_ok]| |done].
    rewrite length_app. unfold zeros. rewrite repeat_length. lia.
  - destruct sha256 as [hash|]; [destruct (Hsha hash eq_refl (encodeUtf8 str)); by split_and!|].
    unfold fallbackHash. pose proof (mixLoop_ok 0 (encodeUtf8 str) 2166136261 16777619 (zeros 32) (zeros_ok 32)) as [B L].
    destruct (mixLoop _ _ _ _ _) as [[h1 h2] l]. destruct (finalPass_ok 32 0 h1 l B) as [B' L'].
    split_and!; [done| |done]. by rewrite L'.
Qed.

Lemma agent_id_is_32_bytes_witness :
  length (agentIdFromString (Some (fun l => take 32 (map (fun b => b mod 256) l ++ zeros 32))) "agent") = 32%nat.
Proof.
  refine (proj1 (proj2 (agent_id_is_32_bytes (Some (fun l => take 32 (map (fun b => b mod 256) l ++ zeros 32))) "agent" [] [] _))).
  intros hash [= <-] l. split.
  - apply Forall_take, Forall_app. split; [|apply zeros_ok].
    apply Forall_map, Forall_forall. intros x _. apply Z.mod_pos_bound. lia.
  - rewrite length_take, length_app. unfold zeros. rewrite repeat_length. lia.
Defined.

(** ** FNV-1a *)

Lemma toInt32_mod z : toInt32 z mod 2 ^ 32 = z mod 2 ^ 32.
Proof.
  unfold toInt32. destruct (_ <? _); [by apply Z.mod_mod|].
  replace (z mod 2 ^ 32 - 2 ^ 32) with (z mod 2 ^ 32 + (-1) * 2 ^ 32) by lia. rewrite Z.mod_add by lia.
  by apply Z.mod_mod.
Qed.

Lemma code_range c : 0 <= code c < 256.
Proof.
  pose proof (forall_ascii (fun c => (0 <=? code c) && (code c <? 256)) ltac:(vm_compute; reflexivity) c) as Hc.
  cbn beta in Hc. lia.
Qed.

Lemma fnv1aHash_range input : 0 <= fnv1aHash input < 2 ^ 32.
Proof. unfold fnv1aHash, ushr. rewrite Z.shiftr_0_r. apply Z.mod_pos_bound. lia. Qed.

(** The hash of the specification, on unsigned numbers. *)
Fixpoint fnv1a_spec (hash : Z) (input : string) : Z :=
  match input with
  | EmptyString => hash
  | String c rest => fnv1a_spec (Z.lxor hash (code c) * FNV_PRIME mod 2 ^ 32) rest
  end.

(** The hash computed with signed 32-bit operations is FNV-1a modulo 2^32,
    and an unsigned 32-bit number. *)
Theorem fnv1a_exact (input : string) :
  fnv1aHash input = fnv1a_spec FNV_OFFSET_BASIS input /\ 0 <= fnv1aHash input < 2 ^ 32.
Proof.
  split; [|apply fnv1aHash_range]. unfold fnv1aHash, ushr. rewrite Z.shiftr_0_r.
  cut (forall h, fnv1aLoop h input mod 2 ^ 32 = fnv1a_spec (h mod 2 ^ 32) input).
  { intros Hc. by rewrite Hc. }
  induction input as [|c input IH]; intros h; [done|]. cbn [fnv1aLoop fnv1a_spec]. rewrite IH. f_equal.
  unfold imul, xor32. rewrite toInt32_mod. rewrite <-Z.mul_mod_idemp_l by lia. f_equal. f_equal.
  rewrite lxor_mod, !toInt32_mod by lia. rewrite (Z.mod_small (code c)); [done|]. pose proof (code_range c). lia.
Qed.

(** The unit interval is closed: the largest hash is mapped to one. *)
Lemma fnv1aHashUnit_range input : (0 <= fnv1aHashUnit input <= 1)%Q.
Proof.
  destruct (fnv1aHash_range input) as [H0 H1]. unfold fnv1aHashUnit, Qle. cbn [Qnum Qden]. lia.
Qed.

Lemma fnv1aHashUnit_reaches_one : (fnv1aHashUnit "t5fayv1" == 1)%Q.
Proof. vm_compute. reflexivity. Qed.

(** ** Proof hashes *)

Fixpoint le_sum (bytes : list Z) : Z :=
  match bytes with [] => 0 | b :: rest => b + 256 * le_sum rest end.

Lemma lor_shift v b n : 0 <= n -> 0 <= v < 2 ^ n -> Z.lor v (Z.shiftl b n) = v + b * 2 ^ n.
Proof.
  intros Hn Hv. rewrite Z.shiftl_mul_pow2 by lia. rewrite <-Z.add_lor_land.
  assert (Z.land v (b * 2 ^ n) = 0) as ->; [|lia]. apply Z.bits_inj'. intros i Hi.
  rewrite Z.land_spec, Z.bits_0. destruct (Z.lt_ge_cases i n).
  - rewrite Z.mul_pow2_bits_low by lia. apply andb_false_r.
  - rewrite <-(Z.mod_small v (2 ^ n)) by lia. rewrite Z.mod_pow2_bits_high by lia. done.
Qed.

Lemma le_value_spec j bytes v : bytes_ok bytes -> 0 <= v < 2 ^ (Z.of_nat j * 8) ->
  le_value j bytes v = v + 2 ^ (Z.of_nat j * 8) * le_sum bytes.
Proof.
  intros Hb. revert j v. induction Hb as [|b bytes Hb _ IH]; intros j v Hv; cbn [le_value le_sum]; [lia|].
  rewrite lor_shift by lia.
  assert (2 ^ (Z.of_nat (S j) * 8) = 2 ^ (Z.of_nat j * 8) * 256) as Hp.
  { replace (Z.of_nat (S j) * 8) with (Z.of_nat j * 8 + 8) by lia. by rewrite Z.pow_add_r by lia. }
  rewrite IH by nia. rewrite Hp. lia.
Qed.

Lemma le_bytes_ok n z : bytes_ok (le_bytes n z) /\ length (le_bytes n z) = n.
Proof.
  revert z. induction n as [|n IH]; intros z; cbn [le_bytes]; [by split; [constructor|]|].
  destruct (IH (Z.shiftr z 8)) as [H1 H2]. split; [|cbn; by rewrite H2]. constructor; [|done].
  rewrite land_255. by apply Z.mod_pos_bound.
Qed.

Lemma le_sum_bytes n z : le_sum (le_bytes n z) = z mod 2 ^ (8 * Z.of_nat n).
Proof.
  revert z. induction n as [|n IH]; intros z; cbn [le_bytes le_sum]; [by rewrite Z.mod_1_r|].
  rewrite IH, land_255, Z.shiftr_div_pow2 by lia.
  replace (8 * Z.of_nat (S n)) with (8 + 8 * Z.of_nat n) by lia. rewrite Z.pow_add_r by lia.
  rewrite Z.rem_mul_r by lia. change (2 ^ 8) with 256. lia.
Qed.

Lemma le_bytes_sum bytes : bytes_ok bytes -> le_bytes (length bytes) (le_sum bytes) = bytes.
Proof.
  induction 1 as [|b bytes Hb _ IH]; [done|]. cbn [length le_sum le_bytes].
  rewrite land_255, Z.shiftr_div_pow2 by lia. change (2 ^ 8) with 256.
  replace ((b + 256 * le_sum bytes) mod 256) with b by (Z.to_euclidean_division_equations; lia).
  replace ((b + 256 * le_sum bytes) / 256) with (le_sum bytes) by (Z.to_euclidean_division_equations; lia).
  by rewrite IH.
Qed.

(** The elements a hash of 32 bytes stands for. *)
Lemma proofHash_elements hash : bytes_ok hash ->
  proofHashToBigints hash = map (fun i => le_sum (take 8 (drop (i * 8) hash))) (seq 0 4).
Proof.
  intros Hh. unfold proofHashToBigints. apply map_ext. intros i.
  rewrite le_value_spec; [|by apply Forall_take, Forall_drop|cbn; lia]. by rewrite Z.add_0_l, Z.mul_0_l, Z.pow_0_r, Z.mul_1_l.
Qed.

Definition pad4 (l : list Z) : list Z := l ++ zeros (4 - length l).

Lemma zero_elements k : flat_map (le_bytes 8) (zeros k) = zeros (8 * k).
Proof.
  induction k as [|k IH]; [done|]. change (zeros (S k)) with (0 :: zeros k). cbn [flat_map]. rewrite IH.
  replace (8 * S k)%nat with (8 + 8 * k)%nat by lia. unfold zeros. by rewrite repeat_app.
Qed.

Lemma proofHash_layout output :
  bigintsToProofHash output = flat_map (le_bytes 8) (pad4 (take 4 output)) /\ length (pad4 (take 4 output)) = 4%nat.
Proof.
  assert (length (take 4 output) <= 4)%nat as Hl by (rewrite length_take; lia).
  unfold bigintsToProofHash, pad4, MAX_OUTPUT_ELEMENTS. split.
  - rewrite flat_map_app, zero_elements. do 2 f_equal. lia.
  - rewrite length_app. unfold zeros. rewrite repeat_length. lia.
Qed.

(** Proof-hash round trips: packing integers and unpacking the hash gives the
    first four of them modulo 2^64, padded with zeros; and a hash of 32 bytes is
    packed back from the integers it unpacks to. *)
Theorem proof_hash_roundtrip :
  (forall output : list Z, length (bigintsToProofHash output) = 32%nat /\ bytes_ok (bigintsToProofHash output) /\
     proofHashToBigints (bigintsToProofHash output) = map (fun z => z mod 2 ^ 64) (pad4 (take 4 output))) /\
  (forall hash : list Z, length hash = 32%nat -> bytes_ok hash ->
     bigintsToProofHash (proofHashToBigints hash) = hash).
Proof.
  split.
  - intros output. destruct (proofHash_layout output) as [-> Hlen].
    destruct (pad4 (take 4 output)) as [|a [|b [|c [|d [|]]]]]; try discriminate Hlen. clear Hlen.
    cbn [flat_map]. rewrite app_nil_r.
    destruct (le_bytes_ok 8 a) as [Ba La], (le_bytes_ok 8 b) as [Bb Lb], (le_bytes_ok 8 c) as [Bc Lc], (le_bytes_ok 8 d) as [Bd Ld].
    assert (bytes_ok (le_bytes 8 a ++ le_bytes 8 b ++ le_bytes 8 c ++ le_bytes 8 d)) as HB.
    { unfold bytes_ok in *. rewrite !Forall_app. split_and!; assumption. }
    split_and!; [by rewrite !length_app, La, Lb, Lc, Ld|done|]. rewrite proofHash_elements by done. cbn [seq map].
    change (2 ^ 64) with (2 ^ (8 * Z.of_nat 8)). rewrite <-!le_sum_bytes. reflexivity.
  - intros hash Hlen HB. rewrite proofHash_elements by done.
    destruct (proofHash_layout (map (fun i => le_sum (take 8 (drop (i * 8) hash))) (seq 0 4))) as [-> _].
    unfold pad4. cbn [seq map take length Nat.sub zeros repeat app flat_map]. rewrite app_nil_r.
    assert (forall i, (i < 4)%nat -> le_bytes 8 (le_sum (take 8 (drop (i * 8) hash))) = take 8 (drop (i * 8) hash)) as Hle.
    { intros i Hi. assert (length (take 8 (drop (i * 8) hash)) = 8%nat) as Hl8 by (rewrite length_take, length_drop; lia).
      rewrite <-Hl8 at 1. apply le_bytes_sum. by apply Forall_take, Forall_drop. }
    rewrite !Hle by lia. cbn [Nat.mul Nat.add]. rewrite drop_0.
    do 33 (destruct hash as [|? hash]; [try discriminate Hlen|]); [reflexivity|discriminate Hlen].
Qed.
