(* ===== verification/WorkflowMutations.v ===== *)
(** * Workflow mutations (src/runtime/src/workflow/mutations.ts)

    The operators by which the optimizer derives candidate workflows from a
    baseline, and the generator of candidates. The seeded random generator is
    a 32-bit state that every use passes on. A deadline or task type that is
    not an integer stands for [NaN]; the numbers of the configuration are
    integers. [signature] is the data that is serialised, not its JSON text;
    the texts of the descriptions are left out. *)
From stdpp Require Import pretty.
From S2P Require Import Prelude JsMap JsString Graph WorkflowValidation Encoding.
#[local] Open Scope Z_scope.

Inductive WorkflowMutationOperator := edge_rewire | task_type | reward_policy | deadline_policy.

Inductive WorkflowMutationRecord :=
| RewiredParent (child parent : string) (dependencyType : Z)
| ChangedTaskType (task : string) (taskType : Z)
| ScaledRewards (scaleBps : Z)
| ShiftedDeadlines (offsetSeconds : Z).

Record WorkflowMutationCandidate := {
  cand_id : string;
  cand_definition : WorkflowDefinition;
  cand_mutations : list WorkflowMutationRecord;
}.

Record WorkflowMutationConfig := {
  cfg_seed : option Z;
  cfg_maxCandidates : option Z;
  cfg_includeEdgeRewire : option bool;
  cfg_includeTaskTypeMutations : option bool;
  cfg_includeRewardMutations : option bool;
  cfg_includeDeadlineMutations : option bool;
  cfg_allowedTaskTypes : option (list Z);
  cfg_rewardScaleBps : option (list Z);
  cfg_deadlineOffsetSeconds : option (list Z);
}.

Record ResolvedMutationConfig := {
  seed : Z;
  maxCandidates : Z;
  includeEdgeRewire : bool;
  includeTaskTypeMutations : bool;
  includeRewardMutations : bool;
  includeDeadlineMutations : bool;
  allowedTaskTypes : list Z;
  rewardScaleBps : list Z;
  deadlineOffsetSeconds : list Z;
}.

(** [config.xs && config.xs.length > 0 ? [...new Set(config.xs)] : defaults],
    then sorted. *)
Definition resolveList (l : option (list Z)) (defaults : list Z) : list Z :=
  sort_by Z.compare (match l with
    | None | Some [] => defaults
    | Some xs => foldl (fun acc x => if bool_decide (x ∈ acc) then acc else acc ++ [x]) [] xs
    end).

Definition resolveConfig (config : WorkflowMutationConfig) : ResolvedMutationConfig := {|
  seed := default 17 (cfg_seed config);
  maxCandidates := default 8 (cfg_maxCandidates config);
  includeEdgeRewire := default true (cfg_includeEdgeRewire config);
  includeTaskTypeMutations := default true (cfg_includeTaskTypeMutations config);
  includeRewardMutations := default true (cfg_includeRewardMutations config);
  includeDeadlineMutations := default true (cfg_includeDeadlineMutations config);
  allowedTaskTypes := resolveList (cfg_allowedTaskTypes config) [0; 1; 2; 3];
  rewardScaleBps := resolveList (cfg_rewardScaleBps config) [80; 90; 110; 125];
  deadlineOffsetSeconds := resolveList (cfg_deadlineOffsetSeconds config) [-3600; -900; 900; 3600];
|}.

(** ** The random generator *)

Definition initialState (seed : Z) : Z := let state := ushr seed 0 in if state =? 0 then 1 else state.

(** The state after a call; the call returns it divided by 2^32. *)
Definition nextState (state : Z) : Z := ushr (imul state 1664525 + 1013904223) 0.

(** [Math.floor(rng() * size)], on a size for which the product is exact. *)
Definition chooseIndex (state : Z) (size : nat) : nat * Z :=
  if (size <=? 1)%nat then (0%nat, state)
  else let state := nextState state in (Z.to_nat (state * Z.of_nat size / 2 ^ 32), state).

(** [l[chooseIndex(rng, l.length)]]. *)
Definition choose {A} (state : Z) (l : list A) : option A * Z :=
  let '(i, state) := chooseIndex state (length l) in (l !! i, state).

(** ** Signatures *)

Section mutations.
Context `{Collation}.

Definition compareEdges (a b : WorkflowEdge) : comparison :=
  match localeCompare (edge_from a) (edge_from b) with
  | Eq => match localeCompare (edge_to a) (edge_to b) with
          | Eq => edge_dependencyType a ?= edge_dependencyType b
          | c => c
          end
  | c => c
  end.

Definition stableSortEdges (edges : list WorkflowEdge) : list WorkflowEdge := sort_by compareEdges edges.

Definition taskSignature (task : TaskTemplate) : string * number * Z * number * number * number * bool :=
  (task_name task, task_taskType task, task_rewardAmount task, task_deadline task, task_maxWorkers task,
   default (NInt 0) (task_minReputation task), bool_decide (is_Some (task_constraintHash task))).

Definition signature (d : WorkflowDefinition)
    : list (string * number * Z * number * number * number * bool) * list (string * string * Z) :=
  (map taskSignature (sort_on task_name (wf_tasks d)),
   map (fun e => (edge_from e, edge_to e, edge_dependencyType e)) (stableSortEdges (wf_edges d))).

(** ** Descendants *)

Definition addChild (children : jsmap (list string)) (e : WorkflowEdge) : jsmap (list string) :=
  mset (edge_from e) (default [] (mget children (edge_from e)) ++ [edge_to e]) children.

Fixpoint descend (fuel : nat) (children : jsmap (list string)) (queue visited : list string) : list string :=
  match fuel, queue with
  | S fuel, next :: queue =>
      if has visited next then descend fuel children queue visited
      else descend fuel children (queue ++ default [] (mget children next)) (visited ++ [next])
  | _, _ => visited
  end.

(** Every edge enters the queue at most once, but for those of the root. *)
Definition collectDescendants (edges : list WorkflowEdge) (root : string) : list string :=
  let children := foldl addChild [] edges in
  descend (2 * length edges) children (default [] (mget children root)) [].

(** ** The operators *)

Definition with_edges (edges : list WorkflowEdge) (d : WorkflowDefinition) : WorkflowDefinition :=
  {| wf_id := wf_id d; wf_defaultRewardMint := wf_defaultRewardMint d; wf_tasks := wf_tasks d; wf_edges := edges |}.

Definition with_tasks (tasks : list TaskTemplate) (d : WorkflowDefinition) : WorkflowDefinition :=
  {| wf_id := wf_id d; wf_defaultRewardMint := wf_defaultRewardMint d; wf_tasks := tasks; wf_edges := wf_edges d |}.

Definition with_taskType (n : Z) (t : TaskTemplate) : TaskTemplate :=
  {| task_name := task_name t; task_requiredCapabilities := task_requiredCapabilities t;
     task_description := task_description t; task_rewardAmount := task_rewardAmount t;
     task_maxWorkers := task_maxWorkers t; task_deadline := task_deadline t; task_taskType := NInt n;
     task_constraintHash := task_constraintHash t; task_minReputation := task_minReputation t;
     task_rewardMint := task_rewardMint t |}.

Definition with_reward (n : Z) (t : TaskTemplate) : TaskTemplate :=
  {| task_name := task_name t; task_requiredCapabilities := task_requiredCapabilities t;
     task_description := task_description t; task_rewardAmount := n;
     task_maxWorkers := task_maxWorkers t; task_deadline := task_deadline t; task_taskType := task_taskType t;
     task_constraintHash := task_constraintHash t; task_minReputation := task_minReputation t;
     task_rewardMint := task_rewardMint t |}.

Definition with_deadline (n : number) (t : TaskTemplate) : TaskTemplate :=
  {| task_name := task_name t; task_requiredCapabilities := task_requiredCapabilities t;
     task_description := task_description t; task_rewardAmount := task_rewardAmount t;
     task_maxWorkers := task_maxWorkers t; task_deadline := n; task_taskType := task_taskType t;
     task_constraintHash := task_constraintHash t; task_minReputation := task_minReputation t;
     task_rewardMint := task_rewardMint t |}.

(** What an operator returns: a mutation attempt or null, and the state of the
    generator; or the exception of [validateWorkflow]. *)
Definition Attempt : Type := WR (option (WorkflowDefinition * WorkflowMutationRecord) * Z).

Definition checked (d : WorkflowDefinition) (m : WorkflowMutationRecord) (state : Z) : Attempt :=
  validateWorkflow d ;; Ok (Some (d, m), state).

(** One iteration of the loop over the children; [None] is [continue]. *)
Definition rewireChild (baseline : WorkflowDefinition) (names : list string) (child : string) (state : Z)
    : option Attempt :=
  let descendants := collectDescendants (wf_edges baseline) child in
  let validParents := List.filter (fun c => negb (String.eqb c child) && negb (has descendants c)) names in
  match choose state validParents with
  | (None, _) => None
  | (Some parent, state) =>
      let existing := mget (mof (map (fun e => (edge_to e, e)) (wf_edges baseline))) child in
      let nextEdges := List.filter (fun e => negb (String.eqb (edge_to e) child)) (wf_edges baseline) in
      let dependencyChoices := List.filter (fun v => negb (match existing with
        | Some e => String.eqb (edge_from e) parent && (edge_dependencyType e =? v)
        | None => false end)) [dep_Data; dep_Ordering; dep_Proof] in
      match choose state dependencyChoices with
      | (None, _) => None
      | (Some dependencyType, state) =>
          let definition := with_edges (stableSortEdges (nextEdges ++
            [{| edge_from := parent; edge_to := child; edge_dependencyType := dependencyType |}])) baseline in
          Some (checked definition (RewiredParent child parent dependencyType) state)
      end
  end.

(** [l[(start + i) % l.length]] for [i] from 0 on: the list rotated. *)
Definition rotate_from {A} (start : nat) (l : list A) : list A := drop start l ++ take start l.

Fixpoint firstAttempt {A} (f : A -> option Attempt) (state : Z) (l : list A) : Attempt :=
  match l with
  | [] => Ok (None, state)
  | x :: rest => match f x with None => firstAttempt f state rest | Some r => r end
  end.

Definition mutateEdgeRewire (baseline : WorkflowDefinition) (state : Z) : Attempt :=
  let names := sort_by String.compare (map task_name (wf_tasks baseline)) in
  if (length names <? 2)%nat then Ok (None, state) else
  let '(start, state) := chooseIndex state (length names) in
  firstAttempt (fun child => rewireChild baseline names child state) state (rotate_from start names).

Definition retypeTask (baseline : WorkflowDefinition) (config : ResolvedMutationConfig) (task : TaskTemplate)
    (state : Z) : option Attempt :=
  let alternatives := List.filter (fun c => negb (bool_decide (NInt c = task_taskType task))) (allowedTaskTypes config) in
  match choose state alternatives with
  | (None, _) => None
  | (Some nextType, state) =>
      let nextTasks := map (fun current =>
        if String.eqb (task_name current) (task_name task) then with_taskType nextType current else current)
        (wf_tasks baseline) in
      Some (checked (with_tasks nextTasks baseline) (ChangedTaskType (task_name task) nextType) state)
  end.

Definition mutateTaskType (baseline : WorkflowDefinition) (config : ResolvedMutationConfig) (state : Z) : Attempt :=
  let tasks := sort_on task_name (wf_tasks baseline) in
  if (length tasks =? 0)%nat then Ok (None, state) else
  let '(start, state) := chooseIndex state (length tasks) in
  firstAttempt (fun task => retypeTask baseline config task state) state (rotate_from start tasks).

(** [(task.rewardAmount * scale) / 100n]: the division of bigints truncates. *)
Definition scaledReward (scale : Z) (t : TaskTemplate) : Z := Z.quot (task_rewardAmount t * scale) 100.

Definition mutateRewardPolicy (baseline : WorkflowDefinition) (config : ResolvedMutationConfig) (state : Z) : Attempt :=
  let scales := List.filter (fun v => (v >? 0) && negb (v =? 100)) (rewardScaleBps config) in
  match choose state scales with
  | (None, _) => Ok (None, state)
  | (Some scaleBps, state) =>
      if existsb (fun t => negb (scaledReward scaleBps t =? task_rewardAmount t)) (wf_tasks baseline)
      then checked (with_tasks (map (fun t => with_reward (scaledReward scaleBps t) t) (wf_tasks baseline)) baseline)
             (ScaledRewards scaleBps) state
      else Ok (None, state)
  end.

(** The shifted deadline of a task, none for a task left as it is. [NaN] is
    not at most zero and stays [NaN], which differs from itself. *)
Definition shiftedDeadline (offset : Z) (t : TaskTemplate) : option number :=
  match task_deadline t with
  | NInt z => if z <=? 0 then None else Some (NInt (Z.max 0 (z + offset)))
  | NOther => Some NOther
  end.

Definition deadlineChanged (offset : Z) (t : TaskTemplate) : bool :=
  match shiftedDeadline offset t with
  | Some (NInt z) => negb (bool_decide (NInt z = task_deadline t))
  | Some NOther => true
  | None => false
  end.

Definition mutateDeadlinePolicy (baseline : WorkflowDefinition) (config : ResolvedMutationConfig) (state : Z) : Attempt :=
  let offsets := List.filter (fun v => negb (v =? 0)) (deadlineOffsetSeconds config) in
  match choose state offsets with
  | (None, _) => Ok (None, state)
  | (Some offsetSeconds, state) =>
      if existsb (deadlineChanged offsetSeconds) (wf_tasks baseline)
      then checked (with_tasks (map (fun t =>
             match shiftedDeadline offsetSeconds t with Some n => with_deadline n t | None => t end)
             (wf_tasks baseline)) baseline) (ShiftedDeadlines offsetSeconds) state
      else Ok (None, state)
  end.

(** ** The generator *)

Definition operatorsOf (config : ResolvedMutationConfig) : list WorkflowMutationOperator :=
  (if includeEdgeRewire config then [edge_rewire] else []) ++
  (if includeTaskTypeMutations config then [task_type] else []) ++
  (if includeRewardMutations config then [reward_policy] else []) ++
  (if includeDeadlineMutations config then [deadline_policy] else []).

Definition mutate (operator : WorkflowMutationOperator) (baseline : WorkflowDefinition)
    (config : ResolvedMutationConfig) (state : Z) : Attempt :=
  match operator with
  | edge_rewire => mutateEdgeRewire baseline state
  | task_type => mutateTaskType baseline config state
  | reward_policy => mutateRewardPolicy baseline config state
  | deadline_policy => mutateDeadlinePolicy baseline config state
  end.

Definition operatorName (operator : WorkflowMutationOperator) : string :=
  match operator with
  | edge_rewire => "edge_rewire" | task_type => "task_type"
  | reward_policy => "reward_policy" | deadline_policy => "deadline_policy"
  end.

Definition candidateOf (candidates : list WorkflowMutationCandidate) (operator : WorkflowMutationOperator)
    (d : WorkflowDefinition) (m : WorkflowMutationRecord) : WorkflowMutationCandidate := {|
  cand_id := ("candidate-" +:+ pretty (S (length candidates)) +:+ "-" +:+ operatorName operator)%string;
  cand_definition := d; cand_mutations := [m] |}.

(** The loop: [remaining] attempts are left before [maxAttempts]. *)
Fixpoint generate (remaining attempt : nat) (operators : list WorkflowMutationOperator)
    (baseline : WorkflowDefinition) (config : ResolvedMutationConfig) (state : Z)
    (candidates : list WorkflowMutationCandidate)
    (seen : list (list (string * number * Z * number * number * number * bool) * list (string * string * Z)))
    : WR (list WorkflowMutationCandidate) :=
  match remaining with
  | O => Ok candidates
  | S remaining =>
      if Z.of_nat (length candidates) >=? maxCandidates config then Ok candidates else
      match operators !! (attempt mod length operators)%nat with
      | None => generate remaining (S attempt) operators baseline config state candidates seen
      | Some operator =>
          '(result, state) ← mutate operator baseline config state;
          match result with
          | None => generate remaining (S attempt) operators baseline config state candidates seen
          | Some (d, m) =>
              if bool_decide (signature d ∈ seen)
              then generate remaining (S attempt) operators baseline config state candidates seen
              else generate remaining (S attempt) operators baseline config state
                     (candidates ++ [candidateOf candidates operator d m]) (seen ++ [signature d])
          end
      end
  end.

Definition generateWorkflowMutationCandidates (baseline : WorkflowDefinition) (config : WorkflowMutationConfig)
    : WR (list WorkflowMutationCandidate) :=
  validateWorkflow baseline ;;
  let resolved := resolveConfig config in
  let operators := operatorsOf resolved in
  if (length operators =? 0)%nat || (maxCandidates resolved <=? 0) then Ok []
  else
    let maxAttempts := Z.max (Z.of_nat (length operators) * maxCandidates resolved * 3) 8 in
    generate (Z.to_nat maxAttempts) 0 operators baseline resolved (initialState (seed resolved)) [] [signature baseline].

End mutations.
