(* ===== verification/WorkflowMutationsSpec.v ===== *)
(** * Workflow mutations: every candidate is valid

    From a valid baseline the generator never throws, and what it returns are
    valid workflows, each one mutation away from the baseline, with different
    signatures. The heart is the rewiring of an edge: a new parent that is not
    a descendant keeps the forest acyclic. *)
From S2P Require Import Prelude JsMap JsString Graph WorkflowValidation Encoding WorkflowMutations.
#[local] Open Scope Z_scope.

(** ** The random generator *)

Definition state_ok (s : Z) : Prop := 0 <= s < 2 ^ 32.

Lemma nextState_ok s : state_ok (nextState s).
Proof. unfold nextState, ushr, state_ok. rewrite Z.shiftr_0_r. apply Z.mod_pos_bound. lia. Qed.

Lemma initialState_ok s : state_ok (initialState s).
Proof.
  unfold initialState, state_ok, ushr. rewrite Z.shiftr_0_r.
  pose proof (Z.mod_pos_bound s (2 ^ 32) ltac:(lia)). destruct (_ =? 0) eqn:E; lia.
Qed.

Lemma chooseIndex_ok s size : state_ok s ->
  state_ok (chooseIndex s size).2 /\ ((0 < size)%nat -> ((chooseIndex s size).1 < size)%nat).
Proof.
  intros Hs. unfold chooseIndex. destruct (Nat.leb_spec size 1) as [Hl|Hl]; cbn [fst snd]; [split; [done|lia]|].
  pose proof (nextState_ok s) as Hn. split; [done|]. intros _. unfold state_ok in Hn.
  assert (0 <= nextState s * Z.of_nat size / 2 ^ 32 < Z.of_nat size); [|lia].
  split; [apply Z.div_pos; lia|apply Z.div_lt_upper_bound; nia].
Qed.

Lemma choose_ok {A} s (l : list A) : state_ok s ->
  state_ok (choose s l).2 /\ match (choose s l).1 with Some x => x ∈ l | None => l = [] end.
Proof.
  intros Hs. unfold choose. pose proof (chooseIndex_ok s (length l) Hs) as [H1 H2].
  destruct (chooseIndex s (length l)) as [i s']. cbn [fst snd] in *. split; [done|].
  destruct (l !! i) eqn:E; [by eapply list_elem_of_lookup_2|].
  apply lookup_ge_None in E. destruct l; [done|]. cbn [length] in *. lia.
Qed.

Ltac choose_case Hs :=
  match goal with |- context [choose ?s ?l] =>
    let H1 := fresh "Hst" in let H2 := fresh "Hin" in
    pose proof (choose_ok s l Hs) as [H1 H2]; destruct (choose s l) as [[?|] ?]; cbn [fst snd] in H1, H2 end.

(** ** Descendants *)

Section descendants.
Context (edges : list WorkflowEdge).

Definition childrenMap : jsmap (list string) := foldl addChild [] edges.

Lemma childrenMap_get u : default [] (mget childrenMap u) = children edges u.
Proof.
  unfold childrenMap. induction edges as [|e es IH] using rev_ind; [done|].
  rewrite foldl_snoc. unfold addChild at 1. rewrite mget_mset. unfold children. rewrite List.filter_app, map_app.
  cbn [List.filter map]. rewrite (String.eqb_sym (edge_from e) u). destruct (String.eqb_spec u (edge_from e)) as [->|Hne].
  - cbn [default map]. by rewrite IH.
  - cbn [map]. by rewrite app_nil_r, IH.
Qed.

(** Edges out of nodes not yet visited, each of which enters the queue once. *)
Definition unvisited (visited : list string) : nat :=
  length (List.filter (fun e => negb (has visited (edge_from e))) edges).

Lemma unvisited_snoc visited n : n ∉ visited ->
  (unvisited (visited ++ [n]) + length (children edges n) = unvisited visited)%nat.
Proof.
  intros Hn. unfold unvisited, children. rewrite length_map. induction edges as [|e es IH]; [done|]. cbn [List.filter].
  assert (has (visited ++ [n]) (edge_from e) = has visited (edge_from e) || String.eqb (edge_from e) n) as ->.
  { unfold has. rewrite existsb_app. cbn [existsb]. by rewrite orb_false_r. }
  destruct (String.eqb_spec (edge_from e) n) as [->|Hne]; [|rewrite orb_false_r].
  - rewrite orb_true_r. apply has_false in Hn. rewrite Hn. cbn [negb length]. lia.
  - destruct (has visited (edge_from e)); cbn [negb length]; lia.
Qed.

(** The visited nodes and the queue are descendants, and a visited node has its
    children visited or queued. *)
Record search_inv (root : string) (queue visited : list string) : Prop := {
  si_sound : forall x, x ∈ queue ++ visited -> tc (wedge edges) root x;
  si_root : forall x, wedge edges root x -> x ∈ queue ++ visited;
  si_closed : forall u x, u ∈ visited -> wedge edges u x -> x ∈ queue ++ visited;
}.

Lemma descend_exact fuel root queue visited :
  search_inv root queue visited -> (length queue + unvisited visited <= fuel)%nat ->
  forall x, x ∈ descend fuel childrenMap queue visited <-> tc (wedge edges) root x.
Proof.
  assert (forall visited, search_inv root [] visited -> forall x, x ∈ visited <-> tc (wedge edges) root x) as Hend.
  { intros vs [Hs Hr Hc] x. split; [apply Hs|]. intros Ht. clear Hs.
    induction Ht as [u x Hux|u y x Huy _ IH]; [by apply Hr|]. apply IH. intros z Hz. by apply (Hc y), Hz; apply Hr. }
  revert queue visited. induction fuel as [|fuel IH]; intros queue visited Hi Hf.
  { destruct queue; cbn in Hf; [|lia]. by apply Hend. }
  destruct queue as [|n queue]; [by apply Hend|]. cbn [descend length] in *. destruct Hi as [Hs Hr Hc].
  destruct (has visited n) eqn:Hv.
  - apply has_true in Hv. apply IH; [|lia]. split.
    + intros x Hx. apply Hs. set_solver.
    + intros x Hx. specialize (Hr x Hx). set_solver.
    + intros u x Hu Hx. specialize (Hc u x Hu Hx). set_solver.
  - apply has_false in Hv. rewrite childrenMap_get. apply IH.
    + split.
      * intros x Hx. assert (x ∈ n :: queue ++ visited \/ x ∈ children edges n) as [Hx'|Hx'] by set_solver; [by apply Hs|].
        apply elem_children in Hx'. eapply tc_r; [apply (Hs n); set_solver|done].
      * intros x Hx. specialize (Hr x Hx). set_solver.
      * intros u x Hu Hx. apply elem_of_app in Hu as [Hu|Hu%list_elem_of_singleton].
        -- specialize (Hc u x Hu Hx). set_solver.
        -- subst u. apply elem_children in Hx. set_solver.
    + rewrite length_app. pose proof (unvisited_snoc visited n Hv). lia.
Qed.

Lemma collectDescendants_exact root x : x ∈ collectDescendants edges root <-> tc (wedge edges) root x.
Proof.
  unfold collectDescendants. change (foldl addChild [] edges) with childrenMap. rewrite childrenMap_get.
  apply descend_exact.
  - split.
    + intros y Hy. rewrite app_nil_r in Hy. apply elem_children in Hy. by apply tc_once.
    + intros y Hy. rewrite app_nil_r. by apply elem_children.
    + intros u y Hu. by apply not_elem_of_nil in Hu.
  - assert (length (children edges root) <= length edges)%nat.
    { unfold children. rewrite length_map. apply List.filter_length_le. }
    assert (unvisited [] <= length edges)%nat by apply List.filter_length_le. lia.
Qed.

End descendants.

(** ** Validity *)

Lemma valid_same_names d tasks : map task_name tasks = names_of d -> valid_workflow d ->
  valid_workflow (with_tasks tasks d).
Proof.
  intros Hn [V1 V2 V3 V4 V5 V6]. assert (names_of (with_tasks tasks d) = names_of d) as Hn' by done.
  split; rewrite ?Hn'; try done.
  - cbn. intros ->. unfold names_of in Hn. by destruct (wf_tasks d).
  - cbn. assert (Forall (fun n => trim n <> ""%string) (map task_name tasks)) as HF.
    { rewrite Hn. unfold names_of. by apply List.Forall_map. }
    rewrite List.Forall_map in HF. exact HF.
Qed.

(** The edges after a new parent for a child. *)
Definition rewired (edges : list WorkflowEdge) (e : WorkflowEdge) : list WorkflowEdge :=
  List.filter (fun e' => negb (String.eqb (edge_to e') (edge_to e))) edges ++ [e].

Lemma elem_rewired edges e e' : e' ∈ rewired edges e <-> e' ∈ edges /\ edge_to e' <> edge_to e \/ e' = e.
Proof.
  unfold rewired. rewrite elem_of_app, elem_filter_bool, list_elem_of_singleton.
  destruct (String.eqb_spec (edge_to e') (edge_to e)); cbn [negb]; naive_solver.
Qed.

Lemma tc_mono {A} (R R' : relation A) x y : (forall u v, R u v -> R' u v) -> tc R x y -> tc R' x y.
Proof. intros HR. induction 1; eauto using tc. Qed.

(** A path that may take one more edge: it avoids it, or splits at its first
    and last use. *)
Lemma tc_one_more {A} (R : relation A) p c x y :
  tc (fun u v => R u v \/ u = p /\ v = c) x y -> tc R x y \/ rtc R x p /\ rtc R c y.
Proof.
  induction 1 as [x y [Hxy|[-> ->]]|x y z [Hxy|[-> ->]] _ [IH|[IH1 IH2]]]; eauto using tc, rtc, tc_rtc.
Qed.

Lemma rewired_acyclic edges e :
  (forall x, ~ tc (wedge edges) x x) -> edge_from e <> edge_to e -> ~ tc (wedge edges) (edge_to e) (edge_from e) ->
  forall x, ~ tc (wedge (rewired edges e)) x x.
Proof.
  intros Hac Hne Hnd x Hx.
  assert (tc (fun u v => wedge edges u v \/ u = edge_from e /\ v = edge_to e) x x) as Hx'.
  { refine (tc_mono _ _ _ _ _ Hx). intros u v (e' & He' & <- & <-). apply elem_rewired in He' as [[He' _]| ->]; [left|by right].
    by exists e'. }
  apply tc_one_more in Hx' as [Hx'|[H1 H2]]; [by eapply Hac|].
  assert (rtc (wedge edges) (edge_to e) (edge_from e)) as Hr by (etrans; eassumption).
  apply rtc_tc in Hr as [Hr|Hr]; [by rewrite Hr in Hne|done].
Qed.

Lemma rewired_parents edges e : NoDup (map edge_to edges) -> NoDup (map edge_to (rewired edges e)).
Proof.
  intros Hnd. unfold rewired. rewrite map_app. apply NoDup_app. split_and!.
  - clear -Hnd. induction edges as [|e' es IH]; [constructor|]. cbn [map] in Hnd. apply NoDup_cons in Hnd as [Hn Hnd].
    cbn [List.filter]. destruct (negb _); [|auto]. cbn [map]. constructor; [|auto].
    rewrite list_elem_of_fmap in *. intros (e1 & Heq & [He1 _]%elem_filter_bool). apply Hn. eauto.
  - intros x Hx. cbn [map]. rewrite list_elem_of_singleton. intros ->.
    rewrite list_elem_of_fmap in Hx. destruct Hx as (e1 & Heq & [_ He1]%elem_filter_bool).
    by rewrite Heq, String.eqb_refl in He1.
  - cbn. apply NoDup_singleton.
Qed.

Lemma valid_rewired d e edges :
  valid_workflow d -> edge_ok (names_of d) e -> ~ tc (wedge (wf_edges d)) (edge_to e) (edge_from e) ->
  edges ≡ₚ rewired (wf_edges d) e -> valid_workflow (with_edges edges d).
Proof.
  intros [V1 V2 V3 V4 V5 V6] He Hnd Hp. assert (names_of (with_edges edges d) = names_of d) as Hn by done.
  split; rewrite ?Hn; cbn [with_edges wf_tasks wf_edges]; try done.
  - rewrite Hp. unfold rewired. apply Forall_app. split; [|by apply Forall_singleton].
    apply Forall_forall. intros e' [He' _]%elem_filter_bool. by eapply Forall_forall in V4.
  - rewrite Hp. by apply rewired_parents.
  - intros x Hx. destruct He as (_ & _ & Hne & _). eapply (rewired_acyclic (wf_edges d) e V6 Hne Hnd x).
    refine (tc_mono _ _ _ _ _ Hx). intros u v (e' & He' & Hf & Ht). exists e'. by rewrite <-Hp.
Qed.

(** ** The operators *)

(** The definitions one mutation away from the baseline. *)
Definition mutation_of (baseline : WorkflowDefinition) (config : ResolvedMutationConfig)
    (m : WorkflowMutationRecord) (d : WorkflowDefinition) : Prop :=
  match m with
  | RewiredParent child parent t =>
      let e := {| edge_from := parent; edge_to := child; edge_dependencyType := t |} in
      edge_ok (names_of baseline) e /\ ~ tc (wedge (wf_edges baseline)) child parent /\ e ∉ wf_edges baseline /\
      exists edges, d = with_edges edges baseline /\ edges ≡ₚ rewired (wf_edges baseline) e
  | ChangedTaskType name n =>
      n ∈ allowedTaskTypes config /\
      (exists t, t ∈ wf_tasks baseline /\ task_name t = name /\ task_taskType t <> NInt n) /\
      d = with_tasks (map (fun t => if String.eqb (task_name t) name then with_taskType n t else t) (wf_tasks baseline)) baseline
  | ScaledRewards scale =>
      scale ∈ rewardScaleBps config /\ 0 < scale /\ scale <> 100 /\
      (exists t, t ∈ wf_tasks baseline /\ scaledReward scale t <> task_rewardAmount t) /\
      d = with_tasks (map (fun t => with_reward (Z.quot (task_rewardAmount t * scale) 100) t) (wf_tasks baseline)) baseline
  | ShiftedDeadlines offset =>
      offset ∈ deadlineOffsetSeconds config /\ offset <> 0 /\
      (exists t, t ∈ wf_tasks baseline /\ deadlineChanged offset t = true) /\
      d = with_tasks (map (fun t => match task_deadline t with
            | NInt z => if z <=? 0 then t else with_deadline (NInt (Z.max 0 (z + offset))) t
            | NOther => t end) (wf_tasks baseline)) baseline
  end.

Lemma with_deadline_id t : with_deadline (task_deadline t) t = t.
Proof. by destruct t. Qed.

Section operators.
Context `{Collation} (baseline : WorkflowDefinition) (config : ResolvedMutationConfig).
Hypothesis Hvalid : valid_workflow baseline.

(** An attempt that does not throw. *)
Definition attempt_ok (r : Attempt) : Prop :=
  exists o s, r = Ok (o, s) /\ state_ok s /\
    match o with None => True | Some (d, m) => mutation_of baseline config m d /\ valid_workflow d end.

Definition succeeded (r : Attempt) : Prop := match r with Ok (Some _, _) => True | _ => False end.

Lemma attempt_none s : state_ok s -> attempt_ok (Ok (None, s)).
Proof. intros Hs. by exists None, s. Qed.

Lemma checked_ok d m s : state_ok s -> mutation_of baseline config m d -> valid_workflow d ->
  attempt_ok (checked d m s) /\ succeeded (checked d m s).
Proof.
  intros Hs Hm Hv. unfold checked. pose proof (proj2 (validateWorkflow_valid d) Hv) as ->.
  unfold mbind, result_bind. split; [|done]. by exists (Some (d, m)), s.
Qed.

Lemma firstAttempt_ok {A} (f : A -> option Attempt) s l :
  state_ok s -> (forall x, x ∈ l -> match f x with None => True | Some r => attempt_ok r /\ succeeded r end) ->
  attempt_ok (firstAttempt f s l) /\ ((exists x, x ∈ l /\ f x <> None) -> succeeded (firstAttempt f s l)).
Proof.
  intros Hs. induction l as [|x l IH]; intros Hf; cbn [firstAttempt].
  { split; [by apply attempt_none|]. intros (x & Hx & _). by apply not_elem_of_nil in Hx. }
  assert (Hx := Hf x ltac:(constructor)). destruct (f x) as [r|] eqn:E; [tauto|].
  destruct IH as [I1 I2]; [intros y Hy; apply Hf; by constructor|]. split; [done|].
  intros (y & [->|Hy]%elem_of_cons & Hn); [done|]. eauto.
Qed.

Lemma elem_rotate {A} k (l : list A) x : x ∈ rotate_from k l <-> x ∈ l.
Proof.
  unfold rotate_from. rewrite elem_of_app. rewrite <-(take_drop k l) at 3. rewrite elem_of_app. tauto.
Qed.

Definition parentsFor (names : list string) (child : string) : list string :=
  List.filter (fun c => negb (String.eqb c child) && negb (has (collectDescendants (wf_edges baseline) child) c)) names.

Lemma elem_parentsFor names child p :
  p ∈ parentsFor names child <-> p ∈ names /\ p <> child /\ ~ tc (wedge (wf_edges baseline)) child p.
Proof.
  unfold parentsFor. rewrite elem_filter_bool, andb_true_iff, !negb_true_iff, has_false, collectDescendants_exact.
  by rewrite String.eqb_neq.
Qed.

(** The dependency types left to choose from. *)
Lemma dependency_choice (existing : option WorkflowEdge) parent :
  let choices := List.filter (fun v => negb (match existing with
    | Some e => String.eqb (edge_from e) parent && (edge_dependencyType e =? v) | None => false end))
    [dep_Data; dep_Ordering; dep_Proof] in
  choices <> [] /\ forall t, t ∈ choices -> (t = dep_Data \/ t = dep_Ordering \/ t = dep_Proof) /\
    forall e, existing = Some e -> edge_from e = parent -> edge_dependencyType e <> t.
Proof.
  intros choices. split.
  - intros Hc. assert (forall t, t ∈ [dep_Data; dep_Ordering; dep_Proof] -> exists e, existing = Some e /\ edge_dependencyType e = t) as Ht.
    { intros t Ht. assert (t ∉ choices) as Hn by (rewrite Hc; apply not_elem_of_nil). unfold choices in Hn.
      rewrite elem_filter_bool in Hn. destruct existing as [e|]; [|by destruct Hn].
      destruct (String.eqb (edge_from e) parent && (edge_dependencyType e =? t)) eqn:E; [|by destruct Hn].
      apply andb_true_iff in E as [_ E%Z.eqb_eq]. eauto. }
    destruct (Ht dep_Data) as (e & -> & H1); [set_solver|]. destruct (Ht dep_Ordering) as (e' & [= <-] & H2); [set_solver|].
    rewrite H1 in H2. done.
  - intros t [Hin Hp]%elem_filter_bool. split; [set_solver|]. intros e -> Hf Hd. rewrite Hf, Hd, String.eqb_refl, Z.eqb_refl in Hp. done.
Qed.

Lemma rewireChild_ok names child s : names ≡ₚ names_of baseline -> child ∈ names -> state_ok s ->
  match rewireChild baseline names child s with None => parentsFor names child = [] | Some r => attempt_ok r /\ succeeded r end.
Proof.
  intros Hnames Hchild Hs. unfold rewireChild.
  match goal with |- context [choose s ?l] => change l with (parentsFor names child) end.
  choose_case Hs; [|done]. match goal with |- context [match mget ?m child with _ => _ end] => set (existing := mget m child) end.
  apply elem_parentsFor in Hin as (Hp & Hne & Hnd). rename s0 into parent.
  destruct (dependency_choice existing parent) as [Hcne Hc]. choose_case Hst; [|by destruct (Hcne Hin)].
  apply Hc in Hin as [Ht Hnew]. rename z0 into t. apply checked_ok; [done| |].
  - cbn [mutation_of]. rewrite Hnames in Hp, Hchild. split_and!; try done.
    + intros Hin. refine (Hnew {| edge_from := parent; edge_to := child; edge_dependencyType := t |} _ eq_refl eq_refl). apply elem_mget.
      * apply mof_NoDup.
      * rewrite mof_id; [apply list_elem_of_fmap; eexists; split; [|exact Hin]; done|].
        unfold mkeys. rewrite map_map. apply Hvalid.
    + eexists. split; [done|]. unfold stableSortEdges. by rewrite sort_by_perm.
  - rewrite Hnames in Hp, Hchild. apply (valid_rewired _ {| edge_from := parent; edge_to := child; edge_dependencyType := t |});
      [done|done|done|apply sort_by_perm].
Qed.

Lemma two_names (names : list string) : NoDup names -> (2 <= length names)%nat -> exists a b, a ∈ names /\ b ∈ names /\ a <> b.
Proof.
  intros Hnd Hl. destruct names as [|a [|b names]]; cbn in Hl; [lia|lia|]. exists a, b.
  apply NoDup_cons in Hnd as [Ha _]. set_solver.
Qed.

Lemma mutateEdgeRewire_ok s : state_ok s -> attempt_ok (mutateEdgeRewire baseline s) /\
  ((2 <= length (wf_tasks baseline))%nat -> succeeded (mutateEdgeRewire baseline s)).
Proof.
  intros Hs. unfold mutateEdgeRewire. set (names := sort_by String.compare (map task_name (wf_tasks baseline))).
  assert (names ≡ₚ names_of baseline) as Hp by apply sort_by_perm.
  assert (length names = length (wf_tasks baseline)) as Hlen by (rewrite Hp; apply length_map).
  destruct (Nat.ltb_spec (length names) 2) as [Hl|Hl]; [split; [by apply attempt_none|lia]|].
  pose proof (chooseIndex_ok s (length names) Hs) as [Hst _]. destruct (chooseIndex s (length names)) as [start s']. cbn [snd] in Hst.
  destruct (firstAttempt_ok (fun child => rewireChild baseline names child s') s' (rotate_from start names) Hst) as [H1 H2].
  { intros x Hx%elem_rotate. pose proof (rewireChild_ok names x s' Hp Hx Hst). by destruct (rewireChild _ _ _ _). }
  split; [done|]. intros _. apply H2.
  destruct (two_names names) as (a & b & Ha & Hb & Hab); [rewrite Hp; apply Hvalid|done|].
  assert (forall x y, x ∈ names -> y ∈ names -> y <> x -> ~ tc (wedge (wf_edges baseline)) x y ->
    rewireChild baseline names x s' <> None) as Hsome.
  { intros x y Hx Hy Hne Hnd Hr. pose proof (rewireChild_ok names x s' Hp Hx Hst) as Hc. rewrite Hr in Hc.
    assert (y ∈ parentsFor names x) as Hin by (by apply elem_parentsFor). rewrite Hc in Hin. by apply not_elem_of_nil in Hin. }
  destruct (decide (b ∈ collectDescendants (wf_edges baseline) a)) as [Hd|Hd]; rewrite collectDescendants_exact in Hd.
  - exists b. split; [by apply elem_rotate|]. apply (Hsome b a); [done..|]. intros Hba.
    eapply (vw_acyclic _ Hvalid a). etrans; eassumption.
  - exists a. split; [by apply elem_rotate|]. by apply (Hsome a b).
Qed.

Lemma mutateTaskType_ok s : state_ok s -> attempt_ok (mutateTaskType baseline config s).
Proof.
  intros Hs. unfold mutateTaskType. set (tasks := sort_on task_name (wf_tasks baseline)).
  destruct (_ =? 0)%nat; [by apply attempt_none|].
  pose proof (chooseIndex_ok s (length tasks) Hs) as [Hst _]. destruct (chooseIndex s (length tasks)) as [start s']. cbn [snd] in Hst.
  apply firstAttempt_ok; [done|]. intros t Ht%elem_rotate. unfold tasks in Ht. rewrite sort_on_perm in Ht.
  unfold retypeTask. choose_case Hst; [|done]. apply elem_filter_bool in Hin as [Hin Hne].
  apply checked_ok; [done| |].
  - cbn [mutation_of]. split_and!; [done| |done]. exists t. split_and!; [done..|]. apply negb_true_iff, bool_decide_eq_false in Hne. congruence.
  - apply valid_same_names; [|done]. rewrite map_map. apply map_ext. intros t'. by destruct (String.eqb _ _).
Qed.

Lemma mutateRewardPolicy_ok s : state_ok s -> attempt_ok (mutateRewardPolicy baseline config s).
Proof.
  intros Hs. unfold mutateRewardPolicy. choose_case Hs; [|by apply attempt_none].
  apply elem_filter_bool in Hin as [Hin Hz]. destruct (existsb _ _) eqn:Ex; [|by apply attempt_none].
  apply existsb_exists in Ex as (t & Ht%list_elem_of_In & Hne). apply checked_ok; [done| |].
  - cbn [mutation_of]. split_and!; [done|lia|lia| |done]. exists t. split; [done|]. lia.
  - apply valid_same_names; [|done]. rewrite map_map. by apply map_ext.
Qed.

Lemma mutateDeadlinePolicy_ok s : state_ok s -> attempt_ok (mutateDeadlinePolicy baseline config s).
Proof.
  intros Hs. unfold mutateDeadlinePolicy. choose_case Hs; [|by apply attempt_none].
  apply elem_filter_bool in Hin as [Hin Hz]. destruct (existsb _ _) eqn:Ex; [|by apply attempt_none].
  apply existsb_exists in Ex as (t & Ht%list_elem_of_In & Hne). apply checked_ok; [done| |].
  - cbn [mutation_of]. split_and!; [done|lia| |]; [by exists t|]. f_equal. apply map_ext. intros t'. unfold shiftedDeadline.
    destruct (task_deadline t') as [d|] eqn:E; [by destruct (d <=? 0)|]. rewrite <-E. apply with_deadline_id.
  - apply valid_same_names; [|done]. rewrite map_map. apply map_ext. intros t'. by destruct (shiftedDeadline _ _).
Qed.

Lemma mutate_ok op s : state_ok s -> attempt_ok (mutate op baseline config s).
Proof.
  destruct op; cbn [mutate]; auto using mutateTaskType_ok, mutateRewardPolicy_ok, mutateDeadlinePolicy_ok.
  intros Hs. by apply mutateEdgeRewire_ok.
Qed.

(** ** The generator *)

Definition candidate_ok (c : WorkflowMutationCandidate) : Prop :=
  valid_workflow (cand_definition c) /\ exists m, cand_mutations c = [m] /\ mutation_of baseline config m (cand_definition c).

(** The candidates so far: valid, bounded, and seen with distinct signatures. *)
Definition candidates_ok (cands : list WorkflowMutationCandidate) : Prop :=
  Forall candidate_ok cands /\ Z.of_nat (length cands) <= Z.max 0 (maxCandidates config) /\
  NoDup (signature baseline :: map (fun c => signature (cand_definition c)) cands).

Lemma generate_ok remaining attempt operators s cands :
  state_ok s -> candidates_ok cands ->
  exists more, generate remaining attempt operators baseline config s cands
      (signature baseline :: map (fun c => signature (cand_definition c)) cands) = Ok (cands ++ more) /\
    candidates_ok (cands ++ more).
Proof.
  revert attempt s cands. induction remaining as [|remaining IH]; intros attempt s cands Hs Hc; cbn [generate].
  { exists []. by rewrite app_nil_r. }
  destruct (Z.geb_spec (Z.of_nat (length cands)) (maxCandidates config)) as [Hge|Hlt].
  { exists []. by rewrite app_nil_r. }
  destruct (operators !! _) as [op|]; [|by apply IH].
  destruct (mutate_ok op s Hs) as (o & s' & -> & Hs' & Ho). unfold mbind, result_bind.
  destruct o as [[d m]|]; [|by apply IH]. case_bool_decide as Hin; [by apply IH|].
  destruct Ho as [Hm Hv]. destruct Hc as (C1 & C2 & C3). set (c := candidateOf cands op d m).
  assert (candidates_ok (cands ++ [c])) as Hc'.
  { split_and!.
    - apply Forall_app. split; [done|]. apply Forall_singleton. split; [done|]. by exists m.
    - rewrite length_app. cbn [length]. lia.
    - rewrite map_app, app_comm_cons. apply NoDup_app. split_and!; [done| |apply NoDup_singleton].
      intros x Hx Hx'. cbn in Hx'. apply list_elem_of_singleton in Hx'. by subst x. }
  destruct (IH (S attempt) s' (cands ++ [c]) Hs' Hc') as (more & HG & Hok). rewrite map_app in HG.
  exists (c :: more). rewrite <-app_assoc in *. split; [exact HG|exact Hok].
Qed.

End operators.

(** A rewired workflow does not look like the baseline. *)
Lemma rewired_signature `{Collation} baseline config child parent t d :
  mutation_of baseline config (RewiredParent child parent t) d -> signature d <> signature baseline.
Proof.
  cbn [mutation_of]. intros (_ & _ & Hnew & edges & -> & Hp) Hsig. apply (f_equal snd) in Hsig. cbn [snd signature] in Hsig.
  cbn [with_edges wf_edges] in Hsig. apply Hnew.
  set (triple := fun e => (edge_from e, edge_to e, edge_dependencyType e)) in *.
  assert ((parent, child, t) ∈ map triple (stableSortEdges edges)) as Hin.
  { apply list_elem_of_fmap. exists {| edge_from := parent; edge_to := child; edge_dependencyType := t |}. split; [done|].
    unfold stableSortEdges. rewrite sort_by_elem_of, Hp. apply elem_rewired. by right. }
  rewrite Hsig in Hin. apply list_elem_of_fmap in Hin as ([f to' dt] & Heq & Hin). unfold triple in Heq. cbn in Heq.
  unfold stableSortEdges in Hin. rewrite sort_by_elem_of in Hin. by simplify_eq.
Qed.

Lemma edgeRewire_record `{Collation} baseline s o s' : mutateEdgeRewire baseline s = Ok (Some o, s') ->
  exists child parent t, o.2 = RewiredParent child parent t.
Proof.
  unfold mutateEdgeRewire. destruct (_ <? 2)%nat; [done|]. destruct (chooseIndex _ _) as [start s1]. cbv zeta.
  generalize (rotate_from start (sort_by String.compare (map task_name (wf_tasks baseline)))) as l.
  induction l as [|x l IH]; cbn [firstAttempt]; [done|]. unfold rewireChild at 1.
  destruct (choose s1 _) as [[p|] s2]; [|apply IH]. destruct (choose s2 _) as [[t|] s3]; [|apply IH].
  unfold checked. intros HF. bind_ok. simplify_eq. by exists x, p, t.
Qed.

Lemma generate_first `{Collation} baseline config n operators s :
  valid_workflow baseline -> (2 <= length (wf_tasks baseline))%nat -> 0 < maxCandidates config -> state_ok s ->
  exists c more, generate (S n) 0 (edge_rewire :: operators) baseline config s [] [signature baseline] = Ok (c :: more).
Proof.
  intros Hv Ht Hmax Hs. cbn [generate length]. destruct (Z.geb_spec (Z.of_nat 0) (maxCandidates config)) as [|_]; [lia|].
  rewrite Nat.Div0.mod_0_l. cbn [lookup list_lookup mutate].
  destruct (mutateEdgeRewire_ok baseline config Hv s Hs) as [(o & s' & E & Hs' & Ho) Hsucc]. specialize (Hsucc Ht).
  rewrite E in *. destruct o as [[d m]|]; [|done]. unfold mbind, result_bind. destruct Ho as [Hm Hd].
  destruct (edgeRewire_record _ _ _ _ E) as (c & p & t & Heq). cbn in Heq. subst m.
  rewrite bool_decide_false.
  2:{ rewrite list_elem_of_singleton. by eapply rewired_signature. }
  set (cand := candidateOf [] edge_rewire d (RewiredParent c p t)).
  destruct (generate_ok baseline config Hv n 1 (edge_rewire :: operators) s' [cand] Hs') as (more & HG & _).
  { split_and!; [|cbn [length]; lia|].
    - apply Forall_singleton. split; [done|]. by eexists.
    - cbn [map]. apply NoDup_cons. split; [|apply NoDup_singleton]. rewrite list_elem_of_singleton.
      intros Heq. symmetry in Heq. revert Heq. by eapply rewired_signature. }
  exists cand, more. exact HG.
Qed.

(** Workflow mutations: from a valid baseline and any configuration, the
    generator never throws; it returns at most [maxCandidates] workflows, each
    valid and one mutation away from the baseline (one task hung below a parent
    that is not among its descendants, one task of another type, the rewards
    scaled or the deadlines shifted), no two of the same signature and none of
    the baseline's; and at least one when edges may be rewired and there are
    two tasks. *)
Theorem mutation_candidates_valid `{Collation} (baseline : WorkflowDefinition) (config : WorkflowMutationConfig) :
  valid_workflow baseline ->
  exists cands, generateWorkflowMutationCandidates baseline config = Ok cands /\
    candidates_ok baseline (resolveConfig config) cands /\
    (includeEdgeRewire (resolveConfig config) = true -> 0 < maxCandidates (resolveConfig config) ->
     (2 <= length (wf_tasks baseline))%nat -> cands <> []).
Proof.
  intros Hv. unfold generateWorkflowMutationCandidates. rewrite (proj2 (validateWorkflow_valid baseline) Hv).
  unfold mbind, result_bind. set (rc := resolveConfig config).
  assert (candidates_ok baseline rc []) as H0 by (split_and!; [constructor|cbn; lia|apply NoDup_singleton]).
  destruct ((length (operatorsOf rc) =? 0)%nat || (maxCandidates rc <=? 0)) eqn:E.
  { exists []. split_and!; [done|done|]. intros He Hm _. unfold operatorsOf in E. rewrite He in E.
    apply orb_true_iff in E as [E|E]; [done|lia]. }
  destruct (generate_ok baseline rc Hv (Z.to_nat (Z.max (Z.of_nat (length (operatorsOf rc)) * maxCandidates rc * 3) 8)) 0 (operatorsOf rc)
    (initialState (seed rc)) [] (initialState_ok _) H0) as (cands & HG & Hok). cbn [map app] in *.
  exists cands. split_and!; [done|done|]. intros He Hm Ht. unfold operatorsOf in HG at 2. rewrite He in HG. cbn [app] in HG.
  match type of HG with generate ?n _ (_ :: ?ops) _ _ _ _ _ = _ =>
    destruct (generate_first baseline rc (pred n) ops (initialState (seed rc)) Hv Ht Hm (initialState_ok _)) as (c & more & HG');
    replace (S (pred n)) with n in HG' by lia end.
  rewrite HG in HG'. by simplify_eq.
Qed.

Definition ex_task (name : string) : TaskTemplate :=
  {| task_name := name; task_requiredCapabilities := 1; task_description := []; task_rewardAmount := 1000;
     task_maxWorkers := NInt 1; task_deadline := NInt 600; task_taskType := NInt 0; task_constraintHash := None;
     task_minReputation := None; task_rewardMint := None |}.

Definition ex_baseline : WorkflowDefinition :=
  {| wf_id := "wf"; wf_defaultRewardMint := None; wf_tasks := [ex_task "a"; ex_task "b"; ex_task "c"];
     wf_edges := [{| edge_from := "a"; edge_to := "b"; edge_dependencyType := 1 |}] |}.

Definition ex_config : WorkflowMutationConfig :=
  {| cfg_seed := Some 5; cfg_maxCandidates := Some 4; cfg_includeEdgeRewire := None; cfg_includeTaskTypeMutations := None;
     cfg_includeRewardMutations := None; cfg_includeDeadlineMutations := None; cfg_allowedTaskTypes := None;
     cfg_rewardScaleBps := None; cfg_deadlineOffsetSeconds := Some [-900] |}.

(** Shortening a deadline can remove it: zero stands for no deadline. *)
Lemma deadline_can_vanish : exists cands c,
  generateWorkflowMutationCandidates ex_baseline ex_config = Ok cands /\ c ∈ cands /\
  cand_mutations c = [ShiftedDeadlines (-900)] /\ Forall (fun t => task_deadline t = NInt 0) (wf_tasks (cand_definition c)).
Proof.
  eexists _, _. split_and!; [vm_compute; reflexivity|apply list_elem_of_lookup_2 with 3%nat; reflexivity|reflexivity|].
  repeat constructor.
Qed.

Lemma mutation_candidates_valid_witness : valid_workflow ex_baseline /\
  exists cands, generateWorkflowMutationCandidates ex_baseline ex_config = Ok cands /\ cands <> [].
Proof.
  assert (valid_workflow ex_baseline) as Hv by (apply validateWorkflow_valid; reflexivity). split; [exact Hv|].
  destruct (mutation_candidates_valid ex_baseline ex_config Hv) as (cands & HG & _ & Hne).
  exists cands. split; [exact HG|]. apply Hne; [reflexivity|reflexivity|cbn; lia].
Defined.
