(* ===== verification/MemoryBackend.v ===== *)
(** * In-memory backend (src/runtime/src/memory/in-memory/backend.ts)

    Conversation threads, transcripts and key-value pairs. Every operation is
    a transition of the state of the backend; the readings of the clock
    ([Date.now()]) and the fresh ids ([randomUUID()]) are arguments. Values and
    metadata of unknown type are opaque strings. The helpers of
    src/runtime/src/memory/transcript.ts are included. *)
From S2P Require Import Prelude JsMap JsString.
#[local] Open Scope Z_scope.

Inductive MemoryRole := rSystem | rUser | rAssistant | rTool.

#[export] Instance MemoryRole_eq_dec : EqDecision MemoryRole.
Proof. solve_decision. Defined.

Record MemoryEntry := {
  e_id : string;
  e_sessionId : string;
  e_role : MemoryRole;
  e_content : string;
  e_toolCallId : option string;
  e_toolName : option string;
  e_timestamp : Z;
  e_taskPda : option string;
  e_metadata : option string;
  e_workspaceId : option string;
  e_agentId : option string;
  e_userId : option string;
  e_worldId : option string;
  e_channel : option string;
}.

Record AddEntryOptions := {
  o_sessionId : string;
  o_role : MemoryRole;
  o_content : string;
  o_toolCallId : option string;
  o_toolName : option string;
  o_taskPda : option string;
  o_metadata : option string;
  o_ttlMs : option Z;
  o_workspaceId : option string;
  o_agentId : option string;
  o_userId : option string;
  o_worldId : option string;
  o_channel : option string;
}.

Inductive Order := asc | desc.

Record MemoryQuery := {
  q_sessionId : option string;
  q_taskPda : option string;
  q_after : option Z;
  q_before : option Z;
  q_role : option MemoryRole;
  q_limit : option Z;
  q_order : option Order;
  q_workspaceId : option string;
  q_agentId : option string;
  q_userId : option string;
  q_worldId : option string;
}.

(** A stored entry: the entry with its internal field [_expiresAt]. *)
Record Stored := { entry : MemoryEntry; expiry : option Z }.

Record TranscriptEvent := {
  te_version : Z;
  te_streamId : string;
  te_seq : Z;
  te_eventId : string;
  te_kind : string;
  te_payload : string;
  te_timestamp : Z;
  te_metadata : option string;
  te_dedupeKey : option string;
}.

Record TranscriptEventInput := {
  ti_version : option Z;
  ti_eventId : string;
  ti_kind : string;
  ti_payload : string;
  ti_timestamp : option Z;
  ti_metadata : option string;
  ti_dedupeKey : option string;
}.

Record TranscriptLoadOptions := {
  lo_afterSeq : option Z;
  lo_limit : option Z;
  lo_order : option Order;
}.

Record KVEntry := { kv_value : string; expiresAt : option Z }.

Record InMemoryBackend := {
  threads : jsmap (list Stored);
  transcripts : jsmap (list TranscriptEvent);
  kv : jsmap KVEntry;
  defaultTtlMs : Z;
  maxEntriesPerSession : Z;
  maxTotalEntries : Z;
  totalEntries : Z;
  closed : bool;
}.

(** [Diverges] marks a loop that does not end. *)
Inductive memory_error := BackendClosed | Diverges.

Notation M := (ST InMemoryBackend memory_error).

Definition newBackend (defaultTtl maxPerSession maxTotal : option Z) : InMemoryBackend := {|
  threads := []; transcripts := []; kv := [];
  defaultTtlMs := default 0 defaultTtl; maxEntriesPerSession := default 1000 maxPerSession;
  maxTotalEntries := default 100000 maxTotal; totalEntries := 0; closed := false |}.

Definition with_threads (ts : jsmap (list Stored)) (total : Z) (b : InMemoryBackend) : InMemoryBackend := {|
  threads := ts; transcripts := transcripts b; kv := kv b; defaultTtlMs := defaultTtlMs b;
  maxEntriesPerSession := maxEntriesPerSession b; maxTotalEntries := maxTotalEntries b;
  totalEntries := total; closed := closed b |}.

Definition with_transcripts (ts : jsmap (list TranscriptEvent)) (b : InMemoryBackend) : InMemoryBackend := {|
  threads := threads b; transcripts := ts; kv := kv b; defaultTtlMs := defaultTtlMs b;
  maxEntriesPerSession := maxEntriesPerSession b; maxTotalEntries := maxTotalEntries b;
  totalEntries := totalEntries b; closed := closed b |}.

Definition with_kv (m : jsmap KVEntry) (b : InMemoryBackend) : InMemoryBackend := {|
  threads := threads b; transcripts := transcripts b; kv := m; defaultTtlMs := defaultTtlMs b;
  maxEntriesPerSession := maxEntriesPerSession b; maxTotalEntries := maxTotalEntries b;
  totalEntries := totalEntries b; closed := closed b |}.

Definition ensureOpen : M unit := b ← st_get; st_throw_if (closed b) BackendClosed.

(** A filter that is set: [undefined] and the empty string are not. *)
Definition truthy (s : option string) : option string :=
  match s with Some EmptyString => None | _ => s end.

(** ** Threads *)

Definition entryOf (id : string) (now : Z) (o : AddEntryOptions) : MemoryEntry := {|
  e_id := id; e_sessionId := o_sessionId o; e_role := o_role o; e_content := o_content o;
  e_toolCallId := o_toolCallId o; e_toolName := o_toolName o; e_timestamp := now; e_taskPda := o_taskPda o;
  e_metadata := o_metadata o; e_workspaceId := o_workspaceId o; e_agentId := o_agentId o;
  e_userId := o_userId o; e_worldId := o_worldId o; e_channel := o_channel o |}.

(** [while (thread.length >= max) { thread.shift(); total-- }]. On the empty
    array [shift] does nothing: with a limit that is not positive the loop
    never ends. *)
Fixpoint evictSession (max : Z) (thread : list Stored) (total : Z) : option (list Stored * Z) :=
  if Z.of_nat (length thread) >=? max
  then match thread with [] => None | _ :: rest => evictSession max rest (total - 1) end
  else Some (thread, total).

(** The session of the oldest first entry, the first of several. *)
Definition oldestStep (acc : option (Z * string)) (kv : string * list Stored) : option (Z * string) :=
  match kv.2 with
  | [] => acc
  | s :: _ =>
      let t := e_timestamp (entry s) in
      match acc with
      | Some (oldestTime, _) => if t <? oldestTime then Some (t, kv.1) else acc
      | None => Some (t, kv.1)
      end
  end.

Definition oldestSession (ts : jsmap (list Stored)) : option string := snd <$> foldl oldestStep None ts.

(** [if (oldestSession)]: a session named by the empty string is not evicted. *)
Definition evictOldest (ts : jsmap (list Stored)) (total : Z) : jsmap (list Stored) * Z :=
  match truthy (oldestSession ts) with
  | None => (ts, total)
  | Some session =>
      match default [] (mget ts session) with
      | [] | [_] => (mdel session ts, total - 1)
      | _ :: rest => (mset session rest ts, total - 1)
      end
  end.

(** [thread] is the array of the session in the map. When [evictOldest]
    removes the session from the map the array is not reachable any more, and
    what is pushed to it is lost. *)
Definition addEntry (id : string) (now : Z) (options : AddEntryOptions) : M MemoryEntry :=
  ensureOpen ;;
  b ← st_get;
  let ttl := default (defaultTtlMs b) (o_ttlMs options) in
  let e := entryOf id now options in
  let stored := {| entry := e; expiry := if ttl >? 0 then Some (now + ttl) else None |} in
  let session := o_sessionId options in
  let thread := default [] (mget (threads b) session) in
  match evictSession (maxEntriesPerSession b) thread (totalEntries b) with
  | None => st_throw Diverges
  | Some (thread, total) =>
      let ts := mset session thread (threads b) in
      let '(ts, total) := if total >=? maxTotalEntries b then evictOldest ts total else (ts, total) in
      let ts := match mget ts session with Some thread => mset session (thread ++ [stored]) ts | None => ts end in
      st_put (with_threads ts (total + 1) b) ;;
      mret e
  end.

Definition isExpired (now : Z) (s : Stored) : bool :=
  match expiry s with Some t => t <=? now | None => false end.

Definition alive (now : Z) (thread : list Stored) : list Stored := List.filter (fun s => negb (isExpired now s)) thread.

(** [l.slice(-n)] for a positive [n]. *)
Definition lastN {A} (n : Z) (l : list A) : list A := drop (length l - Z.to_nat n) l.

Definition getThread (sessionId : string) (limit : option Z) (now : Z) : M (list MemoryEntry) :=
  ensureOpen ;;
  b ← st_get;
  match mget (threads b) sessionId with
  | None => mret []
  | Some thread =>
      let live := alive now thread in
      mret (map entry (match limit with
        | Some n => if n >? 0 then lastN n live else live
        | None => live
        end))
  end.

Definition matchesText (filter field : option string) : bool :=
  match truthy filter with Some s => bool_decide (field = Some s) | None => true end.

Definition matchesQuery (query : MemoryQuery) (e : MemoryEntry) : bool :=
  matchesText (q_taskPda query) (e_taskPda e) &&
  (match q_after query with Some t => negb (e_timestamp e <=? t) | None => true end) &&
  (match q_before query with Some t => negb (e_timestamp e >=? t) | None => true end) &&
  (match q_role query with Some r => bool_decide (e_role e = r) | None => true end) &&
  matchesText (q_workspaceId query) (e_workspaceId e) &&
  matchesText (q_agentId query) (e_agentId e) &&
  matchesText (q_userId query) (e_userId e) &&
  matchesText (q_worldId query) (e_worldId e).

Definition byTimestamp (order : Order) (a b : MemoryEntry) : comparison :=
  match order with
  | asc => e_timestamp a ?= e_timestamp b
  | desc => e_timestamp b ?= e_timestamp a
  end.

Definition threadsToScan (query : MemoryQuery) (ts : jsmap (list Stored)) : list (list Stored) :=
  match truthy (q_sessionId query) with
  | Some s => match mget ts s with Some thread => [thread] | None => [] end
  | None => mvals ts
  end.

Definition query (q : MemoryQuery) (now : Z) : M (list MemoryEntry) :=
  ensureOpen ;;
  b ← st_get;
  let results := concat (map (fun thread => List.filter (matchesQuery q) (map entry (alive now thread)))
    (threadsToScan q (threads b))) in
  let results := sort_by (byTimestamp (default asc (q_order q))) results in
  mret (match q_limit q with
    | Some n => if n >? 0 then take (Z.to_nat n) results else results
    | None => results
    end).

Definition deleteThread (sessionId : string) : M Z :=
  ensureOpen ;;
  b ← st_get;
  match mget (threads b) sessionId with
  | None => mret 0
  | Some thread =>
      let count := Z.of_nat (length thread) in
      st_put (with_threads (mdel sessionId (threads b)) (totalEntries b - count) b) ;;
      mret count
  end.

Definition withPrefix (prefix : option string) (l : list string) : list string :=
  match truthy prefix with Some p => List.filter (fun s => startsWith s p) l | None => l end.

Definition listSessions (prefix : option string) : M (list string) :=
  ensureOpen ;;
  b ← st_get;
  mret (withPrefix prefix (mkeys (threads b))).

(** ** Transcripts *)

Definition TRANSCRIPT_EVENT_VERSION : Z := 1.

Definition materializeTranscriptEvent (streamId : string) (seq : Z) (now : Z) (input : TranscriptEventInput)
    : TranscriptEvent := {|
  te_version := default TRANSCRIPT_EVENT_VERSION (ti_version input); te_streamId := streamId; te_seq := seq;
  te_eventId := ti_eventId input; te_kind := ti_kind input; te_payload := ti_payload input;
  te_timestamp := default now (ti_timestamp input); te_metadata := ti_metadata input;
  te_dedupeKey := ti_dedupeKey input |}.

Definition findEvent (eventId : string) (stream : list TranscriptEvent) : option TranscriptEvent :=
  List.find (fun c => String.eqb (te_eventId c) eventId) stream.

Fixpoint appendEvents (streamId : string) (now : Z) (nextSeq : Z) (stream : list TranscriptEvent)
    (events : list TranscriptEventInput) (appended : list TranscriptEvent) : list TranscriptEvent * list TranscriptEvent :=
  match events with
  | [] => (stream, appended)
  | event :: rest =>
      match findEvent (ti_eventId event) stream with
      | Some existing => appendEvents streamId now nextSeq stream rest (appended ++ [existing])
      | None =>
          let nextSeq := nextSeq + 1 in
          let stored := materializeTranscriptEvent streamId nextSeq now event in
          appendEvents streamId now nextSeq (stream ++ [stored]) rest (appended ++ [stored])
      end
  end.

Definition lastSeq (stream : list TranscriptEvent) : Z := match last stream with Some e => te_seq e | None => 0 end.

Definition appendTranscript (streamId : string) (events : list TranscriptEventInput) (now : Z) : M (list TranscriptEvent) :=
  ensureOpen ;;
  b ← st_get;
  let stream := default [] (mget (transcripts b) streamId) in
  let '(stream, appended) := appendEvents streamId now (lastSeq stream) stream events [] in
  st_put (with_transcripts (mset streamId stream (transcripts b)) b) ;;
  mret appended.

Definition applyTranscriptLoadOptions (events : list TranscriptEvent) (options : TranscriptLoadOptions)
    : list TranscriptEvent :=
  let filtered := List.filter (fun e => match lo_afterSeq options with Some n => te_seq e >? n | None => true end) events in
  let ordered := match default asc (lo_order options) with
    | desc => sort_by (fun a b => te_seq b ?= te_seq a) filtered
    | asc => filtered
    end in
  match lo_limit options with
  | Some n => if n >? 0 then take (Z.to_nat n) ordered else ordered
  | None => ordered
  end.

Definition loadTranscript (streamId : string) (options : TranscriptLoadOptions) : M (list TranscriptEvent) :=
  ensureOpen ;;
  b ← st_get;
  mret (applyTranscriptLoadOptions (default [] (mget (transcripts b) streamId)) options).

Definition deleteTranscript (streamId : string) : M Z :=
  ensureOpen ;;
  b ← st_get;
  match mget (transcripts b) streamId with
  | None => mret 0
  | Some stream =>
      st_put (with_transcripts (mdel streamId (transcripts b)) b) ;;
      mret (Z.of_nat (length stream))
  end.

Definition listTranscriptStreams (prefix : option string) : M (list string) :=
  ensureOpen ;;
  b ← st_get;
  mret (withPrefix prefix (mkeys (transcripts b))).

(** ** Key-value pairs *)

Definition kvSet (key value : string) (ttlMs : option Z) (now : Z) : M unit :=
  ensureOpen ;;
  b ← st_get;
  let ttl := default (defaultTtlMs b) ttlMs in
  st_put (with_kv (mset key {| kv_value := value; expiresAt := if ttl >? 0 then Some (now + ttl) else None |} (kv b)) b).

(** [entry.expiresAt && entry.expiresAt <= now]; zero is falsy. *)
Definition kvExpired (now : Z) (e : KVEntry) : bool :=
  match expiresAt e with Some t => negb (t =? 0) && (t <=? now) | None => false end.

Definition kvGet (key : string) (now : Z) : M (option string) :=
  ensureOpen ;;
  b ← st_get;
  match mget (kv b) key with
  | None => mret None
  | Some e => if kvExpired now e then st_put (with_kv (mdel key (kv b)) b) ;; mret None else mret (Some (kv_value e))
  end.

Definition kvDelete (key : string) : M bool :=
  ensureOpen ;;
  b ← st_get;
  st_put (with_kv (mdel key (kv b)) b) ;;
  mret (mhas (kv b) key).

Definition kvHas (key : string) (now : Z) : M bool :=
  ensureOpen ;;
  b ← st_get;
  match mget (kv b) key with
  | None => mret false
  | Some e => if kvExpired now e then st_put (with_kv (mdel key (kv b)) b) ;; mret false else mret true
  end.

Definition listKeys (prefix : option string) (now : Z) : M (list string) :=
  ensureOpen ;;
  b ← st_get;
  let live := List.filter (fun kv => negb (kvExpired now kv.2)) (kv b) in
  st_put (with_kv live b) ;;
  mret (withPrefix prefix (mkeys live)).

(** ** Lifecycle *)

Definition wipe (isClosed : bool) (b : InMemoryBackend) : InMemoryBackend := {|
  threads := []; transcripts := []; kv := []; defaultTtlMs := defaultTtlMs b;
  maxEntriesPerSession := maxEntriesPerSession b; maxTotalEntries := maxTotalEntries b;
  totalEntries := 0; closed := isClosed |}.

Definition clear : M unit := ensureOpen ;; st_modify (wipe false).
Definition close : M unit := st_modify (wipe true).
Definition healthCheck : M bool := b ← st_get; mret (negb (closed b)).

(** * In-memory backend: bounds, transcripts and keys

    The backend holds bounded threads, numbers the events of a stream without
    gaps, and its key-value pairs behave as a map whose pairs expire. *)
From S2P Require Import Prelude JsMap JsString.
#[local] Open Scope Z_scope.

(** ** Operations *)

Inductive Op :=
| AddEntry (id : string) (now : Z) (o : AddEntryOptions)
| GetThread (session : string) (limit : option Z) (now : Z)
| Query (q : MemoryQuery) (now : Z)
| DeleteThread (session : string)
| ListSessions (prefix : option string)
| AppendTranscript (stream : string) (events : list TranscriptEventInput) (now : Z)
| LoadTranscript (stream : string) (o : TranscriptLoadOptions)
| DeleteTranscript (stream : string)
| ListTranscriptStreams (prefix : option string)
| Set_ (key value : string) (ttl : option Z) (now : Z)
| Get (key : string) (now : Z)
| Delete (key : string)
| Has (key : string) (now : Z)
| ListKeys (prefix : option string) (now : Z)
| Clear
| Close.

(** The state after an operation. *)
Definition run (b : InMemoryBackend) (op : Op) : InMemoryBackend :=
  match op with
  | AddEntry id now o => (addEntry id now o b).1
  | GetThread s l now => (getThread s l now b).1
  | Query q now => (query q now b).1
  | DeleteThread s => (deleteThread s b).1
  | ListSessions p => (listSessions p b).1
  | AppendTranscript s es now => (appendTranscript s es now b).1
  | LoadTranscript s o => (loadTranscript s o b).1
  | DeleteTranscript s => (deleteTranscript s b).1
  | ListTranscriptStreams p => (listTranscriptStreams p b).1
  | Set_ k v ttl now => (kvSet k v ttl now b).1
  | Get k now => (kvGet k now b).1
  | Delete k => (kvDelete k b).1
  | Has k now => (kvHas k now b).1
  | ListKeys p now => (listKeys p now b).1
  | Clear => (clear b).1
  | Close => (close b).1
  end.

Ltac open_ops := unfold addEntry, getThread, query, deleteThread, listSessions, appendTranscript, loadTranscript, deleteTranscript,
  listTranscriptStreams, kvSet, kvGet, kvDelete, kvHas, listKeys, clear, close, ensureOpen, mbind, st_bind, st_get, st_put,
  st_modify, st_throw_if, st_throw, mret, st_ret in *.

(** ** Sums over the threads *)

Definition lengths (ts : jsmap (list Stored)) : jsmap Z := mmap (fun l => Z.of_nat (length l)) ts.
Definition storedCount (ts : jsmap (list Stored)) : Z := msum (lengths ts).

Lemma storedCount_mset k l ts :
  storedCount (mset k l ts) = storedCount ts - Z.of_nat (length (default [] (mget ts k))) + Z.of_nat (length l).
Proof.
  unfold storedCount, lengths. rewrite mmap_mset, msum_mset. unfold mget0. rewrite mget_mmap. by destruct (mget ts k).
Qed.

Lemma storedCount_mdel k ts : NoDup (mkeys ts) ->
  storedCount (mdel k ts) = storedCount ts - Z.of_nat (length (default [] (mget ts k))).
Proof.
  intros Hnd. unfold storedCount, lengths. rewrite mmap_mdel, msum_mdel by (by rewrite mkeys_mmap).
  unfold mget0. rewrite mget_mmap. by destruct (mget ts k).
Qed.

Lemma storedCount_nonneg ts : 0 <= storedCount ts.
Proof.
  unfold storedCount, msum. apply sumZ_nonneg. unfold lengths, mvals, mmap. rewrite map_map. apply List.Forall_map.
  apply Forall_forall. intros kv _. cbn. lia.
Qed.

Lemma storedCount_elem ts k l : mget ts k = Some l -> Z.of_nat (length l) <= storedCount ts.
Proof.
  intros Hg. unfold storedCount, msum. apply sumZ_elem_le.
  - unfold lengths, mvals, mmap. rewrite map_map. apply List.Forall_map, Forall_forall. intros kv _. cbn. lia.
  - apply (mget_mvals _ k). unfold lengths. by rewrite mget_mmap, Hg.
Qed.

Lemma storedCount_zero ts : Forall (fun kv => kv.2 = []) ts -> storedCount ts = 0.
Proof.
  unfold storedCount, msum, lengths, mvals, mmap. induction 1 as [|[k l] ts Hl _ IH]; [done|]. cbn in *. by subst l.
Qed.

(** ** Eviction *)

Lemma evictSession_spec max thread total : 1 <= max ->
  exists k, evictSession max thread total = Some (drop k thread, total - Z.of_nat k) /\ (k <= length thread)%nat /\
    Z.of_nat (length (drop k thread)) < max /\ ((0 < k)%nat -> Z.of_nat (length (drop k thread)) = max - 1).
Proof.
  intros Hmax. revert total. induction thread as [|s thread IH]; intros total; cbn [evictSession].
  - destruct (Z.geb_spec (Z.of_nat (length (A:=Stored) [])) max) as [Hg|Hg]; [cbn in Hg; lia|]. exists 0%nat. cbn in *. split_and!; [f_equal; f_equal; lia|lia..].
  - destruct (Z.geb_spec (Z.of_nat (length (s :: thread))) max) as [Hg|Hg].
    + destruct (IH (total - 1)) as (k & -> & Hk & Hl & He). exists (S k). cbn [drop length] in *. split_and!; [f_equal; f_equal; lia|lia|lia|].
      intros _. destruct k; [rewrite drop_0 in *; lia|apply He; lia].
    + exists 0%nat. cbn [drop length] in *. split_and!; [f_equal; f_equal; lia|lia|lia|lia].
Qed.

(** The head of a thread is no newer than the first entry of another one. *)
Definition oldest_head (ts : jsmap (list Stored)) (session : string) : Prop :=
  exists s rest, (session, s :: rest) ∈ ts /\
    forall k' s' rest', (k', s' :: rest') ∈ ts -> e_timestamp (entry s) <= e_timestamp (entry s').

Lemma oldestSession_spec ts :
  match oldestSession ts with Some session => oldest_head ts session | None => Forall (fun kv => kv.2 = []) ts end.
Proof.
  unfold oldestSession.
  cut (match foldl oldestStep None ts with
       | Some (t, session) => exists s rest, (session, s :: rest) ∈ ts /\ t = e_timestamp (entry s) /\
           forall k' s' rest', (k', s' :: rest') ∈ ts -> e_timestamp (entry s) <= e_timestamp (entry s')
       | None => Forall (fun kv => kv.2 = []) ts end).
  { destruct (foldl _ _ _) as [[t session]|]; [|done]. intros (s & rest & Hin & _ & Hmin). by exists s, rest. }
  induction ts as [|[k l] ts IH] using rev_ind; [constructor|]. rewrite foldl_snoc.
  destruct (foldl oldestStep None ts) as [[t session]|]; unfold oldestStep; cbn [fst snd].
  - destruct IH as (s & rest & Hin & -> & Hmin). destruct l as [|s1 l].
    + exists s, rest. split_and!; [set_solver|done|]. intros k' s' rest' [Hi|Hi]%elem_of_app; [eauto|set_solver].
    + destruct (Z.ltb_spec (e_timestamp (entry s1)) (e_timestamp (entry s))).
      * exists s1, l. split_and!; [set_solver|done|]. intros k' s' rest' [Hi|Hi]%elem_of_app.
        -- apply Hmin in Hi. lia.
        -- apply list_elem_of_singleton in Hi. simplify_eq. lia.
      * exists s, rest. split_and!; [set_solver|done|]. intros k' s' rest' [Hi|Hi]%elem_of_app; [eauto|].
        apply list_elem_of_singleton in Hi. simplify_eq. lia.
  - destruct l as [|s1 l].
    + apply Forall_app. split; [done|]. by apply Forall_singleton.
    + exists s1, l. split_and!; [set_solver|done|]. intros k' s' rest' [Hi|Hi]%elem_of_app.
      * eapply Forall_forall in IH; [|exact Hi]. done.
      * apply list_elem_of_singleton in Hi. simplify_eq. lia.
Qed.

Definition named (ts : jsmap (list Stored)) : Prop := Forall (fun k => k <> ""%string) (mkeys ts).

(** Evicting takes the first entry of the oldest session, and the session when
    it was the only one; or there is nothing to evict. *)
Lemma evictOldest_spec ts total : NoDup (mkeys ts) -> named ts ->
  evictOldest ts total = (ts, total) /\ oldestSession ts = None /\ storedCount ts = 0 \/
  exists session s rest, oldestSession ts = Some session /\ mget ts session = Some (s :: rest) /\
    evictOldest ts total = (match rest with [] => mdel session ts | _ => mset session rest ts end, total - 1).
Proof.
  intros Hnd Hn. unfold evictOldest. pose proof (oldestSession_spec ts) as Ho. destruct (oldestSession ts) as [session|].
  - right. destruct Ho as (s & rest & Hin & _). exists session, s, rest.
    assert (session <> ""%string) as Hne.
    { eapply Forall_forall in Hn; [exact Hn|]. apply list_elem_of_fmap. by exists (session, s :: rest). }
    apply (elem_mget _ _ _ Hnd) in Hin. split_and!; [done|done|]. destruct session; [done|]. cbn [truthy]. rewrite Hin. cbn [default].
    by destruct rest.
  - left. split_and!; [done|done|]. by apply storedCount_zero.
Qed.

(** ** The bounds *)

Record threads_ok (b : InMemoryBackend) : Prop := {
  tk_keys : NoDup (mkeys (threads b));
  tk_named : named (threads b);
  tk_session : forall k l, mget (threads b) k = Some l -> Z.of_nat (length l) <= maxEntriesPerSession b;
  tk_count : storedCount (threads b) <= totalEntries b;
  tk_total : storedCount (threads b) <= Z.max 1 (maxTotalEntries b);
}.

Lemma named_mset ts k l : k <> ""%string -> named ts -> named (mset k l ts).
Proof. unfold named. rewrite !Forall_forall. intros Hk Hn x [->|Hx]%elem_mkeys_mset; auto. Qed.

Lemma named_mdel ts k : named ts -> named (mdel k ts).
Proof.
  unfold named. rewrite !Forall_forall. intros Hn x Hx. apply Hn. rewrite <-mget_is_Some_keys in *.
  rewrite mget_mdel in Hx. by destruct (String.eqb x k); [destruct Hx|].
Qed.

(** The threads an entry meets after the evictions. *)
Definition afterEviction (b : InMemoryBackend) (session : string) : option (jsmap (list Stored) * Z) :=
  '(thread, total) ← evictSession (maxEntriesPerSession b) (default [] (mget (threads b) session)) (totalEntries b);
  let ts := mset session thread (threads b) in
  Some (if total >=? maxTotalEntries b then evictOldest ts total else (ts, total)).

Definition storedOf (b : InMemoryBackend) (id : string) (now : Z) (o : AddEntryOptions) : Stored :=
  let ttl := default (defaultTtlMs b) (o_ttlMs o) in
  {| entry := entryOf id now o; expiry := if ttl >? 0 then Some (now + ttl) else None |}.

Definition pushed (session : string) (s : Stored) (ts : jsmap (list Stored)) : jsmap (list Stored) :=
  match mget ts session with Some thread => mset session (thread ++ [s]) ts | None => ts end.

Lemma addEntry_run b id now o : closed b = false ->
  addEntry id now o b = match afterEviction b (o_sessionId o) with
    | None => (b, Err Diverges)
    | Some (ts, total) => (with_threads (pushed (o_sessionId o) (storedOf b id now o) ts) (total + 1) b, Ok (entryOf id now o))
    end.
Proof.
  intros Hc. unfold addEntry, afterEviction. open_ops. rewrite Hc. unfold option_bind.
  destruct (evictSession _ _ _) as [[thread total]|]; [|done]. by destruct (if total >=? _ then _ else _) as [ts t].
Qed.

(** The session loses its only entry to the eviction, which removes the array
    the new entry is pushed to. *)
Definition detached (b : InMemoryBackend) (session : string) : Prop :=
  exists thread total, evictSession (maxEntriesPerSession b) (default [] (mget (threads b) session)) (totalEntries b) = Some (thread, total) /\
    length thread = 1%nat /\ maxTotalEntries b <= total /\ oldestSession (mset session thread (threads b)) = Some session.

Lemma afterEviction_spec b session : threads_ok b -> 1 <= maxEntriesPerSession b -> session <> ""%string ->
  exists ts total, afterEviction b session = Some (ts, total) /\ NoDup (mkeys ts) /\ named ts /\
    (forall k l, mget ts k = Some l -> Z.of_nat (length l) <= maxEntriesPerSession b) /\
    (forall l, mget ts session = Some l -> Z.of_nat (length l) < maxEntriesPerSession b) /\
    storedCount ts <= total /\ storedCount ts < Z.max 1 (maxTotalEntries b) /\
    (mget ts session = None <-> detached b session).
Proof.
  intros [K1 K2 K3 K4 K5] Hmax Hne. unfold afterEviction, detached, mbind, option_bind.
  set (thread0 := default [] (mget (threads b) session)).
  destruct (evictSession_spec (maxEntriesPerSession b) thread0 (totalEntries b) Hmax) as (k & -> & Hk & Hl & _).
  set (thread := drop k thread0) in *. set (ts := mset session thread (threads b)).
  assert (NoDup (mkeys ts)) as N1 by (by apply mset_NoDup). assert (named ts) as N2 by (by apply named_mset).
  assert (storedCount ts = storedCount (threads b) - Z.of_nat k) as Hcount.
  { unfold ts. rewrite storedCount_mset. fold thread0. unfold thread. rewrite length_drop. lia. }
  assert (mget ts session = Some thread) as Hs by apply mget_mset_eq.
  assert (forall j l, mget ts j = Some l -> Z.of_nat (length l) <= maxEntriesPerSession b) as HB.
  { unfold ts. intros j l. rewrite mget_mset. destruct (String.eqb_spec j session); [intros [= <-]; lia|apply K3]. }
  assert (forall thr tot, Some (thread, totalEntries b - Z.of_nat k) = Some (thr, tot) <-> thr = thread /\ tot = totalEntries b - Z.of_nat k) as Hinj
    by naive_solver.
  setoid_rewrite Hinj. destruct (Z.geb_spec (totalEntries b - Z.of_nat k) (maxTotalEntries b)) as [Hge|Hlt].
  - destruct (evictOldest_spec ts (totalEntries b - Z.of_nat k) N1 N2) as [(-> & Ho & H0)|(old & s & rest & Ho & Hg & ->)].
    + exists ts, (totalEntries b - Z.of_nat k). split_and!; try done; try lia.
      * intros l Hl'. rewrite Hs in Hl'. by simplify_eq.
      * rewrite Hs. split; [done|]. intros (? & ? & [-> ->] & _ & _ & Hc). by fold ts in Hc; rewrite Ho in Hc.
    + set (ts' := match rest with [] => mdel old ts | _ => mset old rest ts end).
      assert (mget ts' old = match rest with [] => None | _ => Some rest end) as Hold.
      { unfold ts'. destruct rest; [rewrite mget_mdel, String.eqb_refl|rewrite mget_mset_eq]; done. }
      assert (forall j, j <> old -> mget ts' j = mget ts j) as Hother.
      { intros j Hj. unfold ts'. destruct rest; [rewrite mget_mdel|rewrite mget_mset]; by destruct (String.eqb_spec j old). }
      assert (storedCount ts' = storedCount ts - 1) as Hc'.
      { unfold ts'. destruct rest; [rewrite storedCount_mdel by done|rewrite storedCount_mset]; rewrite Hg; cbn [from_option id length]; lia. }
      pose proof (storedCount_nonneg ts').
      exists ts', (totalEntries b - Z.of_nat k - 1). split_and!; try done; try lia.
      * unfold ts'. destruct rest; auto with s2core.
      * unfold ts'. destruct rest; [by apply named_mdel|]. apply named_mset; [|done]. eapply Forall_forall in N2; [exact N2|].
        apply mget_is_Some_keys. eauto.
      * intros j l Hj. destruct (decide (j = old)) as [->|Hjo]; [|rewrite Hother in Hj by done; eauto].
        rewrite Hold in Hj. apply HB in Hg. destruct rest as [|s1 rest]; [done|].
        assert (l = s1 :: rest) as -> by congruence. cbn [length] in *. lia.
      * intros l Hj. destruct (decide (session = old)) as [<-|Hjo].
        -- rewrite Hold in Hj. rewrite Hs in Hg. destruct rest as [|s1 rest]; [done|]. assert (l = s1 :: rest) as -> by congruence.
           assert (thread = s :: s1 :: rest) as Ht by congruence. rewrite Ht in Hl. cbn [length] in *. lia.
        -- rewrite Hother, Hs in Hj by done. by simplify_eq.
      * destruct (decide (session = old)) as [<-|Hjo].
        -- rewrite Hold. rewrite Hs in Hg. split.
           ++ destruct rest; [|done]. intros _. exists thread, (totalEntries b - Z.of_nat k). split_and!; try done.
              assert (thread = [s]) as Ht by congruence. by rewrite Ht.
           ++ intros (? & ? & [-> ->] & Hlen & _). assert (thread = s :: rest) as Ht by congruence. rewrite Ht in Hlen. by destruct rest.
        -- rewrite Hother, Hs by done. split; [done|]. intros (? & ? & [-> ->] & _ & _ & Hc). fold ts in Hc. congruence.
  - exists ts, (totalEntries b - Z.of_nat k). split_and!; try done; try lia.
    + intros l Hl'. rewrite Hs in Hl'. by simplify_eq.
    + rewrite Hs. split; [done|]. intros (? & ? & [-> ->] & _ & Hc & _). lia.
Qed.

Lemma threads_ok_with b ts total : threads_ok b -> threads b = ts -> totalEntries b = total ->
  forall b', threads b' = ts -> totalEntries b' = total -> maxEntriesPerSession b' = maxEntriesPerSession b ->
    maxTotalEntries b' = maxTotalEntries b -> threads_ok b'.
Proof. intros [K1 K2 K3 K4 K5] <- <- b' E1 E2 E3 E4. split; by rewrite ?E1, ?E2, ?E3, ?E4. Qed.

Lemma pushed_ok b session s ts total : 1 <= maxEntriesPerSession b ->
  NoDup (mkeys ts) -> named ts -> session <> ""%string ->
  (forall k l, mget ts k = Some l -> Z.of_nat (length l) <= maxEntriesPerSession b) ->
  (forall l, mget ts session = Some l -> Z.of_nat (length l) < maxEntriesPerSession b) ->
  storedCount ts <= total -> storedCount ts < Z.max 1 (maxTotalEntries b) ->
  threads_ok (with_threads (pushed session s ts) (total + 1) b).
Proof.
  intros Hmax N1 N2 Hne HB Hs Hc Ht. unfold pushed. destruct (mget ts session) as [l|] eqn:Hg; split; cbn [with_threads threads maxEntriesPerSession totalEntries maxTotalEntries]; try done; try lia.
  - by apply mset_NoDup.
  - by apply named_mset.
  - intros k l'. rewrite mget_mset. destruct (String.eqb_spec k session); [|apply HB].
    intros [= <-]. rewrite length_app. specialize (Hs l eq_refl). cbn [length]. lia.
  - rewrite storedCount_mset, Hg, length_app. cbn [from_option id length]. lia.
  - rewrite storedCount_mset, Hg, length_app. cbn [from_option id length]. lia.
Qed.

Lemma deleteThread_ok b session thread : threads_ok b -> mget (threads b) session = Some thread ->
  threads_ok (with_threads (mdel session (threads b)) (totalEntries b - Z.of_nat (length thread)) b).
Proof.
  intros [K1 K2 K3 K4 K5] Hg.
  split; cbn [with_threads threads maxEntriesPerSession totalEntries maxTotalEntries]; auto using mdel_NoDup, named_mdel.
  - intros k l. rewrite mget_mdel. destruct (String.eqb k session); [done|apply K3].
  - rewrite storedCount_mdel, Hg by done. cbn [from_option id]. lia.
  - rewrite storedCount_mdel, Hg by done. cbn [from_option id]. lia.
Qed.

Lemma wipe_ok c b : 1 <= maxEntriesPerSession b -> threads_ok (wipe c b).
Proof. intros Hmax. split; cbn; [constructor|constructor|done|done|lia]. Qed.

(** Every entry names its session. *)
Definition op_named (op : Op) : Prop :=
  match op with AddEntry _ _ o => o_sessionId o <> ""%string | _ => True end.

Lemma run_limits b op : maxEntriesPerSession (run b op) = maxEntriesPerSession b /\ maxTotalEntries (run b op) = maxTotalEntries b.
Proof.
  destruct op; cbn [run]; open_ops; destruct (closed b); cbn [fst]; try done;
    repeat (case_match; cbn [fst with_threads with_transcripts with_kv maxEntriesPerSession maxTotalEntries]; try done; simplify_eq).
Qed.

Lemma run_threads_ok b op : threads_ok b -> 1 <= maxEntriesPerSession b -> op_named op -> threads_ok (run b op).
Proof.
  intros Hb Hmax Hop. destruct (closed b) eqn:Hc.
  { destruct op; cbn [run]; open_ops; rewrite ?Hc; cbn [fst]; try done. by apply wipe_ok. }
  destruct op; cbn [run op_named] in *.
  - rewrite addEntry_run by done.
    destruct (afterEviction_spec b (o_sessionId o) Hb Hmax Hop) as (ts & total & -> & N1 & N2 & HB & HS & C1 & C2 & _).
    by apply pushed_ok.
  - open_ops. rewrite Hc. by case_match.
  - open_ops. by rewrite Hc.
  - open_ops. rewrite Hc. destruct (mget (threads b) session) eqn:Hg; [|done]. by apply deleteThread_ok.
  - open_ops. by rewrite Hc.
  - open_ops. rewrite Hc. destruct (appendEvents _ _ _ _ _ _). by eapply threads_ok_with.
  - open_ops. by rewrite Hc.
  - open_ops. rewrite Hc. case_match; [by eapply threads_ok_with|done].
  - open_ops. by rewrite Hc.
  - open_ops. rewrite Hc. by eapply threads_ok_with.
  - open_ops. rewrite Hc. repeat case_match; try done. by eapply threads_ok_with.
  - open_ops. rewrite Hc. by eapply threads_ok_with.
  - open_ops. rewrite Hc. repeat case_match; try done. by eapply threads_ok_with.
  - open_ops. rewrite Hc. by eapply threads_ok_with.
  - open_ops. rewrite Hc. by apply wipe_ok.
  - by apply wipe_ok.
Qed.

Section reachable.
Context (ttl maxSession maxTotal : option Z) (ops : list Op).
Hypothesis Hmax : 1 <= default 1000 maxSession.
Hypothesis Hops : Forall op_named ops.

Let b := foldl run (newBackend ttl maxSession maxTotal) ops.

Lemma reachable_threads_ok :
  threads_ok b /\ maxEntriesPerSession b = default 1000 maxSession /\ maxTotalEntries b = default 100000 maxTotal.
Proof.
  unfold b. clear b. induction ops as [|op l IH] using rev_ind.
  - split_and!; [|done|done]. split; cbn; [constructor|constructor|done|done|lia].
  - apply Forall_app in Hops as [Hl Hop]. rewrite Forall_singleton in Hop. destruct (IH Hl) as (H1 & H2 & H3). rewrite foldl_snoc.
    destruct (run_limits (foldl run (newBackend ttl maxSession maxTotal) l) op) as [-> ->]. split_and!; try done.
    apply run_threads_ok; [done|rewrite H2; exact Hmax|done].
Qed.
End reachable.

(** Bounded memory. With a limit of at least one entry per session, and
    sessions named by non-empty strings, after any operations a session holds
    at most its limit of entries, all sessions together at most the total limit
    (at least one), and adding an entry to an open backend returns. *)
Theorem memory_bounded (ttl maxSession maxTotal : option Z) (ops : list Op) :
  1 <= default 1000 maxSession -> Forall op_named ops ->
  let b := foldl run (newBackend ttl maxSession maxTotal) ops in
  (forall session thread, mget (threads b) session = Some thread -> Z.of_nat (length thread) <= default 1000 maxSession) /\
  storedCount (threads b) <= Z.max 1 (default 100000 maxTotal) /\
  (forall id now o, closed b = false -> o_sessionId o <> ""%string -> exists b', addEntry id now o b = (b', Ok (entryOf id now o))).
Proof.
  intros Hmax Hops b. destruct (reachable_threads_ok ttl maxSession maxTotal ops Hmax Hops) as (Hok & Hm & Ht). fold b in Hok, Hm, Ht.
  rewrite <-Hm, <-Ht. split_and!.
  - apply Hok.
  - apply Hok.
  - intros id now o Hc Hs. rewrite addEntry_run by done. rewrite <-Hm in Hmax.
    destruct (afterEviction_spec b (o_sessionId o) Hok Hmax Hs) as (ts & total & -> & _). eauto.
Qed.

(** An entry can be read back. After any operations, the entry added to an
    open backend is the last one of its thread until it expires; the one
    exception is the session that the eviction for the total limit leaves
    without entries, whose new entry is lost. *)
Theorem added_entry_readable (ttl maxSession maxTotal : option Z) (ops : list Op) (id : string) (now : Z) (o : AddEntryOptions) (t : Z) :
  1 <= default 1000 maxSession -> Forall op_named ops -> o_sessionId o <> ""%string ->
  let b := foldl run (newBackend ttl maxSession maxTotal) ops in
  closed b = false -> isExpired t (storedOf b id now o) = false ->
  let after := getThread (o_sessionId o) None t (addEntry id now o b).1 in
  (detached b (o_sessionId o) -> after.2 = Ok []) /\
  (~ detached b (o_sessionId o) -> exists earlier, after.2 = Ok (earlier ++ [entryOf id now o])).
Proof.
  intros Hmax Hops Hs b Hc Hexp. destruct (reachable_threads_ok ttl maxSession maxTotal ops Hmax Hops) as (Hok & Hm & _). fold b in Hok, Hm.
  rewrite <-Hm in Hmax. rewrite addEntry_run by done.
  destruct (afterEviction_spec b (o_sessionId o) Hok Hmax Hs) as (ts & total & -> & _ & _ & _ & _ & _ & _ & Hdet).
  cbn [fst]. unfold getThread. open_ops. cbn [with_threads threads closed]. rewrite Hc. unfold pushed. rewrite <-Hdet.
  destruct (mget ts (o_sessionId o)) as [l|] eqn:Hg.
  - split; [done|]. intros _. cbn [with_threads threads]. rewrite mget_mset_eq. cbn [snd]. unfold alive. rewrite List.filter_app, map_app. cbn [List.filter].
    rewrite Hexp. cbn [negb map]. eexists. reflexivity.
  - split; [|by intros []]. intros _. cbn [with_threads threads]. by rewrite Hg.
Qed.

Definition ex_options (session content : string) : AddEntryOptions :=
  {| o_sessionId := session; o_role := rUser; o_content := content; o_toolCallId := None; o_toolName := None;
     o_taskPda := None; o_metadata := None; o_ttlMs := None; o_workspaceId := None; o_agentId := None;
     o_userId := None; o_worldId := None; o_channel := None |}.

Definition ex_ops : list Op :=
  [AddEntry "1" 10 (ex_options "a" "x"); AddEntry "2" 20 (ex_options "b" "y"); AddEntry "3" 30 (ex_options "a" "z")].

Lemma ex_ops_named : Forall op_named ex_ops.
Proof. repeat constructor; done. Qed.

Lemma memory_bounded_witness :
  storedCount (threads (foldl run (newBackend None (Some 2) (Some 2)) ex_ops)) <= 2.
Proof. apply (memory_bounded None (Some 2) (Some 2) ex_ops); [cbn; lia|apply ex_ops_named]. Defined.

Lemma added_entry_readable_witness :
  let b := foldl run (newBackend None (Some 2) (Some 3)) ex_ops in
  exists earlier, (getThread "b" None 50 (addEntry "4" 40 (ex_options "b" "w") b).1).2 =
    Ok (earlier ++ [entryOf "4" 40 (ex_options "b" "w")]).
Proof.
  refine (proj2 (added_entry_readable None (Some 2) (Some 3) ex_ops "4" 40 (ex_options "b" "w") 50 _ ex_ops_named _ _ _) _);
    [cbn; lia|done|reflexivity|reflexivity|].
  intros (thread & total & He & Hl & _ & Ho). vm_compute in He. simplify_eq.
Defined.

(** A session whose only entry is the oldest of a full backend loses the next
    entry, and the count of entries keeps it for good. *)
Lemma full_backend_loses_entry :
  let b := (addEntry "2" 20 (ex_options "a" "y") (addEntry "1" 10 (ex_options "a" "x") (newBackend None None (Some 1))).1) in
  b.2 = Ok (entryOf "2" 20 (ex_options "a" "y")) /\ threads b.1 = [] /\ totalEntries b.1 = 1.
Proof. split_and!; reflexivity. Qed.

Lemma zero_session_limit_diverges :
  (addEntry "1" 10 (ex_options "a" "x") (newBackend None (Some 0) None)).2 = Err Diverges.
Proof. reflexivity. Qed.

(** A session named by the empty string is never evicted. *)
Lemma unnamed_session_exceeds_total :
  storedCount (threads (foldl run (newBackend None None (Some 1))
    [AddEntry "1" 10 (ex_options "" "x"); AddEntry "2" 20 (ex_options "" "y"); AddEntry "3" 30 (ex_options "" "z")])) = 3.
Proof. reflexivity. Qed.

(** * In-memory backend: transcripts are logs, pairs are an expiring map

    The events of a stream are numbered from one without gaps, appending is
    idempotent and a reader can resume after a number. The lazy removal of
    expired pairs is not observable: reads agree with a map that keeps them. *)
From S2P Require Import Prelude JsMap JsString.
#[local] Open Scope Z_scope.

(** ** Transcripts *)

Definition numbered (l : list TranscriptEvent) : Prop := map te_seq l = map Z.of_nat (seq 1 (length l)).

Record stream_ok (streamId : string) (l : list TranscriptEvent) : Prop := {
  so_numbered : numbered l;
  so_distinct : NoDup (map te_eventId l);
  so_stream : Forall (fun e => te_streamId e = streamId) l;
}.

Lemma findEvent_spec id stream :
  match findEvent id stream with
  | Some e => e ∈ stream /\ te_eventId e = id
  | None => id ∉ map te_eventId stream
  end.
Proof.
  unfold findEvent. destruct (find _ stream) as [e|] eqn:E.
  - apply find_some in E as [Hin%list_elem_of_In Heq%String.eqb_eq]. done.
  - intros (e & -> & Hin)%list_elem_of_fmap. apply list_elem_of_In in Hin. pose proof (find_none _ _ E _ Hin) as Hf.
    cbn in Hf. by rewrite String.eqb_refl in Hf.
Qed.

Lemma findEvent_unique stream e : NoDup (map te_eventId stream) -> e ∈ stream -> findEvent (te_eventId e) stream = Some e.
Proof.
  intros Hnd Hin. pose proof (findEvent_spec (te_eventId e) stream) as Hf. destruct (findEvent _ _) as [e'|].
  - destruct Hf as [Hin' Heq]. f_equal. clear -Hnd Hin Hin' Heq. induction stream as [|x l IH]; [by apply not_elem_of_nil in Hin|].
    cbn [map] in Hnd. apply NoDup_cons in Hnd as [Hx Hnd].
    apply elem_of_cons in Hin as [->|Hin]; apply elem_of_cons in Hin' as [->|Hin']; auto.
    + exfalso. apply Hx. rewrite <-Heq. apply list_elem_of_fmap. by exists e'.
    + exfalso. apply Hx. rewrite Heq. apply list_elem_of_fmap. by exists e.
  - exfalso. apply Hf. apply list_elem_of_fmap. by exists e.
Qed.

Lemma lastSeq_numbered l : numbered l -> lastSeq l = Z.of_nat (length l).
Proof.
  unfold numbered, lastSeq. destruct l as [|e l _] using rev_ind; [done|]. rewrite last_snoc, map_app, length_app. cbn [length].
  rewrite Nat.add_1_r, seq_S, map_app. cbn [map]. intros [_ Heq]%app_inj_2; [|done]. injection Heq as ->. lia.
Qed.

Lemma stream_ok_snoc streamId stream now ev : stream_ok streamId stream -> ti_eventId ev ∉ map te_eventId stream ->
  stream_ok streamId (stream ++ [materializeTranscriptEvent streamId (Z.of_nat (length stream) + 1) now ev]).
Proof.
  intros [S1 S2 S3] Hn. split.
  - unfold numbered in *. rewrite map_app, S1, length_app. cbn [length]. rewrite Nat.add_1_r, seq_S, map_app. f_equal. cbn [map materializeTranscriptEvent te_seq]. f_equal. lia.
  - rewrite map_app. apply NoDup_app. split_and!; [done| |apply NoDup_singleton].
    intros x Hx Hx'. apply list_elem_of_singleton in Hx'. by subst x.
  - apply Forall_app. split; [done|]. by apply Forall_singleton.
Qed.

Lemma appendEvents_spec streamId now events stream appended : stream_ok streamId stream ->
  exists fresh out, appendEvents streamId now (Z.of_nat (length stream)) stream events appended = (stream ++ fresh, appended ++ out) /\
    stream_ok streamId (stream ++ fresh) /\ map te_eventId out = map ti_eventId events /\ Forall (fun e => e ∈ stream ++ fresh) out.
Proof.
  revert stream appended. induction events as [|ev events IH]; intros stream appended Hok; cbn [appendEvents].
  { exists [], []. rewrite !app_nil_r. by split_and!. }
  pose proof (findEvent_spec (ti_eventId ev) stream) as Hf. destruct (findEvent _ _) as [old|].
  - destruct Hf as [Hin Heq]. destruct (IH stream (appended ++ [old]) Hok) as (fresh & out & -> & Hok' & Hids & Hall).
    exists fresh, (old :: out). rewrite <-app_assoc. split_and!; [done|done|cbn; by rewrite Hids, Heq|].
    constructor; [|done]. apply elem_of_app. by left.
  - pose proof (stream_ok_snoc streamId stream now ev Hok Hf) as Hok1.
    set (e := materializeTranscriptEvent streamId (Z.of_nat (length stream) + 1) now ev) in *.
    destruct (IH (stream ++ [e]) (appended ++ [e]) Hok1) as (fresh & out & HE & Hok' & Hids & Hall).
    rewrite length_app in HE. cbn [length] in HE. replace (Z.of_nat (length stream + 1)) with (Z.of_nat (length stream) + 1) in HE by lia.
    exists (e :: fresh), (e :: out). rewrite HE, <-!app_assoc. rewrite <-app_assoc in Hok', Hall. cbn [app] in *.
    split_and!; [done|done|cbn; by rewrite Hids|]. constructor; [|done]. set_solver.
Qed.

(** Events that are all in the stream are found, and nothing is added. *)
Lemma appendEvents_again streamId now n stream events out appended :
  NoDup (map te_eventId stream) -> map te_eventId out = map ti_eventId events -> Forall (fun e => e ∈ stream) out ->
  appendEvents streamId now n stream events appended = (stream, appended ++ out).
Proof.
  intros Hnd. revert events appended. induction out as [|e out IH]; intros [|ev events] appended Hids Hall; try done; cbn [appendEvents].
  - by rewrite app_nil_r.
  - cbn [map] in Hids. apply Forall_cons in Hall as [He Hall]. injection Hids as Hid Hids. rewrite <-Hid, findEvent_unique by done.
    rewrite (IH events) by done. by rewrite <-app_assoc.
Qed.

Definition transcripts_ok (b : InMemoryBackend) : Prop :=
  forall streamId l, mget (transcripts b) streamId = Some l -> stream_ok streamId l.

Lemma stream_ok_nil streamId : stream_ok streamId [].
Proof. by split; [done|constructor|constructor]. Qed.

Lemma transcripts_ok_default b streamId : transcripts_ok b -> stream_ok streamId (default [] (mget (transcripts b) streamId)).
Proof. intros Hb. destruct (mget _ _) eqn:E; [by apply Hb|apply stream_ok_nil]. Qed.

Lemma run_transcripts_ok b op : transcripts_ok b -> transcripts_ok (run b op).
Proof.
  intros Hb. destruct (closed b) eqn:Hc.
  { destruct op; cbn [run]; open_ops; rewrite ?Hc; cbn [fst]; try done. }
  destruct op; cbn [run]; try (open_ops; rewrite Hc; repeat (case_match; simplify_eq); done).
  - open_ops. rewrite Hc. pose proof (transcripts_ok_default b stream Hb) as Hs.
    destruct (appendEvents_spec stream now events _ [] Hs) as (fresh & out & HE & Hok & _). rewrite lastSeq_numbered by apply Hs.
    rewrite HE. cbn [fst]. intros k l. cbn [with_transcripts transcripts]. rewrite mget_mset.
    destruct (String.eqb_spec k stream) as [->|]; [by intros [= <-]|apply Hb].
  - open_ops. rewrite Hc. case_match; [|done]. intros k l'. cbn [fst with_transcripts transcripts]. rewrite mget_mdel.
    destruct (String.eqb k stream); [done|apply Hb].
  - open_ops. rewrite ?Hc. by intros k l.
Qed.

Lemma filter_after l n : numbered l -> 0 <= n ->
  List.filter (fun e => te_seq e >? n) l = drop (Z.to_nat n) l.
Proof.
  intros Hn Hpos. unfold numbered in Hn.
  cut (forall k, map te_seq l = map Z.of_nat (seq (S k) (length l)) -> List.filter (fun e => te_seq e >? n) l = drop (Z.to_nat n - k) l).
  { intros Hc. rewrite (Hc 0%nat Hn). f_equal. lia. }
  clear Hn. induction l as [|e l IH]; intros k Hn; [by rewrite drop_nil|]. cbn [length seq map] in Hn. injection Hn as He Hn.
  cbn [List.filter]. rewrite (IH (S k) Hn). destruct (te_seq e >? n) eqn:E.
  - replace (Z.to_nat n - k)%nat with 0%nat by lia. replace (Z.to_nat n - S k)%nat with 0%nat by lia. by rewrite !drop_0.
  - replace (Z.to_nat n - k)%nat with (S (Z.to_nat n - S k))%nat by lia. done.
Qed.

Lemma reachable_transcripts_ok ttl maxSession maxTotal ops : transcripts_ok (foldl run (newBackend ttl maxSession maxTotal) ops).
Proof. induction ops as [|op l IH] using rev_ind; [by intros k l|]. rewrite foldl_snoc. by apply run_transcripts_ok. Qed.

(** Transcripts are append-only logs. After any operations, appending events
    to a stream of an open backend keeps what the stream held, numbers the
    events from one without gaps, keeps their ids distinct, and returns one
    stored event for each id asked, new or old; appending the same events again,
    at any time, returns the same and changes nothing; and loading the events
    after number n returns the stream without its first n. *)
Theorem transcript_is_log (ttl maxSession maxTotal : option Z) (ops : list Op) (streamId : string)
    (events : list TranscriptEventInput) (now : Z) :
  let b := foldl run (newBackend ttl maxSession maxTotal) ops in
  let stream := default [] (mget (transcripts b) streamId) in
  closed b = false ->
  exists b' fresh out, appendTranscript streamId events now b = (b', Ok out) /\
    mget (transcripts b') streamId = Some (stream ++ fresh) /\ stream_ok streamId (stream ++ fresh) /\
    map te_eventId out = map ti_eventId events /\ Forall (fun e => e ∈ stream ++ fresh) out /\
    (forall now', appendTranscript streamId events now' b' = (b', Ok out)) /\
    (forall n, 0 <= n -> (loadTranscript streamId {| lo_afterSeq := Some n; lo_limit := None; lo_order := None |} b').2 =
       Ok (drop (Z.to_nat n) (stream ++ fresh))).
Proof.
  intros b stream Hc. pose proof (transcripts_ok_default b streamId (reachable_transcripts_ok ttl maxSession maxTotal ops)) as Hs.
  fold stream in Hs. destruct (appendEvents_spec streamId now events stream [] Hs) as (fresh & out & HE & Hok & Hids & Hall). cbn [app] in HE.
  exists (with_transcripts (mset streamId (stream ++ fresh) (transcripts b)) b), fresh, out. split_and!; try done.
  - open_ops. rewrite Hc. fold stream. rewrite lastSeq_numbered by apply Hs. by rewrite HE.
  - apply mget_mset_eq.
  - intros now'. open_ops. cbn [with_transcripts closed]. rewrite Hc. cbn [with_transcripts transcripts]. rewrite mget_mset_eq. cbn [from_option id].
    rewrite (appendEvents_again streamId now' _ (stream ++ fresh) events out []); [|apply Hok|done|done]. cbn [app].
    unfold with_transcripts. cbn. by rewrite mset_mset.
  - intros n Hn. open_ops. cbn [with_transcripts closed]. rewrite Hc. cbn [snd with_transcripts transcripts]. rewrite mget_mset_eq.
    cbn [from_option id]. unfold applyTranscriptLoadOptions. cbn [lo_afterSeq lo_order lo_limit from_option id].
    by rewrite filter_after by (done || apply Hok).
Qed.

Definition ex_event (id : string) : TranscriptEventInput :=
  {| ti_version := None; ti_eventId := id; ti_kind := "custom"; ti_payload := "p"; ti_timestamp := None;
     ti_metadata := None; ti_dedupeKey := None |}.

Lemma transcript_is_log_witness :
  let b := foldl run (newBackend None None None) [AppendTranscript "s" [ex_event "a"; ex_event "b"] 5] in
  exists b' out, appendTranscript "s" [ex_event "b"; ex_event "c"] 9 b = (b', Ok out) /\ map te_eventId out = ["b"; "c"]%string.
Proof.
  destruct (transcript_is_log None None None [AppendTranscript "s" [ex_event "a"; ex_event "b"] 5] "s" [ex_event "b"; ex_event "c"] 9 eq_refl)
    as (b' & fresh & out & HE & _ & _ & Hids & _).
  exists b', out. split; [exact HE|exact Hids].
Defined.

(** ** Key-value pairs *)

Inductive KvOp := KSet (key value : string) (ttl : option Z) | KGet (key : string) | KHas (key : string)
  | KDelete (key : string) | KList (prefix : option string).

Inductive KvOut := Done | Value (v : option string) | Flag (f : bool) | Keys (ks : list string).

(** An operation of the backend at a time. *)
Definition kvRun (op : KvOp) (now : Z) (b : InMemoryBackend) : InMemoryBackend * result memory_error KvOut :=
  match op with
  | KSet k v ttl => (kvSet k v ttl now ;; mret Done) b
  | KGet k => (v ← kvGet k now; mret (Value v)) b
  | KHas k => (f ← kvHas k now; mret (Flag f)) b
  | KDelete k => (f ← kvDelete k; mret (Flag f)) b
  | KList p => (ks ← listKeys p now; mret (Keys ks)) b
  end.

(** The specification: a map from keys to values with an expiry, from which
    only [delete] removes. *)
Definition KvMap : Type := string -> option KVEntry.

Definition visible (now : Z) (e : option KVEntry) : option string :=
  match e with Some e => if kvExpired now e then None else Some (kv_value e) | None => None end.

Definition kvNext (defaultTtl : Z) (op : KvOp) (now : Z) (f : KvMap) : KvMap :=
  match op with
  | KSet k v ttl => fun k' => if String.eqb k' k
      then let t := default defaultTtl ttl in Some {| kv_value := v; expiresAt := if t >? 0 then Some (now + t) else None |}
      else f k'
  | KDelete k => fun k' => if String.eqb k' k then None else f k'
  | _ => f
  end.

(** What a read may return: [delete] may count an expired pair. *)
Definition kvAllowed (op : KvOp) (now : Z) (f : KvMap) (out : KvOut) : Prop :=
  match op with
  | KSet _ _ _ => out = Done
  | KGet k => out = Value (visible now (f k))
  | KHas k => out = Flag (bool_decide (is_Some (visible now (f k))))
  | KDelete k => exists r, out = Flag r /\ (is_Some (visible now (f k)) -> r = true) /\ (f k = None -> r = false)
  | KList p => exists ks, out = Keys ks /\ NoDup ks /\
      forall k, k ∈ ks <-> is_Some (visible now (f k)) /\ match truthy p with Some p => startsWith k p = true | None => True end
  end.

(** The pairs of the backend are pairs of the map, and those that are missing
    have expired. *)
Definition kv_sim (now : Z) (m : jsmap KVEntry) (f : KvMap) : Prop :=
  NoDup (mkeys m) /\ forall k, match mget m k with
    | Some e => f k = Some e
    | None => match f k with Some e => kvExpired now e = true | None => True end
    end.

Lemma kvExpired_later now now' e : now <= now' -> kvExpired now e = true -> kvExpired now' e = true.
Proof. unfold kvExpired. destruct (expiresAt e); [|done]. lia. Qed.

Lemma kv_sim_later now now' m f : now <= now' -> kv_sim now m f -> kv_sim now' m f.
Proof.
  intros Hle [Hnd Hs]. split; [done|]. intros k. specialize (Hs k). destruct (mget m k); [done|].
  destruct (f k); [|done]. by eapply kvExpired_later.
Qed.

Lemma kv_sim_visible now m f k : kv_sim now m f -> visible now (mget m k) = visible now (f k).
Proof.
  intros [_ Hs]. specialize (Hs k). destruct (mget m k); [by rewrite Hs|]. destruct (f k); [|done]. cbn. by rewrite Hs.
Qed.

Lemma kv_sim_set now m f k e : kv_sim now m f -> kv_sim now (mset k e m) (fun k' => if String.eqb k' k then Some e else f k').
Proof.
  intros [Hnd Hs]. split; [by apply mset_NoDup|]. intros k'. rewrite mget_mset. destruct (String.eqb k' k); [done|apply Hs].
Qed.

Lemma kv_sim_delete now m f k : kv_sim now m f -> kv_sim now (mdel k m) (fun k' => if String.eqb k' k then None else f k').
Proof.
  intros [Hnd Hs]. split; [by apply mdel_NoDup|]. intros k'. rewrite mget_mdel. destruct (String.eqb k' k); [done|apply Hs].
Qed.

Lemma kv_sim_expire now m f k e : kv_sim now m f -> mget m k = Some e -> kvExpired now e = true -> kv_sim now (mdel k m) f.
Proof.
  intros [Hnd Hs] Hg He. split; [by apply mdel_NoDup|]. intros k'. rewrite mget_mdel. destruct (String.eqb_spec k' k) as [->|]; [|apply Hs].
  specialize (Hs k). rewrite Hg in Hs. by rewrite Hs.
Qed.

Lemma mkeys_filter_elem {V} (p : string * V -> bool) (m : jsmap V) k : k ∈ mkeys (List.filter p m) <-> exists e, (k, e) ∈ m /\ p (k, e) = true.
Proof.
  unfold mkeys. rewrite list_elem_of_fmap. split.
  - intros ([k' e] & -> & [Hin Hp]%elem_filter_bool). by exists e.
  - intros (e & Hin & Hp). exists (k, e). split; [done|]. by apply elem_filter_bool.
Qed.

Lemma mkeys_filter_NoDup {V} (p : string * V -> bool) (m : jsmap V) : NoDup (mkeys m) -> NoDup (mkeys (List.filter p m)).
Proof.
  induction m as [|[k e] m IH]; [done|]. intros [Hk Hnd]%NoDup_cons. cbn [List.filter]. destruct (p (k, e)); [|auto].
  cbn. constructor; [|by apply IH]. intros Hin. apply Hk. change (k ∈ mkeys (List.filter p m)) in Hin.
  apply mkeys_filter_elem in Hin as (e' & Hin & _). apply list_elem_of_fmap. by exists (k, e').
Qed.

Lemma kv_sim_collect now m f : kv_sim now m f -> kv_sim now (List.filter (fun kv => negb (kvExpired now kv.2)) m) f.
Proof.
  intros [Hnd Hs]. split; [by apply mkeys_filter_NoDup|]. intros k. specialize (Hs k).
  set (live := List.filter (fun kv => negb (kvExpired now kv.2)) m).
  assert (forall e, (k, e) ∈ live <-> (k, e) ∈ m /\ kvExpired now e = false) as Hlive.
  { intros e. unfold live. rewrite elem_filter_bool. cbn [snd]. by rewrite negb_true_iff. }
  destruct (mget live k) as [e|] eqn:Hg.
  - apply mget_Some_elem, Hlive in Hg as [Hin _]. apply (elem_mget _ _ _ Hnd) in Hin. by rewrite Hin in Hs.
  - destruct (mget m k) as [e|] eqn:Hm; [|done]. rewrite Hs. destruct (kvExpired now e) eqn:He; [done|].
    apply mget_None_keys in Hg. exfalso. apply Hg. apply list_elem_of_fmap. exists (k, e). split; [done|]. apply Hlive. split; [|done].
    by apply mget_Some_elem.
Qed.

Lemma kv_listed now m f p : kv_sim now m f ->
  let ks := withPrefix p (mkeys (List.filter (fun kv => negb (kvExpired now kv.2)) m)) in
  NoDup ks /\ forall k, k ∈ ks <-> is_Some (visible now (f k)) /\ match truthy p with Some p => startsWith k p = true | None => True end.
Proof.
  intros Hsim ks. set (live := mkeys (List.filter (fun kv => negb (kvExpired now kv.2)) m)) in *.
  assert (NoDup live) as Hnd by (apply mkeys_filter_NoDup, Hsim).
  assert (forall k, k ∈ live <-> is_Some (visible now (f k))) as Hlive.
  { intros k. unfold live. rewrite mkeys_filter_elem, <-(kv_sim_visible now m f k Hsim). split.
    - intros (e & Hin & He). apply (elem_mget _ _ _ (proj1 Hsim)) in Hin. rewrite Hin. cbn in *. destruct (kvExpired now e); [done|eauto].
    - intros [v Hv]. destruct (mget m k) as [e|] eqn:Hg; [|done]. exists e. split; [by apply mget_Some_elem|]. cbn in *.
      by destruct (kvExpired now e). }
  unfold ks, withPrefix. destruct (truthy p) as [pre|].
  - split; [by apply NoDup_ListNoDup, List.NoDup_filter, NoDup_ListNoDup|]. intros k. by rewrite elem_filter_bool, Hlive.
  - split; [done|]. intros k. rewrite Hlive. tauto.
Qed.

(** One step of the refinement. *)
Lemma kvRun_refines op now b f : closed b = false -> kv_sim now (kv b) f ->
  exists b' out, kvRun op now b = (b', Ok out) /\ closed b' = false /\ defaultTtlMs b' = defaultTtlMs b /\
    kvAllowed op now f out /\ kv_sim now (kv b') (kvNext (defaultTtlMs b) op now f).
Proof.
  intros Hc Hs. destruct op as [k v ttl|k|k|k|p]; cbn [kvRun kvAllowed kvNext]; open_ops; rewrite Hc.
  - eexists _, _. split_and!; try done. by apply kv_sim_set.
  - pose proof (kv_sim_visible now (kv b) f k Hs) as Hv. destruct (mget (kv b) k) as [e|] eqn:Hg.
    + cbn in Hv. destruct (kvExpired now e) eqn:He; eexists _, _; split_and!; try done; [by rewrite <-Hv|by eapply kv_sim_expire|by rewrite <-Hv].
    + eexists _, _. split_and!; try done. by rewrite <-Hv.
  - pose proof (kv_sim_visible now (kv b) f k Hs) as Hv. destruct (mget (kv b) k) as [e|] eqn:Hg.
    + cbn in Hv. destruct (kvExpired now e) eqn:He; eexists _, _; split_and!; try done; [by rewrite <-Hv|by eapply kv_sim_expire|by rewrite <-Hv].
    + eexists _, _. split_and!; try done. by rewrite <-Hv.
  - eexists _, _. split_and!; try done; [|by apply kv_sim_delete]. eexists. split_and!; [done| |].
    + rewrite <-(kv_sim_visible now (kv b) f k Hs). intros [v Hv]. unfold mhas. by destruct (mget (kv b) k).
    + intros Hf. destruct Hs as [_ Hs]. specialize (Hs k). unfold mhas. destruct (mget (kv b) k); [by rewrite Hs in Hf|done].
  - eexists _, _. split_and!; try done; [|by apply kv_sim_collect]. eexists. split; [done|]. by apply kv_listed.
Qed.

(** The outputs of a history of operations with their times. *)
Fixpoint kvHistory (b : InMemoryBackend) (ops : list (KvOp * Z)) : list (result memory_error KvOut) :=
  match ops with
  | [] => []
  | (op, now) :: rest => let '(b', out) := kvRun op now b in out :: kvHistory b' rest
  end.

Fixpoint kvSpec (defaultTtl : Z) (f : KvMap) (ops : list (KvOp * Z)) (outs : list (result memory_error KvOut)) : Prop :=
  match ops, outs with
  | [], [] => True
  | (op, now) :: ops, Ok out :: outs => kvAllowed op now f out /\ kvSpec defaultTtl (kvNext defaultTtl op now f) ops outs
  | _, _ => False
  end.

Fixpoint nondecreasing (t : Z) (ops : list (KvOp * Z)) : Prop :=
  match ops with [] => True | (_, now) :: ops => t <= now /\ nondecreasing now ops end.

Lemma kvHistory_refines ops t b f : closed b = false -> kv_sim t (kv b) f -> nondecreasing t ops ->
  kvSpec (defaultTtlMs b) f ops (kvHistory b ops).
Proof.
  revert t b f. induction ops as [|[op now] ops IH]; intros t b f Hc Hs Ht; [done|]. destruct Ht as [Hle Ht]. cbn [kvHistory].
  destruct (kvRun_refines op now b f Hc (kv_sim_later _ _ _ _ Hle Hs)) as (b' & out & -> & Hc' & Hd & Ha & Hs').
  cbn [kvSpec]. split; [done|]. rewrite <-Hd in *. by apply (IH now).
Qed.

(** The key-value store is an expiring map. On a clock that never goes back,
    every history of sets, reads, deletions and listings of a new backend
    returns what a map of pairs with an expiry time allows: the removal of
    expired pairs by the reads is not observable. *)
Theorem kv_refines_expiring_map (ttl maxSession maxTotal : option Z) (t : Z) (ops : list (KvOp * Z)) :
  nondecreasing t ops ->
  kvSpec (default 0 ttl) (fun _ => None) ops (kvHistory (newBackend ttl maxSession maxTotal) ops).
Proof.
  intros Ht. apply (kvHistory_refines ops t (newBackend ttl maxSession maxTotal) (fun _ => None)); [done| |done].
  split; [constructor|done].
Qed.

Lemma kv_refines_expiring_map_witness :
  let ops := [(KSet "a" "x" (Some 5), 10); (KGet "a", 12); (KGet "a", 15); (KSet "a" "y" None, 16); (KList None, 17)] in
  nondecreasing 0 ops /\ kvSpec 0 (fun _ => None) ops (kvHistory (newBackend None None None) ops).
Proof.
  split; [cbn; lia|]. apply (kv_refines_expiring_map None None None 0). cbn. lia.
Defined.
