(* ===== verification/Connection.v ===== *)
(** * Connection manager (src/runtime/src/connection/manager.ts, retry.ts)

    The resilient transport in front of the RPC endpoints: retry, failover and
    coalescing of requests. Requests run concurrently: each stops at its
    [await]s, so a request is a state machine, and the answers of the endpoints
    and the ends of the back-off delays are events that resume it. Between two
    events the code runs without interruption. Latency averages, metrics and
    log lines are left out; the arguments of a request are their serialised
    text, as in the key of the coalescing. *)
From S2P Require Import Prelude JsMap JsString.
#[local] Open Scope Z_scope.

(** ** Errors (retry.ts) *)

(** What is read of an error: its message, and the HTTP status it carries under
    one of four names. *)
Record HttpFields := { status : option Z; statusCode : option Z }.

Record RpcError := {
  message : string;
  fields : HttpFields;
  response : option HttpFields;
}.

Definition NON_RETRYABLE_PATTERNS : list string :=
  ["Account does not exist"; "could not find"; "custom program error"; "insufficient funds"; "Signature verification";
   "Transaction simulation failed"]%string.

Definition RETRYABLE_PATTERNS : list string :=
  ["ETIMEDOUT"; "ECONNREFUSED"; "ECONNRESET"; "ENOTFOUND"; "socket hang up"; "blockhash not found"; "Node is behind";
   "node is unhealthy"; "Too Many Requests"]%string.

Definition RETRYABLE_HTTP_STATUSES : list Z := [429; 502; 503; 504].

Definition CONNECTION_LEVEL_PATTERNS : list string :=
  ["ETIMEDOUT"; "ECONNREFUSED"; "ECONNRESET"; "ENOTFOUND"; "socket hang up"]%string.

Definition CONNECTION_LEVEL_HTTP_STATUSES : list Z := [502; 503; 504].

Definition firstStatus (f : HttpFields) : option Z := match status f with Some s => Some s | None => statusCode f end.

Definition extractHttpStatus (e : RpcError) : option Z :=
  match firstStatus (fields e) with Some s => Some s | None => r ← response e; firstStatus r end.

Definition matchesPatterns (msg : string) (patterns : list string) : bool := existsb (includes msg) patterns.

Definition hasStatus (statuses : list Z) (e : RpcError) : bool :=
  match extractHttpStatus e with Some s => existsb (Z.eqb s) statuses | None => false end.

Definition isRetryableError (e : RpcError) : bool :=
  if matchesPatterns (message e) NON_RETRYABLE_PATTERNS then false
  else if hasStatus RETRYABLE_HTTP_STATUSES e then true
  else matchesPatterns (message e) RETRYABLE_PATTERNS.

Definition isConnectionLevelError (e : RpcError) : bool :=
  if hasStatus CONNECTION_LEVEL_HTTP_STATUSES e then true
  else matchesPatterns (message e) CONNECTION_LEVEL_PATTERNS.

Definition isWriteMethod (methodName : string) : bool := has ["sendTransaction"; "sendEncodedTransaction"]%string methodName.

Definition deriveCoalesceKey (methodName args : string) : string := (methodName +:+ ":" +:+ args)%string.

(** ** State *)

Record RetryConfig := { maxRetries : Z }.

Record HealthCheckConfig := { unhealthyThreshold : Z; healthyThreshold : Z; unhealthyCooldownMs : Z }.

Record EndpointHealthState := {
  healthy : bool;
  consecutiveFailures : Z;
  consecutiveSuccesses : Z;
  totalRequests : Z;
  totalErrors : Z;
  lastErrorTime : option Z;
  lastError : option string;
}.

Inductive Outcome :=
| Resolved (value : string)
| Rejected (e : RpcError)
| AllEndpointsUnhealthy (summary : list (string * option string)).

(** Where a request stands: waiting for an endpoint, asleep before a retry,
    sharing the promise of another request, or settled. *)
Inductive Phase :=
| WriteFirst (url : string)
| WriteSecond (url : string)
| ReadCall (url : string) (attempt : Z) (triedEndpoints : nat)
| ReadSleep (url : string) (attempt : Z) (triedEndpoints : nat)
| Joined (leader : nat)
| Finished (o : Outcome).

(** A request with the calls it made, the newest last, and their answers. *)
Record Request := {
  rq_method : string;
  rq_args : string;
  rq_phase : Phase;
  rq_calls : list (string * option (result RpcError string));
}.

Record ConnectionManager := {
  endpointUrls : list string;
  endpointHealth : jsmap EndpointHealthState;
  activeIndex : nat;
  inflight : jsmap nat;
  coalesceEnabled : bool;
  retryConfig : RetryConfig;
  healthConfig : HealthCheckConfig;
  aborted : bool;
  _totalRequests : Z;
  _totalRetries : Z;
  _totalFailovers : Z;
  _totalCoalesced : Z;
  requests : list Request;
}.

Definition freshHealth : EndpointHealthState := {|
  healthy := true; consecutiveFailures := 0; consecutiveSuccesses := 0; totalRequests := 0; totalErrors := 0;
  lastErrorTime := None; lastError := None |}.

(** The constructor; [None] is its exception for an empty list of endpoints. *)
Definition newConnectionManager (urls : list string) (retry : RetryConfig) (health : HealthCheckConfig)
    (coalesce : option bool) : option ConnectionManager :=
  match urls with
  | [] => None
  | _ => Some {|
      endpointUrls := urls; endpointHealth := foldl (fun m url => mset url freshHealth m) [] urls; activeIndex := 0;
      inflight := []; coalesceEnabled := default true coalesce; retryConfig := retry; healthConfig := health;
      aborted := false; _totalRequests := 0; _totalRetries := 0; _totalFailovers := 0; _totalCoalesced := 0; requests := [] |}
  end.

(** ** Health tracking *)

Definition with_health (hs : jsmap EndpointHealthState) (m : ConnectionManager) : ConnectionManager := {|
  endpointUrls := endpointUrls m; endpointHealth := hs; activeIndex := activeIndex m; inflight := inflight m;
  coalesceEnabled := coalesceEnabled m; retryConfig := retryConfig m; healthConfig := healthConfig m; aborted := aborted m;
  _totalRequests := _totalRequests m; _totalRetries := _totalRetries m; _totalFailovers := _totalFailovers m;
  _totalCoalesced := _totalCoalesced m; requests := requests m |}.

Definition recordSuccess (url : string) (m : ConnectionManager) : ConnectionManager :=
  match mget (endpointHealth m) url with
  | None => m
  | Some h =>
      let successes := consecutiveSuccesses h + 1 in
      with_health (mset url {|
        healthy := healthy h || (successes >=? healthyThreshold (healthConfig m));
        consecutiveFailures := 0; consecutiveSuccesses := successes;
        totalRequests := totalRequests h + 1; totalErrors := totalErrors h;
        lastErrorTime := lastErrorTime h; lastError := lastError h |} (endpointHealth m)) m
  end.

Definition recordFailure (url : string) (e : RpcError) (now : Z) (m : ConnectionManager) : ConnectionManager :=
  match mget (endpointHealth m) url with
  | None => m
  | Some h =>
      let failures := consecutiveFailures h + 1 in
      with_health (mset url {|
        healthy := healthy h && negb (failures >=? unhealthyThreshold (healthConfig m));
        consecutiveFailures := failures; consecutiveSuccesses := 0;
        totalRequests := totalRequests h + 1; totalErrors := totalErrors h + 1;
        lastErrorTime := Some now; lastError := Some (message e) |} (endpointHealth m)) m
  end.

(** [endpointUrls.indexOf(url)], for a url of the list. *)
Fixpoint indexOfUrl (urls : list string) (url : string) : nat :=
  match urls with
  | [] => 0
  | u :: urls => if String.eqb u url then 0%nat else S (indexOfUrl urls url)
  end.

(** An endpoint that may be tried: healthy, or its cooldown has elapsed. *)
Definition eligible (now : Z) (m : ConnectionManager) (url : string) : bool :=
  match mget (endpointHealth m) url with
  | None => false
  | Some h =>
      healthy h || match lastErrorTime h with
                   | Some t => negb (t =? 0) && (now - t >=? unhealthyCooldownMs (healthConfig m))
                   | None => false
                   end
  end.

(** The other endpoints, from the one after [afterUrl] round to it. *)
Definition roundRobin (urls : list string) (afterUrl : string) : list string :=
  let startIdx := indexOfUrl urls afterUrl in drop (S startIdx) urls ++ take startIdx urls.

Definition getNextHealthyEndpoint (afterUrl : string) (now : Z) (m : ConnectionManager) : option string :=
  if (length (endpointUrls m) =? 1)%nat then None
  else List.find (eligible now m) (roundRobin (endpointUrls m) afterUrl).

(** [_totalFailovers++] and [activeIndex = endpointUrls.indexOf(url)]. *)
Definition failover (url : string) (m : ConnectionManager) : ConnectionManager := {|
  endpointUrls := endpointUrls m; endpointHealth := endpointHealth m; activeIndex := indexOfUrl (endpointUrls m) url;
  inflight := inflight m; coalesceEnabled := coalesceEnabled m; retryConfig := retryConfig m; healthConfig := healthConfig m;
  aborted := aborted m; _totalRequests := _totalRequests m; _totalRetries := _totalRetries m;
  _totalFailovers := _totalFailovers m + 1; _totalCoalesced := _totalCoalesced m; requests := requests m |}.

Definition countRetry (m : ConnectionManager) : ConnectionManager := {|
  endpointUrls := endpointUrls m; endpointHealth := endpointHealth m; activeIndex := activeIndex m; inflight := inflight m;
  coalesceEnabled := coalesceEnabled m; retryConfig := retryConfig m; healthConfig := healthConfig m; aborted := aborted m;
  _totalRequests := _totalRequests m; _totalRetries := _totalRetries m + 1; _totalFailovers := _totalFailovers m;
  _totalCoalesced := _totalCoalesced m; requests := requests m |}.

(** ** The read path *)

Definition epSummary (m : ConnectionManager) : list (string * option string) :=
  map (fun url => (url, h ← mget (endpointHealth m) url; lastError h)) (endpointUrls m).

(** The loop of [executeRead] from its test on. [fuel] is the number of
    endpoints left to try. An aborted manager, or a negative number of
    retries, gives up every endpoint without a call. *)
Fixpoint visitEndpoint (fuel : nat) (url : string) (triedEndpoints : nat) (now : Z) (m : ConnectionManager)
    : ConnectionManager * Phase :=
  match fuel with
  | O => (m, Finished (AllEndpointsUnhealthy (epSummary m)))
  | S fuel =>
      if (0 <=? maxRetries (retryConfig m)) && negb (aborted m) then (m, ReadCall url 0 triedEndpoints)
      else match getNextHealthyEndpoint url now m with
           | None => (m, Finished (AllEndpointsUnhealthy (epSummary m)))
           | Some nextUrl => visitEndpoint fuel nextUrl (S triedEndpoints) now (failover nextUrl m)
           end
  end.

(** What follows when an endpoint is given up. *)
Definition leaveEndpoint (url : string) (triedEndpoints : nat) (now : Z) (m : ConnectionManager) : ConnectionManager * Phase :=
  let triedEndpoints := S triedEndpoints in
  match getNextHealthyEndpoint url now m with
  | None => (m, Finished (AllEndpointsUnhealthy (epSummary m)))
  | Some nextUrl =>
      let m := failover nextUrl m in
      visitEndpoint (length (endpointUrls m) - triedEndpoints) nextUrl triedEndpoints now m
  end.

(** The answer of the endpoint of a read. *)
Definition readAnswered (url : string) (attempt : Z) (triedEndpoints : nat) (r : result RpcError string) (now : Z)
    (m : ConnectionManager) : ConnectionManager * Phase :=
  match r with
  | Ok value => (recordSuccess url m, Finished (Resolved value))
  | Err e =>
      let m := recordFailure url e now m in
      if negb (isRetryableError e) then (m, Finished (Rejected e))
      else if attempt >=? maxRetries (retryConfig m) then leaveEndpoint url triedEndpoints now m
      else (countRetry m, ReadSleep url attempt triedEndpoints)
  end.

(** The end of the delay: the next attempt of [retryOnEndpoint]. *)
Definition readWoken (url : string) (attempt : Z) (triedEndpoints : nat) (now : Z) (m : ConnectionManager)
    : ConnectionManager * Phase :=
  let attempt := attempt + 1 in
  if (attempt <=? maxRetries (retryConfig m)) && negb (aborted m) then (m, ReadCall url attempt triedEndpoints)
  else leaveEndpoint url triedEndpoints now m.

(** ** The write path *)

Definition firstWriteAnswered (url : string) (r : result RpcError string) (now : Z) (m : ConnectionManager)
    : ConnectionManager * Phase :=
  match r with
  | Ok value => (recordSuccess url m, Finished (Resolved value))
  | Err e =>
      let m := recordFailure url e now m in
      if isConnectionLevelError e then
        match getNextHealthyEndpoint url now m with
        | Some nextUrl => (failover nextUrl m, WriteSecond nextUrl)
        | None => (m, Finished (Rejected e))
        end
      else (m, Finished (Rejected e))
  end.

Definition secondWriteAnswered (url : string) (r : result RpcError string) (now : Z) (m : ConnectionManager)
    : ConnectionManager * Phase :=
  match r with
  | Ok value => (recordSuccess url m, Finished (Resolved value))
  | Err e => (recordFailure url e now m, Finished (Rejected e))
  end.

(** ** Events *)

(** The call a phase is waiting for. *)
Definition callOf (p : Phase) : option string :=
  match p with WriteFirst url | WriteSecond url | ReadCall url _ _ => Some url | _ => None end.

Definition callsAfter (p : Phase) (calls : list (string * option (result RpcError string)))
    : list (string * option (result RpcError string)) :=
  match callOf p with Some url => calls ++ [(url, None)] | None => calls end.

(** The newest call gets its answer. *)
Definition answerLast (r : result RpcError string) (calls : list (string * option (result RpcError string)))
    : list (string * option (result RpcError string)) :=
  match last calls with
  | Some (url, None) => take (length calls - 1) calls ++ [(url, Some r)]
  | _ => calls
  end.

Definition isFinished (p : Phase) : bool := match p with Finished _ => true | _ => false end.

(** [inflight.delete(key)] when the read that holds the key has settled. *)
Definition settleKey (p : Phase) (rq : Request) (inflight : jsmap nat) : jsmap nat :=
  if isFinished p then mdel (deriveCoalesceKey (rq_method rq) (rq_args rq)) inflight else inflight.

Definition with_requests (i : nat) (rq : Request) (fl : jsmap nat) (m : ConnectionManager) : ConnectionManager := {|
  endpointUrls := endpointUrls m; endpointHealth := endpointHealth m; activeIndex := activeIndex m; inflight := fl;
  coalesceEnabled := coalesceEnabled m; retryConfig := retryConfig m; healthConfig := healthConfig m; aborted := aborted m;
  _totalRequests := _totalRequests m; _totalRetries := _totalRetries m; _totalFailovers := _totalFailovers m;
  _totalCoalesced := _totalCoalesced m; requests := <[i := rq]> (requests m) |}.

(** Request [i] goes on in a new phase. *)
Definition resume (i : nat) (rq : Request) (calls : list (string * option (result RpcError string)))
    (r : ConnectionManager * Phase) : ConnectionManager :=
  let '(m, p) := r in
  let fl := if negb (isWriteMethod (rq_method rq)) && coalesceEnabled m then settleKey p rq (inflight m) else inflight m in
  with_requests i {| rq_method := rq_method rq; rq_args := rq_args rq; rq_phase := p; rq_calls := callsAfter p calls |} fl m.

(** [createResilientRpcRequest]: a request up to its first [await]. *)
Definition addRequest (rq : Request) (fl : jsmap nat) (coalesced : Z) (m : ConnectionManager) : ConnectionManager := {|
  endpointUrls := endpointUrls m; endpointHealth := endpointHealth m; activeIndex := activeIndex m; inflight := fl;
  coalesceEnabled := coalesceEnabled m; retryConfig := retryConfig m; healthConfig := healthConfig m; aborted := aborted m;
  _totalRequests := _totalRequests m + 1; _totalRetries := _totalRetries m; _totalFailovers := _totalFailovers m;
  _totalCoalesced := _totalCoalesced m + coalesced; requests := requests m ++ [rq] |}.

Definition activeUrl (m : ConnectionManager) : string := default ""%string (endpointUrls m !! activeIndex m).

Definition rpcRequest (method args : string) (now : Z) (m : ConnectionManager) : ConnectionManager :=
  let request p := {| rq_method := method; rq_args := args; rq_phase := p; rq_calls := callsAfter p [] |} in
  if isWriteMethod method then addRequest (request (WriteFirst (activeUrl m))) (inflight m) 0 m
  else
    let key := deriveCoalesceKey method args in
    match (if coalesceEnabled m then mget (inflight m) key else None) with
    | Some leader => addRequest (request (Joined leader)) (inflight m) 1 m
    | None =>
        let '(m, p) := visitEndpoint (length (endpointUrls m)) (activeUrl m) 0 now m in
        let fl := if coalesceEnabled m && negb (isFinished p) then mset key (length (requests m)) (inflight m) else inflight m in
        addRequest (request p) fl 0 m
    end.

Definition destroy (m : ConnectionManager) : ConnectionManager := {|
  endpointUrls := endpointUrls m; endpointHealth := endpointHealth m; activeIndex := activeIndex m; inflight := [];
  coalesceEnabled := coalesceEnabled m; retryConfig := retryConfig m; healthConfig := healthConfig m; aborted := true;
  _totalRequests := _totalRequests m; _totalRetries := _totalRetries m; _totalFailovers := _totalFailovers m;
  _totalCoalesced := _totalCoalesced m; requests := requests m |}.

(** What happens to a manager: a call of the patched method, the answer to the
    call a request waits for, the end of a delay, [destroy]. *)
Inductive Event :=
| Call (method args : string)
| Answer (i : nat) (r : result RpcError string)
| Wake (i : nat)
| Destroy.

Definition handle (m : ConnectionManager) (ev : Event * Z) : ConnectionManager :=
  let '(e, now) := ev in
  match e with
  | Call method args => rpcRequest method args now m
  | Answer i r =>
      match requests m !! i with
      | None => m
      | Some rq =>
          let calls := answerLast r (rq_calls rq) in
          match rq_phase rq with
          | WriteFirst url => resume i rq calls (firstWriteAnswered url r now m)
          | WriteSecond url => resume i rq calls (secondWriteAnswered url r now m)
          | ReadCall url attempt tried => resume i rq calls (readAnswered url attempt tried r now m)
          | _ => m
          end
      end
  | Wake i =>
      match requests m !! i with
      | None => m
      | Some rq =>
          match rq_phase rq with
          | ReadSleep url attempt tried => resume i rq (rq_calls rq) (readWoken url attempt tried now m)
          | _ => m
          end
      end
  | Destroy => destroy m
  end.

(** What the promise of a request settled to. *)
Definition outcome (m : ConnectionManager) (i : nat) : option Outcome :=
  rq ← requests m !! i;
  match rq_phase rq with
  | Finished o => Some o
  | Joined leader => rq' ← requests m !! leader; match rq_phase rq' with Finished o => Some o | _ => None end
  | _ => None
  end.
