(* ===== verification/ConnectionSpec.v ===== *)
(** * Connection manager: what a request may do

    Writes reach at most two endpoints, reads make a bounded number of calls
    and settle, concurrent identical reads share one, whatever the order in
    which answers and wake-ups of all requests arrive. *)
From S2P Require Import Prelude JsMap JsString Connection.
#[local] Open Scope Z_scope.

(** ** What a step leaves alone *)

(** [m'] differs from [m] in health records, counters and the active endpoint. *)
Record frame (m m' : ConnectionManager) : Prop := {
  fr_urls : endpointUrls m' = endpointUrls m;
  fr_inflight : inflight m' = inflight m;
  fr_coalesce : coalesceEnabled m' = coalesceEnabled m;
  fr_retry : retryConfig m' = retryConfig m;
  fr_aborted : aborted m' = aborted m;
  fr_requests : requests m' = requests m;
  fr_active : (activeIndex m < length (endpointUrls m))%nat -> (activeIndex m' < length (endpointUrls m'))%nat;
}.

Lemma frame_refl m : frame m m.
Proof. by split. Qed.

Lemma frame_trans m1 m2 m3 : frame m1 m2 -> frame m2 m3 -> frame m1 m3.
Proof. intros [A1 A2 A3 A4 A5 A6 A7] [B1 B2 B3 B4 B5 B6 B7]. split; try congruence. auto. Qed.

Lemma frame_recordSuccess url m : frame m (recordSuccess url m).
Proof. unfold recordSuccess. destruct (mget _ _); by split. Qed.

Lemma frame_recordFailure url e now m : frame m (recordFailure url e now m).
Proof. unfold recordFailure. destruct (mget _ _); by split. Qed.

Lemma frame_countRetry m : frame m (countRetry m).
Proof. by split. Qed.

Lemma indexOfUrl_lt urls url : url ∈ urls -> (indexOfUrl urls url < length urls)%nat.
Proof.
  induction urls as [|u urls IH]; [by intros ?%not_elem_of_nil|]. intros [->|Hin]%elem_of_cons; cbn [indexOfUrl length].
  - rewrite String.eqb_refl. lia.
  - destruct (String.eqb u url); [lia|]. specialize (IH Hin). lia.
Qed.

Lemma frame_failover url m : url ∈ endpointUrls m -> frame m (failover url m).
Proof. intros Hin. split; try done. intros _. by apply indexOfUrl_lt. Qed.

#[local] Hint Resolve frame_refl frame_recordSuccess frame_recordFailure frame_countRetry frame_failover frame_trans : core.

Lemma roundRobin_spec urls url u : u ∈ roundRobin urls url -> u ∈ urls /\ (NoDup urls -> u <> url).
Proof.
  unfold roundRobin. induction urls as [|v urls IH]; [rewrite drop_nil, take_nil; by intros ?%not_elem_of_nil|].
  cbn [indexOfUrl]. destruct (String.eqb_spec v url) as [->|Hne]; cbn [drop take app].
  - rewrite app_nil_r. intros Hin. split; [by constructor|]. intros [Hv _]%NoDup_cons ->. done.
  - rewrite elem_of_app, elem_of_cons. intros Hin. split.
    + destruct Hin as [Hin|[->|Hin]]; [|by constructor|]; constructor; apply IH; set_solver.
    + intros [Hv Hnd]%NoDup_cons. destruct Hin as [Hin|[->|Hin]]; [|done|]; apply IH; set_solver.
Qed.

Lemma getNext_spec url now m u : getNextHealthyEndpoint url now m = Some u ->
  u ∈ endpointUrls m /\ (NoDup (endpointUrls m) -> u <> url).
Proof.
  unfold getNextHealthyEndpoint. destruct (_ =? 1)%nat; [done|]. intros [Hin%list_elem_of_In _]%find_some. by apply roundRobin_spec.
Qed.

(** The phase a read is in when it waits for [url]. *)
Definition calling (n : nat) (m : ConnectionManager) (tried : nat) (p : Phase) : Prop :=
  match p with
  | ReadCall url a t => a = 0 /\ (tried <= t < n)%nat /\ url ∈ endpointUrls m /\ 0 <= maxRetries (retryConfig m) /\ aborted m = false
  | Finished (AllEndpointsUnhealthy _) => True
  | _ => False
  end.

Lemma visitEndpoint_spec fuel url tried now m : url ∈ endpointUrls m ->
  let r := visitEndpoint fuel url tried now m in
  frame m r.1 /\ calling (tried + fuel) m tried r.2.
Proof.
  revert url tried m. induction fuel as [|fuel IH]; intros url tried m Hin; cbn [visitEndpoint]; [by split|].
  destruct (_ && _) eqn:E; [split; [done|]; cbn; repeat split; [lia|lia|done|lia|by destruct (aborted m); rewrite ?andb_false_r in E]|].
  destruct (getNextHealthyEndpoint url now m) as [u|] eqn:Hn; [|by split].
  apply getNext_spec in Hn as [Hu _]. destruct (IH u (S tried) (failover u m) Hu) as [IH1 IH2]. split; [eauto|].
  replace (tried + S fuel)%nat with (S tried + fuel)%nat by lia. unfold calling in *.
  destruct (visitEndpoint _ _ _ _ _).2; try done. destruct IH2 as (-> & Ht & Hp). repeat split; [lia|lia|apply Hp..].
Qed.

Lemma leaveEndpoint_spec url tried now m : (tried < length (endpointUrls m))%nat ->
  let r := leaveEndpoint url tried now m in
  frame m r.1 /\ calling (length (endpointUrls m)) m (S tried) r.2.
Proof.
  intros Ht. unfold leaveEndpoint. destruct (getNextHealthyEndpoint url now m) as [u|] eqn:Hn; [|by split].
  apply getNext_spec in Hn as [Hu _].
  destruct (visitEndpoint_spec (length (endpointUrls (failover u m)) - S tried) u (S tried) now (failover u m) Hu) as [H1 H2].
  split; [eauto|]. cbn [failover endpointUrls] in *. by replace (S tried + (length (endpointUrls m) - S tried))%nat with (length (endpointUrls m)) in H2 by lia.
Qed.

(** ** Calls of a request *)

Notation Calls := (list (string * option (result RpcError string))).

(** Calls answered with errors that allow a retry. *)
Definition retried (calls : Calls) : Prop := Forall (fun c => exists e, c.2 = Some (Err e) /\ isRetryableError e = true) calls.

(** The calls an endpoint may get from one read. *)
Definition perEndpoint (m : ConnectionManager) : Z := Z.max 0 (maxRetries (retryConfig m) + 1).

Definition numCalls (calls : Calls) : Z := Z.of_nat (length calls).

Definition read_ok (m : ConnectionManager) (rq : Request) : Prop :=
  let n := Z.of_nat (length (endpointUrls m)) in
  let calls := rq_calls rq in
  match rq_phase rq with
  | ReadCall url a t => Z.of_nat t < n /\ 0 <= a <= maxRetries (retryConfig m) /\ url ∈ endpointUrls m /\
      exists past, calls = past ++ [(url, None)] /\ retried past /\ numCalls past <= Z.of_nat t * perEndpoint m + a
  | ReadSleep url a t => Z.of_nat t < n /\ 0 <= a < maxRetries (retryConfig m) /\ url ∈ endpointUrls m /\
      retried calls /\ numCalls calls <= Z.of_nat t * perEndpoint m + a + 1
  | Joined _ => calls = []
  | Finished (Resolved v) => numCalls calls <= n * perEndpoint m /\
      exists past url, calls = past ++ [(url, Some (Ok v))] /\ retried past
  | Finished (Rejected e) => numCalls calls <= n * perEndpoint m /\
      exists past url, calls = past ++ [(url, Some (Err e))] /\ retried past /\ isRetryableError e = false
  | Finished (AllEndpointsUnhealthy _) => numCalls calls <= n * perEndpoint m /\ retried calls
  | _ => False
  end.

Definition settled_as (r : result RpcError string) : Outcome := match r with Ok v => Resolved v | Err e => Rejected e end.

(** A first call that failed at the level of the connection, before a call of
    another endpoint. *)
Definition failed_over (m : ConnectionManager) (past : Calls) (url : string) : Prop :=
  past = [] \/ exists u e, past = [(u, Some (Err e))] /\ isConnectionLevelError e = true /\ (NoDup (endpointUrls m) -> url <> u).

Definition write_ok (m : ConnectionManager) (rq : Request) : Prop :=
  match rq_phase rq with
  | WriteFirst url => url ∈ endpointUrls m /\ rq_calls rq = [(url, None)]
  | WriteSecond url => url ∈ endpointUrls m /\
      exists past, past <> [] /\ rq_calls rq = past ++ [(url, None)] /\ failed_over m past url
  | Finished o => exists past url r, rq_calls rq = past ++ [(url, Some r)] /\ o = settled_as r /\ failed_over m past url
  | _ => False
  end.

Definition request_ok (m : ConnectionManager) (rq : Request) : Prop :=
  if isWriteMethod (rq_method rq) then write_ok m rq else read_ok m rq.

(** The answers and wake-ups a request can still take. *)
Definition work (m : ConnectionManager) (p : Phase) : Z :=
  let n := Z.of_nat (length (endpointUrls m)) in
  match p with
  | WriteFirst _ => 2
  | WriteSecond _ => 1
  | ReadCall _ a t => 2 * ((n - 1 - Z.of_nat t) * perEndpoint m + (maxRetries (retryConfig m) - a) + 1)
  | ReadSleep _ a t => 2 * ((n - 1 - Z.of_nat t) * perEndpoint m + (maxRetries (retryConfig m) - a) + 1) - 1
  | Joined _ | Finished _ => 0
  end.

Record conn_inv (m : ConnectionManager) : Prop := {
  ci_active : (activeIndex m < length (endpointUrls m))%nat;
  ci_requests : Forall (request_ok m) (requests m);
}.

Lemma answerLast_snoc r past url : answerLast r (past ++ [(url, None)]) = past ++ [(url, Some r)].
Proof.
  unfold answerLast. rewrite last_snoc, length_app. cbn [length].
  by rewrite Nat.add_sub, take_app_length.
Qed.

Lemma activeUrl_elem m : (activeIndex m < length (endpointUrls m))%nat -> activeUrl m ∈ endpointUrls m.
Proof.
  intros Hi. unfold activeUrl. destruct (lookup_lt_is_Some_2 _ _ Hi) as [u Hu]. rewrite Hu. by eapply list_elem_of_lookup_2.
Qed.

(** The invariant of a request reads only the endpoints and the configuration. *)
Lemma request_ok_frame m m' rq : endpointUrls m' = endpointUrls m -> retryConfig m' = retryConfig m -> request_ok m rq -> request_ok m' rq.
Proof. unfold request_ok, write_ok, read_ok, failed_over, perEndpoint. by intros -> ->. Qed.

Lemma resume_inv m i rq calls m' p : conn_inv m -> frame m m' ->
  request_ok m {| rq_method := rq_method rq; rq_args := rq_args rq; rq_phase := p; rq_calls := callsAfter p calls |} ->
  conn_inv (resume i rq calls (m', p)).
Proof.
  intros [I1 I2] [F1 F2 F3 F4 F5 F6 F7] Hok. split; cbn; [auto|]. rewrite F6. apply Forall_insert.
  - eapply Forall_impl; [exact I2|]. intros rq0. by apply request_ok_frame.
  - by eapply request_ok_frame, Hok.
Qed.

Lemma numCalls_snoc past c : numCalls (past ++ [c]) = numCalls past + 1.
Proof. unfold numCalls. rewrite length_app. cbn [length]. lia. Qed.

Lemma perEndpoint_eq m : 0 <= maxRetries (retryConfig m) -> perEndpoint m = maxRetries (retryConfig m) + 1.
Proof. unfold perEndpoint. lia. Qed.

Lemma retried_snoc past url e : retried past -> isRetryableError e = true -> retried (past ++ [(url, Some (Err e))]).
Proof. intros Hp He. apply Forall_app. split; [done|]. apply Forall_singleton. by exists e. Qed.

Lemma read_request m rq p (calls : Calls) : isWriteMethod (rq_method rq) = false ->
  read_ok m {| rq_method := rq_method rq; rq_args := rq_args rq; rq_phase := p; rq_calls := calls |} ->
  request_ok m {| rq_method := rq_method rq; rq_args := rq_args rq; rq_phase := p; rq_calls := calls |}.
Proof. intros Hw Hr. unfold request_ok. cbn [rq_method]. by rewrite Hw. Qed.

(** Giving up an endpoint after the calls of [tried] others and its own. *)
Lemma calling_ok m rq tried p (calls : Calls) : isWriteMethod (rq_method rq) = false ->
  calling (length (endpointUrls m)) m tried p -> (tried <= length (endpointUrls m))%nat -> retried calls ->
  numCalls calls <= Z.of_nat tried * perEndpoint m ->
  request_ok m {| rq_method := rq_method rq; rq_args := rq_args rq; rq_phase := p; rq_calls := callsAfter p calls |}.
Proof.
  intros Hw Hc Ht Hr Hn. apply (read_request m rq); [done|].
  destruct p as [| |url a t| | |[| |s]]; try done; unfold read_ok; cbn [rq_phase rq_calls callsAfter callOf].
  - destruct Hc as (-> & Htt & Hu & HR & _). split_and!; [lia|lia|lia|done|]. exists calls. split_and!; [done|done|].
    unfold perEndpoint in *. nia.
  - split; [|done]. unfold perEndpoint in *. nia.
Qed.

Lemma calling_work m tried p : calling (length (endpointUrls m)) m tried p -> (tried <= length (endpointUrls m))%nat ->
  work m p <= 2 * ((Z.of_nat (length (endpointUrls m)) - Z.of_nat tried) * perEndpoint m).
Proof.
  intros Hc Ht. assert (0 <= perEndpoint m) by (unfold perEndpoint; lia).
  destruct p as [| |url a t| | |[| |s]]; try done; cbn [work]; [|nia].
  destruct Hc as (-> & Htt & _ & HR & _). rewrite perEndpoint_eq in * by done. nia.
Qed.

Lemma readAnswered_ok m rq url a t r now : conn_inv m -> request_ok m rq -> isWriteMethod (rq_method rq) = false ->
  rq_phase rq = ReadCall url a t ->
  let s := readAnswered url a t r now m in
  frame m s.1 /\ request_ok m {| rq_method := rq_method rq; rq_args := rq_args rq; rq_phase := s.2;
    rq_calls := callsAfter s.2 (answerLast r (rq_calls rq)) |} /\
  work m s.2 < work m (rq_phase rq).
Proof.
  intros _ Hok Hw Hp. unfold request_ok in Hok. rewrite Hw in Hok. unfold read_ok in Hok. rewrite Hp in Hok.
  destruct Hok as (Ht & Ha & Hu & past & Hcalls & Hpast & Hn). rewrite Hcalls, answerLast_snoc.
  assert (numCalls past + 1 <= Z.of_nat (length (endpointUrls m)) * perEndpoint m) as Hbound.
  { rewrite perEndpoint_eq in * by lia. nia. }
  assert (0 < work m (rq_phase rq)) as Hwork by (rewrite Hp; cbn [work]; rewrite perEndpoint_eq by lia; nia).
  unfold readAnswered. cbv zeta. destruct r as [value|e].
  - split_and!; [apply frame_recordSuccess| |done]. apply (read_request m rq); [done|].
    unfold read_ok. cbn [rq_phase rq_calls snd callsAfter callOf]. split; [by rewrite numCalls_snoc|]. eauto.
  - destruct (isRetryableError e) eqn:He; cbn [negb].
    2:{ split_and!; [apply frame_recordFailure| |done]. apply (read_request m rq); [done|].
        unfold read_ok. cbn [rq_phase rq_calls snd callsAfter callOf]. split; [by rewrite numCalls_snoc|]. eauto 6. }
    pose proof (frame_recordFailure url e now m) as HF. set (m1 := recordFailure url e now m) in *.
    pose proof (fr_retry _ _ HF) as HR. pose proof (fr_urls _ _ HF) as HU. rewrite HR.
    destruct (Z.geb_spec a (maxRetries (retryConfig m))) as [Hge|Hlt].
    + destruct (leaveEndpoint_spec url t now m1) as [L1 L2]; [rewrite HU; lia|]. split_and!; [eauto| |].
      * apply (request_ok_frame m1); [done|done|]. apply (calling_ok m1 rq (S t)); [done|done|rewrite HU; lia|by apply retried_snoc|].
        unfold perEndpoint in *. rewrite HR, numCalls_snoc. nia.
      * apply (calling_work m1 (S t)) in L2; [|rewrite HU; lia]. unfold work in L2 |- *. unfold perEndpoint in *. rewrite HR, HU in L2.
        rewrite Hp. nia.
    + split_and!; [eapply frame_trans; [exact HF|apply frame_countRetry]| |rewrite Hp; cbn [work snd]; lia].
      apply (read_request m rq); [done|]. unfold read_ok. cbn [rq_phase rq_calls snd callsAfter callOf].
      split_and!; [done|lia|lia|done|by apply retried_snoc|]. rewrite numCalls_snoc. lia.
Qed.

Lemma readWoken_ok m rq url a t now : conn_inv m -> request_ok m rq -> isWriteMethod (rq_method rq) = false ->
  rq_phase rq = ReadSleep url a t ->
  let s := readWoken url a t now m in
  frame m s.1 /\ request_ok m {| rq_method := rq_method rq; rq_args := rq_args rq; rq_phase := s.2;
    rq_calls := callsAfter s.2 (rq_calls rq) |} /\
  work m s.2 < work m (rq_phase rq).
Proof.
  intros _ Hok Hw Hp. unfold request_ok in Hok. rewrite Hw in Hok. unfold read_ok in Hok. rewrite Hp in Hok.
  destruct Hok as (Ht & Ha & Hu & Hr & Hn). unfold readWoken. cbv zeta. rewrite Hp. destruct (_ && _) eqn:E.
  - split_and!; [done| |cbn [work snd]; lia]. apply (read_request m rq); [done|]. unfold read_ok.
    cbn [rq_phase rq_calls snd callsAfter callOf]. split_and!; [done|lia|lia|done|]. eexists. split_and!; [done|done|lia].
  - destruct (leaveEndpoint_spec url t now m) as [L1 L2]; [lia|]. split_and!; [done| |].
    + apply (calling_ok m rq (S t)); [done|done|lia|done|]. unfold perEndpoint in *. nia.
    + apply (calling_work m (S t)) in L2; [|lia]. cbn [work]. nia.
Qed.

Lemma write_request m rq p (calls : Calls) : isWriteMethod (rq_method rq) = true ->
  write_ok m {| rq_method := rq_method rq; rq_args := rq_args rq; rq_phase := p; rq_calls := calls |} ->
  request_ok m {| rq_method := rq_method rq; rq_args := rq_args rq; rq_phase := p; rq_calls := calls |}.
Proof. intros Hw Hr. unfold request_ok. cbn [rq_method]. by rewrite Hw. Qed.

(** A write that settles with the answer of its newest call. *)
Lemma write_settles m rq past url r : isWriteMethod (rq_method rq) = true -> failed_over m past url ->
  request_ok m {| rq_method := rq_method rq; rq_args := rq_args rq; rq_phase := Finished (settled_as r);
    rq_calls := callsAfter (Finished (settled_as r)) (past ++ [(url, Some r)]) |}.
Proof. intros Hw Hf. apply (write_request m rq); [done|]. unfold write_ok. cbn. by exists past, url, r. Qed.

Lemma firstWriteAnswered_ok m rq url r now : request_ok m rq -> isWriteMethod (rq_method rq) = true ->
  rq_phase rq = WriteFirst url ->
  let s := firstWriteAnswered url r now m in
  frame m s.1 /\ request_ok m {| rq_method := rq_method rq; rq_args := rq_args rq; rq_phase := s.2;
    rq_calls := callsAfter s.2 (answerLast r (rq_calls rq)) |} /\
  work m s.2 < work m (rq_phase rq).
Proof.
  intros Hok Hw Hp. unfold request_ok in Hok. rewrite Hw in Hok. unfold write_ok in Hok. rewrite Hp in Hok.
  destruct Hok as [Hu Hcalls]. pose proof (answerLast_snoc r [] url) as Ha. cbn [app] in Ha. rewrite Hcalls, Ha. unfold firstWriteAnswered. cbv zeta.
  assert (failed_over m [] url) as Hf by (by left).
  rewrite Hp.
  destruct r as [value|e]; [split_and!; [apply frame_recordSuccess|by apply (write_settles m rq [] url (Ok value))|done]|].
  pose proof (frame_recordFailure url e now m) as HF. set (m1 := recordFailure url e now m) in *.
  destruct (isConnectionLevelError e) eqn:He; [|split_and!; [done|by apply (write_settles m rq [] url (Err e))|done]].
  destruct (getNextHealthyEndpoint url now m1) as [u|] eqn:Hn; [|split_and!; [done|by apply (write_settles m rq [] url (Err e))|done]].
  apply getNext_spec in Hn as [Hin Hne]. rewrite (fr_urls _ _ HF) in Hin, Hne. split_and!; [| |done].
  - eapply frame_trans; [exact HF|]. apply frame_failover. by rewrite (fr_urls _ _ HF).
  - apply (write_request m rq); [done|]. unfold write_ok. cbn [rq_phase rq_calls snd callsAfter callOf app]. split; [done|].
    exists [(url, Some (Err e))]. split_and!; [done|done|]. right. by exists url, e.
Qed.

Lemma secondWriteAnswered_ok m rq url r now : request_ok m rq -> isWriteMethod (rq_method rq) = true ->
  rq_phase rq = WriteSecond url ->
  let s := secondWriteAnswered url r now m in
  frame m s.1 /\ request_ok m {| rq_method := rq_method rq; rq_args := rq_args rq; rq_phase := s.2;
    rq_calls := callsAfter s.2 (answerLast r (rq_calls rq)) |} /\
  work m s.2 < work m (rq_phase rq).
Proof.
  intros Hok Hw Hp. unfold request_ok in Hok. rewrite Hw in Hok. unfold write_ok in Hok. rewrite Hp in Hok.
  destruct Hok as (Hu & past & _ & Hcalls & Hf). rewrite Hcalls, answerLast_snoc. unfold secondWriteAnswered. cbv zeta.
  rewrite Hp. destruct r as [value|e]; (split_and!; [| |done]).
  - apply frame_recordSuccess.
  - by apply (write_settles m rq past url (Ok value)).
  - apply frame_recordFailure.
  - by apply (write_settles m rq past url (Err e)).
Qed.

Lemma addRequest_inv m m' rq fl c : conn_inv m -> frame m m' -> request_ok m rq -> conn_inv (addRequest rq fl c m').
Proof.
  intros [I1 I2] [F1 F2 F3 F4 F5 F6 F7] Hok. split; cbn [addRequest activeIndex endpointUrls requests]; [auto|].
  rewrite F6. apply Forall_app. split; [|apply Forall_singleton].
  - eapply Forall_impl; [exact I2|]. intros rq0. by apply request_ok_frame.
  - by eapply request_ok_frame, Hok.
Qed.

(** ** The shape of a step *)

Definition keyOf (rq : Request) : string := deriveCoalesceKey (rq_method rq) (rq_args rq).

(** A read that is being executed. *)
Definition executing (p : Phase) : bool := match p with ReadCall _ _ _ | ReadSleep _ _ _ => true | _ => false end.

(** The event resumes request [i]. *)
Definition takes (m : ConnectionManager) (e : Event) (i : nat) : bool :=
  match requests m !! i with
  | None => false
  | Some rq =>
      match e, rq_phase rq with
      | Answer j _, (WriteFirst _ | WriteSecond _ | ReadCall _ _ _) => (i =? j)%nat
      | Wake j, ReadSleep _ _ _ => (i =? j)%nat
      | _, _ => false
      end
  end.

Definition joins (p : Phase) : bool := match p with Joined _ => true | _ => false end.

Lemma visitEndpoint_joins fuel url tried now m : joins (visitEndpoint fuel url tried now m).2 = false.
Proof.
  revert url tried m. induction fuel as [|fuel IH]; intros url tried m; cbn [visitEndpoint]; [done|].
  destruct (_ && _); [done|]. by destruct (getNextHealthyEndpoint url now m).
Qed.

Lemma leaveEndpoint_joins url tried now m : joins (leaveEndpoint url tried now m).2 = false.
Proof. unfold leaveEndpoint. destruct (getNextHealthyEndpoint url now m); [apply visitEndpoint_joins|done]. Qed.

(** A request that is resumed does not come to share a promise. *)
Lemma resumed_joins url a t r now m :
  joins (firstWriteAnswered url r now m).2 = false /\ joins (secondWriteAnswered url r now m).2 = false /\
  joins (readAnswered url a t r now m).2 = false /\ joins (readWoken url a t now m).2 = false.
Proof.
  unfold firstWriteAnswered, secondWriteAnswered, readAnswered, readWoken.
  split_and!; repeat case_match; auto using leaveEndpoint_joins.
Qed.

(** How the map of shared promises grows with a request. *)
Definition started_ok (m : ConnectionManager) (rq : Request) (fl : jsmap nat) : Prop :=
  match rq_phase rq with
  | Joined leader => isWriteMethod (rq_method rq) = false /\ coalesceEnabled m = true /\ mget (inflight m) (keyOf rq) = Some leader /\ fl = inflight m
  | ReadCall _ _ _ => aborted m = false /\
      if coalesceEnabled m then mget (inflight m) (keyOf rq) = None /\ fl = mset (keyOf rq) (length (requests m)) (inflight m) else fl = inflight m
  | ReadSleep _ _ _ => False
  | _ => fl = inflight m
  end.

Inductive shape (m : ConnectionManager) (e : Event) : ConnectionManager -> Prop :=
| Skipped : (forall i, takes m e i = false) -> shape m e m
| Destroyed : e = Destroy -> shape m e (destroy m)
| Started rq fl c m1 : (forall i, takes m e i = false) -> frame m m1 -> request_ok m rq -> started_ok m rq fl ->
    shape m e (addRequest rq fl c m1)
| Resumed i rq calls m1 p : requests m !! i = Some rq -> (forall j, takes m e j = true <-> j = i) -> frame m m1 ->
    request_ok m {| rq_method := rq_method rq; rq_args := rq_args rq; rq_phase := p; rq_calls := callsAfter p calls |} ->
    work m p < work m (rq_phase rq) -> joins p = false -> shape m e (resume i rq calls (m1, p)).

Lemma rpcRequest_shape method args now m : conn_inv m -> shape m (Call method args) (rpcRequest method args now m).
Proof.
  intros Hi. pose proof (activeUrl_elem m (ci_active _ Hi)) as Hu.
  assert (forall i, takes m (Call method args) i = false) as Ht by (intros i; unfold takes; by destruct (requests m !! i)).
  unfold rpcRequest. destruct (isWriteMethod method) eqn:Hw.
  { apply Started; [done|done| |done]. unfold request_ok. cbn [rq_method]. rewrite Hw. by split. }
  set (rq0 := {| rq_method := method; rq_args := args; rq_phase := Joined 0; rq_calls := [] |}).
  destruct (coalesceEnabled m) eqn:Hc; [destruct (mget (inflight m) (deriveCoalesceKey method args)) as [leader|] eqn:Hg|].
  { apply Started; [done|done|by apply (read_request m rq0)|done]. }
  all: destruct (visitEndpoint_spec (length (endpointUrls m)) (activeUrl m) 0 now m Hu) as [HF Hcall].
  all: destruct (visitEndpoint _ _ _ _ _) as [m' p]; cbn [fst snd] in *.
  all: apply Started; [done|done|apply (calling_ok m rq0 0 p []); [done|done|lia|constructor|done]|].
  all: unfold started_ok; rewrite ?(fr_coalesce _ _ HF), ?(fr_inflight _ _ HF), ?(fr_requests _ _ HF), Hc.
  all: destruct p as [| |url a t| | |[| |s]]; try done; cbn [rq_phase isFinished andb negb].
  all: by destruct Hcall as (_ & _ & _ & _ & Hab).
Qed.

Lemma takes_one m e i rq : requests m !! i = Some rq -> takes m e i = true ->
  (match e with Answer j _ | Wake j => j = i | _ => False end) -> forall j, takes m e j = true <-> j = i.
Proof.
  intros Hrq Ht He j. split; [|by intros ->]. unfold takes. destruct (requests m !! j) as [rq'|]; [|done].
  destruct e as [|k|k|]; try done; subst k; destruct (rq_phase rq'); try done; by intros ?%Nat.eqb_eq.
Qed.

Lemma takes_other m e i : (match e with Answer j _ | Wake j => j = i | _ => False end) -> takes m e i = false -> forall j, takes m e j = false.
Proof.
  intros He Ht j. destruct (decide (j = i)) as [->|Hne]; [done|]. unfold takes. destruct (requests m !! j) as [rq|]; [|done].
  destruct e as [|k|k|]; try done; subst k; destruct (rq_phase rq); try done; by apply Nat.eqb_neq.
Qed.

(** A phase a request of its kind cannot be in. *)
Ltac wrong_kind Hok Hw Hp := exfalso; unfold request_ok in Hok; rewrite Hw in Hok; unfold write_ok, read_ok in Hok; by rewrite Hp in Hok.

Lemma handle_shape m e now : conn_inv m -> shape m e (handle m (e, now)).
Proof.
  intros Hi. destruct e as [method args|i r|i|]; cbn [handle].
  - by apply rpcRequest_shape.
  - destruct (requests m !! i) as [rq|] eqn:Hrq.
    2:{ apply Skipped, (takes_other m (Answer i r) i eq_refl). unfold takes. by rewrite Hrq. }
    assert (request_ok m rq) as Hok by (eapply Forall_lookup_1; [apply Hi|exact Hrq]).
    assert (takes m (Answer i r) i = bool_decide (is_Some (callOf (rq_phase rq)))) as Ht.
    { unfold takes. rewrite Hrq. by destruct (rq_phase rq); cbn; rewrite ?Nat.eqb_refl. }
    destruct (rq_phase rq) as [url|url|url a t|url a t|l|o] eqn:Hp;
      try (apply Skipped; by apply (takes_other m (Answer i r) i));
      destruct (isWriteMethod (rq_method rq)) eqn:Hw; try (wrong_kind Hok Hw Hp);
      pose proof (takes_one m (Answer i r) i rq Hrq Ht eq_refl) as Ht'.
    + destruct (firstWriteAnswered_ok m rq url r now Hok Hw Hp) as (HF & Hn & Hwk).
      destruct (resumed_joins url 0 0%nat r now m) as (J1 & J2 & J3 & _). destruct (firstWriteAnswered _ _ _ _). by apply Resumed.
    + destruct (secondWriteAnswered_ok m rq url r now Hok Hw Hp) as (HF & Hn & Hwk).
      destruct (resumed_joins url 0 0%nat r now m) as (J1 & J2 & J3 & _). destruct (secondWriteAnswered _ _ _ _). by apply Resumed.
    + destruct (readAnswered_ok m rq url a t r now Hi Hok Hw Hp) as (HF & Hn & Hwk).
      destruct (resumed_joins url a t r now m) as (J1 & J2 & J3 & _). destruct (readAnswered _ _ _ _ _ _). by apply Resumed.
  - destruct (requests m !! i) as [rq|] eqn:Hrq.
    2:{ apply Skipped, (takes_other m (Wake i) i eq_refl). unfold takes. by rewrite Hrq. }
    assert (request_ok m rq) as Hok by (eapply Forall_lookup_1; [apply Hi|exact Hrq]).
    destruct (rq_phase rq) as [url|url|url a t|url a t|l|o] eqn:Hp;
      try (apply Skipped, (takes_other m (Wake i) i eq_refl); unfold takes; by rewrite Hrq, Hp).
    destruct (isWriteMethod (rq_method rq)) eqn:Hw; [wrong_kind Hok Hw Hp|].
    assert (takes m (Wake i) i = true) as Ht by (unfold takes; rewrite Hrq, Hp; apply Nat.eqb_refl).
    destruct (readWoken_ok m rq url a t now Hi Hok Hw Hp) as (HF & Hn & Hwk).
    destruct (resumed_joins url a t (Ok EmptyString) now m) as (_ & _ & _ & J4). destruct (readWoken _ _ _ _ _).
    apply Resumed; try done. by apply (takes_one m (Wake i) i rq Hrq Ht eq_refl).
  - by apply Destroyed.
Qed.
