(* ===== verification/ConnectionRuns.v ===== *)
(** * Connection manager: theorems about whole runs *)
From S2P Require Import Prelude JsMap JsString Connection ConnectionSpec.
#[local] Open Scope Z_scope.

(** A manager reached from a new one by any events. *)
Definition reached (urls : list string) (retry : RetryConfig) (health : HealthCheckConfig) (coalesce : option bool)
    (events : list (Event * Z)) (m : ConnectionManager) : Prop :=
  exists m0, newConnectionManager urls retry health coalesce = Some m0 /\ m = foldl handle m0 events.

Record same_config (m m' : ConnectionManager) : Prop := {
  sc_urls : endpointUrls m' = endpointUrls m;
  sc_retry : retryConfig m' = retryConfig m;
  sc_coalesce : coalesceEnabled m' = coalesceEnabled m;
}.

Lemma shape_config m e m' : shape m e m' -> same_config m m'.
Proof.
  destruct 1 as [|_|rq fl c m1 _ [F1 _ F3 F4 _ _ _] _ _|i rq calls m1 p _ _ [F1 _ F3 F4 _ _ _] _ _ _]; split; try done; cbn; congruence.
Qed.

Lemma shape_inv m e m' : conn_inv m -> shape m e m' -> conn_inv m'.
Proof.
  intros Hi. destruct 1 as [|_|rq fl c m1 _ HF Hok _|i rq calls m1 p _ _ HF Hok _ _]; [done| | |].
  - destruct Hi as [I1 I2]. split; [done|]. eapply Forall_impl; [exact I2|]. intros rq. by apply request_ok_frame.
  - by apply (addRequest_inv m).
  - by apply (resume_inv m).
Qed.

Lemma handle_inv m ev : conn_inv m -> conn_inv (handle m ev) /\ same_config m (handle m ev).
Proof.
  intros Hi. destruct ev as [e now]. pose proof (handle_shape m e now Hi) as Hs.
  split; [by eapply shape_inv|by eapply shape_config].
Qed.

Lemma run_inv m events : conn_inv m -> conn_inv (foldl handle m events) /\ same_config m (foldl handle m events).
Proof.
  intros Hi. induction events as [|ev events IH] using rev_ind; [by split|]. rewrite foldl_snoc.
  destruct IH as [IH [C1 C2 C3]]. destruct (handle_inv _ ev IH) as [H1 [D1 D2 D3]]. split; [done|]. split; congruence.
Qed.

Lemma new_inv urls retry health coalesce m : newConnectionManager urls retry health coalesce = Some m ->
  conn_inv m /\ endpointUrls m = urls /\ retryConfig m = retry /\ coalesceEnabled m = default true coalesce.
Proof.
  unfold newConnectionManager. destruct urls as [|u urls]; [done|]. intros [= <-]. split_and!; try done.
  split; [cbn; lia|constructor].
Qed.

Lemma reached_inv urls retry health coalesce events m : reached urls retry health coalesce events m ->
  conn_inv m /\ endpointUrls m = urls /\ retryConfig m = retry /\ coalesceEnabled m = default true coalesce.
Proof.
  intros (m0 & Hn & ->). apply new_inv in Hn as (Hi & H1 & H2 & H3). destruct (run_inv m0 events Hi) as [Hr [C1 C2 C3]].
  split_and!; [done|congruence..].
Qed.

Lemma outcome_executed m i rq o : requests m !! i = Some rq -> (forall l, rq_phase rq <> Joined l) -> outcome m i = Some o ->
  rq_phase rq = Finished o.
Proof.
  intros Hrq Hj. unfold outcome, mbind, option_bind. rewrite Hrq. destruct (rq_phase rq) as [| | | |l|o']; try done; [by destruct (Hj l)|].
  by intros [= ->].
Qed.

(** C35. Writes are not repeated. With endpoints that differ, whatever the order of
    events, a write has sent
    its transaction to one endpoint, or to two: then the first answer was a
    connection-level error and the endpoints differ; and it settles with the
    answer to its last call. *)
Theorem write_sent_at_most_twice (urls : list string) (retry : RetryConfig) (health : HealthCheckConfig) (coalesce : option bool)
    (events : list (Event * Z)) (m : ConnectionManager) (i : nat) (rq : Request) :
  reached urls retry health coalesce events m -> NoDup urls ->
  requests m !! i = Some rq -> isWriteMethod (rq_method rq) = true ->
  exists past url answer, rq_calls rq = past ++ [(url, answer)] /\
    (past = [] \/ exists u e, past = [(u, Some (Err e))] /\ isConnectionLevelError e = true /\ url <> u) /\
    (forall o, outcome m i = Some o -> exists r, answer = Some r /\ o = settled_as r).
Proof.
  intros Hr Hnd Hrq Hw. apply reached_inv in Hr as (Hi & Hu & _).
  assert (request_ok m rq) as Hok by (eapply Forall_lookup_1; [apply Hi|exact Hrq]).
  unfold request_ok in Hok. rewrite Hw in Hok. unfold write_ok, failed_over in Hok. rewrite Hu in Hok.
  destruct (rq_phase rq) as [url|url|url a t|url a t|l|o] eqn:Hp; try done.
  - destruct Hok as [_ Hcalls]. exists [], url, None. split_and!; [done|by left|].
    intros o Ho. apply (outcome_executed m i rq o Hrq) in Ho; [by rewrite Hp in Ho|]. intros l. by rewrite Hp.
  - destruct Hok as (_ & past & _ & Hcalls & Hf). exists past, url, None. split_and!; [done|naive_solver|].
    intros o Ho. apply (outcome_executed m i rq o Hrq) in Ho; [by rewrite Hp in Ho|]. intros l. by rewrite Hp.
  - destruct Hok as (past & url & r & Hcalls & Ho & Hf). exists past, url, (Some r). split_and!; [done|naive_solver|].
    intros o' Ho'. apply (outcome_executed m i rq o' Hrq) in Ho'; [|intros l; by rewrite Hp]. exists r. split; [done|congruence].
Qed.

(** Reads are retried within bounds. Whatever the order of events, a read
    makes at most the number of endpoints times the attempts per endpoint of
    calls; every call but the last was answered by an error that allows a retry.
    It resolves with the answer of its last call, is rejected with the last
    error when that allows none, and otherwise every call failed so. *)
Theorem read_calls_bounded (urls : list string) (retry : RetryConfig) (health : HealthCheckConfig) (coalesce : option bool)
    (events : list (Event * Z)) (m : ConnectionManager) (i : nat) (rq : Request) :
  reached urls retry health coalesce events m ->
  requests m !! i = Some rq -> isWriteMethod (rq_method rq) = false ->
  numCalls (rq_calls rq) <= Z.of_nat (length urls) * Z.max 0 (maxRetries retry + 1) /\
  match rq_phase rq with
  | Finished (Resolved v) => exists past url, rq_calls rq = past ++ [(url, Some (Ok v))] /\ retried past
  | Finished (Rejected e) => exists past url, rq_calls rq = past ++ [(url, Some (Err e))] /\ retried past /\ isRetryableError e = false
  | Finished (AllEndpointsUnhealthy _) => retried (rq_calls rq)
  | ReadCall url _ _ => exists past, rq_calls rq = past ++ [(url, None)] /\ retried past /\ url ∈ urls
  | ReadSleep _ _ _ => retried (rq_calls rq)
  | Joined _ => rq_calls rq = []
  | _ => False
  end.
Proof.
  intros Hr Hrq Hw. apply reached_inv in Hr as (Hi & Hu & HR & _).
  assert (request_ok m rq) as Hok by (eapply Forall_lookup_1; [apply Hi|exact Hrq]).
  unfold request_ok in Hok. rewrite Hw in Hok. unfold read_ok, perEndpoint in Hok. rewrite Hu, HR in Hok.
  destruct (rq_phase rq) as [url|url|url a t|url a t|l|[v|e|s]] eqn:Hp; try done.
  - destruct Hok as (Ht & Ha & Hin & past & Hcalls & Hpast & Hn). split; [rewrite Hcalls, numCalls_snoc; nia|]. eauto.
  - destruct Hok as (Ht & Ha & Hin & Hpast & Hn). split; [nia|done].
  - rewrite Hok. unfold numCalls. cbn [length]. split; [nia|done].
Qed.

(** ** Settling *)

(** How many of the events resume request [i]. *)
Fixpoint resumptions (i : nat) (m : ConnectionManager) (events : list (Event * Z)) : Z :=
  match events with
  | [] => 0
  | ev :: events => (if takes m ev.1 i then 1 else 0) + resumptions i (handle m ev) events
  end.

Definition phaseWork (m : ConnectionManager) (i : nat) : Z :=
  match requests m !! i with Some rq => work m (rq_phase rq) | None => 0 end.

Lemma work_nonneg m rq : request_ok m rq -> 0 <= work m (rq_phase rq).
Proof.
  unfold request_ok, write_ok, read_ok. destruct (isWriteMethod _); destruct (rq_phase rq) as [url|url|url a t|url a t|l|o]; try done; cbn [work]; try lia.
  - intros (Ht & Ha & _). unfold perEndpoint. nia.
  - intros (Ht & Ha & _). unfold perEndpoint. nia.
Qed.

Lemma work_config m m' p : same_config m m' -> work m' p = work m p.
Proof. intros [C1 C2 _]. unfold work, perEndpoint. by rewrite C1, C2. Qed.

(** A step takes one unit of the work of the request it resumes, and nothing
    from the others. *)
Lemma handle_work m ev i : conn_inv m -> (i < length (requests m))%nat ->
  phaseWork (handle m ev) i + (if takes m ev.1 i then 1 else 0) <= phaseWork m i.
Proof.
  intros Hi Hlt. destruct ev as [e now]. pose proof (handle_shape m e now Hi) as Hs. pose proof (shape_config _ _ _ Hs) as Hc.
  unfold phaseWork. destruct (lookup_lt_is_Some_2 _ _ Hlt) as [rq0 Hrq0]. rewrite Hrq0. cbn [fst].
  destruct Hs as [Ht| ->|rq fl c m1 Ht HF Hok _|j rq calls m1 p Hj Ht HF Hok Hw _].
  - rewrite Hrq0, Ht. lia.
  - cbn [destroy requests]. rewrite Hrq0, (work_config _ _ _ Hc). unfold takes. rewrite Hrq0. destruct (rq_phase rq0); lia.
  - cbn [addRequest requests]. rewrite (fr_requests _ _ HF), lookup_app_l, Hrq0, Ht by done. rewrite (work_config _ _ _ Hc). lia.
  - cbn [resume with_requests requests] in *. rewrite (fr_requests _ _ HF). destruct (decide (i = j)) as [->|Hne].
    + rewrite list_lookup_insert_eq by done. cbn [rq_phase]. rewrite Hj in Hrq0. simplify_eq. rewrite (proj2 (Ht j) eq_refl).
      rewrite (work_config _ _ p Hc). lia.
    + rewrite list_lookup_insert_ne by done. rewrite Hrq0, (work_config _ _ _ Hc).
      destruct (takes m e i) eqn:E; [by apply Ht in E|lia].
Qed.

Lemma shape_length m e m' : shape m e m' -> (length (requests m) <= length (requests m'))%nat.
Proof.
  destruct 1 as [|_|rq fl c m1 _ HF _ _|i rq calls m1 p _ _ HF _ _ _]; cbn; rewrite ?(fr_requests _ _ HF), ?length_insert, ?length_app; lia.
Qed.

Lemma resumptions_bounded m events i : conn_inv m -> (i < length (requests m))%nat ->
  phaseWork (foldl handle m events) i + resumptions i m events <= phaseWork m i.
Proof.
  revert m. induction events as [|ev events IH]; intros m Hi Hlt; cbn [foldl resumptions]; [lia|].
  pose proof (handle_work m ev i Hi Hlt). assert (i < length (requests (handle m ev)))%nat as Hlt'.
  { destruct ev as [e now]. pose proof (shape_length _ _ _ (handle_shape m e now Hi)). lia. }
  specialize (IH (handle m ev) (proj1 (handle_inv m ev Hi)) Hlt'). lia.
Qed.

Lemma work_bound m rq : request_ok m rq ->
  work m (rq_phase rq) <= 2 * Z.max 1 (Z.of_nat (length (endpointUrls m)) * perEndpoint m).
Proof.
  unfold request_ok, write_ok, read_ok. destruct (isWriteMethod _); destruct (rq_phase rq) as [url|url|url a t|url a t|l|o]; try done; cbn [work]; try lia.
  - intros (Ht & Ha & _). rewrite perEndpoint_eq by lia. nia.
  - intros (Ht & Ha & _). rewrite perEndpoint_eq by lia. nia.
Qed.

(** C36. Requests settle. In any run, the answers and wake-ups that resume a
    request are at most twice the calls it may make; while it has not settled
    and does not share the promise of another, an answer or a wake-up resumes
    it, and after as many resumptions as its remaining work it has settled. *)
Theorem requests_settle (urls : list string) (retry : RetryConfig) (health : HealthCheckConfig) (coalesce : option bool)
    (events : list (Event * Z)) (m : ConnectionManager) (i : nat) (rq : Request) :
  reached urls retry health coalesce events m -> requests m !! i = Some rq ->
  let bound := 2 * Z.max 1 (Z.of_nat (length urls) * Z.max 0 (maxRetries retry + 1)) in
  (forall more, resumptions i m more <= bound) /\
  ((exists o, rq_phase rq = Finished o) \/ (exists l, rq_phase rq = Joined l) \/
   takes m (Wake i) i = true \/ forall r, takes m (Answer i r) i = true) /\
  (forall more rq', requests (foldl handle m more) !! i = Some rq' -> resumptions i m more = work m (rq_phase rq) ->
     (exists o, rq_phase rq' = Finished o) \/ exists l, rq_phase rq' = Joined l).
Proof.
  intros Hr Hrq bound. apply reached_inv in Hr as (Hi & Hu & HR & _).
  assert (request_ok m rq) as Hok by (eapply Forall_lookup_1; [apply Hi|exact Hrq]).
  assert (i < length (requests m))%nat as Hlt by (by eapply lookup_lt_Some).
  assert (phaseWork m i = work m (rq_phase rq)) as Hpw by (unfold phaseWork; by rewrite Hrq). split_and!.
  - intros more. pose proof (resumptions_bounded m more i Hi Hlt) as Hb. pose proof (work_bound m rq Hok) as Hw.
    assert (0 <= phaseWork (foldl handle m more) i).
    { unfold phaseWork. destruct (requests (foldl handle m more) !! i) as [rq'|] eqn:E; [|lia]. apply work_nonneg.
      eapply Forall_lookup_1; [apply (run_inv m more Hi)|exact E]. }
    unfold perEndpoint in Hw. rewrite Hu, HR in Hw. unfold bound. lia.
  - unfold takes. rewrite Hrq. destruct (rq_phase rq) as [url|url|url a t|url a t|l|o]; eauto; rewrite Nat.eqb_refl; auto.
  - intros more rq' Hrq' Heq. pose proof (resumptions_bounded m more i Hi Hlt) as Hb. unfold phaseWork in Hb at 1. rewrite Hrq' in Hb.
    destruct (run_inv m more Hi) as [Hi' Hc']. assert (request_ok (foldl handle m more) rq') as Hok' by (eapply Forall_lookup_1; [apply Hi'|exact Hrq']).
    assert (work (foldl handle m more) (rq_phase rq') <= 0) as Hz by lia. clear -Hok' Hz.
    unfold request_ok, write_ok, read_ok in Hok'. destruct (isWriteMethod _); destruct (rq_phase rq') as [url|url|url a t|url a t|l|o]; try done; eauto;
      cbn [work] in Hz; try lia; destruct Hok' as (Ht & Ha & _); rewrite perEndpoint_eq in Hz by lia; nia.
Qed.

(** ** Coalescing *)

Definition is_read (rq : Request) : bool := negb (isWriteMethod (rq_method rq)).

(** The shared promises are those of the executing reads, and a request that
    shares one has the key of the other. *)
Record coalesce_inv (m : ConnectionManager) : Prop := {
  co_off : coalesceEnabled m = false -> inflight m = [];
  co_executing : coalesceEnabled m = true -> aborted m = false ->
    forall i rq, requests m !! i = Some rq -> executing (rq_phase rq) = true -> mget (inflight m) (keyOf rq) = Some i;
  co_inflight : forall k i, mget (inflight m) k = Some i ->
    exists rq, requests m !! i = Some rq /\ keyOf rq = k /\ executing (rq_phase rq) = true;
  co_joined : forall i rq l, requests m !! i = Some rq -> rq_phase rq = Joined l ->
    exists rq', requests m !! l = Some rq' /\ keyOf rq' = keyOf rq /\ is_read rq' = true /\ (l < i)%nat /\ forall l', rq_phase rq' <> Joined l';
}.

Lemma executing_read m rq : request_ok m rq -> executing (rq_phase rq) = true -> is_read rq = true.
Proof.
  unfold request_ok, write_ok, is_read. destruct (isWriteMethod (rq_method rq)); [|done]. by destruct (rq_phase rq).
Qed.

Lemma lookup_snoc_Some {A} (l : list A) x i y : (l ++ [x]) !! i = Some y <-> l !! i = Some y \/ i = length l /\ y = x.
Proof.
  rewrite lookup_app_Some. split; (intros [H|[H1 H2]]; [by left|right]).
  - destruct (i - length l)%nat eqn:E; cbn in H2; [simplify_eq; split; [lia|done]|done].
  - subst. split; [done|]. by rewrite Nat.sub_diag.
Qed.

Lemma started_coalesce m rq fl c m1 : conn_inv m -> coalesce_inv m -> frame m m1 -> request_ok m rq -> started_ok m rq fl ->
  coalesce_inv (addRequest rq fl c m1).
Proof.
  intros Hi [C0 C1 C2 C3] [F1 F2 F3 F4 F5 F6 F7] Hok Hs. split; cbn [addRequest coalesceEnabled aborted requests inflight]; rewrite ?F6.
  - rewrite F3. intros Hc. specialize (C0 Hc). unfold started_ok in Hs. destruct (rq_phase rq); rewrite ?Hc in Hs; naive_solver.
  - rewrite F3, F5. intros Hc Ha i rq' [Hrq|[-> ->]]%lookup_snoc_Some He; specialize (C1 Hc Ha).
    + specialize (C1 i rq' Hrq He). unfold started_ok in Hs. destruct (rq_phase rq); try (by subst fl); try (by destruct Hs); [|by destruct Hs as (_ & _ & _ & ->)].
      destruct Hs as [_ Hs]. rewrite Hc in Hs. destruct Hs as [Hn ->]. rewrite mget_mset_ne; [done|]. intros Heq. by rewrite Heq, C1 in Hn.
    + unfold started_ok in Hs. destruct (rq_phase rq); try done. destruct Hs as [_ Hs]. rewrite Hc in Hs. destruct Hs as [_ ->]. apply mget_mset_eq.
  - intros k i Hg. assert (mget (inflight m) k = Some i \/ i = length (requests m) /\ k = keyOf rq /\ executing (rq_phase rq) = true) as [Hold|(-> & -> & He)].
    { unfold started_ok in Hs. destruct (rq_phase rq); try (subst fl; by left); try (by destruct Hs); [|destruct Hs as (_ & _ & _ & ->); by left].
      destruct Hs as [_ Hs]. destruct (coalesceEnabled m); [|subst fl; by left]. destruct Hs as [_ ->].
      rewrite mget_mset in Hg. destruct (String.eqb_spec k (keyOf rq)) as [->|]; [right; by simplify_eq|by left]. }
    + apply C2 in Hold as (rq' & Hrq & Hk). exists rq'. split; [|done]. apply lookup_snoc_Some. by left.
    + exists rq. split; [|done]. apply lookup_snoc_Some. by right.
  - intros i rq' l [Hrq|[-> ->]]%lookup_snoc_Some Hp.
    + destruct (C3 i rq' l Hrq Hp) as (rq2 & H2 & Hk). exists rq2. split; [|done]. apply lookup_snoc_Some. by left.
    + unfold started_ok in Hs. rewrite Hp in Hs. destruct Hs as (Hw & Hc & Hg & _). apply C2 in Hg as (rq2 & H2 & Hk & He).
      exists rq2. split_and!; [apply lookup_snoc_Some; by left|done| |by eapply lookup_lt_Some|by intros l' Hl; rewrite Hl in He].
      eapply executing_read; [|exact He]. eapply Forall_lookup_1; [apply Hi|exact H2].
Qed.

Lemma resumed_coalesce m i rq calls m1 p : conn_inv m -> coalesce_inv m -> frame m m1 -> requests m !! i = Some rq ->
  request_ok m {| rq_method := rq_method rq; rq_args := rq_args rq; rq_phase := p; rq_calls := callsAfter p calls |} ->
  (forall l, p <> Joined l) -> (forall l, rq_phase rq <> Joined l) -> (is_read rq = true -> executing (rq_phase rq) = true) ->
  (executing p = false -> is_read rq = true -> isFinished p = true) -> coalesce_inv (resume i rq calls (m1, p)).
Proof.
  intros Hi [C0 C1 C2 C3] [F1 F2 F3 F4 F5 F6 F7] Hrq Hok Hp Hp0 Hex Hfin.
  set (rq' := {| rq_method := rq_method rq; rq_args := rq_args rq; rq_phase := p; rq_calls := callsAfter p calls |}) in *.
  assert (i < length (requests m))%nat as Hlt by (by eapply lookup_lt_Some).
  assert (keyOf rq' = keyOf rq) as Hk by done. assert (executing p = true -> is_read rq = true) as Hr by (intros He; by apply (executing_read m rq' Hok)).
  split; cbn [resume with_requests coalesceEnabled aborted requests inflight]; fold rq'; rewrite ?F2, ?F3, ?F5, ?F6; unfold settleKey; fold (keyOf rq).
  - intros Hc. rewrite Hc, andb_false_r. auto.
  - intros Hc Ha j rqj Hj He. specialize (C1 Hc Ha). rewrite Hc, andb_true_r. fold (is_read rq). destruct (decide (j = i)) as [->|Hne].
    + rewrite list_lookup_insert_eq in Hj by done. injection Hj as <-. rewrite Hk, (Hr He). cbn [andb].
      assert (isFinished p = false) as -> by (by destruct p). apply C1; [done|auto].
    + rewrite list_lookup_insert_ne in Hj by done. specialize (C1 j rqj Hj He) as HC. destruct (is_read rq) eqn:Er; [|done].
      destruct (isFinished p); [|done]. rewrite mget_mdel. destruct (String.eqb_spec (keyOf rqj) (keyOf rq)) as [Heq|]; [|done].
      exfalso. rewrite Heq, (C1 i rq Hrq (Hex eq_refl)) in HC. by simplify_eq.
  - intros k j Hg. fold (is_read rq) in Hg.
    assert (mget (inflight m) k = Some j /\ (j = i -> executing p = true)) as [Hold Hnot].
    { destruct (is_read rq) eqn:Er; cbn [andb] in Hg.
      - destruct (coalesceEnabled m) eqn:Ec.
        + destruct (isFinished p) eqn:Ef.
          * rewrite mget_mdel in Hg. destruct (String.eqb_spec k (keyOf rq)) as [|Hne]; [done|]. split; [done|]. intros ->.
            apply C2 in Hg as (rq2 & H2 & Hk2 & _). rewrite Hrq in H2. by simplify_eq.
          * split; [done|]. intros ->. destruct (executing p) eqn:E; [done|]. by specialize (Hfin eq_refl eq_refl).
        + split; [done|]. intros _. by rewrite (C0 eq_refl) in Hg.
      - split; [done|]. intros ->. apply C2 in Hg as (rq2 & H2 & _ & He2). rewrite Hrq in H2. simplify_eq.
        exfalso. eapply executing_read in He2; [by rewrite He2 in Er|]. eapply Forall_lookup_1; [apply Hi|exact Hrq]. }
    destruct (C2 k j Hold) as (rqj & Hj & Hkj & He). destruct (decide (j = i)) as [->|Hne].
    + rewrite Hrq in Hj. simplify_eq. exists rq'. rewrite list_lookup_insert_eq by done. split_and!; [done|done|auto].
    + exists rqj. by rewrite list_lookup_insert_ne by done.
  - intros j rqj l Hj Hpj. destruct (decide (j = i)) as [->|Hne].
    { rewrite list_lookup_insert_eq in Hj by done. injection Hj as <-. by destruct (Hp l). }
    rewrite list_lookup_insert_ne in Hj by done. destruct (C3 j rqj l Hj Hpj) as (rq2 & H2 & Hk2 & Hr2 & Hlj & Hl2).
    destruct (decide (l = i)) as [->|Hli]; [|exists rq2; by rewrite list_lookup_insert_ne by done].
    rewrite Hrq in H2. injection H2 as <-. exists rq'. rewrite list_lookup_insert_eq by done. by split_and!.
Qed.

Lemma handle_coalesce m ev : conn_inv m -> coalesce_inv m -> coalesce_inv (handle m ev).
Proof.
  intros Hi Hc. destruct ev as [e now]. destruct (handle_shape m e now Hi) as [_| ->|rq fl c m1 _ HF Hok Hs|i rq calls m1 p Hrq Ht HF Hok _ Hj].
  - done.
  - destruct Hc as [C0 C1 C2 C3]. by split.
  - by eapply started_coalesce.
  - assert (request_ok m rq) as Hok0 by (eapply Forall_lookup_1; [apply Hi|exact Hrq]).
    assert (takes m e i = true) as Ht' by (by apply Ht). unfold takes in Ht'. rewrite Hrq in Ht'.
    apply (resumed_coalesce m); try done.
    + intros l ->. done.
    + intros l Hl. rewrite Hl in Ht'. by destruct e.
    + unfold is_read, request_ok, read_ok in *. destruct (isWriteMethod (rq_method rq)); [done|]. intros _.
      destruct (rq_phase rq); try done; by destruct e.
    + intros He Hr. unfold is_read, request_ok, read_ok in *. cbn [rq_method rq_phase] in Hok. destruct (isWriteMethod (rq_method rq)); [done|].
      by destruct p.
Qed.

Lemma reached_coalesce urls retry health coalesce events m : reached urls retry health coalesce events m -> coalesce_inv m.
Proof.
  intros (m0 & Hn & ->). pose proof Hn as Hn'. apply new_inv in Hn as (Hi & _). induction events as [|ev events IH] using rev_ind.
  - unfold newConnectionManager in Hn'. destruct urls; [done|]. injection Hn' as <-. by split.
  - rewrite foldl_snoc. apply handle_coalesce; [apply (run_inv m0 events Hi)|done].
Qed.

(** Identical concurrent reads share one execution. In any run with
    coalescing on and before [destroy], at most one read of a key is being
    executed; and a read that was coalesced, at any time, made no call of its
    own and settles exactly as the earlier read of the same key whose promise
    it shares. *)
Theorem coalesced_reads_share (urls : list string) (retry : RetryConfig) (health : HealthCheckConfig) (coalesce : option bool)
    (events : list (Event * Z)) (m : ConnectionManager) :
  reached urls retry health coalesce events m ->
  (default true coalesce = true -> aborted m = false -> forall i j rq rq', requests m !! i = Some rq -> requests m !! j = Some rq' ->
     executing (rq_phase rq) = true -> executing (rq_phase rq') = true -> keyOf rq = keyOf rq' -> i = j) /\
  (forall i rq l, requests m !! i = Some rq -> rq_phase rq = Joined l ->
     rq_calls rq = [] /\ outcome m i = outcome m l /\ (l < i)%nat /\
     exists rq', requests m !! l = Some rq' /\ keyOf rq' = keyOf rq /\ is_read rq' = true).
Proof.
  intros Hr. pose proof (reached_coalesce _ _ _ _ _ _ Hr) as [_ C1 _ C3]. apply reached_inv in Hr as (Hi & _ & _ & Hc). split.
  - rewrite <-Hc. intros Hc' Ha i j rq rq' H1 H2 E1 E2 Hk. pose proof (C1 Hc' Ha i rq H1 E1) as A1. pose proof (C1 Hc' Ha j rq' H2 E2) as A2.
    rewrite Hk, A2 in A1. by simplify_eq.
  - intros i rq l Hrq Hp. destruct (C3 i rq l Hrq Hp) as (rq' & H' & Hk & Hrd & Hl & Hnj).
    assert (request_ok m rq) as Hok by (eapply Forall_lookup_1; [apply Hi|exact Hrq]). split_and!; [| |done|by exists rq'].
    + unfold request_ok, write_ok, read_ok in Hok. rewrite Hp in Hok. by destruct (isWriteMethod _).
    + unfold outcome, mbind, option_bind. rewrite Hrq, Hp, H'. destruct (rq_phase rq') as [| | | |l'|]; try done. by destruct (Hnj l').
Qed.

(** ** Examples *)

Definition ex_error (msg : string) : RpcError :=
  {| message := msg; fields := {| status := None; statusCode := None |}; response := None |}.

Definition ex_urls : list string := ["https://a"; "https://b"]%string.
Definition ex_retry : RetryConfig := {| maxRetries := 1 |}.
Definition ex_health : HealthCheckConfig := {| unhealthyThreshold := 3; healthyThreshold := 2; unhealthyCooldownMs := 30000 |}.

Definition ex_start : ConnectionManager :=
  match newConnectionManager ex_urls ex_retry ex_health None with Some m => m | None => destroy (Build_ConnectionManager [] [] 0 [] true ex_retry ex_health true 0 0 0 0 []) end.

Definition ex_events : list (Event * Z) :=
  [(Call "sendTransaction" "[1]", 1); (Call "getSlot" "[]", 2); (Call "getSlot" "[]", 3);
   (Answer 0 (Err (ex_error "connect ECONNREFUSED")), 4); (Answer 1 (Err (ex_error "socket hang up")), 5); (Wake 1, 6);
   (Answer 1 (Err (ex_error "Node is behind")), 7); (Answer 0 (Ok "sig"%string), 8); (Answer 1 (Ok "42"%string), 9)].

Lemma ex_reached : reached ex_urls ex_retry ex_health None ex_events (foldl handle ex_start ex_events).
Proof. by exists ex_start. Defined.

Example ex_outcomes : map (outcome (foldl handle ex_start ex_events)) [0; 1; 2]%nat =
  [Some (Resolved "sig"); Some (Resolved "42"); Some (Resolved "42")].
Proof. reflexivity. Qed.

Definition ex_request (i : nat) : Request :=
  default {| rq_method := ""; rq_args := ""; rq_phase := Joined 0; rq_calls := [] |} (requests (foldl handle ex_start ex_events) !! i).

Lemma write_sent_at_most_twice_witness :
  exists past url answer, rq_calls (ex_request 0) = past ++ [(url, answer)] /\
    (past = [] \/ exists u e, past = [(u, Some (Err e))] /\ isConnectionLevelError e = true /\ url <> u).
Proof.
  destruct (write_sent_at_most_twice _ _ _ _ _ _ 0 (ex_request 0) ex_reached) as (past & url & answer & H1 & H2 & _).
  - constructor; [by intros ?%list_elem_of_singleton|apply NoDup_singleton].
  - reflexivity.
  - reflexivity.
  - exists past, url, answer. split; [exact H1|exact H2].
Defined.

Lemma read_calls_bounded_witness :
  numCalls (rq_calls (ex_request 1)) <= Z.of_nat (length ex_urls) * Z.max 0 (maxRetries ex_retry + 1).
Proof.
  destruct (read_calls_bounded ex_urls ex_retry ex_health None ex_events _ 1 (ex_request 1) ex_reached eq_refl eq_refl) as [Hb _]. exact Hb.
Defined.

Lemma requests_settle_witness :
  resumptions 1 (foldl handle ex_start ex_events) ex_events <=
    2 * Z.max 1 (Z.of_nat (length ex_urls) * Z.max 0 (maxRetries ex_retry + 1)).
Proof. refine (proj1 (requests_settle _ _ _ _ _ _ 1 (ex_request 1) ex_reached _) ex_events). reflexivity. Defined.

Lemma coalesced_reads_share_witness : outcome (foldl handle ex_start ex_events) 2 = outcome (foldl handle ex_start ex_events) 1.
Proof.
  refine (proj1 (proj2 (proj2 (coalesced_reads_share _ _ _ _ _ _ ex_reached) 2%nat (ex_request 2) 1%nat _ _))); reflexivity.
Defined.

(** Destroying the manager does not stop writes: the request is sent. *)
Lemma destroyed_manager_sends :
  map rq_calls (requests (handle (handle ex_start (Destroy, 1)) (Call "sendTransaction" "[1]", 2))) = [[("https://a"%string, None)]].
Proof. reflexivity. Qed.

(** A destroyed manager reports its endpoints as unhealthy, though none failed. *)
Lemma destroyed_manager_blames_endpoints :
  outcome (handle (handle ex_start (Destroy, 1)) (Call "getSlot" "[]", 2)) 0 =
  Some (AllEndpointsUnhealthy [("https://a", None); ("https://b", None)]%string).
Proof. reflexivity. Qed.
