(* ===== verification/Approvals.v ===== *)
(** * Approval engine (src/runtime/src/gateway/approvals.ts)

    The engine that decides which tool calls need an approval, keeps the
    pending requests, and carries approvals and denials forward within a
    session; and the gate in front of every tool. The effect-centric policy is
    an interface of the source and a parameter here, as are the host's regular
    expressions and HMAC. Promises are numbered by creation; timers, answers,
    gate calls and the returns of the registered handlers are events: while a
    call of [requestApproval] or [resolve] awaits its handlers, anything else
    may happen, the calls that the handlers make included. Handlers that throw
    have returned. *)
From Stdlib Require Ascii.
From Stdlib Require Import QArith_base.
From S2P Require Import Prelude JsMap JsString PolicyGlob.
#[local] Open Scope Z_scope.

(** ** Data *)

Record ApprovalConditions := {
  minAmount : option Q;
  argPatterns : option (list (string * string));
}.

Record ApprovalRule := {
  tool : string;
  conditions : option ApprovalConditions;
  description : option string;
  slaMs : option Z;
  escalationDelayMs : option Z;
  allowParentDelegation : option bool;
  approverGroup : option string;
  approverRoles : option (list string);
}.

Definition isNullOrEmpty (v : ArgValue) : bool :=
  match shape v with JNull | JText EmptyString => true | _ => false end.

Inductive EffectFilesystemEntryType := entry_file | entry_directory | entry_missing | entry_other.

Record EffectSnapshot := { sn_path : string; sn_exists : bool; sn_entryType : EffectFilesystemEntryType }.

Record ApprovalEffectRef := {
  effectId : string;
  idempotencyKey : string;
  effectClass : option string;
  effectKind : option string;
  summary : option string;
  compensationAvailable : option bool;
  targets : option (list string);
  preExecutionSnapshots : option (list EffectSnapshot);
}.

Inductive DecisionSource := effect_policy | legacy_rule.

Record ApprovalRequest := {
  rq_id : string;
  rq_toolName : string;
  rq_args : Args;
  rq_sessionId : string;
  rq_parentSessionId : option string;
  rq_subagentSessionId : option string;
  rq_shellProfile : option string;
  rq_message : string;
  rq_createdAt : Z;
  rq_deadlineAt : Z;
  rq_slaMs : option Z;
  rq_escalateAt : option Z;
  rq_allowDelegatedResolution : bool;
  rq_approverGroup : option string;
  rq_requiredApproverRoles : option (list string);
  rq_rule : ApprovalRule;
  rq_approvalScopeKey : option string;
  rq_reasonCode : option string;
  rq_decisionSource : option DecisionSource;
  rq_effect : option ApprovalEffectRef;
}.

Inductive ApprovalDisposition := yes | no | always.

#[export] Instance disposition_eq_dec : EqDecision ApprovalDisposition.
Proof. solve_decision. Defined.

Record ApprovalResolverIdentity := {
  rv_actorId : option string;
  rv_sessionId : option string;
  rv_channel : option string;
  rv_roles : option (list string);
  rv_resolvedAt : Z;
  rv_assertion : option string;
}.

Record ApprovalResponse := {
  rs_requestId : string;
  rs_disposition : ApprovalDisposition;
  rs_approvedBy : option string;
  rs_resolver : option ApprovalResolverIdentity;
}.

(** What a resolver assertion signs; [hmac key fields] below is the HMAC-SHA256
    of the JSON text of the fields. *)
Record SignedAssertion := {
  sa_requestId : string;
  sa_disposition : ApprovalDisposition;
  sa_actorId : string;
  sa_sessionId : string;
  sa_channel : string;
  sa_roles : list string;
  sa_resolvedAt : Z;
}.

Record ApprovalEscalation := {
  es_requestId : string;
  es_sessionId : string;
  es_parentSessionId : option string;
  es_subagentSessionId : option string;
  es_toolName : string;
  es_escalatedAt : Z;
  es_escalateToSessionId : string;
  es_deadlineAt : Z;
  es_approverGroup : option string;
  es_requiredApproverRoles : option (list string);
}.

(** The optional arguments of [simulate] and [createRequest]. *)
Record RequestContext := {
  c_parentSessionId : option string;
  c_subagentSessionId : option string;
  c_shellProfile : option string;
  c_message : option string;
  c_effect : option ApprovalEffectRef;
  c_approvalScopeKey : option string;
  c_reasonCode : option string;
  c_decisionSource : option DecisionSource;
}.

Inductive EffectStatus := allow | require_approval | deny_.

Record EffectApprovalOutcome := {
  eo_status : EffectStatus;
  eo_reasonCode : string;
  eo_approvalScopeKey : string;
  eo_message : string;
  eo_autoApprovedReasonCode : option string;
  eo_approverGroup : option string;
  eo_approverRoles : option (list string);
}.

Record EffectApprovalPolicyInput := {
  ei_toolName : string;
  ei_args : Args;
  ei_sessionId : string;
  ei_parentSessionId : option string;
  ei_subagentSessionId : option string;
  ei_effect : option ApprovalEffectRef;
}.

Record ApprovalSimulationDecision := {
  required : bool;
  elevated : bool;
  denied : bool;
  d_rule : option ApprovalRule;
  requestPreview : option ApprovalRequest;
  d_reasonCode : option string;
  d_decisionSource : option DecisionSource;
  d_approvalScopeKey : option string;
  autoApprovedReasonCode : option string;
  denyReason : option string;
}.

(** A pending request with the number of its promise; the promises are kept
    with the requests they were made for. [announcing]: the calls of
    [requestApproval] that await the request handlers; [notifying]: the calls of
    [resolve] that await the response handlers, with the answers they will
    resolve the promises with. *)
Record PendingRequest := { request : ApprovalRequest; promise : nat; escalated : bool }.

Record ApprovalEngine := {
  rules : list ApprovalRule;
  timeoutMs : Z;
  defaultSlaMs : option Z;
  defaultEscalationDelayMs : option Z;
  resolverSigningKey : option string;
  pending : jsmap PendingRequest;
  elevations : jsmap (list string);
  denials : jsmap (list string);
  promises : list (ApprovalRequest * option ApprovalResponse);
  timers : list (nat * ApprovalRequest);
  announcing : list nat;
  notifying : list (nat * ApprovalResponse);
}.

Definition plainRule (t d : string) (min : option Q) : ApprovalRule := {|
  tool := t; conditions := (fun q => {| minAmount := Some q; argPatterns := None |}) <$> min; description := Some d; slaMs := None;
  escalationDelayMs := None; allowParentDelegation := None; approverGroup := None; approverRoles := None |}.

Definition DEFAULT_APPROVAL_RULES : list ApprovalRule := [
  plainRule "system.delete" "File deletion" None;
  plainRule "system.evaluateJs" "JavaScript evaluation" None;
  plainRule "wallet.sign" "Wallet transaction signing" None;
  plainRule "wallet.transfer" "SOL transfer exceeding 0.1" (Some (1 # 10)%Q);
  plainRule "agenc.createTask" "Raw marketplace task creation" None;
  plainRule "agenc.registerAgent" "Agent registration with staked SOL" None;
  plainRule "agenc.purchaseSkill" "Marketplace skill purchase" None;
  plainRule "agenc.stakeReputation" "Reputation stake exceeding 0.1 SOL" (Some (100000000 # 1)%Q)].

Definition DEFAULT_DESKTOP_APPROVAL_RULES : list ApprovalRule := [
  plainRule "mcp.peekaboo.click" "Desktop mouse click" None;
  plainRule "mcp.peekaboo.type" "Desktop keyboard input" None;
  plainRule "mcp.peekaboo.scroll" "Desktop scroll action" None;
  plainRule "mcp.macos-automator.*" "macOS automation script" None].

Definition buildDefaultApprovalRules (gateDesktopAutomation : bool) : list ApprovalRule :=
  DEFAULT_APPROVAL_RULES ++ (if gateDesktopAutomation then DEFAULT_DESKTOP_APPROVAL_RULES else []).

Definition newApprovalEngine (rs : option (list ApprovalRule)) (timeout : option Z) (sla escalation : option Z) (key : option string)
    : ApprovalEngine := {|
  rules := default DEFAULT_APPROVAL_RULES rs; timeoutMs := default 300000 timeout; defaultSlaMs := sla; defaultEscalationDelayMs := escalation;
  resolverSigningKey := key; pending := []; elevations := []; denials := []; promises := []; timers := [];
  announcing := []; notifying := [] |}.

Definition with_patterns (el de : jsmap (list string)) (e : ApprovalEngine) : ApprovalEngine := {|
  rules := rules e; timeoutMs := timeoutMs e; defaultSlaMs := defaultSlaMs e;
  defaultEscalationDelayMs := defaultEscalationDelayMs e; resolverSigningKey := resolverSigningKey e;
  pending := pending e; elevations := el; denials := de; promises := promises e; timers := timers e;
  announcing := announcing e; notifying := notifying e |}.

Definition with_pending (p : jsmap PendingRequest) (ps : list (ApprovalRequest * option ApprovalResponse)) (ts : list (nat * ApprovalRequest))
    (e : ApprovalEngine) : ApprovalEngine := {|
  rules := rules e; timeoutMs := timeoutMs e; defaultSlaMs := defaultSlaMs e;
  defaultEscalationDelayMs := defaultEscalationDelayMs e; resolverSigningKey := resolverSigningKey e;
  pending := p; elevations := elevations e; denials := denials e; promises := ps; timers := ts;
  announcing := announcing e; notifying := notifying e |}.

Definition with_handlers (an : list nat) (no : list (nat * ApprovalResponse)) (e : ApprovalEngine) : ApprovalEngine := {|
  rules := rules e; timeoutMs := timeoutMs e; defaultSlaMs := defaultSlaMs e;
  defaultEscalationDelayMs := defaultEscalationDelayMs e; resolverSigningKey := resolverSigningKey e;
  pending := pending e; elevations := elevations e; denials := denials e; promises := promises e; timers := timers e;
  announcing := an; notifying := no |}.

(** ** Helpers *)

(** A string that is present and, after trimming, not empty. *)
Definition trimmed (s : option string) : option string :=
  match s with Some s => if isEmpty (trim s) then None else Some (trim s) | None => None end.

Definition nonEmpty (s : option string) : option string := match s with Some EmptyString => None | _ => s end.

Fixpoint firstAmount (args : Args) (keys : list string) : option Q :=
  match keys with
  | [] => None
  | key :: keys =>
      match mget args key with
      | Some v => if isNullOrEmpty v then firstAmount args keys
                  else match asNumber v with Some n => Some n | None => firstAmount args keys end
      | None => firstAmount args keys
      end
  end.

Definition extractAmount (args : Args) : option Q := firstAmount args ["amount"; "reward"; "lamports"]%string.

Definition normalizeResolverRoles (value : option (list string)) : list string :=
  match value with
  | None => []
  | Some l => foldl set_add [] (List.filter (fun s => negb (isEmpty s)) (map trim l))
  end.

Definition quoted (s : string) : string :=
  (String (Ascii.ascii_of_nat 34) EmptyString +:+ s +:+ String (Ascii.ascii_of_nat 34) EmptyString)%string.

Definition serializeApprovalScopeKey (scopeKey : string) : string := ("scope:" +:+ scopeKey)%string.

(** ** Decisions *)

Section engine.
Context (regex_test : string -> string -> option bool).
Context (effectPolicy : option (EffectApprovalPolicyInput -> EffectApprovalOutcome)).
Context (hmac : string -> SignedAssertion -> string).

Notation globMatch := (matchGlob regex_test).

Definition conditionsMet (args : Args) (c : ApprovalConditions) : bool :=
  (match minAmount c with
   | None => true
   | Some bound => match extractAmount args with None => false | Some amount => negb (Qle_bool amount bound) end
   end) &&
  (match argPatterns c with
   | None => true
   | Some ps => forallb (fun kp => match mget args kp.1 with Some v => globMatch kp.2 (asText v) | None => false end) ps
   end).

Definition ruleApplies (toolName : string) (args : Args) (rule : ApprovalRule) : bool :=
  globMatch (tool rule) toolName && match conditions rule with None => true | Some c => conditionsMet args c end.

Definition requiresApproval (toolName : string) (args : Args) (e : ApprovalEngine) : option ApprovalRule :=
  List.find (ruleApplies toolName args) (rules e).

Definition buildRequest (requestId toolName : string) (args : Args) (sessionId message : string) (rule : ApprovalRule)
    (context : RequestContext) (now : Z) (e : ApprovalEngine) : ApprovalRequest :=
  let parent := trimmed (c_parentSessionId context) in
  let sla := match slaMs rule with
    | Some s => Some (Z.min s (timeoutMs e))
    | None => (fun s => Z.min s (timeoutMs e)) <$> defaultSlaMs e
    end in
  let delay := match escalationDelayMs rule with
    | Some d => Some (Z.min d (timeoutMs e))
    | None => match sla with Some s => Some s | None => (fun d => Z.min d (timeoutMs e)) <$> defaultEscalationDelayMs e end
    end in
  {| rq_id := requestId; rq_toolName := toolName; rq_args := args; rq_sessionId := sessionId;
     rq_parentSessionId := parent; rq_subagentSessionId := trimmed (c_subagentSessionId context);
     rq_shellProfile := nonEmpty (c_shellProfile context); rq_message := message; rq_createdAt := now;
     rq_deadlineAt := now + timeoutMs e; rq_slaMs := sla; rq_escalateAt := (fun d => now + d) <$> delay;
     rq_allowDelegatedResolution := bool_decide (is_Some parent) && negb (bool_decide (allowParentDelegation rule = Some false));
     rq_approverGroup := nonEmpty (approverGroup rule);
     rq_requiredApproverRoles := match approverRoles rule with
       | Some (r :: rs) => Some (normalizeResolverRoles (Some (r :: rs))) | _ => None end;
     rq_rule := rule; rq_approvalScopeKey := nonEmpty (c_approvalScopeKey context);
     rq_reasonCode := nonEmpty (c_reasonCode context); rq_decisionSource := c_decisionSource context;
     rq_effect := c_effect context |}.

Definition isPatternMatch (toolName : string) (approvalScopeKey : option string) (pattern : string) : bool :=
  if startsWith pattern "scope:" then
    match approvalScopeKey with Some k => String.eqb pattern (serializeApprovalScopeKey k) | None => false end
  else globMatch pattern toolName.

Definition isToolElevated (sessionId toolName : string) (approvalScopeKey : option string) (e : ApprovalEngine) : bool :=
  existsb (isPatternMatch toolName approvalScopeKey) (default [] (mget (elevations e) sessionId)).

Definition isElevated (sessionId : string) (e : ApprovalEngine) : bool :=
  match mget (elevations e) sessionId with Some (_ :: _) => true | _ => false end.

Definition deniedIn (scope : option string) (toolName : string) (approvalScopeKey : option string) (e : ApprovalEngine) : bool :=
  match trimmed scope with
  | Some s => existsb (isPatternMatch toolName approvalScopeKey) (default [] (mget (denials e) s))
  | None => false
  end.

Definition isToolDenied (sessionId toolName : string) (parentSessionId approvalScopeKey : option string) (e : ApprovalEngine) : bool :=
  deniedIn (Some sessionId) toolName approvalScopeKey e || deniedIn parentSessionId toolName approvalScopeKey e.

Definition plainDecision (req el de : bool) : ApprovalSimulationDecision := {|
  required := req; elevated := el; denied := de; d_rule := None; requestPreview := None; d_reasonCode := None;
  d_decisionSource := None; d_approvalScopeKey := None; autoApprovedReasonCode := None; denyReason := None |}.

Definition effectDecision (o : EffectApprovalOutcome) (el de : bool) (auto reason : option string) : ApprovalSimulationDecision := {|
  required := false; elevated := el; denied := de; d_rule := None; requestPreview := None;
  d_reasonCode := Some (eo_reasonCode o); d_decisionSource := Some effect_policy;
  d_approvalScopeKey := Some (eo_approvalScopeKey o); autoApprovedReasonCode := auto; denyReason := reason |}.

Definition effectRule (toolName : string) (o : EffectApprovalOutcome) : ApprovalRule := {|
  tool := toolName; conditions := None; description := Some (eo_message o); slaMs := None; escalationDelayMs := None;
  allowParentDelegation := None; approverGroup := nonEmpty (eo_approverGroup o);
  approverRoles := match eo_approverRoles o with Some [] => None | l => l end |}.

Definition effectContext (o : EffectApprovalOutcome) (context : RequestContext) : RequestContext := {|
  c_parentSessionId := nonEmpty (c_parentSessionId context); c_subagentSessionId := nonEmpty (c_subagentSessionId context);
  c_shellProfile := nonEmpty (c_shellProfile context); c_message := None; c_effect := c_effect context;
  c_approvalScopeKey := Some (eo_approvalScopeKey o); c_reasonCode := Some (eo_reasonCode o);
  c_decisionSource := Some effect_policy |}.

Definition buildEffectDecision (policy : EffectApprovalPolicyInput -> EffectApprovalOutcome) (toolName : string) (args : Args)
    (sessionId : string) (context : RequestContext) (now : Z) (e : ApprovalEngine) : ApprovalSimulationDecision :=
  let o := policy {| ei_toolName := toolName; ei_args := args; ei_sessionId := sessionId;
    ei_parentSessionId := nonEmpty (c_parentSessionId context); ei_subagentSessionId := nonEmpty (c_subagentSessionId context);
    ei_effect := c_effect context |} in
  let scope := Some (eo_approvalScopeKey o) in
  if isToolDenied sessionId toolName (c_parentSessionId context) scope e then
    effectDecision o false true None
      (Some ("Tool " +:+ quoted toolName +:+ " blocked because this action scope was denied earlier in the request tree")%string)
  else if isToolElevated sessionId toolName scope e then effectDecision o true false None None
  else match eo_status o with
    | deny_ => effectDecision o false true None (Some (eo_message o))
    | allow => effectDecision o false false (nonEmpty (eo_autoApprovedReasonCode o)) None
    | require_approval =>
        let rule := effectRule toolName o in
        {| required := true; elevated := false; denied := false; d_rule := Some rule;
           requestPreview := Some (buildRequest
             ("approval-preview:" +:+ sessionId +:+ ":" +:+ toolName +:+ ":" +:+ eo_approvalScopeKey o)%string
             toolName args sessionId (default (eo_message o) (c_message context)) rule (effectContext o context) now e);
           d_reasonCode := Some (eo_reasonCode o); d_decisionSource := Some effect_policy; d_approvalScopeKey := scope;
           autoApprovedReasonCode := None; denyReason := None |}
    end.

Definition promptFor (toolName : string) (rule : ApprovalRule) : string :=
  match nonEmpty (description rule) with
  | Some d => ("Approval required: " +:+ d)%string
  | None => ("Approval required for " +:+ toolName)%string
  end.

Definition legacyContext (context : RequestContext) : RequestContext := {|
  c_parentSessionId := c_parentSessionId context; c_subagentSessionId := c_subagentSessionId context;
  c_shellProfile := c_shellProfile context; c_message := c_message context; c_effect := c_effect context;
  c_approvalScopeKey := None; c_reasonCode := None; c_decisionSource := Some legacy_rule |}.

Definition simulate (toolName : string) (args : Args) (sessionId : string) (context : RequestContext) (now : Z)
    (e : ApprovalEngine) : ApprovalSimulationDecision :=
  match effectPolicy with
  | Some policy => buildEffectDecision policy toolName args sessionId context now e
  | None =>
      if isToolDenied sessionId toolName (c_parentSessionId context) None e then plainDecision false false true
      else if isToolElevated sessionId toolName None e then plainDecision false true false
      else match requiresApproval toolName args e with
        | None => plainDecision false false false
        | Some rule =>
            {| required := true; elevated := false; denied := false; d_rule := Some rule;
               requestPreview := Some (buildRequest ("approval-preview:" +:+ sessionId +:+ ":" +:+ toolName)%string toolName args
                 sessionId (default (promptFor toolName rule) (c_message context)) rule (legacyContext context) now e);
               d_reasonCode := None; d_decisionSource := Some legacy_rule; d_approvalScopeKey := None;
               autoApprovedReasonCode := None; denyReason := None |}
        end
  end.

(** ** Carrying decisions forward *)

Definition addPattern (key pattern : string) (m : jsmap (list string)) : jsmap (list string) :=
  mset key (set_add (default [] (mget m key)) pattern) m.

Definition dropPattern (key pattern : string) (m : jsmap (list string)) : jsmap (list string) :=
  match mget m key with
  | None => m
  | Some ps =>
      let rest := List.filter (fun p => negb (String.eqb p pattern)) ps in
      match rest with [] => mdel key m | _ => mset key rest m end
  end.

Definition elevate (sessionId pattern : string) (e : ApprovalEngine) : ApprovalEngine :=
  with_patterns (addPattern sessionId pattern (elevations e)) (denials e) e.

Definition deny (sessionId pattern : string) (e : ApprovalEngine) : ApprovalEngine :=
  match trimmed (Some sessionId) with
  | None => e
  | Some s => with_patterns (elevations e) (addPattern s pattern (denials e)) e
  end.

Definition clearDeniedPattern (sessionId pattern : string) (e : ApprovalEngine) : ApprovalEngine :=
  match trimmed (Some sessionId) with
  | None => e
  | Some s => with_patterns (elevations e) (dropPattern s pattern (denials e)) e
  end.

Definition clearElevatedPattern (sessionId pattern : string) (e : ApprovalEngine) : ApprovalEngine :=
  match trimmed (Some sessionId) with
  | None => e
  | Some s => with_patterns (dropPattern s pattern (elevations e)) (denials e) e
  end.

Definition revokeElevation (sessionId : string) (e : ApprovalEngine) : ApprovalEngine :=
  with_patterns (mdel sessionId (elevations e)) (denials e) e.

Inductive SessionPolicyMutationOperation := op_allow | op_deny | op_clear | op_reset.

(** The returned snapshot is [getSessionPolicyState]. *)
Definition applySessionPolicyMutation (session : string) (operation : SessionPolicyMutationOperation) (pattern : option string)
    (e : ApprovalEngine) : ApprovalEngine :=
  let sessionId := trim session in
  if isEmpty sessionId then e else
  match operation with
  | op_reset => let e := revokeElevation sessionId e in with_patterns (elevations e) (mdel sessionId (denials e)) e
  | _ =>
      match nonEmpty (trim <$> pattern) with
      | None => e
      | Some p =>
          match operation with
          | op_allow => clearDeniedPattern sessionId p (elevate sessionId p e)
          | op_deny => clearElevatedPattern sessionId p (deny sessionId p e)
          | _ => clearElevatedPattern sessionId p (clearDeniedPattern sessionId p e)
          end
      end
  end.

Definition getSessionPolicyState (session : string) (e : ApprovalEngine) : list string * list string :=
  let s := trim session in
  if isEmpty s then ([], [])
  else (sort_by String.compare (default [] (mget (elevations e) s)), sort_by String.compare (default [] (mget (denials e) s))).

(** ** Requests and responses *)

(** [promise.resolve(value)]: the first resolution counts. *)
Definition settle (p : nat) (r : ApprovalResponse) (ps : list (ApprovalRequest * option ApprovalResponse))
    : list (ApprovalRequest * option ApprovalResponse) :=
  match ps !! p with Some (rq, None) => <[p := (rq, Some r)]> ps | _ => ps end.

Definition clearTimer (p : nat) (ts : list (nat * ApprovalRequest)) : list (nat * ApprovalRequest) :=
  List.filter (fun t => negb (t.1 =? p)%nat) ts.

(** [requestApproval] up to its [await]: the request handlers are called. *)
Definition requestApproval (rq : ApprovalRequest) (e : ApprovalEngine) : ApprovalEngine * nat :=
  let p := length (promises e) in
  let e := with_pending (mset (rq_id rq) {| request := rq; promise := p; escalated := false |} (pending e)) (promises e ++ [(rq, None)])
     (timers e ++ [(p, rq)]) e in
  (with_handlers (announcing e ++ [p]) (notifying e) e, p).

(** The request handlers of promise [p] are done: the caller goes on to await
    the promise. *)
Definition announced (p : nat) (e : ApprovalEngine) : ApprovalEngine :=
  with_handlers (List.filter (fun q => negb (q =? p)%nat) (announcing e)) (notifying e) e.

Definition normalizeResponse (rq : ApprovalRequest) (response : ApprovalResponse) (now : Z) (e : ApprovalEngine) : ApprovalResponse :=
  let roles := normalizeResolverRoles (r ← rs_resolver response; rv_roles r) in
  let actorId := match r ← rs_resolver response; rv_actorId r with Some a => Some a | None => rs_approvedBy response end in
  let sessionId := r ← rs_resolver response; rv_sessionId r in
  let channel := r ← rs_resolver response; rv_channel r in
  let resolvedAt := match rs_resolver response with Some r => rv_resolvedAt r | None => now end in
  let assertion := match resolverSigningKey e with
    | Some key => Some (hmac key {| sa_requestId := rq_id rq; sa_disposition := rs_disposition response; sa_actorId := default EmptyString actorId;
        sa_sessionId := default EmptyString sessionId; sa_channel := default EmptyString channel;
        sa_roles := normalizeResolverRoles (Some roles); sa_resolvedAt := resolvedAt |})
    | None => r ← rs_resolver response; rv_assertion r
    end in
  {| rs_requestId := rs_requestId response; rs_disposition := rs_disposition response; rs_approvedBy := actorId;
     rs_resolver := Some {| rv_actorId := nonEmpty actorId; rv_sessionId := nonEmpty sessionId; rv_channel := nonEmpty channel;
       rv_roles := match roles with [] => None | _ => Some roles end;
       rv_resolvedAt := resolvedAt;
       rv_assertion := nonEmpty assertion |} |}.

Definition isResolutionAuthorized (rq : ApprovalRequest) (response : ApprovalResponse) : bool :=
  match default [] (rq_requiredApproverRoles rq) with
  | [] => true
  | requiredRoles =>
      let resolverRoles := normalizeResolverRoles (r ← rs_resolver response; rv_roles r) in
      existsb (has resolverRoles) requiredRoles
  end.

(** The pattern an answer is carried forward under. *)
Definition carriedPattern (rq : ApprovalRequest) : string :=
  match nonEmpty (rq_approvalScopeKey rq) with Some k => serializeApprovalScopeKey k | None => tool (rq_rule rq) end.

Definition forParent (f : string -> ApprovalEngine -> ApprovalEngine) (rq : ApprovalRequest) (e : ApprovalEngine) : ApprovalEngine :=
  match nonEmpty (rq_parentSessionId rq) with Some parent => f parent e | None => e end.

Definition carry (rq : ApprovalRequest) (d : ApprovalDisposition) (e : ApprovalEngine) : ApprovalEngine :=
  let pattern := carriedPattern rq in
  match d with
  | always => forParent (fun s => clearDeniedPattern s pattern) rq
                (clearDeniedPattern (rq_sessionId rq) pattern (elevate (rq_sessionId rq) pattern e))
  | yes => forParent (fun s => clearDeniedPattern s pattern) rq (clearDeniedPattern (rq_sessionId rq) pattern e)
  | no => forParent (fun s => deny s pattern) rq (deny (rq_sessionId rq) pattern e)
  end.

(** [resolve] up to its [await]: the response handlers are called. *)
Definition resolve (requestId : string) (response : ApprovalResponse) (now : Z) (e : ApprovalEngine) : ApprovalEngine * bool :=
  match mget (pending e) requestId with
  | None => (e, false)
  | Some entry =>
      let rq := request entry in
      let normalized := normalizeResponse rq response now e in
      if negb (isResolutionAuthorized rq normalized) then (e, false)
      else
        let e := with_pending (mdel requestId (pending e)) (promises e) (clearTimer (promise entry) (timers e)) e in
        let e := carry rq (rs_disposition normalized) e in
        (with_handlers (announcing e) (notifying e ++ [(promise entry, normalized)]) e, true)
  end.

(** The response handlers called for promise [p] are done: [resolve] resolves
    the promise. *)
Definition notified (p : nat) (e : ApprovalEngine) : ApprovalEngine :=
  match List.find (fun n => (n.1 =? p)%nat) (notifying e) with
  | None => e
  | Some (_, response) =>
      with_handlers (announcing e) (List.filter (fun n => negb (n.1 =? p)%nat) (notifying e))
        (with_pending (pending e) (settle p response (promises e)) (timers e) e)
  end.

Definition systemResponse (requestId actor : string) (now : Z) : ApprovalResponse := {|
  rs_requestId := requestId; rs_disposition := no; rs_approvedBy := None;
  rs_resolver := Some {| rv_actorId := Some actor; rv_sessionId := None; rv_channel := Some "system"%string; rv_roles := None;
    rv_resolvedAt := now; rv_assertion := None |} |}.

(** The timer of promise [p] fires: the request is denied, and nothing is
    carried forward. *)
Definition timeout (p : nat) (now : Z) (e : ApprovalEngine) : ApprovalEngine :=
  match List.find (fun t => (t.1 =? p)%nat) (timers e) with
  | None => e
  | Some (_, rq) =>
      let response := normalizeResponse rq (systemResponse (rq_id rq) "system:auto-timeout" now) now e in
      with_pending (mdel (rq_id rq) (pending e)) (settle p response (promises e)) (clearTimer p (timers e)) e
  end.

(** The escalation timer of a request: it notifies once. *)
Definition escalationFor (rq : ApprovalRequest) (now : Z) : ApprovalEscalation := {|
  es_requestId := rq_id rq; es_sessionId := rq_sessionId rq; es_parentSessionId := nonEmpty (rq_parentSessionId rq);
  es_subagentSessionId := nonEmpty (rq_subagentSessionId rq); es_toolName := rq_toolName rq; es_escalatedAt := now;
  es_escalateToSessionId := match nonEmpty (rq_parentSessionId rq) with
    | Some parent => if rq_allowDelegatedResolution rq then parent else rq_sessionId rq
    | None => rq_sessionId rq end;
  es_deadlineAt := rq_deadlineAt rq; es_approverGroup := nonEmpty (rq_approverGroup rq);
  es_requiredApproverRoles := match rq_requiredApproverRoles rq with Some [] => None | l => l end |}.

Definition escalate (rq : ApprovalRequest) (now : Z) (e : ApprovalEngine) : ApprovalEngine * option ApprovalEscalation :=
  match mget (pending e) (rq_id rq) with
  | Some entry => if escalated entry then (e, None)
      else (with_pending (mset (rq_id rq) {| request := request entry; promise := promise entry; escalated := true |} (pending e))
              (promises e) (timers e) e, Some (escalationFor rq now))
  | None => (e, None)
  end.

Definition disposeEntry (now : Z) (e0 : ApprovalEngine) (acc : list (ApprovalRequest * option ApprovalResponse) * list (nat * ApprovalRequest))
    (entry : PendingRequest) : list (ApprovalRequest * option ApprovalResponse) * list (nat * ApprovalRequest) :=
  (settle (promise entry) (normalizeResponse (request entry) (systemResponse (rq_id (request entry)) "system:dispose" now) now e0) acc.1,
   clearTimer (promise entry) acc.2).

Definition dispose (now : Z) (e : ApprovalEngine) : ApprovalEngine :=
  let '(ps, ts) := foldl (disposeEntry now e) (promises e, timers e) (mvals (pending e)) in
  with_patterns [] [] (with_pending [] ps ts e).

Definition getPending (e : ApprovalEngine) : list ApprovalRequest := map request (mvals (pending e)).

(** ** The gate *)

Inductive GateStatus := Passed | Blocked | Waiting (p : nat).

Definition gateContext (d : ApprovalSimulationDecision) : RequestContext := {|
  c_parentSessionId := None; c_subagentSessionId := None; c_shellProfile := None; c_message := None; c_effect := None;
  c_approvalScopeKey := nonEmpty (d_approvalScopeKey d); c_reasonCode := nonEmpty (d_reasonCode d);
  c_decisionSource := d_decisionSource d |}.

Definition noContext : RequestContext := {|
  c_parentSessionId := None; c_subagentSessionId := None; c_shellProfile := None; c_message := None; c_effect := None;
  c_approvalScopeKey := None; c_reasonCode := None; c_decisionSource := None |}.

(** The handler of [tool:before] up to its [await]; [id] is the generated id. *)
Definition gate (toolName : string) (args : Args) (sessionId id : string) (now : Z) (e : ApprovalEngine) : ApprovalEngine * GateStatus :=
  if isEmpty toolName then (e, Passed) else
  let d := simulate toolName args sessionId noContext now e in
  if denied d then (e, Blocked)
  else match d_rule d with
    | Some rule =>
        if elevated d || negb (required d) then (e, Passed)
        else
          let message := match requestPreview d with Some p => rq_message p | None => promptFor toolName rule end in
          let '(e, p) := requestApproval (buildRequest id toolName args sessionId message rule (gateContext d) now e) e in
          (e, Waiting p)
    | None => (e, Passed)
    end.

(** What the handler returns in the end: whether the tool may run. A call that
    waits goes on when the request handlers are done and the promise is
    resolved. *)
Definition gateResult (s : GateStatus) (e : ApprovalEngine) : option bool :=
  match s with
  | Passed => Some true
  | Blocked => Some false
  | Waiting p => if bool_decide (p ∈ announcing e) then None else pr ← promises e !! p; r ← snd pr; Some (match rs_disposition r with yes | always => true | no => false end)
  end.

(** ** Events *)

Inductive Event :=
| GateCall (toolName : string) (args : Args) (sessionId id : string)
| Submit (rq : ApprovalRequest)
| Announced (p : nat)
| Resolve (requestId : string) (response : ApprovalResponse)
| Notified (p : nat)
| Timeout (p : nat)
| Escalate (rq : ApprovalRequest)
| Elevate (sessionId pattern : string)
| Revoke (sessionId : string)
| Mutate (session : string) (operation : SessionPolicyMutationOperation) (pattern : option string)
| Dispose.

(** The engine with the gate calls made so far. *)
Record System := { engine : ApprovalEngine; gates : list (string * Args * string * GateStatus) }.

Definition on_engine (f : ApprovalEngine -> ApprovalEngine) (s : System) : System := {| engine := f (engine s); gates := gates s |}.

Definition step (s : System) (ev : Event * Z) : System :=
  let '(ev, now) := ev in
  match ev with
  | GateCall toolName args sessionId id =>
      let '(e, status) := gate toolName args sessionId id now (engine s) in
      {| engine := e; gates := gates s ++ [(toolName, args, sessionId, status)] |}
  | Submit rq => on_engine (fun e => (requestApproval rq e).1) s
  | Announced p => on_engine (announced p) s
  | Resolve requestId response => on_engine (fun e => (resolve requestId response now e).1) s
  | Notified p => on_engine (notified p) s
  | Timeout p => on_engine (timeout p now) s
  | Escalate rq => on_engine (fun e => (escalate rq now e).1) s
  | Elevate sessionId pattern => on_engine (elevate sessionId pattern) s
  | Revoke sessionId => on_engine (revokeElevation sessionId) s
  | Mutate session operation pattern => on_engine (applySessionPolicyMutation session operation pattern) s
  | Dispose => on_engine (dispose now) s
  end.

End engine.
