(* ===== verification/ApprovalsSpec.v ===== *)
(** * Approval engine: promises, timers and the gate *)
From S2P Require Import Prelude JsMap JsString PolicyGlob Approvals.
#[local] Open Scope Z_scope.

(** ** Frames *)

(** The operations on patterns leave the requests alone. *)
Record same_requests (e e' : ApprovalEngine) : Prop := {
  sr_pending : pending e' = pending e;
  sr_promises : promises e' = promises e;
  sr_timers : timers e' = timers e;
  sr_announcing : announcing e' = announcing e;
  sr_notifying : notifying e' = notifying e;
}.

#[export] Instance same_requests_preorder : PreOrder same_requests.
Proof. split; [by split|]. intros x y z [] []. split; congruence. Qed.

Lemma with_patterns_requests el de e : same_requests e (with_patterns el de e).
Proof. by split. Qed.

#[local] Hint Resolve with_patterns_requests : core.

Lemma elevate_requests s p e : same_requests e (elevate s p e).
Proof. by split. Qed.

Lemma deny_requests s p e : same_requests e (deny s p e).
Proof. unfold deny. by case_match. Qed.

Lemma clearDenied_requests s p e : same_requests e (clearDeniedPattern s p e).
Proof. unfold clearDeniedPattern. by case_match. Qed.

Lemma clearElevated_requests s p e : same_requests e (clearElevatedPattern s p e).
Proof. unfold clearElevatedPattern. by case_match. Qed.

#[local] Hint Resolve elevate_requests deny_requests clearDenied_requests clearElevated_requests : core.

Lemma forParent_requests f rq e : (forall s e, same_requests e (f s e)) -> same_requests e (forParent f rq e).
Proof. intros Hf. unfold forParent. by case_match. Qed.

Lemma carry_requests rq d e : same_requests e (carry rq d e).
Proof.
  unfold carry. destruct d; (etrans; [|apply forParent_requests; intros; auto]); auto. by etrans; [apply elevate_requests|].
Qed.

Lemma mutation_requests s op pat e : same_requests e (applySessionPolicyMutation s op pat e).
Proof.
  unfold applySessionPolicyMutation. case_match; [done|]. destruct op; try (case_match; [|done]); try by split.
  - by etrans; [apply elevate_requests|].
  - by etrans; [apply deny_requests|].
  - by etrans; [apply clearDenied_requests|].
Qed.

(** ** The invariant *)

(** The answer that the response handlers of promise [p] are called with. *)
Definition answerIn (p : nat) (no : list (nat * ApprovalResponse)) : option ApprovalResponse := snd <$> List.find (fun n => (n.1 =? p)%nat) no.

(** A promise as it is decided: its request, and the answer it is resolved with
    or will be resolved with once the response handlers are done. *)
Definition decidedIn (ps : list (ApprovalRequest * option ApprovalResponse)) (no : list (nat * ApprovalResponse)) (p : nat)
    : option (ApprovalRequest * option ApprovalResponse) :=
  match ps !! p with Some (rq, None) => Some (rq, answerIn p no) | x => x end.

Definition decided (e : ApprovalEngine) : nat -> option (ApprovalRequest * option ApprovalResponse) := decidedIn (promises e) (notifying e).

(** Exactly the undecided promises have a timer. *)
Definition timers_ok (d : nat -> option (ApprovalRequest * option ApprovalResponse)) (ts : list (nat * ApprovalRequest)) : Prop :=
  forall p rq, (p, rq) ∈ ts <-> d p = Some (rq, None).

(** A pending request is filed under its id, and its promise is undecided. *)
Definition pending_ok (pd : jsmap PendingRequest) (d : nat -> option (ApprovalRequest * option ApprovalResponse)) : Prop :=
  forall k entry, mget pd k = Some entry -> rq_id (request entry) = k /\ d (promise entry) = Some (request entry, None).

(** The response handlers are called once for a promise, which is open. *)
Definition notifying_ok (no : list (nat * ApprovalResponse)) (ps : list (ApprovalRequest * option ApprovalResponse)) : Prop :=
  NoDup (map fst no) /\ forall p r, (p, r) ∈ no -> exists rq, ps !! p = Some (rq, None).

Record eng_inv (e : ApprovalEngine) : Prop := {
  ei_timers : timers_ok (decided e) (timers e);
  ei_keys : NoDup (mkeys (pending e));
  ei_pending : pending_ok (pending e) (decided e);
  ei_notifying : notifying_ok (notifying e) (promises e);
  ei_announcing : forall p, p ∈ announcing e -> (p < length (promises e))%nat;
}.

Lemma decided_frame e e' : same_requests e e' -> decided e' = decided e.
Proof. intros []. unfold decided. congruence. Qed.

Lemma eng_inv_frame e e' : same_requests e e' -> eng_inv e -> eng_inv e'.
Proof. intros F [H1 H2 H3 H4 H5]. pose proof (decided_frame e e' F) as Hd. destruct F as [F1 F2 F3 F4 F5]. split; rewrite ?Hd, ?F1, ?F2, ?F3, ?F4, ?F5; done. Qed.

Lemma answerIn_None p no : answerIn p no = None <-> p ∉ map fst no.
Proof.
  unfold answerIn. induction no as [|[q r] no IH]; cbn; [split; [by intros _ ?%elem_of_nil|done]|]. rewrite elem_of_cons.
  destruct (Nat.eqb_spec q p) as [->|Hn]; cbn; [split; [done|intros H; by destruct H; left]|]. rewrite IH. naive_solver.
Qed.

Lemma answerIn_Some p r no : answerIn p no = Some r -> (p, r) ∈ no.
Proof.
  unfold answerIn. induction no as [|[q r'] no IH]; cbn; [done|]. destruct (Nat.eqb_spec q p) as [->|Hn]; cbn; [intros [= ->]; by left|right; auto].
Qed.

Lemma answerIn_elem p r no : NoDup (map fst no) -> (p, r) ∈ no -> answerIn p no = Some r.
Proof.
  unfold answerIn. induction no as [|[q r'] no IH]; cbn; [by intros _ ?%elem_of_nil|]. intros [Hq Hn]%NoDup_cons. rewrite elem_of_cons.
  intros [[= -> ->]|Hin]; [by rewrite Nat.eqb_refl|]. destruct (Nat.eqb_spec q p) as [->|]; [|auto]. destruct Hq. by apply (list_elem_of_fmap_2 fst) in Hin.
Qed.

Lemma answerIn_snoc p q r no : answerIn p (no ++ [(q, r)]) = match answerIn p no with Some x => Some x | None => if decide (p = q) then Some r else None end.
Proof.
  unfold answerIn. induction no as [|[q' r'] no IH]; cbn.
  - destruct (Nat.eqb_spec q p) as [->|]; [by rewrite decide_True|by rewrite decide_False by congruence].
  - by destruct (q' =? p)%nat.
Qed.

Lemma answerIn_filter p q no : answerIn p (List.filter (fun n => negb (n.1 =? q)%nat) no) = if decide (p = q) then None else answerIn p no.
Proof.
  unfold answerIn. induction no as [|[q' r'] no IH]; cbn; [by case_decide|]. destruct (Nat.eqb_spec q' q) as [->|Hn]; cbn.
  - rewrite IH. case_decide as Hd; [done|]. destruct (Nat.eqb_spec q p); [by subst|done].
  - destruct (Nat.eqb_spec q' p) as [->|]; [by rewrite decide_False by congruence|done].
Qed.

Lemma settle_lookup p r ps q : settle p r ps !! q =
  match ps !! q with Some (rq, None) => if decide (q = p) then Some (rq, Some r) else ps !! q | x => x end.
Proof.
  unfold settle. destruct (ps !! p) as [[rq [r'|]]|] eqn:Hp.
  - destruct (ps !! q) as [[? [?|]]|] eqn:Hq; try done. case_decide; [|done]. congruence.
  - destruct (decide (q = p)) as [->|Hn].
    + rewrite Hp, list_lookup_insert_eq by (by eapply lookup_lt_Some). done.
    + rewrite list_lookup_insert_ne by done. by repeat case_match.
  - destruct (ps !! q) as [[? [?|]]|] eqn:Hq; try done. case_decide; [|done]. congruence.
Qed.

Lemma settle_length p r ps : length (settle p r ps) = length ps.
Proof. unfold settle. repeat case_match; by rewrite ?length_insert. Qed.

(** Deciding a promise. *)
Definition decides (p : nat) (r : ApprovalResponse) (d : nat -> option (ApprovalRequest * option ApprovalResponse)) (q : nat)
    : option (ApprovalRequest * option ApprovalResponse) :=
  match d q with Some (rq, None) => if decide (q = p) then Some (rq, Some r) else d q | x => x end.

Lemma decided_settle p r ps no q : answerIn p no = None -> decidedIn (settle p r ps) no q = decides p r (decidedIn ps no) q.
Proof.
  intros Hp. unfold decidedIn, decides. rewrite settle_lookup. destruct (ps !! q) as [[rq [r'|]]|] eqn:Hq; [done| |done].
  case_decide as Hd; [subst q; by rewrite Hp|]. by destruct (answerIn q no).
Qed.

Lemma decided_snoc p r ps no q : decidedIn ps (no ++ [(p, r)]) q = decides p r (decidedIn ps no) q.
Proof.
  unfold decidedIn, decides. destruct (ps !! q) as [[rq [r'|]]|] eqn:Hq; [done| |done]. rewrite answerIn_snoc.
  destruct (answerIn q no); [done|]. by case_decide.
Qed.

(** When the handlers are done, nothing is decided anew. *)
Lemma decided_notified p r ps no q : answerIn p no = Some r ->
  decidedIn (settle p r ps) (List.filter (fun n => negb (n.1 =? p)%nat) no) q = decidedIn ps no q.
Proof.
  intros Hp. unfold decidedIn. rewrite settle_lookup. destruct (ps !! q) as [[rq [r'|]]|] eqn:Hq; [done| |done].
  rewrite answerIn_filter. case_decide as Hd; [subst q; by rewrite Hp|done].
Qed.

Lemma decided_undecided e p rq : decided e p = Some (rq, None) <-> promises e !! p = Some (rq, None) /\ p ∉ map fst (notifying e).
Proof.
  unfold decided, decidedIn. rewrite <- answerIn_None. destruct (promises e !! p) as [[rq' [r|]]|]; [naive_solver| |naive_solver].
  split; [intros [= -> ->]; done|by intros [[= ->] ->]].
Qed.

Lemma decided_settled e p rq r : promises e !! p = Some (rq, Some r) -> decided e p = Some (rq, Some r).
Proof. unfold decided, decidedIn. by intros ->. Qed.

Lemma clearTimer_elem p ts q rq : (q, rq) ∈ clearTimer p ts <-> (q, rq) ∈ ts /\ q <> p.
Proof. unfold clearTimer. rewrite elem_filter_bool, negb_true_iff, Nat.eqb_neq. done. Qed.

Lemma decides_timers p r d d' ts : (forall q, d' q = decides p r d q) -> timers_ok d ts -> timers_ok d' (clearTimer p ts).
Proof.
  intros Hd H q rq. rewrite clearTimer_elem, Hd, (H q rq). unfold decides. destruct (d q) as [[rq' [?|]]|] eqn:Hq; [naive_solver| |naive_solver].
  case_decide; naive_solver.
Qed.

(** A pending entry whose promise is decided is the one filed under the id of
    the promise's request. *)
Lemma decides_pending p rq r pd d d' : (forall q, d' q = decides p r d q) -> d p = Some (rq, None) -> pending_ok pd d -> pending_ok (mdel (rq_id rq) pd) d'.
Proof.
  intros Hd Hp H k entry. rewrite mget_mdel. destruct (String.eqb_spec k (rq_id rq)) as [|Hne]; [done|]. intros Hk.
  destruct (H k entry Hk) as [H1 H2]. split; [done|]. rewrite Hd. unfold decides. rewrite H2. case_decide as Heq; [|done].
  rewrite Heq, Hp in H2. congruence.
Qed.

Lemma notifying_settle p r no ps : p ∉ map fst no -> notifying_ok no ps -> notifying_ok no (settle p r ps).
Proof.
  intros Hp [H1 H2]. split; [done|]. intros q r' Hq. destruct (H2 q r' Hq) as [rq Hrq]. exists rq. rewrite settle_lookup, Hrq.
  case_decide as He; [|done]. subst q. destruct Hp. by apply (list_elem_of_fmap_2 fst) in Hq.
Qed.

Lemma timers_frame d d' ts : (forall q, d' q = d q) -> timers_ok d ts -> timers_ok d' ts.
Proof. intros Hd H q rq. by rewrite Hd. Qed.

Lemma pending_frame pd d d' : (forall q, d' q = d q) -> pending_ok pd d -> pending_ok pd d'.
Proof. intros Hd H k entry Hk. rewrite Hd. by apply H. Qed.

(** A new promise is undecided. *)
Lemma request_decided rq e : eng_inv e -> forall q, decided (requestApproval rq e).1 q =
  if decide (q = length (promises e)) then Some (rq, None) else decided e q.
Proof.
  intros Hi q. change (decided (requestApproval rq e).1 q) with (decidedIn (promises e ++ [(rq, None)]) (notifying e) q). unfold decided, decidedIn. case_decide as Hq.
  - rewrite list_lookup_middle by done. rewrite (proj2 (answerIn_None _ _)); [done|]. subst q. intros Hin. apply list_elem_of_fmap in Hin as ([p r] & He & Hin).
    destruct (proj2 (ei_notifying e Hi) p r Hin) as [rq' Hl]. apply lookup_lt_Some in Hl. cbn in *. lia.
  - destruct (decide (q < length (promises e))%nat); [by rewrite lookup_app_l by done|].
    rewrite (lookup_ge_None_2 (promises e ++ _)) by (rewrite length_app; cbn; lia). by rewrite lookup_ge_None_2 by lia.
Qed.

Lemma decided_lt e p x : decided e p = Some x -> (p < length (promises e))%nat.
Proof. unfold decided, decidedIn. destruct (promises e !! p) as [y|] eqn:Hp; [|done]. intros _. by eapply lookup_lt_Some. Qed.

Lemma requestApproval_inv rq e : eng_inv e -> eng_inv (requestApproval rq e).1.
Proof.
  intros Hi. pose proof (request_decided rq e Hi) as Hd. destruct Hi as [H1 H2 H3 H4 H5]. split.
  - intros q rq'. rewrite Hd. cbn. rewrite elem_of_app, list_elem_of_singleton, (H1 q rq'). case_decide as Hq.
    + subst q. split; [intros [H%decided_lt|[= ->]]; [lia|done]|intros [= ->]; by right].
    + split; [by intros [H|[= ? ?]]|by left].
  - by apply mset_NoDup.
  - intros k entry. rewrite Hd. cbn. rewrite mget_mset. case_match eqn:Hk.
    + intros [= <-]. apply String.eqb_eq in Hk as ->. split; [done|]. cbn. by rewrite decide_True.
    + intros H. destruct (H3 k entry H) as [? Hp]. split; [done|]. rewrite decide_False; [done|]. apply decided_lt in Hp. lia.
  - destruct H4 as [H4 H4']. split; [done|]. intros p r Hp. destruct (H4' p r Hp) as [rq' Hl]. exists rq'. by apply lookup_app_l_Some.
  - intros p. cbn. rewrite elem_of_app, list_elem_of_singleton, length_app. cbn. intros [Hp%H5| ->]; lia.
Qed.

(** ** How promises evolve *)

(** Decided promises keep their answer; an undecided one stays undecided, is
    answered [no], or is answered as [granted] says. *)
Record ps_evolves (granted : nat -> ApprovalRequest -> ApprovalResponse -> Prop)
    (d d' : nat -> option (ApprovalRequest * option ApprovalResponse)) : Prop := {
  pe_settled : forall p rq r, d p = Some (rq, Some r) -> d' p = Some (rq, Some r);
  pe_open : forall p rq, d p = Some (rq, None) -> d' p = Some (rq, None) \/
    exists r, d' p = Some (rq, Some r) /\ (rs_disposition r = no \/ granted p rq r);
}.

#[export] Instance ps_evolves_preorder granted : PreOrder (ps_evolves granted).
Proof.
  split; [split; auto|]. intros x y z [S1 O1] [S2 O2]. split; [eauto|]. intros p rq H.
  destruct (O1 p rq H) as [H1|(r & H1 & Hr)]; [auto|]. right. exists r. auto.
Qed.

Lemma same_evolves granted d d' : (forall q, d' q = d q) -> ps_evolves granted d d'.
Proof. intros Hd. split; intros; rewrite Hd; auto. Qed.

Lemma decides_evolves granted p r d d' : (forall q, d' q = decides p r d q) ->
  (forall rq, d p = Some (rq, None) -> rs_disposition r = no \/ granted p rq r) -> ps_evolves granted d d'.
Proof.
  intros Hd Hg. split; intros q rq; [intros r' H|intros H]; rewrite Hd; unfold decides; rewrite H; [done|]. case_decide as Hq; [|by left].
  right. exists r. split; [done|]. subst. auto.
Qed.

(** A resolved promise is never resolved again. *)
Definition keepsSettled (ps ps' : list (ApprovalRequest * option ApprovalResponse)) : Prop :=
  forall p rq r, ps !! p = Some (rq, Some r) -> ps' !! p = Some (rq, Some r).

#[export] Instance keepsSettled_preorder : PreOrder keepsSettled.
Proof. split; [by intros ps p rq r|]. intros x y z H1 H2 p rq r H. auto. Qed.

Section engine.
Context (regex_test : string -> string -> option bool).
Context (effectPolicy : option (EffectApprovalPolicyInput -> EffectApprovalOutcome)).
Context (hmac : string -> SignedAssertion -> string).

Notation stepE := (step regex_test effectPolicy hmac).

(** Event [ev] is an answer to the pending request [rq] of promise [p], from a
    resolver who holds a required role, and it is not [no]. *)
Definition approves (e : ApprovalEngine) (ev : Event * Z) (p : nat) (rq : ApprovalRequest) (r : ApprovalResponse) : Prop :=
  exists id resp entry, ev.1 = Resolve id resp /\ mget (pending e) id = Some entry /\ promise entry = p /\ request entry = rq /\
    r = normalizeResponse hmac rq resp ev.2 e /\ isResolutionAuthorized rq r = true /\ rs_disposition resp <> no.

Record evolves (ev : Event * Z) (e e' : ApprovalEngine) : Prop := {
  ev_inv : eng_inv e';
  ev_decided : ps_evolves (approves e ev) (decided e) (decided e');
  ev_settled : keepsSettled (promises e) (promises e');
}.

Lemma frame_evolves ev e e' : eng_inv e -> same_requests e e' -> evolves ev e e'.
Proof. intros Hi F. split; [by eapply eng_inv_frame|by rewrite (decided_frame _ _ F)|intros p rq r; by rewrite (sr_promises _ _ F)]. Qed.

Lemma request_evolves ev rq e : eng_inv e -> evolves ev e (requestApproval rq e).1.
Proof.
  intros Hi. split; [by apply requestApproval_inv| |intros p rq' r H; by apply lookup_app_l_Some].
  split; intros q rq'; [intros r H|intros H; left]; rewrite request_decided by done; (rewrite decide_False; [done|]; apply decided_lt in H; lia).
Qed.

Lemma announced_evolves p ev e : eng_inv e -> evolves ev e (announced p e).
Proof.
  intros Hi. split; [|done|done]. destruct Hi as [H1 H2 H3 H4 H5]. split; [done..|]. intros q. cbn. rewrite elem_filter_bool. intros [Hq _]. by apply H5.
Qed.

Lemma settle_keeps p r ps : keepsSettled ps (settle p r ps).
Proof. intros q rq r' H. by rewrite settle_lookup, H. Qed.

Lemma notified_evolves p ev e : eng_inv e -> evolves ev e (notified p e).
Proof.
  intros Hi. unfold notified. destruct (List.find _ _) as [[q r]|] eqn:Hf; [|by apply frame_evolves].
  assert (Ha : answerIn p (notifying e) = Some r) by (unfold answerIn; by rewrite Hf).
  set (e' := with_handlers _ _ _). assert (Hd : forall q, decided e' q = decided e q) by (intros; by apply decided_notified).
  split; [|by apply same_evolves|apply settle_keeps]. destruct Hi as [H1 H2 H3 [H4 H4'] H5]. split.
  - by eapply timers_frame.
  - done.
  - by eapply pending_frame.
  - split.
    + eapply sublist_NoDup; [exact H4|]. apply (fmap_sublist fst). cbn. clear. induction (notifying e) as [|[a b] l IH]; cbn; [done|].
      destruct (negb _); [by apply sublist_skip|by apply sublist_cons].
    + intros q' r'. cbn. rewrite elem_filter_bool, negb_true_iff, Nat.eqb_neq. cbn. intros [Hin Hne]. destruct (H4' q' r' Hin) as [rq Hrq]. exists rq.
      by rewrite settle_lookup, Hrq, decide_False.
  - cbn. rewrite settle_length. exact H5.
Qed.

Lemma resolve_evolves id resp now e : eng_inv e -> evolves (Resolve id resp, now) e (resolve hmac id resp now e).1.
Proof.
  intros Hi. unfold resolve. destruct (mget (pending e) id) as [entry|] eqn:Hp; [|by apply frame_evolves].
  destruct (isResolutionAuthorized _ _) eqn:Ha; cbn [negb]; [|by apply frame_evolves].
  set (e1 := with_pending _ _ _ e). destruct (carry_requests (request entry) (rs_disposition resp) e1) as [F1 F2 F3 F4 F5].
  unfold normalizeResponse at 1. cbn [rs_disposition]. set (e2 := carry _ _ e1) in *. set (r := normalizeResponse _ _ _ _ _) in *.
  destruct (ei_pending e Hi id entry Hp) as [<- Hq]. cbn [fst].
  assert (Hd : forall q, decided (with_handlers (announcing e2) (notifying e2 ++ [(promise entry, r)]) e2) q = decides (promise entry) r (decided e) q).
  { intros q. unfold decided. cbn. rewrite F2, F5. apply decided_snoc. }
  split.
  - destruct Hi as [H1 H2 H3 [H4 H4'] H5]. split.
    + cbn. rewrite F3. by eapply decides_timers.
    + cbn. rewrite F1. by apply mdel_NoDup.
    + cbn [pending with_handlers]. rewrite F1. by eapply decides_pending.
    + apply decided_undecided in Hq as [Hq Hn]. cbn. rewrite F2, F5. split.
      * rewrite map_app. apply NoDup_app. split_and!; [done| |apply NoDup_singleton]. intros q Hin ->%list_elem_of_singleton. done.
      * intros q r'. rewrite elem_of_app, list_elem_of_singleton. intros [Hin|[= -> ->]]; [by eapply H4'|by eexists].
    + cbn. rewrite F2, F4. exact H5.
  - eapply decides_evolves; [exact Hd|]. intros rq Hrq. rewrite Hq in Hrq. injection Hrq as <-.
    destruct (decide (rs_disposition resp = no)) as [|Hn]; [by left|right]. exists (rq_id (request entry)), resp, entry. done.
  - cbn. rewrite F2. done.
Qed.

Lemma timeout_evolves p now ev e : eng_inv e -> evolves ev e (timeout hmac p now e).
Proof.
  intros Hi. unfold timeout. destruct (List.find _ _) as [[q rq]|] eqn:Hf; [|by apply frame_evolves].
  apply List.find_some in Hf as [Hin Hq]. cbn in Hq. apply Nat.eqb_eq in Hq as ->. apply list_elem_of_In, (ei_timers e Hi) in Hin.
  pose proof Hin as [Hp Hn]%decided_undecided. set (r := normalizeResponse _ _ _ _ _). set (e' := with_pending _ _ _ e).
  assert (Hd : forall q, decided e' q = decides p r (decided e) q) by (intros q; by apply decided_settle, answerIn_None).
  split; [|eapply decides_evolves; [exact Hd|by left]|apply settle_keeps]. destruct Hi as [H1 H2 H3 H4 H5]. split.
  - by eapply decides_timers.
  - by apply mdel_NoDup.
  - by eapply decides_pending.
  - by apply notifying_settle.
  - cbn. rewrite settle_length. exact H5.
Qed.

Lemma escalate_evolves rq now ev e : eng_inv e -> evolves ev e (escalate rq now e).1.
Proof.
  intros Hi. unfold escalate. destruct (mget _ _) as [entry|] eqn:Hp; [|by apply frame_evolves].
  destruct (escalated entry); [by apply frame_evolves|]. split; [|done|done]. destruct Hi as [H1 H2 H3 H4 H5]. split; try done.
  - by apply mset_NoDup.
  - intros k entry'. cbn. rewrite mget_mset. case_match eqn:Hk; [|apply H3].
    intros [= <-]. apply String.eqb_eq in Hk as ->. apply (H3 _ _ Hp).
Qed.

Lemma disposeEntry_evolves now e granted no es acc : timers_ok (decidedIn acc.1 no) acc.2 -> notifying_ok no acc.1 ->
  (forall en, en ∈ es -> promise en ∉ map fst no) ->
  let res := foldl (disposeEntry hmac now e) acc es in
  timers_ok (decidedIn res.1 no) res.2 /\ notifying_ok no res.1 /\ length res.1 = length acc.1 /\
  ps_evolves granted (decidedIn acc.1 no) (decidedIn res.1 no) /\ keepsSettled acc.1 res.1.
Proof.
  revert acc. induction es as [|en es IH]; intros acc Ha Hno Hes; [by cbn|]. cbn [foldl].
  assert (Hp : promise en ∉ map fst no) by (apply Hes; by left). set (acc' := disposeEntry hmac now e acc en).
  assert (Hd : forall q, decidedIn acc'.1 no q = decides (promise en) (normalizeResponse hmac (request en) (systemResponse (rq_id (request en)) "system:dispose" now) now e) (decidedIn acc.1 no) q).
  { intros q. by apply decided_settle, answerIn_None. }
  destruct (IH acc') as (I1 & I2 & I3 & I4 & I5); [by eapply decides_timers|by apply notifying_settle|intros; apply Hes; by right|].
  cbv zeta. split_and!; [done|done|by rewrite I3; apply settle_length| |].
  - etrans; [|exact I4]. eapply decides_evolves; [exact Hd|by left].
  - intros q rq r Hq. by apply I5, settle_keeps.
Qed.

Lemma dispose_evolves now ev e : eng_inv e -> evolves ev e (dispose hmac now e).
Proof.
  intros Hi. unfold dispose. assert (Hes : forall en, en ∈ mvals (pending e) -> promise en ∉ map fst (notifying e)).
  { intros en Hin. apply elem_mvals in Hin as [k Hk]; [|apply (ei_keys e Hi)]. destruct (ei_pending e Hi k en Hk) as [_ Hd]. by apply decided_undecided in Hd as [_ ?]. }
  destruct (disposeEntry_evolves now e (approves e ev) (notifying e) (mvals (pending e)) (promises e, timers e) (ei_timers e Hi) (ei_notifying e Hi) Hes) as (H1 & H2 & H3 & H4 & H5).
  destruct (foldl _ _ _) as [ps ts]. cbn [fst snd] in *. split; [|done|done]. split; try done.
  - constructor.
  - intros p Hp. cbn. rewrite H3. by apply (ei_announcing e Hi).
Qed.

Lemma gate_shape toolName args sid id now e :
  ((gate regex_test effectPolicy toolName args sid id now e).1 = e /\
   ((gate regex_test effectPolicy toolName args sid id now e).2 = Passed \/ (gate regex_test effectPolicy toolName args sid id now e).2 = Blocked)) \/
  exists rq, rq_id rq = id /\ rq_toolName rq = toolName /\ rq_args rq = args /\ rq_sessionId rq = sid /\
    gate regex_test effectPolicy toolName args sid id now e = ((requestApproval rq e).1, Waiting (length (promises e))).
Proof.
  unfold gate. destruct (isEmpty toolName); [auto|]. destruct (denied _); [auto|]. destruct (d_rule _) as [rule|]; [|auto].
  destruct (elevated _ || _); [auto|]. right. eexists. cbn [requestApproval]. split_and!; try reflexivity; done.
Qed.

(** Every event keeps the invariant, and settles promises only as
    [ps_evolves] says. *)
Lemma step_evolves s ev : eng_inv (engine s) -> evolves ev (engine s) (engine (stepE s ev)).
Proof.
  intros Hi. destruct ev as [ev now]. destruct ev as [t a sid id|rq|p|id resp|p|p|rq|sid pat|sid|sid op pat|]; cbn [step on_engine engine].
  - pose proof (gate_shape t a sid id now (engine s)) as Hg. destruct (gate _ _ _ _ _ _ _ _) as [e st]. cbn in Hg. cbn [engine].
    destruct Hg as [[-> _]|(rq & _ & _ & _ & _ & [= -> ->])]; [by apply frame_evolves|by apply request_evolves].
  - by apply request_evolves.
  - by apply announced_evolves.
  - by apply resolve_evolves.
  - by apply notified_evolves.
  - by apply timeout_evolves.
  - by apply escalate_evolves.
  - by apply frame_evolves.
  - by apply frame_evolves.
  - apply frame_evolves; [done|apply mutation_requests].
  - by apply dispose_evolves.
Qed.

Lemma approvals_run_inv s evs : eng_inv (engine s) -> eng_inv (engine (foldl stepE s evs)).
Proof. intros Hi. induction evs as [|ev evs IH] using rev_ind; [done|]. rewrite foldl_snoc. by apply step_evolves. Qed.

Lemma run_evolves granted s evs : eng_inv (engine s) ->
  (forall l ev l', evs = l ++ ev :: l' -> forall p rq r, approves (engine (foldl stepE s l)) ev p rq r -> granted p rq r) ->
  ps_evolves granted (decided (engine s)) (decided (engine (foldl stepE s evs))).
Proof.
  intros Hi. induction evs as [|ev evs IH] using rev_ind; intros Hg; [done|]. rewrite foldl_snoc. etrans; [apply IH|].
  - intros l ev' l' ->. apply (Hg l ev' (l' ++ [ev])). by rewrite <- app_assoc.
  - destruct (step_evolves (foldl stepE s evs) ev (approvals_run_inv s evs Hi)) as [_ [H1 H2] _]. split; [done|].
    intros p rq H. destruct (H2 p rq H) as [|(r & Hr & [|Ha])]; [auto|eauto|]. right. exists r. split; [done|right].
    by apply (Hg evs ev []).
Qed.

(** A promise of the past is undecided, was answered [no], or was approved by
    one of the events since. *)
Lemma run_promise s evs p rq : eng_inv (engine s) -> decided (engine s) p = Some (rq, None) ->
  decided (engine (foldl stepE s evs)) p = Some (rq, None) \/
  exists r, decided (engine (foldl stepE s evs)) p = Some (rq, Some r) /\
    (rs_disposition r = no \/ exists l ev l', evs = l ++ ev :: l' /\ approves (engine (foldl stepE s l)) ev p rq r).
Proof.
  intros Hi. apply (pe_open (fun p rq r => exists l ev l', evs = l ++ ev :: l' /\ approves (engine (foldl stepE s l)) ev p rq r)).
  apply run_evolves; [done|]. intros l ev l' -> p' rq' r' Ha. by exists l, ev, l'.
Qed.

Lemma run_decided s evs p rq r : eng_inv (engine s) -> decided (engine s) p = Some (rq, Some r) ->
  decided (engine (foldl stepE s evs)) p = Some (rq, Some r).
Proof. intros Hi. apply (pe_settled _ _ _ (run_evolves (fun _ _ _ => True) s evs Hi ltac:(done))). Qed.

Lemma run_settled s evs p rq r : eng_inv (engine s) -> promises (engine s) !! p = Some (rq, Some r) ->
  promises (engine (foldl stepE s evs)) !! p = Some (rq, Some r).
Proof.
  intros Hi Hp. induction evs as [|ev evs IH] using rev_ind; [done|]. rewrite foldl_snoc. by apply (ev_settled _ _ _ (step_evolves _ ev (approvals_run_inv s evs Hi))).
Qed.

(** An approving event decides the promise with its answer. *)
Lemma approves_decides s ev p rq r : eng_inv (engine s) -> approves (engine s) ev p rq r ->
  decided (engine (stepE s ev)) p = Some (rq, Some r).
Proof.
  intros Hi (id & resp & entry & Hev & Hp & <- & <- & -> & Ha & _). destruct ev as [ev now]. cbn in Hev. subst ev.
  cbn [step on_engine engine]. unfold resolve. rewrite Hp. cbn [snd] in Ha |- *. rewrite Ha. cbn [negb fst].
  match goal with |- context [carry ?a ?b ?c] => destruct (carry_requests a b c) as [F1 F2 F3 F4 F5] end.
  unfold decided. cbn [promises notifying with_handlers]. rewrite F2, F5, decided_snoc. unfold decides.
  change (decidedIn _ _ (promise entry)) with (decided (engine s) (promise entry)).
  rewrite (proj2 (ei_pending _ Hi id entry Hp)). by rewrite decide_True.
Qed.

Lemma run_approved s l ev l' p rq r : eng_inv (engine s) -> approves (engine (foldl stepE s l)) ev p rq r ->
  decided (engine (foldl stepE s (l ++ ev :: l'))) p = Some (rq, Some r).
Proof.
  intros Hi Ha. rewrite foldl_app. cbn [foldl]. apply run_decided.
  - apply step_evolves. by apply approvals_run_inv.
  - apply approves_decides; [by apply approvals_run_inv|done].
Qed.

Lemma approves_granted e ev p rq r : approves e ev p rq r -> rs_disposition r <> no.
Proof. by intros (id & resp & entry & _ & _ & _ & _ & -> & _ & H). Qed.

(** ** When the gate asks *)

Definition outcomeFor (policy : EffectApprovalPolicyInput -> EffectApprovalOutcome) (toolName : string) (args : Args) (sid : string)
    : EffectApprovalOutcome :=
  policy {| ei_toolName := toolName; ei_args := args; ei_sessionId := sid; ei_parentSessionId := None; ei_subagentSessionId := None;
            ei_effect := None |}.

(** The scope key under which decisions about a call are carried. *)
Definition scopeOf (toolName : string) (args : Args) (sid : string) : option string :=
  (fun policy => eo_approvalScopeKey (outcomeFor policy toolName args sid)) <$> effectPolicy.

(** Whether the policy in use lets the call run without asking, asks, or denies. *)
Definition verdict (toolName : string) (args : Args) (sid : string) (e : ApprovalEngine) : EffectStatus :=
  match effectPolicy with
  | Some policy => eo_status (outcomeFor policy toolName args sid)
  | None => if existsb (ruleApplies regex_test toolName args) (rules e) then require_approval else allow
  end.

Lemma find_existsb {A} (f : A -> bool) l : existsb f l = match List.find f l with Some _ => true | None => false end.
Proof. induction l as [|a l IH]; [done|]. cbn. by destruct (f a). Qed.

(** The gate in terms of the carried decisions and the verdict. *)
Lemma gate_cases toolName args sid id now e : toolName <> EmptyString ->
  let g := gate regex_test effectPolicy toolName args sid id now e in
  if isToolDenied regex_test sid toolName None (scopeOf toolName args sid) e then g = (e, Blocked)
  else if isToolElevated regex_test sid toolName (scopeOf toolName args sid) e then g = (e, Passed)
  else match verdict toolName args sid e with
    | allow => g = (e, Passed)
    | deny_ => g = (e, Blocked)
    | require_approval => exists rq, rq_id rq = id /\ rq_toolName rq = toolName /\ rq_args rq = args /\ rq_sessionId rq = sid /\
        g = ((requestApproval rq e).1, Waiting (length (promises e)))
    end.
Proof.
  intros Hne. cbn zeta. unfold gate. replace (isEmpty toolName) with false by (by destruct toolName).
  unfold simulate, verdict, scopeOf. destruct effectPolicy as [policy|]; cbn [fmap option_fmap option_map].
  - unfold buildEffectDecision. cbn [c_parentSessionId c_subagentSessionId c_effect noContext nonEmpty]. fold (outcomeFor policy toolName args sid).
    destruct (isToolDenied _ _ _ _ _ _); [done|]. destruct (isToolElevated _ _ _ _ _); [done|].
    destruct (eo_status _); [done| |done]. cbn [denied d_rule elevated required orb negb].
    match goal with |- context [requestApproval ?rq e] => exists rq end. done.
  - cbn [c_parentSessionId noContext]. destruct (isToolDenied _ _ _ _ _ _); [done|]. destruct (isToolElevated _ _ _ _ _); [done|].
    unfold requiresApproval. rewrite find_existsb. destruct (List.find _ _); [|done].
    cbn [denied d_rule elevated required orb negb]. match goal with |- context [requestApproval ?rq e] => exists rq end. done.
Qed.

(** ** Theorems *)

Definition initial (rs : option (list ApprovalRule)) (tmo sla esc : option Z) (key : option string) : System :=
  {| engine := newApprovalEngine rs tmo sla esc key; gates := [] |}.

Lemma approvals_initial_inv rs tmo sla esc key evs : eng_inv (engine (foldl stepE (initial rs tmo sla esc key) evs)).
Proof.
  apply approvals_run_inv. split; cbn.
  - intros p rq. split; intros H; [by apply elem_of_nil in H|done].
  - constructor.
  - intros p. done.
  - split; [constructor|]. by intros p r ?%elem_of_nil.
  - by intros p ?%elem_of_nil.
Qed.

(** Neither the request handlers nor the response handlers of promise [p] are
    running. *)
Definition handlersDone (p : nat) (e : ApprovalEngine) : Prop := p ∉ announcing e /\ p ∉ map fst (notifying e).

(** What a waiting caller gets. *)
Lemma gateResult_waiting p e b : eng_inv e -> gateResult (Waiting p) e = Some b <->
  handlersDone p e /\ exists rq r, decided e p = Some (rq, Some r) /\ b = match rs_disposition r with yes | always => true | no => false end.
Proof.
  intros Hi. cbn [gateResult]. unfold handlersDone. case_bool_decide as Ha; [naive_solver|]. unfold decided, decidedIn. cbn.
  destruct (promises e !! p) as [[rq [r|]]|] eqn:Hp; cbn.
  - split; [|by intros (_ & rq' & r' & [= -> ->] & ->)]. intros [= <-]. split; [|by exists rq, r]. split; [done|]. intros Hin.
    apply list_elem_of_fmap in Hin as ([q r'] & -> & Hin). destruct (proj2 (ei_notifying e Hi) q r' Hin) as [rq' Hrq]. cbn in *. congruence.
  - split; [done|]. intros ([_ Hn] & rq' & r' & [= -> Hr] & _). apply answerIn_None in Hn. congruence.
  - split; [done|]. by intros (_ & rq' & r' & ? & _).
Qed.

(** The promise of a gate call that has to ask. *)
Lemma gate_promise s toolName args sid id now rq after : eng_inv (engine s) ->
  gate regex_test effectPolicy toolName args sid id now (engine s) = ((requestApproval rq (engine s)).1, Waiting (length (promises (engine s)))) ->
  gateResult (Waiting (length (promises (engine s)))) (engine (foldl stepE s ((GateCall toolName args sid id, now) :: after))) = Some true ->
  exists r l ev l', after = l ++ ev :: l' /\
    approves (engine (foldl stepE s ((GateCall toolName args sid id, now) :: l))) ev (length (promises (engine s))) rq r.
Proof.
  intros Hi Hg. rewrite gateResult_waiting by (by apply approvals_run_inv). intros (_ & rq' & r & Hd & Hr). revert Hd. cbn [foldl step]. rewrite Hg. set (s1 := {| engine := _; gates := _ |}).
  assert (H1 : eng_inv (engine s1)) by (by apply requestApproval_inv).
  assert (Hp : decided (engine s1) (length (promises (engine s))) = Some (rq, None)) by (unfold s1; cbn [engine]; by rewrite request_decided, decide_True).
  destruct (run_promise s1 after _ _ H1 Hp) as [H|(r' & H & [Hn|(l & ev & l' & -> & Ha)])]; rewrite H; [done| |].
  - intros [= <- <-]. by rewrite Hn in Hr.
  - intros _. by exists r', l, ev, l'.
Qed.

(** C28. The gate lets a call of a named tool run exactly when, at the moment of the call,
    the tool was not denied for the session and either it was elevated, or the
    policy in use does not ask, or the policy asks and afterwards a resolver
    with a required role answered the very request of this call with yes or
    always, and the handlers that are told of the request and of the answer have
    returned. No timeout, shutdown, foreign answer or later change of the session
    policy can let it through. *)
Theorem gate_allows_only_approved rs tmo sla esc key before toolName args sid id now after :
  toolName <> EmptyString ->
  let s := foldl stepE (initial rs tmo sla esc key) before in
  let call := (GateCall toolName args sid id, now) in
  let status := (gate regex_test effectPolicy toolName args sid id now (engine s)).2 in
  gateResult status (engine (foldl stepE s (call :: after))) = Some true <->
  isToolDenied regex_test sid toolName None (scopeOf toolName args sid) (engine s) = false /\
  (isToolElevated regex_test sid toolName (scopeOf toolName args sid) (engine s) = true \/
   verdict toolName args sid (engine s) = allow \/
   verdict toolName args sid (engine s) = require_approval /\
   exists rq r l ev l', after = l ++ ev :: l' /\
     rq_id rq = id /\ rq_toolName rq = toolName /\ rq_args rq = args /\ rq_sessionId rq = sid /\
     approves (engine (foldl stepE s (call :: l))) ev (length (promises (engine s))) rq r /\
     handlersDone (length (promises (engine s))) (engine (foldl stepE s (call :: after)))).
Proof.
  intros Hne s call status. assert (Hi : eng_inv (engine s)) by apply approvals_initial_inv.
  pose proof (gate_cases toolName args sid id now (engine s) Hne) as Hg. cbn zeta in Hg. subst status.
  destruct (isToolDenied _ _ _ _ _ _); [rewrite Hg; cbn [snd gateResult]; naive_solver|].
  destruct (isToolElevated _ _ _ _ _); [rewrite Hg; cbn [snd gateResult]; naive_solver|].
  destruct (verdict _ _ _ _); [rewrite Hg; cbn [snd gateResult]; naive_solver| |rewrite Hg; cbn [snd gateResult]; naive_solver].
  destruct Hg as (rq & H1 & H2 & H3 & H4 & Hg). split.
  - rewrite Hg at 1. cbn [snd]. intros H. destruct (gate_promise s toolName args sid id now rq after Hi Hg H) as (r & l & ev & l' & Ha & Hv).
    apply gateResult_waiting in H as [Hd _]; [|by apply approvals_run_inv].
    split; [done|]. right; right. split; [done|]. by exists rq, r, l, ev, l'.
  - intros (_ & [|[|(_ & rq' & r & l & ev & l' & -> & _ & _ & _ & _ & Ha & Hd)]]); [done..|]. rewrite Hg. cbn [snd].
    apply gateResult_waiting; [by apply approvals_run_inv|]. split; [done|]. exists rq', r.
    change (call :: l ++ ev :: l') with ((call :: l) ++ ev :: l'). split; [by apply run_approved|].
    pose proof (approves_granted _ _ _ _ _ Ha). by destruct (rs_disposition r).
Qed.

(** What the timer of an undecided promise does. *)
Lemma timeout_settles s p rq now : eng_inv (engine s) -> decided (engine s) p = Some (rq, None) ->
  exists r, promises (engine (stepE s (Timeout p, now))) !! p = Some (rq, Some r) /\ rs_disposition r = no /\
    rs_approvedBy r = Some "system:auto-timeout"%string /\ rs_requestId r = rq_id rq.
Proof.
  intros Hi Hd. cbn [step on_engine engine]. unfold timeout. destruct (List.find _ _) as [[q rq']|] eqn:Hf.
  - apply List.find_some in Hf as [Hin Hq]. cbn in Hq. apply Nat.eqb_eq in Hq as ->. apply list_elem_of_In, (ei_timers _ Hi) in Hin.
    rewrite Hd in Hin. injection Hin as <-. apply decided_undecided in Hd as [Hp _]. cbn [promises with_pending]. rewrite settle_lookup, Hp, decide_True by done. by eexists.
  - exfalso. apply (ei_timers _ Hi), list_elem_of_In, (List.find_none _ _ Hf) in Hd. cbn in Hd. by rewrite Nat.eqb_refl in Hd.
Qed.

(** What the return of the response handlers does. *)
Lemma notified_settles s p r now : eng_inv (engine s) -> (p, r) ∈ notifying (engine s) ->
  exists rq, promises (engine s) !! p = Some (rq, None) /\ promises (engine (stepE s (Notified p, now))) !! p = Some (rq, Some r).
Proof.
  intros Hi Hin. destruct (ei_notifying _ Hi) as [Hn Ho]. destruct (Ho p r Hin) as [rq Hp]. exists rq. split; [done|].
  apply (answerIn_elem _ _ _ Hn) in Hin. unfold answerIn in Hin. cbn [step on_engine engine]. unfold notified.
  destruct (List.find _ _) as [[q r']|]; [|done]. injection Hin as ->. cbn [promises with_handlers with_pending]. by rewrite settle_lookup, Hp, decide_True.
Qed.

(** The timers that fire, the handlers that return. *)
Definition settleAll (now : Z) (e : ApprovalEngine) : list (Event * Z) :=
  map (fun t => (Timeout t.1, now)) (timers e) ++ map (fun n => (Notified n.1, now)) (notifying e) ++ map (fun p => (Announced p, now)) (announcing e).

Definition quiet (ev : Event * Z) : Prop := match ev.1 with Timeout _ | Notified _ | Announced _ => True | _ => False end.

Lemma settleAll_quiet now e : Forall quiet (settleAll now e).
Proof. unfold settleAll. rewrite !Forall_app, !Forall_map. split_and!; by apply Forall_true. Qed.

(** These events start nothing, and end what they are about. *)
Lemma quiet_step s ev p : quiet ev -> let e := engine s in let e' := engine (stepE s ev) in
  (p ∈ map fst (timers e') -> p ∈ map fst (timers e) /\ ev.1 <> Timeout p) /\
  (p ∈ map fst (notifying e') -> p ∈ map fst (notifying e) /\ ev.1 <> Notified p) /\
  (p ∈ announcing e' -> p ∈ announcing e /\ ev.1 <> Announced p).
Proof.
  destruct ev as [ev now]. intros Hq. assert (Hfst : forall {A} (f : nat * A -> bool) (l : list (nat * A)), p ∈ map fst (List.filter f l) <-> exists a, (p, a) ∈ l /\ f (p, a) = true).
  { intros A f l. rewrite list_elem_of_fmap. setoid_rewrite elem_filter_bool. split; [intros ([q a] & -> & ?); by exists a|intros (a & ?); by exists (p, a)]. }
  destruct ev; try done; cbn [step on_engine engine fst].
  - unfold announced. cbn. rewrite elem_filter_bool, negb_true_iff, Nat.eqb_neq. split_and!; [done|done|]. intros [? ?]. split; [done|congruence].
  - unfold notified. destruct (List.find _ _) as [[q r]|] eqn:Hf; cbn.
    + split_and!; [done| |done]. rewrite Hfst. intros (a & Ha & Hn%negb_true_iff%Nat.eqb_neq). split; [by apply (list_elem_of_fmap_2 fst) in Ha|cbn in Hn; congruence].
    + split_and!; [done| |done]. intros Hp. split; [done|]. intros [= ->]. apply list_elem_of_fmap in Hp as ([q r] & Hqp & Hin%list_elem_of_In). cbn in Hqp. subst q.
      apply (List.find_none _ _ Hf) in Hin. cbn in Hin. by rewrite Nat.eqb_refl in Hin.
  - unfold timeout. destruct (List.find _ _) as [[q rq]|] eqn:Hf; cbn.
    + split_and!; [|done|done]. unfold clearTimer. rewrite Hfst. intros (a & Ha & Hn%negb_true_iff%Nat.eqb_neq). split; [by apply (list_elem_of_fmap_2 fst) in Ha|cbn in Hn; congruence].
    + split_and!; [|done|done]. intros Hp. split; [done|]. intros [= ->]. apply list_elem_of_fmap in Hp as ([q r] & Hqp & Hin%list_elem_of_In). cbn in Hqp. subst q.
      apply (List.find_none _ _ Hf) in Hin. cbn in Hin. by rewrite Nat.eqb_refl in Hin.
Qed.

Lemma quiet_run s evs p : Forall quiet evs -> let e := engine s in let e' := engine (foldl stepE s evs) in
  (p ∈ map fst (timers e') -> p ∈ map fst (timers e) /\ forall ev, ev ∈ evs -> ev.1 <> Timeout p) /\
  (p ∈ map fst (notifying e') -> p ∈ map fst (notifying e) /\ forall ev, ev ∈ evs -> ev.1 <> Notified p) /\
  (p ∈ announcing e' -> p ∈ announcing e /\ forall ev, ev ∈ evs -> ev.1 <> Announced p).
Proof.
  induction evs as [|ev evs IH] using rev_ind; intros Hq; cbv zeta.
  { cbn. split_and!; (intros ?; split; [done|]; by intros ev ?%elem_of_nil). }
  apply Forall_app in Hq as [Hqs Hq]. apply Forall_inv in Hq. specialize (IH Hqs). cbv zeta in IH. destruct IH as (I1 & I2 & I3).
  rewrite foldl_snoc. destruct (quiet_step (foldl stepE s evs) ev p Hq) as (Q1 & Q2 & Q3). setoid_rewrite elem_of_app. setoid_rewrite list_elem_of_singleton.
  split_and!; intros Hp.
  - destruct (Q1 Hp) as [Hp1 Hn]. destruct (I1 Hp1) as [? ?]. split; [done|]. intros ev' [?| ->]; auto.
  - destruct (Q2 Hp) as [Hp1 Hn]. destruct (I2 Hp1) as [? ?]. split; [done|]. intros ev' [?| ->]; auto.
  - destruct (Q3 Hp) as [Hp1 Hn]. destruct (I3 Hp1) as [? ?]. split; [done|]. intros ev' [?| ->]; auto.
Qed.

Lemma settleAll_done s now p : let e' := engine (foldl stepE s (settleAll now (engine s))) in
  p ∉ map fst (timers e') /\ handlersDone p e'.
Proof.
  cbv zeta. destruct (quiet_run s (settleAll now (engine s)) p (settleAll_quiet now (engine s))) as (Q1 & Q2 & Q3). unfold settleAll in *. split; [|split].
  - intros Hp. destruct (Q1 Hp) as [Hin Hn]. apply list_elem_of_fmap in Hin as ([q rq] & -> & Hin). apply (Hn (Timeout q, now)); [|done].
    apply elem_of_app. left. apply list_elem_of_fmap. by exists (q, rq).
  - intros Hp. destruct (Q3 Hp) as [Hin Hn]. apply (Hn (Announced p, now)); [|done]. rewrite !elem_of_app. right; right. apply list_elem_of_fmap. by exists p.
  - intros Hp. destruct (Q2 Hp) as [Hin Hn]. apply list_elem_of_fmap in Hin as ([q r] & -> & Hin). apply (Hn (Notified q, now)); [|done].
    rewrite !elem_of_app. right; left. apply list_elem_of_fmap. by exists (q, r).
Qed.

(** C30. No caller is forgotten, and no answer is taken back. After any events a
    promise that is not resolved has a live timer, or else the response handlers
    are being told of its answer, never both. When the timer fires, the promise
    is answered no by the system; when the response handlers return, it is
    resolved with the answer they were told. Once all live timers have fired and
    all running handlers have returned, every caller so far has its result. And
    an answer that was accepted is the answer for ever. (A response handler that
    never returns leaves its caller without a timer, as an example shows.) *)
Theorem approvals_settle_once rs tmo sla esc key evs :
  let s := foldl stepE (initial rs tmo sla esc key) evs in
  (forall p rq, (p, rq) ∈ timers (engine s) <-> promises (engine s) !! p = Some (rq, None) /\ p ∉ map fst (notifying (engine s))) /\
  (forall p rq now, (p, rq) ∈ timers (engine s) -> exists r,
     promises (engine (stepE s (Timeout p, now))) !! p = Some (rq, Some r) /\ rs_disposition r = no /\
     rs_approvedBy r = Some "system:auto-timeout"%string /\ rs_requestId r = rq_id rq) /\
  (forall p r now, (p, r) ∈ notifying (engine s) -> exists rq,
     promises (engine s) !! p = Some (rq, None) /\ promises (engine (stepE s (Notified p, now))) !! p = Some (rq, Some r)) /\
  (forall now p, (p < length (promises (engine s)))%nat -> exists b,
     gateResult (Waiting p) (engine (foldl stepE s (settleAll now (engine s)))) = Some b) /\
  (forall p rq r more, decided (engine s) p = Some (rq, Some r) -> decided (engine (foldl stepE s more)) p = Some (rq, Some r)) /\
  (forall p rq r more, promises (engine s) !! p = Some (rq, Some r) -> promises (engine (foldl stepE s more)) !! p = Some (rq, Some r)).
Proof.
  intros s. assert (Hi : eng_inv (engine s)) by apply approvals_initial_inv. split_and!.
  - intros p rq. by rewrite (ei_timers _ Hi p rq), decided_undecided.
  - intros p rq now Hp. by apply timeout_settles, (ei_timers _ Hi).
  - intros p r now. by apply notified_settles.
  - intros now p Hp. destruct (settleAll_done s now p) as [Ht Hh]. set (s' := foldl stepE s (settleAll now (engine s))) in *.
    assert (Hi' : eng_inv (engine s')) by (by apply approvals_run_inv).
    assert (Hd : exists rq r, decided (engine s') p = Some (rq, Some r)).
    { apply lookup_lt_is_Some_2 in Hp as [[rq o] Hp]. assert (Hd : exists o', decided (engine s) p = Some (rq, o')) by (unfold decided, decidedIn; rewrite Hp; destruct o; by eexists).
      destruct Hd as [[r|] Hd]; [exists rq, r; by apply run_decided|]. destruct (run_promise s (settleAll now (engine s)) p rq Hi Hd) as [Ho|(r & Hr & _)]; [|by exists rq, r].
      fold s' in Ho. apply (ei_timers _ Hi') in Ho. by apply (list_elem_of_fmap_2 fst) in Ho. }
    destruct Hd as (rq & r & Hd). eexists. apply gateResult_waiting; [done|]. split; [done|]. by exists rq, r.
  - intros p rq r more. by apply run_decided.
  - intros p rq r more. by apply run_settled.
Qed.

End engine.

Lemma requestApproval_inj rq rq' e : (requestApproval rq e).1 = (requestApproval rq' e).1 -> rq = rq'.
Proof. cbn. intros Heq. apply (f_equal promises) in Heq. cbn in Heq. apply app_inv_head in Heq. congruence. Qed.

(** The roles a request of the gate requires. *)
Lemma gate_asks_roles regex_test policy toolName args sid id now e rq p :
  gate regex_test (Some policy) toolName args sid id now e = ((requestApproval rq e).1, Waiting p) ->
  rq_requiredApproverRoles rq =
  match eo_approverRoles (outcomeFor policy toolName args sid) with
  | Some (r :: rs) => Some (normalizeResolverRoles (Some (r :: rs))) | _ => None end.
Proof.
  unfold gate, simulate, buildEffectDecision. destruct (isEmpty toolName); [by intros [= ? ?]|].
  cbn [c_parentSessionId c_subagentSessionId c_effect noContext nonEmpty]. fold (outcomeFor policy toolName args sid).
  set (o := outcomeFor policy toolName args sid). destruct (isToolDenied _ _ _ _ _ _); [done|].
  destruct (isToolElevated _ _ _ _ _); [done|]. destruct (eo_status o); [done| |done]. cbn [denied d_rule elevated required orb negb].
  match goal with |- context [requestApproval ?r e] => change (let '(e', p') := requestApproval r e in (e', Waiting p')) with
    ((requestApproval r e).1, Waiting (length (promises e))) end.
  intros H%(f_equal fst). cbn [fst] in H. apply requestApproval_inj in H as <-. cbn [rq_requiredApproverRoles buildRequest effectRule approverRoles].
  by destruct (eo_approverRoles o) as [[|]|].
Qed.

Lemma normalizeRoles_elem l role : role ∈ normalizeResolverRoles (Some l) <-> role <> EmptyString /\ exists x, x ∈ l /\ role = trim x.
Proof.
  unfold normalizeResolverRoles. rewrite elem_foldl_set_add, elem_of_nil, elem_filter_bool, list_elem_of_fmap.
  destruct role; cbn; naive_solver.
Qed.

(** Normalising an answer keeps its roles. *)
Lemma normalized_roles hmac rq resp now e role :
  role ∈ normalizeResolverRoles (r ← rs_resolver (normalizeResponse hmac rq resp now e); rv_roles r) ->
  role ∈ normalizeResolverRoles (r ← rs_resolver resp; rv_roles r).
Proof.
  unfold normalizeResponse. cbn [rs_resolver mbind option_bind rv_roles].
  destruct (normalizeResolverRoles (r ← rs_resolver resp; rv_roles r)) as [|x l] eqn:Hl; [done|].
  rewrite <- Hl, normalizeRoles_elem. intros (Hne & y & Hy & ->).
  destruct (r ← rs_resolver resp; rv_roles r) as [roles|]; [|done]. rewrite normalizeRoles_elem in Hy |- *.
  destruct Hy as (_ & z & Hz & ->). rewrite trim_idem in *. by split; [|exists z].
Qed.

(** ** Instances *)

Module ApprovalDemo.

Definition rx (pattern value : string) : option bool := Some (String.eqb pattern value).
Definition mac (key : string) (_ : SignedAssertion) : string := key.
Definition ann (d : ApprovalDisposition) : ApprovalResponse :=
  {| rs_requestId := "r1"; rs_disposition := d; rs_approvedBy := Some "ann"%string; rs_resolver := None |}.
Definition start : System := initial None None None None None.
Definition deletion (sid : string) : Event * Z := (GateCall "system.delete" [] sid "r1", 5).
Definition answered (d : ApprovalDisposition) : list (Event * Z) := [(Announced 0, 5); (Resolve "r1" (ann d), 6); (Notified 0, 7)].

Lemma gate_allows_only_approved_witness :
  isToolDenied rx "s1" "system.delete" None (scopeOf None "system.delete" [] "s1") (engine start) = false /\
  (isToolElevated rx "s1" "system.delete" (scopeOf None "system.delete" [] "s1") (engine start) = true \/
   verdict rx None "system.delete" [] "s1" (engine start) = allow \/
   verdict rx None "system.delete" [] "s1" (engine start) = require_approval /\
   exists rq r l ev l', answered yes = l ++ ev :: l' /\
     rq_id rq = "r1"%string /\ rq_toolName rq = "system.delete"%string /\ rq_args rq = [] /\ rq_sessionId rq = "s1"%string /\
     approves mac (engine (foldl (step rx None mac) start (deletion "s1" :: l))) ev 0 rq r /\
     handlersDone 0 (engine (foldl (step rx None mac) start (deletion "s1" :: answered yes)))).
Proof.
  refine (proj1 (gate_allows_only_approved rx None mac None None None None None [] "system.delete" [] "s1" "r1" 5
    (answered yes) _) _); [discriminate|reflexivity].
Defined.

(** The events between the answer and the return of its handlers. *)
Lemma approvals_settle_once_witness :
  let s := foldl (step rx None mac) start [deletion "s1"; (Announced 0, 5); (Resolve "r1" (ann yes), 6)] in
  (forall p rq, (p, rq) ∈ timers (engine s) <-> promises (engine s) !! p = Some (rq, None) /\ p ∉ map fst (notifying (engine s))) /\
  length (notifying (engine s)) = 1%nat /\
  exists b, gateResult (Waiting 0) (engine (foldl (step rx None mac) s (settleAll 8 (engine s)))) = Some b.
Proof.
  cbv zeta. destruct (approvals_settle_once rx None mac None None None None None [deletion "s1"; (Announced 0, 5); (Resolve "r1" (ann yes), 6)]) as (H1 & _ & _ & H4 & _).
  split; [exact H1|]. split; [reflexivity|]. apply H4. vm_compute. constructor.
Defined.

(** A response handler that never returns: the answer is given, the timer is
    gone, a shutdown does not reach the request, and the caller waits for ever. *)
Lemma hanging_handler_waits :
  let s := foldl (step rx None mac) start [deletion "s1"; (Announced 0, 5); (Resolve "r1" (ann yes), 6)] in
  let later := foldl (step rx None mac) s [(Timeout 0, 400000); (Dispose, 400001)] in
  timers (engine s) = [] /\ getPending (engine s) = [] /\ gateResult (Waiting 0) (engine s) = None /\ gateResult (Waiting 0) (engine later) = None.
Proof. by vm_compute. Qed.

(** A request handler that never returns: the timer settles the promise, and the
    caller waits for the handler all the same. *)
Lemma hanging_announcement_waits :
  let s := foldl (step rx None mac) start [deletion "s1"; (Timeout 0, 400000)] in
  (exists rq r, promises (engine s) = [(rq, Some r)]) /\ gateResult (Waiting 0) (engine s) = None.
Proof. vm_compute. split; [by eexists _, _|done]. Qed.

(** An elevation is stored under the session id as given, and cleared under the
    trimmed one: a reset does not revoke it. *)
Lemma untrimmed_elevation_survives_reset :
  let evs := [deletion "s1 "; (Resolve "r1" (ann always), 6); (Mutate "s1 " op_reset None, 7)] in
  let e := engine (foldl (step rx None mac) start evs) in
  isToolElevated rx "s1 " "system.delete" None e = true /\ getSessionPolicyState "s1 " e = ([], []).
Proof. by vm_compute. Qed.

(** A request whose rule forbids the delegation to the parent session is
    resolved by the parent session all the same. *)
Lemma undelegated_request_resolved_by_parent :
  let rule := {| tool := "system.delete"; conditions := None; description := None; slaMs := None; escalationDelayMs := None;
    allowParentDelegation := Some false; approverGroup := None; approverRoles := None |} in
  let context := {| c_parentSessionId := Some "root"%string; c_subagentSessionId := None; c_shellProfile := None; c_message := None;
    c_effect := None; c_approvalScopeKey := None; c_reasonCode := None; c_decisionSource := None |} in
  let rq := buildRequest "r1" "system.delete" [] "child" "delete?" rule context 5 (engine start) in
  let answer := {| rs_requestId := "r1"; rs_disposition := yes; rs_approvedBy := None; rs_resolver := Some {|
    rv_actorId := None; rv_sessionId := Some "root"%string; rv_channel := None; rv_roles := None; rv_resolvedAt := 6; rv_assertion := None |} |} in
  rq_allowDelegatedResolution rq = false /\ (resolve mac "r1" answer 6 (requestApproval rq (engine start)).1).2 = true.
Proof. by vm_compute. Qed.

End ApprovalDemo.
