(* ===== verification/ApprovalsDenials.v ===== *)
(** * Approval engine: what was denied stays denied *)
From S2P Require Import Prelude JsMap JsString PolicyGlob Approvals ApprovalsSpec.
#[local] Open Scope Z_scope.

(** ** The patterns of a session *)

Definition deniedPatterns (e : ApprovalEngine) (s : string) : list string := default [] (mget (denials e) s).

Lemma addPattern_elem k p m k' q :
  q ∈ default [] (mget (addPattern k p m) k') <-> q ∈ default [] (mget m k') \/ k = k' /\ q = p.
Proof.
  unfold addPattern. rewrite mget_mset. destruct (String.eqb_spec k' k) as [->|Hn]; [|naive_solver].
  cbn [from_option id]. rewrite elem_set_add. naive_solver.
Qed.

Lemma dropPattern_elem k p m k' q :
  q ∈ default [] (mget (dropPattern k p m) k') <-> q ∈ default [] (mget m k') /\ ~ (k = k' /\ q = p).
Proof.
  unfold dropPattern. destruct (mget m k) as [ps|] eqn:Hk.
  2:{ split; [|naive_solver]. intros Hq. split; [done|]. intros [-> ->]. rewrite Hk in Hq. by apply elem_of_nil in Hq. }
  assert (Hf : forall x, x ∈ List.filter (fun p' => negb (String.eqb p' p)) ps <-> x ∈ ps /\ x <> p).
  { intros x. by rewrite elem_filter_bool, negb_true_iff, String.eqb_neq. }
  destruct (List.filter _ ps) as [|x rest] eqn:Hr.
  - rewrite mget_mdel. destruct (String.eqb_spec k' k) as [->|Hn]; [|naive_solver]. rewrite Hk. cbn [from_option id].
    specialize (Hf q). rewrite elem_of_nil in Hf |- *. naive_solver.
  - rewrite mget_mset. destruct (String.eqb_spec k' k) as [->|Hn]; [|naive_solver]. rewrite Hk. cbn [from_option id]. rewrite Hf. naive_solver.
Qed.

Lemma deny_elem s' p e s q :
  q ∈ deniedPatterns (deny s' p e) s <-> q ∈ deniedPatterns e s \/ trimmed (Some s') = Some s /\ q = p.
Proof.
  unfold deny, deniedPatterns. destruct (trimmed (Some s')) as [k|]; [|naive_solver]. cbn [denials with_patterns].
  rewrite addPattern_elem. naive_solver.
Qed.

Lemma clearDenied_elem s' p e s q :
  q ∈ deniedPatterns (clearDeniedPattern s' p e) s <-> q ∈ deniedPatterns e s /\ ~ (trimmed (Some s') = Some s /\ q = p).
Proof.
  unfold clearDeniedPattern, deniedPatterns. destruct (trimmed (Some s')) as [k|]; [|naive_solver]. cbn [denials with_patterns].
  rewrite dropPattern_elem. naive_solver.
Qed.

Lemma elevate_denials s' p e s : deniedPatterns (elevate s' p e) s = deniedPatterns e s.
Proof. done. Qed.

Lemma clearElevated_denials s' p e s : deniedPatterns (clearElevatedPattern s' p e) s = deniedPatterns e s.
Proof. unfold clearElevatedPattern. by case_match. Qed.

Lemma with_pending_denials pd ps ts e s : deniedPatterns (with_pending pd ps ts e) s = deniedPatterns e s.
Proof. done. Qed.

Lemma with_handlers_denials an no e s : deniedPatterns (with_handlers an no e) s = deniedPatterns e s.
Proof. done. Qed.

(** ** The effect of an answer *)

(** The sessions an answer is carried to: the one that asked and its parent. *)
Definition reaches (rq : ApprovalRequest) (s : string) : bool :=
  bool_decide (trimmed (Some (rq_sessionId rq)) = Some s) || bool_decide (trimmed (rq_parentSessionId rq) = Some s).

Lemma reaches_true rq s : reaches rq s = true <-> trimmed (Some (rq_sessionId rq)) = Some s \/ trimmed (rq_parentSessionId rq) = Some s.
Proof. unfold reaches. by rewrite orb_true_iff, !bool_decide_eq_true. Qed.

Lemma trimmed_nonEmpty o : trimmed (nonEmpty o) = trimmed o.
Proof. by destruct o as [[|c s]|]. Qed.

Lemma forParent_deny_elem rq p e s q : q ∈ deniedPatterns (forParent (fun x => deny x p) rq e) s <->
  q ∈ deniedPatterns e s \/ trimmed (rq_parentSessionId rq) = Some s /\ q = p.
Proof. unfold forParent. rewrite <- trimmed_nonEmpty. destruct (nonEmpty _); [apply deny_elem|naive_solver]. Qed.

Lemma forParent_clear_elem rq p e s q : q ∈ deniedPatterns (forParent (fun x => clearDeniedPattern x p) rq e) s <->
  q ∈ deniedPatterns e s /\ ~ (trimmed (rq_parentSessionId rq) = Some s /\ q = p).
Proof. unfold forParent. rewrite <- trimmed_nonEmpty. destruct (nonEmpty _); [apply clearDenied_elem|naive_solver]. Qed.

Lemma carry_elem rq d e s q : q ∈ deniedPatterns (carry rq d e) s <->
  if reaches rq s && String.eqb q (carriedPattern rq) then d = no else q ∈ deniedPatterns e s.
Proof.
  assert (Hc : reaches rq s && String.eqb q (carriedPattern rq) = true <->
    (trimmed (Some (rq_sessionId rq)) = Some s \/ trimmed (rq_parentSessionId rq) = Some s) /\ q = carriedPattern rq).
  { by rewrite andb_true_iff, reaches_true, String.eqb_eq. }
  unfold carry. destruct d; rewrite ?forParent_clear_elem, ?forParent_deny_elem, ?clearDenied_elem, ?deny_elem, ?elevate_denials;
    destruct (reaches rq s && _); naive_solver.
Qed.

(** ** The ledger of denials *)

Section engine.
Context (regex_test : string -> string -> option bool).
Context (effectPolicy : option (EffectApprovalPolicyInput -> EffectApprovalOutcome)).
Context (hmac : string -> SignedAssertion -> string).

Notation stepE := (step regex_test effectPolicy hmac).

(** What an event does to the denial of [pat] for session [s]: [Some true]
    denies, [Some false] clears, [None] leaves it. *)
Definition denialEffect (e : ApprovalEngine) (ev : Event * Z) (s pat : string) : option bool :=
  match ev.1 with
  | Resolve id resp =>
      match mget (pending e) id with
      | Some entry =>
          if isResolutionAuthorized (request entry) (normalizeResponse hmac (request entry) resp ev.2 e) &&
             reaches (request entry) s && String.eqb pat (carriedPattern (request entry))
          then Some (bool_decide (rs_disposition resp = no)) else None
      | None => None
      end
  | Mutate session op p =>
      if bool_decide (trimmed (Some session) = Some s) then
        match op with
        | op_reset => Some false
        | op_deny => if bool_decide (nonEmpty (trim <$> p) = Some pat) then Some true else None
        | _ => if bool_decide (nonEmpty (trim <$> p) = Some pat) then Some false else None
        end
      else None
  | Dispose => Some false
  | _ => None
  end.

Definition afterEffect (o : option bool) (was : Prop) : Prop := match o with Some b => b = true | None => was end.

Lemma trimmed_trim s : trimmed (Some (trim s)) = trimmed (Some s).
Proof. unfold trimmed. by rewrite trim_idem. Qed.

Lemma mutation_denials session op p e s pat :
  pat ∈ deniedPatterns (applySessionPolicyMutation session op p e) s <->
  afterEffect (denialEffect e (Mutate session op p, 0) s pat) (pat ∈ deniedPatterns e s).
Proof.
  unfold applySessionPolicyMutation, denialEffect. cbn [fst]. pose proof (trimmed_trim session) as Ht.
  assert (Hs : trimmed (Some session) = if isEmpty (trim session) then None else Some (trim session)) by done.
  destruct (isEmpty (trim session)); [by rewrite Hs, bool_decide_eq_false_2|]. rewrite Hs.
  assert (Hr : pat ∈ deniedPatterns (with_patterns (elevations (revokeElevation (trim session) e)) (mdel (trim session) (denials (revokeElevation (trim session) e)))
      (revokeElevation (trim session) e)) s <-> trim session <> s /\ pat ∈ deniedPatterns e s).
  { unfold deniedPatterns. cbn [denials with_patterns revokeElevation]. rewrite mget_mdel.
    destruct (String.eqb_spec s (trim session)) as [->|Hn]; cbn [from_option id]; [rewrite elem_of_nil|]; naive_solver. }
  destruct op; [| | |rewrite Hr; case_bool_decide; cbn; naive_solver];
    (destruct (nonEmpty (trim <$> p)) as [q|]; [|case_bool_decide; [rewrite bool_decide_eq_false_2|]; done]);
    rewrite ?clearElevated_denials, ?clearDenied_elem, ?deny_elem, ?elevate_denials, Ht, Hs; repeat case_bool_decide; cbn; naive_solver.
Qed.

Lemma dispose_denials now e s : deniedPatterns (dispose hmac now e) s = [].
Proof. unfold dispose. by destruct (foldl _ _ _). Qed.

Lemma resolve_denials id resp now e s pat :
  pat ∈ deniedPatterns (resolve hmac id resp now e).1 s <-> afterEffect (denialEffect e (Resolve id resp, now) s pat) (pat ∈ deniedPatterns e s).
Proof.
  unfold resolve, denialEffect. cbn [fst snd]. destruct (mget (pending e) id) as [entry|]; [|done].
  destruct (isResolutionAuthorized _ _); cbn [negb andb fst]; [|done].
  rewrite with_handlers_denials, carry_elem, with_pending_denials. destruct (reaches _ _ && _); [|done].
  cbn [afterEffect]. by rewrite bool_decide_eq_true.
Qed.

Lemma requestApproval_denials rq e s : deniedPatterns (requestApproval rq e).1 s = deniedPatterns e s.
Proof. done. Qed.

(** Each event changes the denials exactly as [denialEffect] says. *)
Lemma step_denials st ev s pat : pat ∈ deniedPatterns (engine (stepE st ev)) s <->
  afterEffect (denialEffect (engine st) ev s pat) (pat ∈ deniedPatterns (engine st) s).
Proof.
  destruct ev as [[t a sid id|rq|p|id resp|p|p|rq|sid p|sid|sid op p|] now]; cbn [step on_engine engine].
  - destruct (gate_shape regex_test effectPolicy t a sid id now (engine st)) as [[H _]|(rq & _ & _ & _ & _ & H)];
      destruct (gate _ _ _ _ _ _ _ _) as [e g]; cbn in H; [by subst|injection H as -> ->]. done.
  - done.
  - done.
  - apply resolve_denials.
  - cbn. unfold notified. by repeat case_match.
  - cbn. unfold timeout. by repeat case_match.
  - cbn. unfold escalate. by repeat case_match.
  - done.
  - done.
  - apply mutation_denials.
  - rewrite dispose_denials. cbn. by rewrite elem_of_nil.
Qed.

(** Some event denied [pat] for [s], and none since cleared it. *)
Definition deniedSince (s0 : System) (evs : list (Event * Z)) (s pat : string) : Prop :=
  exists l ev l', evs = l ++ ev :: l' /\ denialEffect (engine (foldl stepE s0 l)) ev s pat = Some true /\
    forall a b c, l' = a ++ b :: c -> denialEffect (engine (foldl stepE s0 (l ++ ev :: a))) b s pat <> Some false.

Lemma snoc_middle {A} (l a c : list A) x b : l ++ [x] = a ++ b :: c -> (a = l /\ b = x) \/ exists c', c = c' ++ [x] /\ l = a ++ b :: c'.
Proof.
  destruct c as [|y c _] using rev_ind; [intros [-> ->]%app_inj_tail; auto|]. rewrite app_comm_cons, app_assoc.
  intros [-> ->]%app_inj_tail. right. eauto.
Qed.

Lemma deniedSince_snoc s0 evs x s pat : deniedSince s0 (evs ++ [x]) s pat <->
  afterEffect (denialEffect (engine (foldl stepE s0 evs)) x s pat) (deniedSince s0 evs s pat).
Proof.
  split.
  - intros (l & ev & l' & Hl & Hd & Hk). destruct l' as [|y l'] using rev_ind; [|clear IHl'].
    + apply app_inj_tail in Hl as [-> ->]. by rewrite Hd.
    + rewrite app_comm_cons, app_assoc in Hl. apply app_inj_tail in Hl as [-> ->].
      destruct (denialEffect _ y s pat) as [[]|] eqn:Hy; cbn; [done|by destruct (Hk l' y [])|].
      exists l, ev, l'. split_and!; [done..|]. intros a b c ->. apply (Hk a b (c ++ [y])). by rewrite <- app_assoc.
  - destruct (denialEffect _ x s pat) as [[]|] eqn:Hx; cbn; [intros _|done|].
    + exists evs, x, []. split_and!; [done..|]. by intros [] ? ?.
    + intros (l & ev & l' & -> & Hd & Hk). exists l, ev, (l' ++ [x]). split_and!; [by rewrite <- app_assoc|done|].
      intros a b c [[-> ->]|(c' & -> & ->)]%snoc_middle; [by rewrite Hx|]. by apply (Hk a b c').
Qed.

Lemma denied_iff_since s0 evs s pat : denials (engine s0) = [] ->
  pat ∈ deniedPatterns (engine (foldl stepE s0 evs)) s <-> deniedSince s0 evs s pat.
Proof.
  intros H0. induction evs as [|x evs IH] using rev_ind.
  - cbn. unfold deniedPatterns. rewrite H0. cbn. rewrite elem_of_nil. split; [done|]. by intros ([] & ? & ? & ? & _).
  - rewrite foldl_snoc, step_denials, deniedSince_snoc. by destruct (denialEffect _ _ _ _).
Qed.

Lemma toolDenied_iff sid toolName scope e : isToolDenied regex_test sid toolName None scope e = true <->
  exists s pat, trimmed (Some sid) = Some s /\ isPatternMatch regex_test toolName scope pat = true /\ pat ∈ deniedPatterns e s.
Proof.
  unfold isToolDenied, deniedIn. rewrite orb_true_iff. destruct (trimmed (Some sid)) as [s|]; [|naive_solver]. cbn [trimmed].
  rewrite existsb_exists. setoid_rewrite <- list_elem_of_In. unfold deniedPatterns. naive_solver.
Qed.

(** The gate blocks a call exactly when its tool or scope was denied for the
    session, by an authorized no (of a request of the session itself or of a
    sub-agent of it) or by a session policy change, and no later approval,
    policy change or shutdown cleared that denial; or when the effect policy
    denies the call and the session is not elevated for it. In particular a
    timeout is not remembered, and a blocked call changes nothing. *)
Theorem denial_blocks_until_cleared rs tmo sla esc key evs toolName args sid id now :
  let s0 := initial rs tmo sla esc key in
  let e := engine (foldl stepE s0 evs) in
  let scope := scopeOf effectPolicy toolName args sid in
  gate regex_test effectPolicy toolName args sid id now e = (e, Blocked) <->
  toolName <> EmptyString /\
  ((exists s pat, trimmed (Some sid) = Some s /\ isPatternMatch regex_test toolName scope pat = true /\ deniedSince s0 evs s pat) \/
   (isToolElevated regex_test sid toolName scope e = false /\ verdict regex_test effectPolicy toolName args sid e = deny_)).
Proof.
  intros s0 e scope. destruct (decide (toolName = EmptyString)) as [->|Hne]; [by split; [|intros []]|].
  pose proof (gate_cases regex_test effectPolicy toolName args sid id now e Hne) as Hg. cbn zeta in Hg. fold scope in Hg.
  assert (Hd : isToolDenied regex_test sid toolName None scope e = true <-> exists s pat, trimmed (Some sid) = Some s /\
    isPatternMatch regex_test toolName scope pat = true /\ deniedSince s0 evs s pat).
  { rewrite toolDenied_iff. subst e. by setoid_rewrite denied_iff_since. }
  rewrite <- Hd. destruct (isToolDenied _ _ _ _ _ _); [by rewrite Hg; naive_solver|].
  destruct (isToolElevated _ _ _ _ _); [rewrite Hg; naive_solver|].
  destruct (verdict _ _ _ _ _ _); [rewrite Hg; naive_solver| |rewrite Hg; naive_solver].
  destruct Hg as (rq & _ & _ & _ & _ & ->). naive_solver.
Qed.

End engine.

(** A denied deletion stays blocked; after a timeout the next call asks again. *)
Example denial_remembered :
  let run evs := engine (foldl (step ApprovalDemo.rx None ApprovalDemo.mac) ApprovalDemo.start evs) in
  let denied := run [ApprovalDemo.deletion "s1"; (Resolve "r1" (ApprovalDemo.ann no), 6)] in
  let timedOut := run [ApprovalDemo.deletion "s1"; (Timeout 0, 300005)] in
  gate ApprovalDemo.rx None "system.delete" [] "s1" "r2" 7 denied = (denied, Blocked) /\
  (gate ApprovalDemo.rx None "system.delete" [] "s1" "r2" 300006 timedOut).2 = Waiting 1.
Proof. by vm_compute. Qed.
