(* ===== verification/JsRegex.v ===== *)
(** * The regular expressions of the sources

    The expressions written in policy/tool-governance.ts and
    gateway/safety-tiering.ts use literals, alternatives, options, repeated
    character classes, word boundaries and anchors. [test] is
    [RegExp.prototype.test]: a backtracking matcher tried at every position,
    where [prev] is the character before the position; [Match] is the relation
    it decides. *)
From Stdlib Require Import Ascii.
From S2P Require Import Prelude JsString.

Inductive re :=
| Eps
| Chr (p : ascii -> bool)
| Cat (a b : re)
| Alt (a b : re)
| StarOf (p : ascii -> bool)
| WordBoundary
| LineStart
| LineEnd.

(** The class [\w]. *)
Definition isWord (c : ascii) : bool :=
  let n := code c in
  ((48 <=? n) && (n <=? 57) || (65 <=? n) && (n <=? 90) || (97 <=? n) && (n <=? 122) || (n =? 95))%Z.

Definition wordAt (o : option ascii) : bool := match o with Some c => isWord c | None => false end.
Definition nextChar (s : string) : option ascii := match s with EmptyString => None | String c _ => Some c end.

Fixpoint starLoop (p : ascii -> bool) (k : option ascii -> string -> bool) (prev : option ascii) (s : string) : bool :=
  k prev s || match s with String c s' => p c && starLoop p k (Some c) s' | EmptyString => false end.

(** Match [r] at a position, and the rest by [k]. *)
Fixpoint matchAt (r : re) (k : option ascii -> string -> bool) (prev : option ascii) (s : string) : bool :=
  match r with
  | Eps => k prev s
  | Chr p => match s with String c s' => p c && k (Some c) s' | EmptyString => false end
  | Cat a b => matchAt a (matchAt b k) prev s
  | Alt a b => matchAt a k prev s || matchAt b k prev s
  | StarOf p => starLoop p k prev s
  | WordBoundary => xorb (wordAt prev) (wordAt (nextChar s)) && k prev s
  | LineStart => match prev with None => k prev s | Some _ => false end
  | LineEnd => match s with EmptyString => k prev s | String _ _ => false end
  end.

Fixpoint searchFrom (r : re) (prev : option ascii) (s : string) : bool :=
  matchAt r (fun _ _ => true) prev s || match s with String c s' => searchFrom r (Some c) s' | EmptyString => false end.

Definition test (r : re) (s : string) : bool := searchFrom r None s.

(** ** Building expressions *)

Definition char (c : ascii) : re := Chr (Ascii.eqb c).
(** A character under the flag [i]. *)
Definition charI (c : ascii) : re := Chr (fun d => Ascii.eqb (lower_char c) (lower_char d)).

Fixpoint litBy (f : ascii -> re) (s : string) : re :=
  match s with
  | EmptyString => Eps
  | String c EmptyString => f c
  | String c s' => Cat (f c) (litBy f s')
  end.

Definition lit := litBy char.
Definition litI := litBy charI.

Fixpoint oneOf (l : list re) : re :=
  match l with
  | [] => Chr (fun _ => false)
  | [r] => r
  | r :: l => Alt r (oneOf l)
  end.

Fixpoint seqOf (l : list re) : re :=
  match l with
  | [] => Eps
  | [r] => r
  | r :: l => Cat r (seqOf l)
  end.

Definition opt (r : re) : re := Alt r Eps.
Definition space : re := Chr is_space.
(** [\s+]. *)
Definition spaces : re := Cat space (StarOf is_space).
(** [.*]: no line terminator. *)
Definition anyChars : re := StarOf (fun c => negb ((code c =? 10) || (code c =? 13))%Z).

(** ** What they mean *)

Inductive Skips (p : ascii -> bool) : option ascii -> string -> option ascii -> string -> Prop :=
| skips_none prev s : Skips p prev s prev s
| skips_one prev c s prev' s' : p c = true -> Skips p (Some c) s prev' s' -> Skips p prev (String c s) prev' s'.

(** [Match r prev s prev' s']: [r] matches the text from the position before
    [s] to the one before [s']. *)
Inductive Match : re -> option ascii -> string -> option ascii -> string -> Prop :=
| m_eps prev s : Match Eps prev s prev s
| m_chr p prev c s : p c = true -> Match (Chr p) prev (String c s) (Some c) s
| m_cat a b p1 s1 p2 s2 p3 s3 : Match a p1 s1 p2 s2 -> Match b p2 s2 p3 s3 -> Match (Cat a b) p1 s1 p3 s3
| m_alt_l a b p1 s1 p2 s2 : Match a p1 s1 p2 s2 -> Match (Alt a b) p1 s1 p2 s2
| m_alt_r a b p1 s1 p2 s2 : Match b p1 s1 p2 s2 -> Match (Alt a b) p1 s1 p2 s2
| m_star p p1 s1 p2 s2 : Skips p p1 s1 p2 s2 -> Match (StarOf p) p1 s1 p2 s2
| m_word prev s : wordAt prev <> wordAt (nextChar s) -> Match WordBoundary prev s prev s
| m_start s : Match LineStart None s None s
| m_end prev : Match LineEnd prev EmptyString prev EmptyString.

#[local] Hint Constructors Skips Match : core.

Lemma starLoop_iff p k prev s : starLoop p k prev s = true <-> exists prev' s', Skips p prev s prev' s' /\ k prev' s' = true.
Proof.
  revert prev. induction s as [|c s IH]; intros prev; cbn; rewrite orb_true_iff.
  - split; [naive_solver|]. intros (p' & s' & H & Hk). inversion H; subst; auto.
  - rewrite andb_true_iff, IH. split; [naive_solver|]. intros (p' & s' & H & Hk). inversion H; subst; [auto|]. right. eauto.
Qed.

Lemma matchAt_iff r k prev s : matchAt r k prev s = true <-> exists prev' s', Match r prev s prev' s' /\ k prev' s' = true.
Proof.
  revert k prev s. induction r as [|p|a IHa b IHb|a IHa b IHb|p| | |]; intros k prev s; cbn.
  - split; [eauto|]. intros (? & ? & H & ?). by inversion H; subst.
  - destruct s as [|c s]; [split; [done|]; intros (? & ? & H & ?); inversion H|]. rewrite andb_true_iff. split; [naive_solver|].
    intros (? & ? & H & ?). by inversion H; subst.
  - rewrite IHa. setoid_rewrite IHb. split; [naive_solver|]. intros (? & ? & H & ?). inversion H; subst. eauto 8.
  - rewrite orb_true_iff, IHa, IHb. split; [naive_solver|]. intros (? & ? & H & ?). inversion H; subst; eauto 8.
  - rewrite starLoop_iff. split; [naive_solver|]. intros (? & ? & H & ?). inversion H; subst; eauto.
  - rewrite andb_true_iff. split.
    + intros [H ?]. exists prev, s. split; [|done]. constructor. by destruct (wordAt prev), (wordAt (nextChar s)).
    + intros (? & ? & H & ?). inversion H; subst. split; [|done]. by destruct (wordAt _), (wordAt _).
  - destruct prev; [split; [done|]; intros (? & ? & H & ?); inversion H|]. split; [eauto|]. intros (? & ? & H & ?). by inversion H; subst.
  - destruct s; [|split; [done|]; intros (? & ? & H & ?); inversion H]. split; [eauto|]. intros (? & ? & H & ?). by inversion H; subst.
Qed.

(** The last character of [pre], or the one before it. *)
Fixpoint lastChar (prev : option ascii) (pre : string) : option ascii :=
  match pre with EmptyString => prev | String c pre => lastChar (Some c) pre end.

Lemma searchFrom_iff r prev s : searchFrom r prev s = true <->
  exists pre rest prev' s', s = (pre +:+ rest)%string /\ Match r (lastChar prev pre) rest prev' s'.
Proof.
  revert prev. induction s as [|c s IH]; intros prev; cbn [searchFrom]; rewrite orb_true_iff, matchAt_iff.
  - split.
    + intros [(p & s' & H & _)|]; [|done]. by exists EmptyString, EmptyString, p, s'.
    + intros ([|] & rest & p & s' & Heq & H); autorewrite with s2rw in Heq; [|done]. left. subst rest. by exists p, s'.
  - rewrite IH. split.
    + intros [(p & s' & H & _)|(pre & rest & p & s' & -> & H)]; [by exists EmptyString, (String c s), p, s'|].
      by exists (String c pre), rest, p, s'.
    + intros ([|d pre] & rest & p & s' & Heq & H); autorewrite with s2rw in Heq; [left; subst rest; by exists p, s'|right].
      injection Heq as -> ->. by exists pre, rest, p, s'.
Qed.

(** [test] decides whether some part of the text matches. *)
Lemma test_iff r s : test r s = true <->
  exists pre rest prev' s', s = (pre +:+ rest)%string /\ Match r (lastChar None pre) rest prev' s'.
Proof. apply searchFrom_iff. Qed.
