(* ===== verification/ToolGovernance.v ===== *)
(** * Tool governance (src/runtime/src/policy/tool-governance.ts)

    The classification of a tool call from its name and arguments, and the
    policy action built from it, which the policy engine judges. [node:path] is
    the class [NodePath] of the engine; the host's URL parser is the parameter
    [urlHost]. *)
From Stdlib Require Import Ascii.
From S2P Require Import Prelude JsMap JsString JsRegex PolicyTypes PolicyEngine.
#[local] Open Scope Z_scope.
#[local] Open Scope string_scope.

Record ToolMetadata := {
  networkHosts : option (list string);
  writePaths : option (list string);
  destructive : option bool;
  financial : option bool;
  credentialSurface : option bool;
  openWorld : option bool;
  processMutation : option bool;
}.

Record ToolGovernanceClassification := {
  access : PolicyAccess;
  policyClass : PolicyClass;
  riskScore : Z;
  metadata : ToolMetadata;
}.

Definition READ_ACTION_PREFIXES : list string := ["get"; "list"; "query"; "inspect"; "read"; "status"].

Definition IRREVERSIBLE_FINANCIAL_RE : re :=
  let swaps := oneOf [litI "executeSwap"; litI "transferSol"; litI "transferToken"] in
  Cat LineStart (oneOf [
    litI "wallet.";
    Cat (litI "agenc.") (oneOf [litI "create"; litI "claim"; litI "complete"; litI "submit"; litI "transfer"; litI "register"; litI "stake"; litI "reward"]);
    litI "system.wallet";
    seqOf [litI "jupiter."; swaps; LineEnd];
    seqOf [anyChars; litI "."; swaps; LineEnd]]).

Definition DESTRUCTIVE_SIDE_EFFECT_RE : re :=
  oneOf [litI "delete"; litI "destroy"; litI "drop"; litI "remove"; litI "revoke"; litI "terminate"; litI "kill"; litI "stop"; litI "cancel";
         litI "reset"; litI "overwrite"; litI "truncate"].

Definition SECRET_ACCESS_RE : re :=
  Cat LineStart (oneOf [litI "system.bash"; litI "desktop.bash"; litI "system.evaluateJs";
    Cat (litI "system.sandbox") (oneOf [litI "Start"; litI "Exec"; litI "Stop"]); litI "system.processStart"; litI "desktop.process_start"]).

Definition NETWORK_OPEN_WORLD_RE : re :=
  Cat LineStart (oneOf [litI "system.http"; litI "system.remoteJob"; litI "system.research"; litI "system.server"; litI "desktop.bash";
    litI "system.bash"; litI "mcp."]).

Definition PROCESS_MUTATION_RE : re :=
  oneOf [Cat (litI "process") (opt (oneOf [litI "Start"; litI "Stop"; litI "Status"]));
         Cat (litI "server") (opt (oneOf [litI "Start"; litI "Stop"; litI "Status"]));
         Cat (litI "sandbox") (opt (oneOf [litI "Start"; litI "Stop"; litI "Exec"]));
         Cat (litI "remoteJob") (opt (oneOf [litI "Start"; litI "Resume"; litI "Cancel"]))].

Definition URL_ARG_KEYS : list string := ["url"; "baseUrl"].
Definition WRITE_PATH_ARG_KEYS : list string :=
  ["path"; "target"; "destination"; "dest"; "outputPath"; "workspacePath"; "directory"; "cwd"; "workdir"].
Definition BROWSER_SESSION_RESUME_TOOL : string := "system.browserSessionResume".

(** The double [m * 2^-e], as a multiple of 2^-1074. *)
Definition dbl (m e : Z) : Z := m * 2 ^ (1074 - e).
Definition risk_read : Z := dbl 3602879701896397 55.
Definition risk_financial : Z := dbl 4278419646001971 52.
Definition risk_secret : Z := dbl 8106479329266893 53.
Definition risk_destructive : Z := dbl 3 2.
Definition risk_open : Z := dbl 2476979795053773 52.
Definition risk_plain : Z := dbl 8106479329266893 54.

Fixpoint collectStringValues (value : JsShape) (into : list string) : list string :=
  match value with
  | JText s => if isEmpty (trim s) then into else set_add into (trim s)
  | JItems entries => foldl (fun into entry => collectStringValues entry into) into entries
  | _ => into
  end.

Definition getBrowserSessionResumeActions (args : Args) : list (jsmap JsShape) :=
  match argShape args "actions" with
  | JItems actions => concat (map (fun a => match a with JFields m => [m] | _ => [] end) actions)
  | _ => []
  end.

Definition fieldOf (action : jsmap JsShape) (key : string) : JsShape := default JOther (mget action key).

Definition typeIs (action : jsmap JsShape) (t : string) : bool :=
  match fieldOf action "type" with JText s => String.eqb s t | _ => false end.

Definition collectBrowserSessionResumeHosts (args : Args) (into : list string) : list string :=
  foldl (fun into action => if typeIs action "navigate" then collectStringValues (fieldOf action "url") into else into)
    into (getBrowserSessionResumeActions args).

Definition collectBrowserSessionResumeUploadPaths (args : Args) (into : list string) : list string :=
  foldl (fun into action => if typeIs action "upload"
           then collectStringValues (fieldOf action "paths") (collectStringValues (fieldOf action "path") into) else into)
    into (getBrowserSessionResumeActions args).

Definition collectKeys (args : Args) (keys : list string) : list string :=
  foldl (fun into key => collectStringValues (argShape args key) into) [] keys.

Definition inferToolAccess (toolName : string) : PolicyAccess :=
  let action := toLowerCase (default toolName (last (split "."%char toolName))) in
  if existsb (startsWith action) READ_ACTION_PREFIXES then read else write.

Section governance.
Context `{NodePath} (urlHost : string -> option string).

Definition extractNetworkHosts (toolName : string) (args : Args) : option (list string) :=
  let urls := collectKeys args URL_ARG_KEYS in
  let urls := if String.eqb toolName BROWSER_SESSION_RESUME_TOOL then collectBrowserSessionResumeHosts args urls else urls in
  let hosts := foldl (fun hosts candidate => match urlHost candidate with Some h => set_add hosts (toLowerCase h) | None => hosts end) [] urls in
  match hosts with [] => None | _ => Some hosts end.

Definition collectedWritePaths (toolName : string) (args : Args) : list string :=
  let paths := collectKeys args WRITE_PATH_ARG_KEYS in
  if String.eqb toolName BROWSER_SESSION_RESUME_TOOL then collectBrowserSessionResumeUploadPaths args paths else paths.

Definition extractWritePaths (toolName : string) (args : Args) : option (list string) :=
  match collectedWritePaths toolName args with
  | [] => None
  | paths => Some (map (fun entry => if isAbsolute entry then resolvePath entry else entry) paths)
  end.

Definition classifyToolGovernance (toolName : string) (args : Args) : ToolGovernanceClassification :=
  let accessOf := inferToolAccess toolName in
  let meta d f c o p := {| networkHosts := extractNetworkHosts toolName args; writePaths := extractWritePaths toolName args;
    destructive := d; financial := f; credentialSurface := c; openWorld := o; processMutation := p |} in
  let classify c r m := {| access := accessOf; policyClass := c; riskScore := r; metadata := m |} in
  let isOpen := test NETWORK_OPEN_WORLD_RE toolName in
  let isProcess := test PROCESS_MUTATION_RE toolName in
  match accessOf with
  | read => classify read_only risk_read (meta None None None None None)
  | write =>
      if test IRREVERSIBLE_FINANCIAL_RE toolName then
        classify irreversible_financial_action risk_financial (meta (Some true) (Some true) None None None)
      else if test SECRET_ACCESS_RE toolName then
        classify credential_secret_access risk_secret (meta None None (Some true) (Some isOpen) (Some isProcess))
      else if test DESTRUCTIVE_SIDE_EFFECT_RE toolName then
        classify destructive_side_effect risk_destructive (meta (Some true) None None None (Some isProcess))
      else classify reversible_side_effect (if isOpen then risk_open else risk_plain)
             (meta None None None (Some isOpen) (Some isProcess))
  end.

(** The keys of [extraMetadata] the engine reads: a key that is present
    replaces the extracted value, also with one that is not an array. *)
Record ExtraMetadata := {
  x_networkHosts : option (option (list metaValue));
  x_writePaths : option (option (list metaValue));
}.

Definition noExtra : ExtraMetadata := {| x_networkHosts := None; x_writePaths := None |}.

Definition buildToolPolicyAction (toolName : string) (args : option Args) (scope : option PolicyEvaluationScope)
    (extra : ExtraMetadata) : PolicyAction :=
  let c := classifyToolGovernance toolName (default [] args) in {|
  a_type := tool_call; a_name := toolName; a_access := access c; a_policyClass := Some (policyClass c);
  a_riskScore := Some (riskScore c); a_spendLamports := None; a_tokenCount := None; a_elapsedRuntimeMs := None;
  a_elapsedRuntimeMsByScope := fun _ => None; a_processCount := None; a_processCountByScope := fun _ => None; a_scope := scope;
  a_networkHosts := default (map MStr <$> networkHosts (metadata c)) (x_networkHosts extra);
  a_writePaths := default (map MStr <$> writePaths (metadata c)) (x_writePaths extra) |}.

End governance.

(** * Tool governance: the write scope sees every path *)
From Stdlib Require Import Ascii.
From S2P Require Import Prelude JsMap JsString JsRegex PolicyTypes PolicyEngine PolicyRulesSpec.
#[local] Open Scope string_scope.

(** A text of a value, at any depth of nested arrays. *)
Inductive TextIn (s : string) : JsShape -> Prop :=
| text_here : TextIn s (JText s)
| text_in l x : x ∈ l -> TextIn s x -> TextIn s (JItems l).

(** Induction over nested arrays. *)
Fixpoint shape_ind' (P : JsShape -> Prop) (Ht : forall s, P (JText s)) (Hi : forall l, Forall P l -> P (JItems l))
    (Hf : forall m, P (JFields m)) (Hn : P JNull) (Ho : P JOther) (v : JsShape) : P v :=
  match v with
  | JText s => Ht s
  | JItems l => Hi l ((fix go l : Forall P l := match l with
      | [] => List.Forall_nil P
      | x :: l => List.Forall_cons _ _ _ (shape_ind' P Ht Hi Hf Hn Ho x) (go l) end) l)
  | JFields m => Hf m
  | JNull => Hn
  | JOther => Ho
  end.

Definition collected (v : JsShape) (q : string) : Prop := exists s, TextIn s v /\ q = trim s /\ trim s <> "".

Lemma foldl_collect (P : string -> JsShape -> Prop) l :
  Forall (fun v => forall into q, q ∈ collectStringValues v into <-> q ∈ into \/ P q v) l ->
  forall into q, q ∈ foldl (fun into entry => collectStringValues entry into) into l <-> q ∈ into \/ exists v, v ∈ l /\ P q v.
Proof.
  induction 1 as [|v l Hv _ IH]; intros into q; cbn [foldl]; [setoid_rewrite elem_of_nil; naive_solver|].
  rewrite IH, Hv. setoid_rewrite elem_of_cons. naive_solver.
Qed.

(** Exactly the texts that are not blank are collected, trimmed. *)
Lemma collect_elem v into q : q ∈ collectStringValues v into <-> q ∈ into \/ collected v q.
Proof.
  revert into q. induction v as [s|l IH|m| |] using shape_ind'; intros into q; unfold collected; cbn [collectStringValues].
  - destruct (trim s) eqn:Ht; cbn [isEmpty].
    + split; [auto|]. intros [|(s' & Hs & -> & Hn)]; [done|]. inversion Hs; subst. congruence.
    + rewrite elem_set_add. split; intros [|Hq]; auto.
      * right. exists s. rewrite Ht. split; [constructor|done].
      * destruct Hq as (s' & Hs & -> & _). inversion Hs; subst. auto.
  - rewrite (foldl_collect (fun q v => collected v q) l IH). split; (intros [|Hq]; [by left|right]).
    + destruct Hq as (v & Hv & s & Hs & ? & ?). exists s. split; [by eapply text_in|done].
    + destruct Hq as (s & Hs & ? & ?). inversion Hs; subst. eexists. split; [done|]. by exists s.
  - split; [auto|]. intros [|(s & Hs & _)]; [done|inversion Hs].
  - split; [auto|]. intros [|(s & Hs & _)]; [done|inversion Hs].
  - split; [auto|]. intros [|(s & Hs & _)]; [done|inversion Hs].
Qed.

Lemma collectKeys_elem args keys q : q ∈ collectKeys args keys <-> exists key, key ∈ keys /\ collected (argShape args key) q.
Proof.
  unfold collectKeys. assert (Hg : forall into, q ∈ foldl (fun into key => collectStringValues (argShape args key) into) into keys <->
    q ∈ into \/ exists key, key ∈ keys /\ collected (argShape args key) q).
  { induction keys as [|k keys IH]; intros into; cbn [foldl]; [setoid_rewrite elem_of_nil; naive_solver|].
    rewrite IH, collect_elem. setoid_rewrite elem_of_cons. naive_solver. }
  rewrite Hg, elem_of_nil. naive_solver.
Qed.

(** The upload paths of a resumed browser session. *)
Definition uploads (args : Args) (q : string) : Prop :=
  exists action, action ∈ getBrowserSessionResumeActions args /\ typeIs action "upload" = true /\
    (collected (fieldOf action "path") q \/ collected (fieldOf action "paths") q).

Lemma uploads_elem args into q : q ∈ collectBrowserSessionResumeUploadPaths args into <-> q ∈ into \/ uploads args q.
Proof.
  unfold collectBrowserSessionResumeUploadPaths, uploads. revert into.
  induction (getBrowserSessionResumeActions args) as [|a l IH]; intros into; cbn [foldl].
  { split; [auto|]. intros [|(a & Ha & _)]; [done|by apply elem_of_nil in Ha]. }
  rewrite IH. setoid_rewrite elem_of_cons. destruct (typeIs a "upload") eqn:Ht; rewrite ?collect_elem; split.
  - intros [[[?|?]|?]|(b & ? & ?)]; [by left|right; exists a; auto..|right; exists b; auto].
  - intros [?|(b & [->|?] & ? & [?|?])]; [auto..|right; by exists b; auto|right; by exists b; auto].
  - intros [?|(b & ? & ?)]; [by left|right; exists b; auto].
  - intros [?|(b & [->|?] & ? & ?)]; [by left|congruence|right; by exists b].
Qed.

(** The paths a call names: the texts under the path arguments, and the uploads
    of the browser tool. *)
Definition namesPath (toolName : string) (args : Args) (q : string) : Prop :=
  (exists key, key ∈ WRITE_PATH_ARG_KEYS /\ collected (argShape args key) q) \/
  toolName = BROWSER_SESSION_RESUME_TOOL /\ uploads args q.

Lemma collectedWritePaths_elem toolName args q : q ∈ collectedWritePaths toolName args <-> namesPath toolName args q.
Proof.
  unfold collectedWritePaths, namesPath. destruct (String.eqb_spec toolName BROWSER_SESSION_RESUME_TOOL).
  - rewrite uploads_elem, collectKeys_elem. naive_solver.
  - rewrite collectKeys_elem. naive_solver.
Qed.

Section governance.
Context `{NP : NodePath} (urlHost : string -> option string).

(** What node:path documents of resolve: the result is an absolute path. *)
Hypothesis resolve_absolute : forall path, isAbsolute (resolvePath path) = true.
Hypothesis absolute_nonBlank : forall path, isAbsolute path = true -> nonBlank path = true.

Lemma classify_writePaths toolName args :
  writePaths (metadata (classifyToolGovernance urlHost toolName args)) = extractWritePaths toolName args.
Proof. unfold classifyToolGovernance. by repeat case_match. Qed.

Lemma collected_nonBlank v q : collected v q -> nonBlank q = true.
Proof.
  intros (s & _ & -> & Hn). unfold nonBlank. rewrite trim_idem. destruct (trim s) eqn:E; [congruence|done].
Qed.

Lemma namesPath_nonBlank toolName args q : namesPath toolName args q -> nonBlank q = true.
Proof. intros [(k & _ & Hc)|(_ & a & _ & _ & [Hc|Hc])]; by eapply collected_nonBlank. Qed.

Lemma stringsOf_strings l : stringsOf (Some (map MStr l)) = List.filter nonBlank l.
Proof.
  unfold stringsOf. change (default [] (Some (map MStr l))) with (map MStr l).
  induction l as [|x l IH]; [done|]. cbn [map List.concat List.filter]. rewrite IH. by destruct (nonBlank x).
Qed.

Lemma action_paths toolName args scope path :
  path ∈ stringsOf (a_writePaths (buildToolPolicyAction urlHost toolName (Some args) scope noExtra)) <->
  exists q, namesPath toolName args q /\ path = (if isAbsolute q then resolvePath q else q).
Proof.
  cbn [a_writePaths buildToolPolicyAction x_writePaths noExtra]. change (default _ None) with
    (map MStr <$> writePaths (metadata (classifyToolGovernance urlHost toolName args))).
  rewrite classify_writePaths. unfold extractWritePaths. setoid_rewrite <- collectedWritePaths_elem.
  destruct (collectedWritePaths toolName args) as [|x l] eqn:Hl; [cbn; setoid_rewrite elem_of_nil; naive_solver|].
  cbn [fmap option_fmap option_map]. rewrite stringsOf_strings, elem_filter_bool, list_elem_of_fmap. split; [naive_solver|].
  intros (q & Hq & ->). split; [by exists q|]. rewrite <- Hl, collectedWritePaths_elem in Hq. destruct (isAbsolute q) eqn:Ha.
  - by apply absolute_nonBlank, resolve_absolute.
  - by eapply namesPath_nonBlank.
Qed.

(** The policy engine's write scope judges exactly the paths a tool call
    names: an action built from the call passes the check if and only if every
    path text in its arguments, at any depth of nested arrays, is absolute and
    its resolution is inside the allowed and outside the denied roots. *)
Theorem write_scope_sees_every_path toolName args scope p :
  checkWriteScope (buildToolPolicyAction urlHost toolName (Some args) scope noExtra) p = None <->
  forall rule q, writeScope p = Some rule -> namesPath toolName args q ->
    isAbsolute q = true /\ patternsAllow (pathMatchesRoot (resolvePath q)) (allowRoots rule) (denyRoots rule).
Proof.
  rewrite checkWriteScope_iff. split.
  - intros Hc rule q Hr Hq. destruct (isAbsolute q) eqn:Ha.
    + split; [done|]. apply (Hc rule); [done|]. apply action_paths. exists q. by rewrite Ha.
    + destruct (Hc rule q Hr) as [Hb _]; [|congruence]. apply action_paths. exists q. by rewrite Ha.
  - intros Hc rule path Hr Hin. apply action_paths in Hin as (q & Hq & ->). destruct (Hc rule q Hr Hq) as [Ha Hp]. rewrite Ha.
    split; [apply resolve_absolute|done].
Qed.
End governance.

(** ** Instance *)

Module GovernanceDemo.

#[export] Instance slashPath : NodePath := {|
  isAbsolute := fun p => startsWith p "/";
  resolvePath := fun p => if startsWith p "/" then p else "/" +:+ p;
  relativePath := fun from to => if String.eqb from to then "" else
    if startsWith to (from +:+ "/") then sdrop (String.length from + 1) to else "../" +:+ to |}.

Lemma slash_resolve path : isAbsolute (resolvePath path) = true.
Proof. cbn [isAbsolute resolvePath slashPath]. destruct (startsWith path "/") eqn:E; [done|apply startsWith_app]. Qed.

Lemma slash_nonBlank path : isAbsolute path = true -> nonBlank path = true.
Proof.
  cbn [isAbsolute slashPath]. destruct path as [|c path]; [done|]. intros Ha. apply startsWith_spec in Ha as (t & Ht). autorewrite with s2rw in Ht.
  injection Ht as -> _. unfold nonBlank, trim. cbn [trimStart]. change (is_space "/"%char) with false. cbn [trimEnd]. destruct (trimEnd path); done.
Qed.

Definition noHost (_ : string) : option string := None.
Definition textArgument (s : string) : ArgValue := {| shape := JItems [JText s]; asText := s; asNumber := None |}.
Definition inW : RuntimePolicyBundleConfig :=
  Build_RuntimePolicyBundleConfig (Some true) None None None None None None (Some {| allowRoots := Some ["/w"]; denyRoots := None |})
    None None None None None None None None None None None None None.

Lemma write_scope_sees_every_path_witness :
  ((forall rule q, writeScope inW = Some rule -> namesPath "system.writeFile" [("path", textArgument "/w/a.txt")] q ->
     isAbsolute q = true /\ patternsAllow (pathMatchesRoot (resolvePath q)) (allowRoots rule) (denyRoots rule)) /\
   checkWriteScope (buildToolPolicyAction noHost "system.writeFile" (Some [("path", textArgument "/etc/a.txt")]) None noExtra) inW <> None)%type.
Proof.
  split; [|discriminate].
  refine (proj1 (write_scope_sees_every_path noHost slash_resolve slash_nonBlank "system.writeFile" [("path", textArgument "/w/a.txt")] None inW) _).
  reflexivity.
Defined.

End GovernanceDemo.
