(* ===== verification/EffectPolicy.v ===== *)
(** * Safety tiering (src/runtime/src/gateway/safety-tiering.ts)

    The assessment of a tool call before it runs: what it reads or changes, how
    far its targets reach, and why it may need an approval. Paths are POSIX
    paths: [sep] is the slash. *)
From Stdlib Require Import Ascii.
From S2P Require Import Prelude JsMap JsString PolicyGlob Approvals JsRegex PolicyTypes PolicyEngine ToolGovernance.
#[local] Open Scope string_scope.

Inductive GatewayApprovalMode := safe_local_dev | trusted_operator | unattended_background | benchmark.

Inductive ApprovalRiskLevel := low | medium | high | critical.

Inductive TargetSensitivity :=
| t_none | t_workspace | t_protected_workspace | t_host | t_process | t_server | t_desktop | t_financial | t_network | t_untrusted_mcp.

Inductive EffectApprovalReasonCode :=
| read_only_effect | workspace_scaffold | workspace_write | workspace_destructive_mutation | protected_workspace_mutation
| host_mutation | shell_read_only | shell_mutation | shell_open_world | desktop_read_only | desktop_automation | process_control
| server_control | credential_secret | irreversible_financial | untrusted_mcp_tool.

Inductive ShellIntent := si_read_only | si_mutating | si_open_world | si_unknown.

Inductive TrustTier := trusted | review | sandboxed | untrusted.

Record ApprovalSafetyAssessment := {
  reasonCode : EffectApprovalReasonCode;
  riskLevel : ApprovalRiskLevel;
  targetSensitivity : TargetSensitivity;
  isDestructive : bool;
  isOpenWorld : bool;
  workspaceScoped : bool;
  shellIntent : option ShellIntent;
}.

(** A target is given by its [path]. *)
Record ApprovalSafetyAssessmentInput := {
  as_toolName : string;
  as_args : Args;
  as_effectClass : option string;
  as_effectKind : option string;
  as_targets : option (list (option string));
  as_workspaceRoot : option string;
  as_preExecutionSnapshots : option (list EffectSnapshot);
  as_mcpTrustTier : option TrustTier;
}.

#[export] Instance TargetSensitivity_eq_dec : EqDecision TargetSensitivity.
Proof. solve_decision. Defined.
#[export] Instance ReasonCode_eq_dec : EqDecision EffectApprovalReasonCode.
Proof. solve_decision. Defined.
#[export] Instance TrustTier_eq_dec : EqDecision TrustTier.
Proof. solve_decision. Defined.
#[export] Instance PolicyClass_eq_dec : EqDecision PolicyClass.
Proof. solve_decision. Defined.
#[export] Instance ShellIntent_eq_dec : EqDecision ShellIntent.
Proof. solve_decision. Defined.

Definition PROTECTED_WORKSPACE_SEGMENTS : list string := [".git"; ".agents"; ".codex"; ".agenc"].
Definition PROTECTED_WORKSPACE_BASENAMES : list string := [".env"; "config.toml"; "config.json"; "secrets.json"].

Definition READ_ONLY_SHELL_PREFIXES : list string :=
  ["ls"; "pwd"; "cat"; "head"; "tail"; "grep"; "rg"; "find"; "stat"; "which"; "whereis"; "git status"; "git diff"; "git log"; "git show";
   "git rev-parse"; "env"; "printenv"; "node --version"; "python --version"; "npm --version"; "cargo --version"].

Definition MUTATING_SHELL_PATTERN : re :=
  let cmd name subs := seqOf [litI name; spaces; oneOf (map litI subs)] in
  Cat WordBoundary (oneOf [
    litI "rm"; litI "mv"; litI "cp"; litI "mkdir"; litI "touch"; litI "chmod"; litI "chown"; litI "truncate"; litI "tee";
    cmd "sed" ["-i"]; cmd "perl" ["-pi"];
    cmd "git" ["add"; "apply"; "checkout"; "clean"; "commit"; "merge"; "pull"; "push"; "rebase"; "reset"];
    cmd "npm" ["install"; "update"]; cmd "pnpm" ["install"; "update"]; cmd "yarn" ["add"; "install"]; cmd "cargo" ["add"];
    seqOf [litI "apt"; opt (litI "-get"); spaces]; Cat (litI "brew") spaces; cmd "kubectl" ["apply"; "delete"];
    cmd "docker" ["rm"; "run"; "stop"]; Cat (litI "systemctl") spaces; litI "killall"; litI "pkill"; Cat (litI "kill") WordBoundary]).

Definition SHELL_REDIRECTION_PATTERN : re :=
  Cat (Alt LineStart space) (oneOf [lit ">"; lit ">>"; lit "1>"; lit "2>"; lit "&>"; Cat (lit "tee") WordBoundary]).

Definition OPEN_WORLD_SHELL_PATTERN : re :=
  seqOf [WordBoundary; oneOf (map litI ["curl"; "wget"; "fetch"; "scp"; "ssh"; "rsync"; "nc"; "ncat"]); WordBoundary].

Definition DESKTOP_CONTROL_TOOL_PATTERN : re :=
  Cat LineStart (oneOf [Cat (litI "mcp.peekaboo.") (oneOf (map litI ["click"; "type"; "scroll"])); litI "mcp.macos-automator.";
    Cat (litI "desktop.") (oneOf (map litI ["bash"; "text_editor"; "process_start"]))]).

Definition DESKTOP_READ_ONLY_TOOL_PATTERN : re :=
  Cat LineStart (oneOf (map litI ["desktop.screenshot"; "desktop.screen_read"; "mcp.peekaboo.screenshot"])).

Definition sep : ascii := "/".

Definition inferShellIntent (command : option string) : ShellIntent :=
  match command with
  | None => si_unknown
  | Some command =>
      if isEmpty (trim command) then si_unknown else
      let normalized := trim command in
      let lowered := toLowerCase normalized in
      if test OPEN_WORLD_SHELL_PATTERN normalized || includes lowered "http://" || includes lowered "https://" then si_open_world
      else if test MUTATING_SHELL_PATTERN normalized || test SHELL_REDIRECTION_PATTERN normalized then si_mutating
      else if existsb (fun prefix => String.eqb lowered prefix || startsWith lowered (prefix +:+ " ")) READ_ONLY_SHELL_PREFIXES
      then si_read_only else si_unknown
  end.

Definition inferOverwrite (snapshots : option (list EffectSnapshot)) : bool :=
  existsb (fun s => sn_exists s && match sn_entryType s with entry_file | entry_directory => true | _ => false end) (default [] snapshots).

Definition textArg (args : Args) (key : string) : option string := match argShape args key with JText s => Some s | _ => None end.

Definition PATH_ARG_KEYS : list string :=
  ["path"; "target"; "destination"; "dest"; "directory"; "outputPath"; "workspacePath"; "cwd"; "workdir"].

Section tiering.
Context `{NodePath} (urlHost : string -> option string).

Definition normalizePathCandidate (path : string) : string := if isAbsolute path then resolvePath path else path.

Definition isWorkspacePath (path : string) (workspaceRoot : option string) : bool :=
  match Approvals.nonEmpty workspaceRoot with
  | None => false
  | Some root =>
      if negb (isAbsolute path) then false
      else
        let rel := relativePath (resolvePath root) (resolvePath path) in
        isEmpty rel || (negb (startsWith rel "..") && negb (startsWith rel (".." +:+ String sep "")))
  end.

Definition isProtectedWorkspacePath (path : string) (workspaceRoot : option string) : bool :=
  match Approvals.nonEmpty workspaceRoot with
  | None => false
  | Some root =>
      if negb (isWorkspacePath path workspaceRoot) then false
      else
        let rel := relativePath (resolvePath root) (resolvePath path) in
        let segments := List.filter (fun segment => negb (isEmpty segment)) (split sep rel) in
        if existsb (has PROTECTED_WORKSPACE_SEGMENTS) segments then true
        else match last segments with Some basename => has PROTECTED_WORKSPACE_BASENAMES basename | None => false end
  end.

Definition summarizePathSensitivity (paths : list string) (workspaceRoot : option string) : TargetSensitivity * bool :=
  match paths with
  | [] => (t_none, false)
  | _ =>
      let '(allWorkspace, protectedWorkspace) :=
        foldl (fun acc path => (acc.1 && isWorkspacePath path workspaceRoot, acc.2 || isProtectedWorkspacePath path workspaceRoot))
          (true, false) paths in
      if protectedWorkspace then (t_protected_workspace, true)
      else if allWorkspace then (t_workspace, true) else (t_host, false)
  end.

Definition derivePathsFromArgs (args : Args) : list string :=
  foldl (fun values key => match textArg args key with
           | Some value => if isEmpty (trim value) then values else set_add values (normalizePathCandidate (trim value))
           | None => values end) [] PATH_ARG_KEYS.

Definition targetPaths (input : ApprovalSafetyAssessmentInput) : list string :=
  match map normalizePathCandidate (omap id (default [] (as_targets input))) with
  | [] => derivePathsFromArgs (as_args input)
  | normalizedTargets => normalizedTargets
  end.

Definition flag (o : option bool) : bool := match o with Some b => b | None => false end.

Definition assess (reason : EffectApprovalReasonCode) (risk : ApprovalRiskLevel) (target : TargetSensitivity) (d o w : bool)
    : ApprovalSafetyAssessment := {|
  reasonCode := reason; riskLevel := risk; targetSensitivity := target; isDestructive := d; isOpenWorld := o; workspaceScoped := w;
  shellIntent := None |}.

Definition assessShell (reason : EffectApprovalReasonCode) (risk : ApprovalRiskLevel) (target : TargetSensitivity) (d o w : bool)
    (intent : ShellIntent) : ApprovalSafetyAssessment := {|
  reasonCode := reason; riskLevel := risk; targetSensitivity := target; isDestructive := d; isOpenWorld := o; workspaceScoped := w;
  shellIntent := Some intent |}.

Definition assessApprovalSafety (input : ApprovalSafetyAssessmentInput) : ApprovalSafetyAssessment :=
  let governance := classifyToolGovernance urlHost (as_toolName input) (as_args input) in
  let '(sensitivity, scoped) := summarizePathSensitivity (targetPaths input) (as_workspaceRoot input) in
  let kindIs k := bool_decide (as_effectKind input = Some k) in
  let classIs c := bool_decide (as_effectClass input = Some c) in
  let destructiveByKind := kindIs "filesystem_delete" || kindIs "filesystem_move" in
  let overwrite := inferOverwrite (as_preExecutionSnapshots input) in
  let open := flag (openWorld (metadata governance)) in
  let isClass c := bool_decide (policyClass governance = c) in
  let protectedMutation := bool_decide (sensitivity = t_protected_workspace) in
  let inWorkspace := bool_decide (sensitivity = t_workspace) in
  if bool_decide (as_mcpTrustTier input = Some untrusted) then
    assess untrusted_mcp_tool critical t_untrusted_mcp (flag (destructive (metadata governance))) open false
  else if bool_decide (as_mcpTrustTier input = Some sandboxed) then assess process_control high t_process true false false
  else if isClass irreversible_financial_action then assess irreversible_financial critical t_financial true false false
  else if test DESKTOP_READ_ONLY_TOOL_PATTERN (as_toolName input) then assess desktop_read_only low t_desktop false false true
  else if test DESKTOP_CONTROL_TOOL_PATTERN (as_toolName input) then
    assess desktop_automation critical t_desktop true (String.eqb (as_toolName input) "desktop.bash") false
  else if classIs "read_only" || bool_decide (access governance = read) then assess read_only_effect low sensitivity false open scoped
  else if classIs "filesystem_scaffold" then
    assess (if protectedMutation then protected_workspace_mutation else workspace_scaffold) (if protectedMutation then high else medium)
      sensitivity false false scoped
  else if classIs "shell" then
    let intent := inferShellIntent (textArg (as_args input) "command") in
    match intent with
    | si_open_world => assessShell shell_open_world critical t_network true true false intent
    | si_read_only => assessShell shell_read_only medium sensitivity false false scoped intent
    | _ => assessShell shell_mutation (if inWorkspace then high else critical) sensitivity true false scoped intent
    end
  else if isClass credential_secret_access then
    assess credential_secret critical sensitivity (flag (processMutation (metadata governance))) open scoped
  else if kindIs "process_start" then assess process_control high t_process true open false
  else if kindIs "server_start" then assess server_control high t_server true true false
  else if destructiveByKind || overwrite || isClass destructive_side_effect then
    assess (if protectedMutation then protected_workspace_mutation else if inWorkspace then workspace_destructive_mutation else host_mutation)
      (if protectedMutation then critical else if inWorkspace then high else critical) sensitivity true open scoped
  else if protectedMutation then assess protected_workspace_mutation high sensitivity false open true
  else if bool_decide (sensitivity = t_host) then assess host_mutation critical t_host false open false
  else assess workspace_write medium sensitivity false open scoped.

End tiering.

(** * Effect approval policy (src/runtime/src/gateway/effect-approval-policy.ts)

    The policy the approval engine asks for every tool call: the safety
    assessment of the call, turned into allow, ask or deny by the mode. *)
From Stdlib Require Import Ascii.
From S2P Require Import Prelude JsMap JsString PolicyGlob Approvals JsRegex PolicyTypes PolicyEngine ToolGovernance.
#[local] Open Scope string_scope.

(** What the policy reads of a configured server. *)
Record GatewayMCPServerConfig := { serverName : string; trustTier : option TrustTier }.

Definition reason_name (r : EffectApprovalReasonCode) : string :=
  match r with
  | read_only_effect => "read_only_effect" | workspace_scaffold => "workspace_scaffold" | workspace_write => "workspace_write"
  | workspace_destructive_mutation => "workspace_destructive_mutation" | protected_workspace_mutation => "protected_workspace_mutation"
  | host_mutation => "host_mutation" | shell_read_only => "shell_read_only" | shell_mutation => "shell_mutation"
  | shell_open_world => "shell_open_world" | desktop_read_only => "desktop_read_only" | desktop_automation => "desktop_automation"
  | process_control => "process_control" | server_control => "server_control" | credential_secret => "credential_secret_access"
  | irreversible_financial => "irreversible_financial_action" | untrusted_mcp_tool => "untrusted_mcp_tool"
  end.

Definition risk_name (r : ApprovalRiskLevel) : string :=
  match r with low => "low" | medium => "medium" | high => "high" | critical => "critical" end.

Definition REASON_MESSAGE (r : EffectApprovalReasonCode) : string :=
  match r with
  | read_only_effect => "Read-only effect"
  | workspace_scaffold => "Workspace scaffold mutation"
  | workspace_write => "Workspace file mutation"
  | workspace_destructive_mutation => "Destructive workspace mutation"
  | protected_workspace_mutation => "Protected workspace mutation"
  | host_mutation => "Host filesystem mutation"
  | shell_read_only => "Read-only shell command"
  | shell_mutation => "Shell command with mutation risk"
  | shell_open_world => "Shell command with network or open-world side effects"
  | desktop_read_only => "Read-only desktop action"
  | desktop_automation => "Desktop automation action"
  | process_control => "Process control action"
  | server_control => "Server control action"
  | credential_secret => "Secret or credential access surface"
  | irreversible_financial => "Irreversible financial action"
  | untrusted_mcp_tool => "Untrusted MCP tool invocation"
  end.

Definition deriveMcpTrustTier (toolName : string) (servers : option (list GatewayMCPServerConfig)) : option TrustTier :=
  if negb (startsWith toolName "mcp.") then None else
  match Approvals.nonEmpty (split "." toolName !! 1%nat) with
  | None => None
  | Some name => server ← List.find (fun entry => String.eqb (serverName entry) name) (default [] servers); trustTier server
  end.

Definition looksLikePath (value : string) : bool :=
  startsWith value "/" || startsWith value "./" || startsWith value "../" || startsWith value "~/".

Definition buildApprovalScopeKey (toolName : string) (reason : EffectApprovalReasonCode) (risk : ApprovalRiskLevel)
    (effect : option ApprovalEffectRef) : string :=
  let targetSummary := match e ← effect; targets e with
    | Some (t :: ts) => String.concat "|" (sort_by String.compare (t :: ts))
    | _ => "no-target" end in
  String.concat ":" ["effect-policy"; reason_name reason; risk_name risk; default "unknown-class" (e ← effect; effectClass e);
    default "unknown-kind" (e ← effect; effectKind e); toolName; targetSummary].

Definition newline : string := String (ascii_of_nat 10) EmptyString.

Definition buildMessage (base : string) (input : EffectApprovalPolicyInput) : string :=
  let fragment label o := match Approvals.nonEmpty o with Some v => [label +:+ v] | None => [] end in
  String.concat newline ([base] ++ fragment "Effect: " (e ← ei_effect input; summary e) ++
    fragment "Parent session: " (ei_parentSessionId input) ++ fragment "Sub-agent session: " (ei_subagentSessionId input)).

Definition outcomeOf (status : EffectStatus) (prefix : string) (input : EffectApprovalPolicyInput) (reason : EffectApprovalReasonCode)
    (risk : ApprovalRiskLevel) : EffectApprovalOutcome := {|
  eo_status := status; eo_reasonCode := reason_name reason;
  eo_approvalScopeKey := buildApprovalScopeKey (ei_toolName input) reason risk (ei_effect input);
  eo_message := buildMessage (prefix +:+ REASON_MESSAGE reason) input;
  eo_autoApprovedReasonCode := None; eo_approverGroup := None; eo_approverRoles := None |}.

Definition allowEffect (input : EffectApprovalPolicyInput) (reason : EffectApprovalReasonCode) (risk : ApprovalRiskLevel)
    (riskyAutoApproval : bool) : EffectApprovalOutcome :=
  let o := outcomeOf allow "" input reason risk in {|
  eo_status := eo_status o; eo_reasonCode := eo_reasonCode o; eo_approvalScopeKey := eo_approvalScopeKey o; eo_message := eo_message o;
  eo_autoApprovedReasonCode := if riskyAutoApproval then Some (reason_name reason) else None;
  eo_approverGroup := None; eo_approverRoles := None |}.

Definition requireApproval (input : EffectApprovalPolicyInput) (reason : EffectApprovalReasonCode) (risk : ApprovalRiskLevel)
    (group : option string) (roles : option (list string)) : EffectApprovalOutcome :=
  let o := outcomeOf require_approval "Approval required: " input reason risk in {|
  eo_status := eo_status o; eo_reasonCode := eo_reasonCode o; eo_approvalScopeKey := eo_approvalScopeKey o; eo_message := eo_message o;
  eo_autoApprovedReasonCode := None; eo_approverGroup := Approvals.nonEmpty group;
  eo_approverRoles := match roles with Some [] => None | l => l end |}.

Definition denyEffect (input : EffectApprovalPolicyInput) (reason : EffectApprovalReasonCode) (risk : ApprovalRiskLevel)
    : EffectApprovalOutcome := outcomeOf deny_ "Denied by approval policy: " input reason risk.

Section policy.
Context `{NodePath} (urlHost : string -> option string).

Definition assessmentInput (workspaceRoot : option string) (servers : option (list GatewayMCPServerConfig))
    (input : EffectApprovalPolicyInput) : ApprovalSafetyAssessmentInput := {|
  as_toolName := ei_toolName input; as_args := ei_args input;
  as_effectClass := e ← ei_effect input; effectClass e; as_effectKind := e ← ei_effect input; effectKind e;
  as_targets := (fun ts => map Some (List.filter looksLikePath ts)) <$> (e ← ei_effect input; targets e);
  as_workspaceRoot := workspaceRoot; as_preExecutionSnapshots := e ← ei_effect input; preExecutionSnapshots e;
  as_mcpTrustTier := deriveMcpTrustTier (ei_toolName input) servers |}.

Definition isHarmless (r : EffectApprovalReasonCode) : bool :=
  match r with read_only_effect | desktop_read_only | workspace_scaffold | workspace_write => true | _ => false end.

Definition createEffectApprovalPolicy (mode : option GatewayApprovalMode) (workspaceRoot : option string)
    (mcpServers : option (list GatewayMCPServerConfig)) (input : EffectApprovalPolicyInput) : EffectApprovalOutcome :=
  let assessment := assessApprovalSafety urlHost (assessmentInput workspaceRoot mcpServers input) in
  let reason := reasonCode assessment in
  let risk := riskLevel assessment in
  if bool_decide (reason = untrusted_mcp_tool) then
    requireApproval input reason risk (Some "security-review") (Some ["security"; "admin"])
  else match default safe_local_dev mode with
    | trusted_operator =>
        if isHarmless reason then allowEffect input reason risk false
        else if bool_decide (reason = shell_read_only) then allowEffect input reason risk true
        else requireApproval input reason risk None None
    | unattended_background =>
        if isHarmless reason then allowEffect input reason risk false else denyEffect input reason risk
    | benchmark =>
        if isHarmless reason then allowEffect input reason risk false
        else if bool_decide (reason = shell_read_only) ||
                (bool_decide (reason = shell_mutation) && workspaceScoped assessment &&
                 bool_decide (targetSensitivity assessment = t_workspace))
        then allowEffect input reason risk true
        else requireApproval input reason risk None None
    | safe_local_dev =>
        if isHarmless reason then allowEffect input reason risk false else requireApproval input reason risk None None
    end.

End policy.
