(* ===== verification/EffectPolicySpec.v ===== *)
(** * Effect approval policy: what runs without asking *)
From Stdlib Require Import Ascii.
From S2P Require Import Prelude JsMap JsString PolicyGlob Approvals JsRegex PolicyTypes PolicyEngine ToolGovernance EffectPolicy.
#[local] Open Scope string_scope.

Section policy.
Context `{NodePath} (urlHost : string -> option string).

(** ** Where the targets are *)

Definition contained (root : option string) (path : string) : Prop :=
  isWorkspacePath path root = true /\ isProtectedWorkspacePath path root = false.

Lemma summarize_fold paths root acc :
  foldl (fun acc path => (acc.1 && isWorkspacePath path root, acc.2 || isProtectedWorkspacePath path root)) acc paths =
  (acc.1 && forallb (fun path => isWorkspacePath path root) paths, acc.2 || existsb (fun path => isProtectedWorkspacePath path root) paths).
Proof.
  revert acc. induction paths as [|p paths IH]; intros [a b]; cbn; [by rewrite andb_true_r, orb_false_r|].
  rewrite IH. cbn. by rewrite andb_assoc, orb_assoc.
Qed.

Lemma protected_in_workspace path root : isProtectedWorkspacePath path root = true -> isWorkspacePath path root = true.
Proof. unfold isProtectedWorkspacePath. destruct (Approvals.nonEmpty root); [|done]. by destruct (isWorkspacePath path root). Qed.

(** The summary of a set of paths, by what is true of the paths. *)
Lemma summarize_cases paths root :
  match summarizePathSensitivity paths root with
  | (t_none, w) => paths = [] /\ w = false
  | (t_protected_workspace, w) => (exists path, path ∈ paths /\ isProtectedWorkspacePath path root = true) /\ w = true
  | (t_workspace, w) => paths <> [] /\ (forall path, path ∈ paths -> contained root path) /\ w = true
  | (t_host, w) => (exists path, path ∈ paths /\ isWorkspacePath path root = false) /\
      (forall path, path ∈ paths -> isProtectedWorkspacePath path root = false) /\ w = false
  | _ => False
  end.
Proof.
  unfold summarizePathSensitivity. destruct paths as [|p paths]; [done|]. remember (p :: paths) as ps eqn:Hps.
  rewrite summarize_fold. cbn [fst snd andb orb]. destruct (existsb _ ps) eqn:He.
  - apply existsb_exists in He as (x & Hx & Hp). split; [|done]. exists x. by rewrite list_elem_of_In.
  - assert (Hn : forall path, path ∈ ps -> isProtectedWorkspacePath path root = false).
    { intros path Hin. rewrite existsb_false, Forall_forall in He. by apply He. }
    destruct (forallb _ ps) eqn:Hf.
    + rewrite forallb_forall in Hf. split_and!; [by subst|intros path Hin; split; [by apply Hf, list_elem_of_In|auto]|done].
    + split_and!; [|done|done]. clear Hn He Hps. induction ps as [|x ps IH]; [done|]. cbn in Hf. apply andb_false_iff in Hf as [Hf|Hf].
      * exists x. split; [constructor|done].
      * destruct (IH Hf) as (y & Hy & ?). exists y. split; [by constructor|done].
Qed.

(** ** What the assessment means *)

Notation classOf i := (policyClass (classifyToolGovernance urlHost (as_toolName i) (as_args i))).

Lemma classify_access toolName args : access (classifyToolGovernance urlHost toolName args) = inferToolAccess toolName.
Proof. unfold classifyToolGovernance. destruct (inferToolAccess toolName); [done|]. by repeat case_match. Qed.

Lemma classify_read toolName args : inferToolAccess toolName = read -> policyClass (classifyToolGovernance urlHost toolName args) = read_only.
Proof. unfold classifyToolGovernance. by intros ->. Qed.

(** No server restricts the tool, and it moves no money. *)
Definition unrestricted (i : ApprovalSafetyAssessmentInput) : Prop :=
  as_mcpTrustTier i <> Some untrusted /\ as_mcpTrustTier i <> Some sandboxed /\ classOf i <> irreversible_financial_action.

Definition observes (i : ApprovalSafetyAssessmentInput) : Prop :=
  test DESKTOP_READ_ONLY_TOOL_PATTERN (as_toolName i) = true \/
  test DESKTOP_CONTROL_TOOL_PATTERN (as_toolName i) = false /\
    (as_effectClass i = Some "read_only" \/ inferToolAccess (as_toolName i) = read).

(** A tool that may change something and does not drive the desktop. *)
Definition changes (i : ApprovalSafetyAssessmentInput) : Prop :=
  test DESKTOP_READ_ONLY_TOOL_PATTERN (as_toolName i) = false /\ test DESKTOP_CONTROL_TOOL_PATTERN (as_toolName i) = false /\
  as_effectClass i <> Some "read_only" /\ inferToolAccess (as_toolName i) = write.

Definition scaffolds (i : ApprovalSafetyAssessmentInput) : Prop :=
  as_effectClass i = Some "filesystem_scaffold" /\ forall path, path ∈ targetPaths i -> isProtectedWorkspacePath path (as_workspaceRoot i) = false.

(** A write that destroys nothing, starts nothing, reads no secret, and whose
    targets are all inside the workspace and not protected. *)
Definition writesInside (i : ApprovalSafetyAssessmentInput) : Prop :=
  as_effectClass i <> Some "filesystem_scaffold" /\ as_effectClass i <> Some "shell" /\
  classOf i <> credential_secret_access /\ classOf i <> destructive_side_effect /\
  as_effectKind i <> Some "process_start" /\ as_effectKind i <> Some "server_start" /\
  as_effectKind i <> Some "filesystem_delete" /\ as_effectKind i <> Some "filesystem_move" /\
  inferOverwrite (as_preExecutionSnapshots i) = false /\ forall path, path ∈ targetPaths i -> contained (as_workspaceRoot i) path.

Definition commandOf (i : ApprovalSafetyAssessmentInput) : ShellIntent := inferShellIntent (textArg (as_args i) "command").

Definition runsReadOnlyShell (i : ApprovalSafetyAssessmentInput) : Prop := as_effectClass i = Some "shell" /\ commandOf i = si_read_only.

(** A command of unknown or changing intent, with every target inside. *)
Definition runsShellInside (i : ApprovalSafetyAssessmentInput) : Prop :=
  as_effectClass i = Some "shell" /\ commandOf i <> si_open_world /\ commandOf i <> si_read_only /\
  targetPaths i <> [] /\ forall path, path ∈ targetPaths i -> contained (as_workspaceRoot i) path.

Notation assessed i := (assessApprovalSafety urlHost i).

(** Decide the first condition of the assessment. *)
Ltac decide_cond b := lazymatch b with
  | bool_decide ?P => destruct (bool_decide_reflect P)
  | ?a || ?b => let E := fresh "E" in destruct (a || b) eqn:E;
      [rewrite !orb_true_iff, !bool_decide_eq_true in E|rewrite !orb_false_iff, !bool_decide_eq_false in E]
  | _ => let E := fresh "E" in destruct b eqn:E
  end.
Ltac next_case := match goal with |- context [reasonCode (if ?b then _ else _)] => decide_cond b end.

Lemma assessed_untrusted i : reasonCode (assessed i) = untrusted_mcp_tool <-> as_mcpTrustTier i = Some untrusted.
Proof.
  unfold assessApprovalSafety. destruct (summarizePathSensitivity _ _) as [sens w].
  destruct (bool_decide_reflect (as_mcpTrustTier i = Some untrusted)); [done|]. split; [|done].
  repeat case_match; done.
Qed.

(** A case in which the call is not harmless: some part of the claim fails. *)
Ltac not_harmless := split; [discriminate|];
  intros [(? & ? & ?) [[?|(? & [?|?])]|((? & ? & ? & ?) & [(? & Hsc)|(? & ? & ? & ? & ? & ? & ? & ? & ? & Hin)])]]; exfalso; try congruence.

Lemma assessed_harmless i : isHarmless (reasonCode (assessed i)) = true <->
  unrestricted i /\ (observes i \/ changes i /\ (scaffolds i \/ writesInside i)).
Proof.
  unfold assessApprovalSafety, unrestricted, observes, changes, scaffolds, writesInside. rewrite classify_access.
  pose proof (summarize_cases (targetPaths i) (as_workspaceRoot i)) as Hs. destruct (summarizePathSensitivity _ _) as [sens w]. cbv zeta.
  do 3 (next_case; [not_harmless|]). next_case; [split; [|done]; auto|]. next_case; [not_harmless|].
  next_case; [split; auto 8|]. destruct E1 as [Hnr Hna].
  assert (Hw : inferToolAccess (as_toolName i) = write) by (by destruct (inferToolAccess (as_toolName i))).
  next_case; [destruct (bool_decide_reflect (sens = t_protected_workspace)) as [->|]|].
  - not_harmless. destruct Hs as [(p & Hp & Hpr) _]. rewrite (Hsc p Hp) in Hpr. done.
  - split; [intros _|done]. split; [done|right]. split; [done|left]. split; [done|]. intros path Hp.
    destruct sens; try done; [destruct Hs as [Hs _]; rewrite Hs in Hp; by apply elem_of_nil in Hp| |by apply Hs].
    by apply (proj1 (proj2 Hs)).
  - next_case; [destruct (inferShellIntent _); not_harmless|]. do 3 (next_case; [not_harmless|]).
    next_case; [replace (isHarmless _) with false by (by repeat case_match); not_harmless; destruct E1 as [[[?|?]|?]|?]; congruence|]. destruct E1 as [[[? ?] ?] ?].
    next_case; [|next_case].
    + not_harmless. subst sens. destruct Hs as [(p & Hp & Hpr) _]. destruct (Hin p Hp). congruence.
    + not_harmless. subst sens. destruct Hs as [(p & Hp & Hpr) _]. destruct (Hin p Hp). congruence.
    + split; [intros _|done]. split; [done|right]. split; [done|right]. split_and!; try done. intros path Hp.
      destruct sens; try done; [destruct Hs as [Hs _]; rewrite Hs in Hp; by apply elem_of_nil in Hp|]. by apply (proj1 (proj2 Hs)).
Qed.

(** The cases before and after the shell commands. *)
Ltac not_shell := split; [repeat case_match; naive_solver|]; intros [(? & ? & ?) [(? & ? & ? & ?) (? & ?)]]; exfalso; congruence.

Lemma assessed_shell_read i : reasonCode (assessed i) = shell_read_only <-> unrestricted i /\ changes i /\ runsReadOnlyShell i.
Proof.
  unfold assessApprovalSafety, unrestricted, changes, runsReadOnlyShell, commandOf. rewrite classify_access.
  destruct (summarizePathSensitivity _ _) as [sens w]. cbv zeta.
  do 5 (next_case; [not_shell|]). next_case; [split; [done|]; intros [_ [(_ & _ & Hn & Hw) _]]; destruct E1; congruence|].
  destruct E1 as [Hnr Hna]. assert (Hw : inferToolAccess (as_toolName i) = write) by (by destruct (inferToolAccess (as_toolName i))).
  next_case; [not_shell|]. next_case.
  - destruct (inferShellIntent _) eqn:Hi; cbn [reasonCode assessShell]; [by split|by split; [|intros (_ & _ & _ & ?)]..].
  - split; [repeat case_match; done|]. by intros (_ & _ & ? & _).
Qed.

Lemma assessed_shell_inside i :
  reasonCode (assessed i) = shell_mutation /\ workspaceScoped (assessed i) = true /\ targetSensitivity (assessed i) = t_workspace <->
  unrestricted i /\ changes i /\ runsShellInside i.
Proof.
  unfold assessApprovalSafety, unrestricted, changes, runsShellInside, commandOf. rewrite classify_access.
  pose proof (summarize_cases (targetPaths i) (as_workspaceRoot i)) as Hs. destruct (summarizePathSensitivity _ _) as [sens w]. cbv zeta.
  do 5 (next_case; [split; [by intros (? & _)|]; intros [(? & ? & ?) [(? & ? & ? & ?) (? & ?)]]; exfalso; congruence|]).
  next_case; [split; [by intros (? & _)|]; intros [_ [(_ & _ & Hn & Hw) _]]; destruct E1; congruence|].
  destruct E1 as [Hnr Hna]. assert (Hw : inferToolAccess (as_toolName i) = write) by (by destruct (inferToolAccess (as_toolName i))).
  next_case; [split; [by intros (? & _); repeat case_match|]; intros (_ & _ & ? & _); congruence|]. next_case.
  - assert (Hc : w = true /\ sens = t_workspace <-> targetPaths i <> [] /\ forall path, path ∈ targetPaths i -> contained (as_workspaceRoot i) path).
    { destruct sens; try done.
      - destruct Hs as [-> _]. split; [by intros [_ ?]|by intros [? _]].
      - destruct Hs as (? & ? & ?). by split.
      - destruct Hs as [(p & Hp & Hr) _]. split; [by intros [_ ?]|]. intros [_ Ha]. destruct (Ha p Hp). congruence.
      - destruct Hs as [(p & Hp & Hr) _]. split; [by intros [_ ?]|]. intros [_ Ha]. destruct (Ha p Hp). congruence. }
    destruct (inferShellIntent _) eqn:Hi; cbn [reasonCode workspaceScoped targetSensitivity assessShell]; rewrite ?Hc;
      (split; [intros [? ?]|intros (_ & _ & _ & ? & ? & ?)]; done).
  - split; [intros (? & _); exfalso; by repeat case_match|]. by intros (_ & _ & ? & _).
Qed.

(** ** The modes *)

Notation policyOf mode root servers input := (createEffectApprovalPolicy urlHost mode root servers input).

(** Each mode by the reason of the assessment. *)
Lemma status_iff mode root servers input :
  let a := assessed (assessmentInput root servers input) in
  eo_status (policyOf mode root servers input) = allow <->
  isHarmless (reasonCode a) = true \/
  (mode = Some trusted_operator \/ mode = Some benchmark) /\ reasonCode a = shell_read_only \/
  mode = Some benchmark /\ reasonCode a = shell_mutation /\ workspaceScoped a = true /\ targetSensitivity a = t_workspace.
Proof.
  cbv zeta. unfold createEffectApprovalPolicy. generalize (assessed (assessmentInput root servers input)). intros a.
  destruct (bool_decide_reflect (reasonCode a = untrusted_mcp_tool)) as [Hu|_]; [rewrite Hu; cbn; naive_solver|].
  destruct (isHarmless (reasonCode a)) eqn:Hh; [destruct mode as [[]|]; cbn; naive_solver|].
  destruct (bool_decide_reflect (reasonCode a = shell_read_only)) as [Hr|Hr]; [destruct mode as [[]|]; cbn; naive_solver|].
  destruct mode as [[]|]; cbn [default from_option id eo_status requireApproval outcomeOf denyEffect allowEffect]; [naive_solver..| |naive_solver].
  cbn [orb]. destruct (bool_decide_reflect (reasonCode a = shell_mutation)), (workspaceScoped a),
    (bool_decide_reflect (targetSensitivity a = t_workspace)); cbn; naive_solver.
Qed.

(** What a mode lets run without asking. *)
Definition autoAllowed (mode : option GatewayApprovalMode) (i : ApprovalSafetyAssessmentInput) : Prop :=
  unrestricted i /\ (observes i \/ changes i /\
    (scaffolds i \/ writesInside i \/
     (mode = Some trusted_operator \/ mode = Some benchmark) /\ runsReadOnlyShell i \/
     mode = Some benchmark /\ runsShellInside i)).

(** A tool call runs without asking exactly when no server marks it as
    untrusted or sandboxed, it is no irreversible financial action, and it
    either observes only (a screenshot, a read), or does not drive the desktop
    and: creates files outside the protected paths; or writes without
    destroying, starting a process or server or touching credentials, with
    every target inside the workspace and unprotected; or, for a trusted
    operator and in benchmarks, runs a command read as read-only; or, in
    benchmarks only, runs a command without network whose targets are known and
    all inside the workspace. *)
Theorem auto_allowed_exact mode root servers input :
  eo_status (policyOf mode root servers input) = allow <-> autoAllowed mode (assessmentInput root servers input).
Proof.
  unfold autoAllowed. rewrite status_iff, assessed_harmless, assessed_shell_read, assessed_shell_inside. tauto.
Qed.

(** The modes are ordered: unattended runs allow what local development
    allows, a trusted operator allows more, a benchmark allows most. Only an
    unattended run denies outright, and it asks only for tools of untrusted
    servers; those are asked for in every mode, and only a resolver with the
    role security or admin may answer. *)
Theorem approval_modes_ordered root servers input :
  let status mode := eo_status (policyOf (Some mode) root servers input) in
  let tier := deriveMcpTrustTier (ei_toolName input) servers in
  (status unattended_background = allow <-> status safe_local_dev = allow) /\
  (status safe_local_dev = allow -> status trusted_operator = allow) /\
  (status trusted_operator = allow -> status benchmark = allow) /\
  (forall mode, status mode = deny_ -> mode = unattended_background) /\
  (status unattended_background = require_approval <-> tier = Some untrusted) /\
  (tier = Some untrusted -> forall mode, status mode = require_approval /\
     eo_approverRoles (policyOf (Some mode) root servers input) = Some ["security"; "admin"]).
Proof.
  cbv zeta. rewrite !status_iff. pose proof (assessed_untrusted (assessmentInput root servers input)) as Hu. cbn [as_mcpTrustTier assessmentInput] in Hu.
  unfold createEffectApprovalPolicy. set (a := assessed _) in *.
  split_and!; [naive_solver..| | |].
  - intros mode. destruct (bool_decide _); [done|]. destruct mode; cbn; repeat case_match; done.
  - destruct (bool_decide_reflect (reasonCode a = untrusted_mcp_tool)) as [Hr|Hr]; cbn.
    + split; [intros _; by apply Hu|done].
    + destruct (isHarmless _); (split; [done|intros Ht; by destruct Hr; apply Hu]).
  - intros Ht mode. apply Hu in Ht. rewrite bool_decide_eq_true_2 by done. done.
Qed.
End policy.

(** * The approval gate with the effect policy

    The approval engine is proved for any effect policy; here it runs with the
    policy of effect-approval-policy.ts, as gateway/approval-runtime.ts sets it
    up. *)
From Stdlib Require Import Ascii.
From S2P Require Import Prelude JsMap JsString PolicyGlob Approvals ApprovalsSpec JsRegex PolicyTypes PolicyEngine ToolGovernance EffectPolicy.
#[local] Open Scope string_scope.

Section gate.
Context `{NodePath} (urlHost : string -> option string).
Context (regex_test : string -> string -> option bool) (hmac : string -> SignedAssertion -> string).
Context (mode : option GatewayApprovalMode) (root : option string) (servers : option (list GatewayMCPServerConfig)).

Notation policy := (createEffectApprovalPolicy urlHost mode root servers).
Notation stepP := (step regex_test (Some policy) hmac).

(** The policy's input for a call of the gate. *)
Definition gateInput (toolName : string) (args : Args) (sid : string) : EffectApprovalPolicyInput := {|
  ei_toolName := toolName; ei_args := args; ei_sessionId := sid; ei_parentSessionId := None; ei_subagentSessionId := None; ei_effect := None |}.

(** An answer that is not [no], from a resolver who has one of the roles. *)
Definition answeredBy (roles : list string) (ev : Event * Z) : Prop :=
  exists id resp role, ev.1 = Resolve id resp /\ rs_disposition resp <> no /\ role ∈ roles /\
    role ∈ normalizeResolverRoles (r ← rs_resolver resp; rv_roles r).

(** C29. With the effect policy in place, the gate lets a call run only if the
    session is elevated for it, or the mode allows it without asking, or a
    resolver approved it afterwards; a tool of an untrusted server needs, unless
    elevated, an approval by a resolver with the role security or admin. *)
Theorem gate_with_policy_safe rs tmo sla esc key before toolName args sid id now after :
  toolName <> EmptyString ->
  let s := foldl stepP (initial rs tmo sla esc key) before in
  let call := (GateCall toolName args sid id, now) in
  let status := (gate regex_test (Some policy) toolName args sid id now (engine s)).2 in
  let tier := deriveMcpTrustTier toolName servers in
  gateResult status (engine (foldl stepP s (call :: after))) = Some true ->
  isToolElevated regex_test sid toolName (scopeOf (Some policy) toolName args sid) (engine s) = true \/
  autoAllowed urlHost mode (assessmentInput root servers (gateInput toolName args sid)) \/
  exists l ev l' r rq, after = (l ++ ev :: l')%list /\
    approves hmac (engine (foldl stepP s (call :: l))) ev (length (promises (engine s))) rq r /\
    rq_toolName rq = toolName /\ rq_args rq = args /\ rq_sessionId rq = sid /\
    (tier = Some untrusted -> answeredBy ["security"; "admin"] ev).
Proof.
  intros Hne s call status tier Hr. assert (Hi : eng_inv (engine s)) by apply approvals_initial_inv.
  pose proof (gate_cases regex_test (Some policy) toolName args sid id now (engine s) Hne) as Hg. cbn zeta in Hg. subst status.
  destruct (isToolDenied _ _ _ _ _ _); [by rewrite Hg in Hr|]. destruct (isToolElevated _ _ _ _ _); [by left|right].
  unfold verdict in Hg. destruct (eo_status _) eqn:Hv; [left| |by rewrite Hg in Hr].
  { unfold outcomeFor in Hv. rewrite status_iff, assessed_harmless, assessed_shell_read, assessed_shell_inside in Hv.
    unfold autoAllowed. tauto. }
  destruct Hg as (rq & _ & H2 & H3 & H4 & Hg). rewrite Hg in Hr.
  destruct (gate_promise _ _ hmac s toolName args sid id now rq after Hi Hg Hr) as (r & l & ev & l' & -> & Ha).
  right. exists l, ev, l', r, rq. split_and!; try done. intros Ht. apply gate_asks_roles in Hg.
  destruct Ha as (rid & resp & entry & He & _ & _ & _ & Hresp & Hauth & Hn). exists rid, resp.
  assert (Hroles : rq_requiredApproverRoles rq = Some ["security"; "admin"]).
  { rewrite Hg. unfold outcomeFor, createEffectApprovalPolicy. rewrite bool_decide_eq_true_2; [done|]. by apply assessed_untrusted. }
  unfold isResolutionAuthorized in Hauth. rewrite Hroles in Hauth. change (default [] (Some ["security"; "admin"])) with ["security"; "admin"] in Hauth.
  apply existsb_exists in Hauth as (role & Hin & Hhas). exists role. split_and!; [done..|by apply list_elem_of_In|].
  apply has_true in Hhas. rewrite Hresp in Hhas. by apply normalized_roles in Hhas.
Qed.

End gate.

(** ** Instances *)

Module EffectDemo.

Import GovernanceDemo.

Definition servers : option (list GatewayMCPServerConfig) := Some [{| serverName := "evil"; trustTier := Some untrusted |}].
Definition withRoles (roles : list string) : ApprovalResponse := {|
  rs_requestId := "r1"; rs_disposition := yes; rs_approvedBy := None; rs_resolver := Some {| rv_actorId := Some "ann"; rv_sessionId := None;
    rv_channel := None; rv_roles := Some roles; rv_resolvedAt := 6; rv_assertion := None |} |}.
Definition demoPolicy := createEffectApprovalPolicy noHost None (Some "/w") servers.
Definition start : System := initial None None None None None.

Lemma gate_with_policy_safe_witness :
  isToolElevated ApprovalDemo.rx "s1" "mcp.evil.run" (scopeOf (Some demoPolicy) "mcp.evil.run" [] "s1") (engine start) = true \/
  autoAllowed noHost None (assessmentInput (Some "/w") servers (gateInput "mcp.evil.run" [] "s1")) \/
  exists l ev l' r rq, [(Announced 0, 5%Z); (Resolve "r1" (withRoles ["admin"]), 6%Z); (Notified 0, 7%Z)] = (l ++ ev :: l')%list /\
    approves ApprovalDemo.mac (engine (foldl (step ApprovalDemo.rx (Some demoPolicy) ApprovalDemo.mac) start
      ((GateCall "mcp.evil.run" [] "s1" "r1", 5%Z) :: l))) ev 0 rq r /\
    rq_toolName rq = "mcp.evil.run" /\ rq_args rq = [] /\ rq_sessionId rq = "s1" /\
    (deriveMcpTrustTier "mcp.evil.run" servers = Some untrusted -> answeredBy ["security"; "admin"] ev).
Proof.
  refine (gate_with_policy_safe noHost ApprovalDemo.rx ApprovalDemo.mac None (Some "/w") servers None None None None None []
    "mcp.evil.run" [] "s1" "r1" 5 [(Announced 0, 5%Z); (Resolve "r1" (withRoles ["admin"]), 6%Z); (Notified 0, 7%Z)] _ _); [discriminate|reflexivity].
Defined.

Definition effectOn (class kind : string) (paths : list string) : ApprovalEffectRef := {|
  effectId := "e"; idempotencyKey := "k"; effectClass := Some class; effectKind := Some kind; summary := None;
  compensationAvailable := None; targets := Some paths; preExecutionSnapshots := None |}.
Definition textArgOf (s : string) : ArgValue := {| shape := JText s; asText := s; asNumber := None |}.
Definition inputOf (tool : string) (args : Args) (effect : ApprovalEffectRef) : EffectApprovalPolicyInput := {|
  ei_toolName := tool; ei_args := args; ei_sessionId := "s1"; ei_parentSessionId := None; ei_subagentSessionId := None; ei_effect := Some effect |}.

(** A plain write inside the workspace runs, one outside asks, one on a
    protected file asks. *)
Example writes_by_place :
  let write path := eo_status (demoPolicy (inputOf "system.writeFile" [] (effectOn "filesystem_write" "filesystem_write" [path]))) in
  write "/w/notes.txt" = allow /\ write "/etc/passwd" = require_approval /\ write "/w/.git/hooks/pre-commit" = require_approval.
Proof. by vm_compute. Qed.

(** Creating files outside the workspace runs without asking. *)
Lemma scaffold_outside_workspace_allowed :
  let o := demoPolicy (inputOf "system.mkdir" [] (effectOn "filesystem_scaffold" "filesystem_mkdir" ["/etc/cron.d/x"])) in
  eo_status o = allow /\ eo_reasonCode o = "workspace_scaffold".
Proof. by vm_compute. Qed.

(** A command is read as read-only by its first words: what follows a
    separator, a deleting option or a redirection without a blank is missed,
    and a trusted operator's session runs it without asking. *)
Lemma chained_command_read_only :
  map (fun c => inferShellIntent (Some c)) ["ls . ; python3 wipe.py"; "find . -delete"; "cat notes>/etc/hosts"] =
    [si_read_only; si_read_only; si_read_only] /\
  eo_status (createEffectApprovalPolicy noHost (Some trusted_operator) (Some "/w") None
    (inputOf "system.exec" [("command", textArgOf "find . -delete")] (effectOn "shell" "shell_command" []))) = allow.
Proof. by vm_compute. Qed.

End EffectDemo.
