(* ===== verification/Transitions.v ===== *)
(** * Transition validation (src/runtime/src/eval/transition-validator.ts)

    The check of one lifecycle transition of a task, a dispute or a
    speculation, and the validator that also follows the on-chain statuses.
    States are strings, a table maps a state to its successors. *)
From stdpp Require Import pretty.
From S2P Require Import Prelude JsMap JsString.
#[local] Open Scope string_scope.
#[local] Open Scope Z_scope.

Inductive ReplayLifecycleType := scope_task | scope_dispute | scope_speculation.

Definition scope_name (s : ReplayLifecycleType) : string :=
  match s with scope_task => "task" | scope_dispute => "dispute" | scope_speculation => "speculation" end.

Definition scope_upper (s : ReplayLifecycleType) : string :=
  match s with scope_task => "TASK" | scope_dispute => "DISPUTE" | scope_speculation => "SPECULATION" end.

Inductive OnChainTaskStatus := Open | InProgress | PendingValidation | Completed | TaskCancelled | Disputed.
Inductive OnChainDisputeStatus := Active | Resolved | Expired | DisputeCancelled.

#[export] Instance task_status_eq_dec : EqDecision OnChainTaskStatus.
Proof. solve_decision. Defined.
#[export] Instance dispute_status_eq_dec : EqDecision OnChainDisputeStatus.
Proof. solve_decision. Defined.
#[export] Instance lifecycle_eq_dec : EqDecision ReplayLifecycleType.
Proof. solve_decision. Defined.

Definition ON_CHAIN_TASK_TRANSITIONS (s : OnChainTaskStatus) : list OnChainTaskStatus :=
  match s with
  | Open => [InProgress; TaskCancelled]
  | InProgress => [InProgress; Completed; TaskCancelled; Disputed; PendingValidation]
  | PendingValidation => [Completed; Disputed]
  | Completed => []
  | TaskCancelled => []
  | Disputed => [Completed; TaskCancelled]
  end.

Definition ON_CHAIN_DISPUTE_TRANSITIONS (s : OnChainDisputeStatus) : list OnChainDisputeStatus :=
  match s with
  | Active => [Resolved; Expired; DisputeCancelled]
  | _ => []
  end.

Definition EVENT_TO_TASK_STATUS : jsmap OnChainTaskStatus :=
  [("taskCreated", Open); ("taskClaimed", InProgress); ("taskCompleted", Completed); ("taskCancelled", TaskCancelled)].

Definition EVENT_TO_DISPUTE_STATUS : jsmap OnChainDisputeStatus :=
  [("disputeInitiated", Active); ("disputeResolved", Resolved); ("disputeExpired", Expired); ("disputeCancelled", DisputeCancelled)].

Definition task_status_name (s : OnChainTaskStatus) : string :=
  match s with
  | Open => "Open" | InProgress => "InProgress" | PendingValidation => "PendingValidation" | Completed => "Completed"
  | TaskCancelled => "Cancelled" | Disputed => "Disputed"
  end.

Definition dispute_status_name (s : OnChainDisputeStatus) : string :=
  match s with Active => "Active" | Resolved => "Resolved" | Expired => "Expired" | DisputeCancelled => "Cancelled" end.

Record TransitionValidationViolation := {
  v_scope : ReplayLifecycleType;
  v_entityId : string;
  v_eventName : string;
  v_eventType : string;
  v_fromState : option string;
  v_toState : string;
  v_reason : string;
  v_signature : string;
  v_slot : Z;
  v_sourceEventSequence : Z;
  v_anomalyCode : string;
}.

Record TransitionValidationOptions := {
  o_scope : ReplayLifecycleType;
  o_entityId : string;
  o_eventName : string;
  o_eventType : string;
  o_previousState : option string;
  o_nextState : string;
  o_signature : string;
  o_slot : Z;
  o_sourceEventSequence : Z;
  o_transitions : jsmap (list string);
  o_allowedStarts : list string;
}.

Definition deriveAnomalyCode (scope : ReplayLifecycleType) (previousState : option string) (nextState : string)
    (transitions : jsmap (list string)) : string :=
  match previousState with
  | None => scope_upper scope +:+ "_INVALID_START"
  | Some previous =>
      if String.eqb previous nextState && String.eqb nextState "completed" then "TASK_DOUBLE_COMPLETE"
      else match mget transitions previous with
        | Some [] => scope_upper scope +:+ "_TERMINAL_TRANSITION"
        | _ => "UNKNOWN_TRANSITION"
        end
  end.

Definition violationOf (o : TransitionValidationOptions) : TransitionValidationViolation := {|
  v_scope := o_scope o; v_entityId := o_entityId o; v_eventName := o_eventName o; v_eventType := o_eventType o;
  v_fromState := o_previousState o; v_toState := o_nextState o;
  v_reason := default "none" (o_previousState o) +:+ " -> " +:+ o_nextState o;
  v_signature := o_signature o; v_slot := o_slot o; v_sourceEventSequence := o_sourceEventSequence o;
  v_anomalyCode := deriveAnomalyCode (o_scope o) (o_previousState o) (o_nextState o) (o_transitions o) |}.

Definition validateTransition (o : TransitionValidationOptions) : option TransitionValidationViolation :=
  match o_previousState o with
  | None => if has (o_allowedStarts o) (o_nextState o) then None else Some (violationOf o)
  | Some previous =>
      match mget (o_transitions o) previous with
      | Some allowed => if has allowed (o_nextState o) then None else Some (violationOf o)
      | None => Some (violationOf o)
      end
  end.

Definition transitionViolationMessage (v : TransitionValidationViolation) : string :=
  scope_name (v_scope v) +:+ ":" +:+ v_entityId v +:+ "@" +:+ v_signature v +:+ ": " +:+ v_reason v +:+ " for " +:+ v_eventName v.

(** ** The validator *)

Record TransitionValidator := { onChainTaskStates : jsmap OnChainTaskStatus; onChainDisputeStates : jsmap OnChainDisputeStatus }.

Definition newTransitionValidator : TransitionValidator := {| onChainTaskStates := []; onChainDisputeStates := [] |}.

Definition onChainViolation (o : TransitionValidationOptions) (scope : ReplayLifecycleType) (from to : string)
    : TransitionValidationViolation := {|
  v_scope := scope; v_entityId := o_entityId o; v_eventName := o_eventName o; v_eventType := o_eventType o;
  v_fromState := Some from; v_toState := to; v_reason := "on-chain: " +:+ from +:+ " -> " +:+ to;
  v_signature := o_signature o; v_slot := o_slot o; v_sourceEventSequence := o_sourceEventSequence o; v_anomalyCode := "UNKNOWN_TRANSITION" |}.

(** One of the two on-chain checks: [None] for a violation, else the new states. *)
Definition advance {S} `{EqDecision S} (transitions : S -> list S) (entity : string) (to : S) (states : jsmap S) : option (jsmap S) :=
  match mget states entity with
  | Some from => if bool_decide (to ∈ transitions from) then Some (mset entity to states) else None
  | None => Some (mset entity to states)
  end.

Definition fromName {S} (name : S -> string) (entity : string) (states : jsmap S) : string :=
  match mget states entity with Some s => name s | None => "" end.

(** The violation, if the event is not valid; the state is kept then. *)
Definition validate (o : TransitionValidationOptions) (t : TransitionValidator) : TransitionValidator * option TransitionValidationViolation :=
  match validateTransition o with
  | Some v => (t, Some v)
  | None =>
      match o_scope o with
      | scope_task =>
          match mget EVENT_TO_TASK_STATUS (o_eventName o) with
          | None => (t, None)
          | Some to =>
              match advance ON_CHAIN_TASK_TRANSITIONS (o_entityId o) to (onChainTaskStates t) with
              | None => (t, Some (onChainViolation o scope_task (fromName task_status_name (o_entityId o) (onChainTaskStates t)) (task_status_name to)))
              | Some states => ({| onChainTaskStates := states; onChainDisputeStates := onChainDisputeStates t |}, None)
              end
          end
      | scope_dispute =>
          match mget EVENT_TO_DISPUTE_STATUS (o_eventName o) with
          | None => (t, None)
          | Some to =>
              match advance ON_CHAIN_DISPUTE_TRANSITIONS (o_entityId o) to (onChainDisputeStates t) with
              | None => (t, Some (onChainViolation o scope_dispute (fromName dispute_status_name (o_entityId o) (onChainDisputeStates t))
                                    (dispute_status_name to)))
              | Some states => ({| onChainTaskStates := onChainTaskStates t; onChainDisputeStates := states |}, None)
              end
          end
      | scope_speculation => (t, None)
      end
  end.

Definition reset (t : TransitionValidator) : TransitionValidator := newTransitionValidator.

(** ** When a transition is legal *)

Definition legalStep (transitions : jsmap (list string)) (starts : list string) (previous : option string) (next : string) : Prop :=
  match previous with
  | None => next ∈ starts
  | Some p => exists allowed, mget transitions p = Some allowed /\ next ∈ allowed
  end.

(** A violation is reported exactly for an illegal transition, and names it. *)
Lemma validateTransition_spec o :
  match validateTransition o with
  | None => legalStep (o_transitions o) (o_allowedStarts o) (o_previousState o) (o_nextState o)
  | Some v => v = violationOf o /\ ~ legalStep (o_transitions o) (o_allowedStarts o) (o_previousState o) (o_nextState o)
  end.
Proof.
  unfold validateTransition, legalStep. destruct (o_previousState o) as [p|].
  - destruct (mget (o_transitions o) p) as [allowed|]; [|split; [done|naive_solver]].
    destruct (has allowed (o_nextState o)) eqn:Hh; [apply has_true in Hh; eauto|apply has_false in Hh]. split; [done|naive_solver].
  - destruct (has (o_allowedStarts o) (o_nextState o)) eqn:Hh; [by apply has_true in Hh|by apply has_false in Hh].
Qed.
