(* ===== verification/Projection.v ===== *)
(** * Projection of on-chain events (src/runtime/src/eval/projector.ts)

    Parsed on-chain events become replayable timeline records: the inputs are
    sorted, duplicates dropped, lifecycles checked. The numbers in events are
    integers, object keys are not integer-like (JavaScript lists those first),
    and the base58 text of 32 bytes is the parameter [base58] (the PublicKey
    class of @solana/web3.js). [JSON.stringify] escapes are the parameter
    [quote]. *)
From stdpp Require Import pretty.
From S2P Require Import Prelude JsMap JsString Encoding Transitions.
#[local] Open Scope string_scope.
#[local] Open Scope Z_scope.

(** ** Values *)

(** A JavaScript value, by the cases of [sanitizeJson]. *)
Inductive JsValue :=
| VNull
| VUndefined
| VText (s : string)
| VNumber (z : Z)
| VNonFinite (text : string)
| VBool (b : bool)
| VBigInt (z : Z)
| VBytes (bytes : list Z)
| VPublicKey (base58 : string)
| VArray (l : list JsValue)
| VDate (iso : string)
| VObject (fields : list (string * JsValue))
| VOther (text : string).

Inductive JsonValue :=
| NullJ
| TextJ (s : string)
| NumberJ (z : Z)
| BoolJ (b : bool)
| ArrayJ (l : list JsonValue)
| ObjectJ (fields : list (string * JsonValue)).

Record ReplayTraceContext := { tc_traceId : string; tc_spanId : string; tc_parentSpanId : option string; tc_sampled : bool }.

Record OnChainProjectionInput := {
  i_eventName : string;
  i_event : JsValue;
  i_slot : Z;
  i_signature : string;
  i_timestampMs : option Z;
  i_traceContext : option ReplayTraceContext;
  i_sourceEventSequence : option Z;
}.

Record ProjectedTimelineEvent := {
  p_seq : Z;
  p_type : string;
  p_taskPda : option string;
  p_timestampMs : Z;
  p_payload : list (string * JsonValue);
  p_slot : Z;
  p_signature : string;
  p_sourceEventName : string;
  p_sourceEventSequence : Z;
}.

Record ProjectionTelemetry := {
  totalInputs : Z;
  projectedEvents : Z;
  duplicatesDropped : Z;
  unknownEvents : list string;
  transitionConflicts : list string;
  transitionViolations : list TransitionValidationViolation;
  malformedInputs : list string;
}.

Record DisputeReplayState := {
  d_disputeId : string;
  d_taskId : string;
  d_status : string;
  d_votesFor : Z;
  d_votesAgainst : Z;
  d_totalVoters : Z;
  d_voterSignatures : list string;
  d_resolutionOutcome : option Z;
  d_slashApplied : bool;
  d_initiatorSlashApplied : bool;
  d_resolvedAtSlot : option Z;
}.

(** ** Tables *)

Definition TRAJECTORY_EVENT_BY_SOURCE : jsmap string := [
  ("taskCreated", "discovered"); ("taskClaimed", "claimed"); ("taskCompleted", "completed"); ("taskCancelled", "failed");
  ("dependentTaskCreated", "discovered"); ("disputeInitiated", "dispute:initiated"); ("disputeVoteCast", "dispute:vote_cast");
  ("disputeResolved", "dispute:resolved"); ("disputeExpired", "dispute:expired"); ("disputeCancelled", "dispute:cancelled");
  ("arbiterVotesCleanedUp", "dispute:arbiter_votes_cleaned_up"); ("stateUpdated", "protocol:state_updated");
  ("protocolInitialized", "protocol:protocol_initialized"); ("rewardDistributed", "protocol:reward_distributed");
  ("rateLimitHit", "protocol:rate_limit_hit"); ("migrationCompleted", "protocol:migration_completed");
  ("protocolVersionUpdated", "protocol:protocol_version_updated"); ("rateLimitsUpdated", "protocol:rate_limits_updated");
  ("protocolFeeUpdated", "protocol:protocol_fee_updated"); ("reputationChanged", "protocol:reputation_changed");
  ("bondDeposited", "bond:deposited"); ("bondLocked", "bond:locked"); ("bondReleased", "speculation_confirmed");
  ("bondSlashed", "speculation_aborted"); ("speculativeCommitmentCreated", "speculation_started");
  ("agentRegistered", "agent:registered"); ("agentUpdated", "agent:updated"); ("agentDeregistered", "agent:deregistered");
  ("agentSuspended", "agent:suspended"); ("agentUnsuspended", "agent:unsuspended")].

(** The known names are the keys of the table. *)
Definition isKnownEvent (name : string) : bool := mhas TRAJECTORY_EVENT_BY_SOURCE name.

Definition TASK_TRANSITIONS : jsmap (list string) := [
  ("discovered", ["claimed"; "failed"]); ("claimed", ["completed"; "failed"; "disputed"]); ("disputed", ["completed"; "failed"]);
  ("completed", []); ("failed", [])].

Definition DISPUTE_TRANSITIONS : jsmap (list string) := [
  ("dispute:initiated", ["dispute:vote_cast"; "dispute:resolved"; "dispute:cancelled"; "dispute:expired"]);
  ("dispute:vote_cast", ["dispute:resolved"; "dispute:cancelled"; "dispute:expired"]);
  ("dispute:resolved", []); ("dispute:cancelled", []); ("dispute:expired", [])].

Definition SPECULATION_TRANSITIONS : jsmap (list string) := [
  ("speculation_started", ["speculation_confirmed"; "speculation_aborted"]); ("speculation_confirmed", []); ("speculation_aborted", [])].

Definition TASK_EVENT_TYPES : list string := ["discovered"; "claimed"; "completed"; "failed"; "disputed"].
Definition TASK_START_EVENTS : list string := ["discovered"].
Definition DISPUTE_LIFECYCLE_EVENT_TYPES : list string :=
  ["dispute:initiated"; "dispute:vote_cast"; "dispute:resolved"; "dispute:cancelled"; "dispute:expired"].
Definition DISPUTE_START_EVENTS : list string := ["dispute:initiated"].
Definition SPECULATION_EVENT_TYPES : list string := ["speculation_started"; "speculation_confirmed"; "speculation_aborted"].
Definition SPECULATION_START_EVENTS : list string := ["speculation_started"].

Definition EVENT_SORT_ORDER : jsmap Z := [
  ("discovered", 10); ("claimed", 20); ("completed", 30); ("failed", 40); ("disputed", 45); ("speculation_started", 50);
  ("speculation_confirmed", 60); ("speculation_aborted", 70); ("dispute:initiated", 80); ("dispute:vote_cast", 90);
  ("dispute:resolved", 100); ("dispute:cancelled", 110); ("dispute:expired", 120); ("dispute:arbiter_votes_cleaned_up", 130);
  ("agent:registered", 140); ("agent:updated", 150); ("agent:deregistered", 160); ("agent:suspended", 170); ("agent:unsuspended", 180);
  ("protocol:state_updated", 190); ("protocol:protocol_initialized", 200); ("protocol:reward_distributed", 210);
  ("protocol:rate_limit_hit", 220); ("protocol:migration_completed", 230); ("protocol:protocol_version_updated", 240);
  ("protocol:rate_limits_updated", 250); ("protocol:protocol_fee_updated", 260); ("protocol:reputation_changed", 270);
  ("bond:deposited", 280); ("bond:locked", 290); ("bond:released", 291); ("bond:slashed", 292)].

Definition eventSortRank (eventType : string) : Z := default 1000 (mget EVENT_SORT_ORDER eventType).

Section projector.
Context `{Collation} (base58 : list Z -> string) (quote : string -> string).

(** ** JSON *)

Fixpoint sanitizeJson (value : JsValue) : JsonValue :=
  match value with
  | VNull => NullJ
  | VUndefined => TextJ "undefined"
  | VText s => TextJ s
  | VNumber z => NumberJ z
  | VNonFinite text => TextJ text
  | VBool b => BoolJ b
  | VBigInt z => TextJ (pretty z)
  | VBytes bytes => TextJ (bytesToHex bytes false)
  | VPublicKey text => TextJ text
  | VArray l => ArrayJ (map sanitizeJson l)
  | VDate iso => TextJ iso
  | VObject fields => ObjectJ (sort_on fst (map (fun kv => (kv.1, sanitizeJson kv.2)) fields))
  | VOther text => TextJ text
  end.

(** [sanitizeJson] of a value that is JSON already. *)
Fixpoint resanitize (value : JsonValue) : JsonValue :=
  match value with
  | ArrayJ l => ArrayJ (map resanitize l)
  | ObjectJ fields => ObjectJ (sort_on fst (map (fun kv => (kv.1, resanitize kv.2)) fields))
  | v => v
  end.

Definition sanitizePayload (payload : JsValue) : list (string * JsonValue) :=
  match sanitizeJson payload with ObjectJ fields => fields | value => [("value", value)] end.

(** [canonicalizeJson] and [JSON.stringify]. *)
Fixpoint canonicalizeJson (value : JsonValue) : JsonValue :=
  match value with
  | ArrayJ l => ArrayJ (map canonicalizeJson l)
  | ObjectJ fields => ObjectJ (sort_by (fun a b => String.compare a.1 b.1) (map (fun kv => (kv.1, canonicalizeJson kv.2)) fields))
  | v => v
  end.

Fixpoint stringify (value : JsonValue) : string :=
  match value with
  | NullJ => "null"
  | TextJ s => quote s
  | NumberJ z => pretty z
  | BoolJ true => "true"
  | BoolJ false => "false"
  | ArrayJ l => "[" +:+ String.concat "," (map stringify l) +:+ "]"
  | ObjectJ fields => "{" +:+ String.concat "," (map (fun kv => quote kv.1 +:+ ":" +:+ stringify kv.2) fields) +:+ "}"
  end.

Definition stableStringifyJson (value : JsonValue) : string := stringify (canonicalizeJson value).

(** ** Fields of events *)

(** [event[key]] of an event that is an object, [undefined] otherwise. *)
Definition eventField (event : JsValue) (key : string) : JsValue :=
  match event with VObject fields => default VUndefined (mget fields key) | _ => VUndefined end.

Definition orElse (a b : JsValue) : JsValue := match a with VNull | VUndefined => b | _ => a end.

Definition bytesToPublicKeyString (bytes : list Z) : string :=
  if (length bytes =? 32)%nat then base58 bytes else bytesToHex bytes false.

(** [entry => Number.isInteger(entry) && entry >= 0 && entry <= 255]. *)
Definition isByteValue (v : JsValue) : option Z :=
  match v with VNumber z => if (0 <=? z) && (z <=? 255) then Some z else None | _ => None end.

Definition toPublicKeyString (value : JsValue) : option string :=
  match value with
  | VPublicKey text => Some text
  | VBytes bytes => Some (bytesToPublicKeyString bytes)
  | VArray l => bytesToPublicKeyString <$> mapM isByteValue l
  | _ => None
  end.

Record Context := { taskPda : option string; disputePda : option string; speculationPda : option string }.

Definition getContext (eventName : string) (event : JsValue) : Context := {|
  taskPda := toPublicKeyString (orElse (eventField event "taskId") (eventField event "task"));
  disputePda := toPublicKeyString (eventField event "disputeId");
  speculationPda :=
    if String.eqb eventName "speculativeCommitmentCreated" then toPublicKeyString (eventField event "task")
    else if String.eqb eventName "bondReleased" || String.eqb eventName "bondSlashed" then toPublicKeyString (eventField event "commitment")
    else None |}.

Definition buildFingerprint (slot : Z) (signature eventName : string) (event : JsValue) : string :=
  stableStringifyJson (ObjectJ [("slot", NumberJ slot); ("signature", TextJ signature); ("sourceEventName", TextJ eventName);
    ("eventPayload", ObjectJ (sanitizePayload event))]).

Definition resolveTimestamp (input : OnChainProjectionInput) : Z :=
  let fromEvent := match eventField (i_event input) "timestamp" with VNumber t => if 0 <=? t then t else 0 | _ => 0 end in
  match i_timestampMs input with Some t => if 0 <=? t then t else fromEvent | None => fromEvent end.

(** [String(value)]; an object has no [toString] of its own. *)
Fixpoint jsToString (value : JsValue) : string :=
  match value with
  | VNull => "null"
  | VUndefined => "undefined"
  | VText s | VNonFinite s | VPublicKey s | VDate s | VOther s => s
  | VNumber z | VBigInt z => pretty z
  | VBool b => if b then "true" else "false"
  | VBytes bytes => String.concat "," (map pretty bytes)
  | VArray l => String.concat "," (map (fun v => match v with VNull | VUndefined => "" | _ => jsToString v end) l)
  | VObject _ => "[object Object]"
  end.

(** [BigInt(text)]; [None] when it throws. *)
Definition digitValue (c : Ascii.ascii) : Z :=
  let n := code c in
  if (48 <=? n) && (n <=? 57) then n - 48
  else if (97 <=? n) && (n <=? 122) then n - 87
  else if (65 <=? n) && (n <=? 90) then n - 55
  else 36.

Fixpoint digitsFrom (radix acc : Z) (s : string) : option Z :=
  match s with
  | EmptyString => Some acc
  | String c rest => if digitValue c <? radix then digitsFrom radix (radix * acc + digitValue c) rest else None
  end.

Definition digits (radix : Z) (s : string) : option Z := if isEmpty s then None else digitsFrom radix 0 s.

Definition bigIntOf (text : string) : option Z :=
  let s := trim text in
  if isEmpty s then Some 0
  else if startsWith s "0x" || startsWith s "0X" then digits 16 (sdrop 2 s)
  else if startsWith s "0o" || startsWith s "0O" then digits 8 (sdrop 2 s)
  else if startsWith s "0b" || startsWith s "0B" then digits 2 (sdrop 2 s)
  else if startsWith s "-" then Z.opp <$> digits 10 (sdrop 1 s)
  else if startsWith s "+" then digits 10 (sdrop 1 s)
  else digits 10 s.

(** [typeof v === "bigint" ? v : BigInt(String(v ?? 0))]. *)
Definition votesOf (v : JsValue) : option Z :=
  match v with VBigInt z => Some z | _ => bigIntOf (jsToString (orElse v (VNumber 0))) end.

(** ** Sorting *)

Record SortItem := { it_input : OnChainProjectionInput; it_sequence : Z; it_rank : Z; it_fingerprint : string }.

Definition itemOf (fallbackSequence : nat) (input : OnChainProjectionInput) : SortItem := {|
  it_input := input;
  it_sequence := default (Z.of_nat fallbackSequence) (i_sourceEventSequence input);
  it_rank := eventSortRank (default (i_eventName input) (mget TRAJECTORY_EVENT_BY_SOURCE (i_eventName input)));
  it_fingerprint := buildFingerprint (i_slot input) (i_signature input) (i_eventName input) (i_event input) |}.

(** [if (a !== b) return a.localeCompare(b)], and otherwise [rest]. *)
Definition thenText (a b : string) (rest : comparison) : comparison := if String.eqb a b then rest else localeCompare a b.
Definition thenNumber (a b : Z) (rest : comparison) : comparison := match Z.compare a b with Eq => rest | c => c end.

Definition compareItems (left right : SortItem) : comparison :=
  let a := it_input left in
  let b := it_input right in
  thenNumber (i_slot a) (i_slot b)
    (thenText (i_signature a) (i_signature b)
      (thenNumber (it_rank left) (it_rank right)
        (thenText (i_eventName a) (i_eventName b)
          (thenText (it_fingerprint left) (it_fingerprint right) (Z.compare (it_sequence left) (it_sequence right)))))).

Definition sortedInputs (events : list OnChainProjectionInput) : list SortItem := sort_by compareItems (imap itemOf events).

(** ** The loop *)

Record Projector := {
  eventIds : list string;
  taskStates : jsmap string;
  disputeStates : jsmap string;
  speculationStates : jsmap string;
  disputes : jsmap DisputeReplayState;
  projected : list ProjectedTimelineEvent;
  telemetry : ProjectionTelemetry;
}.

Definition newProjector (n : nat) : Projector := {|
  eventIds := []; taskStates := []; disputeStates := []; speculationStates := []; disputes := []; projected := [];
  telemetry := {| totalInputs := Z.of_nat n; projectedEvents := 0; duplicatesDropped := 0; unknownEvents := []; transitionConflicts := [];
    transitionViolations := []; malformedInputs := [] |} |}.

Definition with_telemetry (t : ProjectionTelemetry) (s : Projector) : Projector := {|
  eventIds := eventIds s; taskStates := taskStates s; disputeStates := disputeStates s; speculationStates := speculationStates s;
  disputes := disputes s; projected := projected s; telemetry := t |}.

Definition addMalformed (m : string) (t : ProjectionTelemetry) : ProjectionTelemetry := {|
  totalInputs := totalInputs t; projectedEvents := projectedEvents t; duplicatesDropped := duplicatesDropped t; unknownEvents := unknownEvents t;
  transitionConflicts := transitionConflicts t; transitionViolations := transitionViolations t; malformedInputs := malformedInputs t ++ [m] |}.

Definition addUnknown (m : string) (t : ProjectionTelemetry) : ProjectionTelemetry := {|
  totalInputs := totalInputs t; projectedEvents := projectedEvents t; duplicatesDropped := duplicatesDropped t; unknownEvents := unknownEvents t ++ [m];
  transitionConflicts := transitionConflicts t; transitionViolations := transitionViolations t; malformedInputs := malformedInputs t |}.

Definition addDuplicate (t : ProjectionTelemetry) : ProjectionTelemetry := {|
  totalInputs := totalInputs t; projectedEvents := projectedEvents t; duplicatesDropped := duplicatesDropped t + 1; unknownEvents := unknownEvents t;
  transitionConflicts := transitionConflicts t; transitionViolations := transitionViolations t; malformedInputs := malformedInputs t |}.

Definition addConflict (m : string) (t : ProjectionTelemetry) : ProjectionTelemetry := {|
  totalInputs := totalInputs t; projectedEvents := projectedEvents t; duplicatesDropped := duplicatesDropped t; unknownEvents := unknownEvents t;
  transitionConflicts := transitionConflicts t ++ [m]; transitionViolations := transitionViolations t; malformedInputs := malformedInputs t |}.

Definition addViolation (v : TransitionValidationViolation) (t : ProjectionTelemetry) : ProjectionTelemetry := {|
  totalInputs := totalInputs t; projectedEvents := projectedEvents t; duplicatesDropped := duplicatesDropped t; unknownEvents := unknownEvents t;
  transitionConflicts := transitionConflicts t ++ [transitionViolationMessage v]; transitionViolations := transitionViolations t ++ [v];
  malformedInputs := malformedInputs t |}.

Definition countProjected (t : ProjectionTelemetry) : ProjectionTelemetry := {|
  totalInputs := totalInputs t; projectedEvents := projectedEvents t + 1; duplicatesDropped := duplicatesDropped t; unknownEvents := unknownEvents t;
  transitionConflicts := transitionConflicts t; transitionViolations := transitionViolations t; malformedInputs := malformedInputs t |}.

(** The check of one lifecycle: the new states and the telemetry. *)
Definition track (scope : ReplayLifecycleType) (transitions : jsmap (list string)) (starts : list string) (item : SortItem)
    (entity next : string) (st : jsmap string * ProjectionTelemetry) : jsmap string * ProjectionTelemetry :=
  (mset entity next st.1,
   match validateTransition {| o_scope := scope; o_entityId := entity; o_eventName := i_eventName (it_input item); o_eventType := next;
           o_previousState := mget st.1 entity; o_nextState := next; o_signature := i_signature (it_input item); o_slot := i_slot (it_input item);
           o_sourceEventSequence := it_sequence item; o_transitions := transitions; o_allowedStarts := starts |} with
   | Some v => addViolation v st.2
   | None => st.2
   end).

(** A PDA that is present and not empty. *)
Definition present (o : option string) : option string := match o with Some EmptyString => None | _ => o end.

Definition conflictMessage (kind missing : string) (input : OnChainProjectionInput) : string :=
  kind +:+ ":" +:+ i_eventName input +:+ "@" +:+ i_signature input +:+ ": " +:+ missing.

(** The task block: the event's own transition, and for a dispute the secondary
    transition of the task to [disputed]. *)
Definition ownTransition (item : SortItem) (type : string) (ctx : Context) (st : jsmap string * ProjectionTelemetry)
    : jsmap string * ProjectionTelemetry :=
  if has TASK_EVENT_TYPES type then
    match present (taskPda ctx) with
    | None => (st.1, addConflict (conflictMessage "task" "missing_task_id" (it_input item)) st.2)
    | Some task => track scope_task TASK_TRANSITIONS TASK_START_EVENTS item task type st
    end
  else st.

Definition disputesTask (item : SortItem) (ctx : Context) (states : jsmap string) : option string :=
  if String.eqb (i_eventName (it_input item)) "disputeInitiated" then
    match present (taskPda ctx) with
    | Some task => previous ← mget states task; if has (default [] (mget TASK_TRANSITIONS previous)) "disputed" then Some task else None
    | None => None
    end
  else None.

Definition trackTask (item : SortItem) (type : string) (ctx : Context) (st : jsmap string * ProjectionTelemetry)
    : jsmap string * ProjectionTelemetry :=
  let st := ownTransition item type ctx st in
  match disputesTask item ctx st.1 with
  | Some task => track scope_task TASK_TRANSITIONS TASK_START_EVENTS item task "disputed" st
  | None => st
  end.

Definition with_status (status : string) (d : DisputeReplayState) : DisputeReplayState := {|
  d_disputeId := d_disputeId d; d_taskId := d_taskId d; d_status := status; d_votesFor := d_votesFor d; d_votesAgainst := d_votesAgainst d;
  d_totalVoters := d_totalVoters d; d_voterSignatures := d_voterSignatures d; d_resolutionOutcome := d_resolutionOutcome d;
  d_slashApplied := d_slashApplied d; d_initiatorSlashApplied := d_initiatorSlashApplied d; d_resolvedAtSlot := d_resolvedAtSlot d |}.

(** The accumulated state of a dispute; [None] when BigInt throws. *)
Definition replayDispute (input : OnChainProjectionInput) (ctx : Context) (dispute : string) (ds : jsmap DisputeReplayState)
    : option (jsmap DisputeReplayState) :=
  let name := i_eventName input in
  if String.eqb name "disputeInitiated" then
    Some (mset dispute {| d_disputeId := dispute; d_taskId := default "" (taskPda ctx); d_status := "dispute:initiated"; d_votesFor := 0;
      d_votesAgainst := 0; d_totalVoters := 0; d_voterSignatures := []; d_resolutionOutcome := None; d_slashApplied := false;
      d_initiatorSlashApplied := false; d_resolvedAtSlot := None |} ds)
  else match mget ds dispute with
    | None => Some ds
    | Some d =>
        if String.eqb name "disputeVoteCast" then
          votesFor ← votesOf (eventField (i_event input) "votesFor");
          votesAgainst ← votesOf (eventField (i_event input) "votesAgainst");
          Some (mset dispute {| d_disputeId := d_disputeId d; d_taskId := d_taskId d; d_status := "dispute:vote_cast"; d_votesFor := votesFor;
            d_votesAgainst := votesAgainst; d_totalVoters := d_totalVoters d + 1; d_voterSignatures := d_voterSignatures d ++ [i_signature input];
            d_resolutionOutcome := d_resolutionOutcome d; d_slashApplied := d_slashApplied d;
            d_initiatorSlashApplied := d_initiatorSlashApplied d; d_resolvedAtSlot := d_resolvedAtSlot d |} ds)
        else if String.eqb name "disputeResolved" then
          Some (mset dispute {| d_disputeId := d_disputeId d; d_taskId := d_taskId d; d_status := "dispute:resolved"; d_votesFor := d_votesFor d;
            d_votesAgainst := d_votesAgainst d; d_totalVoters := d_totalVoters d; d_voterSignatures := d_voterSignatures d;
            d_resolutionOutcome := match eventField (i_event input) "outcome" with VNumber z => Some z | _ => None end;
            d_slashApplied := d_slashApplied d; d_initiatorSlashApplied := d_initiatorSlashApplied d;
            d_resolvedAtSlot := Some (i_slot input) |} ds)
        else if String.eqb name "disputeCancelled" then Some (mset dispute (with_status "dispute:cancelled" d) ds)
        else if String.eqb name "disputeExpired" then Some (mset dispute (with_status "dispute:expired" d) ds)
        else Some ds
    end.

Definition traceField (input : OnChainProjectionInput) : list (string * JsonValue) :=
  match i_traceContext input with
  | None => []
  | Some t => [("trace", ObjectJ ([("traceId", TextJ (tc_traceId t)); ("spanId", TextJ (tc_spanId t))] ++
      match tc_parentSpanId t with None => [] | Some p => [("parentSpanId", TextJ p)] end ++ [("sampled", BoolJ (tc_sampled t))]))]
  end.

(** The payload with the on-chain context, as it leaves the final pass. *)
Definition payloadOf (input : OnChainProjectionInput) (type : string) (orderedSequence : Z) : list (string * JsonValue) :=
  match resanitize (ObjectJ (mset "onchain" (ObjectJ ([("eventName", TextJ (i_eventName input)); ("eventType", TextJ type);
      ("signature", TextJ (i_signature input)); ("slot", NumberJ (i_slot input)); ("sourceEventSequence", NumberJ orderedSequence)] ++
      traceField input)) (sanitizePayload (i_event input)))) with
  | ObjectJ fields => fields
  | _ => []
  end.

Definition projectEvent (s : Projector) (orderedSequence : Z) (item : SortItem) (type : string) (ctx : Context)
    : ProjectedTimelineEvent :=
  let input := it_input item in {|
  p_seq := Z.of_nat (length (projected s)) + 1; p_type := type;
  p_taskPda := match taskPda ctx with Some t => Some t | None => if has SPECULATION_EVENT_TYPES type then speculationPda ctx else None end;
  p_timestampMs := resolveTimestamp input; p_payload := payloadOf input type orderedSequence;
  p_slot := i_slot input; p_signature := i_signature input; p_sourceEventName := i_eventName input;
  p_sourceEventSequence := orderedSequence |}.

Inductive projection_error := BigIntSyntax | StrictProjectionFailed (conflicts : list string).

Definition trackDispute (item : SortItem) (type : string) (ctx : Context) (ds : jsmap DisputeReplayState)
    (st : jsmap string * ProjectionTelemetry) : option (jsmap DisputeReplayState * (jsmap string * ProjectionTelemetry)) :=
  if has DISPUTE_LIFECYCLE_EVENT_TYPES type then
    match present (disputePda ctx) with
    | None => Some (ds, (st.1, addConflict (conflictMessage "dispute" "missing_dispute_id" (it_input item)) st.2))
    | Some d =>
        let st := track scope_dispute DISPUTE_TRANSITIONS DISPUTE_START_EVENTS item d type st in
        ds ← replayDispute (it_input item) ctx d ds; Some (ds, st)
    end
  else Some (ds, st).

Definition speculationKey (ctx : Context) : option string := match speculationPda ctx with Some k => Some k | None => taskPda ctx end.

Definition trackSpeculation (item : SortItem) (type : string) (ctx : Context) (st : jsmap string * ProjectionTelemetry)
    : jsmap string * ProjectionTelemetry :=
  if has SPECULATION_EVENT_TYPES type then
    match present (speculationKey ctx) with
    | Some k => track scope_speculation SPECULATION_TRANSITIONS SPECULATION_START_EVENTS item k type st
    | None => st
    end
  else st.

(** The body of the loop for an event that is projected. *)
Definition acceptItem (s : Projector) (orderedSequence : Z) (item : SortItem) (type : string) : result projection_error Projector :=
  let ctx := getContext (i_eventName (it_input item)) (i_event (it_input item)) in
  let '(tasks, t) := trackTask item type ctx (taskStates s, telemetry s) in
  match trackDispute item type ctx (disputes s) (disputeStates s, t) with
  | None => Err BigIntSyntax
  | Some (ds, (dstates, t)) =>
      let '(specs, t) := trackSpeculation item type ctx (speculationStates s, t) in
      Ok {| eventIds := eventIds s ++ [it_fingerprint item]; taskStates := tasks; disputeStates := dstates; speculationStates := specs;
            disputes := ds; projected := projected s ++ [projectEvent s orderedSequence item type ctx]; telemetry := countProjected t |}
  end.

Definition projectItem (s : Projector) (entry : nat * SortItem) : result projection_error Projector :=
  let '(orderedSequence, item) := entry in
  let input := it_input item in
  if isEmpty (i_eventName input) then Ok (with_telemetry (addMalformed "invalid_projection_input" (telemetry s)) s)
  else if i_slot input <? 0 then Ok (with_telemetry (addMalformed ("invalid_slot:" +:+ i_eventName input) (telemetry s)) s)
  else if isEmpty (i_signature input) then Ok (with_telemetry (addMalformed ("invalid_signature:" +:+ i_eventName input) (telemetry s)) s)
  else match mget TRAJECTORY_EVENT_BY_SOURCE (i_eventName input) with
    | None => Ok (with_telemetry (addUnknown (i_eventName input) (telemetry s)) s)
    | Some type =>
        if has (eventIds s) (it_fingerprint item) then Ok (with_telemetry (addDuplicate (telemetry s)) s)
        else acceptItem s (Z.of_nat orderedSequence) item type
    end.

Definition runProjection (events : list OnChainProjectionInput) : result projection_error Projector :=
  foldM projectItem (newProjector (length events)) (imap pair (sortedInputs events)).

(** [projectOnChainEvents]: the events, the disputes and the telemetry. *)
Definition projectOnChainEvents (events : list OnChainProjectionInput) (strictProjection : bool) : result projection_error Projector :=
  s ← runProjection events;
  if strictProjection && negb (match transitionViolations (telemetry s) with [] => true | _ => false end)
  then Err (StrictProjectionFailed (transitionConflicts (telemetry s))) else Ok s.

End projector.
