(* ===== verification/ProjectionJson.v ===== *)
(** * JSON texts determine their values: fingerprints identify events *)
From stdpp Require Import pretty.
From S2P Require Import Prelude JsMap JsString Encoding Transitions Projection.
#[local] Open Scope string_scope.
#[local] Open Scope Z_scope.

(** ** Numbers and texts *)

(** Texts of one class of characters, ended by another, can be cut in one way. *)
Definition endsClass (p : Ascii.ascii -> bool) (x : string) : Prop := match x with EmptyString => True | String c _ => p c = false end.

Lemma span_unique p s t x y : sall p s = true -> sall p t = true -> endsClass p x -> endsClass p y ->
  s +:+ x = t +:+ y -> s = t /\ x = y.
Proof.
  revert t. induction s as [|c s IH]; intros [|d t] Hs Ht Hx Hy He; rewrite ?string_app_nil, ?string_app_cons in He; cbn in *.
  - done.
  - rewrite He in Hx. cbn in Hx. apply andb_true_iff in Ht as [Hd _]. congruence.
  - rewrite <- He in Hy. cbn in Hy. apply andb_true_iff in Hs as [Hc _]. congruence.
  - apply andb_true_iff in Hs as [_ Hs], Ht as [_ Ht]. injection He as -> He. by destruct (IH t Hs Ht Hx Hy He) as [-> ->].
Qed.

(** ** Values *)

Lemma JsonValue_induction (P : JsonValue -> Prop) : P NullJ -> (forall s, P (TextJ s)) -> (forall z, P (NumberJ z)) -> (forall b, P (BoolJ b)) ->
  (forall l, Forall P l -> P (ArrayJ l)) -> (forall fields, Forall (fun kv => P kv.2) fields -> P (ObjectJ fields)) -> forall v, P v.
Proof.
  intros Hn Ht Hz Hb Ha Ho. fix IH 1. intros [|s|z|b|l|fields]; [done|apply Ht|apply Hz|apply Hb|apply Ha|apply Ho].
  - induction l; constructor; auto.
  - induction fields as [|[k v] l IHl]; constructor; [apply IH|apply IHl].
Qed.

Section stringify.
Context (quote : string -> string).

(** What JSON string literals are: they start with a quotation mark, and their
    end can be told. *)
Hypothesis quote_head : forall s, exists rest, quote s = String (Ascii.ascii_of_nat 34) rest.
Hypothesis quote_delimited : forall a b x y, quote a +:+ x = quote b +:+ y -> a = b /\ x = y.

(** What may follow a value: nothing, a comma or a closing bracket. *)
Definition delimiter (x : string) : Prop :=
  x = "" \/ exists c rest, x = String c rest /\ (code c = 44 \/ code c = 93 \/ code c = 125).

Lemma delimiter_ends x : delimiter x -> endsClass numberChar x.
Proof.
  intros [-> |(c & rest & -> & Hc)]; [done|]. unfold endsClass, numberChar. destruct Hc as [-> |[-> | ->]]; done.
Qed.

(** The first character tells the kind of the value. *)
Definition headOf (s : string) : Z := match s with EmptyString => -1 | String c _ => code c end.

Lemma headOf_app s x : s <> "" -> headOf (s +:+ x) = headOf s.
Proof. by destruct s. Qed.

Definition kindHead (v : JsonValue) (n : Z) : Prop :=
  match v with
  | NullJ => n = 110
  | TextJ _ => n = 34
  | NumberJ _ => 48 <= n <= 57 \/ n = 45
  | BoolJ true => n = 116
  | BoolJ false => n = 102
  | ArrayJ _ => n = 91
  | ObjectJ _ => n = 123
  end.

Lemma stringify_head v x : kindHead v (headOf (stringify quote v +:+ x)).
Proof.
  destruct v as [|s|z|[]|l|fields]; cbn; try done.
  - destruct (quote_head s) as [rest ->]. done.
  - destruct (pretty_Z_chars z) as [Hc Hn]. rewrite headOf_app by done. destruct (pretty z) as [|c s]; [done|]. cbn in *.
    apply andb_true_iff in Hc as [Hc _]. unfold numberChar in Hc. lia.
Qed.

Definition cuts (v : JsonValue) : Prop :=
  forall w x y, delimiter x -> delimiter y -> stringify quote v +:+ x = stringify quote w +:+ y -> v = w /\ x = y.

Lemma char_eq c d (x y : string) : String c "" +:+ x = String d "" +:+ y -> c = d /\ x = y.
Proof. rewrite !string_app_cons, !string_app_nil. by intros [= -> ->]. Qed.

Lemma concat_one sep a : String.concat sep [a] = a.
Proof. done. Qed.

Lemma concat_cons2 sep a b l : String.concat sep (a :: b :: l) = a +:+ (sep +:+ String.concat sep (b :: l)).
Proof. done. Qed.

(** The elements of an array, up to its closing bracket. *)
Lemma elements_cut l : Forall cuts l -> forall l' x y,
  String.concat "," (map (stringify quote) l) +:+ ("]" +:+ x) = String.concat "," (map (stringify quote) l') +:+ ("]" +:+ y) -> l = l' /\ x = y.
Proof.
  assert (Hclose : forall x, delimiter ("]" +:+ x)) by (intros x; right; by eexists _, _; split; [reflexivity|right; left]).
  assert (Hcomma : forall x, delimiter ("," +:+ x)) by (intros x; right; by eexists _, _; split; [reflexivity|left]).
  assert (Hhead : forall v x y, stringify quote v +:+ x <> "]" +:+ y).
  { intros v x y He. pose proof (stringify_head v x) as Hk. rewrite He in Hk. change (headOf ("]" +:+ y)) with 93 in Hk. destruct v as [|?|?|[]|?|?]; cbn in Hk; lia. }
  induction 1 as [|v l Hv Hl IH]; intros [|w l'] x y He.
  - cbn [map String.concat] in He. rewrite !string_app_nil in He. by apply char_eq in He as [_ ->].
  - exfalso. symmetry in He. destruct l'; cbn [map String.concat fst snd] in He; rewrite ?string_app_assoc, ?string_app_nil in He; by apply Hhead in He.
  - exfalso. destruct l; cbn [map String.concat fst snd] in He; rewrite ?string_app_assoc, ?string_app_nil in He; by apply Hhead in He.
  - destruct l as [|v2 l], l' as [|w2 l']; cbn [map String.concat] in He; rewrite ?string_app_assoc in He.
    + apply Hv in He as [-> He]; [|auto..]. by apply char_eq in He as [_ ->].
    + apply Hv in He as [-> He]; [|auto..]. by apply char_eq in He as [? _].
    + apply Hv in He as [-> He]; [|auto..]. by apply char_eq in He as [? _].
    + apply Hv in He as [-> He]; [|auto..]. apply char_eq in He as [_ He]. apply (IH (w2 :: l')) in He as [[= -> ->] ->]. done.
Qed.

(** The fields of an object, up to its closing bracket. *)
Lemma fields_cut l : Forall (fun kv => cuts kv.2) l -> forall l' x y,
  String.concat "," (map (fun kv => quote kv.1 +:+ ":" +:+ stringify quote kv.2) l) +:+ ("}" +:+ x) =
  String.concat "," (map (fun kv => quote kv.1 +:+ ":" +:+ stringify quote kv.2) l') +:+ ("}" +:+ y) -> l = l' /\ x = y.
Proof.
  assert (Hclose : forall x, delimiter ("}" +:+ x)) by (intros x; right; by eexists _, _; split; [reflexivity|right; right]).
  assert (Hcomma : forall x, delimiter ("," +:+ x)) by (intros x; right; by eexists _, _; split; [reflexivity|left]).
  assert (Hhead : forall k x y, quote k +:+ x <> "}" +:+ y) by (intros k x y He; by destruct (quote_head k) as [rest Hq]; rewrite Hq in He).
  induction 1 as [|[k v] l Hv Hl IH]; intros [|[k' w] l'] x y He.
  - cbn [map String.concat] in He. rewrite !string_app_nil in He. by apply char_eq in He as [_ ->].
  - exfalso. symmetry in He. destruct l'; cbn [map String.concat fst snd] in He; rewrite ?string_app_assoc, ?string_app_nil in He; by apply Hhead in He.
  - exfalso. destruct l; cbn [map String.concat fst snd] in He; rewrite ?string_app_assoc, ?string_app_nil in He; by apply Hhead in He.
  - cbn [snd] in Hv. destruct l as [|v2 l], l' as [|w2 l']; cbn [map fst snd] in He; rewrite ?concat_cons2, ?concat_one, ?string_app_assoc in He;
      apply quote_delimited in He as [-> He]; apply char_eq in He as [_ He]; (apply Hv in He as [-> He]; [|auto..]); apply char_eq in He as [Hc He]; try done.
    apply (IH (w2 :: l')) in He as [[= -> ->] ->]. done.
Qed.

(** A value can be read back from its text, whatever follows. *)
Lemma stringify_cuts v : cuts v.
Proof.
  induction v as [|s|z|b|l Hl|fields Hl] using JsonValue_induction; intros w x y Hx Hy He;
    pose proof (stringify_head w y) as Hw; rewrite <- He in Hw;
    [pose proof (stringify_head NullJ x) as Hv|pose proof (stringify_head (TextJ s) x) as Hv|pose proof (stringify_head (NumberJ z) x) as Hv|
     pose proof (stringify_head (BoolJ b) x) as Hv|pose proof (stringify_head (ArrayJ l) x) as Hv|pose proof (stringify_head (ObjectJ fields) x) as Hv];
    set (n := headOf _) in Hw, Hv; clearbody n; unfold kindHead in Hw, Hv; try destruct b; destruct w as [|?|?|[]|?|?]; try lia; cbn [stringify] in He.
  - split; [done|]. by apply (inj (String.append "null")).
  - by apply quote_delimited in He as [-> ->].
  - destruct (pretty_Z_chars z) as [Hz _], (pretty_Z_chars z0) as [Hz0 _].
    apply (span_unique numberChar) in He as [He ->]; [|done|done|by apply delimiter_ends|by apply delimiter_ends].
    by apply (inj pretty) in He as ->.
  - split; [done|]. by apply (inj (String.append "true")).
  - split; [done|]. by apply (inj (String.append "false")).
  - rewrite !string_app_assoc in He. apply char_eq in He as [_ He]. by apply elements_cut in He as [-> ->].
  - rewrite !string_app_assoc in He. apply char_eq in He as [_ He]. by apply fields_cut in He as [-> ->].
Qed.

Lemma stringify_inj v w : stringify quote v = stringify quote w -> v = w.
Proof.
  intros He. destruct (stringify_cuts v w "" "") as [-> _]; [by left|by left| |done]. by rewrite He.
Qed.

Lemma fingerprint_key `{Collation} slot signature eventName event slot' signature' eventName' event' :
  buildFingerprint quote slot signature eventName event = buildFingerprint quote slot' signature' eventName' event' ->
  slot = slot' /\ signature = signature' /\ eventName = eventName'.
Proof. intros He. apply stringify_inj in He. cbn in He. by injection He as _ <- <- <-. Qed.

(** Equal fingerprints are fingerprints of one event: its slot, its
    signature and its name, and the canonical form of its payload. *)
Theorem fingerprint_identifies `{Collation} slot signature eventName event slot' signature' eventName' event' :
  buildFingerprint quote slot signature eventName event = buildFingerprint quote slot' signature' eventName' event' ->
  slot = slot' /\ signature = signature' /\ eventName = eventName' /\
  canonicalizeJson (ObjectJ (sanitizePayload event)) = canonicalizeJson (ObjectJ (sanitizePayload event')).
Proof. intros He. apply stringify_inj in He. cbn in He. injection He as He <- <- <-. split_and!; try done. cbn. by f_equal. Qed.
End stringify.

(** ** String literals *)

Definition dquote : Ascii.ascii := Ascii.ascii_of_nat 34.
Definition backslash : Ascii.ascii := Ascii.ascii_of_nat 92.

(** The literal of a text of printable characters. *)
Fixpoint escape (s : string) : string :=
  match s with
  | EmptyString => ""
  | String c rest => if Ascii.eqb c dquote || Ascii.eqb c backslash then String backslash (String c (escape rest)) else String c (escape rest)
  end.

Definition jsonQuote (s : string) : string := String dquote (escape s +:+ String dquote "").

Lemma jsonQuote_head s : exists rest, jsonQuote s = String (Ascii.ascii_of_nat 34) rest.
Proof. by eexists. Qed.

Lemma escape_delimited a : forall b x y, escape a +:+ String dquote x = escape b +:+ String dquote y -> a = b /\ x = y.
Proof.
  induction a as [|c a IH]; intros [|d b] x y; cbn [escape]; rewrite ?string_app_nil.
  - by intros [= ->].
  - destruct (Ascii.eqb_spec d dquote) as [->|Hd]; cbn [orb]; [by intros [=]|]. destruct (Ascii.eqb_spec d backslash) as [->|?]; [by intros [=]|].
    rewrite string_app_cons. intros [= ? _]. congruence.
  - destruct (Ascii.eqb_spec c dquote) as [->|Hd]; cbn [orb]; [by intros [=]|]. destruct (Ascii.eqb_spec c backslash) as [->|?]; [by intros [=]|].
    rewrite string_app_cons. intros [= ? _]. congruence.
  - destruct (Ascii.eqb c dquote || Ascii.eqb c backslash) eqn:Hc, (Ascii.eqb d dquote || Ascii.eqb d backslash) eqn:Hd; rewrite !string_app_cons.
    + intros [= -> He]. by apply IH in He as [-> ->].
    + intros [= <- _]. by rewrite orb_true_r in Hd.
    + intros [= -> _]. by rewrite orb_true_r in Hc.
    + intros [= -> He]. by apply IH in He as [-> ->].
Qed.

Lemma jsonQuote_delimited a b x y : jsonQuote a +:+ x = jsonQuote b +:+ y -> a = b /\ x = y.
Proof.
  unfold jsonQuote. rewrite !string_app_cons, !string_app_assoc, !string_app_cons, !string_app_nil. intros [= He]. by apply escape_delimited in He.
Qed.

Lemma fingerprint_identifies_witness :
  canonicalizeJson (ObjectJ (sanitizePayload (VObject [("a", VBigInt 1); ("b", VNull)]))) =
  canonicalizeJson (ObjectJ (sanitizePayload (VObject [("b", VNull); ("a", VText "1")]))).
Proof.
  destruct (fingerprint_identifies jsonQuote jsonQuote_head jsonQuote_delimited (H:=rootCollation) 5 "sig" "taskCreated" (VObject [("a", VBigInt 1); ("b", VNull)])
    5 "sig" "taskCreated" (VObject [("b", VNull); ("a", VText "1")]) ltac:(vm_compute; reflexivity)) as (_ & _ & _ & H). exact H.
Defined.
