(* ===== verification/ProjectionOrder.v ===== *)
(** * The projection does not depend on the order of its inputs *)
From stdpp Require Import pretty sorting.
From S2P Require Import Prelude JsMap JsString Encoding Transitions Projection.
#[local] Open Scope string_scope.
#[local] Open Scope Z_scope.

(** ** Comparators *)

(** A consistent comparator. *)
Record ordered {A} (c : A -> A -> comparison) : Prop := {
  ord_opp : forall a b, c b a = CompOpp (c a b);
  ord_trans : forall a b d, c a b <> Gt -> c b d <> Gt -> c a d <> Gt;
}.

Definition lex {A} (c1 c2 : A -> A -> comparison) (a b : A) : comparison := match c1 a b with Eq => c2 a b | o => o end.

Lemma ordered_on {A B} (f : A -> B) c : ordered c -> ordered (fun a b => c (f a) (f b)).
Proof. intros [O T]. split; [intros a b; apply O|intros a b d; apply T]. Qed.

Lemma ordered_lex {A} (c1 c2 : A -> A -> comparison) : ordered c1 -> ordered c2 -> ordered (lex c1 c2).
Proof.
  intros [O1 T1] [O2 T2]. unfold lex. split.
  - intros a b. rewrite (O1 a b). destruct (c1 a b); cbn; [apply O2|done..].
  - intros a b d. pose proof (T1 a b d) as Hab. pose proof (T1 b d a) as Hba. pose proof (T1 d a b) as Hda.
    pose proof (O1 a b) as Ob. pose proof (O1 b d) as Od. pose proof (O1 a d) as Oa. specialize (T2 a b d).
    destruct (c1 a b) eqn:E1, (c1 b d) eqn:E2, (c1 a d) eqn:E3; cbn in *; try done; try (by apply Hab); try (by rewrite Ob, Oa in *; naive_solver).
Qed.

Lemma ordered_ext {A} (c1 c2 : A -> A -> comparison) : (forall a b, c2 a b = c1 a b) -> ordered c1 -> ordered c2.
Proof. intros He [O T]. split; [intros a b; rewrite !He; apply O|intros a b d; rewrite !He; apply T]. Qed.

Lemma ordered_Transitive {A} (c : A -> A -> comparison) (Ho : ordered c) : Transitive (fun a b => c a b <> Gt).
Proof. intros a b d. apply (ord_trans c Ho). Qed.

Lemma StronglySorted_map {A B} (R : A -> A -> Prop) (S : B -> B -> Prop) (f : A -> B) l :
  StronglySorted R l -> (forall x y, x ∈ l -> y ∈ l -> R x y -> S (f x) (f y)) -> StronglySorted S (map f l).
Proof.
  induction 1 as [|x l Hl IH HF]; intros Hs; cbn; [constructor|]. constructor.
  - apply IH. intros a b Ha Hb. apply Hs; by constructor.
  - apply Forall_map, Forall_forall. intros y Hy. apply Hs; [constructor|by constructor|]. by eapply Forall_forall in HF.
Qed.

Lemma ordered_Z : ordered Z.compare.
Proof.
  split; [intros a b; apply Z.compare_antisym|]. intros a b d. rewrite !Z.compare_le_iff. lia.
Qed.

Lemma ordered_locale `{Collation} : ordered localeCompare.
Proof. split; [apply localeCompare_opp|apply localeCompare_trans]. Qed.

(** ** Inputs up to their sequence number *)

Definition dropSeq (i : OnChainProjectionInput) : OnChainProjectionInput := {|
  i_eventName := i_eventName i; i_event := i_event i; i_slot := i_slot i; i_signature := i_signature i; i_timestampMs := i_timestampMs i;
  i_traceContext := i_traceContext i; i_sourceEventSequence := None |}.

Section projector.
Context `{Collation} (base58 : list Z -> string) (quote : string -> string).

(** The collation tells different strings apart. *)
Hypothesis collation_separates : forall a b, localeCompare a b = Eq -> a = b.

Notation fingerprintOf i := (buildFingerprint quote (i_slot i) (i_signature i) (i_eventName i) (i_event i)).
Notation rankOf i := (eventSortRank (default (i_eventName i) (mget TRAJECTORY_EVENT_BY_SOURCE (i_eventName i)))).

(** The order of the inputs, without the sequence number. *)
Definition compareKeys : OnChainProjectionInput -> OnChainProjectionInput -> comparison :=
  lex (fun a b => Z.compare (i_slot a) (i_slot b)) (lex (fun a b => localeCompare (i_signature a) (i_signature b))
    (lex (fun a b => Z.compare (rankOf a) (rankOf b)) (lex (fun a b => localeCompare (i_eventName a) (i_eventName b))
      (fun a b => localeCompare (fingerprintOf a) (fingerprintOf b))))).

Lemma locale_refl a : localeCompare a a = Eq.
Proof. pose proof (localeCompare_opp a a) as Ho. by destruct (localeCompare a a). Qed.

Lemma thenText_lex a b r : thenText a b r = match localeCompare a b with Eq => r | o => o end.
Proof.
  unfold thenText. destruct (String.eqb_spec a b) as [->|Hn]; [by rewrite locale_refl|].
  destruct (localeCompare a b) eqn:E; [by apply collation_separates in E|done..].
Qed.

Lemma compareItems_lex n m a b :
  compareItems (itemOf quote n a) (itemOf quote m b) =
  match compareKeys a b with Eq => Z.compare (it_sequence (itemOf quote n a)) (it_sequence (itemOf quote m b)) | o => o end.
Proof.
  unfold compareItems, compareKeys, lex, thenNumber. rewrite !thenText_lex. cbn [it_input it_rank it_fingerprint itemOf].
  repeat (case_match; try done).
Qed.

Lemma ordered_keys : ordered compareKeys.
Proof.
  pose proof ordered_Z. pose proof ordered_locale. unfold compareKeys.
  repeat apply ordered_lex; first [by apply (ordered_on i_slot)|by apply (ordered_on i_signature)|
    by apply (ordered_on i_eventName)|by apply (ordered_on (fun i => rankOf i))|by apply (ordered_on (fun i => fingerprintOf i))].
Qed.

(** Inputs that compare equal are the same event. *)
Lemma compareKeys_Eq a b : compareKeys a b = Eq ->
  i_slot a = i_slot b /\ i_signature a = i_signature b /\ i_eventName a = i_eventName b /\ fingerprintOf a = fingerprintOf b.
Proof.
  unfold compareKeys, lex. destruct (Z.compare_spec (i_slot a) (i_slot b)) as [Hs| |]; [|done..].
  destruct (localeCompare (i_signature a) _) eqn:E1; [|done..]. destruct (Z.compare (rankOf a) _); [|done..].
  destruct (localeCompare (i_eventName a) _) eqn:E2; [|done..]. intros E3. auto using collation_separates.
Qed.

Lemma compareKeys_drop a b : compareKeys (dropSeq a) (dropSeq b) = compareKeys a b.
Proof. done. Qed.

Definition keyLe (a b : OnChainProjectionInput) : Prop := compareKeys a b <> Gt.

Lemma ordered_items : ordered compareItems.
Proof.
  pose proof ordered_Z. pose proof ordered_locale.
  apply (ordered_ext (lex (fun x y => Z.compare (i_slot (it_input x)) (i_slot (it_input y)))
    (lex (fun x y => localeCompare (i_signature (it_input x)) (i_signature (it_input y)))
      (lex (fun x y => Z.compare (it_rank x) (it_rank y)) (lex (fun x y => localeCompare (i_eventName (it_input x)) (i_eventName (it_input y)))
        (lex (fun x y => localeCompare (it_fingerprint x) (it_fingerprint y)) (fun x y => Z.compare (it_sequence x) (it_sequence y)))))))).
  - intros x y. unfold compareItems, lex, thenNumber. by rewrite !thenText_lex.
  - repeat apply ordered_lex; first [by apply (ordered_on (fun x => i_slot (it_input x)))|by apply (ordered_on (fun x => i_signature (it_input x)))|
      by apply (ordered_on (fun x => i_eventName (it_input x)))|by apply (ordered_on it_rank)|by apply (ordered_on it_fingerprint)|
      by apply (ordered_on it_sequence)].
Qed.

Notation sorted l := (sortedInputs quote l).

Lemma sorted_perm l : map it_input (sorted l) ≡ₚ l.
Proof.
  unfold sortedInputs. rewrite sort_by_perm. assert (Hm : forall f, (forall n i, it_input (f n i) = i) -> map it_input (imap f l) = l).
  { induction l as [|i l IH]; intros f Hf; cbn; [done|]. rewrite Hf. f_equal. apply IH. intros n j. apply Hf. }
  by rewrite Hm.
Qed.

(** Every item is the one of its input. *)
Lemma sorted_items l x : x ∈ sorted l -> exists n, x = itemOf quote n (it_input x).
Proof.
  unfold sortedInputs. rewrite sort_by_elem_of, list_elem_of_lookup. intros (k & Hk). rewrite list_lookup_imap in Hk.
  apply fmap_Some in Hk as (i & _ & ->). by exists k.
Qed.

Lemma sorted_keys l : StronglySorted keyLe (map (fun x => dropSeq (it_input x)) (sorted l)).
Proof.
  pose proof (ordered_Transitive _ ordered_items). apply (StronglySorted_map (fun x y => compareItems x y <> Gt)).
  - apply (sort_by_sorted compareItems (fun x y => compareItems x y <> Gt)); [done|].
    intros x y Hg. rewrite (ord_opp _ ordered_items x y), Hg. done.
  - intros x y Hx Hy. apply sorted_items in Hx as (n & ->). apply sorted_items in Hy as (m & ->). rewrite compareItems_lex.
    unfold keyLe. rewrite compareKeys_drop. cbn [it_input itemOf]. by destruct (compareKeys _ _).
Qed.

(** Two deliveries of the same events are sorted into the same sequence, if
    copies of one event differ in their sequence number only. *)
Lemma sorted_unique l l' : l ≡ₚ l' ->
  (forall a b, a ∈ l -> b ∈ l -> fingerprintOf a = fingerprintOf b -> dropSeq a = dropSeq b) ->
  map (fun x => dropSeq (it_input x)) (sorted l) = map (fun x => dropSeq (it_input x)) (sorted l').
Proof.
  intros Hp Hs. apply (StronglySorted_unique_strong keyLe); [|apply sorted_keys..|].
  - intros a b Ha Hb H1 H2. rewrite list_elem_of_fmap in Ha, Hb. destruct Ha as (x & -> & Hx), Hb as (y & -> & Hy).
    apply Hs.
    + rewrite <- (sorted_perm l). by apply list_elem_of_fmap_2.
    + rewrite Hp, <- (sorted_perm l'). by apply list_elem_of_fmap_2.
    + unfold keyLe in H1, H2. rewrite compareKeys_drop in H1, H2. rewrite (ord_opp _ ordered_keys) in H2.
      apply (compareKeys_Eq (it_input x) (it_input y)). by destruct (compareKeys _ _).
  - rewrite <- !(map_map it_input dropSeq), !sorted_perm. by rewrite Hp.
Qed.

(** ** What the sequence numbers are used for: the reports of violations *)

Definition eraseV (v : TransitionValidationViolation) : TransitionValidationViolation := {|
  v_scope := v_scope v; v_entityId := v_entityId v; v_eventName := v_eventName v; v_eventType := v_eventType v; v_fromState := v_fromState v;
  v_toState := v_toState v; v_reason := v_reason v; v_signature := v_signature v; v_slot := v_slot v; v_sourceEventSequence := 0;
  v_anomalyCode := v_anomalyCode v |}.

Definition eraseT (t : ProjectionTelemetry) : ProjectionTelemetry := {|
  totalInputs := totalInputs t; projectedEvents := projectedEvents t; duplicatesDropped := duplicatesDropped t; unknownEvents := unknownEvents t;
  transitionConflicts := transitionConflicts t; transitionViolations := map eraseV (transitionViolations t); malformedInputs := malformedInputs t |}.

(** A result with the sequence numbers of its violations forgotten. *)
Definition eraseS (s : Projector) : Projector := with_telemetry (eraseT (telemetry s)) s.

Definition eraseI (x : SortItem) : SortItem := {|
  it_input := dropSeq (it_input x); it_sequence := 0; it_rank := it_rank x; it_fingerprint := it_fingerprint x |}.

Definition map_ok {E A B} (f : A -> B) (r : result E A) : result E B := match r with Ok a => Ok (f a) | Err e => Err e end.

Definition eraseP (st : jsmap string * ProjectionTelemetry) : jsmap string * ProjectionTelemetry := (st.1, eraseT st.2).

Lemma addViolation_erase v t : eraseT (addViolation v t) = addViolation (eraseV v) (eraseT t).
Proof. unfold eraseT, addViolation. cbn. by rewrite map_app. Qed.

Lemma track_erase sc tr st x e n p : track sc tr st (eraseI x) e n (eraseP p) = eraseP (track sc tr st x e n p).
Proof.
  unfold track, eraseP. cbn [fst snd eraseI it_input dropSeq i_eventName i_signature i_slot it_sequence].
  unfold validateTransition. cbn [o_previousState o_allowedStarts o_nextState o_transitions]. f_equal.
  repeat case_match; simplify_eq; by rewrite ?addViolation_erase.
Qed.

Lemma ownTransition_erase x type ctx p : ownTransition (eraseI x) type ctx (eraseP p) = eraseP (ownTransition x type ctx p).
Proof. unfold ownTransition. case_match; [|done]. case_match; [apply track_erase|done]. Qed.

Lemma trackTask_erase x type ctx p : trackTask (eraseI x) type ctx (eraseP p) = eraseP (trackTask x type ctx p).
Proof.
  unfold trackTask. rewrite ownTransition_erase. cbv zeta. change (eraseP ?q).1 with q.1.
  change (disputesTask (eraseI x)) with (disputesTask x). case_match; [apply track_erase|done].
Qed.

Lemma trackDispute_erase x type ctx ds p :
  trackDispute (eraseI x) type ctx ds (eraseP p) = (fun r => (r.1, eraseP r.2)) <$> trackDispute x type ctx ds p.
Proof.
  unfold trackDispute. case_match; [|done]. case_match; [|done]. rewrite track_erase.
  change (replayDispute (it_input (eraseI x))) with (replayDispute (it_input x)). by destruct (replayDispute _ _ _ _).
Qed.

Lemma trackSpeculation_erase x type ctx p : trackSpeculation (eraseI x) type ctx (eraseP p) = eraseP (trackSpeculation x type ctx p).
Proof. unfold trackSpeculation. case_match; [|done]. case_match; [apply track_erase|done]. Qed.

Lemma acceptItem_erase s n x type :
  acceptItem base58 (eraseS s) n (eraseI x) type = map_ok eraseS (acceptItem base58 s n x type).
Proof.
  unfold acceptItem. change (i_eventName (it_input (eraseI x))) with (i_eventName (it_input x)).
  change (i_event (it_input (eraseI x))) with (i_event (it_input x)). set (ctx := getContext base58 _ _). cbv zeta.
  change (taskStates (eraseS s), telemetry (eraseS s)) with (eraseP (taskStates s, telemetry s)). rewrite trackTask_erase.
  destruct (trackTask x type ctx (taskStates s, telemetry s)) as [tasks t]. cbn [eraseP fst snd].
  change (disputeStates (eraseS s), eraseT t) with (eraseP (disputeStates s, t)). change (disputes (eraseS s)) with (disputes s).
  rewrite trackDispute_erase. destruct (trackDispute x type ctx (disputes s) (disputeStates s, t)) as [[ds [dst t']]|]; [|done].
  cbn [fmap option_fmap option_map fst snd eraseP]. change (speculationStates (eraseS s), eraseT t') with (eraseP (speculationStates s, t')).
  rewrite trackSpeculation_erase. by destruct (trackSpeculation x type ctx (speculationStates s, t')).
Qed.

Lemma projectItem_erase s n x : projectItem base58 (eraseS s) (n, eraseI x) = map_ok eraseS (projectItem base58 s (n, x)).
Proof.
  unfold projectItem. change (eventIds (eraseS s)) with (eventIds s). change (it_fingerprint (eraseI x)) with (it_fingerprint x).
  change (i_eventName (it_input (eraseI x))) with (i_eventName (it_input x)). change (i_slot (it_input (eraseI x))) with (i_slot (it_input x)).
  change (i_signature (it_input (eraseI x))) with (i_signature (it_input x)).
  case_match; [done|]. case_match; [done|]. case_match; [done|]. case_match; [|done]. case_match; [done|]. apply acceptItem_erase.
Qed.

Lemma foldM_erase s l : foldM (projectItem base58) (eraseS s) (map (fun e => (e.1, eraseI e.2)) l) =
  map_ok eraseS (foldM (projectItem base58) s l).
Proof.
  revert s. induction l as [|[n x] l IH]; intros s; [done|]. cbn [map foldM fst snd]. rewrite projectItem_erase.
  destruct (projectItem base58 s (n, x)); [apply IH|done].
Qed.

Lemma imap_pair_map {A B} (f : A -> B) l : imap pair (map f l) = map (fun e => (e.1, f e.2)) (imap pair l).
Proof.
  apply list_eq. intros k. change (map f l) with (f <$> l).
  change (map (fun e => (e.1, f e.2)) (imap pair l)) with ((fun e : nat * A => (e.1, f e.2)) <$> imap pair l).
  rewrite list_lookup_imap, !list_lookup_fmap, list_lookup_imap. by destruct (l !! k).
Qed.

(** An item without its sequence number is determined by its input. *)
Lemma eraseI_itemOf n i : eraseI (itemOf quote n i) = eraseI (itemOf quote 0 (dropSeq i)).
Proof. done. Qed.

Lemma erased_run l : map_ok eraseS (runProjection base58 quote l) =
  foldM (projectItem base58) (newProjector (length l))
    (imap pair (map (fun i => eraseI (itemOf quote 0 i)) (map (fun x => dropSeq (it_input x)) (sorted l)))).
Proof.
  unfold runProjection. rewrite <- foldM_erase. change (eraseS (newProjector (length l))) with (newProjector (length l)). f_equal.
  rewrite <- imap_pair_map, map_map. f_equal. apply List.map_ext_in. intros x Hx. apply list_elem_of_In in Hx.
  apply sorted_items in Hx as (n & ->). apply eraseI_itemOf.
Qed.

(** C34. The projection is deterministic: however the events are ordered when
    they arrive, the timeline records, the disputes, the counts, the conflicts
    and the errors are the same, and so are the violations up to the sequence
    numbers they report, provided that copies of one event differ in their
    sequence number only. *)
Theorem projection_order_independent strict l l' : l ≡ₚ l' ->
  (forall a b, a ∈ l -> b ∈ l -> fingerprintOf a = fingerprintOf b -> dropSeq a = dropSeq b) ->
  map_ok eraseS (projectOnChainEvents base58 quote l strict) = map_ok eraseS (projectOnChainEvents base58 quote l' strict).
Proof.
  intros Hp Hs. assert (Hr : map_ok eraseS (runProjection base58 quote l) = map_ok eraseS (runProjection base58 quote l')).
  { rewrite !erased_run, (sorted_unique l l' Hp Hs), Hp. done. }
  unfold projectOnChainEvents, mbind, result_bind.
  destruct (runProjection base58 quote l) as [s|], (runProjection base58 quote l') as [s'|]; cbn [map_ok] in Hr; try congruence.
  apply (f_equal (fun r => match r with Ok a => a | Err _ => s end)) in Hr. assert (Hv : map eraseV (transitionViolations (telemetry s)) = map eraseV (transitionViolations (telemetry s'))).
  { exact (f_equal (fun s => transitionViolations (telemetry s)) Hr). }
  assert (Hc : transitionConflicts (telemetry s) = transitionConflicts (telemetry s')).
  { exact (f_equal (fun s => transitionConflicts (telemetry s)) Hr). }
  destruct strict; cbn [andb]; [|cbn [map_ok]; by rewrite Hr].
  destruct (transitionViolations (telemetry s)), (transitionViolations (telemetry s')); try done; cbn [negb map_ok]; congruence.
Qed.
End projector.
