(* ===== verification/ProjectionSpec.v ===== *)
(** * What the projection keeps, and when it reports a violation *)
From stdpp Require Import pretty sorting.
From S2P Require Import Prelude JsMap JsString Encoding Transitions Projection ProjectionOrder.
#[local] Open Scope string_scope.
#[local] Open Scope Z_scope.

(** ** Histories *)

(** Each state of a history is a legal successor of the one before. *)
Definition legalPath (tr : jsmap (list string)) (st : list string) (h : list string) : Prop :=
  forall h1 x h2, h = (h1 ++ x :: h2)%list -> legalStep tr st (last h1) x.

Lemma legalPath_nil tr st : legalPath tr st [].
Proof. by intros [] ? ?. Qed.

Lemma legalPath_snoc tr st h x : legalPath tr st (h ++ [x]) <-> legalPath tr st h /\ legalStep tr st (last h) x.
Proof.
  split.
  - intros Hl. split; [|by apply (Hl h x [])]. intros h1 y h2 ->. apply (Hl h1 y (h2 ++ [x])%list). by rewrite <- app_assoc.
  - intros [Hl Hs] h1 y h2 Heq. destruct h2 as [|z h2 _] using rev_ind; [by apply app_inj_tail in Heq as [-> ->]|].
    rewrite app_comm_cons, app_assoc in Heq. apply app_inj_tail in Heq as [-> _]. by apply (Hl h1 y h2).
Qed.

(** The history of every entity. *)
Definition Histories : Type := string -> list string.

Definition extend (o : option string) (next : string) (h : Histories) : Histories :=
  fun e => if bool_decide (o = Some e) then (h e ++ [next])%list else h e.

Definition legalAll (tr : jsmap (list string)) (st : list string) (h : Histories) : Prop := forall e, legalPath tr st (h e).

Lemma legalAll_extend tr st o next h :
  legalAll tr st (extend o next h) <-> legalAll tr st h /\ (forall e, o = Some e -> legalStep tr st (last (h e)) next).
Proof.
  unfold legalAll, extend. split.
  - intros Hl. split.
    + intros e. specialize (Hl e). case_bool_decide; [by apply legalPath_snoc in Hl as [? _]|done].
    + intros e ->. specialize (Hl e). rewrite bool_decide_eq_true_2 in Hl by done. by apply legalPath_snoc in Hl as [_ ?].
  - intros [Hl Hs] e. case_bool_decide; [|done]. apply legalPath_snoc. auto.
Qed.

(** The states are the ends of the histories. *)
Definition Ends (h : Histories) (states : jsmap string) : Prop := forall e, mget states e = last (h e).

Definition trackOpt (scope : ReplayLifecycleType) (tr : jsmap (list string)) (st : list string) (item : SortItem) (o : option string)
    (next : string) (p : jsmap string * ProjectionTelemetry) : jsmap string * ProjectionTelemetry :=
  match o with Some e => track scope tr st item e next p | None => p end.

Record same_counts (t t' : ProjectionTelemetry) : Prop := {
  sc_total : totalInputs t' = totalInputs t;
  sc_projected : projectedEvents t' = projectedEvents t;
  sc_duplicates : duplicatesDropped t' = duplicatesDropped t;
  sc_unknown : unknownEvents t' = unknownEvents t;
  sc_malformed : malformedInputs t' = malformedInputs t;
}.

#[export] Instance same_counts_preorder : PreOrder same_counts.
Proof. split; [by split|]. intros x y z [] []. split; congruence. Qed.

(** Both properties shrink by the same condition. *)
Definition grows (A A' L L' : Prop) : Prop := exists C, (A' <-> A /\ C) /\ (L' <-> L /\ C).

(** One check of a lifecycle, against the history it extends. *)
Lemma trackOpt_spec scope tr st item o next h p : Ends h p.1 ->
  let p' := trackOpt scope tr st item o next p in
  Ends (extend o next h) p'.1 /\ same_counts p.2 p'.2 /\
  (transitionViolations p'.2 = [] <-> transitionViolations p.2 = [] /\ forall e, o = Some e -> legalStep tr st (last (h e)) next).
Proof.
  intros He. unfold trackOpt. destruct o as [e|]; cbv zeta.
  - split_and!.
    + intros e'. unfold extend. cbn [track fst]. rewrite mget_mset. destruct (String.eqb_spec e' e) as [->|Hn].
      * by rewrite bool_decide_eq_true_2, last_snoc.
      * rewrite bool_decide_eq_false_2 by congruence. apply He.
    + unfold track. cbn [snd]. by case_match.
    + unfold track. cbn [snd]. pose proof (validateTransition_spec {| o_scope := scope; o_entityId := e;
        o_eventName := i_eventName (it_input item); o_eventType := next; o_previousState := mget p.1 e; o_nextState := next;
        o_signature := i_signature (it_input item); o_slot := i_slot (it_input item); o_sourceEventSequence := it_sequence item;
        o_transitions := tr; o_allowedStarts := st |}) as Hv.
      destruct (validateTransition _) as [v|]; cbn [o_transitions o_allowedStarts o_previousState o_nextState] in Hv; rewrite (He e) in Hv.
      * cbn [addViolation transitionViolations]. split; [by destruct (transitionViolations p.2)|]. intros [_ Hl]. by destruct Hv as [_ []]; apply Hl.
      * split; [intros ?; split; [done|by intros ? [= <-]]|by intros [? _]].
  - split_and!; [|done|]; [intros e; unfold extend; by rewrite bool_decide_eq_false_2|]. naive_solver.
Qed.

(** ** The accepted events *)

Definition typeOf (x : SortItem) : string := default "" (mget TRAJECTORY_EVENT_BY_SOURCE (i_eventName (it_input x))).

Definition wellFormed (x : SortItem) : bool :=
  negb (isEmpty (i_eventName (it_input x))) && (0 <=? i_slot (it_input x)) && negb (isEmpty (i_signature (it_input x))) &&
  isKnownEvent (i_eventName (it_input x)).

(** The first well-formed copy of every event, in order. *)
Definition acceptStep (acc : list SortItem) (x : SortItem) : list SortItem :=
  if wellFormed x && negb (has (map it_fingerprint acc) (it_fingerprint x)) then (acc ++ [x])%list else acc.

Definition accepted (l : list SortItem) : list SortItem := foldl acceptStep [] l.

Lemma has_disputed previous : has (default [] (mget TASK_TRANSITIONS previous)) "disputed" = String.eqb previous "claimed".
Proof.
  unfold TASK_TRANSITIONS. cbn [mget].
  destruct (String.eqb_spec previous "discovered") as [->|]; [done|]. destruct (String.eqb_spec previous "claimed") as [->|]; [done|].
  repeat (case_match; [done|]). done.
Qed.

Section projector.
Context `{Collation} (base58 : list Z -> string) (quote : string -> string).

Definition contextOf (x : SortItem) : Context := getContext base58 (i_eventName (it_input x)) (i_event (it_input x)).

(** The task, dispute and speculation whose lifecycle an event moves. *)
Definition ownTask (x : SortItem) : option string := if has TASK_EVENT_TYPES (typeOf x) then present (taskPda (contextOf x)) else None.
Definition ownDispute (x : SortItem) : option string :=
  if has DISPUTE_LIFECYCLE_EVENT_TYPES (typeOf x) then present (disputePda (contextOf x)) else None.
Definition ownSpeculation (x : SortItem) : option string :=
  if has SPECULATION_EVENT_TYPES (typeOf x) then present (speculationKey (contextOf x)) else None.

(** A dispute moves its task to disputed, if the task is claimed. *)
Definition disputedTask (x : SortItem) (h : Histories) : option string :=
  if String.eqb (i_eventName (it_input x)) "disputeInitiated" then
    match present (taskPda (contextOf x)) with
    | Some task => if bool_decide (last (h task) = Some "claimed") then Some task else None
    | None => None
    end
  else None.

Definition taskStep (h : Histories) (x : SortItem) : Histories :=
  let h := extend (ownTask x) (typeOf x) h in extend (disputedTask x h) "disputed" h.

Definition taskHistories (l : list SortItem) : Histories := foldl taskStep (fun _ => []) l.
Definition disputeHistories (l : list SortItem) : Histories := foldl (fun h x => extend (ownDispute x) (typeOf x) h) (fun _ => []) l.
Definition speculationHistories (l : list SortItem) : Histories := foldl (fun h x => extend (ownSpeculation x) (typeOf x) h) (fun _ => []) l.

(** Every lifecycle in the accepted events is legal. *)
Definition legalHistory (l : list SortItem) : Prop :=
  legalAll TASK_TRANSITIONS TASK_START_EVENTS (taskHistories l) /\
  legalAll DISPUTE_TRANSITIONS DISPUTE_START_EVENTS (disputeHistories l) /\
  legalAll SPECULATION_TRANSITIONS SPECULATION_START_EVENTS (speculationHistories l).

(** The record an event is projected to. *)
Definition recordOf (x : SortItem) : Z * string * string * string * option string * Z :=
  (i_slot (it_input x), i_signature (it_input x), i_eventName (it_input x), typeOf x,
   match taskPda (contextOf x) with Some t => Some t | None => if has SPECULATION_EVENT_TYPES (typeOf x) then speculationPda (contextOf x) else None end,
   resolveTimestamp (it_input x)).

Definition recordFields (p : ProjectedTimelineEvent) : Z * string * string * string * option string * Z :=
  (p_slot p, p_signature p, p_sourceEventName p, p_type p, p_taskPda p, p_timestampMs p).

(** The disputes that were initiated. *)
Definition initiated (l : list SortItem) (d : string) : Prop :=
  exists y, y ∈ l /\ i_eventName (it_input y) = "disputeInitiated" /\ ownDispute y = Some d.

(** ** The invariant of the loop *)

Record proj_inv (l : list SortItem) (s : Projector) : Prop := {
  pi_ids : eventIds s = map it_fingerprint (accepted l);
  pi_tasks : Ends (taskHistories (accepted l)) (taskStates s);
  pi_disputes : Ends (disputeHistories (accepted l)) (disputeStates s);
  pi_specs : Ends (speculationHistories (accepted l)) (speculationStates s);
  pi_violations : transitionViolations (telemetry s) = [] <-> legalHistory (accepted l);
  pi_known : forall d, is_Some (mget (disputes s) d) <-> initiated (accepted l) d;
  pi_records : map recordFields (projected s) = map recordOf (accepted l);
  pi_seq : map p_seq (projected s) = map (fun n => Z.of_nat n + 1) (seq 0 (length (projected s)));
  pi_counts : projectedEvents (telemetry s) = Z.of_nat (length (projected s)) /\
    Z.of_nat (length l) = projectedEvents (telemetry s) + duplicatesDropped (telemetry s) +
      Z.of_nat (length (unknownEvents (telemetry s))) + Z.of_nat (length (malformedInputs (telemetry s)));
}.

Lemma ownTransition_track x p : same_counts p.2 (ownTransition x (typeOf x) (contextOf x) p).2 /\
  (ownTransition x (typeOf x) (contextOf x) p).1 = (trackOpt scope_task TASK_TRANSITIONS TASK_START_EVENTS x (ownTask x) (typeOf x) p).1 /\
  transitionViolations (ownTransition x (typeOf x) (contextOf x) p).2 =
    transitionViolations (trackOpt scope_task TASK_TRANSITIONS TASK_START_EVENTS x (ownTask x) (typeOf x) p).2.
Proof.
  unfold ownTransition, ownTask. case_match; [|done]. case_match; [|done]. unfold trackOpt, track. cbn [fst snd]. by case_match.
Qed.

Lemma trackTask_spec x h p : Ends h p.1 ->
  let p' := trackTask x (typeOf x) (contextOf x) p in
  Ends (taskStep h x) p'.1 /\ same_counts p.2 p'.2 /\
  grows (transitionViolations p.2 = []) (transitionViolations p'.2 = [])
    (legalAll TASK_TRANSITIONS TASK_START_EVENTS h) (legalAll TASK_TRANSITIONS TASK_START_EVENTS (taskStep h x)).
Proof.
  intros He. cbv zeta. unfold trackTask, taskStep. cbv zeta. destruct (ownTransition_track x p) as (C1 & E1 & V1).
  destruct (trackOpt_spec scope_task TASK_TRANSITIONS TASK_START_EVENTS x (ownTask x) (typeOf x) h p He) as (He1 & _ & Hv1).
  set (p1 := ownTransition x (typeOf x) (contextOf x) p) in *. rewrite <- E1 in He1. rewrite <- V1 in Hv1.
  set (h1 := extend (ownTask x) (typeOf x) h) in *.
  assert (Hd : disputesTask x (contextOf x) p1.1 = disputedTask x h1).
  { unfold disputesTask, disputedTask. case_match; [|done]. case_match; [|done]. rewrite (He1 s). unfold mbind, option_bind.
    destruct (last (h1 s)) as [q|]; [|done]. rewrite has_disputed. destruct (String.eqb_spec q "claimed") as [->|Hn]; [done|].
    rewrite bool_decide_eq_false_2; [done|congruence]. }
  rewrite Hd. destruct (trackOpt_spec scope_task TASK_TRANSITIONS TASK_START_EVENTS x (disputedTask x h1) "disputed" h1 p1 He1) as (He2 & C2 & Hv2).
  unfold trackOpt in He2, C2, Hv2. split_and!; [done|by etrans|]. eexists. split; [rewrite Hv2, Hv1; symmetry; apply and_assoc|].
  rewrite legalAll_extend. assert (Hl : legalAll TASK_TRANSITIONS TASK_START_EVENTS h1 <-> _) by apply legalAll_extend. rewrite Hl. tauto.
Qed.

Lemma trackDispute_spec x h ds p r : Ends h p.1 -> trackDispute x (typeOf x) (contextOf x) ds p = Some r ->
  Ends (extend (ownDispute x) (typeOf x) h) r.2.1 /\ same_counts p.2 r.2.2 /\
  grows (transitionViolations p.2 = []) (transitionViolations r.2.2 = [])
    (legalAll DISPUTE_TRANSITIONS DISPUTE_START_EVENTS h) (legalAll DISPUTE_TRANSITIONS DISPUTE_START_EVENTS (extend (ownDispute x) (typeOf x) h)).
Proof.
  intros He Hr. destruct (trackOpt_spec scope_dispute DISPUTE_TRANSITIONS DISPUTE_START_EVENTS x (ownDispute x) (typeOf x) h p He) as (H1 & H2 & H3).
  unfold trackDispute in Hr. unfold ownDispute in *. destruct (has DISPUTE_LIFECYCLE_EVENT_TYPES _).
  - destruct (present _) as [d|].
    + unfold trackOpt in *. unfold mbind, option_bind in Hr. destruct (replayDispute _ _ _ _); [|done]. injection Hr as <-. cbn [fst snd].
      split_and!; [done..|]. eexists. split; [exact H3|apply legalAll_extend].
    + injection Hr as <-. cbn [fst snd]. split_and!; [done|by split|]. eexists. split; [exact H3|apply legalAll_extend].
  - injection Hr as <-. split_and!; [done..|]. eexists. split; [exact H3|apply legalAll_extend].
Qed.

Lemma trackSpeculation_spec x h p : Ends h p.1 ->
  let p' := trackSpeculation x (typeOf x) (contextOf x) p in
  Ends (extend (ownSpeculation x) (typeOf x) h) p'.1 /\ same_counts p.2 p'.2 /\
  grows (transitionViolations p.2 = []) (transitionViolations p'.2 = []) (legalAll SPECULATION_TRANSITIONS SPECULATION_START_EVENTS h)
    (legalAll SPECULATION_TRANSITIONS SPECULATION_START_EVENTS (extend (ownSpeculation x) (typeOf x) h)).
Proof.
  intros He. pose proof (trackOpt_spec scope_speculation SPECULATION_TRANSITIONS SPECULATION_START_EVENTS x (ownSpeculation x) (typeOf x) h p He) as Hs.
  cbv zeta in *. assert (Heq : trackSpeculation x (typeOf x) (contextOf x) p =
    trackOpt scope_speculation SPECULATION_TRANSITIONS SPECULATION_START_EVENTS x (ownSpeculation x) (typeOf x) p).
  { unfold trackSpeculation, ownSpeculation. by case_match. }
  rewrite Heq. destruct Hs as (H1 & H2 & H3). split_and!; [done..|]. eexists. split; [exact H3|apply legalAll_extend].
Qed.

Lemma replayDispute_known input ctx d ds ds' : replayDispute input ctx d ds = Some ds' ->
  forall e, is_Some (mget ds' e) <-> is_Some (mget ds e) \/ i_eventName input = "disputeInitiated" /\ e = d.
Proof.
  assert (Hset : forall v e, is_Some (mget (mset d v ds) e) <-> is_Some (mget ds e) \/ e = d).
  { intros v e. rewrite mget_mset. destruct (String.eqb_spec e d); [split; eauto|naive_solver]. }
  unfold replayDispute. destruct (String.eqb_spec (i_eventName input) "disputeInitiated") as [Hi|Hi].
  { intros [= <-] e. rewrite Hset. naive_solver. }
  destruct (mget ds d) as [x|] eqn:Hd; [|intros [= <-]; naive_solver].
  assert (Hkeep : forall v e, is_Some (mget (mset d v ds) e) <-> is_Some (mget ds e) \/ i_eventName input = "disputeInitiated" /\ e = d).
  { intros v e. rewrite Hset. split; [intros [?| ->]; [by left|left; rewrite Hd; eauto]|naive_solver]. }
  unfold mbind, option_bind. repeat (case_match; try done); intros [= <-]; auto. naive_solver.
Qed.

Lemma trackDispute_known x ds p r : trackDispute x (typeOf x) (contextOf x) ds p = Some r ->
  forall d, is_Some (mget r.1 d) <-> is_Some (mget ds d) \/ i_eventName (it_input x) = "disputeInitiated" /\ ownDispute x = Some d.
Proof.
  unfold trackDispute, ownDispute. case_match; [|intros [= <-]; naive_solver]. case_match; [|intros [= <-]; naive_solver].
  unfold mbind, option_bind. destruct (replayDispute _ _ _ _) as [ds'|] eqn:Hr; [|done]. intros [= <-] d.
  rewrite (replayDispute_known _ _ _ _ _ Hr d). naive_solver.
Qed.

Lemma initiated_snoc l x d : initiated (l ++ [x]) d <-> initiated l d \/ i_eventName (it_input x) = "disputeInitiated" /\ ownDispute x = Some d.
Proof. unfold initiated. setoid_rewrite elem_of_app. setoid_rewrite list_elem_of_singleton. naive_solver. Qed.

Lemma accepted_snoc l x : accepted (l ++ [x]) = acceptStep (accepted l) x.
Proof. apply foldl_snoc. Qed.

(** Projecting an event keeps the invariant. *)
Lemma acceptItem_inv l s n x s' : proj_inv l s -> acceptStep (accepted l) x = (accepted l ++ [x])%list ->
  acceptItem base58 s n x (typeOf x) = Ok s' -> proj_inv (l ++ [x]) s'.
Proof.
  intros [I1 I2 I3 I4 I5 IK I6 I7 [I8 I9]] Hacc. unfold acceptItem. fold (contextOf x). cbv zeta.
  destruct (trackTask_spec x _ (taskStates s, telemetry s) I2) as (T1 & T2 & CT & T3 & T4).
  destruct (trackTask x (typeOf x) (contextOf x) (taskStates s, telemetry s)) as [tasks t1]. cbn [fst snd] in *.
  destruct (trackDispute _ _ _ _ _) as [[ds [dst t2]]|] eqn:Hd; [|done].
  destruct (trackDispute_spec x _ _ (disputeStates s, t1) _ I3 Hd) as (D1 & D2 & CD & D3 & D4). cbn [fst snd] in *.
  destruct (trackSpeculation_spec x _ (speculationStates s, t2) I4) as (S1 & S2 & CS & S3 & S4).
  destruct (trackSpeculation _ _ _ _) as [specs t3]. cbn [fst snd] in *. intros [= <-].
  assert (C : same_counts (telemetry s) t3) by (by do 2 (etrans; [done|])).
  split; cbn [eventIds taskStates disputeStates speculationStates projected telemetry]; rewrite ?accepted_snoc, ?Hacc.
  - by rewrite I1, map_app.
  - unfold taskHistories. by rewrite foldl_snoc.
  - unfold disputeHistories. by rewrite foldl_snoc.
  - unfold speculationHistories. by rewrite foldl_snoc.
  - change (transitionViolations (countProjected t3)) with (transitionViolations t3). unfold legalHistory in *.
    unfold taskHistories, disputeHistories, speculationHistories in *. rewrite !foldl_snoc. tauto.
  - intros d. rewrite (trackDispute_known _ _ _ _ Hd d), initiated_snoc, IK. done.
  - rewrite !map_app, I6. done.
  - rewrite map_app, I7, length_app. cbn [map length]. rewrite seq_app, map_app. cbn. do 2 (f_equal; try lia).
  - destruct C as [C1 C2 C3 C4 C5]. cbn. rewrite !length_app. cbn. rewrite C2, C3, C4, C5, I8. rewrite I8 in I9. lia.
Qed.

(** A skipped input changes the counts only. *)
Lemma skip_inv l s x t : proj_inv l s -> acceptStep (accepted l) x = accepted l ->
  transitionViolations t = transitionViolations (telemetry s) -> projectedEvents t = projectedEvents (telemetry s) ->
  duplicatesDropped t + Z.of_nat (length (unknownEvents t)) + Z.of_nat (length (malformedInputs t)) =
    duplicatesDropped (telemetry s) + Z.of_nat (length (unknownEvents (telemetry s))) + Z.of_nat (length (malformedInputs (telemetry s))) + 1 ->
  proj_inv (l ++ [x]) (with_telemetry t s).
Proof.
  intros [I1 I2 I3 I4 I5 IK I6 I7 [I8 I9]] Hacc Hv Hp Hc. split; rewrite ?accepted_snoc, ?Hacc; try done.
  - cbn [telemetry with_telemetry]. by rewrite Hv.
  - cbn [telemetry with_telemetry projected]. rewrite Hp, length_app. cbn [length]. lia.
Qed.

(** The votes of the event cannot be read. *)
Definition unreadableVotes (x : SortItem) : Prop :=
  votesOf (eventField (i_event (it_input x)) "votesFor") = None \/ votesOf (eventField (i_event (it_input x)) "votesAgainst") = None.

(** A vote on a known dispute whose counts cannot be read. *)
Definition badVote (l : list SortItem) (x : SortItem) : Prop :=
  acceptStep (accepted l) x = (accepted l ++ [x])%list /\ i_eventName (it_input x) = "disputeVoteCast" /\
  (exists d, ownDispute x = Some d /\ initiated (accepted l) d) /\ unreadableVotes x.

Lemma acceptItem_throws l s n x : proj_inv l s -> acceptStep (accepted l) x = (accepted l ++ [x])%list ->
  (exists s', acceptItem base58 s n x (typeOf x) = Ok s') /\ ~ badVote l x \/
  acceptItem base58 s n x (typeOf x) = Err BigIntSyntax /\ badVote l x.
Proof.
  intros Hi Hacc. pose proof (pi_known l s Hi) as IK. unfold acceptItem. fold (contextOf x). cbv zeta.
  destruct (trackTask x (typeOf x) (contextOf x) (taskStates s, telemetry s)) as [tasks t1].
  assert (Hd : (exists r, trackDispute x (typeOf x) (contextOf x) (disputes s) (disputeStates s, t1) = Some r) /\ ~ badVote l x \/
    trackDispute x (typeOf x) (contextOf x) (disputes s) (disputeStates s, t1) = None /\ badVote l x).
  { unfold trackDispute, badVote, unreadableVotes, ownDispute. case_match; [|naive_solver]. case_match; [|naive_solver].
    rename H1 into Hp. rename s0 into d. specialize (IK d). unfold replayDispute.
    destruct (String.eqb_spec (i_eventName (it_input x)) "disputeInitiated") as [->|Hn]; [cbn; naive_solver|].
    destruct (mget (disputes s) d) as [ds|] eqn:Hm.
    2:{ left. split; [cbn; eauto|]. intros (_ & _ & (e & [= <-] & He) & _). apply IK in He as []. congruence. }
    destruct (String.eqb_spec (i_eventName (it_input x)) "disputeVoteCast") as [Hv|Hv].
    - unfold mbind, option_bind. assert (Hk : initiated (accepted l) d) by (apply IK; eauto).
      destruct (votesOf (eventField _ "votesFor")) eqn:E1; [destruct (votesOf (eventField _ "votesAgainst")) eqn:E2|].
      + left. split; [cbn; eauto|]. naive_solver.
      + right. split; [done|]. split_and!; eauto.
      + right. split; [done|]. split_and!; eauto.
    - left. split; [|naive_solver]. repeat case_match; cbn; eauto. }
  destruct Hd as [[[[ds [dst t2]] ->] Hn]|[-> Hb]]; [left|by right].
  split; [|done]. destruct (trackSpeculation _ _ _ _). eauto.
Qed.

(** ** The whole loop *)

Lemma accepts_iff l x type : isEmpty (i_eventName (it_input x)) = false -> (i_slot (it_input x) <? 0) = false ->
  isEmpty (i_signature (it_input x)) = false -> mget TRAJECTORY_EVENT_BY_SOURCE (i_eventName (it_input x)) = Some type ->
  acceptStep (accepted l) x = if has (map it_fingerprint (accepted l)) (it_fingerprint x) then accepted l else (accepted l ++ [x])%list.
Proof.
  intros H1 H2 H3 H4. unfold acceptStep, wellFormed, isKnownEvent, mhas. rewrite H1, H3, H4, Z.leb_antisym, H2. cbn. by destruct (has _ _).
Qed.

Lemma projectItem_cases l s n x : proj_inv l s ->
  (exists s', projectItem base58 s (n, x) = Ok s' /\ proj_inv (l ++ [x]) s') /\ ~ badVote l x \/
  projectItem base58 s (n, x) = Err BigIntSyntax /\ badVote l x.
Proof.
  intros Hi. assert (Hskip : forall t, acceptStep (accepted l) x = accepted l -> proj_inv (l ++ [x]) (with_telemetry t s) ->
    (exists s', @Ok projection_error _ (with_telemetry t s) = Ok s' /\ proj_inv (l ++ [x]) s') /\ ~ badVote l x \/
    @Ok projection_error _ (with_telemetry t s) = Err BigIntSyntax /\ badVote l x).
  { intros t Ha Ht. left. split; [eauto|]. intros (Hb & _). rewrite Ha in Hb. apply (f_equal length) in Hb.
    rewrite length_app in Hb. cbn in Hb. lia. }
  unfold projectItem. destruct (isEmpty (i_eventName (it_input x))) eqn:E1.
  { assert (Ha : acceptStep (accepted l) x = accepted l) by (unfold acceptStep, wellFormed; by rewrite E1).
    apply Hskip; [done|]. apply skip_inv; [done..|]. cbn. rewrite length_app. cbn. lia. }
  destruct (i_slot (it_input x) <? 0) eqn:E2.
  { assert (Ha : acceptStep (accepted l) x = accepted l) by (unfold acceptStep, wellFormed; by rewrite Z.leb_antisym, E2, andb_false_r).
    apply Hskip; [done|]. apply skip_inv; [done..|]. cbn. rewrite length_app. cbn. lia. }
  destruct (isEmpty (i_signature (it_input x))) eqn:E3.
  { assert (Ha : acceptStep (accepted l) x = accepted l) by (unfold acceptStep, wellFormed; by rewrite E3, andb_false_r).
    apply Hskip; [done|]. apply skip_inv; [done..|]. cbn. rewrite length_app. cbn. lia. }
  destruct (mget TRAJECTORY_EVENT_BY_SOURCE _) as [type|] eqn:E4.
  2:{ assert (Ha : acceptStep (accepted l) x = accepted l).
      { unfold acceptStep, wellFormed, isKnownEvent, mhas. by rewrite E4, andb_false_r. }
      apply Hskip; [done|]. apply skip_inv; [done..|]. cbn. rewrite length_app. cbn. lia. }
  pose proof (accepts_iff l x type E1 E2 E3 E4) as Ha. rewrite (pi_ids l s Hi). destruct (has _ _) eqn:E5.
  - apply Hskip; [done|]. apply skip_inv; [done..|]. cbn. lia.
  - assert (Ht : type = typeOf x) by (unfold typeOf; by rewrite E4). rewrite Ht.
    destruct (acceptItem_throws l s (Z.of_nat n) x Hi Ha) as [[[s' Hs'] Hb]|]; [left|by right].
    split; [|done]. exists s'. split; [done|]. by apply (acceptItem_inv l s (Z.of_nat n) x s').
Qed.

Lemma newProjector_inv n : proj_inv [] (newProjector n).
Proof.
  split; try done; cbn.
  - split; [|done]. intros _. split_and!; intros e; apply legalPath_nil.
  - intros d. split; [by intros []|]. by intros (y & Hy%elem_of_nil & _).
Qed.

Lemma imap_pair_snd {A} (l : list A) : map snd (imap pair l) = l.
Proof.
  apply list_eq. intros k. change (map snd (imap pair l)) with (snd <$> imap pair l). rewrite list_lookup_fmap, list_lookup_imap. by destruct (l !! k).
Qed.

Definition rejected (l : list SortItem) : Prop := exists pre x suf, l = (pre ++ x :: suf)%list /\ badVote pre x.

Lemma runProjection_cases events :
  (exists s, runProjection base58 quote events = Ok s /\ proj_inv (sortedInputs quote events) s) /\ ~ rejected (sortedInputs quote events) \/
  runProjection base58 quote events = Err BigIntSyntax /\ rejected (sortedInputs quote events).
Proof.
  set (l := sortedInputs quote events). unfold runProjection. fold l.
  destruct (foldM_cases (fun pre s => proj_inv (map snd pre) s) (fun pre x => badVote (map snd pre) x.2) BigIntSyntax (projectItem base58)
    (newProjector (length events)) (imap pair l)) as [[(s & Hs & Hi) Hn]|[He (pre & [n x] & suf & Heq & Hb)]].
  - apply newProjector_inv.
  - intros pre [n x] s Hi. rewrite map_app. by apply projectItem_cases.
  - left. rewrite imap_pair_snd in Hi. split; [eauto|]. intros (pre & x & suf & Heq & Hb). rewrite <- (imap_pair_snd l) in Heq.
    apply map_eq_app in Heq as (p1 & p2 & E1 & <- & E2). apply map_eq_cons in E2 as (y & p3 & -> & <- & <-).
    by apply (Hn p1 y p3).
  - right. split; [done|]. exists (map snd pre), x, (map snd suf). rewrite <- (imap_pair_snd l), Heq, map_app. done.
Qed.

(** ** The accepted events *)

Lemma accepted_spec l :
  sublist (accepted l) l /\ NoDup (map it_fingerprint (accepted l)) /\ Forall (fun x => wellFormed x = true) (accepted l) /\
  (forall x, x ∈ l -> wellFormed x = true -> it_fingerprint x ∈ map it_fingerprint (accepted l)).
Proof.
  induction l as [|y l (I1 & I2 & I3 & I4)] using rev_ind.
  { split_and!; try constructor. by intros x Hx%elem_of_nil. }
  rewrite accepted_snoc. unfold acceptStep. destruct (wellFormed y) eqn:Hw; cbn [andb].
  2:{ split_and!; [by apply sublist_inserts_r|done..|]. intros x Hx Hwx. apply I4; [|done].
      apply elem_of_app in Hx as [?| ->%list_elem_of_singleton]; [done|congruence]. }
  destruct (has _ _) eqn:Hh; cbn [negb].
  - apply has_true in Hh. split_and!; [by apply sublist_inserts_r|done..|]. intros x Hx Hwx.
    apply elem_of_app in Hx as [?| ->%list_elem_of_singleton]; [auto|done].
  - apply has_false in Hh. split_and!.
    + by apply sublist_app.
    + rewrite map_app. apply NoDup_app. split_and!; [done| |apply NoDup_singleton]. intros f Hf ->%list_elem_of_singleton. done.
    + by apply Forall_app_2; [|constructor].
    + intros x Hx Hwx. rewrite map_app. apply elem_of_app. apply elem_of_app in Hx as [?| ->%list_elem_of_singleton]; [auto|].
      right. by apply list_elem_of_singleton.
Qed.

Lemma sorted_slots events : StronglySorted Z.le (map (fun x => i_slot (it_input x)) (sortedInputs quote events)).
Proof.
  apply (StronglySorted_map (fun x y => i_slot (it_input x) <= i_slot (it_input y))); [|done].
  assert (Transitive (fun x y => i_slot (it_input x) <= i_slot (it_input y))) by (intros x y z; lia).
  apply (sort_by_sorted compareItems (fun x y => i_slot (it_input x) <= i_slot (it_input y))); intros x y Hc;
    unfold compareItems, thenNumber in Hc; destruct (Z.compare_spec (i_slot (it_input x)) (i_slot (it_input y))); by try lia.
Qed.

Lemma sublist_sorted {A} (R : A -> A -> Prop) l k : sublist l k -> StronglySorted R k -> StronglySorted R l.
Proof.
  induction 1 as [|x l k Hs IH|x l k Hs IH]; inversion 1; subst; auto. constructor; [auto|].
  apply Forall_forall. intros y Hy. eapply Forall_forall; [done|]. eapply sublist_subseteq; eauto.
Qed.

(** C33. Exactly once: the timeline holds one record for every well-formed
    event, however often it was delivered, in slot order and numbered from
    one; every other input is counted as a duplicate, unknown or malformed. *)
Theorem projection_exactly_once events strict s : projectOnChainEvents base58 quote events strict = Ok s ->
  exists kept, sublist kept (sortedInputs quote events) /\ NoDup (map it_fingerprint kept) /\
    (forall x, x ∈ kept -> wellFormed x = true) /\
    (forall x, x ∈ sortedInputs quote events -> wellFormed x = true -> it_fingerprint x ∈ map it_fingerprint kept) /\
    map recordFields (projected s) = map recordOf kept /\
    map p_seq (projected s) = map (fun n => Z.of_nat n + 1) (seq 0 (length (projected s))) /\
    StronglySorted Z.le (map p_slot (projected s)) /\
    Z.of_nat (length events) = Z.of_nat (length (projected s)) + duplicatesDropped (telemetry s) +
      Z.of_nat (length (unknownEvents (telemetry s))) + Z.of_nat (length (malformedInputs (telemetry s))).
Proof.
  intros Hp. assert (Hr : runProjection base58 quote events = Ok s).
  { unfold projectOnChainEvents in Hp. apply bind_Ok in Hp as (s' & Hr & Hp). by case_match; simplify_eq. }
  destruct (runProjection_cases events) as [[(s' & Hs & Hi) _]|[He _]]; [|congruence]. rewrite Hr in Hs. injection Hs as <-.
  destruct (accepted_spec (sortedInputs quote events)) as (A1 & A2 & A3 & A4).
  exists (accepted (sortedInputs quote events)). split_and!; [done|done| |done|apply Hi|apply Hi| |].
  - by apply Forall_forall.
  - pose proof (f_equal (map (fun r => r.1.1.1.1.1)) (pi_records _ _ Hi)) as Hm. rewrite !map_map in Hm. unfold recordFields, recordOf in Hm.
    cbn [fst] in Hm. change (map p_slot (projected s)) with (map (fun x => p_slot x) (projected s)). rewrite Hm. eapply sublist_sorted; [|apply sorted_slots]. by apply (fmap_sublist (fun x => i_slot (it_input x))).
  - destruct (pi_counts _ _ Hi) as [<- Hc]. unfold sortedInputs in Hc. rewrite sort_by_length, length_imap in Hc. lia.
Qed.

(** ** The lives of tasks, disputes and speculations *)

(** The whole lives that strict mode accepts, written out. *)
Definition taskLives : list (list string) := [
  ["discovered"; "failed"];
  ["discovered"; "claimed"; "completed"]; ["discovered"; "claimed"; "failed"];
  ["discovered"; "claimed"; "disputed"; "completed"]; ["discovered"; "claimed"; "disputed"; "failed"]].

Definition disputeLives : list (list string) := [
  ["dispute:initiated"; "dispute:resolved"]; ["dispute:initiated"; "dispute:cancelled"]; ["dispute:initiated"; "dispute:expired"];
  ["dispute:initiated"; "dispute:vote_cast"; "dispute:resolved"]; ["dispute:initiated"; "dispute:vote_cast"; "dispute:cancelled"];
  ["dispute:initiated"; "dispute:vote_cast"; "dispute:expired"]].

Definition speculationLives : list (list string) := [
  ["speculation_started"; "speculation_confirmed"]; ["speculation_started"; "speculation_aborted"]].

(** The history is the start of a life, or all of it. *)
Definition partOf (lives : list (list string)) (h : list string) : Prop := exists life, life ∈ lives /\ h `prefix_of` life.

(** The starts of the lives, and whether they are the paths of a table. *)
Definition starts (lives : list (list string)) : list (list string) := concat (map (fun life => map (fun k => take k life) (seq 0 (S (length life)))) lives).

Definition successors (tr : jsmap (list string)) (st : list string) (h : list string) : list string :=
  match last h with Some p => default [] (mget tr p) | None => st end.

Definition livesMatch (tr : jsmap (list string)) (st : list string) (lives : list (list string)) : bool :=
  bool_decide ([] ∈ starts lives) &&
  forallb (fun h => forallb (fun x => bool_decide ((h ++ [x])%list ∈ starts lives)) (successors tr st h)) (starts lives) &&
  forallb (fun h => match last h with Some x => has (successors tr st (removelast h)) x && bool_decide (removelast h ∈ starts lives) | None => true end) (starts lives).

Lemma starts_partOf lives h : h ∈ starts lives <-> partOf lives h.
Proof.
  unfold starts, partOf. rewrite list_elem_of_In, in_concat. setoid_rewrite in_map_iff. split.
  - intros (l & (life & <- & Hl) & Hh). apply in_map_iff in Hh as (k & <- & _). exists life. split; [by apply list_elem_of_In|]. apply prefix_take.
  - intros (life & Hl & [t ->]). eexists. split; [exists (h ++ t)%list; split; [done|by apply list_elem_of_In]|]. apply in_map_iff. exists (length h).
    split; [apply take_app_length|]. apply in_seq. rewrite length_app. lia.
Qed.

Lemma successors_legal tr st h x : x ∈ successors tr st h <-> legalStep tr st (last h) x.
Proof.
  unfold successors, legalStep. destruct (last h) as [p|]; [|done]. destruct (mget tr p) as [allowed|]; cbn; split.
  - eauto.
  - by intros (a & [= <-] & Hx).
  - by intros ?%not_elem_of_nil.
  - by intros (a & ? & _).
Qed.

(** Being part of a life is going along the table. *)
Lemma livesMatch_spec tr st lives h : livesMatch tr st lives = true -> (legalPath tr st h <-> partOf lives h).
Proof.
  unfold livesMatch. rewrite !andb_true_iff, bool_decide_eq_true, !forallb_forall. intros [[Hn Hf] Hb]. rewrite <- starts_partOf.
  induction h as [|x h IH] using rev_ind; [by split; [|intros; apply legalPath_nil]|]. rewrite legalPath_snoc, IH, <- successors_legal. split.
  - intros [Hh Hx]. specialize (Hf h ltac:(by apply list_elem_of_In)). rewrite forallb_forall in Hf. specialize (Hf x ltac:(by apply list_elem_of_In)). by apply bool_decide_eq_true in Hf.
  - intros Hh. specialize (Hb _ ltac:(by apply list_elem_of_In)). rewrite last_snoc, removelast_last in Hb. apply andb_true_iff in Hb as [Hx Hp].
    apply bool_decide_eq_true in Hp. by apply has_true in Hx.
Qed.

(** Every task, dispute and speculation of the events lives one of these lives,
    as far as it got. *)
Definition allLive (l : list SortItem) : Prop :=
  (forall task, partOf taskLives (taskHistories l task)) /\ (forall dispute, partOf disputeLives (disputeHistories l dispute)) /\
  (forall speculation, partOf speculationLives (speculationHistories l speculation)).

Lemma legalHistory_lives l : legalHistory l <-> allLive l.
Proof.
  assert (Ht : livesMatch TASK_TRANSITIONS TASK_START_EVENTS taskLives = true) by (vm_compute; reflexivity).
  assert (Hd : livesMatch DISPUTE_TRANSITIONS DISPUTE_START_EVENTS disputeLives = true) by (vm_compute; reflexivity).
  assert (Hs : livesMatch SPECULATION_TRANSITIONS SPECULATION_START_EVENTS speculationLives = true) by (vm_compute; reflexivity).
  unfold legalHistory, allLive, legalAll. split; intros (H1 & H2 & H3); split_and!; intros e.
  all: first [apply (livesMatch_spec _ _ _ _ Ht), H1|apply (livesMatch_spec _ _ _ _ Hd), H2|apply (livesMatch_spec _ _ _ _ Hs), H3].
Qed.

End projector.
