(* ===== verification/Replay.v ===== *)
(** * Replay records and the timeline stores (src/runtime/src/replay)

    [types.ts], [trace.ts], [pda-utils.ts], [record.ts], [in-memory-store.ts]
    and [file-store.ts]. SHA-256 in hexadecimal is the parameter [sha256]
    (node:crypto). Sampling rates are rational numbers, and the quotient of
    the hash is compared exactly. The file of the file store holds the state it
    persisted itself: files of other schema versions are not modelled. *)
From Stdlib Require Import QArith_base.
From stdpp Require Import pretty.
From S2P Require Import Prelude JsMap JsString Encoding Transitions Projection.
#[local] Open Scope string_scope.
#[local] Open Scope Z_scope.

(** ** Cursors and records *)

Record ReplayEventCursor := {
  c_slot : Z;
  c_signature : string;
  c_eventName : option string;
  c_traceId : option string;
  c_traceSpanId : option string;
}.

Record ReplayTimelineRecord := {
  r_seq : Z;
  r_type : string;
  r_taskPda : option string;
  r_disputePda : option string;
  r_timestampMs : Z;
  r_payload : list (string * JsonValue);
  r_slot : Z;
  r_signature : string;
  r_sourceEventName : string;
  r_sourceEventType : string;
  r_sourceEventSequence : Z;
  r_projectionHash : string;
  r_traceId : string;
  r_traceSpanId : option string;
  r_traceParentSpanId : option string;
  r_traceSampled : bool;
}.

(** [!text] of an optional string. *)
Definition blank (o : option string) : bool := match o with Some s => isEmpty s | None => true end.

Definition stableReplayCursorString (cursor : option ReplayEventCursor) : string :=
  match cursor with
  | None => ""
  | Some c =>
      let base := pretty (c_slot c) +:+ ":" +:+ c_signature c +:+ ":" +:+ default "" (c_eventName c) in
      if blank (c_traceId c) && blank (c_traceSpanId c) then base
      else base +:+ ":" +:+ default "" (c_traceId c) +:+ ":" +:+ default "" (c_traceSpanId c)
  end.

Definition buildReplayKey (slot : Z) (signature sourceEventType : string) : string :=
  pretty slot +:+ "|" +:+ signature +:+ "|" +:+ sourceEventType.

Definition keyOf (r : ReplayTimelineRecord) : string := buildReplayKey (r_slot r) (r_signature r) (r_sourceEventType r).

Section replay.
Context `{Collation} (base58 : list Z -> string) (quote : string -> string) (sha256 : string -> string).

(** ** Hashes and traces *)

Definition optional (key : string) (o : option string) : list (string * JsonValue) :=
  match o with Some s => [(key, TextJ s)] | None => [] end.

Definition computeProjectionHash (e : ProjectedTimelineEvent) : string :=
  sha256 (stableStringifyJson quote (ObjectJ ([("slot", NumberJ (p_slot e)); ("signature", TextJ (p_signature e));
    ("sourceEventName", TextJ (p_sourceEventName e)); ("sourceEventSequence", NumberJ (p_sourceEventSequence e));
    ("payload", ObjectJ (p_payload e)); ("seq", NumberJ (p_seq e))] ++ optional "taskPda" (p_taskPda e) ++
    [("timestampMs", NumberJ (p_timestampMs e)); ("type", TextJ (p_type e))]))).

Definition normalizeSampleRate (sampleRate : Q) : Q :=
  if Qle_bool sampleRate 0%Q then 0%Q else if Qle_bool 1%Q sampleRate then 1%Q else sampleRate.

Definition deterministicSample (key : string) (sampleRate : Q) : bool :=
  if Qle_bool 1%Q sampleRate then true
  else if Qle_bool sampleRate 0%Q then false
  else match digits 16 (stake 8 (sha256 key)) with
    | Some value => negb (Qle_bool sampleRate (Qmake value 4294967295))
    | None => false
    end.

Definition deriveTraceId (base : option string) (slot : Z) (signature eventName : string) (eventSequence : Z) : string :=
  match present base with
  | Some b => b
  | None => stake 32 (sha256 ("agenc-runtime:" +:+ pretty slot +:+ ":" +:+ signature +:+ ":" +:+ eventName +:+ ":" +:+ pretty eventSequence))
  end.

Definition spanSeed (traceId eventName : string) (slot : Z) (signature : string) (eventSequence : Z) : string :=
  traceId +:+ ":" +:+ eventName +:+ ":" +:+ pretty slot +:+ ":" +:+ signature +:+ ":" +:+ pretty eventSequence.

Definition deriveSpanId (traceId eventName : string) (slot : Z) (signature : string) (eventSequence : Z) : string :=
  stake 16 (sha256 (spanSeed traceId eventName slot signature eventSequence)).

Definition buildReplayTraceContext (traceId : option string) (eventName : string) (slot : Z) (signature : string) (eventSequence : Z)
    (sampleRate : Q) : ReplayTraceContext :=
  let traceId := deriveTraceId traceId slot signature eventName eventSequence in {|
  tc_traceId := traceId; tc_spanId := deriveSpanId traceId eventName slot signature eventSequence; tc_parentSpanId := None;
  tc_sampled := deterministicSample (spanSeed traceId eventName slot signature eventSequence) (normalizeSampleRate sampleRate) |}.

(** ** PDAs *)

Definition bytesToPdaString (bytes : list Z) : option string :=
  match bytes with [] => None | _ => Some (if (length bytes =? 32)%nat then base58 bytes else bytesToHex bytes false) end.

(** [/^(0x)?[0-9a-fA-F]{64}$/]. *)
Definition isHex64 (s : string) : bool :=
  let s := if startsWith s "0x" then sdrop 2 s else s in (String.length s =? 64)%nat && sall isHex s.

Definition byteOf (v : JsonValue) : option Z :=
  match v with NumberJ z => if (0 <=? z) && (z <=? 255) then Some z else None | _ => None end.

Definition normalizePdaValue (value : option JsonValue) : option string :=
  match value with
  | Some (ArrayJ l) => match mapM byteOf l with Some bytes => bytesToPdaString bytes | None => None end
  | Some (TextJ s) =>
      if isEmpty s then None
      else if isHex64 s then
        match hexToBytes s with Ok bytes => if (length bytes =? 32)%nat then Some (base58 bytes) else Some s | Err _ => Some s end
      else Some s
  | _ => None
  end.

Definition jsonField (key : string) (v : option JsonValue) : option JsonValue :=
  match v with Some (ObjectJ fields) => mget fields key | _ => None end.

Definition extractDisputePdaFromPayload (payload : list (string * JsonValue)) : option string :=
  match present (normalizePdaValue (mget payload "disputeId")) with
  | Some d => Some d
  | None => present (normalizePdaValue (jsonField "disputeId" (mget payload "onchain")))
  end.

(** ** Records *)

Definition textOf (v : option JsonValue) : option string := match v with Some (TextJ s) => Some s | _ => None end.

Definition toReplayStoreRecord (e : ProjectedTimelineEvent) : ReplayTimelineRecord :=
  let trace := jsonField "trace" (mget (p_payload e) "onchain") in {|
  r_seq := p_seq e; r_type := p_type e; r_taskPda := p_taskPda e; r_disputePda := extractDisputePdaFromPayload (p_payload e);
  r_timestampMs := p_timestampMs e; r_payload := p_payload e; r_slot := p_slot e; r_signature := p_signature e;
  r_sourceEventName := p_sourceEventName e; r_sourceEventType := p_type e; r_sourceEventSequence := p_sourceEventSequence e;
  r_projectionHash := computeProjectionHash e;
  r_traceId := match textOf (jsonField "traceId" trace) with
    | Some t => t
    | None => deriveTraceId None (p_slot e) (p_signature e) (p_sourceEventName e) (p_sourceEventSequence e)
    end;
  r_traceSpanId := textOf (jsonField "spanId" trace); r_traceParentSpanId := textOf (jsonField "parentSpanId" trace);
  r_traceSampled := match jsonField "sampled" trace with Some (BoolJ b) => b | _ => false end |}.

(** ** The in-memory store *)

Record Store := { st_events : list ReplayTimelineRecord; st_ids : list string; st_cursor : option ReplayEventCursor }.

Definition emptyStore : Store := {| st_events := []; st_ids := []; st_cursor := None |}.

Record WriteResult := { inserted : Z; w_duplicates : Z }.

Definition saveOne (s : Store * WriteResult) (event : ReplayTimelineRecord) : Store * WriteResult :=
  if has (st_ids s.1) (keyOf event) then (s.1, {| inserted := inserted s.2; w_duplicates := w_duplicates s.2 + 1 |})
  else ({| st_events := st_events s.1 ++ [event]; st_ids := st_ids s.1 ++ [keyOf event]; st_cursor := st_cursor s.1 |},
        {| inserted := inserted s.2 + 1; w_duplicates := w_duplicates s.2 |}).

Definition save (s : Store) (records : list ReplayTimelineRecord) : Store * WriteResult :=
  foldl saveOne (s, {| inserted := 0; w_duplicates := 0 |}) records.

Record ReplayTimelineQuery := {
  q_taskPda : option string;
  q_disputePda : option string;
  q_fromSlot : option Z;
  q_toSlot : option Z;
  q_fromTimestampMs : option Z;
  q_toTimestampMs : option Z;
  q_limit : option Z;
  q_offset : option Z;
}.

Definition noFilter : ReplayTimelineQuery := {| q_taskPda := None; q_disputePda := None; q_fromSlot := None; q_toSlot := None;
  q_fromTimestampMs := None; q_toTimestampMs := None; q_limit := None; q_offset := None |}.

Definition compareRecords (left right : ReplayTimelineRecord) : comparison :=
  thenNumber (r_slot left) (r_slot right)
    (thenText (r_signature left) (r_signature right)
      (thenNumber (r_seq left) (r_seq right) (localeCompare (r_sourceEventType left) (r_sourceEventType right)))).

Definition sortReplayEvents (events : list ReplayTimelineRecord) : list ReplayTimelineRecord := sort_by compareRecords events.

(** A filter that is set, and not empty, is the value of the record. *)
Definition textPasses (filter value : option string) : bool :=
  match present filter with Some f => bool_decide (value = Some f) | None => true end.

Definition atLeast (bound : option Z) (value : Z) : bool := match bound with Some b => b <=? value | None => true end.
Definition atMost (bound : option Z) (value : Z) : bool := match bound with Some b => value <=? b | None => true end.

Definition passesFilter (filter : ReplayTimelineQuery) (event : ReplayTimelineRecord) : bool :=
  textPasses (q_taskPda filter) (r_taskPda event) && textPasses (q_disputePda filter) (r_disputePda event) &&
  atLeast (q_fromSlot filter) (r_slot event) && atMost (q_toSlot filter) (r_slot event) &&
  atLeast (q_fromTimestampMs filter) (r_timestampMs event) && atMost (q_toTimestampMs filter) (r_timestampMs event).

(** [l.slice(start, end)]: a negative index counts from the end. *)
Definition sliceIndex (n i : Z) : Z := if i <? 0 then Z.max 0 (n + i) else Z.min i n.
Definition slice {A} (start stop : Z) (l : list A) : list A :=
  let n := Z.of_nat (length l) in
  let from := sliceIndex n start in
  take (Z.to_nat (sliceIndex n stop - from)) (drop (Z.to_nat from) l).

Definition query (s : Store) (filter : ReplayTimelineQuery) : list ReplayTimelineRecord :=
  let all := sortReplayEvents (List.filter (passesFilter filter) (st_events s)) in
  let start := default 0 (q_offset filter) in
  let stop := match q_limit filter with None => Z.of_nat (length all) | Some limit => start + limit end in
  slice start stop all.

Definition saveCursor (s : Store) (cursor : option ReplayEventCursor) : Store :=
  {| st_events := st_events s; st_ids := st_ids s; st_cursor := cursor |}.

(** ** The file store *)

Record PersistedState := { f_cursor : option ReplayEventCursor; f_records : list ReplayTimelineRecord }.

(** The process, and the file it leaves behind. *)
Record FileStore := { fallback : Store; loaded : bool; file : option PersistedState }.

Definition emptyState : PersistedState := {| f_cursor := None; f_records := [] |}.
Definition persist (state : PersistedState) (s : FileStore) : FileStore :=
  {| fallback := fallback s; loaded := loaded s; file := Some state |}.
Definition withFallback (m : Store) (s : FileStore) : FileStore := {| fallback := m; loaded := loaded s; file := file s |}.
Definition setLoaded (s : FileStore) : FileStore := {| fallback := fallback s; loaded := true; file := file s |}.

(** [clear()], and [save(records)] if there are any. *)
Definition reload (records : list ReplayTimelineRecord) : Store :=
  match records with [] => emptyStore | _ => (save emptyStore records).1 end.

Definition getState (s : FileStore) : FileStore * PersistedState :=
  if loaded s then (s, {| f_cursor := st_cursor (fallback s); f_records := query (fallback s) noFilter |})
  else match file s with
    | None => (setLoaded (persist emptyState (withFallback emptyStore s)), emptyState)
    | Some parsed =>
        (setLoaded (withFallback (saveCursor (reload (f_records parsed)) (f_cursor parsed)) s), parsed)
    end.

Definition fileSave (s : FileStore) (records : list ReplayTimelineRecord) : FileStore * WriteResult :=
  let s := (getState s).1 in
  let '(m, result) := save (fallback s) records in
  let s := withFallback m s in
  (persist {| f_cursor := st_cursor m; f_records := query m noFilter |} s, result).

Definition fileQuery (s : FileStore) (filter : ReplayTimelineQuery) : FileStore * list ReplayTimelineRecord :=
  let s := (getState s).1 in (s, query (fallback s) filter).

Definition fileGetCursor (s : FileStore) : FileStore * option ReplayEventCursor :=
  let '(s, state) := getState s in (s, f_cursor state).

Definition fileSaveCursor (s : FileStore) (cursor : option ReplayEventCursor) : FileStore :=
  let '(s, state) := getState s in
  let s := persist {| f_cursor := cursor; f_records := f_records state |} s in
  withFallback (saveCursor (fallback s) cursor) s.

Definition fileClear (s : FileStore) : FileStore := withFallback emptyStore (persist emptyState s).

Definition fileFlush (s : FileStore) : FileStore := let '(s, state) := getState s in persist state s.

(** A new process on the same file. *)
Definition restart (s : FileStore) : FileStore := {| fallback := emptyStore; loaded := false; file := file s |}.
End replay.
