(* ===== verification/ReplaySpec.v ===== *)
(** * The timeline stores: one record per key, and a file that loses nothing *)
From Stdlib Require Import QArith_base.
From stdpp Require Import pretty sorting.
From S2P Require Import Prelude JsMap JsString Encoding Transitions Projection ProjectionOrder Replay.
#[local] Open Scope string_scope.
#[local] Open Scope Z_scope.

(** ** Stores *)

(** The ids are the keys of the records, each once. *)
Record store_ok (s : Store) : Prop := { so_ids : st_ids s = map keyOf (st_events s); so_nodup : NoDup (st_ids s) }.

(** Two stores with the same records, in any order. *)
Record store_equiv (s s' : Store) : Prop := {
  se_events : st_events s ≡ₚ st_events s';
  se_ids : st_ids s ≡ₚ st_ids s';
  se_cursor : st_cursor s = st_cursor s';
}.

#[export] Instance store_equiv_equivalence : Equivalence store_equiv.
Proof.
  split; [by split|intros ? ? []; by split|]. intros ? ? ? [] []. split; by etrans.
Qed.

Lemma emptyStore_ok : store_ok emptyStore.
Proof. split; [done|constructor]. Qed.

Lemma saveOne_ok s r : store_ok s.1 -> store_ok (saveOne s r).1.
Proof.
  intros [Hi Hn]. unfold saveOne. destruct (has _ _) eqn:Hh; [done|]. apply has_false in Hh. split; cbn.
  - by rewrite Hi, map_app.
  - apply NoDup_app. split_and!; [done| |apply NoDup_singleton]. by intros k Hk ->%list_elem_of_singleton.
Qed.

Lemma save_loop_ok s l : store_ok s.1 -> store_ok (foldl saveOne s l).1.
Proof. revert s. induction l as [|r l IH]; intros s Hs; [done|]. apply IH. by apply saveOne_ok. Qed.

Lemma save_ok s l : store_ok s -> store_ok (save s l).1.
Proof. intros Hs. by apply save_loop_ok. Qed.

#[export] Instance has_perm : Proper (Permutation ==> eq ==> eq) has.
Proof.
  intros l l' Hp k _ <-. apply eq_true_iff_eq. rewrite !has_true. by rewrite Hp.
Qed.

(** Saving respects the equivalence, and reports the same numbers. *)
Lemma saveOne_equiv s s' r : store_equiv s.1 s'.1 -> s.2 = s'.2 ->
  store_equiv (saveOne s r).1 (saveOne s' r).1 /\ (saveOne s r).2 = (saveOne s' r).2.
Proof.
  intros [E I C] W. unfold saveOne. rewrite I, W. destruct (has _ _); split; try done.
  split; cbn; [by rewrite E|by rewrite I|done].
Qed.

Lemma save_equiv s s' l : store_equiv s s' -> store_equiv (save s l).1 (save s' l).1 /\ (save s l).2 = (save s' l).2.
Proof.
  intros He. unfold save. generalize ({| inserted := 0; w_duplicates := 0 |}) as w. intros w.
  assert (Hs : store_equiv (s, w).1 (s', w).1 /\ (s, w).2 = (s', w).2) by done. revert Hs. generalize (s, w), (s', w).
  induction l as [|r l IH]; intros x y [H1 H2]; [done|]. cbn [foldl]. apply IH. by apply saveOne_equiv.
Qed.

(** Records with distinct keys that are not stored yet are all inserted. *)
Lemma save_fresh l : forall s w, store_ok s -> NoDup (map keyOf (st_events s ++ l)%list) ->
  st_events (foldl saveOne (s, w) l).1 = (st_events s ++ l)%list /\ st_cursor (foldl saveOne (s, w) l).1 = st_cursor s.
Proof.
  induction l as [|r l IH]; intros s w Hs Hn; cbn [foldl]; [by rewrite app_nil_r|]. unfold saveOne at 2 4. cbn [fst snd].
  assert (Hf : has (st_ids s) (keyOf r) = false).
  { apply has_false. rewrite (so_ids s Hs). rewrite map_app in Hn. apply NoDup_app in Hn as (_ & Hd & _). intros Hk.
    apply (Hd _ Hk). by constructor. }
  rewrite Hf. destruct (IH {| st_events := (st_events s ++ [r])%list; st_ids := (st_ids s ++ [keyOf r])%list; st_cursor := st_cursor s |}
    {| inserted := inserted w + 1; w_duplicates := w_duplicates w |}) as [E C].
  - pose proof (saveOne_ok (s, w) r Hs) as Ho. unfold saveOne in Ho. cbn [fst snd] in Ho. by rewrite Hf in Ho.
  - cbn [st_events]. by rewrite <- app_assoc.
  - cbn [st_events st_cursor] in E, C. rewrite E, C, <- app_assoc. done.
Qed.

(** ** What a save does *)

(** The keys of a store after a save are those before and those of the records. *)
Lemma save_keys l : forall s k, k ∈ st_ids (foldl saveOne s l).1 <-> k ∈ st_ids s.1 \/ k ∈ map keyOf l.
Proof.
  induction l as [|r l IH]; intros s k; cbn [foldl map]; [rewrite elem_of_nil; tauto|]. rewrite IH, elem_of_cons.
  unfold saveOne. destruct (has _ _) eqn:Hh; cbn [fst st_ids].
  - apply has_true in Hh. split; [tauto|]. intros [?|[-> |?]]; tauto.
  - rewrite elem_of_app, list_elem_of_singleton. tauto.
Qed.

(** Records are only added. *)
Lemma save_prefix l : forall s, exists new, st_events (foldl saveOne s l).1 = (st_events s.1 ++ new)%list /\ sublist new l /\
  inserted (foldl saveOne s l).2 = inserted s.2 + Z.of_nat (length new) /\
  inserted (foldl saveOne s l).2 + w_duplicates (foldl saveOne s l).2 = inserted s.2 + w_duplicates s.2 + Z.of_nat (length l) /\
  st_cursor (foldl saveOne s l).1 = st_cursor s.1.
Proof.
  induction l as [|r l IH]; intros s; cbn [foldl length].
  { exists []. rewrite app_nil_r. split_and!; [done|constructor|cbn; lia|lia|done]. }
  destruct (IH (saveOne s r)) as (new & E & S & I & D & C). revert E I D C. generalize (foldl saveOne (saveOne s r) l). intros y.
  unfold saveOne. destruct (has _ _); cbn; intros E I D C.
  - exists new. split_and!; [done|by constructor|done|lia|done].
  - exists (r :: new). rewrite <- app_assoc in E. split_and!; [done|by constructor|cbn; lia|lia|done].
Qed.

Section replay.
Context `{Collation}.
Hypothesis collation_separates : forall a b, localeCompare a b = Eq -> a = b.

(** ** Queries *)

Lemma ordered_records : ordered compareRecords.
Proof.
  pose proof ordered_Z. pose proof ordered_locale.
  apply (ordered_ext (lex (fun x y => Z.compare (r_slot x) (r_slot y)) (lex (fun x y => localeCompare (r_signature x) (r_signature y))
    (lex (fun x y => Z.compare (r_seq x) (r_seq y)) (fun x y => localeCompare (r_sourceEventType x) (r_sourceEventType y)))))).
  - intros x y. unfold compareRecords, lex, thenNumber. by rewrite !(thenText_lex collation_separates).
  - repeat apply ordered_lex; first [by apply (ordered_on r_slot)|by apply (ordered_on r_signature)|by apply (ordered_on r_seq)|
      by apply (ordered_on r_sourceEventType)].
Qed.

Lemma compareRecords_key a b : compareRecords a b = Eq -> keyOf a = keyOf b.
Proof.
  unfold compareRecords, thenNumber. destruct (Z.compare_spec (r_slot a) (r_slot b)) as [E1| |]; try done.
  rewrite (thenText_lex collation_separates). unfold lex. destruct (localeCompare (r_signature a) _) eqn:E2; try done.
  destruct (r_seq a ?= r_seq b); try done. intros E3. unfold keyOf. by rewrite E1, (collation_separates _ _ E2), (collation_separates _ _ E3).
Qed.

Lemma sortReplay_sorted l : StronglySorted (fun x y => compareRecords x y <> Gt) (sortReplayEvents l).
Proof.
  pose proof (ordered_Transitive _ ordered_records). apply (sort_by_sorted compareRecords (fun x y => compareRecords x y <> Gt)); [done|].
  intros x y Hg. rewrite (ord_opp _ ordered_records x y), Hg. done.
Qed.

(** Sorting the records of a store does not depend on their order. *)
Lemma sortReplay_perm l l' : l ≡ₚ l' -> NoDup (map keyOf l) -> sortReplayEvents l = sortReplayEvents l'.
Proof.
  intros Hp Hn. apply (StronglySorted_unique_strong (fun x y => compareRecords x y <> Gt)); [|apply sortReplay_sorted..|].
  - intros a b Ha Hb H1 H2. unfold sortReplayEvents in Ha, Hb. rewrite sort_by_elem_of in Ha, Hb. rewrite <- Hp in Hb.
    rewrite (ord_opp _ ordered_records a b) in H2. assert (Hc : compareRecords a b = Eq) by (by destruct (compareRecords a b)).
    apply compareRecords_key in Hc. apply list_elem_of_lookup in Ha as [i Hi]. apply list_elem_of_lookup in Hb as [j Hj].
    assert (i = j) as ->; [|congruence]. apply (NoDup_lookup (keyOf <$> l) i j (keyOf a) Hn); rewrite list_lookup_fmap.
    + by rewrite Hi.
    + rewrite Hj. cbn. by rewrite Hc.
  - unfold sortReplayEvents. by rewrite !sort_by_perm.
Qed.

Lemma filter_perm {A} (p : A -> bool) l l' : l ≡ₚ l' -> List.filter p l ≡ₚ List.filter p l'.
Proof.
  induction 1 as [|x l l' Hp IH|x y l|l1 l2 l3 ? IH1 ? IH2]; cbn; [done| | |by etrans].
  - case_match; [by constructor|done].
  - destruct (p x), (p y); try done. constructor.
Qed.

Lemma filter_keys (p : ReplayTimelineRecord -> bool) l : NoDup (map keyOf l) -> NoDup (map keyOf (List.filter p l)).
Proof.
  induction l as [|r l IH]; cbn; [done|]. rewrite NoDup_cons. intros [Hr Hn]. case_match; [|auto]. cbn. constructor; [|auto].
  intros Hk. apply Hr. apply list_elem_of_In, in_map_iff in Hk as (y & <- & Hy). apply filter_In in Hy as [Hy _].
  apply list_elem_of_In, in_map_iff. eauto.
Qed.

Lemma query_equiv s s' f : store_ok s -> store_equiv s s' -> query s f = query s' f.
Proof.
  intros [Hi Hn] [E _ _]. unfold query. rewrite Hi in Hn.
  by rewrite (sortReplay_perm _ _ (filter_perm (passesFilter f) _ _ E) (filter_keys _ _ Hn)).
Qed.

Lemma slice_all {A} (l : list A) : slice 0 (Z.of_nat (length l)) l = l.
Proof.
  unfold slice. assert (H0 : sliceIndex (Z.of_nat (length l)) 0 = 0) by (unfold sliceIndex; cbn; lia).
  assert (Hn : sliceIndex (Z.of_nat (length l)) (Z.of_nat (length l)) = Z.of_nat (length l)) by (unfold sliceIndex; case_match; lia).
  rewrite H0, Hn. cbn [Z.to_nat]. rewrite drop_0, take_ge; [done|lia].
Qed.

Lemma query_all s : query s noFilter ≡ₚ st_events s.
Proof.
  unfold query. cbn [q_limit q_offset noFilter default]. rewrite slice_all. unfold sortReplayEvents. rewrite sort_by_perm.
  by rewrite forallb_filter_id; [|apply forallb_forall].
Qed.

(** ** The file store *)

(** The file holds the records and the cursor of the store. *)
Definition recorded (f : option PersistedState) (m : Store) : Prop :=
  match f with
  | None => store_equiv m emptyStore
  | Some p => f_records p ≡ₚ st_events m /\ f_cursor p = st_cursor m
  end.

(** A file store stands for a store: by its file always, by its process once it
    has read the file. *)
Record simulates (m : Store) (s : FileStore) : Prop := {
  sim_ok : store_ok m;
  sim_file : recorded (file s) m;
  sim_memory : loaded s = true -> store_ok (fallback s) /\ store_equiv (fallback s) m;
}.

Lemma store_equiv_ids s s' : store_ok s -> store_ok s' -> st_events s ≡ₚ st_events s' -> st_cursor s = st_cursor s' -> store_equiv s s'.
Proof. intros [Hi _] [Hi' _] E C. split; [done|by rewrite Hi, Hi', E|done]. Qed.

Lemma reload_spec l : NoDup (map keyOf l) -> store_ok (reload l) /\ st_events (reload l) = l.
Proof.
  intros Hn. assert (Hr : reload l = (save emptyStore l).1) by (by destruct l). rewrite Hr. split; [apply save_ok, emptyStore_ok|].
  unfold save. by destruct (save_fresh l emptyStore {| inserted := 0; w_duplicates := 0 |}) as [-> _]; [apply emptyStore_ok|..].
Qed.

Lemma getState_sim m s : simulates m s ->
  simulates m (getState s).1 /\ loaded (getState s).1 = true /\
  f_records (getState s).2 ≡ₚ st_events m /\ f_cursor (getState s).2 = st_cursor m.
Proof.
  intros [Ho Hf Hm]. unfold getState. destruct (loaded s) eqn:Hl.
  { destruct (Hm eq_refl) as [Hok Heq]. cbn. split_and!; [by split|done| |apply Heq]. rewrite query_all. apply Heq. }
  destruct (file s) as [p|] eqn:Hp; cbn [fst snd recorded] in *.
  - destruct Hf as [Hr Hc].
    destruct (reload_spec (f_records p)) as [Hs1 Hs2]; [rewrite Hr; by destruct Ho as [<- Hn]|].
    assert (Hsc : store_ok (saveCursor (reload (f_records p)) (f_cursor p))) by (destruct Hs1; by split).
    split_and!; [|done|done|done]. split; [done|cbn; rewrite Hp; by split|]. intros _. split; [exact Hsc|]. apply store_equiv_ids; [done..| |done].
    cbn. by rewrite Hs2.
  - destruct Hf as [E I C]. split_and!; [|done|by symmetry|by symmetry].
    split; cbn; [done|split; by symmetry|]. intros _. split; [apply emptyStore_ok|]. split; by symmetry.
Qed.

Lemma fileSave_sim m s records : simulates m s -> simulates (save m records).1 (fileSave s records).1 /\ (fileSave s records).2 = (save m records).2.
Proof.
  intros Hs. destruct (getState_sim m s Hs) as ([Ho Hf Hm] & Hl & _). destruct (Hm Hl) as [Hok Heq].
  unfold fileSave. destruct (save_equiv _ _ records Heq) as [He Hw]. pose proof (save_ok _ records Hok) as Hok'. pose proof (save_ok _ records Ho) as Ho'.
  destruct (save (fallback _) records) as [m1 w1], (save m records) as [m2 w2]. cbn in *. split; [|done].
  split; [done| |done]. cbn. rewrite query_all. split; apply He.
Qed.

Lemma fileSaveCursor_sim m s cursor : simulates m s -> simulates (saveCursor m cursor) (fileSaveCursor s cursor).
Proof.
  intros Hs. destruct (getState_sim m s Hs) as ([Ho Hf Hm] & Hl & Hr & Hc). destruct (Hm Hl) as [Hok Heq].
  unfold fileSaveCursor. destruct (getState s) as [s' st]. cbn in *. split; cbn; [destruct Ho; by split|done|].
  intros _. split; [destruct Hok; by split|]. destruct Heq. by split.
Qed.

Lemma restart_sim m s : simulates m s -> simulates m (restart s).
Proof. intros [Ho Hf _]. by split. Qed.

(** The operations of a timeline store, and restarts of the process. *)
Inductive StoreOp :=
| OpSave (records : list ReplayTimelineRecord)
| OpQuery (filter : ReplayTimelineQuery)
| OpGetCursor
| OpSaveCursor (cursor : option ReplayEventCursor)
| OpClear
| OpFlush
| OpRestart.

Inductive StoreReply :=
| Written (result : WriteResult)
| Records (records : list ReplayTimelineRecord)
| Cursor (cursor : option ReplayEventCursor)
| Unit.

(** The specification: the in-memory store, on which restarts have no effect. *)
Definition memoryOp (m : Store) (op : StoreOp) : Store * StoreReply :=
  match op with
  | OpSave records => let '(m, w) := save m records in (m, Written w)
  | OpQuery filter => (m, Records (query m filter))
  | OpGetCursor => (m, Cursor (st_cursor m))
  | OpSaveCursor cursor => (saveCursor m cursor, Unit)
  | OpClear => (emptyStore, Unit)
  | OpFlush | OpRestart => (m, Unit)
  end.

Definition fileOp (s : FileStore) (op : StoreOp) : FileStore * StoreReply :=
  match op with
  | OpSave records => let '(s, w) := fileSave s records in (s, Written w)
  | OpQuery filter => let '(s, l) := fileQuery s filter in (s, Records l)
  | OpGetCursor => let '(s, c) := fileGetCursor s in (s, Cursor c)
  | OpSaveCursor cursor => (fileSaveCursor s cursor, Unit)
  | OpClear => (fileClear s, Unit)
  | OpFlush => (fileFlush s, Unit)
  | OpRestart => (restart s, Unit)
  end.

Fixpoint replies {S} (f : S -> StoreOp -> S * StoreReply) (s : S) (ops : list StoreOp) : list StoreReply :=
  match ops with [] => [] | op :: rest => let '(s, r) := f s op in r :: replies f s rest end.

Lemma fileOp_sim m s op : simulates m s ->
  simulates (memoryOp m op).1 (fileOp s op).1 /\ (fileOp s op).2 = (memoryOp m op).2.
Proof.
  intros Hs. destruct (getState_sim m s Hs) as ([Ho Hf Hm] & Hl & Hr & Hc). destruct (Hm Hl) as [Hok Heq].
  destruct op as [records|filter| |cursor| | |]; cbn [fileOp memoryOp].
  - destruct (fileSave_sim m s records Hs) as [H1 H2]. destruct (fileSave s records), (save m records). cbn in *. by rewrite H2.
  - unfold fileQuery. cbn. split; [by split|]. by rewrite (query_equiv _ _ filter Hok Heq).
  - unfold fileGetCursor. destruct (getState s) as [s' st]. cbn in *. split; [by split|by rewrite Hc].
  - split; [by apply fileSaveCursor_sim|done].
  - split; [|done]. split; cbn; [apply emptyStore_ok|done|]. intros _. split; [apply emptyStore_ok|done].
  - unfold fileFlush. destruct (getState s) as [s' st]. cbn in *. split; [|done]. split; cbn; [done..|]. auto.
  - split; [by apply restart_sim|done].
Qed.

Lemma file_store_sim ops : forall m s, simulates m s -> replies fileOp s ops = replies memoryOp m ops.
Proof.
  induction ops as [|op ops IH]; intros m s Hs; [done|]. cbn [replies]. destruct (fileOp_sim m s op Hs) as [Hs' Hr].
  destruct (fileOp s op) as [s1 r1], (memoryOp m op) as [m1 r2]. cbn in *. rewrite Hr. f_equal. by apply IH.
Qed.

(** The file store refines the in-memory store and survives restarts: over
    every sequence of saves, queries, cursor updates, clears and flushes, with
    the process restarted anywhere in between, every reply is the reply of a
    store in memory that never restarts. *)
Theorem file_store_refines_memory ops :
  replies fileOp {| fallback := emptyStore; loaded := false; file := None |} ops = replies memoryOp emptyStore ops.
Proof. apply file_store_sim. split; [apply emptyStore_ok|done|done]. Qed.
End replay.
