(* ===== verification/ReplayBackfill.v ===== *)
(** * Backfill and realtime ingestion (src/runtime/src/replay/backfill.ts, bridge.ts)

    Both write to any timeline store: [TimelineStore] is what they rely on, the
    in-memory and the file store are instances. The fetcher is the parameter
    [fetchPage]. Alerts and spans leave no state and are left out. *)
From Stdlib Require Import QArith_base.
From stdpp Require Import pretty.
From S2P Require Import Prelude JsMap JsString Encoding Transitions Projection Replay.
#[local] Open Scope string_scope.
#[local] Open Scope Z_scope.

(** ** The interface of the stores *)

(** [save] and [saveCursor] may throw; a save that throws may have kept some of
    the records. [reopen] is the store as the next run finds it after a crash of
    the one before: a new process reads the file; the store in memory is kept by
    the process, of which only the run died (it is lost with its process). *)
Class TimelineStore (S : Type) := {
  storeSave : S -> list ReplayTimelineRecord -> S * option WriteResult;
  storeGetCursor : S -> option ReplayEventCursor;
  storeSaveCursor : S -> option ReplayEventCursor -> S * bool;
  reopen : S -> S;
}.

(** ** Pages *)

Record BackfillFetcherPage := { pg_events : list OnChainProjectionInput; pg_nextCursor : option ReplayEventCursor; pg_done : bool }.

Record BackfillResult := {
  res_processed : Z;
  res_duplicates : Z;
  res_cursor : option ReplayEventCursor;
  res_duplicateReport : option (Z * list string);
}.

Inductive BackfillOutcome :=
| Completed (r : BackfillResult)
| StoppedEarly (r : BackfillResult)
| Stalled
| ProjectionThrew (e : projection_error).

(** The variables of [runBackfill]. *)
Record Backfill := {
  b_cursor : option ReplayEventCursor;
  b_processed : Z;
  b_duplicates : Z;
  b_duplicateKeys : list string;
  b_previousCursor : string;
  b_traceId : string;
  b_sequenceOffset : Z;
}.

Record BackfillOptions := { o_toSlot : Z; o_pageSize : Z; o_traceId : option string; o_sampleRate : Q }.

Definition DEFAULT_BACKFILL_PAGE_SIZE : Z := 100.

Definition cursorValid (c : ReplayEventCursor) : bool := (0 <=? c_slot c) && negb (isEmpty (c_signature c)).

Definition resultOf (b : Backfill) : BackfillResult := {|
  res_processed := b_processed b; res_duplicates := b_duplicates b; res_cursor := b_cursor b;
  res_duplicateReport := match b_duplicateKeys b with [] => None | keys => Some (b_duplicates b, sort_by String.compare keys) end |}.

Section backfill.
Context `{Collation} (base58 : list Z -> string) (quote : string -> string) (sha256 : string -> string).
Context {S : Type} `{TimelineStore S}.
Context (options : BackfillOptions) (fetchPage : option ReplayEventCursor -> Z -> Z -> BackfillFetcherPage).

Definition fetch (cursor : option ReplayEventCursor) : BackfillFetcherPage := fetchPage cursor (o_toSlot options) (o_pageSize options).

(** The start of a run: the stored cursor, reset when it is not valid; an error
    of the reset is ignored. *)
Definition startBackfill (s : S) : S * Backfill :=
  let cursor := storeGetCursor s in
  let b c := {| b_cursor := c; b_processed := 0; b_duplicates := 0; b_duplicateKeys := []; b_previousCursor := stableReplayCursorString cursor;
    b_traceId := default (default "replay-backfill" (cursor ≫= c_traceId)) (o_traceId options); b_sequenceOffset := 0 |} in
  match cursor with
  | Some c => if cursorValid c then (s, b cursor) else ((storeSaveCursor s None).1, b None)
  | None => (s, b None)
  end.

Definition prepareEvent (b : Backfill) (index : nat) (event : OnChainProjectionInput) : OnChainProjectionInput :=
  let sequence := default (b_sequenceOffset b + Z.of_nat index) (i_sourceEventSequence event) in {|
  i_eventName := i_eventName event; i_event := i_event event; i_slot := i_slot event; i_signature := i_signature event;
  i_timestampMs := i_timestampMs event;
  i_traceContext := Some (default (buildReplayTraceContext sha256 (Some (b_traceId b)) (i_eventName event) (i_slot event) (i_signature event)
    sequence (o_sampleRate options)) (i_traceContext event));
  i_sourceEventSequence := Some sequence |}.

Definition pageEvents (b : Backfill) (page : BackfillFetcherPage) : list OnChainProjectionInput := imap (prepareEvent b) (pg_events page).

(** The counts and the keys after a page was written. *)
Definition countPage (b : Backfill) (w : WriteResult) (records : list ReplayTimelineRecord) : Backfill := {|
  b_cursor := b_cursor b; b_processed := b_processed b + inserted w; b_duplicates := b_duplicates b + w_duplicates w;
  b_duplicateKeys := if (0 <? w_duplicates w) && (inserted w =? 0) then b_duplicateKeys b ++ map keyOf records else b_duplicateKeys b;
  b_previousCursor := b_previousCursor b; b_traceId := b_traceId b; b_sequenceOffset := b_sequenceOffset b |}.

(** Projecting and saving a page; on an error the run ends. *)
Definition savePage (s : S) (b : Backfill) (page : BackfillFetcherPage) : S * (BackfillOutcome + Backfill) :=
  match pg_events page with
  | [] => (s, inr b)
  | _ =>
      match projectOnChainEvents base58 quote (pageEvents b page) false with
      | Err e => (s, inl (ProjectionThrew e))
      | Ok p =>
          let records := map (toReplayStoreRecord base58 quote sha256) (projected p) in
          let '(s, written) := storeSave s records in
          match written with
          | None => (s, inl (StoppedEarly (resultOf b)))
          | Some w => (s, inr (countPage b w records))
          end
      end
  end.

(** The cursor that is stored after a page. *)
Definition cursorToSave (b : Backfill) (page : BackfillFetcherPage) : option ReplayEventCursor :=
  let lastTraceSpanId := match last (pageEvents b page) with
    | Some event => tc_spanId <$> i_traceContext event
    | None => b_cursor b ≫= c_traceSpanId
    end in
  (fun c => {| c_slot := c_slot c; c_signature := c_signature c; c_eventName := c_eventName c; c_traceId := Some (b_traceId b);
    c_traceSpanId := match c_traceSpanId c with Some t => Some t | None => lastTraceSpanId end |}) <$> pg_nextCursor page.

Definition advanceTo (b : Backfill) (page : BackfillFetcherPage) : Backfill := {|
  b_cursor := pg_nextCursor page; b_processed := b_processed b; b_duplicates := b_duplicates b; b_duplicateKeys := b_duplicateKeys b;
  b_previousCursor := b_previousCursor b; b_traceId := b_traceId b; b_sequenceOffset := b_sequenceOffset b + Z.of_nat (length (pg_events page)) |}.

Definition rememberCursor (b : Backfill) : Backfill := {|
  b_cursor := b_cursor b; b_processed := b_processed b; b_duplicates := b_duplicates b; b_duplicateKeys := b_duplicateKeys b;
  b_previousCursor := stableReplayCursorString (b_cursor b); b_traceId := b_traceId b; b_sequenceOffset := b_sequenceOffset b |}.

(** Storing the cursor after a page, and the end of the loop's body. *)
Definition commitPage (s : S) (b : Backfill) (page : BackfillFetcherPage) : S * (BackfillOutcome + Backfill) :=
  let '(s, stored) := storeSaveCursor s (cursorToSave b page) in
  if stored then
    let b := advanceTo b page in
    if pg_done page then (s, inl (Completed (resultOf b)))
    else if (match pg_events page with [] => true | _ => false end) &&
            String.eqb (stableReplayCursorString (b_cursor b)) (b_previousCursor b) then (s, inl Stalled)
    else (s, inr (rememberCursor b))
  else (s, inl (StoppedEarly (resultOf b))).

Fixpoint backfillLoop (fuel : nat) (s : S) (b : Backfill) : option (S * BackfillOutcome) :=
  match fuel with
  | O => None
  | Datatypes.S fuel =>
      let page := fetch (b_cursor b) in
      match savePage s b page with
      | (s, inl o) => Some (s, o)
      | (s, inr b) =>
          match commitPage s b page with
          | (s, inl o) => Some (s, o)
          | (s, inr b) => backfillLoop fuel s b
          end
      end
  end.

Definition runBackfill (fuel : nat) (s : S) : option (S * BackfillOutcome) :=
  let '(s, b) := startBackfill s in backfillLoop fuel s b.

(** ** The bridge *)

Record Bridge := { lastSlot : jsmap Z; intakeSequence : Z }.

Record BridgeOptions := { br_traceId : string; br_sampleRate : Q; br_strict : bool }.

Definition strictTelemetryErrors (t : ProjectionTelemetry) : list string :=
  (map (fun m => "malformed:" +:+ m) (malformedInputs t) ++ map (fun m => "unknown:" +:+ m) (unknownEvents t) ++
   map (fun m => "transition:" +:+ m) (transitionConflicts t))%list.

Inductive IngestOutcome := Ingested | IngestProjectionThrew (e : projection_error) | SaveThrew | StrictModeFailed (issues : list string).

Definition noteSlot (input : OnChainProjectionInput) (b : Bridge) : Bridge :=
  {| lastSlot := match mget (lastSlot b) (i_eventName input) with
       | Some previous => if previous <=? i_slot input then mset (i_eventName input) (i_slot input) (lastSlot b) else lastSlot b
       | None => mset (i_eventName input) (i_slot input) (lastSlot b)
       end;
     intakeSequence := intakeSequence b |}.

Definition ingest (bo : BridgeOptions) (s : S) (b : Bridge) (input : OnChainProjectionInput) : S * Bridge * IngestOutcome :=
  let b := noteSlot input b in
  let event := {| i_eventName := i_eventName input; i_event := i_event input; i_slot := i_slot input; i_signature := i_signature input;
    i_timestampMs := i_timestampMs input;
    i_traceContext := Some (default (buildReplayTraceContext sha256 (Some (br_traceId bo)) (i_eventName input) (i_slot input) (i_signature input)
      (default 0 (i_sourceEventSequence input)) (br_sampleRate bo)) (i_traceContext input));
    i_sourceEventSequence := i_sourceEventSequence input |} in
  match projectOnChainEvents base58 quote [event] false with
  | Err e => (s, b, IngestProjectionThrew e)
  | Ok p =>
      match map (toReplayStoreRecord base58 quote sha256) (projected p) with
      | [] => (s, b, Ingested)
      | records =>
          let '(s, written) := storeSave s records in
          match written with
          | None => (s, b, SaveThrew)
          | Some _ =>
              match strictTelemetryErrors (telemetry p) with
              | [] => (s, b, Ingested)
              | issues => (s, b, if br_strict bo then StrictModeFailed issues else Ingested)
              end
          end
      end
  end.

Definition capture (bo : BridgeOptions) (s : S) (b : Bridge) (eventName : string) (event : JsValue) (slot : Z) (signature : string)
    : S * Bridge * IngestOutcome :=
  let sequence := intakeSequence b in
  ingest bo s {| lastSlot := lastSlot b; intakeSequence := sequence + 1 |}
    {| i_eventName := eventName; i_event := event; i_slot := slot; i_signature := signature; i_timestampMs := None;
       i_traceContext := Some (buildReplayTraceContext sha256 (Some (br_traceId bo)) eventName slot signature sequence (br_sampleRate bo));
       i_sourceEventSequence := Some sequence |}.
End backfill.

(** ** The stores *)

#[export] Instance memory_timeline_store : TimelineStore Store := {|
  storeSave s records := let '(s, w) := save s records in (s, Some w);
  storeGetCursor := st_cursor;
  storeSaveCursor s cursor := (saveCursor s cursor, true);
  reopen s := s |}.

#[export] Instance file_timeline_store `{Collation} : TimelineStore FileStore := {|
  storeSave s records := let '(s, w) := fileSave s records in (s, Some w);
  storeGetCursor s := (fileGetCursor s).2;
  storeSaveCursor s cursor := (fileSaveCursor s cursor, true);
  reopen := restart |}.
