(* ===== verification/ReplayBackfillSpec.v ===== *)
(** * Backfill stores every event once, through crashes and failed writes *)
From Stdlib Require Import QArith_base.
From stdpp Require Import pretty sorting.
From S2P Require Import Prelude JsMap JsString Encoding Transitions Projection ProjectionJson ProjectionOrder ProjectionSpec Replay ReplaySpec ReplayBackfill.
#[local] Open Scope string_scope.
#[local] Open Scope Z_scope.

(** ** What a store promises *)

Class StoreLaws (S : Type) `{TimelineStore S} := {
  valid : S -> Prop;
  keys : S -> list string;
  valid_NoDup s : valid s -> NoDup (keys s);
  save_law s l s' w : valid s -> storeSave s l = (s', Some w) ->
    valid s' /\ storeGetCursor s' = storeGetCursor s /\ forall k, k ∈ keys s' <-> k ∈ keys s \/ k ∈ map keyOf l;
  save_failure_law s l s' : valid s -> storeSave s l = (s', None) ->
    valid s' /\ storeGetCursor s' = storeGetCursor s /\ (forall k, k ∈ keys s -> k ∈ keys s') /\
    (forall k, k ∈ keys s' -> k ∈ keys s \/ k ∈ map keyOf l);
  cursor_law s c s' ok : valid s -> storeSaveCursor s c = (s', ok) ->
    valid s' /\ (forall k, k ∈ keys s' <-> k ∈ keys s) /\
    (storeGetCursor s' = c \/ ok = false /\ storeGetCursor s' = storeGetCursor s);
  reopen_law s : valid s -> valid (reopen s) /\ storeGetCursor (reopen s) = storeGetCursor s /\ forall k, k ∈ keys (reopen s) <-> k ∈ keys s;
}.

#[export] Instance memory_store_laws : StoreLaws Store.
Proof.
  refine {| valid := store_ok; keys := st_ids |}.
  - by intros s [_ Hn].
  - intros s l s' w Hs. cbn. pose proof (save_ok s l Hs) as Ho. pose proof (save_keys l (s, {| inserted := 0; w_duplicates := 0 |})) as Hk.
    destruct (save_prefix l (s, {| inserted := 0; w_duplicates := 0 |})) as (new & _ & _ & _ & _ & C). fold (save s l) in Hk, C.
    destruct (save s l) as [s1 w1]. cbn [fst] in *. by intros [= -> ->].
  - intros s l s' _. cbn. by destruct (save s l).
  - intros s c s' ok [Hi Hn] [= <- <-]. split; [by split|]. split; [done|by left].
  - done.
Defined.

Section file.
Context `{Collation}.

(** The keys of the records in the file, or of the process that read it. *)
#[export] Instance file_store_laws : StoreLaws FileStore.
Proof.
  assert (Hget : forall m s, simulates m s -> (fileGetCursor s).2 = st_cursor m).
  { intros m s Hs. unfold fileGetCursor. destruct (getState_sim m s Hs) as (_ & _ & _ & Hc). by destruct (getState s). }
  assert (Hkeys : forall m s, simulates m s -> map keyOf (f_records (getState s).2) ≡ₚ st_ids m).
  { intros m s Hs. destruct (getState_sim m s Hs) as (_ & _ & Hr & _). rewrite Hr. by rewrite (so_ids m (sim_ok m s Hs)). }
  refine {| valid := fun s => exists m, simulates m s; keys := fun s => map keyOf (f_records (getState s).2) |}.
  - intros s [m Hs]. rewrite (Hkeys m s Hs). apply (sim_ok m s Hs).
  - intros s l s' w [m Hs] Hsv. destruct (fileSave_sim m s l Hs) as [Hs' _]. cbn in Hsv. destruct (fileSave s l) as [s1 w1]. injection Hsv as -> <-.
    cbn [fst] in Hs'. split; [eauto|]. cbn [storeGetCursor file_timeline_store]. rewrite (Hget _ _ Hs'), (Hget _ _ Hs). split.
    + unfold save. by destruct (save_prefix l (m, {| inserted := 0; w_duplicates := 0 |})) as (new & _ & _ & _ & _ & ->).
    + intros k. rewrite (Hkeys _ _ Hs'), (Hkeys _ _ Hs). apply (save_keys l (m, {| inserted := 0; w_duplicates := 0 |})).
  - intros s l s' _. cbn. by destruct (fileSave s l).
  - intros s c s' ok [m Hs] [= <- <-]. pose proof (fileSaveCursor_sim m s c Hs) as Hs'. split; [eauto|]. split.
    + intros k. by rewrite (Hkeys _ _ Hs'), (Hkeys _ _ Hs).
    + left. cbn [storeGetCursor file_timeline_store]. by rewrite (Hget _ _ Hs').
  - intros s [m Hs]. pose proof (restart_sim m s Hs) as Hs'. split; [eauto|]. cbn [storeGetCursor reopen file_timeline_store].
    rewrite (Hget _ _ Hs'), (Hget _ _ Hs). split; [done|]. intros k. by rewrite (Hkeys _ _ Hs'), (Hkeys _ _ Hs).
Defined.
End file.

(** ** The events of a page *)

Definition inputType (i : OnChainProjectionInput) : string := default "" (mget TRAJECTORY_EVENT_BY_SOURCE (i_eventName i)).

(** Events that are projected: named, in a slot, signed and known. *)
Definition inputOk (i : OnChainProjectionInput) : bool :=
  negb (isEmpty (i_eventName i)) && (0 <=? i_slot i) && negb (isEmpty (i_signature i)) && isKnownEvent (i_eventName i).

Definition inputKey (i : OnChainProjectionInput) : string := buildReplayKey (i_slot i) (i_signature i) (inputType i).

(** The keys of a list of events. *)
Definition delivered (l : list OnChainProjectionInput) (k : string) : Prop := exists i, i ∈ l /\ inputOk i = true /\ k = inputKey i.

(** The vote counts of the event can be read. *)
Definition readable (i : OnChainProjectionInput) : Prop :=
  is_Some (votesOf (eventField (i_event i) "votesFor")) /\ is_Some (votesOf (eventField (i_event i) "votesAgainst")).

Section pages.
Context `{Collation} (base58 : list Z -> string) (quote : string -> string) (sha256 : string -> string).
Hypothesis quote_head : forall s, exists rest, quote s = String (Ascii.ascii_of_nat 34) rest.
Hypothesis quote_delimited : forall a b x y, quote a +:+ x = quote b +:+ y -> a = b /\ x = y.

Notation toRecord := (toReplayStoreRecord base58 quote sha256).

Lemma project_inv events p : projectOnChainEvents base58 quote events false = Ok p -> proj_inv base58 (sortedInputs quote events) p.
Proof.
  unfold projectOnChainEvents. destruct (runProjection_cases base58 quote events) as [[(s & -> & Hi) _]|[-> _]]; cbn; [|done]. by intros [= <-].
Qed.

(** The records of a projection have the keys of its well-formed inputs. *)
Lemma projected_keys events p : projectOnChainEvents base58 quote events false = Ok p ->
  forall k, k ∈ map keyOf (map toRecord (projected p)) <-> delivered events k.
Proof.
  intros Hp k. apply project_inv in Hp. set (l := sortedInputs quote events) in *.
  assert (Hk : map keyOf (map toRecord (projected p)) = map (fun x => inputKey (it_input x)) (accepted l)).
  { pose proof (f_equal (map (fun r => buildReplayKey r.1.1.1.1.1 r.1.1.1.1.2 r.1.1.2)) (pi_records _ _ _ Hp)) as Hm.
    rewrite !map_map in *. exact Hm. }
  rewrite Hk. destruct (accepted_spec l) as (A1 & A2 & A3 & A4). rewrite Forall_forall in A3. split.
  - intros Hx. apply list_elem_of_fmap in Hx as (x & -> & Hx). exists (it_input x). split_and!; [|by apply (A3 x Hx)|done].
    rewrite <- (sorted_perm quote events). apply list_elem_of_fmap_2. by apply (sublist_subseteq _ _ A1).
  - intros (i & Hi & Hw & ->). rewrite <- (sorted_perm quote events) in Hi. apply list_elem_of_fmap in Hi as (x & -> & Hx).
    apply A4 in Hw as Hf; [|done]. apply list_elem_of_fmap in Hf as (y & He & Hy). apply list_elem_of_fmap. exists y. split; [|done].
    assert (Hy' : y ∈ l) by (by apply (sublist_subseteq _ _ A1)).
    apply sorted_items in Hx as (n & Ex). apply sorted_items in Hy' as (m & Ey). rewrite Ex, Ey in He. cbn [it_fingerprint itemOf] in He.
    apply (fingerprint_key quote quote_head quote_delimited) in He as (E1 & E2 & E3). unfold inputKey, inputType. by rewrite E1, E2, E3.
Qed.

(** A page of readable votes is projected. *)
Lemma readable_projects events : (forall i, i ∈ events -> readable i) -> exists p, projectOnChainEvents base58 quote events false = Ok p.
Proof.
  intros Hr. unfold projectOnChainEvents. destruct (runProjection_cases base58 quote events) as [[(s & -> & _) _]|[_ Hb]]; [by exists s|exfalso].
  destruct Hb as (pre & x & suf & Heq & _ & _ & _ & Hv). destruct (Hr (it_input x)) as [[v1 H1] [v2 H2]].
  - rewrite <- (sorted_perm quote events), Heq. apply list_elem_of_fmap_2, elem_of_app. right. constructor.
  - unfold unreadableVotes in Hv. rewrite H1, H2 in Hv. by destruct Hv.
Qed.
End pages.

(** ** Positions *)

(** What the fetcher reads of a cursor. *)
Definition positionOf (c : option ReplayEventCursor) : option (Z * string * option string) :=
  (fun c => (c_slot c, c_signature c, c_eventName c)) <$> c.

Section system.
Context `{HC : Collation} (base58 : list Z -> string) (quote : string -> string) (sha256 : string -> string).
Hypothesis quote_head : forall s, exists rest, quote s = String (Ascii.ascii_of_nat 34) rest.
Hypothesis quote_delimited : forall a b x y, quote a +:+ x = quote b +:+ y -> a = b /\ x = y.
Context {S : Type} `{HT : TimelineStore S} `{HL : !StoreLaws S}.
Context (options : BackfillOptions) (bridge : BridgeOptions) (fetchPage : option ReplayEventCursor -> Z -> Z -> BackfillFetcherPage).

Notation fetch := (fetch options fetchPage).

(** The fetcher continues after the event the cursor names. *)
Hypothesis fetch_by_position : forall c c', positionOf c = positionOf c' -> fetch c = fetch c'.

(** The pages of the ledger, from its start. *)
Fixpoint position (n : nat) : option ReplayEventCursor :=
  match n with O => None | Datatypes.S n => pg_nextCursor (fetch (position n)) end.

Definition page (n : nat) : BackfillFetcherPage := fetch (position n).

(** A run: before it, before fetching a page, before storing the cursor. *)
Inductive Phase := Idle | Fetching (b : Backfill) | Committing (b : Backfill).

(** A run moves on, ends, or is cut off by a crash; the bridge writes live
    events in between. *)
Inductive step (live : OnChainProjectionInput -> Prop) : S * Phase -> S * Phase -> Prop :=
| step_start s s' b : startBackfill options s = (s', b) -> step live (s, Idle) (s', Fetching b)
| step_save s b s' b' : savePage base58 quote sha256 options s b (fetch (b_cursor b)) = (s', inr b') -> step live (s, Fetching b) (s', Committing b')
| step_save_ends s b s' o : savePage base58 quote sha256 options s b (fetch (b_cursor b)) = (s', inl o) -> step live (s, Fetching b) (s', Idle)
| step_commit s b s' b' : commitPage sha256 options s b (fetch (b_cursor b)) = (s', inr b') -> step live (s, Committing b) (s', Fetching b')
| step_commit_ends s b s' o : commitPage sha256 options s b (fetch (b_cursor b)) = (s', inl o) -> step live (s, Committing b) (s', Idle)
| step_crash s ph : step live (s, ph) (reopen s, Idle)
| step_ingest s ph br input : live input -> step live (s, ph) ((ingest base58 quote sha256 bridge s br input).1.1, ph).

(** Everything on the first [n] pages is stored. *)
Definition covered (n : nat) (s : S) : Prop := forall m k, (m < n)%nat -> delivered (pg_events (page m)) k -> k ∈ keys s.

Definition origin (live : OnChainProjectionInput -> Prop) (k : string) : Prop :=
  (exists n, delivered (pg_events (page n)) k) \/ (exists i, live i /\ delivered [i] k).

(** A cursor stands at a page whose predecessors are stored. *)
Definition reached (s : S) (d : nat) (c : option ReplayEventCursor) : Prop := exists n, positionOf c = positionOf (position n) /\ covered (n + d) s.

Record backfill_inv (live : OnChainProjectionInput -> Prop) (c : S * Phase) : Prop := {
  bi_valid : valid c.1;
  bi_origin : forall k, k ∈ keys c.1 -> origin live k;
  bi_cursor : reached c.1 0 (storeGetCursor c.1);
  bi_phase : match c.2 with Idle => True | Fetching b => reached c.1 0 (b_cursor b) | Committing b => reached c.1 1 (b_cursor b) end;
}.

Definition fresh (s : S) : Prop := valid s /\ keys s = [] /\ storeGetCursor s = None.

Lemma covered_mono n s s' : (forall k, k ∈ keys s -> k ∈ keys s') -> covered n s -> covered n s'.
Proof. intros Hk Hc m k Hm Hd. apply Hk. by eapply Hc. Qed.

Lemma reached_mono s s' d c : (forall k, k ∈ keys s -> k ∈ keys s') -> reached s d c -> reached s' d c.
Proof. intros Hk (n & Hp & Hc). exists n. split; [done|]. by eapply covered_mono. Qed.

Lemma fresh_inv live s : fresh s -> backfill_inv live (s, Idle).
Proof.
  intros (Hv & Hk & Hc). split; cbn [fst snd]; [done| |rewrite Hc|done].
  - intros k. by rewrite Hk, elem_of_nil.
  - exists O. split; [done|]. intros m k Hm. lia.
Qed.

Lemma reached_page s d c : reached s d c -> exists n, fetch c = page n /\ positionOf c = positionOf (position n) /\ covered (n + d) s.
Proof. intros (n & Hp & Hc). exists n. split; [by apply fetch_by_position|done]. Qed.

(** The prepared events have the keys of the page. *)
Lemma prepared_delivered b pg k : delivered (pageEvents sha256 options b pg) k <-> delivered (pg_events pg) k.
Proof.
  unfold delivered, pageEvents. setoid_rewrite list_elem_of_lookup. split.
  - intros (i & (n & Hn) & Ho & ->). rewrite list_lookup_imap in Hn. apply fmap_Some in Hn as (j & Hj & ->). exists j. split; [eauto|done].
  - intros (i & (n & Hn) & Ho & ->). exists (prepareEvent sha256 options b n i). split; [|done]. exists n. by rewrite list_lookup_imap, Hn.
Qed.

(** ** Steps keep the invariant *)

(** Adding keys of known origin. *)
Lemma inv_grow live s s' ph ph' : backfill_inv live (s, ph) -> valid s' -> storeGetCursor s' = storeGetCursor s ->
  (forall k, k ∈ keys s -> k ∈ keys s') -> (forall k, k ∈ keys s' -> k ∈ keys s \/ origin live k) ->
  match ph' with Idle => True | Fetching b => reached s' 0 (b_cursor b) | Committing b => reached s' 1 (b_cursor b) end ->
  backfill_inv live (s', ph').
Proof.
  intros [_ Ho Hc _] Hv Hg Hk Hk' Hp. split; cbn [fst snd] in *; [done| |rewrite Hg; by eapply reached_mono|done].
  intros k Hs. apply Hk' in Hs as [?|?]; auto.
Qed.

Lemma save_records_keys s l s' w : valid s -> storeSave s l = (s', w) ->
  valid s' /\ storeGetCursor s' = storeGetCursor s /\ (forall k, k ∈ keys s -> k ∈ keys s') /\
  (forall k, k ∈ keys s' -> k ∈ keys s \/ k ∈ map keyOf l) /\ (is_Some w -> forall k, k ∈ map keyOf l -> k ∈ keys s').
Proof.
  intros Hv Hs. destruct w as [w|].
  - destruct (save_law s l s' w Hv Hs) as (H1 & H2 & H3). split_and!; [done|done|intros k; rewrite H3; auto|intros k; by rewrite H3|].
    intros _ k. rewrite H3. auto.
  - destruct (save_failure_law s l s' Hv Hs) as (H1 & H2 & H3 & H4). split_and!; [done..|]. by intros [].
Qed.

Lemma savePage_spec s b pg s' r : valid s -> savePage base58 quote sha256 options s b pg = (s', r) ->
  valid s' /\ storeGetCursor s' = storeGetCursor s /\ (forall k, k ∈ keys s -> k ∈ keys s') /\
  (forall k, k ∈ keys s' -> k ∈ keys s \/ delivered (pg_events pg) k) /\
  (forall b', r = inr b' -> b_cursor b' = b_cursor b /\ forall k, delivered (pg_events pg) k -> k ∈ keys s').
Proof.
  intros Hv. unfold savePage. destruct (pg_events pg) as [|e l] eqn:El.
  { intros [= <- <-]. split_and!; [done|done|done|by left|]. intros b' [= <-]. split; [done|]. by intros k (i & Hi%elem_of_nil & _). }
  rewrite <- El. destruct (projectOnChainEvents _ _ _ _) as [p|err] eqn:Hp; [|intros [= <- <-]; split_and!; [done|done|done|by left|done]].
  destruct (storeSave s _) as [s1 w] eqn:Hs. destruct (save_records_keys _ _ _ _ Hv Hs) as (H1 & H2 & H3 & H4 & H5).
  assert (Hd : forall k, k ∈ map keyOf (map (toReplayStoreRecord base58 quote sha256) (projected p)) <-> delivered (pg_events pg) k).
  { intros k. rewrite <- (prepared_delivered b pg k). by apply projected_keys. }
  destruct w as [w|]; intros [= <- <-].
  - split_and!; [done..|intros k Hk; apply H4 in Hk as [?|Hk]; [by left|right; by apply Hd]|].
    intros b' [= <-]. split; [done|]. intros k Hk. apply H5; [eauto|by apply Hd].
  - split_and!; [done..|intros k Hk; apply H4 in Hk as [?|Hk]; [by left|right; by apply Hd]|done].
Qed.

Lemma commitPage_spec s b pg s' r : valid s -> commitPage sha256 options s b pg = (s', r) ->
  valid s' /\ (forall k, k ∈ keys s' <-> k ∈ keys s) /\
  (positionOf (storeGetCursor s') = positionOf (pg_nextCursor pg) \/ storeGetCursor s' = storeGetCursor s) /\
  (forall b', r = inr b' -> b_cursor b' = pg_nextCursor pg) /\
  (forall res, r = inl (Completed res) -> pg_done pg = true).
Proof.
  intros Hv. unfold commitPage. destruct (storeSaveCursor _ _) as [s1 ok] eqn:Hs. destruct (cursor_law _ _ _ _ Hv Hs) as (H1 & H2 & H3).
  assert (Hc : positionOf (cursorToSave sha256 options b pg) = positionOf (pg_nextCursor pg)).
  { unfold cursorToSave. by destruct (pg_nextCursor pg). }
  assert (Hg : positionOf (storeGetCursor s1) = positionOf (pg_nextCursor pg) \/ storeGetCursor s1 = storeGetCursor s).
  { destruct H3 as [-> |[_ ?]]; auto. }
  destruct ok; [destruct (pg_done pg) eqn:Hd; [|case_match]|]; intros [= <- <-]; split_and!; try done. by intros b' [= <-].
Qed.

Lemma startBackfill_spec s s' b : valid s -> startBackfill options s = (s', b) ->
  valid s' /\ (forall k, k ∈ keys s' <-> k ∈ keys s) /\ (storeGetCursor s' = None \/ storeGetCursor s' = storeGetCursor s) /\
  (b_cursor b = None \/ b_cursor b = storeGetCursor s).
Proof.
  intros Hv. unfold startBackfill. destruct (storeGetCursor s) as [c|] eqn:Hc.
  - destruct (cursorValid c); [intros [= <- <-]; split_and!; auto|].
    destruct (storeSaveCursor s None) as [s1 ok] eqn:Hs. destruct (cursor_law _ _ _ _ Hv Hs) as (H1 & H2 & H3). cbn [fst].
    intros [= <- <-]. split_and!; auto. rewrite <- Hc. destruct H3 as [? |[_ ?]]; auto.
  - intros [= <- <-]. split_and!; auto.
Qed.

Lemma ingest_spec s br input r : valid s -> ingest base58 quote sha256 bridge s br input = r ->
  valid r.1.1 /\ storeGetCursor r.1.1 = storeGetCursor s /\ (forall k, k ∈ keys s -> k ∈ keys r.1.1) /\
  (forall k, k ∈ keys r.1.1 -> k ∈ keys s \/ delivered [input] k).
Proof.
  intros Hv <-. unfold ingest. set (event := {| i_eventName := _ |}). cbv zeta.
  assert (He : forall k, delivered [event] k -> delivered [input] k).
  { intros k (i & ->%list_elem_of_singleton & Ho & ->). exists input. split; [by apply list_elem_of_singleton|done]. }
  destruct (projectOnChainEvents _ _ _ _) as [p|err] eqn:Hp; cbn [fst]; [|split_and!; auto].
  pose proof (projected_keys base58 quote sha256 quote_head quote_delimited _ _ Hp) as Hd.
  destruct (map (toReplayStoreRecord _ _ _) (projected p)) as [|r l] eqn:Hr; cbn [fst]; [split_and!; auto|].
  destruct (storeSave s (r :: l)) as [s1 w] eqn:Hs. destruct (save_records_keys _ _ _ _ Hv Hs) as (H1 & H2 & H3 & H4 & _).
  assert (Hgoal : valid s1 /\ storeGetCursor s1 = storeGetCursor s /\ (forall k, k ∈ keys s -> k ∈ keys s1) /\
    (forall k, k ∈ keys s1 -> k ∈ keys s \/ delivered [input] k)).
  { split_and!; [done..|]. intros k Hk. apply H4 in Hk as [?|Hk]; [by left|right]. by apply He, Hd. }
  destruct w; [|done]. by destruct (strictTelemetryErrors _).
Qed.

Lemma save_step live s b s' r : backfill_inv live (s, Fetching b) -> savePage base58 quote sha256 options s b (fetch (b_cursor b)) = (s', r) ->
  backfill_inv live (s', Idle) /\ forall b', r = inr b' -> b_cursor b' = b_cursor b /\ backfill_inv live (s', Committing b').
Proof.
  intros Hi Hs. destruct (savePage_spec _ _ _ _ _ (bi_valid _ _ Hi) Hs) as (V & C & K & O & R).
  destruct (reached_page _ _ _ (bi_phase _ _ Hi)) as (n & Hf & Hp & Hc). cbn [fst] in *.
  assert (Ho : forall k, k ∈ keys s' -> k ∈ keys s \/ origin live k).
  { intros k Hk. apply O in Hk as [?|Hk]; [by left|right; left]. rewrite Hf in Hk. eauto. }
  split; [by eapply inv_grow|]. intros b' ->. destruct (R b' eq_refl) as [Hb Hd]. split; [done|].
  eapply inv_grow; [done..|]. exists n. rewrite Hb. split; [done|]. intros m k Hm Hk.
  assert (m < n \/ m = n)%nat as [Hlt| ->] by lia; [apply K, (Hc m k); [lia|done]|]. apply Hd. by rewrite Hf.
Qed.

Lemma commit_step live s b s' r : backfill_inv live (s, Committing b) -> commitPage sha256 options s b (fetch (b_cursor b)) = (s', r) ->
  backfill_inv live (s', Idle) /\ (forall b', r = inr b' -> backfill_inv live (s', Fetching b')) /\
  (forall res, r = inl (Completed res) -> exists n, pg_done (page n) = true /\ covered (Datatypes.S n) s').
Proof.
  intros Hi Hs. destruct (commitPage_spec _ _ _ _ _ (bi_valid _ _ Hi) Hs) as (V & K & C & R & D).
  destruct (reached_page _ _ _ (bi_phase _ _ Hi)) as (n & Hf & Hp & Hc). cbn [fst] in *.
  assert (Hnext : reached s' 0 (pg_nextCursor (fetch (b_cursor b)))).
  { exists (Datatypes.S n). rewrite Hf. split; [done|]. apply (covered_mono _ s); [intros k; apply K|].
    replace (Datatypes.S n + 0)%nat with (n + 1)%nat by lia. done. }
  assert (Hidle : backfill_inv live (s', Idle)).
  { split; cbn [fst snd]; [done|intros k Hk; apply (bi_origin _ _ Hi); by apply K| |done]. destruct C as [C|C].
    - destruct Hnext as (m & Hm & Hcm). exists m. by rewrite C.
    - rewrite C. eapply reached_mono; [intros k; apply K|apply Hi]. }
  split_and!; [done| |].
  - intros b' ->. split; [apply Hidle..|]. cbn [fst snd]. by rewrite (R b' eq_refl).
  - intros res ->. exists n. rewrite <- Hf. split; [by apply (D res)|]. apply (covered_mono _ s); [intros k; apply K|].
    replace (Datatypes.S n) with (n + 1)%nat by lia. done.
Qed.

Lemma start_step live s s' b : backfill_inv live (s, Idle) -> startBackfill options s = (s', b) -> backfill_inv live (s', Fetching b).
Proof.
  intros Hi Hs. destruct (startBackfill_spec _ _ _ (bi_valid _ _ Hi) Hs) as (V & K & C & B).
  assert (Hnone : reached s' 0 None) by (exists O; split; [done|]; intros m k Hm; lia).
  assert (Hold : reached s' 0 (storeGetCursor s)) by (eapply reached_mono; [intros k; apply K|apply Hi]).
  split; cbn [fst snd]; [done|intros k Hk; apply (bi_origin _ _ Hi); by apply K| |].
  - by destruct C as [-> | ->].
  - by destruct B as [-> | ->].
Qed.

Lemma backfill_step_inv live c c' : step live c c' -> backfill_inv live c -> backfill_inv live c'.
Proof.
  intros [] Hi.
  - by eapply start_step.
  - by eapply (save_step live s b s' (inr b')).
  - by eapply (save_step live s b s' (inl o)).
  - by eapply (commit_step live s b s' (inr b')).
  - by eapply (commit_step live s b s' (inl o)).
  - destruct (reopen_law s (bi_valid _ _ Hi)) as (V & C & K). eapply inv_grow; [done|done|done|intros k; apply K|intros k Hk; left; by apply K|done].
  - destruct (ingest_spec s br input _ (bi_valid _ _ Hi) eq_refl) as (V & C & K & O). eapply inv_grow; [done|done|done|done| |].
    + intros k Hk. apply O in Hk as [?|Hk]; [by left|right; right]. eauto.
    + destruct Hi as [_ _ _ Hp]. cbn [fst snd] in Hp. destruct ph; [done|by eapply reached_mono..].
Qed.

Lemma backfill_steps_inv live s c : fresh s -> rtc (step live) (s, Idle) c -> backfill_inv live c.
Proof.
  intros Hf Hr. apply (fresh_inv live) in Hf. revert Hf. induction Hr as [|x y z Hs _ IH]; [done|]. intros Hi. apply IH. by eapply backfill_step_inv.
Qed.

Lemma loop_inv live fuel : forall s b s' o, backfill_inv live (s, Fetching b) ->
  backfillLoop base58 quote sha256 options fetchPage fuel s b = Some (s', o) ->
  backfill_inv live (s', Idle) /\ (forall r, o = Completed r -> exists n, pg_done (page n) = true /\ covered (Datatypes.S n) s').
Proof.
  induction fuel as [|fuel IH]; intros s b s' o Hi; [done|]. cbn [backfillLoop].
  destruct (savePage _ _ _ _ _ _ _) as [s1 [o1|b1]] eqn:E1; destruct (save_step _ _ _ _ _ Hi E1) as [Hidle Hnext].
  { intros [= <- <-]. split; [done|]. intros r ->. exfalso. revert E1. unfold savePage. repeat (case_match; simplify_eq; try done). }
  destruct (Hnext b1 eq_refl) as [Hb Hi1]. rewrite <- Hb.
  destruct (commitPage _ _ _ _ _) as [s2 [o2|b2]] eqn:E2; destruct (commit_step _ _ _ _ _ Hi1 E2) as (Hidle2 & Hfetch & Hdone).
  - intros [= <- <-]. split; [done|]. intros r ->. by apply (Hdone r).
  - apply IH. auto.
Qed.

(** C31. Exactly once, by key: an event is stored under its slot, signature and
    type. The fetcher answers the same for two cursors of one position, and the
    store keeps the laws that the stores in memory and on file are proved to
    keep, so it survives the crashes. Then whatever runs were started one after
    the other, cut off by crashes or ended by failed writes, and whatever events
    the bridge wrote in between, the store holds every key once, holds only keys
    of well-formed events that were delivered, and the stored cursor is a
    position of the ledger before which the key of every well-formed event is
    stored. A run that then completes has stored the key of every well-formed
    event up to the last page. (Two events of one type in one transaction have
    one key; the second is not stored.) *)
Theorem backfill_exactly_once live s0 s : fresh s0 -> rtc (step live) (s0, Idle) (s, Idle) ->
  NoDup (keys s) /\ (forall k, k ∈ keys s -> origin live k) /\
  (exists n, positionOf (storeGetCursor s) = positionOf (position n) /\ covered n s) /\
  (forall fuel s' r, runBackfill base58 quote sha256 options fetchPage fuel s = Some (s', Completed r) ->
    NoDup (keys s') /\ (forall k, k ∈ keys s' -> origin live k) /\ exists n, pg_done (page n) = true /\ covered (Datatypes.S n) s').
Proof.
  intros Hf Hr. pose proof (backfill_steps_inv _ _ _ Hf Hr) as Hi. split_and!.
  - apply valid_NoDup, (bi_valid _ _ Hi).
  - apply (bi_origin _ _ Hi).
  - destruct (bi_cursor _ _ Hi) as (n & Hp & Hc). exists n. rewrite Nat.add_0_r in Hc. done.
  - intros fuel s' r. unfold runBackfill. destruct (startBackfill options s) as [s1 b] eqn:Hs. intros Hl.
    destruct (loop_inv live fuel s1 b s' _ (start_step _ _ _ _ Hi Hs) Hl) as [Hi' Hd].
    split_and!; [apply valid_NoDup, (bi_valid _ _ Hi')|apply (bi_origin _ _ Hi')|by apply (Hd r)].
Qed.

(** ** Termination *)

Definition total : Prop := (forall s l, is_Some (storeSave s l).2) /\ (forall s c, (storeSaveCursor s c).2 = true).

Lemma savePage_total s b pg : total -> (forall i, i ∈ pg_events pg -> readable i) ->
  exists s' b', savePage base58 quote sha256 options s b pg = (s', inr b') /\ b_cursor b' = b_cursor b.
Proof.
  intros [Ht _] Hr. unfold savePage. destruct (pg_events pg) eqn:El; [eauto|]. rewrite <- El in Hr.
  destruct (readable_projects base58 quote (pageEvents sha256 options b pg)) as [p ->].
  { intros i Hi. unfold pageEvents in Hi. apply list_elem_of_lookup in Hi as [n Hn]. rewrite list_lookup_imap in Hn.
    apply fmap_Some in Hn as (j & Hj & ->). apply (Hr j). apply list_elem_of_lookup. eauto. }
  destruct (Ht s (map (toReplayStoreRecord base58 quote sha256) (projected p))) as [w Hw]. destruct (storeSave s _) as [s1 w1]. cbn in Hw. subst w1. eauto.
Qed.

Lemma commitPage_total s b pg : total -> exists s' r, commitPage sha256 options s b pg = (s', r) /\
  (pg_done pg = true -> exists res, r = inl (Completed res)) /\
  (pg_done pg = false -> pg_events pg <> [] -> exists b', r = inr b' /\ b_cursor b' = pg_nextCursor pg).
Proof.
  intros [_ Ht]. unfold commitPage. specialize (Ht s (cursorToSave sha256 options b pg)). destruct (storeSaveCursor _ _) as [s1 ok]. cbn in Ht. subst ok.
  destruct (pg_done pg); [eexists _, _; split; [done|]; split; [eauto|done]|].
  destruct (pg_events pg) as [|e l]; cbn [andb]; [destruct (String.eqb _ _)|]; eexists _, _; (split; [reflexivity|]); split; try done. eauto.
Qed.

(** The loop from page [m] to a last page [m + d]. *)
Lemma loop_completes d : forall m s b, total -> (forall n i, i ∈ pg_events (page n) -> readable i) ->
  positionOf (b_cursor b) = positionOf (position m) -> pg_done (page (m + d)) = true ->
  (forall n, (m <= n < m + d)%nat -> pg_done (page n) = false /\ pg_events (page n) <> []) ->
  exists s' r, backfillLoop base58 quote sha256 options fetchPage (Datatypes.S d) s b = Some (s', Completed r).
Proof.
  induction d as [|d IH]; intros m s b Ht Hr Hp Hd Hn; cbn [backfillLoop]; rewrite (fetch_by_position _ _ Hp); fold (page m).
  - rewrite Nat.add_0_r in Hd. destruct (savePage_total s b (page m) Ht (Hr m)) as (s1 & b1 & -> & _).
    destruct (commitPage_total s1 b1 (page m) Ht) as (s2 & r & -> & Hc & _). destruct (Hc Hd) as [res ->]. eauto.
  - destruct (savePage_total s b (page m) Ht (Hr m)) as (s1 & b1 & -> & _).
    destruct (commitPage_total s1 b1 (page m) Ht) as (s2 & r & -> & _ & Hc). destruct (Hn m) as [H1 H2]; [lia|].
    destruct (Hc H1 H2) as (b2 & -> & Hb). apply (IH (Datatypes.S m)); [done|done|by rewrite Hb|by rewrite Nat.add_succ_comm|].
    intros n Hlt. apply Hn. lia.
Qed.

Lemma loop_fuel fuel : forall fuel' s b r, (fuel <= fuel')%nat -> backfillLoop base58 quote sha256 options fetchPage fuel s b = Some r ->
  backfillLoop base58 quote sha256 options fetchPage fuel' s b = Some r.
Proof.
  induction fuel as [|fuel IH]; intros [|fuel'] s b r Hle; try done; [lia|]. cbn [backfillLoop]. repeat case_match; try done. apply IH. lia.
Qed.

(** Termination: on a store whose writes succeed, with a fetcher that
    reaches a last page through pages that are not empty, and votes that can be
    read, a run that starts at or before that page completes, within as many
    iterations as there are pages left. *)
Theorem backfill_completes s m last : total -> valid s -> (forall n i, i ∈ pg_events (page n) -> readable i) ->
  positionOf (storeGetCursor s) = positionOf (position m) -> (m <= last)%nat ->
  pg_done (page last) = true -> (forall n, (n < last)%nat -> pg_done (page n) = false /\ pg_events (page n) <> []) ->
  exists s' r, runBackfill base58 quote sha256 options fetchPage (Datatypes.S last) s = Some (s', Completed r).
Proof.
  intros Ht Hv Hr Hp Hle Hd Hn. unfold runBackfill.
  destruct (startBackfill options s) as [s1 b] eqn:Hs. destruct (startBackfill_spec _ _ _ Hv Hs) as (_ & _ & _ & B).
  assert (Hb : exists m, (m <= last)%nat /\ positionOf (b_cursor b) = positionOf (position m)).
  { destruct B as [-> | ->]; [exists O; split; [lia|done]|]. by exists m. }
  destruct Hb as (m' & Hle' & Hpos). destruct (loop_completes (last - m') m' s1 b) as (s' & r & Hl); [done..| | |].
  - by replace (m' + (last - m'))%nat with last by lia.
  - intros n Hlt. apply Hn. lia.
  - exists s', r. by apply (loop_fuel (Datatypes.S (last - m'))); [lia|].
Qed.

(** The stall check looks at empty pages only: a fetcher that repeats a page
    that is not empty keeps the loop running. *)
Lemma loop_diverges fuel : forall m s b, total -> (forall n i, i ∈ pg_events (page n) -> readable i) ->
  positionOf (b_cursor b) = positionOf (position m) -> (forall n, pg_done (page n) = false /\ pg_events (page n) <> []) ->
  backfillLoop base58 quote sha256 options fetchPage fuel s b = None.
Proof.
  induction fuel as [|fuel IH]; intros m s b Ht Hr Hp Hn; [done|]. cbn [backfillLoop]; rewrite (fetch_by_position _ _ Hp); fold (page m).
  destruct (savePage_total s b (page m) Ht (Hr m)) as (s1 & b1 & -> & _).
  destruct (commitPage_total s1 b1 (page m) Ht) as (s2 & r & -> & _ & Hc). destruct (Hn m) as [H1 H2].
  destruct (Hc H1 H2) as (b2 & -> & Hb). apply (IH (Datatypes.S m)); [done|done|by rewrite Hb|done].
Qed.
End system.
