(* ===== verification/ReplayDemo.v ===== *)
(** * Projections on concrete event streams *)
From stdpp Require Import pretty sorting.
From S2P Require Import Prelude JsMap JsString Encoding Transitions Projection ProjectionJson ProjectionOrder ProjectionSpec.
#[local] Open Scope string_scope.
#[local] Open Scope Z_scope.

(** [rootCollation] tells different strings apart. *)
Lemma weight_inj c d : weight c = weight d -> c = d.
Proof.
  intros Hw. assert (Hc : code c = code d).
  { pose proof (code_range c). pose proof (code_range d). unfold weight in Hw. repeat case_match; rewrite ?Z.eqb_eq in *; lia. }
  unfold code in Hc. apply N2Z.inj in Hc. rewrite <- (Ascii.ascii_N_embedding c), <- (Ascii.ascii_N_embedding d). by f_equal.
Qed.

Lemma lex_compare_Eq a b : lex_compare a b = Eq -> a = b.
Proof.
  revert b. induction a as [|c a IH]; intros [|d b]; simpl; try done.
  destruct (Z.compare_spec (weight c) (weight d)) as [Hw| |]; try done. intros Hl. f_equal; [by apply weight_inj|by apply IH].
Qed.

Module ProjectionDemo.

Definition quoted : string -> string := jsonQuote.
Definition hexKey (bytes : list Z) : string := bytesToHex bytes false.

Definition input (name signature : string) (slot : Z) (fields : list (string * JsValue)) : OnChainProjectionInput := {|
  i_eventName := name; i_event := VObject fields; i_slot := slot; i_signature := signature; i_timestampMs := None; i_traceContext := None;
  i_sourceEventSequence := None |}.

Definition created := input "taskCreated" "s1" 5 [("taskId", VBytes [7])].
Definition claimed := input "taskClaimed" "s2" 6 [("taskId", VBytes [7])].
Definition completed := input "taskCompleted" "s3" 7 [("taskId", VBytes [7])].
Definition initiated := input "disputeInitiated" "s4" 8 [("disputeId", VBytes [9]); ("taskId", VBytes [8])].
Definition vote (signature : string) (slot votesFor : Z) :=
  input "disputeVoteCast" signature slot [("disputeId", VBytes [9]); ("votesFor", VNumber votesFor); ("votesAgainst", VBigInt 0)].
Definition garbled := input "disputeVoteCast" "s5" 9 [("disputeId", VBytes [9]); ("votesFor", VText "many")].

Definition project (events : list OnChainProjectionInput) (strict : bool) : result projection_error Projector :=
  projectOnChainEvents hexKey quoted events strict.

Definition summary (r : result projection_error Projector) : result projection_error (list (Z * string * Z) * list string) :=
  s ← r; Ok (map (fun p => (p_seq p, p_type p, p_slot p)) (projected s), transitionConflicts (telemetry s)).

(** Two deliveries of a task's life give one timeline. *)
Lemma project_task : summary (project [completed; created; claimed; created] true) =
  Ok ([(1, "discovered", 5); (2, "claimed", 6); (3, "completed", 7)], []).
Proof. by vm_compute. Qed.

(** The second vote on a dispute is reported, although a dispute takes a vote
    of every arbiter. *)
Lemma second_vote_rejected : project [initiated; vote "s5" 9 1; vote "s6" 10 2] true =
  Err (StrictProjectionFailed ["dispute:09@s6: dispute:vote_cast -> dispute:vote_cast for disputeVoteCast"]).
Proof. by vm_compute. Qed.

(** Two transactions of one slot are ordered by signature, not by time. *)
Lemma same_slot_order_reported : summary (project [input "taskCreated" "sB" 5 [("taskId", VBytes [7])]; input "taskClaimed" "sA" 5 [("taskId", VBytes [7])]] false) =
  Ok ([(1, "claimed", 5); (2, "discovered", 5)], ["task:07@sA: none -> claimed for taskClaimed"; "task:07@sB: claimed -> discovered for taskCreated"]).
Proof. by vm_compute. Qed.

(** An event that is projected alone violates its lifecycle. *)
Lemma alone_rejected : exists conflicts, project [claimed] true = Err (StrictProjectionFailed conflicts).
Proof. eexists. by vm_compute. Qed.

Lemma garbled_vote_throws : project [garbled; initiated] false = Err BigIntSyntax.
Proof. by vm_compute. Qed.

Definition projectedTask : Projector :=
  match project [completed; created; claimed; created] false with Ok s => s | Err _ => newProjector 0 end.

Lemma projection_exactly_once_witness : exists kept, NoDup (map it_fingerprint kept) /\ map recordFields (projected projectedTask) = map (recordOf hexKey) kept.
Proof.
  assert (Hp : project [completed; created; claimed; created] false = Ok projectedTask) by (vm_compute; reflexivity).
  destruct (projection_exactly_once hexKey quoted [completed; created; claimed; created] false projectedTask Hp) as (kept & _ & H1 & _ & _ & H2 & _). exists kept. split; assumption.
Defined.

Lemma projection_order_independent_witness :
  map_ok eraseS (project [created; claimed] true) = map_ok eraseS (project [claimed; created] true).
Proof.
  apply (@projection_order_independent rootCollation hexKey quoted lex_compare_Eq true [created; claimed] [claimed; created]).
  - apply Permutation_swap.
  - intros a b Ha Hb. rewrite !elem_of_cons, elem_of_nil in Ha, Hb.
    destruct Ha as [-> |[-> |[]]], Hb as [-> |[-> |[]]]; try reflexivity; intros Hf; vm_compute in Hf; discriminate.
Defined.
End ProjectionDemo.

(** * Backfill and ingestion on concrete pages *)
From Stdlib Require Import QArith_base.
From stdpp Require Import pretty sorting.
From S2P Require Import Prelude JsMap JsString Encoding Transitions Projection ProjectionJson ProjectionOrder ProjectionSpec Replay ReplaySpec ReplayBackfill ReplayBackfillSpec.
#[local] Open Scope string_scope.
#[local] Open Scope Z_scope.

Module ReplayDemo.
Import ProjectionDemo.

Definition digest (s : string) : string := "00ff00ff00ff00ff".

Definition cursorAt (slot : Z) (signature : string) : ReplayEventCursor :=
  {| c_slot := slot; c_signature := signature; c_eventName := None; c_traceId := None; c_traceSpanId := None |}.

(** A ledger of two pages. *)
Definition ledger (cursor : option ReplayEventCursor) (toSlot pageSize : Z) : BackfillFetcherPage :=
  match cursor with
  | None => {| pg_events := [created; claimed]; pg_nextCursor := Some (cursorAt 6 "s2"); pg_done := false |}
  | Some _ => {| pg_events := [claimed; completed]; pg_nextCursor := None; pg_done := true |}
  end.

Definition opts : BackfillOptions := {| o_toSlot := 100; o_pageSize := DEFAULT_BACKFILL_PAGE_SIZE; o_traceId := None; o_sampleRate := 1%Q |}.
Definition live : BridgeOptions := {| br_traceId := "bridge"; br_sampleRate := 1%Q; br_strict := true |}.

Lemma ledger_by_position c c' : positionOf c = positionOf c' -> fetch opts ledger c = fetch opts ledger c'.
Proof. by destruct c, c'. Qed.

Definition summarize (r : option (Store * BackfillOutcome)) : option (list string * BackfillOutcome) := (fun r => (st_ids r.1, r.2)) <$> r.

(** The overlap of the two pages is counted as a duplicate. *)
Lemma backfill_run : summarize (runBackfill hexKey quoted digest opts ledger 2 emptyStore) =
  Some (["5|s1|discovered"; "6|s2|claimed"; "7|s3|completed"],
    Completed {| res_processed := 3; res_duplicates := 1; res_cursor := None; res_duplicateReport := None |}).
Proof. by vm_compute. Qed.

(** The bridge in strict mode stores the event that it reports. *)
Lemma strict_bridge_stores : let r := ingest hexKey quoted digest live emptyStore {| lastSlot := []; intakeSequence := 0 |} claimed in
  st_ids r.1.1 = ["6|s2|claimed"] /\ r.2 = StrictModeFailed ["transition:task:07@s2: none -> claimed for taskClaimed"].
Proof. by vm_compute. Qed.

(** Two events of one type in one transaction share a key: the second is
    projected, and lost. *)
Lemma same_type_lost :
  let second := input "taskClaimed" "s2" 6 [("taskId", VBytes [8])] in
  inputKey claimed = inputKey second /\
  (s ← project [claimed; second] false; Ok (length (projected s), length (st_events (save emptyStore (map (toReplayStoreRecord hexKey quoted digest) (projected s))).1))) =
    Ok (2, 1)%nat.
Proof. split; by vm_compute. Qed.

(** Live ingestion and backfill number an event differently. *)
Lemma sequence_differs :
  let hashes (r : Store) := map (fun x => (r_seq x, r_sourceEventSequence x)) (List.filter (fun x => String.eqb (r_type x) "claimed") (st_events r)) in
  hashes (ingest hexKey quoted digest live emptyStore {| lastSlot := []; intakeSequence := 0 |} claimed).1.1 = [(1, 0)] /\
  ((fun r => hashes r.1) <$> runBackfill hexKey quoted digest opts ledger 2 emptyStore) = Some [(2, 1)].
Proof. split; by vm_compute. Qed.

(** A run that crashes after its first page was saved. *)
Definition crashed : Store := (savePage hexKey quoted digest opts emptyStore (startBackfill opts emptyStore).2 (fetch opts ledger None)).1.

Lemma crash_reachable : rtc (step hexKey quoted digest opts live ledger (fun _ => False)) (emptyStore, Idle) (crashed, Idle).
Proof.
  eapply rtc_l; [by apply step_start|]. eapply rtc_l; [by eapply step_save; vm_compute; reflexivity|].
  eapply rtc_l; [apply (step_crash _ _ _ _ _ _ _ crashed)|]. apply rtc_refl.
Qed.

Lemma backfill_exactly_once_witness : NoDup (keys crashed).
Proof.
  apply (backfill_exactly_once hexKey quoted digest jsonQuote_head jsonQuote_delimited opts live ledger ledger_by_position (fun _ => False) emptyStore).
  - split; [apply emptyStore_ok|split; reflexivity].
  - exact crash_reachable.
Defined.

Lemma ledger_readable n i : i ∈ pg_events (page opts ledger n) -> readable i.
Proof.
  assert (Hr : forall c, Forall readable (pg_events (ledger c 100 100))).
  { intros []; repeat constructor; eexists; by vm_compute. }
  intros Hi. specialize (Hr (position opts ledger n)). rewrite Forall_forall in Hr. by apply Hr.
Qed.

Lemma backfill_completes_witness : exists s' r, runBackfill hexKey quoted digest opts ledger 2 emptyStore = Some (s', Completed r).
Proof.
  apply (backfill_completes hexKey quoted digest opts ledger ledger_by_position emptyStore 0 1).
  - split; [intros s l; cbn; destruct (save s l); eexists; reflexivity|reflexivity].
  - apply emptyStore_ok.
  - exact ledger_readable.
  - reflexivity.
  - lia.
  - reflexivity.
  - intros [|n] Hn; [split; [reflexivity|discriminate]|lia].
Defined.

Lemma file_store_refines_memory_witness :
  replies fileOp {| fallback := emptyStore; loaded := false; file := None |} [OpSaveCursor (Some (cursorAt 6 "s2")); OpRestart; OpGetCursor] =
  [Unit; Unit; Cursor (Some (cursorAt 6 "s2"))].
Proof.
  rewrite (@file_store_refines_memory rootCollation lex_compare_Eq [OpSaveCursor (Some (cursorAt 6 "s2")); OpRestart; OpGetCursor]). reflexivity.
Defined.
End ReplayDemo.
