(* ===== verification/TaskDiscovery.v ===== *)
(** * Task filters and discovery (src/runtime/src/task/filters.ts, discovery.ts)

    What an agent looks for, and how it hears of it: by polling and by events.
    The clock is an argument in seconds; scores are rational numbers; a
    discovery reports the tasks that its listeners get. The fetches of the
    account data are answered by the environment. *)
From Stdlib Require Import QArith_base.
From S2P Require Import Prelude JsMap JsString Transitions.
#[local] Open Scope string_scope.
#[local] Open Scope Z_scope.

(** ** Tasks *)

Inductive TaskType := Exclusive | Collaborative | Competitive | BidExclusive.

#[export] Instance TaskType_eq_dec : EqDecision TaskType.
Proof. solve_decision. Defined.

(** The fields of an account that the runtime decides by. *)
Record OnChainTask := {
  requiredCapabilities : Z;
  constraintHash : list Z;
  rewardAmount : Z;
  maxWorkers : Z;
  currentWorkers : Z;
  status : OnChainTaskStatus;
  taskType : TaskType;
  deadline : Z;
}.

Definition MANUAL_VALIDATION_SENTINEL : list Z := map code (String.list_ascii_of_string "agenc-manual-validation-v2-seed!").

Definition hasConstraintHash (t : OnChainTask) : bool := existsb (fun b => negb (b =? 0)) (constraintHash t).
Definition isManualValidationTask (t : OnChainTask) : bool := bool_decide (constraintHash t = MANUAL_VALIDATION_SENTINEL).
Definition isPrivateTask (t : OnChainTask) : bool := hasConstraintHash t && negb (isManualValidationTask t).

(** ** Filters *)

Record TaskFilterConfig := {
  f_capabilities : option Z;
  minRewardLamports : option Z;
  maxRewardLamports : option Z;
  taskTypes : option (list TaskType);
  minDeadlineBufferSeconds : option Z;
  privateOnly : bool;
  publicOnly : bool;
  customFilter : option (OnChainTask -> bool);
}.

Definition hasRequiredCapabilities (agentCapabilities required : Z) : bool := Z.land agentCapabilities required =? required.

Definition matchesFilter (now : Z) (t : OnChainTask) (agentCapabilities : Z) (f : TaskFilterConfig) : bool :=
  if negb (bool_decide (status t = Open)) && negb (bool_decide (status t = InProgress)) then false
  else if negb (hasRequiredCapabilities agentCapabilities (requiredCapabilities t)) then false
  else if maxWorkers t <=? currentWorkers t then false
  else if match minRewardLamports f with Some m => rewardAmount t <? m | None => false end then false
  else if match maxRewardLamports f with Some m => m <? rewardAmount t | None => false end then false
  else if match taskTypes f with Some (ty :: tys) => negb (bool_decide (taskType t ∈ ty :: tys)) | _ => false end then false
  else if match minDeadlineBufferSeconds f with
          | Some buffer => (0 <? buffer) && (0 <? deadline t) && (deadline t - now <? buffer)
          | None => false
          end then false
  else if privateOnly f && negb (isPrivateTask t) then false
  else if publicOnly f && isPrivateTask t then false
  else match customFilter f with Some p => p t | None => true end.

Definition DEFAULT_NO_DEADLINE_SECONDS : Z := 86400.

Definition defaultTaskScorer (now : Z) (t : OnChainTask) : Q :=
  let timeRemaining := if 0 <? deadline t then deadline t - now else DEFAULT_NO_DEADLINE_SECONDS in
  Qmake (rewardAmount t) (Z.to_pos (Z.max 1 timeRemaining)).

Definition rankTasks (scorer : OnChainTask -> Q) (tasks : list OnChainTask) : list (OnChainTask * Q) :=
  sort_by (fun a b => Qcompare b.2 a.2) (map (fun t => (t, scorer t)) tasks).

Definition filterAndRank (now : Z) (tasks : list OnChainTask) (agentCapabilities : Z) (f : TaskFilterConfig) (scorer : OnChainTask -> Q)
    : list (OnChainTask * Q) :=
  rankTasks scorer (List.filter (fun t => matchesFilter now t agentCapabilities f) tasks).

(** ** Discovery *)

Inductive TaskDiscoveryMode := mode_poll | mode_event | mode_hybrid.

Record TaskDiscoveryResult := { t_pda : string; t_task : OnChainTask }.

Record Discovery := {
  d_mode : TaskDiscoveryMode;
  d_filter : TaskFilterConfig;
  d_seen : list string;
  d_running : bool;
  d_paused : bool;
  d_capabilities : Z;
  (* poll cycles and account fetches that are not answered yet *)
  d_polls : nat;
  d_fetches : list string;
}.

Definition newDiscovery (mode : TaskDiscoveryMode) (f : TaskFilterConfig) : Discovery :=
  {| d_mode := mode; d_filter := f; d_seen := []; d_running := false; d_paused := false; d_capabilities := 0; d_polls := 0; d_fetches := [] |}.

Definition polls (mode : TaskDiscoveryMode) : bool := match mode with mode_event => false | _ => true end.
Definition listens (mode : TaskDiscoveryMode) : bool := match mode with mode_poll => false | _ => true end.

Definition with_flags (running paused : bool) (d : Discovery) : Discovery :=
  {| d_mode := d_mode d; d_filter := d_filter d; d_seen := d_seen d; d_running := running; d_paused := paused;
     d_capabilities := d_capabilities d; d_polls := d_polls d; d_fetches := d_fetches d |}.

Definition with_polls (n : nat) (d : Discovery) : Discovery :=
  {| d_mode := d_mode d; d_filter := d_filter d; d_seen := d_seen d; d_running := d_running d; d_paused := d_paused d;
     d_capabilities := d_capabilities d; d_polls := n; d_fetches := d_fetches d |}.

Definition with_fetches (l : list string) (d : Discovery) : Discovery :=
  {| d_mode := d_mode d; d_filter := d_filter d; d_seen := d_seen d; d_running := d_running d; d_paused := d_paused d;
     d_capabilities := d_capabilities d; d_polls := d_polls d; d_fetches := l |}.

Definition with_seen (l : list string) (d : Discovery) : Discovery :=
  {| d_mode := d_mode d; d_filter := d_filter d; d_seen := l; d_running := d_running d; d_paused := d_paused d;
     d_capabilities := d_capabilities d; d_polls := d_polls d; d_fetches := d_fetches d |}.

Definition with_capabilities (caps : Z) (d : Discovery) : Discovery :=
  {| d_mode := d_mode d; d_filter := d_filter d; d_seen := d_seen d; d_running := d_running d; d_paused := d_paused d;
     d_capabilities := caps; d_polls := d_polls d; d_fetches := d_fetches d |}.

(** A poll cycle begins, unless the discovery is paused. *)
Definition executePollCycle (d : Discovery) : Discovery := if d_paused d then d else with_polls (S (d_polls d)) d.

Definition start (agentCapabilities : Z) (d : Discovery) : Discovery :=
  if d_running d then d
  else
    let d := with_capabilities agentCapabilities (with_flags true (d_paused d) d) in
    if polls (d_mode d) then executePollCycle d else d.

Definition stop (d : Discovery) : Discovery := if d_running d then with_flags false false d else d.
Definition pause (d : Discovery) : Discovery := if d_paused d || negb (d_running d) then d else with_flags (d_running d) true d.
Definition resume (d : Discovery) : Discovery := if d_paused d then with_flags (d_running d) false d else d.
Definition clearSeen (d : Discovery) : Discovery := with_seen [] d.

(** One claimable task of a poll. *)
Definition pollOne (now : Z) (caps : Z) (st : Discovery * list TaskDiscoveryResult) (r : TaskDiscoveryResult)
    : Discovery * list TaskDiscoveryResult :=
  if has (d_seen st.1) (t_pda r) then st
  else if matchesFilter now (t_task r) caps (d_filter st.1) then (with_seen (d_seen st.1 ++ [t_pda r])%list st.1, (st.2 ++ [r])%list)
  else st.

Definition pollAll (now : Z) (caps : Z) (claimable : list TaskDiscoveryResult) (d : Discovery) : Discovery * list TaskDiscoveryResult :=
  foldl (pollOne now caps) (d, []) claimable.

(** The tasks of a cycle arrive; [None] when the fetch failed. *)
Definition pollAnswered (now : Z) (answer : option (list TaskDiscoveryResult)) (d : Discovery) : Discovery * list TaskDiscoveryResult :=
  match d_polls d with
  | O => (d, [])
  | S n =>
      let d := with_polls n d in
      match answer with Some claimable => pollAll now (d_capabilities d) claimable d | None => (d, []) end
  end.

(** The manual [poll]. *)
Definition poll (now : Z) (caps : Z) (answer : option (list TaskDiscoveryResult)) (d : Discovery) : Discovery * list TaskDiscoveryResult :=
  match answer with Some claimable => pollAll now caps claimable d | None => (d, []) end.

Fixpoint remove_first (pda : string) (l : list string) : list string :=
  match l with [] => [] | x :: rest => if String.eqb x pda then rest else x :: remove_first pda rest end.

(** A TaskCreated event; its account is fetched. *)
Definition eventArrived (pda : string) (d : Discovery) : Discovery :=
  if negb (d_running d && listens (d_mode d)) then d
  else if d_paused d then d
  else if has (d_seen d) pda then d
  else with_fetches (d_fetches d ++ [pda])%list d.

(** The account arrives; [None] when it is missing or the fetch failed. *)
Definition fetchAnswered (now : Z) (pda : string) (answer : option OnChainTask) (d : Discovery) : Discovery * list TaskDiscoveryResult :=
  if has (d_fetches d) pda then
    let d := with_fetches (remove_first pda (d_fetches d)) d in
    match answer with
    | Some task =>
        if matchesFilter now task (d_capabilities d) (d_filter d)
        then (with_seen (if has (d_seen d) pda then d_seen d else d_seen d ++ [pda])%list d, [{| t_pda := pda; t_task := task |}])
        else (d, [])
    | None => (d, [])
    end
  else (d, []).

(** ** Runs *)

Inductive DiscoveryEvent :=
| DStart (caps : Z)
| DStop
| DPause
| DResume
| DPollTimer
| DPollAnswer (now : Z) (answer : option (list TaskDiscoveryResult))
| DPoll (now caps : Z) (answer : option (list TaskDiscoveryResult))
| DTaskCreated (pda : string)
| DFetchAnswer (now : Z) (pda : string) (answer : option OnChainTask).

Definition dstep (d : Discovery) (e : DiscoveryEvent) : Discovery * list TaskDiscoveryResult :=
  match e with
  | DStart caps => (start caps d, [])
  | DStop => (stop d, [])
  | DPause => (pause d, [])
  | DResume => (resume d, [])
  | DPollTimer => (if d_running d && polls (d_mode d) then executePollCycle d else d, [])
  | DPollAnswer now answer => pollAnswered now answer d
  | DPoll now caps answer => poll now caps answer d
  | DTaskCreated pda => (eventArrived pda d, [])
  | DFetchAnswer now pda answer => fetchAnswered now pda answer d
  end.

Fixpoint drun (d : Discovery) (es : list DiscoveryEvent) : Discovery * list TaskDiscoveryResult :=
  match es with [] => (d, []) | e :: rest => let '(d, out) := dstep d e in let '(d, out') := drun d rest in (d, (out ++ out')%list) end.

(** ** Filters *)

(** A task passes exactly if every criterion holds. *)
Theorem matchesFilter_iff now t caps f : matchesFilter now t caps f = true <->
  (status t = Open \/ status t = InProgress) /\ Z.land caps (requiredCapabilities t) = requiredCapabilities t /\
  currentWorkers t < maxWorkers t /\ (forall m, minRewardLamports f = Some m -> m <= rewardAmount t) /\
  (forall m, maxRewardLamports f = Some m -> rewardAmount t <= m) /\
  (forall tys, taskTypes f = Some tys -> tys = [] \/ taskType t ∈ tys) /\
  (forall b, minDeadlineBufferSeconds f = Some b -> 0 < b -> 0 < deadline t -> now + b <= deadline t) /\
  (privateOnly f = true -> isPrivateTask t = true) /\ (publicOnly f = true -> isPrivateTask t = false) /\
  (forall p, customFilter f = Some p -> p t = true).
Proof.
  assert (Hif : forall (a b : bool) P Q, (a = false <-> P) -> (b = true <-> Q) -> ((if a then false else b) = true <-> P /\ Q)).
  { intros [] []; naive_solver. }
  unfold matchesFilter, hasRequiredCapabilities. repeat apply Hif.
  - rewrite andb_false_iff, !negb_false_iff, !bool_decide_eq_true. done.
  - rewrite negb_false_iff. lia.
  - lia.
  - destruct (minRewardLamports f); [split; [intros Hm m [= <-]; lia|intros Hm; specialize (Hm _ eq_refl); lia]|done].
  - destruct (maxRewardLamports f); [split; [intros Hm m [= <-]; lia|intros Hm; specialize (Hm _ eq_refl); lia]|done].
  - destruct (taskTypes f) as [[|ty tys]|]; [split; [intros _ l [= <-]; by left|done]| |done]. rewrite negb_false_iff, bool_decide_eq_true.
    split; [intros Hi l [= <-]; by right|intros Hi; by destruct (Hi _ eq_refl)].
  - destruct (minDeadlineBufferSeconds f) as [b|]; [|done]. split; [intros Hm b' [= <-]; lia|intros Hm; specialize (Hm _ eq_refl); lia].
  - destruct (privateOnly f), (isPrivateTask t); cbn; naive_solver.
  - destruct (publicOnly f), (isPrivateTask t); cbn; naive_solver.
  - destruct (customFilter f); naive_solver.
Qed.

(** An agent without capabilities is offered tasks that require none only. *)
Lemma no_capabilities now t f : matchesFilter now t 0 f = true -> requiredCapabilities t = 0.
Proof. intros Hm. apply matchesFilter_iff in Hm as (_ & Hc & _). by rewrite Z.land_0_l in Hc. Qed.

(** Ranking keeps the tasks that pass, by descending score. *)
Theorem filterAndRank_correct now tasks caps f scorer :
  map fst (filterAndRank now tasks caps f scorer) ≡ₚ List.filter (fun t => matchesFilter now t caps f) tasks /\
  StronglySorted (fun a b => (b.2 <= a.2)%Q) (filterAndRank now tasks caps f scorer) /\
  Forall (fun p => p.2 = scorer p.1) (filterAndRank now tasks caps f scorer).
Proof.
  unfold filterAndRank, rankTasks. set (l := List.filter _ tasks). split_and!.
  - rewrite sort_by_perm, map_map. by rewrite map_id.
  - assert (Transitive (fun a b : OnChainTask * Q => (b.2 <= a.2)%Q)) by (intros a b c; intros H1 H2; by eapply Qle_trans).
    apply (sort_by_sorted (fun a b : OnChainTask * Q => Qcompare b.2 a.2) (fun a b => (b.2 <= a.2)%Q)).
    + intros a b Hc. by apply Qle_alt.
    + intros a b Hc. apply Qlt_le_weak. by apply Qgt_alt.
  - rewrite sort_by_perm. apply Forall_map, Forall_true. done.
Qed.

(** ** No task twice *)

Lemma pollAll_spec now caps l : forall d out, NoDup (map t_pda out) -> (forall p, p ∈ map t_pda out -> p ∈ d_seen d) ->
  let r := foldl (pollOne now caps) (d, out) l in
  NoDup (map t_pda r.2) /\ (forall p, p ∈ map t_pda r.2 -> p ∈ d_seen r.1) /\ (forall p, p ∈ d_seen d -> p ∈ d_seen r.1) /\
  (exists new, r.2 = (out ++ new)%list /\ forall p, p ∈ map t_pda new -> p ∉ d_seen d) /\
  d_fetches r.1 = d_fetches d /\ d_mode r.1 = d_mode d.
Proof.
  induction l as [|x l IH]; intros d out Hn Hs; cbn [foldl].
  { split_and!; auto. exists []. rewrite app_nil_r. split; [done|]. by intros p ?%elem_of_nil. }
  remember (pollOne now caps (d, out) x) as y eqn:Hy. unfold pollOne in Hy. cbn [fst snd] in Hy. destruct (has (d_seen d) (t_pda x)) eqn:Hx; [subst y; by apply IH|].
  destruct (matchesFilter _ _ _ _); subst y; [|by apply IH]. apply has_false in Hx.
  destruct (IH (with_seen (d_seen d ++ [t_pda x])%list d) (out ++ [x])%list) as (R1 & R2 & R3 & (new & R4 & R5) & R6 & R7).
  - rewrite map_app. apply NoDup_app. split_and!; [done| |apply NoDup_singleton]. intros p Hp ->%list_elem_of_singleton. auto.
  - intros p. rewrite map_app, elem_of_app. cbn. rewrite list_elem_of_singleton, elem_of_app, list_elem_of_singleton. intros [?| ->]; auto.
  - cbn [d_seen with_seen] in *. split_and!; auto.
    + intros p Hp. apply R3, elem_of_app. by left.
    + exists (x :: new). rewrite R4, <- app_assoc. split; [done|]. intros p [-> |Hp]%elem_of_cons; [done|]. intros Hd. apply (R5 p Hp), elem_of_app. by left.
Qed.

(** A step of a polling discovery: what it reports was not seen before. *)
Record polling_step d (r : Discovery * list TaskDiscoveryResult) : Prop := {
  ps_mode : d_mode r.1 = mode_poll;
  ps_fetches : d_fetches r.1 = [];
  ps_distinct : NoDup (map t_pda r.2);
  ps_seen : forall p, p ∈ d_seen d -> p ∈ d_seen r.1;
  ps_new : forall p, p ∈ map t_pda r.2 -> p ∈ d_seen r.1 /\ p ∉ d_seen d;
}.

Lemma polling_silent d d' : d_mode d' = mode_poll -> d_fetches d' = [] -> d_seen d' = d_seen d -> polling_step d (d', []).
Proof. intros H1 H2 H3. split; cbn; rewrite ?H3; auto; [constructor|by intros p ?%elem_of_nil]. Qed.

Lemma polling_pollAll now caps l d : d_mode d = mode_poll -> d_fetches d = [] -> polling_step d (pollAll now caps l d).
Proof.
  intros Hm Hf. unfold pollAll. destruct (pollAll_spec now caps l d []) as (R1 & R2 & R3 & (new & R4 & R5) & R6 & R7).
  { constructor. } { by intros p ?%elem_of_nil. }
  split; rewrite ?R6, ?R7; auto. intros p Hp. split; [auto|]. apply R5. by rewrite R4 in Hp.
Qed.

Lemma polling_dstep d e : d_mode d = mode_poll -> d_fetches d = [] -> polling_step d (dstep d e).
Proof.
  intros Hm Hf. destruct e; cbn [dstep];
    try (apply polling_silent; unfold start, stop, pause, resume, executePollCycle, eventArrived in *; rewrite ?Hm, ?andb_false_r; repeat case_match; done).
  - unfold pollAnswered. destruct (d_polls d) as [|n]; [by apply polling_silent|]. destruct answer; [|by apply polling_silent].
    by destruct (polling_pollAll now (d_capabilities (with_polls n d)) l (with_polls n d) Hm Hf).
  - unfold poll. destruct answer; [by apply polling_pollAll|by apply polling_silent].
  - unfold fetchAnswered. rewrite Hf. by apply polling_silent.
Qed.

(** A discovery that polls reports no task twice, over any interleaving of
    poll cycles, manual polls, pauses and restarts. *)
Theorem polling_no_duplicates f es : NoDup (map t_pda (drun (newDiscovery mode_poll f) es).2).
Proof.
  cut (forall d, d_mode d = mode_poll -> d_fetches d = [] ->
    NoDup (map t_pda (drun d es).2) /\ forall p, p ∈ map t_pda (drun d es).2 -> p ∉ d_seen d).
  { intros Hc. by apply Hc. }
  induction es as [|e es IH]; intros d Hm Hf; cbn [drun].
  { split; [constructor|]. by intros p ?%elem_of_nil. }
  pose proof (polling_dstep d e Hm Hf) as Hstep. destruct (dstep d e) as [d1 out].
  destruct Hstep as [S1 S2 S3 S4 S5]. cbn [fst snd] in *. destruct (IH d1 S1 S2) as [I1 I2]. destruct (drun d1 es) as [d2 out2]. cbn [snd] in *.
  split.
  - rewrite map_app. apply NoDup_app. split_and!; [done| |done]. intros p Hp Hp2. destruct (S5 p Hp). by apply (I2 p).
  - intros p. rewrite map_app, elem_of_app. intros [Hp|Hp]; [by apply S5|]. intros Hd. by apply (I2 p Hp), S4.
Qed.

Module DiscoveryDemo.
Definition open (caps : Z) : OnChainTask := {| requiredCapabilities := caps; constraintHash := []; rewardAmount := 5; maxWorkers := 2; currentWorkers := 0;
  status := Open; taskType := Collaborative; deadline := 0 |}.
Definition anything : TaskFilterConfig := {| f_capabilities := None; minRewardLamports := None; maxRewardLamports := None; taskTypes := None;
  minDeadlineBufferSeconds := None; privateOnly := false; publicOnly := false; customFilter := None |}.

(** The seen check of an event and the mark are apart: a task that a poll finds
    in between is reported twice. *)
Lemma event_race_reports_twice :
  map t_pda (drun (newDiscovery mode_hybrid anything) [DStart 0; DTaskCreated "a"; DPollAnswer 0 (Some [{| t_pda := "a"; t_task := open 0 |}]);
    DFetchAnswer 0 "a" (Some (open 0))]).2 = ["a"; "a"].
Proof. by vm_compute. Qed.

(** Events that arrive while the discovery is paused are lost. *)
Lemma paused_event_lost :
  map t_pda (drun (newDiscovery mode_event anything) [DStart 0; DPause; DTaskCreated "a"; DResume; DFetchAnswer 0 "a" (Some (open 0))]).2 = [].
Proof. by vm_compute. Qed.
End DiscoveryDemo.
