(* ===== verification/TaskExecutor.v ===== *)
(** * Task executor (src/runtime/src/task/executor.ts)

    The pipeline discover, claim, execute, submit. Every promise that the code
    awaits is a phase of a pipeline, and its settlement an event: between two
    events the code runs without interruption. The chain, the task handler and
    the scorer are the environment; claim and execution results are carried,
    never looked at; a score is an integer. [maxAttempts] of the retry policy is
    one more than [ec_retries]. The checkpoint store keeps one checkpoint per
    task and lists them all; an answer tells whether a call to it failed, except
    during recovery, where its calls succeed. A batch arrives as the event of its
    resolved tasks, and the autonomous loop follows the recovery. The back-off
    delays, the event callbacks, tracing, gauges and the audit records of
    compiled jobs are left out. *)
From Stdlib Require Import QArith_base.
From stdpp Require Import pretty.
From S2P Require Import Prelude JsMap JsString Transitions PriorityQueue DeadLetterQueue TaskDiscovery.
#[local] Open Scope string_scope.
#[local] Open Scope Z_scope.

(** ** Errors *)

Inductive ExecError :=
| OperationError (message : string) (code : option string)
| TaskTimeoutError (timeoutMs : Z)
| ClaimExpiredError (expiresAt bufferMs : Z)
| RetryExhaustedError (stage : DeadLetterStage) (attempts : Z) (lastError : ExecError).

Definition stageName (s : DeadLetterStage) : string :=
  match s with stage_claim => "claim" | stage_execute => "execute" | stage_submit => "submit" end.

Fixpoint errorMessage (e : ExecError) : string :=
  match e with
  | OperationError message _ => message
  | TaskTimeoutError ms => "Task execution timed out after " +:+ pretty ms +:+ "ms"
  | ClaimExpiredError expiresAt bufferMs => "Claim deadline expiring: expires_at=" +:+ pretty expiresAt +:+ ", buffer=" +:+ pretty bufferMs +:+ "ms"
  | RetryExhaustedError stage attempts last =>
      "Retry exhausted for " +:+ stageName stage +:+ " after " +:+ pretty attempts +:+ " attempts: " +:+ errorMessage last
  end.

Definition errorCodeOf (e : ExecError) : option string :=
  match e with
  | OperationError _ code => code
  | TaskTimeoutError _ => Some "TASK_TIMEOUT"
  | ClaimExpiredError _ _ => Some "CLAIM_EXPIRED"
  | RetryExhaustedError _ _ _ => Some "RETRY_EXHAUSTED"
  end.

Definition inferFailureStage (e : ExecError) : DeadLetterStage :=
  match e with RetryExhaustedError stage _ _ => stage | _ => stage_execute end.

Definition failureAttempts (e : ExecError) : Z := match e with RetryExhaustedError _ n _ => n | _ => 1 end.

Section executor.
Context {C R : Type}.

(** ** Checkpoints *)

Inductive CheckpointStage := cp_claimed | cp_executed | cp_submitted.

Record TaskCheckpoint := {
  cp_taskPda : string;
  cp_stage : CheckpointStage;
  cp_claimResult : option C;
  cp_executionResult : option R;
  cp_trusted : bool;
  cp_createdAt : Z;
  cp_updatedAt : Z;
}.

Definition checkpointExecutionResultRequiresRevalidation (cp : TaskCheckpoint) : bool :=
  match cp_executionResult cp with None => false | Some _ => negb (cp_trusted cp) end.

(** ** Pipelines *)

(** What a pipeline waits for. *)
Inductive Phase :=
| Claiming (attempt : nat)
| ClaimWait (attempt : nat) (lastError : ExecError)
| SavingClaimed (claim : C)
| Guarding (claim : C)
| Resolving (claim : C)
| Handling (claim : C)
| SavingExecuted (claim : C) (result : R)
| Submitting (attempt : nat) (result : R)
| SubmitWait (attempt : nat) (result : R) (lastError : ExecError)
| Removing
| FetchingExpiry
| Cleaning
| CleaningUnexpected.

Record Pipeline := {
  pl_id : nat;
  pl_task : TaskDiscoveryResult;
  pl_aborted : bool;
  pl_timeoutArmed : bool;
  pl_deadlineArmed : bool;
  pl_timedOut : bool;
  pl_claimExpired : bool;
  pl_recovered : bool;
  pl_createdAt : Z;
  pl_phase : Phase;
}.

Record Metrics := {
  tasksDiscovered : Z;
  tasksClaimed : Z;
  tasksCompleted : Z;
  tasksFailed : Z;
  claimsFailed : Z;
  submitsFailed : Z;
  claimsExpired : Z;
  claimRetries : Z;
  submitRetries : Z;
}.

Record BackpressureConfig := { highWaterMark : Z; lowWaterMark : Z; pauseDiscovery : bool }.

Record ExecutorConfig := {
  ec_maxConcurrentTasks : Z;
  ec_taskTimeoutMs : Z;
  ec_claimExpiryBufferMs : Z;
  ec_retries : nat;
  ec_backpressure : BackpressureConfig;
  ec_queueCapacity : option Z;
  ec_dlqMaxSize : Z;
  ec_scorer : OnChainTask -> Z;
}.

Record Executor := {
  ex_running : bool;
  ex_listening : bool;
  ex_stopping : bool;
  ex_recovering : option (list TaskCheckpoint);
  ex_active : jsmap nat;
  ex_queue : list (HeapEntry TaskDiscoveryResult);
  ex_backpressure : bool;
  ex_discovery : Discovery;
  ex_dlq : list (DeadLetterEntry OnChainTask unit);
  ex_checkpoints : option (jsmap TaskCheckpoint);
  ex_metrics : Metrics;
  ex_pipelines : list Pipeline;
  ex_nextId : nat;
}.

Definition noMetrics : Metrics := {| tasksDiscovered := 0; tasksClaimed := 0; tasksCompleted := 0; tasksFailed := 0; claimsFailed := 0;
  submitsFailed := 0; claimsExpired := 0; claimRetries := 0; submitRetries := 0 |}.

(** A new executor on a store of checkpoints, if there is one. *)
Definition newExecutor (d : Discovery) (store : option (jsmap TaskCheckpoint)) : Executor := {|
  ex_running := false; ex_listening := false; ex_stopping := false; ex_recovering := None; ex_active := []; ex_queue := []; ex_backpressure := false;
  ex_discovery := d; ex_dlq := []; ex_checkpoints := store; ex_metrics := noMetrics; ex_pipelines := []; ex_nextId := 0 |}.

(** ** Updates *)

Definition set_life (running listening stopping : bool) (recovering : option (list TaskCheckpoint)) (s : Executor) : Executor := {|
  ex_running := running; ex_listening := listening; ex_stopping := stopping; ex_recovering := recovering; ex_active := ex_active s; ex_queue := ex_queue s;
  ex_backpressure := ex_backpressure s; ex_discovery := ex_discovery s; ex_dlq := ex_dlq s; ex_checkpoints := ex_checkpoints s;
  ex_metrics := ex_metrics s; ex_pipelines := ex_pipelines s; ex_nextId := ex_nextId s |}.

Definition set_work (active : jsmap nat) (pipelines : list Pipeline) (nextId : nat) (s : Executor) : Executor := {|
  ex_running := ex_running s; ex_listening := ex_listening s; ex_stopping := ex_stopping s; ex_recovering := ex_recovering s; ex_active := active;
  ex_queue := ex_queue s; ex_backpressure := ex_backpressure s; ex_discovery := ex_discovery s; ex_dlq := ex_dlq s;
  ex_checkpoints := ex_checkpoints s; ex_metrics := ex_metrics s; ex_pipelines := pipelines; ex_nextId := nextId |}.

Definition set_queue (queue : list (HeapEntry TaskDiscoveryResult)) (s : Executor) : Executor := {|
  ex_running := ex_running s; ex_listening := ex_listening s; ex_stopping := ex_stopping s; ex_recovering := ex_recovering s; ex_active := ex_active s;
  ex_queue := queue; ex_backpressure := ex_backpressure s; ex_discovery := ex_discovery s; ex_dlq := ex_dlq s;
  ex_checkpoints := ex_checkpoints s; ex_metrics := ex_metrics s; ex_pipelines := ex_pipelines s; ex_nextId := ex_nextId s |}.

Definition set_flow (backpressure : bool) (d : Discovery) (s : Executor) : Executor := {|
  ex_running := ex_running s; ex_listening := ex_listening s; ex_stopping := ex_stopping s; ex_recovering := ex_recovering s; ex_active := ex_active s;
  ex_queue := ex_queue s; ex_backpressure := backpressure; ex_discovery := d; ex_dlq := ex_dlq s;
  ex_checkpoints := ex_checkpoints s; ex_metrics := ex_metrics s; ex_pipelines := ex_pipelines s; ex_nextId := ex_nextId s |}.

Definition set_records (dlq : list (DeadLetterEntry OnChainTask unit)) (checkpoints : option (jsmap TaskCheckpoint)) (m : Metrics) (s : Executor)
    : Executor := {|
  ex_running := ex_running s; ex_listening := ex_listening s; ex_stopping := ex_stopping s; ex_recovering := ex_recovering s; ex_active := ex_active s;
  ex_queue := ex_queue s; ex_backpressure := ex_backpressure s; ex_discovery := ex_discovery s; ex_dlq := dlq;
  ex_checkpoints := checkpoints; ex_metrics := m; ex_pipelines := ex_pipelines s; ex_nextId := ex_nextId s |}.

Definition with_metrics (f : Metrics -> Metrics) (s : Executor) : Executor := set_records (ex_dlq s) (ex_checkpoints s) (f (ex_metrics s)) s.

(** [d, c, ...]: what is added to each counter. *)
Definition bump (discovered claimed completed failed cFailed sFailed expired cRetries sRetries : Z) (m : Metrics) : Metrics := {|
  tasksDiscovered := tasksDiscovered m + discovered; tasksClaimed := tasksClaimed m + claimed; tasksCompleted := tasksCompleted m + completed;
  tasksFailed := tasksFailed m + failed; claimsFailed := claimsFailed m + cFailed; submitsFailed := submitsFailed m + sFailed;
  claimsExpired := claimsExpired m + expired; claimRetries := claimRetries m + cRetries; submitRetries := submitRetries m + sRetries |}.

Definition countDiscovered : Executor -> Executor := with_metrics (bump 1 0 0 0 0 0 0 0 0).
Definition countClaimed : Executor -> Executor := with_metrics (bump 0 1 0 0 0 0 0 0 0).
Definition countCompleted : Executor -> Executor := with_metrics (bump 0 0 1 0 0 0 0 0 0).
Definition countFailed : Executor -> Executor := with_metrics (bump 0 0 0 1 0 0 0 0 0).
Definition countClaimFailed : Executor -> Executor := with_metrics (bump 0 0 0 0 1 0 0 0 0).
Definition countSubmitFailed : Executor -> Executor := with_metrics (bump 0 0 0 0 0 1 0 0 0).
Definition countExpired : Executor -> Executor := with_metrics (bump 0 0 0 1 0 0 1 0 0).
Definition countClaimRetry : Executor -> Executor := with_metrics (bump 0 0 0 0 0 0 0 1 0).
Definition countSubmitRetry : Executor -> Executor := with_metrics (bump 0 0 0 0 0 0 0 0 1).

Definition storeCheckpoint (cp : TaskCheckpoint) (s : Executor) : Executor :=
  set_records (ex_dlq s) (mset (cp_taskPda cp) cp <$> ex_checkpoints s) (ex_metrics s) s.

Definition removeCheckpoint (pda : string) (s : Executor) : Executor := set_records (ex_dlq s) (mdel pda <$> ex_checkpoints s) (ex_metrics s) s.

Definition replacePipeline (p : Pipeline) (s : Executor) : Executor :=
  set_work (ex_active s) (map (fun q => if (pl_id q =? pl_id p)%nat then p else q) (ex_pipelines s)) (ex_nextId s) s.

Definition with_phase (ph : Phase) (p : Pipeline) : Pipeline := {|
  pl_id := pl_id p; pl_task := pl_task p; pl_aborted := pl_aborted p; pl_timeoutArmed := pl_timeoutArmed p; pl_deadlineArmed := pl_deadlineArmed p;
  pl_timedOut := pl_timedOut p; pl_claimExpired := pl_claimExpired p; pl_recovered := pl_recovered p; pl_createdAt := pl_createdAt p; pl_phase := ph |}.

Definition with_timers (timeout deadline : bool) (p : Pipeline) : Pipeline := {|
  pl_id := pl_id p; pl_task := pl_task p; pl_aborted := pl_aborted p; pl_timeoutArmed := timeout; pl_deadlineArmed := deadline;
  pl_timedOut := pl_timedOut p; pl_claimExpired := pl_claimExpired p; pl_recovered := pl_recovered p; pl_createdAt := pl_createdAt p;
  pl_phase := pl_phase p |}.

Definition with_signals (aborted timedOut claimExpired : bool) (p : Pipeline) : Pipeline := {|
  pl_id := pl_id p; pl_task := pl_task p; pl_aborted := aborted; pl_timeoutArmed := pl_timeoutArmed p; pl_deadlineArmed := pl_deadlineArmed p;
  pl_timedOut := timedOut; pl_claimExpired := claimExpired; pl_recovered := pl_recovered p; pl_createdAt := pl_createdAt p;
  pl_phase := pl_phase p |}.

Definition created_at (t : Z) (p : Pipeline) : Pipeline := {|
  pl_id := pl_id p; pl_task := pl_task p; pl_aborted := pl_aborted p; pl_timeoutArmed := pl_timeoutArmed p; pl_deadlineArmed := pl_deadlineArmed p;
  pl_timedOut := pl_timedOut p; pl_claimExpired := pl_claimExpired p; pl_recovered := pl_recovered p; pl_createdAt := t; pl_phase := pl_phase p |}.

Definition pdaOf (p : Pipeline) : string := t_pda (pl_task p).

Section config.
Context (cfg : ExecutorConfig).

(** ** Concurrency *)

Definition activeCount (s : Executor) : Z := Z.of_nat (length (ex_active s)).
Definition queueSize (s : Executor) : Z := Z.of_nat (length (ex_queue s)).

(** [launchTask] and [launchRecoveredTask]: a pipeline in its first phase. *)
Definition launch (t : TaskDiscoveryResult) (recovered : bool) (createdAt : Z) (ph : Phase) (s : Executor) : Executor :=
  set_work (mset (t_pda t) (ex_nextId s) (ex_active s))
    (ex_pipelines s ++ [{| pl_id := ex_nextId s; pl_task := t; pl_aborted := false; pl_timeoutArmed := false; pl_deadlineArmed := false;
      pl_timedOut := false; pl_claimExpired := false; pl_recovered := recovered; pl_createdAt := createdAt; pl_phase := ph |}])
    (S (ex_nextId s)) s.

Definition launchTask (t : TaskDiscoveryResult) (s : Executor) : Executor := launch t false 0 (Claiming 0) s.

(** [taskQueue.push]. A queue of capacity 0 makes it throw a TypeError, which the
    model takes as no task queued; the theorems about runs exclude it. *)
Definition enqueue (t : TaskDiscoveryResult) (s : Executor) : Executor :=
  match push (ec_queueCapacity cfg) t (ec_scorer cfg (t_task t)) (ex_queue s) with Ok h => set_queue h s | Err _ => s end.

Definition checkHighWaterMark (s : Executor) : Executor :=
  if negb (ex_backpressure s) && pauseDiscovery (ec_backpressure cfg) && (highWaterMark (ec_backpressure cfg) <=? queueSize s)
  then set_flow true (pause (ex_discovery s)) s else s.

Definition checkLowWaterMark (s : Executor) : Executor :=
  if ex_backpressure s && (queueSize s <=? lowWaterMark (ec_backpressure cfg)) then set_flow false (resume (ex_discovery s)) s else s.

Definition handleDiscoveredTask (t : TaskDiscoveryResult) (s : Executor) : Executor :=
  if (activeCount s <? ec_maxConcurrentTasks cfg) && (queueSize s =? 0) then launchTask t s
  else checkHighWaterMark (enqueue t s).

(** Every iteration takes an entry from the queue. *)
Fixpoint drainLoop (fuel : nat) (s : Executor) : Executor :=
  match fuel with
  | O => s
  | S fuel =>
      if ex_running s && (activeCount s <? ec_maxConcurrentTasks cfg) && (0 <? queueSize s) then
        match pop (ex_queue s) with
        | Ok (h, Some t) => drainLoop fuel (launchTask t (set_queue h s))
        | _ => s
        end
      else s
  end.

Definition drainQueue (s : Executor) : Executor := checkLowWaterMark (drainLoop (length (ex_queue s)) s).

(** ** Failures *)

Definition sendToDeadLetterQueue (now : Z) (p : Pipeline) (e : ExecError) (stage : DeadLetterStage) (attempts : Z) (s : Executor) : Executor :=
  set_records (DeadLetterQueue.add (ec_dlqMaxSize cfg) {| DeadLetterQueue.taskPda := pdaOf p; DeadLetterQueue.task := t_task (pl_task p);
      DeadLetterQueue.error := errorMessage e; DeadLetterQueue.errorCode := errorCodeOf e; DeadLetterQueue.failedAt := now;
      DeadLetterQueue.stage := stage; DeadLetterQueue.attempts := attempts; DeadLetterQueue.retryable := match stage with stage_execute => false | _ => true end;
      DeadLetterQueue.metadata := None |} (ex_dlq s)) (ex_checkpoints s) (ex_metrics s) s.

(** The [finally] blocks. *)
Definition finish (p : Pipeline) (s : Executor) : Executor :=
  drainQueue (set_work (mdel (pdaOf p) (ex_active s)) (List.filter (fun q => negb (pl_id q =? pl_id p)%nat) (ex_pipelines s)) (ex_nextId s) s).

(** The end of a [catch] block: a recovered task removes its checkpoint. *)
Definition afterFailure (p : Pipeline) (s : Executor) : Executor :=
  if pl_recovered p then replacePipeline (with_phase Cleaning p) s else finish p s.

Definition failPipeline (now : Z) (e : ExecError) (p : Pipeline) (s : Executor) : Executor :=
  let p := if pl_recovered p then with_timers false false p else p in
  if pl_claimExpired p then replacePipeline (with_phase FetchingExpiry p) s
  else if pl_timedOut p then
    afterFailure p (sendToDeadLetterQueue now p (TaskTimeoutError (ec_taskTimeoutMs cfg)) stage_execute 1 (countFailed s))
  else if pl_aborted p then afterFailure p s
  else afterFailure p (sendToDeadLetterQueue now p e (inferFailureStage e) (failureAttempts e) s).

(** The claim of the failed task was fetched; an error counts as none. *)
Definition expiryFetched (now : Z) (expiresAt : option Z) (p : Pipeline) (s : Executor) : Executor :=
  afterFailure p (sendToDeadLetterQueue now p (ClaimExpiredError (default 0 expiresAt) (ec_claimExpiryBufferMs cfg)) stage_execute 1 (countExpired s)).

(** ** Stages *)

Definition continue (ph : Phase) (p : Pipeline) (s : Executor) : Executor := replacePipeline (with_phase ph p) s.

Definition beginExecution (claim : C) (p : Pipeline) (s : Executor) : Executor :=
  continue (Resolving claim) (if 0 <? ec_taskTimeoutMs cfg then with_timers true (pl_deadlineArmed p) p else p) s.

(** The deadline guard, before it fetches the claim. *)
Definition guardClaim (claim : C) (p : Pipeline) (s : Executor) : Executor :=
  if 0 <? ec_claimExpiryBufferMs cfg then continue (Guarding claim) p s else beginExecution claim p s.

Definition claimFetched (now : Z) (claim : C) (expiresAt : option Z) (p : Pipeline) (s : Executor) : Executor :=
  match expiresAt with
  | Some exp =>
      if 0 <? exp then
        if exp * 1000 - now - ec_claimExpiryBufferMs cfg <=? 0 then
          let p := with_signals true (pl_timedOut p) true p in
          let s := sendToDeadLetterQueue now p (ClaimExpiredError exp (ec_claimExpiryBufferMs cfg)) stage_claim 1 (countExpired s) in
          if pl_recovered p then failPipeline now (ClaimExpiredError 0 (ec_claimExpiryBufferMs cfg)) p s else finish p s
        else beginExecution claim (with_timers (pl_timeoutArmed p) true p) s
      else beginExecution claim p s
  | None => beginExecution claim p s
  end.

Definition beginSubmit (result : R) (p : Pipeline) (s : Executor) : Executor := continue (Submitting 0 result) p s.

(** A failed attempt of [retryStage]. *)
Definition retryOrFail (now : Z) (stage : DeadLetterStage) (attempt : nat) (e : ExecError) (wait : Phase) (count : Executor -> Executor)
    (p : Pipeline) (s : Executor) : Executor :=
  if (ec_retries cfg <=? attempt)%nat then failPipeline now (RetryExhaustedError stage (Z.of_nat (S (ec_retries cfg))) e) p s
  else if pl_aborted p then failPipeline now e p s
  else continue wait p (count s).

(** ** Settled promises *)

Inductive Answer :=
| AClaim (now : Z) (r : result ExecError C)
| AWake (now : Z)
| AStore (now : Z) (r : result ExecError unit)
| AExpiry (now : Z) (r : result ExecError (option Z))
| AResolve (now : Z) (r : result ExecError unit)
| AHandler (now : Z) (r : result ExecError R)
| ASubmit (now : Z) (r : result ExecError unit).

Definition checkpointOf (now : Z) (stage : CheckpointStage) (claim : C) (r : option R) (p : Pipeline) : TaskCheckpoint := {|
  cp_taskPda := pdaOf p; cp_stage := stage; cp_claimResult := Some claim; cp_executionResult := r;
  cp_trusted := match stage, r with cp_executed, Some _ => true | _, _ => false end; cp_createdAt := pl_createdAt p; cp_updatedAt := now |}.

Definition settle (a : Answer) (p : Pipeline) (s : Executor) : Executor :=
  match pl_phase p, a with
  | Claiming attempt, AClaim now (Ok claim) =>
      let s := countClaimed s in
      let p := created_at now p in
      match ex_checkpoints s with Some _ => continue (SavingClaimed claim) p s | None => guardClaim claim p s end
  | Claiming attempt, AClaim now (Err e) => retryOrFail now stage_claim attempt e (ClaimWait attempt e) countClaimRetry p (countClaimFailed s)
  | ClaimWait attempt e, AWake now => if pl_aborted p then failPipeline now e p s else continue (Claiming (S attempt)) p s
  | SavingClaimed claim, AStore now (Ok _) => guardClaim claim p (storeCheckpoint (checkpointOf now cp_claimed claim None p) s)
  | SavingClaimed claim, AStore now (Err e) => failPipeline now e p s
  | Guarding claim, AExpiry now (Ok expiresAt) => claimFetched now claim expiresAt p s
  | Guarding claim, AExpiry now (Err e) => failPipeline now e p s
  | Resolving claim, AResolve now (Ok _) => continue (Handling claim) p s
  | Resolving claim, AResolve now (Err e) => failPipeline now e p s
  | Handling claim, AHandler now (Ok r) =>
      let p := with_timers false false p in
      match ex_checkpoints s with Some _ => continue (SavingExecuted claim r) p s | None => beginSubmit r p s end
  | Handling claim, AHandler now (Err e) => failPipeline now e p (if pl_aborted p then s else countFailed s)
  | SavingExecuted claim r, AStore now (Ok _) => beginSubmit r p (storeCheckpoint (checkpointOf now cp_executed claim (Some r) p) s)
  | SavingExecuted claim r, AStore now (Err e) => failPipeline now e p s
  | Submitting attempt r, ASubmit now (Ok _) =>
      let s := countCompleted s in match ex_checkpoints s with Some _ => continue Removing p s | None => finish p s end
  | Submitting attempt r, ASubmit now (Err e) => retryOrFail now stage_submit attempt e (SubmitWait attempt r e) countSubmitRetry p (countSubmitFailed s)
  | SubmitWait attempt r e, AWake now => if pl_aborted p then failPipeline now e p s else continue (Submitting (S attempt) r) p s
  | Removing, AStore now (Ok _) => finish p (removeCheckpoint (pdaOf p) s)
  | Removing, AStore now (Err e) => failPipeline now e p s
  | FetchingExpiry, AExpiry now (Ok expiresAt) => expiryFetched now expiresAt p s
  | FetchingExpiry, AExpiry now (Err _) => expiryFetched now None p s
  | Cleaning, AStore _ (Ok _) => finish p (removeCheckpoint (pdaOf p) s)
  | Cleaning, AStore _ (Err _) => finish p s
  | CleaningUnexpected, AStore _ (Ok _) => finish p (removeCheckpoint (pdaOf p) s)
  | CleaningUnexpected, AStore now (Err e) => failPipeline now e p s
  | _, _ => s
  end.

Definition findPipeline (id : nat) (s : Executor) : option Pipeline := List.find (fun p => (pl_id p =? id)%nat) (ex_pipelines s).

Definition settleId (id : nat) (a : Answer) (s : Executor) : Executor :=
  match findPipeline id s with Some p => settle a p s | None => s end.

(** ** Timers *)

Definition timeoutFired (id : nat) (s : Executor) : Executor :=
  match findPipeline id s with
  | Some p => if pl_timeoutArmed p then replacePipeline (with_signals true true (pl_claimExpired p) (with_timers false (pl_deadlineArmed p) p)) s else s
  | None => s
  end.

(** The closure of a recovered task sets a variable that nothing reads. *)
Definition deadlineFired (id : nat) (s : Executor) : Executor :=
  match findPipeline id s with
  | Some p =>
      if pl_deadlineArmed p then
        replacePipeline (with_signals true (pl_timedOut p) (if pl_recovered p then pl_claimExpired p else true) (with_timers (pl_timeoutArmed p) false p)) s
      else s
  | None => s
  end.

(** ** Recovery *)

Definition recoveryPhase (cp : TaskCheckpoint) (t : TaskDiscoveryResult) (s : Executor) : Executor :=
  let revalidate claim s :=
    let s := launch t true (cp_createdAt cp) (Resolving claim) s in
    match findPipeline (ex_nextId s - 1) s with Some p => guardClaim claim p s | None => s end in
  match cp_stage cp, cp_claimResult cp, cp_executionResult cp with
  | cp_claimed, Some claim, _ => revalidate claim s
  | cp_executed, Some claim, Some r =>
      if checkpointExecutionResultRequiresRevalidation cp then revalidate claim s
      else launch t true (cp_createdAt cp) (Submitting 0 r) s
  | _, _, _ => launch t true (cp_createdAt cp) CleaningUnexpected s
  end.

(** One checkpoint: the claim and the task as they were fetched. *)
Definition recoverOne (nowSec : Z) (claim : result ExecError (option Z)) (task : result ExecError (option OnChainTask)) (cp : TaskCheckpoint) (s : Executor)
    : Executor :=
  match claim with
  | Err _ => removeCheckpoint (cp_taskPda cp) s
  | Ok expiresAt =>
      if match expiresAt with Some exp => (0 <? exp) && (exp <=? nowSec) | None => false end then removeCheckpoint (cp_taskPda cp) s
      else match task with
        | Ok (Some t) => recoveryPhase cp {| t_pda := cp_taskPda cp; t_task := t |} s
        | _ => removeCheckpoint (cp_taskPda cp) s
        end
  end.

(** The autonomous loop begins. *)
Definition beginLoop (s : Executor) : Executor :=
  set_flow (ex_backpressure s) (TaskDiscovery.start 0 (ex_discovery s)) (set_life (ex_running s) true (ex_stopping s) None s).

Definition recoverNext (nowSec : Z) (claim : result ExecError (option Z)) (task : result ExecError (option OnChainTask)) (s : Executor) : Executor :=
  match ex_recovering s with
  | None => s
  | Some [] => beginLoop s
  | Some (cp :: rest) =>
      if ex_running s then recoverOne nowSec claim task cp (set_life (ex_running s) (ex_listening s) (ex_stopping s) (Some rest) s)
      else set_life (ex_running s) (ex_listening s) (ex_stopping s) (Some []) s
  end.

(** ** Lifecycle *)

Definition startExecutor (s : Executor) : Executor :=
  if ex_running s then s
  else set_life true (ex_listening s) (ex_stopping s) (Some (match ex_checkpoints s with Some m => mvals m | None => [] end)) s.

Definition abortActive (s : Executor) : Executor :=
  set_work (ex_active s) (map (fun p => if existsb (Nat.eqb (pl_id p)) (mvals (ex_active s)) then with_signals true (pl_timedOut p) (pl_claimExpired p) p else p)
    (ex_pipelines s)) (ex_nextId s) s.

Definition stopBegin (s : Executor) : Executor :=
  if ex_running s then
    let s := abortActive (set_life false false true (ex_recovering s) s) in set_flow (ex_backpressure s) (TaskDiscovery.stop (ex_discovery s)) s
  else s.

Definition stopEnd (s : Executor) : Executor :=
  if ex_stopping s then
    set_flow false (ex_discovery s) (set_queue (PriorityQueue.clear (ex_queue s)) (set_life (ex_running s) (ex_listening s) false (ex_recovering s) s))
  else s.

(** The discovery reports tasks to the listener. *)
Definition onTaskDiscovered (s : Executor) (t : TaskDiscoveryResult) : Executor :=
  if ex_listening s then handleDiscoveredTask t (countDiscovered s) else s.

Definition discoveryEvent (e : DiscoveryEvent) (s : Executor) : Executor :=
  let '(d, found) := dstep (ex_discovery s) e in
  foldl onTaskDiscovered (set_flow (ex_backpressure s) d s) found.

(** The resolved tasks of a batch. *)
Definition batchOne (s : Executor) (t : TaskDiscoveryResult) : Executor :=
  if ex_running s then
    let s := countDiscovered s in
    if activeCount s <? ec_maxConcurrentTasks cfg then launchTask t s else enqueue t s
  else s.

Definition runBatch (tasks : list TaskDiscoveryResult) (s : Executor) : Executor := drainQueue (foldl batchOne s tasks).

Definition rescoreQueue (s : Executor) : Executor :=
  match rescore (fun t => ec_scorer cfg (t_task t)) (ex_queue s) with Ok h => set_queue h s | Err _ => s end.

(** ** Events *)

Inductive ExecutorEvent :=
| EStart
| ERecover (nowSec : Z) (claim : result ExecError (option Z)) (task : result ExecError (option OnChainTask))
| EBatch (tasks : list TaskDiscoveryResult)
| EDiscovery (e : DiscoveryEvent)
| ESettle (id : nat) (a : Answer)
| ETimeout (id : nat)
| EDeadline (id : nat)
| ETick
| ERescore
| EStop
| EStopped.

Definition step (s : Executor) (e : ExecutorEvent) : Executor :=
  match e with
  | EStart => startExecutor s
  | ERecover nowSec claim task => recoverNext nowSec claim task s
  | EBatch tasks => runBatch tasks s
  | EDiscovery e => discoveryEvent e s
  | ESettle id a => settleId id a s
  | ETimeout id => timeoutFired id s
  | EDeadline id => deadlineFired id s
  | ETick => if ex_running s then drainQueue s else s
  | ERescore => rescoreQueue s
  | EStop => stopBegin s
  | EStopped => stopEnd s
  end.
End config.
End executor.
Arguments TaskCheckpoint : clear implicits.
Arguments Executor : clear implicits.
Arguments Pipeline : clear implicits.
Arguments Phase : clear implicits.
Arguments Answer : clear implicits.
Arguments ExecutorEvent : clear implicits.
