(* ===== verification/TaskExecutorMoves.v ===== *)
(** * The executor: what a settled promise does to a pipeline

    [settle] as one step of a pipeline: it goes on in a phase of smaller rank or
    ends, and what it leaves in the counters, the dead letter queue and the
    checkpoint store. *)
From Stdlib Require Import QArith_base.
From stdpp Require Import pretty.
From S2P Require Import Prelude JsMap JsString Transitions PriorityQueue DeadLetterQueue TaskDiscovery TaskExecutor.
#[local] Open Scope string_scope.
#[local] Open Scope Z_scope.

Section executor.
Context {C R : Type} (cfg : ExecutorConfig).
Implicit Types (s : Executor C R) (p q : Pipeline C R) (ph : Phase C R) (a : Answer C R) (cp : TaskCheckpoint C R).

(** ** Frames: the phases, flags and records may differ *)

Definition skel p : nat * string * bool := (pl_id p, pdaOf p, pl_recovered p).

Record frame s s' : Prop := {
  fr_skel : map skel (ex_pipelines s') = map skel (ex_pipelines s);
  fr_active : ex_active s' = ex_active s;
  fr_queue : ex_queue s' = ex_queue s;
  fr_recovering : ex_recovering s' = ex_recovering s;
  fr_next : ex_nextId s' = ex_nextId s;
  fr_running : ex_running s' = ex_running s;
  fr_listening : ex_listening s' = ex_listening s;
  fr_stopping : ex_stopping s' = ex_stopping s;
}.

#[export] Instance frame_preorder : PreOrder frame.
Proof. split; [by split|]. intros x y z [] []. split; congruence. Qed.

Lemma frame_records dlq cps m s : frame s (set_records dlq cps m s).
Proof. by split. Qed.

Lemma frame_flow b d s : frame s (set_flow b d s).
Proof. by split. Qed.

(** Replacing a pipeline by another one of the same identity. *)
Lemma frame_replace s p q : NoDup (map pl_id (ex_pipelines s)) -> p ∈ ex_pipelines s -> skel q = skel p -> frame s (replacePipeline q s).
Proof.
  intros Hn Hp Hs. split; try done. cbn. rewrite map_map. apply List.map_ext_in. intros x Hx. apply list_elem_of_In in Hx.
  destruct (Nat.eqb_spec (pl_id x) (pl_id q)) as [He|]; [|done]. rewrite Hs. f_equal.
  assert (Hid : pl_id x = pl_id p) by (unfold skel in Hs; congruence).
  apply list_elem_of_lookup in Hx as [i Hi]. apply list_elem_of_lookup in Hp as [j Hj].
  assert (i = j) as ->; [|congruence]. apply (NoDup_lookup (pl_id <$> ex_pipelines s) i j (pl_id x) Hn); rewrite list_lookup_fmap.
  - by rewrite Hi.
  - rewrite Hj. cbn. by rewrite Hid.
Qed.

Lemma frame_ids s s' : frame s s' -> map pl_id (ex_pipelines s') = map pl_id (ex_pipelines s).
Proof. intros [Hs _ _ _ _ _ _ _]. pose proof (f_equal (map (fun x => x.1.1)) Hs) as Hm. by rewrite !map_map in Hm. Qed.

Lemma frame_pdas s s' : frame s s' -> map pdaOf (ex_pipelines s') = map pdaOf (ex_pipelines s).
Proof. intros [Hs _ _ _ _ _ _ _]. pose proof (f_equal (map (fun x => x.1.2)) Hs) as Hm. by rewrite !map_map in Hm. Qed.

(** The state differs from [s] in its records only. *)
Definition same_work s s1 : Prop := ex_pipelines s1 = ex_pipelines s /\ frame s s1.

(** ** Answers *)

(** The phase waits for an answer of this kind. *)
Definition accepts ph a : bool :=
  match ph, a with
  | Claiming _, AClaim _ _ | ClaimWait _ _, AWake _ | SavingClaimed _, AStore _ _ | Guarding _, AExpiry _ _ | Resolving _, AResolve _ _
  | Handling _, AHandler _ _ | SavingExecuted _ _, AStore _ _ | Submitting _ _, ASubmit _ _ | SubmitWait _ _ _, AWake _ | Removing, AStore _ _
  | FetchingExpiry, AExpiry _ _ | Cleaning, AStore _ _ | CleaningUnexpected, AStore _ _ => true
  | _, _ => false
  end.

Lemma ignored a p s : accepts (pl_phase p) a = false -> settle cfg a p s = s.
Proof. unfold accepts, settle. destruct (pl_phase p), a; done. Qed.

(** How many answers a pipeline waits for at most. *)
Definition rank ph : nat :=
  let n := ec_retries cfg in
  match ph with
  | Claiming i => 12 + 2 * n + 2 * (n - i)
  | ClaimWait i _ => 13 + 2 * n + 2 * (n - S i)
  | SavingClaimed _ => 10 + 2 * n
  | Guarding _ => 9 + 2 * n
  | Resolving _ => 8 + 2 * n
  | Handling _ => 7 + 2 * n
  | SavingExecuted _ _ => 6 + 2 * n
  | Submitting i _ => 5 + 2 * (n - i)
  | SubmitWait i _ _ => 6 + 2 * (n - S i)
  | Removing => 4
  | CleaningUnexpected => 3
  | FetchingExpiry => 2
  | Cleaning => 1
  end%nat.

(** ** Accounts *)

(** How often a task is listed. *)
Definition times (k : string) (l : list string) : Z := sumZ (map (fun x => if String.eqb x k then 1 else 0) l).
#[local] Arguments times : simpl never.

Lemma times_app k l1 l2 : times k (l1 ++ l2)%list = times k l1 + times k l2.
Proof. unfold times. by rewrite map_app, sumZ_app. Qed.

Lemma times_cons k x l : times k (x :: l) = (if String.eqb x k then 1 else 0) + times k l.
Proof. done. Qed.

Lemma times_one k x : times k [x] = if String.eqb x k then 1 else 0.
Proof. unfold times. cbn. case_match; lia. Qed.

Lemma times_nonneg k l : 0 <= times k l.
Proof. apply sumZ_nonneg, Forall_forall. intros x (y & -> & _)%list_elem_of_fmap. by case_match. Qed.

#[export] Instance times_proper k : Proper ((≡ₚ) ==> (=)) (times k).
Proof. intros l1 l2 Hl. unfold times. by rewrite Hl. Qed.

(** The task of a pipeline is open until it was submitted. *)
Definition pending p : list string := match pl_phase p with Removing => [] | _ => [pdaOf p] end.

(** The task that an answer completes: its result was submitted. *)
Definition completes p a : list string :=
  match pl_phase p, a with Submitting _ _, ASubmit _ (Ok _) => [pdaOf p] | _, _ => [] end.

Definition storeFails a : bool := match a with AStore _ (Err _) => true | _ => false end.

(** The pipeline of a task that was not recovered; only a timer may have aborted it. *)
Definition plain p : Prop :=
  pl_recovered p = false /\ match pl_phase p with Cleaning | CleaningUnexpected => False | _ => True end /\
  (pl_aborted p = true -> pl_timedOut p = true \/ pl_claimExpired p = true).

(** The tasks of the entries that the dead letter queue got. *)
Inductive deadLettered s s1 : list string -> Prop :=
| dl_none : ex_dlq s1 = ex_dlq s -> deadLettered s s1 []
| dl_one e : ex_dlq s1 = DeadLetterQueue.add (ec_dlqMaxSize cfg) e (ex_dlq s) -> deadLettered s s1 [DeadLetterQueue.taskPda e].

(** ** Checkpoints *)

(** Where the recovery of a checkpoint resumes. *)
Inductive Resume := RExecute (claim : C) | RSubmit (result : R) | RClean.

Definition resumeOf cp : Resume :=
  match cp_stage cp, cp_claimResult cp, cp_executionResult cp with
  | cp_claimed, Some c, _ => RExecute c
  | cp_executed, Some c, Some r => if cp_trusted cp then RSubmit r else RExecute c
  | _, _, _ => RClean
  end.

Definition checkpoint s (pda : string) : option (TaskCheckpoint C R) := m ← ex_checkpoints s; mget m pda.

(** The stored checkpoint of a task that waits in [ph]. *)
Definition covers ph (o : option (TaskCheckpoint C R)) : Prop :=
  match ph with
  | Guarding c | Resolving c | Handling c | SavingExecuted c _ => resumeOf <$> o = Some (RExecute c)
  | Submitting _ r | SubmitWait _ r _ => resumeOf <$> o = Some (RSubmit r)
  | Removing => exists r, resumeOf <$> o = Some (RSubmit r)
  | _ => True
  end.

Definition covered s p : Prop := ex_checkpoints s <> None -> covers (pl_phase p) (checkpoint s (pdaOf p)).

(** Every checkpoint is stored under its task. *)
Definition storeOk s : Prop := forall m, ex_checkpoints s = Some m -> NoDup (mkeys m) /\ forall k cp, mget m k = Some cp -> cp_taskPda cp = k.

Lemma storeOk_store cp s : storeOk s -> storeOk (storeCheckpoint cp s).
Proof.
  intros Hs m Hm. cbn in Hm. apply fmap_Some in Hm as (m0 & Hm0 & ->). destruct (Hs m0 Hm0) as [Hn Hk]. split; [by apply mset_NoDup|].
  intros k cp'. rewrite mget_mset. destruct (String.eqb_spec k (cp_taskPda cp)) as [->|]; [congruence|apply Hk].
Qed.

Lemma storeOk_remove pda s : storeOk s -> storeOk (removeCheckpoint pda s).
Proof.
  intros Hs m Hm. cbn in Hm. apply fmap_Some in Hm as (m0 & Hm0 & ->). destruct (Hs m0 Hm0) as [Hn Hk]. split; [by apply mdel_NoDup|].
  intros k cp'. rewrite mget_mdel. case_match; [done|by apply Hk].
Qed.

(** ** One answer *)

Record moved a s p s1 q (fin : bool) : Prop := {
  mv_work : same_work s s1;
  mv_skel : skel q = skel p;
  mv_rank : fin = false -> (rank (pl_phase q) < rank (pl_phase p))%nat;
  mv_discovered : tasksDiscovered (ex_metrics s1) = tasksDiscovered (ex_metrics s);
  mv_completed : tasksCompleted (ex_metrics s1) = tasksCompleted (ex_metrics s) + Z.of_nat (length (completes p a));
  mv_account : plain p -> exists dead, deadLettered s s1 dead /\ (fin = false -> plain q) /\ forall k,
    let after := times k (if fin then [] else pending q) + times k (completes p a) + times k dead in
    times k (pending p) <= after /\ (storeFails a = false -> times k (pending p) = after);
  mv_discovery : ex_discovery s1 = ex_discovery s;
  mv_store : ex_checkpoints s1 <> None <-> ex_checkpoints s <> None;
  mv_keys : storeOk s -> storeOk s1;
  mv_others : forall k, k <> pdaOf p -> checkpoint s1 k = checkpoint s k;
  mv_covered : covered s p -> fin = false -> covered s1 q;
}.

(** The fields of [moved] for one branch of [settle]. *)
Ltac rank := cbv beta iota zeta delta [rank]; try match goal with H : (_ <=? _)%nat = false |- _ => apply Nat.leb_gt in H end; lia.

Ltac account Hph :=
  unfold plain, pending, completes; cbn in *; rewrite Hph; cbn; intros (Hr & Hp & Hq); 
  first [exfalso; solve [intuition congruence]|eexists];
  (split; [first [by apply dl_none|by eapply dl_one]|]; split; [solve [intuition congruence]|]);
  intros k; rewrite ?times_one; change (times k []) with 0; unfold pdaOf; cbn; repeat case_match; split; intros; lia || congruence.

Ltac stored Hph :=
  unfold covered, checkpoint; cbn in *; rewrite ?Hph; match goal with s : Executor _ _ |- _ => destruct (ex_checkpoints s) as [m|] eqn:? end; cbn;
  first [done|by eauto|intros k Hk; rewrite ?mget_mset_ne, ?mget_mdel; rewrite ?(proj2 (String.eqb_neq _ _) Hk); done
        |intros _ _ _; by rewrite mget_mset_eq].

Lemma settle_moved a p s : accepts (pl_phase p) a = true ->
  exists s1 q fin, moved a s p s1 q fin /\ settle cfg a p s = if fin then finish cfg q s1 else replacePipeline q s1.
Proof.
  unfold accepts, settle, retryOrFail, claimFetched, expiryFetched, guardClaim, beginExecution, beginSubmit, failPipeline, afterFailure, continue.
  destruct (pl_phase p) eqn:Hph, a; try done; intros _; repeat case_match;
    first [eexists _, _, true; split; [split|reflexivity]|eexists _, _, false; split; [split|reflexivity]].
  all: try (by apply storeOk_store).
  all: try (by apply storeOk_remove).
  all: try (by split).
  all: try done.
  all: try (by cbn [pl_phase with_phase]; rewrite ?Hph; rank).
  all: try (cbn; lia).
  all: try (by unfold completes; rewrite Hph; cbn; lia).
  all: try (account Hph).
  all: stored Hph.
Qed.
End executor.
#[global] Arguments times : simpl never.
