(* ===== verification/TaskExecutorSpec.v ===== *)
(** * The executor: bounded concurrency, no lost task, terminating pipelines *)
From Stdlib Require Import QArith_base.
From stdpp Require Import pretty.
From S2P Require Import Prelude JsMap JsString Transitions PriorityQueue DeadLetterQueue TaskDiscovery TaskExecutor TaskExecutorMoves.
#[local] Open Scope string_scope.
#[local] Open Scope Z_scope.

Section executor.
Context {C R : Type} (cfg : ExecutorConfig).
Implicit Types (s : Executor C R) (p q : Pipeline C R).

(** A pipeline goes on, or ends. *)
Definition goes_on s p s' : Prop := frame s s' \/ exists s1 q, s' = finish cfg q s1 /\ frame s s1 /\ skel q = skel p.

Section one.
Context (s : Executor C R) (p : Pipeline C R).
Hypothesis ids : NoDup (map pl_id (ex_pipelines s)).
Hypothesis member : p ∈ ex_pipelines s.

Lemma continue_on ph q s1 : same_work s s1 -> skel q = skel p -> goes_on s p (continue ph q s1).
Proof.
  intros [H1 H2] Hq. left. etrans; [exact H2|]. apply (frame_replace s1 p); [by rewrite H1|by rewrite H1|done].
Qed.

Lemma guardClaim_on c : goes_on s p (guardClaim cfg c p s).
Proof. unfold guardClaim, beginExecution. repeat case_match; by apply continue_on. Qed.

Lemma settle_on a : goes_on s p (settle cfg a p s).
Proof.
  destruct (accepts (pl_phase p) a) eqn:Ha; [|left; by rewrite ignored]. destruct (settle_moved cfg a p s Ha) as (s1 & q & fin & Hm & ->).
  destruct (mv_work _ _ _ _ _ _ _ Hm) as [H1 H2]. pose proof (mv_skel _ _ _ _ _ _ _ Hm) as Hs. destruct fin; [right; eauto|].
  left. etrans; [exact H2|]. apply (frame_replace s1 p); [by rewrite H1|by rewrite H1|done].
Qed.
End one.

(** ** The structure of the state *)

Definition recoveringPdas s : list string := map cp_taskPda (default [] (ex_recovering s)).

(** The tasks that the executor knows: running, queued, to be recovered. *)
Definition known s : list string := (map pdaOf (ex_pipelines s) ++ map (fun e => t_pda (item e)) (ex_queue s) ++ recoveringPdas s)%list.

Record exec_base s : Prop := {
  eb_ids : NoDup (map pl_id (ex_pipelines s));
  eb_next : forall p, p ∈ ex_pipelines s -> (pl_id p < ex_nextId s)%nat;
  eb_known : NoDup (known s);
  eb_keys : NoDup (mkeys (ex_active s));
  eb_active : forall k, k ∈ mkeys (ex_active s) <-> k ∈ map pdaOf (ex_pipelines s);
  eb_heap : heap_ok (ex_queue s);
}.

Definition recoveredCount s : Z := Z.of_nat (length (List.filter pl_recovered (ex_pipelines s))).

(** No more pipelines than allowed, those of recovered tasks apart. *)
Definition within s : Prop := Z.of_nat (length (ex_pipelines s)) <= Z.max 0 (ec_maxConcurrentTasks cfg) + recoveredCount s.

(** Nothing waits while there is room. *)
Definition busy s : Prop := ex_running s = true -> ex_queue s <> [] -> ec_maxConcurrentTasks cfg <= activeCount s.

Lemma frame_known s s' : frame s s' -> known s' = known s.
Proof. intros Hf. unfold known, recoveringPdas. by rewrite (frame_pdas _ _ Hf), (fr_queue _ _ Hf), (fr_recovering _ _ Hf). Qed.

Lemma frame_base s s' : frame s s' -> exec_base s -> exec_base s'.
Proof.
  intros Hf [H1 H2 H3 H4 H5 H6]. split.
  - by rewrite (frame_ids _ _ Hf).
  - intros p Hp. rewrite (fr_next _ _ Hf). assert (Hi : pl_id p ∈ map pl_id (ex_pipelines s)).
    { rewrite <- (frame_ids _ _ Hf). by apply list_elem_of_fmap_2. }
    apply list_elem_of_fmap in Hi as (q & -> & Hq). by apply H2.
  - by rewrite (frame_known _ _ Hf).
  - by rewrite (fr_active _ _ Hf).
  - intros k. by rewrite (fr_active _ _ Hf), (frame_pdas _ _ Hf).
  - by rewrite (fr_queue _ _ Hf).
Qed.

Lemma length_filter_map {A B} (f : A -> B) (b : B -> bool) l : length (List.filter (fun x => b (f x)) l) = length (List.filter b (map f l)).
Proof. induction l as [|x l IH]; cbn; [done|]. destruct (b (f x)); cbn; by rewrite IH. Qed.

Lemma frame_counts s s' : frame s s' -> length (ex_pipelines s') = length (ex_pipelines s) /\ recoveredCount s' = recoveredCount s /\ activeCount s' = activeCount s.
Proof.
  intros Hf. split_and!.
  - rewrite <- (length_map skel), (fr_skel _ _ Hf). apply length_map.
  - unfold recoveredCount. f_equal. change pl_recovered with (fun p : Pipeline C R => (fun x : nat * string * bool => x.2) (skel p)).
    by rewrite !(length_filter_map skel), (fr_skel _ _ Hf).
  - unfold activeCount. by rewrite (fr_active _ _ Hf).
Qed.

Lemma frame_within s s' : frame s s' -> within s -> within s'.
Proof. intros Hf. destruct (frame_counts _ _ Hf) as (E1 & E2 & _). unfold within. by rewrite E1, E2. Qed.

Lemma frame_busy s s' : frame s s' -> busy s -> busy s'.
Proof. intros Hf. destruct (frame_counts _ _ Hf) as (_ & _ & E3). unfold busy. by rewrite (fr_running _ _ Hf), (fr_queue _ _ Hf), E3. Qed.

(** The active map counts the pipelines. *)
Lemma active_exact s : exec_base s -> activeCount s = Z.of_nat (length (ex_pipelines s)).
Proof.
  intros Hb. unfold activeCount. f_equal. rewrite <- (length_map pdaOf (ex_pipelines s)), <- (length_map fst (ex_active s)).
  apply Permutation_length, list.NoDup_Permutation.
  - apply (eb_keys _ Hb).
  - pose proof (eb_known _ Hb) as Hk. unfold known in Hk. by apply NoDup_app in Hk as (? & _ & _).
  - intros k. apply (eb_active _ Hb).
Qed.

(** ** Launching *)

Lemma launch_base t r c ph s : exec_base s -> NoDup (t_pda t :: known s) -> exec_base (launch t r c ph s).
Proof.
  intros [H1 H2 H3 H4 H5 H6] Hn. split; cbn [launch set_work ex_pipelines ex_active ex_nextId ex_queue].
  - rewrite map_app. apply NoDup_app. split_and!; [done| |apply NoDup_singleton]. cbn. intros k Hk ->%list_elem_of_singleton.
    apply list_elem_of_fmap in Hk as (q & Hq & Hin). specialize (H2 q Hin). lia.
  - intros p [Hp| ->%list_elem_of_singleton]%elem_of_app; [specialize (H2 p Hp); lia|cbn; lia].
  - unfold known. cbn. rewrite map_app, <- app_assoc. cbn. rewrite <- Permutation_middle. done.
  - by apply mset_NoDup.
  - intros k. rewrite elem_mkeys_mset, H5, map_app, elem_of_app. cbn. rewrite list_elem_of_singleton. tauto.
  - done.
Qed.

Lemma launch_within t c ph s : exec_base s -> within s -> activeCount s < ec_maxConcurrentTasks cfg -> within (launch t false c ph s).
Proof.
  intros Hb Hw Ha. rewrite (active_exact s Hb) in Ha. unfold within, recoveredCount in *. cbn. rewrite length_app, List.filter_app, length_app. cbn. lia.
Qed.

Lemma launch_recovered_within t c ph s : within s -> within (launch t true c ph s).
Proof. unfold within, recoveredCount. cbn. rewrite List.filter_app, !length_app. cbn. lia. Qed.

Lemma launch_active t r c ph s : t_pda t ∉ mkeys (ex_active s) -> activeCount (launch t r c ph s) = activeCount s + 1.
Proof. intros Hn. unfold activeCount. cbn. rewrite (mset_fresh _ _ _ Hn), length_app. cbn. lia. Qed.

(** ** The queue *)

Hypothesis capacity : forall c, ec_queueCapacity cfg = Some c -> 1 <= c.

Lemma enqueue_spec t s : heap_ok (ex_queue s) -> exists h gone, enqueue cfg t s = set_queue h s /\ heap_ok h /\
  (t_pda t :: map (fun e => t_pda (item e)) (ex_queue s))%list ≡ₚ (gone ++ map (fun e => t_pda (item e)) h)%list.
Proof.
  intros Hh. unfold enqueue. destruct (push_ok (ec_queueCapacity cfg) t (ec_scorer cfg (t_task t)) (ex_queue s) capacity Hh) as (h & m & -> & Hok & Hb & Hp).
  exists h. inversion Hb as [x y z Hf|x y z Hf Hm|x y z e m' Hf He Hm Hlt| | | | | |]; subst.
  - exists []. split_and!; [done|done|]. cbn. by rewrite Hp.
  - exists [t_pda t]. split_and!; [done|done|]. cbn. by rewrite Hp.
  - exists [t_pda (item e)]. split_and!; [done|done|]. cbn. rewrite Hp, He. cbn. apply perm_swap.
Qed.

Lemma insert_perm {A} (x : A) gone P Q Q' T : (x :: Q)%list ≡ₚ (gone ++ Q')%list -> (x :: P ++ Q ++ T)%list ≡ₚ (gone ++ P ++ Q' ++ T)%list.
Proof. intros Hp. rewrite Permutation_middle, app_comm_cons, Hp, <- app_assoc, !app_assoc. do 2 f_equiv. apply Permutation_app_comm. Qed.

Lemma enqueue_base t s : exec_base s -> NoDup (t_pda t :: known s) -> exec_base (enqueue cfg t s).
Proof.
  intros [H1 H2 H3 H4 H5 H6] Hn. destruct (enqueue_spec t s H6) as (h & gone & -> & Hok & Hp). split; try done. unfold known in *. cbn.
  set (P := map pdaOf (ex_pipelines s)) in *. set (Rr := recoveringPdas s) in *. change (recoveringPdas (set_queue h s)) with Rr.
  assert (Hperm : (t_pda t :: P ++ map (fun e => t_pda (item e)) (ex_queue s) ++ Rr)%list ≡ₚ (gone ++ P ++ map (fun e => t_pda (item e)) h ++ Rr)%list).
  { by apply insert_perm. }
  rewrite Hperm in Hn. by apply NoDup_app in Hn as (_ & _ & Hn).
Qed.

Lemma drainLoop_spec fuel : forall s, exec_base s -> (length (ex_queue s) <= fuel)%nat ->
  let s' := drainLoop cfg fuel s in
  exec_base s' /\ (within s -> within s') /\ busy s' /\ ex_running s' = ex_running s /\ ex_recovering s' = ex_recovering s /\
  known s' ≡ₚ known s.
Proof.
  induction fuel as [|fuel IH]; intros s Hb Hle; cbn [drainLoop].
  { split_and!; [done|done| |done|done|done]. intros _ Hq. destruct (ex_queue s); [done|cbn in Hle; lia]. }
  destruct (ex_running s) eqn:Hrun; cbn [andb]; [|split_and!; [done|done|intros Hr; congruence|done..]].
  destruct (Z.ltb_spec (activeCount s) (ec_maxConcurrentTasks cfg)) as [Ha|Ha]; cbn [andb].
  2:{ split_and!; [done|done|by intros _ _|done..]. }
  destruct (Z.ltb_spec 0 (queueSize s)) as [Hq|Hq].
  2:{ split_and!; [done|done| |done..]. intros _ Hne. unfold queueSize in Hq. destruct (ex_queue s); [done|cbn in Hq; lia]. }
  destruct (pop_ok (ex_queue s) (eb_heap _ Hb)) as (h & out & -> & Hok & [(He & _)|(e & -> & Hp & _)]); [unfold queueSize in Hq; rewrite He in Hq; done|].
  set (s1 := set_queue h s). assert (Hk : (t_pda (item e) :: known s1)%list ≡ₚ known s).
  { unfold known. cbn. rewrite Hp. cbn. by rewrite <- Permutation_middle. }
  assert (Hnk : NoDup (t_pda (item e) :: known s1)) by (rewrite Hk; apply Hb).
  assert (Hb1 : exec_base s1).
  { destruct Hb as [B1 B2 B3 B4 B5 B6]. split; try done. by apply NoDup_cons in Hnk as [_ ?]. }
  pose proof (launch_base (item e) false 0 (Claiming 0) s1 Hb1 Hnk) as Hb2.
  assert (Hlen : (length h <= fuel)%nat) by (apply Permutation_length in Hp; cbn in Hp; lia).
  destruct (IH (launchTask (item e) s1) Hb2 Hlen) as (I1 & I2 & I3 & I4 & I5 & I6).
  split_and!; [done| |done|by rewrite I4|by rewrite I5|].
  - intros Hw. apply I2. by apply launch_within.
  - rewrite I6, <- Hk. unfold known. cbn. rewrite map_app, <- app_assoc. cbn. by rewrite <- Permutation_middle.
Qed.

Lemma frame_lowWater s : frame s (checkLowWaterMark cfg s).
Proof. unfold checkLowWaterMark. case_match; [apply frame_flow|done]. Qed.

Lemma frame_highWater s : frame s (checkHighWaterMark cfg s).
Proof. unfold checkHighWaterMark. case_match; [apply frame_flow|done]. Qed.

Lemma drainQueue_spec s : exec_base s ->
  let s' := drainQueue cfg s in
  exec_base s' /\ (within s -> within s') /\ busy s' /\ ex_running s' = ex_running s /\ ex_recovering s' = ex_recovering s /\ known s' ≡ₚ known s.
Proof.
  intros Hb. unfold drainQueue. destruct (drainLoop_spec (length (ex_queue s)) s Hb (le_n _)) as (I1 & I2 & I3 & I4 & I5 & I6).
  set (s1 := drainLoop cfg _ s) in *. pose proof (frame_lowWater s1) as Hf.
  split_and!; [by eapply frame_base|intros Hw; by eapply frame_within; eauto|by eapply frame_busy|by rewrite (fr_running _ _ Hf)|by rewrite (fr_recovering _ _ Hf)|
    by rewrite (frame_known _ _ Hf)].
Qed.

(** ** The end of a pipeline *)

Lemma filter_id_perm (l : list (Pipeline C R)) p : NoDup (map pl_id l) -> p ∈ l ->
  l ≡ₚ p :: List.filter (fun q => negb (pl_id q =? pl_id p)%nat) l.
Proof.
  induction l as [|x l IH]; [by intros _ ?%elem_of_nil|]. cbn. rewrite NoDup_cons, elem_of_cons. intros [Hx Hn] [-> |Hp].
  - rewrite Nat.eqb_refl. cbn. constructor. rewrite forallb_filter_id; [done|]. apply forallb_forall. intros q Hq. apply negb_true_iff, Nat.eqb_neq.
    intros He. apply Hx. rewrite <- He. apply list_elem_of_fmap_2. by apply list_elem_of_In.
  - destruct (Nat.eqb_spec (pl_id x) (pl_id p)) as [He|Hne]; cbn.
    + exfalso. apply Hx. rewrite He. by apply list_elem_of_fmap_2.
    + rewrite (IH Hn Hp) at 1. apply perm_swap.
Qed.

Definition endPipeline q s : Executor C R :=
  set_work (mdel (pdaOf q) (ex_active s)) (List.filter (fun x => negb (pl_id x =? pl_id q)%nat) (ex_pipelines s)) (ex_nextId s) s.

Lemma endPipeline_spec q s : exec_base s -> (exists p, p ∈ ex_pipelines s /\ skel p = skel q) ->
  exec_base (endPipeline q s) /\ (within s -> within (endPipeline q s)) /\ known s ≡ₚ pdaOf q :: known (endPipeline q s).
Proof.
  intros Hb (p & Hp & Hs). pose proof (filter_id_perm _ _ (eb_ids _ Hb) Hp) as Hperm.
  assert (Hid : pl_id p = pl_id q) by (unfold skel in Hs; congruence). rewrite Hid in Hperm.
  assert (Hpda : pdaOf p = pdaOf q) by (unfold skel in Hs; congruence).
  assert (Hk : known s ≡ₚ pdaOf q :: known (endPipeline q s)).
  { unfold known. rewrite Hperm at 1. cbn. by rewrite Hpda. }
  split_and!; [|intros Hw|done].
  - destruct Hb as [H1 H2 H3 H4 H5 H6]. rewrite Hk in H3. apply NoDup_cons in H3 as [H3 H3']. split; cbn [endPipeline set_work ex_pipelines ex_active ex_nextId ex_queue].
    + rewrite Hperm in H1. by apply NoDup_cons in H1 as [_ ?].
    + intros x Hx. apply H2. rewrite Hperm. by constructor.
    + done.
    + by apply mdel_NoDup.
    + intros k. rewrite elem_mkeys_mdel, H5. rewrite Hperm at 1. cbn. rewrite elem_of_cons, Hpda. split; [intros [[?|?] ?]; done|].
      intros Hx. split; [by right|]. intros ->. apply H3. unfold known. apply elem_of_app. by left.
    + done.
  - unfold within, recoveredCount in *. cbn [endPipeline set_work ex_pipelines]. pose proof (Permutation_length Hperm) as Hl. cbn in Hl.
    assert (Hr : (length (List.filter pl_recovered (ex_pipelines s)) <=
      1 + length (List.filter pl_recovered (List.filter (fun x => negb (pl_id x =? pl_id q)%nat) (ex_pipelines s))))%nat).
    { assert (Hf : forall (f : Pipeline C R -> bool) l l', l ≡ₚ l' -> List.filter f l ≡ₚ List.filter f l').
      { intros f l l' HP. induction HP as [|x l1 l2 ? IH|x y l1|l1 l2 l3 ? IH1 ? IH2]; cbn; [done| | |by etrans].
        - destruct (f x); [by constructor|done].
        - destruct (f x), (f y); try done. constructor. }
      rewrite (Permutation_length (Hf pl_recovered _ _ Hperm)). cbn. destruct (pl_recovered p); cbn; lia. }
    lia.
Qed.

Record exec_inv s : Prop := { ei_base : exec_base s; ei_within : within s; ei_busy : busy s }.

Lemma frame_inv s s' : frame s s' -> exec_inv s -> exec_inv s'.
Proof. intros Hf [H1 H2 H3]. split; [by eapply frame_base|by eapply frame_within|by eapply frame_busy]. Qed.

Lemma drainQueue_inv s : exec_base s -> within s -> exec_inv (drainQueue cfg s).
Proof. intros Hb Hw. destruct (drainQueue_spec s Hb) as (I1 & I2 & I3 & _). split; auto. Qed.

Lemma goes_on_inv s p s' : exec_inv s -> p ∈ ex_pipelines s -> goes_on s p s' -> exec_inv s'.
Proof.
  intros Hi Hp [Hf|(s1 & q & -> & Hf & Hs)]; [by eapply frame_inv|]. pose proof (frame_inv _ _ Hf Hi) as [B W _].
  assert (Hq : exists p', p' ∈ ex_pipelines s1 /\ skel p' = skel q).
  { assert (Hin : skel p ∈ map skel (ex_pipelines s1)) by (rewrite (fr_skel _ _ Hf); by apply list_elem_of_fmap_2).
    apply list_elem_of_fmap in Hin as (p' & He & Hp'). exists p'. split; [done|congruence]. }
  destruct (endPipeline_spec q s1 B Hq) as (B' & W' & _). apply (drainQueue_inv (endPipeline q s1)); auto.
Qed.

Lemma findPipeline_Some id s p : findPipeline id s = Some p -> p ∈ ex_pipelines s.
Proof. intros Hf. apply find_some in Hf as [Hf _]. by apply list_elem_of_In. Qed.

Lemma settleId_inv id a s : exec_inv s -> exec_inv (settleId cfg id a s).
Proof.
  intros Hi. unfold settleId. destruct (findPipeline id s) as [p|] eqn:Hf; [|done]. apply findPipeline_Some in Hf.
  eapply goes_on_inv; [done|exact Hf|]. apply settle_on; [apply Hi|done].
Qed.

Lemma timers_inv id s : exec_inv s -> exec_inv (timeoutFired id s) /\ exec_inv (deadlineFired id s).
Proof.
  intros Hi. unfold timeoutFired, deadlineFired. destruct (findPipeline id s) as [p|] eqn:Hf; [|done]. apply findPipeline_Some in Hf.
  split; case_match; try done; (eapply frame_inv; [|done]); (apply (frame_replace s p); [apply Hi|done|done]).
Qed.

(** ** Arrivals *)

(** A fresh task is launched or queued. *)
Lemma place_inv t s (launchIt : bool) s1 : exec_inv s -> NoDup (t_pda t :: known s) -> frame s s1 ->
  (launchIt = true -> activeCount s < ec_maxConcurrentTasks cfg /\ (ex_running s = true -> ex_queue s = [])) ->
  (launchIt = false -> ex_running s = true -> ec_maxConcurrentTasks cfg <= activeCount s) ->
  exec_inv (if launchIt then launchTask t s1 else enqueue cfg t s1) /\
  exists gone, (t_pda t :: known s)%list ≡ₚ (gone ++ known (if launchIt then launchTask t s1 else enqueue cfg t s1))%list.
Proof.
  intros Hi Hn Hf Hl Hq. pose proof (frame_inv _ _ Hf Hi) as [B W Bu]. rewrite <- (frame_known _ _ Hf) in Hn |- *.
  destruct (frame_counts _ _ Hf) as (_ & _ & Ea). destruct launchIt.
  - destruct (Hl eq_refl) as [Ha He]. split; [split|].
    + by apply launch_base.
    + apply launch_within; [done|done|]. by rewrite Ea.
    + intros Hr Hne. exfalso. apply Hne. cbn. rewrite (fr_queue _ _ Hf). apply He. by rewrite <- (fr_running _ _ Hf).
    + exists []. cbn. unfold known. cbn. rewrite map_app, <- app_assoc. cbn. by rewrite <- Permutation_middle.
  - destruct (enqueue_spec t s1 (eb_heap _ B)) as (h & gone & He & _ & Hp). split; [split|].
    + by apply enqueue_base.
    + by rewrite He.
    + rewrite He. intros Hr _. change (activeCount (set_queue h s1)) with (activeCount s1). rewrite Ea. apply Hq; [done|].
      by rewrite <- (fr_running _ _ Hf).
    + exists gone. rewrite He. unfold known. cbn. change (recoveringPdas (set_queue h s1)) with (recoveringPdas s1).
      by apply insert_perm.
Qed.

(** Tasks that arrive one by one. *)
Lemma arrivals_inv (f : Executor C R -> TaskDiscoveryResult -> Executor C R) l :
  (forall s t, exec_inv s -> NoDup (t_pda t :: known s) -> exec_inv (f s t) /\ exists gone, (t_pda t :: known s)%list ≡ₚ (gone ++ known (f s t))%list) ->
  forall s, exec_inv s -> NoDup (known s ++ map t_pda l)%list ->
  exec_inv (foldl f s l) /\ forall k, k ∈ known (foldl f s l) -> k ∈ known s \/ k ∈ map t_pda l.
Proof.
  intros Hf. induction l as [|t l IH]; intros s Hi Hn; cbn; [auto|]. cbn in Hn. rewrite <- Permutation_middle in Hn.
  assert (Ht : NoDup (t_pda t :: known s)) by (rewrite app_comm_cons in Hn; by apply NoDup_app in Hn as (? & _ & _)).
  destruct (Hf s t Hi Ht) as [Hi' (gone & Hp)]. rewrite app_comm_cons, Hp, <- app_assoc in Hn. apply NoDup_app in Hn as (_ & _ & Hn).
  destruct (IH (f s t) Hi' Hn) as [I1 I2]. split; [done|]. intros k Hk. rewrite elem_of_cons. destruct (I2 k Hk) as [Hx|?]; [|by auto].
  assert (Hin : k ∈ t_pda t :: known s) by (rewrite Hp; apply elem_of_app; by right). apply elem_of_cons in Hin as [?|?]; auto.
Qed.

Lemma frame_count f s : frame s (with_metrics f s).
Proof. apply frame_records. Qed.

Lemma discovered_inv s t : exec_inv s -> NoDup (t_pda t :: known s) ->
  exec_inv (onTaskDiscovered cfg s t) /\ exists gone, (t_pda t :: known s)%list ≡ₚ (gone ++ known (onTaskDiscovered cfg s t))%list.
Proof.
  intros Hi Hn. unfold onTaskDiscovered. destruct (ex_listening s); [|split; [done|by exists [t_pda t]]].
  pose proof (frame_count (bump 1 0 0 0 0 0 0 0 0) s) as Hf. fold (countDiscovered s) in Hf. unfold handleDiscoveredTask.
  destruct (frame_counts _ _ Hf) as (_ & _ & Ea). unfold queueSize. rewrite Ea, (fr_queue _ _ Hf). set (b := _ && _).
  destruct (place_inv t s b (countDiscovered s) Hi Hn Hf) as [I1 I2].
  - unfold b. intros [H1 H2]%andb_true_iff. split; [lia|]. intros _. apply nil_length_inv. lia.
  - unfold b. intros [H1|H1]%andb_false_iff Hr; [lia|]. apply (ei_busy _ Hi Hr). intros He. rewrite He in H1. done.
  - destruct b; [by split|]. pose proof (frame_highWater (enqueue cfg t (countDiscovered s))) as Hf2. split; [by eapply frame_inv|].
    rewrite (frame_known _ _ Hf2). done.
Qed.

Lemma batch_inv s t : exec_inv s -> NoDup (t_pda t :: known s) ->
  exec_inv (batchOne cfg s t) /\ exists gone, (t_pda t :: known s)%list ≡ₚ (gone ++ known (batchOne cfg s t))%list.
Proof.
  intros Hi Hn. unfold batchOne. destruct (ex_running s) eqn:Hr; [|split; [done|by exists [t_pda t]]].
  pose proof (frame_count (bump 1 0 0 0 0 0 0 0 0) s) as Hf. fold (countDiscovered s) in Hf.
  destruct (frame_counts _ _ Hf) as (_ & _ & Ea). rewrite Ea. set (b := _ <? _).
  apply (place_inv t s b (countDiscovered s) Hi Hn Hf); unfold b.
  - intros H1. split; [lia|]. intros _. destruct (ex_queue s) eqn:Eq; [done|]. exfalso.
    assert (ec_maxConcurrentTasks cfg <= activeCount s); [|lia]. apply (ei_busy _ Hi Hr). by rewrite Eq.
  - lia.
Qed.

Lemma drained_batch_inv l s : exec_inv s -> NoDup (known s ++ map t_pda l)%list -> exec_inv (runBatch cfg l s).
Proof. intros Hi Hn. pose proof (arrivals_inv (batchOne cfg) l batch_inv s Hi Hn) as [[B W _] _]. by apply drainQueue_inv. Qed.

(** ** Recovery and lifecycle *)

(** A launched task counts as running. *)
Lemma launch_recovered_inv t c ph s : exec_inv s -> NoDup (t_pda t :: known s) -> exec_inv (launch t true c ph s).
Proof.
  intros [B W Bu] Hn. split; [by apply launch_base|by apply launch_recovered_within|].
  intros Hr Hq. specialize (Bu Hr Hq). rewrite launch_active; [lia|]. rewrite (eb_active _ B). apply NoDup_cons in Hn as [Hn _]. intros Hx.
  apply Hn. unfold known. apply elem_of_app. by left.
Qed.

Lemma guarded_inv id c s : exec_inv s ->
  exec_inv (match findPipeline id s with Some p => guardClaim cfg c p s | None => s end).
Proof.
  intros Hi. destruct (findPipeline id s) as [p|] eqn:Hf; [|done]. apply findPipeline_Some in Hf.
  eapply goes_on_inv; [done|exact Hf|]. apply guardClaim_on; [apply Hi|done].
Qed.

Lemma recoveryPhase_inv cp t s : exec_inv s -> NoDup (t_pda t :: known s) -> exec_inv (recoveryPhase cfg cp t s).
Proof.
  intros Hi Hn. pose proof (fun ph => launch_recovered_inv t (cp_createdAt cp) ph s Hi Hn) as Hl.
  unfold recoveryPhase. destruct (cp_stage cp), (cp_claimResult cp), (cp_executionResult cp); try destruct (checkpointExecutionResultRequiresRevalidation cp);
    first [apply Hl|apply guarded_inv, Hl].
Qed.

Lemma recoverOne_inv n c t cp s : exec_inv s -> NoDup (cp_taskPda cp :: known s) -> exec_inv (recoverOne cfg n c t cp s).
Proof.
  intros Hi Hn. assert (Hr : exec_inv (removeCheckpoint (cp_taskPda cp) s)) by (eapply frame_inv; [apply frame_records|done]).
  unfold recoverOne. repeat case_match; first [done|by apply recoveryPhase_inv].
Qed.

(** The life flags change, and the tasks to recover become fewer. *)
Lemma life_inv run li st rec s : exec_inv s -> NoDup (map pdaOf (ex_pipelines s) ++ map (fun e => t_pda (item e)) (ex_queue s) ++ map cp_taskPda (default [] rec))%list ->
  (run = true -> ex_running s = true \/ ex_queue s = []) -> exec_inv (set_life run li st rec s).
Proof.
  intros [[B1 B2 B3 B4 B5 B6] W Bu] Hn Hr. split; [by split|done|]. intros Ht Hq. destruct (Hr Ht) as [Hx|Hx]; [by apply Bu|done].
Qed.

Lemma recoverNext_inv n c t s : exec_inv s -> exec_inv (recoverNext cfg n c t s).
Proof.
  intros Hi. pose proof (eb_known _ (ei_base _ Hi)) as Hn. unfold recoverNext, known, recoveringPdas in *.
  destruct (ex_recovering s) as [[|cp rest]|] eqn:Hrec; [|cbn in Hn|done].
  - eapply frame_inv; [apply frame_flow|]. apply life_inv; [done|done|by left].
  - rewrite !app_assoc, <- Permutation_middle, <- !app_assoc in Hn. destruct (ex_running s) eqn:Hrun.
    + apply recoverOne_inv; [|done]. apply life_inv; [done|by apply NoDup_cons in Hn as [_ ?]|by left].
    + apply life_inv; [done| |done]. cbn. rewrite app_nil_r. apply NoDup_cons in Hn as [_ Hn]. rewrite app_assoc in Hn. by apply NoDup_app in Hn as (? & _ & _).
Qed.

Lemma frame_abort s : frame s (abortActive s).
Proof. split; try done. cbn. rewrite map_map. apply map_ext. intros p. by case_match. Qed.

Lemma stop_inv s : exec_inv s -> exec_inv (stopBegin s) /\ exec_inv (stopEnd s).
Proof.
  intros Hi. pose proof (eb_known _ (ei_base _ Hi)) as Hn. split.
  - unfold stopBegin. case_match; [|done]. eapply frame_inv; [apply frame_flow|]. eapply frame_inv; [apply frame_abort|]. by apply life_inv.
  - unfold stopEnd. case_match; [|done]. eapply frame_inv; [apply frame_flow|]. destruct Hi as [[B1 B2 B3 B4 B5 B6] W Bu]. split; [split|..]; try done.
    + unfold known in *. cbn. apply NoDup_app in Hn as (N1 & N2 & N3). apply NoDup_app in N3 as (_ & _ & N3). apply NoDup_app. split_and!; [done| |done].
      intros k Hk Hx. apply (N2 k Hk), elem_of_app. by right.
    + intros _ Hx. by destruct Hx.
Qed.

Lemma rescore_inv s : exec_inv s -> exec_inv (rescoreQueue cfg s).
Proof.
  intros Hi. unfold rescoreQueue, rescore.
  destruct (heapify_ok (map (fun e => Build_HeapEntry (item e) (ec_scorer cfg (t_task (item e)))) (ex_queue s))) as (h & -> & Hp & Hok).
  assert (Hq : map (fun e => t_pda (item e)) h ≡ₚ map (fun e => t_pda (item e)) (ex_queue s)) by (rewrite Hp, map_map; done).
  destruct Hi as [[B1 B2 B3 B4 B5 B6] W Bu]. split; [split|..]; try done.
  - unfold known in *. cbn. by rewrite Hq.
  - intros Hr Hne. apply Bu; [done|]. intros He. rewrite He in Hp. apply Hne. by apply Permutation_nil_r.
Qed.

(** ** Runs *)

(** The tasks that an event brings. *)
Definition arriving s (e : ExecutorEvent C R) : list string :=
  match e with
  | EStart => if ex_running s then [] else map cp_taskPda (match ex_checkpoints s with Some m => mvals m | None => [] end)
  | EBatch tasks => map t_pda tasks
  | EDiscovery e => map t_pda (dstep (ex_discovery s) e).2
  | _ => []
  end.

(** A task arrives only while the executor does not know it, and a start finds
    the queue empty and no earlier recovery. *)
Definition allowed s (e : ExecutorEvent C R) : Prop :=
  NoDup (known s ++ arriving s e)%list /\ match e with EStart => ex_queue s = [] /\ ex_recovering s = None | _ => True end.

Lemma start_inv s : exec_inv s -> allowed s EStart -> exec_inv (startExecutor s).
Proof.
  intros Hi [Hn [Hq Hr]]. unfold startExecutor, arriving, known, recoveringPdas in *. rewrite Hr in Hn. destruct (ex_running s); [done|].
  apply life_inv; [done| |by right]. cbn [default]. cbn in Hn. by rewrite app_nil_r, <- app_assoc in Hn.
Qed.

Lemma exec_step_inv s e : exec_inv s -> allowed s e -> exec_inv (step cfg s e).
Proof.
  intros Hi Ha. destruct e; cbn [step].
  - by apply start_inv.
  - by apply recoverNext_inv.
  - by apply drained_batch_inv; [|apply Ha].
  - destruct Ha as [Ha _]. unfold arriving in Ha. unfold discoveryEvent. destruct (dstep (ex_discovery s) e) as [d found].
    pose proof (frame_flow (ex_backpressure s) d s) as Hf. apply arrivals_inv; [apply discovered_inv|by eapply frame_inv|by rewrite (frame_known _ _ Hf)].
  - by apply settleId_inv.
  - by apply timers_inv.
  - by apply timers_inv.
  - destruct (ex_running s); [|done]. apply drainQueue_inv; apply Hi.
  - by apply rescore_inv.
  - by apply stop_inv.
  - by apply stop_inv.
Qed.

Fixpoint run s (es : list (ExecutorEvent C R)) : Executor C R := match es with [] => s | e :: es => run (step cfg s e) es end.

Fixpoint allowedRun s (es : list (ExecutorEvent C R)) : Prop := match es with [] => True | e :: es => allowed s e /\ allowedRun (step cfg s e) es end.

Lemma exec_run_inv es : forall s, exec_inv s -> allowedRun s es -> exec_inv (run s es).
Proof. induction es as [|e es IH]; [done|]. intros s Hi [Ha Hr]. apply IH; [by apply exec_step_inv|done]. Qed.

Lemma exec_new_inv d store : exec_inv (newExecutor d store).
Proof.
  split; [split| |done].
  - constructor.
  - by intros p ?%elem_of_nil.
  - constructor.
  - constructor.
  - done.
  - intros i [_ Hi]. by apply Nat.nlt_0_r in Hi.
  - unfold within, recoveredCount. cbn [newExecutor ex_pipelines length List.filter]. lia.
Qed.


(** ** A polling discovery brings each task once *)

(** No task is new, and the discovery has the same records. *)
Record settledDown s s' : Prop := {
  sd_known : forall k, k ∈ known s' -> k ∈ known s;
  sd_mode : d_mode (ex_discovery s') = d_mode (ex_discovery s);
  sd_fetches : d_fetches (ex_discovery s') = d_fetches (ex_discovery s);
  sd_seen : d_seen (ex_discovery s') = d_seen (ex_discovery s);
  sd_store : ex_checkpoints s = None -> ex_checkpoints s' = None;
  sd_recovering : default [] (ex_recovering s) = [] -> default [] (ex_recovering s') = [];
}.

#[local] Instance settledDown_preorder : PreOrder settledDown.
Proof. split; [by split|]. intros x y z [] []. split; auto; congruence. Qed.

Lemma down_same s s' : (forall k, k ∈ known s' -> k ∈ known s) -> ex_discovery s' = ex_discovery s -> ex_checkpoints s' = ex_checkpoints s ->
  ex_recovering s' = ex_recovering s -> settledDown s s'.
Proof. intros H1 H2 H3 H4. split; [done|by rewrite H2..|by rewrite H3|by rewrite H4]. Qed.

Lemma down_flow b s (f : Discovery -> Discovery) : (f = pause \/ f = resume \/ f = TaskDiscovery.stop \/ f = TaskDiscovery.start 0) ->
  settledDown s (set_flow b (f (ex_discovery s)) s).
Proof.
  intros Hf. split; try done; cbn; destruct_or! Hf; subst f; unfold pause, resume, TaskDiscovery.stop, TaskDiscovery.start, executePollCycle; repeat case_match; done.
Qed.

Lemma down_drainLoop fuel s : exec_base s -> (length (ex_queue s) <= fuel)%nat -> settledDown s (drainLoop cfg fuel s).
Proof.
  intros Hb Hl. assert (Hsame : forall s, ex_discovery (drainLoop cfg fuel s) = ex_discovery s /\ ex_checkpoints (drainLoop cfg fuel s) = ex_checkpoints s).
  { clear. induction fuel as [|fuel IH]; intros s; cbn [drainLoop]; [done|]. repeat case_match; try done. destruct (IH (launchTask t (set_queue l s))) as [-> ->]. done. }
  destruct (Hsame s). destruct (drainLoop_spec fuel s Hb Hl) as (_ & _ & _ & _ & Hr & Hk). apply down_same; [|done|done|done]. intros k. by rewrite Hk.
Qed.

Lemma down_drain s : exec_base s -> settledDown s (drainQueue cfg s).
Proof.
  intros Hb. unfold drainQueue. etrans; [by apply down_drainLoop|]. unfold checkLowWaterMark. case_match; [|done]. apply down_flow. auto.
Qed.

Lemma down_settle id a s : exec_inv s -> settledDown s (settleId cfg id a s).
Proof.
  intros Hi. unfold settleId. destruct (findPipeline id s) as [p|] eqn:Hf; [|done]. apply findPipeline_Some in Hf.
  destruct (accepts (pl_phase p) a) eqn:Ha; [|by rewrite ignored]. destruct (settle_moved cfg a p s Ha) as (s1 & q & fin & Hm & ->).
  destruct (mv_work _ _ _ _ _ _ _ Hm) as [Hw Hfr]. pose proof (mv_skel _ _ _ _ _ _ _ Hm) as Hs.
  assert (H1 : settledDown s s1).
  { pose proof (mv_store _ _ _ _ _ _ _ Hm). split; [by rewrite (frame_known _ _ Hfr)|by rewrite (mv_discovery _ _ _ _ _ _ _ Hm)| | | |].
    - by rewrite (mv_discovery _ _ _ _ _ _ _ Hm).
    - by rewrite (mv_discovery _ _ _ _ _ _ _ Hm).
    - intros He. destruct (ex_checkpoints s1); naive_solver.
    - by rewrite (fr_recovering _ _ Hfr). }
  pose proof (frame_inv _ _ Hfr Hi) as [B1 _ _]. etrans; [exact H1|]. destruct fin.
  - destruct (endPipeline_spec q s1 B1) as (B2 & _ & Hk); [exists p; by rewrite Hw|]. etrans; [|by apply (down_drain (endPipeline q s1))].
    apply down_same; [|done|done|done]. intros k Hin. rewrite Hk. by right.
  - assert (Hfr2 : frame s1 (replacePipeline q s1)) by (apply (frame_replace s1 p); [apply B1|by rewrite Hw|done]).
    apply down_same; [|done|done|done]. by rewrite (frame_known _ _ Hfr2).
Qed.

Lemma down_timer id s : exec_inv s -> settledDown s (timeoutFired id s) /\ settledDown s (deadlineFired id s).
Proof.
  intros Hi. unfold timeoutFired, deadlineFired. destruct (findPipeline id s) as [p|] eqn:Hf; [|done]. apply findPipeline_Some in Hf.
  split; case_match; try done; (apply down_same; [|done|done|done]);
    match goal with |- forall k, k ∈ known (replacePipeline ?q s) -> _ => by rewrite (frame_known s _ (frame_replace s p q (eb_ids _ (ei_base _ Hi)) Hf eq_refl)) end.
Qed.

Definition fromPolls s : Prop := d_mode (ex_discovery s) = mode_poll /\ d_fetches (ex_discovery s) = [] /\ ex_checkpoints s = None /\
  default [] (ex_recovering s) = [] /\ (forall k, k ∈ known s -> k ∈ d_seen (ex_discovery s)).

Lemma down_polls s s' : settledDown s s' -> fromPolls s -> fromPolls s'.
Proof. intros [H1 H2 H3 H4 H5 H6] (P1 & P2 & P3 & P4 & P5). unfold fromPolls. rewrite H2, H3, H4. split_and!; auto. Qed.

Lemma down_recover n c t s : fromPolls s -> settledDown s (recoverNext cfg n c t s).
Proof.
  intros (_ & _ & _ & Hr & _). unfold recoverNext, beginLoop. destruct (ex_recovering s) as [[|cp rest]|] eqn:He; [|done|done].
  trans (set_life (ex_running s) true (ex_stopping s) None s); [|apply (down_flow _ (set_life _ _ _ None s)); auto].
  split; try done. intros k. unfold known, recoveringPdas. cbn. by rewrite He.
Qed.

Lemma down_stop s : settledDown s (stopBegin s) /\ settledDown s (stopEnd s).
Proof.
  unfold stopBegin, stopEnd. split; (case_match; [|done]).
  - set (s0 := set_life _ _ _ _ s). set (s1 := abortActive s0). trans s1; [|apply (down_flow (ex_backpressure s1) s1); auto].
    apply down_same; [|done|done|done]. intros k. by rewrite (frame_known _ _ (frame_abort s0) : known s1 = known s0).
  - split; try done. intros k. unfold known, recoveringPdas. cbn. rewrite !elem_of_app. tauto.
Qed.

Lemma down_rescore s : settledDown s (rescoreQueue cfg s).
Proof.
  unfold rescoreQueue, rescore.
  destruct (heapify_ok (map (fun e => Build_HeapEntry (item e) (ec_scorer cfg (t_task (item e)))) (ex_queue s))) as (h & -> & Hp & _).
  apply down_same; [|done|done|done]. intros k. unfold known, recoveringPdas. cbn. by rewrite Hp, map_map.
Qed.

(** What the listener does with the reported tasks does not reach the records. *)
Lemma discovered_records l : forall s, let s' := foldl (onTaskDiscovered cfg) s l in
  d_mode (ex_discovery s') = d_mode (ex_discovery s) /\ d_fetches (ex_discovery s') = d_fetches (ex_discovery s) /\
  d_seen (ex_discovery s') = d_seen (ex_discovery s) /\ ex_checkpoints s' = ex_checkpoints s /\ ex_recovering s' = ex_recovering s.
Proof.
  induction l as [|t l IH]; intros s; cbn; [done|]. destruct (IH (onTaskDiscovered cfg s t)) as (-> & -> & -> & -> & ->).
  unfold onTaskDiscovered, handleDiscoveredTask, enqueue, checkHighWaterMark, pause. repeat case_match; done.
Qed.

Lemma polls_discovery e s : exec_inv s -> fromPolls s -> NoDup (known s ++ arriving s (EDiscovery e)) /\ fromPolls (discoveryEvent cfg e s).
Proof.
  intros Hi (P1 & P2 & P3 & P4 & P5). unfold arriving, discoveryEvent. pose proof (polling_dstep (ex_discovery s) e P1 P2) as [S1 S2 S3 S4 S5].
  destruct (dstep (ex_discovery s) e) as [d found]. cbn [fst snd] in *. set (s1 := set_flow _ d s).
  assert (Hn : NoDup (known s1 ++ map t_pda found)).
  { apply NoDup_app. split_and!; [apply (eb_known _ (ei_base _ Hi))| |done]. intros k Hk Hf. destruct (S5 k Hf) as [_ Hx]. by apply Hx, P5. }
  split; [exact Hn|]. destruct (arrivals_inv (onTaskDiscovered cfg) found discovered_inv s1) as [_ Hk]; [by eapply frame_inv; [apply frame_flow|]|exact Hn|].
  destruct (discovered_records found s1) as (R1 & R2 & R3 & R4 & R5). unfold fromPolls. rewrite R1, R2, R3, R4, R5. split_and!; try done.
  intros k Hin. destruct (Hk k Hin) as [Hx|Hx]; [by apply S4, P5|by apply S5].
Qed.

Definition pollsOnly (e : ExecutorEvent C R) : Prop := match e with EStart | EBatch _ => False | _ => True end.

Lemma polls_step s e : pollsOnly e -> exec_inv s -> fromPolls s -> allowed s e /\ fromPolls (step cfg s e).
Proof.
  intros He Hi Hp. assert (Hnil : NoDup (known s ++ [])) by (rewrite app_nil_r; apply (eb_known _ (ei_base _ Hi))).
  destruct e; try done; [|by destruct (polls_discovery e s Hi Hp)|..]; (split; [by split|]); cbn [step].
  - by eapply down_polls; [apply down_recover|].
  - by eapply down_polls; [apply down_settle|].
  - by eapply down_polls; [apply down_timer|].
  - by eapply down_polls; [apply down_timer|].
  - case_match; [|done]. by eapply down_polls; [apply down_drain; apply Hi|].
  - by eapply down_polls; [apply down_rescore|].
  - by eapply down_polls; [apply down_stop|].
  - by eapply down_polls; [apply down_stop|].
Qed.

(** Composition: an executor that is started once on a polling discovery,
    without a checkpoint store, satisfies the assumption of the theorems about
    runs by itself: whatever the chain, the handlers and the timers do, no task
    arrives while it is known. *)
Theorem polling_runs_allowed f es : Forall pollsOnly es -> allowedRun (newExecutor (newDiscovery mode_poll f) None) (EStart :: es).
Proof.
  intros Hes. set (s0 := newExecutor _ None). assert (Ha : allowed s0 EStart) by (split; [constructor|done]). split; [exact Ha|].
  assert (Hi : exec_inv (step cfg s0 EStart)) by (apply exec_step_inv; [apply exec_new_inv|exact Ha]).
  assert (Hp : fromPolls (step cfg s0 EStart)) by (split_and!; try done; by intros k ?%elem_of_nil).
  revert Hi Hp. generalize (step cfg s0 EStart) as s. induction Hes as [|e es He _ IH]; intros s Hi Hp; cbn; [done|].
  destruct (polls_step s e He Hi Hp) as [H1 H2]. split; [done|]. apply IH; [by apply exec_step_inv|done].
Qed.

(** *** Checking a run *)

Definition allowedb s (e : ExecutorEvent C R) : bool :=
  bool_decide (NoDup (known s ++ arriving s e)%list) &&
  match e with
  | EStart => match ex_queue s, ex_recovering s with [], None => true | _, _ => false end
  | _ => true
  end.

Fixpoint allowedRunb s (es : list (ExecutorEvent C R)) : bool := match es with [] => true | e :: es => allowedb s e && allowedRunb (step cfg s e) es end.

Lemma allowedRunb_sound es : forall s, allowedRunb s es = true -> allowedRun s es.
Proof.
  induction es as [|e es IH]; intros s; cbn; [done|]. intros [Ha Hr]%andb_true_iff. split; [|by apply IH].
  unfold allowedb in Ha. apply andb_true_iff in Ha as [Hn Hq]. apply bool_decide_eq_true in Hn. split; [done|]. destruct e; try done.
  by destruct (ex_queue s), (ex_recovering s).
Qed.
End executor.
