(* ===== verification/TaskExecutorSafety.v ===== *)
(** * The executor: crash recovery, termination, no lost task

    Whole runs: a claimed task can always be resumed from the checkpoint store,
    a pipeline ends after a bounded number of answers, and every discovered task
    is queued, in progress, completed or dead-lettered. *)
From Stdlib Require Import QArith_base.
From stdpp Require Import pretty.
From S2P Require Import Prelude JsMap JsString Transitions PriorityQueue DeadLetterQueue TaskDiscovery TaskExecutor TaskExecutorMoves TaskExecutorSpec.
#[local] Open Scope string_scope.
#[local] Open Scope Z_scope.

Section executor.
Context {C R : Type} (cfg : ExecutorConfig).
Implicit Types (s : Executor C R) (p q : Pipeline C R) (ph : Phase C R) (a : Answer C R) (cp : TaskCheckpoint C R).

(** ** Steps that answer no promise *)

Definition newborn q : Prop := pl_phase q = Claiming 0 /\ pl_recovered q = false.

(** The pipelines of [s'] are those of [s], in their phases, or new. *)
Record derived s s' : Prop := {
  de_next : (ex_nextId s <= ex_nextId s')%nat;
  de_store : ex_checkpoints s' = ex_checkpoints s;
  de_recovering : ex_recovering s' = ex_recovering s;
  de_pipelines : forall q, q ∈ ex_pipelines s' ->
    ((ex_nextId s <= pl_id q)%nat /\ newborn q) \/ exists p, p ∈ ex_pipelines s /\ skel q = skel p /\ pl_phase q = pl_phase p;
}.

#[local] Instance derived_preorder : PreOrder derived.
Proof.
  split; [split; eauto|]. intros s1 s2 s3 [N1 S1 R1 P1] [N2 S2 R2 P2]. split; [lia|congruence|congruence|]. intros q Hq.
  destruct (P2 q Hq) as [[Hi Hb]|(p & Hp & Hs & Hh)]; [left; split; [lia|done]|]. destruct (P1 p Hp) as [[Hi [B1 B2]]|(p' & Hp' & Hs' & Hh')].
  - left. unfold skel in Hs. split; [|split]; congruence || (injection Hs as -> _ _; done).
  - right. exists p'. split_and!; [done|congruence|congruence].
Qed.

Lemma derived_same s s' : ex_nextId s' = ex_nextId s -> ex_checkpoints s' = ex_checkpoints s -> ex_recovering s' = ex_recovering s ->
  ex_pipelines s' = ex_pipelines s -> derived s s'.
Proof. intros H1 H2 H3 H4. split; [lia|done|done|]. rewrite H4. eauto. Qed.

Lemma derived_launch t s : derived s (launchTask t s).
Proof.
  split; [cbn; lia|done|done|]. intros q [Hq| ->%list_elem_of_singleton]%elem_of_app; [eauto|]. left. by split; [cbn|].
Qed.

Lemma derived_enqueue t s : derived s (enqueue cfg t s).
Proof. unfold enqueue. case_match; by apply derived_same. Qed.

Lemma derived_drainLoop fuel : forall s, derived s (drainLoop cfg fuel s).
Proof.
  induction fuel as [|fuel IH]; intros s; cbn [drainLoop]; [done|]. repeat case_match; try done. etrans; [|apply IH].
  etrans; [|apply derived_launch]. by apply derived_same.
Qed.

Lemma derived_drain s : derived s (drainQueue cfg s).
Proof. unfold drainQueue. etrans; [apply derived_drainLoop|]. unfold checkLowWaterMark. case_match; by apply derived_same. Qed.

Lemma derived_end q s : derived s (endPipeline q s).
Proof. split; [done|done|done|]. intros x Hx. apply list_elem_of_In, filter_In in Hx as [Hx _]. right. exists x. by rewrite list_elem_of_In. Qed.

Lemma derived_replace p q s : p ∈ ex_pipelines s -> skel q = skel p -> pl_phase q = pl_phase p -> derived s (replacePipeline q s).
Proof.
  intros Hp Hs Hh. split; [done|done|done|]. intros x Hx. right. apply list_elem_of_fmap in Hx as (y & -> & Hy). case_match; eauto.
Qed.

Lemma derived_foldl (f : Executor C R -> TaskDiscoveryResult -> Executor C R) l : (forall s t, derived s (f s t)) -> forall s, derived s (foldl f s l).
Proof. intros Hf. induction l as [|t l IH]; intros s; cbn; [done|]. etrans; [apply Hf|apply IH]. Qed.

Lemma derived_discovered s t : derived s (onTaskDiscovered cfg s t).
Proof.
  unfold onTaskDiscovered, handleDiscoveredTask. destruct (ex_listening s); [|done]. trans (countDiscovered s); [by apply derived_same|].
  case_match; [apply derived_launch|]. etrans; [apply derived_enqueue|]. unfold checkHighWaterMark. case_match; by apply derived_same.
Qed.

Lemma derived_batch s t : derived s (batchOne cfg s t).
Proof.
  unfold batchOne. destruct (ex_running s); [|done]. trans (countDiscovered s); [by apply derived_same|].
  case_match; [apply derived_launch|apply derived_enqueue].
Qed.

Definition internal (e : ExecutorEvent C R) : bool := match e with EStart | ESettle _ _ | ERecover _ _ _ => false | _ => true end.

Lemma derived_step s e : internal e = true -> derived s (step cfg s e).
Proof.
  destruct e; try done; intros _; cbn [step].
  - unfold runBatch. etrans; [apply derived_foldl, derived_batch|apply derived_drain].
  - unfold discoveryEvent. destruct (dstep _ _) as [d found]. etrans; [|apply derived_foldl, derived_discovered]. by apply derived_same.
  - unfold timeoutFired. destruct (findPipeline id s) as [p|] eqn:Hf; [|done]. apply findPipeline_Some in Hf. case_match; [by eapply derived_replace|done].
  - unfold deadlineFired. destruct (findPipeline id s) as [p|] eqn:Hf; [|done]. apply findPipeline_Some in Hf. case_match; [by eapply derived_replace|done].
  - case_match; [apply derived_drain|done].
  - unfold rescoreQueue. case_match; by apply derived_same.
  - unfold stopBegin. case_match; [|done]. split; [done|done|done|]. intros q Hq. right. apply list_elem_of_fmap in Hq as (p & -> & Hp). exists p. by case_match.
  - unfold stopEnd. case_match; by apply derived_same.
Qed.

(** ** Every claimed task can be resumed *)

Record cover_inv s : Prop := {
  ci_store : storeOk s;
  ci_covered : forall p, p ∈ ex_pipelines s -> covered s p;
  ci_recovering : ex_checkpoints s <> None -> forall cp, cp ∈ default [] (ex_recovering s) -> checkpoint s (cp_taskPda cp) = Some cp;
}.

Lemma covered_ext s s' p q : ex_checkpoints s' = ex_checkpoints s -> skel q = skel p -> pl_phase q = pl_phase p -> covered s p -> covered s' q.
Proof. unfold covered, checkpoint, skel. intros -> Hs -> Hc. by replace (pdaOf q) with (pdaOf p) by congruence. Qed.

Lemma derived_cover s s' : derived s s' -> cover_inv s -> cover_inv s'.
Proof.
  intros [_ Hst Hr Hp] [I1 I2 I3]. split; unfold storeOk, checkpoint in *; rewrite ?Hst, ?Hr; [done| |done].
  intros q Hq. destruct (Hp q Hq) as [[_ [Hb _]]|(p & Hin & Hs & Hh)]; [unfold covered; by rewrite Hb|].
  eapply covered_ext; [exact Hst|exact Hs|exact Hh|by apply I2].
Qed.

Lemma NoDup_map_inj {A B} (f : A -> B) l x y : NoDup (map f l) -> x ∈ l -> y ∈ l -> f x = f y -> x = y.
Proof.
  intros Hn [i Hi]%list_elem_of_lookup [j Hj]%list_elem_of_lookup He.
  assert (i = j) as ->; [|congruence]. apply (NoDup_lookup (f <$> l) i j (f x) Hn); rewrite list_lookup_fmap; [by rewrite Hi|by rewrite Hj, He].
Qed.

Lemma pdas_NoDup s : exec_base s -> NoDup (map pdaOf (ex_pipelines s)).
Proof. intros Hb. pose proof (eb_known _ Hb) as Hk. by apply NoDup_app in Hk as (? & _ & _). Qed.

Lemma recovering_apart s p cp : exec_base s -> p ∈ ex_pipelines s -> cp ∈ default [] (ex_recovering s) -> cp_taskPda cp <> pdaOf p.
Proof.
  intros Hb Hp Hc He. pose proof (eb_known _ Hb) as Hk. apply NoDup_app in Hk as (_ & Hk & _). apply (Hk (pdaOf p)); [by apply list_elem_of_fmap_2|].
  apply elem_of_app. right. unfold recoveringPdas. rewrite <- He. by apply list_elem_of_fmap_2.
Qed.

(** What one answer leaves for the other tasks. *)
Lemma moved_cover a s p s1 q fin s2 : exec_base s -> p ∈ ex_pipelines s -> moved cfg a s p s1 q fin -> cover_inv s ->
  ex_checkpoints s2 = ex_checkpoints s1 -> ex_recovering s2 = ex_recovering s1 ->
  (forall x, x ∈ ex_pipelines s2 -> (fin = false /\ x = q) \/ (x ∈ ex_pipelines s /\ pl_id x <> pl_id p)) -> cover_inv s2.
Proof.
  intros Hb Hp [[_ Hf] Hs _ _ _ _ _ Hst Hk Ho Hc] [I1 I2 I3] E1 E2 Hx. split.
  - specialize (Hk I1). unfold storeOk in *. by rewrite E1.
  - intros x [[Hfin ->]|[Hin Hid]]%Hx; [apply (covered_ext s1 s2 q q); auto|]. unfold covered, checkpoint. rewrite E1. intros Hne. fold (checkpoint s1 (pdaOf x)).
    rewrite Ho; [apply I2; [done|tauto]|]. intros He. apply Hid. f_equal. by apply (NoDup_map_inj pdaOf _ _ _ (pdas_NoDup s Hb)).
  - rewrite E1, E2, (fr_recovering _ _ Hf). unfold checkpoint. rewrite E1. intros Hne cp Hcp. fold (checkpoint s1 (cp_taskPda cp)).
    rewrite Ho; [apply I3; [tauto|done]|]. by eapply recovering_apart.
Qed.

(** The state that an answer leaves, before the queue is drained. *)
Definition settled (fin : bool) q s1 : Executor C R := if fin then endPipeline q s1 else replacePipeline q s1.

Lemma settled_derived fin q s1 : derived (settled fin q s1) (if fin then finish cfg q s1 else replacePipeline q s1).
Proof. destruct fin; [apply derived_drain|done]. Qed.

Lemma settled_pipelines a s p s1 q fin x : moved cfg a s p s1 q fin -> x ∈ ex_pipelines (settled fin q s1) ->
  (fin = false /\ x = q) \/ (x ∈ ex_pipelines s /\ pl_id x <> pl_id p).
Proof.
  intros Hm. destruct (mv_work _ _ _ _ _ _ _ Hm) as [Hw _]. pose proof (mv_skel _ _ _ _ _ _ _ Hm) as Hs. assert (Hid : pl_id q = pl_id p) by (unfold skel in Hs; congruence).
  rewrite <- Hw. destruct fin; cbn; intros Hx.
  - apply list_elem_of_In, filter_In in Hx as [Hx Hn]. right. apply list_elem_of_In in Hx. split; [done|]. rewrite <- Hid. by apply Nat.eqb_neq, negb_true_iff.
  - apply list_elem_of_fmap in Hx as (y & -> & Hy). destruct (Nat.eqb_spec (pl_id y) (pl_id q)); [by left|right]. split; [done|congruence].
Qed.

Lemma settle_cover a p s : exec_base s -> p ∈ ex_pipelines s -> cover_inv s -> cover_inv (settle cfg a p s).
Proof.
  intros Hb Hp Hi. destruct (accepts (pl_phase p) a) eqn:Ha; [|by rewrite ignored]. destruct (settle_moved cfg a p s Ha) as (s1 & q & fin & Hm & ->).
  eapply derived_cover; [apply settled_derived|]. apply (moved_cover a s p s1 q fin); try done; [by destruct fin|by destruct fin|].
  intros x. by eapply settled_pipelines.
Qed.

(** ** Recovery *)

Definition resumePhase (r : @Resume C R) : Phase C R :=
  match r with
  | RExecute c => if 0 <? ec_claimExpiryBufferMs cfg then Guarding c else Resolving c
  | RSubmit r => Submitting 0 r
  | RClean => CleaningUnexpected
  end.

(** One more pipeline; the rest as before. *)
Record launched (t : TaskDiscoveryResult) ph s s' q : Prop := {
  la_pipelines : ex_pipelines s' = (ex_pipelines s ++ [q])%list;
  la_pda : pdaOf q = t_pda t;
  la_id : pl_id q = ex_nextId s;
  la_phase : pl_phase q = ph;
  la_next : ex_nextId s' = S (ex_nextId s);
  la_store : ex_checkpoints s' = ex_checkpoints s;
  la_recovering : ex_recovering s' = ex_recovering s;
  la_running : ex_running s' = ex_running s;
}.

Lemma launch_launched t r c ph s : exists q, launched t ph s (launch t r c ph s) q.
Proof. eexists. by split. Qed.

(** A launched pipeline goes on at once. *)
Lemma guard_launched t ph s s' q c : (forall p, p ∈ ex_pipelines s -> (pl_id p < ex_nextId s)%nat) -> launched t ph s s' q ->
  exists q', launched t (resumePhase (RExecute c)) s (match findPipeline (ex_nextId s' - 1) s' with Some p => guardClaim cfg c p s' | None => s' end) q'.
Proof.
  intros Hlt [L1 L2 L3 L4 L5 L6 L7 L8].
  assert (Hf : findPipeline (ex_nextId s' - 1) s' = Some q).
  { unfold findPipeline. rewrite L1, L5. replace (S (ex_nextId s) - 1)%nat with (ex_nextId s) by lia. revert Hlt. generalize (ex_pipelines s) as l.
    induction l as [|x l IH]; intros Hl; cbn; [by rewrite L3, Nat.eqb_refl|]. destruct (Nat.eqb_spec (pl_id x) (ex_nextId s)) as [He|_].
    - specialize (Hl x (list_elem_of_here _ _)). lia.
    - apply IH. intros y Hy. apply Hl. by right. }
  assert (Hr : forall q', pl_id q' = pl_id q -> ex_pipelines (replacePipeline q' s') = (ex_pipelines s ++ [q'])%list).
  { intros q' Hq. cbn. rewrite L1, map_app. cbn. rewrite Hq, Nat.eqb_refl. f_equal. rewrite <- (map_id (ex_pipelines s)) at 2. apply List.map_ext_in.
    intros x Hx. apply list_elem_of_In in Hx. specialize (Hlt x Hx). destruct (Nat.eqb_spec (pl_id x) (pl_id q)); [lia|done]. }
  rewrite Hf. unfold guardClaim, beginExecution, continue, resumePhase. repeat case_match; eexists; (split; [by rewrite Hr|..]; done).
Qed.

Lemma recoveryPhase_launched cp t s : (forall p, p ∈ ex_pipelines s -> (pl_id p < ex_nextId s)%nat) ->
  exists q, launched t (resumePhase (resumeOf cp)) s (recoveryPhase cfg cp t s) q.
Proof.
  intros Hlt. pose proof (fun ph => launch_launched t true (cp_createdAt cp) ph s) as Hl. unfold recoveryPhase, resumeOf, checkpointExecutionResultRequiresRevalidation.
  destruct (cp_stage cp), (cp_claimResult cp) as [c|], (cp_executionResult cp); try destruct (cp_trusted cp); cbn [negb]; try apply Hl;
    destruct (Hl (Resolving c)) as [q Hq]; by eapply guard_launched.
Qed.

Lemma covers_resume cp : covers (resumePhase (resumeOf cp)) (Some cp).
Proof. destruct (resumeOf cp) eqn:He; cbn; [case_match; cbn; by rewrite He|by rewrite He|done]. Qed.

Lemma launched_cover t s s' q cp : launched t (resumePhase (resumeOf cp)) s s' q -> t_pda t = cp_taskPda cp -> (ex_checkpoints s <> None -> checkpoint s (cp_taskPda cp) = Some cp) ->
  cover_inv s -> cover_inv s'.
Proof.
  intros [L1 L2 L3 L4 L5 L6 L7 L8] Ht Hc [I1 I2 I3]. split; unfold storeOk, checkpoint; rewrite ?L6, ?L7; [done| |done].
  intros p. rewrite L1. intros [Hp| ->%list_elem_of_singleton]%elem_of_app.
  - apply (covered_ext s s' p p); auto.
  - unfold covered, checkpoint. rewrite L6, L4, L2, Ht. intros Hne. fold (checkpoint s (cp_taskPda cp)). rewrite Hc by done. apply covers_resume.
Qed.

Lemma remove_cover pda s : (forall p, p ∈ ex_pipelines s -> pdaOf p <> pda) -> (forall cp, cp ∈ default [] (ex_recovering s) -> cp_taskPda cp <> pda) ->
  cover_inv s -> cover_inv (removeCheckpoint pda s).
Proof.
  intros Hp Hr [I1 I2 I3].
  assert (Ho : forall k, k <> pda -> checkpoint (removeCheckpoint pda s) k = checkpoint s k).
  { intros k Hk. unfold checkpoint. cbn. destruct (ex_checkpoints s) as [m|]; cbn; [|done]. rewrite mget_mdel. by rewrite (proj2 (String.eqb_neq _ _) Hk). }
  assert (Hne : ex_checkpoints (removeCheckpoint pda s) <> None -> ex_checkpoints s <> None) by (cbn; by destruct (ex_checkpoints s)).
  split.
  - by apply storeOk_remove.
  - intros p Hin Hx. rewrite Ho by auto. by apply I2; auto.
  - intros Hx cp Hcp. rewrite Ho by auto. by apply I3; auto.
Qed.

Lemma fewer_cover run li st rec s : (forall cp, cp ∈ default [] rec -> cp ∈ default [] (ex_recovering s)) -> cover_inv s -> cover_inv (set_life run li st rec s).
Proof. intros Hr [I1 I2 I3]. split; [exact I1|exact I2|]. intros Hn cp Hcp. by apply I3; auto. Qed.

Lemma recoverNext_cover n c t s : exec_base s -> cover_inv s -> cover_inv (recoverNext cfg n c t s).
Proof.
  intros Hb Hi. unfold recoverNext. destruct (ex_recovering s) as [[|cp rest]|] eqn:Hr; [| |done].
  - apply (derived_cover (set_life (ex_running s) true (ex_stopping s) None s)); [by apply derived_same|]. apply fewer_cover; [|done]. by intros cp ?%elem_of_nil.
  - destruct (ex_running s); [|apply fewer_cover; [by intros x ?%elem_of_nil|done]].
    set (s1 := set_life true _ _ _ s). assert (Hi1 : cover_inv s1) by (apply fewer_cover; [rewrite Hr; by right|done]).
    assert (Hrm : cover_inv (removeCheckpoint (cp_taskPda cp) s1)).
    { apply remove_cover; [| |done].
      - intros p Hp He. eapply (recovering_apart s p cp); [done|done|rewrite Hr; by left|done].
      - intros x Hx He. pose proof (eb_known _ Hb) as Hk. unfold known, recoveringPdas in Hk. rewrite Hr in Hk.
        apply NoDup_app in Hk as (_ & _ & Hk). apply NoDup_app in Hk as (_ & _ & Hk). cbn in Hk. apply NoDup_cons in Hk as [Hk _]. apply Hk.
        rewrite <- He. by apply list_elem_of_fmap_2. }
    assert (Hl : forall t0, cover_inv (recoveryPhase cfg cp {| t_pda := cp_taskPda cp; t_task := t0 |} s1)).
    { intros t0. edestruct (recoveryPhase_launched cp {| t_pda := cp_taskPda cp; t_task := t0 |} s1) as [q Hq]; [apply (eb_next _ Hb)|].
      eapply launched_cover; [exact Hq|done| |done]. intros Hne. apply (ci_recovering _ Hi Hne). rewrite Hr. by left. }
    unfold recoverOne. repeat case_match; auto.
Qed.

Lemma start_cover s : cover_inv s -> cover_inv (startExecutor s).
Proof.
  intros Hi. unfold startExecutor. destruct (ex_running s); [done|]. destruct Hi as [I1 I2 I3]. split; [exact I1|exact I2|].
  intros _ cp. cbn. unfold checkpoint. cbn. destruct (ex_checkpoints s) as [m|] eqn:Hm; [|by intros ?%elem_of_nil]. destruct (I1 m Hm) as [Hn Hk].
  intros (k & Hg)%(elem_mvals _ _ Hn). cbn. by rewrite (Hk k cp Hg).
Qed.

Lemma step_cover s e : exec_base s -> cover_inv s -> cover_inv (step cfg s e).
Proof.
  intros Hb Hi. destruct (internal e) eqn:He; [by eapply derived_cover; [apply derived_step|]|]. destruct e; try done; cbn [step].
  - by apply start_cover.
  - by apply recoverNext_cover.
  - unfold settleId. destruct (findPipeline id s) as [p|] eqn:Hf; [|done]. apply findPipeline_Some in Hf. by apply settle_cover.
Qed.

Hypothesis capacity : forall c, ec_queueCapacity cfg = Some c -> 1 <= c.

Lemma run_cover es : forall s, exec_inv cfg s -> cover_inv s -> allowedRun cfg s es -> cover_inv (run cfg s es).
Proof. induction es as [|e es IH]; [done|]. intros s Hb Hi [Ha Hr]. apply IH; [by apply exec_step_inv|apply step_cover; [apply Hb|done]|done]. Qed.

Lemma new_cover d store : storeOk (newExecutor d store) -> cover_inv (newExecutor d store).
Proof. intros Hs. split; [done|by intros p ?%elem_of_nil|by intros _ cp ?%elem_of_nil]. Qed.

(** *** A crash *)

(** All the checkpoints are recovered in order: the claims have not expired and
    the tasks exist. *)
Definition recoverAll (answers : TaskCheckpoint C R -> Z * option Z * OnChainTask) (cps : list (TaskCheckpoint C R)) : list (ExecutorEvent C R) :=
  map (fun cp => let '(now, exp, t) := answers cp in ERecover now (Ok exp) (Ok (Some t))) cps.

Definition unexpired (x : Z * option Z * OnChainTask) : Prop := forall exp, x.1.2 = Some exp -> 0 < exp -> x.1.1 < exp.

(** The tasks in progress and their phases. *)
Definition progress s : list (string * Phase C R) := map (fun p => (pdaOf p, pl_phase p)) (ex_pipelines s).

(** The task of a checkpoint and the phase it is resumed in. *)
Definition resumption cp : string * Phase C R := (cp_taskPda cp, resumePhase (resumeOf cp)).

Lemma recoverAll_spec answers cps : (forall cp, cp ∈ cps -> unexpired (answers cp)) -> forall s, ex_recovering s = Some cps -> ex_running s = true ->
  (forall p, p ∈ ex_pipelines s -> (pl_id p < ex_nextId s)%nat) ->
  progress (run cfg s (recoverAll answers cps)) = (progress s ++ map resumption cps)%list.
Proof.
  induction cps as [|cp cps IH]; intros Hu s Hr Hrun Hlt; cbn [recoverAll map run]; [by rewrite app_nil_r|].
  pose proof (Hu cp (list_elem_of_here _ _)) as Hcp. destruct (answers cp) as [[now exp] t] eqn:Ha. cbn [step]. unfold recoverNext. rewrite Hr, Hrun. unfold recoverOne.
  assert (Hx : match exp with Some e => (0 <? e) && (e <=? now) | None => false end = false).
  { destruct exp as [e|]; [|done]. specialize (Hcp e eq_refl). cbn in Hcp. destruct (Z.ltb_spec 0 e); [|done]. cbn. lia. }
  rewrite Hx. set (s1 := set_life true _ _ (Some cps) s).
  destruct (recoveryPhase_launched cp {| t_pda := cp_taskPda cp; t_task := t |} s1 Hlt) as [q [L1 L2 L3 L4 L5 L6 L7 L8]].
  unfold recoverAll in IH. rewrite (IH (fun x Hi => Hu x (list_elem_of_further _ _ _ Hi)) _ (eq_trans L7 eq_refl) (eq_trans L8 eq_refl)).
  - unfold progress. rewrite L1, map_app, <- app_assoc. cbn. by rewrite L2, L4.
  - intros p. rewrite L1, L5. intros [Hp| ->%list_elem_of_singleton]%elem_of_app; [specialize (Hlt p Hp); cbn; lia|cbn in *; lia].
Qed.

(** C10. Crash safety: after any run in which tasks arrive only while they are
    not known (neither queued, in progress nor waiting for recovery) and every
    start finds the queue empty and no earlier recovery, on a queue with room for
    an entry if it is bounded and from a store that keeps each checkpoint under
    its task, take the checkpoints as the crash leaves them. An executor that
    starts on them, whose requests for the claims and tasks all succeed, whose
    store calls succeed and whose claims have not expired, then has exactly one
    pipeline for each checkpoint, in order, which goes on where the checkpoint
    says. In particular every task that was in progress with a recorded claim
    goes on: one whose result was not recorded is executed under the same claim,
    and one whose result was recorded is submitted with that result, without
    running its handler again; and so does every task that itself still waited
    for its recovery. (A task whose checkpoint was removed before the crash, as
    the failed requests of an earlier recovery do, is not resumed.) *)
Theorem crash_recovery d store es answers d' m : storeOk (newExecutor d store) -> allowedRun cfg (newExecutor d store) es ->
  (forall cp, cp ∈ mvals m -> unexpired (answers cp)) ->
  let s := run cfg (newExecutor d store) es in ex_checkpoints s = Some m ->
  let s' := run cfg (newExecutor d' (Some m)) (EStart :: recoverAll answers (mvals m)) in
  let resumed p ph := (pdaOf p, ph) ∈ progress s' in
  progress s' = map resumption (mvals m) /\
  (forall p, p ∈ ex_pipelines s -> match pl_phase p with
   | Guarding c | Resolving c | Handling c | SavingExecuted c _ => resumed p (if 0 <? ec_claimExpiryBufferMs cfg then Guarding c else Resolving c)
   | Submitting _ r | SubmitWait _ r _ => resumed p (Submitting 0 r)
   | Removing => exists r, resumed p (Submitting 0 r)
   | _ => True
   end) /\
  (forall cp, cp ∈ default [] (ex_recovering s) -> resumption cp ∈ progress s').
Proof.
  intros Hst Ha Hu s Hm s' resumed. assert (Hc : cover_inv s) by (apply run_cover; [apply exec_new_inv|by apply new_cover|done]).
  assert (Hall : progress s' = map resumption (mvals m)).
  { apply (recoverAll_spec answers (mvals m) Hu (startExecutor (newExecutor d' (Some m))) eq_refl eq_refl). by intros x ?%elem_of_nil. }
  assert (Hget : forall k cp, checkpoint s k = Some cp -> (k, resumePhase (resumeOf cp)) ∈ progress s').
  { intros k cp Hk. unfold checkpoint in Hk. rewrite Hm in Hk. cbn in Hk. rewrite Hall, <- (proj2 (ci_store _ Hc m Hm) k cp Hk).
    apply (list_elem_of_fmap_2 resumption). by apply (mget_mvals m k). }
  split_and!; [done| |].
  - intros p Hp. assert (Hres : forall r, resumeOf <$> checkpoint s (pdaOf p) = Some r -> resumed p (resumePhase r)).
    { intros r (cp & Hcp & ->)%fmap_Some. by apply Hget. }
    assert (Hcov := ci_covered _ Hc p Hp). unfold covered in Hcov. rewrite Hm in Hcov. specialize (Hcov ltac:(done)).
    destruct (pl_phase p); cbn in Hcov; try done; try (by apply (Hres _ Hcov)). destruct Hcov as [r Hcov]. exists r. by apply (Hres _ Hcov).
  - intros cp Hcp. apply Hget, (ci_recovering _ Hc); [by rewrite Hm|done].
Qed.

(** ** Pipelines end *)

Definition answerBound : nat := 13 + 4 * ec_retries cfg.

Lemma rank_bound ph : (rank cfg ph <= answerBound)%nat.
Proof. unfold answerBound. destruct ph; cbv beta iota zeta delta [rank]; lia. Qed.

(** The answers that pipeline [id] still waits for, at most. *)
Definition potential id s : nat :=
  if (id <? ex_nextId s)%nat then match findPipeline id s with Some p => rank cfg (pl_phase p) | None => O end else answerBound.

Lemma find_unique id s p : NoDup (map pl_id (ex_pipelines s)) -> p ∈ ex_pipelines s -> pl_id p = id -> findPipeline id s = Some p.
Proof.
  intros Hn Hp Hid. unfold findPipeline. destruct (find _ _) as [q|] eqn:Hf.
  - apply find_some in Hf as [Hq He]. apply list_elem_of_In in Hq. apply Nat.eqb_eq in He. f_equal. eapply (NoDup_map_inj pl_id); [done|done|done|congruence].
  - apply list_elem_of_In in Hp. pose proof (find_none _ _ Hf p Hp) as Hx. cbn in Hx. by rewrite Hid, Nat.eqb_refl in Hx.
Qed.

Lemma findPipeline_id id s p : findPipeline id s = Some p -> p ∈ ex_pipelines s /\ pl_id p = id.
Proof. intros Hf. apply find_some in Hf as [Hf He]. split; [by apply list_elem_of_In|by apply Nat.eqb_eq]. Qed.

Lemma potential_le id s s' : NoDup (map pl_id (ex_pipelines s)) -> (ex_nextId s <= ex_nextId s')%nat ->
  (forall q, q ∈ ex_pipelines s' -> pl_id q = id -> (ex_nextId s <= id)%nat \/ exists p, p ∈ ex_pipelines s /\ pl_id p = id /\ (rank cfg (pl_phase q) <= rank cfg (pl_phase p))%nat) ->
  (potential id s' <= potential id s)%nat.
Proof.
  intros Hn Hle Hq. unfold potential. destruct (Nat.ltb_spec id (ex_nextId s)) as [Hlt|Hge].
  2:{ repeat case_match; [apply rank_bound|lia|done]. }
  rewrite (proj2 (Nat.ltb_lt id (ex_nextId s'))) by lia. destruct (findPipeline id s') as [q|] eqn:Hf; [|lia].
  apply findPipeline_id in Hf as [Hin Hid]. destruct (Hq q Hin Hid) as [Hx|(p & Hp & Hpid & Hr)]; [lia|]. by rewrite (find_unique id s p).
Qed.

Lemma derived_potential id s s' : NoDup (map pl_id (ex_pipelines s)) -> derived s s' -> (potential id s' <= potential id s)%nat.
Proof.
  intros Hn [H1 _ _ H2]. apply potential_le; [done|done|]. intros q Hq Hid. destruct (H2 q Hq) as [[Hle _]|(p & Hp & Hs & Hh)]; [left; by rewrite <- Hid|right].
  exists p. unfold skel in Hs. rewrite Hh. split_and!; [done|congruence|done].
Qed.

Definition takes id s (e : ExecutorEvent C R) : bool :=
  match e with ESettle i a => (i =? id)%nat && match findPipeline id s with Some p => accepts (pl_phase p) a | None => false end | _ => false end.

Lemma rank_pos ph : (0 < rank cfg ph)%nat.
Proof. destruct ph; cbv beta iota zeta delta [rank]; lia. Qed.

Lemma moved_potential id a s p s1 q fin : exec_base s -> p ∈ ex_pipelines s -> moved cfg a s p s1 q fin ->
  let s' := if fin then finish cfg q s1 else replacePipeline q s1 in
  (potential id s' + (if (pl_id p =? id)%nat then 1 else 0) <= potential id s)%nat.
Proof.
  intros Hb Hp Hm s'. destruct (mv_work _ _ _ _ _ _ _ Hm) as [Hw Hf]. pose proof (mv_skel _ _ _ _ _ _ _ Hm) as Hs.
  assert (Hid : pl_id q = pl_id p) by (unfold skel in Hs; congruence).
  assert (Hx : forall x, x ∈ ex_pipelines s' -> (ex_nextId s <= pl_id x)%nat \/ exists y, y ∈ ex_pipelines s /\ pl_id y = pl_id x /\
    (rank cfg (pl_phase x) + (if (pl_id p =? pl_id x)%nat then 1 else 0) <= rank cfg (pl_phase y))%nat).
  { intros x Hx. destruct (settled_derived fin q s1) as [_ _ _ Hd]. destruct (Hd x Hx) as [[Hle _]|(y & Hy & Hys & Hph)].
    - left. rewrite <- (fr_next _ _ Hf). by destruct fin.
    - right. assert (Hyx : pl_id x = pl_id y) by (unfold skel in Hys; congruence). rewrite Hyx, Hph.
      destruct (settled_pipelines _ _ _ _ _ _ _ Hm Hy) as [[-> ->]|[Hin Hne]].
      + exists p. rewrite Hid, Nat.eqb_refl. split_and!; [done|done|]. pose proof (mv_rank _ _ _ _ _ _ _ Hm eq_refl). lia.
      + exists y. rewrite (proj2 (Nat.eqb_neq (pl_id p) (pl_id y))) by done. split_and!; [done|done|lia]. }
  assert (Hnext : (ex_nextId s <= ex_nextId s')%nat).
  { rewrite <- (fr_next _ _ Hf). destruct (settled_derived fin q s1) as [Hd _ _ _]. by destruct fin. }
  destruct (Nat.eqb_spec (pl_id p) id) as [<-|Hne].
  - pose proof (eb_next _ Hb p Hp) as Hlt. unfold potential. rewrite !(proj2 (Nat.ltb_lt _ _)) by lia. rewrite (find_unique _ s p (eb_ids _ Hb) Hp eq_refl).
    destruct (findPipeline (pl_id p) s') as [x|] eqn:Hfx; [|pose proof (rank_pos (pl_phase p)); lia].
    apply findPipeline_id in Hfx as [Hxin Hxid]. destruct (Hx x Hxin) as [Hbad|(y & Hy & Hyid & Hr)]; [lia|].
    rewrite Hxid, Nat.eqb_refl in Hr. rewrite (NoDup_map_inj pl_id _ y p (eb_ids _ Hb)) in Hr by (done || congruence). lia.
  - rewrite Nat.add_0_r. apply potential_le; [apply Hb|done|]. intros x Hxin <-. destruct (Hx x Hxin) as [?|(y & Hy & Hyid & Hr)]; [by left|right].
    exists y. split_and!; [done|done|lia].
Qed.

Lemma recover_potential id n c t s : exec_base s -> (potential id (recoverNext cfg n c t s) <= potential id s)%nat.
Proof.
  intros Hb. assert (Hsame : forall s', ex_nextId s' = ex_nextId s -> ex_pipelines s' = ex_pipelines s -> (potential id s' <= potential id s)%nat).
  { intros s' H1 H2. unfold potential, findPipeline. by rewrite H1, H2. }
  unfold recoverNext. destruct (ex_recovering s) as [[|cp rest]|]; [by apply Hsame| |done]. destruct (ex_running s); [|by apply Hsame].
  set (s1 := set_life true _ _ _ s). assert (Hl : forall t0, (potential id (recoveryPhase cfg cp t0 s1) <= potential id s)%nat).
  { intros t0. destruct (recoveryPhase_launched cp t0 s1 (eb_next _ Hb)) as [q [L1 L2 L3 L4 L5 L6 L7 L8]].
    apply potential_le; [apply Hb|rewrite L5; cbn; lia|]. intros x Hx Hid. rewrite L1 in Hx. apply elem_of_app in Hx as [Hx|Hx%list_elem_of_singleton].
    - right. eauto.
    - left. subst x. rewrite <- Hid, L3. done. }
  unfold recoverOne. repeat case_match; first [apply Hl|by apply Hsame].
Qed.

Lemma step_potential id s e : exec_base s -> (potential id (step cfg s e) + (if takes id s e then 1 else 0) <= potential id s)%nat.
Proof.
  intros Hb. destruct (internal e) eqn:Hi.
  { replace (takes id s e) with false by by destruct e. rewrite Nat.add_0_r. apply derived_potential; [apply Hb|by apply derived_step]. }
  destruct e; try done; cbn [step takes]; rewrite ?Nat.add_0_r.
  - unfold startExecutor. by case_match.
  - by apply recover_potential.
  - unfold settleId. destruct (findPipeline id0 s) as [p|] eqn:Hf.
    2:{ destruct (Nat.eqb_spec id0 id) as [<-|]; cbn; [rewrite Hf|]; lia. }
    apply findPipeline_id in Hf as Hpid. destruct Hpid as [Hp Hid]. destruct (accepts (pl_phase p) a) eqn:Ha.
    + destruct (settle_moved cfg a p s Ha) as (s1 & q & fin & Hm & ->). pose proof (moved_potential id a s p s1 q fin Hb Hp Hm) as Hle.
      rewrite Hid in Hle. cbv zeta in Hle. destruct (id0 =? id)%nat; cbn [andb]; repeat case_match; lia.
    + rewrite (ignored cfg a p s Ha). destruct (Nat.eqb_spec id0 id) as [<-|]; cbn [andb]; [rewrite Hf, Ha|]; lia.
Qed.

(** The answers that pipeline [id] receives in a run. *)
Fixpoint answered id s (es : list (ExecutorEvent C R)) : nat :=
  match es with [] => O | e :: es => ((if takes id s e then 1 else 0) + answered id (step cfg s e) es)%nat end.

Lemma answered_bound id es : forall s, exec_inv cfg s -> allowedRun cfg s es -> (answered id s es + potential id (run cfg s es) <= potential id s)%nat.
Proof.
  induction es as [|e es IH]; intros s Hi Ha; cbn [answered run]; [lia|]. destruct Ha as [Ha Hr]. specialize (IH (step cfg s e) (exec_step_inv cfg capacity s e Hi Ha) Hr).
  pose proof (step_potential id s e (ei_base _ _ Hi)). lia.
Qed.

(** Termination: in every run, however its events interleave, a pipeline
    takes at most [13 + 4 * retries] answers, and as long as it is there it
    waits for a promise whose settlement it takes: it ends once its promises
    settle. *)
Theorem pipelines_terminate d store es id : allowedRun cfg (newExecutor d store) es ->
  let s := run cfg (newExecutor d store) es in
  (answered id (newExecutor d store) es <= 13 + 4 * ec_retries cfg)%nat /\
  forall p, p ∈ ex_pipelines s -> pl_id p = id -> exists a, takes id s (ESettle id a) = true /\ (potential id (step cfg s (ESettle id a)) < potential id s)%nat.
Proof.
  intros Ha s. pose proof (answered_bound id es _ (exec_new_inv cfg d store) Ha) as Hb. change (potential id (newExecutor d store)) with answerBound in Hb.
  unfold answerBound in Hb. split; [lia|]. intros p Hp Hid.
  pose proof (exec_run_inv cfg capacity es _ (exec_new_inv cfg d store) Ha) as [Hbase _ _]. fold s in Hbase.
  assert (Hacc : exists a, accepts (pl_phase p) a = true).
  { set (e := OperationError "" None). destruct (pl_phase p);
      first [by exists (AClaim 0 (Err e))|by exists (AWake 0)|by exists (AStore 0 (Err e))|by exists (AExpiry 0 (Err e))|by exists (AResolve 0 (Err e))|
        by exists (AHandler 0 (Err e))|by exists (ASubmit 0 (Err e))]. }
  destruct Hacc as [a Hacc]. exists a. assert (Ht : takes id s (ESettle id a) = true).
  { cbn. by rewrite Nat.eqb_refl, (find_unique id s p (eb_ids _ Hbase) Hp Hid). }
  split; [done|]. pose proof (step_potential id s (ESettle id a) Hbase) as Hl. rewrite Ht in Hl. lia.
Qed.
End executor.

(** ** No discovered task is lost *)

Section ledger.
Context {C R : Type} (cfg : ExecutorConfig).
Implicit Types (s : Executor C R) (p q : Pipeline C R) (ph : Phase C R) (a : Answer C R).
Hypothesis unbounded : ec_queueCapacity cfg = None.

Lemma unbounded_capacity : forall c, ec_queueCapacity cfg = Some c -> 1 <= c.
Proof. rewrite unbounded. done. Qed.

(** The tasks that are queued or in progress and not yet submitted. *)
Definition openTasks s : list string := (map (fun e => t_pda (item e)) (ex_queue s) ++ flat_map pending (ex_pipelines s))%list.

Definition deadTasks s : list string := map DeadLetterQueue.taskPda (ex_dlq s).

(** The tasks that an event reports to the executor. *)
Definition reported s (e : ExecutorEvent C R) : list string :=
  match e with
  | EBatch tasks => if ex_running s then map t_pda tasks else []
  | EDiscovery e => if ex_listening s then map t_pda (dstep (ex_discovery s) e).2 else []
  | _ => []
  end.

(** The task whose result an event tells to be submitted. *)
Definition submitted s (e : ExecutorEvent C R) : list string :=
  match e with ESettle id a => match findPipeline id s with Some p => completes p a | None => [] end | _ => [] end.

(** All the tasks that the events of a run report, or complete. *)
Fixpoint collect (f : Executor C R -> ExecutorEvent C R -> list string) s (es : list (ExecutorEvent C R)) : list string :=
  match es with [] => [] | e :: es => (f s e ++ collect f (step cfg s e) es)%list end.

(** The executor takes in the tasks [new], and moves tasks on and off the queue. *)
Record balanced (new : list string) s s' : Prop := {
  ba_dlq : ex_dlq s' = ex_dlq s;
  ba_store : ex_checkpoints s' = ex_checkpoints s;
  ba_completed : tasksCompleted (ex_metrics s') = tasksCompleted (ex_metrics s);
  ba_discovered : tasksDiscovered (ex_metrics s') = tasksDiscovered (ex_metrics s) + Z.of_nat (length new);
  ba_work k : times k (openTasks s') = times k (openTasks s) + times k new;
  ba_life : (ex_running s', ex_listening s', ex_stopping s', ex_recovering s') = (ex_running s, ex_listening s, ex_stopping s, ex_recovering s);
  ba_heap : heap_ok (ex_queue s) -> heap_ok (ex_queue s');
  ba_plain : (forall p, p ∈ ex_pipelines s -> plain p) -> forall p, p ∈ ex_pipelines s' -> plain p;
}.

Lemma balanced_refl s : balanced [] s s.
Proof. split; try done; [cbn; lia|]. intros k. change (times k []) with 0. lia. Qed.
#[local] Hint Resolve balanced_refl : core.

Lemma balanced_app new1 new2 s1 s2 s3 : balanced new1 s1 s2 -> balanced new2 s2 s3 -> balanced (new1 ++ new2)%list s1 s3.
Proof.
  intros [A1 A2 A3 A4 A5 A6 A7 A8] [B1 B2 B3 B4 B5 B6 B7 B8]. split; try congruence; auto; [rewrite length_app; lia|].
  intros k. rewrite times_app, B5, A5. lia.
Qed.

Lemma balanced_then new s1 s2 s3 : balanced new s1 s2 -> balanced [] s2 s3 -> balanced new s1 s3.
Proof. intros H1 H2. rewrite <- (app_nil_r new). by eapply balanced_app. Qed.

(** Launching what was queued, and queueing or launching what arrives. *)
Lemma launch_work k t s : times k (openTasks (launchTask t s)) = times k (openTasks s) + times k [t_pda t].
Proof. unfold openTasks. cbn. rewrite flat_map_app. cbn. rewrite !times_app. change (pdaOf _) with (t_pda t). lia. Qed.

Lemma launch_plain t s : (forall p, p ∈ ex_pipelines s -> plain p) -> forall p, p ∈ ex_pipelines (launchTask t s) -> plain p.
Proof. intros Hp p [Hin| ->%list_elem_of_singleton]%elem_of_app; [auto|by split_and!]. Qed.

Lemma balanced_arrival t s : heap_ok (ex_queue s) ->
  balanced [t_pda t] s (launchTask t (countDiscovered s)) /\ balanced [t_pda t] s (enqueue cfg t (countDiscovered s)).
Proof.
  intros Hh. split.
  - split; try done; [cbn; lia| |apply (launch_plain t (countDiscovered s))]. intros k. by rewrite launch_work.
  - unfold enqueue. destruct (push_ok (ec_queueCapacity cfg) t (ec_scorer cfg (t_task t)) (ex_queue s) unbounded_capacity Hh) as (h & m & Hpush & Hok & Hb & Hp).
    cbn [ex_queue countDiscovered with_metrics set_records]. rewrite Hpush. rewrite unbounded in Hb.
    assert (Hl : h ≡ₚ Build_HeapEntry t (ec_scorer cfg (t_task t)) :: ex_queue s) by (rewrite Hp; by inversion Hb).
    split; try done; [cbn; lia|]. intros k. unfold openTasks. cbn [ex_queue ex_pipelines set_queue countDiscovered with_metrics set_records].
    rewrite !times_app, Hl. cbn [map item]. rewrite !times_cons. change (times k []) with 0. lia.
Qed.

Lemma balanced_flow b d s : balanced [] s (set_flow b d s).
Proof. by destruct (balanced_refl s). Qed.

Lemma balanced_drainLoop fuel : forall s, heap_ok (ex_queue s) -> balanced [] s (drainLoop cfg fuel s).
Proof.
  induction fuel as [|fuel IH]; intros s Hh; cbn [drainLoop]; [done|]. case_match; [|done].
  destruct (pop_ok (ex_queue s) Hh) as (h & out & -> & Hok & [(_ & -> & _)|(e & -> & Hp & _)]); [done|]. eapply balanced_then; [|by apply IH].
  split; try done; [cbn; lia| |apply (launch_plain (item e) (set_queue h s))]. intros k. rewrite launch_work. unfold openTasks.
  cbn [ex_queue ex_pipelines set_queue]. rewrite Hp. cbn [map]. rewrite !times_app, !times_cons. change (times k []) with 0. lia.
Qed.

Lemma balanced_drain s : heap_ok (ex_queue s) -> balanced [] s (drainQueue cfg s).
Proof.
  intros Hh. unfold drainQueue. eapply balanced_then; [by apply balanced_drainLoop|]. unfold checkLowWaterMark. case_match; [apply balanced_flow|done].
Qed.

Lemma balanced_foldl (alive : Executor C R -> Prop) (f : Executor C R -> TaskDiscoveryResult -> Executor C R) l :
  (forall s t, heap_ok (ex_queue s) -> alive s -> balanced [t_pda t] s (f s t)) -> (forall s s' new, balanced new s s' -> alive s -> alive s') ->
  forall s, heap_ok (ex_queue s) -> alive s -> balanced (map t_pda l) s (foldl f s l).
Proof.
  intros Hf Ha. induction l as [|t l IH]; intros s Hh Hs; cbn; [done|]. pose proof (Hf s t Hh Hs) as H1.
  apply (balanced_app [t_pda t] _ _ _ _ H1), IH; [by apply (ba_heap _ _ _ H1)|by eapply Ha].
Qed.

Lemma foldl_id {A B} (f : A -> B -> A) l x : (forall y, f x y = x) -> foldl f x l = x.
Proof. intros Hf. induction l as [|y l IH]; cbn; [done|]. by rewrite Hf. Qed.

Lemma balanced_discovered l s : heap_ok (ex_queue s) -> balanced (if ex_listening s then map t_pda l else []) s (foldl (onTaskDiscovered cfg) s l).
Proof.
  intros Hh. destruct (ex_listening s) eqn:Hl.
  - apply (balanced_foldl (fun s => ex_listening s = true)); [|by intros s1 s2 new [_ _ _ _ _ [= _ -> _ _] _ _]|done|done]. intros s1 t Hh1 Hl1.
    destruct (balanced_arrival t s1 Hh1) as [H1 H2]. unfold onTaskDiscovered, handleDiscoveredTask. rewrite Hl1. case_match; [done|].
    eapply balanced_then; [exact H2|]. unfold checkHighWaterMark. case_match; [apply balanced_flow|done].
  - by rewrite foldl_id; [|intros t; unfold onTaskDiscovered; rewrite Hl].
Qed.

Lemma balanced_batch l s : heap_ok (ex_queue s) -> balanced (if ex_running s then map t_pda l else []) s (foldl (batchOne cfg) s l).
Proof.
  intros Hh. destruct (ex_running s) eqn:Hr.
  - apply (balanced_foldl (fun s => ex_running s = true)); [|by intros s1 s2 new [_ _ _ _ _ [= -> _ _ _] _ _]|done|done]. intros s1 t Hh1 Hr1.
    destruct (balanced_arrival t s1 Hh1) as [H1 H2]. unfold batchOne. rewrite Hr1. by case_match.
  - by rewrite foldl_id; [|intros t; unfold batchOne; rewrite Hr].
Qed.

Lemma balanced_signals p q s : NoDup (map pl_id (ex_pipelines s)) -> p ∈ ex_pipelines s -> skel q = skel p -> pl_phase q = pl_phase p -> (plain p -> plain q) ->
  balanced [] s (replacePipeline q s).
Proof.
  intros Hn Hp Hs Hh Hpl. assert (Hsame : forall x, x ∈ ex_pipelines s -> pl_id x = pl_id q -> x = p).
  { intros x Hx Hid. unfold skel in Hs. apply (NoDup_map_inj pl_id _ _ _ Hn Hx Hp). congruence. }
  split; try done; [cbn; lia| |].
  - intros k. change (times k []) with 0. rewrite Z.add_0_r. unfold openTasks. cbn. do 2 f_equal. rewrite !flat_map_concat_map, map_map. f_equal.
    apply List.map_ext_in. intros x Hx%list_elem_of_In. destruct (Nat.eqb_spec (pl_id x) (pl_id q)) as [He|]; [|done].
    rewrite (Hsame x Hx He). unfold pending. rewrite Hh. by replace (pdaOf q) with (pdaOf p) by (unfold skel in Hs; congruence).
  - intros Hall x Hx. apply list_elem_of_fmap in Hx as (y & -> & Hy). case_match; auto.
Qed.

Lemma balanced_rescore s : balanced [] s (rescoreQueue cfg s).
Proof.
  unfold rescoreQueue, rescore.
  destruct (heapify_ok (map (fun e => Build_HeapEntry (item e) (ec_scorer cfg (t_task (item e)))) (ex_queue s))) as (h & -> & Hp & Hok).
  split; try done; [cbn; lia|]. intros k. change (times k []) with 0. unfold openTasks. cbn [ex_queue ex_pipelines set_queue]. rewrite !times_app, Hp, map_map.
  cbn. lia.
Qed.

(** *** The invariant *)

Definition idle s : Prop := ex_running s = false /\ ex_listening s = false /\ ex_recovering s = None /\ ex_pipelines s = [] /\ ex_queue s = [] /\
  default [] (ex_checkpoints s) = [].

(** The dead letter queue is not full. *)
Definition roomy s : Prop := Z.of_nat (length (ex_dlq s)) < ec_dlqMaxSize cfg.

(** The books after the tasks [seen] were reported and [done] completed. *)
Record ledger_inv (exact : Prop) (seen done : list string) s : Prop := {
  li_life : idle s \/ (ex_running s = true /\ default [] (ex_recovering s) = []);
  li_stopping : ex_stopping s = false;
  li_plain : forall p, p ∈ ex_pipelines s -> plain p;
  li_discovered : tasksDiscovered (ex_metrics s) = Z.of_nat (length seen);
  li_completed : tasksCompleted (ex_metrics s) = Z.of_nat (length done);
  li_sum : roomy s -> forall k, let accounted := times k (openTasks s) + times k done + times k (deadTasks s) in
    times k seen <= accounted /\ (exact -> times k seen = accounted);
}.

Lemma balanced_ledger exact seen done new s s' : ex_running s = true -> balanced new s s' -> ledger_inv exact seen done s ->
  ledger_inv exact (seen ++ new)%list done s'.
Proof.
  intros Hrun [B1 B2 B3 B4 B5 B6 B7 B8] [L1 L2 L3 L4 L5 L6]. injection B6 as R1 R2 R3 R4. split; [| |auto| | |].
  - right. rewrite R1, R4. split; [by rewrite Hrun|]. destruct L1 as [(Hx & _)|[_ Hx]]; [congruence|by rewrite Hx].
  - congruence.
  - rewrite length_app. lia.
  - congruence.
  - unfold roomy, deadTasks in *. rewrite B1. intros Hr k. destruct (L6 Hr k) as [H1 H2]. rewrite times_app, B5. split; [lia|]. intros He. specialize (H2 He). lia.
Qed.

(** The same books, in a state without work. *)
Lemma idle_ledger exact seen done s s' : idle s -> ledger_inv exact seen done s -> idle s' -> ex_stopping s' = false -> ex_dlq s' = ex_dlq s ->
  ex_metrics s' = ex_metrics s -> ledger_inv exact seen done s'.
Proof.
  intros Hi [L1 L2 L3 L4 L5 L6] Hi' Hs Hd Hm. pose proof Hi as (_ & _ & _ & P & Q & _). pose proof Hi' as (_ & _ & _ & P' & Q' & _).
  split; [by left|done|rewrite P'; by intros p ?%elem_of_nil|by rewrite Hm|by rewrite Hm|].
  unfold roomy, deadTasks, openTasks in *. by rewrite Hd, P', Q', <- P, <- Q.
Qed.

Lemma idle_quiet s e : idle s -> reported s e = [] /\ submitted s e = [].
Proof.
  intros (Hr & L & _ & P & _). unfold reported, submitted, findPipeline. rewrite Hr, L, P. by destruct e.
Qed.

Lemma idle_step exact seen done s e : idle s -> ledger_inv exact seen done s -> e <> EStart -> e <> EStop -> ledger_inv exact seen done (step cfg s e).
Proof.
  intros Hi Hl Hne Hns. pose proof Hi as (Hr & L & Rc & P & Q & S). pose proof (li_stopping _ _ _ _ Hl) as St.
  assert (Hfind : forall id, findPipeline id s = None) by (intros id; unfold findPipeline; by rewrite P).
  assert (Hflow : forall b d, ledger_inv exact seen done (set_flow b d s)) by (intros b d; by apply (idle_ledger exact seen done s)).
  destruct e; try done; cbn [step].
  - unfold recoverNext. by rewrite Rc.
  - unfold runBatch. rewrite (foldl_id (batchOne cfg)) by (intros t; unfold batchOne; by rewrite Hr). unfold drainQueue. rewrite Q. cbn [length drainLoop].
    unfold checkLowWaterMark. case_match; [apply Hflow|done].
  - unfold discoveryEvent. destruct (dstep _ _) as [d found]. rewrite (foldl_id (onTaskDiscovered cfg)); [apply Hflow|].
    intros t. unfold onTaskDiscovered. cbn. by rewrite L.
  - unfold settleId. by rewrite Hfind.
  - unfold timeoutFired. by rewrite Hfind.
  - unfold deadlineFired. by rewrite Hfind.
  - by rewrite Hr.
  - unfold rescoreQueue. rewrite Q. cbn. apply (idle_ledger exact seen done s); try done.
  - unfold stopEnd. by rewrite St.
Qed.

Lemma deadLettered_room s s1 dead : deadLettered cfg s s1 dead -> roomy s1 -> roomy s /\ deadTasks s1 = (deadTasks s ++ dead)%list.
Proof.
  intros [He|e He]; unfold roomy, deadTasks; rewrite He; [by rewrite app_nil_r|]. unfold add.
  destruct (Z.leb_spec (ec_dlqMaxSize cfg) (Z.of_nat (length (ex_dlq s)))).
  - rewrite length_app. destruct (ex_dlq s); cbn [length tail] in *; lia.
  - rewrite length_app, map_app. cbn [length]. split; [lia|done].
Qed.

Lemma settled_work k a s p s1 q fin : NoDup (map pl_id (ex_pipelines s)) -> p ∈ ex_pipelines s -> moved cfg a s p s1 q fin ->
  times k (openTasks (settled fin q s1)) = times k (openTasks s) - times k (pending p) + times k (if fin then [] else pending q).
Proof.
  intros Hn Hp Hm. destruct (mv_work _ _ _ _ _ _ _ Hm) as [Hw Hf]. pose proof (mv_skel _ _ _ _ _ _ _ Hm) as Hs. assert (Hid : pl_id q = pl_id p) by (unfold skel in Hs; congruence).
  pose proof (filter_id_perm _ _ Hn Hp) as Hperm. rewrite <- Hid in Hperm. set (rest := List.filter _ _) in Hperm.
  assert (Hsum : times k (flat_map pending (ex_pipelines s)) = times k (pending p) + times k (flat_map pending rest)).
  { rewrite (Permutation_flat_map pending Hperm). cbn [flat_map]. by rewrite times_app. }
  unfold openTasks. rewrite !times_app, Hsum.
  destruct fin; unfold settled; cbn [endPipeline replacePipeline set_work ex_queue ex_pipelines]; rewrite (fr_queue _ _ Hf), Hw.
  - fold rest. change (times k []) with 0. lia.
  - set (f := fun x : Pipeline C R => if (pl_id x =? pl_id q)%nat then q else x). assert (Hr : map f (ex_pipelines s) ≡ₚ q :: rest).
    { rewrite Hperm. cbn. unfold f at 1. rewrite <- Hid, Nat.eqb_refl. constructor. rewrite (List.map_ext_in f (fun x => x)), map_id; [done|].
      intros x Hx. apply filter_In in Hx as [_ Hx]. unfold f. apply negb_true_iff in Hx. by rewrite Hx. }
    rewrite (Permutation_flat_map pending Hr). cbn [flat_map]. rewrite times_app. lia.
Qed.

Lemma settle_ledger (exact : Prop) seen done a p s : exec_base s -> ex_running s = true -> p ∈ ex_pipelines s -> (exact -> storeFails a = false) ->
  ledger_inv exact seen done s -> ledger_inv exact seen (done ++ (if accepts (pl_phase p) a then completes p a else []))%list (settle cfg a p s).
Proof.
  intros Hb Hrun Hp Hex Hl. destruct (accepts (pl_phase p) a) eqn:Ha; [|by rewrite ignored, app_nil_r]. destruct (settle_moved cfg a p s Ha) as (s1 & q & fin & Hm & ->).
  destruct (mv_work _ _ _ _ _ _ _ Hm) as [Hw Hf]. destruct (mv_account _ _ _ _ _ _ _ Hm (li_plain _ _ _ _ Hl p Hp)) as (dead & Hd & Hpl & Hk).
  pose proof (fun k => settled_work k _ _ _ _ _ _ (eb_ids _ Hb) Hp Hm) as Hwork. set (s2 := settled fin q s1) in *.
  assert (Hs2 : ex_dlq s2 = ex_dlq s1 /\ ex_metrics s2 = ex_metrics s1 /\ ex_queue s2 = ex_queue s1 /\ ex_stopping s2 = ex_stopping s1 /\
    ex_running s2 = ex_running s1 /\ ex_recovering s2 = ex_recovering s1) by (unfold s2; by destruct fin).
  destruct Hs2 as (E1 & E2 & E3 & E4 & E5 & E6).
  assert (Hl2 : ledger_inv exact seen (done ++ completes p a)%list s2).
  { destruct Hl as [L1 L2 L3 L4 L5 L6]. split.
    - right. rewrite E5, E6, (fr_running _ _ Hf), (fr_recovering _ _ Hf). split; [exact Hrun|]. destruct L1 as [(Hx & _)|[_ Hx]]; [congruence|exact Hx].
    - by rewrite E4, (fr_stopping _ _ Hf).
    - intros x [[-> ->]|[Hx _]]%(settled_pipelines cfg _ _ _ _ _ _ _ Hm); auto.
    - by rewrite E2, (mv_discovered _ _ _ _ _ _ _ Hm).
    - rewrite E2, (mv_completed _ _ _ _ _ _ _ Hm), length_app. lia.
    - unfold roomy. rewrite E1. intros Hr k. destruct (deadLettered_room _ _ _ Hd Hr) as [Hr0 Hlen]. destruct (L6 Hr0 k) as [Hs1 Hs2].
      destruct (Hk k) as [Hle Heq]. unfold deadTasks at 1 2. rewrite E1. fold (deadTasks s1). rewrite Hlen, !times_app, Hwork. split; [lia|].
      intros He. specialize (Hs2 He). specialize (Heq (Hex He)). lia. }
  destruct fin; [|exact Hl2]. rewrite <- (app_nil_r seen). apply (balanced_ledger exact seen _ [] s2); [by rewrite E5, (fr_running _ _ Hf)| |exact Hl2].
  apply balanced_drain. rewrite E3, (fr_queue _ _ Hf). apply Hb.
Qed.

Lemma completes_accepted p a : completes p a = if accepts (pl_phase p) a then completes p a else [].
Proof. unfold completes, accepts. by destruct (pl_phase p), a. Qed.

Lemma start_ledger exact seen done s : ledger_inv exact seen done s -> ledger_inv exact seen done (startExecutor s).
Proof.
  intros Hl. unfold startExecutor. destruct (ex_running s) eqn:Hr; [exact Hl|]. destruct Hl as [[(_ & _ & _ & _ & _ & S)|[Hx _]] L2 L3 L4 L5 L6]; [|congruence].
  split; [right|exact L2|exact L3|exact L4|exact L5|exact L6]. split; [done|]. cbn. destruct (ex_checkpoints s) as [m|]; [cbn in S; by subst|done].
Qed.

Lemma timer_balanced p q s : exec_base s -> p ∈ ex_pipelines s -> skel q = skel p -> pl_phase q = pl_phase p -> (plain p -> plain q) ->
  balanced [] s (replacePipeline q s).
Proof. intros Hb Hp Hs Hh Hpl. apply (balanced_signals p); auto. apply Hb. Qed.

(** The steps that settle no promise. *)
Lemma quiet_balanced s e : exec_base s -> e <> EStart -> e <> EStop -> ex_stopping s = false -> (forall now c t, e <> ERecover now c t) ->
  (forall id a, e <> ESettle id a) -> balanced (reported s e) s (step cfg s e).
Proof.
  intros Hb He1 He2 Hst He3 He4. pose proof (eb_heap _ Hb) as Hh.
  destruct e; try done; try (by destruct (He3 nowSec claim task)); try (by destruct (He4 id a)); cbn [step reported].
  - unfold runBatch. pose proof (balanced_batch tasks s Hh) as H1. eapply balanced_then; [exact H1|]. apply balanced_drain. by apply (ba_heap _ _ _ H1).
  - unfold discoveryEvent. destruct (dstep _ _) as [d found]. apply (balanced_app [] _ _ (set_flow (ex_backpressure s) d s)); [apply balanced_flow|].
    by apply (balanced_discovered found (set_flow (ex_backpressure s) d s)).
  - unfold timeoutFired. destruct (findPipeline id s) as [p|] eqn:Hf; [|done]. apply findPipeline_Some in Hf. case_match; [|done].
    apply (timer_balanced p); auto. intros (P1 & P2 & P3). split_and!; [done|done|by left].
  - unfold deadlineFired. destruct (findPipeline id s) as [p|] eqn:Hf; [|done]. apply findPipeline_Some in Hf. case_match; [|done].
    apply (timer_balanced p); auto. intros (P1 & P2 & P3). split_and!; [done|done|]. cbn. rewrite P1. by right.
  - case_match; [by apply balanced_drain|done].
  - apply balanced_rescore.
  - unfold stopEnd. by rewrite Hst.
Qed.

Lemma step_ledger (exact : Prop) seen done s e : exec_base s -> e <> EStop -> (exact -> forall id a, e = ESettle id a -> storeFails a = false) ->
  ledger_inv exact seen done s -> ledger_inv exact (seen ++ reported s e)%list (done ++ submitted s e)%list (step cfg s e).
Proof.
  intros Hb Hns Hex Hl. assert (Hcase : e = EStart \/ (idle s /\ e <> EStart) \/ ex_running s = true).
  { destruct (li_life _ _ _ _ Hl) as [Hi|[Hr _]]; [|by right; right]. destruct e; try (by left); right; left; done. }
  destruct Hcase as [-> |[[Hi Hne]|Hrun]].
  { cbn [reported submitted]. rewrite !app_nil_r. by apply start_ledger. }
  { destruct (idle_quiet s e Hi) as [-> ->]. rewrite !app_nil_r. by apply idle_step. }
  destruct e; try done; try (cbn [submitted]; rewrite (app_nil_r done); apply (balanced_ledger exact seen done _ s); [exact Hrun| |exact Hl]; apply quiet_balanced; try done;
    apply (li_stopping _ _ _ _ Hl)); cbn [step reported submitted]; rewrite app_nil_r.
  - rewrite app_nil_r. by apply start_ledger.
  - rewrite app_nil_r. unfold recoverNext. destruct (li_life _ _ _ _ Hl) as [(Hx & _)|[_ Hx]]; [congruence|]. destruct (ex_recovering s) as [[|cp rest]|]; [|done|exact Hl].
    destruct Hl as [L1 L2 L3 L4 L5 L6]. split; [right; by split|exact L2|exact L3|exact L4|exact L5|exact L6].
  - unfold settleId. destruct (findPipeline id s) as [p|] eqn:Hf; [|by rewrite app_nil_r]. apply findPipeline_Some in Hf. rewrite completes_accepted.
    apply settle_ledger; auto. intros He. by eapply Hex.
Qed.

Lemma run_ledger (exact : Prop) es : forall seen done s, exec_inv cfg s -> allowedRun cfg s es -> EStop ∉ es ->
  (exact -> forall id a, ESettle id a ∈ es -> storeFails a = false) -> ledger_inv exact seen done s ->
  ledger_inv exact (seen ++ collect reported s es)%list (done ++ collect submitted s es)%list (run cfg s es).
Proof.
  induction es as [|e es IH]; intros seen done s Hi Ha Hns Hex Hl; cbn [collect run]; [by rewrite !app_nil_r|]. destruct Ha as [Ha Hr].
  apply not_elem_of_cons in Hns as [Hne Hns]. rewrite !app_assoc. apply IH; [|exact Hr|exact Hns| |].
  - apply exec_step_inv; auto using unbounded_capacity.
  - intros He id a Hin. apply (Hex He id a). by right.
  - apply step_ledger; auto; [apply Hi|]. intros He id a ->. apply (Hex He id a). by left.
Qed.

Lemma openTasks_NoDup s : exec_base s -> NoDup (openTasks s).
Proof.
  intros Hb. pose proof (eb_known _ Hb) as Hk. unfold known in Hk. rewrite app_assoc in Hk. apply NoDup_app in Hk as (Hk & _ & _).
  rewrite Permutation_app_comm in Hk. eapply sublist_NoDup; [exact Hk|]. unfold openTasks. apply sublist_app; [done|].
  clear Hk. induction (ex_pipelines s) as [|p l IH]; cbn [flat_map map]; [done|]. unfold pending at 1. destruct (pl_phase p); cbn [app]; first [apply sublist_skip, IH|apply sublist_cons, IH].
Qed.

(** C11. No task is lost, and none is swapped for another: an executor with an
    unbounded queue that starts without checkpoints and with an empty queue, gets
    only tasks it does not know at that moment (neither queued nor in progress),
    and is not stopped, takes every task through to one fate. As long as the dead letter queue is not full, each task is, as often as
    it was reported, open (queued or in progress, at most once), completed (its
    result was submitted) or among the dead letters; and no oftener if no call of
    the checkpoint store fails. The counters tell how many tasks were reported and
    completed. *)
Theorem executor_loses_no_task d store es : default [] store = [] -> allowedRun cfg (newExecutor d store) es -> EStop ∉ es ->
  let s := run cfg (newExecutor d store) es in roomy s ->
  let seen := collect reported (newExecutor d store) es in
  let completed := collect submitted (newExecutor d store) es in
  let accounted pda := times pda (openTasks s) + times pda completed + times pda (deadTasks s) in
  NoDup (openTasks s) /\
  (forall pda, times pda seen <= accounted pda) /\
  ((forall id a, ESettle id a ∈ es -> storeFails a = false) -> forall pda, times pda seen = accounted pda) /\
  tasksDiscovered (ex_metrics s) = Z.of_nat (length seen) /\ tasksCompleted (ex_metrics s) = Z.of_nat (length completed).
Proof.
  intros Hst Ha Hns s Hr. set (exact := forall id a, ESettle id a ∈ es -> storeFails a = false).
  assert (Hl : ledger_inv exact (collect reported (newExecutor d store) es) (collect submitted (newExecutor d store) es) s).
  { apply (run_ledger exact es [] []); [apply exec_new_inv|done|done|done|]. split; [left; by split_and!|done|by intros p ?%elem_of_nil|done|done|].
    intros _ k. done. }
  split_and!; [|intros pda; apply (li_sum _ _ _ _ Hl Hr)|intros He pda; by apply (li_sum _ _ _ _ Hl Hr)|apply (li_discovered _ _ _ _ Hl)|apply (li_completed _ _ _ _ Hl)].
  apply openTasks_NoDup. by apply (ei_base cfg), (exec_run_inv cfg unbounded_capacity es _ (exec_new_inv cfg d store)).
Qed.
End ledger.

(** ** Runs of an executor *)

Module ExecutorDemo.
Definition cfg (concurrent buffer : Z) (retries : nat) : ExecutorConfig := {|
  ec_maxConcurrentTasks := concurrent; ec_taskTimeoutMs := 300000; ec_claimExpiryBufferMs := buffer; ec_retries := retries;
  ec_backpressure := {| highWaterMark := 100; lowWaterMark := 25; pauseDiscovery := true |}; ec_queueCapacity := None; ec_dlqMaxSize := 1000;
  ec_scorer := rewardAmount |}.

Definition task (pda : string) : TaskDiscoveryResult := {| t_pda := pda; t_task := DiscoveryDemo.open 0 |}.
Definition discovery : Discovery := newDiscovery mode_poll DiscoveryDemo.anything.
Definition fresh : Executor string string := newExecutor discovery (Some []).
Definition poll (pdas : list string) : ExecutorEvent string string := EDiscovery (DPollAnswer 0 (Some (map task pdas))).
Definition recovered0 : ExecutorEvent string string := ERecover 0 (Ok None) (Ok None).
Definition failed : ExecError := OperationError "failed" None.

(** Three tasks for two slots; the first is executed and submitted at the second
    attempt, and its slot goes to the third. *)
Definition events : list (ExecutorEvent string string) := [EStart; recovered0; poll ["a"; "b"; "c"];
  ESettle 0 (AClaim 1 (Ok "claim-a")); ESettle 0 (AStore 2 (Ok tt)); ESettle 0 (AResolve 3 (Ok tt)); ESettle 0 (AHandler 4 (Ok "result-a"));
  ESettle 0 (AStore 5 (Ok tt)); ESettle 0 (ASubmit 6 (Err failed)); ESettle 1 (AClaim 6 (Ok "claim-b")); ESettle 1 (AStore 6 (Ok tt))].
Definition settled_a : list (ExecutorEvent string string) := [ESettle 0 (AWake 7); ESettle 0 (ASubmit 8 (Ok tt)); ESettle 0 (AStore 9 (Ok tt))].


(** Nothing is assumed of the chain: a polled task whose claim fails, and a stop. *)
Lemma polling_runs_allowed_witness : allowedRun (cfg 1 0 0) (newExecutor discovery None)
  (EStart :: [recovered0; poll ["a"; "b"]; ESettle 0 (AClaim 0 (Err failed)); EDiscovery DPollTimer; poll ["a"; "b"; "c"]; EStop]).
Proof.
  assert (Hc : forall c, ec_queueCapacity (cfg 1 0 0) = Some c -> 1 <= c) by done.
  apply (polling_runs_allowed (cfg 1 0 0) Hc DiscoveryDemo.anything). repeat constructor.
Defined.

Lemma pipelines_terminate_witness :
  (answered (cfg 2 0 1) 0 fresh (events ++ settled_a) <= 17)%nat /\ answered (cfg 2 0 1) 0 fresh (events ++ settled_a) = 9%nat.
Proof.
  assert (Hc : forall c, ec_queueCapacity (cfg 2 0 1) = Some c -> 1 <= c) by done.
  assert (Ha : allowedRun (cfg 2 0 1) fresh (events ++ settled_a)) by (apply allowedRunb_sound; vm_compute; reflexivity).
  destruct (pipelines_terminate (cfg 2 0 1) Hc discovery (Some []) (events ++ settled_a) 0 Ha) as [H1 _]. split; [exact H1|by vm_compute].
Defined.

(** Two of four tasks are open, one was submitted, and the claim of one failed. *)
Definition claim_fails : list (ExecutorEvent string string) := [ESettle 2 (AClaim 10 (Err failed)); ESettle 2 (AWake 11); ESettle 2 (AClaim 12 (Err failed))].
Definition four : list (ExecutorEvent string string) := (events ++ settled_a ++ claim_fails ++ [EDiscovery DPollTimer; poll ["d"]])%list.

Lemma executor_loses_no_task_witness : let s := run (cfg 2 0 1) fresh four in
  (forall pda, times pda ["a"; "b"; "c"; "d"] = times pda ["b"; "d"] + times pda ["a"] + times pda ["c"]) /\
  openTasks s = ["b"; "d"] /\ collect (cfg 2 0 1) submitted fresh four = ["a"] /\ deadTasks s = ["c"] /\ tasksDiscovered (ex_metrics s) = 4.
Proof.
  assert (Hc : ec_queueCapacity (cfg 2 0 1) = None) by done.
  assert (Ha : allowedRun (cfg 2 0 1) fresh four) by (apply allowedRunb_sound; vm_compute; reflexivity).
  assert (Hall : Forall (fun e => match e with EStop => False | ESettle _ a => storeFails a = false | _ => True end) four) by repeat constructor.
  rewrite Forall_forall in Hall. destruct (executor_loses_no_task (cfg 2 0 1) Hc discovery (Some []) four eq_refl Ha) as (_ & _ & H1 & _).
  - intros Hin. exact (Hall _ Hin).
  - by vm_compute.
  - assert (E1 : collect (cfg 2 0 1) reported fresh four = ["a"; "b"; "c"; "d"]) by (vm_compute; reflexivity).
    assert (E2 : collect (cfg 2 0 1) submitted fresh four = ["a"]) by (vm_compute; reflexivity).
    assert (E3 : openTasks (run (cfg 2 0 1) fresh four) = ["b"; "d"]) by (vm_compute; reflexivity).
    assert (E4 : deadTasks (run (cfg 2 0 1) fresh four) = ["c"]) by (vm_compute; reflexivity).
    split_and!; [|exact E3|exact E2|exact E4|vm_compute; reflexivity]. intros pda.
    pose proof (H1 (fun id a Hin => Hall _ Hin) pda) as H2. unfold fresh in E1, E2, E3, E4. rewrite E1, E2, E3, E4 in H2. exact H2.
Defined.

Definition answers (cp : TaskCheckpoint string string) : Z * option Z * OnChainTask := (100, Some 200, DiscoveryDemo.open 0).

(** The executor dies while it waits to submit the result of the first task again
    and resolves the second one. *)
Lemma crash_recovery_witness : let m := default [] (ex_checkpoints (run (cfg 2 0 1) fresh events)) in
  let s' := run (cfg 2 0 1) (newExecutor discovery (Some m)) (EStart :: recoverAll answers (mvals m)) in
  progress s' = map (resumption (cfg 2 0 1)) (mvals m) /\ progress s' = [("a", Submitting 0 "result-a"); ("b", Resolving "claim-b")].
Proof.
  assert (Hc : forall c, ec_queueCapacity (cfg 2 0 1) = Some c -> 1 <= c) by done.
  assert (Ha : allowedRun (cfg 2 0 1) fresh events) by (apply allowedRunb_sound; vm_compute; reflexivity).
  assert (Hs : storeOk fresh). { intros m [= <-]. split; [constructor|done]. }
  set (s := run (cfg 2 0 1) fresh events).
  assert (Hu : forall cp, cp ∈ mvals (default [] (ex_checkpoints s)) -> unexpired (answers cp)). { intros cp _ e [= <-] _. by vm_compute. }
  assert (Hm : ex_checkpoints s = Some (default [] (ex_checkpoints s))) by (vm_compute; reflexivity).
  destruct (crash_recovery (cfg 2 0 1) Hc discovery (Some []) events answers discovery (default [] (ex_checkpoints s)) Hs Ha Hu Hm) as [Hr _].
  split; [exact Hr|]. vm_compute. reflexivity.
Defined.

(** *** Behaviours outside the assumptions, and surprising ones inside *)

Definition hybrid : Executor string string := newExecutor (newDiscovery mode_hybrid DiscoveryDemo.anything) None.

(** A task that an event and a poll report is launched twice under one key of the
    active map: three pipelines run in two slots. *)
Example duplicate_exceeds_limit :
  let s := run (cfg 2 0 1) hybrid [EStart; recovered0; EDiscovery (DTaskCreated "a"); poll ["a"]; EDiscovery (DFetchAnswer 0 "a" (Some (DiscoveryDemo.open 0)));
    EDiscovery DPollTimer; poll ["b"]] in
  map pdaOf (ex_pipelines s) = ["a"; "a"; "b"] /\ activeCount s = 2.
Proof. by vm_compute. Qed.

Definition claimed (pda : string) : TaskCheckpoint string string := {| cp_taskPda := pda; cp_stage := cp_claimed; cp_claimResult := Some "claim"; cp_executionResult := None;
  cp_trusted := false; cp_createdAt := 0; cp_updatedAt := 0 |}.
Definition restarted (pdas : list string) : Executor string string := newExecutor discovery (Some (map (fun pda => (pda, claimed pda)) pdas)).
Definition recovers : ExecutorEvent string string := ERecover 100 (Ok (Some 200)) (Ok (Some (DiscoveryDemo.open 0))).

(** Recovery launches every checkpoint at once, whatever the limit. *)
Example recovery_ignores_limit : activeCount (run (cfg 1 0 1) (restarted ["a"; "b"; "c"]) [EStart; recovers; recovers; recovers]) = 3.
Proof. by vm_compute. Qed.

(** A recovered task whose claim is about to expire is counted and dead-lettered
    twice. *)
Example recovered_expiry_counted_twice :
  let s := run (cfg 1 30000 1) (restarted ["a"]) [EStart; recovers; ESettle 0 (AExpiry 199000 (Ok (Some 200))); ESettle 0 (AExpiry 199000 (Ok (Some 200)))] in
  claimsExpired (ex_metrics s) = 2 /\ length (ex_dlq s) = 2%nat.
Proof. by vm_compute. Qed.

(** The claim of a recovered task expires during the execution: no counter, no
    dead letter, and the checkpoint is removed. *)
Example recovered_expiry_silent :
  let s := run (cfg 1 30000 1) (restarted ["a"]) [EStart; recovers; ESettle 0 (AExpiry 100000 (Ok (Some 200))); ESettle 0 (AResolve 100000 (Ok tt)); EDeadline 0;
    ESettle 0 (AHandler 170000 (Err failed)); ESettle 0 (AStore 170000 (Ok tt))] in
  ex_metrics s = noMetrics /\ ex_dlq s = [] /\ ex_checkpoints s = Some [] /\ ex_pipelines s = [].
Proof. by vm_compute. Qed.

(** A graceful stop removes the checkpoint of a recovered task, and keeps that of
    a task of this run. *)
Example stop_removes_recovered_checkpoint :
  let aborted := [ESettle 0 (AResolve 0 (Ok tt)); EStop; ESettle 0 (AHandler 0 (Err failed)); ESettle 0 (AStore 0 (Ok tt)); EStopped] in
  mkeys (default [] (ex_checkpoints (run (cfg 1 0 1) (restarted ["a"]) (EStart :: recovers :: aborted)))) = [] /\
  mkeys (default [] (ex_checkpoints (run (cfg 1 0 1) fresh
    ([EStart; recovered0; poll ["a"]; ESettle 0 (AClaim 0 (Ok "claim")); ESettle 0 (AStore 0 (Ok tt))] ++ aborted)%list))) = ["a"].
Proof. by vm_compute. Qed.

(** A failed removal of the checkpoint dead-letters a task that was completed. *)
Example completed_task_dead_lettered :
  let s := run (cfg 1 0 1) (restarted ["a"]) [EStart; recovers; ESettle 0 (AResolve 0 (Ok tt)); ESettle 0 (AHandler 0 (Ok "result")); ESettle 0 (AStore 0 (Ok tt));
    ESettle 0 (ASubmit 0 (Ok tt)); ESettle 0 (AStore 0 (Err failed))] in
  tasksCompleted (ex_metrics s) = 1 /\ map DeadLetterQueue.taskPda (ex_dlq s) = ["a"].
Proof. by vm_compute. Qed.

(** A request that fails during the recovery removes the checkpoint. *)
Example recovery_error_drops_checkpoint :
  ex_checkpoints (run (cfg 1 0 1) (restarted ["a"]) [EStart; ERecover 100 (Err failed) (Ok None)]) = Some [].
Proof. by vm_compute. Qed.

(** A stop while the checkpoints are being recovered does not keep the discovery
    from starting: the stopped executor goes on taking tasks. *)
Example stopped_executor_takes_tasks :
  let s := run (cfg 1 0 1) fresh [EStart; EStop; EStopped; recovered0; poll ["a"]] in
  ex_running s = false /\ d_running (ex_discovery s) = true /\ map pdaOf (ex_pipelines s) = ["a"].
Proof. by vm_compute. Qed.

(** The discovery of an executor is started without capabilities: a task that
    requires one is never offered. *)
Example required_capability_never_offered :
  let s := run (cfg 1 0 1) fresh [EStart; recovered0; EDiscovery (DPollAnswer 0 (Some [{| t_pda := "a"; t_task := DiscoveryDemo.open 1 |}]))] in
  tasksDiscovered (ex_metrics s) = 0.
Proof. by vm_compute. Qed.
End ExecutorDemo.
