(* ===== verification/Kernel.v ===== *)
(** * Execution kernel (src/runtime/src/workflow/execution-kernel.ts)

    [CanonicalExecutionKernel] runs a graph of planner steps: it orders them,
    starts steps whose dependencies are satisfied, up to a limit and exclusive
    steps alone, and blocks the steps behind an unsatisfied one. The planner
    delegate is a parameter; the outcome of a started step is an event. A graph
    without planner steps goes to the deterministic executor, whose result is an
    argument. Of the emitted events the name, the previous state and the state of
    a step are kept; the wait for aborted steps is left out. *)
From stdpp Require Import pretty.
From S2P Require Import Prelude JsMap JsString.
#[local] Open Scope string_scope.

(** ** Data *)

Inductive StopReasonHint := validation_error | provider_error | authentication_error | rate_limited | hint_timeout | tool_error | budget_exceeded
| no_progress | cancelled.

Inductive StepState := queued | ready | running_step | blocked_on_approval | blocked_on_dependency | retry_pending | step_completed | step_failed
| resumed | step_compensated.

Record DependencyState := { ds_satisfied : bool; ds_reason : option string; ds_hint : option StopReasonHint }.

Record FallbackResolution := { fb_satisfied : bool; fb_result : string; fb_reason : string; fb_hint : option StopReasonHint }.

Inductive NodeOutcome :=
| OCompleted (result : string)
| OFailed (error : string) (hint : option StopReasonHint) (decomposition : option string) (result : option string) (fallback : option FallbackResolution)
| OHalted (error : option string) (hint : option StopReasonHint).

Inductive PipelineStatus := pipeline_running | pipeline_completed | pipeline_failed | pipeline_halted.
Inductive CompletionState := state_completed | state_partial | state_blocked | needs_verification.

Record PipelineResult := {
  pr_status : PipelineStatus;
  pr_completionState : CompletionState;
  pr_results : jsmap string;
  pr_completedSteps : nat;
  pr_totalSteps : nat;
  pr_resumeFrom : option nat;
  pr_error : option string;
  pr_decomposition : option string;
  pr_hint : option StopReasonHint;
}.

Definition resolvePipelineCompletionState (status : PipelineStatus) (completedSteps : nat) : CompletionState :=
  match status with
  | pipeline_completed => state_completed
  | pipeline_halted => state_blocked
  | _ => if (0 <? completedSteps)%nat then state_partial else state_blocked
  end.

Record WorkflowGraphEdge := { ge_from : string; ge_to : string }.

(** A text in double quotes. *)
Definition dq (s : string) : string := String (Ascii.ascii_of_nat 34) (s +:+ String (Ascii.ascii_of_nat 34) "").

Section kernel.
Context {P : Type}.

Record PlannerStep := { ps_name : string; ps_dependsOn : option (list string); ps_payload : P }.

Record RuntimeNode := { n_step : PlannerStep; n_dependencies : list string; n_index : nat }.

Definition nodeName (n : RuntimeNode) : string := ps_name (n_step n).

(** The planner delegate, without its trace callbacks. *)
Record Delegate := {
  assessDependencySatisfaction : PlannerStep -> string -> DependencyState;
  isExclusiveNode : PlannerStep -> bool;
  resolveMaxParallelism : option Z;
  validatePipeline : option string;
}.

(** ** The graph *)

Fixpoint duplicateStep (seen : list string) (steps : list PlannerStep) : option string :=
  match steps with
  | [] => None
  | s :: rest => if has seen (ps_name s) then Some (ps_name s) else duplicateStep (seen ++ [ps_name s])%list rest
  end.

Definition addDependency (steps : list PlannerStep) (m : jsmap (list string)) (e : WorkflowGraphEdge) : jsmap (list string) :=
  let known x := existsb (fun s => String.eqb (ps_name s) x) steps in
  if known (ge_from e) && known (ge_to e) then
    match mget m (ge_to e) with Some deps => mset (ge_to e) (set_add deps (ge_from e)) m | None => m end
  else m.

Definition dependencyMap (steps : list PlannerStep) (edges : list WorkflowGraphEdge) : jsmap (list string) :=
  foldl (addDependency steps) (foldl (fun m s => mset (ps_name s) (foldl set_add [] (default [] (ps_dependsOn s))) m) [] steps) edges.

(** The first dependency that is no step, with the step that has it. *)
Fixpoint unknownDependency (names : list string) (m : jsmap (list string)) : option (string * string) :=
  match m with
  | [] => None
  | (name, deps) :: rest =>
      match List.find (fun d => negb (has names d)) deps with Some d => Some (name, d) | None => unknownDependency names rest end
  end.

Record Visit := { v_temporary : list string; v_permanent : list string; v_order : list string }.

Fixpoint visitAll (visit : string -> Visit -> option (bool * Visit)) (deps : list string) (v : Visit) : option (bool * Visit) :=
  match deps with
  | [] => Some (true, v)
  | d :: rest => match visit d v with Some (true, v) => visitAll visit rest v | r => r end
  end.

(** [None] when the fuel runs out. *)
Fixpoint visit (fuel : nat) (m : jsmap (list string)) (name : string) (v : Visit) : option (bool * Visit) :=
  match fuel with
  | O => None
  | S fuel =>
      if has (v_permanent v) name then Some (true, v)
      else if has (v_temporary v) name then Some (false, v)
      else
        let v := {| v_temporary := (v_temporary v ++ [name])%list; v_permanent := v_permanent v; v_order := v_order v |} in
        match visitAll (visit fuel m) (default [] (mget m name)) v with
        | Some (true, v) =>
            Some (true, {| v_temporary := List.filter (fun x => negb (String.eqb x name)) (v_temporary v); v_permanent := (v_permanent v ++ [name])%list;
                           v_order := (v_order v ++ [name])%list |})
        | r => r
        end
  end.

Fixpoint visitSteps (fuel : nat) (m : jsmap (list string)) (names : list string) (v : Visit) : result string (list string) :=
  match names with
  | [] => Ok (v_order v)
  | n :: rest =>
      match visit fuel m n v with
      | Some (true, v) => visitSteps fuel m rest v
      | _ => Err ("Planner DAG contains a cycle involving " +:+ dq n)
      end
  end.

Fixpoint nodesOf (steps : list PlannerStep) (m : jsmap (list string)) (i : nat) (order : list string) : list RuntimeNode :=
  match order with
  | [] => []
  | n :: rest =>
      match List.find (fun s => String.eqb (ps_name s) n) steps with
      | Some s => {| n_step := s; n_dependencies := default [] (mget m n); n_index := i |} :: nodesOf steps m (S i) rest
      | None => nodesOf steps m (S i) rest
      end
  end.

(** A depth-first search nests at most once per step, and looks at one more. *)
Definition materializeDag (steps : list PlannerStep) (edges : list WorkflowGraphEdge) : result string (list RuntimeNode) :=
  match duplicateStep [] steps with
  | Some n => Err ("Planner DAG has duplicate step name " +:+ dq n)
  | None =>
      let m := dependencyMap steps edges in
      let names := map ps_name steps in
      match unknownDependency names m with
      | Some (n, d) => Err ("Planner DAG step " +:+ dq n +:+ " depends on unknown step " +:+ dq d)
      | None =>
          order ← visitSteps (S (length steps)) m names {| v_temporary := []; v_permanent := []; v_order := [] |};
          Ok (nodesOf steps m 0 order)
      end
  end.

(** ** Scheduling *)

Record KState := {
  k_pending : list string;
  k_satisfied : list string;
  k_unsatisfied : jsmap DependencyState;
  k_blocked : list string;
  k_results : jsmap string;
  k_running : list (string * bool);
  k_nodeState : jsmap StepState;
  k_completed : nat;
  k_log : list (string * option StepState * StepState);
}.

Definition emit (name : string) (state : StepState) (k : KState) : KState := {|
  k_pending := k_pending k; k_satisfied := k_satisfied k; k_unsatisfied := k_unsatisfied k; k_blocked := k_blocked k; k_results := k_results k;
  k_running := k_running k; k_nodeState := mset name state (k_nodeState k); k_completed := k_completed k;
  k_log := (k_log k ++ [(name, mget (k_nodeState k) name, state)])%list |}.

Definition with_results (r : jsmap string) (k : KState) : KState := {|
  k_pending := k_pending k; k_satisfied := k_satisfied k; k_unsatisfied := k_unsatisfied k; k_blocked := k_blocked k; k_results := r;
  k_running := k_running k; k_nodeState := k_nodeState k; k_completed := k_completed k; k_log := k_log k |}.

Definition with_running (pending : list string) (r : list (string * bool)) (k : KState) : KState := {|
  k_pending := pending; k_satisfied := k_satisfied k; k_unsatisfied := k_unsatisfied k; k_blocked := k_blocked k; k_results := k_results k;
  k_running := r; k_nodeState := k_nodeState k; k_completed := k_completed k; k_log := k_log k |}.

Definition with_dependencies (satisfied : list string) (unsatisfied : jsmap DependencyState) (blocked : list string) (completed : nat) (k : KState) : KState := {|
  k_pending := k_pending k; k_satisfied := satisfied; k_unsatisfied := unsatisfied; k_blocked := blocked; k_results := k_results k;
  k_running := k_running k; k_nodeState := k_nodeState k; k_completed := completed; k_log := k_log k |}.

Definition remove (x : string) (l : list string) : list string := List.filter (fun y => negb (String.eqb y x)) l.

Definition dependenciesSatisfied (n : RuntimeNode) (k : KState) : bool := forallb (has (k_satisfied k)) (n_dependencies n).

Record BlockedDependency := { bd_stepName : string; bd_reason : string; bd_hint : StopReasonHint }.

Definition collectBlockedDependencies (n : RuntimeNode) (k : KState) : list BlockedDependency :=
  flat_map (fun d =>
    match mget (k_unsatisfied k) d with
    | Some st =>
        if ds_satisfied st then []
        else [{| bd_stepName := d; bd_reason := default ("Dependency " +:+ dq d +:+ " finished without satisfying its contract") (ds_reason st);
                 bd_hint := default validation_error (ds_hint st) |}]
    | None => []
    end) (n_dependencies n).

Definition buildDependencyBlockedError (name : string) (l : list BlockedDependency) : string :=
  "Step " +:+ dq name +:+ " blocked by unsatisfied dependencies: " +:+ pretty (Z.of_nat (length l)).
Definition buildDependencyBlockedResult (name : string) : string := "Step " +:+ dq name +:+ " blocked by unsatisfied dependencies".

Definition blockNode (n : RuntimeNode) (l : list BlockedDependency) (k : KState) : KState :=
  let name := nodeName n in
  let hint := match l with b :: _ => bd_hint b | [] => validation_error end in
  let k := with_running (remove name (k_pending k)) (k_running k) k in
  let k := with_results (mset name (buildDependencyBlockedResult name) (k_results k)) k in
  emit name blocked_on_dependency
    (with_dependencies (k_satisfied k) (mset name {| ds_satisfied := false; ds_reason := Some (buildDependencyBlockedError name l); ds_hint := Some hint |} (k_unsatisfied k))
      (k_blocked k ++ [name])%list (k_completed k) k).

Definition startNode (n : RuntimeNode) (exclusive : bool) (k : KState) : KState :=
  let name := nodeName n in
  let k := emit name running_step (emit name ready k) in
  with_running (remove name (k_pending k)) (k_running k ++ [(name, exclusive)])%list k.

Section delegate.
Context (dg : Delegate) (nodes : list RuntimeNode) (total : nat).

Definition maxParallel : Z := (Z.max 1 (default 1 (resolveMaxParallelism dg)))%Z.

Definition findNode (name : string) : option RuntimeNode := List.find (fun n => String.eqb (nodeName n) name) nodes.

(** The loop over the execution order. *)
Fixpoint schedule (exclusiveRunning : bool) (order : list RuntimeNode) (k : KState) : KState :=
  match order with
  | [] => k
  | n :: rest =>
      if negb (has (k_pending k) (nodeName n)) then schedule exclusiveRunning rest k
      else if (maxParallel <=? Z.of_nat (length (k_running k)))%Z then k
      else
        match collectBlockedDependencies n k with
        | (_ :: _) as l => schedule exclusiveRunning rest (blockNode n l k)
        | [] =>
            if negb (dependenciesSatisfied n k) then schedule exclusiveRunning rest k
            else
              let exclusive := isExclusiveNode dg (n_step n) in
              if exclusiveRunning then k
              else if exclusive && (0 <? length (k_running k))%nat then schedule exclusiveRunning rest k
              else if exclusive then startNode n exclusive k
              else schedule exclusiveRunning rest (startNode n exclusive k)
        end
  end.

Definition failedResult (error : option string) (hint : option StopReasonHint) (decomposition : option string) (k : KState) : PipelineResult := {|
  pr_status := pipeline_failed; pr_completionState := resolvePipelineCompletionState pipeline_failed (k_completed k); pr_results := k_results k;
  pr_completedSteps := k_completed k; pr_totalSteps := total; pr_resumeFrom := None; pr_error := error; pr_decomposition := decomposition; pr_hint := hint |}.

Definition noRunnable : string := "Planner DAG has no runnable nodes; dependency graph may be invalid".

(** After the loop. *)
Definition finalResult (k : KState) : PipelineResult :=
  match k_blocked k with
  | [] => {| pr_status := pipeline_completed; pr_completionState := state_completed; pr_results := k_results k; pr_completedSteps := k_completed k;
             pr_totalSteps := total; pr_resumeFrom := None; pr_error := None; pr_decomposition := None; pr_hint := None |}
  | first :: others =>
      let assessment := mget (k_unsatisfied k) first in
      let error :=
        match others with
        | [] => default ("Planner step " +:+ dq first +:+ " was blocked by an unmet dependency") (assessment ≫= ds_reason)
        | _ => "Planner DAG blocked " +:+ pretty (Z.of_nat (length (k_blocked k))) +:+ " step(s) after unmet dependency contracts: " +:+ String.concat ", " (k_blocked k)
        end in
      failedResult (Some error) (Some (default validation_error (assessment ≫= ds_hint))) None k
  end.

Inductive KPhase := Waiting (k : KState) | Done (r : PipelineResult) | Thrown (error : string).

(** One iteration of the loop, up to the race. *)
Definition advance (k : KState) : KPhase :=
  let k := schedule (existsb snd (k_running k)) nodes k in
  match k_running k with
  | [] => match k_pending k with [] => Done (finalResult k) | _ => Done (failedResult (Some noRunnable) (Some validation_error) None k) end
  | _ => Waiting k
  end.

(** A result is assessed. *)
Definition assess (n : RuntimeNode) (result : string) (k : KState) : KState :=
  let name := nodeName n in
  let k := with_results (mset name result (k_results k)) k in
  let st := assessDependencySatisfaction dg (n_step n) result in
  let k :=
    if ds_satisfied st then emit name step_completed (with_dependencies (set_add (k_satisfied k) name) (k_unsatisfied k) (k_blocked k) (k_completed k) k)
    else emit name step_failed (with_dependencies (k_satisfied k) (mset name st (k_unsatisfied k)) (k_blocked k) (k_completed k) k) in
  with_dependencies (k_satisfied k) (k_unsatisfied k) (k_blocked k) (S (k_completed k)) k.

Definition settleNode (name : string) (o : NodeOutcome) (k : KState) : KPhase :=
  let k := with_running (k_pending k) (List.filter (fun x => negb (String.eqb x.1 name)) (k_running k)) k in
  match findNode name with
  | None => Done (failedResult (Some ("Unknown node " +:+ dq name +:+ " completed")) (Some validation_error) None k)
  | Some n =>
      match o with
      | OCompleted r => advance (assess n r k)
      | OHalted error hint =>
          let k := emit name blocked_on_approval k in
          Done {| pr_status := pipeline_halted; pr_completionState := resolvePipelineCompletionState pipeline_halted (k_completed k);
                  pr_results := k_results k; pr_completedSteps := k_completed k; pr_totalSteps := total; pr_resumeFrom := Some (n_index n);
                  pr_error := error; pr_decomposition := None; pr_hint := hint |}
      | OFailed error hint decomposition r fallback =>
          let failed :=
            let k := match r with Some r => with_results (mset name r (k_results k)) k | None => k end in
            Done (failedResult (Some error) hint decomposition (emit name step_failed k)) in
          match fallback with
          | Some fb => if fb_satisfied fb then advance (assess n (fb_result fb) k) else failed
          | None => failed
          end
      end
  end.

(** A started step settles, or its promise is rejected. *)
Inductive KEvent := Settled (name : string) (o : NodeOutcome) | Rejected (name : string) (error : string).

Definition kstep (ph : KPhase) (e : KEvent) : KPhase :=
  match ph, e with
  | Waiting k, Settled name o => if has (map fst (k_running k)) name then settleNode name o k else ph
  | Waiting k, Rejected name error => if has (map fst (k_running k)) name then Thrown error else ph
  | _, _ => ph
  end.

Definition initialState (results : jsmap string) : KState :=
  foldl (fun k n => emit (nodeName n) queued k)
    {| k_pending := map nodeName nodes; k_satisfied := []; k_unsatisfied := []; k_blocked := []; k_results := results; k_running := [];
       k_nodeState := []; k_completed := 0; k_log := [] |} nodes.
End delegate.

Definition rejectedPipeline (steps : list PlannerStep) (results : jsmap string) (error : string) : PipelineResult := {|
  pr_status := pipeline_failed; pr_completionState := state_blocked; pr_results := results; pr_completedSteps := 0; pr_totalSteps := length steps;
  pr_resumeFrom := None; pr_error := Some error; pr_decomposition := None; pr_hint := Some validation_error |}.

(** [execute], up to the first race; [deterministic]: the result without planner steps. *)
Definition execute (dg : Delegate) (deterministic : PipelineResult) (steps : list PlannerStep) (edges : list WorkflowGraphEdge) (results : jsmap string)
    (startFrom : Z) : KPhase :=
  match steps with
  | [] => Done deterministic
  | _ =>
      if (0 <? startFrom)%Z then Done (rejectedPipeline steps results "Execution kernel does not support DAG resume offsets yet (startFrom > 0)")
      else
        match validatePipeline dg with
        | Some (String _ _ as e) => Done (rejectedPipeline steps results e)
        | _ =>
            match materializeDag steps edges with
            | Err e => Done (rejectedPipeline steps results e)
            | Ok nodes => advance dg nodes (length steps) (initialState nodes results)
            end
        end
  end.
End kernel.
Arguments PlannerStep : clear implicits.
Arguments RuntimeNode : clear implicits.
Arguments Delegate : clear implicits.

(** A run of the kernel: the events that the started steps cause. *)
Definition runKernel {P} (dg : Delegate P) (deterministic : PipelineResult) (steps : list (PlannerStep P)) (edges : list WorkflowGraphEdge)
    (results : jsmap string) (startFrom : Z) (es : list KEvent) : KPhase :=
  match materializeDag steps edges with
  | Ok nodes => foldl (kstep dg nodes (length steps)) (execute dg deterministic steps edges results startFrom) es
  | Err _ => execute dg deterministic steps edges results startFrom
  end.
