(* ===== verification/KernelSchedule.v ===== *)
(** * Execution kernel: the order of the steps, and their schedule *)
From stdpp Require Import pretty.
From S2P Require Import Prelude JsMap JsString Graph Kernel.
#[local] Open Scope string_scope.

Section dag.
Context {P : Type}.
Implicit Types (steps : list (PlannerStep P)) (edges : list WorkflowGraphEdge) (m : jsmap (list string)).

(** ** Dependencies *)

(** What the steps and the edges say. *)
Definition depends steps edges (n d : string) : Prop :=
  (exists s, s ∈ steps /\ ps_name s = n /\ d ∈ default [] (ps_dependsOn s)) \/
  (exists e, e ∈ edges /\ ge_to e = n /\ ge_from e = d /\ n ∈ map ps_name steps /\ d ∈ map ps_name steps).

Definition wellFormed steps edges : Prop :=
  NoDup (map ps_name steps) /\ (forall n d, depends steps edges n d -> d ∈ map ps_name steps) /\ forall x, ~ tc (depends steps edges) x x.

Definition deps m (n : string) : list string := default [] (mget m n).

Lemma base_deps steps : NoDup (map ps_name steps) -> forall m n d, (forall s, s ∈ steps -> ps_name s ∉ mkeys m) ->
  let m' := foldl (fun m s => mset (ps_name s) (foldl set_add [] (default [] (ps_dependsOn s))) m) m steps in
  (d ∈ deps m' n <-> d ∈ deps m n \/ exists s, s ∈ steps /\ ps_name s = n /\ d ∈ default [] (ps_dependsOn s)) /\
  (n ∈ mkeys m' <-> n ∈ mkeys m \/ n ∈ map ps_name steps).
Proof.
  induction steps as [|s steps IH]; intros Hn m n d Hf; cbn.
  { split; [|by rewrite elem_of_nil; tauto]. split; [by left|intros [?|(s & Hs & _)]; [done|by apply elem_of_nil in Hs]]. }
  cbn in Hn. apply NoDup_cons in Hn as [Hs Hn]. destruct (IH Hn (mset (ps_name s) (foldl set_add [] (default [] (ps_dependsOn s))) m) n d) as [I1 I2].
  { intros x Hx. rewrite elem_mkeys_mset. intros [He|Hk]; [|by apply (Hf x); [right|]]. apply Hs. rewrite <- He. by apply list_elem_of_fmap_2. }
  split; [|rewrite I2, elem_mkeys_mset, elem_of_cons; tauto]. rewrite I1. unfold deps. rewrite mget_mset. destruct (String.eqb_spec n (ps_name s)) as [->|Hne].
  - cbn. rewrite elem_foldl_set_add, elem_of_nil. assert (Hm : mget m (ps_name s) = None) by (apply mget_None_keys, Hf; by left). rewrite Hm. cbn. rewrite elem_of_nil.
    split; [|intros [[]|(x & [-> |Hx]%elem_of_cons & He & Hd)]; [by left; right|right; eauto]].
    intros [[[]|Hd]|(x & Hx & He & Hd)]; right; [exists s|exists x]; rewrite elem_of_cons; auto.
  - split; (intros [?|(x & Hx & He & Hd)]; [by left|right]); exists x; [rewrite elem_of_cons; auto|]. apply elem_of_cons in Hx as [-> |Hx]; [done|auto].
Qed.

Lemma edge_deps steps edges : forall m n d, (forall k, k ∈ mkeys m <-> k ∈ map ps_name steps) ->
  let m' := foldl (addDependency steps) m edges in
  (d ∈ deps m' n <-> d ∈ deps m n \/ exists e, e ∈ edges /\ ge_to e = n /\ ge_from e = d /\ n ∈ map ps_name steps /\ d ∈ map ps_name steps) /\
  (n ∈ mkeys m' <-> n ∈ mkeys m).
Proof.
  induction edges as [|e edges IH]; intros m n d Hk; cbn.
  { split; [|done]. split; [by left|intros [?|(s & Hs & _)]; [done|by apply elem_of_nil in Hs]]. }
  assert (Hkn : forall x, existsb (fun s => String.eqb (ps_name s) x) steps = true <-> x ∈ map ps_name steps).
  { intros x. rewrite existsb_exists, list_elem_of_fmap. setoid_rewrite String.eqb_eq. setoid_rewrite <- list_elem_of_In. naive_solver. }
  assert (Hm : exists m1, addDependency steps m e = m1 /\ (forall k, k ∈ mkeys m1 <-> k ∈ mkeys m) /\
    forall n d, d ∈ deps m1 n <-> d ∈ deps m n \/ (ge_to e = n /\ ge_from e = d /\ n ∈ map ps_name steps /\ d ∈ map ps_name steps)).
  { eexists. split; [reflexivity|]. unfold addDependency. destruct (existsb _ _ && existsb _ _) eqn:Hb.
    - apply andb_true_iff in Hb as [Hf Ht]. apply Hkn in Hf, Ht. assert (Hin : ge_to e ∈ mkeys m) by by apply Hk. apply mget_is_Some_keys in Hin as [ds Hds].
      rewrite Hds. split; [intros k; rewrite elem_mkeys_mset; split; [intros [-> |?]; [apply mget_is_Some_keys; by eexists|done]|by right]|].
      intros n' d'. unfold deps. rewrite mget_mset. destruct (String.eqb_spec n' (ge_to e)) as [->|Hne]; [|naive_solver]. cbn. rewrite elem_set_add, Hds. cbn. naive_solver.
    - split; [done|]. intros n' d'. split; [by left|]. intros [?|(<- & <- & H1 & H2)]; [done|]. apply Hkn in H1, H2. by rewrite H1, H2 in Hb. }
  destruct Hm as (m1 & -> & Hk1 & Hd1). destruct (IH m1 n d) as [I1 I2]; [intros k; by rewrite Hk1|]. split; [|by rewrite I2, Hk1].
  rewrite I1, Hd1. setoid_rewrite elem_of_cons. naive_solver.
Qed.

Lemma dependencyMap_spec steps edges n d : NoDup (map ps_name steps) ->
  (d ∈ deps (dependencyMap steps edges) n <-> depends steps edges n d) /\ (n ∈ mkeys (dependencyMap steps edges) <-> n ∈ map ps_name steps).
Proof.
  intros Hn. unfold dependencyMap. set (m0 := foldl _ [] steps).
  assert (Hb : forall n d, (d ∈ deps m0 n <-> exists s, s ∈ steps /\ ps_name s = n /\ d ∈ default [] (ps_dependsOn s)) /\ (n ∈ mkeys m0 <-> n ∈ map ps_name steps)).
  { intros n' d'. destruct (base_deps steps Hn [] n' d') as [B1 B2]; [by intros s _ ?%elem_of_nil|]. unfold m0. rewrite B1, B2. unfold deps. cbn. rewrite !elem_of_nil. tauto. }
  destruct (edge_deps steps edges m0 n d) as [E1 E2]; [intros k; apply (Hb k "")|]. rewrite E1, E2. destruct (Hb n d) as [-> ->]. done.
Qed.

Lemma duplicateStep_spec steps : forall seen, NoDup seen -> (duplicateStep seen steps = None <-> NoDup (seen ++ map ps_name steps)%list).
Proof.
  induction steps as [|s steps IH]; intros seen Hn; cbn; [by rewrite app_nil_r|]. destruct (has seen (ps_name s)) eqn:Hs.
  - split; [done|]. intros (_ & Hd & _)%NoDup_app. apply has_true in Hs. exfalso. apply (Hd _ Hs). by left.
  - apply has_false in Hs. rewrite IH; [by rewrite <- app_assoc|]. apply NoDup_app. split_and!; [done| |apply NoDup_singleton]. by intros x Hx ->%list_elem_of_singleton.
Qed.

Lemma unknownDependency_spec names m : NoDup (mkeys m) -> (unknownDependency names m = None <-> forall n d, d ∈ deps m n -> d ∈ names).
Proof.
  unfold deps. induction m as [|[k ds] m IH]; cbn; [intros _; split; [intros _ n d Hd; by apply elem_of_nil in Hd|done]|]. intros [Hk Hn]%NoDup_cons.
  destruct (find _ ds) as [d|] eqn:Hf.
  - split; [done|]. intros Hall. apply find_some in Hf as [Hd Hb]. apply list_elem_of_In in Hd. apply negb_true_iff, has_false in Hb. destruct Hb. apply (Hall k d).
    by rewrite String.eqb_refl.
  - rewrite (IH Hn). split; intros Hall n d Hd.
    + destruct (String.eqb_spec n k) as [->|]; [|by eapply Hall]. cbn in Hd. apply list_elem_of_In in Hd. pose proof (find_none _ _ Hf d Hd) as Hx. cbn in Hx.
      by apply negb_false_iff, has_true in Hx.
    + apply (Hall n d). destruct (String.eqb_spec n k) as [->|]; [|done]. exfalso. apply Hk. apply mget_is_Some_keys. destruct (mget m k); [by eexists|by apply elem_of_nil in Hd].
Qed.

(** ** The depth-first search *)

Lemma filter_imp_length {A} (f g : A -> bool) l : (forall x, f x = true -> g x = true) -> (length (List.filter f l) <= length (List.filter g l))%nat.
Proof. intros Hfg. induction l as [|x l IH]; cbn; [done|]. specialize (Hfg x). destruct (f x), (g x); cbn; try lia; by discriminate Hfg. Qed.

Section search.
Context (m : jsmap (list string)) (names : list string).
Hypothesis closed : forall n d, d ∈ deps m n -> d ∈ names.

Notation needs := (fun n d => d ∈ deps m n).

(** Every node stands behind its dependencies. *)
Definition ordered (l : list string) : Prop := forall l1 n l2, l = (l1 ++ n :: l2)%list -> forall d, d ∈ deps m n -> d ∈ l1.

Record visit_ok (v : Visit) : Prop := {
  vo_permanent : v_permanent v = v_order v;
  vo_NoDup : NoDup (v_order v);
  vo_ordered : ordered (v_order v);
  vo_apart : forall x, x ∈ v_temporary v -> x ∉ v_order v;
  vo_names : forall x, x ∈ v_order v -> x ∈ names;
}.

(** The nodes that were not reached yet. *)
Definition fresh (v : Visit) : list string := List.filter (fun x => negb (has (v_temporary v) x) && negb (has (v_order v) x)) names.

Lemma fresh_mono v v' : (forall x, x ∈ v_temporary v -> x ∈ v_temporary v' \/ x ∈ v_order v') -> (forall x, x ∈ v_order v -> x ∈ v_order v') ->
  (length (fresh v') <= length (fresh v))%nat.
Proof.
  intros H1 H2. apply filter_imp_length. intros x. rewrite !andb_true_iff, !negb_true_iff, !has_false. intros [Ha Hb].
  split; intros Hx; [destruct (H1 x Hx)|apply Hb, H2]; done.
Qed.

Lemma fresh_visit v n p : n ∈ names -> n ∉ v_temporary v -> n ∉ v_order v ->
  (length (fresh {| v_temporary := v_temporary v ++ [n]; v_permanent := p; v_order := v_order v |}) < length (fresh v))%nat.
Proof.
  intros Hn Ht Ho. apply list_elem_of_split in Hn as (l1 & l2 & Hl). unfold fresh. rewrite Hl. cbn [v_temporary v_order]. rewrite !List.filter_app, !length_app. cbn [List.filter].
  assert (E1 : has (v_temporary v ++ [n]) n = true) by (apply has_true, elem_of_app; right; by left).
  rewrite E1, (proj2 (has_false _ _) Ht), (proj2 (has_false _ _) Ho). cbn [negb andb length].
  assert (Hle : forall l, (length (List.filter (fun x => negb (has (v_temporary v ++ [n]) x) && negb (has (v_order v) x)) l) <=
    length (List.filter (fun x => negb (has (v_temporary v) x) && negb (has (v_order v) x)) l))%nat).
  { intros l. apply filter_imp_length. intros x. rewrite !andb_true_iff, !negb_true_iff, !has_false, elem_of_app. tauto. }
  pose proof (Hle l1). pose proof (Hle l2). lia.
Qed.

(** What one call may return. *)
Definition visited (n : string) (v : Visit) (r : option (bool * Visit)) : Prop :=
  match r with
  | None => False
  | Some (false, _) => exists x, tc needs x x
  | Some (true, v') => visit_ok v' /\ v_temporary v' = v_temporary v /\ (exists ext, v_order v' = (v_order v ++ ext)%list) /\ n ∈ v_order v'
  end.

Lemma visitAll_spec (f : string -> Visit -> option (bool * Visit)) bound u ds : (forall d v, d ∈ ds -> visit_ok v -> (length (fresh v) < bound)%nat ->
    (forall t, t ∈ v_temporary v -> tc needs t d) -> visited d v (f d v)) ->
  (forall d, d ∈ ds -> d ∈ deps m u) -> forall v, visit_ok v -> (length (fresh v) < bound)%nat -> (forall t, t ∈ v_temporary v -> t = u \/ tc needs t u) ->
  match visitAll f ds v with
  | None => False
  | Some (false, _) => exists x, tc needs x x
  | Some (true, v') => visit_ok v' /\ v_temporary v' = v_temporary v /\ (exists ext, v_order v' = (v_order v ++ ext)%list) /\ forall d, d ∈ ds -> d ∈ v_order v'
  end.
Proof.
  induction ds as [|d ds IH]; intros Hf Hd v Hv Hb Ht; cbn.
  { split_and!; [done|done|exists []; by rewrite app_nil_r|by intros d ?%elem_of_nil]. }
  assert (Hv1 : visited d v (f d v)).
  { apply Hf; [by left|done|done|]. intros t Hin. assert (Hud : needs u d) by (apply Hd; by left).
    destruct (Ht t Hin) as [-> |Htu]; [by apply tc_once|]. by eapply tc_r. }
  destruct (f d v) as [[[] v1]|]; [|done|done]. destruct Hv1 as (Hok & Htmp & [ext Hext] & Hin).
  assert (Hb1 : (length (fresh v1) < bound)%nat).
  { eapply Nat.le_lt_trans; [|exact Hb]. apply fresh_mono; [rewrite Htmp; auto|]. intros x Hx. rewrite Hext. apply elem_of_app. by left. }
  specialize (IH (fun d' v' Hd' => Hf d' v' (list_elem_of_further _ _ _ Hd')) (fun d' Hd' => Hd d' (list_elem_of_further _ _ _ Hd')) v1 Hok Hb1).
  rewrite Htmp in IH. specialize (IH Ht). destruct (visitAll f ds v1) as [[[] v2]|]; [|done|done]. destruct IH as (I1 & I2 & [ext2 I3] & I4).
  split_and!; [done|done|exists (ext ++ ext2)%list; by rewrite I3, Hext, app_assoc|].
  intros x [-> |Hx]%elem_of_cons; [|auto]. rewrite I3. apply elem_of_app. by left.
Qed.

Lemma filter_last_id (l : list string) n : n ∉ l -> List.filter (fun x => negb (String.eqb x n)) (l ++ [n]) = l.
Proof.
  intros Hn. rewrite List.filter_app. cbn. rewrite String.eqb_refl. cbn. rewrite app_nil_r. apply forallb_filter_id, forallb_forall. intros x Hx.
  apply negb_true_iff, String.eqb_neq. intros ->. apply Hn. by apply list_elem_of_In.
Qed.

Lemma visit_spec fuel : forall n v, n ∈ names -> visit_ok v -> (length (fresh v) < fuel)%nat -> (forall t, t ∈ v_temporary v -> tc needs t n) ->
  visited n v (visit fuel m n v).
Proof.
  induction fuel as [|fuel IH]; intros n v Hn Hv Hb Ht; cbn [visit]; [lia|]. rewrite (vo_permanent _ Hv). destruct (has (v_order v) n) eqn:Hp.
  { apply has_true in Hp. split_and!; [done|done|exists []; by rewrite app_nil_r|done]. }
  destruct (has (v_temporary v) n) eqn:Htn; [apply has_true in Htn; exists n; by apply Ht|]. apply has_false in Hp, Htn.
  set (v1 := {| v_temporary := _; v_permanent := _; v_order := _ |}).
  assert (Hv1 : visit_ok v1).
  { destruct Hv as [V1 V2 V3 V4 V5]. split; try done. intros x [Hx| ->%list_elem_of_singleton]%elem_of_app; [by apply V4|done]. }
  assert (Hb1 : (length (fresh v1) < fuel)%nat) by (pose proof (fresh_visit v n (v_order v) Hn Htn Hp) as Hl; fold v1 in Hl; lia).
  pose proof (visitAll_spec (visit fuel m) fuel n (deps m n)) as Hall. specialize (Hall (fun d v Hd => IH d v (closed n d Hd)) (fun d Hd => Hd) v1 Hv1 Hb1).
  fold (deps m n). destruct (visitAll (visit fuel m) (deps m n) v1) as [[[] v2]|].
  - destruct Hall as (Hok & Htmp & [ext Hext] & Hds).
    { intros t [Hx| ->%list_elem_of_singleton]%elem_of_app; [right; by apply Ht|by left]. }
    destruct Hok as [W1 W2 W3 W4 W5].
    assert (Hno : n ∉ v_order v2) by (apply W4; rewrite Htmp; apply elem_of_app; right; by left).
    cbn [v_order v_temporary]. split_and!; cbn [v_order v_temporary v_permanent].
    + split; cbn [v_order v_temporary v_permanent].
      * by rewrite W1.
      * apply NoDup_app. split_and!; [done| |apply NoDup_singleton]. by intros x Hx ->%list_elem_of_singleton.
      * intros l1 u l2 He d Hd. destruct l2 as [|y l2] using rev_ind.
        -- apply app_inj_tail in He as [<- <-]. by apply Hds.
        -- rewrite app_comm_cons, app_assoc in He. apply app_inj_tail in He as [He _]. by apply (W3 l1 u l2).
      * rewrite Htmp. cbn [v_temporary v1]. rewrite filter_last_id by done. intros x Hx [Ho| ->%list_elem_of_singleton]%elem_of_app; [|done].
        apply (W4 x); [|done]. rewrite Htmp. apply elem_of_app. by left.
      * intros x [Hx| ->%list_elem_of_singleton]%elem_of_app; [by apply W5|done].
    + rewrite Htmp. by apply filter_last_id.
    + exists (ext ++ [n])%list. rewrite Hext. by rewrite <- app_assoc.
    + apply elem_of_app. right. by left.
  - apply Hall. intros t [Hx| ->%list_elem_of_singleton]%elem_of_app; [right; by apply Ht|by left].
  - apply Hall. intros t [Hx| ->%list_elem_of_singleton]%elem_of_app; [right; by apply Ht|by left].
Qed.

Lemma visitSteps_spec fuel ns : (forall n, n ∈ ns -> n ∈ names) -> forall v, visit_ok v -> v_temporary v = [] -> (length (fresh v) < fuel)%nat ->
  match visitSteps fuel m ns v with
  | Ok order => NoDup order /\ ordered order /\ (forall x, x ∈ order -> x ∈ names) /\ (forall x, x ∈ v_order v -> x ∈ order) /\ forall x, x ∈ ns -> x ∈ order
  | Err _ => exists x, tc needs x x
  end.
Proof.
  induction ns as [|n ns IH]; intros Hns v Hv Ht Hb; cbn [visitSteps].
  { split_and!; try apply Hv; [done|by intros x ?%elem_of_nil]. }
  assert (Hr : visited n v (visit fuel m n v)).
  { apply visit_spec; [apply Hns; by left|done|done|]. rewrite Ht. by intros t ?%elem_of_nil. }
  destruct (visit fuel m n v) as [[[] v1]|]; [|done|done]. destruct Hr as (Hok & Htmp & [ext Hext] & Hin).
  specialize (IH (fun x Hx => Hns x (list_elem_of_further _ _ _ Hx)) v1 Hok (eq_trans Htmp Ht)).
  assert (Hb1 : (length (fresh v1) < fuel)%nat).
  { eapply Nat.le_lt_trans; [|exact Hb]. apply fresh_mono; [rewrite Ht; by intros x ?%elem_of_nil|]. intros x Hx. rewrite Hext. apply elem_of_app. by left. }
  specialize (IH Hb1). destruct (visitSteps fuel m ns v1) as [order|]; [|done]. destruct IH as (I1 & I2 & I3 & I4 & I5). split_and!; try done.
  - intros x Hx. apply I4. rewrite Hext. apply elem_of_app. by left.
  - intros x [-> |Hx]%elem_of_cons; auto.
Qed.

(** The whole search. *)
Lemma search_spec : NoDup names ->
  match visitSteps (S (length names)) m names {| v_temporary := []; v_permanent := []; v_order := [] |} with
  | Ok order => ordered order /\ order ≡ₚ names
  | Err _ => exists x, tc needs x x
  end.
Proof.
  intros Hn. pose proof (visitSteps_spec (S (length names)) names (fun n Hx => Hx) {| v_temporary := []; v_permanent := []; v_order := [] |}) as Hv.
  cbn [v_temporary] in Hv. specialize (fun H => Hv H eq_refl). destruct (visitSteps _ m _ _) as [order|e].
  1: destruct Hv as (O1 & O2 & O3 & _ & O5); [| |split; [done|apply list.NoDup_Permutation; [done|done|split; auto]]].
  3: apply Hv.
  1,3: split; cbn; try done; [constructor|by intros l1 u l2 He; destruct l1|by intros x _ ?%elem_of_nil|by intros x ?%elem_of_nil].
  all: apply Nat.lt_succ_r, List.filter_length_le.
Qed.

(** A graph that was ordered has no cycle. *)
Lemma ordered_acyclic order : ordered order -> (forall x, x ∈ names -> x ∈ order) -> forall x, ~ tc needs x x.
Proof.
  intros Ho Hall x Hc. assert (Hin : x ∈ names).
  { revert Hc. apply (tc_ind_r (R := needs) (fun z => z ∈ names)); [intros z Hz|intros y z _ Hz _]; by apply (closed _ _ Hz). }
  apply (Graph.topo_acyclic m (rev order) x); [|by rewrite list_elem_of_In, <- in_rev, <- list_elem_of_In; apply Hall|exact Hc].
  intros L1 u L2 He v Hv. apply rev_eq_app in He. cbn in He. rewrite <- app_assoc in He. specialize (Ho _ _ _ He v Hv).
  by rewrite list_elem_of_In, <- in_rev, <- list_elem_of_In in Ho.
Qed.
End search.

(** ** The graph as it is run *)

Lemma nodesOf_spec steps m : forall i order, (forall x, x ∈ order -> x ∈ map ps_name steps) ->
  map nodeName (nodesOf steps m i order) = order /\
  forall l1 n l2, nodesOf steps m i order = (l1 ++ n :: l2)%list -> n_step n ∈ steps /\ n_dependencies n = deps m (nodeName n) /\ n_index n = (i + length l1)%nat.
Proof.
  intros i order. revert i. induction order as [|x order IH]; intros i Hin; cbn [nodesOf].
  { split; [done|]. intros l1 n l2 He. by destruct l1. }
  destruct (find _ steps) as [s|] eqn:Hf.
  2:{ exfalso. assert (Hx : x ∈ map ps_name steps) by (apply Hin; by left). apply list_elem_of_fmap in Hx as (s & -> & Hs). apply list_elem_of_In in Hs.
      pose proof (find_none _ _ Hf s Hs) as Hc. cbn in Hc. by rewrite String.eqb_refl in Hc. }
  apply find_some in Hf as [Hs Hx]. apply list_elem_of_In in Hs. apply String.eqb_eq in Hx.
  destruct (IH (S i) (fun y Hy => Hin y (list_elem_of_further _ _ _ Hy))) as [I1 I2]. split.
  - cbn. unfold nodeName at 1. cbn. by rewrite Hx, I1.
  - intros l1 n l2 He. destruct l1 as [|y l1]; cbn in He; injection He as <- He.
    + cbn. split_and!; [done|unfold nodeName; cbn; by rewrite Hx|lia].
    + destruct (I2 l1 n l2 He) as (? & ? & ->). split_and!; [done|done|cbn; lia].
Qed.

(** The nodes are the steps, each once, behind the steps it depends on. *)
Record dagOf steps edges (nodes : list (RuntimeNode P)) : Prop := {
  do_names : map nodeName nodes ≡ₚ map ps_name steps;
  do_nodes : forall l1 n l2, nodes = (l1 ++ n :: l2)%list -> n_step n ∈ steps /\ n_index n = length l1 /\
    (forall d, d ∈ n_dependencies n <-> depends steps edges (nodeName n) d) /\ forall d, d ∈ n_dependencies n -> d ∈ map nodeName l1;
}.

Lemma dependencyMap_NoDup steps edges : NoDup (mkeys (dependencyMap steps edges)).
Proof.
  unfold dependencyMap. generalize (NoDup_nil_2 : NoDup (mkeys ([] : jsmap (list string)))). generalize ([] : jsmap (list string)) as m0.
  assert (H1 : forall l m0, NoDup (mkeys m0) -> NoDup (mkeys (foldl (addDependency steps) m0 l))).
  { induction l as [|x l IH]; intros m0 H; cbn; [done|]. apply IH. unfold addDependency. repeat case_match; try done. by apply mset_NoDup. }
  intros m0 H0. apply H1. clear H1. revert m0 H0. induction steps as [|x l IH]; intros m0 H; cbn; [done|]. by apply IH, mset_NoDup.
Qed.

Lemma materializeDag_spec steps edges :
  match materializeDag steps edges with Ok nodes => wellFormed steps edges /\ dagOf steps edges nodes | Err _ => ~ wellFormed steps edges end.
Proof.
  unfold materializeDag. pose proof (duplicateStep_spec steps [] (NoDup_nil_2)) as Hdup. cbn in Hdup.
  destruct (duplicateStep [] steps) as [n|]; [intros (Hn & _); by apply Hdup in Hn|]. assert (Hn : NoDup (map ps_name steps)) by by apply Hdup.
  set (m := dependencyMap steps edges). assert (Hspec : forall n d, d ∈ deps m n <-> depends steps edges n d) by (intros n d; by apply dependencyMap_spec).
  pose proof (unknownDependency_spec (map ps_name steps) m (dependencyMap_NoDup steps edges)) as Hunk.
  destruct (unknownDependency (map ps_name steps) m) as [[n d]|].
  { intros (_ & Hcl & _). assert (Some (n, d) = None); [|done]. apply Hunk. intros n' d' Hd. apply (Hcl n'). by apply Hspec. }
  assert (Hcl : forall n d, d ∈ deps m n -> d ∈ map ps_name steps) by by apply Hunk.
  assert (Hcycle : forall x, tc (fun n d => d ∈ deps m n) x x <-> tc (depends steps edges) x x).
  { intros x. split; apply (tc_congruence (fun y => y)); intros a b; apply Hspec. }
  pose proof (search_spec m (map ps_name steps) Hcl Hn) as Hv. rewrite length_map in Hv. destruct (visitSteps _ m _ _) as [order|e]; cbn.
  - destruct Hv as [Ho Hp]. destruct (nodesOf_spec steps m 0 order) as [N1 N2]; [intros x; by rewrite Hp|]. split.
    + split_and!; [done|intros n d Hd; apply (Hcl n); by apply Hspec|]. intros x Hc%Hcycle.
      apply (ordered_acyclic m (map ps_name steps) Hcl order Ho) with x; [intros y; by rewrite Hp|done].
    + split; [by rewrite N1|]. intros l1 n l2 He. destruct (N2 l1 n l2 He) as (S1 & S2 & S3). split_and!; [done|done|intros d; by rewrite S2, Hspec|].
      intros d Hd. rewrite S2 in Hd. rewrite He, map_app in N1. symmetry in N1. by apply (Ho _ _ _ N1).
  - intros (_ & _ & Hac). destruct Hv as [x Hx]. apply (Hac x). by apply Hcycle.
Qed.

Lemma materializeDag_dag steps edges nodes : materializeDag steps edges = Ok nodes -> dagOf steps edges nodes.
Proof. intros He. pose proof (materializeDag_spec steps edges) as Hs. rewrite He in Hs. apply Hs. Qed.

(** The kernel orders exactly the well-formed graphs: those with distinct
    names, dependencies that are steps, and no cycle. The order contains every
    step once, behind all the steps it depends on, and every other graph is
    refused. *)
Theorem materializeDag_correct steps edges :
  ((exists nodes, materializeDag steps edges = Ok nodes) <-> wellFormed steps edges) /\
  match materializeDag steps edges with Ok nodes => dagOf steps edges nodes | Err _ => True end.
Proof.
  pose proof (materializeDag_spec steps edges) as Hs. destruct (materializeDag steps edges) as [nodes|e]; split; [|by destruct Hs| |done].
  - split; [by destruct Hs|by exists nodes].
  - split; [by intros [nodes ?]|done].
Qed.
End dag.

(** * Execution kernel: safety, progress and independence of the schedule *)
From stdpp Require Import pretty.
From S2P Require Import Prelude JsMap JsString Graph Kernel.
#[local] Open Scope string_scope.
#[local] Arguments remove : simpl never.

Section schedule.
Context {P : Type} (dg : Delegate P) (nodes : list (RuntimeNode P)) (total : nat).
Implicit Types (n : RuntimeNode P) (k : KState).
Hypothesis distinct : NoDup (map nodeName nodes).
Hypothesis behind : forall l1 n l2, nodes = (l1 ++ n :: l2)%list -> forall d, d ∈ n_dependencies n -> d ∈ map nodeName l1.

(** ** The invariant *)

(** The steps: waiting, running, satisfied, and the others that ended or were blocked. *)
Definition places k : list string := (k_pending k ++ map fst (k_running k) ++ k_satisfied k ++ mkeys (k_unsatisfied k))%list.

Definition ready_for k n : Prop := forall d, d ∈ n_dependencies n -> d ∈ k_satisfied k.

Record kinv k : Prop := {
  ki_places : places k ≡ₚ map nodeName nodes;
  ki_running : forall n b, n ∈ nodes -> (nodeName n, b) ∈ k_running k -> ready_for k n /\ b = isExclusiveNode dg (n_step n);
  ki_satisfied : forall n, n ∈ nodes -> nodeName n ∈ k_satisfied k -> ready_for k n;
  ki_limit : (Z.of_nat (length (k_running k)) <= maxParallel dg)%Z;
  ki_alone : forall x, (x, true) ∈ k_running k -> k_running k = [(x, true)];
  ki_unsatisfied : forall x st, mget (k_unsatisfied k) x = Some st -> ds_satisfied st = false;
  ki_blocked : NoDup (k_blocked k) /\ forall x, x ∈ k_blocked k -> x ∈ mkeys (k_unsatisfied k);
  ki_why : forall n, n ∈ nodes -> nodeName n ∈ mkeys (k_unsatisfied k) ->
    if has (k_blocked k) (nodeName n) then exists d, d ∈ n_dependencies n /\ d ∈ mkeys (k_unsatisfied k) else ready_for k n;
  ki_count : (k_completed k + length (k_blocked k) = length (k_satisfied k) + length (k_unsatisfied k))%nat;
}.

Lemma places_NoDup k : kinv k -> NoDup (places k).
Proof. intros Hk. by rewrite (ki_places _ Hk). Qed.

Lemma node_unique n n' : n ∈ nodes -> n' ∈ nodes -> nodeName n = nodeName n' -> n = n'.
Proof.
  intros [i Hi]%list_elem_of_lookup [j Hj]%list_elem_of_lookup He. assert (i = j) as ->; [|congruence].
  apply (NoDup_lookup (nodeName <$> nodes) i j (nodeName n) distinct); rewrite list_lookup_fmap; [by rewrite Hi|by rewrite Hj, He].
Qed.

Lemma remove_perm x l : NoDup l -> x ∈ l -> l ≡ₚ x :: remove x l.
Proof.
  induction l as [|y l IH]; [by intros _ ?%elem_of_nil|]. intros [Hy Hn]%NoDup_cons. unfold remove. cbn. destruct (String.eqb_spec y x) as [->|Hne]; cbn.
  - intros _. constructor. rewrite forallb_filter_id; [done|]. apply forallb_forall. intros z Hz. apply negb_true_iff, String.eqb_neq. intros ->. apply Hy. by apply list_elem_of_In.
  - intros [?|Hx]%elem_of_cons; [done|]. rewrite (IH Hn Hx) at 1. apply perm_swap.
Qed.

(** A waiting step is nowhere else. *)
Lemma pending_apart k x : kinv k -> x ∈ k_pending k -> x ∉ map fst (k_running k) /\ x ∉ k_satisfied k /\ x ∉ mkeys (k_unsatisfied k) /\ k_pending k ≡ₚ x :: remove x (k_pending k).
Proof.
  intros Hk Hx. pose proof (places_NoDup k Hk) as Hn. unfold places in Hn. apply NoDup_app in Hn as (N1 & N2 & _).
  specialize (N2 x Hx). rewrite !elem_of_app in N2. split_and!; [tauto..|]. by apply remove_perm.
Qed.

Lemma running_apart k x : kinv k -> x ∈ map fst (k_running k) -> x ∉ k_satisfied k /\ x ∉ mkeys (k_unsatisfied k).
Proof.
  intros Hk Hx. pose proof (places_NoDup k Hk) as Hd. unfold places in Hd. apply NoDup_app in Hd as (_ & _ & Hd). apply NoDup_app in Hd as (_ & Hd & _).
  specialize (Hd _ Hx). rewrite elem_of_app in Hd. tauto.
Qed.

(** ** Blocking and starting *)

Lemma collect_spec n k : (forall x st, mget (k_unsatisfied k) x = Some st -> ds_satisfied st = false) ->
  (collectBlockedDependencies n k <> [] <-> exists d, d ∈ n_dependencies n /\ d ∈ mkeys (k_unsatisfied k)).
Proof.
  intros Hu. unfold collectBlockedDependencies. induction (n_dependencies n) as [|d l IH]; cbn.
  { split; [done|]. intros (d & Hd & _). by apply elem_of_nil in Hd. }
  destruct (mget (k_unsatisfied k) d) as [st|] eqn:Hd.
  - rewrite (Hu d st Hd). split; [|done]. intros _. exists d. split; [by left|]. apply mget_is_Some_keys. by eexists.
  - cbn. rewrite IH. apply mget_None_keys in Hd. split; intros (x & Hx & Hk); exists x; [split; [by right|done]|]. apply elem_of_cons in Hx as [-> |Hx]; done.
Qed.

Lemma blockNode_inv n k : kinv k -> n ∈ nodes -> nodeName n ∈ k_pending k -> collectBlockedDependencies n k <> [] ->
  kinv (blockNode n (collectBlockedDependencies n k) k).
Proof.
  intros Hk Hn Hp Hc. set (l := collectBlockedDependencies n k) in *. destruct (pending_apart k _ Hk Hp) as (A1 & A2 & A3 & Hperm).
  apply (collect_spec n k (ki_unsatisfied _ Hk)) in Hc. destruct Hk as [K1 K2 K3 K4 K5 K6 [K7 K7'] K8 K9].
  assert (Hun : k_unsatisfied (blockNode n l k) = (k_unsatisfied k ++ [(nodeName n, {| ds_satisfied := false; ds_reason := Some (buildDependencyBlockedError (nodeName n) l);
    ds_hint := Some (match l with b :: _ => bd_hint b | [] => validation_error end) |})])%list) by (cbn; by apply mset_fresh).
  assert (Hkeys : mkeys (k_unsatisfied (blockNode n l k)) = (mkeys (k_unsatisfied k) ++ [nodeName n])%list) by (rewrite Hun; unfold mkeys; by rewrite map_app).
  split; try done.
  - unfold places in *. rewrite Hkeys. cbn. rewrite <- K1. revert Hperm. generalize (remove (nodeName n) (k_pending k)) as rest. intros rest Hperm.
    rewrite Hperm. cbn. by rewrite !app_assoc, Permutation_app_comm.
  - intros x st. cbn. rewrite mget_mset. destruct (String.eqb_spec x (nodeName n)); [intros [= <-]; done|apply K6].
  - rewrite Hkeys. cbn. split.
    + apply NoDup_app. split_and!; [done| |apply NoDup_singleton]. intros x Hx ->%list_elem_of_singleton. by apply A3, K7'.
    + intros x. rewrite !elem_of_app. intros [Hx|Hx]; [left; auto|by right].
  - intros n' Hn'. rewrite Hkeys, elem_of_app, list_elem_of_singleton. cbn [blockNode emit with_dependencies k_blocked with_results with_running k_satisfied].
    destruct (decide (nodeName n' = nodeName n)) as [He|Hne].
    + intros _. assert (Hb : has (k_blocked k ++ [nodeName n]) (nodeName n') = true) by (apply has_true, elem_of_app; right; rewrite He; by left).
      rewrite Hb. rewrite (node_unique n' n Hn' Hn He). destruct Hc as (d & Hd & Hdk). exists d. split; [done|]. apply elem_of_app. by left.
    + intros [Hin|?]; [|done]. specialize (K8 n' Hn' Hin).
      assert (Hb : has (k_blocked k ++ [nodeName n]) (nodeName n') = has (k_blocked k) (nodeName n')).
      { apply eq_iff_eq_true. rewrite !has_true, elem_of_app, list_elem_of_singleton. tauto. }
      rewrite Hb. destruct (has _ _); [|done]. destruct K8 as (d & Hd & Hdk). exists d. split; [done|]. apply elem_of_app. by left.
  - rewrite Hun. cbn. rewrite !length_app. cbn. lia.
Qed.

Lemma startNode_inv n k : kinv k -> n ∈ nodes -> nodeName n ∈ k_pending k -> ready_for k n -> (Z.of_nat (length (k_running k)) < maxParallel dg)%Z ->
  existsb snd (k_running k) = false -> (isExclusiveNode dg (n_step n) = true -> k_running k = []) ->
  kinv (startNode n (isExclusiveNode dg (n_step n)) k).
Proof.
  intros Hk Hn Hp Hr Hlt Hex Halone. destruct (pending_apart k _ Hk Hp) as (A1 & A2 & A3 & Hperm). destruct Hk as [K1 K2 K3 K4 K5 K6 K7 K8 K9].
  split; try done; cbn [startNode with_running emit k_pending k_running k_satisfied k_unsatisfied k_blocked k_completed].
  - unfold places in *. cbn [startNode with_running emit k_pending k_running k_satisfied k_unsatisfied]. rewrite map_app. cbn. rewrite <- K1. revert Hperm. generalize (remove (nodeName n) (k_pending k)) as rest.
    intros rest Hperm. rewrite Hperm. rewrite <- app_assoc. cbn. by rewrite <- !Permutation_middle.
  - intros n' b Hn' [Hin|[= He ->]%list_elem_of_singleton]%elem_of_app; [by apply K2|]. by rewrite (node_unique n' n Hn' Hn He).
  - rewrite length_app. cbn. lia.
  - intros x [Hin|[= -> Hx]%list_elem_of_singleton]%elem_of_app.
    + exfalso. apply not_true_iff_false in Hex. apply Hex, existsb_exists. exists (x, true). split; [by apply list_elem_of_In|done].
    + by rewrite (Halone (eq_sym Hx)), <- Hx.
Qed.

(** ** The loop *)

Lemma dependenciesSatisfied_spec n k : dependenciesSatisfied n k = true <-> ready_for k n.
Proof.
  unfold dependenciesSatisfied, ready_for. rewrite forallb_forall. setoid_rewrite has_true. setoid_rewrite <- list_elem_of_In. done.
Qed.

(** How much is left. *)
Definition work k : nat := (length (k_pending k) + length (k_running k))%nat.

Lemma remove_length x l : NoDup l -> x ∈ l -> length l = S (length (remove x l)).
Proof. intros Hn Hx. apply (Permutation_length (remove_perm x l Hn Hx)). Qed.

Lemma pending_NoDup k : kinv k -> NoDup (k_pending k).
Proof. intros Hk. pose proof (places_NoDup k Hk) as Hn. by apply NoDup_app in Hn as (? & _ & _). Qed.

Lemma schedule_inv order : (forall n, n ∈ order -> n ∈ nodes) -> forall ex k, kinv k -> existsb snd (k_running k) = ex ->
  let k' := schedule dg ex order k in kinv k' /\ (work k' <= work k)%nat /\ exists more, k_running k' = (k_running k ++ more)%list.
Proof.
  intros Hin ex. induction order as [|n order IH]; intros k Hk Hex; cbn [schedule].
  { split_and!; [done|lia|exists []; by rewrite app_nil_r]. }
  assert (Hn : n ∈ nodes) by (apply Hin; by left). specialize (IH (fun x Hx => Hin x (list_elem_of_further _ _ _ Hx))).
  assert (Hid : kinv k /\ (work k <= work k)%nat /\ exists more, k_running k = (k_running k ++ more)%list) by (split_and!; [done|lia|exists []; by rewrite app_nil_r]).
  destruct (has (k_pending k) (nodeName n)) eqn:Hp; cbn [negb]; [|by apply IH]. apply has_true in Hp.
  destruct (Z.leb_spec (maxParallel dg) (Z.of_nat (length (k_running k)))) as [|Hlt]; [done|].
  pose proof (remove_length _ _ (pending_NoDup k Hk) Hp) as Hlen.
  destruct (collectBlockedDependencies n k) as [|b l] eqn:Hc.
  - destruct (dependenciesSatisfied n k) eqn:Hd; cbn [negb]; [|by apply IH]. apply dependenciesSatisfied_spec in Hd. destruct ex; [done|].
    assert (Hstart : (isExclusiveNode dg (n_step n) = true -> k_running k = []) -> kinv (startNode n (isExclusiveNode dg (n_step n)) k)) by (intros; by apply startNode_inv).
    assert (Hw : forall b, work (startNode n b k) = work k) by (intros b; unfold work; cbn; rewrite length_app; cbn; lia).
    destruct (isExclusiveNode dg (n_step n)) eqn:He; cbn [andb].
    + destruct (Nat.ltb_spec 0 (length (k_running k))); [by apply IH|]. split_and!; [apply Hstart; intros _; apply nil_length_inv; lia|rewrite Hw; lia|by exists [(nodeName n, true)]].
    + destruct (IH (startNode n false k)) as (I1 & I2 & [more I3]); [by apply Hstart|cbn; rewrite existsb_app, Hex; done|].
      split_and!; [done|rewrite Hw in I2; lia|]. exists ((nodeName n, false) :: more). rewrite I3. cbn. by rewrite <- app_assoc.
  - rewrite <- Hc. assert (Hk' : kinv (blockNode n (collectBlockedDependencies n k) k)) by (apply blockNode_inv; [done..|by rewrite Hc]).
    destruct (IH _ Hk' Hex) as (I1 & I2 & I3). split_and!; [done| |done].
    etrans; [exact I2|]. unfold work. cbn. lia.
Qed.

(** With nothing running, a step is started or none is left. *)
Lemma schedule_progress order : forall l1 k, nodes = (l1 ++ order)%list -> kinv k -> k_running k = [] -> (forall x, x ∈ map nodeName l1 -> x ∉ k_pending k) ->
  let k' := schedule dg false order k in k_running k' <> [] \/ k_pending k' = [].
Proof.
  induction order as [|n order IH]; intros l1 k Hl Hk Hr Hdone; cbn [schedule].
  { right. rewrite app_nil_r in Hl. subst l1. destruct (k_pending k) as [|x rest] eqn:Hp; [done|]. exfalso. apply (Hdone x); [|by left].
    rewrite <- (ki_places _ Hk). unfold places. rewrite Hp. by left. }
  assert (Hn : n ∈ nodes) by (rewrite Hl; apply elem_of_app; right; by left).
  assert (Hl' : nodes = ((l1 ++ [n]) ++ order)%list) by (by rewrite <- app_assoc).
  destruct (has (k_pending k) (nodeName n)) eqn:Hp; cbn [negb].
  2:{ apply (IH (l1 ++ [n])%list); [done|done|done|]. intros x. rewrite map_app, elem_of_app. intros [Hx|Hx]; [by apply Hdone|].
      apply list_elem_of_singleton in Hx as ->. by apply has_false. }
  apply has_true in Hp. rewrite Hr. assert (Hmax : (maxParallel dg <=? Z.of_nat (length (@nil (string * bool))))%Z = false) by (apply Z.leb_gt; unfold maxParallel; cbn [length]; lia). rewrite Hmax.
  destruct (collectBlockedDependencies n k) as [|b l] eqn:Hc.
  - assert (Hrd : ready_for k n).
    { intros d Hd. pose proof (behind l1 n order Hl d Hd) as Hd1. assert (Hnp := Hdone d Hd1).
      assert (Hin : d ∈ places k) by (rewrite (ki_places _ Hk), Hl, map_app; apply elem_of_app; by left).
      unfold places in Hin. rewrite Hr in Hin. cbn in Hin. rewrite !elem_of_app in Hin. destruct Hin as [?|[?|Hu]]; [done|done|].
      exfalso. assert (Hne : collectBlockedDependencies n k <> []) by (apply (collect_spec n k (ki_unsatisfied _ Hk)); eauto). by rewrite Hc in Hne. }
    rewrite (proj2 (dependenciesSatisfied_spec n k) Hrd). cbn [negb]. rewrite Nat.ltb_irrefl, andb_false_r. left.
    destruct (isExclusiveNode dg (n_step n)) eqn:He; [cbn; by rewrite Hr|].
    destruct (schedule_inv order (fun x Hx => ltac:(rewrite Hl; apply elem_of_app; by right; right)) false (startNode n false k)) as (_ & _ & [more Hmore]).
    + rewrite <- He. apply startNode_inv; [done|done|done|done|rewrite Hr; unfold maxParallel; cbn [length]; lia|by rewrite Hr|done].
    + cbn. by rewrite Hr.
    + rewrite Hmore. cbn. by rewrite Hr.
  - rewrite <- Hc. apply (IH (l1 ++ [n])%list); [done|apply blockNode_inv; [done..|by rewrite Hc]|done|].
    intros x. rewrite map_app, elem_of_app. cbn. intros Hx. unfold remove. rewrite list_elem_of_In, filter_In, <- list_elem_of_In.
    destruct Hx as [Hx|Hx]; [intros [Hy _]; by apply (Hdone x)|]. apply list_elem_of_singleton in Hx as ->. rewrite String.eqb_refl. by intros [_ ?].
Qed.

Lemma advance_spec k : kinv k ->
  let k' := schedule dg (existsb snd (k_running k)) nodes k in
  kinv k' /\ (work k' <= work k)%nat /\
  ((advance dg nodes total k = Waiting k' /\ k_running k' <> []) \/ (advance dg nodes total k = Done (finalResult total k') /\ k_running k' = [] /\ k_pending k' = [])).
Proof.
  intros Hk. destruct (schedule_inv nodes (fun n Hn => Hn) _ k Hk eq_refl) as (I1 & I2 & [more I3]). unfold advance.
  set (k' := schedule dg _ nodes k) in *. split_and!; [done|done|]. destruct (k_running k') as [|x l] eqn:Hr; [right|by left].
  assert (Hk0 : k_running k = []) by (destruct (k_running k); [done|by destruct more]).
  assert (Hp : k_pending k' = []).
  { destruct (schedule_progress nodes [] k eq_refl Hk Hk0) as [Hx|Hx]; [by intros x ?%elem_of_nil| |]; unfold k' in *; rewrite Hk0 in *; [done|done]. }
  by rewrite Hp.
Qed.

(** ** Settled steps *)

Definition settledState (name : string) k : KState := with_running (k_pending k) (List.filter (fun x => negb (String.eqb x.1 name)) (k_running k)) k.

Lemma running_split k name : kinv k -> name ∈ map fst (k_running k) ->
  map fst (k_running k) ≡ₚ name :: map fst (k_running (settledState name k)) /\ length (k_running k) = S (length (k_running (settledState name k))) /\
  name ∉ map fst (k_running (settledState name k)).
Proof.
  intros Hk Hin. pose proof (places_NoDup k Hk) as Hn. unfold places in Hn. apply NoDup_app in Hn as (_ & _ & Hn). apply NoDup_app in Hn as (Hn & _ & _).
  assert (Hf : map fst (k_running (settledState name k)) = remove name (map fst (k_running k))).
  { cbn. unfold remove. clear. induction (k_running k) as [|[x b] l IH]; cbn; [done|]. destruct (String.eqb x name); cbn; [done|by rewrite IH]. }
  rewrite Hf. split_and!; [by apply remove_perm| |].
  - rewrite <- (length_map fst (k_running k)), (remove_length name _ Hn Hin), <- Hf. by rewrite length_map.
  - unfold remove. rewrite list_elem_of_In, filter_In. rewrite String.eqb_refl. by intros [_ ?].
Qed.

Lemma settled_running k name x : x ∈ k_running (settledState name k) <-> x ∈ k_running k /\ x.1 <> name.
Proof. cbn. rewrite !list_elem_of_In, filter_In, negb_true_iff, String.eqb_neq. done. Qed.

Lemma assess_inv n r k : kinv k -> n ∈ nodes -> nodeName n ∈ map fst (k_running k) ->
  kinv (assess dg n r (settledState (nodeName n) k)) /\ work k = S (work (assess dg n r (settledState (nodeName n) k))).
Proof.
  intros Hk Hn Hin. destruct (running_split k _ Hk Hin) as (Hperm & Hlen & Hno). set (k0 := settledState (nodeName n) k) in *.
  assert (Hrun : k_running (assess dg n r k0) = k_running k0) by (unfold assess; by destruct (ds_satisfied _)).
  assert (Hpend : k_pending (assess dg n r k0) = k_pending k) by (unfold assess; by destruct (ds_satisfied _)).
  split; [|unfold work; rewrite Hrun, Hpend, Hlen; lia].
  destruct (running_apart k _ Hk Hin) as [Hs Hu]. assert (Hready : ready_for k n).
  { apply list_elem_of_fmap in Hin as ([x b] & He & Hx). cbn in He. subst x. by apply (ki_running _ Hk n b). }
  assert (Hset : set_add (k_satisfied k) (nodeName n) = (k_satisfied k ++ [nodeName n])%list) by (unfold set_add; by rewrite (proj2 (has_false _ _) Hs)).
  destruct Hk as [K1 K2 K3 K4 K5 K6 [K7 K7'] K8 K9].
  assert (Hlim : (Z.of_nat (length (k_running k0)) <= maxParallel dg)%Z) by lia.
  assert (Halone : forall x, (x, true) ∈ k_running k0 -> k_running k0 = [(x, true)]).
  { intros x Hx. apply settled_running in Hx as [Hx Hne]. exfalso. pose proof (K5 x Hx) as He. rewrite He in Hin. apply list_elem_of_singleton in Hin. done. }
  unfold assess. destruct (ds_satisfied _) eqn:Hsat.
  - cbn [with_dependencies emit with_results k_satisfied k_unsatisfied k_blocked k_completed]. split; cbn [k_pending k_running k_satisfied k_unsatisfied k_blocked k_completed emit with_dependencies with_results]; try done.
    + unfold places in *. cbn [k_pending k_running k_satisfied k_unsatisfied emit with_dependencies with_results]. change (k_satisfied k0) with (k_satisfied k). rewrite Hset, <- K1, Hperm. cbn.
      rewrite <- app_assoc. cbn. by rewrite <- !Permutation_middle.
    + intros n' b Hn' Hx. apply settled_running in Hx as [Hx _]. destruct (K2 n' b Hn' Hx) as [Hr1 Hr2]. split; [|done]. intros d Hd. cbn. apply elem_set_add. left. by apply Hr1.
    + intros n' Hn'. rewrite elem_set_add. intros [Hx|He] d Hd; cbn; apply elem_set_add; left; [by apply (K3 n' Hn' Hx)|].
      rewrite (node_unique n' n Hn' Hn He) in Hd. by apply Hready.
    + intros n' Hn' Hx. specialize (K8 n' Hn' Hx). change (k_blocked k0) with (k_blocked k). destruct (has _ _); [done|]. intros d Hd. cbn. apply elem_set_add. left. by apply K8.
    + change (k_satisfied k0) with (k_satisfied k). rewrite Hset, length_app. cbn. lia.
  - cbn [with_dependencies emit with_results k_satisfied k_unsatisfied k_blocked k_completed].
    assert (Hms : forall st, mset (nodeName n) st (k_unsatisfied k0) = (k_unsatisfied k ++ [(nodeName n, st)])%list) by (intros st; by apply mset_fresh).
    assert (Hmk : forall st, mkeys (mset (nodeName n) st (k_unsatisfied k0)) = (mkeys (k_unsatisfied k) ++ [nodeName n])%list) by (intros st; rewrite Hms; unfold mkeys; by rewrite map_app).
    split; cbn [k_pending k_running k_satisfied k_unsatisfied k_blocked k_completed emit with_dependencies with_results]; try done.
    + unfold places in *. cbn [k_pending k_running k_satisfied k_unsatisfied emit with_dependencies with_results]. rewrite Hmk, <- K1, Hperm. cbn.
      change (k_satisfied k0) with (k_satisfied k). by rewrite !app_assoc, Permutation_app_comm, <- Permutation_middle, !app_assoc.
    + intros n' b Hn' Hx. apply settled_running in Hx as [Hx _]. by apply K2.
    + intros x st. rewrite mget_mset. destruct (String.eqb_spec x (nodeName n)); [intros [= <-]; done|apply K6].
    + split; [done|]. intros x Hx. rewrite Hmk. apply elem_of_app. left. by apply K7'.
    + intros n' Hn'. rewrite Hmk, elem_of_app, list_elem_of_singleton. intros [Hx|He].
      * specialize (K8 n' Hn' Hx). change (k_blocked k0) with (k_blocked k). destruct (has _ _); [|done]. destruct K8 as (d & Hd & Hdk). exists d. split; [done|]. apply elem_of_app. by left.
      * rewrite (node_unique n' n Hn' Hn He). change (k_blocked k0) with (k_blocked k). destruct (has (k_blocked k) (nodeName n)) eqn:Hb; [|done].
        apply has_true, K7' in Hb. done.
    + rewrite Hms, length_app. cbn. lia.
Qed.

Lemma findNode_spec k name : kinv k -> name ∈ map fst (k_running k) -> exists n, findNode nodes name = Some n /\ n ∈ nodes /\ nodeName n = name.
Proof.
  intros Hk Hin. assert (Hx : name ∈ map nodeName nodes) by (rewrite <- (ki_places _ Hk); unfold places; rewrite !elem_of_app; tauto).
  apply list_elem_of_fmap in Hx as (n & -> & Hn). unfold findNode. destruct (find _ nodes) as [n'|] eqn:Hf.
  - apply find_some in Hf as [Hn' He]. apply list_elem_of_In in Hn'. apply String.eqb_eq in He. eauto.
  - apply list_elem_of_In in Hn. pose proof (find_none _ _ Hf n Hn) as Hc. cbn in Hc. by rewrite String.eqb_refl in Hc.
Qed.

(** A settled step is assessed, or ends the run. *)
Lemma settleNode_cases name o k : kinv k -> name ∈ map fst (k_running k) ->
  (exists n r, n ∈ nodes /\ nodeName n = name /\ (forall x, o = OCompleted x -> r = x) /\ settleNode dg nodes total name o k = advance dg nodes total (assess dg n r (settledState name k))) \/
  ((exists r, settleNode dg nodes total name o k = Done r) /\ forall x, o <> OCompleted x).
Proof.
  intros Hk Hin. destruct (findNode_spec k name Hk Hin) as (n & Hf & Hn & He). unfold settleNode. rewrite Hf.
  destruct o as [r|error hint dec r fb|error hint]; [left; exists n, r|destruct fb as [fb|]; [destruct (fb_satisfied fb); [left; exists n, (fb_result fb)|right]|right]|right].
  - split_and!; [done|done|congruence|done].
  - split_and!; [done|done|done|done].
  - split; [eauto|done].
  - split; [eauto|done].
  - split; [eauto|done].
Qed.

(** ** The results of the steps that ended *)

Section results.
Context (allowed : string -> string -> Prop).

(** The contract of a step holds of its result. *)
Definition contract n (r : string) : bool := ds_satisfied (assessDependencySatisfaction dg (n_step n) r).

Definition resultIs k n (met : bool) : Prop := exists r, mget (k_results k) (nodeName n) = Some r /\ allowed (nodeName n) r /\ contract n r = met.

Record dinv k : Prop := {
  di_satisfied : forall n, n ∈ nodes -> nodeName n ∈ k_satisfied k -> resultIs k n true;
  di_unsatisfied : forall n, n ∈ nodes -> nodeName n ∈ mkeys (k_unsatisfied k) ->
    if has (k_blocked k) (nodeName n) then mget (k_results k) (nodeName n) = Some (buildDependencyBlockedResult (nodeName n))
    else resultIs k n false;
}.

Lemma resultIs_other k k' x r n met : k_results k' = mset x r (k_results k) -> nodeName n <> x -> (resultIs k' n met <-> resultIs k n met).
Proof. intros He Hne. unfold resultIs. by rewrite He, mget_mset_ne by congruence. Qed.

Lemma block_dinv n l k : kinv k -> nodeName n ∈ k_pending k -> dinv k -> dinv (blockNode n l k).
Proof.
  intros Hk Hp [D1 D2]. destruct (pending_apart k _ Hk Hp) as (_ & A2 & A3 & _).
  assert (Hres : forall n' met, nodeName n' <> nodeName n -> (resultIs (blockNode n l k) n' met <-> resultIs k n' met)) by (intros; by eapply resultIs_other).
  split; intros n' Hn'; cbn [blockNode emit with_dependencies with_results with_running k_satisfied k_unsatisfied k_blocked k_results].
  - intros Hs. apply Hres; [|by apply D1]. intros He. apply A2. by rewrite <- He.
  - rewrite elem_mkeys_mset. destruct (decide (nodeName n' = nodeName n)) as [He|Hne].
    + intros _. assert (Hb : has (k_blocked k ++ [nodeName n]) (nodeName n') = true) by (apply has_true, elem_of_app; right; rewrite He; by left).
      rewrite Hb, He. apply mget_mset_eq.
    + intros [?|Hx]; [done|]. specialize (D2 n' Hn' Hx). assert (Hb : has (k_blocked k ++ [nodeName n]) (nodeName n') = has (k_blocked k) (nodeName n')).
      { apply eq_iff_eq_true. rewrite !has_true, elem_of_app, list_elem_of_singleton. tauto. }
      rewrite Hb, mget_mset_ne by congruence. destruct (has _ _); [done|]. by apply Hres.
Qed.

Lemma schedule_dinv order : (forall n, n ∈ order -> n ∈ nodes) -> forall ex k, kinv k -> existsb snd (k_running k) = ex -> dinv k -> dinv (schedule dg ex order k).
Proof.
  intros Hin ex. induction order as [|n order IH]; intros k Hk Hex Hd; cbn [schedule]; [done|].
  assert (Hn : n ∈ nodes) by (apply Hin; by left). specialize (IH (fun x Hx => Hin x (list_elem_of_further _ _ _ Hx))).
  destruct (has (k_pending k) (nodeName n)) eqn:Hp; cbn [negb]; [|by apply IH]. apply has_true in Hp.
  destruct (Z.leb_spec (maxParallel dg) (Z.of_nat (length (k_running k)))) as [|Hlt]; [done|].
  destruct (collectBlockedDependencies n k) as [|b l] eqn:Hc.
  - destruct (dependenciesSatisfied n k) eqn:Hds; cbn [negb]; [|by apply IH]. apply dependenciesSatisfied_spec in Hds. destruct ex; [done|].
    assert (Hst : forall b, dinv (startNode n b k)) by (intros b; by destruct Hd).
    destruct (isExclusiveNode dg (n_step n)) eqn:He; cbn [andb]; [case_match; [by apply IH|apply Hst]|].
    apply IH; [rewrite <- He; apply startNode_inv; auto; by rewrite He|cbn; by rewrite existsb_app, Hex|apply Hst].
  - rewrite <- Hc. apply IH; [apply blockNode_inv; [done..|by rewrite Hc]|done|by apply block_dinv].
Qed.

Lemma assess_dinv n r k : kinv k -> n ∈ nodes -> nodeName n ∈ map fst (k_running k) -> allowed (nodeName n) r -> dinv k ->
  dinv (assess dg n r (settledState (nodeName n) k)).
Proof.
  intros Hk Hn Hin Hr [D1 D2]. destruct (running_apart k _ Hk Hin) as [Hs Hu]. set (k' := assess dg n r _).
  assert (Hb : has (k_blocked k) (nodeName n) = false) by (apply has_false; intros Hx; by apply Hu, (ki_blocked _ Hk)).
  assert (He : k_results k' = mset (nodeName n) r (k_results k)) by (unfold k', assess; by destruct (ds_satisfied _)).
  assert (Hown : resultIs k' n (contract n r)) by (exists r; rewrite He; by rewrite mget_mset_eq).
  assert (Hres : forall n' met, nodeName n' <> nodeName n -> (resultIs k' n' met <-> resultIs k n' met)) by (intros; by eapply resultIs_other).
  assert (Hcs : if contract n r then k_satisfied k' = set_add (k_satisfied k) (nodeName n) /\ k_unsatisfied k' = k_unsatisfied k
    else k_satisfied k' = k_satisfied k /\ exists st, k_unsatisfied k' = mset (nodeName n) st (k_unsatisfied k)).
  { unfold k', assess. fold (contract n r). destruct (contract n r); [done|]. split; [done|]. by eexists. }
  assert (Hbl : k_blocked k' = k_blocked k) by (unfold k', assess; by destruct (ds_satisfied _)).
  clearbody k'. split; intros n' Hn'; rewrite ?Hbl.
  - intros Hx. destruct (decide (nodeName n' = nodeName n)) as [E|Hne].
    + rewrite (node_unique n' n Hn' Hn E) in *. destruct (contract n r); [done|]. destruct Hcs as [Hcs _]. by rewrite Hcs in Hx.
    + apply Hres, D1; [done..|]. destruct (contract n r); destruct Hcs as [Hcs _]; rewrite Hcs in Hx; [|done]. by apply elem_set_add in Hx as [?|?].
  - intros Hx. destruct (decide (nodeName n' = nodeName n)) as [E|Hne].
    + rewrite (node_unique n' n Hn' Hn E), Hb in *. destruct (contract n r); [|done]. destruct Hcs as [_ Hcs]. by rewrite Hcs in Hx.
    + assert (Hin' : nodeName n' ∈ mkeys (k_unsatisfied k)).
      { destruct (contract n r); destruct Hcs as [_ Hcs]; [by rewrite Hcs in Hx|]. destruct Hcs as [st Hcs]. rewrite Hcs in Hx. by apply elem_mkeys_mset in Hx as [?|?]. }
      specialize (D2 n' Hn' Hin'). destruct (has _ _); [by rewrite He, mget_mset_ne by congruence|by apply Hres].
Qed.
End results.

(** ** Runs *)

Definition phase_ok (ph : KPhase) : Prop := match ph with Waiting k => kinv k /\ k_running k <> [] | _ => True end.

(** The answers that a run takes. *)
Definition takesEvent (ph : KPhase) (e : KEvent) : bool :=
  match ph, e with Waiting k, (Settled name _ | Rejected name _) => has (map fst (k_running k)) name | _, _ => false end.

Fixpoint taken (ph : KPhase) (es : list KEvent) : nat :=
  match es with [] => O | e :: es => ((if takesEvent ph e then 1 else 0) + taken (kstep dg nodes total ph e) es)%nat end.

(** The invariant of the results, while the run goes on. *)
Definition results_ok (ph : KPhase) : Prop := match ph with Waiting k => kinv k /\ dinv (fun _ _ => True) k | _ => True end.

Definition phaseWork (ph : KPhase) : nat := match ph with Waiting k => work k | _ => O end.

Lemma advance_ok k : kinv k -> phase_ok (advance dg nodes total k) /\ (phaseWork (advance dg nodes total k) <= work k)%nat.
Proof. intros Hk. destruct (advance_spec k Hk) as (I1 & I2 & [[-> ?]|[-> _]]); (split; [by try split|cbn; lia]). Qed.

Lemma kstep_ok ph e : phase_ok ph ->
  phase_ok (kstep dg nodes total ph e) /\ (phaseWork (kstep dg nodes total ph e) + (if takesEvent ph e then 1 else 0) <= phaseWork ph)%nat.
Proof.
  destruct ph as [k|r|er]; [|intros _; by destruct e..]. intros [Hk Hr]. destruct e as [name o|name er]; cbn [kstep takesEvent].
  - destruct (has (map fst (k_running k)) name) eqn:Hin; [|split; [done|cbn; lia]]. apply has_true in Hin.
    destruct (settleNode_cases name o k Hk Hin) as [(n & r & Hn & <- & _ & ->)|[[r ->] _]].
    + destruct (assess_inv n r k Hk Hn Hin) as [Hk' Hw]. destruct (advance_ok _ Hk') as [H1 H2]. split; [done|]. cbn [phaseWork]. lia.
    + split; [done|]. cbn. unfold work. destruct (k_running k); [done|]. cbn. lia.
  - destruct (has (map fst (k_running k)) name); (split; [done|]); cbn; [|lia]. unfold work. destruct (k_running k); [done|]. cbn. lia.
Qed.

Lemma kernel_run_ok es : forall ph, phase_ok ph ->
  let ph' := foldl (kstep dg nodes total) ph es in phase_ok ph' /\ (phaseWork ph' + taken ph es <= phaseWork ph)%nat.
Proof.
  induction es as [|e es IH]; intros ph Hp; cbn [foldl taken]; [split; [done|lia]|]. destruct (kstep_ok ph e Hp) as [H1 H2]. destruct (IH _ H1) as [H3 H4].
  split; [done|lia].
Qed.

Lemma advance_results k : kinv k -> dinv (fun _ _ => True) k -> results_ok (advance dg nodes total k).
Proof.
  intros Hk Hd. pose proof (schedule_dinv _ nodes (fun n Hn => Hn) _ k Hk eq_refl Hd). by destruct (advance_spec k Hk) as (I1 & _ & [[-> ?]|(-> & ? & ?)]).
Qed.

Lemma run_results es : forall ph, results_ok ph -> results_ok (foldl (kstep dg nodes total) ph es).
Proof.
  induction es as [|e es IH]; intros ph Hp; [done|]. cbn [foldl]. apply IH. destruct ph as [k|r|er]; [|by destruct e..]. destruct Hp as [Hk Hd].
  destruct e as [x o|x er]; cbn [kstep]; destruct (has (map fst (k_running k)) x) eqn:Hin; try done. apply has_true in Hin.
  destruct (settleNode_cases x o k Hk Hin) as [(n & r & Hn & <- & _ & ->)|[[r ->] _]]; [|done]. apply advance_results; [by apply assess_inv|by apply assess_dinv].
Qed.

Lemma initial_fields results : let k := initialState nodes results in
  k_pending k = map nodeName nodes /\ k_running k = [] /\ k_satisfied k = [] /\ k_unsatisfied k = [] /\ k_blocked k = [] /\ k_completed k = 0%nat /\ k_results k = results.
Proof.
  unfold initialState. set (k0 := {| k_pending := _ |}).
  assert (Hg : forall l k, let k' := foldl (fun k n => emit (nodeName n) queued k) k l in k_pending k' = k_pending k /\ k_running k' = k_running k /\ k_satisfied k' = k_satisfied k /\
    k_unsatisfied k' = k_unsatisfied k /\ k_blocked k' = k_blocked k /\ k_completed k' = k_completed k /\ k_results k' = k_results k).
  { clear. intros l. induction l as [|n l IH]; intros k; cbn; [done|]. apply (IH (emit (nodeName n) queued k)). }
  apply (Hg nodes k0).
Qed.

Lemma kernel_initial_inv results : kinv (initialState nodes results) /\ work (initialState nodes results) = length nodes.
Proof.
  destruct (initial_fields results) as (E1 & E2 & E3 & E4 & E5 & E6 & _). set (k := initialState nodes results) in *.
  split; [|unfold work; rewrite E1, E2, length_map; cbn; lia].
  split; unfold places; rewrite ?E1, ?E2, ?E3, ?E4, ?E5, ?E6; cbn; try done.
  - by rewrite !app_nil_r.
  - intros n b _ Hx. by apply elem_of_nil in Hx.
  - intros n _ Hx. by apply elem_of_nil in Hx.
  - unfold maxParallel. lia.
  - intros x Hx. by apply elem_of_nil in Hx.
  - split; [constructor|by intros x ?%elem_of_nil].
  - intros n _ Hx. by apply elem_of_nil in Hx.
Qed.

Lemma initial_dinv allowed results : dinv allowed (initialState nodes results).
Proof.
  destruct (initial_fields results) as (_ & _ & E3 & E4 & _). split; intros n _; rewrite ?E3, ?E4; cbn; by intros ?%elem_of_nil.
Qed.
(** ** The reference: one pass in dependency order *)

Section reference.
Context (out : string -> string).

Definition contractMet n : bool := contract n (out (nodeName n)).

Definition refPass (l : list (RuntimeNode P)) : list string :=
  foldl (fun acc n => if forallb (has acc) (n_dependencies n) && contractMet n then (acc ++ [nodeName n])%list else acc) [] l.

Definition refSatisfied : list string := refPass nodes.

(** The step runs: all its dependencies are satisfied. *)
Definition refRan n : bool := forallb (has refSatisfied) (n_dependencies n).

Lemma refPass_app l n : refPass (l ++ [n]) = if forallb (has (refPass l)) (n_dependencies n) && contractMet n then (refPass l ++ [nodeName n])%list else refPass l.
Proof. unfold refPass. by rewrite foldl_app. Qed.

Lemma refPass_names l x : x ∈ refPass l -> x ∈ map nodeName l.
Proof.
  induction l as [|n l IH] using rev_ind; [done|]. rewrite refPass_app, map_app. destruct (_ && _); intros Hx; apply elem_of_app; [|auto].
  apply elem_of_app in Hx as [?|?]; auto.
Qed.

(** Later steps do not change what is known of the earlier ones. *)
Lemma refPass_prefix l1 l2 x : NoDup (map nodeName (l1 ++ l2)) -> x ∈ map nodeName l1 -> (x ∈ refPass (l1 ++ l2) <-> x ∈ refPass l1).
Proof.
  induction l2 as [|n l2 IH] using rev_ind; intros Hn Hx; [by rewrite app_nil_r|]. rewrite app_assoc in *. rewrite map_app in Hn. apply NoDup_app in Hn as (N1 & N2 & _).
  rewrite refPass_app. destruct (_ && _); [|by apply IH]. rewrite elem_of_app, IH by done. split; [|by left]. intros [?|Hl]; [done|].
  apply list_elem_of_singleton in Hl as ->. exfalso. apply (N2 (nodeName n)); [|by left]. rewrite map_app. apply elem_of_app. by left.
Qed.

Lemma forallb_has_iff l l' (ds : list string) : (forall d, d ∈ ds -> (d ∈ l <-> d ∈ l')) -> forallb (has l) ds = forallb (has l') ds.
Proof.
  intros Hd. apply eq_iff_eq_true. rewrite !forallb_forall. setoid_rewrite has_true. setoid_rewrite <- list_elem_of_In. split; intros Ha d Hin; apply Hd; auto.
Qed.

Lemma ref_char n : n ∈ nodes -> (nodeName n ∈ refSatisfied <-> refRan n = true /\ contractMet n = true).
Proof.
  intros Hn. apply list_elem_of_split in Hn as (l1 & l2 & Hl). unfold refRan, refSatisfied.
  assert (Hpre : forallb (has (refPass nodes)) (n_dependencies n) = forallb (has (refPass l1)) (n_dependencies n)).
  { apply forallb_has_iff. intros d Hd. rewrite Hl. apply refPass_prefix; [by rewrite <- Hl|]. by apply (behind l1 n l2 Hl). }
  rewrite Hpre. assert (Hl' : nodes = ((l1 ++ [n]) ++ l2)%list) by (by rewrite <- app_assoc). rewrite Hl' at 1.
  rewrite refPass_prefix; [|by rewrite <- Hl'|rewrite map_app; apply elem_of_app; right; by left].
  rewrite refPass_app. assert (Hno : nodeName n ∉ refPass l1).
  { intros Hx%refPass_names. rewrite Hl, map_app in distinct. apply NoDup_app in distinct as (_ & Hd & _). apply (Hd _ Hx). by left. }
  clear Hpre Hl Hl'. destruct (forallb _ _), (contractMet n); cbn; [|by split; [|intros []]..]. rewrite elem_of_app, list_elem_of_singleton. split; auto.
Qed.

(** When nothing is left the satisfied steps are those of the reference. *)
Notation outIs := (fun x r => r = out x).

Lemma final_satisfied k : kinv k -> dinv outIs k -> k_running k = [] -> k_pending k = [] -> forall n, n ∈ nodes -> (nodeName n ∈ k_satisfied k <-> nodeName n ∈ refSatisfied).
Proof.
  intros Hk Hd Hr Hp. assert (Hplace : forall n, n ∈ nodes -> nodeName n ∈ k_satisfied k \/ nodeName n ∈ mkeys (k_unsatisfied k)).
  { intros n Hn. assert (Hx : nodeName n ∈ places k) by (rewrite (ki_places _ Hk); by apply list_elem_of_fmap_2). unfold places in Hx. rewrite Hr, Hp in Hx.
    cbn in Hx. by apply elem_of_app in Hx. }
  assert (Happart : forall x, x ∈ mkeys (k_unsatisfied k) -> x ∉ k_satisfied k).
  { intros x Hx Hy. pose proof (places_NoDup k Hk) as Hn. unfold places in Hn. rewrite Hr, Hp in Hn. cbn in Hn. apply NoDup_app in Hn as (_ & Hn & _). by apply (Hn x Hy). }
  cut (forall l2 l1, nodes = (l1 ++ l2)%list -> forall n, n ∈ l1 -> (nodeName n ∈ k_satisfied k <-> nodeName n ∈ refSatisfied)).
  { intros Hc n Hn. apply (Hc [] nodes); [by rewrite app_nil_r|done]. }
  intros l2 l1. revert l2. induction l1 as [|m l1 IH] using rev_ind; intros l2 Hl n Hn; [by apply elem_of_nil in Hn|].
  rewrite <- app_assoc in Hl. cbn in Hl. specialize (IH _ Hl). apply elem_of_app in Hn as [Hn|Hn]; [by apply IH|]. apply list_elem_of_singleton in Hn as ->.
  assert (Hm : m ∈ nodes) by (rewrite Hl; apply elem_of_app; right; by left).
  assert (Hdep : forall d, d ∈ n_dependencies m -> (d ∈ k_satisfied k <-> d ∈ refSatisfied)).
  { intros d Hdm. pose proof (behind l1 m l2 Hl d Hdm) as Hx. apply list_elem_of_fmap in Hx as (n & -> & Hn). by apply IH. }
  rewrite (ref_char m Hm). unfold refRan. rewrite <- (forallb_has_iff (k_satisfied k)) by done. fold (dependenciesSatisfied m k). rewrite dependenciesSatisfied_spec.
  split.
  - intros Hs. split; [by apply (ki_satisfied _ Hk)|]. by destruct (di_satisfied _ _ Hd m Hm Hs) as (r & _ & -> & Hc).
  - intros [Hrd Hc]. destruct (Hplace m Hm) as [?|Hu]; [done|]. exfalso. pose proof (ki_why _ Hk m Hm Hu) as Hw. pose proof (di_unsatisfied _ _ Hd m Hm Hu) as Hx.
    destruct (has (k_blocked k) (nodeName m)); [|destruct Hx as (r & _ & -> & Hf); unfold contractMet in Hc; congruence]. destruct Hw as (d & Hdm & Hdu). by apply (Happart d Hdu), Hrd.
Qed.

(** The other steps were blocked. *)
Lemma final_blocked k : kinv k -> dinv outIs k -> k_running k = [] -> k_pending k = [] -> forall n, n ∈ nodes -> (nodeName n ∈ k_blocked k <-> refRan n = false).
Proof.
  intros Hk Hd Hr Hp n Hn. assert (Hdep : forall d, d ∈ n_dependencies n -> (d ∈ k_satisfied k <-> d ∈ refSatisfied)).
  { intros d Hdn. apply list_elem_of_split in Hn as (l1 & l2 & Hl). pose proof (behind l1 n l2 Hl d Hdn) as Hx. apply list_elem_of_fmap in Hx as (m & -> & Hm).
    apply final_satisfied; try done. rewrite Hl. apply elem_of_app. by left. }
  unfold refRan. rewrite <- (forallb_has_iff (k_satisfied k)) by done. fold (dependenciesSatisfied n k). rewrite <- not_true_iff_false, dependenciesSatisfied_spec. split.
  - intros Hb. pose proof (proj2 (ki_blocked _ Hk) _ Hb) as Hu. pose proof (ki_why _ Hk n Hn Hu) as Hw. rewrite (proj2 (has_true _ _) Hb) in Hw.
    destruct Hw as (d & Hdn & Hdu). intros Hready. apply (Hready d) in Hdn. pose proof (places_NoDup k Hk) as Hnd. unfold places in Hnd. rewrite Hr, Hp in Hnd. cbn in Hnd.
    apply NoDup_app in Hnd as (_ & Hnd & _). by apply (Hnd d).
  - intros Hno. assert (Hx : nodeName n ∈ places k) by (rewrite (ki_places _ Hk); by apply list_elem_of_fmap_2). unfold places in Hx. rewrite Hr, Hp in Hx. cbn in Hx.
    apply elem_of_app in Hx as [Hs|Hu]; [by destruct Hno; apply (ki_satisfied _ Hk)|]. pose proof (ki_why _ Hk n Hn Hu) as Hw.
    destruct (has (k_blocked k) (nodeName n)) eqn:Hb; [by apply has_true|done].
Qed.

Lemma filter_negb_length {A} (f : A -> bool) l : (length (List.filter f l) + length (List.filter (fun x => negb (f x)) l) = length l)%nat.
Proof. induction l as [|x l IH]; cbn; [done|]. destruct (f x); cbn; lia. Qed.

(** The reference's account of the run. *)
Definition refResult n : string := if refRan n then out (nodeName n) else buildDependencyBlockedResult (nodeName n).

Record agrees (r : PipelineResult) : Prop := {
  ag_status : pr_status r = if forallb refRan nodes then pipeline_completed else pipeline_failed;
  ag_completed : pr_completedSteps r = length (List.filter refRan nodes);
  ag_results : forall n, n ∈ nodes -> mget (pr_results r) (nodeName n) = Some (refResult n);
}.

Section final.
Context (k : KState) (Hk : kinv k) (Hd : dinv outIs k) (Hr : k_running k = []) (Hp : k_pending k = []).

Lemma final_places n : n ∈ nodes -> nodeName n ∈ k_satisfied k \/ nodeName n ∈ mkeys (k_unsatisfied k).
Proof.
  intros Hn. assert (Hx : nodeName n ∈ places k) by (rewrite (ki_places _ Hk); by apply list_elem_of_fmap_2). unfold places in Hx. rewrite Hr, Hp in Hx. cbn in Hx.
  by apply elem_of_app in Hx.
Qed.

Lemma NoDup_map_filter (f : RuntimeNode P -> bool) l : NoDup (map nodeName l) -> NoDup (map nodeName (List.filter f l)).
Proof.
  induction l as [|n l IH]; cbn; [done|]. intros [Hn Hl]%NoDup_cons. destruct (f n); [|by apply IH]. cbn. apply NoDup_cons. split; [|by apply IH].
  intros (m & He & Hm)%list_elem_of_fmap. apply Hn. rewrite He. apply list_elem_of_fmap_2. apply list_elem_of_In, filter_In in Hm as [Hm _]. by apply list_elem_of_In.
Qed.

Lemma final_blocked_perm : k_blocked k ≡ₚ map nodeName (List.filter (fun n => negb (refRan n)) nodes).
Proof.
  pose proof (final_blocked k Hk Hd Hr Hp) as Hbl. apply list.NoDup_Permutation; [apply (ki_blocked _ Hk)|by apply NoDup_map_filter|].
  intros x. rewrite list_elem_of_fmap. setoid_rewrite list_elem_of_In. setoid_rewrite filter_In. setoid_rewrite <- list_elem_of_In. setoid_rewrite negb_true_iff. split.
  - intros Hx. assert (Hin : x ∈ map nodeName nodes) by (rewrite <- (ki_places _ Hk); unfold places; rewrite !elem_of_app; right; right; right; by apply (ki_blocked _ Hk)).
    apply list_elem_of_fmap in Hin as (n & -> & Hn). exists n. split; [done|]. split; [done|]. by apply Hbl.
  - intros (n & -> & Hn & Hf). by apply Hbl.
Qed.

Lemma final_count : k_completed k = length (List.filter refRan nodes).
Proof.
  pose proof (ki_count _ Hk) as Hc. pose proof (Permutation_length (ki_places _ Hk)) as Hpl. unfold places in Hpl. rewrite Hr, Hp in Hpl.
  cbn [app map] in Hpl. rewrite length_app in Hpl. unfold mkeys in Hpl. rewrite !length_map in Hpl. pose proof (Permutation_length final_blocked_perm) as Hb. rewrite length_map in Hb.
  pose proof (filter_negb_length refRan nodes). lia.
Qed.

Lemma final_results n : n ∈ nodes -> mget (k_results k) (nodeName n) = Some (refResult n).
Proof.
  intros Hn. pose proof (final_blocked k Hk Hd Hr Hp n Hn) as Hbl. unfold refResult. destruct (refRan n) eqn:Hrn.
  - destruct (final_places n Hn) as [Hs|Hu]; [by destruct (di_satisfied _ _ Hd n Hn Hs) as (r & ? & -> & _)|]. pose proof (di_unsatisfied _ _ Hd n Hn Hu) as Hx.
    destruct (has (k_blocked k) (nodeName n)) eqn:Hb; [apply has_true, Hbl in Hb; congruence|]. by destruct Hx as (r & ? & -> & _).
  - assert (Hb : nodeName n ∈ k_blocked k) by by apply Hbl. pose proof (di_unsatisfied _ _ Hd n Hn (proj2 (ki_blocked _ Hk) _ Hb)) as Hx.
    by rewrite (proj2 (has_true _ _) Hb) in Hx.
Qed.

Lemma final_status : k_blocked k = [] <-> forallb refRan nodes = true.
Proof.
  rewrite forallb_forall. setoid_rewrite <- list_elem_of_In. split.
  - intros He n Hn. apply not_false_iff_true. intros Hf. apply (final_blocked k Hk Hd Hr Hp n Hn) in Hf. rewrite He in Hf. by apply elem_of_nil in Hf.
  - intros Hall. pose proof final_blocked_perm as Hperm. destruct (k_blocked k) as [|x l]; [done|]. exfalso. assert (Hx : x ∈ x :: l) by by left. rewrite Hperm in Hx.
    apply list_elem_of_fmap in Hx as (n & _ & Hn). apply list_elem_of_In, filter_In in Hn as [Hn Hf]. apply negb_true_iff in Hf. rewrite Hall in Hf; [done|]. by apply list_elem_of_In.
Qed.

Lemma final_agrees : agrees (finalResult total k).
Proof.
  pose proof final_status as Hs. pose proof final_count. pose proof final_results. unfold finalResult.
  destruct (k_blocked k) as [|x l]; (split; cbn [failedResult pr_status pr_completedSteps pr_results]; [|done..]).
  - by rewrite (proj1 Hs eq_refl).
  - destruct (forallb refRan nodes); [by discriminate (proj2 Hs eq_refl)|done].
Qed.
End final.

(** Runs in which every started step completes with its own result. *)
Definition completes (e : KEvent) : Prop := exists x, e = Settled x (OCompleted (out x)).

Definition agreed (ph : KPhase) : Prop := match ph with Waiting k => kinv k /\ dinv outIs k | Done r => agrees r | Thrown _ => False end.

Lemma advance_agreed k : kinv k -> dinv outIs k -> agreed (advance dg nodes total k).
Proof.
  intros Hk Hd. pose proof (schedule_dinv outIs nodes (fun n Hn => Hn) _ k Hk eq_refl Hd) as Hd'. destruct (advance_spec k Hk) as (I1 & _ & [[-> ?]|(-> & ? & ?)]); [done|].
  by apply final_agrees.
Qed.

Lemma run_agreed es : Forall completes es -> forall ph, agreed ph -> agreed (foldl (kstep dg nodes total) ph es).
Proof.
  induction 1 as [|e es [x ->] _ IH]; intros ph Hp; [done|]. cbn [foldl]. apply IH. destruct ph as [k|r|er]; [|done..]. destruct Hp as [Hk Hd]. cbn [kstep].
  destruct (has (map fst (k_running k)) x) eqn:Hin; [|done]. apply has_true in Hin.
  destruct (settleNode_cases x (OCompleted (out x)) k Hk Hin) as [(n & r & Hn & <- & Hr & ->)|[_ Hne]]; [|by destruct (Hne _ eq_refl)].
  rewrite (Hr _ eq_refl). apply advance_agreed; [by apply assess_inv|by apply assess_dinv].
Qed.

End reference.
End schedule.

(** ** The kernel *)

Section kernel.
Context {P : Type} (dg : Delegate P) (deterministic : PipelineResult) (steps : list (PlannerStep P)) (edges : list WorkflowGraphEdge) (results : jsmap string)
  (startFrom : Z).

Lemma dag_distinct nodes : materializeDag steps edges = Ok nodes -> NoDup (map nodeName nodes).
Proof. intros Hm. rewrite (do_names _ _ _ (materializeDag_dag _ _ _ Hm)). pose proof (materializeDag_spec steps edges) as Hs. rewrite Hm in Hs. apply Hs. Qed.

Lemma dag_behind nodes : materializeDag steps edges = Ok nodes -> forall l1 n l2, nodes = (l1 ++ n :: l2)%list -> forall d, d ∈ n_dependencies n -> d ∈ map nodeName l1.
Proof. intros Hm l1 n l2 He. by apply (do_nodes _ _ _ (materializeDag_dag _ _ _ Hm) l1 n l2 He). Qed.

Lemma dag_step nodes n : materializeDag steps edges = Ok nodes -> n ∈ nodes -> n_step n ∈ steps /\ forall d, d ∈ n_dependencies n <-> depends steps edges (nodeName n) d.
Proof. intros Hm Hn. apply list_elem_of_split in Hn as (l1 & l2 & He). destruct (do_nodes _ _ _ (materializeDag_dag _ _ _ Hm) l1 n l2 He) as (? & _ & ? & _). done. Qed.

Lemma step_node nodes s : materializeDag steps edges = Ok nodes -> s ∈ steps -> exists n, n ∈ nodes /\ n_step n = s.
Proof.
  intros Hm Hs. assert (Hin : ps_name s ∈ map nodeName nodes) by (rewrite (do_names _ _ _ (materializeDag_dag _ _ _ Hm)); by apply list_elem_of_fmap_2).
  apply list_elem_of_fmap in Hin as (n & He & Hn). exists n. split; [done|]. destruct (dag_step nodes n Hm Hn) as [Hs' _].
  pose proof (dag_distinct nodes Hm) as Hd. rewrite (do_names _ _ _ (materializeDag_dag _ _ _ Hm)) in Hd.
  apply list_elem_of_lookup in Hs as [i Hi], Hs' as [j Hj]. assert (i = j) as ->; [|congruence].
  apply (NoDup_lookup (ps_name <$> steps) i j (ps_name s) Hd); rewrite list_lookup_fmap; [by rewrite Hi|rewrite Hj; cbn; by rewrite He].
Qed.

(** Every run either was over at once or began with the first schedule. *)
Lemma execute_cases :
  (exists r, execute dg deterministic steps edges results startFrom = Done r) \/
  (exists nodes, materializeDag steps edges = Ok nodes /\
    execute dg deterministic steps edges results startFrom = advance dg nodes (length steps) (initialState nodes results)).
Proof.
  unfold execute. destruct steps as [|s l] eqn:Hl; [left; eauto|]. rewrite <- Hl. destruct (0 <? startFrom)%Z; [left; eauto|].
  destruct (validatePipeline dg) as [[|c e]|]; [|left; eauto|]; (destruct (materializeDag steps edges) as [nodes|e'] eqn:Hm; [right; eauto|left; eauto]).
Qed.

Lemma run_done nodes total es r : foldl (kstep dg nodes total) (Done r) es = Done r.
Proof. induction es as [|e es IH]; [done|]. cbn [foldl]. by destruct e. Qed.

Lemma runKernel_waiting es k : runKernel dg deterministic steps edges results startFrom es = Waiting k ->
  exists nodes, materializeDag steps edges = Ok nodes /\ kinv dg nodes k /\ dinv dg nodes (fun _ _ => True) k /\ k_running k <> [].
Proof.
  unfold runKernel. destruct execute_cases as [[r ->]|(nodes & Hm & ->)]; [destruct (materializeDag _ _); by rewrite ?run_done|]. rewrite Hm. intros Hk. exists nodes.
  pose proof (dag_distinct nodes Hm) as Hd. pose proof (dag_behind nodes Hm) as Hb. destruct (kernel_initial_inv dg nodes results) as [Hi _].
  destruct (advance_ok dg nodes (length steps) Hd Hb _ Hi) as [Ha _]. destruct (kernel_run_ok dg nodes (length steps) Hd Hb es _ Ha) as [Hph _]. rewrite Hk in Hph.
  pose proof (run_results dg nodes (length steps) Hd Hb es _ (advance_results dg nodes (length steps) Hd Hb _ Hi (initial_dinv dg nodes _ results))) as Hr. rewrite Hk in Hr.
  split_and!; [done|apply Hph|apply Hr|apply Hph].
Qed.
(** C13. At every wait of the kernel each step is in exactly one place: waiting,
    running, satisfied, or ended otherwise. A running step has an exclusiveness as
    the delegate says, and each step it depends on has a result that satisfies its
    contract; no more steps run than the limit allows, and an exclusive one runs
    alone. *)
Theorem kernel_safety es k : runKernel dg deterministic steps edges results startFrom es = Waiting k ->
  places k ≡ₚ map ps_name steps /\
  (forall s b, s ∈ steps -> (ps_name s, b) ∈ k_running k -> b = isExclusiveNode dg s /\
    forall s', s' ∈ steps -> depends steps edges (ps_name s) (ps_name s') ->
      exists r, mget (k_results k) (ps_name s') = Some r /\ ds_satisfied (assessDependencySatisfaction dg s' r) = true) /\
  (Z.of_nat (length (k_running k)) <= maxParallel dg)%Z /\
  (forall x, (x, true) ∈ k_running k -> k_running k = [(x, true)]).
Proof.
  intros (nodes & Hm & Hk & Hd & _)%runKernel_waiting. split_and!; [|intros s b Hs Hrun|apply Hk|apply Hk].
  { rewrite (ki_places _ _ _ Hk). apply (do_names _ _ _ (materializeDag_dag _ _ _ Hm)). }
  destruct (step_node nodes s Hm Hs) as (n & Hn & <-). destruct (ki_running _ _ _ Hk n b Hn Hrun) as [Hready Hb]. split; [done|]. intros s' Hs' Hdep.
  destruct (step_node nodes s' Hm Hs') as (n' & Hn' & <-). destruct (dag_step nodes n Hm Hn) as [_ Hdeps]. apply Hdeps, Hready in Hdep.
  destruct (di_satisfied _ _ _ _ Hd n' Hn' Hdep) as (r & Hr & _ & Hc). by exists r.
Qed.

(** The settlements a run has taken. *)
Definition answered (es : list KEvent) : nat :=
  match materializeDag steps edges with
  | Ok nodes => taken dg nodes (length steps) (execute dg deterministic steps edges results startFrom) es
  | Err _ => O
  end.

(** C15. The kernel ends: whatever the order in which steps settle, it takes no more
    settlements than it has steps, counting those still waiting or running, and
    while it waits some step is running. *)
Theorem kernel_terminates es :
  let ph := runKernel dg deterministic steps edges results startFrom es in
  (answered es + match ph with Waiting k => length (k_pending k) + length (k_running k) | _ => 0 end <= length steps)%nat /\
  match ph with Waiting k => k_running k <> [] | _ => True end.
Proof.
  cbn zeta. split.
  2:{ destruct (runKernel _ _ _ _ _ _ _) as [k|r|e] eqn:Hrun; [|done..]. by apply runKernel_waiting in Hrun as (nodes & _ & _ & _ & ?). }
  unfold answered, runKernel. destruct execute_cases as [[r ->]|(nodes & Hm & ->)].
  - destruct (materializeDag steps edges) as [nodes|]; [|lia]. rewrite run_done. assert (He : forall total, taken dg nodes total (Done r) es = 0%nat); [|rewrite He; lia].
    intros total. induction es as [|e l IH]; [done|]. cbn [taken]. by destruct e.
  - rewrite Hm. pose proof (dag_distinct nodes Hm) as Hd. pose proof (dag_behind nodes Hm) as Hb. destruct (kernel_initial_inv dg nodes results) as [Hi Hw].
    destruct (advance_ok dg nodes (length steps) Hd Hb _ Hi) as [Ha Hle]. destruct (kernel_run_ok dg nodes (length steps) Hd Hb es _ Ha) as [_ Hrun].
    pose proof (Permutation_length (do_names _ _ _ (materializeDag_dag _ _ _ Hm))) as Hlen. rewrite !length_map in Hlen. revert Hrun.
    destruct (foldl _ _ es) as [k|r|e]; cbn [phaseWork]; unfold work; lia.
Qed.

(** C14. When every started step completes with a result of its own, the outcome does
    not depend on the order in which the steps settle, nor on the limits: the
    pipeline is completed exactly when one pass in dependency order runs every
    step, it counts the steps that pass runs, and their results are the steps'
    own, and those of the others the text that they were blocked. *)
Theorem kernel_schedule_independent (out : string -> string) nodes k0 es r : materializeDag steps edges = Ok nodes ->
  execute dg deterministic steps edges results startFrom = Waiting k0 -> Forall (completes out) es ->
  runKernel dg deterministic steps edges results startFrom es = Done r ->
  pr_status r = (if forallb (refRan dg nodes out) nodes then pipeline_completed else pipeline_failed) /\
  pr_completedSteps r = length (List.filter (refRan dg nodes out) nodes) /\
  forall n, n ∈ nodes -> mget (pr_results r) (nodeName n) = Some (if refRan dg nodes out n then out (nodeName n) else buildDependencyBlockedResult (nodeName n)).
Proof.
  intros Hm Hstart Hes. unfold runKernel. rewrite Hm. destruct execute_cases as [[r' He]|(nodes' & Hm' & ->)]; [by rewrite Hstart in He|].
  assert (nodes' = nodes) as -> by congruence. pose proof (dag_distinct nodes Hm) as Hd. pose proof (dag_behind nodes Hm) as Hb.
  destruct (kernel_initial_inv dg nodes results) as [Hi _].
  pose proof (run_agreed dg nodes (length steps) Hd Hb out es Hes _ (advance_agreed dg nodes (length steps) Hd Hb out _ Hi (initial_dinv dg nodes _ results))) as Hr.
  intros Hdone. rewrite Hdone in Hr. by destruct Hr.
Qed.
End kernel.

(** ** Concrete runs *)

Module KernelDemo.

Definition step (name : string) (deps : list string) (exclusive : bool) : PlannerStep bool :=
  {| ps_name := name; ps_dependsOn := Some deps; ps_payload := exclusive |}.

(** "d" runs alone; "e" waits for "c", by an edge, and for "a". *)
Definition steps := [step "e" ["a"] false; step "a" [] false; step "b" ["a"] false; step "c" [] false; step "d" [] true].
Definition edges := [{| ge_from := "c"; ge_to := "e" |}].

(** A result is good unless it is empty. *)
Definition delegate : Delegate bool := {|
  assessDependencySatisfaction := fun _ r => {| ds_satisfied := negb (String.eqb r ""); ds_reason := None; ds_hint := None |};
  isExclusiveNode := ps_payload; resolveMaxParallelism := Some 2%Z; validatePipeline := None |}.

Definition deterministic : PipelineResult := failedResult 0 None None None (initialState ([] : list (RuntimeNode bool)) []).

(** "c" does not meet its contract. *)
Definition out (x : string) : string := if String.eqb x "c" then "" else "out " +:+ x.

Definition settle (x : string) : KEvent := Settled x (OCompleted (out x)).
Definition nodes := match materializeDag steps edges with Ok nodes => nodes | Err _ => [] end.
Definition run es := runKernel delegate deterministic steps edges [] 0 es.
Definition waiting es : KState := match run es with Waiting k => k | _ => initialState nodes [] end.

Definition ended (l : list string) : PipelineResult := match run (map settle l) with Done r => r | _ => deterministic end.

Example run_names : map fst (k_running (waiting [])) = ["a"; "c"].
Proof. vm_compute. reflexivity. Qed.

Lemma kernel_safety_witness : exists k, run [settle "a"] = Waiting k /\ k_running k = [("c", false); ("b", false)] /\ places k ≡ₚ map ps_name steps.
Proof.
  exists (waiting [settle "a"]). split_and!; [vm_compute; reflexivity..|].
  apply (kernel_safety delegate deterministic steps edges [] 0 [settle "a"]). vm_compute. reflexivity.
Defined.

Lemma kernel_schedule_independent_witness : exists r, run (map settle ["c"; "a"; "b"; "d"]) = Done r /\ pr_status r = pipeline_failed /\ pr_completedSteps r = 4%nat /\
  pr_status (ended ["a"; "c"; "b"; "d"]) = pr_status r.
Proof.
  exists (ended ["c"; "a"; "b"; "d"]).
  destruct (kernel_schedule_independent delegate deterministic steps edges [] 0 out nodes (waiting []) (map settle ["c"; "a"; "b"; "d"]) (ended ["c"; "a"; "b"; "d"]))
    as (Hs & Hc & _);
    [vm_compute; reflexivity|vm_compute; reflexivity|repeat constructor; eexists; reflexivity|vm_compute; reflexivity|].
  split_and!; [vm_compute; reflexivity|rewrite Hs; vm_compute; reflexivity|rewrite Hc; vm_compute; reflexivity|vm_compute; reflexivity].
Defined.

(** A step that no other step depends on may miss its contract: the pipeline is completed. *)
Example leaf_contract_ignored :
  let r := runKernel delegate deterministic [step "c" [] false] [] [] 0 [settle "c"] in
  match r with Done r => pr_status r = pipeline_completed /\ pr_error r = None | _ => False end.
Proof. vm_compute. split; reflexivity. Qed.

(** A rejected step ends the call while the step beside it is still running. *)
Example rejected_leaves_running :
  run [] = Waiting (waiting []) /\ length (k_running (waiting [])) = 2%nat /\ run [Rejected "a" "boom"] = Thrown "boom".
Proof. vm_compute. split_and!; reflexivity. Qed.
End KernelDemo.
