(* ===== verification/PipelineExecutor.v ===== *)
(** * Pipeline executor (src/runtime/src/workflow/pipeline.ts, migrations.ts)

    [PipelineExecutor] runs the steps of a pipeline one after the other, saves a
    checkpoint before each of them, and resumes from it. A call is a list of
    awaits: what it waits for is a phase, and an answer of the memory backend, of
    the tool or of the progress tracker is an event. The pipelines are those of
    this executor, without planner steps. A checkpoint in the backend may stem
    from an older version; the time to live is an event. How the text of a tool
    is judged (llm/chat-executor-tool-utils.ts) and whether the approval engine
    has a rule for a step are parameters. Trace events, logging and [listActive]
    are left out. *)
From stdpp Require Import pretty.
From S2P Require Import Prelude JsMap JsString Kernel.
#[local] Open Scope string_scope.

(** ** Errors that a retry cannot resolve *)

Definition DETERMINISTIC_ERROR_PATTERNS : list string :=
  ["refusing destructive overwrite"; "is denied"; "permission denied"; "not allowed"; "shell operators/newlines are not allowed"; "matches deny prefix";
   "path restricted to"].

Definition isDeterministicPipelineStepError (error : string) : bool := existsb (includes (toLowerCase error)) DETERMINISTIC_ERROR_PATTERNS.

(** ** Data *)

Inductive StepErrorPolicy := policy_retry | policy_skip | policy_abort.

(** [checkpointKey]: the backend holds other values under other prefixes. *)
Definition checkpointKey (id : string) : string := "pipeline:" +:+ id.

Inductive CheckpointSource := live_runtime | migrated_checkpoint.
Inductive CheckpointTrust := trusted | needs_revalidation.
Inductive MigrationReason := schema_migrated | legacy_execution_envelope.

Record Provenance := { pv_source : CheckpointSource; pv_trust : CheckpointTrust; pv_recordedAt : Z; pv_reasons : list MigrationReason }.

(** A version number or text. *)
Inductive SchemaVersion := version_number (n : Z) | version_text (s : string).

Definition versionText (v : SchemaVersion) : string := match v with version_number n => pretty n | version_text s => s end.

Definition PIPELINE_CHECKPOINT_SCHEMA_VERSION : SchemaVersion := version_number 1.

Definition isCurrent (v : SchemaVersion) : bool := match v with version_number n => (n =? 1)%Z | version_text _ => false end.

Section pipeline.
Context {A : Type}.

Record PipelineStep := {
  st_name : string;
  st_tool : string;
  st_args : A;
  st_requiresApproval : option bool;
  st_onError : option StepErrorPolicy;
  st_maxRetries : option Z;
}.

Record Pipeline := { pp_id : string; pp_steps : list PipelineStep; pp_results : jsmap string; pp_createdAt : Z }.

Record Checkpoint := {
  cp_pipelineId : string;
  cp_pipeline : Pipeline;
  cp_stepIndex : nat;
  cp_results : jsmap string;
  cp_status : PipelineStatus;
  cp_updatedAt : Z;
  cp_provenance : option Provenance;
}.

(** What the backend holds: something else, or an object with a version, a
    provenance that parses (its reasons are a set), and the required fields. *)
Inductive Stored := NoObject | Object (version : option SchemaVersion) (provenance : option Provenance) (fields : option Checkpoint).

Definition with_provenance (p : option Provenance) (c : Checkpoint) : Checkpoint := {|
  cp_pipelineId := cp_pipelineId c; cp_pipeline := cp_pipeline c; cp_stepIndex := cp_stepIndex c; cp_results := cp_results c; cp_status := cp_status c; cp_updatedAt := cp_updatedAt c;
  cp_provenance := p |}.

(** The checkpoint with its provenance, as it is read and written. *)
Definition serializePipelineCheckpoint (c : Checkpoint) : Checkpoint :=
  with_provenance (Some (default {| pv_source := live_runtime; pv_trust := trusted; pv_recordedAt := cp_updatedAt c; pv_reasons := [] |} (cp_provenance c))) c.

Definition stored (c : Checkpoint) : Stored :=
  let c := serializePipelineCheckpoint c in Object (Some PIPELINE_CHECKPOINT_SCHEMA_VERSION) (cp_provenance c) (Some c).

Definition incompatible (received supported reason : string) : string :=
  "Unsupported PipelineCheckpoint schema version: " +:+ received +:+ ". Supported versions: " +:+ supported +:+ reason.

(** The migrated flag and the checkpoint. *)
Definition migratePipelineCheckpoint (raw : Stored) : result string (bool * Checkpoint) :=
  match raw with
  | NoObject => Err (incompatible "invalid" "" " (expected an object record)")
  | Object version provenance fields =>
      match version with
      | Some v => if isCurrent v then Ok tt else Err (incompatible (versionText v) "1" "")
      | None => Ok tt
      end ≫= fun _ =>
      match fields with
      | None => Err (incompatible (from_option versionText "invalid" version) "1" " (missing required checkpoint fields)")
      | Some c =>
          let reasons := default [] (pv_reasons <$> provenance) in
          let reasons :=
            match version with
            | None => if existsb (fun r => match r with schema_migrated => true | _ => false end) reasons then reasons else (reasons ++ [schema_migrated])%list
            | Some _ => reasons
            end in
          let suspect := match provenance with Some p => match pv_trust p with needs_revalidation => true | trusted => false end | None => false end in
          let provenance :=
            if (0 <? length reasons)%nat || suspect
            then Some {| pv_source := migrated_checkpoint; pv_trust := needs_revalidation; pv_recordedAt := cp_updatedAt c; pv_reasons := reasons |}
            else provenance in
          Ok (match version with None => true | Some _ => false end, serializePipelineCheckpoint (with_provenance provenance c))
      end
  end.

Definition requiresRevalidation (c : Checkpoint) : bool :=
  match cp_provenance c with Some p => match pv_trust p with needs_revalidation => true | trusted => false end | None => false end.

(** ** Calls *)

Inductive ToolAnswer := ToolReturned (result : string) | ToolThrew (error : string).

Record StepResult := { sr_result : string; sr_error : option string }.

(** A call at work on its steps; [w_completed] counts from the first step. *)
Record Work := { w_pipeline : Pipeline; w_results : jsmap string; w_completed : nat }.

(** What a call waits for while it is at a step. *)
Inductive StepPhase :=
| SavingStep
| SavingHalt
| Calling (attempt : nat) (firstError : string)
| LedgerRead (result : StepResult)
| Tracking.

Inductive Phase :=
| Reading (id : string)
| Migrating (c : Checkpoint)
| InStep (w : Work) (i : nat) (p : StepPhase)
| RemovingFailed (w : Work) (error : string)
| RemovingDone (w : Work)
| Removing (id : string)
| Returned (id : string) (r : PipelineResult)
| Threw (error : string)
| Removed.

Record Executor := {
  px_active : list string;
  px_store : jsmap Stored;
  px_runs : list Phase;
  px_calls : list (string * nat);
  px_now : Z;
}.

Definition with_active (a : list string) (x : Executor) : Executor :=
  {| px_active := a; px_store := px_store x; px_runs := px_runs x; px_calls := px_calls x; px_now := px_now x |}.
Definition with_store (s : jsmap Stored) (x : Executor) : Executor :=
  {| px_active := px_active x; px_store := s; px_runs := px_runs x; px_calls := px_calls x; px_now := px_now x |}.
Definition with_runs (r : list Phase) (x : Executor) : Executor :=
  {| px_active := px_active x; px_store := px_store x; px_runs := r; px_calls := px_calls x; px_now := px_now x |}.
Definition with_calls (c : list (string * nat)) (x : Executor) : Executor :=
  {| px_active := px_active x; px_store := px_store x; px_runs := px_runs x; px_calls := c; px_now := px_now x |}.

Section executor.
Context (didToolCallFail : string -> bool) (extractToolFailureText : string -> string).
Context (ruleFor : PipelineStep -> bool) (hasLedger hasTracker : bool).

Definition executeStep (a : ToolAnswer) : StepResult :=
  match a with
  | ToolReturned r => if didToolCallFail r then {| sr_result := r; sr_error := Some (extractToolFailureText r) |} else {| sr_result := r; sr_error := None |}
  | ToolThrew e => {| sr_result := ""; sr_error := Some e |}
  end.

(** [stepResult.error] as a condition: the empty text is no error. *)
Definition errorOf (r : StepResult) : option string := match sr_error r with Some "" | None => None | Some e => Some e end.

Definition runningResult (status : PipelineStatus) (w : Work) (resumeFrom : option nat) (error : option string) : PipelineResult := {|
  pr_status := status; pr_completionState := resolvePipelineCompletionState status (w_completed w); pr_results := w_results w;
  pr_completedSteps := w_completed w; pr_totalSteps := length (pp_steps (w_pipeline w)); pr_resumeFrom := resumeFrom; pr_error := error;
  pr_decomposition := None; pr_hint := None |}.

Definition returned (w : Work) (r : PipelineResult) : Phase := Returned (pp_id (w_pipeline w)) r.

Definition release (id : string) (x : Executor) : Executor := with_active (remove id (px_active x)) x.

(** The catch block. *)
Definition caught (w : Work) (error : string) (x : Executor) : Phase * Executor :=
  (returned w (runningResult pipeline_failed w None (Some error)), release (pp_id (w_pipeline w)) x).

(** The head of the loop. *)
Definition stepBegin (w : Work) (i : nat) (x : Executor) : Phase * Executor :=
  if (i <? length (pp_steps (w_pipeline w)))%nat then (InStep w i SavingStep, x) else (RemovingDone w, x).

Definition execute (p : Pipeline) (startFrom : nat) (x : Executor) : Phase * Executor :=
  if has (px_active x) (pp_id p) then
    (Returned (pp_id p) {| pr_status := pipeline_failed; pr_completionState := state_blocked; pr_results := pp_results p; pr_completedSteps := 0;
        pr_totalSteps := length (pp_steps p); pr_resumeFrom := None; pr_error := Some ("Pipeline " +:+ dq (pp_id p) +:+ " is already running");
        pr_decomposition := None; pr_hint := None |}, x)
  else stepBegin {| w_pipeline := p; w_results := pp_results p; w_completed := startFrom |} startFrom (with_active (set_add (px_active x) (pp_id p)) x).

Definition checkpointOf (w : Work) (i : nat) (status : PipelineStatus) (now : Z) : Checkpoint := {|
  cp_pipelineId := pp_id (w_pipeline w); cp_pipeline := w_pipeline w; cp_stepIndex := i; cp_results := w_results w; cp_status := status; cp_updatedAt := now;
  cp_provenance := None |}.

Definition saveCheckpoint (c : Checkpoint) (s : jsmap Stored) : jsmap Stored := mset (checkpointKey (cp_pipelineId c)) (stored c) s.
Definition removeCheckpoint (id : string) (s : jsmap Stored) : jsmap Stored := mdel (checkpointKey id) s.

(** The write that a phase waits for. *)
Definition pendingWrite (ph : Phase) (x : Executor) (s : jsmap Stored) : jsmap Stored :=
  match ph with
  | Migrating c => saveCheckpoint c s
  | InStep w i SavingStep => saveCheckpoint (checkpointOf w i pipeline_running (px_now x)) s
  | InStep w i SavingHalt => saveCheckpoint (checkpointOf w i pipeline_halted (px_now x)) s
  | RemovingFailed w _ | RemovingDone w => removeCheckpoint (pp_id (w_pipeline w)) s
  | Removing id => removeCheckpoint id s
  | _ => s
  end.

Definition callTool (w : Work) (i attempt : nat) (firstError : string) (x : Executor) : Phase * Executor :=
  (InStep w i (Calling attempt firstError), with_calls (px_calls x ++ [(pp_id (w_pipeline w), i)])%list x).

Definition needsApproval (s : PipelineStep) : bool := default false (st_requiresApproval s) && ruleFor s.

(** A step ended with a result, its own or a recovered one. *)
Definition stepDone (w : Work) (i : nat) (s : PipelineStep) (result : string) (x : Executor) : Phase * Executor :=
  let w := {| w_pipeline := w_pipeline w; w_results := mset (st_name s) result (w_results w); w_completed := S i |} in
  if hasTracker then (InStep w i Tracking, x) else stepBegin w (S i) x.

Definition maxRetries (s : PipelineStep) : Z := default 0%Z (st_maxRetries s).

Definition handleStepError (w : Work) (i : nat) (s : PipelineStep) (error : string) (x : Executor) : Phase * Executor :=
  match default policy_abort (st_onError s) with
  | policy_skip => stepDone w i s ("SKIPPED: " +:+ error) x
  | policy_retry =>
      if (0 <? maxRetries s)%Z && negb (isDeterministicPipelineStepError error) then callTool w i 1 error x else (RemovingFailed w error, x)
  | policy_abort => (RemovingFailed w error, x)
  end.

(** A retry has answered. *)
Definition retryAnswered (w : Work) (i : nat) (s : PipelineStep) (attempt : nat) (firstError : string) (r : StepResult) (x : Executor) : Phase * Executor :=
  match errorOf r with
  | None => stepDone w i s (sr_result r) x
  | Some e =>
      if isDeterministicPipelineStepError e then (RemovingFailed w firstError, x)
      else if (Z.of_nat (S attempt) <=? maxRetries s)%Z then callTool w i (S attempt) firstError x
      else (RemovingFailed w firstError, x)
  end.

Definition stepJudged (w : Work) (i : nat) (s : PipelineStep) (r : StepResult) (x : Executor) : Phase * Executor :=
  match errorOf r with None => stepDone w i s (sr_result r) x | Some e => handleStepError w i s e x end.

(** ** Answers *)

Definition noCheckpoint (id : string) : string := "No checkpoint found for pipeline " +:+ dq id.
Definition revalidationRequired (id : string) : string := "Checkpoint for pipeline " +:+ dq id +:+ " requires provenance revalidation before resume".

(** The pipeline with the context of its checkpoint. *)
Definition resumedPipeline (c : Checkpoint) : Pipeline :=
  {| pp_id := pp_id (cp_pipeline c); pp_steps := pp_steps (cp_pipeline c); pp_results := cp_results c; pp_createdAt := pp_createdAt (cp_pipeline c) |}.

Definition resumeChecked (id : string) (c : Checkpoint) (x : Executor) : Phase * Executor :=
  if requiresRevalidation c then (Threw (revalidationRequired id), x) else execute (resumedPipeline c) (cp_stepIndex c) x.

(** [resume] after its read. *)
Definition resumeRead (id : string) (x : Executor) : Phase * Executor :=
  match mget (px_store x) (checkpointKey id) with
  | None => (Threw (noCheckpoint id), x)
  | Some raw =>
      match migratePipelineCheckpoint raw with
      | Err e => (Threw e, x)
      | Ok (migrated, c) => if migrated then (Migrating c, x) else resumeChecked id c x
      end
  end.

(** The backend or the progress tracker refused. *)
Definition refused (e : string) (ph : Phase) (x : Executor) : Phase * Executor :=
  match ph with
  | Reading _ | Migrating _ | Removing _ => (Threw e, x)
  | InStep w i SavingStep | InStep w i SavingHalt | InStep w i (LedgerRead _) => caught w e x
  | InStep w i Tracking => stepBegin w (S i) x
  | RemovingFailed w _ | RemovingDone w => caught w e x
  | _ => (ph, x)
  end.

(** It answered; a write has taken effect. *)
Definition accepted (ph : Phase) (x : Executor) : Phase * Executor :=
  let x := with_store (pendingWrite ph x (px_store x)) x in
  match ph with
  | Reading id => resumeRead id x
  | Migrating c => resumeChecked (cp_pipelineId c) c x
  | InStep w i p =>
      match pp_steps (w_pipeline w) !! i, p with
      | Some s, SavingStep => if needsApproval s then (InStep w i SavingHalt, x) else callTool w i 0 "" x
      | Some s, LedgerRead r => stepJudged w i s r x
      | _, SavingHalt => (returned w (runningResult pipeline_halted w (Some i) None), x)
      | _, Tracking => stepBegin w (S i) x
      | _, _ => (ph, x)
      end
  | RemovingFailed w e => (returned w (runningResult pipeline_failed w None (Some e)), release (pp_id (w_pipeline w)) x)
  | RemovingDone w => (returned w (runningResult pipeline_completed w None None), release (pp_id (w_pipeline w)) x)
  | Removing id => (Removed, release id x)
  | Returned _ _ | Threw _ | Removed => (ph, x)
  end.

Definition toolAnswered (a : ToolAnswer) (ph : Phase) (x : Executor) : Phase * Executor :=
  match ph with
  | InStep w i (Calling attempt firstError) =>
      match pp_steps (w_pipeline w) !! i with
      | None => (ph, x)
      | Some s =>
          let r := executeStep a in
          match attempt with
          | O => if hasLedger then (InStep w i (LedgerRead r), x) else stepJudged w i s r x
          | S _ => retryAnswered w i s attempt firstError r x
          end
      end
  | _ => (ph, x)
  end.

(** ** Runs *)

(** Calls of the three methods, answers to the call [k], a write that has taken
    effect before its answer, the expiry of a key, and a new process. *)
Inductive Event :=
| Execute (p : Pipeline) (startFrom : nat)
| Resume (id : string)
| Remove (id : string)
| Refused (k : nat) (error : string)
| Accepted (k : nat)
| Lands (k : nat)
| Tool (k : nat) (a : ToolAnswer)
| Expire (id : string)
| Tick (now : Z)
| Restart.

Definition addRun (r : Phase * Executor) : Executor := with_runs (px_runs r.2 ++ [r.1])%list r.2.

Definition atRun (k : nat) (f : Phase -> Executor -> Phase * Executor) (x : Executor) : Executor :=
  match px_runs x !! k with
  | None => x
  | Some ph => let r := f ph x in with_runs (<[k := r.1]> (px_runs r.2)) r.2
  end.

Definition step (x : Executor) (e : Event) : Executor :=
  match e with
  | Execute p startFrom => addRun (execute p startFrom x)
  | Resume id => addRun (Reading id, x)
  | Remove id => addRun (Removing id, x)
  | Refused k e => atRun k (refused e) x
  | Accepted k => atRun k accepted x
  | Lands k => match px_runs x !! k with Some ph => with_store (pendingWrite ph x (px_store x)) x | None => x end
  | Tool k a => atRun k (toolAnswered a) x
  | Expire id => with_store (removeCheckpoint id (px_store x)) x
  | Tick now => {| px_active := px_active x; px_store := px_store x; px_runs := px_runs x; px_calls := px_calls x; px_now := now |}
  | Restart => with_active [] (with_runs [] x)
  end.

Definition newExecutor (s : jsmap Stored) : Executor := {| px_active := []; px_store := s; px_runs := []; px_calls := []; px_now := 0 |}.
End executor.
End pipeline.
Arguments PipelineStep : clear implicits.
Arguments Pipeline : clear implicits.
Arguments Checkpoint : clear implicits.
Arguments Stored : clear implicits.
Arguments Executor : clear implicits.
Arguments Phase : clear implicits.
Arguments Event : clear implicits.
Arguments Work : clear implicits.
