(* ===== verification/PipelineExecutorSpec.v ===== *)
(** * Pipeline executor: what a resumed pipeline computes, and which steps it repeats *)
From stdpp Require Import pretty.
From S2P Require Import Prelude JsMap JsString Kernel PipelineExecutor.
#[local] Open Scope string_scope.
#[local] Arguments remove : simpl never.
#[local] Arguments execute : simpl never.

Section pipeline.
Context {A : Type} (didToolCallFail : string -> bool) (extractToolFailureText : string -> string) (ruleFor : PipelineStep A -> bool) (hasLedger hasTracker : bool).
Implicit Types (p : Pipeline A) (c : Checkpoint A) (w : Work A) (ph : Phase A) (x : Executor A) (e : Event A) (raw : Stored A).

Notation accepted := (accepted ruleFor hasTracker).
Notation refused := (@refused A).
Notation toolAnswered := (toolAnswered didToolCallFail extractToolFailureText hasLedger hasTracker).
Notation step := (step didToolCallFail extractToolFailureText ruleFor hasLedger hasTracker).
Notation executeStep := (executeStep didToolCallFail extractToolFailureText).

(** ** Saved checkpoints *)

Lemma checkpointKey_inj i j : checkpointKey i = checkpointKey j -> i = j.
Proof. unfold checkpointKey. intros He. by apply (inj (String.append "pipeline:")) in He. Qed.

(** What the executor saves it reads back, trusted. *)
Lemma migrate_stored c : cp_provenance c = None ->
  migratePipelineCheckpoint (stored c) = Ok (false, serializePipelineCheckpoint c) /\ requiresRevalidation (serializePipelineCheckpoint c) = false.
Proof. intros Hp. unfold stored, serializePipelineCheckpoint, requiresRevalidation. rewrite Hp. by destruct c. Qed.

Lemma stored_index c c' : stored c = stored c' -> cp_stepIndex c' = cp_stepIndex c.
Proof. unfold stored, serializePipelineCheckpoint, with_provenance. cbn. congruence. Qed.

(** The checkpoints that are handed to [migratePipelineCheckpoint] keep what they say about the pipeline. *)
Lemma migrate_fields raw m c : migratePipelineCheckpoint raw = Ok (m, c) ->
  exists v pr c', raw = Object v pr (Some c') /\ (m = true -> v = None /\ requiresRevalidation c = true) /\
    cp_pipelineId c = cp_pipelineId c' /\ cp_pipeline c = cp_pipeline c' /\ cp_stepIndex c = cp_stepIndex c' /\ cp_results c = cp_results c'.
Proof.
  destruct raw as [|v pr [c'|]]; cbn; [done| |by destruct v as [v|]; [destruct (isCurrent v)|]].
  destruct v as [v|]; [destruct (isCurrent v); [|done]|]; cbn; intros [= <- <-]; [exists (Some v), pr, c'|exists None, pr, c']; (split_and!; [done| |done..]); [done|].
  intros _. split; [done|]. unfold requiresRevalidation. cbn. destruct (existsb _ _) eqn:He; [|by rewrite length_app, Nat.add_comm].
  destruct (default [] _); [done|]. done.
Qed.

(** ** The phases of one pipeline *)

(** The call is at work on the pipeline. *)
Definition workOf ph : option (Work A) := match ph with InStep w _ _ => Some w | RemovingFailed w _ => Some w | RemovingDone w => Some w | _ => None end.

Definition worksOn (id : string) ph : Prop := exists w, workOf ph = Some w /\ pp_id (w_pipeline w) = id.

(** ** The handlers leave the list of calls alone *)

Definition framed (x : Executor A) (r : Phase A * Executor A) : Prop := px_runs r.2 = px_runs x /\ px_store r.2 = px_store x /\ px_now r.2 = px_now x.

Lemma framed_refl ph x : framed x (ph, x).
Proof. done. Qed.

Lemma stepBegin_framed w i x : framed x (stepBegin w i x).
Proof. unfold stepBegin. by destruct (_ <? _)%nat. Qed.

Lemma execute_framed p n x : framed x (execute p n x).
Proof. unfold execute. destruct (has _ _); [done|]. exact (stepBegin_framed _ _ (with_active _ x)). Qed.

Lemma stepDone_framed w i s r x : framed x (stepDone hasTracker w i s r x).
Proof. unfold stepDone. destruct hasTracker; [done|apply stepBegin_framed]. Qed.

Lemma handleStepError_framed w i s er x : framed x (handleStepError hasTracker w i s er x).
Proof. unfold handleStepError. destruct (default _ _); [destruct (_ && _)|apply stepDone_framed|]; done. Qed.

Lemma stepJudged_framed w i s r x : framed x (stepJudged hasTracker w i s r x).
Proof. unfold stepJudged. destruct (errorOf r); [apply handleStepError_framed|apply stepDone_framed]. Qed.

Lemma retryAnswered_framed w i s a f r x : framed x (retryAnswered hasTracker w i s a f r x).
Proof. unfold retryAnswered. destruct (errorOf r); [destruct (isDeterministicPipelineStepError _); [done|]; by destruct (_ <=? _)%Z|apply stepDone_framed]. Qed.

Lemma resumeChecked_framed id c x : framed x (resumeChecked id c x).
Proof. unfold resumeChecked. destruct (requiresRevalidation c); [done|apply execute_framed]. Qed.

Lemma resumeRead_framed id x : framed x (resumeRead id x).
Proof. unfold resumeRead. destruct (mget _ _) as [raw|]; [|done]. destruct (migratePipelineCheckpoint raw) as [[[] c]|]; [done|apply resumeChecked_framed|done]. Qed.

Lemma refused_framed er ph x : framed x (refused er ph x).
Proof. destruct ph as [ | |w i []| | | | | | ]; cbn [refused]; try done. apply stepBegin_framed. Qed.

Lemma toolAnswered_framed a ph x : framed x (toolAnswered a ph x).
Proof.
  destruct ph as [ | |w i []| | | | | | ]; cbn [toolAnswered]; try done. destruct (_ !! i); [|done]. destruct attempt; [destruct hasLedger; [done|apply stepJudged_framed]|apply retryAnswered_framed].
Qed.

Lemma accepted_framed ph x : framed (with_store (pendingWrite ph x (px_store x)) x) (accepted ph x).
Proof.
  unfold accepted. set (x' := with_store _ x). destruct ph; try done; [apply resumeRead_framed|apply resumeChecked_framed|].
  destruct (pp_steps (w_pipeline w) !! i) as [s|], p; try done; try apply stepBegin_framed; [destruct (needsApproval _ s); done|apply stepJudged_framed].
Qed.

(** The checkpoint is one of the pipeline [id]. *)
Definition mentions (id : string) c : Prop := cp_pipelineId c = id \/ pp_id (cp_pipeline c) = id.

(** ** The results of a pipeline *)

Section results.
Context (tool : PipelineStep A -> ToolAnswer) (P : Pipeline A).

(** What a step comes to, when the tool always answers it the same way; [None]: it fails. *)
Definition stepOutcome (s : PipelineStep A) : option string :=
  let r := executeStep (tool s) in
  match errorOf r with
  | None => Some (sr_result r)
  | Some er => match default policy_abort (st_onError s) with policy_skip => Some ("SKIPPED: " +:+ er) | _ => None end
  end.

Definition refStep (acc : option (jsmap string)) (s : PipelineStep A) : option (jsmap string) :=
  match acc, stepOutcome s with Some r, Some o => Some (mset (st_name s) o r) | _, _ => None end.

(** The reference: the steps one after the other, without checkpoints. *)
Definition refRun (l : list (PipelineStep A)) : option (jsmap string) := foldl refStep (Some (pp_results P)) l.

Definition good (i : nat) (r : jsmap string) : Prop := refRun (take i (pp_steps P)) = Some r.

Lemma good_S i s r o : pp_steps P !! i = Some s -> good i r -> stepOutcome s = Some o -> good (S i) (mset (st_name s) o r).
Proof. unfold good, refRun. intros Hs Hg Ho. rewrite (take_S_r _ _ _ Hs), foldl_app, Hg. cbn. by rewrite Ho. Qed.

Definition mine w : Prop := pp_id (w_pipeline w) = pp_id P.

(** The work stands before the step [i], with the results of the reference. *)
Record at_step w (i : nat) : Prop := {
  as_steps : pp_steps (w_pipeline w) = pp_steps P;
  as_completed : w_completed w = i;
  as_good : good i (w_results w);
}.

Definition okStep w (i : nat) (ph : StepPhase) : Prop :=
  match ph with
  | Tracking => at_step w (S i)
  | LedgerRead r => at_step w i /\ forall s, pp_steps P !! i = Some s -> r = executeStep (tool s)
  | Calling (S _) _ => at_step w i /\ forall s, pp_steps P !! i = Some s -> errorOf (executeStep (tool s)) <> None
  | _ => at_step w i
  end.

Record okCheckpoint c : Prop := {
  oc_id : cp_pipelineId c = pp_id P /\ pp_id (cp_pipeline c) = pp_id P;
  oc_steps : pp_steps (cp_pipeline c) = pp_steps P;
  oc_index : (cp_stepIndex c < length (pp_steps P))%nat;
  oc_good : good (cp_stepIndex c) (cp_results c);
}.

Definition okStored raw : Prop :=
  match raw with Object _ _ (Some c) => mentions (pp_id P) c -> exists c', raw = stored c' /\ cp_provenance c' = None /\ okCheckpoint c' | _ => True end.

Definition okStore (s : jsmap (Stored A)) : Prop := forall k raw, mget s k = Some raw -> okStored raw.

Definition okPhase ph : Prop :=
  match ph with
  | Migrating c => ~ mentions (pp_id P) c
  | InStep w i p => mine w -> (i < length (pp_steps P))%nat /\ okStep w i p
  | RemovingDone w => mine w -> at_step w (length (pp_steps P))
  | Returned id r => id = pp_id P -> pr_status r = pipeline_completed -> good (length (pp_steps P)) (pr_results r) /\ pr_completedSteps r = length (pp_steps P)
  | _ => True
  end.

Lemma stepBegin_ok w i x : (mine w -> at_step w i /\ (i <= length (pp_steps P))%nat) -> okPhase (stepBegin w i x).1.
Proof.
  intros Hw. unfold stepBegin. destruct (Nat.ltb_spec i (length (pp_steps (w_pipeline w)))) as [Hi|Hi]; intros Hm; destruct (Hw Hm) as [Ha Hle]; destruct Ha as [H1 H2 H3].
  - rewrite H1 in Hi. by split.
  - rewrite H1 in Hi. assert (i = length (pp_steps P)) as <- by lia. done.
Qed.

Lemma stepDone_ok w i s o x : (mine w -> at_step w i /\ pp_steps P !! i = Some s /\ stepOutcome s = Some o) -> okPhase (stepDone hasTracker w i s o x).1.
Proof.
  intros Hw. unfold stepDone. set (w' := {| w_pipeline := _ |}).
  assert (Hw' : mine w' -> at_step w' (S i) /\ (i < length (pp_steps P))%nat).
  { intros Hm. destruct (Hw Hm) as ([H1 H2 H3] & Hs & Ho). split; [|by eapply lookup_lt_Some]. split; [done|done|]. by apply good_S. }
  destruct hasTracker.
  - intros Hm. destruct (Hw' Hm). by split.
  - apply stepBegin_ok. intros Hm. destruct (Hw' Hm). split; [done|lia].
Qed.

Lemma callTool_ok w i a er x : (mine w -> (i < length (pp_steps P))%nat /\ okStep w i (Calling a er)) -> okPhase (callTool w i a er x).1.
Proof. done. Qed.

Lemma stepJudged_ok w i s x : (mine w -> at_step w i /\ pp_steps P !! i = Some s) -> forall r, (mine w -> r = executeStep (tool s)) ->
  okPhase (stepJudged hasTracker w i s r x).1.
Proof.
  intros Hw r Hr. unfold stepJudged. destruct (errorOf r) as [er|] eqn:He.
  - unfold handleStepError. destruct (default policy_abort (st_onError s)) eqn:Hp; [destruct (_ && _); [|done]| |done].
    + intros Hm. destruct (Hw Hm) as [Ha Hs]. split; [by eapply lookup_lt_Some|]. split; [done|]. intros s' Hs'. rewrite Hs in Hs'. injection Hs' as <-.
      rewrite <- (Hr Hm). by rewrite He.
    + apply stepDone_ok. intros Hm. destruct (Hw Hm). split_and!; [done|done|]. unfold stepOutcome. rewrite <- (Hr Hm), He, Hp. done.
  - apply stepDone_ok. intros Hm. destruct (Hw Hm). split_and!; [done|done|]. unfold stepOutcome. by rewrite <- (Hr Hm), He.
Qed.

Lemma retryAnswered_ok w i s a f x : (mine w -> at_step w i /\ pp_steps P !! i = Some s /\ errorOf (executeStep (tool s)) <> None) ->
  forall r, (mine w -> r = executeStep (tool s)) -> okPhase (retryAnswered hasTracker w i s a f r x).1.
Proof.
  intros Hw r Hr. unfold retryAnswered. destruct (errorOf r) as [er|] eqn:He.
  - destruct (isDeterministicPipelineStepError er); [done|]. destruct (_ <=? _)%Z; [|done]. intros Hm. destruct (Hw Hm) as (Ha & Hs & Hn). split; [by eapply lookup_lt_Some|].
    split; [done|]. intros s' Hs'. by rewrite Hs in Hs'; injection Hs' as <-.
  - apply stepDone_ok. intros Hm. destruct (Hw Hm) as (_ & _ & Hn). rewrite <- (Hr Hm) in Hn. done.
Qed.

Lemma execute_ok p n x : (pp_id p = pp_id P -> pp_steps p = pp_steps P /\ (n <= length (pp_steps P))%nat /\ good n (pp_results p)) -> okPhase (execute p n x).1.
Proof. intros Hp. unfold execute. destruct (has _ _); [done|]. apply stepBegin_ok. intros Hm. destruct (Hp Hm) as (H1 & H2 & H3). split; [by split|done]. Qed.

Lemma resumeChecked_ok id c x : (mentions (pp_id P) c -> okCheckpoint c) -> okPhase (resumeChecked id c x).1.
Proof.
  intros Hc. unfold resumeChecked. destruct (requiresRevalidation c); [done|]. apply execute_ok. cbn. intros Hid. destruct (Hc (or_intror Hid)) as [_ ? ? ?].
  split_and!; [done|lia|done].
Qed.

Lemma resumeRead_ok id x : okStore (px_store x) -> okPhase (resumeRead id x).1.
Proof.
  intros Hs. unfold resumeRead. destruct (mget _ _) as [raw|] eqn:Hr; [|done]. apply Hs in Hr. destruct (migratePipelineCheckpoint raw) as [[m c]|er] eqn:Hm; [|done].
  destruct (migrate_fields _ _ _ Hm) as (v & pr & c' & -> & Hv & E1 & E2 & E3 & E4). cbn in Hr.
  assert (Hok : mentions (pp_id P) c -> okCheckpoint c /\ m = false).
  { intros Hx. unfold mentions in *. rewrite E1, E2 in Hx. destruct (Hr Hx) as (c0 & He & Hp & Hc0). rewrite He in Hm. destruct (migrate_stored c0 Hp) as [Hms _].
    rewrite Hms in Hm. injection Hm as <- <-. split; [|done]. by destruct Hc0. }
  destruct m; [intros Hx; by destruct (Hok Hx)|]. apply resumeChecked_ok. intros Hx. by apply Hok.
Qed.

Lemma okStore_save c s : okStored (stored c) -> okStore s -> okStore (saveCheckpoint c s).
Proof. intros Hc Hs k raw. unfold saveCheckpoint. rewrite mget_mset. case_match; [by intros [= <-]|apply Hs]. Qed.

Lemma okStore_remove id s : okStore s -> okStore (removeCheckpoint id s).
Proof. intros Hs k raw. unfold removeCheckpoint. rewrite mget_mdel. case_match; [done|apply Hs]. Qed.

Lemma saved_ok w i st now : (mine w -> (i < length (pp_steps P))%nat /\ at_step w i) -> okStored (stored (checkpointOf w i st now)).
Proof.
  intros Hw Hm. exists (checkpointOf w i st now). split; [done|]. split; [done|]. assert (Hid : mine w) by (by destruct Hm). destruct (Hw Hid) as [Hi [H1 H2 H3]]. by split.
Qed.

Lemma pendingWrite_ok ph x : okPhase ph -> okStore (px_store x) -> okStore (pendingWrite ph x (px_store x)).
Proof.
  intros Hp Hs. destruct ph as [id|c|w i []|w er|w|id|id r|er| ]; cbn [pendingWrite]; try done; try by apply okStore_remove.
  - apply okStore_save; [|done]. intros Hm. by destruct Hp.
  - apply okStore_save; [|done]. by apply saved_ok.
  - apply okStore_save; [|done]. by apply saved_ok.
Qed.

Lemma refused_ok er ph x : okPhase ph -> okPhase (refused er ph x).1.
Proof.
  destruct ph as [id|c|w i []|w e'|w|id|id r|e'| ]; cbn [refused]; try done. intros Hp. apply stepBegin_ok. intros Hm. destruct (Hp Hm) as [Hi Ha]. split; [done|lia].
Qed.

Lemma accepted_ok ph x : okPhase ph -> okStore (px_store x) -> okPhase (accepted ph x).1.
Proof.
  intros Hp Hs. pose proof (pendingWrite_ok ph x Hp Hs) as Hs'. unfold accepted. set (x' := with_store _ x).
  destruct ph as [id|c|w i p|w er|w|id|id r|er| ]; try done.
  - by apply resumeRead_ok.
  - apply resumeChecked_ok. by intros ?.
  - destruct (pp_steps (w_pipeline w) !! i) as [s|] eqn:Hl, p as [| |a er|r| ]; try done.
    + destruct (needsApproval ruleFor s); [done|]. by apply callTool_ok.
    + apply stepJudged_ok; intros Hm; destruct (Hp Hm) as (Hi & Ha & Hr); rewrite (as_steps _ _ Ha) in Hl; [done|by apply Hr].
    + apply stepBegin_ok. intros Hm. destruct (Hp Hm) as [Hi Ha]. split; [done|lia].
    + apply stepBegin_ok. intros Hm. destruct (Hp Hm) as [Hi Ha]. split; [done|lia].
  - intros Hid _. destruct (Hp Hid) as [H1 H2 H3]. cbn. split; [done|done].
Qed.

Lemma toolAnswered_ok a ph x : okPhase ph -> (forall w i att er s, ph = InStep w i (Calling att er) -> mine w -> pp_steps P !! i = Some s -> a = tool s) ->
  okPhase (toolAnswered a ph x).1.
Proof.
  intros Hp Ha. destruct ph as [id|c|w i p|w er|w|id|id r|er| ]; try done. destruct p as [| |att er|r| ]; try done. cbn [toolAnswered].
  destruct (pp_steps (w_pipeline w) !! i) as [s|] eqn:Hl; [|done].
  assert (Hs : mine w -> at_step w i /\ pp_steps P !! i = Some s /\ executeStep a = executeStep (tool s) /\ (i < length (pp_steps P))%nat).
  { intros Hm. destruct (Hp Hm) as [Hi Hok]. assert (Hat : at_step w i) by (destruct att; [done|by destruct Hok]). rewrite (as_steps _ _ Hat) in Hl.
    by rewrite (Ha w i att er s eq_refl Hm Hl). }
  destruct att as [|att].
  - destruct hasLedger.
    + intros Hm. destruct (Hs Hm) as (H1 & H2 & H3 & H4). split; [done|]. split; [done|]. intros s' Hs'. rewrite H2 in Hs'. by injection Hs' as <-.
    + apply stepJudged_ok; intros Hm; by destruct (Hs Hm) as (H1 & H2 & H3 & H4).
  - apply retryAnswered_ok; intros Hm; destruct (Hs Hm) as (H1 & H2 & H3 & H4); [|done]. split_and!; [done|done|]. destruct (Hp Hm) as (_ & _ & Hn). by apply Hn.
Qed.

(** ** Runs *)

Definition okExecutor x : Prop := okStore (px_store x) /\ Forall okPhase (px_runs x).

(** The calls for this pipeline are calls of this pipeline from its start, and the tool answers each of its steps in its own way. *)
Definition allowed x e : Prop :=
  match e with
  | Execute p n => pp_id p = pp_id P -> p = P /\ n = 0%nat
  | Tool k a => forall w i att er s, px_runs x !! k = Some (InStep w i (Calling att er)) -> mine w -> pp_steps P !! i = Some s -> a = tool s
  | _ => True
  end.

Fixpoint follows x (es : list (Event A)) : Prop := match es with [] => True | e :: es => allowed x e /\ follows (step x e) es end.

Lemma atRun_ok k (f : Phase A -> Executor A -> Phase A * Executor A) x : okExecutor x ->
  (forall ph, px_runs x !! k = Some ph -> okPhase ph -> okPhase (f ph x).1 /\ px_runs (f ph x).2 = px_runs x /\ okStore (px_store (f ph x).2)) -> okExecutor (atRun k f x).
Proof.
  intros [Hs Hr] Hf. unfold atRun. destruct (px_runs x !! k) as [ph|] eqn:Hk; [|done]. destruct (Hf ph eq_refl) as (H1 & H2 & H3); [by eapply Forall_lookup_1|].
  split; [done|]. cbn. rewrite H2. by apply Forall_insert.
Qed.

Lemma addRun_ok r : okStore (px_store r.2) -> Forall okPhase (px_runs r.2) -> okPhase r.1 -> okExecutor (addRun r).
Proof. intros Hs Hr Hp. split; [done|]. cbn. apply Forall_app. split; [done|by constructor]. Qed.

Lemma step_ok x e : okExecutor x -> allowed x e -> okExecutor (step x e).
Proof.
  intros [Hs Hr] Ha. destruct e as [p n|id|id|k er|k|k|k a|id|now| ]; cbn [step].
  - destruct (execute_framed p n x) as (F1 & F2 & _). apply addRun_ok; [by rewrite F2|by rewrite F1|]. apply execute_ok. intros Hid. destruct (Ha Hid) as [-> ->].
    split_and!; [done|lia|done].
  - by apply addRun_ok.
  - by apply addRun_ok.
  - apply atRun_ok; [done|]. intros ph _ Hp. destruct (refused_framed er ph x) as (F1 & F2 & _). split_and!; [by apply refused_ok|done|by rewrite F2].
  - apply atRun_ok; [done|]. intros ph _ Hp. destruct (accepted_framed ph x) as (F1 & F2 & _). split_and!; [by apply accepted_ok|done|]. rewrite F2. by apply pendingWrite_ok.
  - destruct (px_runs x !! k) as [ph|] eqn:Hk; [|done]. split; [|done]. apply pendingWrite_ok; [by eapply Forall_lookup_1|done].
  - apply atRun_ok; [done|]. intros ph Hk Hp. destruct (toolAnswered_framed a ph x) as (F1 & F2 & _). split_and!; [|done|by rewrite F2]. apply toolAnswered_ok; [done|].
    intros w i att er s -> Hm Hl. by eapply Ha.
  - split; [by apply okStore_remove|done].
  - done.
  - split; [done|constructor].
Qed.

Lemma run_results_ok es : forall x, okExecutor x -> follows x es -> okExecutor (foldl step x es).
Proof. induction es as [|e es IH]; intros x Hx Hf; [done|]. destruct Hf as [Ha Hf]. cbn [foldl]. apply IH; [by apply step_ok|done]. Qed.

(** C16. However often a pipeline is interrupted and resumed from its checkpoint, by
    the process or by the backend: a call that completes it returns the results
    of its steps run one after the other, and counts all of them. *)
Theorem resumed_pipeline_exact s es r : (forall k v pr c, mget s k = Some (Object v pr (Some c)) -> ~ mentions (pp_id P) c) -> follows (newExecutor s) es ->
  Returned (pp_id P) r ∈ px_runs (foldl step (newExecutor s) es) -> pr_status r = pipeline_completed ->
  refRun (pp_steps P) = Some (pr_results r) /\ pr_completedSteps r = length (pp_steps P).
Proof.
  intros Hs Hf Hr Hst. assert (H0 : okExecutor (newExecutor s)).
  { split; [|constructor]. intros k raw Hk. destruct raw as [|v pr [c|]]; [done| |done]. intros Hm. by destruct (Hs _ _ _ _ Hk). }
  destruct (run_results_ok es _ H0 Hf) as [_ Hall]. rewrite Forall_forall in Hall. destruct (Hall _ Hr eq_refl Hst) as [Hg Hc]. split; [|done].
  unfold good in Hg. by rewrite take_ge in Hg.
Qed.
End results.

(** ** One call at a time *)

Section exclusive.
Context (id : string).

(** What a handler may do with the work and the mark of the pipeline [id]. *)
Definition keeps ph x (r : Phase A * Executor A) : Prop :=
  (worksOn id r.1 -> (worksOn id ph /\ px_active r.2 = px_active x) \/ (id ∉ px_active x /\ id ∈ px_active r.2)) /\
  (id ∈ px_active x -> id ∈ px_active r.2 \/ (worksOn id ph /\ ~ worksOn id r.1)).

Lemma keeps_idle ph ph' x : workOf ph' = None -> keeps ph x (ph', x).
Proof. intros Hn. split; [|by left]. intros (w & Hw & _). cbn in Hw. congruence. Qed.

Lemma keeps_same w w' ph ph' x : workOf ph = Some w -> workOf ph' = Some w' -> pp_id (w_pipeline w') = pp_id (w_pipeline w) -> keeps ph x (ph', x).
Proof. intros H1 H2 He. split; [|by left]. intros (u & Hu & Hid). cbn in Hu. left. split; [|done]. exists w. split; [done|]. congruence. Qed.

Lemma keeps_calls ph x ph' l : keeps ph x (ph', x) -> keeps ph x (ph', with_calls l x).
Proof. done. Qed.

Lemma elem_remove (j y : string) l : y ∈ remove j l <-> y ∈ l /\ y <> j.
Proof. unfold remove. rewrite !list_elem_of_In, filter_In, negb_true_iff, String.eqb_neq. done. Qed.

Lemma keeps_release w ph ph' x : workOf ph = Some w -> workOf ph' = None -> keeps ph x (ph', release (pp_id (w_pipeline w)) x).
Proof.
  intros Hw Hn. assert (Hno : ~ worksOn id ph') by (intros (u & Hu & _); congruence). split; [done|]. intros Hin. cbn. rewrite elem_remove.
  destruct (decide (id = pp_id (w_pipeline w))) as [->|]; [right|by left]. split; [by exists w|done].
Qed.

Lemma stepBegin_keeps w w' i ph x : workOf ph = Some w -> pp_id (w_pipeline w') = pp_id (w_pipeline w) -> keeps ph x (stepBegin w' i x).
Proof. intros Hw He. unfold stepBegin. destruct (_ <? _)%nat; by eapply keeps_same. Qed.

Lemma stepDone_keeps w i s o ph x : workOf ph = Some w -> keeps ph x (stepDone hasTracker w i s o x).
Proof. intros Hw. unfold stepDone. destruct hasTracker; [by eapply keeps_same|by eapply stepBegin_keeps]. Qed.

Lemma callTool_keeps w i a er ph x : workOf ph = Some w -> keeps ph x (callTool w i a er x).
Proof. intros Hw. apply keeps_calls. by eapply keeps_same. Qed.

Lemma stepJudged_keeps w i s r ph x : workOf ph = Some w -> keeps ph x (stepJudged hasTracker w i s r x).
Proof.
  intros Hw. unfold stepJudged, handleStepError. destruct (errorOf r); [destruct (default _ _); [destruct (_ && _)| |]|]; try (by apply stepDone_keeps); try (by apply callTool_keeps);
    by eapply keeps_same.
Qed.

Lemma retryAnswered_keeps w i s a f r ph x : workOf ph = Some w -> keeps ph x (retryAnswered hasTracker w i s a f r x).
Proof.
  intros Hw. unfold retryAnswered. destruct (errorOf r); [|by apply stepDone_keeps]. destruct (isDeterministicPipelineStepError _); [by eapply keeps_same|].
  destruct (_ <=? _)%Z; [by apply callTool_keeps|by eapply keeps_same].
Qed.

Lemma execute_keeps p n ph x : keeps ph x (execute p n x).
Proof.
  unfold execute. destruct (has (px_active x) (pp_id p)) eqn:Ha; [by apply keeps_idle|]. apply has_false in Ha. unfold stepBegin.
  split; [|intros Hin; left; destruct (_ <? _)%nat; cbn; apply elem_set_add; by left].
  intros (w & Hw & <-). right. destruct (_ <? _)%nat; cbn in Hw; injection Hw as <-; (split; [done|]); cbn; apply elem_set_add; by right.
Qed.

Lemma resumeChecked_keeps j c ph x : keeps ph x (resumeChecked j c x).
Proof. unfold resumeChecked. destruct (requiresRevalidation c); [by apply keeps_idle|apply execute_keeps]. Qed.

Lemma refused_keeps er ph x : keeps ph x (refused er ph x).
Proof.
  destruct ph as [j|c|w i []|w e'|w|j|j r|e'| ]; cbn [refused]; try (by apply keeps_idle); try (by eapply keeps_same); try (by apply keeps_release). by eapply stepBegin_keeps.
Qed.

Lemma accepted_keeps ph x : ph <> Removing id -> keeps ph x (accepted ph x).
Proof.
  intros Hne. unfold accepted. set (x' := with_store _ x). change (keeps ph x) with (keeps ph x').
  destruct ph as [j|c|w i p|w er|w|j|j r|er| ]; try (by apply keeps_idle); try (by apply keeps_release).
  - unfold resumeRead. destruct (mget _ _) as [raw|]; [|by apply keeps_idle]. destruct (migratePipelineCheckpoint raw) as [[[] c]|]; try (by apply keeps_idle). apply resumeChecked_keeps.
  - apply resumeChecked_keeps.
  - destruct (pp_steps (w_pipeline w) !! i) as [s|], p; try (by apply keeps_idle); try (by eapply keeps_same); try (by eapply stepBegin_keeps).
    + destruct (needsApproval ruleFor s); [by eapply keeps_same|by apply callTool_keeps].
    + by apply stepJudged_keeps.
  - split; [by intros (w & Hw & _)|]. intros Hin. left. cbn. apply elem_remove. split; [done|]. congruence.
Qed.

Lemma toolAnswered_keeps a ph x : keeps ph x (toolAnswered a ph x).
Proof.
  destruct ph as [j|c|w i p|w er|w|j|j r|er| ]; try (by apply keeps_idle); try (by eapply keeps_same). destruct p as [| |att er|r| ]; try (by eapply keeps_same). cbn [toolAnswered].
  destruct (_ !! i) as [s|]; [|by eapply keeps_same]. destruct att; [destruct hasLedger; [by eapply keeps_same|by apply stepJudged_keeps]|by apply retryAnswered_keeps].
Qed.

(** At most one call works on the pipeline, and then it is marked as active; nobody removes it. *)
Record exclusive x : Prop := {
  ex_active : forall k ph, px_runs x !! k = Some ph -> worksOn id ph -> id ∈ px_active x;
  ex_one : forall k k' ph ph', px_runs x !! k = Some ph -> px_runs x !! k' = Some ph' -> worksOn id ph -> worksOn id ph' -> k = k';
  ex_kept : forall k, px_runs x !! k <> Some (Removing id);
}.

Definition quiet e : Prop := match e with Remove j => j <> id | _ => True end.

Lemma atRun_exclusive k (f : Phase A -> Executor A -> Phase A * Executor A) x : exclusive x ->
  (forall ph, px_runs x !! k = Some ph -> keeps ph x (f ph x) /\ px_runs (f ph x).2 = px_runs x /\ (f ph x).1 <> Removing id) -> exclusive (atRun k f x).
Proof.
  intros [X1 X2 X3] Hf. unfold atRun. destruct (px_runs x !! k) as [ph|] eqn:Hk; [|done]. destruct (Hf ph eq_refl) as ([K1 K2] & Hr & Hrm). set (r := f ph x) in *.
  assert (Hlook : forall j q, <[k:=r.1]> (px_runs x) !! j = Some q -> (j = k /\ q = r.1) \/ (j <> k /\ px_runs x !! j = Some q)).
  { intros j q. destruct (decide (j = k)) as [->|]; [rewrite list_lookup_insert_eq by (by eapply lookup_lt_Some); intros [= <-]; by left|]. rewrite list_lookup_insert_ne by done. by right. }
  split; cbn [with_runs px_runs px_active]; rewrite Hr.
  - intros j q [[-> ->]|[Hj Hq]]%Hlook Hw; [destruct (K1 Hw) as [[Hw' ->]|[_ ?]]; [by eapply X1|done]|].
    destruct (K2 (X1 _ _ Hq Hw)) as [?|[Hp _]]; [done|]. by destruct (Hj (X2 _ _ _ _ Hq Hk Hw Hp)).
  - intros j j' q q' [[-> ->]|[Hj Hq]]%Hlook [[-> ->]|[Hj' Hq']]%Hlook Hw Hw'; [done| | |by eapply X2].
    + destruct (K1 Hw) as [[Hp _]|[Hn _]]; [by destruct (Hj' (X2 _ _ _ _ Hq' Hk Hw' Hp))|by destruct Hn; eapply X1].
    + destruct (K1 Hw') as [[Hp _]|[Hn _]]; [by destruct (Hj (X2 _ _ _ _ Hq Hk Hw Hp))|by destruct Hn; eapply X1].
  - intros j Hq. apply Hlook in Hq as [[_ Hq]|[_ Hq]]; [by apply Hrm|by apply (X3 j)].
Qed.

Lemma addRun_exclusive r x : exclusive x -> (forall ph, workOf ph = None -> keeps ph x r) -> px_runs r.2 = px_runs x -> r.1 <> Removing id -> exclusive (addRun r).
Proof.
  intros [X1 X2 X3] Hk Hr Hrm. destruct (Hk Removed eq_refl) as [K1 K2]. assert (Hidle : ~ worksOn id (Removed : Phase A)) by by intros (w & Hw & _).
  assert (Hlook : forall j q, (px_runs x ++ [r.1])%list !! j = Some q -> (j = length (px_runs x) /\ q = r.1) \/ px_runs x !! j = Some q).
  { intros j q [Hq|[Hj Hq]]%lookup_app_Some; [by right|]. apply list_lookup_singleton_Some in Hq as [? <-]. left. split; [lia|done]. }
  split; cbn [addRun with_runs px_runs px_active]; rewrite Hr.
  - intros j q [[-> ->]|Hq]%Hlook Hw; [by destruct (K1 Hw) as [[? _]|[_ ?]]|]. destruct (K2 (X1 _ _ Hq Hw)) as [?|[? _]]; done.
  - intros j j' q q' [[-> ->]|Hq]%Hlook [[-> ->]|Hq']%Hlook Hw Hw'; [done| | |by eapply X2].
    + destruct (K1 Hw) as [[? _]|[Hn _]]; [done|by destruct Hn; eapply X1].
    + destruct (K1 Hw') as [[? _]|[Hn _]]; [done|by destruct Hn; eapply X1].
  - intros j [[_ Hq]|Hq]%Hlook; [by destruct Hrm|by apply (X3 j)].
Qed.

(** No handler starts a removal. *)
Definition notRemoving (r : Phase A * Executor A) : Prop := r.1 <> Removing id.

Lemma stepBegin_notRemoving w i x : notRemoving (stepBegin w i x).
Proof. unfold stepBegin, notRemoving. by destruct (_ <? _)%nat. Qed.

Lemma stepDone_notRemoving w i s o x : notRemoving (stepDone hasTracker w i s o x).
Proof. unfold stepDone. destruct hasTracker; [done|apply stepBegin_notRemoving]. Qed.

Lemma stepJudged_notRemoving w i s r x : notRemoving (stepJudged hasTracker w i s r x).
Proof.
  unfold stepJudged, handleStepError. destruct (errorOf r); [destruct (default _ _); [by destruct (_ && _)| |done]|]; apply stepDone_notRemoving.
Qed.

Lemma resumeChecked_notRemoving j c x : notRemoving (resumeChecked j c x).
Proof. unfold resumeChecked. destruct (requiresRevalidation c); [done|]. unfold execute. destruct (has _ _); [done|]. apply stepBegin_notRemoving. Qed.

Lemma handlers_notRemoving ph x : ph <> Removing id -> forall er a,
  notRemoving (refused er ph x) /\ notRemoving (accepted ph x) /\ notRemoving (toolAnswered a ph x).
Proof.
  intros Hne er a. split_and!.
  - destruct ph as [j|c|w i []|w e'|w|j|j r|e'| ]; cbn [refused]; try done. apply stepBegin_notRemoving.
  - unfold accepted. set (x' := with_store _ x). destruct ph as [j|c|w i p|w e'|w|j|j r|e'| ]; try done.
    + unfold resumeRead. destruct (mget _ _) as [raw|]; [|done]. destruct (migratePipelineCheckpoint raw) as [[[] c]|]; try done. apply resumeChecked_notRemoving.
    + apply resumeChecked_notRemoving.
    + destruct (pp_steps (w_pipeline w) !! i) as [s|], p; try done; try apply stepBegin_notRemoving; [by destruct (needsApproval ruleFor s)|apply stepJudged_notRemoving].
  - destruct ph as [j|c|w i p|w e'|w|j|j r|e'| ]; try done. destruct p as [| |att e'|r| ]; try done. cbn [toolAnswered]. destruct (_ !! i) as [s|]; [|done].
    destruct att; [destruct hasLedger; [done|apply stepJudged_notRemoving]|]. unfold retryAnswered. destruct (errorOf _); [|apply stepDone_notRemoving].
    destruct (isDeterministicPipelineStepError _); [done|]. by destruct (_ <=? _)%Z.
Qed.

Lemma step_exclusive x e : exclusive x -> quiet e -> exclusive (step x e).
Proof.
  intros Hx Hq. assert (Hrun : forall k ph, px_runs x !! k = Some ph -> ph <> Removing id) by (intros k ph Hk ->; by apply (ex_kept _ Hx k)).
  destruct e as [p n|j|j|k er|k|k|k a|j|now| ]; cbn [step].
  - apply (addRun_exclusive _ x); [done|by intros; apply execute_keeps|apply execute_framed|]. unfold execute. destruct (has _ _); [done|]. apply stepBegin_notRemoving.
  - apply (addRun_exclusive _ x); [done| |done|done]. intros ph _. by apply keeps_idle.
  - apply (addRun_exclusive _ x); [done| |done|cbn in *; congruence]. intros ph _. by apply keeps_idle.
  - apply atRun_exclusive; [done|]. intros ph Hk. split_and!; [apply refused_keeps|apply refused_framed|]. by apply (handlers_notRemoving ph x (Hrun _ _ Hk) er (ToolThrew "")).
  - apply atRun_exclusive; [done|]. intros ph Hk. split_and!; [apply accepted_keeps; by eapply Hrun|apply (accepted_framed ph x)|].
    by apply (handlers_notRemoving ph x (Hrun _ _ Hk) "" (ToolThrew "")).
  - destruct (px_runs x !! k) as [ph|]; [|done]. by destruct Hx.
  - apply atRun_exclusive; [done|]. intros ph Hk. split_and!; [apply toolAnswered_keeps|apply toolAnswered_framed|]. by apply (handlers_notRemoving ph x (Hrun _ _ Hk) "" a).
  - by destruct Hx.
  - by destruct Hx.
  - by split.
Qed.

End exclusive.

(** ** The order of the tool calls *)

Section order.
Context (id : string).

Definition callsOf x : list nat := map snd (List.filter (fun d => String.eqb d.1 id) (px_calls x)).

(** The step that may be called after [l]: the last one again, or the next. *)
Definition next (l : list nat) (i : nat) : Prop := match last l with None => i = 0%nat | Some j => i = j \/ i = S j end.

(** Each call is of the step of the call before it, or of the next one. *)
Fixpoint inOrder (prev : option nat) (l : list nat) : Prop :=
  match l with [] => True | i :: l => match prev with None => i = 0%nat | Some j => i = j \/ i = S j end /\ inOrder (Some i) l end.

Lemma inOrder_snoc l i : inOrder None (l ++ [i]) <-> inOrder None l /\ next l i.
Proof.
  assert (Hg : forall prev, inOrder prev (l ++ [i]) <-> inOrder prev l /\ match (match last l with None => prev | s => s end) with None => i = 0%nat | Some j => i = j \/ i = S j end).
  { induction l as [|j l IH]; intros prev; [cbn; tauto|]. cbn [app inOrder]. rewrite IH. rewrite last_cons. destruct (last l); tauto. }
  rewrite Hg. unfold next. by destruct (last l).
Qed.

Definition orderPhase (l : list nat) ph : Prop :=
  match ph with
  | Migrating c => ~ mentions id c
  | InStep w i p => pp_id (w_pipeline w) = id -> match p with SavingStep | SavingHalt => next l i | _ => last l = Some i end
  | _ => True
  end.

Definition orderStored (l : list nat) (k : string) raw : Prop :=
  match raw with
  | Object _ _ (Some c) => mentions id c -> k = checkpointKey id /\
      exists c', raw = stored c' /\ cp_provenance c' = None /\ cp_pipelineId c' = id /\ pp_id (cp_pipeline c') = id /\ next l (cp_stepIndex c')
  | _ => True
  end.

Definition orderStore (l : list nat) (s : jsmap (Stored A)) : Prop := forall k raw, mget s k = Some raw -> orderStored l k raw.

Record ordered x : Prop := {
  or_calls : inOrder None (callsOf x);
  or_store : orderStore (callsOf x) (px_store x);
  or_runs : Forall (orderPhase (callsOf x)) (px_runs x);
}.

(** A handler calls no tool, or one that is in order. *)
Definition orderMove ph x (r : Phase A * Executor A) : Prop :=
  (px_calls r.2 = px_calls x /\ orderPhase (callsOf x) r.1) \/
  (exists w i a er, r = callTool w i a er x /\ (pp_id (w_pipeline w) = id -> next (callsOf x) i /\ (last (callsOf x) = Some i \/ ph = InStep w i SavingStep))).

Lemma next_last l i : last l = Some i -> next l i /\ next l (S i).
Proof. intros Hl. unfold next. rewrite Hl. auto. Qed.

Lemma stepBegin_order w i ph x : (pp_id (w_pipeline w) = id -> next (callsOf x) i) -> orderMove ph x (stepBegin w i x).
Proof. intros Hn. left. unfold stepBegin. by destruct (_ <? _)%nat. Qed.

Lemma stepDone_order w i s o ph x : (pp_id (w_pipeline w) = id -> last (callsOf x) = Some i) -> orderMove ph x (stepDone hasTracker w i s o x).
Proof. intros Hl. unfold stepDone. destruct hasTracker; [by left|]. apply stepBegin_order. intros Hid. by apply next_last, Hl. Qed.

Lemma recall_order w i a er ph x : (pp_id (w_pipeline w) = id -> last (callsOf x) = Some i) -> orderMove ph x (callTool w i a er x).
Proof. intros Hl. right. exists w, i, a, er. split; [done|]. intros Hid. split; [by apply next_last, Hl|left; auto]. Qed.

Lemma stepJudged_order w i s r ph x : (pp_id (w_pipeline w) = id -> last (callsOf x) = Some i) -> orderMove ph x (stepJudged hasTracker w i s r x).
Proof.
  intros Hl. unfold stepJudged, handleStepError. destruct (errorOf r); [destruct (default _ _); [destruct (_ && _); [by apply recall_order|by left]| |by left]|]; by apply stepDone_order.
Qed.

Lemma retryAnswered_order w i s a f r ph x : (pp_id (w_pipeline w) = id -> last (callsOf x) = Some i) -> orderMove ph x (retryAnswered hasTracker w i s a f r x).
Proof.
  intros Hl. unfold retryAnswered. destruct (errorOf r); [|by apply stepDone_order]. destruct (isDeterministicPipelineStepError _); [by left|].
  destruct (_ <=? _)%Z; [by apply recall_order|by left].
Qed.

Lemma execute_order p n ph x : (pp_id p = id -> next (callsOf x) n) -> orderMove ph x (execute p n x).
Proof. intros Hn. unfold execute. destruct (has _ _); [by left|]. destruct (stepBegin_order {| w_pipeline := p; w_results := pp_results p; w_completed := n |} n ph (with_active (set_add (px_active x) (pp_id p)) x) Hn) as [?|(w & i & a & er & He & _)]; [by left|].
  unfold stepBegin in He. by destruct (_ <? _)%nat.
Qed.

Lemma resumeChecked_order j c ph x : (mentions id c -> next (callsOf x) (cp_stepIndex c)) -> orderMove ph x (resumeChecked j c x).
Proof. intros Hc. unfold resumeChecked. destruct (requiresRevalidation c); [by left|]. apply execute_order. intros Hid. apply Hc. by right. Qed.

Lemma resumeRead_order j ph x : orderStore (callsOf x) (px_store x) -> orderMove ph x (resumeRead j x).
Proof.
  intros Hs. unfold resumeRead. destruct (mget _ _) as [raw|] eqn:Hr; [|by left]. apply Hs in Hr. destruct (migratePipelineCheckpoint raw) as [[m c]|er] eqn:Hm; [|by left].
  destruct (migrate_fields _ _ _ Hm) as (v & pr & c' & -> & _ & E1 & E2 & E3 & E4). cbn in Hr.
  assert (Hok : mentions id c -> next (callsOf x) (cp_stepIndex c) /\ m = false).
  { intros Hx. unfold mentions in *. rewrite E1, E2 in Hx. destruct (Hr Hx) as (_ & c0 & He & Hp & _ & _ & Hn). rewrite He in Hm. destruct (migrate_stored c0 Hp) as [Hms _].
    rewrite Hms in Hm. injection Hm as <- <-. done. }
  destruct m; [left; split; [done|]; intros Hx; by destruct (Hok Hx)|]. apply resumeChecked_order. intros Hx. by apply Hok.
Qed.

Lemma orderStore_save l c s : orderStored l (checkpointKey (cp_pipelineId c)) (stored c) -> orderStore l s -> orderStore l (saveCheckpoint c s).
Proof. intros Hc Hs k raw. unfold saveCheckpoint. rewrite mget_mset. destruct (String.eqb_spec k (checkpointKey (cp_pipelineId c))) as [->|]; [by intros [= <-]|apply Hs]. Qed.

Lemma orderStore_remove l j s : orderStore l s -> orderStore l (removeCheckpoint j s).
Proof. intros Hs k raw. unfold removeCheckpoint. rewrite mget_mdel. case_match; [done|apply Hs]. Qed.

Lemma saved_order l w i st now : (pp_id (w_pipeline w) = id -> next l i) -> orderStored l (checkpointKey (pp_id (w_pipeline w))) (stored (checkpointOf w i st now)).
Proof.
  intros Hn Hm. assert (Hid : pp_id (w_pipeline w) = id) by by destruct Hm. split; [by rewrite Hid|]. exists (checkpointOf w i st now). split_and!; [done|done|done|done|by apply Hn].
Qed.

Lemma pendingWrite_order l ph x : orderPhase l ph -> orderStore l (px_store x) -> orderStore l (pendingWrite ph x (px_store x)).
Proof.
  intros Hp Hs. destruct ph as [j|c|w i []|w er|w|j|j r|er| ]; cbn [pendingWrite]; try done; try by apply orderStore_remove.
  - apply orderStore_save; [|done]. intros Hm. by destruct Hp.
  - apply orderStore_save; [|done]. by apply saved_order.
  - apply orderStore_save; [|done]. by apply saved_order.
Qed.

Lemma refused_order er ph x : orderPhase (callsOf x) ph -> orderMove ph x (refused er ph x).
Proof.
  intros Hp. destruct ph as [j|c|w i []|w e'|w|j|j r|e'| ]; cbn [refused]; try (by left). apply stepBegin_order. intros Hid. by apply next_last, Hp.
Qed.

Lemma accepted_order ph x : orderPhase (callsOf x) ph -> orderStore (callsOf x) (px_store x) -> orderMove ph (with_store (pendingWrite ph x (px_store x)) x) (accepted ph x).
Proof.
  intros Hp Hs. pose proof (pendingWrite_order _ ph x Hp Hs) as Hs'. unfold accepted. set (x' := with_store _ x). change (callsOf x) with (callsOf x') in *.
  destruct ph as [j|c|w i p|w er|w|j|j r|er| ]; try (by left).
  - by apply resumeRead_order.
  - apply resumeChecked_order. by intros ?.
  - destruct (pp_steps (w_pipeline w) !! i) as [s|], p as [| |a er|r| ]; try (by left).
    + destruct (needsApproval ruleFor s); [by left|]. right. exists w, i, 0%nat, "". split; [done|]. intros Hid. split; [by apply Hp|by right].
    + by apply stepJudged_order.
    + apply stepBegin_order. intros Hid. by apply next_last, Hp.
    + apply stepBegin_order. intros Hid. by apply next_last, Hp.
Qed.

Lemma toolAnswered_order a ph x : orderPhase (callsOf x) ph -> orderMove ph x (toolAnswered a ph x).
Proof.
  intros Hp. destruct ph as [j|c|w i p|w er|w|j|j r|er| ]; try (by left). destruct p as [| |att er|r| ]; try (by left). cbn [toolAnswered].
  destruct (_ !! i) as [s|]; [|by left]. destruct att; [destruct hasLedger; [by left|by apply stepJudged_order]|by apply retryAnswered_order].
Qed.

(** ** The order over runs *)

Lemma callsOf_call w i a er x :
  callsOf (callTool w i a er x).2 = if String.eqb (pp_id (w_pipeline w)) id then (callsOf x ++ [i])%list else callsOf x.
Proof. unfold callsOf. cbn. rewrite List.filter_app, map_app. cbn. destruct (String.eqb _ id); cbn; [done|by rewrite app_nil_r]. Qed.

Lemma next_again l i j : last l = Some i -> (next (l ++ [i]) j <-> next l j).
Proof. intros Hl. unfold next. by rewrite last_snoc, Hl. Qed.

Lemma orderPhase_idle l l' ph : ~ worksOn id ph -> orderPhase l ph -> orderPhase l' ph.
Proof. intros Hw Hp. destruct ph as [j|c|w i p|w er|w|j|j r|er| ]; try done. intros Hid. destruct Hw. by exists w. Qed.

Lemma orderPhase_again l i ph : last l = Some i -> orderPhase l ph -> orderPhase (l ++ [i]) ph.
Proof.
  intros Hl Hp. destruct ph as [j|c|w n p|w er|w|j|j r|er| ]; try done. intros Hid. specialize (Hp Hid). destruct p; rewrite ?last_snoc; try congruence; by apply next_again.
Qed.

(** What the store holds of the pipeline was saved for the step [i]. *)
Definition savedAt (i : nat) (s : jsmap (Stored A)) : Prop := forall raw, mget s (checkpointKey id) = Some raw -> exists c, raw = stored c /\ cp_stepIndex c = i.

Lemma orderStore_call l i s : orderStore l s -> next l i -> last l = Some i \/ savedAt i s -> orderStore (l ++ [i]) s.
Proof.
  intros Hs Hn Hor k raw Hk. pose proof (Hs k raw Hk) as Hr. destruct raw as [|v pr [c|]]; [done| |done]. intros Hm. destruct (Hr Hm) as (-> & c' & He & Hp & H1 & H2 & H3).
  split; [done|]. exists c'. split_and!; try done. destruct Hor as [Hl|Hsv]; [by apply next_again|]. destruct (Hsv _ Hk) as (c2 & He2 & <-). rewrite He in He2.
  rewrite <- (stored_index _ _ He2). unfold next. rewrite last_snoc. by left.
Qed.

Lemma move_ordered k ph x x1 r : exclusive id x -> ordered x -> px_runs x !! k = Some ph -> px_runs x1 = px_runs x -> px_calls x1 = px_calls x ->
  orderStore (callsOf x) (px_store x1) -> framed x1 r -> orderMove ph x1 r ->
  (forall w i, ph = InStep w i SavingStep -> pp_id (w_pipeline w) = id -> (exists a er, r = callTool w i a er x1) -> savedAt i (px_store x1)) ->
  ordered (with_runs (<[k:=r.1]> (px_runs r.2)) r.2).
Proof.
  intros Hx [O1 O2 O3] Hk Hr1 Hc1 Hs1 (F1 & F2 & _) Hm Hsv. assert (Hcx : callsOf x1 = callsOf x) by (unfold callsOf; by rewrite Hc1).
  unfold orderMove in Hm. rewrite Hcx in Hm. destruct Hm as [[Hcr Hp]|(w & i & a & er & -> & Hn)].
  - assert (Hcr' : callsOf r.2 = callsOf x) by (unfold callsOf; by rewrite Hcr, Hc1).
    split; change (callsOf (with_runs _ r.2)) with (callsOf r.2); rewrite Hcr'; [done|cbn; by rewrite F2|]. cbn. rewrite F1, Hr1. by apply Forall_insert.
  - set (r := callTool w i a er x1) in *. pose proof (callsOf_call w i a er x1) as Hcr. fold r in Hcr. rewrite Hcx in Hcr.
    destruct (String.eqb_spec (pp_id (w_pipeline w)) id) as [Hid|Hid].
    + destruct (Hn Hid) as [Hnext Hor].
      split; change (callsOf (with_runs _ r.2)) with (callsOf r.2); rewrite Hcr; [by apply inOrder_snoc|cbn|cbn; rewrite Hr1].
      * apply orderStore_call; [done|done|]. destruct Hor as [?|Hph]; [by left|right]. apply (Hsv w i Hph Hid). by exists a, er.
      * apply Forall_insert; [|intros _; cbn; apply last_snoc]. apply Forall_lookup. intros j q Hq. pose proof (Forall_lookup_1 _ _ _ _ O3 Hq) as Hoq. cbn in Hoq.
        destruct Hor as [Hl|Hph]; [by apply orderPhase_again|]. destruct (decide (j = k)) as [->|Hj]; [rewrite Hk in Hq; injection Hq as <-; rewrite Hph; intros _; unfold next; rewrite last_snoc; by left|].
        eapply orderPhase_idle; [|exact Hoq]. intros Hw. apply Hj. eapply (ex_one _ _ Hx); [exact Hq|exact Hk|done|]. rewrite Hph. by exists w.
    + split; change (callsOf (with_runs _ r.2)) with (callsOf r.2); rewrite Hcr; [done|done|]. cbn. rewrite Hr1. apply Forall_insert; [done|]. by intros Hid2.
Qed.

Lemma savedAt_write w i x : pp_id (w_pipeline w) = id -> savedAt i (pendingWrite (InStep w i SavingStep) x (px_store x)).
Proof.
  intros Hid raw. cbn. unfold saveCheckpoint. cbn [checkpointOf cp_pipelineId]. rewrite Hid, mget_mset_eq. intros [= <-]. by exists (checkpointOf w i pipeline_running (px_now x)).
Qed.

(** Nobody starts the pipeline anew or removes it. *)
Definition continues e : Prop := match e with Execute p _ => pp_id p <> id | Remove j => j <> id | _ => True end.

Lemma addExecute_ordered p n x : (pp_id p = id -> next (callsOf x) n) -> ordered x -> ordered (addRun (execute p n x)).
Proof.
  intros Hn [O1 O2 O3]. destruct (execute_order p n Removed x Hn) as [[Hc Hp]|(w & i & a & er & Hr & _)].
  - destruct (execute_framed p n x) as (F1 & F2 & _). split; cbn; unfold callsOf; cbn; rewrite Hc; [done|by rewrite F2|]. rewrite F1. apply Forall_app. split; [done|]. by constructor.
  - unfold execute, stepBegin in Hr. destruct (has _ _); [done|]. by destruct (_ <? _)%nat.
Qed.

Lemma step_ordered x e : exclusive id x -> ordered x -> continues e -> ordered (step x e).
Proof.
  intros Hx Ho He. pose proof Ho as [O1 O2 O3].
  destruct e as [p n|j|j|k er|k|k|k a|j|now| ]; cbn [step].
  - apply addExecute_ordered; [by intros Hid; destruct (He Hid)|done].
  - split; [done|done|]. apply Forall_app. split; [done|by constructor].
  - split; [done|done|]. apply Forall_app. split; [done|by constructor].
  - unfold atRun. destruct (px_runs x !! k) as [ph|] eqn:Hk; [|done]. pose proof (Forall_lookup_1 _ _ _ _ O3 Hk) as Hp.
    apply (move_ordered k ph x x); try done; [apply refused_framed|by apply refused_order|]. intros w i -> _ (a & e' & Hr). done.
  - unfold atRun. destruct (px_runs x !! k) as [ph|] eqn:Hk; [|done]. pose proof (Forall_lookup_1 _ _ _ _ O3 Hk) as Hp.
    apply (move_ordered k ph x (with_store (pendingWrite ph x (px_store x)) x)); try done; [by apply pendingWrite_order|apply accepted_framed|by apply accepted_order|].
    intros w i -> Hid _. by apply savedAt_write.
  - destruct (px_runs x !! k) as [ph|] eqn:Hk; [|done]. pose proof (Forall_lookup_1 _ _ _ _ O3 Hk) as Hp. split; [done| |done]. by apply pendingWrite_order.
  - unfold atRun. destruct (px_runs x !! k) as [ph|] eqn:Hk; [|done]. pose proof (Forall_lookup_1 _ _ _ _ O3 Hk) as Hp.
    apply (move_ordered k ph x x); try done; [apply toolAnswered_framed|by apply toolAnswered_order|]. intros w i -> _ (a' & e' & Hr). done.
  - split; [done| |done]. by apply orderStore_remove.
  - done.
  - split; [done|done|constructor].
Qed.

Lemma run_ordered es : forall x, exclusive id x -> ordered x -> Forall continues es -> exclusive id (foldl step x es) /\ ordered (foldl step x es).
Proof.
  induction es as [|e es IH]; intros x Hx Ho Hf; [done|]. inversion_clear Hf as [|? ? He Hes]. cbn [foldl]. apply IH; [|by apply step_ordered|done].
  apply step_exclusive; [done|]. by destruct e.
Qed.


(** C17. A pipeline that is started once, and resumed any number of times after
    crashes, refusals of the backend and expired checkpoints, calls its tools in
    order: every call is of the step of the call before it or of the next one, so
    no step is skipped, and what is repeated is only the step at which the
    pipeline was interrupted. At most one call works on the pipeline at a time. *)
Theorem resumed_calls_in_order P s es : pp_id P = id -> (forall k v pr c, mget s k = Some (Object v pr (Some c)) -> ~ mentions id c) -> Forall continues es ->
  let x := foldl step (newExecutor s) (Execute P 0 :: es) in
  inOrder None (callsOf x) /\
  forall k k' ph ph', px_runs x !! k = Some ph -> px_runs x !! k' = Some ph' -> worksOn id ph -> worksOn id ph' -> k = k'.
Proof.
  intros Hid Hs Hes x. assert (Hx0 : exclusive id (newExecutor s)) by by split. assert (Ho0 : ordered (newExecutor s)).
  { split; [done| |constructor]. intros k raw Hk. destruct raw as [|v pr [c|]]; [done| |done]. intros Hm. by destruct (Hs _ _ _ _ Hk). }
  destruct (run_ordered es (step (newExecutor s) (Execute P 0))) as [[_ Hone _] [Hcalls _ _]]; [by apply step_exclusive|by apply addExecute_ordered|done|]. by split.
Qed.
End order.

(** ** Every call ends *)

Definition retries (s : PipelineStep A) : nat := Z.to_nat (maxRetries s).

(** The answers that a step may still take. *)
Definition room (s : PipelineStep A) (p : StepPhase) : nat :=
  match p with
  | SavingStep => retries s + 4
  | SavingHalt => 1
  | Calling O _ => retries s + 3
  | LedgerRead _ => retries s + 2
  | Calling (S a) _ => retries s - S a + 2
  | Tracking => 1
  end.

Definition rest (l : list (PipelineStep A)) (i : nat) : nat := sum_list (map (fun s => room s SavingStep) (drop i l)).

(** The answers that a call may still take. *)
Definition left_over ph : nat :=
  match ph with
  | Reading _ => 0
  | Migrating c => rest (pp_steps (cp_pipeline c)) (cp_stepIndex c) + 2
  | InStep w i p => match pp_steps (w_pipeline w) !! i with Some s => room s p + rest (pp_steps (w_pipeline w)) (S i) + 1 | None => 0 end
  | RemovingFailed _ _ | RemovingDone _ | Removing _ => 1
  | Returned _ _ | Threw _ | Removed => 0
  end.

(** The phase waits for this answer. *)
Definition awaits ph e : bool :=
  match ph, e with
  | InStep _ _ (Calling _ _), Tool _ _ => true
  | InStep _ _ (Calling _ _), _ => false
  | (Reading _ | Migrating _ | InStep _ _ _ | RemovingFailed _ _ | RemovingDone _ | Removing _), (Accepted _ | Refused _ _) => true
  | _, _ => false
  end.

Definition inside ph : Prop := match ph with InStep w i _ => (i < length (pp_steps (w_pipeline w)))%nat | _ => True end.

Definition isReading ph : bool := match ph with Reading _ => true | _ => false end.

Definition ends (n : nat) (r : Phase A * Executor A) : Prop := inside r.1 /\ isReading r.1 = false /\ (left_over r.1 <= n)%nat.

Lemma rest_step l i s : l !! i = Some s -> rest l i = (retries s + 4 + rest l (S i))%nat.
Proof. intros Hs. unfold rest. by rewrite (drop_S _ _ _ Hs). Qed.

Lemma stepBegin_ends w i x : ends (rest (pp_steps (w_pipeline w)) i + 1) (stepBegin w i x).
Proof.
  unfold stepBegin. destruct (Nat.ltb_spec i (length (pp_steps (w_pipeline w)))) as [Hi|Hi]; (split; [done|]; split; [done|]); cbn; [|lia].
  apply lookup_lt_is_Some in Hi as [s Hs]. rewrite Hs, (rest_step _ _ _ Hs). lia.
Qed.

Lemma ends_le n n' r : ends n r -> (n <= n')%nat -> ends n' r.
Proof. intros (H1 & H2 & H3) Hn. split_and!; [done|done|lia]. Qed.

Lemma stepDone_ends w i s o x : pp_steps (w_pipeline w) !! i = Some s -> ends (rest (pp_steps (w_pipeline w)) (S i) + 2) (stepDone hasTracker w i s o x).
Proof.
  intros Hs. unfold stepDone. destruct hasTracker; [|eapply ends_le; [apply stepBegin_ends|cbn; lia]].
  split; [by eapply lookup_lt_Some|]. split; [done|]. cbn. rewrite Hs. lia.
Qed.

Lemma callTool_ends w i s a er x : pp_steps (w_pipeline w) !! i = Some s -> ends (room s (Calling a er) + rest (pp_steps (w_pipeline w)) (S i) + 1) (callTool w i a er x).
Proof. intros Hs. split; [by eapply lookup_lt_Some|]. split; [done|]. cbn [callTool fst left_over]. by rewrite Hs. Qed.

Lemma removingFailed_ends w er x n : ends (n + 1) (RemovingFailed w er, x).
Proof. split_and!; [done|done|cbn; lia]. Qed.

Lemma stepJudged_ends w i s r x : pp_steps (w_pipeline w) !! i = Some s -> ends (rest (pp_steps (w_pipeline w)) (S i) + retries s + 2) (stepJudged hasTracker w i s r x).
Proof.
  intros Hs. unfold stepJudged, handleStepError. destruct (errorOf r); [destruct (default _ _)|].
  - destruct (Z.ltb_spec 0 (maxRetries s)); cbn [andb]; [destruct (negb _)|]; [|eapply ends_le; [apply (removingFailed_ends _ _ _ 0)|lia]..].
    eapply ends_le; [by apply callTool_ends|]. cbn. unfold retries. lia.
  - eapply ends_le; [by apply stepDone_ends|lia].
  - eapply ends_le; [apply (removingFailed_ends _ _ _ 0)|lia].
  - eapply ends_le; [by apply stepDone_ends|lia].
Qed.

Lemma retryAnswered_ends w i s a f r x : pp_steps (w_pipeline w) !! i = Some s ->
  ends (rest (pp_steps (w_pipeline w)) (S i) + (retries s - a) + 2) (retryAnswered hasTracker w i s a f r x).
Proof.
  intros Hs. unfold retryAnswered. destruct (errorOf r); [|eapply ends_le; [by apply stepDone_ends|lia]].
  destruct (isDeterministicPipelineStepError _); [eapply ends_le; [apply (removingFailed_ends _ _ _ 0)|lia]|].
  destruct (Z.leb_spec (Z.of_nat (S a)) (maxRetries s)); [|eapply ends_le; [apply (removingFailed_ends _ _ _ 0)|lia]].
  eapply ends_le; [by apply callTool_ends|]. cbn [room]. unfold retries. lia.
Qed.

Lemma resumeChecked_ends j c x : ends (rest (pp_steps (cp_pipeline c)) (cp_stepIndex c) + 1) (resumeChecked j c x).
Proof.
  unfold resumeChecked, execute. destruct (requiresRevalidation c); [split_and!; [done|done|cbn; lia]|]. destruct (has _ _); [split_and!; [done|done|cbn; lia]|].
  eapply ends_le; [apply stepBegin_ends|done].
Qed.

(** A handler keeps to its answers: one that is awaited is one fewer. *)
Definition pays ph (waited : bool) (r : Phase A * Executor A) : Prop :=
  inside r.1 /\ (isReading ph = false -> isReading r.1 = false /\ (left_over r.1 + (if waited then 1 else 0) <= left_over ph)%nat).

Lemma ends_pays n ph (b : bool) r : ends n r -> (isReading ph = false -> n + (if b then 1 else 0) <= left_over ph)%nat -> pays ph b r.
Proof. intros (H1 & H2 & H3) Hn. split; [done|]. intros Hr. specialize (Hn Hr). split; [done|lia]. Qed.

Lemma stay_pays ph x : inside ph -> pays ph false (ph, x).
Proof. intros Hi. split; [done|]. intros Hr. split; [done|cbn; lia]. Qed.

Lemma over_pays ph ph' (b : bool) x : inside ph' -> isReading ph' = false -> left_over ph' = 0%nat -> ((if b then 1 else 0) <= left_over ph)%nat -> pays ph b (ph', x).
Proof. intros H1 H2 H3 H4. split; [done|]. intros _. split; [done|]. cbn. lia. Qed.

Lemma inside_left w i (p : StepPhase) : inside (InStep w i p) -> exists s, pp_steps (w_pipeline w) !! i = Some s /\ left_over (InStep w i p) = (room s p + rest (pp_steps (w_pipeline w)) (S i) + 1)%nat.
Proof. intros Hi. cbn in Hi. apply lookup_lt_is_Some in Hi as [s Hs]. exists s. split; [done|]. cbn. by rewrite Hs. Qed.

Lemma refused_pays k er ph x : inside ph -> pays ph (awaits ph (Refused k er)) (refused er ph x).
Proof.
  intros Hi. destruct ph as [j|c|w i p|w e'|w|j|j r|e'| ]; try (by apply over_pays; cbn; try lia); try by apply stay_pays.
  - by split.
  - destruct (inside_left _ _ _ Hi) as (s & Hs & Hl). destruct p as [| |a f|r| ]; try (by apply stay_pays); cbn [refused awaits];
      try (apply over_pays; [done|done|done|rewrite Hl; cbn [room]; lia]).
    eapply ends_pays; [apply stepBegin_ends|]. intros _. rewrite Hl. cbn [room]. lia.
Qed.

Lemma accepted_pays k ph x : inside ph -> pays ph (awaits ph (Accepted k)) (accepted ph x).
Proof.
  intros Hi. unfold accepted. set (x' := with_store _ x). destruct ph as [j|c|w i p|w e'|w|j|j r|e'| ]; try (by apply over_pays; cbn; try lia); try by apply stay_pays.
  - split; [|done]. unfold resumeRead. destruct (mget _ _) as [raw|]; [|done]. destruct (migratePipelineCheckpoint raw) as [[[] c]|]; try done. apply resumeChecked_ends.
  - eapply ends_pays; [apply resumeChecked_ends|]. intros _. cbn. lia.
  - destruct (inside_left _ _ _ Hi) as (s & Hs & Hl). rewrite Hs. destruct p as [| |a f|r| ]; try (by apply stay_pays); cbn [awaits].
    + destruct (needsApproval ruleFor s).
      * eapply (ends_pays (rest (pp_steps (w_pipeline w)) (S i) + 2)); [split_and!; [done|done|cbn; rewrite Hs; lia]|]. intros _. rewrite Hl. cbn [room]. lia.
      * eapply ends_pays; [by apply callTool_ends|]. intros _. rewrite Hl. cbn [room]. lia.
    + apply over_pays; [done|done|done|rewrite Hl; cbn [room]; lia].
    + eapply ends_pays; [by apply stepJudged_ends|]. intros _. rewrite Hl. cbn [room]. lia.
    + eapply ends_pays; [apply stepBegin_ends|]. intros _. rewrite Hl. cbn [room]. lia.
Qed.

Lemma toolAnswered_pays k a ph x : inside ph -> pays ph (awaits ph (Tool k a)) (toolAnswered a ph x).
Proof.
  intros Hi. destruct ph as [j|c|w i p|w e'|w|j|j r|e'| ]; try by apply stay_pays. destruct p as [| |att f|r| ]; try by apply stay_pays.
  destruct (inside_left _ _ _ Hi) as (s & Hs & Hl). cbn [toolAnswered awaits]. rewrite Hs. destruct att as [|att].
  - destruct hasLedger; [eapply (ends_pays (retries s + 2 + rest (pp_steps (w_pipeline w)) (S i) + 1)); [split_and!; [done|done|cbn; rewrite Hs; done]|]|eapply ends_pays; [by apply stepJudged_ends|]];
      intros _; rewrite Hl; cbn [room]; lia.
  - eapply ends_pays; [by apply retryAnswered_ends|]. intros _. rewrite Hl. cbn [room]. lia.
Qed.

(** The answers to the call [k] that were awaited. *)
Definition answers (k : nat) x e : nat :=
  match e with
  | Accepted j | Refused j _ | Tool j _ => if (j =? k)%nat then match px_runs x !! k with Some ph => if awaits ph e then 1 else 0 | None => 0 end else 0
  | _ => 0
  end.

Fixpoint answersTo (k : nat) x (es : list (Event A)) : nat := match es with [] => 0 | e :: es => answers k x e + answersTo k (step x e) es end.

Definition sameProcess e : Prop := match e with Restart => False | _ => True end.

Lemma atRun_pays k j (f : Phase A -> Executor A -> Phase A * Executor A) (b : Phase A -> bool) x : Forall inside (px_runs x) ->
  (forall ph, inside ph -> pays ph (b ph) (f ph x) /\ px_runs (f ph x).2 = px_runs x) ->
  Forall inside (px_runs (atRun k f x)) /\
  forall ph, px_runs x !! j = Some ph -> isReading ph = false -> exists ph', px_runs (atRun k f x) !! j = Some ph' /\ isReading ph' = false /\
    (left_over ph' + (if (k =? j)%nat then if b ph then 1 else 0 else 0) <= left_over ph)%nat.
Proof.
  intros Hin Hf. unfold atRun. destruct (px_runs x !! k) as [q|] eqn:Hk.
  - destruct (Hf q) as [[H1 H2] Hr]; [by eapply (Forall_lookup_1 _ _ _ _ Hin)|]. cbn. rewrite Hr. split; [by apply Forall_insert|]. intros ph Hj Hread.
    destruct (Nat.eqb_spec k j) as [->|Hne].
    + rewrite Hj in Hk. injection Hk as <-. exists (f ph x).1. rewrite list_lookup_insert_eq by (by eapply lookup_lt_Some). split; [done|by apply H2].
    + exists ph. rewrite list_lookup_insert_ne by done. split_and!; [done|done|lia].
  - split; [done|]. intros ph Hj Hread. exists ph. split_and!; [done|done|]. destruct (Nat.eqb_spec k j) as [->|]; [congruence|lia].
Qed.

Lemma step_pays k x e : Forall inside (px_runs x) -> Forall inside (px_runs (step x e)) /\
  (sameProcess e -> forall ph, px_runs x !! k = Some ph -> isReading ph = false ->
    exists ph', px_runs (step x e) !! k = Some ph' /\ isReading ph' = false /\ (left_over ph' + answers k x e <= left_over ph)%nat).
Proof.
  intros Hin. assert (Hadd : forall r, px_runs r.2 = px_runs x -> inside r.1 -> Forall inside (px_runs (addRun r)) /\
    (forall ph, px_runs x !! k = Some ph -> isReading ph = false -> exists ph', px_runs (addRun r) !! k = Some ph' /\ isReading ph' = false /\ (left_over ph' + 0 <= left_over ph)%nat)).
  { intros r Hr Hi. cbn. rewrite Hr. split; [apply Forall_app; split; [done|by constructor]|]. intros ph Hk Hread. exists ph. split_and!; [by apply lookup_app_l_Some|done|lia]. }
  assert (Hat : forall j f e, (forall ph, inside ph -> pays ph (awaits ph e) (f ph x) /\ px_runs (f ph x).2 = px_runs x) ->
    (forall ph, px_runs x !! k = Some ph -> answers k x e = if (j =? k)%nat then if awaits ph e then 1 else 0 else 0)%nat ->
    Forall inside (px_runs (atRun j f x)) /\ (forall ph, px_runs x !! k = Some ph -> isReading ph = false ->
      exists ph', px_runs (atRun j f x) !! k = Some ph' /\ isReading ph' = false /\ (left_over ph' + answers k x e <= left_over ph)%nat)).
  { intros j f e' Hf He. destruct (atRun_pays j k f (fun ph => awaits ph e') x Hin Hf) as [H1 H2]. split; [done|]. intros ph Hk Hread. rewrite (He ph Hk). by apply H2. }
  destruct e as [p n|j|j|j er|j|j|j a|j|now| ]; cbn [step].
  - destruct (Hadd (execute p n x)) as [H1 H2]; [apply execute_framed| |done]. unfold execute. destruct (has _ _); [done|]. apply stepBegin_ends.
  - by destruct (Hadd (Reading j, x)).
  - by destruct (Hadd (Removing j, x)).
  - destruct (Hat j (refused er) (Refused j er)) as [H1 H2]; [intros ph Hi; split; [by apply refused_pays|apply refused_framed]|intros ph Hk; cbn [answers]; by rewrite Hk|done].
  - destruct (Hat j accepted (Accepted j)) as [H1 H2]; [intros ph Hi; split; [by apply accepted_pays|apply (accepted_framed ph x)]|intros ph Hk; cbn [answers]; by rewrite Hk|done].
  - assert (Hr : px_runs (match px_runs x !! j with Some ph => with_store (pendingWrite ph x (px_store x)) x | None => x end) = px_runs x) by by destruct (px_runs x !! j).
    rewrite Hr. split; [done|]. intros _ ph Hk Hread. exists ph. split_and!; [done|done|cbn; lia].
  - destruct (Hat j (toolAnswered a) (Tool j a)) as [H1 H2]; [intros ph Hi; split; [by apply toolAnswered_pays|apply toolAnswered_framed]|intros ph Hk; cbn [answers]; by rewrite Hk|done].
  - split; [done|]. intros _ ph Hk Hread. exists ph. split_and!; [done|done|cbn; lia].
  - split; [done|]. intros _ ph Hk Hread. exists ph. split_and!; [done|done|cbn; lia].
  - split; [constructor|done].
Qed.

Lemma run_inside es : forall x, Forall inside (px_runs x) -> Forall inside (px_runs (foldl step x es)).
Proof. induction es as [|e es IH]; intros x Hx; [done|]. cbn [foldl]. apply IH. by apply (step_pays 0). Qed.

Lemma run_pays k es : forall x ph, Forall inside (px_runs x) -> px_runs x !! k = Some ph -> isReading ph = false -> Forall sameProcess es ->
  exists ph', px_runs (foldl step x es) !! k = Some ph' /\ isReading ph' = false /\ (left_over ph' + answersTo k x es <= left_over ph)%nat.
Proof.
  induction es as [|e es IH]; intros x ph Hx Hk Hr Hs; cbn [foldl answersTo]; [exists ph; split_and!; [done|done|lia]|]. inversion_clear Hs as [|? ? He Hes].
  destruct (step_pays k x e Hx) as [Hx' Hp]. destruct (Hp He ph Hk Hr) as (ph1 & Hk1 & Hr1 & Hl1). destruct (IH _ ph1 Hx' Hk1 Hr1 Hes) as (ph2 & Hk2 & Hr2 & Hl2).
  exists ph2. split_and!; [done|done|lia].
Qed.

(** The call is over. *)
Definition over ph : bool := match ph with Returned _ _ | Threw _ | Removed => true | _ => false end.

Lemma left_over_zero ph : inside ph -> isReading ph = false -> left_over ph = 0%nat -> over ph = true.
Proof. intros Hi Hr H0. destruct ph as [j|c|w i p|w e'|w|j|j r|e'| ]; try done; [cbn in H0; lia|]. destruct (inside_left _ _ _ Hi) as (s & _ & Hl). lia. Qed.

(** Every call of the executor ends: once a resume has read its checkpoint, a
    call takes at most the answers that its remaining steps allow, each step its
    two checkpoints, its tries, the look at the ledger and the progress; when
    they are used up the call is over, whatever happened meanwhile. *)
Theorem pipeline_call_ends s before k ph es : px_runs (foldl step (newExecutor s) before) !! k = Some ph -> isReading ph = false -> Forall sameProcess es ->
  let x := foldl step (newExecutor s) before in
  exists ph', px_runs (foldl step x es) !! k = Some ph' /\ (left_over ph' + answersTo k x es <= left_over ph)%nat /\
    (answersTo k x es = left_over ph -> over ph' = true).
Proof.
  intros Hk Hr Hs x. assert (Hx : Forall inside (px_runs x)) by (apply run_inside; constructor). destruct (run_pays k es x ph Hx Hk Hr Hs) as (ph' & Hk' & Hr' & Hl).
  exists ph'. split_and!; [done|done|]. intros He. apply left_over_zero; [|done|lia]. pose proof (run_inside es x Hx) as Hin. by eapply (Forall_lookup_1 _ _ _ _ Hin).
Qed.
End pipeline.

(** ** Concrete runs *)

Module PipelineDemo.

Definition a := {| st_name := "a"; st_tool := "fs.read"; st_args := tt; st_requiresApproval := None; st_onError := None; st_maxRetries := None |}.
Definition b := {| st_name := "b"; st_tool := "net.get"; st_args := tt; st_requiresApproval := None; st_onError := Some policy_skip; st_maxRetries := None |}.
Definition c := {| st_name := "c"; st_tool := "wallet.sign"; st_args := tt; st_requiresApproval := Some true; st_onError := Some policy_retry; st_maxRetries := Some 2%Z |}.

Definition pipeline (steps : list (PipelineStep unit)) := {| pp_id := "p"; pp_steps := steps; pp_results := []; pp_createdAt := 0 |}.

Definition failed (r : string) : bool := String.eqb r "bad".
Definition tool (s : PipelineStep unit) : ToolAnswer := if String.eqb (st_name s) "b" then ToolReturned "bad" else ToolReturned (st_name s +:+ " done").
Definition noRule (s : PipelineStep unit) : bool := false.

Definition run (rule : PipelineStep unit -> bool) (es : list (Event unit)) := foldl (step failed (fun r => r) rule false false) (newExecutor []) es.

(** The process dies while the second step runs, and the pipeline is resumed. *)
Definition crashed : list (Event unit) :=
  [Execute (pipeline [a; b; c]) 0; Accepted 0; Tool 0 (tool a); Accepted 0; Restart; Resume "p"; Accepted 0; Accepted 0; Tool 0 (tool b); Accepted 0; Tool 0 (tool c); Accepted 0].

Definition resultOf (x : Executor unit) (k : nat) : option PipelineResult := match px_runs x !! k with Some (Returned _ r) => Some r | _ => None end.

Lemma resumed_pipeline_exact_witness : exists r, resultOf (run noRule crashed) 0 = Some r /\ pr_status r = pipeline_completed /\
  refRun failed (fun r => r) tool (pipeline [a; b; c]) [a; b; c] = Some (pr_results r) /\ mget (pr_results r) "b" = Some "SKIPPED: bad".
Proof.
  exists (default (runningResult pipeline_failed {| w_pipeline := pipeline []; w_results := []; w_completed := 0 |} None None) (resultOf (run noRule crashed) 0)).
  split_and!; [vm_compute; reflexivity|vm_compute; reflexivity| |vm_compute; reflexivity].
  apply (resumed_pipeline_exact failed (fun r => r) noRule false false tool (pipeline [a; b; c]) [] crashed).
  - discriminate.
  - vm_compute. split_and!; try done; intros * [=]; try done; subst; intros _ [=]; by subst.
  - apply list_elem_of_lookup. exists 0%nat. vm_compute. reflexivity.
  - vm_compute. reflexivity.
Defined.

Lemma resumed_calls_in_order_witness : callsOf "p" (run noRule crashed) = [0; 1; 1; 2]%nat /\ inOrder None [0; 1; 1; 2]%nat.
Proof.
  assert (Hc : callsOf "p" (run noRule crashed) = [0; 1; 1; 2]%nat) by (vm_compute; reflexivity). split; [exact Hc|]. rewrite <- Hc.
  apply (resumed_calls_in_order failed (fun r => r) noRule false false "p" (pipeline [a; b; c]) [] (tail crashed)); [reflexivity|discriminate|repeat constructor].
Defined.

(** The longest way through one step: its checkpoint, three tries, the ledger, the progress and the removal. *)
Definition longest : list (Event unit) :=
  [Accepted 0; Tool 0 (ToolThrew "e"); Accepted 0; Tool 0 (ToolThrew "e"); Tool 0 (tool c); Accepted 0; Accepted 0].

Definition begun : Phase unit := InStep {| w_pipeline := pipeline [c]; w_results := []; w_completed := 0 |} 0 SavingStep.

Lemma pipeline_call_ends_witness : left_over begun = 7%nat /\
  exists ph', px_runs (foldl (step failed (fun r => r) noRule true true) (foldl (step failed (fun r => r) noRule true true) (newExecutor []) [Execute (pipeline [c]) 0]) longest)
    !! 0%nat = Some ph' /\ over ph' = true.
Proof.
  split; [vm_compute; reflexivity|].
  destruct (pipeline_call_ends failed (fun r => r) noRule true true [] [Execute (pipeline [c]) 0] 0 begun longest) as (ph' & Hk & _ & Hover); [vm_compute; reflexivity..|repeat constructor|].
  exists ph'. split; [exact Hk|]. apply Hover. vm_compute. reflexivity.
Defined.

(** A halted pipeline stays marked as active: the same process cannot resume it. *)
Example halted_cannot_be_resumed :
  let x := run (fun _ => true) [Execute (pipeline [c]) 0; Accepted 0; Accepted 0; Resume "p"; Accepted 1] in
  (pr_status <$> resultOf x 0) = Some pipeline_halted /\ (resultOf x 1 ≫= pr_error) = Some ("Pipeline " +:+ dq "p" +:+ " is already running").
Proof. vm_compute. split; reflexivity. Qed.

(** Removing a running pipeline lets a second call work on it. *)
Example removed_runs_twice :
  let x := run noRule [Execute (pipeline [a]) 0; Accepted 0; Remove "p"; Accepted 1; Execute (pipeline [a]) 0; Accepted 2] in px_calls x = [("p", 0); ("p", 0)]%nat.
Proof. vm_compute. reflexivity. Qed.

(** A tool that throws an error without a text counts as a step that succeeded. *)
Example empty_error_succeeds :
  (pr_status <$> resultOf (run noRule [Execute (pipeline [a]) 0; Accepted 0; Tool 0 (ToolThrew ""); Accepted 0]) 0) = Some pipeline_completed.
Proof. vm_compute. reflexivity. Qed.

(** When the backend refuses to remove the checkpoint of a pipeline that is done, the call fails, and a resume repeats the last step. *)
Example failed_removal_repeats_step :
  let x := run noRule [Execute (pipeline [a]) 0; Accepted 0; Tool 0 (tool a); Refused 0 "io"; Resume "p"; Accepted 1; Accepted 1] in
  (pr_status <$> resultOf x 0) = Some pipeline_failed /\ px_calls x = [("p", 0); ("p", 0)]%nat.
Proof. vm_compute. split; reflexivity. Qed.
End PipelineDemo.
