(* ===== verification/KeyedQueue.v ===== *)
(** * Keyed queue (src/runtime/src/utils/keyed-async-queue.ts)

    [KeyedAsyncQueue] runs operations one after the other per key. The promise
    [gate] of a call is named by the number of the call, in the order of the
    calls; it is resolved when the operation of the call has ended. *)
From S2P Require Import Prelude JsMap JsString.
#[local] Open Scope nat_scope.

(** A call of [run]: its operation waits for the gate before it, runs, has
    released its own gate, and the call has returned. *)
Inductive RunPhase := Queued | Running | Released | Returned.

#[export] Instance RunPhase_eq_dec : EqDecision RunPhase.
Proof. solve_decision. Defined.

Record QueueRun := {
  qr_key : string;
  qr_previous : option nat;
  qr_phase : RunPhase;
}.

(** [kq_chains]: the gate that the next call of a key waits for. *)
Record KeyedAsyncQueue := {
  kq_chains : jsmap nat;
  kq_runs : list QueueRun;
}.

Definition newQueue : KeyedAsyncQueue := {| kq_chains := []; kq_runs := [] |}.

Definition with_phase (ph : RunPhase) (r : QueueRun) : QueueRun := {| qr_key := qr_key r; qr_previous := qr_previous r; qr_phase := ph |}.

Definition atPhase (ph : RunPhase) (i : nat) (q : KeyedAsyncQueue) : KeyedAsyncQueue := {| kq_chains := kq_chains q; kq_runs := alter (with_phase ph) i (kq_runs q) |}.

Definition ended (ph : RunPhase) : bool := match ph with Released | Returned => true | _ => false end.

Definition phaseOf (q : KeyedAsyncQueue) (i : nat) : option RunPhase := qr_phase <$> kq_runs q !! i.

(** [run(key, operation)] up to its await. *)
Definition run (key : string) (q : KeyedAsyncQueue) : KeyedAsyncQueue := {|
  kq_chains := mset key (length (kq_runs q)) (kq_chains q);
  kq_runs := kq_runs q ++ [{| qr_key := key; qr_previous := mget (kq_chains q) key; qr_phase := Queued |}] |}.

(** The promise before the operation is settled. *)
Definition previousSettled (q : KeyedAsyncQueue) (r : QueueRun) : bool :=
  match qr_previous r with None => true | Some g => match phaseOf q g with Some ph => ended ph | None => true end end.

Definition canStart (q : KeyedAsyncQueue) (i : nat) : bool :=
  match kq_runs q !! i with Some r => match qr_phase r with Queued => previousSettled q r | _ => false end | None => false end.

(** The operation starts. *)
Definition start (i : nat) (q : KeyedAsyncQueue) : KeyedAsyncQueue := if canStart q i then atPhase Running i q else q.

(** The operation ends, with a result or an error, and its gate is resolved. *)
Definition release (i : nat) (q : KeyedAsyncQueue) : KeyedAsyncQueue :=
  match phaseOf q i with Some Running => atPhase Released i q | _ => q end.

(** The [finally] of the call. *)
Definition returned (i : nat) (q : KeyedAsyncQueue) : KeyedAsyncQueue :=
  match kq_runs q !! i with
  | Some r =>
      match qr_phase r with
      | Released =>
          let q := atPhase Returned i q in
          if decide (mget (kq_chains q) (qr_key r) = Some i) then {| kq_chains := mdel (qr_key r) (kq_chains q); kq_runs := kq_runs q |} else q
      | _ => q
      end
  | None => q
  end.

Inductive QueueEvent := QRun (key : string) | QStart (i : nat) | QRelease (i : nat) | QReturn (i : nat).

Definition qstep (q : KeyedAsyncQueue) (ev : QueueEvent) : KeyedAsyncQueue :=
  match ev with QRun key => run key q | QStart i => start i q | QRelease i => release i q | QReturn i => returned i q end.

(** ** The invariant *)

(** All calls of a key before the [n]th have ended. *)
Definition endedBefore (q : KeyedAsyncQueue) (key : string) (n : nat) : Prop :=
  forall i r, i < n -> kq_runs q !! i = Some r -> qr_key r = key -> ended (qr_phase r) = true.

(** Of the calls before the [n]th, [i] is the last one of the key. *)
Definition lastBefore (q : KeyedAsyncQueue) (key : string) (n i : nat) : Prop :=
  i < n /\ (exists r, kq_runs q !! i = Some r /\ qr_key r = key) /\ forall j r, i < j < n -> kq_runs q !! j = Some r -> qr_key r <> key.

(** What the gate found at the [n]th call says about the calls before it. *)
Definition gateSays (q : KeyedAsyncQueue) (key : string) (n : nat) (g : option nat) : Prop :=
  match g with Some i => lastBefore q key n i | None => endedBefore q key n end.

Record qinv (q : KeyedAsyncQueue) : Prop := {
  qi_order : forall j r, kq_runs q !! j = Some r -> qr_phase r <> Queued -> endedBefore q (qr_key r) j;
  qi_previous : forall j r, kq_runs q !! j = Some r -> qr_phase r = Queued -> gateSays q (qr_key r) j (qr_previous r);
  qi_chains : forall key, gateSays q key (length (kq_runs q)) (mget (kq_chains q) key);
  qi_clean : forall key i, mget (kq_chains q) key = Some i -> phaseOf q i <> Some Returned;
}.

(** A step that moves one call on and leaves the gates as they are. *)
Definition moved (q q' : KeyedAsyncQueue) : Prop :=
  length (kq_runs q') = length (kq_runs q) /\
  forall j r', kq_runs q' !! j = Some r' -> exists r, kq_runs q !! j = Some r /\ qr_key r' = qr_key r /\ qr_previous r' = qr_previous r /\
    (ended (qr_phase r) = true -> ended (qr_phase r') = true) /\ (qr_phase r' = Queued -> qr_phase r = Queued).

Lemma atPhase_lookup ph i q j : kq_runs (atPhase ph i q) !! j = (if decide (i = j) then with_phase ph <$> kq_runs q !! j else kq_runs q !! j).
Proof. cbn. destruct (decide (i = j)) as [->|Hne]; [apply list_lookup_alter_eq|by apply list_lookup_alter_ne]. Qed.

Lemma atPhase_moved ph i q : (forall r, kq_runs q !! i = Some r -> (ended (qr_phase r) = true -> ended ph = true)) -> ph <> Queued -> moved q (atPhase ph i q).
Proof.
  intros He Hq. split; [apply length_alter|]. intros j r'. rewrite atPhase_lookup. destruct (decide (i = j)) as [->|Hne].
  - destruct (kq_runs q !! j) as [r|] eqn:Hr; [|done]. cbn. intros [= <-]. exists r. cbn. split_and!; try done. by apply He.
  - intros Hr. by exists r'.
Qed.

Lemma moved_back q q' j r : moved q q' -> kq_runs q !! j = Some r -> exists r', kq_runs q' !! j = Some r' /\ qr_key r' = qr_key r.
Proof.
  intros [Hl Hm] Hr. assert (j < length (kq_runs q')) as Hj by (rewrite Hl; by apply lookup_lt_is_Some; exists r).
  apply lookup_lt_is_Some in Hj as [r' Hr']. exists r'. split; [done|]. destruct (Hm j r' Hr') as (r0 & H0 & Hk & _). congruence.
Qed.

Lemma moved_ended q q' key n : moved q q' -> endedBefore q key n -> endedBefore q' key n.
Proof. intros [_ Hm] He i r' Hi Hr Hk. destruct (Hm i r' Hr) as (r & H1 & H2 & _ & H4 & _). apply H4, (He i r); [done|done|congruence]. Qed.

Lemma moved_gate q q' key n g : moved q q' -> gateSays q key n g -> gateSays q' key n g.
Proof.
  intros Hm. destruct g as [i|]; cbn; [|by apply moved_ended]. intros (H1 & (r & H2 & H3) & H4). split; [done|]. split.
  - destruct (moved_back _ _ _ _ Hm H2) as (r' & H5 & H6). exists r'. split; [done|congruence].
  - intros j r' Hj Hr. destruct (proj2 Hm j r' Hr) as (r0 & H5 & H6 & _). rewrite H6. by apply (H4 j).
Qed.

(** A step that starts, releases or returns one call keeps the invariant. *)
Lemma moved_qinv q q' : qinv q -> moved q q' ->
  (forall j r, kq_runs q' !! j = Some r -> qr_phase r <> Queued -> endedBefore q (qr_key r) j) ->
  (forall key, gateSays q' key (length (kq_runs q')) (mget (kq_chains q') key)) ->
  (forall key i, mget (kq_chains q') key = Some i -> phaseOf q' i <> Some Returned) -> qinv q'.
Proof.
  intros Hq Hm Ho Hc Hcl. split; [|..|done|done].
  - intros j r Hr Hp. eapply moved_ended; [done|by apply Ho].
  - intros j r' Hr Hp. destruct (proj2 Hm j r' Hr) as (r & H1 & H2 & H3 & _ & H5). rewrite H2, H3. eapply moved_gate; [done|]. by apply (qi_previous _ Hq), H5.
Qed.

Lemma run_lookup key q j r : kq_runs (run key q) !! j = Some r ->
  kq_runs q !! j = Some r \/ (j = length (kq_runs q) /\ r = {| qr_key := key; qr_previous := mget (kq_chains q) key; qr_phase := Queued |}).
Proof.
  cbn. intros [Hr|[Hj Hr]]%lookup_app_Some; [by left|]. right. apply list_lookup_singleton_Some in Hr as [Hi <-]. split; [lia|done].
Qed.

Lemma run_ended key q k n : n <= length (kq_runs q) -> endedBefore q k n -> endedBefore (run key q) k n.
Proof. intros Hn He i r Hi Hr Hk. destruct (run_lookup _ _ _ _ Hr) as [Hr'|[-> _]]; [by apply (He i)|lia]. Qed.

Lemma run_gate key q k n g : n <= length (kq_runs q) -> gateSays q k n g -> gateSays (run key q) k n g.
Proof.
  intros Hn. destruct g as [i|]; cbn [gateSays]; [|by apply run_ended]. intros (H1 & (r & H2 & H3) & H4). split; [done|]. split.
  - exists r. split; [|done]. cbn. by apply lookup_app_l_Some.
  - intros j r' Hj Hr. destruct (run_lookup _ _ _ _ Hr) as [Hr'|[-> _]]; [by apply (H4 j)|lia].
Qed.

Lemma gate_lt q key n i : gateSays q key n (Some i) -> i < n.
Proof. by intros [Hi _]. Qed.

Lemma qinv_run key q : qinv q -> qinv (run key q).
Proof.
  intros Hq. assert (Hlen : length (kq_runs (run key q)) = S (length (kq_runs q))) by (cbn; rewrite length_app; cbn; lia). split.
  - intros j r Hr Hp. destruct (run_lookup _ _ _ _ Hr) as [Hr'|[_ ->]]; [|done]. apply run_ended; [apply lookup_lt_Some in Hr'; lia|by apply (qi_order _ Hq)].
  - intros j r Hr Hp. destruct (run_lookup _ _ _ _ Hr) as [Hr'|[-> ->]].
    + apply run_gate; [apply lookup_lt_Some in Hr'; lia|by apply (qi_previous _ Hq)].
    + apply run_gate; [done|]. apply (qi_chains _ Hq).
  - intros k. rewrite Hlen. cbn [run kq_chains]. rewrite mget_mset. case_match eqn:Hk.
    + apply String.eqb_eq in Hk as ->. split; [lia|]. split.
      * eexists. split; [cbn; by rewrite lookup_app_r, Nat.sub_diag by done|done].
      * intros j r Hj. lia.
    + apply String.eqb_neq in Hk. pose proof (qi_chains _ Hq k) as Hg. apply (run_gate key) in Hg; [|done]. destruct (mget (kq_chains q) k) as [i|]; cbn [gateSays] in *.
      * destruct Hg as (H1 & H2 & H3). split; [lia|]. split; [done|]. intros j r Hj Hr. destruct (run_lookup _ _ _ _ Hr) as [Hr'|[-> ->]]; [|by cbn; congruence].
        apply (H3 j); [apply lookup_lt_Some in Hr'; lia|done].
      * intros j r Hj Hr Hkey. destruct (run_lookup _ _ _ _ Hr) as [Hr'|[-> ->]]; [|by cbn in Hkey; congruence].
        apply (Hg j r); [by apply lookup_lt_Some in Hr'|done|done].
  - intros k i. cbn [run kq_chains]. rewrite mget_mset. unfold phaseOf. case_match.
    + intros [= <-]. cbn. by rewrite lookup_app_r, Nat.sub_diag by done.
    + intros Hi. pose proof (qi_chains _ Hq k) as Hg. rewrite Hi in Hg. apply gate_lt in Hg. cbn. rewrite lookup_app_l by done. by apply (qi_clean _ Hq k).
Qed.

(** A gate that is resolved: every earlier call of the key has ended. *)
Lemma settled_before q j r : qinv q -> kq_runs q !! j = Some r -> qr_phase r = Queued -> previousSettled q r = true -> endedBefore q (qr_key r) j.
Proof.
  intros Hq Hr Hp Hs. pose proof (qi_previous _ Hq j r Hr Hp) as Hg. unfold previousSettled in Hs. destruct (qr_previous r) as [g|]; [|done].
  destruct Hg as (H1 & (rg & H2 & H3) & H4). unfold phaseOf in Hs. rewrite H2 in Hs. cbn in Hs. intros i ri Hi Hri Hk.
  destruct (Nat.lt_trichotomy i g) as [Hlt|[->|Hgt]].
  - assert (Hng : qr_phase rg <> Queued) by (intros E; by rewrite E in Hs). apply (qi_order _ Hq g rg H2 Hng i ri); [done|done|congruence].
  - congruence.
  - exfalso. by apply (H4 i ri); [lia|done|].
Qed.

Lemma qinv_atPhase ph i q r : qinv q -> kq_runs q !! i = Some r -> (ended (qr_phase r) = true -> ended ph = true) -> ph <> Queued -> ph <> Returned ->
  endedBefore q (qr_key r) i -> qinv (atPhase ph i q).
Proof.
  intros Hq Hr He Hnq Hnr Hb. assert (Hm : moved q (atPhase ph i q)) by (apply atPhase_moved; [intros r'; by rewrite Hr; intros [= <-]|done]).
  eapply moved_qinv; [done|done|..].
  - intros j r'. rewrite atPhase_lookup. destruct (decide (i = j)) as [<-|Hne]; [|by apply (qi_order _ Hq)]. rewrite Hr. cbn. intros [= <-] _. done.
  - intros key. rewrite (proj1 Hm). eapply moved_gate; [done|]. apply (qi_chains _ Hq).
  - intros key j Hj. unfold phaseOf. rewrite atPhase_lookup. destruct (decide (i = j)) as [<-|Hne]; [|by apply (qi_clean _ Hq key)]. rewrite Hr. cbn. congruence.
Qed.

Lemma qinv_start i q : qinv q -> qinv (start i q).
Proof.
  intros Hq. unfold start, canStart. destruct (kq_runs q !! i) as [r|] eqn:Hr; [|done]. destruct (qr_phase r) eqn:Hp; [|done..].
  destruct (previousSettled q r) eqn:Hs; [|done]. apply (qinv_atPhase _ _ _ r); try done; [by rewrite Hp|]. by apply settled_before.
Qed.

Lemma qinv_release i q : qinv q -> qinv (release i q).
Proof.
  intros Hq. unfold release, phaseOf. destruct (kq_runs q !! i) as [r|] eqn:Hr; [|done]. cbn. destruct (qr_phase r) eqn:Hp; [done| |done..].
  apply (qinv_atPhase _ _ _ r); try done. apply (qi_order _ Hq i r Hr). by rewrite Hp.
Qed.

Lemma qinv_returned i q : qinv q -> qinv (returned i q).
Proof.
  intros Hq. unfold returned. destruct (kq_runs q !! i) as [r|] eqn:Hr; [|done]. destruct (qr_phase r) eqn:Hp; [done..| |done].
  assert (Hb : endedBefore q (qr_key r) i) by (apply (qi_order _ Hq i r Hr); by rewrite Hp).
  assert (Hm : moved q (atPhase Returned i q)) by (by apply atPhase_moved). cbn zeta.
  set (q' := if decide _ then _ else _). assert (Hruns : kq_runs q' = kq_runs (atPhase Returned i q)) by (unfold q'; by case_decide).
  assert (Hm' : moved q q') by (unfold moved; by rewrite Hruns).
  assert (Hchains : forall key, mget (kq_chains q') key = mget (kq_chains q) key /\ mget (kq_chains q) key <> Some i \/
      (mget (kq_chains q') key = None /\ mget (kq_chains q) key = Some i /\ key = qr_key r)).
  { intros key. assert (Hkey : mget (kq_chains q) key = Some i -> key = qr_key r).
    { intros Hi. pose proof (qi_chains _ Hq key) as Hg. rewrite Hi in Hg. destruct Hg as (_ & (r' & H1 & H2) & _). congruence. }
    unfold q'. cbn [kq_chains atPhase]. destruct (decide (mget (kq_chains q) (qr_key r) = Some i)) as [Hd|Hd]; cbn [kq_chains].
    - rewrite mget_mdel. case_match eqn:E; [apply String.eqb_eq in E as ->; by right|]. left. split; [done|]. intros Hi. apply String.eqb_neq in E. by apply E, Hkey.
    - left. split; [done|]. intros Hi. apply Hd. by rewrite <- (Hkey Hi). }
  eapply moved_qinv; [done|done|..].
  - intros j r'. rewrite Hruns, atPhase_lookup. destruct (decide (i = j)) as [<-|Hne]; [|by apply (qi_order _ Hq)]. rewrite Hr. cbn. by intros [= <-] _.
  - intros key. rewrite (proj1 Hm'). eapply moved_gate; [done|]. pose proof (qi_chains _ Hq key) as Hg.
    destruct (Hchains key) as [[-> _]|(-> & Hi & ->)]; [done|]. rewrite Hi in Hg. destruct Hg as (_ & _ & Hlast). intros j rj Hj Hrj Hk.
    destruct (Nat.lt_trichotomy j i) as [Hlt|[->|Hgt]]; [by apply (Hb j)| |by destruct (Hlast j rj); [lia|..]].
    rewrite Hr in Hrj. injection Hrj as <-. by rewrite Hp.
  - intros key j Hj. unfold phaseOf. rewrite Hruns, atPhase_lookup. destruct (Hchains key) as [[Hsame Hne]|(Hn & _)]; [|by rewrite Hn in Hj].
    rewrite Hsame in Hj. destruct (decide (i = j)) as [<-|Hij]; [done|]. by apply (qi_clean _ Hq key).
Qed.

Lemma qinv_new : qinv newQueue.
Proof. split; [done|done|intros key i r; cbn; lia|done]. Qed.

Lemma qinv_step q ev : qinv q -> qinv (qstep q ev).
Proof. destruct ev; [apply qinv_run|apply qinv_start|apply qinv_release|apply qinv_returned]. Qed.

Lemma qinv_steps evs : forall q, qinv q -> qinv (foldl qstep q evs).
Proof. induction evs as [|ev evs IH]; [done|]. intros q Hq. cbn. by apply IH, qinv_step. Qed.

(** The first call of a key that has not ended. *)
Lemma first_open q key n : endedBefore q key n \/ exists i r, i < n /\ kq_runs q !! i = Some r /\ qr_key r = key /\ ended (qr_phase r) = false /\ endedBefore q key i.
Proof.
  induction n as [|n IH]; [left; intros i r; lia|]. destruct IH as [Hb|(i & r & Hi & H)]; [|right; exists i, r; split; [lia|done]].
  destruct (kq_runs q !! n) as [r|] eqn:Hr; [|left; intros i r Hi Hri; destruct (decide (i = n)) as [->|]; [congruence|by apply (Hb i); [lia|]]].
  destruct (decide (qr_key r = key /\ ended (qr_phase r) = false)) as [[Hk He]|Hno]; [right; exists n, r; split_and!; [lia|done..]|].
  left. intros i ri Hi Hri Hk. destruct (decide (i = n)) as [->|]; [|by apply (Hb i ri); [lia|..]]. rewrite Hr in Hri. injection Hri as <-.
  destruct (ended (qr_phase r)) eqn:He; [done|]. by destruct Hno.
Qed.

Lemma open_progress q j r : qinv q -> kq_runs q !! j = Some r -> ended (qr_phase r) = false ->
  exists i ri, i <= j /\ kq_runs q !! i = Some ri /\ qr_key ri = qr_key r /\ (qr_phase ri = Running \/ canStart q i = true).
Proof.
  intros Hq Hr He. destruct (first_open q (qr_key r) (S j)) as [Hb|(i & ri & Hi & H1 & H2 & H3 & H4)]; [by rewrite (Hb j r) in He; [|lia|..]|].
  exists i, ri. split_and!; [lia|done..|]. destruct (qr_phase ri) eqn:Hp; [right|by left|done..]. unfold canStart. rewrite H1, Hp.
  pose proof (qi_previous _ Hq i ri H1 Hp) as Hg. unfold previousSettled, phaseOf. destruct (qr_previous ri) as [g|]; [|done].
  destruct Hg as (G1 & (rg & G2 & G3) & _). rewrite G2. cbn. rewrite H2 in G3. by apply (H4 g).
Qed.

(** C27. The queue serialises the operations of a key: an operation starts only when
    all earlier calls of its key have ended, so that they run one at a time in the
    order of the calls; as long as a call has not ended, one of its key runs or can
    start; and a key whose calls have returned leaves nothing behind. *)
Theorem keyed_queue_serializes evs : let q := foldl qstep newQueue evs in
  (forall i j ri rj, i < j -> kq_runs q !! i = Some ri -> kq_runs q !! j = Some rj -> qr_key ri = qr_key rj -> qr_phase rj <> Queued -> ended (qr_phase ri) = true) /\
  (forall j r, kq_runs q !! j = Some r -> ended (qr_phase r) = false ->
     exists i ri, i <= j /\ kq_runs q !! i = Some ri /\ qr_key ri = qr_key r /\ (qr_phase ri = Running \/ canStart q i = true)) /\
  (forall key, (forall i r, kq_runs q !! i = Some r -> qr_key r = key -> qr_phase r = Returned) -> mget (kq_chains q) key = None).
Proof.
  intros q. assert (Hq : qinv q) by apply qinv_steps, qinv_new. split_and!.
  - intros i j ri rj Hij Hi Hj Hk Hp. by apply (qi_order _ Hq j rj Hj Hp i ri).
  - intros j r. by apply open_progress.
  - intros key Hall. destruct (mget (kq_chains q) key) as [i|] eqn:Hi; [|done]. exfalso. pose proof (qi_chains _ Hq key) as Hg. rewrite Hi in Hg.
    destruct Hg as (_ & (r & H1 & H2) & _). apply (qi_clean _ Hq key i Hi). unfold phaseOf. rewrite H1. cbn. f_equal. by apply (Hall i).
Qed.
