(* ===== verification/Mailbox.v ===== *)
(** * Worker mailbox (src/runtime/src/gateway/persistent-worker-mailbox.ts, runtime-contract/types.ts)

    A parent session and its workers exchange messages. The mailbox of a session
    is one value of the backend; every change loads it, changes it and saves it,
    and the keyed queue keeps the changes of one session apart. What the code does
    between two awaits is one definition, the answers of the backend are events.
    Stored values are JSON values whose numbers are integers. *)
From stdpp Require Import pretty.
From S2P Require Import Prelude JsMap JsString Approvals KeyedQueue.
#[local] Open Scope string_scope.
#[local] Open Scope Z_scope.

(** ** Messages (types.ts) *)

Inductive RuntimeMailboxDirection := parent_to_worker | worker_to_parent.

Inductive RuntimeMailboxStatus := mail_pending | mail_acknowledged | mail_handled.

Inductive VerifierOverall := overall_pass | overall_fail | overall_retry | overall_skipped.

Inductive WorkerState := worker_starting | worker_running | worker_idle | worker_waiting_for_permission | worker_verifying | worker_completed | worker_failed | worker_cancelled.

#[export] Instance direction_eq_dec : EqDecision RuntimeMailboxDirection.
Proof. solve_decision. Defined.

#[export] Instance mail_status_eq_dec : EqDecision RuntimeMailboxStatus.
Proof. solve_decision. Defined.

(** What a message of each type carries; the [taskId] of an assignment is the one of the message. *)
Inductive MailBody :=
| idle_notification (summary : string)
| permission_request (approvalRequestId message : string) (toolName subagentSessionId approverGroup : option string) (requiredApproverRoles : option (list string))
| permission_response (approvalRequestId : string) (disposition : ApprovalDisposition) (approvedBy : option string)
| shutdown_request (reason : option string)
| task_assignment (objective : string) (summary : option string)
| mode_change (subject : option string) (body : string)
| verifier_result (overall : VerifierOverall) (summary : option string)
| worker_summary (state : WorkerState) (summary : string).

Record RuntimeMailboxMessage := {
  mm_messageId : string;
  mm_parentSessionId : string;
  mm_workerId : string;
  mm_direction : RuntimeMailboxDirection;
  mm_status : RuntimeMailboxStatus;
  mm_createdAt : Z;
  mm_updatedAt : Z;
  mm_taskId : option string;
  mm_correlationId : option string;
  mm_body : MailBody;
}.

(** A message without its id, direction, status and times. *)
Record MailDraft := {
  md_parentSessionId : string;
  md_workerId : string;
  md_taskId : option string;
  md_correlationId : option string;
  md_body : MailBody;
}.

Record MailboxSession := {
  se_parentSessionId : string;
  se_nextMessageNumber : Z;
  se_messages : list RuntimeMailboxMessage;
}.

(** ** Stored values *)

(** [JLiteral]: null, booleans and other numbers. *)
Inductive Json := JNumber (z : Z) | JString (s : string) | JArray (l : list Json) | JObject (m : list (string * Json)) | JLiteral.

Definition asPlainObject (v : Json) : option (jsmap Json) := match v with JObject m => Some m | _ => None end.

Definition asNonEmptyString (v : option Json) : option string :=
  match v with Some (JString s) => let trimmed := trim s in if isEmpty trimmed then None else Some trimmed | _ => None end.

Definition directionText (d : RuntimeMailboxDirection) : string := match d with parent_to_worker => "parent_to_worker" | worker_to_parent => "worker_to_parent" end.

Definition statusText (s : RuntimeMailboxStatus) : string :=
  match s with mail_pending => "pending" | mail_acknowledged => "acknowledged" | mail_handled => "handled" end.

Definition dispositionText (d : ApprovalDisposition) : string := match d with yes => "yes" | no => "no" | always => "always" end.

Definition overallText (o : VerifierOverall) : string :=
  match o with overall_pass => "pass" | overall_fail => "fail" | overall_retry => "retry" | overall_skipped => "skipped" end.

Definition workerStateText (s : WorkerState) : string :=
  match s with
  | worker_starting => "starting" | worker_running => "running" | worker_idle => "idle" | worker_waiting_for_permission => "waiting_for_permission"
  | worker_verifying => "verifying" | worker_completed => "completed" | worker_failed => "failed" | worker_cancelled => "cancelled"
  end.

Definition bodyType (b : MailBody) : string :=
  match b with
  | idle_notification _ => "idle_notification" | permission_request _ _ _ _ _ _ => "permission_request" | permission_response _ _ _ => "permission_response"
  | shutdown_request _ => "shutdown_request" | task_assignment _ _ => "task_assignment" | mode_change _ _ => "mode_change"
  | verifier_result _ _ => "verifier_result" | worker_summary _ _ => "worker_summary"
  end.

(** The value whose text is stored under the key: of [l], the one with that text. *)
Definition oneOf {A} (text : A -> string) (l : list A) (v : option Json) : option A :=
  match v with Some (JString s) => List.find (fun a => String.eqb (text a) s) l | _ => None end.

Definition isRuntimeMailboxDirection : option Json -> option RuntimeMailboxDirection := oneOf directionText [parent_to_worker; worker_to_parent].

Definition isRuntimeMailboxStatus : option Json -> option RuntimeMailboxStatus := oneOf statusText [mail_pending; mail_acknowledged; mail_handled].

Definition dispositionOf : option Json -> option ApprovalDisposition := oneOf dispositionText [yes; no; always].

Definition overallOf : option Json -> option VerifierOverall := oneOf overallText [overall_pass; overall_fail; overall_retry; overall_skipped].

Definition workerStateOf : option Json -> option WorkerState :=
  oneOf workerStateText [worker_starting; worker_running; worker_idle; worker_waiting_for_permission; worker_verifying; worker_completed; worker_failed; worker_cancelled].

Definition asNumber (v : option Json) : option Z := match v with Some (JNumber z) => Some z | _ => None end.

(** The strings of an array. *)
Definition stringsOf (l : list Json) : list string := omap (fun v => match v with JString s => Some s | _ => None end) l.

(** The body of a message of the given type. *)
Definition coerceBody (type : string) (direction : RuntimeMailboxDirection) (raw : jsmap Json) : option MailBody :=
  let text key := asNonEmptyString (mget raw key) in
  let from d := if decide (direction = d) then Some tt else None in
  if String.eqb type "idle_notification" then
    summary ← text "summary"; _ ← from worker_to_parent; Some (idle_notification summary)
  else if String.eqb type "permission_request" then
    approvalRequestId ← text "approvalRequestId"; message ← text "message"; _ ← from worker_to_parent;
    Some (permission_request approvalRequestId message (text "toolName") (text "subagentSessionId") (text "approverGroup")
      (match mget raw "requiredApproverRoles" with Some (JArray l) => Some (stringsOf l) | _ => None end))
  else if String.eqb type "permission_response" then
    approvalRequestId ← text "approvalRequestId"; disposition ← dispositionOf (mget raw "disposition"); _ ← from parent_to_worker;
    Some (permission_response approvalRequestId disposition (text "approvedBy"))
  else if String.eqb type "shutdown_request" then
    _ ← from parent_to_worker; Some (shutdown_request (text "reason"))
  else if String.eqb type "task_assignment" then
    _ ← text "taskId"; objective ← text "objective"; _ ← from parent_to_worker; Some (task_assignment objective (text "summary"))
  else if String.eqb type "mode_change" then
    body ← text "body"; _ ← from parent_to_worker; Some (mode_change (text "subject") body)
  else if String.eqb type "verifier_result" then
    overall ← overallOf (mget raw "overall"); _ ← from worker_to_parent; Some (verifier_result overall (text "summary"))
  else if String.eqb type "worker_summary" then
    state ← workerStateOf (mget raw "state"); summary ← text "summary"; _ ← from worker_to_parent; Some (worker_summary state summary)
  else None.

Definition coerceRuntimeMailboxMessage (value : Json) : option RuntimeMailboxMessage :=
  raw ← asPlainObject value;
  let text key := asNonEmptyString (mget raw key) in
  type ← text "type"; messageId ← text "messageId"; parentSessionId ← text "parentSessionId"; workerId ← text "workerId";
  direction ← isRuntimeMailboxDirection (mget raw "direction"); status ← isRuntimeMailboxStatus (mget raw "status");
  createdAt ← asNumber (mget raw "createdAt"); updatedAt ← asNumber (mget raw "updatedAt");
  body ← coerceBody type direction raw;
  Some {| mm_messageId := messageId; mm_parentSessionId := parentSessionId; mm_workerId := workerId; mm_direction := direction; mm_status := status;
    mm_createdAt := createdAt; mm_updatedAt := updatedAt; mm_taskId := text "taskId"; mm_correlationId := text "correlationId"; mm_body := body |}.

(** A field that is left out when it is undefined. *)
Definition optionalField (key : string) (v : option string) : jsmap Json := match v with Some s => [(key, JString s)] | None => [] end.

Definition encodeBody (b : MailBody) : jsmap Json :=
  match b with
  | idle_notification summary => [("summary", JString summary)]
  | permission_request approvalRequestId message toolName subagentSessionId approverGroup roles =>
      [("approvalRequestId", JString approvalRequestId); ("message", JString message)] ++ optionalField "toolName" toolName ++
      optionalField "subagentSessionId" subagentSessionId ++ optionalField "approverGroup" approverGroup ++
      match roles with Some l => [("requiredApproverRoles", JArray (map JString l))] | None => [] end
  | permission_response approvalRequestId disposition approvedBy =>
      [("approvalRequestId", JString approvalRequestId); ("disposition", JString (dispositionText disposition))] ++ optionalField "approvedBy" approvedBy
  | shutdown_request reason => optionalField "reason" reason
  | task_assignment objective summary => [("objective", JString objective)] ++ optionalField "summary" summary
  | mode_change subject body => [("body", JString body)] ++ optionalField "subject" subject
  | verifier_result overall summary => [("overall", JString (overallText overall))] ++ optionalField "summary" summary
  | worker_summary state summary => [("state", JString (workerStateText state)); ("summary", JString summary)]
  end%list.

(** [cloneJson] of a message, as the backend keeps it. *)
Definition encodeMessage (m : RuntimeMailboxMessage) : Json :=
  JObject ([("type", JString (bodyType (mm_body m))); ("messageId", JString (mm_messageId m)); ("parentSessionId", JString (mm_parentSessionId m));
    ("workerId", JString (mm_workerId m)); ("direction", JString (directionText (mm_direction m))); ("status", JString (statusText (mm_status m)));
    ("createdAt", JNumber (mm_createdAt m)); ("updatedAt", JNumber (mm_updatedAt m))] ++
    optionalField "taskId" (mm_taskId m) ++ optionalField "correlationId" (mm_correlationId m) ++ encodeBody (mm_body m))%list.

Definition PERSISTENT_WORKER_MAILBOX_KEY_PREFIX : string := "persistent-worker-mailbox:session:".

Definition PERSISTENT_WORKER_MAILBOX_SCHEMA_VERSION : Z := 1.

Definition createEmptySession (parentSessionId : string) : MailboxSession := {| se_parentSessionId := parentSessionId; se_nextMessageNumber := 1; se_messages := [] |}.

Definition coerceSession (value : option Json) (parentSessionId : string) : MailboxSession :=
  match value ≫= asPlainObject with
  | None => createEmptySession parentSessionId
  | Some raw => {|
      se_parentSessionId := default parentSessionId (asNonEmptyString (mget raw "parentSessionId"));
      se_nextMessageNumber := match mget raw "nextMessageNumber" with Some (JNumber z) => if 0 <? z then z else 1 | _ => 1 end;
      se_messages := match mget raw "messages" with Some (JArray l) => omap coerceRuntimeMailboxMessage l | _ => [] end |}
  end.

Definition cloneSession (s : MailboxSession) : Json :=
  JObject [("version", JNumber PERSISTENT_WORKER_MAILBOX_SCHEMA_VERSION); ("parentSessionId", JString (se_parentSessionId s));
    ("nextMessageNumber", JNumber (se_nextMessageNumber s)); ("messages", JArray (map encodeMessage (se_messages s)))].

Definition Store : Type := jsmap Json.

Definition sessionKey (parentSessionId : string) : string := PERSISTENT_WORKER_MAILBOX_KEY_PREFIX +:+ parentSessionId.

Definition loadSession (parentSessionId : string) (b : Store) : MailboxSession := coerceSession (mget b (sessionKey parentSessionId)) parentSessionId.

Definition saveSession (s : MailboxSession) (b : Store) : Store := mset (sessionKey (se_parentSessionId s)) (cloneSession s) b.

(** ** Changes of a session *)

Definition with_messages (l : list RuntimeMailboxMessage) (s : MailboxSession) : MailboxSession := {|
  se_parentSessionId := se_parentSessionId s; se_nextMessageNumber := se_nextMessageNumber s; se_messages := l |}.

Definition with_status (status : RuntimeMailboxStatus) (updatedAt : Z) (m : RuntimeMailboxMessage) : RuntimeMailboxMessage := {|
  mm_messageId := mm_messageId m; mm_parentSessionId := mm_parentSessionId m; mm_workerId := mm_workerId m; mm_direction := mm_direction m; mm_status := status;
  mm_createdAt := mm_createdAt m; mm_updatedAt := updatedAt; mm_taskId := mm_taskId m; mm_correlationId := mm_correlationId m; mm_body := mm_body m |}.

Definition messageId (n : Z) : string := "mail-" +:+ pretty n.

(** The new message, and the session with the next number. *)
Definition createMessage (s : MailboxSession) (direction : RuntimeMailboxDirection) (draft : MailDraft) (now : Z) : MailboxSession * RuntimeMailboxMessage :=
  ({| se_parentSessionId := se_parentSessionId s; se_nextMessageNumber := se_nextMessageNumber s + 1; se_messages := se_messages s |},
   {| mm_messageId := messageId (se_nextMessageNumber s); mm_parentSessionId := md_parentSessionId draft; mm_workerId := md_workerId draft; mm_direction := direction;
      mm_status := mail_pending; mm_createdAt := now; mm_updatedAt := now; mm_taskId := md_taskId draft; mm_correlationId := md_correlationId draft;
      mm_body := md_body draft |}).

(** What a change resolves to: a message or none, or the repaired messages. *)
Inductive MailResult := RMessage (m : option RuntimeMailboxMessage) | RRepaired (l : list RuntimeMailboxMessage).

Definition sendMessage (direction : RuntimeMailboxDirection) (draft : MailDraft) (now : Z) (s : MailboxSession) : MailboxSession * MailResult :=
  let '(s, m) := createMessage s direction draft now in (with_messages (se_messages s ++ [m])%list s, RMessage (Some m)).

Definition sendToWorker : MailDraft -> Z -> MailboxSession -> MailboxSession * MailResult := sendMessage parent_to_worker.

Definition sendToParent : MailDraft -> Z -> MailboxSession -> MailboxSession * MailResult := sendMessage worker_to_parent.

(** [session.messages.find(entry => entry.messageId === id)], with its place. *)
Definition findMessage (id : string) (l : list RuntimeMailboxMessage) : option (nat * RuntimeMailboxMessage) := list_find (fun m => mm_messageId m = id) l.

(** The message at a place gets another status. *)
Definition restatus (i : nat) (status : RuntimeMailboxStatus) (now : Z) (s : MailboxSession) : MailboxSession :=
  with_messages (alter (with_status status now) i (se_messages s)) s.

Definition acknowledgeMessage (id : string) (now : Z) (s : MailboxSession) : MailboxSession * MailResult :=
  match findMessage id (se_messages s) with
  | None => (s, RMessage None)
  | Some (i, m) =>
      match mm_status m with
      | mail_pending => (restatus i mail_acknowledged now s, RMessage (Some (with_status mail_acknowledged now m)))
      | _ => (s, RMessage (Some m))
      end
  end.

Definition markHandled (id : string) (now : Z) (s : MailboxSession) : MailboxSession * MailResult :=
  match findMessage id (se_messages s) with
  | None => (s, RMessage None)
  | Some (i, m) =>
      match mm_status m with
      | mail_handled => (s, RMessage (Some m))
      | _ => (restatus i mail_handled now s, RMessage (Some (with_status mail_handled now m)))
      end
  end.

Section collation.
Context `{Collation}.

Definition compareMessages (a b : RuntimeMailboxMessage) : comparison :=
  match Z.compare (mm_createdAt a) (mm_createdAt b) with Eq => localeCompare (mm_messageId a) (mm_messageId b) | c => c end.

(** What [claimNextWorkerMessage] looks for. *)
Definition claimable (workerId : string) (types : option (list string)) (m : RuntimeMailboxMessage) : bool :=
  String.eqb (mm_workerId m) workerId && bool_decide (mm_direction m = parent_to_worker) && bool_decide (mm_status m = mail_pending) &&
  match types with Some l => has l (bodyType (mm_body m)) | None => true end.

(** The messages with their places. *)
Definition placed (l : list RuntimeMailboxMessage) : list (nat * RuntimeMailboxMessage) := imap pair l.

Definition claimNextWorkerMessage (workerId : string) (types : option (list string)) (now : Z) (s : MailboxSession) : MailboxSession * MailResult :=
  match sort_by (fun a b => compareMessages a.2 b.2) (List.filter (fun im => claimable workerId types im.2) (placed (se_messages s))) with
  | [] => (s, RMessage None)
  | (i, m) :: _ => (restatus i mail_acknowledged now s, RMessage (Some (with_status mail_acknowledged now m)))
  end.

(** A message for a worker that was claimed or acknowledged and not handled. *)
Definition unhandled (m : RuntimeMailboxMessage) : bool := bool_decide (mm_direction m = parent_to_worker) && bool_decide (mm_status m = mail_acknowledged).

(** The change that [repairRuntimeState] makes in each session. *)
Definition repairSession (now : Z) (s : MailboxSession) : MailboxSession * MailResult :=
  (with_messages (map (fun m => if unhandled m then with_status mail_pending now m else m) (se_messages s)) s,
   RRepaired (map (with_status mail_pending now) (List.filter unhandled (se_messages s)))).

(** ** The calls *)

Inductive MailOp :=
| OSendToWorker (draft : MailDraft)
| OSendToParent (draft : MailDraft)
| OAcknowledge (parentSessionId id : string)
| OHandled (parentSessionId id : string)
| OClaim (parentSessionId workerId : string) (types : option (list string))
| ORepair (parentSessionId : string).

Definition sessionOf (op : MailOp) : string :=
  match op with
  | OSendToWorker draft | OSendToParent draft => md_parentSessionId draft
  | OAcknowledge p _ | OHandled p _ | OClaim p _ _ | ORepair p => p
  end.

(** The callback given to [mutateSession]. *)
Definition mutateOp (op : MailOp) (now : Z) (s : MailboxSession) : MailboxSession * MailResult :=
  match op with
  | OSendToWorker draft => sendToWorker draft now s
  | OSendToParent draft => sendToParent draft now s
  | OAcknowledge _ id => acknowledgeMessage id now s
  | OHandled _ id => markHandled id now s
  | OClaim _ workerId types => claimNextWorkerMessage workerId types now s
  | ORepair _ => repairSession now s
  end.

(** [mutateSession] without interruption: load, change, save. *)
Definition mutateSession (b : Store) (op : MailOp) (now : Z) : Store * MailResult :=
  let '(s, r) := mutateOp op now (loadSession (sessionOf op) b) in (saveSession s b, r).

(** [repairRuntimeState]: the sessions whose keys the backend lists. *)
Definition mailboxSessions (b : Store) : list string :=
  map (sdrop (String.length PERSISTENT_WORKER_MAILBOX_KEY_PREFIX)) (List.filter (fun k => startsWith k PERSISTENT_WORKER_MAILBOX_KEY_PREFIX) (mkeys b)).

Definition repairRuntimeState (now : Z) (b : Store) : Store := foldl (fun b p => fst (mutateSession b (ORepair p) now)) b (mailboxSessions b).

(** ** Readings *)

Definition optionIs {A} (eqb : A -> A -> bool) (o : option A) (a : A) : bool := match o with Some x => eqb x a | None => true end.

Definition listMessages (b : Store) (parentSessionId : string) (workerId : option string) (direction : option RuntimeMailboxDirection)
    (status : option RuntimeMailboxStatus) (limit : option Z) : list RuntimeMailboxMessage :=
  let given := match workerId with Some w => if isEmpty w then None else Some w | None => None end in
  let messages := sort_by compareMessages (List.filter (fun m => optionIs String.eqb given (mm_workerId m) && optionIs (fun x y => bool_decide (x = y)) direction (mm_direction m) &&
    optionIs (fun x y => bool_decide (x = y)) status (mm_status m)) (se_messages (loadSession parentSessionId b))) in
  match limit with Some n => drop (length messages - Z.to_nat (Z.max 1 n)) messages | None => messages end.

Definition getMessage (b : Store) (parentSessionId id : string) : option RuntimeMailboxMessage := snd <$> findMessage id (se_messages (loadSession parentSessionId b)).

Definition countOf (p : RuntimeMailboxMessage -> bool) (l : list RuntimeMailboxMessage) : nat := length (List.filter p l).

(** Messages of one direction that are not handled. *)
Definition openIn (direction : RuntimeMailboxDirection) (m : RuntimeMailboxMessage) : bool :=
  bool_decide (mm_direction m = direction) && negb (bool_decide (mm_status m = mail_handled)).

(** Pending inbox and outbox, and the time of the last change. *)
Definition getWorkerMailboxCounts (b : Store) (parentSessionId workerId : string) : nat * nat * option Z :=
  let l := List.filter (fun m => String.eqb (mm_workerId m) workerId) (se_messages (loadSession parentSessionId b)) in
  (countOf (openIn parent_to_worker) l, countOf (openIn worker_to_parent) l,
   match map mm_updatedAt l with [] => None | t :: rest => Some (foldl Z.max t rest) end).

Record MailboxLayerSnapshot := {
  ml_configured : bool;
  ml_effective : bool;
  ml_pendingParentToWorker : nat;
  ml_pendingWorkerToParent : nat;
  ml_unackedCount : nat;
  ml_inactiveReason : option string;
}.

Definition describeRuntimeMailboxLayer (b : Store) (configured : bool) (parentSessionId : string) : MailboxLayerSnapshot :=
  if negb configured then {| ml_configured := false; ml_effective := false; ml_pendingParentToWorker := 0; ml_pendingWorkerToParent := 0; ml_unackedCount := 0;
    ml_inactiveReason := Some "flag_disabled" |}
  else
    let l := se_messages (loadSession parentSessionId b) in
    {| ml_configured := true; ml_effective := true; ml_pendingParentToWorker := countOf (openIn parent_to_worker) l;
       ml_pendingWorkerToParent := countOf (openIn worker_to_parent) l; ml_unackedCount := countOf (fun m => bool_decide (mm_status m = mail_pending)) l;
       ml_inactiveReason := None |}.

(** ** The mailbox in operation *)

(** A call waits in the queue, waits for the session, waits for the save with the
    session and the result it made of it, has a result or an error, or was lost
    with its process. *)
Inductive MailPhase :=
| MWaiting
| MLoading
| MSaving (now : Z) (s : MailboxSession) (r : MailResult)
| MSettled (r : option MailResult)
| MLost.

Record MailCall := {
  mc_op : MailOp;
  mc_phase : MailPhase;
}.

(** A saved change: the number of its call, the call, its time and its result. *)
Record MailEntry := {
  me_call : nat;
  me_op : MailOp;
  me_now : Z;
  me_result : MailResult;
}.

(** [mb_log]: the saved changes, in the order of the saves. *)
Record Mailbox := {
  mb_store : Store;
  mb_queue : KeyedAsyncQueue;
  mb_calls : list MailCall;
  mb_log : list MailEntry;
}.

Definition newMailbox (b : Store) : Mailbox := {| mb_store := b; mb_queue := newQueue; mb_calls := []; mb_log := [] |}.

(** [ELoadFails], [ESaveFails]: the backend rejects. [ECrash]: the process ends, and
    another one continues with the store and an empty queue. *)
Inductive MailEvent :=
| ECall (op : MailOp)
| EStart (i : nat)
| ELoaded (i : nat) (now : Z)
| ELoadFails (i : nat)
| ESaved (i : nat)
| ESaveFails (i : nat)
| EReturn (i : nat)
| ECrash.

Definition at_phase (ph : MailPhase) (c : MailCall) : MailCall := {| mc_op := mc_op c; mc_phase := ph |}.

Definition setCall (i : nat) (ph : MailPhase) (calls : list MailCall) : list MailCall := alter (at_phase ph) i calls.

(** The operation of a call ends without a change. *)
Definition callFails (i : nat) (st : Mailbox) : Mailbox := {|
  mb_store := mb_store st; mb_queue := release i (mb_queue st); mb_calls := setCall i (MSettled None) (mb_calls st); mb_log := mb_log st |}.

(** The calls of a process that ended. *)
Definition loseCall (c : MailCall) : MailCall := match mc_phase c with MSettled _ => c | _ => at_phase MLost c end.

(** The queue of the next process: nobody waits for the calls before. *)
Definition forgetQueue (q : KeyedAsyncQueue) : KeyedAsyncQueue := {| kq_chains := []; kq_runs := map (with_phase Returned) (kq_runs q) |}.

Definition mailStep (st : Mailbox) (ev : MailEvent) : Mailbox :=
  match ev with
  | ECall op => {| mb_store := mb_store st; mb_queue := run (sessionKey (sessionOf op)) (mb_queue st); mb_calls := mb_calls st ++ [{| mc_op := op; mc_phase := MWaiting |}];
      mb_log := mb_log st |}
  | EStart i =>
      if canStart (mb_queue st) i then {| mb_store := mb_store st; mb_queue := start i (mb_queue st); mb_calls := setCall i MLoading (mb_calls st); mb_log := mb_log st |} else st
  | ELoaded i now =>
      match mb_calls st !! i with
      | Some {| mc_op := op; mc_phase := MLoading |} =>
          let '(s, r) := mutateOp op now (loadSession (sessionOf op) (mb_store st)) in
          {| mb_store := mb_store st; mb_queue := mb_queue st; mb_calls := setCall i (MSaving now s r) (mb_calls st); mb_log := mb_log st |}
      | _ => st
      end
  | ELoadFails i => match mb_calls st !! i with Some {| mc_phase := MLoading |} => callFails i st | _ => st end
  | ESaved i =>
      match mb_calls st !! i with
      | Some {| mc_op := op; mc_phase := MSaving now s r |} => {|
          mb_store := saveSession s (mb_store st); mb_queue := release i (mb_queue st); mb_calls := setCall i (MSettled (Some r)) (mb_calls st);
          mb_log := mb_log st ++ [{| me_call := i; me_op := op; me_now := now; me_result := r |}] |}
      | _ => st
      end
  | ESaveFails i => match mb_calls st !! i with Some {| mc_phase := MSaving _ _ _ |} => callFails i st | _ => st end
  | EReturn i => {| mb_store := mb_store st; mb_queue := returned i (mb_queue st); mb_calls := mb_calls st; mb_log := mb_log st |}
  | ECrash => {| mb_store := mb_store st; mb_queue := forgetQueue (mb_queue st); mb_calls := map loseCall (mb_calls st); mb_log := mb_log st |}
  end.
End collation.
