(* ===== verification/MailboxSpec.v ===== *)
(** * Theorems about the worker mailbox *)
From stdpp Require Import pretty.
From S2P Require Import Prelude JsMap JsString Approvals KeyedQueue Mailbox.
#[local] Open Scope string_scope.

(** ** What the backend gives back *)

(** A text that [asNonEmptyString] leaves as it is. *)
Definition tidy (s : string) : Prop := s <> "" /\ trim s = s.

Definition tidyOption (o : option string) : Prop := match o with Some s => tidy s | None => True end.

(** A body whose texts are tidy and whose type fits the direction. *)
Definition tidyBody (direction : RuntimeMailboxDirection) (taskId : option string) (b : MailBody) : Prop :=
  match b with
  | idle_notification summary => direction = worker_to_parent /\ tidy summary
  | permission_request id message toolName subagentSessionId approverGroup _ =>
      direction = worker_to_parent /\ tidy id /\ tidy message /\ tidyOption toolName /\ tidyOption subagentSessionId /\ tidyOption approverGroup
  | permission_response id _ approvedBy => direction = parent_to_worker /\ tidy id /\ tidyOption approvedBy
  | shutdown_request reason => direction = parent_to_worker /\ tidyOption reason
  | task_assignment objective summary => direction = parent_to_worker /\ taskId <> None /\ tidy objective /\ tidyOption summary
  | mode_change subject body => direction = parent_to_worker /\ tidyOption subject /\ tidy body
  | verifier_result _ summary => direction = worker_to_parent /\ tidyOption summary
  | worker_summary _ summary => direction = worker_to_parent /\ tidy summary
  end.

Record tidyDraft (direction : RuntimeMailboxDirection) (d : MailDraft) : Prop := {
  td_parent : tidy (md_parentSessionId d);
  td_worker : tidy (md_workerId d);
  td_task : tidyOption (md_taskId d);
  td_correlation : tidyOption (md_correlationId d);
  td_body : tidyBody direction (md_taskId d) (md_body d);
}.

Definition draftOf (m : RuntimeMailboxMessage) : MailDraft := {|
  md_parentSessionId := mm_parentSessionId m; md_workerId := mm_workerId m; md_taskId := mm_taskId m; md_correlationId := mm_correlationId m; md_body := mm_body m |}.

Definition tidyMessage (m : RuntimeMailboxMessage) : Prop := tidy (mm_messageId m) /\ tidyDraft (mm_direction m) (draftOf m).

Lemma asText_tidy s : tidy s -> asNonEmptyString (Some (JString s)) = Some s.
Proof. intros [Hn Ht]. unfold asNonEmptyString. rewrite Ht. by destruct s. Qed.

Lemma direction_back d : isRuntimeMailboxDirection (Some (JString (directionText d))) = Some d.
Proof. by destruct d. Qed.

Lemma status_back s : isRuntimeMailboxStatus (Some (JString (statusText s))) = Some s.
Proof. by destruct s. Qed.

Lemma strings_back l : stringsOf (map JString l) = l.
Proof. induction l as [|s l IH]; [done|]. cbn. by rewrite <- IH at 2. Qed.

Lemma mget_optionalField k v key rest : mget (optionalField k v ++ rest) key = (if String.eqb key k then match v with Some s => Some (JString s) | None => mget rest key end else mget rest key).
Proof. destruct v; cbn; [done|by destruct (String.eqb key k)]. Qed.

Lemma optional_back v : tidyOption v -> asNonEmptyString (match v with Some s => Some (JString s) | None => None end) = v.
Proof. destruct v as [s|]; [by apply asText_tidy|done]. Qed.

Lemma disposition_back d : dispositionOf (Some (JString (dispositionText d))) = Some d.
Proof. by destruct d. Qed.

Lemma overall_back o : overallOf (Some (JString (overallText o))) = Some o.
Proof. by destruct o. Qed.

Lemma workerState_back s : workerStateOf (Some (JString (workerStateText s))) = Some s.
Proof. by destruct s. Qed.

Lemma mget_optionalField_end k v key : mget (optionalField k v) key = (if String.eqb key k then match v with Some s => Some (JString s) | None => None end else None).
Proof. destruct v; cbn; [done|by destruct (String.eqb key k)]. Qed.

(** Field lookups in the object of a message, computed. *)
Ltac look := cbv beta iota zeta delta [mget String.eqb Ascii.eqb Bool.eqb app mbind option_bind asPlainObject bodyType directionText asNumber isRuntimeMailboxDirection oneOf List.find
  mm_messageId mm_parentSessionId mm_workerId mm_direction mm_status mm_createdAt mm_updatedAt mm_taskId mm_correlationId mm_body].

(** The backend gives a tidy message back as it was saved. *)
Lemma coerce_back m : tidyMessage m -> coerceRuntimeMailboxMessage (encodeMessage m) = Some m.
Proof.
  intros [Hid [Hp Hw Ht Hc Hb]]. destruct m as [id p w dir st ca ua task cor body].
  assert (E1 := asText_tidy). assert (E2 := optional_back). assert (E3 : asNonEmptyString None = None) by done.
  assert (E4 : asNonEmptyString (Some (JString (bodyType body))) = Some (bodyType body)) by by destruct body.
  assert (E5 := status_back). assert (E6 := disposition_back). assert (E7 := overall_back). assert (E8 := workerState_back).
  assert (O1 := mget_optionalField). assert (O2 := mget_optionalField_end).
  unfold coerceRuntimeMailboxMessage, coerceBody, encodeMessage, encodeBody.
  set (f := asNonEmptyString) in *. set (g := isRuntimeMailboxStatus) in *. set (o := optionalField) in *.
  set (d := dispositionOf) in *. set (ov := overallOf) in *. set (ws := workerStateOf) in *. clearbody f g o d ov ws.
  cbn in Hid, Hp, Hw, Ht, Hc, Hb.
  assert (D1 : decide (worker_to_parent = worker_to_parent) = left eq_refl) by done. assert (D2 : decide (parent_to_worker = parent_to_worker) = left eq_refl) by done.
  destruct body as [|????? roles| | | | | |]; cbn in Hb, E4; destruct_and?; subst dir; look;
    repeat (rewrite ?E4, ?E5, ?E6, ?E7, ?E8, ?O1, ?O2, ?D1, ?D2; (rewrite ?E1, ?E2, ?E3 by done); look); try reflexivity.
  - destruct roles as [l|]; look; rewrite ?strings_back; (rewrite ?E2 by done); reflexivity.
  - by destruct task.
Qed.

(** ** Sessions *)

Lemma sessionKey_inj p q : sessionKey p = sessionKey q -> p = q.
Proof. intros He. by apply (inj (String.append PERSISTENT_WORKER_MAILBOX_KEY_PREFIX)) in He. Qed.

Record tidySession (p : string) (s : MailboxSession) : Prop := {
  ts_parent : se_parentSessionId s = p;
  ts_tidy : tidy p;
  ts_number : (0 < se_nextMessageNumber s)%Z;
  ts_messages : Forall tidyMessage (se_messages s);
}.

Lemma coerce_messages l : Forall tidyMessage l -> omap coerceRuntimeMailboxMessage (map encodeMessage l) = l.
Proof. induction 1 as [|m l Hm _ IH]; [done|]. cbn [map omap list_omap]. rewrite (coerce_back m Hm). by f_equal. Qed.

Lemma load_save p s b : tidySession p s -> loadSession p (saveSession s b) = s.
Proof.
  intros [Hp Ht Hn Hm]. unfold loadSession, saveSession. rewrite Hp, mget_mset_eq. unfold coerceSession, cloneSession.
  assert (E1 := asText_tidy). assert (E2 := coerce_messages _ Hm). set (f := asNonEmptyString) in *. clearbody f. set (g := coerceRuntimeMailboxMessage) in *. clearbody g.
  cbn. rewrite E1 by (by rewrite Hp). rewrite E2. cbn. replace (0 <? se_nextMessageNumber s)%Z with true by (symmetry; by apply Z.ltb_lt). by destruct s.
Qed.

Lemma load_other p q s b : se_parentSessionId s = p -> q <> p -> loadSession q (saveSession s b) = loadSession q b.
Proof. intros Hp Hne. unfold loadSession, saveSession. rewrite Hp, mget_mset_ne; [done|]. intros He. by apply Hne, sessionKey_inj. Qed.

(** Every session is stored under its own key. *)
Definition wellKeyed (b : Store) : Prop := forall p, tidy p -> se_parentSessionId (loadSession p b) = p.

Lemma saved_parent p s b : tidy p -> se_parentSessionId s = p -> se_parentSessionId (loadSession p (saveSession s b)) = p.
Proof. intros Ht Hp. unfold loadSession, saveSession. rewrite Hp, mget_mset_eq. unfold coerceSession, cloneSession. assert (E1 := asText_tidy).
  set (f := asNonEmptyString) in *. clearbody f. cbn. by rewrite E1, Hp by (by rewrite Hp).
Qed.

Lemma save_keyed p s b : wellKeyed b -> tidy p -> se_parentSessionId s = p -> wellKeyed (saveSession s b).
Proof.
  intros Hb Ht Hp q Hq. destruct (decide (q = p)) as [->|Hne]; [by apply saved_parent|]. rewrite (load_other p) by done. by apply Hb.
Qed.

Lemma findMessage_Some id l i m : findMessage id l = Some (i, m) -> l !! i = Some m /\ mm_messageId m = id.
Proof. intros Hf. apply list_find_Some in Hf as (H1 & H2 & _). done. Qed.

Section operation.
Context `{Collation}.

Lemma mutateOp_parent op now s : se_parentSessionId (mutateOp op now s).1 = se_parentSessionId s.
Proof.
  destruct op as [d|d|p id|p id|p w ty|p]; cbn [mutateOp]; try done.
  - unfold acknowledgeMessage. destruct (findMessage id (se_messages s)) as [[i m]|]; [|done]. by destruct (mm_status m).
  - unfold markHandled. destruct (findMessage id (se_messages s)) as [[i m]|]; [|done]. by destruct (mm_status m).
  - unfold claimNextWorkerMessage. by destruct (sort_by _ _) as [|[i m] rest].
Qed.

(** The calls one after the other, with their results. *)
Definition oneByOne (b : Store) (l : list (MailOp * Z)) : Store * list MailResult :=
  foldl (fun acc x => let '(b, r) := mutateSession acc.1 x.1 x.2 in (b, acc.2 ++ [r])%list) (b, []) l.

Lemma oneByOne_snoc b l op now : oneByOne b (l ++ [(op, now)]) =
  let acc := oneByOne b l in ((mutateSession acc.1 op now).1, acc.2 ++ [(mutateSession acc.1 op now).2])%list.
Proof. unfold oneByOne. rewrite foldl_app. cbn. by destruct (mutateSession _ op now). Qed.

Definition entryCall (e : MailEntry) : MailOp * Z := (me_op e, me_now e).

(** The phase of a call and of its run in the queue. *)
Definition phasesAgree (ph : MailPhase) (q : RunPhase) : Prop :=
  match ph with MWaiting => q = Queued | MLoading | MSaving _ _ _ => q = Running | MSettled _ | MLost => ended q = true end.

Definition callsAgree (st : Mailbox) : Prop := length (mb_calls st) = length (kq_runs (mb_queue st)) /\
  forall i c r, mb_calls st !! i = Some c -> kq_runs (mb_queue st) !! i = Some r -> qr_key r = sessionKey (sessionOf (mc_op c)) /\ phasesAgree (mc_phase c) (qr_phase r).

Record minv (b : Store) (st : Mailbox) : Prop := {
  mi_queue : qinv (mb_queue st);
  mi_agree : callsAgree st;
  mi_tidy : forall i c, mb_calls st !! i = Some c -> tidy (sessionOf (mc_op c));
  mi_keyed : wellKeyed (mb_store st);
  mi_saving : forall i op now s r, mb_calls st !! i = Some {| mc_op := op; mc_phase := MSaving now s r |} -> mutateOp op now (loadSession (sessionOf op) (mb_store st)) = (s, r);
  mi_log : oneByOne b (map entryCall (mb_log st)) = (mb_store st, map me_result (mb_log st));
  mi_entries : forall e, e ∈ mb_log st -> mb_calls st !! me_call e = Some {| mc_op := me_op e; mc_phase := MSettled (Some (me_result e)) |};
  mi_settled : forall i op r, mb_calls st !! i = Some {| mc_op := op; mc_phase := MSettled (Some r) |} -> exists e, e ∈ mb_log st /\ me_call e = i;
  mi_order : forall j k e f, j < k -> mb_log st !! j = Some e -> mb_log st !! k = Some f -> sessionOf (me_op e) = sessionOf (me_op f) -> me_call e < me_call f;
}.
End operation.

(** ** Calls one after the other *)

Lemma setCall_lookup i ph calls j : setCall i ph calls !! j = (if decide (i = j) then at_phase ph <$> calls !! j else calls !! j).
Proof. unfold setCall. destruct (decide (i = j)) as [->|Hne]; [apply list_lookup_alter_eq|by apply list_lookup_alter_ne]. Qed.

Section machine.
Context `{Collation}.

Lemma agree_run st i c : callsAgree st -> mb_calls st !! i = Some c ->
  exists r, kq_runs (mb_queue st) !! i = Some r /\ qr_key r = sessionKey (sessionOf (mc_op c)) /\ phasesAgree (mc_phase c) (qr_phase r).
Proof.
  intros [Hl Ha] Hc. assert (i < length (kq_runs (mb_queue st))) as Hi by (rewrite <- Hl; by eapply lookup_lt_Some).
  apply lookup_lt_is_Some in Hi as [r Hr]. exists r. split; [done|]. by apply (Ha i).
Qed.

(** The queue moves call [i] to a phase that fits. *)
Definition queueMoves (i : nat) (ph : MailPhase) (q q' : KeyedAsyncQueue) : Prop :=
  length (kq_runs q') = length (kq_runs q) /\
  forall j r', kq_runs q' !! j = Some r' -> exists r, kq_runs q !! j = Some r /\ qr_key r' = qr_key r /\
    if decide (i = j) then phasesAgree ph (qr_phase r') else qr_phase r' = qr_phase r.

Lemma atPhase_moves i ph qph q : phasesAgree ph qph -> queueMoves i ph q (atPhase qph i q).
Proof.
  intros Hph. split; [apply length_alter|]. intros j r'. rewrite atPhase_lookup. destruct (decide (i = j)) as [<-|Hne].
  - destruct (kq_runs q !! i) as [r|] eqn:Hr; [|done]. cbn. intros [= <-]. by exists r.
  - intros Hr. by exists r'.
Qed.

Lemma agree_moves st i ph q' store log : callsAgree st -> queueMoves i ph (mb_queue st) q' ->
  callsAgree {| mb_store := store; mb_queue := q'; mb_calls := setCall i ph (mb_calls st); mb_log := log |}.
Proof.
  intros [Hl Ha] [Hl' Hm]. split; [unfold setCall; cbn; rewrite length_alter; congruence|]. cbn [mb_calls mb_queue]. intros j c' r' Hc Hr.
  destruct (Hm j r' Hr) as (r & H1 & H2 & H3). rewrite setCall_lookup in Hc. destruct (decide (i = j)) as [<-|Hne].
  - destruct (mb_calls st !! i) as [c|] eqn:Hi; [|done]. cbn in Hc. injection Hc as <-. cbn. rewrite H2. split; [by apply (Ha i)|done].
  - rewrite H2, H3. by apply (Ha j).
Qed.

(** A step of one call that saves nothing. *)
Lemma minv_quiet b st i c ph q' : minv b st -> mb_calls st !! i = Some c -> (forall r, mc_phase c <> MSettled (Some r)) -> (forall r, ph <> MSettled (Some r)) ->
  qinv q' -> queueMoves i ph (mb_queue st) q' ->
  (forall now s r, ph = MSaving now s r -> mutateOp (mc_op c) now (loadSession (sessionOf (mc_op c)) (mb_store st)) = (s, r)) ->
  minv b {| mb_store := mb_store st; mb_queue := q'; mb_calls := setCall i ph (mb_calls st); mb_log := mb_log st |}.
Proof.
  intros Hi Hc Hn Hn' Hq Hm Hs. split; cbn [mb_store mb_queue mb_calls mb_log].
  - done.
  - by apply agree_moves; [apply (mi_agree _ _ Hi)|].
  - intros j c'. rewrite setCall_lookup. destruct (decide (i = j)) as [<-|Hne]; [|by apply (mi_tidy _ _ Hi)]. rewrite Hc. cbn. intros [= <-]. exact (mi_tidy _ _ Hi i c Hc).
  - apply (mi_keyed _ _ Hi).
  - intros j op now s r. rewrite setCall_lookup. destruct (decide (i = j)) as [<-|Hne]; [|by apply (mi_saving _ _ Hi)]. rewrite Hc. cbn. intros [= <- Hph]. by apply Hs.
  - apply (mi_log _ _ Hi).
  - intros e He. rewrite setCall_lookup. pose proof (mi_entries _ _ Hi e He) as Hl. destruct (decide (i = me_call e)) as [->|Hne]; [|done].
    rewrite Hl in Hc. injection Hc as <-. by destruct (Hn (me_result e)).
  - intros j op r. rewrite setCall_lookup. destruct (decide (i = j)) as [<-|Hne]; [|by apply (mi_settled _ _ Hi)]. rewrite Hc. cbn. intros [= _ Hph]. by destruct (Hn' r).
  - apply (mi_order _ _ Hi).
Qed.

Lemma minv_call b st op : minv b st -> tidy (sessionOf op) -> minv b (mailStep st (ECall op)).
Proof.
  intros Hi Ht. cbn [mailStep]. split; cbn [mb_store mb_queue mb_calls mb_log].
  - apply qinv_run, (mi_queue _ _ Hi).
  - destruct (mi_agree _ _ Hi) as [Hl Ha]. split; [cbn; rewrite !length_app; cbn; lia|]. cbn [mb_calls mb_queue]. intros i c r Hc Hr.
    apply lookup_app_Some in Hc as [Hc|[Hle Hc]]; destruct (run_lookup _ _ _ _ Hr) as [Hr'|[-> ->]].
    + by apply (Ha i).
    + apply lookup_lt_Some in Hc. lia.
    + apply lookup_lt_Some in Hr'. lia.
    + apply list_lookup_singleton_Some in Hc as [_ <-]. done.
  - intros i c [Hc|[_ Hc]]%lookup_app_Some; [by apply (mi_tidy _ _ Hi i)|]. by apply list_lookup_singleton_Some in Hc as [_ <-].
  - apply (mi_keyed _ _ Hi).
  - intros i op' now s r [Hc|[_ Hc]]%lookup_app_Some; [by apply (mi_saving _ _ Hi i)|]. by apply list_lookup_singleton_Some in Hc as [_ ?].
  - apply (mi_log _ _ Hi).
  - intros e He. apply lookup_app_l_Some, (mi_entries _ _ Hi e He).
  - intros i op' r [Hc|[_ Hc]]%lookup_app_Some; [by apply (mi_settled _ _ Hi i op' r)|]. by apply list_lookup_singleton_Some in Hc as [_ ?].
  - apply (mi_order _ _ Hi).
Qed.

Lemma release_running i q r : kq_runs q !! i = Some r -> qr_phase r = Running -> release i q = atPhase Released i q.
Proof. intros Hr Hp. unfold release, phaseOf. rewrite Hr. cbn. by rewrite Hp. Qed.

(** The run of a call whose operation runs. *)
Lemma running_run b st i op ph : minv b st -> mb_calls st !! i = Some {| mc_op := op; mc_phase := ph |} -> phasesAgree ph Running ->
  exists r, kq_runs (mb_queue st) !! i = Some r /\ qr_key r = sessionKey (sessionOf op) /\ qr_phase r = Running.
Proof.
  intros Hi Hc Hph. destruct (agree_run _ _ _ (mi_agree _ _ Hi) Hc) as (r & H1 & H2 & H3). exists r. cbn in H2, H3. split_and!; [done..|]. by destruct ph; cbn in *.
Qed.

Lemma minv_fails b st i op ph : minv b st -> mb_calls st !! i = Some {| mc_op := op; mc_phase := ph |} -> phasesAgree ph Running -> minv b (callFails i st).
Proof.
  intros Hi Hc Hph. destruct (running_run _ _ _ _ _ Hi Hc Hph) as (r & H1 & H2 & H3). unfold callFails. eapply minv_quiet; [done|done|by destruct ph|done|..|done].
  - apply qinv_release, (mi_queue _ _ Hi).
  - rewrite (release_running _ _ _ H1 H3). by apply atPhase_moves.
Qed.

Lemma minv_start b st i : minv b st -> minv b (mailStep st (EStart i)).
Proof.
  intros Hi. cbn [mailStep]. destruct (canStart (mb_queue st) i) eqn:Hs; [|done]. assert (Hs' := Hs). unfold canStart in Hs.
  destruct (kq_runs (mb_queue st) !! i) as [r|] eqn:Hr; [|done]. destruct (qr_phase r) eqn:Hp; [|done..].
  destruct (mi_agree _ _ Hi) as [Hl Ha]. assert (exists c, mb_calls st !! i = Some c) as [c Hc].
  { apply lookup_lt_is_Some. rewrite Hl. by eapply lookup_lt_Some. }
  destruct (Ha i c r Hc Hr) as [_ Hph]. rewrite Hp in Hph. eapply minv_quiet; [done|done| |done|..|done].
  - intros r' Hc'. by rewrite Hc' in Hph.
  - apply qinv_start, (mi_queue _ _ Hi).
  - unfold start. rewrite Hs'. by apply atPhase_moves.
Qed.

Lemma minv_loaded b st i now : minv b st -> minv b (mailStep st (ELoaded i now)).
Proof.
  intros Hi. cbn [mailStep]. destruct (mb_calls st !! i) as [[op ph]|] eqn:Hc; [|done]. destruct ph; try done.
  destruct (mutateOp op now (loadSession (sessionOf op) (mb_store st))) as [s r] eqn:Hm.
  destruct (running_run _ _ _ _ _ Hi Hc eq_refl) as (r0 & H1 & H2 & H3).
  eapply minv_quiet; [done|done|done|done|apply (mi_queue _ _ Hi)| |].
  - split; [done|]. intros j r' Hr. exists r'. split_and!; [done..|]. destruct (decide (i = j)) as [<-|]; [|done]. cbn. congruence.
  - by intros ? ? ? [= <- <- <-].
Qed.

(** Two operations of one session never run at the same time. *)
Lemma running_alone b st i j op op' ph ph' : minv b st -> mb_calls st !! i = Some {| mc_op := op; mc_phase := ph |} -> mb_calls st !! j = Some {| mc_op := op'; mc_phase := ph' |} ->
  phasesAgree ph Running -> phasesAgree ph' Running -> sessionOf op = sessionOf op' -> i = j.
Proof.
  intros Hi Hc Hc' Hph Hph' Hs. destruct (running_run _ _ _ _ _ Hi Hc Hph) as (r & H1 & H2 & H3), (running_run _ _ _ _ _ Hi Hc' Hph') as (r' & H1' & H2' & H3').
  destruct (Nat.lt_trichotomy i j) as [Hlt|[->|Hgt]]; [exfalso|done|exfalso].
  - pose proof (qi_order _ (mi_queue _ _ Hi) j r' H1') as Ho. rewrite H3' in Ho. specialize (Ho ltac:(done) i r Hlt H1). rewrite H3 in Ho. discriminate Ho. congruence.
  - pose proof (qi_order _ (mi_queue _ _ Hi) i r H1) as Ho. rewrite H3 in Ho. specialize (Ho ltac:(done) j r' Hgt H1'). rewrite H3' in Ho. discriminate Ho. congruence.
Qed.

(** The calls of a session that have saved came before the one that is running. *)
Lemma saved_before b st i op now s r e : minv b st -> mb_calls st !! i = Some {| mc_op := op; mc_phase := MSaving now s r |} -> e ∈ mb_log st ->
  sessionOf (me_op e) = sessionOf op -> me_call e < i.
Proof.
  intros Hi Hc He Hs. pose proof (mi_entries _ _ Hi e He) as Hl. destruct (running_run _ _ _ _ _ Hi Hc eq_refl) as (ri & R1 & R2 & R3).
  destruct (agree_run _ _ _ (mi_agree _ _ Hi) Hl) as (re & E1 & E2 & E3). cbn in E2, E3.
  destruct (Nat.lt_trichotomy (me_call e) i) as [Hlt|[Heq|Hgt]]; [done|congruence|exfalso].
  assert (Hne : qr_phase re <> Queued) by (intros E; by rewrite E in E3).
  pose proof (qi_order _ (mi_queue _ _ Hi) (me_call e) re E1 Hne i ri Hgt R1) as Ho. rewrite R3 in Ho. discriminate Ho. congruence.
Qed.

Lemma minv_saved b st i : minv b st -> minv b (mailStep st (ESaved i)).
Proof.
  intros Hi. cbn [mailStep]. destruct (mb_calls st !! i) as [[op ph]|] eqn:Hc; [|done]. destruct ph as [| |now s r| |]; try done.
  destruct (running_run _ _ _ _ _ Hi Hc eq_refl) as (r0 & R1 & R2 & R3). pose proof (mi_tidy _ _ Hi i _ Hc) as Ht. cbn in Ht.
  pose proof (mi_saving _ _ Hi i op now s r Hc) as Hm.
  assert (Hp : se_parentSessionId s = sessionOf op).
  { pose proof (mutateOp_parent op now (loadSession (sessionOf op) (mb_store st))) as Hp. rewrite Hm in Hp. cbn in Hp. rewrite Hp. by apply (mi_keyed _ _ Hi). }
  split; cbn [mb_store mb_queue mb_calls mb_log].
  - apply qinv_release, (mi_queue _ _ Hi).
  - apply agree_moves; [apply (mi_agree _ _ Hi)|]. rewrite (release_running _ _ _ R1 R3). by apply atPhase_moves.
  - intros j c'. rewrite setCall_lookup. destruct (decide (i = j)) as [<-|Hne]; [|by apply (mi_tidy _ _ Hi)]. rewrite Hc. cbn. by intros [= <-].
  - apply (save_keyed (sessionOf op)); [apply (mi_keyed _ _ Hi)|done|done].
  - intros j op' now' s' r'. rewrite setCall_lookup. destruct (decide (i = j)) as [<-|Hne]; [by rewrite Hc|]. intros Hj.
    rewrite (load_other (sessionOf op)); [by apply (mi_saving _ _ Hi j)|done|]. intros He. apply Hne. by apply (running_alone _ _ _ _ _ _ _ _ Hi Hc Hj).
  - rewrite !map_app. change (map entryCall [_]) with [(op, now)]. rewrite oneByOne_snoc, (mi_log _ _ Hi). cbn. unfold mutateSession. by rewrite Hm.
  - intros e [He|He]%elem_of_app; rewrite setCall_lookup.
    + pose proof (mi_entries _ _ Hi e He) as Hl. destruct (decide (i = me_call e)) as [->|]; [congruence|done].
    + apply list_elem_of_singleton in He as ->. cbn. rewrite decide_True by done. by rewrite Hc.
  - intros j op' r'. rewrite setCall_lookup. destruct (decide (i = j)) as [<-|Hne].
    + intros _. eexists. split; [apply elem_of_app; right; by apply list_elem_of_singleton|done].
    + intros Hj. destruct (mi_settled _ _ Hi j op' r' Hj) as (e & He & Hcall). exists e. split; [apply elem_of_app; by left|done].
  - intros j k e f Hjk He Hf Hs. apply lookup_app_Some in Hf as [Hf|[Hk Hf]].
    + rewrite lookup_app_l in He by (apply lookup_lt_Some in Hf; lia). by apply (mi_order _ _ Hi j k).
    + apply list_lookup_singleton_Some in Hf as [Hk0 <-]. rewrite lookup_app_l in He by lia. cbn [me_call me_op] in *.
      eapply saved_before; [done|done|by eapply list_elem_of_lookup_2|done].
Qed.

Lemma minv_return b st i : minv b st -> minv b (mailStep st (EReturn i)).
Proof.
  intros Hi. cbn [mailStep]. destruct Hi as [Q A T K S L E D O]. split; try done; cbn [mb_queue]; [by apply qinv_returned|]. destruct A as [Hl Ha].
  assert (Hr : length (kq_runs (returned i (mb_queue st))) = length (kq_runs (mb_queue st)) /\ forall j r', kq_runs (returned i (mb_queue st)) !! j = Some r' ->
      exists r, kq_runs (mb_queue st) !! j = Some r /\ qr_key r' = qr_key r /\ (qr_phase r' = qr_phase r \/ (qr_phase r = Released /\ qr_phase r' = Returned))).
  { unfold returned. destruct (kq_runs (mb_queue st) !! i) as [r|] eqn:Hr; [|by split; [|intros j r' Hr'; exists r'; auto]].
    destruct (qr_phase r) eqn:Hp; try (split; [done|intros j r' Hr'; exists r'; by auto]).
    assert (Hq : forall j r', kq_runs (atPhase Returned i (mb_queue st)) !! j = Some r' -> exists r, kq_runs (mb_queue st) !! j = Some r /\ qr_key r' = qr_key r /\
      (qr_phase r' = qr_phase r \/ (qr_phase r = Released /\ qr_phase r' = Returned))).
    { intros j r'. rewrite atPhase_lookup. destruct (decide (i = j)) as [<-|Hne]; [|intros Hr'; exists r'; by auto]. rewrite Hr. cbn. intros [= <-]. exists r. by auto. }
    cbn zeta. destruct (decide _); (split; [cbn; by rewrite length_alter|done]). }
  destruct Hr as [Hl' Hr]. split; cbn [mb_calls mb_queue]; [congruence|]. intros j c r' Hc Hr'. destruct (Hr j r' Hr') as (r & H1 & H2 & H3).
  destruct (Ha j c r Hc H1) as [A1 A2]. split; [congruence|]. destruct H3 as [->|[H3 ->]]; [done|]. rewrite H3 in A2. by destruct (mc_phase c).
Qed.

Lemma minv_crash b st : minv b st -> minv b (mailStep st ECrash).
Proof.
  intros Hi. cbn [mailStep]. destruct Hi as [Q A T K S L E D O].
  assert (Hlost : forall j c', map loseCall (mb_calls st) !! j = Some c' -> exists c, mb_calls st !! j = Some c /\ c' = loseCall c /\ mc_op c' = mc_op c).
  { intros j c'. change (map loseCall (mb_calls st)) with (loseCall <$> mb_calls st). rewrite list_lookup_fmap. destruct (mb_calls st !! j) as [c|]; [|done]. cbn. intros [= <-].
    exists c. split_and!; [done..|]. unfold loseCall. by destruct (mc_phase c). }
  assert (Hpast : forall j r', map (with_phase Returned) (kq_runs (mb_queue st)) !! j = Some r' -> exists r, kq_runs (mb_queue st) !! j = Some r /\ r' = with_phase Returned r).
  { intros j r'. change (map ?f (kq_runs (mb_queue st))) with (f <$> kq_runs (mb_queue st)). rewrite list_lookup_fmap. destruct (kq_runs (mb_queue st) !! j) as [r|]; [|done].
    cbn. intros [= <-]. by exists r. }
  split; cbn [mb_store mb_queue mb_calls mb_log]; try done.
  - split; cbn [forgetQueue kq_runs kq_chains].
    + intros j r Hr _ i ri _ Hri _. destruct (Hpast i ri Hri) as (? & _ & ->). done.
    + intros j r Hr Hp. destruct (Hpast j r Hr) as (? & _ & ->). done.
    + intros key i ri _ Hri _. destruct (Hpast i ri Hri) as (? & _ & ->). done.
    + done.
  - destruct A as [Hl Ha]. split; [cbn; by rewrite !length_map|]. cbn [mb_calls mb_queue forgetQueue kq_runs]. intros j c' r' Hc Hr.
    destruct (Hlost j c' Hc) as (c & C1 & C2 & C3), (Hpast j r' Hr) as (r & R1 & ->). rewrite C3. destruct (Ha j c r C1 R1) as [A1 A2]. split; [done|]. subst c'. unfold loseCall. by destruct (mc_phase c) eqn:Hph; cbn; rewrite ?Hph.
  - intros j c' Hc. destruct (Hlost j c' Hc) as (c & C1 & _ & ->). by apply (T j).
  - intros j op now s r Hc. destruct (Hlost j _ Hc) as (c & C1 & C2 & _). exfalso. unfold loseCall in C2. destruct (mc_phase c) eqn:Hph; try done. destruct c. cbn in *. congruence.
  - intros e He. change (map loseCall (mb_calls st)) with (loseCall <$> mb_calls st). rewrite list_lookup_fmap, (E e He). done.
  - intros j op r Hc. destruct (Hlost j _ Hc) as (c & C1 & C2 & C3). apply (D j op r). rewrite C1. f_equal. unfold loseCall in C2. destruct c as [op' ph]. cbn in *. by destruct ph.
Qed.

Lemma minv_step b st ev : minv b st -> (forall op, ev = ECall op -> tidy (sessionOf op)) -> minv b (mailStep st ev).
Proof.
  intros Hi Ht. destruct ev as [op|i|i now|i|i|i|i|].
  - by apply minv_call; [|apply Ht].
  - by apply minv_start.
  - by apply minv_loaded.
  - cbn [mailStep]. destruct (mb_calls st !! i) as [[op []]|] eqn:Hc; try done. by eapply minv_fails.
  - by apply minv_saved.
  - cbn [mailStep]. destruct (mb_calls st !! i) as [[op []]|] eqn:Hc; try done. by eapply minv_fails.
  - by apply minv_return.
  - by apply minv_crash.
Qed.

Lemma minv_new b : wellKeyed b -> minv b (newMailbox b).
Proof.
  intros Hb. split; cbn [newMailbox mb_store mb_queue mb_calls mb_log]; [apply qinv_new|..]; try done.
  intros e He. by apply not_elem_of_nil in He.
Qed.

Lemma minv_steps b evs : forall st, minv b st -> (forall op, ECall op ∈ evs -> tidy (sessionOf op)) -> minv b (foldl mailStep st evs).
Proof.
  induction evs as [|ev evs IH]; [done|]. intros st Hi Ht. cbn. apply IH.
  - apply minv_step; [done|]. intros op ->. apply Ht. by left.
  - intros op Hop. apply Ht. by right.
Qed.
End machine.

(** ** What a change does to the messages *)

Lemma sall_impl (p q : Ascii.ascii -> bool) s : (forall c, p c = true -> q c = true) -> sall p s = true -> sall q s = true.
Proof. intros Hpq. induction s as [|c s IH]; [done|]. cbn. intros [H1 H2]%andb_true_iff. by rewrite (Hpq c H1), (IH H2). Qed.

Lemma number_no_space c : numberChar c = true -> negb (is_space c) = true.
Proof. pose proof (forall_ascii (fun c => implb (numberChar c) (negb (is_space c))) ltac:(by vm_compute) c) as Hc. cbn in Hc. intros E. by rewrite E in Hc. Qed.

Lemma messageId_tidy n : tidy (messageId n).
Proof.
  split; [done|]. unfold trim. rewrite trimStart_first by done. apply trimEnd_nospace. destruct (pretty_Z_chars n) as [Hc _].
  unfold messageId. change (sall (fun c => negb (is_space c)) (pretty n) = true). by apply (sall_impl _ _ _ number_no_space).
Qed.

Lemma messageId_inj n k : messageId n = messageId k -> n = k.
Proof. intros He. apply (inj (String.append "mail-")) in He. by apply (inj pretty). Qed.

(** The id of the message that a change resolves to. *)
Definition resultId (r : MailResult) : option string := match r with RMessage (Some m) => Some (mm_messageId m) | _ => None end.

(** The status of the message [id] of session [p] after another entry of the log. *)
Definition track (p id : string) (direction : RuntimeMailboxDirection) (cur : option RuntimeMailboxStatus) (e : MailEntry) : option RuntimeMailboxStatus :=
  if decide (sessionOf (me_op e) = p) then
    match me_op e, cur with
    | (OSendToWorker _ | OSendToParent _), None => if decide (resultId (me_result e) = Some id) then Some mail_pending else None
    | OAcknowledge _ id', Some mail_pending => if decide (id' = id) then Some mail_acknowledged else cur
    | OHandled _ id', Some _ => if decide (id' = id) then Some mail_handled else cur
    | OClaim _ _ _, Some mail_pending => if decide (resultId (me_result e) = Some id) then Some mail_acknowledged else cur
    | ORepair _, Some mail_acknowledged => if decide (direction = parent_to_worker) then Some mail_pending else cur
    | _, _ => cur
    end
  else cur.

Definition isRepair (op : MailOp) : bool := match op with ORepair _ => true | _ => false end.

Definition isSend (op : MailOp) : bool := match op with OSendToWorker _ | OSendToParent _ => true | _ => false end.

(** What a message keeps for ever. *)
Definition sentForm (m : RuntimeMailboxMessage) : string * RuntimeMailboxDirection * MailDraft * Z := (mm_messageId m, mm_direction m, draftOf m, mm_createdAt m).

Section changes.
Context `{Collation}.

(** A change that is no send moves the statuses as the tracker says. *)
Definition movesStatuses (op : MailOp) (now : Z) (s : MailboxSession) : Prop :=
  let '(s', r) := mutateOp op now s in
  se_nextMessageNumber s' = se_nextMessageNumber s /\
  Forall2 (fun m m' => sentForm m' = sentForm m /\
    track (sessionOf op) (mm_messageId m) (mm_direction m) (Some (mm_status m)) {| me_call := 0; me_op := op; me_now := now; me_result := r |} = Some (mm_status m'))
    (se_messages s) (se_messages s').

Lemma restatus_moves st i status now s m (P : RuntimeMailboxMessage -> RuntimeMailboxStatus -> Prop) : se_messages s !! i = Some m -> st = restatus i status now s ->
  P m status -> (forall j m', j <> i -> se_messages s !! j = Some m' -> P m' (mm_status m')) ->
  se_nextMessageNumber st = se_nextMessageNumber s /\ Forall2 (fun m m' => sentForm m' = sentForm m /\ P m (mm_status m')) (se_messages s) (se_messages st).
Proof.
  intros Hm -> Hp Ho. split; [done|]. cbn [restatus with_messages se_messages]. apply Forall2_same_length_lookup_2; [by rewrite length_alter|].
  intros j x y Hx Hy. destruct (decide (j = i)) as [->|Hne].
  - rewrite list_lookup_alter_eq, Hx in Hy. cbn in Hy. injection Hy as <-. rewrite Hm in Hx. injection Hx as <-. done.
  - rewrite list_lookup_alter_ne, Hx in Hy by congruence. injection Hy as <-. split; [done|]. by apply (Ho j).
Qed.

Lemma unmoved (P : RuntimeMailboxMessage -> RuntimeMailboxStatus -> Prop) (l : list RuntimeMailboxMessage) : (forall m, m ∈ l -> P m (mm_status m)) ->
  Forall2 (fun m m' => sentForm m' = sentForm m /\ P m (mm_status m')) l l.
Proof. intros Hl. apply Forall_Forall2_diag, Forall_forall. intros m Hm. by split; [|apply Hl]. Qed.

Lemma other_id l i j m m' : NoDup (map mm_messageId l) -> l !! i = Some m -> l !! j = Some m' -> j <> i -> mm_messageId m' <> mm_messageId m.
Proof.
  intros Hn Hi Hj Hne He. apply Hne. eapply NoDup_lookup; [exact Hn| |]; change (map mm_messageId l) with (mm_messageId <$> l); rewrite list_lookup_fmap; [by rewrite Hj|rewrite Hi; cbn; by f_equal].
Qed.

Lemma not_found id l m : findMessage id l = None -> m ∈ l -> mm_messageId m <> id.
Proof. intros Hf Hm He. apply list_find_None in Hf. rewrite Forall_forall in Hf. by apply (Hf m). Qed.

Lemma track_here p id dir cur e : sessionOf (me_op e) = p -> track p id dir cur e =
    match me_op e, cur with
    | (OSendToWorker _ | OSendToParent _), None => if decide (resultId (me_result e) = Some id) then Some mail_pending else None
    | OAcknowledge _ id', Some mail_pending => if decide (id' = id) then Some mail_acknowledged else cur
    | OHandled _ id', Some _ => if decide (id' = id) then Some mail_handled else cur
    | OClaim _ _ _, Some mail_pending => if decide (resultId (me_result e) = Some id) then Some mail_acknowledged else cur
    | ORepair _, Some mail_acknowledged => if decide (dir = parent_to_worker) then Some mail_pending else cur
    | _, _ => cur
    end.
Proof. intros Hs. unfold track. by rewrite decide_True. Qed.

Lemma placed_lookup l i m : (i, m) ∈ placed l <-> l !! i = Some m.
Proof.
  unfold placed. rewrite list_elem_of_lookup. split.
  - intros (j & Hj). rewrite list_lookup_imap in Hj. destruct (l !! j) as [x|] eqn:Hx; [|done]. cbn in Hj. congruence.
  - intros Hi. exists i. rewrite list_lookup_imap, Hi. done.
Qed.

(** The claimed message: claimable, at its place. *)
Lemma claim_Some w ty s i m rest :
  sort_by (fun a b => compareMessages a.2 b.2) (List.filter (fun im => claimable w ty im.2) (placed (se_messages s))) = (i, m) :: rest ->
  se_messages s !! i = Some m /\ claimable w ty m = true.
Proof.
  intros Hs. assert (Hin : (i, m) ∈ sort_by (fun a b => compareMessages a.2 b.2) (List.filter (fun im => claimable w ty im.2) (placed (se_messages s)))) by (rewrite Hs; by left).
  apply sort_by_elem_of, elem_filter_bool in Hin as [H1 H2]. split; [by apply placed_lookup|done].
Qed.

Lemma claim_None w ty s m : sort_by (fun a b => compareMessages a.2 b.2) (List.filter (fun im => claimable w ty im.2) (placed (se_messages s))) = [] ->
  m ∈ se_messages s -> claimable w ty m = false.
Proof.
  intros Hs (i & Hi)%list_elem_of_lookup. destruct (claimable w ty m) eqn:Hc; [exfalso|done].
  assert (Hin : (i, m) ∈ sort_by (fun a b => compareMessages a.2 b.2) (List.filter (fun im => claimable w ty im.2) (placed (se_messages s)))).
  { apply sort_by_elem_of, elem_filter_bool. split; [by apply placed_lookup|done]. }
  rewrite Hs in Hin. by apply not_elem_of_nil in Hin.
Qed.

Lemma claimable_spec w ty m : claimable w ty m = true <-> mm_workerId m = w /\ mm_direction m = parent_to_worker /\ mm_status m = mail_pending /\
  match ty with Some l => has l (bodyType (mm_body m)) = true | None => True end.
Proof.
  unfold claimable. rewrite !andb_true_iff, String.eqb_eq, !bool_decide_eq_true. destruct ty; naive_solver.
Qed.

Lemma op_moves op now s : isSend op = false -> NoDup (map mm_messageId (se_messages s)) -> movesStatuses op now s.
Proof.
  intros Hs Hn. unfold movesStatuses. destruct op as [d|d|p id|p id|p w ty|p]; [done|done|..]; cbn [mutateOp sessionOf].
  - unfold acknowledgeMessage. destruct (findMessage id (se_messages s)) as [[i m]|] eqn:Hf.
    + destruct (findMessage_Some _ _ _ _ Hf) as [Hi <-].
      assert (Hothers : forall r j m', j <> i -> se_messages s !! j = Some m' ->
          track p (mm_messageId m') (mm_direction m') (Some (mm_status m')) {| me_call := 0; me_op := OAcknowledge p (mm_messageId m); me_now := now; me_result := r |} = Some (mm_status m')).
      { intros r j m' Hne Hj. rewrite track_here by done. cbn. rewrite decide_False by exact (not_eq_sym (other_id _ _ _ _ _ Hn Hi Hj Hne)). by destruct (mm_status m'). }
      destruct (mm_status m) eqn:Hst; [eapply (restatus_moves _ i _ _ _ _ (fun m st => track _ _ _ _ _ = Some st)); [done|done|..|apply Hothers]|..].
      { rewrite track_here, Hst by done. cbn. by rewrite decide_True. }
      all: split; [done|]; apply (unmoved (fun m st => track _ _ _ _ _ = Some st)); intros m' (j & Hj)%list_elem_of_lookup; destruct (decide (j = i)) as [->|Hne]; [|by apply (Hothers _ j)].
      all: rewrite Hi in Hj; injection Hj as <-; rewrite track_here by done; cbn; by rewrite Hst.
    + split; [done|]. apply (unmoved (fun m st => track _ _ _ _ _ = Some st)). intros m Hm. rewrite track_here by done. cbn.
      rewrite decide_False by exact (not_eq_sym (not_found _ _ _ Hf Hm)). by destruct (mm_status m).
  - unfold markHandled. destruct (findMessage id (se_messages s)) as [[i m]|] eqn:Hf.
    + destruct (findMessage_Some _ _ _ _ Hf) as [Hi <-].
      assert (Hothers : forall r j m', j <> i -> se_messages s !! j = Some m' ->
          track p (mm_messageId m') (mm_direction m') (Some (mm_status m')) {| me_call := 0; me_op := OHandled p (mm_messageId m); me_now := now; me_result := r |} = Some (mm_status m')).
      { intros r j m' Hne Hj. rewrite track_here by done. cbn. by rewrite decide_False by exact (not_eq_sym (other_id _ _ _ _ _ Hn Hi Hj Hne)). }
      assert (Hthis : forall r, track p (mm_messageId m) (mm_direction m) (Some (mm_status m)) {| me_call := 0; me_op := OHandled p (mm_messageId m); me_now := now; me_result := r |} = Some mail_handled)
        by (intros r; rewrite track_here by done; cbn; by rewrite decide_True).
      destruct (mm_status m) eqn:Hst.
      3: { split; [done|]. apply (unmoved (fun m st => track _ _ _ _ _ = Some st)). intros m' (j & Hj)%list_elem_of_lookup. destruct (decide (j = i)) as [->|Hne]; [|by apply (Hothers _ j)].
           rewrite Hi in Hj. injection Hj as <-. rewrite Hst. apply Hthis. }
      all: eapply (restatus_moves _ i _ _ _ _ (fun m st => track _ _ _ _ _ = Some st)); [done|done|rewrite Hst; apply Hthis|apply Hothers].
    + split; [done|]. apply (unmoved (fun m st => track _ _ _ _ _ = Some st)). intros m Hm. rewrite track_here by done. cbn.
      by rewrite decide_False by exact (not_eq_sym (not_found _ _ _ Hf Hm)).
  - unfold claimNextWorkerMessage. destruct (sort_by _ _) as [|[i m] rest] eqn:Hso.
    + split; [done|]. apply (unmoved (fun m st => track _ _ _ _ _ = Some st)). intros m Hm. rewrite track_here by done. cbn. rewrite decide_False by done. by destruct (mm_status m).
    + destruct (claim_Some _ _ _ _ _ _ Hso) as [Hi Hcl]. apply claimable_spec in Hcl as (_ & _ & Hst & _).
      eapply (restatus_moves _ i _ _ _ _ (fun m st => track _ _ _ _ _ = Some st)); [done|done|..].
      * rewrite track_here, Hst by done. cbn. by rewrite decide_True by done.
      * intros j m' Hne Hj. rewrite track_here by done. cbn. rewrite decide_False; [by destruct (mm_status m')|]. intros [= He]. by apply (other_id _ _ _ _ _ Hn Hi Hj Hne).
  - split; [done|]. cbn [repairSession with_messages se_messages]. apply Forall2_same_length_lookup_2; [by rewrite length_map|].
    intros j x y Hx Hy. change (map ?f (se_messages s)) with (f <$> se_messages s) in Hy. rewrite list_lookup_fmap, Hx in Hy. cbn in Hy. injection Hy as <-.
    rewrite track_here by done. cbn. unfold unhandled. destruct (decide (mm_direction x = parent_to_worker)) as [Hd|Hd]; [rewrite (bool_decide_eq_true_2 _ Hd)|rewrite (bool_decide_eq_false_2 _ Hd)]; cbn.
    + destruct (mm_status x) eqn:Hst; cbn; case_bool_decide; try done; (split; [done|by rewrite ?Hst]).
    + by destruct (mm_status x) eqn:Hst.
Qed.
End changes.

(** ** The log of a mailbox *)

(** What an entry sends in session [p]. *)
Definition sendOf (p : string) (e : MailEntry) : option (RuntimeMailboxDirection * MailDraft * Z) :=
  if decide (sessionOf (me_op e) = p) then
    match me_op e with OSendToWorker d => Some (parent_to_worker, d, me_now e) | OSendToParent d => Some (worker_to_parent, d, me_now e) | _ => None end
  else None.

Definition sends (p : string) (log : list MailEntry) : list (RuntimeMailboxDirection * MailDraft * Z) := omap (sendOf p) log.

(** The [n]th message sent in a session. *)
Definition sentAs (n : nat) (x : RuntimeMailboxDirection * MailDraft * Z) : string * RuntimeMailboxDirection * MailDraft * Z :=
  (messageId (Z.of_nat (S n)), x.1.1, x.1.2, x.2).

Definition tidyOp (op : MailOp) : Prop :=
  match op with OSendToWorker d => tidyDraft parent_to_worker d | OSendToParent d => tidyDraft worker_to_parent d | _ => tidy (sessionOf op) end.

Lemma tidyOp_session op : tidyOp op -> tidy (sessionOf op).
Proof. destruct op as [d|d|?|?|?|?]; cbn; try done; by intros []. Qed.

Definition statusBy (p id : string) (direction : RuntimeMailboxDirection) (log : list MailEntry) : option RuntimeMailboxStatus := foldl (track p id direction) None log.

(** Session [p] is what the log says. *)
Record dinv (log : list MailEntry) (b : Store) (p : string) : Prop := {
  di_session : tidySession p (loadSession p b);
  di_next : se_nextMessageNumber (loadSession p b) = Z.of_nat (S (length (se_messages (loadSession p b))));
  di_sent : map sentForm (se_messages (loadSession p b)) = imap sentAs (sends p log);
  di_status : forall m, m ∈ se_messages (loadSession p b) -> statusBy p (mm_messageId m) (mm_direction m) log = Some (mm_status m);
  di_none : forall id dir, (forall m, m ∈ se_messages (loadSession p b) -> mm_messageId m <> id) -> statusBy p id dir log = None;
}.

Lemma statusBy_snoc p id dir log e : statusBy p id dir (log ++ [e]) = track p id dir (statusBy p id dir log) e.
Proof. unfold statusBy. by rewrite foldl_app. Qed.

Lemma sends_snoc p log e : sends p (log ++ [e]) = (sends p log ++ match sendOf p e with Some x => [x] | None => [] end)%list.
Proof. unfold sends. rewrite omap_app. cbn. by destruct (sendOf p e). Qed.

Lemma length_sends p log b : dinv log b p -> length (sends p log) = length (se_messages (loadSession p b)).
Proof. intros Hd. pose proof (f_equal length (di_sent _ _ _ Hd)) as Hl. by rewrite length_map, length_imap in Hl. Qed.

Lemma sent_fields m id dir d t : sentForm m = (id, dir, d, t) -> mm_messageId m = id /\ mm_direction m = dir /\ draftOf m = d.
Proof. unfold sentForm. generalize (draftOf m). intros d' Hs. injection Hs as -> -> -> _. done. Qed.

Lemma message_sent p log b i m : dinv log b p -> se_messages (loadSession p b) !! i = Some m -> exists x, sends p log !! i = Some x /\ sentForm m = sentAs i x.
Proof.
  intros Hd Hi. pose proof (f_equal (lookup i) (di_sent _ _ _ Hd)) as Hs. change (map sentForm ?l) with (sentForm <$> l) in Hs.
  rewrite list_lookup_fmap, Hi, list_lookup_imap in Hs. destruct (sends p log !! i) as [x|]; [|done]. exists x. cbn in Hs. split; [done|congruence].
Qed.

Lemma ids_NoDup p log b : dinv log b p -> NoDup (map mm_messageId (se_messages (loadSession p b))).
Proof.
  intros Hd. apply NoDup_alt. intros i j id. change (map mm_messageId ?l) with (mm_messageId <$> l). rewrite !list_lookup_fmap.
  destruct (_ !! i) as [m|] eqn:Hi; [|done]. cbn. intros [= <-]. destruct (_ !! j) as [m'|] eqn:Hj; [|done]. cbn. intros [= He].
  destruct (message_sent _ _ _ _ _ Hd Hi) as (x & _ & Hx), (message_sent _ _ _ _ _ Hd Hj) as (y & _ & Hy). apply sent_fields in Hx as (Hx & _ & _), Hy as (Hy & _ & _).
  rewrite Hx, Hy in He. apply messageId_inj in He. lia.
Qed.

Lemma tidy_sent m m' : sentForm m' = sentForm m -> tidyMessage m -> tidyMessage m'.
Proof. intros (H1 & H2 & H3)%sent_fields. unfold tidyMessage. by rewrite H1, H2, H3. Qed.

Section steps.
Context `{Collation}.

Lemma send_next direction d now s : se_nextMessageNumber s = Z.of_nat (S (length (se_messages s))) ->
  exists m, sendMessage direction d now s = ({| se_parentSessionId := se_parentSessionId s; se_nextMessageNumber := se_nextMessageNumber s + 1; se_messages := se_messages s ++ [m] |}, RMessage (Some m)) /\
    sentForm m = sentAs (length (se_messages s)) (direction, d, now) /\ mm_status m = mail_pending.
Proof. intros Hn. eexists. split; [reflexivity|]. split; [|done]. unfold sentForm, sentAs. cbn. rewrite Hn. by destruct d. Qed.

Lemma fresh_id p log b m : dinv log b p -> m ∈ se_messages (loadSession p b) -> mm_messageId m <> messageId (Z.of_nat (S (length (se_messages (loadSession p b))))).
Proof.
  intros Hd (i & Hi)%list_elem_of_lookup He. destruct (message_sent _ _ _ _ _ Hd Hi) as (x & _ & (Hx & _ & _)%sent_fields). rewrite Hx in He. apply messageId_inj in He.
  apply lookup_lt_Some in Hi. lia.
Qed.

(** A send in the session. *)
Lemma dinv_send log b op direction d now e : dinv log b (sessionOf op) -> mutateOp op now = sendMessage direction d now -> tidyDraft direction d -> isSend op = true ->
  me_op e = op -> me_result e = (mutateSession b op now).2 -> sendOf (sessionOf op) e = Some (direction, d, now) ->
  dinv (log ++ [e]) (mutateSession b op now).1 (sessionOf op).
Proof.
  intros Hd Hop Htd Hsend He Hr Hso. set (p := sessionOf op) in *. destruct (send_next direction d now (loadSession p b) (di_next _ _ _ Hd)) as (m & Hm & Hform & Hst).
  unfold mutateSession in *. fold p in Hr |- *. rewrite Hop, Hm in *. cbn [fst snd] in *. set (s' := {| se_parentSessionId := _ |}).
  destruct (sent_fields _ _ _ _ _ Hform) as (Hid & Hdir & Hdr). destruct (di_session _ _ _ Hd) as [S1 S2 S3 S4].
  assert (Hts : tidySession p s').
  { split; cbn; [done|done|lia|]. apply Forall_app. split; [done|]. apply Forall_singleton. split; [rewrite Hid; apply messageId_tidy|]. by rewrite Hdir, Hdr. }
  assert (Htrack : forall id dir cur, track p id dir cur e = match cur with None => if decide (Some (mm_messageId m) = Some id) then Some mail_pending else None | Some _ => cur end).
  { intros id dir cur. rewrite track_here by (by rewrite He). rewrite He, Hr. destruct op; try done; by destruct cur. }
  split; rewrite (load_save p s' b Hts).
  - done.
  - cbn. rewrite length_app, (di_next _ _ _ Hd). cbn. lia.
  - cbn. rewrite map_app, (di_sent _ _ _ Hd), sends_snoc, Hso, imap_app. cbn. by rewrite Nat.add_0_r, (length_sends _ _ _ Hd), Hform.
  - cbn. intros m' [Hm'|Hm']%elem_of_app; rewrite statusBy_snoc, Htrack.
    + by rewrite (di_status _ _ _ Hd m' Hm').
    + apply list_elem_of_singleton in Hm' as ->. rewrite (di_none _ _ _ Hd); [by rewrite decide_True, Hst|]. intros m' Hm'. rewrite Hid. by eapply fresh_id.
  - cbn. intros id dir Hno. rewrite statusBy_snoc, Htrack, (di_none _ _ _ Hd); [rewrite decide_False; [done|]|].
    + intros [= Hx]. apply (Hno m); [apply elem_of_app; right; by apply list_elem_of_singleton|done].
    + intros m' Hm'. apply Hno, elem_of_app. by left.
Qed.

(** Another change of the session. *)
Lemma dinv_other log b op now e : dinv log b (sessionOf op) -> isSend op = false -> me_op e = op -> me_result e = (mutateSession b op now).2 ->
  dinv (log ++ [e]) (mutateSession b op now).1 (sessionOf op).
Proof.
  intros Hd Hs He Hr. set (p := sessionOf op) in *. pose proof (op_moves op now (loadSession p b) Hs (ids_NoDup _ _ _ Hd)) as Hm. pose proof (mutateOp_parent op now (loadSession p b)) as Hp.
  unfold movesStatuses in Hm. unfold mutateSession in *. fold p in Hr, Hm |- *. destruct (mutateOp op now (loadSession p b)) as [s' r] eqn:Hop. cbn [fst snd] in *.
  destruct Hm as [Hnext Hm]. destruct (di_session _ _ _ Hd) as [S1 S2 S3 S4].
  assert (Hforms : map sentForm (se_messages s') = map sentForm (se_messages (loadSession p b))).
  { clear -Hm. induction Hm as [|x y l l' [Hx _] _ IH]; [done|]. cbn. by rewrite Hx, IH. }
  assert (Hlen : length (se_messages s') = length (se_messages (loadSession p b))) by (by apply Forall2_length in Hm).
  assert (Hback : forall m', m' ∈ se_messages s' -> exists m, m ∈ se_messages (loadSession p b) /\ sentForm m' = sentForm m /\
      track p (mm_messageId m) (mm_direction m) (Some (mm_status m)) e = Some (mm_status m')).
  { intros m' (i & Hi)%list_elem_of_lookup. destruct (Forall2_lookup_r _ _ _ _ _ Hm Hi) as (m & Hi' & H1 & H2). exists m. split; [by eapply list_elem_of_lookup_2|]. split; [done|].
    rewrite <- H2. unfold track. by rewrite He, Hr. }
  assert (Hts : tidySession p s').
  { split; [congruence|done|by rewrite Hnext|]. apply Forall_forall. intros m' Hm'. destruct (Hback m' Hm') as (m & M1 & M2 & _). rewrite Forall_forall in S4. eapply tidy_sent; [done|by apply S4]. }
  split; rewrite (load_save p s' b Hts).
  - done.
  - by rewrite Hnext, Hlen, (di_next _ _ _ Hd).
  - rewrite Hforms, (di_sent _ _ _ Hd), sends_snoc. unfold sendOf. rewrite He. destruct op; try done; by destruct (decide _); rewrite app_nil_r.
  - intros m' Hm'. destruct (Hback m' Hm') as (m & M1 & (Hid & Hdir & _)%sent_fields & M3). by rewrite statusBy_snoc, Hid, Hdir, (di_status _ _ _ Hd m M1).
  - intros id dir Hno. rewrite statusBy_snoc, (di_none _ _ _ Hd).
    + unfold track. rewrite He. destruct (decide _); [|done]. by destruct op.
    + intros m (i & Hi)%list_elem_of_lookup. destruct (Forall2_lookup_l _ _ _ _ _ Hm Hi) as (m' & Hi' & (Hid & _ & _)%sent_fields & _). rewrite <- Hid. apply Hno. by eapply list_elem_of_lookup_2.
Qed.
End steps.

(** ** Delivery *)

(** The message is claimed, acknowledged or handled. *)
Definition takes (p id : string) (e : MailEntry) : Prop :=
  (exists w ty, me_op e = OClaim p w ty /\ resultId (me_result e) = Some id) \/ me_op e = OAcknowledge p id.

Lemma track_handled p id dir e : track p id dir (Some mail_handled) e = Some mail_handled.
Proof. unfold track. destruct (decide _); [|done]. destruct (me_op e); try done; by destruct (decide _). Qed.

Lemma stays_handled p id dir seg : foldl (track p id dir) (Some mail_handled) seg = Some mail_handled.
Proof. induction seg as [|e seg IH]; [done|]. cbn. by rewrite track_handled. Qed.

Lemma track_acknowledged p id dir e : me_op e <> ORepair p -> track p id dir (Some mail_acknowledged) e = Some mail_acknowledged \/ track p id dir (Some mail_acknowledged) e = Some mail_handled.
Proof.
  intros Hr. unfold track. destruct (decide _) as [Hs|]; [|by left]. destruct (me_op e) as [d|d|q i|q i|q w ty|q]; cbn in *; subst; try (by left).
  - destruct (decide _); [by right|by left].
Qed.

Lemma stays_taken p id dir seg : (forall e, e ∈ seg -> me_op e <> ORepair p) ->
  foldl (track p id dir) (Some mail_acknowledged) seg = Some mail_acknowledged \/ foldl (track p id dir) (Some mail_acknowledged) seg = Some mail_handled.
Proof.
  induction seg as [|e seg IH]; [by left|]. intros Hr. cbn. destruct (track_acknowledged p id dir e) as [-> | ->]; [apply Hr; by left| |].
  - apply IH. intros e' He'. apply Hr. by right.
  - right. apply stays_handled.
Qed.

(** How a pending message stops being pending. *)
Lemma taken_how p id seg :
  match foldl (track p id parent_to_worker) (Some mail_pending) seg with
  | Some mail_pending => True
  | Some mail_acknowledged => exists k e, seg !! k = Some e /\ takes p id e /\ forall l f, k < l -> seg !! l = Some f -> me_op f <> ORepair p
  | Some mail_handled => exists k e, seg !! k = Some e /\ me_op e = OHandled p id
  | None => False
  end.
Proof.
  induction seg as [|e seg IH] using rev_ind; [done|]. rewrite foldl_app. cbn [foldl]. destruct (foldl _ _ seg) as [st|]; [|done].
  assert (Hlast : (seg ++ [e])%list !! length seg = Some e) by (by rewrite lookup_app_r, Nat.sub_diag by done).
  assert (Hnone : forall l f, length seg < l -> (seg ++ [e])%list !! l = Some f -> me_op f <> ORepair p).
  { intros l f Hl Hf. apply lookup_lt_Some in Hf. rewrite length_app in Hf. cbn in Hf. lia. }
  destruct st; [| |rewrite track_handled; destruct IH as (k & f & Hk & Hf); exists k, f; split; [by apply lookup_app_l_Some|done]].
  - unfold track. destruct (decide _) as [Hs|]; [|done]. destruct (me_op e) as [d|d|q i|q i|q w ty|q] eqn:He; cbn in Hs; subst; try done.
    + destruct (decide _) as [->|]; [|done]. exists (length seg), e. split_and!; [done|by right|done].
    + destruct (decide _) as [->|]; [|done]. by exists (length seg), e.
    + destruct (decide _) as [Hid|]; [|done]. exists (length seg), e. split_and!; [done| |done]. left. by exists w, ty.
  - destruct IH as (k & f & Hk & Hf & Hno).
    assert (Hkeep : me_op e <> ORepair p -> exists k f, (seg ++ [e])%list !! k = Some f /\ takes p id f /\ forall l g, k < l -> (seg ++ [e])%list !! l = Some g -> me_op g <> ORepair p).
    { intros Hr. exists k, f. split_and!; [by apply lookup_app_l_Some|done|]. intros l g Hl [Hg|[_ Hg]]%lookup_app_Some; [by apply (Hno l)|]. by apply list_lookup_singleton_Some in Hg as [_ <-]. }
    unfold track. destruct (decide _) as [Hs|Hs]; [|apply Hkeep; intros Hr; apply Hs; by rewrite Hr].
    destruct (me_op e) as [d|d|q i|q i|q w ty|q] eqn:He; cbn in Hs; subst; try (by apply Hkeep).
    + destruct (decide _) as [->|]; [|by apply Hkeep]. by exists (length seg), e.
    + by rewrite decide_True.
Qed.

Section log.
Context `{Collation}.

Lemma dinv_step log b e : (forall p, tidy p -> dinv log b p) -> tidyOp (me_op e) -> me_result e = (mutateSession b (me_op e) (me_now e)).2 ->
  forall p, tidy p -> dinv (log ++ [e]) (mutateSession b (me_op e) (me_now e)).1 p.
Proof.
  intros Hd Ht Hr p Hp. pose proof (tidyOp_session _ Ht) as Hq. destruct (decide (sessionOf (me_op e) = p)) as [<-|Hne].
  - destruct (isSend (me_op e)) eqn:Hs; [|by apply dinv_other; [apply Hd|..]]. destruct (me_op e) as [d|d|?|?|?|?] eqn:Hop; try done.
    + apply (dinv_send log b _ parent_to_worker d (me_now e)); try done; [by apply Hd|]. unfold sendOf. rewrite Hop. by rewrite decide_True.
    + apply (dinv_send log b _ worker_to_parent d (me_now e)); try done; [by apply Hd|]. unfold sendOf. rewrite Hop. by rewrite decide_True.
  - pose proof (mutateOp_parent (me_op e) (me_now e) (loadSession (sessionOf (me_op e)) b)) as Hpar. rewrite (ts_parent _ _ (di_session _ _ _ (Hd _ Hq))) in Hpar.
    unfold mutateSession. destruct (mutateOp _ _ _) as [s' r]. cbn [fst snd] in *.
    assert (Hl : loadSession p (saveSession s' b) = loadSession p b) by (by apply (load_other (sessionOf (me_op e))); [|congruence]).
    destruct (Hd p Hp) as [D1 D2 D3 D4 D5]. assert (Htr : forall id dir cur, track p id dir cur e = cur) by (intros *; unfold track; by rewrite decide_False).
    split; rewrite ?Hl; try done.
    + rewrite sends_snoc. unfold sendOf. rewrite decide_False by done. by rewrite app_nil_r.
    + intros m Hm. rewrite statusBy_snoc, Htr. by apply D4.
    + intros id dir Hno. rewrite statusBy_snoc, Htr. by apply D5.
Qed.

Lemma dinv_nil p : tidy p -> dinv [] [] p.
Proof. intros Hp. split; [split; try done; cbn; lia|done|done|intros m Hm; by apply not_elem_of_nil in Hm|done]. Qed.

(** A log that is replayed one by one. *)
Definition replayed (log : list MailEntry) (b : Store) : Prop := oneByOne [] (map entryCall log) = (b, map me_result log).

Lemma replayed_snoc log e b : replayed (log ++ [e]) b -> exists b0, replayed log b0 /\ me_result e = (mutateSession b0 (me_op e) (me_now e)).2 /\ b = (mutateSession b0 (me_op e) (me_now e)).1.
Proof.
  unfold replayed. rewrite !map_app. change (map entryCall [e]) with [(me_op e, me_now e)]. rewrite oneByOne_snoc. destruct (oneByOne [] (map entryCall log)) as [b0 rs]. cbn.
  intros [= <- Hr]. apply app_inj_tail in Hr as [-> Hr]. exists b0. by rewrite Hr.
Qed.

Lemma replayed_dinv log b : replayed log b -> (forall e, e ∈ log -> tidyOp (me_op e)) -> forall p, tidy p -> dinv log b p.
Proof.
  revert b. induction log as [|e log IH] using rev_ind; intros b Hb Ht p Hp; [injection Hb as <-; by apply dinv_nil|].
  destruct (replayed_snoc _ _ _ Hb) as (b0 & H0 & Hr & ->). apply dinv_step; [|apply Ht, elem_of_app; right; by apply list_elem_of_singleton|done|done].
  apply (IH b0 H0). intros f Hf. apply Ht, elem_of_app. by left.
Qed.

Lemma replayed_prefix log rest b : replayed (log ++ rest) b -> exists b0, replayed log b0.
Proof.
  revert b. induction rest as [|e rest IH] using rev_ind; intros b; [rewrite app_nil_r; by exists b|]. rewrite app_assoc. intros (b0 & H0 & _)%replayed_snoc. by apply (IH b0).
Qed.

(** What holds when an entry was made. *)
Lemma entry_made log b j e : replayed log b -> (forall e, e ∈ log -> tidyOp (me_op e)) -> log !! j = Some e ->
  exists b0, (forall p, tidy p -> dinv (take j log) b0 p) /\ me_result e = (mutateSession b0 (me_op e) (me_now e)).2.
Proof.
  intros Hb Ht Hj. rewrite <- (take_drop_middle _ _ _ Hj) in Hb. replace (take j log ++ e :: drop (S j) log)%list with ((take j log ++ [e]) ++ drop (S j) log)%list in Hb by (by rewrite <- app_assoc).
  destruct (replayed_prefix _ _ _ Hb) as (b1 & H1). destruct (replayed_snoc _ _ _ H1) as (b0 & H0 & Hr & _). exists b0. split; [|done].
  apply replayed_dinv; [done|]. intros f Hf. apply Ht. by eapply elem_of_take in Hf as (? & ? & _); eapply list_elem_of_lookup_2.
Qed.

(** The entries between two entries. *)
Definition between (i j : nat) (log : list MailEntry) : list MailEntry := take (j - S i) (drop (S i) log).

Lemma between_lookup i j log k e : i < j -> between i j log !! k = Some e -> log !! (S i + k) = Some e /\ S i + k < j.
Proof. intros Hij. unfold between. intros [Hk Hl]%lookup_take_Some. rewrite lookup_drop in Hk. split; [done|lia]. Qed.

Lemma between_elem i j log e : i < j -> e ∈ between i j log -> exists k, i < k < j /\ log !! k = Some e.
Proof. intros Hij (k & Hk)%list_elem_of_lookup. destruct (between_lookup _ _ _ _ _ Hij Hk) as [H1 H2]. exists (S i + k). split; [lia|done]. Qed.

Lemma take_between i j log e : i < j -> log !! i = Some e -> take j log = (take i log ++ [e] ++ between i j log)%list.
Proof.
  intros Hij Hi. unfold between. rewrite <- (take_drop (S i) log) at 1. assert (Hl : length (take (S i) log) = S i) by (apply lookup_lt_Some in Hi; rewrite length_take; lia).
  rewrite take_app, Hl, take_take, Nat.min_r by lia. rewrite (take_S_r _ _ _ Hi). by rewrite <- app_assoc.
Qed.

Lemma status_between p id dir i j log e : i < j -> log !! i = Some e ->
  statusBy p id dir (take j log) = foldl (track p id dir) (track p id dir (statusBy p id dir (take i log)) e) (between i j log).
Proof. intros Hij Hi. rewrite (take_between i j log e) by done. unfold statusBy. by rewrite !foldl_app. Qed.
End log.

(** ** The theorems *)

Section theorems.
Context `{Collation}.

(** The calls are those that were made. *)
Lemma step_ops st ev i c : mb_calls (mailStep st ev) !! i = Some c -> (exists c0, mb_calls st !! i = Some c0 /\ mc_op c0 = mc_op c) \/ ev = ECall (mc_op c).
Proof.
  assert (Hset : forall j ph, setCall j ph (mb_calls st) !! i = Some c -> exists c0, mb_calls st !! i = Some c0 /\ mc_op c0 = mc_op c).
  { intros j ph. rewrite setCall_lookup. destruct (decide (j = i)); [|by exists c]. destruct (mb_calls st !! i) as [c0|]; [|done]. cbn. intros [= <-]. by exists c0. }
  assert (Hsame : mb_calls st !! i = Some c -> (exists c0, mb_calls st !! i = Some c0 /\ mc_op c0 = mc_op c) \/ ev = ECall (mc_op c)) by (left; by exists c).
  destruct ev as [op|j|j now|j|j|j|j|]; cbn [mailStep mb_calls].
  - intros [Hc|[_ Hc]]%lookup_app_Some; [by apply Hsame|]. apply list_lookup_singleton_Some in Hc as [_ <-]. by right.
  - destruct (canStart _ _); [cbn; left; by eapply Hset|done].
  - destruct (mb_calls st !! j) as [[op []]|]; try done. destruct (mutateOp _ _ _). cbn. left. by eapply Hset.
  - destruct (mb_calls st !! j) as [[op []]|]; try done. cbn. left. by eapply Hset.
  - destruct (mb_calls st !! j) as [[op []]|]; try done. cbn. left. by eapply Hset.
  - destruct (mb_calls st !! j) as [[op []]|]; try done. cbn. left. by eapply Hset.
  - done.
  - change (map loseCall (mb_calls st)) with (loseCall <$> mb_calls st). rewrite list_lookup_fmap. destruct (mb_calls st !! i) as [c0|] eqn:Hc0; [|done]. cbn. intros [= <-].
    left. exists c0. split; [done|]. unfold loseCall. by destruct (mc_phase c0).
Qed.

Lemma calls_made b evs i c : mb_calls (foldl mailStep (newMailbox b) evs) !! i = Some c -> ECall (mc_op c) ∈ evs.
Proof.
  revert i c. induction evs as [|ev evs IH] using rev_ind; intros i c; [done|]. rewrite foldl_app. cbn [foldl]. intros [(c0 & Hc & He)| ->]%step_ops; apply elem_of_app.
  - left. rewrite <- He. by eapply IH.
  - right. by apply list_elem_of_singleton.
Qed.

(** C26. Calls that overlap behave as calls made one after the other, if the ids of
    their sessions are not empty and have no white space at their ends: whatever the
    order in which the backend answers, fails, and processes end and are replaced,
    the store holds what the calls that have saved make of it one by one, and each
    resolved to what it resolves to there; the calls of a session save in the order
    in which they were made; and while a call waits, one of its session is at work
    or can start. *)
Theorem mailbox_linearizable b evs : wellKeyed b -> (forall op, ECall op ∈ evs -> tidy (sessionOf op)) ->
  let st := foldl mailStep (newMailbox b) evs in
  oneByOne b (map entryCall (mb_log st)) = (mb_store st, map me_result (mb_log st)) /\
  (forall i op r, mb_calls st !! i = Some {| mc_op := op; mc_phase := MSettled (Some r) |} <-> exists e, e ∈ mb_log st /\ me_call e = i /\ me_op e = op /\ me_result e = r) /\
  (forall j k e f, j < k -> mb_log st !! j = Some e -> mb_log st !! k = Some f -> sessionOf (me_op e) = sessionOf (me_op f) -> me_call e < me_call f) /\
  (forall i op, mb_calls st !! i = Some {| mc_op := op; mc_phase := MWaiting |} -> exists j c, mb_calls st !! j = Some c /\ sessionOf (mc_op c) = sessionOf op /\
     (canStart (mb_queue st) j = true \/ match mc_phase c with MLoading | MSaving _ _ _ => True | _ => False end)).
Proof.
  intros Hb Ht st. assert (Hi : minv b st) by (by apply minv_steps; [apply minv_new|]). split_and!.
  - apply (mi_log _ _ Hi).
  - intros i op r. split.
    + intros Hc. destruct (mi_settled _ _ Hi i op r Hc) as (e & He & <-). exists e. pose proof (mi_entries _ _ Hi e He) as Hl. rewrite Hc in Hl. by injection Hl as -> ->.
    + intros (e & He & <- & <- & <-). by apply (mi_entries _ _ Hi).
  - apply (mi_order _ _ Hi).
  - intros i op Hc. destruct (agree_run _ _ _ (mi_agree _ _ Hi) Hc) as (r & H1 & H2 & H3). cbn in H2, H3.
    destruct (open_progress _ i r (mi_queue _ _ Hi) H1) as (j & rj & _ & J1 & J2 & J3); [by rewrite H3|]. destruct (mi_agree _ _ Hi) as [Hl Ha].
    assert (exists c, mb_calls st !! j = Some c) as [c Hcj] by (apply lookup_lt_is_Some; rewrite Hl; by eapply lookup_lt_Some). destruct (Ha j c rj Hcj J1) as [A1 A2].
    exists j, c. split; [done|]. split; [apply sessionKey_inj; congruence|]. destruct J3 as [J3|J3]; [right|by left]. rewrite J3 in A2. by destruct (mc_phase c).
Qed.

(** Whether a message was sent does not depend on its direction. *)
Lemma sent_any_direction p id d1 d2 log : statusBy p id d1 log = None -> statusBy p id d2 log = None.
Proof.
  revert d1 d2. induction log as [|e log IH] using rev_ind; [done|]. intros d1 d2. rewrite !statusBy_snoc.
  destruct (statusBy p id d1 log) as [s1|] eqn:E1.
  - unfold track. destruct (decide _); [|done]. destruct (me_op e), s1; try done; by destruct (decide _).
  - rewrite (IH d1 d2 E1). unfold track. destruct (decide _); [|done]. by destruct (me_op e).
Qed.

(** The entry is a claim in session [p] that resolved to a message. *)
Definition claims (p : string) (e : MailEntry) (m : RuntimeMailboxMessage) : Prop := (exists w ty, me_op e = OClaim p w ty) /\ me_result e = RMessage (Some m).

(** What is known when a claim is made. *)
Lemma claim_made log b j e p m : replayed log b -> (forall e, e ∈ log -> tidyOp (me_op e)) -> tidy p -> log !! j = Some e -> claims p e m ->
  statusBy p (mm_messageId m) parent_to_worker (take j log) = Some mail_pending /\
  exists i d now w ty, me_op e = OClaim p w ty /\ sends p (take j log) !! i = Some (parent_to_worker, d, now) /\ sentForm m = sentAs i (parent_to_worker, d, now) /\ md_workerId d = w.
Proof.
  intros Hb Ht Hp Hj [(w & ty & Hop) Hr]. destruct (entry_made _ _ _ _ Hb Ht Hj) as (b0 & Hd & Hm). rewrite Hop in Hm. specialize (Hd p Hp). unfold mutateSession in Hm. cbn [sessionOf mutateOp] in Hm.
  unfold claimNextWorkerMessage in Hm. destruct (sort_by _ _) as [|[i m0] rest] eqn:Hs; cbn in Hm; rewrite Hr in Hm; [done|]. injection Hm as ->.
  destruct (claim_Some _ _ _ _ _ _ Hs) as [Hi Hc]. apply claimable_spec in Hc as (C1 & C2 & C3 & _). split.
  - cbn. rewrite <- C2, <- C3. apply (di_status _ _ _ Hd). by eapply list_elem_of_lookup_2.
  - destruct (message_sent _ _ _ _ _ Hd Hi) as ([[dir d] now] & X1 & X2). assert (Hx := X2). apply sent_fields in Hx as (_ & Hdir & Hdr). cbn in Hdir, Hdr. rewrite C2 in Hdir. subst dir.
    exists i, d, now, w, ty. split_and!; [done|done| |by rewrite <- Hdr]. exact X2.
Qed.

(** A message that is claimed twice was repaired in between. *)
Lemma claimed_again log b i j e f p m n : replayed log b -> (forall e, e ∈ log -> tidyOp (me_op e)) -> tidy p -> i < j -> log !! i = Some e -> log !! j = Some f ->
  claims p e m -> claims p f n -> mm_messageId m = mm_messageId n -> exists k g, i < k < j /\ log !! k = Some g /\ me_op g = ORepair p.
Proof.
  intros Hb Ht Hp Hij He Hf Hc Hc' Hid. destruct (claim_made _ _ _ _ _ _ Hb Ht Hp He Hc) as [S1 _], (claim_made _ _ _ _ _ _ Hb Ht Hp Hf Hc') as [S2 _].
  rewrite <- Hid, (status_between _ _ _ _ _ _ _ Hij He), S1 in S2. destruct Hc as [(w & ty & Hop) Hr].
  rewrite (track_here p) in S2 by (by rewrite Hop). rewrite Hop, Hr in S2. cbn in S2. rewrite decide_True in S2 by done.
  destruct (decide (Exists (fun g => sessionOf (me_op g) = p /\ isRepair (me_op g) = true) (between i j log))) as [Hex|Hno].
  - apply Exists_exists in Hex as (g & Hg & Hs & Hrep). destruct (between_elem _ _ _ _ Hij Hg) as (k & Hk & Hl). exists k, g. split_and!; try lia; [done|].
    destruct (me_op g); try done. cbn in Hs. by rewrite Hs.
  - assert (Hnone : forall g, g ∈ between i j log -> me_op g <> ORepair p) by (intros g Hg Hrep; apply Hno, Exists_exists; exists g; by rewrite Hrep).
    destruct (stays_taken p (mm_messageId m) parent_to_worker _ Hnone) as [E|E]; rewrite E in S2; done.
Qed.

(** Once handled, a message is not pending again. *)
Lemma handled_made log b i j e id m dir p : replayed log b -> (forall e, e ∈ log -> tidyOp (me_op e)) -> tidy p -> i < j -> log !! i = Some e -> me_op e = OHandled p id ->
  me_result e = RMessage (Some m) -> statusBy p id dir (take j log) = Some mail_handled.
Proof.
  intros Hb Ht Hp Hij He Hop Hr. destruct (entry_made _ _ _ _ Hb Ht He) as (b0 & Hd & Hm). rewrite Hop in Hm. specialize (Hd p Hp). unfold mutateSession in Hm.
  cbn [sessionOf mutateOp] in Hm. unfold markHandled in Hm. destruct (findMessage id _) as [[k m0]|] eqn:Hf; [|cbn in Hm; congruence]. clear Hm.
  destruct (findMessage_Some _ _ _ _ Hf) as [Hk Hid]. rewrite (status_between _ _ _ _ _ _ _ Hij He). rewrite (track_here p) by (by rewrite Hop). rewrite Hop.
  destruct (statusBy p id dir (take i log)) as [cur|] eqn:Hc; [rewrite decide_True by done; apply stays_handled|exfalso].
  apply (sent_any_direction _ _ _ (mm_direction m0)) in Hc. rewrite <- Hid, (di_status _ _ _ Hd) in Hc; [done|by eapply list_elem_of_lookup_2].
Qed.

(** A message that was sent: its number, its status, and that it is there later. *)
Lemma send_made log b i j e d m p : replayed log b -> (forall e, e ∈ log -> tidyOp (me_op e)) -> tidy p -> i < j -> log !! i = Some e -> me_op e = OSendToWorker d ->
  md_parentSessionId d = p -> me_result e = RMessage (Some m) ->
  statusBy p (mm_messageId m) parent_to_worker (take j log) = foldl (track p (mm_messageId m) parent_to_worker) (Some mail_pending) (between i j log) /\
  exists n, sends p (take j log) !! n = Some (parent_to_worker, d, me_now e) /\ mm_messageId m = messageId (Z.of_nat (S n)).
Proof.
  intros Hb Ht Hp Hij He Hop Hdp Hr. destruct (entry_made _ _ _ _ Hb Ht He) as (b0 & Hd & Hm). rewrite Hop, Hr in Hm. specialize (Hd p Hp). unfold mutateSession in Hm.
  cbn [sessionOf mutateOp] in Hm. rewrite Hdp in Hm. unfold sendToWorker in Hm. destruct (send_next parent_to_worker d (me_now e) (loadSession p b0) (di_next _ _ _ Hd)) as (m' & Hs & Hform & _).
  rewrite Hs in Hm. cbn in Hm. injection Hm as ->. apply sent_fields in Hform as (Hid & _ & _). split.
  - rewrite (status_between _ _ _ _ _ _ _ Hij He). f_equal. rewrite (track_here p) by (by rewrite Hop). rewrite Hop, Hr. rewrite (di_none _ _ _ Hd); [by rewrite decide_True|].
    intros m0 Hm0. rewrite Hid. by eapply fresh_id.
  - exists (length (se_messages (loadSession p b0))). split; [|done]. rewrite (take_between i j log e) by done. unfold sends. rewrite omap_app.
    fold (sends p (take i log)). rewrite lookup_app_r by (by rewrite (length_sends _ _ _ Hd)). rewrite (length_sends _ _ _ Hd), Nat.sub_diag. cbn. unfold sendOf. rewrite Hop. cbn. by rewrite decide_True.
Qed.

(** A claim that finds nothing: the messages for the worker are not pending. *)
Lemma claim_empty log b j f p w ty : replayed log b -> (forall e, e ∈ log -> tidyOp (me_op e)) -> tidy p -> log !! j = Some f -> me_op f = OClaim p w ty -> me_result f = RMessage None ->
  forall n d now, sends p (take j log) !! n = Some (parent_to_worker, d, now) -> md_workerId d = w -> match ty with Some l => has l (bodyType (md_body d)) = true | None => True end ->
  exists st, statusBy p (messageId (Z.of_nat (S n))) parent_to_worker (take j log) = Some st /\ st <> mail_pending.
Proof.
  intros Hb Ht Hp Hf Hop Hr n d now Hn Hw Hty. destruct (entry_made _ _ _ _ Hb Ht Hf) as (b0 & Hd & Hm). rewrite Hop, Hr in Hm. specialize (Hd p Hp). unfold mutateSession in Hm.
  cbn [sessionOf mutateOp] in Hm. unfold claimNextWorkerMessage in Hm. destruct (sort_by _ _) as [|[k m] rest] eqn:Hs; [clear Hm|done].
  assert (exists m, se_messages (loadSession p b0) !! n = Some m) as [m Hl]. { apply lookup_lt_is_Some. rewrite <- (length_sends _ _ _ Hd). by eapply lookup_lt_Some. }
  destruct (message_sent _ _ _ _ _ Hd Hl) as (x & X1 & X2). rewrite Hn in X1. injection X1 as <-. apply sent_fields in X2 as (Hid & Hdir & Hdr). cbn in Hdir, Hdr.
  assert (Hin : m ∈ se_messages (loadSession p b0)) by (by eapply list_elem_of_lookup_2). exists (mm_status m). split; [rewrite <- Hid, <- Hdir; by apply (di_status _ _ _ Hd)|].
  intros Hst. pose proof (claim_None _ _ _ _ Hs Hin) as Hc. assert (claimable w ty m = true) as Hc'; [|by rewrite Hc in Hc']. apply claimable_spec. rewrite <- Hw, <- Hdr. subst d. by split_and!.
Qed.

(** C25. Delivery, of messages whose texts are tidy: the ids of the session and of
    the worker and the texts that a message of its type must have are not empty
    and have no white space at their ends, nor have the optional texts that are
    given, an assignment names its task, and the type fits the direction. (The
    backend trims other texts, or drops the message.) If every call is of this
    kind, the messages of a session are the ones that were sent to it, in
    their order and under their own numbers; a claim resolves to one that was sent
    to that worker, unaltered; between two claims of a message there is a repair; a
    handled message is not claimed again; and a claim finds nothing only if every
    message for the worker, of the types it asks for, was handled, or was claimed or
    acknowledged with no repair since. *)
Theorem mailbox_delivery evs p : tidy p -> (forall op, ECall op ∈ evs -> tidyOp op) ->
  let st := foldl mailStep (newMailbox []) evs in let log := mb_log st in
  map sentForm (se_messages (loadSession p (mb_store st))) = imap sentAs (sends p log) /\
  (forall j e m, log !! j = Some e -> claims p e m ->
     exists i d now w ty, me_op e = OClaim p w ty /\ sends p (take j log) !! i = Some (parent_to_worker, d, now) /\ sentForm m = sentAs i (parent_to_worker, d, now) /\ md_workerId d = w) /\
  (forall i j e f m n, i < j -> log !! i = Some e -> log !! j = Some f -> claims p e m -> claims p f n -> mm_messageId m = mm_messageId n ->
     exists k g, i < k < j /\ log !! k = Some g /\ me_op g = ORepair p) /\
  (forall i j e f id m n, i < j -> log !! i = Some e -> log !! j = Some f -> me_op e = OHandled p id -> me_result e = RMessage (Some m) -> claims p f n -> mm_messageId n <> id) /\
  (forall i j e f d m ty, i < j -> log !! i = Some e -> log !! j = Some f -> me_op e = OSendToWorker d -> md_parentSessionId d = p -> me_result e = RMessage (Some m) ->
     me_op f = OClaim p (md_workerId d) ty -> match ty with Some l => has l (bodyType (md_body d)) = true | None => True end -> me_result f = RMessage None ->
     exists k g, i < k < j /\ log !! k = Some g /\ (me_op g = OHandled p (mm_messageId m) \/
       (takes p (mm_messageId m) g /\ forall l h, k < l < j -> log !! l = Some h -> me_op h <> ORepair p))).
Proof.
  intros Hp Hto st log. assert (Hi : minv [] st).
  { apply minv_steps; [|intros op Hop; by apply tidyOp_session, Hto]. apply minv_new. intros q _. done. }
  assert (Ht : forall e, e ∈ log -> tidyOp (me_op e)) by (intros e He; exact (Hto _ (calls_made _ _ _ _ (mi_entries _ _ Hi e He)))).
  assert (Hb : replayed log (mb_store st)) by apply (mi_log _ _ Hi). split_and!.
  - apply (di_sent _ _ _ (replayed_dinv _ _ Hb Ht p Hp)).
  - intros j e m Hj Hc. by apply (claim_made _ _ _ _ _ _ Hb Ht Hp Hj Hc).
  - intros i j e f m n Hij He Hf Hc Hc' Hid. by apply (claimed_again log (mb_store st) i j e f p m n).
  - intros i j e f id m n Hij He Hf Hop Hr Hc <-. destruct (claim_made _ _ _ _ _ _ Hb Ht Hp Hf Hc) as [S2 _].
    by rewrite (handled_made _ _ _ _ _ _ _ _ _ Hb Ht Hp Hij He Hop Hr) in S2.
  - intros i j e f d m ty Hij He Hf Hop Hdp Hr Hop' Hty Hr'. destruct (send_made _ _ _ _ _ _ _ _ Hb Ht Hp Hij He Hop Hdp Hr) as (S1 & n & S2 & S3).
    destruct (claim_empty _ _ _ _ _ _ _ Hb Ht Hp Hf Hop' Hr' n d (me_now e) S2 eq_refl Hty) as (s & S4 & S5). rewrite <- S3, S1 in S4.
    pose proof (taken_how p (mm_messageId m) (between i j log)) as Hhow. rewrite S4 in Hhow. destruct s; [done|..].
    + destruct Hhow as (k & g & Hk & Hg & Hno). destruct (between_lookup _ _ _ _ _ Hij Hk) as [K1 K2]. exists (S i + k), g. split_and!; [lia|lia|done|]. right. split; [done|].
      intros l h Hl Hlh. apply (Hno (l - S i)); [lia|]. unfold between. rewrite lookup_take_lt, lookup_drop by lia. by replace (S i + (l - S i)) with l by lia.
    + destruct Hhow as (k & g & Hk & Hg). destruct (between_lookup _ _ _ _ _ Hij Hk) as [K1 K2]. exists (S i + k), g. split_and!; [lia|lia|done|by left].
Qed.
End theorems.

(** ** Concrete runs *)

Module MailDemo.

#[local] Existing Instance rootCollation.

Definition assignment (session worker objective : string) : MailDraft := {| md_parentSessionId := session; md_workerId := worker; md_taskId := Some "t1"; md_correlationId := None;
  md_body := task_assignment objective None |}.

(** The events of the calls, one after the other. *)
Definition inTurn (ops : list MailOp) : list MailEvent :=
  concat (imap (fun i op => [ECall op; EStart i; ELoaded i (Z.of_nat i); ESaved i; EReturn i]) ops).

(** Two sends and a claim overlap; the second send waits for the first, and the
    process ends while the claim saves. *)
Definition overlapping : list MailEvent :=
  [ECall (OSendToWorker (assignment "s" "w" "a")); ECall (OSendToWorker (assignment "s" "w" "b")); ECall (OClaim "s" "w" None); EStart 0; ELoaded 0 1; EStart 1; ESaved 0; EStart 1;
   EReturn 0; ELoaded 1 2; ESaved 1; EReturn 1; EStart 2; ELoaded 2 3; ECrash; ECall (OClaim "s" "w" None); EStart 3; ELoaded 3 4; ESaved 3].

Lemma tidy_s : tidy "s".
Proof. by split. Qed.

Lemma mailbox_linearizable_witness : let st := foldl mailStep (newMailbox []) overlapping in
  map me_call (mb_log st) = [0; 1; 3]%nat /\ (oneByOne [] (map entryCall (mb_log st))).1 = mb_store st /\ map (fun e => resultId (me_result e)) (mb_log st) = [Some "mail-1"; Some "mail-2"; Some "mail-1"].
Proof.
  assert (Ht : forall op, ECall op ∈ overlapping -> tidy (sessionOf op)).
  { intros op Hop. unfold overlapping in Hop. rewrite !elem_of_cons, elem_of_nil in Hop. destruct_or?; try done; injection Hop as ->; apply tidy_s. }
  destruct (mailbox_linearizable [] overlapping (fun p _ => eq_refl) Ht) as (H1 & _). split; [by vm_compute|]. split; [|by vm_compute].
  revert H1. generalize (foldl mailStep (newMailbox []) overlapping). intros st H1. by rewrite H1.
Defined.

(** Sent, claimed, redelivered after a repair, handled; then there is nothing left. *)
Definition delivery : list MailEvent :=
  inTurn [OSendToWorker (assignment "s" "w" "a"); OClaim "s" "w" None; ORepair "s"; OClaim "s" "w" None; OHandled "s" "mail-1"; ORepair "s"; OClaim "s" "w" None].

Definition first : RuntimeMailboxMessage := snd (createMessage (createEmptySession "s") parent_to_worker (assignment "s" "w" "a") 0).

Lemma mailbox_delivery_witness : let log := mb_log (foldl mailStep (newMailbox []) delivery) in
  (exists k g, 1 < k < 3 /\ log !! k = Some g /\ me_op g = ORepair "s") /\
  (exists k g, 0 < k < 6 /\ log !! k = Some g /\ (me_op g = OHandled "s" "mail-1" \/
     (takes "s" "mail-1" g /\ forall l h, k < l < 6 -> log !! l = Some h -> me_op h <> ORepair "s"))).
Proof.
  assert (Ht : forall op, ECall op ∈ delivery -> tidyOp op).
  { intros op Hop. let l := eval vm_compute in delivery in change (ECall op ∈ l) in Hop. rewrite !elem_of_cons, elem_of_nil in Hop. destruct_or?; try done; injection Hop as ->; try exact tidy_s. by split. }
  destruct (mailbox_delivery delivery "s" tidy_s Ht) as (_ & _ & H3 & _ & H5). split.
  - eapply (H3 1 3); [lia|vm_compute; reflexivity|vm_compute; reflexivity|split; [by exists "w", None|reflexivity]|split; [by exists "w", None|reflexivity]|reflexivity].
  - eapply (H5 0 6 _ _ (assignment "s" "w" "a") first None); [lia|vm_compute; reflexivity|vm_compute; reflexivity|reflexivity|reflexivity|vm_compute; reflexivity|reflexivity|exact I|reflexivity].
Defined.

Definition afterCalls (ops : list MailOp) : list (option string) := map (fun e => resultId (me_result e)) (mb_log (foldl mailStep (newMailbox []) (inTurn ops))).

(** A message with an empty field is accepted, and dropped when the session is read again. *)
Example empty_objective_lost : afterCalls [OSendToWorker (assignment "s" "w" " "); OClaim "s" "w" None] = [Some "mail-1"; None].
Proof. vm_compute. reflexivity. Qed.

(** A session whose id ends in a space is saved under its trimmed id: the claim is not seen by the next one. *)
Example untrimmed_session_claims_twice : afterCalls [OSendToWorker (assignment "s " "w" "a"); OClaim "s " "w" None; OClaim "s " "w" None] = [Some "mail-1"; Some "mail-1"; Some "mail-1"].
Proof. vm_compute. reflexivity. Qed.

(** Messages of one millisecond are claimed in the order of their ids as texts: the tenth before the second. *)
Example tenth_before_second :
  let s := foldl (fun s (_ : nat) => fst (sendToWorker (assignment "s" "w" "a") 0%Z s)) (createEmptySession "s") (seq 0 10) in
  let '(s, first) := claimNextWorkerMessage "w" None 1%Z s in (resultId first, resultId (snd (claimNextWorkerMessage "w" None 1%Z s))) = (Some "mail-1", Some "mail-10").
Proof. vm_compute. reflexivity. Qed.
End MailDemo.
