(* ===== verification/EffectLedger.v ===== *)
(** * Effect ledger (src/runtime/src/workflow/effects.ts, compensation.ts, effect-storage.ts, effect-ledger.ts)

    Before a tool changes something, the ledger records the intent and the state
    of the touched paths; afterwards the outcome, and the actions that undo it.
    The file system is the class [FileSystem], whose laws are the documented
    behaviour of node:fs; the tool handler, SHA-256 and the encodings of texts and
    bytes are parameters. The storage keeps everything in one key-value map, as in
    the backend, without expiry, and calls of the ledger do not overlap. A file is
    its bytes, as a string. *)
From Stdlib Require Import Ascii.
From stdpp Require Import pretty.
From S2P Require Import Prelude JsMap JsString Approvals PolicyTypes ToolGovernance Kernel.
#[local] Open Scope string_scope.

(** ** Records (effects.ts) *)

Inductive EffectStatus := intent_recorded | pending_approval | effect_approved | effect_denied | executing | succeeded | effect_failed | compensated | compensation_failed.

Inductive EffectKind := filesystem_write | filesystem_append | filesystem_delete | filesystem_move | filesystem_mkdir | shell_command | process_start
| server_start | desktop_editor | other_mutation.

Inductive EffectTargetKind := target_path | target_process | target_server | target_command.

Record EffectScope := {
  es_sessionId : string;
  es_parentSessionId : option string;
  es_subagentSessionId : option string;
  es_pipelineId : option string;
  es_stepName : option string;
  es_stepIndex : option nat;
  es_runId : option string;
  es_channel : option string;
}.

Record EffectTarget := {
  et_kind : EffectTargetKind;
  et_path : option string;
  et_processId : option string;
  et_serverId : option string;
  et_label : option string;
  et_cwd : option string;
  et_command : option string;
}.

Record EffectApprovalRef := {
  ea_requestId : option string;
  ea_disposition : option ApprovalDisposition;
  ea_requestedAt : option Z;
  ea_resolvedAt : option Z;
  ea_approvedBy : option string;
  ea_resolverSessionId : option string;
  ea_resolverRoles : option (list string);
}.

Inductive EffectFilesystemEntryType := entry_file | entry_directory | entry_missing | entry_other.

Record EffectFilesystemSnapshot := {
  sn_path : string;
  sn_exists : bool;
  sn_entryType : EffectFilesystemEntryType;
  sn_sizeBytes : option Z;
  sn_sha256 : option string;
  sn_utf8Text : option string;
  sn_base64 : option string;
}.

Inductive EffectCompensationActionKind := restore_snapshot | delete_created_path | reverse_move | process_stop | server_stop.

Record EffectCompensationAction := {
  ca_id : string;
  ca_kind : EffectCompensationActionKind;
  ca_supported : bool;
  ca_reason : option string;
  ca_path : option string;
  ca_sourcePath : option string;
  ca_destinationPath : option string;
  ca_snapshot : option EffectFilesystemSnapshot;
  ca_processId : option string;
  ca_serverId : option string;
  ca_label : option string;
  ca_idempotencyKey : option string;
}.

Inductive CompensationStatus := not_available | available | compensation_completed | compensation_status_failed.

Record EffectCompensationState := {
  cs_status : CompensationStatus;
  cs_actions : list EffectCompensationAction;
  cs_lastAttemptAt : option Z;
  cs_lastError : option string;
}.

Record EffectAttemptRecord := {
  at_attempt : nat;
  at_recordedAt : Z;
  at_startedAt : option Z;
  at_completedAt : option Z;
  at_status : EffectStatus;
  at_error : option string;
  at_durationMs : option Z;
  at_resultSnippet : option string;
}.

Record EffectResultSummary := {
  re_success : bool;
  re_isError : bool;
  re_completedAt : Z;
  re_durationMs : option Z;
  re_resultSnippet : option string;
  re_observedMutationsUnknown : bool;
  re_error : option string;
}.

(** [er_version]: absent in a legacy record. *)
Record EffectRecord := {
  er_version : option string;
  er_id : string;
  er_idempotencyKey : string;
  er_toolCallId : string;
  er_toolName : string;
  er_args : Args;
  er_scope : EffectScope;
  er_kind : EffectKind;
  er_effectClass : string;
  er_status : EffectStatus;
  er_createdAt : Z;
  er_updatedAt : Z;
  er_intentSummary : string;
  er_targets : list EffectTarget;
  er_attempts : list EffectAttemptRecord;
  er_approval : option EffectApprovalRef;
  er_preExecutionSnapshots : option (list EffectFilesystemSnapshot);
  er_postExecutionSnapshots : option (list EffectFilesystemSnapshot);
  er_result : option EffectResultSummary;
  er_compensation : EffectCompensationState;
  er_metadata : option string;
}.

Record EffectRecordInput := {
  ei_id : string;
  ei_idempotencyKey : string;
  ei_toolCallId : string;
  ei_toolName : string;
  ei_args : Args;
  ei_scope : EffectScope;
  ei_kind : EffectKind;
  ei_effectClass : string;
  ei_intentSummary : string;
  ei_targets : list EffectTarget;
  ei_createdAt : Z;
  ei_requiresApproval : bool;
  ei_preExecutionSnapshots : option (list EffectFilesystemSnapshot);
  ei_metadata : option string;
}.

Definition FILESYSTEM_WRITE_TOOL_NAMES : list string := ["system.writeFile"; "desktop.text_editor"].
Definition FILESYSTEM_APPEND_TOOL_NAMES : list string := ["system.appendFile"].
Definition FILESYSTEM_DELETE_TOOL_NAMES : list string := ["system.delete"].
Definition FILESYSTEM_MOVE_TOOL_NAMES : list string := ["system.move"].
Definition FILESYSTEM_MKDIR_TOOL_NAMES : list string := ["system.mkdir"].
Definition WORKTREE_MUTATION_TOOL_NAMES : list string := ["system.gitWorktreeCreate"; "system.gitWorktreeRemove"].
Definition SHELL_TOOL_NAMES : list string := ["system.bash"; "desktop.bash"].
Definition PROCESS_START_TOOL_NAMES : list string := ["system.processStart"].
Definition SERVER_START_TOOL_NAMES : list string := ["system.serverStart"].

Definition inferEffectClass (toolName : string) (explicitEffectClass : option string) : string :=
  match explicitEffectClass with
  | Some c => c
  | None =>
      if has FILESYSTEM_WRITE_TOOL_NAMES toolName then "filesystem_write"
      else if has FILESYSTEM_APPEND_TOOL_NAMES toolName then "filesystem_write"
      else if has FILESYSTEM_DELETE_TOOL_NAMES toolName then "filesystem_write"
      else if has FILESYSTEM_MOVE_TOOL_NAMES toolName then "filesystem_write"
      else if has FILESYSTEM_MKDIR_TOOL_NAMES toolName then "filesystem_scaffold"
      else if has WORKTREE_MUTATION_TOOL_NAMES toolName then "filesystem_write"
      else if has SHELL_TOOL_NAMES toolName then "shell"
      else if has PROCESS_START_TOOL_NAMES toolName || has SERVER_START_TOOL_NAMES toolName then "mixed"
      else match inferToolAccess toolName with read => "read_only" | write => "mixed" end
  end.

Definition inferEffectKind (toolName : string) : EffectKind :=
  if has FILESYSTEM_WRITE_TOOL_NAMES toolName then filesystem_write
  else if has FILESYSTEM_APPEND_TOOL_NAMES toolName then filesystem_append
  else if has FILESYSTEM_DELETE_TOOL_NAMES toolName then filesystem_delete
  else if has FILESYSTEM_MOVE_TOOL_NAMES toolName then filesystem_move
  else if has FILESYSTEM_MKDIR_TOOL_NAMES toolName then filesystem_mkdir
  else if has WORKTREE_MUTATION_TOOL_NAMES toolName then other_mutation
  else if has SHELL_TOOL_NAMES toolName then shell_command
  else if has PROCESS_START_TOOL_NAMES toolName then process_start
  else if has SERVER_START_TOOL_NAMES toolName then server_start
  else if String.eqb toolName "desktop.text_editor" then desktop_editor
  else other_mutation.

Definition isMutatingTool (toolName : string) : bool := match inferToolAccess toolName with write => true | read => false end.

Definition summarizeToolResult (result : string) (maxChars : nat) : string :=
  let normalized := trim result in
  if (String.length normalized <=? maxChars)%nat then normalized else stake maxChars normalized +:+ "...".

Definition targetKindText (k : EffectTargetKind) : string :=
  match k with target_path => "path" | target_process => "process" | target_server => "server" | target_command => "command" end.

Definition orElse {A} (a b : option A) : option A := match a with Some _ => a | None => b end.

Definition buildEffectIntentSummary (toolName : string) (targets : list EffectTarget) : string :=
  let one t := default (targetKindText (et_kind t)) (orElse (et_path t) (orElse (et_processId t) (orElse (et_serverId t) (orElse (et_command t) (et_label t))))) in
  toolName +:+ " -> " +:+ match targets with [] => "no explicit target" | _ => String.concat ", " (map one targets) end.

(** ** Snapshots and compensation (compensation.ts) *)

Inductive FsEntry := EFile | EDirectory | EOther.

(** The functions of node:fs that are called; [Err]: the promise is rejected with this message. *)
Class FileSystem (FS : Type) := {
  fs_lstat : FS -> string -> result string FsEntry;
  fs_size : FS -> string -> Z;
  fs_readFile : FS -> string -> option string;
  fs_readdir : FS -> string -> result string (list string);
  fs_mkdir : FS -> string -> result string FS;
  fs_writeFile : FS -> string -> string -> result string FS;
  fs_rename : FS -> string -> string -> result string FS;
  fs_rm : FS -> string -> result string FS;
}.

(** [asString]. *)
Definition textOf (v : JsShape) : option string :=
  match v with JText s => if isEmpty (trim s) then None else Some (trim s) | _ => None end.

Definition argText (args : Args) (key : string) : option string := textOf (argShape args key).

Definition MAX_SNAPSHOT_BYTES : Z := 256 * 1024.

(** A text that is there and not empty. *)
Definition nonEmpty (s : option string) : option string := match s with Some t => if isEmpty t then None else s | None => None end.

(** [path.split("/")] without its last segment, joined again. *)
Definition directoryOf (path : string) : string := String.concat "/" (removelast (split "/"%char path)).

Section compensation.
Context {FS : Type} `{FileSystem FS}.
Context (sha256 utf8 utf8Bytes base64 unbase64 : string -> string).

Definition ToolHandler : Type := FS -> string -> jsmap string -> FS * option string.

Definition isUtf8Content (buffer : string) : bool := String.eqb (utf8Bytes (utf8 buffer)) buffer.

Definition missingSnapshot (path : string) : EffectFilesystemSnapshot := {|
  sn_path := path; sn_exists := false; sn_entryType := entry_missing; sn_sizeBytes := None; sn_sha256 := None; sn_utf8Text := None; sn_base64 := None |}.

Definition otherSnapshot (path : string) (k : EffectFilesystemEntryType) (size : Z) : EffectFilesystemSnapshot := {|
  sn_path := path; sn_exists := true; sn_entryType := k; sn_sizeBytes := Some size; sn_sha256 := None; sn_utf8Text := None; sn_base64 := None |}.

Definition captureFilesystemSnapshot (fs : FS) (path : string) : EffectFilesystemSnapshot :=
  match fs_lstat fs path with
  | Err _ => missingSnapshot path
  | Ok EDirectory => otherSnapshot path entry_directory (fs_size fs path)
  | Ok EOther => otherSnapshot path entry_other (fs_size fs path)
  | Ok EFile =>
      if (fs_size fs path <=? MAX_SNAPSHOT_BYTES)%Z then
        match fs_readFile fs path with
        | None => missingSnapshot path
        | Some b => {| sn_path := path; sn_exists := true; sn_entryType := entry_file; sn_sizeBytes := Some (fs_size fs path); sn_sha256 := Some (sha256 b);
            sn_utf8Text := if isUtf8Content b then Some (utf8 b) else None; sn_base64 := if isUtf8Content b then None else Some (base64 b) |}
        end
      else otherSnapshot path entry_file (fs_size fs path)
  end.

Definition extractSnapshotCandidatePaths (toolName : string) (args : Args) : list string :=
  let add key values := match argText args key with Some p => set_add values p | None => values end in
  let values := if has ["system.writeFile"; "system.appendFile"; "system.delete"; "system.mkdir"; "desktop.text_editor"] toolName then add "path" [] else [] in
  if String.eqb toolName "system.move" then add "destination" (add "source" values) else values.

Definition capturePreExecutionSnapshots (fs : FS) (toolName : string) (args : Args) : list EffectFilesystemSnapshot :=
  map (captureFilesystemSnapshot fs) (extractSnapshotCandidatePaths toolName args).

Definition capturePostExecutionSnapshots (fs : FS) (toolName : string) (args : Args) : list EffectFilesystemSnapshot :=
  map (captureFilesystemSnapshot fs) (extractSnapshotCandidatePaths toolName args).

Definition action (id : string) (kind : EffectCompensationActionKind) (supported : bool) (reason : option string) : EffectCompensationAction := {|
  ca_id := id; ca_kind := kind; ca_supported := supported; ca_reason := reason; ca_path := None; ca_sourcePath := None; ca_destinationPath := None;
  ca_snapshot := None; ca_processId := None; ca_serverId := None; ca_label := None; ca_idempotencyKey := None |}.

Definition on_path (path : string) (snapshot : option EffectFilesystemSnapshot) (a : EffectCompensationAction) : EffectCompensationAction := {|
  ca_id := ca_id a; ca_kind := ca_kind a; ca_supported := ca_supported a; ca_reason := ca_reason a; ca_path := Some path; ca_sourcePath := None;
  ca_destinationPath := None; ca_snapshot := snapshot; ca_processId := None; ca_serverId := None; ca_label := None; ca_idempotencyKey := None |}.

Definition on_move (source destination : string) (a : EffectCompensationAction) : EffectCompensationAction := {|
  ca_id := ca_id a; ca_kind := ca_kind a; ca_supported := ca_supported a; ca_reason := ca_reason a; ca_path := None; ca_sourcePath := Some source;
  ca_destinationPath := Some destination; ca_snapshot := None; ca_processId := None; ca_serverId := None; ca_label := None; ca_idempotencyKey := None |}.

Definition on_started (processId serverId label idempotencyKey : option string) (a : EffectCompensationAction) : EffectCompensationAction := {|
  ca_id := ca_id a; ca_kind := ca_kind a; ca_supported := ca_supported a; ca_reason := ca_reason a; ca_path := None; ca_sourcePath := None;
  ca_destinationPath := None; ca_snapshot := None; ca_processId := processId; ca_serverId := serverId; ca_label := label; ca_idempotencyKey := idempotencyKey |}.

Definition effectActionId (effectId suffix : string) : string := effectId +:+ ":compensation:" +:+ suffix.

(** [byPath.get(path)]: of two snapshots of one path the later one. *)
Definition snapshotOf (pre : list EffectFilesystemSnapshot) (path : string) : option EffectFilesystemSnapshot :=
  mget (mof (map (fun s => (sn_path s, s)) pre)) path.

Definition isMissing (s : option EffectFilesystemSnapshot) : bool := match s with None => true | Some s => match sn_entryType s with entry_missing => true | _ => false end end.

(** The file is written back. *)
Definition restoreAction (effectId path : string) (s : EffectFilesystemSnapshot) : EffectCompensationAction :=
  let kept := match sn_utf8Text s, sn_base64 s with None, None => false | _, _ => true end in
  on_path path (Some s) (action (effectActionId effectId "restore") restore_snapshot kept (if kept then None else Some "Snapshot content was too large to capture.")).

Definition unsupportedRestore (effectId path reason : string) (s : option EffectFilesystemSnapshot) : EffectCompensationAction :=
  on_path path s (action (effectActionId effectId "unsupported") restore_snapshot false (Some reason)).

Definition deleteCreated (effectId path : string) : EffectCompensationAction :=
  on_path path None (action (effectActionId effectId "delete-created") delete_created_path true None).

Definition compensationActions (args : Args) (kind : EffectKind) (pre : list EffectFilesystemSnapshot) (resultObject : option Args) (effectId : string) :
    list EffectCompensationAction :=
  let resultText key := resultObject ≫= fun o => argText o key in
  match kind with
  | filesystem_write | filesystem_append | desktop_editor =>
      match argText args "path" with
      | None => []
      | Some path =>
          match snapshotOf pre path with
          | None => [deleteCreated effectId path]
          | Some s =>
              match sn_entryType s with
              | entry_missing => [deleteCreated effectId path]
              | entry_file => [restoreAction effectId path s]
              | _ => [unsupportedRestore effectId path "Only file-backed writes support automatic compensation." (Some s)]
              end
          end
      end
  | filesystem_delete =>
      match argText args "path" with
      | None => []
      | Some path =>
          let s := snapshotOf pre path in
          let unsupported := [unsupportedRestore effectId path "Only managed file deletes support automatic restore." s] in
          match s with Some s => match sn_entryType s with entry_file => [restoreAction effectId path s] | _ => unsupported end | None => unsupported end
      end
  | filesystem_move =>
      match argText args "source", argText args "destination" with
      | Some source, Some destination =>
          if isMissing (snapshotOf pre destination) then [on_move destination source (action (effectActionId effectId "reverse-move") reverse_move true None)]
          else [on_move destination source (action (effectActionId effectId "unsupported") reverse_move false
            (Some "Automatic reversal is unsafe when the destination existed before the move."))]
      | _, _ => []
      end
  | filesystem_mkdir =>
      match argText args "path" with
      | None => []
      | Some path => if isMissing (snapshotOf pre path) then [deleteCreated effectId path] else []
      end
  | process_start =>
      match resultText "processId" with
      | None => []
      | Some id => [on_started (Some id) None (resultText "label") (resultText "idempotencyKey") (action (effectActionId effectId "process-stop") process_stop true None)]
      end
  | server_start =>
      match resultText "serverId" with
      | None => []
      | Some id => [on_started None (Some id) (resultText "label") (resultText "idempotencyKey") (action (effectActionId effectId "server-stop") server_stop true None)]
      end
  | shell_command | other_mutation => []
  end.

Definition noCompensation : EffectCompensationState := {| cs_status := not_available; cs_actions := []; cs_lastAttemptAt := None; cs_lastError := None |}.

Definition buildCompensationState (args : Args) (kind : EffectKind) (pre : list EffectFilesystemSnapshot) (resultObject : option Args) (effectId : string) :
    EffectCompensationState :=
  match compensationActions args kind pre resultObject effectId with
  | [] => noCompensation
  | actions => {| cs_status := if existsb ca_supported actions then available else not_available; cs_actions := actions; cs_lastAttemptAt := None; cs_lastError := None |}
  end.

(** [mkdirForFile]. *)
Definition mkdirForFile (fs : FS) (path : string) : result string FS :=
  let directory := directoryOf path in if isEmpty directory then Ok fs else fs_mkdir fs directory.

(** [removePathIfSafe]: an error whose text mentions ENOENT ends it without a removal. *)
Definition removePathIfSafe (fs : FS) (path : string) : result string FS :=
  let safe :=
    kind ← fs_lstat fs path;
    match kind with
    | EDirectory =>
        children ← fs_readdir fs path;
        match children with [] => Ok tt | _ => Err ("Refusing to compensate by deleting non-empty directory " +:+ Kernel.dq path +:+ ".") end
    | _ => Ok tt
    end in
  match safe with
  | Err e => if includes e "ENOENT" then Ok fs else Err e
  | Ok _ => fs_rm fs path
  end.

(** [executeCompensationAction]: the file system, and the error. *)
Definition executeCompensationAction (fs : FS) (a : EffectCompensationAction) (toolHandler : option ToolHandler) : FS * option string :=
  let changed r := match r with Ok fs' => (fs', None) | Err e => (fs, Some e) end in
  let stop tool key id missing :=
    match toolHandler, nonEmpty id with
    | Some handler, Some id =>
        let optional k v := match nonEmpty v with Some v => [(k, v)] | None => [] end in
        handler fs tool ([(key, id)] ++ optional "label" (ca_label a) ++ optional "idempotencyKey" (ca_idempotencyKey a))%list
    | _, _ => (fs, Some missing)
    end in
  match ca_kind a with
  | restore_snapshot =>
      match nonEmpty (ca_path a), ca_snapshot a with
      | Some path, Some s =>
          match (match nonEmpty (sn_utf8Text s) with Some t => Some (utf8Bytes t) | None => match nonEmpty (sn_base64 s) with Some t => Some (unbase64 t) | None => None end end) with
          | None => (fs, Some "Snapshot content is unavailable for restore.")
          | Some payload =>
              match mkdirForFile fs path with
              | Err e => (fs, Some e)
              | Ok fs' => match fs_writeFile fs' path payload with Ok fs2 => (fs2, None) | Err e => (fs', Some e) end
              end
          end
      | _, _ => (fs, Some "Missing restore_snapshot payload.")
      end
  | delete_created_path =>
      match nonEmpty (ca_path a) with
      | None => (fs, Some "Missing delete_created_path target.")
      | Some path => changed (removePathIfSafe fs path)
      end
  | reverse_move =>
      match nonEmpty (ca_sourcePath a), nonEmpty (ca_destinationPath a) with
      | Some source, Some destination =>
          match mkdirForFile fs destination with
          | Err e => (fs, Some e)
          | Ok fs' => match fs_rename fs' source destination with Ok fs2 => (fs2, None) | Err e => (fs', Some e) end
          end
      | _, _ => (fs, Some "Missing reverse_move payload.")
      end
  | process_stop => stop "system.processStop" "processId" (ca_processId a) "A tool handler is required for process compensation."
  | server_stop => stop "system.serverStop" "serverId" (ca_serverId a) "A tool handler is required for server compensation."
  end.

Fixpoint executeActions (fs : FS) (l : list EffectCompensationAction) (toolHandler : option ToolHandler) : FS * option string :=
  match l with
  | [] => (fs, None)
  | a :: rest =>
      if negb (ca_supported a) then (fs, Some (default "Compensation action is unsupported." (ca_reason a)))
      else match executeCompensationAction fs a toolHandler with (fs', None) => executeActions fs' rest toolHandler | r => r end
  end.

(** [None]: completed. *)
Definition executeCompensation (fs : FS) (r : EffectRecord) (toolHandler : option ToolHandler) : FS * option string :=
  match cs_actions (er_compensation r) with
  | [] => (fs, Some "No compensation actions are available.")
  | l => executeActions fs l toolHandler
  end.
End compensation.

(** ** Storage (effect-storage.ts) *)

Definition EFFECT_KEY_PREFIX : string := "workflow:effect:".
Definition EFFECT_IDEMPOTENCY_KEY_PREFIX : string := "workflow:effect:idempotency:".
Definition EFFECT_SESSION_INDEX_PREFIX : string := "workflow:effect:index:session:".
Definition EFFECT_RUN_INDEX_PREFIX : string := "workflow:effect:index:run:".
Definition EFFECT_PIPELINE_INDEX_PREFIX : string := "workflow:effect:index:pipeline:".

Definition effectKey (id : string) : string := EFFECT_KEY_PREFIX +:+ id.
Definition idempotencyKey (k : string) : string := EFFECT_IDEMPOTENCY_KEY_PREFIX +:+ k.
Definition sessionIndexKey (id : string) : string := EFFECT_SESSION_INDEX_PREFIX +:+ id.
Definition runIndexKey (id : string) : string := EFFECT_RUN_INDEX_PREFIX +:+ id.
Definition pipelineIndexKey (id : string) : string := EFFECT_PIPELINE_INDEX_PREFIX +:+ id.

(** What a key of the backend holds. *)
Inductive StoredValue := VRecord (r : EffectRecord) | VId (id : string) | VIndex (ids : list string).

(** What the storage calls of the memory backend: a read may drop an entry that
    expired, a write passes the time to live. *)
Class Storage (B : Type) := {
  sget : string -> B -> B * option StoredValue;
  sset : string -> StoredValue -> B -> B;
}.

(** The key-value pairs of the in-memory backend: each with the time at which it
    expires, if it does. The [n]th reading of [Date.now()] is [clock n]. *)
Record ExpiringBackend := { kv : jsmap (option Z * StoredValue); clock : nat -> Z; readings : nat }.

Definition EFFECT_TTL_MS : Z := 30 * 24 * 60 * 60000.

(** [entry.expiresAt && entry.expiresAt <= Date.now()]: a pair without a time, or
    with the time zero, is read without the clock. *)
Definition expiring_get (key : string) (b : ExpiringBackend) : ExpiringBackend * option StoredValue :=
  match mget (kv b) key with
  | None => (b, None)
  | Some (None, v) => (b, Some v)
  | Some (Some t, v) =>
      if (t =? 0)%Z then (b, Some v)
      else if (t <=? clock b (readings b))%Z then ({| kv := mdel key (kv b); clock := clock b; readings := S (readings b) |}, None)
      else ({| kv := kv b; clock := clock b; readings := S (readings b) |}, Some v)
  end.

Definition expiring_set (ttlMs : Z) (key : string) (value : StoredValue) (b : ExpiringBackend) : ExpiringBackend :=
  if (0 <? ttlMs)%Z then {| kv := mset key (Some (clock b (readings b) + ttlMs)%Z, value) (kv b); clock := clock b; readings := S (readings b) |}
  else {| kv := mset key (None, value) (kv b); clock := clock b; readings := readings b |}.

Definition expiring_storage (ttlMs : Z) : Storage ExpiringBackend := {| sget := expiring_get; sset := expiring_set ttlMs |}.

(** Pairs that do not expire. *)
Abbreviation Backend := (jsmap StoredValue).

#[export] Instance plain_storage : Storage Backend := {| sget key b := (b, mget b key); sset key value b := mset key value b |}.

Definition with_version (v : option string) (r : EffectRecord) : EffectRecord := {|
  er_version := v; er_id := er_id r; er_idempotencyKey := er_idempotencyKey r; er_toolCallId := er_toolCallId r; er_toolName := er_toolName r;
  er_args := er_args r; er_scope := er_scope r; er_kind := er_kind r; er_effectClass := er_effectClass r; er_status := er_status r;
  er_createdAt := er_createdAt r; er_updatedAt := er_updatedAt r; er_intentSummary := er_intentSummary r; er_targets := er_targets r;
  er_attempts := er_attempts r; er_approval := er_approval r; er_preExecutionSnapshots := er_preExecutionSnapshots r;
  er_postExecutionSnapshots := er_postExecutionSnapshots r; er_result := er_result r; er_compensation := er_compensation r; er_metadata := er_metadata r |}.

(** The migrated flag and the record; the required fields are those of the type. *)
Definition migrateEffectRecord (r : EffectRecord) : result string (bool * EffectRecord) :=
  match er_version r with
  | None => Ok (true, with_version (Some "v1") r)
  | Some v => if String.eqb v "v1" then Ok (false, with_version (Some "v1") r) else Err ("Unsupported EffectRecord schema version: " +:+ v +:+ ". Supported versions: v1")
  end.

Section storage.
Context {B : Type} `{Storage B}.

Definition appendIndex (key id : string) (b : B) : B :=
  let '(b, v) := sget key b in
  let existing := match v with Some (VIndex l) => l | _ => [] end in
  if has existing id then b else sset key (VIndex (existing ++ [id])%list) b.

(** The three writes of [save], in their order. *)
Definition saveMigrated (r : EffectRecord) (b : B) : B :=
  let b := sset (effectKey (er_id r)) (VRecord r) b in
  let b := sset (idempotencyKey (er_idempotencyKey r)) (VId (er_id r)) b in
  let b := appendIndex (sessionIndexKey (es_sessionId (er_scope r))) (er_id r) b in
  let b := match nonEmpty (es_runId (er_scope r)) with Some run => appendIndex (runIndexKey run) (er_id r) b | None => b end in
  match nonEmpty (es_pipelineId (er_scope r)) with Some p => appendIndex (pipelineIndexKey p) (er_id r) b | None => b end.

(** The ledger's operations thread the backend; a rejected record is an error. *)
Definition Ledger (A : Type) : Type := ST B string A.

Definition save (r : EffectRecord) : Ledger unit := fun b =>
  match migrateEffectRecord r with Err e => (b, Err e) | Ok (_, r) => (saveMigrated r b, Ok tt) end.

(** [assertObjectRecord] on a value that is no record. *)
Definition noObject : string := "Unsupported EffectRecord schema version: invalid. Supported versions:  (expected an object record)".

Definition get (id : string) : Ledger (option EffectRecord) := fun b =>
  match sget (effectKey id) b with
  | (b, Some (VRecord r)) =>
      match migrateEffectRecord r with
      | Err e => (b, Err e)
      | Ok (true, r) => (saveMigrated r b, Ok (Some r))
      | Ok (false, r) => (b, Ok (Some r))
      end
  | (b, Some (VId t)) => (b, if isEmpty t then Ok None else Err noObject)
  | (b, Some (VIndex _)) => (b, Err noObject)
  | (b, None) => (b, Ok None)
  end.

(** Under this key only ids are stored, as long as no effect id starts with "idempotency:". *)
Definition getByIdempotencyKey (k : string) : Ledger (option EffectRecord) := fun b =>
  match sget (idempotencyKey k) b with
  | (b, Some (VId id)) => if isEmpty id then (b, Ok None) else get id b
  | (b, _) => (b, Ok None)
  end.

(** The records of the ids, without the unknown ones. *)
Fixpoint getAll (ids : list string) : Ledger (list EffectRecord) := fun b =>
  match ids with
  | [] => (b, Ok [])
  | id :: rest =>
      match get id b with
      | (b, Err e) => (b, Err e)
      | (b, Ok r) =>
          match getAll rest b with
          | (b, Ok l) => (b, Ok (match r with Some r => r :: l | None => l end))
          | (b, Err e) => (b, Err e)
          end
      end
  end.

(** [ids.slice(-limit)]. *)
Definition lastIds (limit : option Z) (ids : list string) : list string :=
  match limit with Some n => if (0 <? n)%Z then drop (length ids - Z.to_nat n) ids else ids | None => ids end.

Definition sortByUpdate (l : list EffectRecord) : list EffectRecord := sort_by (fun a b => Z.compare (er_updatedAt a) (er_updatedAt b)) l.

Definition listFromIndex (key : string) (limit : option Z) : Ledger (list EffectRecord) := fun b =>
  match sget key b with
  | (b, Some (VIndex ids)) => match getAll (lastIds limit ids) b with (b, Ok l) => (b, Ok (sortByUpdate l)) | r => r end
  | (b, _) => (b, Ok [])
  end.

Definition listBySession (id : string) (limit : option Z) : Ledger (list EffectRecord) := listFromIndex (sessionIndexKey id) limit.
Definition listByRun (id : string) (limit : option Z) : Ledger (list EffectRecord) := listFromIndex (runIndexKey id) limit.
Definition listByPipeline (id : string) (limit : option Z) : Ledger (list EffectRecord) := listFromIndex (pipelineIndexKey id) limit.

(** ** The ledger (effect-ledger.ts) *)

Definition initialStatus (requiresApproval : bool) : EffectStatus := if requiresApproval then pending_approval else intent_recorded.

Definition newAttempt (attempt : nat) (now : Z) (status : EffectStatus) : EffectAttemptRecord := {|
  at_attempt := attempt; at_recordedAt := now; at_startedAt := None; at_completedAt := None; at_status := status; at_error := None; at_durationMs := None;
  at_resultSnippet := None |}.

Definition someSnapshots (s : option (list EffectFilesystemSnapshot)) : option (list EffectFilesystemSnapshot) :=
  match s with Some (_ :: _) => s | _ => None end.

Definition createInitialEffectRecord (i : EffectRecordInput) : EffectRecord :=
  let status := initialStatus (ei_requiresApproval i) in {|
  er_version := Some "v1"; er_id := ei_id i; er_idempotencyKey := ei_idempotencyKey i; er_toolCallId := ei_toolCallId i; er_toolName := ei_toolName i;
  er_args := ei_args i; er_scope := ei_scope i; er_kind := ei_kind i; er_effectClass := ei_effectClass i; er_status := status;
  er_createdAt := ei_createdAt i; er_updatedAt := ei_createdAt i; er_intentSummary := ei_intentSummary i; er_targets := ei_targets i;
  er_attempts := [newAttempt 1 (ei_createdAt i) status]; er_approval := None; er_preExecutionSnapshots := someSnapshots (ei_preExecutionSnapshots i);
  er_postExecutionSnapshots := None; er_result := None; er_compensation := noCompensation; er_metadata := ei_metadata i |}.

(** A record with another status, time, list of attempts, approval, result, snapshots and compensation. *)
Definition with_progress (status : EffectStatus) (updatedAt : Z) (attempts : list EffectAttemptRecord) (approval : option EffectApprovalRef)
    (post : option (list EffectFilesystemSnapshot)) (res : option EffectResultSummary) (compensation : EffectCompensationState) (r : EffectRecord) : EffectRecord := {|
  er_version := er_version r; er_id := er_id r; er_idempotencyKey := er_idempotencyKey r; er_toolCallId := er_toolCallId r; er_toolName := er_toolName r;
  er_args := er_args r; er_scope := er_scope r; er_kind := er_kind r; er_effectClass := er_effectClass r; er_status := status;
  er_createdAt := er_createdAt r; er_updatedAt := updatedAt; er_intentSummary := er_intentSummary r; er_targets := er_targets r;
  er_attempts := attempts; er_approval := approval; er_preExecutionSnapshots := er_preExecutionSnapshots r; er_postExecutionSnapshots := post;
  er_result := res; er_compensation := compensation; er_metadata := er_metadata r |}.

Definition appendEffectAttempt (r : EffectRecord) (now : Z) (status : EffectStatus) : EffectRecord :=
  with_progress status now (er_attempts r ++ [newAttempt (S (length (er_attempts r))) now status])%list (er_approval r) (er_postExecutionSnapshots r) (er_result r)
    (er_compensation r) r.

(** A further attempt of a recorded effect. *)
Definition mergeAttempt (existing : EffectRecord) (i : EffectRecordInput) : EffectRecord :=
  let updated := appendEffectAttempt existing (ei_createdAt i) (initialStatus (ei_requiresApproval i)) in {|
  er_version := er_version updated; er_id := er_id updated; er_idempotencyKey := er_idempotencyKey updated; er_toolCallId := ei_toolCallId i;
  er_toolName := er_toolName updated; er_args := ei_args i; er_scope := ei_scope i; er_kind := ei_kind i; er_effectClass := ei_effectClass i;
  er_status := er_status updated; er_createdAt := er_createdAt updated; er_updatedAt := ei_createdAt i; er_intentSummary := ei_intentSummary i;
  er_targets := ei_targets i; er_attempts := er_attempts updated; er_approval := None;
  er_preExecutionSnapshots := orElse (someSnapshots (ei_preExecutionSnapshots i)) (er_preExecutionSnapshots updated); er_postExecutionSnapshots := None;
  er_result := None; er_compensation := noCompensation; er_metadata := orElse (ei_metadata i) (er_metadata updated) |}.

Definition beginEffect (i : EffectRecordInput) : Ledger EffectRecord := fun b =>
  match getByIdempotencyKey (ei_idempotencyKey i) b with
  | (b, Err e) => (b, Err e)
  | (b, Ok existing) =>
      let r := match existing with None => createInitialEffectRecord i | Some existing => mergeAttempt existing i end in
      match save r b with (b, Ok _) => (b, Ok r) | (b, Err e) => (b, Err e) end
  end.

(** [mutate]. *)
Definition mutate (id : string) (f : EffectRecord -> EffectRecord) : Ledger (option EffectRecord) := fun b =>
  match get id b with
  | (b, Ok (Some current)) => match save (f current) b with (b, Ok _) => (b, Ok (Some (f current))) | (b, Err e) => (b, Err e) end
  | r => r
  end.

(** The last attempt changed. *)
Fixpoint onLast (f : EffectAttemptRecord -> EffectAttemptRecord) (l : list EffectAttemptRecord) : list EffectAttemptRecord :=
  match l with [] => [] | [a] => [f a] | a :: rest => a :: onLast f rest end.

Definition with_attempt (status : EffectStatus) (startedAt completedAt : option Z) (error : option string) (durationMs : option Z) (snippet : option string)
    (a : EffectAttemptRecord) : EffectAttemptRecord := {|
  at_attempt := at_attempt a; at_recordedAt := at_recordedAt a; at_startedAt := startedAt; at_completedAt := completedAt; at_status := status; at_error := error;
  at_durationMs := durationMs; at_resultSnippet := snippet |}.

Definition noApproval : EffectApprovalRef := {|
  ea_requestId := None; ea_disposition := None; ea_requestedAt := None; ea_resolvedAt := None; ea_approvedBy := None; ea_resolverSessionId := None;
  ea_resolverRoles := None |}.

Section clock.
Context (now : Z).

Definition recordApprovalRequested (id requestId : string) : Ledger (option EffectRecord) :=
  mutate id (fun r =>
    let old := default noApproval (er_approval r) in
    let approval := {| ea_requestId := Some requestId; ea_disposition := ea_disposition old; ea_requestedAt := Some now; ea_resolvedAt := ea_resolvedAt old;
      ea_approvedBy := ea_approvedBy old; ea_resolverSessionId := ea_resolverSessionId old; ea_resolverRoles := ea_resolverRoles old |} in
    with_progress pending_approval now
      (onLast (fun a => with_attempt pending_approval (at_startedAt a) (at_completedAt a) (at_error a) (at_durationMs a) (at_resultSnippet a) a) (er_attempts r))
      (Some approval) (er_postExecutionSnapshots r) (er_result r) (er_compensation r) r).

Definition approvedBy (d : ApprovalDisposition) : bool := match d with no => false | _ => true end.

Definition recordApprovalResolved (id : string) (response : ApprovalResponse) : Ledger (option EffectRecord) :=
  mutate id (fun r =>
    let approved := approvedBy (rs_disposition response) in
    let status := if approved then effect_approved else effect_denied in
    let old := default noApproval (er_approval r) in
    let resolver := rs_resolver response in
    let approval := {| ea_requestId := ea_requestId old; ea_disposition := Some (rs_disposition response); ea_requestedAt := ea_requestedAt old;
      ea_resolvedAt := Some (from_option rv_resolvedAt now resolver); ea_approvedBy := rs_approvedBy response;
      ea_resolverSessionId := resolver ≫= rv_sessionId; ea_resolverRoles := resolver ≫= rv_roles |} in
    with_progress status now
      (onLast (fun a => with_attempt status (at_startedAt a) (if approved then at_completedAt a else Some now)
        (if approved then at_error a else Some "Effect denied by approval policy.") (at_durationMs a) (at_resultSnippet a) a) (er_attempts r))
      (Some approval) (er_postExecutionSnapshots r) (er_result r) (er_compensation r) r).

Definition markDenied (id reason : string) : Ledger (option EffectRecord) :=
  mutate id (fun r => with_progress effect_denied now
    (onLast (fun a => with_attempt effect_denied (at_startedAt a) (Some now) (Some reason) (at_durationMs a) (at_resultSnippet a) a) (er_attempts r))
    (er_approval r) (er_postExecutionSnapshots r) (er_result r) (er_compensation r) r).

Definition markExecuting (id : string) : Ledger (option EffectRecord) :=
  mutate id (fun r => with_progress executing now
    (onLast (fun a => with_attempt executing (Some (default now (at_startedAt a))) (at_completedAt a) (at_error a) (at_durationMs a) (at_resultSnippet a) a) (er_attempts r))
    (er_approval r) (er_postExecutionSnapshots r) (er_result r) (er_compensation r) r).

Record Outcome := {
  oc_success : bool;
  oc_isError : bool;
  oc_durationMs : option Z;
  oc_result : string;
  oc_error : option string;
  oc_postExecutionSnapshots : option (list EffectFilesystemSnapshot);
  oc_compensation : option EffectCompensationState;
  oc_observedMutationsUnknown : bool;
}.

Definition recordOutcome (id : string) (o : Outcome) : Ledger (option EffectRecord) :=
  mutate id (fun r =>
    let status := if oc_success o then succeeded else effect_failed in
    let snippet := summarizeToolResult (oc_result o) 400 in
    let summary := {| re_success := oc_success o; re_isError := oc_isError o; re_completedAt := now; re_durationMs := oc_durationMs o;
      re_resultSnippet := Some snippet; re_observedMutationsUnknown := oc_observedMutationsUnknown o; re_error := nonEmpty (oc_error o) |} in
    with_progress status now
      (onLast (fun a => with_attempt status (at_startedAt a) (Some now) (orElse (nonEmpty (oc_error o)) (at_error a)) (orElse (oc_durationMs o) (at_durationMs a))
        (Some snippet) a) (er_attempts r))
      (er_approval r) (orElse (oc_postExecutionSnapshots o) (er_postExecutionSnapshots r)) (Some summary) (default (er_compensation r) (oc_compensation o)) r).

Section compensate.
Context {FS : Type} `{FileSystem FS} (utf8Bytes unbase64 : string -> string).

Definition compensateEffect (id : string) (toolHandler : option ToolHandler) (fs : FS) : B -> FS * (B * result string (option EffectRecord)) := fun b =>
  match get id b with
  | (b, Ok (Some record)) =>
      let '(fs, error) := executeCompensation utf8Bytes unbase64 fs record toolHandler in
      (fs, mutate id (fun r =>
        let c := er_compensation r in
        let compensation := {| cs_status := match error with None => compensation_completed | Some _ => compensation_status_failed end; cs_actions := cs_actions c;
          cs_lastAttemptAt := Some now; cs_lastError := orElse (nonEmpty error) (cs_lastError c) |} in
        with_progress (match error with None => compensated | Some _ => compensation_failed end) now (er_attempts r) (er_approval r) (er_postExecutionSnapshots r)
          (er_result r) compensation r) b)
  | r => (fs, r)
  end.
End compensate.
End clock.
End storage.
