(* ===== verification/EffectLedgerSpec.v ===== *)
(** * Effect ledger: compensation undoes an effect, and every attempt is on record *)
From Stdlib Require Import Ascii.
From stdpp Require Import pretty.
From S2P Require Import Prelude JsMap JsString Approvals PolicyTypes ToolGovernance Kernel EffectLedger.
#[local] Open Scope string_scope.

(** ** File systems *)

Definition entryOf {FS} `{FileSystem FS} (fs : FS) (q : string) : option FsEntry := match fs_lstat fs q with Ok k => Some k | Err _ => None end.

(** Nothing changed at the path. *)
Definition same {FS} `{FileSystem FS} (fs fs' : FS) (q : string) : Prop := entryOf fs' q = entryOf fs q /\ fs_readFile fs' q = fs_readFile fs q.

(** What a function of node:fs has done when it succeeds. *)
Class FileSystemLaws (FS : Type) `{FileSystem FS} := {
  missing_law fs q : entryOf fs q = None -> fs_readFile fs q = None;
  write_law fs p c fs' : fs_writeFile fs p c = Ok fs' -> entryOf fs' p = Some EFile /\ fs_readFile fs' p = Some c /\ forall q, q <> p -> same fs fs' q;
  mkdir_law fs d fs' : entryOf fs d = Some EDirectory -> fs_mkdir fs d = Ok fs' -> forall q, same fs fs' q;
  rm_law fs p fs' : entryOf fs p = Some EFile \/ (entryOf fs p = Some EDirectory /\ fs_readdir fs p = Ok []) -> fs_rm fs p = Ok fs' ->
    entryOf fs' p = None /\ forall q, q <> p -> same fs fs' q;
  rename_law fs s d fs' : entryOf fs s = Some EFile -> entryOf fs d = None -> fs_rename fs s d = Ok fs' ->
    entryOf fs' s = None /\ entryOf fs' d = Some EFile /\ fs_readFile fs' d = fs_readFile fs s /\ forall q, q <> s -> q <> d -> same fs fs' q;
}.

Section compensation.
Context {FS : Type} `{FileSystemLaws FS}.
Context (sha256 utf8 utf8Bytes base64 unbase64 : string -> string).
Hypothesis base64_law : forall b, unbase64 (base64 b) = b.
Hypothesis empty_laws : utf8Bytes "" = "" /\ unbase64 "" = "".
Implicit Types (fs : FS) (p q : string) (args : Args).

Notation capture := (captureFilesystemSnapshot sha256 utf8 utf8Bytes base64).
Notation capturePre := (capturePreExecutionSnapshots sha256 utf8 utf8Bytes base64).
Notation execute := (executeCompensation utf8Bytes unbase64).

(** The directory of the path is there. *)
Definition inDirectory fs p : Prop := directoryOf p = "" \/ entryOf fs (directoryOf p) = Some EDirectory.

(** A small file that is not empty. *)
Definition smallFile fs p : Prop := entryOf fs p = Some EFile /\ (fs_size fs p <= MAX_SNAPSHOT_BYTES)%Z /\ exists c, fs_readFile fs p = Some c /\ c <> "".

Definition onlyAt fs fs1 p : Prop := forall q, q <> p -> same fs fs1 q.

(** What the tools do to the file system, when a compensation exists. *)
Inductive touched fs fs1 args : string -> Prop :=
| file_created tool p : tool ∈ ["system.writeFile"; "desktop.text_editor"; "system.appendFile"] -> argText args "path" = Some p ->
    entryOf fs p = None -> entryOf fs1 p = Some EFile -> onlyAt fs fs1 p -> touched fs fs1 args tool
| file_changed tool p : tool ∈ ["system.writeFile"; "desktop.text_editor"; "system.appendFile"; "system.delete"] -> argText args "path" = Some p ->
    smallFile fs p -> onlyAt fs fs1 p -> inDirectory fs1 p -> touched fs fs1 args tool
| directory_created p : argText args "path" = Some p ->
    entryOf fs p = None -> entryOf fs1 p = Some EDirectory -> fs_readdir fs1 p = Ok [] -> fs_readFile fs1 p = None -> onlyAt fs fs1 p -> touched fs fs1 args "system.mkdir"
| file_moved s d : argText args "source" = Some s -> argText args "destination" = Some d -> s <> d -> entryOf fs s = Some EFile -> entryOf fs d = None ->
    entryOf fs1 s = None -> entryOf fs1 d = Some EFile -> fs_readFile fs1 d = fs_readFile fs s -> (forall q, q <> s -> q <> d -> same fs fs1 q) -> inDirectory fs1 s ->
    touched fs fs1 args "system.move".

(** The host refused a call, with this message. *)
Inductive refusedBy (e : string) : Prop :=
| mkdir_refused fs d : fs_mkdir fs d = Err e -> refusedBy e
| write_refused fs p c : fs_writeFile fs p c = Err e -> refusedBy e
| rename_refused fs s d : fs_rename fs s d = Err e -> refusedBy e
| rm_refused fs p : fs_rm fs p = Err e -> refusedBy e.

Lemma same_trans fs fs1 fs2 q : same fs fs1 q -> same fs1 fs2 q -> same fs fs2 q.
Proof. intros [H1 H2] [H3 H4]. split; congruence. Qed.

Lemma argText_nonempty args k p : argText args k = Some p -> nonEmpty (Some p) = Some p.
Proof. unfold argText, textOf. destruct (argShape args k); try done. destruct (isEmpty (trim s)) eqn:He; [done|]. intros [= <-]. cbn. by rewrite He. Qed.

Lemma capture_path fs p : sn_path (capture fs p) = p.
Proof. unfold captureFilesystemSnapshot. destruct (fs_lstat fs p) as [[]|]; try done. destruct (_ <=? _)%Z; [|done]. by destruct (fs_readFile fs p). Qed.

Lemma snapshotOf_one s : snapshotOf [s] (sn_path s) = Some s.
Proof. unfold snapshotOf, mof. cbn. by rewrite String.eqb_refl. Qed.

Lemma snapshotOf_capture fs p : snapshotOf [capture fs p] p = Some (capture fs p).
Proof. rewrite <- (capture_path fs p) at 2. apply snapshotOf_one. Qed.

Lemma capture_missing fs p : entryOf fs p = None -> sn_entryType (capture fs p) = entry_missing.
Proof. unfold entryOf, captureFilesystemSnapshot. by destruct (fs_lstat fs p) as [[]|]. Qed.

(** The bytes that [executeCompensationAction] writes back. *)
Definition payloadOf (s : EffectFilesystemSnapshot) : option string :=
  match nonEmpty (sn_utf8Text s) with Some t => Some (utf8Bytes t) | None => match nonEmpty (sn_base64 s) with Some t => Some (unbase64 t) | None => None end end.

Lemma capture_small fs p : smallFile fs p -> exists c, fs_readFile fs p = Some c /\ sn_entryType (capture fs p) = entry_file /\
  payloadOf (capture fs p) = Some c /\ (sn_utf8Text (capture fs p) <> None \/ sn_base64 (capture fs p) <> None).
Proof.
  destruct empty_laws as [E1 E2]. intros (He & Hs & c & Hr & Hc). exists c. split; [done|]. unfold entryOf in He. unfold captureFilesystemSnapshot.
  destruct (fs_lstat fs p) as [k|]; [|done]. injection He as ->. rewrite (proj2 (Z.leb_le _ _) Hs), Hr. split; [done|]. unfold payloadOf. cbn.
  destruct (isUtf8Content utf8 utf8Bytes c) eqn:Hu; cbn.
  - apply String.eqb_eq in Hu. split; [|by left]. destruct (isEmpty (utf8 c)) eqn:Hi; [|by rewrite Hu]. destruct (utf8 c); [congruence|done].
  - split; [|by right]. destruct (isEmpty (base64 c)) eqn:Hi; [|by rewrite base64_law]. pose proof (base64_law c) as Hb. destruct (base64 c); [congruence|done].
Qed.

Lemma mkdir_same fs p : inDirectory fs p -> match mkdirForFile fs p with Ok fs' => forall q, same fs fs' q | Err e => refusedBy e end.
Proof.
  intros Hd. unfold mkdirForFile. destruct (isEmpty (directoryOf p)) eqn:He; [by split|]. destruct Hd as [Hd|Hd]; [by rewrite Hd in He|].
  destruct (fs_mkdir fs (directoryOf p)) as [fs'|e] eqn:Hm; [by eapply mkdir_law|by eapply mkdir_refused].
Qed.

(** Undone, or refused by the host. *)
Definition undone fs (r : FS * option string) : Prop := match r with (fs2, None) => forall q, same fs fs2 q | (_, Some e) => refusedBy e end.

Lemma restore_undoes fs fs1 p a th : smallFile fs p -> onlyAt fs fs1 p -> inDirectory fs1 p -> ca_kind a = restore_snapshot -> nonEmpty (ca_path a) = Some p ->
  ca_snapshot a = Some (capture fs p) -> undone fs (executeCompensationAction utf8Bytes unbase64 fs1 a th).
Proof.
  intros Hs Ho Hd Hk Hp Hsn. destruct (capture_small fs p Hs) as (c & Hr & _ & Hpay & _). unfold executeCompensationAction. rewrite Hk, Hp, Hsn. fold (payloadOf (capture fs p)). rewrite Hpay.
  pose proof (mkdir_same fs1 p Hd) as Hm. destruct (mkdirForFile fs1 p) as [fs'|e]; [|done]. destruct (fs_writeFile fs' p c) as [fs2|e] eqn:Hw; [|by eapply write_refused].
  destruct (write_law _ _ _ _ Hw) as (W1 & W2 & W3). intros q. destruct (decide (q = p)) as [->|Hq].
  - split; [rewrite W1; symmetry; apply Hs|by rewrite W2, Hr].
  - eapply same_trans; [by apply Ho|]. eapply same_trans; [apply Hm|by apply W3].
Qed.

Lemma delete_undoes fs fs1 p a th : entryOf fs p = None -> (entryOf fs1 p = Some EFile \/ (entryOf fs1 p = Some EDirectory /\ fs_readdir fs1 p = Ok [])) -> onlyAt fs fs1 p ->
  ca_kind a = delete_created_path -> nonEmpty (ca_path a) = Some p -> undone fs (executeCompensationAction utf8Bytes unbase64 fs1 a th).
Proof.
  intros Hn H1 Ho Hk Hp. unfold executeCompensationAction. rewrite Hk, Hp. unfold removePathIfSafe.
  assert (Hsafe : (kind ← fs_lstat fs1 p; match kind with EDirectory => children ← fs_readdir fs1 p; match children with [] => Ok tt | _ => Err ("Refusing to compensate by deleting non-empty directory " +:+ dq p +:+ ".") end | _ => Ok tt end) = Ok tt).
  { unfold entryOf in H1. destruct (fs_lstat fs1 p) as [k|]; [|by destruct H1 as [|[]]]. destruct H1 as [[= ->]|[[= ->] Hc]]; [done|]. cbn. by rewrite Hc. }
  rewrite Hsafe. destruct (fs_rm fs1 p) as [fs2|e] eqn:Hr; [|by eapply rm_refused]. destruct (rm_law _ _ _ H1 Hr) as [R1 R2]. intros q. destruct (decide (q = p)) as [->|Hq].
  - split; [by rewrite R1, Hn|]. by rewrite !missing_law.
  - eapply same_trans; [by apply Ho|by apply R2].
Qed.

Lemma executeActions_one fs a th : ca_supported a = true -> executeActions utf8Bytes unbase64 fs [a] th = executeCompensationAction utf8Bytes unbase64 fs a th.
Proof. intros Hs. cbn [executeActions]. rewrite Hs. cbn [negb]. by destruct (executeCompensationAction _ _ _ _ _) as [fs' [e|]]. Qed.

Lemma build_one args k pre res id a : compensationActions args k pre res id = [a] -> ca_supported a = true ->
  cs_status (buildCompensationState args k pre res id) = available /\ cs_actions (buildCompensationState args k pre res id) = [a].
Proof. intros Ha Hs. unfold buildCompensationState. rewrite Ha. cbn. by rewrite Hs. Qed.

Lemma execute_one fs r a th : cs_actions (er_compensation r) = [a] -> ca_supported a = true ->
  execute fs r th = executeCompensationAction utf8Bytes unbase64 fs a th.
Proof. intros Ha Hs. unfold executeCompensation. rewrite Ha. by apply executeActions_one. Qed.

Lemma pre_path fs tool args p : has ["system.writeFile"; "system.appendFile"; "system.delete"; "system.mkdir"; "desktop.text_editor"] tool = true ->
  String.eqb tool "system.move" = false -> argText args "path" = Some p -> capturePre fs tool args = [capture fs p].
Proof. intros H1 H2 Hp. unfold capturePreExecutionSnapshots, extractSnapshotCandidatePaths. by rewrite H1, H2, Hp. Qed.

Ltac kind_of :=
  match goal with |- context [inferEffectKind ?t] => let k := eval vm_compute in (inferEffectKind t) in change (inferEffectKind t) with k end.

(** The action that is built, and that it undoes the effect. *)
Lemma touched_action fs fs1 args tool res id : touched fs fs1 args tool ->
  exists a, compensationActions args (inferEffectKind tool) (capturePre fs tool args) res id = [a] /\ ca_supported a = true /\
    forall th, undone fs (executeCompensationAction utf8Bytes unbase64 fs1 a th).
Proof.
  intros Ht. destruct Ht as [tool p Htool Hp Hmiss Hnow Ho|tool p Htool Hp Hs Ho Hd|p Hp Hmiss Hnow Hc Hr Ho|s d Hs Hd Hne E1 E2 E3 E4 E5 Ho Hin].
  - exists (deleteCreated id p). split; [|split; [done|]].
    + rewrite !elem_of_cons, elem_of_nil in Htool.
      destruct Htool as [->|[->|[->|[]]]]; (rewrite (pre_path fs _ args p); [|done..]); kind_of; unfold compensationActions;
        rewrite Hp, snapshotOf_capture, (capture_missing _ _ Hmiss); done.
    + intros th. eapply delete_undoes; [done|by left|done|done|]. by eapply argText_nonempty.
  - exists (restoreAction id p (capture fs p)). destruct (capture_small fs p Hs) as (c & Hr & Hf & Hpay & Hkept).
    assert (Hsup : ca_supported (restoreAction id p (capture fs p)) = true).
    { cbn. destruct (sn_utf8Text (capture fs p)), (sn_base64 (capture fs p)); try done. by destruct Hkept. }
    split; [|split; [done|]].
    + rewrite !elem_of_cons, elem_of_nil in Htool.
      destruct Htool as [->|[->|[->|[->|[]]]]]; (rewrite (pre_path fs _ args p); [|done..]); kind_of; unfold compensationActions;
        rewrite Hp, snapshotOf_capture, Hf; done.
    + intros th. eapply restore_undoes; try done. by eapply argText_nonempty.
  - exists (deleteCreated id p). split; [|split; [done|]].
    + rewrite (pre_path fs _ args p); [|done..]. kind_of. unfold compensationActions.
      rewrite Hp, snapshotOf_capture. cbn [isMissing]. by rewrite (capture_missing _ _ Hmiss).
    + intros th. eapply delete_undoes; [done|by right|done|done|]. by eapply argText_nonempty.
  - exists (on_move d s (action (effectActionId id "reverse-move") reverse_move true None)). split; [|split; [done|]].
    + assert (Hset : set_add [s] d = [s; d]) by (unfold set_add; cbn; by rewrite (proj2 (String.eqb_neq d s)) by congruence).
      assert (Hpre : capturePre fs "system.move" args = [capture fs s; capture fs d]).
      { unfold capturePreExecutionSnapshots, extractSnapshotCandidatePaths. rewrite Hs, Hd. change (set_add _ s) with [s]. by rewrite Hset. }
      rewrite Hpre. kind_of. unfold compensationActions. rewrite Hs, Hd.
      assert (Hsn : snapshotOf [capture fs s; capture fs d] d = Some (capture fs d)).
      { unfold snapshotOf, mof. cbn. rewrite !capture_path. rewrite (proj2 (String.eqb_neq d s)) by congruence. cbn. rewrite (proj2 (String.eqb_neq d s)) by congruence. by rewrite String.eqb_refl. }
      rewrite Hsn. cbn [isMissing]. by rewrite (capture_missing _ _ E2).
    + intros th. unfold executeCompensationAction. cbn [ca_kind on_move action ca_sourcePath ca_destinationPath].
      rewrite (argText_nonempty _ _ _ Hd), (argText_nonempty _ _ _ Hs). pose proof (mkdir_same fs1 s Hin) as Hm. destruct (mkdirForFile fs1 s) as [fs'|e]; [|done].
      destruct (fs_rename fs' d s) as [fs2|e] eqn:Hrn; [|by eapply rename_refused]. destruct (Hm s) as [M1 _], (Hm d) as [M2 M3].
      destruct (rename_law fs' d s fs2) as (R1 & R2 & R3 & R4); [by rewrite M2|by rewrite M1|done|]. intros q.
      destruct (decide (q = s)) as [->|Hqs]; [split; [by rewrite R2, E1|congruence]|]. destruct (decide (q = d)) as [->|Hqd].
      * split; [by rewrite R1, E2|]. by rewrite !missing_law.
      * eapply same_trans; [by apply Ho|]. eapply same_trans; [apply Hm|by apply R4].
Qed.

(** C23. With base64 decoding what it encodes, and a file system that does what
    its calls say unless it refuses them, compensation undoes these effects, of a
    tool that touched no other path:
    a file written or appended to where there was nothing; a file changed or
    deleted that was not empty and had at most 256 KiB, in a directory that is
    still there; an empty directory made where there was nothing; a file moved
    to where there was nothing, out of a directory that is still there. With the
    snapshots taken before the tool ran a compensation is then available, and
    executing it leaves every path as it was before the tool, or reports the
    error with which the host refused a step. (Empty files, larger files and
    moves onto a file are not undone.) *)
Theorem compensation_undoes fs fs1 tool args res id r th : touched fs fs1 args tool ->
  er_compensation r = buildCompensationState args (inferEffectKind tool) (capturePre fs tool args) res id ->
  cs_status (er_compensation r) = available /\ undone fs (execute fs1 r th).
Proof.
  intros Ht Hr. destruct (touched_action fs fs1 args tool res id Ht) as (a & Ha & Hs & Hu). destruct (build_one _ _ _ _ _ _ Ha Hs) as [Hst Hact]. rewrite <- Hr in Hst, Hact.
  split; [done|]. by rewrite (execute_one _ _ _ _ Hact Hs).
Qed.
End compensation.

(** ** Keys of the backend *)

Definition plainId (id : string) : Prop := id <> "" /\ forall s, id <> "idempotency:" +:+ s /\ id <> "index:" +:+ s.

Lemma effectKey_inj i j : effectKey i = effectKey j -> i = j.
Proof. intros He. by apply (inj (String.append EFFECT_KEY_PREFIX)) in He. Qed.

Lemma idempotencyKey_inj i j : idempotencyKey i = idempotencyKey j -> i = j.
Proof. intros He. by apply (inj (String.append EFFECT_IDEMPOTENCY_KEY_PREFIX)) in He. Qed.

Lemma effect_not_idempotency id k : plainId id -> effectKey id <> idempotencyKey k.
Proof. intros [_ Hp] He. apply (proj1 (Hp k)). by apply (inj (String.append EFFECT_KEY_PREFIX)). Qed.

(** A key of one of the three indices. *)
Definition indexKey (k : string) : Prop := exists s, k = EFFECT_KEY_PREFIX +:+ "index:" +:+ s.

Lemma indexKeys s : indexKey (sessionIndexKey s) /\ indexKey (runIndexKey s) /\ indexKey (pipelineIndexKey s).
Proof. split_and!; [exists ("session:" +:+ s)|exists ("run:" +:+ s)|exists ("pipeline:" +:+ s)]; done. Qed.

Lemma effect_not_index id k : plainId id -> indexKey k -> effectKey id <> k.
Proof. intros [_ Hp] [s ->] He. apply (proj2 (Hp s)). by apply (inj (String.append EFFECT_KEY_PREFIX)). Qed.

Lemma idempotency_not_index i k : indexKey k -> idempotencyKey i <> k.
Proof. intros [s ->]. discriminate. Qed.

(** ** Saving a record *)

Lemma appendIndex_spec key id b k : indexKey key ->
  mget (appendIndex key id b) k = mget b k \/ (k = key /\ exists l, mget (appendIndex key id b) k = Some (VIndex l)).
Proof.
  intros _. unfold appendIndex; cbn [sget sset plain_storage]. set (l := match mget b key with Some (VIndex l) => l | _ => [] end). destruct (has l id); [by left|].
  rewrite mget_mset. destruct (String.eqb_spec k key) as [->|]; [right; split; [done|by eexists]|by left].
Qed.

Lemma appendIndex_keeps key id b k : indexKey key -> ~ indexKey k -> mget (appendIndex key id b) k = mget b k.
Proof. intros Hk Hn. destruct (appendIndex_spec key id b k Hk) as [?|[-> _]]; done. Qed.

(** The id is in the index. *)
Definition listed (b : Backend) (key id : string) : Prop := exists l, mget b key = Some (VIndex l) /\ id ∈ l.

Lemma appendIndex_lists key id b key' id' : (forall v, mget b key = Some v -> exists l, v = VIndex l) ->
  listed (appendIndex key id b) key' id' <-> listed b key' id' \/ (key' = key /\ id' = id).
Proof.
  intros Hv. unfold appendIndex, listed; cbn [sget sset plain_storage]. set (l := match mget b key with Some (VIndex l) => l | _ => [] end).
  assert (Hl : forall x, x ∈ l <-> exists l', mget b key = Some (VIndex l') /\ x ∈ l').
  { intros x. unfold l. destruct (mget b key) as [v|]; [destruct (Hv v eq_refl) as [l' ->]|]; [split; [intros ?; by exists l'|intros (l2 & [= ->] & ?); done]|].
    split; [by intros ?%elem_of_nil|by intros (l' & ? & _)]. }
  destruct (has l id) eqn:Hh.
  - apply has_true in Hh. split; [by left|intros [?|[-> ->]]; [done|by apply Hl]].
  - rewrite mget_mset. destruct (String.eqb_spec key' key) as [->|]; [|naive_solver]. split.
    + intros (l' & [= <-] & [Hx|Hx]%elem_of_app); [left; by apply Hl|right]. by apply list_elem_of_singleton in Hx.
    + intros [Hx|[_ ->]]; eexists; (split; [done|]); apply elem_of_app; [left; by apply Hl|right; by left].
Qed.

(** Every index is a list of ids. *)
Definition indexed (b : Backend) : Prop := forall k v, indexKey k -> mget b k = Some v -> exists l, v = VIndex l.

Lemma appendIndex_indexed key id b : indexKey key -> indexed b -> indexed (appendIndex key id b).
Proof. intros Hk Hi k v Hk' Hm. destruct (appendIndex_spec key id b k Hk) as [He|[-> [l Hl]]]; [rewrite He in Hm; by eapply Hi|]. rewrite Hl in Hm. injection Hm as <-. by exists l. Qed.

(** The indices of a record. *)
Definition keysOf (s : EffectScope) : list string :=
  sessionIndexKey (es_sessionId s) :: (match nonEmpty (es_runId s) with Some r => [runIndexKey r] | None => [] end)
    ++ (match nonEmpty (es_pipelineId s) with Some p => [pipelineIndexKey p] | None => [] end).

Lemma keysOf_index s k : k ∈ keysOf s -> indexKey k.
Proof.
  unfold keysOf. rewrite elem_of_cons, elem_of_app. intros [->|[Hk|Hk]]; [apply indexKeys| |]; case_match; try (by apply elem_of_nil in Hk);
    apply list_elem_of_singleton in Hk as ->; apply indexKeys.
Qed.

Lemma saveMigrated_fold r b : saveMigrated r b =
  foldl (fun b k => appendIndex k (er_id r) b) (mset (idempotencyKey (er_idempotencyKey r)) (VId (er_id r)) (mset (effectKey (er_id r)) (VRecord r) b)) (keysOf (er_scope r)).
Proof. unfold saveMigrated, keysOf. cbn [foldl sget sset plain_storage]. rewrite foldl_app. by destruct (nonEmpty (es_runId _)), (nonEmpty (es_pipelineId _)). Qed.

Lemma appendAll_keeps keys id k : (forall key, key ∈ keys -> indexKey key) -> ~ indexKey k -> forall b, mget (foldl (fun b key => appendIndex key id b) b keys) k = mget b k.
Proof.
  intros Hk Hn. induction keys as [|key keys IH]; intros b; [done|]. cbn [foldl]. rewrite IH; [|intros; apply Hk; by right]. apply appendIndex_keeps; [|done]. apply Hk. by left.
Qed.

Lemma appendAll_lists keys id : (forall key, key ∈ keys -> indexKey key) -> forall b, indexed b ->
  indexed (foldl (fun b key => appendIndex key id b) b keys) /\
  forall key' id', listed (foldl (fun b key => appendIndex key id b) b keys) key' id' <-> listed b key' id' \/ (key' ∈ keys /\ id' = id).
Proof.
  induction keys as [|key keys IH]; intros Hk b Hi; cbn [foldl]; [split; [done|]; intros; rewrite elem_of_nil; tauto|].
  assert (Hkey : indexKey key) by (apply Hk; by left). destruct (IH (fun k Hx => Hk k (list_elem_of_further _ _ _ Hx)) (appendIndex key id b) (appendIndex_indexed key id b Hkey Hi)) as [I1 I2].
  split; [done|]. intros key' id'. rewrite I2, appendIndex_lists by (intros v Hv; by apply (Hi key v)). rewrite elem_of_cons. tauto.
Qed.

(** What a key holds after a save. *)
Lemma save_lookup r b k : plainId (er_id r) -> let v := mget (saveMigrated r b) k in
  (k = effectKey (er_id r) /\ v = Some (VRecord r)) \/
  (k = idempotencyKey (er_idempotencyKey r) /\ v = Some (VId (er_id r))) \/
  (k <> effectKey (er_id r) /\ k <> idempotencyKey (er_idempotencyKey r) /\ (v = mget b k \/ (indexKey k /\ exists l, v = Some (VIndex l)))).
Proof.
  intros Hp v. assert (Hkeep : forall k, ~ indexKey k -> mget (saveMigrated r b) k =
    mget (mset (idempotencyKey (er_idempotencyKey r)) (VId (er_id r)) (mset (effectKey (er_id r)) (VRecord r) b)) k).
  { intros k' Hn. rewrite saveMigrated_fold. apply appendAll_keeps; [apply keysOf_index|done]. }
  destruct (decide (k = effectKey (er_id r))) as [->|H1].
  - left. split; [done|]. unfold v. rewrite Hkeep by (intros Hx; by apply (effect_not_index (er_id r) _ Hp Hx)).
    rewrite mget_mset_ne by (intros He; by apply (effect_not_idempotency (er_id r) (er_idempotencyKey r) Hp)). apply mget_mset_eq.
  - destruct (decide (k = idempotencyKey (er_idempotencyKey r))) as [->|H2].
    + right. left. split; [done|]. unfold v. rewrite Hkeep by (intros Hx; by apply (idempotency_not_index (er_idempotencyKey r) _ Hx)). apply mget_mset_eq.
    + right. right. split_and!; [done|done|]. unfold v. rewrite saveMigrated_fold. set (b0 := mset _ _ (mset _ _ b)).
      assert (Hb0 : mget b0 k = mget b k) by (unfold b0; by rewrite !mget_mset_ne by congruence). rewrite <- Hb0.
      assert (Hg : forall keys b1, (forall key, key ∈ keys -> indexKey key) -> mget (foldl (fun b key => appendIndex key (er_id r) b) b1 keys) k = mget b1 k \/
        (indexKey k /\ exists l, mget (foldl (fun b key => appendIndex key (er_id r) b) b1 keys) k = Some (VIndex l))); [|by apply Hg, keysOf_index].
      induction keys as [|key keys IH]; intros b1 Hk; cbn [foldl]; [by left|]. destruct (IH (appendIndex key (er_id r) b1)) as [->|?]; [intros; apply Hk; by right| |by right].
      assert (Hkey : indexKey key) by (apply Hk; by left). destruct (appendIndex_spec key (er_id r) b1 k Hkey) as [?|[-> ?]]; [by left|by right].
Qed.

(** ** The invariant *)

(** The attempts are numbered, and the last one has the status of the record, unless that was compensated. *)
Record wellKept (r : EffectRecord) : Prop := {
  wk_version : er_version r = Some "v1";
  wk_attempts : er_attempts r <> [] /\ map at_attempt (er_attempts r) = seq 1 (length (er_attempts r));
  wk_status : er_status r = compensated \/ er_status r = compensation_failed \/ exists a, last (er_attempts r) = Some a /\ at_status a = er_status r;
}.

Record linv (b : Backend) : Prop := {
  li_indexed : indexed b;
  li_records : forall id r, mget b (effectKey id) = Some (VRecord r) -> plainId id /\ er_id r = id /\ wellKept r /\
    mget b (idempotencyKey (er_idempotencyKey r)) = Some (VId id) /\ forall key, key ∈ keysOf (er_scope r) -> listed b key id;
  li_ids : forall k v, mget b (idempotencyKey k) = Some v -> exists id r, v = VId id /\ mget b (effectKey id) = Some (VRecord r) /\ er_idempotencyKey r = k;
}.

Lemma listed_save r b key id : indexed b -> listed (mset (idempotencyKey (er_idempotencyKey r)) (VId (er_id r)) (mset (effectKey (er_id r)) (VRecord r) b)) key id -> plainId (er_id r) ->
  indexKey key -> listed b key id.
Proof.
  intros _ (l & Hl & Hin) Hp Hk. exists l. split; [|done]. rewrite !mget_mset_ne in Hl; [done| |].
  - intros He. by apply (effect_not_index (er_id r) key Hp Hk).
  - intros He. by apply (idempotency_not_index (er_idempotencyKey r) key Hk).
Qed.

Lemma save_lists r b : indexed b -> plainId (er_id r) -> indexed (saveMigrated r b) /\
  (forall key, key ∈ keysOf (er_scope r) -> listed (saveMigrated r b) key (er_id r)) /\ forall key id, indexKey key -> listed b key id -> listed (saveMigrated r b) key id.
Proof.
  intros Hi Hp. rewrite saveMigrated_fold. set (b0 := mset _ _ (mset _ _ b)).
  assert (Hsame : forall k, indexKey k -> mget b0 k = mget b k).
  { intros k Hk. unfold b0. rewrite !mget_mset_ne; [done| |]; intros He; [by apply (effect_not_index (er_id r) k Hp Hk)|by apply (idempotency_not_index (er_idempotencyKey r) k Hk)]. }
  assert (Hi0 : indexed b0) by (intros k v Hk; rewrite Hsame by done; by apply Hi).
  destruct (appendAll_lists (keysOf (er_scope r)) (er_id r) (keysOf_index _) b0 Hi0) as [I1 I2]. split_and!; [done|intros key Hk; apply I2; by right|].
  intros key id Hk (l & Hl & Hin). apply I2. left. exists l. by rewrite Hsame.
Qed.

(** A record may be saved: nothing else has its id or its key. *)
Definition mayHold (b : Backend) (r : EffectRecord) : Prop :=
  plainId (er_id r) /\ wellKept r /\
  (forall r', mget b (effectKey (er_id r)) = Some (VRecord r') -> er_idempotencyKey r' = er_idempotencyKey r) /\
  (forall id, mget b (idempotencyKey (er_idempotencyKey r)) = Some (VId id) -> id = er_id r).

Lemma save_linv r b : linv b -> mayHold b r -> linv (saveMigrated r b).
Proof.
  intros [L1 L2 L3] (Hp & Hw & H1 & H2). destruct (save_lists r b L1 Hp) as (S1 & S2 & S3). split; [done| |].
  - intros id r' Hr. destruct (save_lookup r b (effectKey id) Hp) as [[He Hv]|[[He Hv]|(N1 & N2 & N3)]].
    + rewrite Hv in Hr. injection Hr as <-. apply effectKey_inj in He as ->. split_and!; [done|done|done| |done].
      destruct (save_lookup r b (idempotencyKey (er_idempotencyKey r)) Hp) as [[He _]|[[_ Hv']|(_ & N & _)]]; [by destruct (effect_not_idempotency (er_id r) (er_idempotencyKey r) Hp)|done|done].
    + rewrite Hv in Hr. done.
    + assert (Hold : mget b (effectKey id) = Some (VRecord r')) by (destruct N3 as [<-|[_ [l Hl]]]; [done|by rewrite Hl in Hr]).
      destruct (L2 id r' Hold) as (R1 & R2 & R3 & R4 & R5). split_and!; [done|done|done| |intros key Hk; apply S3; [by eapply keysOf_index|by apply R5]].
      destruct (save_lookup r b (idempotencyKey (er_idempotencyKey r')) Hp) as [[He _]|[[He Hv]|(_ & _ & Hs)]].
      * by destruct (effect_not_idempotency (er_id r) (er_idempotencyKey r') Hp).
      * exfalso. apply N1. f_equal. apply H2. apply idempotencyKey_inj in He. by rewrite <- He.
      * destruct Hs as [->|[Hx _]]; [done|]. by destruct (idempotency_not_index (er_idempotencyKey r') _ Hx).
  - intros k v Hv. destruct (save_lookup r b (idempotencyKey k) Hp) as [[He _]|[[He Hk]|(N1 & N2 & N3)]].
    + by destruct (effect_not_idempotency (er_id r) k Hp).
    + rewrite Hk in Hv. injection Hv as <-. apply idempotencyKey_inj in He as ->. exists (er_id r), r. split_and!; [done| |done].
      destruct (save_lookup r b (effectKey (er_id r)) Hp) as [[_ ?]|[[He _]|(N & _)]]; [done|by destruct (effect_not_idempotency (er_id r) (er_idempotencyKey r) Hp)|done].
    + destruct N3 as [N3|[Hx _]]; [|by destruct (idempotency_not_index k _ Hx)]. rewrite N3 in Hv. destruct (L3 k v Hv) as (id & r' & -> & Hr & Hk). exists id, r'. split_and!; [done| |done].
      destruct (L2 id r' Hr) as (R1 & _). destruct (save_lookup r b (effectKey id) Hp) as [[He _]|[[He _]|(_ & _ & M4)]].
      * exfalso. apply effectKey_inj in He as ->. apply N2. f_equal. rewrite <- Hk. by apply H1.
      * by destruct (effect_not_idempotency id (er_idempotencyKey r) R1).
      * destruct M4 as [->|[Hx _]]; [done|]. by destruct (effect_not_index id _ R1 Hx).
Qed.

Lemma save_own r b : plainId (er_id r) -> mget (saveMigrated r b) (effectKey (er_id r)) = Some (VRecord r) /\
  mget (saveMigrated r b) (idempotencyKey (er_idempotencyKey r)) = Some (VId (er_id r)).
Proof.
  intros Hp. split.
  - destruct (save_lookup r b (effectKey (er_id r)) Hp) as [[_ ?]|[[He _]|(N & _)]]; [done|by destruct (effect_not_idempotency (er_id r) (er_idempotencyKey r) Hp)|done].
  - destruct (save_lookup r b (idempotencyKey (er_idempotencyKey r)) Hp) as [[He _]|[[_ ?]|(_ & N & _)]]; [by destruct (effect_not_idempotency (er_id r) (er_idempotencyKey r) Hp)|done|done].
Qed.

Lemma save_other r b : plainId (er_id r) ->
  (forall id, plainId id -> id <> er_id r -> mget (saveMigrated r b) (effectKey id) = mget b (effectKey id)) /\
  (forall k, k <> er_idempotencyKey r -> mget (saveMigrated r b) (idempotencyKey k) = mget b (idempotencyKey k)).
Proof.
  intros Hp. split.
  - intros id Hid Hne. destruct (save_lookup r b (effectKey id) Hp) as [[He _]|[[He _]|(_ & _ & [?|[Hx _]])]]; [by apply effectKey_inj in He|by destruct (effect_not_idempotency id (er_idempotencyKey r) Hid)|done|].
    by destruct (effect_not_index id _ Hid Hx).
  - intros k Hne. destruct (save_lookup r b (idempotencyKey k) Hp) as [[He _]|[[He _]|(_ & _ & [?|[Hx _]])]]; [by destruct (effect_not_idempotency (er_id r) k Hp)|by apply idempotencyKey_inj in He|done|].
    by destruct (idempotency_not_index k _ Hx).
Qed.

(** ** The operations *)

Lemma migrate_current r : wellKept r -> migrateEffectRecord r = Ok (false, r).
Proof. intros [Hv _ _]. unfold migrateEffectRecord. rewrite Hv. cbn. destruct r. cbn in *. by subst. Qed.

Lemma get_linv id r b : linv b -> mget b (effectKey id) = Some (VRecord r) -> get id b = (b, Ok (Some r)).
Proof. intros Hl Hr. unfold get; cbn [sget sset plain_storage]. rewrite Hr. destruct (li_records _ Hl id r Hr) as (_ & _ & Hw & _). by rewrite (migrate_current _ Hw). Qed.

Lemma getByKey_linv k b : linv b -> getByIdempotencyKey k b =
  (b, Ok (match mget b (idempotencyKey k) with Some (VId id) => match mget b (effectKey id) with Some (VRecord r) => Some r | _ => None end | _ => None end)).
Proof.
  intros Hl. unfold getByIdempotencyKey; cbn [sget sset plain_storage]. destruct (mget b (idempotencyKey k)) as [v|] eqn:Hk; [|done]. destruct (li_ids _ Hl k v Hk) as (id & r & -> & Hr & _).
  destruct (li_records _ Hl id r Hr) as ([Hp _] & _). destruct id; [done|]. cbn [isEmpty]. by rewrite (get_linv _ _ _ Hl Hr), Hr.
Qed.

(** A change of a record that is no new attempt. *)
Definition progresses (f : EffectRecord -> EffectRecord) : Prop := forall r, wellKept r ->
  wellKept (f r) /\ er_id (f r) = er_id r /\ er_idempotencyKey (f r) = er_idempotencyKey r /\ er_scope (f r) = er_scope r /\ length (er_attempts (f r)) = length (er_attempts r).

Lemma mutate_linv id f b : linv b -> progresses f ->
  (mutate id f b).1 = b \/ exists r, mget b (effectKey id) = Some (VRecord r) /\ (mutate id f b).1 = saveMigrated (f r) b /\ mayHold b (f r).
Proof.
  intros Hl Hf. unfold mutate. destruct (mget b (effectKey id)) as [v|] eqn:Hv; [destruct v as [r|j|l]|].
  - right. exists r. destruct (li_records _ Hl id r Hv) as (Hp & He & Hw & Hk & _). rewrite (get_linv _ _ _ Hl Hv). destruct (Hf r Hw) as (W & F1 & F2 & F3 & F4).
    unfold save. rewrite (migrate_current _ W). split; [done|]. split; [done|]. split_and!; [by rewrite F1, He|done| |].
    + intros r'. rewrite F1, He, Hv, F2. by intros [= <-].
    + intros j. rewrite F1, F2, Hk, He. by intros [= <-].
  - left. unfold get; cbn [sget sset plain_storage]. rewrite Hv. by destruct (isEmpty j).
  - left. unfold get; cbn [sget sset plain_storage]. by rewrite Hv.
  - left. unfold get; cbn [sget sset plain_storage]. by rewrite Hv.
Qed.

Lemma onLast_spec f l : (forall a, at_attempt (f a) = at_attempt a) ->
  map at_attempt (onLast f l) = map at_attempt l /\ length (onLast f l) = length l /\ last (onLast f l) = f <$> last l.
Proof.
  intros Hf. induction l as [|a l IH]; [done|]. destruct l as [|a' l]; [cbn; by rewrite Hf|]. destruct IH as (I1 & I2 & I3).
  change (onLast f (a :: a' :: l)) with (a :: onLast f (a' :: l)). cbn [map length]. rewrite I1, I2. split_and!; [done|done|].
  rewrite last_cons_cons, <- I3. destruct (onLast f (a' :: l)); [done|]. by rewrite last_cons_cons.
Qed.

Lemma with_progress_progresses g st (now : EffectRecord -> Z) ap post res comp : (forall r a, at_attempt (g r a) = at_attempt a /\ at_status (g r a) = st r) ->
  progresses (fun r => with_progress (st r) (now r) (onLast (g r) (er_attempts r)) (ap r) (post r) (res r) (comp r) r).
Proof.
  intros Hg r [W1 [W2 W3] W4]. destruct (onLast_spec (g r) (er_attempts r)) as (O1 & O2 & O3); [intros a; apply Hg|]. split; [|done].
  split; cbn [with_progress er_version er_attempts er_status]; [done| |].
  - rewrite O1, O2. split; [|done]. intros Hn. rewrite Hn in O2. by destruct (er_attempts r).
  - right. right. rewrite O3. destruct (er_attempts r) as [|a l] using rev_ind; [done|]. rewrite last_snoc. exists (g r a). split; [done|]. apply Hg.
Qed.

(** The calls of the ledger; a compensation runs on a file system of its own. *)
Inductive LedgerOp (FS : Type) :=
| OpBegin (i : EffectRecordInput)
| OpApprovalRequested (now : Z) (id requestId : string)
| OpApprovalResolved (now : Z) (id : string) (response : ApprovalResponse)
| OpDenied (now : Z) (id reason : string)
| OpExecuting (now : Z) (id : string)
| OpOutcome (now : Z) (id : string) (o : Outcome)
| OpCompensate (now : Z) (id : string) (th : option (@ToolHandler FS)) (fs : FS).
Arguments OpBegin {FS}.
Arguments OpApprovalRequested {FS}.
Arguments OpApprovalResolved {FS}.
Arguments OpDenied {FS}.
Arguments OpExecuting {FS}.
Arguments OpOutcome {FS}.
Arguments OpCompensate {FS}.

Section run.
Context {FS : Type} `{FileSystem FS} (utf8Bytes unbase64 : string -> string) {B : Type} `{Storage B}.

Definition runOp (b : B) (op : LedgerOp FS) : B :=
  match op with
  | OpBegin i => (beginEffect i b).1
  | OpApprovalRequested now id requestId => (recordApprovalRequested now id requestId b).1
  | OpApprovalResolved now id response => (recordApprovalResolved now id response b).1
  | OpDenied now id reason => (markDenied now id reason b).1
  | OpExecuting now id => (markExecuting now id b).1
  | OpOutcome now id o => (recordOutcome now id o b).1
  | OpCompensate now id th fs => (compensateEffect now utf8Bytes unbase64 id th fs b).2.1
  end.

(** The attempts that were begun under a key. *)
Definition begins (k : string) (ops : list (LedgerOp FS)) : list EffectRecordInput :=
  flat_map (fun op => match op with OpBegin i => if String.eqb (ei_idempotencyKey i) k then [i] else [] | _ => [] end) ops.

(** An effect has an id of its own, unless its key is known already. *)
Definition allowedOp (b : B) (op : LedgerOp FS) : Prop :=
  match op with
  | OpBegin i => plainId (ei_id i) /\ forall r, (sget (effectKey (ei_id i)) b).2 = Some (VRecord r) -> er_idempotencyKey r = ei_idempotencyKey i
  | _ => True
  end.

Fixpoint allowedOps (b : B) (ops : list (LedgerOp FS)) : Prop :=
  match ops with [] => True | op :: ops => allowedOp b op /\ allowedOps (runOp b op) ops end.
End run.

Section ledger.
Context {FS : Type} `{FileSystem FS} (utf8Bytes unbase64 : string -> string).

Notation runOp := (runOp utf8Bytes unbase64).
Notation allowedOps := (allowedOps utf8Bytes unbase64).
Notation begins := (@begins FS).
Implicit Types (b : Backend).

(** Every call but a begin is a progress of one record. *)
Lemma op_progress b op : linv b -> (forall i, op <> OpBegin i) ->
  runOp b op = b \/ exists id f, progresses f /\ runOp b op = (mutate id f b).1.
Proof.
  intros Hl Hne. destruct op as [i|now id rid|now id response|now id reason|now id|now id o|now id th fs]; [by destruct (Hne i)|..|].
  6:{ cbn [runOp]. unfold compensateEffect. destruct (mget b (effectKey id)) as [v|] eqn:Hv; [destruct v as [r|j|l]|]; [|left; unfold get; cbn [sget sset plain_storage]; rewrite Hv; (done || by destruct (isEmpty j))..].
      rewrite (get_linv _ _ _ Hl Hv). destruct (executeCompensation utf8Bytes unbase64 fs r th) as [fs' error]. right. cbn [snd].
      match goal with |- context [mutate id ?f b] => exists id, f end. split; [|done]. intros r' [W1 W2 W3]. split; [|done].
      split; cbn [with_progress er_version er_attempts er_status]; [done|done|]. destruct error; [right; by left|by left]. }
  all: right; cbn [runOp]; unfold recordApprovalRequested, recordApprovalResolved, markDenied, markExecuting, recordOutcome;
    match goal with |- context [mutate ?j ?f _] => exists j, f end; (split; [|done]).
  - by apply (with_progress_progresses _ (fun _ => pending_approval)).
  - apply (with_progress_progresses (fun r a => _) (fun r => if approvedBy (rs_disposition response) then effect_approved else effect_denied)). done.
  - by apply (with_progress_progresses _ (fun _ => effect_denied)).
  - by apply (with_progress_progresses _ (fun _ => executing)).
  - by apply (with_progress_progresses _ (fun _ => if oc_success o then succeeded else effect_failed)).
Qed.

Lemma create_wellKept i : wellKept (createInitialEffectRecord i).
Proof. split; [done|done|]. right. right. by eexists. Qed.

Lemma merge_wellKept r i : wellKept r -> wellKept (mergeAttempt r i).
Proof.
  intros [W1 [W2 W3] W4]. split; cbn [mergeAttempt appendEffectAttempt with_progress er_version er_attempts er_status]; [done| |].
  - split; [by destruct (er_attempts r)|]. rewrite map_app, W3, length_app. cbn [length map newAttempt at_attempt]. by rewrite seq_app.
  - right. right. rewrite last_snoc. by eexists.
Qed.

(** What the ledger knows of a key, from the attempts that were begun under it. *)
Definition knows (b : Backend) (k : string) (l : list EffectRecordInput) : Prop :=
  match l with
  | [] => mget b (idempotencyKey k) = None
  | i :: rest => exists r, mget b (idempotencyKey k) = Some (VId (ei_id i)) /\ mget b (effectKey (ei_id i)) = Some (VRecord r) /\
      length (er_attempts r) = S (length rest) /\ er_scope r = ei_scope (List.last rest i)
  end.

(** Saving under one key leaves what is known of the others. *)
Lemma knows_other b r k l : linv b -> mayHold b r -> k <> er_idempotencyKey r -> knows b k l -> knows (saveMigrated r b) k l.
Proof.
  intros Hl (Hp & _ & H1 & _) Hne. destruct (save_other r b Hp) as [O1 O2]. destruct l as [|i rest]; cbn; [by rewrite O2|]. intros (r' & K1 & K2 & K3 & K4). exists r'.
  rewrite O2 by done. destruct (li_records _ Hl _ _ K2) as (P1 & _ & _ & P4 & _). rewrite O1; [done|done|]. intros He. rewrite He in K2. pose proof (H1 _ K2) as Hk.
  destruct (li_ids _ Hl _ _ K1) as (id' & r2 & [= <-] & R2 & R3). rewrite He in R2. rewrite K2 in R2. injection R2 as <-. congruence.
Qed.

(** Progress of a record keeps what is known. *)
Lemma knows_progress b id r f k l : linv b -> progresses f -> mget b (effectKey id) = Some (VRecord r) -> mayHold b (f r) -> knows b k l -> knows (saveMigrated (f r) b) k l.
Proof.
  intros Hl Hf Hr Hm Hk. destruct (decide (k = er_idempotencyKey (f r))) as [->|Hne]; [|by apply knows_other]. destruct (li_records _ Hl _ _ Hr) as (P1 & P2 & P3 & P4 & _).
  destruct (Hf r P3) as (_ & F1 & F2 & F3 & F4). destruct Hm as (Hp & _). destruct (save_own (f r) b Hp) as [S1 S2]. rewrite F2 in *. destruct l as [|i rest]; cbn in Hk |- *; [congruence|].
  destruct Hk as (r' & K1 & K2 & K3 & K4). assert (ei_id i = id) as He by congruence. rewrite He in *. assert (r' = r) as -> by congruence. exists (f r). rewrite F1, P2 in *.
  split_and!; [done|done|congruence|congruence].
Qed.

Lemma begin_saves i b : linv b -> @allowedOp FS _ _ b (OpBegin i) ->
  exists r, (beginEffect i b).1 = saveMigrated r b /\ mayHold b r /\ er_idempotencyKey r = ei_idempotencyKey i /\ er_scope r = ei_scope i /\
    match mget b (idempotencyKey (ei_idempotencyKey i)) with
    | Some (VId id) => er_id r = id /\ exists r0, mget b (effectKey id) = Some (VRecord r0) /\ length (er_attempts r) = S (length (er_attempts r0))
    | _ => er_id r = ei_id i /\ length (er_attempts r) = 1%nat
    end.
Proof.
  intros Hl [Hp Hfresh]. unfold beginEffect. rewrite (getByKey_linv _ _ Hl). destruct (mget b (idempotencyKey (ei_idempotencyKey i))) as [v|] eqn:Hk.
  - destruct (li_ids _ Hl _ _ Hk) as (id & r & -> & Hr & Hrk). rewrite Hr. destruct (li_records _ Hl _ _ Hr) as (P1 & P2 & P3 & P4 & _). pose proof (merge_wellKept r i P3) as Hw.
    exists (mergeAttempt r i). unfold save. rewrite (migrate_current _ Hw). split; [done|]. change (er_id (mergeAttempt r i)) with (er_id r).
    change (er_idempotencyKey (mergeAttempt r i)) with (er_idempotencyKey r). split_and!; [|done|done|done|].
    + unfold mayHold. change (er_id (mergeAttempt r i)) with (er_id r). change (er_idempotencyKey (mergeAttempt r i)) with (er_idempotencyKey r). rewrite P2.
      split_and!; [done|done|intros r' Hr'; congruence|intros j Hj; congruence].
    + exists r. split; [done|]. cbn. rewrite length_app. cbn. lia.
  - exists (createInitialEffectRecord i). unfold save. rewrite (migrate_current _ (create_wellKept i)). split; [done|]. split_and!; [|done|done|done|done].
    split_and!; [done|apply create_wellKept|exact Hfresh|]. intros id. cbn. by rewrite Hk.
Qed.

Lemma begins_snoc k ops op : begins k (ops ++ [op]) = (begins k ops ++ begins k [op])%list.
Proof. unfold begins. by rewrite flat_map_app. Qed.

Lemma progress_knows b ops op : linv b -> (forall i, op <> OpBegin i) -> (forall k, knows b k (begins k ops)) ->
  linv (runOp b op) /\ forall k, knows (runOp b op) k (begins k (ops ++ [op])).
Proof.
  intros Hl Hne Hk. assert (Hb : forall k, begins k (ops ++ [op]) = begins k ops).
  { intros k. rewrite begins_snoc. destruct op as [i| | | | | | ]; [by destruct (Hne i)|..]; apply app_nil_r. }
  assert (Hsame : linv b /\ forall k, knows b k (begins k (ops ++ [op]))) by (split; [done|]; intros k; by rewrite Hb).
  destruct (op_progress b op Hl Hne) as [->|(id & f & Hf & ->)]; [done|]. destruct (mutate_linv id f b Hl Hf) as [->|(r & Hr & -> & Hm)]; [done|].
  split; [by apply save_linv|]. intros k. rewrite Hb. by eapply knows_progress.
Qed.

Lemma step_knows b ops op : linv b -> allowedOp b op -> (forall k, knows b k (begins k ops)) -> linv (runOp b op) /\ forall k, knows (runOp b op) k (begins k (ops ++ [op])).
Proof.
  intros Hl Ha Hk. destruct op as [i| | | | | | ]; [|by apply progress_knows..].
  destruct (begin_saves i b Hl Ha) as (r & He & Hm & Hrk & Hsc & Hcase). cbn [runOp]. rewrite He. split; [by apply save_linv|]. intros k. rewrite begins_snoc. cbn [begins flat_map].
  rewrite app_nil_r. destruct (String.eqb_spec (ei_idempotencyKey i) k) as [Hki|Hne]; [|rewrite app_nil_r; apply knows_other; [done|done|congruence|done]].
  specialize (Hk k). destruct (save_own r b) as [S1 S2]; [apply Hm|]. rewrite Hki in *. rewrite Hrk in S2. destruct (begins k ops) as [|i0 rest]; cbn [knows app] in Hk |- *.
  - rewrite Hk in Hcase. destruct Hcase as [C1 C2]. exists r. rewrite C1 in S1, S2. split_and!; [done|done|done|done].
  - destruct Hk as (r0 & K1 & K2 & K3 & K4). rewrite K1 in Hcase. destruct Hcase as (C1 & r1 & C2 & C3). exists r. rewrite C1 in S1, S2. rewrite K2 in C2. injection C2 as <-.
    split_and!; [done|done|rewrite C3, K3, length_app; cbn; lia|by rewrite Hsc, last_last].
Qed.

Lemma run_knows ops : forall done b, linv b -> allowedOps b ops -> (forall k, knows b k (begins k done)) ->
  linv (foldl runOp b ops) /\ forall k, knows (foldl runOp b ops) k (begins k (done ++ ops)).
Proof.
  induction ops as [|op ops IH]; intros dn b Hl Ha Hk; cbn [foldl]; [by rewrite app_nil_r|]. destruct Ha as [Ha Hrest]. destruct (step_knows b dn op Hl Ha Hk) as [Hl' Hk'].
  destruct (IH (dn ++ [op])%list _ Hl' Hrest Hk') as [I1 I2]. split; [done|]. by rewrite <- app_assoc in I2.
Qed.

(** On pairs that do not expire the ledger keeps one record per key. *)
Lemma plain_attempts_exact ops k : allowedOps [] ops ->
  let b := foldl runOp [] ops in
  match begins k ops with
  | [] => getByIdempotencyKey k b = (b, Ok None)
  | i :: rest => exists r, getByIdempotencyKey k b = (b, Ok (Some r)) /\ er_id r = ei_id i /\ map at_attempt (er_attempts r) = seq 1 (S (length rest)) /\ wellKept r /\
      er_scope r = ei_scope (List.last rest i) /\ forall key, key ∈ keysOf (er_scope r) -> listed b key (er_id r)
  end.
Proof.
  intros Ha b. assert (H0 : linv ([] : Backend)) by (split; [by intros k' v _|by intros|by intros]).
  destruct (run_knows ops [] [] H0 Ha (fun _ => eq_refl)) as [Hl Hk]. specialize (Hk k). cbn [app] in Hk. fold b in Hl, Hk. rewrite (getByKey_linv _ _ Hl).
  destruct (begins k ops) as [|i rest]; cbn in Hk; [by rewrite Hk|]. destruct Hk as (r & K1 & K2 & K3 & K4). rewrite K1, K2. exists r.
  destruct (li_records _ Hl _ _ K2) as (_ & P2 & P3 & _ & P5). split_and!; [done|done| |done|done|by rewrite P2].
  rewrite <- K3. apply (wk_attempts _ P3).
Qed.
End ledger.

(** ** Pairs that expire *)

Section expiring.
Context {FS : Type} `{FileSystem FS} (utf8Bytes unbase64 : string -> string).
Context (ttlMs T : Z) (readClock : nat -> Z).
Hypothesis within : forall n, (T <= readClock n < T + ttlMs)%Z.

#[local] Instance storage : Storage ExpiringBackend := expiring_storage ttlMs.

(** The pairs of the two backends are the same, and none has expired yet. *)
Definition shows (p : Backend) (e : ExpiringBackend) : Prop :=
  clock e = readClock /\ forall k, match mget (kv e) k with
    | None => mget p k = None
    | Some (t, v) => mget p k = Some v /\ match t with Some t => (T + ttlMs <= t)%Z | None => True end
    end.

(** The same answer, on backends that show the same. *)
Definition agrees {A} (rp : Backend * A) (re : ExpiringBackend * A) : Prop := re.2 = rp.2 /\ shows rp.1 re.1.

Lemma sget_agrees p e k : shows p e -> agrees (sget k p) (sget k e).
Proof.
  intros [Hc Hk]. cbn [sget plain_storage storage expiring_storage]. unfold expiring_get. pose proof (Hk k) as Hv.
  destruct (mget (kv e) k) as [[[t|] v]|]; [|destruct Hv as [-> _]; by split|rewrite Hv; by split]. destruct Hv as [-> Ht]. destruct (t =? 0)%Z; [by split|].
  pose proof (within (readings e)) as Hw. rewrite Hc. destruct (Z.leb_spec t (readClock (readings e))); [lia|]. by split.
Qed.

Lemma sset_shows p e k v : shows p e -> shows (sset k v p) (sset k v e).
Proof.
  intros [Hc Hk]. cbn [sset plain_storage storage expiring_storage]. unfold expiring_set. pose proof (within (readings e)) as Hw. rewrite Hc.
  destruct (Z.ltb_spec 0 ttlMs); (split; [done|]); cbn [kv]; intros k'; rewrite !mget_mset; (destruct (String.eqb k' k); [split; [done|]; (done || lia)|apply Hk]).
Qed.

(** Both backends do the call, with one answer. *)
Tactic Notation "follow" constr(H) "as" ident(p1) ident(e1) ident(x) :=
  let E := fresh "E" in let x' := fresh "x" in
  pose proof H as [E ?];
  match type of E with snd ?Y = snd ?X => destruct X as [p1 x], Y as [e1 x'] end; cbn [fst snd] in *; subst x'.

Lemma appendIndex_shows p e key id : shows p e -> shows (appendIndex key id p) (appendIndex key id e).
Proof.
  intros Hs. unfold appendIndex. follow (sget_agrees p e key Hs) as p1 e1 v.
  match goal with |- context [has ?l id] => destruct (has l id) end; [done|by apply sset_shows].
Qed.

Lemma saveMigrated_shows p e r : shows p e -> shows (saveMigrated r p) (saveMigrated r e).
Proof.
  intros Hs. unfold saveMigrated. destruct (nonEmpty (es_runId _)), (nonEmpty (es_pipelineId _)); repeat apply appendIndex_shows; by repeat apply sset_shows.
Qed.

Lemma save_agrees p e r : shows p e -> agrees (save r p) (save r e).
Proof. intros Hs. unfold save. destruct (migrateEffectRecord r) as [[m r']|]; [|by split]. split; [done|]. by apply saveMigrated_shows. Qed.

Lemma get_agrees p e id : shows p e -> agrees (get id p) (get id e).
Proof.
  intros Hs. unfold get. follow (sget_agrees p e (effectKey id) Hs) as p1 e1 v. destruct v as [[r|t|l]|]; [|by split..].
  destruct (migrateEffectRecord r) as [[[] r']|]; [|by split..]. split; [done|]. by apply saveMigrated_shows.
Qed.

Lemma getByKey_agrees p e k : shows p e -> agrees (getByIdempotencyKey k p) (getByIdempotencyKey k e).
Proof.
  intros Hs. unfold getByIdempotencyKey. follow (sget_agrees p e (idempotencyKey k) Hs) as p1 e1 v. destruct v as [[r|t|l]|]; [by split| |by split..].
  destruct (isEmpty t); [by split|]. by apply get_agrees.
Qed.

Lemma begin_agrees p e i : shows p e -> agrees (beginEffect i p) (beginEffect i e).
Proof.
  intros Hs. unfold beginEffect. follow (getByKey_agrees p e (ei_idempotencyKey i) Hs) as p1 e1 found. destruct found as [existing|]; [|by split]. cbv zeta.
  match goal with |- context [save ?r p1] => follow (save_agrees p1 e1 r ltac:(done)) as p2 e2 saved end. by destruct saved; split.
Qed.

Lemma mutate_agrees p e id f : shows p e -> agrees (mutate id f p) (mutate id f e).
Proof.
  intros Hs. unfold mutate. follow (get_agrees p e id Hs) as p1 e1 found. destruct found as [[current|]|]; [|by split..].
  follow (save_agrees p1 e1 (f current) ltac:(done)) as p2 e2 saved. by destruct saved; split.
Qed.

Lemma runOp_shows p e op : shows p e -> shows (runOp utf8Bytes unbase64 p op) (runOp utf8Bytes unbase64 e op).
Proof.
  intros Hs. destruct op as [i|now id rid|now id response|now id reason|now id|now id o|now id th fs]; cbn [runOp].
  - by apply begin_agrees.
  - by apply mutate_agrees.
  - by apply mutate_agrees.
  - by apply mutate_agrees.
  - by apply mutate_agrees.
  - by apply mutate_agrees.
  - unfold compensateEffect. follow (get_agrees p e id Hs) as p1 e1 found. destruct found as [[current|]|]; [|done..].
    destruct (executeCompensation utf8Bytes unbase64 fs current th) as [fs' error]. cbn [snd]. by apply mutate_agrees.
Qed.

Lemma allowed_shows p e ops : shows p e -> allowedOps utf8Bytes unbase64 e ops -> allowedOps utf8Bytes unbase64 p ops.
Proof.
  revert p e. induction ops as [|op ops IH]; intros p e Hs; [done|]. cbn [allowedOps]. intros [Ha Hrest]. split; [|eapply IH; [by apply runOp_shows|done]].
  destruct op; try done. destruct Ha as [Hp Hf]. split; [done|]. destruct (sget_agrees p e (effectKey (ei_id i)) Hs) as [E _]. by rewrite E in Hf.
Qed.

Lemma run_shows p e ops : shows p e -> shows (foldl (runOp utf8Bytes unbase64) p ops) (foldl (runOp utf8Bytes unbase64) e ops).
Proof. revert p e. induction ops as [|op ops IH]; intros p e Hs; cbn [foldl]; [done|]. by apply IH, runOp_shows. Qed.

(** C24. The ledger keeps one record per idempotency key, as long as its pairs
    live: if all readings of the clock by the backend lie less than the time to
    live (30 days by default) after the first, the calls do not overlap, and
    every effect begun has an id that is not empty, does not look like a key of
    the storage, and is not the id of a record with another key, then after any
    calls the record found under a key has the id of the first attempt begun
    with it and one numbered attempt for each of them, the last with the status
    of the record unless that was compensated; it is listed under the session,
    the run and the pipeline of the latest attempt; and a key no attempt was
    begun with has none. (Later on the pairs expire one by one: an index may be
    gone while a record in it is still there.) *)
Theorem effect_attempts_exact ops k :
  let empty := {| kv := []; clock := readClock; readings := 0 |} in
  allowedOps utf8Bytes unbase64 empty ops ->
  let b := foldl (runOp utf8Bytes unbase64) empty ops in
  match begins k ops with
  | [] => (getByIdempotencyKey k b).2 = Ok None
  | i :: rest => exists r, (getByIdempotencyKey k b).2 = Ok (Some r) /\ er_id r = ei_id i /\ map at_attempt (er_attempts r) = seq 1 (S (length rest)) /\ wellKept r /\
      er_scope r = ei_scope (List.last rest i) /\ forall key, key ∈ keysOf (er_scope r) -> exists l, (sget key b).2 = Some (VIndex l) /\ er_id r ∈ l
  end.
Proof.
  intros empty Ha b. assert (H0 : shows [] empty) by (split; [done|]; intros k'; done).
  pose proof (plain_attempts_exact utf8Bytes unbase64 ops k (allowed_shows _ _ _ H0 Ha)) as Hp. cbv zeta in Hp.
  pose proof (run_shows _ _ ops H0) as Hs. fold b in Hs. destruct (getByKey_agrees _ _ k Hs) as [E _]. rewrite E.
  destruct (begins k ops) as [|i rest]; [by rewrite Hp|]. destruct Hp as (r & H1 & H2 & H3 & H4 & H5 & H6). exists r. rewrite H1. split_and!; try done.
  intros key Hk. destruct (H6 key Hk) as (l & L1 & L2). exists l. split; [|done]. by destruct (sget_agrees _ _ key Hs) as [-> _].
Qed.
End expiring.

(** ** Concrete runs *)

Module EffectDemo.

(** A file system without permissions, that renames files only. *)
Definition Disk : Type := jsmap (FsEntry * string).

#[local] Instance disk : FileSystem Disk := {
  fs_lstat fs p := match mget fs p with Some (k, _) => Ok k | None => Err "ENOENT: no such file or directory" end;
  fs_size fs p := match mget fs p with Some (_, c) => Z.of_nat (String.length c) | None => 0%Z end;
  fs_readFile fs p := match mget fs p with Some (EFile, c) => Some c | _ => None end;
  fs_readdir fs p := Ok (List.filter (fun q => startsWith q (p +:+ "/")) (mkeys fs));
  fs_mkdir fs d := match mget fs d with None => Ok (mset d (EDirectory, "") fs) | Some (EDirectory, _) => Ok fs | Some _ => Err "EEXIST: file already exists" end;
  fs_writeFile fs p c := match mget fs p with Some (EDirectory, _) => Err "EISDIR: illegal operation on a directory" | _ => Ok (mset p (EFile, c) fs) end;
  fs_rename fs s d := match mget fs s with Some (EFile, c) => Ok (mset d (EFile, c) (mdel s fs)) | _ => Err "ENOENT: no such file or directory" end;
  fs_rm fs p := Ok (mdel p fs);
}.

Lemma disk_same (fs fs' : Disk) q : mget fs' q = mget fs q -> same fs fs' q.
Proof. intros He. unfold same, entryOf. cbn. by rewrite He. Qed.

#[local] Instance disk_laws : FileSystemLaws Disk.
Proof.
  split.
  - intros fs q. unfold entryOf. cbn. by destruct (mget fs q) as [[]|].
  - intros fs p c fs' Hw. assert (fs' = mset p (EFile, c) fs) as -> by (cbn in Hw; destruct (mget fs p) as [[[] ?]|]; congruence). split_and!.
    + unfold entryOf. cbn. by rewrite mget_mset_eq.
    + cbn. by rewrite mget_mset_eq.
    + intros q Hq. apply disk_same. by apply mget_mset_ne.
  - intros fs d fs' He Hm q. unfold entryOf in He. cbn in He, Hm. destruct (mget fs d) as [[[] ?]|]; try done. injection Hm as <-. by split.
  - intros fs p fs' _ [= <-]. split; [unfold entryOf; cbn; by rewrite mget_mdel, String.eqb_refl|]. intros q Hq. apply disk_same. rewrite mget_mdel. by rewrite (proj2 (String.eqb_neq q p)).
  - intros fs s d fs' Hs Hd Hr. unfold entryOf in Hs, Hd. cbn in Hs, Hd, Hr. destruct (mget fs s) as [[k c]|] eqn:Hc; [|done]. injection Hs as ->. injection Hr as <-.
    assert (Hne : s <> d) by (intros ->; rewrite Hc in Hd; done). unfold entryOf. cbn. split_and!.
    + by rewrite mget_mset_ne, mget_mdel, String.eqb_refl by congruence.
    + by rewrite mget_mset_eq.
    + by rewrite mget_mset_eq, Hc.
    + intros q H1 H2. apply disk_same. rewrite mget_mset_ne by congruence. rewrite mget_mdel. by rewrite (proj2 (String.eqb_neq q s)).
Qed.

Definition text (s : string) : ArgValue := {| shape := JText s; asText := s; asNumber := None |}.
Definition args : Args := [("path", text "/w/a"); ("content", text "new")].
Definition before : Disk := [("/w", (EDirectory, "")); ("/w/a", (EFile, "old"))].
Definition after : Disk := [("/w", (EDirectory, "")); ("/w/a", (EFile, "new"))].

Definition same_text (s : string) : string := s.

Definition scope : EffectScope := {| es_sessionId := "s1"; es_parentSessionId := None; es_subagentSessionId := None; es_pipelineId := None; es_stepName := None;
  es_stepIndex := None; es_runId := None; es_channel := None |}.

Definition input (id key : string) (now : Z) : EffectRecordInput := {| ei_id := id; ei_idempotencyKey := key; ei_toolCallId := id; ei_toolName := "system.writeFile";
  ei_args := args; ei_scope := scope; ei_kind := filesystem_write; ei_effectClass := "filesystem_write"; ei_intentSummary := ""; ei_targets := []; ei_createdAt := now;
  ei_requiresApproval := false; ei_preExecutionSnapshots := None; ei_metadata := None |}.

Definition compensation (fs : Disk) (tool : string) (a : Args) : EffectCompensationState :=
  buildCompensationState a (inferEffectKind tool) (capturePreExecutionSnapshots same_text same_text same_text same_text fs tool a) None "e1".

Definition record (c : EffectCompensationState) : EffectRecord :=
  with_progress succeeded 1 [newAttempt 1 0 succeeded] None None None c (createInitialEffectRecord (input "e1" "k1" 0)).

Lemma compensation_undoes_witness : cs_status (compensation before "system.writeFile" args) = available /\
  undone before (executeCompensation same_text same_text after (record (compensation before "system.writeFile" args)) None) /\
  executeCompensation same_text same_text after (record (compensation before "system.writeFile" args)) None = (before, None).
Proof.
  destruct (compensation_undoes same_text same_text same_text same_text same_text (fun b => eq_refl) (conj eq_refl eq_refl) before after "system.writeFile" args None "e1"
    (record (compensation before "system.writeFile" args)) None) as [H1 H2].
  - apply (file_changed _ _ _ _ "/w/a"); [by left|reflexivity| | |].
    + split; [reflexivity|]. split; [by vm_compute|]. exists "old". done.
    + intros q Hq. apply disk_same. cbn. by rewrite (proj2 (String.eqb_neq q "/w/a")).
    + right. reflexivity.
  - reflexivity.
  - split; [exact H1|]. split; [exact H2|]. vm_compute. reflexivity.
Defined.

Definition outcome : Outcome := {| oc_success := true; oc_isError := false; oc_durationMs := None; oc_result := "ok"; oc_error := None; oc_postExecutionSnapshots := None;
  oc_compensation := None; oc_observedMutationsUnknown := false |}.

(** Two attempts under one key, the second with another id, and an effect of its own. *)
Definition ops : list (LedgerOp Disk) :=
  [OpBegin (input "e1" "k1" 1); OpExecuting 2 "e1"; OpOutcome 3 "e1" outcome; OpBegin (input "e2" "k1" 4); OpDenied 5 "e1" "late"; OpBegin (input "e3" "k3" 6);
   OpCompensate 7 "e3" None before].

Lemma plain_demo : plainId "e1" /\ plainId "e2" /\ plainId "e3".
Proof. split_and!; (split; [done|]); intros s; split; discriminate. Qed.

(** A clock that goes on by a millisecond, and a day and an hour after reading 6. *)
Definition slowClock (n : nat) : Z := if (n <? 6)%nat then Z.of_nat n else (86400000 + 3600000 + Z.of_nat (Nat.min n 1000))%Z.

Lemma slowClock_within n : (0 <= slowClock n < 0 + EFFECT_TTL_MS)%Z.
Proof. unfold slowClock. change EFFECT_TTL_MS with 2592000000%Z. destruct (Nat.ltb_spec n 6); lia. Qed.

Definition month : Storage ExpiringBackend := expiring_storage EFFECT_TTL_MS.
Definition started (clk : nat -> Z) : ExpiringBackend := {| kv := []; clock := clk; readings := 0 |}.

Lemma effect_attempts_exact_witness :
  exists r, (@getByIdempotencyKey _ month "k1" (foldl (@runOp _ _ same_text same_text _ month) (started slowClock) ops)).2 = Ok (Some r) /\ er_id r = "e1" /\
    map at_attempt (er_attempts r) = [1; 2]%nat /\ map at_status (er_attempts r) = [succeeded; effect_denied].
Proof.
  assert (Ha : @allowedOps _ _ same_text same_text _ month (started slowClock) ops).
  { destruct plain_demo as (P1 & P2 & P3). unfold ops.
    repeat (refine (conj _ _); [first [exact I|split; [assumption|intros r; vm_compute; discriminate]]|]). exact I. }
  destruct (effect_attempts_exact same_text same_text EFFECT_TTL_MS 0 slowClock slowClock_within ops "k1" Ha) as (r & H1 & H2 & H3 & _).
  exists r. split; [exact H1|]. split; [exact H2|]. split; [exact H3|].
  revert H1. vm_compute. intros [= <-]. reflexivity.
Defined.

(** The clock of the backend, in days. *)
Definition days (l : list Z) (n : nat) : Z := (nth n l 40 * 86400000)%Z.

(** An effect is begun on day 1 (four readings) and gets its outcome on day 20
    (five readings): the record then lives until day 50, but its id stays in the
    index, which expires on day 31. On day 40 the record is found under its key,
    and the session lists nothing. *)
Example index_expires_first :
  let b := foldl (@runOp _ _ same_text same_text _ month) (started (days [1; 1; 1; 20; 20; 20; 20]%Z)) [OpBegin (input "e1" "k1" 1); OpOutcome 3 "e1" outcome] in
  readings b = 7%nat /\ (er_id <$> match (@getByIdempotencyKey _ month "k1" b).2 with Ok r => r | Err _ => None end) = Some "e1" /\
  (@listBySession _ month "s1" None b).2 = Ok [].
Proof. vm_compute. split_and!; reflexivity. Qed.

(** An empty file that was overwritten: a compensation is offered, and cannot be executed. *)
Example empty_file_not_restored :
  let c := compensation [("/w/a", (EFile, ""))] "system.writeFile" args in
  cs_status c = available /\ (executeCompensation same_text same_text after (record c) None).2 = Some "Snapshot content is unavailable for restore.".
Proof. vm_compute. split; reflexivity. Qed.

(** A directory whose path mentions ENOENT and that was filled meanwhile: the refusal to delete it passes for success. *)
Example refusal_passes_for_success :
  let a := [("path", text "/w/ENOENT")] in let full := [("/w/ENOENT", (EDirectory, "")); ("/w/ENOENT/x", (EFile, "x"))] in
  executeCompensation same_text same_text full (record (compensation [] "system.mkdir" a)) None = (full, None).
Proof. vm_compute. reflexivity. Qed.

(** An effect that was compensated is compensated again: what was written since is lost. *)
Example compensated_again :
  let r := with_progress compensated 1 [newAttempt 1 0 succeeded] None None None (compensation [] "system.writeFile" args) (createInitialEffectRecord (input "e1" "k1" 0)) in
  let b := saveMigrated r [] in (compensateEffect 2 same_text same_text "e1" None after b).1 = [("/w", (EDirectory, ""))].
Proof. vm_compute. reflexivity. Qed.
End EffectDemo.
