(* ===== verification/GovernanceAudit.v ===== *)
(** * Governance audit log (src/runtime/src/policy/governance-audit-log.ts)

    Signed records of what the policy decided, each with the hash of the record
    before it, kept in memory or in a backend. The backend is a map from keys to
    JSON values whose writes may fail; a process that dies is a write that
    fails. SHA-256, HMAC, the quoting of JSON strings, the texts of dates and
    the regular expressions of the configuration are parameters. Numbers are
    integers. *)
From stdpp Require Import pretty.
From S2P Require Import Prelude JsMap JsString Projection.
#[local] Open Scope string_scope.
#[local] Open Scope list_scope.
#[local] Open Scope Z_scope.

(** ** Values *)

(** A value of type [unknown], by the cases of [toJsonValue]. [UOther] is a
    value with its [String(value)]: a bigint, a symbol or a function. *)
Inductive Unknown :=
| UNull
| UUndefined
| UText (s : string)
| UNumber (z : Z)
| UBool (b : bool)
| UArray (l : list Unknown)
| UObject (fields : list (string * Unknown))
| UOther (text : string).

Fixpoint toJsonValue (value : Unknown) : JsonValue :=
  match value with
  | UNull => NullJ
  | UText s => TextJ s
  | UNumber z => NumberJ z
  | UBool b => BoolJ b
  | UArray l => ArrayJ (map toJsonValue l)
  | UObject fields => ObjectJ (map (fun kv => (kv.1, toJsonValue kv.2)) fields)
  | UUndefined => TextJ "undefined"
  | UOther text => TextJ text
  end.

(** A JSON value as a value that was read. *)
Fixpoint ofJson (value : JsonValue) : Unknown :=
  match value with
  | NullJ => UNull
  | TextJ s => UText s
  | NumberJ z => UNumber z
  | BoolJ b => UBool b
  | ArrayJ l => UArray (map ofJson l)
  | ObjectJ fields => UObject (map (fun kv => (kv.1, ofJson kv.2)) fields)
  end.

(** [cloneJson]: [JSON.stringify] leaves out what is undefined in an object,
    and writes it as null in an array. *)
Fixpoint cloneJson (value : Unknown) : option JsonValue :=
  match value with
  | UNull => Some NullJ
  | UText s => Some (TextJ s)
  | UNumber z => Some (NumberJ z)
  | UBool b => Some (BoolJ b)
  | UArray l => Some (ArrayJ (map (fun v => default NullJ (cloneJson v)) l))
  | UObject fields => Some (ObjectJ (omap (fun kv => pair kv.1 <$> cloneJson kv.2) fields))
  | UUndefined | UOther _ => None
  end.

(** ** Redaction *)

Definition REDACTED_MARKER : string := "[REDACTED]".

(** A compiled pattern is its effect: [text.replace(pattern, marker)]. *)
Record CompiledRedactionPolicy := {
  rp_redactActors : bool;
  rp_stripFields : list string;
  rp_redactPatterns : list (string -> string -> string);
}.

(** The first argument holds the segments from the index on. *)
Fixpoint stripFieldPathSegments (segments : list string) (value : Unknown) {struct value} : Unknown :=
  match value with
  | UArray l => UArray (map (stripFieldPathSegments segments) l)
  | UObject record =>
      match segments with
      | [] => value
      | [key] => UObject (List.filter (fun kv => negb (String.eqb kv.1 key)) record)
      | key :: rest => UObject (map (fun kv => if String.eqb kv.1 key then (kv.1, stripFieldPathSegments rest kv.2) else kv) record)
      end
  | _ => value
  end.

Definition pathSegments (path : string) : list string :=
  let normalized := if startsWith path "payload." then sdrop 8 path else path in
  List.filter (fun segment => (0 <? String.length segment)%nat) (split (Ascii.ascii_of_nat 46) normalized).

Definition stripFieldPath (value : Unknown) (path : string) : Unknown :=
  match pathSegments path with [] => value | segments => stripFieldPathSegments segments value end.

Fixpoint redactPatterns (patterns : list (string -> string -> string)) (value : Unknown) : Unknown :=
  match value with
  | UText s => UText (foldl (fun current pattern => pattern current REDACTED_MARKER) s patterns)
  | UArray l => UArray (map (redactPatterns patterns) l)
  | UObject fields => UObject (map (fun kv => (kv.1, redactPatterns patterns kv.2)) fields)
  | _ => value
  end.

Definition redactPayload (payload : option (list (string * Unknown))) (policy : CompiledRedactionPolicy) : JsonValue :=
  toJsonValue (redactPatterns (rp_redactPatterns policy) (foldl stripFieldPath (UObject (default [] payload)) (rp_stripFields policy))).

(** ** Records *)

Definition PolicyScope : Type := list (string * option string).

(** The fields of a scope: [None] is a field that is there and undefined. *)
Definition scopeValue (scope : PolicyScope) : Unknown := UObject (map (fun kv => (kv.1, match kv.2 with Some s => UText s | None => UUndefined end)) scope).

Record GovernanceAuditEvent := {
  ge_type : string;
  ge_actor : option string;
  ge_subject : option string;
  ge_scope : option PolicyScope;
  ge_payload : option (list (string * Unknown));
  ge_timestamp : option string;
}.

Record GovernanceAuditRecord := {
  ga_seq : Z;
  ga_timestamp : string;
  ga_type : string;
  ga_actor : option string;
  ga_subject : option string;
  ga_scope : option Unknown;
  ga_payload : JsonValue;
  ga_payloadHash : string;
  ga_prevRecordHash : string;
  ga_recordHash : string;
  ga_signature : string;
  ga_expiresAtMs : option Z;
}.

Definition truthy (s : option string) : option string := match s with Some EmptyString => None | _ => s end.

Definition textField (key : string) (s : option string) : list (string * JsonValue) :=
  match s with Some s => [(key, TextJ s)] | None => [] end.

Definition numberField (key : string) (z : option Z) : list (string * JsonValue) :=
  match z with Some z => [(key, NumberJ z)] | None => [] end.

Definition jsonFields (key : string) (v : option JsonValue) : list (string * JsonValue) :=
  match v with Some v => [(key, v)] | None => [] end.

Definition canonicalizeRecord (record : GovernanceAuditRecord) : JsonValue :=
  ObjectJ ([("seq", NumberJ (ga_seq record)); ("timestamp", TextJ (ga_timestamp record)); ("type", TextJ (ga_type record))]
    ++ textField "actor" (truthy (ga_actor record)) ++ textField "subject" (truthy (ga_subject record))
    ++ jsonFields "scope" (toJsonValue <$> ga_scope record)
    ++ [("payload", ga_payload record); ("payloadHash", TextJ (ga_payloadHash record)); ("prevRecordHash", TextJ (ga_prevRecordHash record))]
    ++ numberField "expiresAtMs" (ga_expiresAtMs record)).

(** [cloneJson(record)]. *)
Definition recordJson (record : GovernanceAuditRecord) : JsonValue :=
  ObjectJ ([("seq", NumberJ (ga_seq record)); ("timestamp", TextJ (ga_timestamp record)); ("type", TextJ (ga_type record))]
    ++ textField "actor" (ga_actor record) ++ textField "subject" (ga_subject record)
    ++ jsonFields "scope" (ga_scope record ≫= cloneJson)
    ++ [("payload", ga_payload record); ("payloadHash", TextJ (ga_payloadHash record)); ("prevRecordHash", TextJ (ga_prevRecordHash record))]
    ++ numberField "expiresAtMs" (ga_expiresAtMs record)
    ++ [("recordHash", TextJ (ga_recordHash record)); ("signature", TextJ (ga_signature record))]).

Definition fieldOf (value : option JsonValue) (key : string) : option JsonValue :=
  match value with Some (ObjectJ fields) => mget fields key | _ => None end.

Definition textAt (value : option JsonValue) (key : string) : option string :=
  match fieldOf value key with Some (TextJ s) => Some s | _ => None end.

Definition numberAt (value : option JsonValue) (key : string) : option Z :=
  match fieldOf value key with Some (NumberJ z) => Some z | _ => None end.

Definition objectAt (value : option JsonValue) (key : string) : option JsonValue :=
  match fieldOf value key with Some (ArrayJ l) => Some (ArrayJ l) | Some (ObjectJ fields) => Some (ObjectJ fields) | _ => None end.

Definition coerceGovernanceAuditRecord (raw : option JsonValue) : option GovernanceAuditRecord :=
  seq ← numberAt raw "seq";
  timestamp ← textAt raw "timestamp";
  type ← textAt raw "type";
  payloadHash ← textAt raw "payloadHash";
  prevRecordHash ← textAt raw "prevRecordHash";
  recordHash ← textAt raw "recordHash";
  signature ← textAt raw "signature";
  Some {| ga_seq := seq; ga_timestamp := timestamp; ga_type := type; ga_actor := textAt raw "actor"; ga_subject := textAt raw "subject";
    ga_scope := ofJson <$> objectAt raw "scope"; ga_payload := default (TextJ "undefined") (fieldOf raw "payload");
    ga_payloadHash := payloadHash; ga_prevRecordHash := prevRecordHash; ga_recordHash := recordHash; ga_signature := signature;
    ga_expiresAtMs := numberAt raw "expiresAtMs" |}.

(** ** Configuration and manifest *)

Inductive GovernanceAuditRetentionMode := delete_mode | archive_mode.

#[export] Instance retention_mode_eq_dec : EqDecision GovernanceAuditRetentionMode.
Proof. solve_decision. Defined.

Definition modeText (mode : GovernanceAuditRetentionMode) : string := match mode with delete_mode => "delete" | archive_mode => "archive" end.

(** The fields that the constructors set. *)
Record GovernanceAuditLogConfig := {
  gc_signingKey : string;
  gc_redaction : CompiledRedactionPolicy;
  gc_retentionMs : option Z;
  gc_maxEntries : option Z;
  gc_retentionMode : GovernanceAuditRetentionMode;
  gc_legalHold : bool;
  gc_storagePrefix : string;
}.

Record GovernanceAuditManifest := {
  gm_updatedAt : Z;
  gm_nextSeq : Z;
  gm_activeSeqs : list Z;
  gm_archivedSeqs : list Z;
  gm_activeAnchorPrevRecordHash : string;
  gm_lastRecordHash : string;
  gm_retentionMode : GovernanceAuditRetentionMode;
  gm_legalHold : bool;
}.

Definition buildDefaultManifest (now : Z) (mode : GovernanceAuditRetentionMode) (legalHold : bool) : GovernanceAuditManifest := {|
  gm_updatedAt := now; gm_nextSeq := 1; gm_activeSeqs := []; gm_archivedSeqs := []; gm_activeAnchorPrevRecordHash := "";
  gm_lastRecordHash := ""; gm_retentionMode := mode; gm_legalHold := legalHold |}.

Definition manifestJson (m : GovernanceAuditManifest) : JsonValue :=
  ObjectJ [("version", NumberJ 1); ("updatedAt", NumberJ (gm_updatedAt m)); ("nextSeq", NumberJ (gm_nextSeq m));
    ("activeSeqs", ArrayJ (map NumberJ (gm_activeSeqs m))); ("archivedSeqs", ArrayJ (map NumberJ (gm_archivedSeqs m)));
    ("activeAnchorPrevRecordHash", TextJ (gm_activeAnchorPrevRecordHash m)); ("lastRecordHash", TextJ (gm_lastRecordHash m));
    ("retentionMode", TextJ (modeText (gm_retentionMode m))); ("legalHold", BoolJ (gm_legalHold m))].

Definition seqsAt (value : option JsonValue) (key : string) : option (list Z) :=
  match fieldOf value key with Some (ArrayJ l) => Some (omap (fun v => match v with NumberJ z => Some z | _ => None end) l) | _ => None end.

Definition modeAt (value : option JsonValue) (key : string) : option GovernanceAuditRetentionMode :=
  match fieldOf value key with
  | Some (TextJ s) => if String.eqb s "delete" then Some delete_mode else if String.eqb s "archive" then Some archive_mode else None
  | _ => None
  end.

Definition boolAt (value : option JsonValue) (key : string) : option bool :=
  match fieldOf value key with Some (BoolJ b) => Some b | _ => None end.

Definition coerceManifest (raw : option JsonValue) : option GovernanceAuditManifest :=
  version ← numberAt raw "version";
  _ ← (if version =? 1 then Some tt else None : option unit);
  updatedAt ← numberAt raw "updatedAt";
  nextSeq ← numberAt raw "nextSeq";
  activeSeqs ← seqsAt raw "activeSeqs";
  archivedSeqs ← seqsAt raw "archivedSeqs";
  anchor ← textAt raw "activeAnchorPrevRecordHash";
  lastRecordHash ← textAt raw "lastRecordHash";
  mode ← modeAt raw "retentionMode";
  legalHold ← boolAt raw "legalHold";
  Some {| gm_updatedAt := updatedAt; gm_nextSeq := nextSeq; gm_activeSeqs := activeSeqs; gm_archivedSeqs := archivedSeqs;
    gm_activeAnchorPrevRecordHash := anchor; gm_lastRecordHash := lastRecordHash; gm_retentionMode := mode; gm_legalHold := legalHold |}.

Definition manifestKey (storagePrefix : string) : string := storagePrefix +:+ ":manifest".
Definition recordKey (storagePrefix : string) (seq : Z) : string := storagePrefix +:+ ":record:" +:+ pretty seq.

(** ** Building and verifying records *)

Record GovernanceAuditVerification := {
  gv_valid : bool;
  gv_entries : nat;
  gv_archivedEntries : option nat;
  gv_brokenAt : option Z;
  gv_message : option string;
  gv_anchorPrevRecordHash : option string;
}.

Definition brokenAt (entries : nat) (seq : Z) (message : string) : GovernanceAuditVerification := {|
  gv_valid := false; gv_entries := entries; gv_archivedEntries := None; gv_brokenAt := Some seq; gv_message := Some message;
  gv_anchorPrevRecordHash := None |}.

(** [{ ...result, archivedEntries, anchorPrevRecordHash }]. *)
Definition with_archived (n : nat) (anchor : option string) (v : GovernanceAuditVerification) : GovernanceAuditVerification := {|
  gv_valid := gv_valid v; gv_entries := gv_entries v; gv_archivedEntries := Some n; gv_brokenAt := gv_brokenAt v; gv_message := gv_message v;
  gv_anchorPrevRecordHash := anchor |}.

(** The readings of the clock during a call. *)
Record Clock := { at_load : Z; at_policy : Z; at_build : Z; at_save : Z; at_prune : Z }.

Section crypto.
Context (quote sha256 : string -> string) (hmac : string -> string -> string) (toISOString : Z -> string).

Definition computeHash (value : JsonValue) : string := sha256 (stableStringifyJson quote value).

Definition signRecord (signingKey recordHash : string) : string := hmac signingKey recordHash.

Definition buildRecord (event : GovernanceAuditEvent) (seq now : Z) (signingKey : string) (redaction : CompiledRedactionPolicy)
    (prevRecordHash : string) (retentionMs : option Z) : GovernanceAuditRecord :=
  let payload := redactPayload (ge_payload event) redaction in
  let actor := if rp_redactActors redaction then Some REDACTED_MARKER else ge_actor event in
  let base recordHash signature := {|
    ga_seq := seq; ga_timestamp := default (toISOString now) (ge_timestamp event); ga_type := ge_type event;
    ga_actor := truthy actor; ga_subject := truthy (ge_subject event); ga_scope := scopeValue <$> ge_scope event;
    ga_payload := payload; ga_payloadHash := computeHash payload; ga_prevRecordHash := prevRecordHash;
    ga_recordHash := recordHash; ga_signature := signature; ga_expiresAtMs := (fun ms => now + ms) <$> retentionMs |} in
  let recordHash := computeHash (canonicalizeRecord (base "" "")) in
  base recordHash (signRecord signingKey recordHash).

Fixpoint verifyRecords (signingKey : string) (entries : nat) (previousHash : string) (records : list GovernanceAuditRecord) : GovernanceAuditVerification :=
  match records with
  | [] => {| gv_valid := true; gv_entries := entries; gv_archivedEntries := None; gv_brokenAt := None; gv_message := None; gv_anchorPrevRecordHash := None |}
  | record :: rest =>
      if negb (String.eqb (ga_recordHash record) (computeHash (canonicalizeRecord record))) then brokenAt entries (ga_seq record) "record hash mismatch"
      else if negb (String.eqb (ga_signature record) (signRecord signingKey (ga_recordHash record))) then brokenAt entries (ga_seq record) "record signature mismatch"
      else if negb (String.eqb (ga_prevRecordHash record) previousHash) then brokenAt entries (ga_seq record) "record chain link broken"
      else verifyRecords signingKey entries (ga_recordHash record) rest
  end.

Definition verifyRecordChain (records : list GovernanceAuditRecord) (signingKey initialPrevRecordHash : string) : GovernanceAuditVerification :=
  verifyRecords signingKey (length records) initialPrevRecordHash records.

(** The two chains of a log and the link between them. *)
Definition verifyChains (signingKey anchor : string) (archivedRecords activeRecords : list GovernanceAuditRecord) : GovernanceAuditVerification :=
  let archivedResult := verifyRecordChain archivedRecords signingKey "" in
  let n := length archivedRecords in
  let anchorField := truthy (Some anchor) in
  if negb (gv_valid archivedResult) then with_archived n None archivedResult
  else match last archivedRecords, activeRecords with
    | Some r, first :: _ =>
        if negb (String.eqb anchor (ga_recordHash r)) then
          with_archived n None (brokenAt (length activeRecords) (ga_seq first) "active chain anchor mismatch")
        else with_archived n anchorField (verifyRecordChain activeRecords signingKey anchor)
    | _, _ => with_archived n anchorField (verifyRecordChain activeRecords signingKey anchor)
    end.

(** ** Which records are removed *)

Definition expired (now : Z) (record : GovernanceAuditRecord) : bool :=
  match ga_expiresAtMs record with Some t => t <=? now | None => false end.

(** The set [removable], as the list of its numbers. *)
Definition removable (maxEntries : option Z) (now : Z) (records : list GovernanceAuditRecord) : list Z :=
  let expiredSeqs := map ga_seq (List.filter (expired now) records) in
  let retained := List.filter (fun r => negb (bool_decide (ga_seq r ∈ expiredSeqs))) records in
  expiredSeqs ++
  match maxEntries with
  | Some limit =>
      if (0 <=? limit) && (limit <? Z.of_nat (length retained))
      then map ga_seq (take (length retained - Z.to_nat limit) retained) else []
  | None => []
  end.

Definition isIn (l : list Z) (record : GovernanceAuditRecord) : bool := bool_decide (ga_seq record ∈ l).

Definition archiving (cfg : GovernanceAuditLogConfig) : bool := gc_legalHold cfg || bool_decide (gc_retentionMode cfg = archive_mode).

(** ** The log in memory *)

Record InMemoryGovernanceAuditLog := {
  activeRecords : list GovernanceAuditRecord;
  archivedRecords : list GovernanceAuditRecord;
  activeAnchorPrevRecordHash : string;
  lastRecordHash : string;
}.

Definition emptyLog : InMemoryGovernanceAuditLog := {| activeRecords := []; archivedRecords := []; activeAnchorPrevRecordHash := ""; lastRecordHash := "" |}.

Definition prune (cfg : GovernanceAuditLogConfig) (now : Z) (log : InMemoryGovernanceAuditLog) : InMemoryGovernanceAuditLog * nat :=
  let seqs := removable (gc_maxEntries cfg) now (activeRecords log) in
  match seqs with
  | [] => (log, 0%nat)
  | _ =>
      let removed := List.filter (isIn seqs) (activeRecords log) in
      let active := List.filter (fun r => negb (isIn seqs r)) (activeRecords log) in
      ({| activeRecords := active;
          archivedRecords := if archiving cfg then archivedRecords log ++ removed else archivedRecords log;
          activeAnchorPrevRecordHash := match active with r :: _ => ga_prevRecordHash r | [] => lastRecordHash log end;
          lastRecordHash := lastRecordHash log |}, length removed)
  end.

Definition nextSeq (log : InMemoryGovernanceAuditLog) : Z :=
  match last (activeRecords log), last (archivedRecords log) with Some r, _ => ga_seq r | None, Some r => ga_seq r | None, None => 0 end + 1.

Definition append (cfg : GovernanceAuditLogConfig) (event : GovernanceAuditEvent) (ck : Clock) (log : InMemoryGovernanceAuditLog)
    : InMemoryGovernanceAuditLog * GovernanceAuditRecord :=
  let record := buildRecord event (nextSeq log) (at_build ck) (gc_signingKey cfg) (gc_redaction cfg) (lastRecordHash log) (gc_retentionMs cfg) in
  let active := activeRecords log ++ [record] in
  let log := {| activeRecords := active; archivedRecords := archivedRecords log;
                activeAnchorPrevRecordHash := if (length active =? 1)%nat then ga_prevRecordHash record else activeAnchorPrevRecordHash log;
                lastRecordHash := ga_recordHash record |} in
  ((prune cfg (at_prune ck) log).1, record).

Definition getAll (includeArchived : bool) (log : InMemoryGovernanceAuditLog) : list GovernanceAuditRecord :=
  if includeArchived then archivedRecords log ++ activeRecords log else activeRecords log.

Definition verify (cfg : GovernanceAuditLogConfig) (log : InMemoryGovernanceAuditLog) : GovernanceAuditVerification :=
  verifyChains (gc_signingKey cfg) (activeAnchorPrevRecordHash log) (archivedRecords log) (activeRecords log).

(** [clear] replaces the log by [emptyLog]. *)
Definition clear (log : InMemoryGovernanceAuditLog) : InMemoryGovernanceAuditLog := emptyLog.

Definition exportRecords (includeArchived : bool) (log : InMemoryGovernanceAuditLog) : list GovernanceAuditRecord * list GovernanceAuditRecord :=
  (activeRecords log, if includeArchived then archivedRecords log else []).

(** ** The durable log *)

Inductive audit_error :=
| EmptySigningKey
| InvalidManifest
| MissingRecord (seq : Z)
| LegalHoldImmutable
| RetentionDowngrade
| VerificationFailed (message : string)
| BackendFailed.

(** The backend. [writes]: how many more writes succeed; [None] is no limit. *)
Record Backend := { entries : gmap string JsonValue; writes : option nat }.

Abbreviation Io := (ST Backend audit_error).

Definition backend_get (key : string) : Io (option JsonValue) := fun b => (b, Ok (entries b !! key)).

Definition backend_write (f : gmap string JsonValue -> gmap string JsonValue) : Io unit := fun b =>
  match writes b with
  | Some O => (b, Err BackendFailed)
  | Some (S n) => ({| entries := f (entries b); writes := Some n |}, Ok tt)
  | None => ({| entries := f (entries b); writes := None |}, Ok tt)
  end.

Definition backend_set (key : string) (value : JsonValue) : Io unit := backend_write (<[key := value]>).
Definition backend_delete (key : string) : Io unit := backend_write (base.delete key).

Section durable.
Context (cfg : GovernanceAuditLogConfig).

Definition loadManifest (now : Z) : Io GovernanceAuditManifest :=
  raw ← backend_get (manifestKey (gc_storagePrefix cfg));
  match raw, coerceManifest raw with
  | None, _ => mret (buildDefaultManifest now (gc_retentionMode cfg) (gc_legalHold cfg))
  | _, None => st_throw InvalidManifest
  | _, Some manifest => mret manifest
  end.

Definition saveManifest (manifest : GovernanceAuditManifest) : Io unit :=
  backend_set (manifestKey (gc_storagePrefix cfg)) (manifestJson manifest).

Definition loadRecord (seq : Z) : Io (option GovernanceAuditRecord) :=
  raw ← backend_get (recordKey (gc_storagePrefix cfg) seq);
  mret (coerceGovernanceAuditRecord raw).

Fixpoint loadRecords (seqs : list Z) (strict : bool) : Io (list GovernanceAuditRecord) :=
  match seqs with
  | [] => mret []
  | seq :: rest =>
      record ← loadRecord seq;
      match record with
      | None => if strict then st_throw (MissingRecord seq) else loadRecords rest strict
      | Some record => records ← loadRecords rest strict; mret (record :: records)
      end
  end.

Definition applyRetentionPolicy (now : Z) (manifest : GovernanceAuditManifest) : Io GovernanceAuditManifest :=
  st_throw_if (gm_legalHold manifest && negb (gc_legalHold cfg)) LegalHoldImmutable ;;
  st_throw_if (bool_decide (gm_retentionMode manifest = archive_mode) && bool_decide (gc_retentionMode cfg = delete_mode)) RetentionDowngrade ;;
  if bool_decide (gm_retentionMode manifest = gc_retentionMode cfg) && Bool.eqb (gm_legalHold manifest) (gc_legalHold cfg) then mret manifest
  else
    let nextManifest := {| gm_updatedAt := now; gm_nextSeq := gm_nextSeq manifest; gm_activeSeqs := gm_activeSeqs manifest;
      gm_archivedSeqs := gm_archivedSeqs manifest; gm_activeAnchorPrevRecordHash := gm_activeAnchorPrevRecordHash manifest;
      gm_lastRecordHash := gm_lastRecordHash manifest;
      gm_retentionMode := match gm_retentionMode manifest with archive_mode => archive_mode | delete_mode => gc_retentionMode cfg end;
      gm_legalHold := gm_legalHold manifest || gc_legalHold cfg |} in
    saveManifest nextManifest ;; mret nextManifest.

Definition pruneInternal (now : Z) (manifest : GovernanceAuditManifest) : Io (nat * GovernanceAuditManifest) :=
  activeRecords ← loadRecords (gm_activeSeqs manifest) true;
  let seqs := removable (gc_maxEntries cfg) now activeRecords in
  match seqs with
  | [] => mret (0%nat, manifest)
  | _ =>
      let removedRecords := List.filter (isIn seqs) activeRecords in
      let nextActiveSeqs := List.filter (fun seq => negb (bool_decide (seq ∈ seqs))) (gm_activeSeqs manifest) in
      let nextArchivedSeqs := if archiving cfg then gm_archivedSeqs manifest ++ map ga_seq removedRecords else gm_archivedSeqs manifest in
      (if negb (gc_legalHold cfg) && bool_decide (gc_retentionMode cfg = delete_mode)
       then st_forM (fun record => backend_delete (recordKey (gc_storagePrefix cfg) (ga_seq record))) removedRecords else mret tt) ;;
      let nextManifest := {| gm_updatedAt := now; gm_nextSeq := gm_nextSeq manifest; gm_activeSeqs := nextActiveSeqs; gm_archivedSeqs := nextArchivedSeqs;
        gm_activeAnchorPrevRecordHash :=
          match nextActiveSeqs with
          | seq :: _ => default (gm_activeAnchorPrevRecordHash manifest) (ga_prevRecordHash <$> List.find (fun record => ga_seq record =? seq) activeRecords)
          | [] => gm_lastRecordHash manifest
          end;
        gm_lastRecordHash := gm_lastRecordHash manifest; gm_retentionMode := gm_retentionMode manifest; gm_legalHold := gm_legalHold manifest |} in
      saveManifest nextManifest ;; mret (length removedRecords, nextManifest)
  end.

Definition verifyInternal (manifest : GovernanceAuditManifest) : Io GovernanceAuditVerification :=
  archivedRecords ← loadRecords (gm_archivedSeqs manifest) true;
  activeRecords ← loadRecords (gm_activeSeqs manifest) true;
  mret (verifyChains (gc_signingKey cfg) (gm_activeAnchorPrevRecordHash manifest) archivedRecords activeRecords).

(** The constructor's check and [initialize]. *)
Definition create (ck : Clock) : Io unit :=
  st_throw_if (String.eqb (trim (gc_signingKey cfg)) "") EmptySigningKey ;;
  manifest ← loadManifest (at_load ck);
  persistedManifest ← applyRetentionPolicy (at_policy ck) manifest;
  verification ← verifyInternal persistedManifest;
  if gv_valid verification then mret tt else st_throw (VerificationFailed (default "unknown error" (gv_message verification))).

Definition durable_append (event : GovernanceAuditEvent) (ck : Clock) : Io GovernanceAuditRecord :=
  manifest ← loadManifest (at_load ck);
  manifest ← applyRetentionPolicy (at_policy ck) manifest;
  let record := buildRecord event (gm_nextSeq manifest) (at_build ck) (gc_signingKey cfg) (gc_redaction cfg) (gm_lastRecordHash manifest) (gc_retentionMs cfg) in
  backend_set (recordKey (gc_storagePrefix cfg) (ga_seq record)) (recordJson record) ;;
  let nextManifest := {| gm_updatedAt := at_save ck; gm_nextSeq := ga_seq record + 1; gm_activeSeqs := gm_activeSeqs manifest ++ [ga_seq record];
    gm_archivedSeqs := gm_archivedSeqs manifest;
    gm_activeAnchorPrevRecordHash := match gm_activeSeqs manifest with [] => ga_prevRecordHash record | _ => gm_activeAnchorPrevRecordHash manifest end;
    gm_lastRecordHash := ga_recordHash record; gm_retentionMode := gm_retentionMode manifest; gm_legalHold := gm_legalHold manifest |} in
  saveManifest nextManifest ;;
  pruneInternal (at_prune ck) nextManifest ;;
  mret record.

Definition durable_getAll (includeArchived : bool) (ck : Clock) : Io (list GovernanceAuditRecord) :=
  manifest ← loadManifest (at_load ck);
  archivedRecords ← (if includeArchived then loadRecords (gm_archivedSeqs manifest) false else mret []);
  activeRecords ← loadRecords (gm_activeSeqs manifest) false;
  mret (archivedRecords ++ activeRecords).

Definition durable_prune (ck : Clock) : Io nat :=
  manifest ← loadManifest (at_load ck);
  manifest ← applyRetentionPolicy (at_policy ck) manifest;
  result ← pruneInternal (at_prune ck) manifest;
  mret result.1.

Definition durable_verify (ck : Clock) : Io GovernanceAuditVerification :=
  manifest ← loadManifest (at_load ck);
  verifyInternal manifest.

Definition durable_clear (ck : Clock) : Io unit :=
  manifest ← loadManifest (at_load ck);
  st_forM (fun seq => backend_delete (recordKey (gc_storagePrefix cfg) seq)) (gm_archivedSeqs manifest ++ gm_activeSeqs manifest) ;;
  backend_delete (manifestKey (gc_storagePrefix cfg)).

(** The records of an export: the active ones and the archived ones. *)
Definition durable_export (includeArchived : bool) (ck : Clock) : Io (list GovernanceAuditRecord * list GovernanceAuditRecord) :=
  manifest ← loadManifest (at_load ck);
  archivedRecords ← (if includeArchived then loadRecords (gm_archivedSeqs manifest) true else mret []);
  activeRecords ← loadRecords (gm_activeSeqs manifest) true;
  mret (activeRecords, archivedRecords).
End durable.
End crypto.
