(* ===== verification/GovernanceAuditSpec.v ===== *)
(** * Governance audit log: verification, tampering, retention, redaction *)
From stdpp Require Import pretty sorting.
From S2P Require Import Prelude JsMap JsString Projection ProjectionJson GovernanceAudit.
#[local] Open Scope string_scope.
#[local] Open Scope list_scope.
#[local] Open Scope Z_scope.

(** ** Round trips *)

Lemma seqs_roundtrip l : omap (fun v => match v with NumberJ z => Some z | _ => None end) (map NumberJ l) = l.
Proof. induction l as [|z l IH]; cbn; [done|]. by f_equal. Qed.

Lemma manifest_roundtrip m : coerceManifest (Some (manifestJson m)) = Some m.
Proof. unfold coerceManifest. destruct m as [? ? active archived ? ? [] ?]; cbn; by rewrite !seqs_roundtrip. Qed.

Lemma toJson_ofJson j : toJsonValue (ofJson j) = j.
Proof.
  induction j as [| | | |l Hl|fields Hf] using JsonValue_induction; cbn; try done; f_equal.
  - induction Hl as [|v l Hv _ IH]; cbn; [done|]. by f_equal.
  - induction Hf as [|[k v] l Hv _ IH]; cbn in *; [done|]. by rewrite Hv, IH.
Qed.

(** Reading the record back gives the record. *)
Definition stable (r : GovernanceAuditRecord) : Prop := coerceGovernanceAuditRecord (Some (recordJson r)) = Some r.

Lemma stable_fields r : (forall v, ga_scope r = Some v -> exists fields, cloneJson v = Some (ObjectJ fields) /\ ofJson (ObjectJ fields) = v) -> stable r.
Proof.
  unfold stable, coerceGovernanceAuditRecord, recordJson. destruct r as [seq ts ty actor subject scope payload ph prev hash sig expires]. cbn [ga_scope ga_seq ga_timestamp ga_type ga_actor ga_subject ga_payload ga_payloadHash ga_prevRecordHash ga_recordHash ga_signature ga_expiresAtMs].
  intros Hs. destruct scope as [v|]; [destruct (Hs v eq_refl) as (fields & Hc & Ho)|]; cbn [mbind option_bind]; [rewrite Hc|]; destruct actor, subject, expires; cbn; by rewrite ?Hc, <- ?Ho.
Qed.

(** No field of the scope is there and undefined. *)
Definition cleanScope (scope : PolicyScope) : Prop := Forall (fun kv => is_Some kv.2) scope.

Lemma scope_clone scope : cleanScope scope -> exists fields, cloneJson (scopeValue scope) = Some (ObjectJ fields) /\ ofJson (ObjectJ fields) = scopeValue scope.
Proof.
  intros H. exists (map (fun kv => (kv.1, TextJ (default "" kv.2))) scope). unfold scopeValue. cbn. split; repeat f_equal.
  - induction H as [|[k v] l [s Hs] _ IH]; cbn in *; [done|]. rewrite Hs. cbn. by f_equal.
  - induction H as [|[k v] l [s Hs] _ IH]; cbn in *; [done|]. rewrite Hs. by f_equal.
Qed.

Definition cleanEvent (e : GovernanceAuditEvent) : Prop := forall scope, ge_scope e = Some scope -> cleanScope scope.

(** ** Which records a pruning removes *)

(** Of two records the first expires first. *)
Definition expiresBefore (a b : GovernanceAuditRecord) : Prop := forall now, expired now b = true -> expired now a = true.

(** How many records a pruning removes: the expired ones, and of the others the
    ones over the limit. *)
Definition removeCount (maxEntries : option Z) (now : Z) (l : list GovernanceAuditRecord) : nat :=
  let e := length (List.filter (expired now) l) in
  (e + match maxEntries with Some limit => if (0 <=? limit)%Z then (length l - e) - Z.to_nat limit else 0 | None => 0 end)%nat.

Lemma filter_all_true {A} (p : A -> bool) l : Forall (fun a => p a = true) l -> List.filter p l = l.
Proof. induction 1 as [|a l Ha _ IH]; cbn; [done|]. by rewrite Ha, IH. Qed.

Lemma filter_all_false {A} (p : A -> bool) l : Forall (fun a => p a = false) l -> List.filter p l = [].
Proof. induction 1 as [|a l Ha _ IH]; cbn; [done|]. by rewrite Ha. Qed.

Lemma sorted_weaken {A} (R S : A -> A -> Prop) l : (forall a b, R a b -> S a b) -> StronglySorted R l -> StronglySorted S l.
Proof. intros H. induction 1; constructor; [done|]. eapply Forall_impl; [eassumption|]. auto. Qed.

Lemma filter_prefix {A} (p : A -> bool) l : StronglySorted (fun a b => p b = true -> p a = true) l ->
  List.filter p l = take (length (List.filter p l)) l.
Proof.
  induction 1 as [|a l Hs IH Ha]; cbn; [done|]. destruct (p a) eqn:E; cbn; [by rewrite <- IH|].
  rewrite filter_all_false; [done|]. eapply Forall_impl; [exact Ha|]. intros b Hb. cbn in Hb |- *. destruct (p b); [|done]. specialize (Hb eq_refl). congruence.
Qed.

(** Records with different numbers, of which the first [n] are picked. *)
Lemma isIn_take n l : NoDup (map ga_seq l) ->
  List.filter (isIn (map ga_seq (take n l))) l = take n l /\ List.filter (fun r => negb (isIn (map ga_seq (take n l)) r)) l = drop n l.
Proof.
  intros Hn. rewrite <- (take_drop n l) in Hn. rewrite map_app in Hn. apply NoDup_app in Hn as (_ & Hn & _).
  assert (Ht : Forall (fun r => isIn (map ga_seq (take n l)) r = true) (take n l)).
  { apply Forall_forall. intros r Hr. apply bool_decide_eq_true. by apply list_elem_of_fmap_2. }
  assert (Hd : Forall (fun r => isIn (map ga_seq (take n l)) r = false) (drop n l)).
  { apply Forall_forall. intros r Hr. apply bool_decide_eq_false. intros Hin. apply (Hn _ Hin). by apply list_elem_of_fmap_2. }
  pose proof (take_drop n l) as Hl. remember (take n l) as a eqn:E1. remember (drop n l) as b eqn:E2. clear E1 E2. rewrite <- Hl, !List.filter_app. split.
  - by rewrite filter_all_true, filter_all_false, app_nil_r by done.
  - rewrite filter_all_false, filter_all_true; [done|..].
    + eapply Forall_impl; [exact Hd|]. intros r Hr. cbn in *. by rewrite Hr.
    + eapply Forall_impl; [exact Ht|]. intros r Hr. cbn in *. by rewrite Hr.
Qed.

Lemma removable_take maxEntries now l : NoDup (map ga_seq l) -> StronglySorted expiresBefore l ->
  removable maxEntries now l = map ga_seq (take (removeCount maxEntries now l) l).
Proof.
  intros Hn Hs. unfold removable, removeCount.
  assert (He : List.filter (expired now) l = take (length (List.filter (expired now) l)) l).
  { apply filter_prefix. eapply sorted_weaken; [|exact Hs]. intros a b Hab. apply Hab. }
  set (e := length (List.filter (expired now) l)) in *. clearbody e. rewrite He. destruct (isIn_take e l Hn) as [_ Hr]. unfold isIn in Hr. rewrite Hr.
  rewrite <- take_take_drop, map_app. f_equal. rewrite length_drop. destruct maxEntries as [limit|]; [|by rewrite take_0].
  destruct (Z.leb_spec 0 limit); cbn [andb]; [|by rewrite take_0]. destruct (Z.ltb_spec limit (Z.of_nat (length l - e))); [done|].
  replace (length l - e - Z.to_nat limit)%nat with O by lia. by rewrite take_0.
Qed.

(** ** Chains *)

Section crypto.
Context (quote sha256 : string -> string) (hmac : string -> string -> string) (toISOString : Z -> string).

Notation build := (buildRecord quote sha256 hmac toISOString).

(** What the code computes for a record. *)
Definition sealed (key : string) (r : GovernanceAuditRecord) : Prop :=
  ga_recordHash r = computeHash quote sha256 (canonicalizeRecord r) /\ ga_signature r = signRecord hmac key (ga_recordHash r).

Fixpoint chain (key prev : string) (l : list GovernanceAuditRecord) : Prop :=
  match l with [] => True | r :: l => sealed key r /\ ga_prevRecordHash r = prev /\ chain key (ga_recordHash r) l end.

(** The hash that the next record carries. *)
Definition lastHash (prev : string) (l : list GovernanceAuditRecord) : string := match last l with Some r => ga_recordHash r | None => prev end.

Lemma lastHash_snoc prev l r : lastHash prev (l ++ [r]) = ga_recordHash r.
Proof. unfold lastHash. by rewrite last_snoc. Qed.

Lemma lastHash_cons prev r l : lastHash prev (r :: l) = lastHash (ga_recordHash r) l.
Proof. unfold lastHash. rewrite last_cons. by destruct (last l). Qed.

Lemma lastHash_app prev l1 l2 : lastHash prev (l1 ++ l2) = lastHash (lastHash prev l1) l2.
Proof. unfold lastHash. rewrite last_app. by destruct (last l2). Qed.

Lemma chain_app key prev l1 l2 : chain key prev (l1 ++ l2) <-> chain key prev l1 /\ chain key (lastHash prev l1) l2.
Proof.
  revert prev. induction l1 as [|r l1 IH]; intros prev; [by cbn; tauto|]. cbn [chain app]. rewrite IH, lastHash_cons. tauto.
Qed.

Lemma verifyRecords_valid key n prev l : gv_valid (verifyRecords quote sha256 hmac key n prev l) = true <-> chain key prev l.
Proof.
  revert prev. induction l as [|r l IH]; intros prev; cbn; [done|]. unfold sealed.
  destruct (String.eqb_spec (ga_recordHash r) (computeHash quote sha256 (canonicalizeRecord r))); cbn; [|naive_solver].
  destruct (String.eqb_spec (ga_signature r) (signRecord hmac key (ga_recordHash r))); cbn; [|naive_solver].
  destruct (String.eqb_spec (ga_prevRecordHash r) prev); cbn; [|naive_solver]. rewrite IH. naive_solver.
Qed.

Lemma verifyChains_valid key anchor archived active : gv_valid (verifyChains quote sha256 hmac key anchor archived active) = true <->
  chain key "" archived /\ chain key anchor active /\ (archived <> [] -> active <> [] -> anchor = lastHash "" archived).
Proof.
  unfold verifyChains, lastHash. rewrite <- (verifyRecords_valid key (length archived) "" archived), <- (verifyRecords_valid key (length active) anchor active).
  change (verifyRecords quote sha256 hmac key (length archived) "" archived) with (verifyRecordChain quote sha256 hmac archived key "").
  destruct (gv_valid (verifyRecordChain _ _ _ archived _ _)) eqn:E; cbn [negb]; [|cbn; rewrite E; naive_solver].
  destruct (last archived) as [r|] eqn:Hl, active as [|a active]; cbn.
  - split; [|naive_solver]. done.
  - destruct (String.eqb_spec anchor (ga_recordHash r)) as [He|He]; cbn; [naive_solver|]. split; [done|]. intros (_ & _ & H). destruct He. apply H; [|done]. by intros ->.
  - split; [|naive_solver]. done.
  - apply last_None in Hl as ->. split; [|naive_solver]. intros H. split_and!; try done.
Qed.

Lemma build_sealed event seq now key redaction prev ret : sealed key (build event seq now key redaction prev ret).
Proof. done. Qed.

Lemma build_stable event seq now key redaction prev ret : cleanEvent event -> stable (build event seq now key redaction prev ret).
Proof.
  intros Hc. apply stable_fields. intros v. cbn. destruct (ge_scope event) as [scope|] eqn:E; cbn; [|done]. intros [= <-]. by apply scope_clone, Hc.
Qed.
(** ** The states of a log *)

Context (cfg : GovernanceAuditLogConfig).

Notation key := (gc_signingKey cfg).

(** What holds of a log whose last record was built at time [T] or before and
    whose next record has the number [next]. *)
Record wf (T next : Z) (log : InMemoryGovernanceAuditLog) : Prop := {
  wf_archived : chain key "" (archivedRecords log);
  wf_active : chain key (activeAnchorPrevRecordHash log) (activeRecords log);
  wf_last : lastRecordHash log = lastHash (activeAnchorPrevRecordHash log) (activeRecords log);
  wf_mode : if archiving cfg then activeAnchorPrevRecordHash log = lastHash "" (archivedRecords log) else archivedRecords log = [];
  wf_seqs : StronglySorted Z.lt (map ga_seq (archivedRecords log ++ activeRecords log) ++ [next]);
  wf_next : archiving cfg = true -> next = nextSeq log;
  wf_expiry : exists ts, StronglySorted Z.le (ts ++ [T]) /\
    map ga_expiresAtMs (activeRecords log) = map (fun t => (fun ms => t + ms) <$> gc_retentionMs cfg) ts;
}.

Lemma wf_empty T : wf T 1 emptyLog.
Proof. split; cbn; try done. - by destruct (archiving cfg). - repeat constructor. - exists []. split; [repeat constructor|done]. Qed.

Lemma sorted_app_l {A} (R : A -> A -> Prop) l1 l2 : StronglySorted R (l1 ++ l2) -> StronglySorted R l1.
Proof. intros H. induction l1 as [|a l1 IH]; [constructor|]. cbn in H. inversion H as [|? ? Hs Hf]; subst. apply Forall_app in Hf as [Hf _]. constructor; auto. Qed.

Lemma sorted_app_r {A} (R : A -> A -> Prop) l1 l2 : StronglySorted R (l1 ++ l2) -> StronglySorted R l2.
Proof. intros H. induction l1 as [|a l1 IH]; [done|]. inversion H; auto. Qed.

Lemma audit_sorted_snoc {A} (R : A -> A -> Prop) l a b : Transitive R -> R a b -> StronglySorted R (l ++ [a]) -> StronglySorted R (l ++ [a; b]).
Proof.
  intros Ht Hab. induction l as [|c l IH]; cbn; [by repeat constructor|]. inversion 1 as [|? ? Hs Hf]; subst. constructor; [auto|].
  apply Forall_app in Hf as [Hl Hc]. apply Forall_app. split; [done|]. inversion Hc as [|? ? Hca]; subst. repeat constructor; [done|by etrans].
Qed.

Lemma sorted_replace_last {A} (R : A -> A -> Prop) l a b : Transitive R -> R a b -> StronglySorted R (l ++ [a]) -> StronglySorted R (l ++ [b]).
Proof.
  intros Ht Hab. induction l as [|c l IH]; cbn; [by repeat constructor|]. inversion 1 as [|? ? Hs Hf]; subst. constructor; [auto|].
  apply Forall_app in Hf as [Hl Hc]. apply Forall_app. split; [done|]. inversion Hc as [|? ? Hca]; subst. constructor; [by etrans|done].
Qed.

Lemma sorted_lt_NoDup l : StronglySorted Z.lt l -> NoDup l.
Proof.
  induction 1 as [|a l _ IH Hf]; constructor; [|done]. intros Hin. rewrite Forall_forall in Hf. specialize (Hf _ Hin). lia.
Qed.

Lemma wf_NoDup T next log : wf T next log -> NoDup (map ga_seq (archivedRecords log ++ activeRecords log)).
Proof. intros H. by eapply sorted_lt_NoDup, sorted_app_l, wf_seqs. Qed.

Lemma wf_NoDup_active T next log : wf T next log -> NoDup (map ga_seq (activeRecords log)).
Proof. intros H. apply wf_NoDup in H. rewrite map_app in H. by apply NoDup_app in H as (_ & _ & ?). Qed.

Lemma wf_expires T next log : wf T next log -> StronglySorted expiresBefore (activeRecords log).
Proof.
  intros H. destruct (wf_expiry _ _ _ H) as (ts & Hs & He). apply sorted_app_l in Hs. revert He. generalize (activeRecords log) as l.
  induction Hs as [|t ts Hs IH Hf]; intros [|r l]; cbn; try done; [constructor|]. intros [= Hr Hl]. constructor; [by apply IH|].
  apply Forall_forall. intros r' Hin now. apply (list_elem_of_fmap_2 ga_expiresAtMs) in Hin. change (map ga_expiresAtMs l) with (ga_expiresAtMs <$> l) in Hl. rewrite Hl in Hin.
  apply list_elem_of_fmap in Hin as (t' & Ht & Hin). rewrite Forall_forall in Hf. specialize (Hf _ Hin). unfold expired. rewrite Hr, Ht.
  destruct (gc_retentionMs cfg); cbn; [|done]. rewrite !Z.leb_le. lia.
Qed.

(** The log without its first [n] active records, and the log with one more. *)
Definition pruned (n : nat) (log : InMemoryGovernanceAuditLog) : InMemoryGovernanceAuditLog := {|
  activeRecords := drop n (activeRecords log);
  archivedRecords := if archiving cfg then archivedRecords log ++ take n (activeRecords log) else archivedRecords log;
  activeAnchorPrevRecordHash := lastHash (activeAnchorPrevRecordHash log) (take n (activeRecords log));
  lastRecordHash := lastRecordHash log |}.

Definition extended (record : GovernanceAuditRecord) (log : InMemoryGovernanceAuditLog) : InMemoryGovernanceAuditLog := {|
  activeRecords := activeRecords log ++ [record];
  archivedRecords := archivedRecords log;
  activeAnchorPrevRecordHash := activeAnchorPrevRecordHash log;
  lastRecordHash := ga_recordHash record |}.

Definition countAt (now : Z) (log : InMemoryGovernanceAuditLog) : nat := removeCount (gc_maxEntries cfg) now (activeRecords log).

Lemma removeCount_le mx now l : (removeCount mx now l <= length l)%nat.
Proof.
  unfold removeCount. assert (length (List.filter (expired now) l) <= length l)%nat.
  { induction l as [|r l IH]; cbn; [done|]. destruct (expired now r); cbn; lia. }
  destruct mx as [z|]; [destruct (0 <=? z)|]; lia.
Qed.

Lemma pruned_0 T next log : wf T next log -> pruned 0 log = log.
Proof. intros H. unfold pruned. cbn. rewrite app_nil_r. destruct log, (archiving cfg); done. Qed.

(** The anchor of what is left. *)
Lemma wf_anchor T next log n : wf T next log ->
  match drop n (activeRecords log) with r :: _ => ga_prevRecordHash r | [] => lastRecordHash log end =
  lastHash (activeAnchorPrevRecordHash log) (take n (activeRecords log)).
Proof.
  intros H. pose proof (wf_active _ _ _ H) as Ha. rewrite (wf_last _ _ _ H). rewrite <- (take_drop n (activeRecords log)) in Ha. apply chain_app in Ha as [_ Ha].
  destruct (drop n (activeRecords log)) as [|r l] eqn:Hd; [|by destruct Ha as (_ & ? & _)].
  rewrite <- (take_drop n (activeRecords log)) at 1. by rewrite Hd, app_nil_r.
Qed.

Lemma prune_pruned T next log now : wf T next log -> prune cfg now log = (pruned (countAt now log) log, countAt now log).
Proof.
  intros H. unfold prune. rewrite removable_take by (by eapply wf_NoDup_active || by eapply wf_expires). fold (countAt now log).
  pose proof (removeCount_le (gc_maxEntries cfg) now (activeRecords log)) as Hle. fold (countAt now log) in Hle. set (n := countAt now log) in *. clearbody n.
  destruct (isIn_take n (activeRecords log) (wf_NoDup_active _ _ _ H)) as [Ht Hd]. rewrite Ht, Hd, (wf_anchor _ _ _ _ H).
  destruct (map ga_seq (take n (activeRecords log))) as [|z l] eqn:E.
  - apply map_eq_nil in E. destruct n; [by erewrite pruned_0|]. destruct (activeRecords log); [cbn in *; lia|done].
  - rewrite length_take, Nat.min_l by done. done.
Qed.

Lemma nextSeq_all log : nextSeq log = match last (archivedRecords log ++ activeRecords log) with Some r => ga_seq r | None => 0 end + 1.
Proof. unfold nextSeq. rewrite last_app. by destruct (last (activeRecords log)), (last (archivedRecords log)). Qed.

Lemma all_pruned n log : archiving cfg = true -> archivedRecords (pruned n log) ++ activeRecords (pruned n log) = archivedRecords log ++ activeRecords log.
Proof. intros Ha. cbn. rewrite Ha, <- app_assoc. by rewrite take_drop. Qed.

Lemma pruned_wf T next n log : wf T next log -> wf T next (pruned n log).
Proof.
  intros H. pose proof (wf_active _ _ _ H) as Ha. rewrite <- (take_drop n (activeRecords log)) in Ha. apply chain_app in Ha as [Ht Hd].
  pose proof (wf_mode _ _ _ H) as Hm. pose proof (wf_archived _ _ _ H) as Harch. pose proof (wf_seqs _ _ _ H) as Hs. split.
  - cbn. destruct (archiving cfg); [|done]. apply chain_app. split; [done|]. by rewrite <- Hm.
  - done.
  - cbn. rewrite <- lastHash_app, take_drop. apply H.
  - cbn. destruct (archiving cfg); [by rewrite lastHash_app, Hm|done].
  - destruct (archiving cfg) eqn:E; [by rewrite all_pruned|]. cbn. rewrite E, Hm in *. cbn in *.
    rewrite <- (take_drop n (activeRecords log)), map_app, <- app_assoc in Hs. by apply sorted_app_r in Hs.
  - intros E. rewrite nextSeq_all, all_pruned, <- nextSeq_all by done. by apply H.
  - destruct (wf_expiry _ _ _ H) as (ts & Hts & He). exists (drop n ts). split.
    + rewrite <- (take_drop n ts), <- app_assoc in Hts. by apply sorted_app_r in Hts.
    + cbn. by rewrite <- !skipn_map, He.
Qed.

Lemma extended_wf T T' next log record : wf T next log -> T <= T' -> sealed key record -> ga_prevRecordHash record = lastRecordHash log ->
  ga_seq record = next -> ga_expiresAtMs record = (fun ms => T' + ms) <$> gc_retentionMs cfg -> wf T' (next + 1) (extended record log).
Proof.
  intros H HT Hr Hp Hq He. pose proof (wf_last _ _ _ H) as Hl. split.
  - apply H.
  - cbn. apply chain_app. split; [apply H|]. cbn. split_and!; [done|congruence|done].
  - cbn. by rewrite lastHash_snoc.
  - apply H.
  - pose proof (wf_seqs _ _ _ H) as Hs. cbn. rewrite app_assoc, map_app, <- app_assoc. cbn. rewrite Hq. apply audit_sorted_snoc; [intros ? ? ?; lia|lia|done].
  - intros _. rewrite nextSeq_all. cbn. by rewrite app_assoc, last_snoc, Hq.
  - destruct (wf_expiry _ _ _ H) as (ts & Hts & Hm). exists (ts ++ [T']). split.
    + rewrite <- app_assoc. apply audit_sorted_snoc; [intros ? ? ?; lia|lia|]. by apply (sorted_replace_last Z.le ts T T'); [intros ? ? ?; lia|lia|].
    + cbn [extended activeRecords]. rewrite !map_app, Hm. cbn [map]. by rewrite He.
Qed.
(** ** The backend of a durable log *)

Notation prefix := (gc_storagePrefix cfg).

Lemma recordKey_inj a b : recordKey prefix a = recordKey prefix b -> a = b.
Proof. unfold recordKey. intros H. apply (inj (String.append prefix)), (inj (String.append ":record:")) in H. by apply (inj pretty) in H. Qed.

Lemma manifest_not_record a : manifestKey prefix <> recordKey prefix a.
Proof. unfold manifestKey, recordKey. intros H. by apply (inj (String.append prefix)) in H. Qed.

(** The records [l] can be read back. *)
Definition held (e : gmap string JsonValue) (l : list GovernanceAuditRecord) : Prop :=
  Forall (fun r => e !! recordKey prefix (ga_seq r) = Some (recordJson r) /\ stable r) l.

Record matches (m : GovernanceAuditManifest) (next : Z) (log : InMemoryGovernanceAuditLog) : Prop := {
  mt_next : gm_nextSeq m = next;
  mt_active : gm_activeSeqs m = map ga_seq (activeRecords log);
  mt_archived : gm_archivedSeqs m = map ga_seq (archivedRecords log);
  mt_anchor : gm_activeAnchorPrevRecordHash m = activeAnchorPrevRecordHash log;
  mt_last : gm_lastRecordHash m = lastRecordHash log;
  mt_mode : gm_retentionMode m = gc_retentionMode cfg;
  mt_hold : gm_legalHold m = gc_legalHold cfg;
}.

(** The backend holds the log. *)
Definition rep (e : gmap string JsonValue) (next : Z) (log : InMemoryGovernanceAuditLog) : Prop :=
  held e (archivedRecords log ++ activeRecords log) /\
  ((exists m, e !! manifestKey prefix = Some (manifestJson m) /\ matches m next log) \/ (e !! manifestKey prefix = None /\ next = 1 /\ log = emptyLog)).

Definition B (e : gmap string JsonValue) (w : option nat) : Backend := {| entries := e; writes := w |}.

Lemma load_rep e w next log now : rep e next log -> exists m, loadManifest cfg now (B e w) = (B e w, Ok m) /\ matches m next log.
Proof.
  intros [_ [(m & Hm & Hx)|(Hm & -> & ->)]].
  - exists m. split; [|done]. unfold loadManifest, backend_get, mbind, st_bind. cbn [B entries]. by rewrite Hm, manifest_roundtrip.
  - eexists. unfold loadManifest, backend_get, mbind, st_bind. cbn [B entries]. rewrite Hm. split; [reflexivity|]. by split.
Qed.

Lemma load_records e w l strict : held e l -> loadRecords cfg (map ga_seq l) strict (B e w) = (B e w, Ok l).
Proof.
  induction 1 as [|r l [Hr Hs] _ IH]; [done|]. cbn. unfold loadRecord, backend_get, mbind, st_bind, mret, st_ret in *. cbn [B entries] in *. by rewrite Hr, Hs, IH.
Qed.

Lemma apply_same e w m next log now : matches m next log -> applyRetentionPolicy cfg now m (B e w) = (B e w, Ok m).
Proof.
  intros H. unfold applyRetentionPolicy. rewrite (mt_mode _ _ _ H), (mt_hold _ _ _ H). destruct (gc_retentionMode cfg), (gc_legalHold cfg); done.
Qed.

Lemma held_records_app e l1 l2 : held e (l1 ++ l2) <-> held e l1 /\ held e l2.
Proof. apply Forall_app. Qed.

Lemma verify_rep e w m next log : matches m next log -> held e (archivedRecords log ++ activeRecords log) ->
  verifyInternal quote sha256 hmac cfg m (B e w) = (B e w, Ok (verify quote sha256 hmac cfg log)).
Proof.
  intros H [Hx Hy]%held_records_app. unfold verifyInternal, mbind, st_bind. rewrite (mt_archived _ _ _ H), (mt_active _ _ _ H), (mt_anchor _ _ _ H).
  by rewrite !load_records by done.
Qed.

(** A write fails or is done. *)
Lemma write_cases f e w : (backend_write f (B e w) = (B e w, Err BackendFailed) /\ w = Some 0%nat) \/
  backend_write f (B e w) = (B (f e) (Nat.pred <$> w), Ok tt).
Proof. destruct w as [[|n]|]; [by left|by right..]. Qed.

Lemma held_manifest e m l : held e l -> held (<[manifestKey prefix := m]> e) l.
Proof. intros H. eapply Forall_impl; [exact H|]. intros r [Hr Hs]. split; [|done]. rewrite lookup_insert_ne; [done|]. apply manifest_not_record. Qed.

Lemma rep_save e m next log : held e (archivedRecords log ++ activeRecords log) -> matches m next log ->
  rep (<[manifestKey prefix := manifestJson m]> e) next log.
Proof. intros Hh Hm. split; [by apply held_manifest|]. left. exists m. split; [|done]. apply lookup_insert_eq. Qed.

(** Writing a record under a new number. *)
Lemma held_record e l s v : held e l -> s ∉ map ga_seq l -> held (<[recordKey prefix s := v]> e) l.
Proof.
  intros H Hn. apply Forall_forall. intros r Hr. unfold held in H. rewrite Forall_forall in H. destruct (H r Hr) as [He Hs]. split; [|done].
  rewrite lookup_insert_ne; [done|]. intros Hk%recordKey_inj. apply Hn. rewrite Hk. by apply list_elem_of_fmap_2.
Qed.

Lemma rep_record e next log s v : rep e next log -> s ∉ map ga_seq (archivedRecords log ++ activeRecords log) -> rep (<[recordKey prefix s := v]> e) next log.
Proof.
  intros [Hh Hm] Hn. split; [by apply held_record|]. rewrite lookup_insert_ne; [done|]. intros He. by eapply manifest_not_record.
Qed.

(** Deleting records, when every write is done. *)
Lemma delete_records e l : exists e', st_forM (fun record => backend_delete (recordKey prefix (ga_seq record))) l (B e None) = (B e' None, Ok tt) /\
  forall k, (forall r, r ∈ l -> k <> recordKey prefix (ga_seq r)) -> e' !! k = e !! k.
Proof.
  revert e. induction l as [|r l IH]; intros e; [by exists e|]. cbn. unfold mbind, st_bind. cbn. destruct (IH (base.delete (recordKey prefix (ga_seq r)) e)) as (e' & He & Hk).
  exists e'. split; [exact He|]. intros k Hr. rewrite Hk by (intros; apply Hr; by right). rewrite lookup_delete_ne; [done|]. intros Hn. eapply Hr; [by left|done].
Qed.

Lemma next_fresh T next log : wf T next log -> next ∉ map ga_seq (archivedRecords log ++ activeRecords log).
Proof.
  intros H%wf_seqs Hin. revert H Hin. generalize (map ga_seq (archivedRecords log ++ activeRecords log)) as l.
  induction l as [|z l IH]; [by intros ? ?%not_elem_of_nil|]. cbn. inversion 1 as [|? ? Hs Hf]; subst. rewrite elem_of_cons. intros [->|Hin]; [|auto].
  apply Forall_app in Hf as [_ Hf]. inversion Hf; lia.
Qed.
Lemma filter_of_map {A C} (f : A -> C) (p : C -> bool) l : List.filter p (map f l) = map f (List.filter (fun a => p (f a)) l).
Proof. induction l as [|a l IH]; cbn; [done|]. rewrite IH. by destruct (p (f a)). Qed.

Lemma find_seq l r : NoDup (map ga_seq l) -> r ∈ l -> List.find (fun x => ga_seq x =? ga_seq r) l = Some r.
Proof.
  intros Hn. induction l as [|x l IH]; [by intros ?%not_elem_of_nil|]. cbn in Hn. apply NoDup_cons in Hn as [Hx Hn]. rewrite elem_of_cons. cbn.
  intros [->|Hr]; [by rewrite Z.eqb_refl|]. destruct (Z.eqb_spec (ga_seq x) (ga_seq r)) as [He|]; [|auto]. destruct Hx. rewrite He. by apply list_elem_of_fmap_2.
Qed.

(** The manifest that a pruning of the first [n] records saves. *)
Definition prunedManifest (now : Z) (n : nat) (m : GovernanceAuditManifest) (log : InMemoryGovernanceAuditLog) : GovernanceAuditManifest := {|
  gm_updatedAt := now; gm_nextSeq := gm_nextSeq m; gm_activeSeqs := map ga_seq (drop n (activeRecords log));
  gm_archivedSeqs := if archiving cfg then gm_archivedSeqs m ++ map ga_seq (take n (activeRecords log)) else gm_archivedSeqs m;
  gm_activeAnchorPrevRecordHash := lastHash (activeAnchorPrevRecordHash log) (take n (activeRecords log));
  gm_lastRecordHash := gm_lastRecordHash m; gm_retentionMode := gm_retentionMode m; gm_legalHold := gm_legalHold m |}.

Lemma prunedManifest_matches now n m next log : matches m next log -> matches (prunedManifest now n m log) next (pruned n log).
Proof. intros []. split; cbn; try done. destruct (archiving cfg); [|done]. rewrite map_app. by f_equal. Qed.

Lemma pruneInternal_shape e w m next log T now : wf T next log -> held e (archivedRecords log ++ activeRecords log) -> matches m next log ->
  pruneInternal cfg now m (B e w) =
  if (countAt now log =? 0)%nat then (B e w, Ok (0%nat, m)) else
  ((if archiving cfg then mret tt else st_forM (fun record => backend_delete (recordKey prefix (ga_seq record))) (take (countAt now log) (activeRecords log))) ;;
   saveManifest cfg (prunedManifest now (countAt now log) m log) ;; mret (countAt now log, prunedManifest now (countAt now log) m log)) (B e w).
Proof.
  intros H [_ Hh]%held_records_app Hm. unfold pruneInternal. unfold mbind at 1, st_bind at 1. rewrite (mt_active _ _ _ Hm), load_records by done.
  rewrite removable_take by (by eapply wf_NoDup_active || by eapply wf_expires). fold (countAt now log).
  pose proof (removeCount_le (gc_maxEntries cfg) now (activeRecords log)) as Hle. fold (countAt now log) in Hle.
  pose proof (wf_anchor _ _ _ (countAt now log) H) as Hanchor. unfold prunedManifest. set (n := countAt now log) in *. clearbody n.
  pose proof (wf_NoDup_active _ _ _ H) as Hn. destruct (isIn_take n (activeRecords log) Hn) as [Ht Hd].
  destruct (map ga_seq (take n (activeRecords log))) as [|z zs] eqn:E.
  { apply map_eq_nil in E. destruct n; [done|]. destruct (activeRecords log); [cbn in *; lia|done]. }
  rewrite <- E in *. destruct n as [|n]; [done|]. cbn [Nat.eqb]. rewrite Ht.
  rewrite filter_of_map. change (fun a => negb (bool_decide (ga_seq a ∈ map ga_seq (take (S n) (activeRecords log))))) with (fun r => negb (isIn (map ga_seq (take (S n) (activeRecords log))) r)). rewrite Hd.
  replace (negb (gc_legalHold cfg) && bool_decide (gc_retentionMode cfg = delete_mode)) with (negb (archiving cfg)) by (unfold archiving; by destruct (gc_legalHold cfg), (gc_retentionMode cfg)).
  replace (match map ga_seq (drop (S n) (activeRecords log)) with [] => gm_lastRecordHash m | seq :: _ => default (gm_activeAnchorPrevRecordHash m) (ga_prevRecordHash <$> List.find (fun record => ga_seq record =? seq) (activeRecords log)) end)
    with (lastHash (activeAnchorPrevRecordHash log) (take (S n) (activeRecords log))).
  - rewrite length_take, Nat.min_l by done. by destruct (archiving cfg).
  - rewrite <- Hanchor. rewrite (mt_last _ _ _ Hm). destruct (drop (S n) (activeRecords log)) as [|r rest] eqn:Hr; [done|]. cbn [map].
    rewrite find_seq; [done|done|]. rewrite <- (take_drop (S n) (activeRecords log)), Hr. apply elem_of_app. right. by left.
Qed.

Lemma prune_spec e w m next log T now : wf T next log -> rep e next log -> matches m next log -> w = None \/ archiving cfg = true \/ w = Some 0%nat ->
  (exists b' m', pruneInternal cfg now m (B e w) = (b', Ok (countAt now log, m')) /\ rep (entries b') next (pruned (countAt now log) log)) \/
  (w <> None /\ exists err, pruneInternal cfg now m (B e w) = (B e (Some 0%nat), Err err)).
Proof.
  intros H Hr Hm Hw. rewrite (pruneInternal_shape e w m next log T now) by (done || apply Hr).
  pose proof (removeCount_le (gc_maxEntries cfg) now (activeRecords log)) as Hle. fold (countAt now log) in Hle. set (n := countAt now log) in *. clearbody n.
  destruct (Nat.eqb_spec n 0) as [->|Hn0]; [left; eexists _, m; split; [reflexivity|]; by erewrite pruned_0|].
  pose proof (prunedManifest_matches now n m next log Hm) as Hm'. set (m' := prunedManifest now n m log) in *. clearbody m'. destruct Hr as [Hh _].
  unfold mbind, st_bind, saveManifest, backend_set. destruct (archiving cfg) eqn:Ea.
  - cbn [mret st_ret]. assert (Hall : held e (archivedRecords (pruned n log) ++ activeRecords (pruned n log))) by by rewrite all_pruned.
    destruct w as [[|w]|]; [right; split; [done|]; by eexists|left; eexists _, m'; split; [reflexivity|]; by apply rep_save..].
  - destruct Hw as [-> |[?| ->]]; [|done|].
    2: { destruct (activeRecords log) as [|a rest] eqn:Hact; [cbn in Hle; lia|]. destruct n; [done|]. right. split; [done|]. by exists BackendFailed. }
    left. destruct (delete_records e (take n (activeRecords log))) as (e' & -> & He').
    eexists _, m'. split; [reflexivity|]. apply rep_save; [|done]. pose proof (wf_mode _ _ _ H) as Hmode. rewrite Ea in Hmode. cbn. rewrite Ea, Hmode in *. cbn in *.
    pose proof (wf_NoDup_active _ _ _ H) as Hn. rewrite <- (take_drop n (activeRecords log)), map_app in Hn. apply NoDup_app in Hn as (_ & Hn & _).
    rewrite <- (take_drop n (activeRecords log)) in Hh. apply held_records_app in Hh as [_ Hh]. apply Forall_forall. intros r Hin. unfold held in Hh. rewrite Forall_forall in Hh.
    destruct (Hh r Hin) as [Hk Hs]. split; [|done]. rewrite He'; [done|]. intros r' Hin' Heq%recordKey_inj. apply (Hn (ga_seq r')); [by apply list_elem_of_fmap_2|].
    rewrite <- Heq. by apply list_elem_of_fmap_2.
Qed.
(** ** Calls *)

Inductive AuditOp := ACreate | AAppend (event : GovernanceAuditEvent) | APrune | AVerify | AGetAll (includeArchived : bool) | AExport (includeArchived : bool) | AClear.

(** A call with the readings of the clock, and how many of its writes succeed. *)
Record AuditCall := { ac_op : AuditOp; ac_clock : Clock; ac_writes : option nat }.

Inductive AuditAnswer :=
| Created (r : result audit_error unit)
| Appended (r : result audit_error GovernanceAuditRecord)
| Pruned (r : result audit_error nat)
| Verified (r : result audit_error GovernanceAuditVerification)
| Listed (r : result audit_error (list GovernanceAuditRecord))
| Exported (r : result audit_error (list GovernanceAuditRecord * list GovernanceAuditRecord))
| Cleared (r : result audit_error unit).

Definition answer {A} (f : result audit_error A -> AuditAnswer) (p : Backend * result audit_error A) : gmap string JsonValue * AuditAnswer := (entries p.1, f p.2).

(** A call to the durable log; [ACreate] is a new instance on the backend. *)
Definition durableCall (c : AuditCall) (e : gmap string JsonValue) : gmap string JsonValue * AuditAnswer :=
  let b := B e (ac_writes c) in
  let ck := ac_clock c in
  match ac_op c with
  | ACreate => answer Created (create quote sha256 hmac cfg ck b)
  | AAppend event => answer Appended (durable_append quote sha256 hmac toISOString cfg event ck b)
  | APrune => answer Pruned (durable_prune cfg ck b)
  | AVerify => answer Verified (durable_verify quote sha256 hmac cfg ck b)
  | AGetAll i => answer Listed (durable_getAll cfg i ck b)
  | AExport i => answer Exported (durable_export cfg i ck b)
  | AClear => answer Cleared (durable_clear cfg ck b)
  end.

(** The same call to the log in memory; there is nothing to create again. *)
Definition memoryCall (c : AuditCall) (log : InMemoryGovernanceAuditLog) : InMemoryGovernanceAuditLog * AuditAnswer :=
  let ck := ac_clock c in
  match ac_op c with
  | ACreate => (log, Created (Ok tt))
  | AAppend event => let '(log, r) := append quote sha256 hmac toISOString cfg event ck log in (log, Appended (Ok r))
  | APrune => let '(log, n) := prune cfg (at_prune ck) log in (log, Pruned (Ok n))
  | AVerify => (log, Verified (Ok (verify quote sha256 hmac cfg log)))
  | AGetAll i => (log, Listed (Ok (getAll i log)))
  | AExport i => (log, Exported (Ok (exportRecords i log)))
  | AClear => (clear log, Cleared (Ok tt))
  end.

Fixpoint runCalls {L} (call : AuditCall -> L -> L * AuditAnswer) (calls : list AuditCall) (l : L) : L * list AuditAnswer :=
  match calls with
  | [] => (l, [])
  | c :: calls => let '(l, a) := call c l in let '(l, answers) := runCalls call calls l in (l, a :: answers)
  end.

(** The events have no undefined field in their scopes. *)
Definition cleanCall (c : AuditCall) : Prop := match ac_op c with AAppend event => cleanEvent event | _ => True end.

(** No write fails after the call deleted a record and before it is done. Where
    nothing is deleted any write may fail; an append in delete mode writes the
    record, then the manifest, then deletes: the first, the second and the third
    write may fail; a pruning and a clearing may fail in their first write. *)
Definition permitted (c : AuditCall) : Prop :=
  match ac_writes c, ac_op c with
  | None, _ => True
  | Some n, AAppend _ => archiving cfg = true \/ (n <= 2)%nat
  | Some n, APrune => archiving cfg = true \/ n = 0%nat
  | Some n, AClear => n = 0%nat
  | Some _, _ => True
  end.

Definition timeAfter (T : Z) (c : AuditCall) : Z := match ac_op c with AAppend _ => at_build (ac_clock c) | _ => T end.

(** The clock does not go back between two appended records. *)
Fixpoint timely (T : Z) (calls : list AuditCall) : Prop := match calls with [] => True | c :: calls => T <= timeAfter T c /\ timely (timeAfter T c) calls end.

Definition allRecords (log : InMemoryGovernanceAuditLog) : list GovernanceAuditRecord := getAll true log.

(** The records that calls returned as appended. *)
Definition returnedBy (a : AuditAnswer) : list GovernanceAuditRecord := match a with Appended (Ok r) => [r] | _ => [] end.
Definition returned (answers : list AuditAnswer) : list GovernanceAuditRecord := concat (map returnedBy answers).

Hypothesis key_given : trim key <> "".

Lemma wf_verify T next log : wf T next log -> gv_valid (verify quote sha256 hmac cfg log) = true.
Proof.
  intros H. apply verifyChains_valid. split_and!; [apply H|apply H|]. intros Ha _. pose proof (wf_mode _ _ _ H) as Hm. destruct (archiving cfg); [done|]. by rewrite Hm in Ha.
Qed.

Lemma wf_later T T' next log : T <= T' -> wf T next log -> wf T' next log.
Proof.
  intros HT []. split; try done. destruct wf_expiry0 as (ts & Hts & He). exists ts. split; [|done]. apply (sorted_replace_last Z.le ts T T'); [intros ? ? ?; lia|lia|done].
Qed.

(** What a call does to a log: [log'] is the log after it. *)
Record goodCall (c : AuditCall) (log log' : InMemoryGovernanceAuditLog) (a : AuditAnswer) : Prop := {
  gd_memory : archiving cfg = true -> ac_writes c = None -> (log', a) = memoryCall c log;
  gd_keeps : archiving cfg = true -> ac_op c <> AClear -> exists more, allRecords log' = allRecords log ++ more /\ sublist (returnedBy a) more;
}.

Lemma goodCall_same c log a : (ac_writes c = None -> (log, a) = memoryCall c log) -> returnedBy a = [] -> goodCall c log log a.
Proof. intros Hm Ha. split; [auto|]. intros _ _. exists []. rewrite app_nil_r, Ha. by split. Qed.

Lemma timeAfter_same T c : T <= timeAfter T c -> forall next log, wf T next log -> wf (timeAfter T c) next log.
Proof. intros HT next log. by apply wf_later. Qed.

Lemma append_memory T next event ck log : archiving cfg = true -> wf T next log -> T <= at_build ck ->
  append quote sha256 hmac toISOString cfg event ck log =
  (let record := build event next (at_build ck) key (gc_redaction cfg) (lastRecordHash log) (gc_retentionMs cfg) in
   (pruned (countAt (at_prune ck) (extended record log)) (extended record log), record)).
Proof.
  intros Ha H HT. unfold append. rewrite <- (wf_next _ _ _ H) by done. set (record := build _ _ _ _ _ _ _). cbv zeta. f_equal.
  assert (Hw : wf (at_build ck) (next + 1) (extended record log)) by (by eapply extended_wf).
  match goal with |- (prune _ _ ?l).1 = _ => replace l with (extended record log) end.
  - by erewrite prune_pruned.
  - unfold extended. f_equal. rewrite length_app. cbn. pose proof (wf_last _ _ _ H) as Hl. destruct (activeRecords log); cbn in *; [done|].
    destruct (Nat.eqb_spec (length l + 1) 0) as [?|?]; [lia|]. by replace (S (length l + 1) =? 1)%nat with false by (symmetry; apply Nat.eqb_neq; lia).
Qed.
(** What a call does to the backend of a log. *)
Record callOk (T : Z) (c : AuditCall) (e : gmap string JsonValue) (log : InMemoryGovernanceAuditLog) : Prop := {
  ck_log : exists log' next', rep (durableCall c e).1 next' log' /\ wf (timeAfter T c) next' log' /\ goodCall c log log' (durableCall c e).2;
  ck_create : ac_op c = ACreate -> (durableCall c e).2 = Created (Ok tt);
  ck_verify : ac_op c = AVerify -> exists v, (durableCall c e).2 = Verified (Ok v) /\ gv_valid v = true;
}.

Lemma callOk_same T c e next log a : rep e next log -> wf T next log -> timeAfter T c = T -> durableCall c e = (e, a) ->
  (ac_writes c = None -> (log, a) = memoryCall c log) -> returnedBy a = [] ->
  (ac_op c = ACreate -> a = Created (Ok tt)) -> (ac_op c = AVerify -> exists v, a = Verified (Ok v) /\ gv_valid v = true) -> callOk T c e log.
Proof.
  intros Hr H HT Hc Hm Ha H1 H2. split; rewrite Hc; [|done|done]. exists log, next. split_and!; [done|by rewrite HT|by apply goodCall_same].
Qed.

(** [loadManifest], and what a call does with the manifest. *)
Lemma with_manifest {A} (k : GovernanceAuditManifest -> ST Backend audit_error A) e w next log now : rep e next log ->
  exists m, matches m next log /\ (loadManifest cfg now ≫= k) (B e w) = k m (B e w).
Proof. intros Hr. destruct (load_rep e w next log now Hr) as (m & Hl & Hm). exists m. split; [done|]. unfold mbind, st_bind. by rewrite Hl. Qed.

Ltac load_manifest w :=
  match goal with
  | Hr : rep ?e ?next ?log |- context [(loadManifest _ ?now ≫= ?k) _] => destruct (with_manifest k e w next log now Hr) as (m & Hm & ->)
  end.

Lemma call_reads T ck w e next log op : rep e next log -> wf T next log -> match op with ACreate | AVerify | AGetAll _ | AExport _ => True | _ => False end ->
  callOk T {| ac_op := op; ac_clock := ck; ac_writes := w |} e log.
Proof.
  intros Hr H Hop. pose proof (wf_verify T next log H) as Hv. pose proof (proj1 Hr) as Hh. pose proof Hh as [Hx Hy]%held_records_app.
  destruct op as [| | | |i|i|]; try done; unfold durableCall; cbn [ac_op ac_clock ac_writes].
  - apply (callOk_same T _ e next log (Created (Ok tt))); [done|done|done| |done|done|done|done]. unfold durableCall; cbn [ac_op ac_clock ac_writes]. unfold create. unfold mbind at 1, st_bind at 1, st_throw_if.
    destruct (String.eqb_spec (trim key) "") as [?|_]; [done|]. cbn [mret st_ret].
    load_manifest w.
    unfold mbind, st_bind. by rewrite (apply_same e w m next log), (verify_rep e w m next log), Hv by done.
  - apply (callOk_same T _ e next log (Verified (Ok (verify quote sha256 hmac cfg log)))); [done|done|done| |done|done|done|intros _; by eexists]. unfold durableCall; cbn [ac_op ac_clock ac_writes]. unfold durable_verify.
    load_manifest w.
    by rewrite (verify_rep e w m next log).
  - apply (callOk_same T _ e next log (Listed (Ok (getAll i log)))); [done|done|done| |done|done|done|done]. unfold durableCall; cbn [ac_op ac_clock ac_writes]. unfold durable_getAll.
    load_manifest w.
    rewrite (mt_archived _ _ _ Hm), (mt_active _ _ _ Hm). unfold mbind, st_bind, mret, st_ret. destruct i; cbn; by rewrite !load_records by done.
  - apply (callOk_same T _ e next log (Exported (Ok (exportRecords i log)))); [done|done|done| |done|done|done|done]. unfold durableCall; cbn [ac_op ac_clock ac_writes]. unfold durable_export.
    load_manifest w.
    rewrite (mt_archived _ _ _ Hm), (mt_active _ _ _ Hm). unfold mbind, st_bind, mret, st_ret. destruct i; cbn; by rewrite !load_records by done.
Qed.

Lemma call_prune T ck w e next log : rep e next log -> wf T next log -> w = None \/ archiving cfg = true \/ w = Some 0%nat ->
  callOk T {| ac_op := APrune; ac_clock := ck; ac_writes := w |} e log.
Proof.
  intros Hr H Hw. split; [|done|done]. unfold durableCall; cbn [ac_op ac_clock ac_writes timeAfter]. unfold durable_prune.
  load_manifest w.
  unfold mbind, st_bind. rewrite (apply_same e w m next log) by done.
  destruct (prune_spec e w m next log T (at_prune ck) H Hr Hm Hw) as [(b' & m' & -> & Hr')|(Hn & err & ->)]; unfold answer; cbn [fst snd entries B mret st_ret].
  - exists (pruned (countAt (at_prune ck) log) log), next. split_and!; [done|by apply pruned_wf|]. split.
    + intros _ _. unfold memoryCall; cbn [ac_op ac_clock]. by erewrite prune_pruned.
    + intros Ha _. exists []. unfold allRecords, getAll. by rewrite all_pruned, app_nil_r.
  - exists log, next. split_and!; [done|done|]. apply goodCall_same; [|done]. intros Hw'. cbn in Hw'. done.
Qed.

Lemma call_clear_failed T ck e next log : rep e next log -> wf T next log -> callOk T {| ac_op := AClear; ac_clock := ck; ac_writes := Some 0%nat |} e log.
Proof.
  intros Hr H. split; [|done|done]. unfold durableCall; cbn [ac_op ac_clock ac_writes timeAfter]. unfold durable_clear.
  load_manifest (Some 0%nat). exists log, next. unfold mbind, st_bind.
  destruct (gm_archivedSeqs m ++ gm_activeSeqs m) as [|z l]; cbn; (split_and!; [done|done|]; split; [done|]; intros _ Hne; by destruct Hne).
Qed.

Lemma call_clear T ck e next log : rep e next log -> wf T next log -> callOk T {| ac_op := AClear; ac_clock := ck; ac_writes := None |} e log.
Proof.
  intros Hr H. split; [|done|done]. unfold durableCall; cbn [ac_op ac_clock ac_writes timeAfter]. unfold durable_clear.
  load_manifest (@None nat).
  rewrite (mt_archived _ _ _ Hm), (mt_active _ _ _ Hm), <- map_app.
  assert (Hmap : forall l b, st_forM (fun seq => backend_delete (recordKey prefix seq)) (map ga_seq l) b = st_forM (fun record => backend_delete (recordKey prefix (ga_seq record))) l b).
  { induction l as [|r l IH]; intros b; [done|]. cbn. unfold mbind, st_bind. destruct (backend_delete _ b) as [b' [[]|]]; [apply IH|done]. }
  unfold mbind, st_bind. rewrite Hmap. destruct (delete_records e (archivedRecords log ++ activeRecords log)) as (e' & -> & _).
  unfold answer; cbn [fst snd entries B]. exists emptyLog, 1. split_and!; [|apply wf_empty|].
  - split; [constructor|]. right. split_and!; [|done|done]. apply lookup_delete_eq.
  - split; [done|]. intros _ Hne. by destruct Hne.
Qed.
(** The manifest that an append saves. *)
Definition appendedManifest (now : Z) (m : GovernanceAuditManifest) (record : GovernanceAuditRecord) : GovernanceAuditManifest := {|
  gm_updatedAt := now; gm_nextSeq := ga_seq record + 1; gm_activeSeqs := gm_activeSeqs m ++ [ga_seq record]; gm_archivedSeqs := gm_archivedSeqs m;
  gm_activeAnchorPrevRecordHash := match gm_activeSeqs m with [] => ga_prevRecordHash record | _ => gm_activeAnchorPrevRecordHash m end;
  gm_lastRecordHash := ga_recordHash record; gm_retentionMode := gm_retentionMode m; gm_legalHold := gm_legalHold m |}.

Lemma appended_matches T now m next log record : wf T next log -> matches m next log -> ga_seq record = next -> ga_prevRecordHash record = lastRecordHash log ->
  matches (appendedManifest now m record) (next + 1) (extended record log).
Proof.
  intros H Hm Hs Hp. split; cbn; try by apply Hm; try done.
  - by rewrite Hs.
  - by rewrite (mt_active _ _ _ Hm), map_app.
  - rewrite (mt_active _ _ _ Hm), (mt_anchor _ _ _ Hm), Hp, (wf_last _ _ _ H). by destruct (activeRecords log).
  - done.
Qed.

Lemma call_append T event ck w e next log : rep e next log -> wf T next log -> match w with None => True | Some n => archiving cfg = true \/ (n <= 2)%nat end -> cleanEvent event -> T <= at_build ck ->
  callOk T {| ac_op := AAppend event; ac_clock := ck; ac_writes := w |} e log.
Proof.
  intros Hr H Hw Hc HT. split; [|done|done]. unfold durableCall; cbn [ac_op ac_clock ac_writes timeAfter].
  remember (durable_append quote sha256 hmac toISOString cfg event ck (B e w)) as p eqn:Hp. revert Hp. unfold durable_append.
  load_manifest w. unfold mbind at 1, st_bind at 1. rewrite (apply_same e w m next log) by done. rewrite (mt_next _ _ _ Hm), (mt_last _ _ _ Hm).
  assert (Hsame : archiving cfg = true -> AAppend event <> AClear -> exists more, allRecords log = allRecords log ++ more /\ sublist [] more).
  { intros _ _. exists []. by rewrite app_nil_r. }
  pose proof (append_memory T next event ck log) as Hmem. set (record := build _ _ _ _ _ _ _) in *. cbv zeta in Hmem |- *.
  assert (Hseq : ga_seq record = next) by done. assert (Hst : stable record) by by apply build_stable.
  assert (Hx : wf (at_build ck) (next + 1) (extended record log)) by (by eapply extended_wf).
  assert (Hgrow : archiving cfg = true -> forall n, allRecords (pruned n (extended record log)) = allRecords log ++ [record]).
  { intros Ha n. unfold allRecords, getAll. rewrite all_pruned by done. cbn. by rewrite app_assoc. }
  unfold backend_set. unfold mbind at 1, st_bind at 1.
  destruct (write_cases (<[recordKey prefix (ga_seq record) := recordJson record]>) e w) as [[-> Hn]| ->].
  { intros ->. exists log, next. split_and!; [exact Hr|by eapply wf_later|]. split; [intros _ Hnone; cbn in Hnone; congruence|exact Hsame]. }
  assert (Hr1 : rep (<[recordKey prefix (ga_seq record) := recordJson record]> e) next log) by (apply rep_record; [done|]; rewrite Hseq; by eapply next_fresh).
  assert (Hh1 : held (<[recordKey prefix (ga_seq record) := recordJson record]> e) (archivedRecords (extended record log) ++ activeRecords (extended record log))).
  { cbn. rewrite app_assoc. apply held_records_app. split; [apply Hr1|]. constructor; [|constructor]. split; [apply lookup_insert_eq|done]. }
  set (e1 := <[recordKey prefix (ga_seq record) := recordJson record]> e) in *. clearbody e1. unfold saveManifest, backend_set. unfold mbind at 1, st_bind at 1.
  fold (appendedManifest (at_save ck) m record). set (m1 := appendedManifest (at_save ck) m record).
  destruct (write_cases (<[manifestKey prefix := manifestJson m1]>) e1 (Nat.pred <$> w)) as [[-> Hn]| ->].
  { intros ->. exists log, next. split_and!; [done|by eapply wf_later|]. split; [|exact Hsame]. intros _ Hnone. cbn in Hnone. by subst w. }
  assert (Hm1 : matches m1 (next + 1) (extended record log)) by (by eapply appended_matches).
  assert (Hr2 : rep (<[manifestKey prefix := manifestJson m1]> e1) (next + 1) (extended record log)) by by apply rep_save.
  set (e2 := <[manifestKey prefix := manifestJson m1]> e1) in *. clearbody e2 m1. unfold mbind, st_bind.
  assert (Hw' : Nat.pred <$> (Nat.pred <$> w) = None \/ archiving cfg = true \/ Nat.pred <$> (Nat.pred <$> w) = Some 0%nat).
  { destruct w as [n|]; [|by left]. destruct Hw as [|Hw]; [by right; left|]. right; right. destruct n as [|[|[|]]]; (done || lia). }
  destruct (prune_spec e2 (Nat.pred <$> (Nat.pred <$> w)) m1 (next + 1) (extended record log) (at_build ck) (at_prune ck) Hx Hr2 Hm1 Hw') as [(b' & m' & -> & Hr')|(Hn & err & ->)]; intros ->;
    unfold answer; cbn [fst snd entries B mret st_ret].
  - eexists _, (next + 1). split_and!; [exact Hr'|by apply pruned_wf|]. split.
    + intros Ha _. unfold memoryCall; cbn [ac_op ac_clock]. by rewrite Hmem.
    + intros Ha _. exists [record]. split; [by apply Hgrow|done].
  - exists (extended record log), (next + 1). split_and!; [done|done|]. split.
    + intros _ Hnone. cbn in Hnone. by subst w.
    + intros Ha _. exists [record]. split; [|by apply sublist_nil_l]. rewrite <- (Hgrow Ha 0%nat). by erewrite pruned_0.
Qed.

Lemma call_ok T c e next log : rep e next log -> wf T next log -> permitted c -> cleanCall c -> T <= timeAfter T c -> callOk T c e log.
Proof.
  intros Hr H Hp Hc HT. destruct c as [op ck w]. unfold permitted in Hp. cbn in *.
  destruct op; try (by eapply call_reads).
  - by eapply call_append.
  - eapply call_prune; try done. destruct w as [n|]; [|by left]. right. destruct Hp as [| ->]; auto.
  - destruct w as [n|]; [subst n; by eapply call_clear_failed|by eapply call_clear].
Qed.
(** The records of any calls on a backend that holds a log. *)
Lemma audit_run_ok T calls e next log : rep e next log -> wf T next log -> Forall permitted calls -> Forall cleanCall calls -> timely T calls ->
  let r := runCalls durableCall calls e in
  exists next' log', rep r.1 next' log' /\ wf (foldl timeAfter T calls) next' log' /\
    (archiving cfg = true -> Forall (fun c => ac_writes c = None) calls -> (log', r.2) = runCalls memoryCall calls log) /\
    (archiving cfg = true -> Forall (fun c => ac_op c <> AClear) calls -> exists more, allRecords log' = allRecords log ++ more /\ sublist (returned r.2) more).
Proof.
  revert T e next log. induction calls as [|c calls IH]; intros T e next log Hr H Hp Hc Ht; cbn [runCalls].
  { exists next, log. split_and!; [done|done|done|]. intros _ _. exists []. by rewrite app_nil_r. }
  apply Forall_cons in Hp as [Hp Hps], Hc as [Hc Hcs]. destruct Ht as [Ht Hts].
  destruct (ck_log _ _ _ _ (call_ok T c e next log Hr H Hp Hc Ht)) as (log1 & next1 & Hr1 & H1 & Hg). destruct (durableCall c e) as [e1 a1]. cbn [fst snd] in *.
  destruct (IH _ e1 next1 log1 Hr1 H1 Hps Hcs Hts) as (next' & log' & Hr' & H' & Hmem & Hkeep). destruct (runCalls durableCall calls e1) as [e2 a2]. cbn [fst snd] in *.
  exists next', log'. split_and!; [done|done| |].
  - intros Ha [Hw Hws]%Forall_cons. rewrite <- (gd_memory _ _ _ _ Hg Ha Hw). by rewrite <- Hmem.
  - intros Ha [Hw Hws]%Forall_cons. destruct (gd_keeps _ _ _ _ Hg Ha Hw) as (more1 & E1 & S1), (Hkeep Ha Hws) as (more2 & E2 & S2).
    exists (more1 ++ more2). rewrite E2, E1, app_assoc. split; [done|]. unfold returned in *. cbn. by apply sublist_app.
Qed.

Lemma rep_empty : rep ∅ 1 emptyLog.
Proof. split; [constructor|]. right. by rewrite lookup_empty. Qed.

(** A call that always succeeds. *)
Definition plain (op : AuditOp) : AuditCall := {| ac_op := op; ac_clock := {| at_load := 0; at_policy := 0; at_build := 0; at_save := 0; at_prune := 0 |}; ac_writes := None |}.

(** C19. Whatever the calls on the log of a fresh backend, with restarts under
    one configuration whose signing key is not blank, and with writes that fail before the call deleted a
    record (in archive mode or under legal hold any write of an append or a
    pruning; in delete mode the write of the record, the write of the manifest
    or the first deletion), the log can be opened and verifies as valid, if no
    event has an undefined scope field and the clock does not go back between
    two appends. *)
Theorem audit_log_verifies T calls : Forall permitted calls -> Forall cleanCall calls -> timely T calls ->
  let e := (runCalls durableCall calls ∅).1 in
  (durableCall (plain ACreate) e).2 = Created (Ok tt) /\ exists v, (durableCall (plain AVerify) e).2 = Verified (Ok v) /\ gv_valid v = true.
Proof.
  intros Hp Hc Ht. destruct (audit_run_ok T calls ∅ 1 emptyLog rep_empty (wf_empty T) Hp Hc Ht) as (next & log & Hr & H & _). cbv zeta. split.
  - eapply ck_create; [|done]. apply (call_ok _ _ _ next log); [done|done|exact I|done|done].
  - eapply ck_verify; [|done]. apply (call_ok _ _ _ next log); [done|done|exact I|done|done].
Qed.

Lemma timely_app T l1 l2 : timely T (l1 ++ l2) <-> timely T l1 /\ timely (foldl timeAfter T l1) l2.
Proof. revert T. induction l1 as [|c l1 IH]; intros T; cbn; [tauto|]. rewrite IH. tauto. Qed.

Lemma listed_all T e next log : archiving cfg = true -> rep e next log -> wf T next log -> (durableCall (plain (AGetAll true)) e).2 = Listed (Ok (allRecords log)).
Proof.
  intros Ha Hr H. destruct (ck_log _ _ _ _ (call_ok T (plain (AGetAll true)) e next log Hr H I I (Z.le_refl _))) as (log' & next' & _ & _ & Hg).
  exact (f_equal snd (gd_memory _ _ _ _ Hg Ha eq_refl)).
Qed.

(** C20. A log of one configuration with a signing key that is not blank, under legal hold or in archive mode, whose
    events have no undefined scope field and whose clock does not go back
    between two appends, never loses a record: after more calls that do not
    clear the log, failing writes included, it holds the records it held, and
    after them, in their order, every record that an append returned. *)
Theorem audit_records_kept T calls1 calls2 : archiving cfg = true -> Forall permitted (calls1 ++ calls2) -> Forall cleanCall (calls1 ++ calls2) -> timely T (calls1 ++ calls2) ->
  Forall (fun c => ac_op c <> AClear) calls2 ->
  let e1 := (runCalls durableCall calls1 ∅).1 in
  let '(e2, answers) := runCalls durableCall calls2 e1 in
  exists old more, (durableCall (plain (AGetAll true)) e1).2 = Listed (Ok old) /\ (durableCall (plain (AGetAll true)) e2).2 = Listed (Ok (old ++ more)) /\
    sublist (returned answers) more.
Proof.
  intros Ha [Hp1 Hp2]%Forall_app [Hc1 Hc2]%Forall_app [Ht1 Ht2]%timely_app Hn.
  destruct (audit_run_ok T calls1 ∅ 1 emptyLog rep_empty (wf_empty T) Hp1 Hc1 Ht1) as (next1 & log1 & Hr1 & H1 & _). cbv zeta. set (e1 := (runCalls durableCall calls1 ∅).1) in *. clearbody e1.
  destruct (audit_run_ok _ calls2 e1 next1 log1 Hr1 H1 Hp2 Hc2 Ht2) as (next2 & log2 & Hr2 & H2 & _ & Hkeep). destruct (runCalls durableCall calls2 e1) as [e2 answers].
  destruct (Hkeep Ha Hn) as (more & Hm & Hs). exists (allRecords log1), more. split_and!; [by eapply listed_all|rewrite <- Hm; by eapply listed_all|done].
Qed.

(** C21. Under one configuration with a signing key that is not blank and legal
    hold or archive mode, with writes
    that succeed, events without undefined scope fields and a clock that does
    not go back between two appends, the durable log refines the log in memory:
    every call answers what the log in memory answers, and restarts cannot be
    told. *)
Theorem durable_log_refines_memory T calls : archiving cfg = true -> Forall (fun c => ac_writes c = None) calls -> Forall cleanCall calls -> timely T calls ->
  (runCalls durableCall calls ∅).2 = (runCalls memoryCall calls emptyLog).2.
Proof.
  intros Ha Hw Hc Ht. assert (Hp : Forall permitted calls) by (eapply Forall_impl; [exact Hw|]; unfold permitted; by intros c ->).
  destruct (audit_run_ok T calls ∅ 1 emptyLog rep_empty (wf_empty T) Hp Hc Ht) as (next & log & _ & _ & Hm & _). by rewrite <- (Hm Ha Hw).
Qed.
(** The records of a log that archives make up its history. *)
Lemma listed_history T calls : archiving cfg = true -> Forall permitted calls -> Forall cleanCall calls -> timely T calls ->
  exists l, (durableCall (plain (AGetAll true)) (runCalls durableCall calls ∅).1).2 = Listed (Ok l) /\ chain key "" l /\ StronglySorted Z.lt (map ga_seq l).
Proof.
  intros Ha Hp Hc Ht. destruct (audit_run_ok T calls ∅ 1 emptyLog rep_empty (wf_empty T) Hp Hc Ht) as (next & log & Hr & H & _). exists (allRecords log).
  pose proof (wf_mode _ _ _ H) as Hm. rewrite Ha in Hm. split_and!; [by eapply listed_all|..].
  - apply chain_app. split; [apply H|]. rewrite <- Hm. apply H.
  - by eapply sorted_app_l, wf_seqs.
Qed.
End crypto.

(** ** Tampering *)

Section tampering.
Context (quote sha256 : string -> string) (hmac : string -> string -> string).
Hypothesis quote_head : forall s, exists rest, quote s = String (Ascii.ascii_of_nat 34) rest.
Hypothesis quote_delimited : forall a b x y, quote a +:+ x = quote b +:+ y -> a = b /\ x = y.

Notation sealed := (sealed quote sha256 hmac).
Notation chain := (chain quote sha256 hmac).

Definition collision (h : string -> string) : Prop := exists a b, a <> b /\ h a = h b.

(** Two texts with one digest, two digests with one signature, or a text whose
    digest is empty. *)
Definition broken (key : string) : Prop := collision sha256 \/ collision (hmac key) \/ exists x, sha256 x = "".

(** The records have the same canonical form and the same hash. *)
Definition sameContent (r r0 : GovernanceAuditRecord) : Prop :=
  canonicalizeJson (canonicalizeRecord r) = canonicalizeJson (canonicalizeRecord r0) /\ ga_recordHash r = ga_recordHash r0.

Definition fieldsOf (r : GovernanceAuditRecord) : list (string * JsonValue) := match canonicalizeRecord r with ObjectJ fields => fields | _ => [] end.

Lemma fieldsOf_NoDup r : NoDup (mkeys (fieldsOf r)).
Proof.
  unfold fieldsOf, canonicalizeRecord. destruct (truthy (ga_actor r)), (truthy (ga_subject r)), (ga_scope r), (ga_expiresAtMs r); apply (bool_decide_unpack _); vm_compute; done.
Qed.

(** A field of the canonical form. *)
Lemma canonical_field r r0 k v v0 : canonicalizeJson (canonicalizeRecord r) = canonicalizeJson (canonicalizeRecord r0) ->
  (k, v) ∈ fieldsOf r -> (k, v0) ∈ fieldsOf r0 -> canonicalizeJson v = canonicalizeJson v0.
Proof.
  assert (Hs : forall r, canonicalizeJson (canonicalizeRecord r) = ObjectJ (sort_by (fun a b => String.compare a.1 b.1) (map (fun kv => (kv.1, canonicalizeJson kv.2)) (fieldsOf r)))) by done.
  assert (Hk : forall r k v, (k, v) ∈ fieldsOf r -> mget (sort_by (fun a b => String.compare a.1 b.1) (map (fun kv => (kv.1, canonicalizeJson kv.2)) (fieldsOf r))) k = Some (canonicalizeJson v)).
  { clear. intros r k v Hin. apply elem_mget.
    - assert (Hp : mkeys (sort_by (fun a b => String.compare a.1 b.1) (map (fun kv => (kv.1, canonicalizeJson kv.2)) (fieldsOf r))) ≡ₚ mkeys (fieldsOf r)).
      { unfold mkeys. etrans; [apply (Permutation_map fst), sort_by_perm|]. by rewrite map_map. }
      rewrite Hp. apply fieldsOf_NoDup.
    - apply sort_by_elem_of. by apply (list_elem_of_fmap_2 (fun kv : string * JsonValue => (kv.1, canonicalizeJson kv.2))) in Hin. }
  intros He Hv%Hk Hv0%Hk. apply (f_equal (fun x => fieldOf (Some x) k)) in He. rewrite (Hs r), (Hs r0) in He. cbn beta iota delta [fieldOf] in He. congruence.
Qed.

Lemma same_seq r r0 : sameContent r r0 -> ga_seq r = ga_seq r0.
Proof.
  intros [H _]. pose proof (canonical_field r r0 "seq" (NumberJ (ga_seq r)) (NumberJ (ga_seq r0)) H) as Hf.
  cut (canonicalizeJson (NumberJ (ga_seq r)) = canonicalizeJson (NumberJ (ga_seq r0))); [by intros [= ?]|]. apply Hf; left.
Qed.

Lemma same_prev r r0 : sameContent r r0 -> ga_prevRecordHash r = ga_prevRecordHash r0.
Proof.
  assert (Hin : forall r, ("prevRecordHash", TextJ (ga_prevRecordHash r)) ∈ fieldsOf r).
  { clear. intros r. unfold fieldsOf, canonicalizeRecord. rewrite !elem_of_app. do 4 right. left. right. right. left. }
  intros [H _]. pose proof (canonical_field r r0 "prevRecordHash" _ _ H (Hin r) (Hin r0)) as [= ?]. done.
Qed.

Lemma same_text key r r0 : computeHash quote sha256 (canonicalizeRecord r) = computeHash quote sha256 (canonicalizeRecord r0) ->
  broken key \/ canonicalizeJson (canonicalizeRecord r) = canonicalizeJson (canonicalizeRecord r0).
Proof.
  unfold computeHash. intros He. destruct (decide (stableStringifyJson quote (canonicalizeRecord r) = stableStringifyJson quote (canonicalizeRecord r0))) as [Ht|Ht].
  - right. by apply (stringify_inj quote quote_head quote_delimited).
  - left. left. by eexists _, _.
Qed.
(** What the record at place [k] of a history carries. *)
Definition prevAt (history : list GovernanceAuditRecord) (k : nat) : string := lastHash "" (take k history).

Context (cfg : GovernanceAuditLogConfig) (history : list GovernanceAuditRecord).
Notation key := (gc_signingKey cfg).
Hypothesis history_chain : chain key "" history.
Hypothesis history_seqs : StronglySorted Z.lt (map ga_seq history).

Lemma history_prev k r : history !! k = Some r -> ga_prevRecordHash r = prevAt history k /\ sealed key r /\ prevAt history (S k) = ga_recordHash r.
Proof.
  intros Hk. pose proof history_chain as H. rewrite <- (take_drop_middle history k r Hk) in H. apply chain_app in H as [_ (Hs & Hp & _)].
  split_and!; [done|done|]. unfold prevAt. by rewrite (take_S_r history k r Hk), lastHash_snoc.
Qed.

Lemma seq_place i k r r' : history !! i = Some r -> history !! k = Some r' -> ga_seq r = ga_seq r' -> i = k.
Proof.
  intros Hi Hk He. pose proof (sorted_lt_NoDup _ history_seqs) as Hn. apply (NoDup_lookup _ i k (ga_seq r) Hn).
  - change (map ga_seq history) with (ga_seq <$> history). by rewrite list_lookup_fmap, Hi.
  - change (map ga_seq history) with (ga_seq <$> history). rewrite list_lookup_fmap, Hk. cbn. by rewrite He.
Qed.

(** The places of a history have different hashes before them. *)
Lemma prevAt_inj i k : (i <= length history)%nat -> (k <= length history)%nat -> prevAt history i = prevAt history k -> broken key \/ i = k.
Proof.
  assert (Hempty : forall j, (S j <= length history)%nat -> prevAt history (S j) = "" -> broken key).
  { intros j Hj He. destruct (lookup_lt_is_Some_2 history j) as [r Hr]; [lia|]. destruct (history_prev j r Hr) as (_ & [Hs _] & Hp).
    right. right. rewrite He in Hp. rewrite <- Hp in Hs. unfold computeHash in Hs. by eexists. }
  intros Hi Hk He. destruct i as [|i], k as [|k]; [by right|left; by eapply Hempty|left; by eapply Hempty|].
  destruct (lookup_lt_is_Some_2 history i) as [r Hr]; [lia|]. destruct (lookup_lt_is_Some_2 history k) as [r' Hr']; [lia|].
  destruct (history_prev i r Hr) as (_ & [Hs _] & Hp), (history_prev k r' Hr') as (_ & [Hs' _] & Hp').
  assert (Hh : ga_recordHash r = ga_recordHash r') by congruence. destruct (same_text key r r') as [|Hc]; [by rewrite <- Hs, <- Hs'|by left|].
  right. f_equal. eapply seq_place; [done|done|]. by apply same_seq.
Qed.

Lemma Forall2_last_hash l l' : Forall2 sameContent l l' -> l <> [] -> exists x y, last l = Some x /\ last l' = Some y /\ ga_recordHash x = ga_recordHash y.
Proof.
  induction 1 as [|x y l l' [_ Hxy] Hl IH]; [done|]. intros _. destruct Hl as [|x' y' l l' Hxy' Hl]; [by exists x, y|]. destruct IH as (a & b & Ha & Hb & Hab); [done|]. by exists a, b.
Qed.

(** A record with a signature of the history has the content of the history. *)
Lemma genuine r : sealed key r -> ga_signature r ∈ map ga_signature history -> broken key \/ exists i r0, history !! i = Some r0 /\ sameContent r r0.
Proof.
  intros [Hh Hs] Hin. apply (list_elem_of_fmap ga_signature) in Hin as (r0 & Hsig & Hin). apply list_elem_of_lookup in Hin as [i Hi].
  destruct (history_prev i r0 Hi) as (_ & [Hh0 Hs0] & _). destruct (decide (ga_recordHash r = ga_recordHash r0)) as [He|He].
  - destruct (same_text key r r0) as [|Hc]; [by rewrite <- Hh, <- Hh0|by left|]. right. by exists i, r0.
  - left. right. left. exists (ga_recordHash r), (ga_recordHash r0). unfold signRecord in *. split; [done|]. congruence.
Qed.

(** A chain that starts where a place of the history starts goes along it. *)
Lemma chain_follows l k : (k <= length history)%nat -> chain key (prevAt history k) l -> Forall (fun r => ga_signature r ∈ map ga_signature history) l ->
  broken key \/ Forall2 sameContent l (take (length l) (drop k history)).
Proof.
  revert k. induction l as [|r l IH]; intros k Hle Hc Hf; [right; constructor|]. destruct Hc as (Hs & Hp & Hc). apply Forall_cons in Hf as [Hr Hf].
  destruct (genuine r Hs Hr) as [|(i & r0 & Hi & Hsame)]; [by left|]. destruct (history_prev i r0 Hi) as (Hp0 & _ & Hnext).
  pose proof (lookup_lt_Some _ _ _ Hi) as Hlt. rewrite (same_prev _ _ Hsame), Hp0 in Hp. destruct (prevAt_inj i k) as [| ->]; [lia|done|done|by left|].
  destruct Hsame as [Hcan Hhash]. rewrite Hhash, <- Hnext in Hc. destruct (IH (S k)) as [|Hl]; [lia|done|done|by left|]. right.
  rewrite (drop_S history r0 k Hi). cbn [length take]. by constructor.
Qed.
Lemma loadRecords_reads seqs strict b : (loadRecords cfg seqs strict b).1 = b.
Proof.
  induction seqs as [|z seqs IH]; [done|]. cbn. unfold loadRecord, backend_get, mbind, st_bind, mret, st_ret. destruct (coerceGovernanceAuditRecord _) as [r|]; [|by destruct strict].
  destruct (loadRecords cfg seqs strict b) as [b' [l|err]]; exact IH.
Qed.

(** Verification judges the records that an export shows. *)
Lemma verify_export ck ck' b b' b'' v active archived :
  durable_verify quote sha256 hmac cfg ck b = (b', Ok v) -> durable_export cfg true ck' b = (b'', Ok (active, archived)) ->
  exists anchor, v = verifyChains quote sha256 hmac key anchor archived active.
Proof.
  unfold durable_verify, durable_export, verifyInternal, loadManifest, backend_get, mbind, st_bind.
  destruct (entries b !! manifestKey (gc_storagePrefix cfg)) as [raw|]; [destruct (coerceManifest (Some raw)) as [m|]; [|done]|]; cbn beta iota zeta delta [mret st_ret buildDefaultManifest gm_archivedSeqs gm_activeSeqs].
  - pose proof (loadRecords_reads (gm_archivedSeqs m) true b) as Hb. destruct (loadRecords cfg (gm_archivedSeqs m) true b) as [b1 [l|]]; [|done]. cbn in Hb. subst b1.
    pose proof (loadRecords_reads (gm_activeSeqs m) true b) as Hb. destruct (loadRecords cfg (gm_activeSeqs m) true b) as [b1 [l'|]]; [|done].
    intros [= _ <-] [= _ <- <-]. by eexists.
  - intros [= _ <-] [= _ <- <-]. by exists "".
Qed.

(** C18. Tampering shows: let [history] be the records that the log wrote, and
    [b] any backend on which verification succeeds. If no record on it has a
    signature that the log did not make, the archived records are the beginning
    of the history and the active ones are an unbroken part of it, which
    follows the archived ones; or a weakness of the hash functions is at hand. *)
Theorem tamper_evidence ck ck' b b' b'' v active archived :
  durable_verify quote sha256 hmac cfg ck b = (b', Ok v) -> gv_valid v = true -> durable_export cfg true ck' b = (b'', Ok (active, archived)) ->
  Forall (fun r => ga_signature r ∈ map ga_signature history) (archived ++ active) ->
  broken key \/ (Forall2 sameContent archived (take (length archived) history) /\
    exists k, (archived <> [] -> active <> [] -> k = length archived) /\ Forall2 sameContent active (take (length active) (drop k history))).
Proof.
  intros Hv Hvalid He [Hx Hy]%Forall_app. destruct (verify_export _ _ _ _ _ _ _ _ Hv He) as (anchor & ->). apply verifyChains_valid in Hvalid as (Ha & Hc & Hl).
  destruct (chain_follows archived 0) as [|Harch]; [lia|done|done|by left|]. rewrite drop_0 in Harch.
  destruct active as [|r active]; [right; split; [done|]; exists 0%nat; split; [done|constructor]|].
  assert (Hk : broken key \/ exists k, (k <= length history)%nat /\ anchor = prevAt history k /\ (archived <> [] -> k = length archived)).
  { destruct (decide (archived = [])) as [->|Hne].
    - destruct Hc as (Hs & Hp & _). apply Forall_cons in Hy as [Hr _]. destruct (genuine r Hs Hr) as [|(i & r0 & Hi & Hsame)]; [by left|]. right. exists i.
      destruct (history_prev i r0 Hi) as (Hp0 & _). pose proof (lookup_lt_Some _ _ _ Hi). split_and!; [lia|by rewrite <- Hp, (same_prev _ _ Hsame)|done].
    - right. exists (length archived). pose proof (Forall2_length _ _ _ Harch) as Hlen. rewrite length_take in Hlen. split_and!; [lia| |done]. rewrite (Hl Hne) by done.
      unfold prevAt, lastHash. destruct (Forall2_last_hash archived _ Harch Hne) as (x & y & -> & -> & Hxy). done. }
  destruct Hk as [|(k & Hk & -> & Hlen)]; [by left|]. destruct (chain_follows (r :: active) k) as [|Hact]; [done|done|done|by left|]. right. split; [done|]. exists k. by split; [intros; apply Hlen|].
Qed.
End tampering.

(** ** Redaction *)

(** The path leads to a field of the value; a step into an array leads to each
    of its entries. *)
Fixpoint reaches (segments : list string) (value : JsonValue) {struct value} : bool :=
  match value with
  | ArrayJ l => existsb (reaches segments) l
  | ObjectJ fields =>
      match segments with
      | [] => false
      | [key] => existsb (fun kv => String.eqb kv.1 key) fields
      | key :: rest => existsb (fun kv => String.eqb kv.1 key && reaches rest kv.2) fields
      end
  | _ => false
  end.

Lemma Unknown_induction (P : Unknown -> Prop) : (forall v, match v with UArray _ | UObject _ => False | _ => True end -> P v) ->
  (forall l, Forall P l -> P (UArray l)) -> (forall fields, Forall (fun kv => P kv.2) fields -> P (UObject fields)) -> forall v, P v.
Proof.
  intros Hb Ha Ho. fix IH 1. intros v. destruct v as [| |s|z|b|l|fields|text]; try by apply Hb.
  - apply Ha. induction l; constructor; auto.
  - apply Ho. induction fields as [|[k v] l IHl]; constructor; [apply IH|apply IHl].
Qed.

Lemma existsb_congr {A} (p q : A -> bool) l : Forall (fun a => p a = q a) l -> existsb p l = existsb q l.
Proof. induction 1 as [|a l Ha _ IH]; cbn; [done|]. by rewrite Ha, IH. Qed.

Lemma existsb_map_eq {A C} (f : A -> C) (p : C -> bool) l : existsb p (map f l) = existsb (fun a => p (f a)) l.
Proof. induction l as [|a l IH]; cbn; [done|]. by rewrite IH. Qed.

(** Patterns change texts only. *)
Lemma reaches_patterns patterns segments v : reaches segments (toJsonValue (redactPatterns patterns v)) = reaches segments (toJsonValue v).
Proof.
  revert segments. induction v as [v Hv|l Hl|fields Hf] using Unknown_induction; intros segments.
  - by destruct v.
  - cbn. rewrite !existsb_map_eq. apply existsb_congr. eapply Forall_impl; [exact Hl|]. intros v Hv. apply Hv.
  - cbn. destruct segments as [|key [|key2 rest]]; [done|by rewrite !existsb_map_eq|]. rewrite !existsb_map_eq. apply existsb_congr. eapply Forall_impl; [exact Hf|].
    intros [k v] Hv. cbn [fst snd] in *. by rewrite Hv.
Qed.

Lemma stripped_gone segments v : reaches segments (toJsonValue (stripFieldPathSegments segments v)) = false.
Proof.
  revert segments. induction v as [v Hv|l Hl|fields Hf] using Unknown_induction; intros segments.
  - by destruct v.
  - cbn. rewrite !existsb_map_eq. apply existsb_false, Forall_forall. intros v Hin. rewrite Forall_forall in Hl. by apply Hl.
  - destruct segments as [|key [|key2 rest]]; [done| |]; cbn; rewrite !existsb_map_eq; apply existsb_false, Forall_forall; intros [k v] Hin; cbn [fst snd].
    + apply elem_filter_bool in Hin as [_ Hk]. cbn in Hk. by destruct (String.eqb k key).
    + destruct (String.eqb_spec k key) as [->|Hne]; cbn [fst snd]; [|by destruct (String.eqb_spec k key)]. rewrite String.eqb_refl. cbn.
      rewrite Forall_forall in Hf. apply (Hf (key, v) Hin).
Qed.

Lemma reaches_stripped segments segments' v : reaches segments' (toJsonValue (stripFieldPathSegments segments v)) = true -> reaches segments' (toJsonValue v) = true.
Proof.
  revert segments segments'. induction v as [v Hv|l Hl|fields Hf] using Unknown_induction; intros segments segments'.
  - by destruct v.
  - cbn. rewrite !existsb_map_eq, !existsb_exists. intros (v & Hin & Hr). exists v. split; [done|]. rewrite Forall_forall in Hl. eapply Hl; [by apply list_elem_of_In|done].
  - rewrite Forall_forall in Hf.
    assert (Hkv : forall rest k v, In (k, v) fields -> forall key key2, reaches key2 (toJsonValue (if String.eqb k key then (k, stripFieldPathSegments rest v) else (k, v)).2) = true -> reaches key2 (toJsonValue v) = true).
    { intros rest k v Hin key key2. destruct (String.eqb k key); cbn; [|done]. by apply (Hf (k, v)), list_elem_of_In. }
    destruct segments as [|key [|key2 rest]]; [done| |]; destruct segments' as [|key' [|key2' rest']]; cbn; rewrite ?existsb_map_eq, ?existsb_exists; try done;
      intros ([k v] & Hin & Hr); cbn [fst snd] in *; exists (k, v); cbn [fst snd].
    + apply List.filter_In in Hin as [Hin _]. by split.
    + apply List.filter_In in Hin as [Hin _]. by split.
    + split; [done|]. by destruct (String.eqb k key).
    + split; [done|]. apply andb_true_iff in Hr as [Hk Hr]. apply andb_true_iff. split; [by destruct (String.eqb k key)|]. by eapply (Hkv (key2 :: rest)).
Qed.

Lemma stripped_same segments v : reaches segments (toJsonValue v) = false -> stripFieldPathSegments segments v = v.
Proof.
  revert segments. induction v as [v Hv|l Hl|fields Hf] using Unknown_induction; intros segments.
  - by destruct v.
  - cbn. rewrite existsb_map_eq. intros H. f_equal. rewrite existsb_false, Forall_forall in H. rewrite Forall_forall in Hl. transitivity (map id l); [|apply map_id].
    apply map_ext_in. intros v Hin%list_elem_of_In. apply Hl; [done|]. by apply H.
  - destruct segments as [|key [|key2 rest]]; [done| |]; cbn; rewrite existsb_map_eq, existsb_false, Forall_forall; intros H; f_equal.
    + apply filter_all_true, Forall_forall. intros kv Hin. specialize (H kv Hin). cbn in H. by rewrite H.
    + transitivity (map id fields); [|apply map_id]. apply map_ext_in. intros [k v] Hin%list_elem_of_In. specialize (H _ Hin). cbn [fst snd] in *.
      destruct (String.eqb k key); [|done]. cbn in H. rewrite Forall_forall in Hf. unfold id. f_equal. by apply (Hf (k, v)).
Qed.

Lemma strip_all paths v : let w := foldl stripFieldPath v paths in
  (forall segments, reaches segments (toJsonValue w) = true -> reaches segments (toJsonValue v) = true) /\
  Forall (fun path => reaches (pathSegments path) (toJsonValue w) = false) paths /\
  (Forall (fun path => reaches (pathSegments path) (toJsonValue v) = false) paths -> w = v).
Proof.
  assert (Hstep : forall v path, (forall segments, reaches segments (toJsonValue (stripFieldPath v path)) = true -> reaches segments (toJsonValue v) = true) /\
    reaches (pathSegments path) (toJsonValue (stripFieldPath v path)) = false /\ (reaches (pathSegments path) (toJsonValue v) = false -> stripFieldPath v path = v)).
  { clear. intros v path. unfold stripFieldPath. destruct (pathSegments path) as [|s l].
    - split_and!; [done| |done]. clear. induction v as [v Hv|l Hl|fields Hf] using Unknown_induction; [by destruct v| |done]. cbn. rewrite existsb_map_eq. apply existsb_false, Forall_forall.
      intros v Hin. rewrite Forall_forall in Hl. by apply Hl.
    - split_and!; [intros segments; apply reaches_stripped|apply stripped_gone|apply stripped_same]. }
  revert v. induction paths as [|path paths IH]; intros v; cbn [foldl].
  { split; [auto|]. split; [constructor|]. auto. }
  destruct (Hstep v path) as (H1 & H2 & H3), (IH (stripFieldPath v path)) as (I1 & I2 & I3).
  split_and!; [auto| |].
  - apply Forall_cons. split; [|exact I2]. apply not_true_iff_false. intros E. apply I1 in E. congruence.
  - intros [Hp Hps]%Forall_cons. rewrite (H3 Hp) in *. auto.
Qed.

(** What a record may show of an event: all of it but a hidden actor and what the
    redaction takes out of the payload. *)
Definition disclosed (redaction : CompiledRedactionPolicy) (event : GovernanceAuditEvent) :
    string * option string * option string * option PolicyScope * option string * JsonValue :=
  (ge_type event, (if rp_redactActors redaction then None else ge_actor event), ge_subject event, ge_scope event, ge_timestamp event,
   redactPayload (ge_payload event) redaction).

(** The event whose payload never had the fields that the paths lead to. *)
Definition withoutFields (redaction : CompiledRedactionPolicy) (event : GovernanceAuditEvent) (fields : list (string * Unknown)) : Prop :=
  foldl stripFieldPath (UObject (default [] (ge_payload event))) (rp_stripFields redaction) = UObject fields.

Lemma build_disclosed quote sha256 hmac toISOString event event' seq now key redaction prev ret : disclosed redaction event' = disclosed redaction event ->
  buildRecord quote sha256 hmac toISOString event' seq now key redaction prev ret = buildRecord quote sha256 hmac toISOString event seq now key redaction prev ret.
Proof.
  unfold disclosed. intros H. injection H as Ht Ha Hs Hc Hts Hp. unfold buildRecord. rewrite Hp, Ht, Hs, Hc, Hts. by destruct (rp_redactActors redaction); [|rewrite Ha].
Qed.

Lemma durable_append_disclosed quote sha256 hmac toISOString cfg event event' ck b : disclosed (gc_redaction cfg) event' = disclosed (gc_redaction cfg) event ->
  durable_append quote sha256 hmac toISOString cfg event' ck b = durable_append quote sha256 hmac toISOString cfg event ck b.
Proof.
  intros H. unfold durable_append, mbind, st_bind. destruct (loadManifest cfg (at_load ck) b) as [b1 [m|]]; [|done].
  destruct (applyRetentionPolicy cfg (at_policy ck) m b1) as [b2 [m1|]]; [|done]. by rewrite (build_disclosed _ _ _ _ event event') by done.
Qed.

Lemma append_disclosed quote sha256 hmac toISOString cfg event event' ck log : disclosed (gc_redaction cfg) event' = disclosed (gc_redaction cfg) event ->
  append quote sha256 hmac toISOString cfg event' ck log = append quote sha256 hmac toISOString cfg event ck log.
Proof. intros H. unfold append. by rewrite (build_disclosed _ _ _ _ event event') by done. Qed.

(** C22. A record is redacted before it is hashed and stored. No path of the
    configuration leads anywhere in its payload, a configured redaction of
    actors hides the actor, and a payload that no path leads into is recorded
    as it is, but for the texts that the patterns replace. The hash of the
    payload, the hash of the record, the signature and the payload of the JSON
    that is stored are those of the redacted record. And two events that differ
    only in what is taken out (a hidden actor, the fields that the paths lead
    to, and what else the redacted payload does not show) have the same record,
    and appending them does the same to the log in memory and to the backend. *)
Theorem redaction_complete quote sha256 hmac toISOString event seq now key redaction prev ret :
  let record := buildRecord quote sha256 hmac toISOString event seq now key redaction prev ret in
  let payload := UObject (default [] (ge_payload event)) in
  Forall (fun path => reaches (pathSegments path) (ga_payload record) = false) (rp_stripFields redaction) /\
  (rp_redactActors redaction = true -> ga_actor record = Some REDACTED_MARKER) /\
  (Forall (fun path => reaches (pathSegments path) (toJsonValue payload) = false) (rp_stripFields redaction) ->
    ga_payload record = toJsonValue (redactPatterns (rp_redactPatterns redaction) payload)) /\
  ga_payloadHash record = computeHash quote sha256 (ga_payload record) /\
  ga_recordHash record = computeHash quote sha256 (canonicalizeRecord record) /\
  ga_signature record = signRecord hmac key (ga_recordHash record) /\
  fieldOf (Some (recordJson record)) "payload" = Some (ga_payload record) /\
  (forall event', disclosed redaction event' = disclosed redaction event ->
    buildRecord quote sha256 hmac toISOString event' seq now key redaction prev ret = record /\
    forall cfg ck, gc_redaction cfg = redaction ->
      (forall log, append quote sha256 hmac toISOString cfg event' ck log = append quote sha256 hmac toISOString cfg event ck log) /\
      (forall b, durable_append quote sha256 hmac toISOString cfg event' ck b = durable_append quote sha256 hmac toISOString cfg event ck b)) /\
  (forall fields actor, withoutFields redaction event fields -> (rp_redactActors redaction = false -> actor = ge_actor event) ->
    disclosed redaction {| ge_type := ge_type event; ge_actor := actor; ge_subject := ge_subject event; ge_scope := ge_scope event;
      ge_payload := Some fields; ge_timestamp := ge_timestamp event |} = disclosed redaction event).
Proof.
  cbv zeta. destruct (strip_all (rp_stripFields redaction) (UObject (default [] (ge_payload event)))) as (_ & H2 & H3). split_and!.
  - cbn [ga_payload buildRecord]. unfold redactPayload. eapply Forall_impl; [exact H2|]. intros path Hp. by rewrite reaches_patterns.
  - by cbn; intros ->.
  - intros H. cbn [ga_payload buildRecord]. unfold redactPayload. by rewrite (H3 H).
  - done.
  - done.
  - done.
  - generalize (buildRecord quote sha256 hmac toISOString event seq now key redaction prev ret) as r. intros [sq ts ty actor subject scope pl ph pv rh sg ex]. unfold recordJson. cbn. by destruct actor, subject, (scope ≫= cloneJson).
  - intros event' He. split; [by apply build_disclosed|]. intros cfg ck <-. split; intros; [by apply append_disclosed|by apply durable_append_disclosed].
  - intros fields actor Hf Ha. unfold withoutFields in Hf. unfold disclosed, redactPayload. cbn. rewrite Hf in *.
    destruct (strip_all (rp_stripFields redaction) (UObject fields)) as (_ & _ & I3). cbv zeta in I3. rewrite (I3 H2). by destruct (rp_redactActors redaction); [|rewrite Ha].
Qed.

(** ** Runs *)

Module AuditDemo.

(** A polynomial digest, and a code made from it. *)
Fixpoint digestFrom (h : Z) (s : string) : Z :=
  match s with EmptyString => h | String c s => digestFrom ((h * 257 + Z.of_nat (Ascii.nat_of_ascii c)) mod 2305843009213693951) s end.
Definition digest (s : string) : string := pretty (digestFrom 7 s).
Definition code (key s : string) : string := digest (key +:+ "." +:+ s).

Definition config (mode : GovernanceAuditRetentionMode) (hold : bool) (limit : option Z) : GovernanceAuditLogConfig := {|
  gc_signingKey := "secret"; gc_redaction := {| rp_redactActors := true; rp_stripFields := ["payload.args.token"]; rp_redactPatterns := [] |};
  gc_retentionMs := Some 1000; gc_maxEntries := limit; gc_retentionMode := mode; gc_legalHold := hold; gc_storagePrefix := "governance-audit" |}.

Definition at_time (t : Z) : Clock := {| at_load := t; at_policy := t; at_build := t; at_save := t; at_prune := t |}.

Definition denied (tool : string) (scope : PolicyScope) : GovernanceAuditEvent := {|
  ge_type := "policy.denied"; ge_actor := Some "alice"; ge_subject := Some tool; ge_scope := Some scope;
  ge_payload := Some [("args", UArray [UObject [("token", UText "t"); ("path", UText "p")]])]; ge_timestamp := None |}.

Definition inSession : PolicyScope := [("sessionId", Some "s1"); ("channel", Some "webchat")].
Definition withoutTenant : PolicyScope := [("tenantId", None); ("sessionId", Some "s1")].

Definition call (op : AuditOp) (t : Z) (w : option nat) : AuditCall := {| ac_op := op; ac_clock := at_time t; ac_writes := w |}.

Definition durable (cfg : GovernanceAuditLogConfig) := durableCall jsonQuote digest code pretty cfg.

(** Two records, an append whose second write fails, an archived record, a
    restart. *)
Definition calls : list AuditCall := [call ACreate 1 None; call (AAppend (denied "rm" inSession)) 2 None; call (AAppend (denied "curl" inSession)) 3 (Some 1%nat);
  call (AAppend (denied "ssh" inSession)) 4 None; call APrune 5 None; call ACreate 6 None].

Lemma calls_clean : Forall cleanCall calls.
Proof. repeat constructor; intros scope [= <-]; repeat constructor; by eexists. Qed.

Lemma calls_timely : timely 0 calls.
Proof. cbn. lia. Qed.

Lemma calls_permitted : Forall (permitted (config archive_mode false (Some 1))) calls.
Proof. repeat (constructor; [first [exact I|by left]|]). constructor. Qed.

(** In delete mode the three writes of an append fail one after the other. *)
Definition failingCalls : list AuditCall := [call ACreate 1 None; call (AAppend (denied "rm" inSession)) 2 None; call (AAppend (denied "curl" inSession)) 3 (Some 0%nat);
  call (AAppend (denied "cat" inSession)) 4 (Some 1%nat); call (AAppend (denied "ssh" inSession)) 5 (Some 2%nat); call APrune 6 (Some 0%nat); call AClear 7 (Some 0%nat);
  call ACreate 8 None; call APrune 9 None].

Lemma failingCalls_permitted : Forall (permitted (config delete_mode false (Some 1))) failingCalls.
Proof. repeat (constructor; [first [exact I|done|right; cbn; lia]|]). constructor. Qed.

Lemma audit_log_verifies_witness :
  (exists v, (durable (config archive_mode false (Some 1)) (plain AVerify) (runCalls (durable (config archive_mode false (Some 1))) calls ∅).1).2 = Verified (Ok v) /\ gv_valid v = true) /\
  (exists v, (durable (config delete_mode false (Some 1)) (plain AVerify) (runCalls (durable (config delete_mode false (Some 1))) failingCalls ∅).1).2 = Verified (Ok v) /\ gv_valid v = true).
Proof.
  split.
  - apply (audit_log_verifies jsonQuote digest code pretty (config archive_mode false (Some 1)) ltac:(done) 0 calls calls_permitted calls_clean calls_timely).
  - apply (audit_log_verifies jsonQuote digest code pretty (config delete_mode false (Some 1)) ltac:(done) 0 failingCalls failingCalls_permitted).
    + repeat constructor; intros scope [= <-]; repeat constructor; by eexists.
    + cbn. lia.
Defined.

Lemma audit_records_kept_witness : exists old more, (durable (config archive_mode false (Some 1)) (plain (AGetAll true)) (runCalls (durable (config archive_mode false (Some 1))) (take 2 calls) ∅).1).2 = Listed (Ok old) /\
  sublist (returned (runCalls (durable (config archive_mode false (Some 1))) (drop 2 calls) (runCalls (durable (config archive_mode false (Some 1))) (take 2 calls) ∅).1).2) more.
Proof.
  pose proof (audit_records_kept jsonQuote digest code pretty (config archive_mode false (Some 1)) ltac:(done) 0 (take 2 calls) (drop 2 calls) eq_refl
    calls_permitted calls_clean calls_timely ltac:(repeat (constructor; [done|]); constructor)) as H.
  cbv zeta in H. unfold durable. destruct (runCalls _ (drop 2 calls) _) as [e2 answers]. destruct H as (old & more & H1 & _ & H2). exists old, more. by split.
Defined.

Definition plainCalls : list AuditCall := [call ACreate 1 None; call (AAppend (denied "rm" inSession)) 2 None; call (AAppend (denied "ssh" inSession)) 4 None; call APrune 5 None;
  call ACreate 6 None; call (AGetAll true) 7 None; call AVerify 8 None].

Lemma durable_log_refines_memory_witness : (runCalls (durable (config delete_mode true (Some 1))) plainCalls ∅).2 =
  (runCalls (memoryCall jsonQuote digest code pretty (config delete_mode true (Some 1))) plainCalls emptyLog).2.
Proof.
  apply (durable_log_refines_memory jsonQuote digest code pretty (config delete_mode true (Some 1)) ltac:(done) 0 plainCalls eq_refl).
  - repeat (constructor; [done|]); constructor.
  - repeat constructor; intros scope [= <-]; repeat constructor; by eexists.
  - cbn. lia.
Defined.

(** The records of the first call that lists them, and a backend. *)
Definition recordsOf (a : AuditAnswer) : list GovernanceAuditRecord := match a with Listed (Ok l) => l | _ => [] end.
Definition archivingConfig : GovernanceAuditLogConfig := config archive_mode false (Some 1).
Definition final : gmap string JsonValue := (runCalls (durable archivingConfig) calls ∅).1.
Definition history : list GovernanceAuditRecord := recordsOf (durable archivingConfig (plain (AGetAll true)) final).2.
Definition exported : list GovernanceAuditRecord * list GovernanceAuditRecord :=
  match (durable archivingConfig (plain (AExport true)) final).2 with Exported (Ok p) => p | _ => ([], []) end.
Definition verified : GovernanceAuditVerification :=
  match (durable archivingConfig (plain AVerify) final).2 with Verified (Ok v) => v | _ => brokenAt 0 0 "" end.

Lemma history_genuine : chain jsonQuote digest code "secret" "" history /\ StronglySorted Z.lt (map ga_seq history) /\ length history = 2%nat.
Proof.
  destruct (listed_history jsonQuote digest code pretty archivingConfig ltac:(done) 0 calls eq_refl calls_permitted calls_clean calls_timely) as (l & Hl & Hc & Hs).
  unfold history, durable, final. unfold durable. rewrite Hl. split_and!; [exact Hc|exact Hs|]. revert Hl. vm_compute. by intros [= <-].
Qed.

Lemma tamper_evidence_witness : broken digest code "secret" \/ (Forall2 sameContent exported.2 (take (length exported.2) history) /\
  exists k, (exported.2 <> [] -> exported.1 <> [] -> k = length exported.2) /\ Forall2 sameContent exported.1 (take (length exported.1) (drop k history))).
Proof.
  destruct history_genuine as (Hc & Hs & _).
  apply (tamper_evidence jsonQuote digest code jsonQuote_head jsonQuote_delimited archivingConfig history Hc Hs (at_time 9) (at_time 9) (B final None) (B final None) (B final None) verified).
  - vm_compute. reflexivity.
  - vm_compute. reflexivity.
  - vm_compute. reflexivity.
  - apply (bool_decide_unpack _). vm_compute. exact I.
Defined.

Lemma redaction_complete_witness : let record := buildRecord jsonQuote digest code pretty (denied "rm" inSession) 1 2 "secret" (gc_redaction archivingConfig) "" None in
  ga_actor record = Some "[REDACTED]" /\ ga_payload record = ObjectJ [("args", ArrayJ [ObjectJ [("path", TextJ "p")]])] /\ reaches ["args"; "token"] (ga_payload record) = false /\
  buildRecord jsonQuote digest code pretty {| ge_type := "policy.denied"; ge_actor := Some "bob"; ge_subject := Some "rm"; ge_scope := Some inSession;
    ge_payload := Some [("args", UArray [UObject [("path", UText "p")]])]; ge_timestamp := None |} 1 2 "secret" (gc_redaction archivingConfig) "" None = record.
Proof.
  cbv zeta. destruct (redaction_complete jsonQuote digest code pretty (denied "rm" inSession) 1 2 "secret" (gc_redaction archivingConfig) "" None) as (H & Ha & _ & _ & _ & _ & _ & Hd & Hw).
  split_and!; [by apply Ha|vm_compute; reflexivity|exact (Forall_inv H)|]. apply Hd. apply (Hw [("args", UArray [UObject [("path", UText "p")]])] (Some "bob")); [vm_compute; reflexivity|done].
Defined.

(** A scope with an undefined tenant: the hash covers the text undefined, the
    stored record has no such field, and the log cannot be opened again. *)
Example undefined_scope_breaks : (durable archivingConfig (plain ACreate) (runCalls (durable archivingConfig) [call (AAppend (denied "rm" withoutTenant)) 2 None] ∅).1).2 =
  Created (Err (VerificationFailed "record hash mismatch")).
Proof. vm_compute. reflexivity. Qed.

(** Records deleted, then archive mode: the archive does not start at the
    beginning, which verification asks for. *)
Example mode_upgrade_breaks : (durable archivingConfig (plain ACreate) (runCalls (durable archivingConfig) [call (AAppend (denied "a" inSession)) 4 None]
    (runCalls (durable (config delete_mode false (Some 1))) [call (AAppend (denied "b" inSession)) 2 None; call (AAppend (denied "c" inSession)) 3 None] ∅).1).1).2 =
  Created (Err (VerificationFailed "record chain link broken")).
Proof. vm_compute. reflexivity. Qed.

(** A shorter retention after a restart: a record in the middle expires. *)
Example shorter_retention_breaks :
  let long := config delete_mode false None in
  let short := {| gc_signingKey := "secret"; gc_redaction := gc_redaction long; gc_retentionMs := Some 10; gc_maxEntries := None; gc_retentionMode := delete_mode;
    gc_legalHold := false; gc_storagePrefix := "governance-audit" |} in
  (durable short (plain ACreate) (runCalls (durable short) [call (AAppend (denied "b" inSession)) 3 None; call (AAppend (denied "c" inSession)) 20 None]
    (runCalls (durable long) [call (AAppend (denied "a" inSession)) 2 None] ∅).1).1).2 = Created (Err (VerificationFailed "record chain link broken")).
Proof. vm_compute. reflexivity. Qed.

(** The process dies after the record was deleted and before the manifest was
    saved. *)
Example dying_prune_breaks : let cfg := config delete_mode false (Some 1) in
  (durable cfg (plain ACreate) (runCalls (durable cfg) [call (AAppend (denied "a" inSession)) 2 None; call (AAppend (denied "b" inSession)) 3 (Some 3%nat)] ∅).1).2 =
  Created (Err (MissingRecord 1)).
Proof. vm_compute. reflexivity. Qed.

(** Clearing a log under legal hold leaves nothing. *)
Example clear_ignores_hold : let cfg := config delete_mode true None in
  (durable cfg (plain (AGetAll true)) (runCalls (durable cfg) [call (AAppend (denied "a" inSession)) 2 None; call AClear 3 None] ∅).1).2 = Listed (Ok []).
Proof. vm_compute. reflexivity. Qed.

(** The log in memory numbers its records from one again when it was pruned
    empty; the durable log does not. *)
Example memory_numbers_again : let cfg := config delete_mode false (Some 0) in let events := [call (AAppend (denied "a" inSession)) 2 None; call (AAppend (denied "b" inSession)) 3 None] in
  (map ga_seq (returned (runCalls (memoryCall jsonQuote digest code pretty cfg) events emptyLog).2), map ga_seq (returned (runCalls (durable cfg) events ∅).2)) = ([1; 1], [1; 2]).
Proof. vm_compute. reflexivity. Qed.
End AuditDemo.
